(* ===== verification/_CoqProject ===== *)
-Q . S2P
Prelude.v
Json.v
Text.v
Control.v
ReceiptFields.v
Serde.v
PhaseMachine.v
OperationReceipt.v
GenericReceipt.v
RestoreReceipt.v
ApplyReceipt.v
CaptureReceipt.v
Filesystem.v
Store.v
Publication.v
StoredReceipt.v
OperationView.v
Reading.v
Inventory.v
Backend.v
Refinement.v
Capacity.v
Healthy.v
Broker.v
BrokerSafety.v
BrokerFence.v
ReadRequest.v
Dispatch.v
Replies.v
Incoming.v
Actor.v
OperationStore.v
Custody.v
OutputEvents.v
Clock.v
Resolver.v
Continuations.v
RecordImpact.v
Visibility.v
Provenance.v
HttpProtocol.v
HttpHead.v
ResourceEvents.v
Number.v
Observed.v
Stills.v
Monitor.v
RecordClip.v
TakeStop.v
TakeStopSafety.v
TakeStart.v
TakeStartSafety.v
TakeStore.v
ReplayEvents.v
OutputStart.v
ToolSchema.v
JsonSchema.v
ToolValidation.v
ToolTyping.v
ToolMeaning.v
StdioOutput.v
StdioPublication.v
StdioInput.v
Sample.v
HttpSample.v
TakeSample.v
StartSample.v
StdioSample.v
ToolSample.v
Witnesses.v
