(* ===== verification/Prelude.v ===== *)
(** * OBS MCP native runtime: a verified model

    This library models the core of the Rust runtime under [src/native]: a process that puts
    one OBS Studio instance behind the Model Context Protocol.  What makes that process
    delicate is that its requests have effects on a live production: it must never send one
    twice, never send one nobody may send any more, never forget one that may have happened,
    and always keep a way to stop a recording.  Paths below are relative to [src/native].

    ** The parts and how they interact

    A client's call is checked by the control policy ([src/control.rs], [Control]) and, when
    it needs a person's consent, parked as a continuation ([src/confirmation.rs],
    [Continuations]).  The custody coordinator ([src/custody.rs], [Custody]) publishes the
    intent to dispatch as a receipt on disk before it queues the request, asks the policy and
    the broker again at the moment of dispatch, and publishes the outcome.  Receipts live in
    the operation store ([src/operation_store.rs]); several workflows share its only writer
    through the broker ([src/receipt_broker.rs], [Broker]).  The session
    ([src/session.rs]) has one owner of the socket: it takes commands from three queues, calls
    the guard, writes frames, routes the responses and publishes the events.  Beside it stand
    the registry of output events ([src/output_events.rs], [OutputEvents]), the veto of manual
    recording effects over a take ([src/record_impact.rs], [RecordImpact]), the selection of
    visible tools ([src/dynamic_visibility.rs], [src/tool_filter.rs], [Visibility]), the
    resolver helper's protocol ([crates/resolver], [Resolver]) and the clock ([src/clock.rs],
    [Clock]).

    Outputs and takes are built on these.  The start of an output subscribes, sends, waits for
    the first terminal event and asks for the status ([src/output_start_v2.rs], [OutputStart]);
    a saved replay is matched to its event ([src/replay_events.rs], [ReplayEvents]).  The
    supervisor of takes ([src/takes.rs], [src/output_start.rs], [src/record_clip.rs]) reserves a
    start, records its intent, has it confirmed and owns the take until it is stopped
    ([TakeStop], [TakeStart], [RecordClip]), with a monitor that watches the recording
    ([src/take_monitor.rs], [Monitor], [Stills], [Number]).  A journal keeps what was prepared
    for a production and what of it can be undone ([src/preparation_journal.rs], [Provenance]).

    Towards the client there are the standard streams ([src/stdio_output.rs],
    [src/stdio_input.rs], [StdioOutput], [StdioInput]) and HTTP: the head of a request
    ([src/http_tcp_head.rs], [HttpHead]), its admission ([src/http_protocol.rs],
    [HttpProtocol]) and the notifications about resources ([src/resource_events.rs],
    [ResourceEvents]).  What a tool answers to arguments its schema refuses is projected along
    the exported schemas ([src/tool_validation.rs], [ToolSchema], [ToolValidation], [ToolMeaning]).

    ** The files

    - Shared: this file (results and options, machine integers, strings as UTF-8 bytes,
      orders and sorting, totals over maps, tactics), [Json] ([serde_json::Value]), [Text]
      (byte strings), [Serde] (derived serialization), [PhaseMachine] (the interface of an
      updatable receipt and the facts about chains of updates).
    - Receipts: [ReceiptFields], [OperationReceipt], [GenericReceipt], [RestoreReceipt],
      [ApplyReceipt], [CaptureReceipt] (versions 1 to 5: record, validation, JSON form, phase
      machine), [StoredReceipt] (version dispatch).
    - Store: [Filesystem] (the calls of [std::fs] the store makes; each may fail and other
      processes may act before it), [Store] (layout checks, staging, rename, bounded reads),
      [Backend] (prepare and update of the five versions), [OperationView] (inventory,
      admission), [OperationStore] (the facade).  [Publication], [Reading], [Inventory],
      [Refinement] and [Healthy] hold the proofs about them.
    - Broker: [Capacity] (the class of what the store promises the broker, and its instance),
      [Broker], [BrokerSafety], [BrokerFence].
    - Session: [Dispatch] (the race between a caller and the socket owner over one request),
      [ReadRequest] (names of read-only requests), [Replies] ([response] and
      [batch_response]), [Incoming] ([incoming], [Publisher::publish] and the consumer),
      [Actor] ([actor], [drive], [send_active], [route_response], [retire_observations]).
    - Takes: [Number] (binary64 and the conversions of JavaScript), [Observed] ([js_number] and
      [js_string] of [src/observation.rs]), [Stills], [Monitor],
      [RecordClip], [TakeStop] (the supervisor's state and events, and the stop of a take),
      [TakeStart] (starts, clips, chapters and the steps of all of them together).
      [TakeStopSafety] and [TakeStartSafety] hold the invariants and the theorems, over the
      class of what a take asks of the store of receipts; [TakeStore] shows that the operation
      store is an instance.
    - Streams: [StdioOutput] (the publisher and its worker), [StdioPublication] (the invariant
      and the theorems), [StdioInput] (the reader, and the two ends together).
    - HTTP: [HttpHead], [HttpProtocol], [ResourceEvents].
    - Tools: [ToolSchema] (ordered trees, the admitted schemas, the catalogue), [ToolValidation]
      (the traversal and the entry points), [ToolTyping] (what the traversal decides, that it
      does not panic, and where the catalogue's schemas come from), [JsonSchema] (what the
      exported schemas mean, as JSON Schema has it and apart from the code), [ToolMeaning] (what
      the projector says is true of that meaning), [Visibility].
    - Outputs: [OutputEvents], [OutputStart], [ReplayEvents], [RecordImpact].
    - The rest: [Control], [Continuations], [Custody], [Provenance], [Clock], [Resolver].
    - [Sample], [HttpSample], [TakeSample], [StartSample], [StdioSample], [ToolSample] and
      [Witnesses]: concrete worlds in which the theorems' hypotheses hold, and the theorems
      applied in them.  Components that need no world keep their witnesses.

    ** How the code is read

    A struct is a [Record], an enum an [Inductive], a method a function from the state to its
    answer and the next state; [Result] is [result], [?] is [let?].  Integers are [Z] with
    their widths written out where the code checks or wraps them.  A call under a mutex is one
    step.  An [async] function that only awaits a lock or a bounded wait is one function; the
    [select!] loops of the socket owner are the inputs of [Actor.step], one constructor per
    branch with what the branch sees, and the race of a caller against that owner is the step
    relation of [Dispatch].  A call that awaits others for long, such as the start or the stop of
    a take, the writer of the standard output or the start of an output, is a task whose state
    is the place it waits at, and a step of the world moves one task from one wait to the next
    while anything else may happen between.  A panic ([expect], an index out of range) is [None]; the theorems
    show it is not reached.  Time is an argument: a reading of the clock is a number.

    What is not in [src] is a parameter with the laws the code relies on: the JSON text codec
    (class [SerdeJson]: decoding inverts encoding), SHA-256, the display of floating-point
    numbers and the parsing of their text, the logarithm, the JSON parsers of [Incoming], [Actor]
    and [ToolValidation] (no law), the parsers of heads and URIs and base64 of the HTTP front
    (no law but what a theorem names), random identifiers, the
    failures and the interference of the file system (no law but what a theorem names), and
    what a transform read makes of a frame (no law).

    ** What the theorems show

    - One request from call to receipt: the frame goes to the socket only with its intent on
      disk and every check passed at that moment ([custody_end_to_end],
      [begin_publishes_intent], [sent_only_when_guarded]); what the caller is told about
      dispatch is true ([reported_dispatch_is_true]); the outcome is recorded
      ([finish_records_response]).
    - The socket owner: every command is answered once, and told "not sent" exactly when its
      frame never left ([actor_answers_once]); every other answer is what the peer said, or
      unknown for a stated reason ([actor_results_explained]); frames do not interleave
      ([one_frame_at_a_time]); stops do not wait behind other work
      ([stop_control_not_blocked]); the end of the session answers everybody
      ([ended_session_answers_everyone]); batches and events are read without gaps, repeats or
      foreign entries ([batch_response_exact], [events_gapless]).
    - The store: publication is atomic under any failure of any call
      ([publication_atomic]), the operations implement a map of receipts
      ([store_refines_receipt_map]) in which a receipt only moves along its phase machine
      ([receipts_only_advance]), the inventory is exactly the validated receipts
      ([inventory_exact]), the JSON forms round-trip ([stored_receipt_roundtrip]), and on a
      disk without faults what is published is read back ([published_receipt_reads_back]).
    - Receipts: at most one dispatch per intent, workflow stages in order, bounded histories.
    - The broker: its invariant, that a reserved stop always finds room, that a lost proof of
      what is on disk is never regained, and that a fence only lets a request through that is
      recorded as dispatching with nothing else unsettled.
    - Control: a lease is not stolen, a live action needs consent.  Confirmations: a parked
      call is released at most once, by an answer that is consent.
    - Outputs: the first terminal event wins, path bytes are accounted; a start claims success
      only on an event received in its window or an active status ([output_start_is_truthful]),
      and reports an event that came early ([started_event_is_reported]); a saved replay is reported only when exactly one
      event matches ([saved_replay_is_unambiguous]); the ticket of a take says exactly what
      became of the manual effects after it, and a revocation is permanent.
    - Takes: a stop or a start is sent only with its receipt on disk, by who may send it and
      while the take is the one it was asked for ([stop_sent_under_authority],
      [start_sent_under_authority]); neither is sent again after an outcome that is not known
      ([stop_never_replayed]); what is put on record as observed was observed
      ([confirmed_stop_is_true], [observed_start_is_true]); one start at a time holds the
      reservation, until it gives it back ([reservation_is_held]); with the starts left out the
      steps are those of the supervisor alone ([starts_refine_supervisor]); no step panics
      ([stop_never_panics]).  The monitor is bounded and silent once stopped
      ([monitor_is_bounded], [stopped_monitor_is_final]), and finds the picture that stood still
      ([still_picture_found]).
    - The journal is valid after every operation, and a successor differs from its predecessor
      by exactly one ([journal_always_valid], [successor_is_one_operation]).
    - The streams: whole lines in the order of publication and nothing else reach the pipe,
      whatever the writer takes at a time ([publications_reach_the_pipe_in_order]), and the
      reader gets them back ([reader_gets_the_publications]); a committed publication completes
      ([committed_publications_complete]); permits are conserved, and a
      publication at work holds one item and exactly what it costs ([permits_conserved]).
    - HTTP: an exchange is admitted only with its token, host and origin as they must be
      ([exchange_is_authorized]); of the slices, unwraps and indexes of the admission one alone can
      fail ([admit_panics_only_on_empty_sentinel]); a head that parses has one reading
      ([complete_head_is_unambiguous]); notifications stay within their limits
      ([notifications_stay_within_limits]) and go to exactly their subscribers
      ([publish_exact]).
    - Tools: an input error is an error of the exported schema as JSON Schema reads it, and an
      input without issues is valid, but for one identifier the code takes in upper case against
      the schema's pattern ([input_errors_are_type_errors]); the projector does not panic ([projections_never_panic]); the controllers of the dynamic groups come
      from their own descriptors or not at all ([catalogue_keeps_controllers_apart]); the static
      filter and the dynamic visibility select the same tools, switching groups changes exactly
      what it announces, and never shows what a session may not have.
    - Resolver and clock: the frames round-trip through both processes, the text of a
      timestamp is the calendar date of its epoch milliseconds.

    ** Bounds and fuel

    Loops over finite data are structural.  [Clock.year_loop] has one unit of fuel per year up
    to 9999 and is proved to stop before; [Visibility.Config.strip_all] has the length of the
    text, of which every turn strips a byte; [Actor.run] takes its inputs one by one and the
    drain at the end of a session takes exactly one input per queued command.  [walk] and
    [qualify] count down the levels [MAX_DEPTH] allows, so that running out is the refusal of the
    source.  The step relations of takes, streams and outputs are unbounded runs.  Directory
    listings and retries of the store are bounded by the constants of the source.

    ** Not modelled

    Platform TLS, the sockets and bodies of the HTTP front end, the resolver's child process and
    the composition of the process are input and output around third-party code.  Large drivers
    are left out: scenes, templates, snapshots and audits, trimming, the demo, media and capture
    windows, the planners of requests and transforms, and the reads of the preflight; their
    receipts, their custody and the session under them are modelled.  Of the session, the
    handshake, the semaphores of admission, the abort of the owner's task and the projection
    workers are not; of the observations only the vocabulary is.  Of the takes, the text of the
    reports, the status report, the inspection of the recorded file and the joining of jobs at
    shutdown are not.  Configuration files, the schemas of arguments and the JSON encoder are
    plain data code around libraries.  Debug and Display texts are modelled only where another
    part of the program reads them. *)
From stdpp Require Export base list strings gmap pretty.
From Stdlib Require Export ZArith Lia Sorted.
From Stdlib Require Import Ascii.

#[global] Open Scope Z_scope.

(** ** Results

    Rust's [Result<T, E>] and the [?] operator. *)

Inductive result (E A : Type) : Type :=
| Ok (a : A)
| Err (e : E).
Arguments Ok {E A} a.
Arguments Err {E A} e.

Declare Scope result_scope.
Delimit Scope result_scope with result.
#[global] Open Scope result_scope.

Definition bind_result {E A B} (c : result E A) (k : A -> result E B) : result E B :=
  match c with
  | Ok a => k a
  | Err e => Err e
  end.

Notation "'let?' x ':=' c 'in' k" := (bind_result c (fun x => k))
  (at level 10, x pattern, c at level 100, k at level 200) : result_scope.

(** [Option::ok_or] *)
Definition ok_or {E A} (o : option A) (e : E) : result E A :=
  match o with
  | Some a => Ok a
  | None => Err e
  end.

Definition is_ok {E A} (r : result E A) : bool :=
  match r with
  | Ok _ => true
  | Err _ => false
  end.

Definition is_err {E A} (r : result E A) : bool := negb (is_ok r).

(** [Option::and_then], [Option::filter], [Option::or_else] *)
Definition and_then {A B} (o : option A) (f : A -> option B) : option B :=
  match o with
  | Some a => f a
  | None => None
  end.

Notation "o '>>?' f" := (and_then o f) (at level 50, left associativity) : result_scope.

Definition opt_filter {A} (p : A -> bool) (o : option A) : option A :=
  match o with
  | Some a => if p a then Some a else None
  | None => None
  end.

Definition or_else {A} (o1 o2 : option A) : option A :=
  match o1 with
  | Some a => Some a
  | None => o2
  end.

(** [Option::is_some_and] and [Option::is_none_or] *)
Definition is_some_and {A} (o : option A) (p : A -> bool) : bool :=
  match o with
  | Some a => p a
  | None => false
  end.

Definition is_none_or {A} (o : option A) (p : A -> bool) : bool :=
  match o with
  | Some a => p a
  | None => true
  end.

Definition is_none {A} (o : option A) : bool :=
  match o with
  | Some _ => false
  | None => true
  end.

(** ** Machine integers

    Unsigned integers are [Z] with their range written out. *)

Definition U8_MAX : Z := 255.
Definition U16_MAX : Z := 65535.
Definition U64_MAX : Z := 18446744073709551615.

(** [usize] on the supported 64-bit targets. *)
Definition USIZE_MAX : Z := U64_MAX.

Definition is_u8 (n : Z) : Prop := 0 <= n <= U8_MAX.
Definition is_u16 (n : Z) : Prop := 0 <= n <= U16_MAX.
Definition is_u64 (n : Z) : Prop := 0 <= n <= U64_MAX.

(** [u64::checked_add] *)
Definition checked_add (a b : Z) : option Z :=
  if a + b <=? U64_MAX then Some (a + b) else None.

(** [Instant]: nanoseconds, with the range of the platform's clock *)
Definition INSTANT_MAX : Z := 2 ^ 63 * 10 ^ 9 - 1.
Definition instant_checked_add (t d : Z) : option Z :=
  if t + d <=? INSTANT_MAX then Some (t + d) else None.

(** [u64::checked_sub] *)
Definition checked_sub (a b : Z) : option Z :=
  if b <=? a then Some (a - b) else None.

(** [usize::saturating_add] *)
Definition saturating_add (a b : Z) : Z := Z.min (a + b) USIZE_MAX.

Lemma checked_add_Some a b c :
  checked_add a b = Some c <-> c = a + b /\ a + b <= U64_MAX.
Proof.
  unfold checked_add. destruct (Z.leb_spec (a + b) U64_MAX).
  - split; [intros [= <-]; lia | intros [-> _]; done].
  - split; [done | lia].
Qed.

Lemma checked_add_None a b : checked_add a b = None <-> U64_MAX < a + b.
Proof.
  unfold checked_add. destruct (Z.leb_spec (a + b) U64_MAX); split; (done || lia).
Qed.

(** ** Strings

    A Rust [str] is its UTF-8 byte sequence, so [len], [==] and [Ord] on
    [str] are those of the byte string. *)

Definition byte_of (a : ascii) : Z := Z.of_N (N_of_ascii a).

Fixpoint bytes_of (s : string) : list Z :=
  match s with
  | EmptyString => []
  | String a s => byte_of a :: bytes_of s
  end.

Definition str_len (s : string) : Z := Z.of_nat (String.length s).

Definition str_is_empty (s : string) : bool :=
  match s with
  | EmptyString => true
  | String _ _ => false
  end.

(** A UTF-8 continuation byte has the form [10xxxxxx]; every other byte starts
    a code point, and a byte from 0xF0 starts one outside the basic plane. *)
Definition is_continuation (b : Z) : bool := Z.land b 192 =? 128.

(** [str::chars().count()] *)
Definition char_count (s : string) : Z :=
  Z.of_nat (List.length (List.filter (fun b => negb (is_continuation b)) (bytes_of s))).

(** [str::encode_utf16().count()] *)
Definition utf16_count (s : string) : Z :=
  char_count s + Z.of_nat (List.length (List.filter (fun b => 240 <=? b) (bytes_of s))).

Definition str_eqb (a b : string) : bool := String.eqb a b.

(** [Ord] on byte slices, hence on [str] *)
Fixpoint bytes_cmp (a b : list Z) : comparison :=
  match a, b with
  | [], [] => Eq
  | [], _ :: _ => Lt
  | _ :: _, [] => Gt
  | x :: a, y :: b =>
      match x ?= y with
      | Eq => bytes_cmp a b
      | c => c
      end
  end.

Definition str_cmp (a b : string) : comparison := bytes_cmp (bytes_of a) (bytes_of b).

(** [a < b] on [str] *)
Definition str_ltb (a b : string) : bool :=
  match str_cmp a b with Lt => true | _ => false end.

(** Is the byte string well-formed UTF-8? ([OsString::into_string] on Unix) *)
Fixpoint utf8_bytes (bs : list Z) : bool :=
  let cont lo hi b := (lo <=? b) && (b <=? hi) in
  match bs with
  | [] => true
  | b0 :: r0 =>
      if b0 <? 128 then utf8_bytes r0
      else match r0 with
      | [] => false
      | b1 :: r1 =>
          if (194 <=? b0) && (b0 <=? 223) then cont 128 191 b1 && utf8_bytes r1
          else match r1 with
          | [] => false
          | b2 :: r2 =>
              if (224 <=? b0) && (b0 <=? 239) then
                cont (if b0 =? 224 then 160 else 128) (if b0 =? 237 then 159 else 191) b1
                && cont 128 191 b2 && utf8_bytes r2
              else match r2 with
              | [] => false
              | b3 :: r3 =>
                  (240 <=? b0) && (b0 <=? 244)
                  && cont (if b0 =? 240 then 144 else 128) (if b0 =? 244 then 143 else 191) b1
                  && cont 128 191 b2 && cont 128 191 b3 && utf8_bytes r3
              end
          end
      end
  end.

Definition valid_utf8 (s : string) : bool := utf8_bytes (bytes_of s).

(** [str::strip_suffix] and [str::ends_with] *)
Definition strip_suffix (suffix s : string) : option string :=
  let n := (String.length s - String.length suffix)%nat in
  if (String.length suffix <=? String.length s)%nat
     && String.eqb (String.substring n (String.length suffix) s) suffix
  then Some (String.substring 0 n s) else None.

Definition ends_with (suffix s : string) : bool := negb (is_none (strip_suffix suffix s)).

(** [value.join(sep)] *)
Fixpoint join (sep : string) (parts : list string) : string :=
  match parts with
  | [] => EmptyString
  | [p] => p
  | p :: rest => String.append p (String.append sep (join sep rest))
  end.

Lemma str_eqb_eq a b : str_eqb a b = true <-> a = b.
Proof. apply String.eqb_eq. Qed.

Lemma str_eqb_neq a b : str_eqb a b = false <-> a <> b.
Proof. apply String.eqb_neq. Qed.

Lemma str_eqb_refl a : str_eqb a a = true.
Proof. apply String.eqb_refl. Qed.

Lemma bytes_of_range s : Forall (fun b => 0 <= b <= 255) (bytes_of s).
Proof.
  induction s as [|a s IH]; simpl; constructor; auto.
  unfold byte_of. pose proof (N_ascii_bounded a). lia.
Qed.

(** Is the string one of the listed literals? ([matches!] on a [str]) *)
Definition one_of (s : string) (names : list string) : bool :=
  existsb (str_eqb s) names.

Lemma one_of_In s names : one_of s names = true <-> In s names.
Proof.
  unfold one_of. rewrite existsb_exists. split.
  - intros (x & Hin & ->%str_eqb_eq). done.
  - intros Hin. exists s. split; [done | apply str_eqb_refl].
Qed.

Lemma bytes_cmp_eq a b : bytes_cmp a b = Eq <-> a = b.
Proof.
  revert b. induction a as [|x a IH]; intros [|y b]; simpl; try done.
  destruct (Z.compare_spec x y) as [->|H|H]; simpl.
  - rewrite IH. naive_solver.
  - split; [done|]. intros [=]. lia.
  - split; [done|]. intros [=]. lia.
Qed.

Lemma bytes_cmp_antisym a b : bytes_cmp b a = CompOpp (bytes_cmp a b).
Proof.
  revert b. induction a as [|x a IH]; intros [|y b]; simpl; try done.
  rewrite (Z.compare_antisym x y). destruct (x ?= y); simpl; auto.
Qed.

Lemma bytes_cmp_trans a b c :
  bytes_cmp a b = Lt -> bytes_cmp b c = Lt -> bytes_cmp a c = Lt.
Proof.
  revert b c. induction a as [|x a IH]; intros [|y b] [|z c]; simpl; try done.
  destruct (Z.compare_spec x y), (Z.compare_spec y z), (Z.compare_spec x z);
    try done; try lia; eauto.
Qed.

Lemma byte_of_inj a b : byte_of a = byte_of b -> a = b.
Proof.
  unfold byte_of. intros H%N2Z.inj.
  rewrite <- (ascii_N_embedding a), <- (ascii_N_embedding b). by rewrite H.
Qed.

Lemma bytes_of_inj a b : bytes_of a = bytes_of b -> a = b.
Proof.
  revert b. induction a as [|x a IH]; intros [|y b]; simpl; try done.
  intros [= Hx%byte_of_inj Hr%IH]. by subst.
Qed.

Lemma length_bytes_of s : List.length (bytes_of s) = String.length s.
Proof. induction s; simpl; congruence. Qed.

Lemma str_cmp_eq a b : str_cmp a b = Eq <-> a = b.
Proof.
  unfold str_cmp. rewrite bytes_cmp_eq. split; [apply bytes_of_inj | by intros ->].
Qed.

Lemma substring_full s : String.substring 0 (String.length s) s = s.
Proof. induction s; simpl; congruence. Qed.

Lemma substring_prefix a b : String.substring 0 (String.length a) (a +:+ b) = a.
Proof. induction a as [|c a IH]; simpl; [by destruct b|]. by f_equal. Qed.

Lemma substring_suffix a b n : String.substring (String.length a) n (a +:+ b) = String.substring 0 n b.
Proof. induction a as [|c a IH]; simpl; auto. Qed.

Lemma string_length_app a b : String.length (a +:+ b) = (String.length a + String.length b)%nat.
Proof. induction a as [|c a IH]; simpl; [done|]. by rewrite IH. Qed.

Lemma strip_suffix_app suffix a : strip_suffix suffix (a +:+ suffix) = Some a.
Proof.
  unfold strip_suffix. rewrite string_length_app.
  replace (String.length a + String.length suffix - String.length suffix)%nat
    with (String.length a) by lia.
  rewrite substring_suffix, substring_full, String.eqb_refl, substring_prefix.
  by rewrite (proj2 (Nat.leb_le _ _)) by lia.
Qed.

Lemma substring_split s n :
  (n <= String.length s)%nat -> String.substring 0 n s +:+ String.substring n (String.length s - n) s = s.
Proof.
  revert s. induction n as [|n IH]; intros s Hn; simpl.
  - rewrite Nat.sub_0_r. destruct s; simpl; [done|]. by rewrite substring_full.
  - destruct s as [|c s]; simpl in *; [lia|].
    transitivity (String c (String.substring 0 n s +:+ String.substring n (String.length s - n) s)); [done|].
    by rewrite IH by lia.
Qed.

Lemma strip_suffix_Some suffix s a : strip_suffix suffix s = Some a <-> s = a +:+ suffix.
Proof.
  split; [|intros ->; apply strip_suffix_app]. unfold strip_suffix.
  destruct (Nat.leb_spec (String.length suffix) (String.length s)); simpl; [|done].
  destruct (String.eqb_spec (String.substring (String.length s - String.length suffix)
    (String.length suffix) s) suffix) as [E|]; [|done]. intros [= <-].
  rewrite <- E at 2.
  replace (String.length suffix) with (String.length s - (String.length s - String.length suffix))%nat
    at 3 by lia.
  symmetry. apply substring_split. lia.
Qed.

Lemma bytes_of_app a b : bytes_of (a +:+ b) = bytes_of a ++ bytes_of b.
Proof. induction a as [|c a IH]; simpl; [done|]. by rewrite <- IH. Qed.

Lemma ends_with_true suffix s : ends_with suffix s = true <-> exists a, s = a +:+ suffix.
Proof.
  unfold ends_with. destruct (strip_suffix suffix s) as [a|] eqn:E; simpl; split; try done.
  - intros _. exists a. by apply strip_suffix_Some.
  - intros [a Ha]. apply strip_suffix_Some in Ha. congruence.
Qed.

(** ** Orders given by a comparison function *)

Class CompareOrder {A} (cmp : A -> A -> comparison) : Prop := {
  cmp_refl a : cmp a a = Eq;
  cmp_antisym a b : cmp b a = CompOpp (cmp a b);
  cmp_trans a b c : cmp a b = Lt -> cmp b c = Lt -> cmp a c = Lt;
  cmp_eq_l a b c : cmp a b = Eq -> cmp a c = cmp b c
}.

(** [Ordering::then_with] *)
Definition then_with (c1 c2 : comparison) : comparison :=
  match c1 with Eq => c2 | c => c end.

#[export] Instance bytes_cmp_order : CompareOrder bytes_cmp.
Proof.
  split.
  - intros a. by apply bytes_cmp_eq.
  - apply bytes_cmp_antisym.
  - apply bytes_cmp_trans.
  - by intros a b c ->%bytes_cmp_eq.
Qed.

Section CompareOrders.
Context {A B : Type}.

Lemma compare_order_on (cmp : A -> A -> comparison) (f : B -> A) :
  CompareOrder cmp -> CompareOrder (fun x y => cmp (f x) (f y)).
Proof.
  intros H. split; intros.
  - apply cmp_refl.
  - apply cmp_antisym.
  - eapply cmp_trans; eauto.
  - by apply cmp_eq_l.
Qed.

Lemma compare_order_flip (cmp : A -> A -> comparison) :
  CompareOrder cmp -> CompareOrder (fun x y => cmp y x).
Proof.
  intros H. split; intros.
  - apply cmp_refl.
  - apply cmp_antisym.
  - eapply cmp_trans; eauto.
  - rewrite (cmp_antisym a c), (cmp_antisym b c). f_equal. apply cmp_eq_l.
    by rewrite (cmp_antisym b a), H0.
Qed.

Lemma compare_order_then (c1 c2 : A -> A -> comparison) :
  CompareOrder c1 -> CompareOrder c2 -> CompareOrder (fun x y => then_with (c1 x y) (c2 x y)).
Proof.
  intros H1 H2. split.
  - intros a. by rewrite !cmp_refl.
  - intros a b. rewrite (cmp_antisym (cmp := c1) a b), (cmp_antisym (cmp := c2) a b).
    by destruct (c1 a b).
  - intros a b c. unfold then_with.
    destruct (c1 a b) eqn:E1; [| |done].
    + rewrite <- (cmp_eq_l (cmp := c1) _ _ c E1).
      destruct (c1 a c); try done. apply cmp_trans.
    + intros _. destruct (c1 b c) eqn:E2; [| |done].
      * intros _. assert (c1 c b = Eq) as E3 by (rewrite (cmp_antisym b c), E2; done).
        rewrite (cmp_antisym c a). rewrite (cmp_eq_l (cmp := c1) _ _ a E3).
        by rewrite (cmp_antisym a b), E1.
      * intros _. by rewrite (cmp_trans _ _ _ E1 E2).
  - intros a b c. unfold then_with. destruct (c1 a b) eqn:E1; try done.
    intros E2. rewrite (cmp_eq_l (cmp := c1) _ _ c E1). by rewrite (cmp_eq_l (cmp := c2) _ _ c E2).
Qed.
End CompareOrders.

(** ** Stable sorting ([slice::sort_by]) *)

Section Sorting.
Context {A : Type} (cmp : A -> A -> comparison).

Fixpoint sort_insert (x : A) (l : list A) : list A :=
  match l with
  | [] => [x]
  | y :: rest =>
      match cmp x y with
      | Gt => y :: sort_insert x rest
      | _ => x :: l
      end
  end.

Definition sort_by (l : list A) : list A := foldr sort_insert [] l.

Lemma sort_insert_perm x l : Permutation (sort_insert x l) (x :: l).
Proof.
  induction l as [|y l IH]; simpl; [done|].
  destruct (cmp x y); [done|done|]. rewrite IH. constructor.
Qed.

Lemma sort_by_perm l : Permutation (sort_by l) l.
Proof.
  induction l as [|x l IH]; simpl; [done|]. by rewrite sort_insert_perm, IH.
Qed.

Lemma sort_insert_swap `{!CompareOrder cmp} x y l :
  cmp x y <> Eq -> sort_insert x (sort_insert y l) = sort_insert y (sort_insert x l).
Proof.
  intros Hne. assert (Hne' : cmp y x <> Eq)
    by (rewrite (cmp_antisym x y); by destruct (cmp x y)).
  induction l as [|z l IH]; simpl.
  { rewrite (cmp_antisym x y). by destruct (cmp x y). }
  pose proof (cmp_antisym x y) as Hxy.
  destruct (cmp x z) eqn:Exz, (cmp y z) eqn:Eyz; simpl;
    rewrite ?Exz, ?Eyz, ?Hxy; simpl; try done;
    try (destruct (cmp x y) eqn:E; simpl; rewrite ?Exz, ?Eyz; done).
  all: destruct (cmp x y) eqn:E; simpl; rewrite ?Exz, ?Eyz; simpl; try done.
  all: try (rewrite IH; done).
  all: exfalso.
  all: pose proof (cmp_antisym x z); pose proof (cmp_antisym y z).
  all: rewrite ?Exz, ?Eyz in *; simpl in *.
  all: try (pose proof (cmp_eq_l _ _ y Exz); congruence).
  all: try (pose proof (cmp_eq_l _ _ x Eyz); congruence).
  all: try (assert (cmp x z = Lt) by (eapply cmp_trans; eauto); congruence).
  all: assert (cmp y z = Lt) by (eapply cmp_trans; eauto); congruence.
Qed.

(** When no two distinct elements compare equal, the sorted list does not depend
    on the order of the input. *)
Lemma sort_by_unique `{!CompareOrder cmp} l l' :
  Permutation l l' -> NoDup l -> (forall x y, In x l -> In y l -> cmp x y = Eq -> x = y) ->
  sort_by l = sort_by l'.
Proof.
  induction 1 as [|x l l' Hp IH|x y l|l l1 l2 H1 IH1 H2 IH2]; simpl; intros Hnd Hinj.
  - done.
  - f_equal. apply IH; [by inversion Hnd|]. intros. apply Hinj; auto.
  - apply sort_insert_swap. intros Heq.
    assert (y = x) as -> by (apply Hinj; auto; by left).
    inversion Hnd as [|? ? Hin _]; subst. apply Hin, list_elem_of_In. by left.
  - rewrite IH1 by done. apply IH2.
    + by rewrite <- H1.
    + intros a b Ha Hb. apply Hinj; (eapply Permutation_in; [symmetry; exact H1|done]).
Qed.
(** No element comes before a smaller one. *)
Definition in_order (a b : A) : Prop := cmp a b <> Gt.

Lemma sort_insert_sorted `{!CompareOrder cmp} x l :
  Sorted in_order l -> Sorted in_order (sort_insert x l).
Proof.
  induction 1 as [|y l Hl IH Hy]; simpl; [by repeat constructor|].
  destruct (cmp x y) eqn:E.
  - repeat constructor; try done. unfold in_order. by rewrite E.
  - repeat constructor; try done. unfold in_order. by rewrite E.
  - constructor; [done|]. destruct l as [|z l]; simpl.
    + constructor. unfold in_order. by rewrite (cmp_antisym x y), E.
    + destruct (cmp x z); constructor; unfold in_order;
        first [by rewrite (cmp_antisym x y), E | by inversion Hy].
Qed.

Lemma sort_by_sorted `{!CompareOrder cmp} l : Sorted in_order (sort_by l).
Proof. induction l; simpl; [constructor|]. by apply sort_insert_sorted. Qed.
End Sorting.

Lemma existsb_none {A} (p : A -> bool) l : (forall x, In x l -> p x = false) -> existsb p l = false.
Proof.
  intros H. destruct (existsb p l) eqn:E; [|done].
  apply existsb_exists in E as (x & Hin & Hx). by rewrite H in Hx.
Qed.

Lemma Forall2_In_l {A B} (P : A -> B -> Prop) l k x :
  Forall2 P l k -> In x l -> exists y, In y k /\ P x y.
Proof. induction 1; simpl; [done|]. intros [<-|Hin]; naive_solver. Qed.

Lemma Forall2_In_r {A B} (P : A -> B -> Prop) l k y :
  Forall2 P l k -> In y k -> exists x, In x l /\ P x y.
Proof. induction 1; simpl; [done|]. intros [<-|Hin]; naive_solver. Qed.

Lemma bool_filter_perm {A} (p : A -> bool) l l' :
  Permutation l l' -> Permutation (List.filter p l) (List.filter p l').
Proof.
  induction 1 as [|x l l' _ IH|x y l|]; simpl; [done|..].
  - by destruct (p x); rewrite IH.
  - destruct (p x), (p y); try done. constructor.
  - by etrans.
Qed.

(** [Iterator::position] *)
Fixpoint position {A} (p : A -> bool) (l : list A) : option nat :=
  match l with
  | [] => None
  | x :: rest => if p x then Some 0%nat else S <$> position p rest
  end.

Lemma position_Some {A} (p : A -> bool) l i :
  position p l = Some i <->
  exists pre x suf, l = pre ++ x :: suf /\ length pre = i /\
    forallb (fun y => negb (p y)) pre = true /\ p x = true.
Proof.
  revert i. induction l as [|y l IH]; intros i; simpl.
  - split; [done|]. intros (pre & x & suf & H & _). by destruct pre.
  - destruct (p y) eqn:E.
    + split.
      * intros [= <-]. exists [], y, l. done.
      * intros (pre & x & suf & H & Hlen & Hpre & Hx). destruct pre as [|z pre]; simpl in *.
        -- by subst.
        -- simplify_eq. rewrite E in Hpre. done.
    + rewrite fmap_Some. split.
      * intros (j & Hj & ->). apply IH in Hj as (pre & x & suf & -> & <- & Hpre & Hx).
        exists (y :: pre), x, suf. simpl. by rewrite E.
      * intros (pre & x & suf & H & Hlen & Hpre & Hx). destruct pre as [|z pre]; simpl in *.
        -- simplify_eq. congruence.
        -- simplify_eq. exists (length pre). split; [|done]. apply IH.
           exists pre, x, suf. rewrite E in Hpre. done.
Qed.

Lemma position_first {A} (p : A -> bool) l i :
  position p l = Some i ->
  exists x, l !! i = Some x /\ p x = true /\
    forall j y, (j < i)%nat -> l !! j = Some y -> p y = false.
Proof.
  intros (pre & x & suf & -> & <- & Hpre & Hx)%position_Some. exists x.
  split; [by rewrite lookup_app_r, Nat.sub_diag by lia|]. split; [done|].
  intros j y Hj. rewrite lookup_app_l by done. intros Hy%list_elem_of_lookup_2.
  rewrite forallb_forall in Hpre. apply negb_true_iff, Hpre. by apply list_elem_of_In.
Qed.

Lemma position_None {A} (p : A -> bool) l :
  position p l = None <-> forallb (fun y => negb (p y)) l = true.
Proof.
  induction l as [|y l IH]; simpl; [done|]. destruct (p y); simpl; [done|].
  rewrite fmap_None. done.
Qed.

(** ** Totals over a map *)

Section MapTotal.
Context {K : Type} `{Countable K} {A : Type} (f : A -> Z).

Definition map_total (m : gmap K A) : Z :=
  foldr (fun '(_, x) acc => f x + acc) 0 (map_to_list m).

Lemma total_perm (l l' : list (K * A)) :
  Permutation l l' ->
  foldr (fun '(_, x) acc => f x + acc) 0 l = foldr (fun '(_, x) acc => f x + acc) 0 l'.
Proof.
  induction 1 as [|[? ?] ? ? ? IH|[? ?] [? ?] ?|? ? ? ? IH1 ? IH2]; simpl; [done|lia|lia|congruence].
Qed.

Lemma map_total_delete m k x : m !! k = Some x -> map_total m = f x + map_total (delete k m).
Proof. intros Hk. unfold map_total. by rewrite <- (total_perm _ _ (map_to_list_delete m k x Hk)). Qed.

Lemma map_total_insert m k x x' :
  m !! k = Some x -> map_total (<[k := x']> m) = map_total m - f x + f x'.
Proof.
  intros Hk. rewrite (map_total_delete _ k x') by apply lookup_insert_eq.
  rewrite (map_total_delete m k x Hk), delete_insert_eq. lia.
Qed.

Lemma map_total_fresh m k x : m !! k = None -> map_total (<[k := x]> m) = map_total m + f x.
Proof.
  intros Hk. rewrite (map_total_delete _ k x) by apply lookup_insert_eq.
  rewrite delete_insert_eq, delete_id by done. lia.
Qed.

Lemma map_total_nonneg m : (forall k x, m !! k = Some x -> 0 <= f x) -> 0 <= map_total m.
Proof.
  intros Hf. unfold map_total.
  assert (forall k x, In (k, x) (map_to_list m) -> 0 <= f x) as Hl.
  { intros k x Hin. apply (Hf k). by apply elem_of_map_to_list, list_elem_of_In. }
  induction (map_to_list m) as [|[k x] l IH]; simpl; [lia|].
  pose proof (Hl k x (or_introl eq_refl)). specialize (IH (fun k' x' Hin => Hl k' x' (or_intror Hin))).
  lia.
Qed.
End MapTotal.

(** ** Automation *)

Create HintDb obs.

Create Rewrite HintDb obs_bool.

#[export] Hint Rewrite
  andb_true_iff andb_false_iff orb_true_iff orb_false_iff negb_true_iff negb_false_iff
  Z.eqb_eq Z.eqb_neq Z.leb_le Z.leb_gt Z.ltb_lt Z.ltb_ge
  str_eqb_eq str_eqb_neq bool_decide_eq_true bool_decide_eq_false
  : obs_bool.

(** Turn boolean tests in the context and the goal into propositions. *)
Ltac to_prop := autorewrite with obs_bool in *.

(** Case on the condition of every [if] and the scrutinee of every [match] that
    a hypothesis or the goal is stuck on, discharging the impossible branches. *)
Ltac split_match :=
  repeat match goal with
    | H : context [match ?x with _ => _ end] |- _ =>
        match type of H with _ => destruct x eqn:?; simplify_eq/= end
    | |- context [match ?x with _ => _ end] => destruct x eqn:?; simplify_eq/=
    end.

(** One step of the same for hypothesis [H] only. *)
Ltac step_in H :=
  match type of H with
  | context [match ?x with _ => _ end] => destruct x eqn:?; simplify_eq/=
  end.

(** Invert a chain of [let?] in hypothesis [H] that ends in [Ok]. *)
Ltac invert_ok H :=
  repeat (unfold bind_result, ok_or in H; step_in H).

Lemma bind_result_Ok {E A B} (c : result E A) (k : A -> result E B) b :
  bind_result c k = Ok b <-> exists a, c = Ok a /\ k a = Ok b.
Proof.
  destruct c; simpl; split.
  - eauto.
  - intros (? & [= ->] & ?). done.
  - done.
  - intros (? & ? & ?). done.
Qed.

Lemma ok_or_Ok {E A} (o : option A) (e : E) a : ok_or o e = Ok a <-> o = Some a.
Proof. destruct o; simpl; split; congruence. Qed.

Lemma is_some_and_true {A} (o : option A) p :
  is_some_and o p = true <-> exists a, o = Some a /\ p a = true.
Proof. destruct o; simpl; naive_solver. Qed.
