(* ===== verification/Json.v ===== *)
(** * JSON values

    The [serde_json::Value] type the runtime passes around, with the accessors
    the modelled code calls: [get], [as_str], [as_bool], [as_u64], [as_f64],
    [is_object], [as_array].  An object is a [BTreeMap<String, Value>]: an
    association list kept in increasing byte order of its keys.  Floating-point
    numbers are the IEEE 754 binary64 values of [SpecFloat]. *)
From Stdlib Require Import SpecFloat.
From S2P Require Import Prelude.

(** ** binary64 *)

Definition f64 : Type := spec_float.
Definition f64_of_Z (z : Z) : f64 := binary_normalize 53 1024 z 0 false.
Definition f64_zero : f64 := S754_zero false.
Definition f64_eqb (a b : f64) : bool := SFeqb a b.
Definition f64_leb (a b : f64) : bool := SFleb a b.
Definition f64_ltb (a b : f64) : bool := SFltb a b.

(** ** Values *)

(** [serde_json::Number]: a [u64], a negative [i64] or a finite [f64]. *)
Inductive Number : Type :=
| PosInt (n : Z)
| NegInt (n : Z)
| Float (f : f64).

Inductive Value : Type :=
| Null
| Bool (b : bool)
| Num (n : Number)
| Str (s : string)
| Array (vs : list Value)
| Object (fields : list (string * Value)).

(** [==] on numbers and on values: maps are equal when they have the same entries, hence the
    same sorted list of them. *)
Definition number_eqb (a b : Number) : bool :=
  match a, b with
  | PosInt x, PosInt y | NegInt x, NegInt y => x =? y
  | Float x, Float y => f64_eqb x y
  | _, _ => false
  end.

Fixpoint value_eqb (a b : Value) : bool :=
  match a, b with
  | Null, Null => true
  | Bool x, Bool y => Bool.eqb x y
  | Num x, Num y => number_eqb x y
  | Str x, Str y => str_eqb x y
  | Array xs, Array ys =>
      (fix values (xs ys : list Value) : bool :=
         match xs, ys with
         | [], [] => true
         | x :: xs, y :: ys => value_eqb x y && values xs ys
         | _, _ => false
         end) xs ys
  | Object xs, Object ys =>
      (fix entries (xs ys : list (string * Value)) : bool :=
         match xs, ys with
         | [], [] => true
         | (j, x) :: xs, (k, y) :: ys => str_eqb j k && value_eqb x y && entries xs ys
         | _, _ => false
         end) xs ys
  | _, _ => false
  end.

(** ** Accessors *)

Fixpoint field (k : string) (fields : list (string * Value)) : option Value :=
  match fields with
  | [] => None
  | (k', v) :: rest => if str_eqb k k' then Some v else field k rest
  end.

(** [Value::get(&str)] *)
Definition get (k : string) (v : Value) : option Value :=
  match v with
  | Object fields => field k fields
  | _ => None
  end.

(** [value[k]]: [Null] when absent *)
Definition index (k : string) (v : Value) : Value :=
  match get k v with Some x => x | None => Null end.

Definition as_str (v : Value) : option string :=
  match v with Str s => Some s | _ => None end.

Definition as_bool (v : Value) : option bool :=
  match v with Bool b => Some b | _ => None end.

Definition as_array (v : Value) : option (list Value) :=
  match v with Array vs => Some vs | _ => None end.

Definition as_object (v : Value) : option (list (string * Value)) :=
  match v with Object fields => Some fields | _ => None end.

Definition is_null (v : Value) : bool :=
  match v with Null => true | _ => false end.
Definition is_object (v : Value) : bool :=
  match v with Object _ => true | _ => false end.
Definition is_array (v : Value) : bool :=
  match v with Array _ => true | _ => false end.
Definition is_string (v : Value) : bool :=
  match v with Str _ => true | _ => false end.

(** [Value::as_u64] *)
Definition as_u64 (v : Value) : option Z :=
  match v with Num (PosInt n) => Some n | _ => None end.

(** [Value::as_f64] *)
Definition as_f64 (v : Value) : option f64 :=
  match v with
  | Num (PosInt n) | Num (NegInt n) => Some (f64_of_Z n)
  | Num (Float f) => Some f
  | _ => None
  end.

(** [Map::insert]: replaces the value of a present key, else inserts the key at
    its place in the order. *)
Fixpoint field_insert (k : string) (v : Value) (fields : list (string * Value))
  : list (string * Value) :=
  match fields with
  | [] => [(k, v)]
  | (k', v') :: rest =>
      if str_eqb k k' then (k, v) :: rest
      else if str_ltb k k' then (k, v) :: fields
      else (k', v') :: field_insert k v rest
  end.

(** [Map::remove] *)
Fixpoint field_remove (k : string) (fields : list (string * Value))
  : list (string * Value) :=
  match fields with
  | [] => []
  | (k', v') :: rest =>
      if str_eqb k k' then rest else (k', v') :: field_remove k rest
  end.

(** [value[k] = v] on an object *)
Definition set_field (k : string) (v : Value) (o : Value) : Value :=
  match o with
  | Object fields => Object (field_insert k v fields)
  | _ => o
  end.

(** The object [json!] or a derived [Serialize] builds from its fields. *)
Definition object_fields (fields : list (string * Value)) : list (string * Value) :=
  fold_left (fun acc '(k, v) => field_insert k v acc) fields [].

Definition object_of (fields : list (string * Value)) : Value := Object (object_fields fields).

Definition str (s : string) : Value := Str s.
Definition num (n : Z) : Value := Num (PosInt n).

(** ** Lemmas *)

Lemma field_insert_eq k v fields : field k (field_insert k v fields) = Some v.
Proof.
  induction fields as [|[k' v'] rest IH]; simpl.
  - by rewrite str_eqb_refl.
  - destruct (str_eqb k k') eqn:E; simpl; [by rewrite str_eqb_refl|].
    destruct (str_ltb k k'); simpl; [by rewrite str_eqb_refl | by rewrite E].
Qed.

Lemma field_insert_ne k k' v fields :
  k <> k' -> field k (field_insert k' v fields) = field k fields.
Proof.
  intros Hne. apply str_eqb_neq in Hne.
  induction fields as [|[k2 v2] rest IH]; simpl.
  - by rewrite Hne.
  - destruct (str_eqb k' k2) eqn:E; simpl.
    + apply str_eqb_eq in E as <-. by rewrite Hne.
    + destruct (str_ltb k' k2); simpl; [by rewrite Hne|]. by rewrite IH.
Qed.

Definition keys (fields : list (string * Value)) : list string := map fst fields.

Lemma field_not_in k fields : ~ In k (keys fields) -> field k fields = None.
Proof.
  induction fields as [|[k' v] rest IH]; simpl; [done|]. intros Hn.
  destruct (str_eqb k k') eqn:E; [apply str_eqb_eq in E; naive_solver|]. apply IH. tauto.
Qed.

Lemma field_key k fields : field k fields <> None <-> In k (keys fields).
Proof.
  induction fields as [|(j, v) fields IH]; simpl; [tauto|].
  destruct (str_eqb k j) eqn:E; [apply str_eqb_eq in E|apply str_eqb_neq in E]; naive_solver.
Qed.

Lemma field_fold_insert k l acc :
  NoDup (keys l) ->
  field k (fold_left (fun acc '(k, v) => field_insert k v acc) l acc) =
  match field k l with Some v => Some v | None => field k acc end.
Proof.
  revert acc. induction l as [|[k' v] rest IH]; intros acc Hnd; simpl; [done|].
  inversion Hnd as [|? ? Hn Hnd']; subst. rewrite IH by done.
  destruct (str_eqb k k') eqn:E.
  - apply str_eqb_eq in E as <-. rewrite list_elem_of_In in Hn.
    rewrite (field_not_in _ _ Hn). apply field_insert_eq.
  - apply str_eqb_neq in E. destruct (field k rest); [done|]. by apply field_insert_ne.
Qed.

(** The fields of [object_of l], looked up. *)
Lemma field_object_fields k l :
  NoDup (keys l) -> field k (object_fields l) = field k l.
Proof.
  intros Hnd. unfold object_fields. rewrite field_fold_insert by done.
  by destruct (field k l).
Qed.

Lemma forallb_field_insert (p : string * Value -> bool) k v fields :
  p (k, v) = true -> forallb p fields = true -> forallb p (field_insert k v fields) = true.
Proof.
  intros Hp. induction fields as [|[k' v'] rest IH]; simpl; [by rewrite Hp|].
  intros [Hk Hr]%andb_true_iff. destruct (str_eqb k k'); simpl; [by rewrite Hp, Hr|].
  destruct (str_ltb k k'); simpl; rewrite ?Hp, ?Hk, ?Hr; simpl; auto.
Qed.

Lemma forallb_fold_insert (p : string * Value -> bool) l acc :
  forallb p l = true -> forallb p acc = true ->
  forallb p (fold_left (fun acc '(k, v) => field_insert k v acc) l acc) = true.
Proof.
  revert acc. induction l as [|[k v] rest IH]; intros acc; simpl; [done|].
  intros [Hp Hr]%andb_true_iff Ha. apply IH; [done|]. by apply forallb_field_insert.
Qed.

Lemma forallb_object_fields (p : string * Value -> bool) l :
  forallb p l = true -> forallb p (object_fields l) = true.
Proof. intros H. by apply forallb_fold_insert. Qed.

(** [NoDup] of a concrete list of keys, by computation *)
Definition nodup_keys (ks : list string) : bool :=
  bool_decide (NoDup ks).

Lemma nodup_keys_spec ks : nodup_keys ks = true -> NoDup ks.
Proof. apply bool_decide_eq_true. Qed.

(** Inserting the value a key already has changes no lookup. *)
Lemma field_insert_same k v fields k' :
  field k fields = Some v -> field k' (field_insert k v fields) = field k' fields.
Proof.
  intros H. destruct (decide (k' = k)) as [->|Hne].
  - by rewrite field_insert_eq.
  - by apply field_insert_ne.
Qed.

(** ** The order of the keys *)

(** The keys are in strictly increasing byte order. *)
Fixpoint sorted_keys (fields : list (string * Value)) : bool :=
  match fields with
  | (k, _) :: rest =>
      match rest with
      | (k', _) :: _ => str_ltb k k' && sorted_keys rest
      | [] => true
      end
  | [] => true
  end.

Lemma str_ltb_total a b : str_eqb a b = false -> str_ltb a b = false -> str_ltb b a = true.
Proof.
  intros He%str_eqb_neq Hl. unfold str_ltb in *. unfold str_cmp in *.
  rewrite (cmp_antisym (bytes_of a) (bytes_of b)).
  destruct (bytes_cmp (bytes_of a) (bytes_of b)) eqn:E; [|done|done]. by apply str_cmp_eq in E.
Qed.

Lemma field_insert_sorted k v fields :
  sorted_keys fields = true -> sorted_keys (field_insert k v fields) = true.
Proof.
  induction fields as [|[k1 v1] rest IH]; intros Hs; [done|]. cbn [field_insert].
  destruct (str_eqb k k1) eqn:E1.
  { apply str_eqb_eq in E1 as ->. exact Hs. }
  destruct (str_ltb k k1) eqn:E2; [cbn; rewrite E2; exact Hs|].
  pose proof (str_ltb_total _ _ E1 E2) as Hlt.
  destruct rest as [|[k2 v2] rest]; [cbn; by rewrite Hlt|].
  apply andb_true_iff in Hs as [H12 Hs]. specialize (IH Hs). cbn [field_insert] in *.
  destruct (str_eqb k k2); [|destruct (str_ltb k k2)]; cbn [sorted_keys] in *;
    apply andb_true_iff; (split; [|exact IH]); done.
Qed.

Lemma object_fields_sorted l : sorted_keys (object_fields l) = true.
Proof.
  unfold object_fields. assert (H : sorted_keys [] = true) by done. revert H.
  generalize (@nil (string * Value)). induction l as [|[k v] l IH]; intros acc Ha; [done|].
  by apply IH, field_insert_sorted.
Qed.
