(* ===== verification/Text.v ===== *)
(** * Text operations

    The operations of Rust's [str] and byte slices that the parsers and the configuration
    code use, on the byte strings of the prelude. *)
From Stdlib Require Import Ascii.
From S2P Require Import Prelude.

Definition is_byte (b : Z) : Prop := 0 <= b <= 255.

Definition char_of (b : Z) : ascii := ascii_of_N (Z.to_N b).

Fixpoint str_of_bytes (bs : list Z) : string :=
  match bs with
  | [] => EmptyString
  | b :: bs => String (char_of b) (str_of_bytes bs)
  end.

Lemma byte_of_char_of b : is_byte b -> byte_of (char_of b) = b.
Proof.
  intros H. unfold byte_of, char_of. rewrite N_ascii_embedding; unfold is_byte in H; lia.
Qed.

Lemma bytes_of_str bs : Forall is_byte bs -> bytes_of (str_of_bytes bs) = bs.
Proof. induction 1; simpl; [done|]. by rewrite byte_of_char_of, IHForall. Qed.

Lemma bytes_of_bytes s : Forall is_byte (bytes_of s).
Proof. pose proof (bytes_of_range s) as H. eapply Forall_impl; [exact H|]. intros b; unfold is_byte; lia. Qed.

Lemma str_of_bytes_of s : str_of_bytes (bytes_of s) = s.
Proof. apply bytes_of_inj. apply bytes_of_str, bytes_of_bytes. Qed.

(** [u8::is_ascii_alphanumeric] and the like *)
Definition is_digit (b : Z) : bool := (48 <=? b) && (b <=? 57).
Definition is_alpha (b : Z) : bool :=
  ((65 <=? b) && (b <=? 90)) || ((97 <=? b) && (b <=? 122)).
Definition is_alphanumeric (b : Z) : bool := is_digit b || is_alpha b.
Definition is_ascii_bytes (bs : list Z) : bool := forallb (fun b => b <? 128) bs.

(** [str::split(char)] for an ASCII separator: always at least one part *)
Fixpoint split_byte (sep : Z) (bs : list Z) : list (list Z) :=
  match bs with
  | [] => [[]]
  | b :: bs =>
      if b =? sep then [] :: split_byte sep bs
      else match split_byte sep bs with
           | [] => [[b]]
           | part :: parts => (b :: part) :: parts
           end
  end.

Definition split (sep : Z) (s : string) : list string :=
  map str_of_bytes (split_byte sep (bytes_of s)).

(** [str::to_ascii_lowercase] *)
Definition lower_byte (b : Z) : Z := if (65 <=? b) && (b <=? 90) then b + 32 else b.
Definition to_ascii_lowercase (s : string) : string := str_of_bytes (map lower_byte (bytes_of s)).

(** [char::to_digit] *)
Definition to_digit (radix b : Z) : option Z :=
  let d := if is_digit b then b - 48
           else if (97 <=? b) && (b <=? 122) then b - 97 + 10
           else if (65 <=? b) && (b <=? 90) then b - 65 + 10
           else radix in
  if d <? radix then Some d else None.

(** ** Stripping and splitting *)

(** The characters JavaScript's [trim] strips, as UTF-8 *)
Definition js_spaces : list (list Z) :=
  [[9]; [10]; [11]; [12]; [13]; [32]; [194; 160]; [225; 154; 128]] ++
  map (fun b => [226; 128; b]) (seqZ 128 11) ++
  [[226; 128; 168]; [226; 128; 169]; [226; 128; 175]; [226; 129; 159]; [227; 128; 128];
   [239; 187; 191]].

Fixpoint strip (prefix bs : list Z) : option (list Z) :=
  match prefix, bs with
  | [], _ => Some bs
  | p :: prefix, b :: bs => if p =? b then strip prefix bs else None
  | _ :: _, [] => None
  end.

Fixpoint strip_any (prefixes : list (list Z)) (bs : list Z) : option (list Z) :=
  match prefixes with
  | [] => None
  | p :: rest => match strip p bs with Some r => Some r | None => strip_any rest bs end
  end.

(** Each turn strips at least one byte, so the length is enough fuel. *)
Fixpoint strip_all (fuel : nat) (prefixes : list (list Z)) (bs : list Z) : list Z :=
  match fuel with
  | O => bs
  | S fuel =>
      match strip_any prefixes bs with
      | Some rest => strip_all fuel prefixes rest
      | None => bs
      end
  end.

Definition trim_bytes (spaces : list (list Z)) (bs : list Z) : list Z :=
  let start := strip_all (length bs) spaces bs in
  rev (strip_all (length start) (map (@rev Z) spaces) (rev start)).

(** [char::is_whitespace], as UTF-8: the characters [str::trim] strips *)
Definition white_space : list (list Z) :=
  [[9]; [10]; [11]; [12]; [13]; [32]; [194; 133]; [194; 160]; [225; 154; 128]] ++
  map (fun b => [226; 128; b]) (seqZ 128 11) ++
  [[226; 128; 168]; [226; 128; 169]; [226; 128; 175]; [226; 129; 159]; [227; 128; 128]].

Lemma strip_Some p : forall bs r, strip p bs = Some r <-> bs = p ++ r.
Proof.
  induction p as [|x p IH]; intros bs r; simpl.
  - split; [by intros [= ->]|by intros ->].
  - destruct bs as [|b bs]; [done|]. destruct (Z.eqb_spec x b) as [->|Hn].
    + rewrite IH. split; [by intros ->|by intros [= ->]].
    + split; [done|]. intros [= -> _]. done.
Qed.

(** [str::trim_matches] for a set of ASCII characters *)
Definition trim_ascii (chars : list Z) (s : string) : string :=
  str_of_bytes (trim_bytes (map (fun c => [c]) chars) (bytes_of s)).

Definition str_trim (s : string) : string := str_of_bytes (trim_bytes white_space (bytes_of s)).

(** [str::strip_prefix] and [str::starts_with] *)
Definition strip_prefix (prefix s : string) : option string :=
  str_of_bytes <$> strip (bytes_of prefix) (bytes_of s).

Lemma strip_prefix_Some prefix s r : strip_prefix prefix s = Some r <-> s = prefix +:+ r.
Proof.
  unfold strip_prefix. rewrite fmap_Some. split.
  - intros (bs & H%strip_Some & ->). apply bytes_of_inj. rewrite bytes_of_app, bytes_of_str; [done|].
    pose proof (bytes_of_bytes s) as Hb. rewrite H in Hb. by apply Forall_app in Hb as [_ Hb].
  - intros ->. exists (bytes_of r). rewrite str_of_bytes_of. split; [|done].
    apply strip_Some, bytes_of_app.
Qed.

Definition starts_with (prefix s : string) : bool := negb (is_none (strip_prefix prefix s)).

Lemma starts_with_true prefix s : starts_with prefix s = true <-> exists r, s = prefix +:+ r.
Proof.
  unfold starts_with. destruct (strip_prefix prefix s) as [r|] eqn:E; simpl.
  - split; [|done]. intros _. exists r. by apply strip_prefix_Some.
  - split; [done|]. intros [r Hr]. apply strip_prefix_Some in Hr. congruence.
Qed.

(** [split(pattern).next()]: the bytes before the first that matches *)
Fixpoint until (p : Z -> bool) (bs : list Z) : list Z :=
  match bs with
  | [] => []
  | b :: bs => if p b then [] else b :: until p bs
  end.

Definition str_until (p : Z -> bool) (s : string) : string := str_of_bytes (until p (bytes_of s)).

(** [str::split_once] on bytes *)
Fixpoint split_once (sep bs : list Z) : option (list Z * list Z) :=
  match strip sep bs with
  | Some rest => Some ([], rest)
  | None =>
      match bs with
      | [] => None
      | b :: bs => '(l, r) ← split_once sep bs; Some (b :: l, r)
      end
  end.

Lemma split_once_Some sep bs : forall l r,
  split_once sep bs = Some (l, r) -> bs = l ++ sep ++ r.
Proof.
  induction bs as [|b bs IH]; intros l r H; cbn [split_once] in H;
    match type of H with context [strip sep ?x] => destruct (strip sep x) as [rest|] eqn:E end.
  - injection H as <- <-. by apply strip_Some in E.
  - done.
  - injection H as <- <-. by apply strip_Some in E.
  - destruct (split_once sep bs) as [[l' r']|]; [|done]. injection H as <- <-.
    simpl. by rewrite <- (IH l' r' eq_refl).
Qed.

Lemma until_prefix p bs : exists suf, bs = until p bs ++ suf.
Proof.
  induction bs as [|b bs [suf IH]]; simpl; [by exists []|].
  destruct (p b); [by exists (b :: bs)|]. exists suf. simpl. by rewrite <- IH.
Qed.

Lemma until_none p bs : Forall (fun b => p b = false) (until p bs).
Proof. induction bs as [|b bs IH]; simpl; [constructor|]. destruct (p b) eqn:E; by constructor. Qed.

Definition str_split_once (sep s : string) : option (string * string) :=
  '(l, r) ← split_once (bytes_of sep) (bytes_of s); Some (str_of_bytes l, str_of_bytes r).

(** [str::contains] *)
Definition contains (needle s : string) : bool :=
  negb (is_none (split_once (bytes_of needle) (bytes_of s))).

(** [str::eq_ignore_ascii_case] *)
Definition eq_ignore_ascii_case (a b : string) : bool :=
  str_eqb (to_ascii_lowercase a) (to_ascii_lowercase b).

(** [u8::is_ascii_control] *)
Definition is_ascii_control (b : Z) : bool := (b <? 32) || (b =? 127).
(** [u8::is_ascii_whitespace] *)
Definition is_ascii_whitespace (b : Z) : bool :=
  (b =? 32) || (b =? 9) || (b =? 10) || (b =? 12) || (b =? 13).

(** [str::parse::<u16>]: decimal digits after an optional plus sign *)
Fixpoint decimal (limit acc : Z) (bs : list Z) : option Z :=
  match bs with
  | [] => Some acc
  | b :: bs =>
      if is_digit b then
        let acc := acc * 10 + (b - 48) in
        if acc <=? limit then decimal limit acc bs else None
      else None
  end.

Definition parse_unsigned (limit : Z) (s : string) : option Z :=
  match bytes_of s with
  | [] => None
  | [43] => None
  | 43 :: bs => decimal limit 0 bs
  | bs => decimal limit 0 bs
  end.

Definition parse_u16 : string -> option Z := parse_unsigned U16_MAX.

(** Big-endian bytes of an unsigned integer of [n] bytes *)
Fixpoint be_bytes (n : nat) (v : Z) : list Z :=
  match n with
  | O => []
  | S n => be_bytes n (v / 256) ++ [v mod 256]
  end.

Definition be_value (bs : list Z) : Z := fold_left (fun v b => v * 256 + b) bs 0.

Lemma be_bytes_length n v : length (be_bytes n v) = n.
Proof. revert v. induction n as [|n IH]; intros v; simpl; [done|]. rewrite length_app, IH. simpl. lia. Qed.

Lemma be_bytes_range n v : Forall is_byte (be_bytes n v).
Proof.
  revert v. induction n as [|n IH]; intros v; simpl; [done|]. apply Forall_app. split; [done|].
  repeat constructor; pose proof (Z.mod_pos_bound v 256 ltac:(lia)); lia.
Qed.

Lemma be_value_snoc bs b : be_value (bs ++ [b]) = be_value bs * 256 + b.
Proof. unfold be_value. by rewrite fold_left_app. Qed.

Lemma be_value_bytes n : forall v, 0 <= v < 256 ^ Z.of_nat n -> be_value (be_bytes n v) = v.
Proof.
  induction n as [|n IH]; intros v H; simpl.
  - simpl in H. unfold be_value. simpl. lia.
  - rewrite be_value_snoc, IH.
    + pose proof (Z.div_mod v 256 ltac:(lia)). lia.
    + rewrite Nat2Z.inj_succ, Z.pow_succ_r in H by lia.
      split; [apply Z.div_pos; lia|apply Z.div_lt_upper_bound; lia].
Qed.

Lemma be_bytes_value bs : Forall is_byte bs -> be_bytes (length bs) (be_value bs) = bs.
Proof.
  induction bs as [|b bs IH] using rev_ind; intros H; [done|].
  apply Forall_app in H as [H Hb]. inversion_clear Hb as [|? ? Hb' _]. unfold is_byte in Hb'.
  rewrite length_app, Nat.add_comm, be_value_snoc. simpl.
  rewrite Z.div_add_l, Z.div_small, Z.add_0_r, IH by (done || lia). f_equal.
  rewrite Z.add_comm, Z.mod_add, Z.mod_small by lia. done.
Qed.

Lemma be_value_range bs : Forall is_byte bs -> 0 <= be_value bs < 256 ^ Z.of_nat (length bs).
Proof.
  induction bs as [|b bs IH] using rev_ind; intros H; [unfold be_value; simpl; lia|].
  apply Forall_app in H as [H Hb]. inversion_clear Hb as [|? ? Hb' _]. unfold is_byte in Hb'.
  rewrite length_app, be_value_snoc, Nat.add_comm. simpl (1 + _)%nat.
  rewrite Nat2Z.inj_succ, Z.pow_succ_r by lia. specialize (IH H). nia.
Qed.
