(* ===== verification/Control.v ===== *)
(** * Control policy for one OBS domain

    [native/src/control.rs]: the advisory control lease, the take lock and the
    live-action confirmation gate.  A [ControlDomain] is the state; [claim],
    [release], [status], [set_take_lock] and [evaluate] are its operations,
    each returning its answer with the next state. *)
From Stdlib Require Import SpecFloat.
From S2P Require Import Prelude Json.

Definition UNIDENTIFIED : string := "an unidentified client".
Definition CLIENT_INFO : string := "io.modelcontextprotocol/clientInfo".
Definition CLIENT_CAPABILITIES : string := "io.modelcontextprotocol/clientCapabilities".

(** ** Caller identity *)

Record CallerContext := {
  http_client_id : option Value;
  envelope : option Value;
  legacy_name : option string
}.

Definition non_empty (o : option string) : option string :=
  opt_filter (fun name => negb (str_is_empty name)) o.

Definition caller_name (context : CallerContext) : string :=
  default UNIDENTIFIED
    (or_else
       (or_else
          (non_empty (http_client_id context >>? as_str))
          (non_empty (envelope context >>? get CLIENT_INFO >>? get "name" >>? as_str)))
       (non_empty (legacy_name context))).

Definition is_identified (name : string) : bool := negb (str_eqb name UNIDENTIFIED).

Definition truthy (value : Value) : bool :=
  match value with
  | Null => false
  | Bool value => value
  | Num _ => is_some_and (as_f64 value) (fun f => negb (f64_eqb f f64_zero))
  | Str value => negb (str_is_empty value)
  | Array _ | Object _ => true
  end.

Definition client_can_elicit (envelope legacy_capabilities : option Value) : bool :=
  match opt_filter truthy (envelope >>? get CLIENT_CAPABILITIES) with
  | Some capabilities => negb (is_none (get "elicitation" capabilities))
  | None => negb (is_none (legacy_capabilities >>? get "elicitation"))
  end.

(** ** Leases *)

Record Lease := {
  holder : string;
  reason : string;
  since : Z;
  expires_at : Z
}.

(** [{:02}] *)
Definition pad2 (n : Z) : string :=
  let digits := pretty (Z.to_N n) in
  if n <? 10 then String.append "0" digits else digits.

Definition description (lease : Lease) : string :=
  let minutes := expires_at lease / 60000 in
  let why := if str_is_empty (reason lease) then ""
             else String.append " (" (String.append (reason lease) ")") in
  join "" [holder lease; " has control"; why; " until ";
           pad2 ((minutes / 60) mod 24); ":"; pad2 (minutes mod 60); " UTC"].

Inductive ClaimOutcome :=
| Claimed (lease : Lease)
| Unidentified
| ClaimHeldBy (lease : Lease).

Inductive ReleaseOutcome :=
| Released
| NoLease
| ReleaseHeldBy (lease : Lease).

Inductive ClaimError :=
| InvalidMinutes
| ReasonTooLong
| ClockOverflow.

Record TakeLock := {
  take_id : string;
  locked : bool
}.

Record ControlDomain := {
  lease : option Lease;
  take : option TakeLock
}.

Definition default_domain : ControlDomain := {| lease := None; take := None |}.

Definition lease_json (l : Lease) : Value :=
  object_of [("holder", str (holder l)); ("reason", str (reason l));
             ("since", num (since l)); ("expiresAt", num (expires_at l))].

Definition text_result (text : string) (is_error : bool) : Value :=
  let result := object_of [("content", Array [object_of [("type", str "text"); ("text", str text)]])] in
  if is_error then set_field "isError" (Bool true) result else result.

Definition claim_tool_result (outcome : ClaimOutcome) : Value :=
  match outcome with
  | Claimed l =>
      set_field "structuredContent" (lease_json l)
        (text_result (String.append (description l) ". Release it with obs-release-control") false)
  | Unidentified =>
      text_result "Not claimed: this client did not identify itself. Over HTTP, connect with a name in the URL, e.g. http://127.0.0.1:<port>/mcp?client=codex" true
  | ClaimHeldBy l => text_result (String.append "Not claimed: " (description l)) true
  end.

Definition release_tool_result (outcome : ReleaseOutcome) : Value :=
  match outcome with
  | Released => text_result "Released control of OBS" false
  | NoLease => text_result "No client has control" false
  | ReleaseHeldBy l => text_result (String.append "Not released: " (description l)) true
  end.

(** The lease in force at [now_ms]; an expired one is dropped from the state. *)
Definition active_lease (self : ControlDomain) (now_ms : Z) : option Lease * ControlDomain :=
  let self :=
    if is_some_and (lease self) (fun l => expires_at l <=? now_ms)
    then {| lease := None; take := take self |}
    else self in
  (lease self, self).

Definition claim (self : ControlDomain) (caller : string) (minutes : Z) (why : string) (now_ms : Z)
  : result ClaimError ClaimOutcome * ControlDomain :=
  if negb ((1 <=? minutes) && (minutes <=? 240)) then (Err InvalidMinutes, self)
  else if 200 <? char_count why then (Err ReasonTooLong, self)
  else if negb (is_identified caller) then (Ok Unidentified, self)
  else
    let '(current, self) := active_lease self now_ms in
    match current with
    | Some l =>
        if negb (str_eqb (holder l) caller) then (Ok (ClaimHeldBy l), self)
        else
          match checked_add now_ms (minutes * 60000) with
          | None => (Err ClockOverflow, self)
          | Some expires =>
              let l' := {| holder := caller; reason := why; since := since l; expires_at := expires |} in
              (Ok (Claimed l'), {| lease := Some l'; take := take self |})
          end
    | None =>
        match checked_add now_ms (minutes * 60000) with
        | None => (Err ClockOverflow, self)
        | Some expires =>
            let l' := {| holder := caller; reason := why; since := now_ms; expires_at := expires |} in
            (Ok (Claimed l'), {| lease := Some l'; take := take self |})
        end
    end.

Definition release (self : ControlDomain) (caller : string) (now_ms : Z)
  : ReleaseOutcome * ControlDomain :=
  let '(current, self) := active_lease self now_ms in
  match current with
  | None => (NoLease, self)
  | Some l =>
      if negb (str_eqb (holder l) caller) then (ReleaseHeldBy l, self)
      else (Released, {| lease := None; take := take self |})
  end.

Definition status_result (self : ControlDomain) (caller : string) (now_ms : Z)
  : Value * ControlDomain :=
  let '(current, self) := active_lease self now_ms in
  let text :=
    match current with
    | None => "No client has control; any client may change OBS"
    | Some l => String.append (description l)
                  (if str_eqb (holder l) caller then " (this client)" else "")
    end in
  (set_field "structuredContent"
     (object_of [("caller", str caller);
                 ("lease", match current with None => Null | Some l => lease_json l end)])
     (text_result text false), self).

Definition set_take_lock (self : ControlDomain) (t : option TakeLock) : ControlDomain :=
  {| lease := lease self; take := t |}.

(** ** The take lock *)

Definition always_allowed (tool : string) : bool :=
  one_of tool
    ["obs-claim-control"; "obs-release-control"; "obs-stop-record"; "obs-stop-stream";
     "obs-take-stop"; "obs-stop-virtual-cam"; "obs-stop-replay-buffer"; "obs-stop-output"].

(** First entry of a [match] on string literals. *)
Fixpoint literal_match (s : string) (arms : list (string * string)) : option string :=
  match arms with
  | [] => None
  | (k, v) :: rest => if str_eqb s k then Some v else literal_match s rest
  end.

Definition fixed_lock (tool : string) : option string :=
  literal_match tool
    [("obs-set-current-profile", "switch profiles");
     ("obs-create-profile", "create and switch to a profile");
     ("obs-remove-profile", "remove a profile");
     ("obs-set-current-scene-collection", "switch scene collections");
     ("obs-create-scene-collection", "create and switch to a scene collection");
     ("obs-set-profile-parameter", "change profile settings");
     ("obs-set-record-directory", "change the recording directory");
     ("obs-set-video-settings", "change the canvas and frame rate");
     ("obs-set-stream-service-settings", "change the stream service");
     ("obs-set-output-settings", "change an output's settings")].

Definition locked_request (request : string) : bool :=
  one_of request
    ["SetCurrentProfile"; "CreateProfile"; "RemoveProfile"; "SetCurrentSceneCollection";
     "CreateSceneCollection"; "SetProfileParameter"; "SetRecordDirectory";
     "SetVideoSettings"; "SetStreamServiceSettings"; "SetOutputSettings"].

(** The [requestType] strings of a list of requests. *)
Fixpoint request_types (requests : list Value) : list string :=
  match requests with
  | [] => []
  | r :: rest =>
      match get "requestType" r >>? as_str with
      | Some t => t :: request_types rest
      | None => request_types rest
      end
  end.

Definition locked_action (tool : string) (arguments : Value) : option string :=
  match fixed_lock tool with
  | Some action => Some action
  | None =>
      if negb (is_object arguments) then None
      else
        let requests :=
          if str_eqb tool "obs-call-request" then Some [arguments]
          else if str_eqb tool "obs-batch" then get "requests" arguments >>? as_array
          else None in
        requests >>? fun requests =>
          let locked := List.filter locked_request (request_types requests) in
          match locked with
          | [] => None
          | _ => Some (String.append "send " (join ", " locked))
          end
  end.

(** ** Live-action questions *)

Definition fixed_question (tool : string) : option string :=
  literal_match tool
    [("obs-take-scene", "Transition the staged preview scene to program?");
     ("obs-start-stream", "Start the live stream?");
     ("obs-stop-stream", "Stop the live stream?");
     ("obs-toggle-stream", "Toggle the live stream? If it is live, this ends the broadcast.");
     ("obs-stop-record", "Stop the recording?");
     ("obs-take-stop", "Stop the recording?");
     ("obs-toggle-record", "Toggle recording? If it is recording, this ends the take.")].

(** Rust's [Display] and [LowerExp] renderings of an [f64]. *)
Class F64Format := {
  f64_display : f64 -> string;
  f64_lower_exp : f64 -> string
}.

Section Questions.

Context `{F64Format}.

(** 1e21 and the binary64 nearest to 1e-6 *)
Definition f64_1e21 : f64 := f64_of_Z (10 ^ 21).
Definition f64_1em6 : f64 := S754_finite false 4722366482869645 (-72).

(** [formatted.split_once('e')] *)
Fixpoint split_once_e (s : string) : option (string * string) :=
  match s with
  | EmptyString => None
  | String a rest =>
      if byte_of a =? 101 then Some (EmptyString, rest)
      else match split_once_e rest with
           | Some (base, exponent) => Some (String a base, exponent)
           | None => None
           end
  end.

Definition js_number (f : f64) : string :=
  if f64_eqb f f64_zero then "0"
  else if f64_leb f64_1e21 (SFabs f) || f64_ltb (SFabs f) f64_1em6 then
    let formatted := f64_lower_exp f in
    match split_once_e formatted with
    | Some (base, exponent) =>
        join "" [base; "e"; if String.prefix "-" exponent then "" else "+"; exponent]
    | None => formatted
    end
  else f64_display f.

Fixpoint js_string_value (value : Value) : string :=
  match value with
  | Null => "null"
  | Str s => s
  | Bool b => if b then "true" else "false"
  | Num (PosInt n) | Num (NegInt n) => js_number (f64_of_Z n)
  | Num (Float f) => js_number f
  | Array values =>
      join "," (map (fun v => if is_null v then "" else js_string_value v) values)
  | Object _ => "[object Object]"
  end.

Definition js_string (value : option Value) : string :=
  match value with
  | None => "undefined"
  | Some v => js_string_value v
  end.

Definition output_question (before after : string) (data : option Value) : string :=
  join "" [before; js_string (data >>? get "outputName"); after].

Definition request_question (kind : string) (data : option Value) : option string :=
  if str_eqb kind "StartStream" then Some "Start the live stream?"
  else if str_eqb kind "StopStream" then Some "Stop the live stream?"
  else if str_eqb kind "ToggleStream" then
    Some "Toggle the live stream? If it is live, this ends the broadcast."
  else if str_eqb kind "StopRecord" then Some "Stop the recording?"
  else if str_eqb kind "ToggleRecord" then
    Some "Toggle recording? If it is recording, this ends the take."
  else if str_eqb kind "StartOutput" then
    Some (output_question "Start the output "
            "? This may start a live broadcast or recording." data)
  else if str_eqb kind "StopOutput" then
    Some (output_question "Stop the output "
            "? If it is the stream or the recording, this ends it." data)
  else if str_eqb kind "ToggleOutput" then
    Some (output_question "Toggle the output "
            "? If it is the stream or the recording, this can end it." data)
  else None.

(** The loop over a batch's requests: each new question once, in order. *)
Fixpoint batch_questions (requests : list Value) (questions : list string) : list string :=
  match requests with
  | [] => questions
  | request :: rest =>
      match get "requestType" request >>? as_str
            >>? fun kind => request_question kind (get "requestData" request) with
      | Some question =>
          if one_of question questions then batch_questions rest questions
          else batch_questions rest (questions ++ [question])
      | None => batch_questions rest questions
      end
  end.

Definition live_question (tool : string) (arguments : Value) : option string :=
  match fixed_question tool with
  | Some question => Some question
  | None =>
      if str_eqb tool "obs-call-request" then
        get "requestType" arguments >>? as_str
        >>? fun kind => request_question kind (get "requestData" arguments)
      else if str_eqb tool "obs-start-output" then request_question "StartOutput" (Some arguments)
      else if str_eqb tool "obs-stop-output" then request_question "StopOutput" (Some arguments)
      else if str_eqb tool "obs-toggle-output" then request_question "ToggleOutput" (Some arguments)
      else if str_eqb tool "obs-batch" then
        get "requests" arguments >>? as_array
        >>? fun requests =>
          match batch_questions requests [] with
          | [] => None
          | questions => Some (join " " questions)
          end
      else None
  end.

(** ** Confirmation answers *)

Inductive ConfirmationAnswer :=
| Missing
| Accepted (confirmed : bool)
| OtherResponse.

Definition from_responses (responses : option Value) : ConfirmationAnswer :=
  match opt_filter is_object (responses >>? get "confirm") with
  | None => Missing
  | Some entry =>
      let fallback :=
        if is_some_and (get "roots" entry) is_array
           || (is_some_and (get "role" entry) is_string && negb (is_none (get "content" entry)))
        then OtherResponse else Missing in
      match get "action" entry >>? as_str with
      | Some action =>
          if str_eqb action "accept" then
            match opt_filter is_object (get "content" entry) >>? get "confirm" >>? as_bool with
            | Some b => Accepted b
            | None => OtherResponse
            end
          else if one_of action ["decline"; "cancel"] then OtherResponse
          else fallback
      | None => fallback
      end
  end.

(** ** The gate *)

Record ConfirmationContext := {
  enabled : bool;
  can_elicit : bool;
  input_responses : option Value
}.

Record GateRequest := {
  tool_name : string;
  arguments : Value;
  read_only_hint : bool;
  caller : string;
  confirmation : ConfirmationContext
}.

Inductive RefusalKind :=
| LeaseRefusal
| TakeLockRefusal
| ConfirmationRefusal.

Inductive Disposition :=
| Allow
| Refused (kind : RefusalKind) (message : string)
| InputRequired (question : string)
| Cancelled.

(** The lease clause of [evaluate]: an answer refuses, and the state drops a lease
    it found expired. *)
Definition lease_gate (self : ControlDomain) (request : GateRequest) (now_ms : Z)
  : option Disposition * ControlDomain :=
  if negb (read_only_hint request) && negb (always_allowed (tool_name request)) then
    let '(current, self) := active_lease self now_ms in
    match current with
    | Some l =>
        if negb (is_identified (caller request)) || negb (str_eqb (caller request) (holder l))
        then (Some (Refused LeaseRefusal
                (join "" ["Not changed: "; description l;
                          ". Ask them to call obs-release-control, or wait. Reading OBS and stopping outputs still work"])),
              self)
        else (None, self)
    | None => (None, self)
    end
  else (None, self).

Definition take_gate (self : ControlDomain) (request : GateRequest) : option Disposition :=
  opt_filter locked (take self) >>? fun t =>
    locked_action (tool_name request) (arguments request) >>? fun action =>
      Some (Refused TakeLockRefusal
        (join "" ["Take "; take_id t; " is recording, and changing this now would "; action;
                  " under it. Stop the take with obs-take-stop first, or start takes with lock: false"])).

Definition confirmation_gate (request : GateRequest) : Disposition :=
  if negb (enabled (confirmation request)) then Allow
  else
    match live_question (tool_name request) (arguments request) with
    | None => Allow
    | Some question =>
        match from_responses (input_responses (confirmation request)) with
        | Accepted true => Allow
        | Accepted false | OtherResponse => Cancelled
        | Missing =>
            if can_elicit (confirmation request) then InputRequired question
            else
              if bool_decide ((get "confirm" (arguments request) >>? as_bool) = Some true)
              then Allow
              else Refused ConfirmationRefusal
                     (String.append question
                        " This server requires confirmation for live actions and this client cannot ask. Ask the user, then call again with confirm: true.")
        end
    end.

Definition evaluate (self : ControlDomain) (request : GateRequest) (now_ms : Z)
  : Disposition * ControlDomain :=
  match lease_gate self request now_ms with
  | (Some refusal, self) => (refusal, self)
  | (None, self) =>
      match take_gate self request with
      | Some refusal => (refusal, self)
      | None => (confirmation_gate request, self)
      end
  end.

(** [Disposition::tool_result]: [None] lets the call continue. *)
Definition disposition_tool_result (self : Disposition) : option Value :=
  match self with
  | Allow => None
  | Refused _ message => Some (text_result message true)
  | Cancelled => Some (text_result "Cancelled; nothing was changed" false)
  | InputRequired question =>
      Some (object_of
        [("resultType", str "input_required");
         ("inputRequests", object_of
            [("confirm", object_of
               [("method", str "elicitation/create");
                ("params", object_of
                   [("mode", str "form");
                    ("message", str question);
                    ("requestedSchema", object_of
                       [("type", str "object");
                        ("properties", object_of
                           [("confirm", object_of
                              [("type", str "boolean"); ("title", str "Confirm");
                               ("description", str question)])]);
                        ("required", Array [str "confirm"])])])])])])
  end.
End Questions.

(** ** Lease lemmas *)

Definition live (d : ControlDomain) (now : Z) (l : Lease) : Prop :=
  lease d = Some l /\ now < expires_at l.

Lemma active_lease_live d now l :
  live d now l -> active_lease d now = (Some l, d).
Proof.
  intros [Hl Hnow]. unfold active_lease. rewrite Hl. simpl.
  destruct (Z.leb_spec (expires_at l) now); [lia|]. by rewrite Hl.
Qed.

Lemma active_lease_dead d now :
  (forall l, ~ live d now l) ->
  active_lease d now = (None, {| lease := None; take := take d |}).
Proof.
  intros Hdead. destruct d as [[l|] t]; [|done].
  unfold active_lease. simpl.
  destruct (Z.leb_spec (expires_at l) now); [done|].
  exfalso. apply (Hdead l). by split.
Qed.

Lemma live_dec d now : (exists l, live d now l) \/ (forall l, ~ live d now l).
Proof.
  destruct d as [[l|] t]; [|right; by intros l [? ?]].
  destruct (Z_lt_le_dec now (expires_at l)).
  - left. by exists l.
  - right. intros l' [[= <-] ?]. lia.
Qed.

Lemma active_lease_idem d now d' o :
  active_lease d now = (o, d') -> active_lease d' now = (o, d').
Proof.
  intros H. destruct (live_dec d now) as [[l Hl]|Hdead].
  - rewrite (active_lease_live _ _ _ Hl) in H. simplify_eq. by apply active_lease_live.
  - rewrite (active_lease_dead _ _ Hdead) in H. by simplify_eq.
Qed.

Lemma active_lease_take d now : take (snd (active_lease d now)) = take d.
Proof. unfold active_lease. by destruct (is_some_and _ _). Qed.

(** ** Histories of operations *)

Inductive Op :=
| OpClaim (caller : string) (minutes : Z) (why : string)
| OpRelease (caller : string)
| OpStatus (caller : string)
| OpSetTake (t : option TakeLock)
| OpEvaluate (request : GateRequest).

Section Runs.

Context `{F64Format}.

Definition apply_op (d : ControlDomain) (now : Z) (o : Op) : ControlDomain :=
  match o with
  | OpClaim c minutes why => snd (claim d c minutes why now)
  | OpRelease c => snd (release d c now)
  | OpStatus c => snd (status_result d c now)
  | OpSetTake t => set_take_lock d t
  | OpEvaluate request => snd (evaluate d request now)
  end.

Definition run (d : ControlDomain) (trace : list (Z * Op)) : ControlDomain :=
  fold_left (fun d '(now, o) => apply_op d now o) trace d.

(** The operation claims or releases in the name of [h]. *)
Definition acts_as (h : string) (o : Op) : Prop :=
  match o with
  | OpClaim c _ _ | OpRelease c => c = h
  | _ => False
  end.

(** States reachable from a fresh domain under a clock that never goes back. *)
Inductive reachable : ControlDomain -> Z -> Prop :=
| reachable_start now : 0 <= now -> reachable default_domain now
| reachable_step d now now' o :
    reachable d now -> now <= now' -> reachable (apply_op d now' o) now'.

Definition MAX_LEASE_MS : Z := 240 * 60000.

Definition lease_wf (l : Lease) (now : Z) : Prop :=
  is_identified (holder l) = true /\ char_count (reason l) <= 200 /\
  since l <= now /\ since l < expires_at l /\
  expires_at l <= now + MAX_LEASE_MS /\ expires_at l <= U64_MAX.

Lemma lease_gate_state d request now :
  snd (lease_gate d request now) = d \/
  snd (lease_gate d request now) = snd (active_lease d now).
Proof.
  unfold lease_gate. destruct (_ && _); [|by left]. right.
  destruct (active_lease d now) as [[l|] d']; [|done]. by destruct (_ || _).
Qed.

Lemma evaluate_state d request now :
  snd (evaluate d request now) = snd (lease_gate d request now).
Proof.
  unfold evaluate. destruct (lease_gate d request now) as [[r|] d']; [done|].
  by destruct (take_gate _ _).
Qed.

(** Every operation leaves the lease alone, drops an expired one, or is a claim or
    a release by its caller. *)
Lemma apply_op_live d now o l :
  live d now l -> ~ acts_as (holder l) o -> lease (apply_op d now o) = Some l.
Proof.
  intros Hl Hact. pose proof (active_lease_live _ _ _ Hl) as Ha. destruct Hl as [Hl Hnow].
  destruct o as [c m w|c|c|t|r]; cbn [apply_op acts_as] in *.
  - unfold claim. rewrite Ha. apply not_eq_sym, str_eqb_neq in Hact. rewrite Hact.
    repeat case_match; done.
  - unfold release. rewrite Ha. apply not_eq_sym, str_eqb_neq in Hact. by rewrite Hact.
  - unfold status_result. by rewrite Ha.
  - done.
  - rewrite evaluate_state. destruct (lease_gate_state d r now) as [->| ->]; [done|]. by rewrite Ha.
Qed.

(** What a state change can do to the lease: keep it, drop it, or install one that
    [claim] built at [now]. *)
Lemma apply_op_lease d now o l :
  lease (apply_op d now o) = Some l ->
  lease d = Some l \/
  (is_identified (holder l) = true /\ char_count (reason l) <= 200 /\
   (since l = now \/ exists l0, live d now l0 /\ since l = since l0) /\
   now + 60000 <= expires_at l <= now + MAX_LEASE_MS /\ expires_at l <= U64_MAX).
Proof.
  intros Hl.
  assert (Hkeep : forall d', d' = snd (active_lease d now) -> lease d' = Some l -> lease d = Some l).
  { intros d' ->. destruct (live_dec d now) as [[l0 Hl0]|Hd].
    - by rewrite (active_lease_live _ _ _ Hl0).
    - by rewrite (active_lease_dead _ _ Hd). }
  destruct o as [c m w|c|c|t|r]; cbn [apply_op acts_as] in *.
  - unfold claim in Hl. destruct (negb _) eqn:Em; [by left|].
    destruct (200 <? char_count w) eqn:Ew; [by left|].
    destruct (negb (is_identified c)) eqn:Ei; [by left|].
    destruct (active_lease d now) as [[l0|] d'] eqn:Ea.
    + destruct (live_dec d now) as [[l1 Hl1]|Hd];
        [|by rewrite (active_lease_dead _ _ Hd) in Ea].
      rewrite (active_lease_live _ _ _ Hl1) in Ea. simplify_eq.
      destruct (negb (str_eqb _ _)) eqn:Eh; [by left|].
      destruct (checked_add _ _) eqn:Ec; simpl in Hl; [|by left].
      apply checked_add_Some in Ec as [-> ?]. simplify_eq/=. right. to_prop.
      unfold MAX_LEASE_MS. repeat split; try (done || lia). right. by exists l0.
    + destruct (checked_add _ _) eqn:Ec; simpl in Hl; [|left; by eapply Hkeep].
      apply checked_add_Some in Ec as [-> ?]. simplify_eq/=. right. to_prop.
      unfold MAX_LEASE_MS. repeat split; (done || lia || by left).
  - unfold release in Hl. left. destruct (active_lease d now) as [[l0|] d'];
      [destruct (negb _)|]; simpl in Hl; (done || by eapply Hkeep).
  - left. unfold status_result in Hl. destruct (active_lease d now). by eapply Hkeep.
  - by left.
  - left. rewrite evaluate_state in Hl.
    destruct (lease_gate_state d r now) as [E|E]; rewrite E in Hl; [done|exact (Hkeep _ eq_refl Hl)].
Qed.

Lemma run_live d trace l :
  lease d = Some l ->
  Forall (fun '(now, o) => now < expires_at l /\ ~ acts_as (holder l) o) trace ->
  lease (run d trace) = Some l.
Proof.
  intros Hl Htr. revert d Hl. induction Htr as [|[now o] tr [Hnow Hact] _ IH]; intros d Hl; [done|].
  apply IH. by apply apply_op_live.
Qed.

(** A control lease cannot be stolen.  Whatever other callers do (claim, release, ask
    for the status, have calls evaluated, and whatever the take supervisor sets), in
    any order and number, the holder's lease is still exactly the same lease as long
    as every operation happens before its expiry and none is a claim or a release in
    the holder's own name. *)
Theorem lease_not_stolen d trace l :
  lease d = Some l ->
  Forall (fun '(now, o) => now < expires_at l /\ ~ acts_as (holder l) o) trace ->
  lease (run d trace) = Some l.
Proof. apply run_live. Qed.

(** Every lease of a reachable domain is well formed: its holder identified itself, its
    reason has at most 200 code points, it began in the past, it runs out strictly
    after it began, at most 240 minutes from now, and its expiry fits a [u64]. *)
Theorem reachable_lease_wf d now l :
  reachable d now -> lease d = Some l -> lease_wf l now.
Proof.
  intros Hr. revert l. induction Hr as [now|d now now' o Hr IH Hle]; intros l Hl; [done|].
  unfold lease_wf. apply apply_op_lease in Hl as [Hl|(? & ? & Hs & ? & ?)].
  - destruct (IH _ Hl) as (? & ? & ? & ? & ? & ?). repeat split; (done || lia).
  - assert (since l <= now').
    { destruct Hs as [->|(l0 & [Hl0 _] & ->)]; [lia|].
      destruct (IH _ Hl0) as (_ & _ & ? & _). lia. }
    repeat split; (done || lia).
Qed.

(** [evaluate] refuses on the lease exactly when a lease is in force, the tool neither
    is read-only nor stops something nor manages the lease, and the caller is not its
    identified holder. *)
Theorem lease_refusal_iff d request now :
  (exists message, fst (evaluate d request now) = Refused LeaseRefusal message) <->
  read_only_hint request = false /\ always_allowed (tool_name request) = false /\
  exists l, live d now l /\ (is_identified (caller request) = false \/ caller request <> holder l).
Proof.
  assert (Hconf : forall m, confirmation_gate request <> Refused LeaseRefusal m).
  { intros m. unfold confirmation_gate. repeat case_match; done. }
  assert (Htake : forall d m, take_gate d request <> Some (Refused LeaseRefusal m)).
  { intros d' m. unfold take_gate, opt_filter, and_then. repeat case_match; done. }
  assert (Hrest : forall d m, (match take_gate d request with
            | Some refusal => (refusal, d) | None => (confirmation_gate request, d) end).1
            <> Refused LeaseRefusal m).
  { intros d' m. specialize (Htake d' m). destruct (take_gate d' request); simpl; congruence. }
  unfold evaluate, lease_gate.
  destruct (read_only_hint request), (always_allowed (tool_name request)); cbn [negb andb];
    try (split; [intros [m Hm]; exfalso; by eapply Hrest | naive_solver]).
  destruct (live_dec d now) as [[l Hl]|Hd].
  - rewrite (active_lease_live _ _ _ Hl).
    destruct (negb _ || negb _) eqn:E; split.
    + intros _. repeat split. exists l. split; [done|]. to_prop. naive_solver.
    + intros _. eexists. done.
    + intros [m Hm]. exfalso. by eapply Hrest.
    + intros (_ & _ & l' & [Hl' _] & Hor). destruct Hl as [Hl _].
      rewrite Hl in Hl'. simplify_eq. to_prop. destruct E as [E1 E2], Hor; congruence.
  - rewrite (active_lease_dead _ _ Hd). split.
    + intros [m Hm]. exfalso. by eapply Hrest.
    + intros (_ & _ & l & Hl & _). exfalso. by eapply Hd.
Qed.

Lemma always_allowed_unlocked tool arguments :
  always_allowed tool = true -> locked_action tool arguments = None.
Proof.
  unfold always_allowed. intros Hin%one_of_In.
  assert (H0 : fixed_lock tool = None /\ str_eqb tool "obs-call-request" = false /\
               str_eqb tool "obs-batch" = false)
    by (simpl in Hin; naive_solver).
  destruct H0 as (Hf & Hc & Hb). unfold locked_action. rewrite Hf, Hc, Hb.
  by destruct (is_object arguments).
Qed.

(** Stopping always works.  For the stop tools (and for claiming and releasing
    control) neither a lease nor a take lock is ever consulted: the gate is the
    confirmation gate alone and the state is untouched. *)
Theorem stop_tools_bypass_lease_and_lock d request now :
  always_allowed (tool_name request) = true ->
  evaluate d request now = (confirmation_gate request, d).
Proof.
  intros Ha. unfold evaluate, lease_gate, take_gate. rewrite Ha, andb_false_r.
  rewrite (always_allowed_unlocked _ _ Ha).
  by destruct (opt_filter locked (take d)).
Qed.

(** C40: consent.  With confirmation enabled, a call that starts or ends something live is
    allowed only on an explicit yes: the elicited answer accepted it, or the client
    cannot be asked, gave no answer, and passed [confirm: true] itself. *)
Theorem live_action_needs_consent d request now question :
  enabled (confirmation request) = true ->
  live_question (tool_name request) (arguments request) = Some question ->
  fst (evaluate d request now) = Allow ->
  from_responses (input_responses (confirmation request)) = Accepted true \/
  (from_responses (input_responses (confirmation request)) = Missing /\
   can_elicit (confirmation request) = false /\
   get "confirm" (arguments request) = Some (Bool true)).
Proof.
  intros He Hq. unfold evaluate.
  assert (Hc : confirmation_gate request = Allow ->
    from_responses (input_responses (confirmation request)) = Accepted true \/
    (from_responses (input_responses (confirmation request)) = Missing /\
     can_elicit (confirmation request) = false /\
     get "confirm" (arguments request) = Some (Bool true))).
  { unfold confirmation_gate. rewrite He, Hq. simpl.
    destruct (from_responses _) as [|[]|]; try done; [|by left].
    destruct (can_elicit _); [done|]. case_bool_decide as Hb; [|done].
    intros _. right. repeat split.
    destruct (get "confirm" _) as [[]|]; by simplify_eq/=. }
  assert (Ht : forall d, (match take_gate d request with
            | Some refusal => (refusal, d) | None => (confirmation_gate request, d) end).1
            = Allow -> confirmation_gate request = Allow).
  { intros d'. destruct (take_gate d' request) eqn:E; [|done]. simpl. intros ->.
    unfold take_gate, opt_filter, and_then in E. by repeat case_match. }
  destruct (lease_gate d request now) as [[r|] d'] eqn:El; intros Hallow;
    [|exact (Hc (Ht d' Hallow))].
  unfold lease_gate in El. simpl in Hallow. subst r. by repeat case_match; simplify_eq.
Qed.

(** Evaluating again at dispatch is stable: on the state the first evaluation left, the
    same request at the same time gets the same disposition and changes nothing. *)
Theorem evaluate_idempotent d request now :
  let '(disposition, d') := evaluate d request now in
  evaluate d' request now = (disposition, d').
Proof.
  destruct (evaluate d request now) as [disposition d'] eqn:E. unfold evaluate in *.
  destruct (lease_gate d request now) as [o d0] eqn:El.
  assert (d0 = d') as -> by (repeat case_match; by simplify_eq).
  assert (lease_gate d' request now = (o, d')) as ->; [|by repeat case_match; simplify_eq].
  unfold lease_gate in *. destruct (_ && _); [|by simplify_eq].
  destruct (active_lease d now) as [cur d1] eqn:Ea.
  assert (d1 = d') as -> by (repeat case_match; by simplify_eq).
  rewrite (active_lease_idem _ _ _ _ Ea). by repeat case_match; simplify_eq.
Qed.

(** What [claim] answers, on every branch: the three refusals of its arguments, the
    unidentified caller, the lease held by another client (state untouched), the clock
    overflow, and otherwise a lease for exactly the requested minutes whose start is
    that of the caller's own lease in force, or now. *)
Theorem claim_spec d c minutes why now :
  claim d c minutes why now =
  if negb ((1 <=? minutes) && (minutes <=? 240)) then (Err InvalidMinutes, d)
  else if 200 <? char_count why then (Err ReasonTooLong, d)
  else if negb (is_identified c) then (Ok Unidentified, d)
  else
    let held := opt_filter (fun l => now <? expires_at l) (lease d) in
    if is_some_and held (fun l => negb (str_eqb (holder l) c))
    then (match held with Some l => Ok (ClaimHeldBy l) | None => Ok Unidentified end, d)
    else if U64_MAX <? now + minutes * 60000
    then (Err ClockOverflow, {| lease := held; take := take d |})
    else let l := {| holder := c; reason := why;
                     since := match held with Some l => since l | None => now end;
                     expires_at := now + minutes * 60000 |} in
         (Ok (Claimed l), {| lease := Some l; take := take d |}).
Proof.
  unfold claim. destruct (negb _); [done|]. destruct (200 <? _); [done|].
  destruct (negb _); [done|]. cbv zeta.
  assert (Hheld : active_lease d now =
    (opt_filter (fun l => now <? expires_at l) (lease d),
     {| lease := opt_filter (fun l => now <? expires_at l) (lease d); take := take d |})).
  { destruct (live_dec d now) as [[l Hl]|Hd].
    - rewrite (active_lease_live _ _ _ Hl). destruct d, Hl as [Hl Hn]; simpl in *; subst.
      simpl. by apply Z.ltb_lt in Hn as ->.
    - rewrite (active_lease_dead _ _ Hd). destruct d as [[l|] t]; [|done]. simpl.
      destruct (Z.ltb_spec now (expires_at l)); [|done].
      exfalso. apply (Hd l). by split. }
  rewrite Hheld. unfold checked_add. rewrite (Z.ltb_antisym (now + _) U64_MAX).
  destruct (lease d) as [l|] eqn:El; simpl; [destruct (now <? expires_at l) eqn:En; simpl|].
  - destruct (str_eqb (holder l) c); simpl.
    + by destruct (_ <=? _).
    + by destruct d; simplify_eq/=.
  - by destruct (_ <=? _).
  - by destruct (_ <=? _).
Qed.

Lemma batch_questions_acc requests acc :
  (forall q, In q (batch_questions requests acc) <->
     In q acc \/ exists r kind, In r requests /\ get "requestType" r = Some (Str kind) /\
                  request_question kind (get "requestData" r) = Some q) /\
  (NoDup acc -> NoDup (batch_questions requests acc)).
Proof.
  revert acc. induction requests as [|r rest IH]; intros acc.
  { split; [|done]. intros q. simpl. naive_solver. }
  simpl. destruct (get "requestType" r >>? as_str) as [kind|] eqn:Ek; simpl.
  2: { destruct (IH acc) as [IH1 IH2]. split; [|done]. intros q. rewrite IH1. split.
       - intros [?|(r' & k & ? & ?)]; [by left|]. right. exists r', k. auto.
       - intros [?|(r' & k & [<-|?] & Hk & ?)]; [by left| |right; eauto].
         by rewrite Hk in Ek. }
  assert (Hk : get "requestType" r = Some (Str kind)).
  { destruct (get "requestType" r) as [[]|]; by simplify_eq/=. }
  destruct (request_question kind _) as [q0|] eqn:Eq.
  2: { destruct (IH acc) as [IH1 IH2]. split; [|done]. intros q. rewrite IH1. split.
       - intros [?|(r' & k & ? & ?)]; [by left|]. right. exists r', k. auto.
       - intros [?|(r' & k & [<-|?] & Hk' & ?)]; [by left| |right; eauto]. congruence. }
  destruct (one_of q0 acc) eqn:Eo.
  - apply one_of_In in Eo. destruct (IH acc) as [IH1 IH2]. split; [|done].
    intros q. rewrite IH1. split.
    + intros [?|(r' & k & ? & ?)]; [by left|]. right. exists r', k. auto.
    + intros [?|(r' & k & [<-|?] & Hk' & ?)]; [by left| |right; eauto].
      left. congruence.
  - assert (Hno : ~ In q0 acc) by (rewrite <- one_of_In; congruence).
    destruct (IH (acc ++ [q0])) as [IH1 IH2]. split.
    + intros q. rewrite IH1, in_app_iff. simpl. split.
      * intros [[?|[<-|[]]]|(r' & k & ? & ?)]; [by left|right; exists r, kind; auto|right; exists r', k; auto].
      * intros [?|(r' & k & [<-|?] & Hk' & ?)]; [auto| |right; eauto].
        left. right. left. congruence.
    + intros Hnd. apply IH2. apply NoDup_app. split_and!; [done| |apply NoDup_singleton].
      intros x Hx%list_elem_of_In Hx'. apply list_elem_of_singleton in Hx' as ->. done.
Qed.

(** A batch cannot smuggle a live action past the confirmation gate, and asks about each
    once: the questions collected from [obs-batch] are exactly those of its member
    requests, without repetition. *)
Theorem batch_questions_exact requests :
  NoDup (batch_questions requests []) /\
  forall q, In q (batch_questions requests []) <->
    exists r kind, In r requests /\ get "requestType" r = Some (Str kind) /\
      request_question kind (get "requestData" r) = Some q.
Proof.
  destruct (batch_questions_acc requests []) as [H1 H2]. split.
  - apply H2, NoDup_nil_2.
  - intros q. rewrite H1. simpl. naive_solver.
Qed.

Lemma request_types_In t requests :
  In t (request_types requests) <->
  exists r, In r requests /\ get "requestType" r = Some (Str t).
Proof.
  induction requests as [|r rest IH]; simpl; [naive_solver|].
  destruct (get "requestType" r) as [[]|] eqn:E; simpl; rewrite ?IH; naive_solver.
Qed.

(** The take lock sees through [obs-batch]: while a take is locked, a batch is refused
    by the lock exactly when one of its requests is a locked request type. *)
Theorem batch_lock_complete arguments requests :
  get "requests" arguments = Some (Array requests) ->
  (exists action, locked_action "obs-batch" arguments = Some action) <->
  exists r t, In r requests /\ get "requestType" r = Some (Str t) /\ locked_request t = true.
Proof.
  intros Hreq. unfold locked_action.
  change (fixed_lock "obs-batch") with (@None string).
  destruct arguments as [| | | | |fields]; try done. simpl in *. rewrite Hreq. simpl.
  destruct (List.filter locked_request (request_types requests)) as [|t ts] eqn:E.
  - split; [by intros [? ?]|]. intros (r & t & Hin & Ht & Hl).
    assert (In t (List.filter locked_request (request_types requests))) as Hin'.
    { apply filter_In. split; [|done]. apply request_types_In. eauto. }
    by rewrite E in Hin'.
  - split; [|eauto]. intros _.
    assert (In t (List.filter locked_request (request_types requests))) as Hin'
      by (rewrite E; by left).
    apply filter_In in Hin' as [Hin Hl]. apply request_types_In in Hin as (r & ? & ?). eauto.
Qed.

End Runs.

(** ** Witnesses *)

Definition zero_format : F64Format :=
  {| f64_display := fun _ => "0"; f64_lower_exp := fun _ => "0e0" |}.

Definition sample_lease : Lease :=
  {| holder := "codex"; reason := "demo"; since := 1000; expires_at := 61000 |}.

Definition sample_request (tool : string) (arguments : Value) (who : string) : GateRequest :=
  {| tool_name := tool; arguments := arguments; read_only_hint := false; caller := who;
     confirmation := {| enabled := true; can_elicit := false; input_responses := None |} |}.

Lemma lease_not_stolen_witness :
  lease (run (H := zero_format) {| lease := Some sample_lease; take := None |}
           [(2000, OpClaim "other" 10 ""); (3000, OpRelease "other");
            (4000, OpEvaluate (sample_request "obs-start-stream" Null "other"))])
  = Some sample_lease.
Proof.
  apply (lease_not_stolen (H := zero_format)); [reflexivity|].
  repeat constructor; simpl; try lia; intros [=] || intros [].
Defined.

Lemma reachable_lease_wf_witness :
  lease_wf {| holder := "codex"; reason := "demo"; since := 1000; expires_at := 61000 |} 1000.
Proof.
  apply (reachable_lease_wf (H := zero_format)
           (apply_op (H := zero_format) default_domain 1000 (OpClaim "codex" 1 "demo"))).
  - apply (reachable_step (H := zero_format) default_domain 0); [|lia]. constructor. lia.
  - reflexivity.
Defined.

Lemma stop_tools_bypass_lease_and_lock_witness :
  evaluate (H := zero_format)
    {| lease := Some sample_lease; take := Some {| take_id := "t"; locked := true |} |}
    (sample_request "obs-stop-record" (object_of [("confirm", Bool true)]) "other") 2000
  = (Allow, {| lease := Some sample_lease; take := Some {| take_id := "t"; locked := true |} |}).
Proof.
  rewrite (stop_tools_bypass_lease_and_lock (H := zero_format)) by reflexivity. reflexivity.
Defined.

Lemma live_action_needs_consent_witness :
  from_responses None = Accepted true \/
  (from_responses None = Missing /\ false = false /\
   get "confirm" (object_of [("confirm", Bool true)]) = Some (Bool true)).
Proof.
  apply (live_action_needs_consent (H := zero_format) default_domain
           (sample_request "obs-stop-stream" (object_of [("confirm", Bool true)]) "codex") 0
           "Stop the live stream?"); vm_compute; reflexivity.
Defined.

Definition sample_batch : Value :=
  object_of [("requests", Array [object_of [("requestType", Str "GetVersion")];
                                 object_of [("requestType", Str "SetVideoSettings")]])].

Lemma batch_lock_complete_witness :
  exists action, locked_action "obs-batch" sample_batch = Some action.
Proof.
  apply (batch_lock_complete sample_batch
           [object_of [("requestType", Str "GetVersion")];
            object_of [("requestType", Str "SetVideoSettings")]]).
  - vm_compute. reflexivity.
  - exists (object_of [("requestType", Str "SetVideoSettings")]), "SetVideoSettings".
    repeat split; try (vm_compute; reflexivity). right. left. reflexivity.
Defined.
