(* ===== verification/ReceiptFields.v ===== *)
(** * Receipt fields

    The error type of the operation store and the field validators of
    [native/src/operation_store.rs]: UUIDs, SHA-256 hex digests, bounded identities,
    UTC timestamps, and the order in which an inventory lists receipts. *)
From S2P Require Import Prelude Json.

Definition MAX_RECEIPT_BYTES : Z := 16384.
Definition MAX_RECEIPTS : Z := 1024.
Definition DISPLAY_RECEIPTS : Z := 64.
Definition MAX_SAFE_INTEGER : Z := 9007199254740991.

Inductive StoreError :=
| InvalidIdentifier
| InvalidTimestamp
| InvalidReceipt
| UnsafePath
| MissingReceipt
| Corrupt
| ReceiptTooLarge
| InventoryLimit
| EndpointMismatch
| Conflict
| IdentityExhausted
| Unavailable
| DurabilityUncertain.

#[export] Instance StoreError_eq_dec : EqDecision StoreError.
Proof. solve_decision. Defined.

(** ** Bytes *)

Definition is_ascii_digit (b : Z) : bool := (48 <=? b) && (b <=? 57).
Definition is_ascii_hexdigit (b : Z) : bool :=
  is_ascii_digit b || ((65 <=? b) && (b <=? 70)) || ((97 <=? b) && (b <=? 102)).
Definition is_ascii_uppercase (b : Z) : bool := (65 <=? b) && (b <=? 90).
Definition to_ascii_lowercase (b : Z) : Z := if is_ascii_uppercase b then b + 32 else b.

(** [bytes.iter().enumerate()] *)
Definition enumerate {A} (l : list A) : list (nat * A) := combine (seq 0 (length l)) l.

(** [bytes[i] == b], for an index the guards before it keep in range *)
Definition byte_is (bs : list Z) (i : nat) (p : Z -> bool) : bool :=
  match bs !! i with Some b => p b | None => false end.

(** ** Digests and identities *)

Definition valid_hash (value : string) : bool :=
  (str_len value =? 64)
  && forallb (fun byte => is_ascii_digit byte || ((97 <=? byte) && (byte <=? 102)))
       (bytes_of value).

(** The hexadecimal rendering of the [sha2] crate's SHA-256. *)
Class Sha256 := {
  hash : string -> string;
  hash_hex : forall value, valid_hash (hash value) = true
}.

Definition bounded_identity (value : string) : bool :=
  (1 <=? utf16_count value) && (utf16_count value <=? 256).

Definition valid_uuid (value : string) : bool :=
  if one_of value ["00000000-0000-0000-0000-000000000000";
                   "ffffffff-ffff-ffff-ffff-ffffffffffff"] then true
  else
    let bytes := bytes_of value in
    (length bytes =? 36)%nat
    && forallb (fun '(index, byte) =>
          if existsb (Nat.eqb index) [8; 13; 18; 23]%nat then byte =? 45
          else is_ascii_hexdigit byte) (enumerate bytes)
    && byte_is bytes 14 (fun b => (49 <=? b) && (b <=? 56))
    && byte_is bytes 19 (fun b => existsb (Z.eqb b) [56; 57; 97; 98; 65; 66]).

(** ** Timestamps *)

(** The separator expected at an index of [YYYY-MM-DDTHH:MM:SS]. *)
Definition ts_separator (index : nat) : option Z :=
  if existsb (Nat.eqb index) [4; 7]%nat then Some 45
  else if Nat.eqb index 10 then Some 84
  else if existsb (Nat.eqb index) [13; 16]%nat then Some 58
  else None.

Definition ts_shape (bytes : list Z) : bool :=
  forallb (fun '(index, byte) =>
    match ts_separator index with
    | Some expected => byte =? expected
    | None => is_ascii_digit byte
    end) (take 19 (enumerate bytes)).

(** [number(start, end)] *)
Definition ts_number (bytes : list Z) (start stop : nat) : Z :=
  fold_left (fun value byte => value * 10 + (byte - 48)) (take (stop - start) (drop start bytes)) 0.

Definition is_multiple_of (n m : Z) : bool := n mod m =? 0.

Definition days_in (year month : Z) : Z :=
  if existsb (Z.eqb month) [1; 3; 5; 7; 8; 10; 12] then 31
  else if existsb (Z.eqb month) [4; 6; 9; 11] then 30
  else if month =? 2 then
    if is_multiple_of year 400 || (is_multiple_of year 4 && negb (is_multiple_of year 100))
    then 29 else 28
  else 0.

Definition valid_timestamp_bytes (bytes : list Z) : bool :=
  let n := length bytes in
  if (n <? 20)%nat || negb (is_some_and (last bytes) (Z.eqb 90)) then false
  else if negb (ts_shape bytes) then false
  else if negb (n =? 20)%nat
          && (negb (byte_is bytes 19 (Z.eqb 46)) || (n <? 22)%nat
              || negb (forallb is_ascii_digit (take (n - 1 - 20) (drop 20 bytes))))
  then false
  else
    let year := ts_number bytes 0 4 in
    let month := ts_number bytes 5 7 in
    let day := ts_number bytes 8 10 in
    let days := days_in year month in
    (1 <=? day) && (day <=? days)
    && (ts_number bytes 11 13 <=? 23) && (ts_number bytes 14 16 <=? 59)
    && (ts_number bytes 17 19 <=? 59).

Definition valid_timestamp (value : string) : bool := valid_timestamp_bytes (bytes_of value).

(** ** Listing order *)

Fixpoint first_difference (a b : list Z) : option (Z * Z) :=
  match a, b with
  | x :: a, y :: b => if x =? y then first_difference a b else Some (x, y)
  | _, _ => None
  end.

Definition bool_cmp (a b : bool) : comparison :=
  match a, b with
  | false, true => Lt
  | true, false => Gt
  | _, _ => Eq
  end.

Definition uuid_collation (a b : string) : comparison :=
  then_with
    (bytes_cmp (map to_ascii_lowercase (bytes_of a)) (map to_ascii_lowercase (bytes_of b)))
    (match first_difference (bytes_of a) (bytes_of b) with
     | Some (x, y) => bool_cmp (is_ascii_uppercase x) (is_ascii_uppercase y)
     | None => Eq
     end).

(** ** Timestamps: reference printer *)

Record Utc := {
  year : Z; month : Z; day : Z; hour : Z; minute : Z; second : Z;
  (** the digits after the decimal point, if there is one *)
  fraction : option (list Z)
}.

Definition digit (n : Z) : Z := 48 + n mod 10.
Definition digits2 (n : Z) : list Z := [digit (n / 10); digit n].
Definition digits4 (n : Z) : list Z := digits2 (n / 100) ++ digits2 n.

Definition print_utc (u : Utc) : list Z :=
  digits4 (year u) ++ [45] ++ digits2 (month u) ++ [45] ++ digits2 (day u) ++ [84]
  ++ digits2 (hour u) ++ [58] ++ digits2 (minute u) ++ [58] ++ digits2 (second u)
  ++ match fraction u with None => [] | Some ds => 46 :: map (fun d => 48 + d) ds end ++ [90].

Definition utc_ok (u : Utc) : Prop :=
  0 <= year u <= 9999 /\ 1 <= month u <= 12 /\ 1 <= day u <= days_in (year u) (month u) /\
  0 <= hour u <= 23 /\ 0 <= minute u <= 59 /\ 0 <= second u <= 59 /\
  match fraction u with
  | None => True
  | Some ds => ds <> [] /\ Forall (fun d => 0 <= d <= 9) ds
  end.

Lemma is_ascii_digit_iff b : is_ascii_digit b = true <-> 48 <= b <= 57.
Proof. unfold is_ascii_digit. to_prop. done. Qed.

Lemma digit_small n : 0 <= n <= 9 -> digit n = 48 + n.
Proof. intros. unfold digit. by rewrite Z.mod_small by lia. Qed.

Lemma digits2_of a b :
  48 <= a <= 57 -> 48 <= b <= 57 -> digits2 ((a - 48) * 10 + (b - 48)) = [a; b].
Proof.
  intros Ha Hb. unfold digits2, digit.
  replace (((a - 48) * 10 + (b - 48)) / 10) with (a - 48)
    by (apply Z.div_unique with (b - 48); lia).
  replace (((a - 48) * 10 + (b - 48)) mod 10) with (b - 48)
    by (apply Z.mod_unique with (a - 48); lia).
  rewrite Z.mod_small by lia. f_equal; [lia|]. f_equal. lia.
Qed.

Lemma digits2_range n : Forall (fun b => 48 <= b <= 57) (digits2 n).
Proof.
  unfold digits2, digit. repeat constructor; pose proof (Z.mod_pos_bound n 10);
    pose proof (Z.mod_pos_bound (n / 10) 10); lia.
Qed.

Lemma digits2_number n : 0 <= n <= 99 ->
  (0 * 10 + (digit (n / 10) - 48)) * 10 + (digit n - 48) = n.
Proof.
  intros. unfold digit. pose proof (Z.div_mod n 10). pose proof (Z.mod_pos_bound n 10).
  rewrite (Z.mod_small (n / 10)); [lia|]. split; [apply Z.div_pos; lia|].
  apply Z.div_lt_upper_bound; lia.
Qed.

Lemma days_in_month y m : 1 <= days_in y m -> 1 <= m <= 12.
Proof.
  unfold days_in. simpl. intros H.
  destruct (Z.eq_dec m 2); [lia|].
  repeat match goal with
    | H : context [?x =? ?y] |- _ => destruct (Z.eqb_spec x y); simpl in H; try lia
    end.
Qed.

(** The optional fraction between the seconds and the final [Z]. *)
Definition fraction_bytes (t : list Z) : Prop :=
  t = [] \/ exists ds, t = 46 :: ds /\ ds <> [] /\ forallb is_ascii_digit ds = true.

Lemma ts_fraction_check b0 b1 b2 b3 b4 b5 b6 b7 b8 b9 b10 b11 b12 b13 b14 b15 b16 b17 b18 t :
  let bs := [b0; b1; b2; b3; b4; b5; b6; b7; b8; b9; b10; b11; b12; b13; b14; b15; b16; b17; b18]
            ++ t ++ [90] in
  let n := length bs in
  (negb (n =? 20)%nat
   && (negb (byte_is bs 19 (Z.eqb 46)) || (n <? 22)%nat
       || negb (forallb is_ascii_digit (take (n - 1 - 20) (drop 20 bs))))) = false <->
  fraction_bytes t.
Proof.
  cbv zeta. unfold fraction_bytes. destruct t as [|x ds].
  { simpl. split; [by left|done]. }
  set (bs := _ ++ _).
  assert (Hn : length bs = (21 + length ds)%nat)
    by (unfold bs; simpl; rewrite length_app; simpl; lia).
  assert (Hx : byte_is bs 19 (Z.eqb 46) = (46 =? x)) by done.
  assert (Hd : take (length bs - 1 - 20) (drop 20 bs) = ds).
  { replace (drop 20 bs) with (ds ++ [90]) by done.
    rewrite Hn. rewrite take_app_le by lia. apply take_ge. lia. }
  rewrite Hd, Hn, Hx.
  replace (21 + length ds =? 20)%nat with false by (symmetry; apply Nat.eqb_neq; lia).
  change (negb false) with true. rewrite andb_true_l, !orb_false_iff, !negb_false_iff, Z.eqb_eq.
  split.
  - intros [[<- Hlt] Hds]. right. exists ds. split; [done|]. split; [|done].
    intros ->. done.
  - intros [?|(ds' & [= -> ->] & Hne & Hds)]; [done|]. repeat split; try done.
    apply Nat.ltb_ge. destruct ds'; [done|]. simpl. lia.
Qed.

Lemma fraction_bytes_print t :
  fraction_bytes t <->
  exists f, t = match f with None => [] | Some ds => 46 :: map (fun d => 48 + d) ds end /\
            match f with None => True | Some ds => ds <> [] /\ Forall (fun d => 0 <= d <= 9) ds end.
Proof.
  unfold fraction_bytes. split.
  - intros [->|(ds & -> & Hne & Hds)]; [by exists None|].
    exists (Some (map (fun b => b - 48) ds)). rewrite forallb_forall in Hds. repeat split.
    + f_equal. rewrite map_map. symmetry. rewrite <- map_id. apply map_ext. intros. lia.
    + by destruct ds.
    + apply Forall_map, Forall_forall. intros b Hb%list_elem_of_In.
      apply Hds, is_ascii_digit_iff in Hb. simpl. lia.
  - intros ([ds|] & -> & H); [|by left]. destruct H as [Hne Hds]. right.
    eexists. split; [done|]. split; [by destruct ds|].
    apply forallb_forall. intros b (d & <- & Hin)%in_map_iff.
    apply is_ascii_digit_iff. rewrite Forall_forall in Hds.
    specialize (Hds d). rewrite list_elem_of_In in Hds. specialize (Hds Hin). lia.
Qed.

Lemma ts_split bytes :
  (length bytes <? 20)%nat || negb (is_some_and (last bytes) (Z.eqb 90)) = false ->
  exists l t, length l = 19%nat /\ bytes = l ++ t ++ [90].
Proof.
  intros [Hlen Hlast]%orb_false_iff. apply Nat.ltb_ge in Hlen.
  apply negb_false_iff, is_some_and_true in Hlast as (x & Hx & <-%Z.eqb_eq).
  apply last_Some in Hx as [l' ->]. rewrite length_app in Hlen. simpl in Hlen.
  exists (take 19 l'), (drop 19 l'). split; [rewrite length_take; lia|].
  by rewrite app_assoc, take_drop.
Qed.

Definition dec2 (a b : Z) : Z := (a - 48) * 10 + (b - 48).
Definition dec4 (a b c d : Z) : Z := dec2 a b * 100 + dec2 c d.

Lemma valid_explicit b0 b1 b2 b3 s4 b5 b6 s7 b8 b9 s10 b11 b12 s13 b14 b15 s16 b17 b18 t :
  valid_timestamp_bytes
    ([b0; b1; b2; b3; s4; b5; b6; s7; b8; b9; s10; b11; b12; s13; b14; b15; s16; b17; b18]
     ++ t ++ [90]) = true <->
  Forall (fun b => 48 <= b <= 57)
    [b0; b1; b2; b3; b5; b6; b8; b9; b11; b12; b14; b15; b17; b18] /\
  s4 = 45 /\ s7 = 45 /\ s10 = 84 /\ s13 = 58 /\ s16 = 58 /\ fraction_bytes t /\
  1 <= dec2 b8 b9 <= days_in (dec4 b0 b1 b2 b3) (dec2 b5 b6) /\
  dec2 b11 b12 <= 23 /\ dec2 b14 b15 <= 59 /\ dec2 b17 b18 <= 59.
Proof.
  set (l := [b0; b1; b2; b3; s4; b5; b6; s7; b8; b9; s10; b11; b12; s13; b14; b15; s16; b17; b18]).
  unfold valid_timestamp_bytes.
  assert (Hlen : (length (l ++ t ++ [90%Z]) <? 20)%nat = false).
  { apply Nat.ltb_ge. rewrite !length_app. simpl. lia. }
  rewrite Hlen, app_assoc, last_snoc, <- app_assoc. cbn [is_some_and Z.eqb Pos.eqb negb orb].
  assert (Hshape : ts_shape (l ++ t ++ [90%Z]) = true <->
    Forall (fun b => 48 <= b <= 57)
      [b0; b1; b2; b3; b5; b6; b8; b9; b11; b12; b14; b15; b17; b18] /\
    s4 = 45 /\ s7 = 45 /\ s10 = 84 /\ s13 = 58 /\ s16 = 58).
  { unfold ts_shape. cbn -[Z.eqb is_ascii_digit].
    rewrite !andb_true_iff, !is_ascii_digit_iff, !Z.eqb_eq, !Forall_cons, Forall_nil. tauto. }
  destruct (ts_shape (l ++ t ++ [90%Z])); cbn [negb]; [|split; [done|]; intros H; exfalso].
  2: { apply diff_false_true, Hshape. tauto. }
  pose proof (ts_fraction_check b0 b1 b2 b3 s4 b5 b6 s7 b8 b9 s10 b11 b12 s13 b14 b15 s16 b17 b18 t)
    as Hfrac. cbv zeta in Hfrac. fold l in Hfrac.
  destruct (negb _ && _); [split; [done|]; intros H; exfalso|].
  { apply diff_true_false, Hfrac. tauto. }
  cbv zeta. rewrite !andb_true_iff, !Z.leb_le.
  replace (ts_number (l ++ t ++ [90%Z]) 0 4) with (dec4 b0 b1 b2 b3)
    by (unfold ts_number, dec4, dec2; simpl; lia).
  replace (ts_number (l ++ t ++ [90%Z]) 5 7) with (dec2 b5 b6) by (unfold ts_number, dec2; simpl; lia).
  replace (ts_number (l ++ t ++ [90%Z]) 8 10) with (dec2 b8 b9) by (unfold ts_number, dec2; simpl; lia).
  replace (ts_number (l ++ t ++ [90%Z]) 11 13) with (dec2 b11 b12) by (unfold ts_number, dec2; simpl; lia).
  replace (ts_number (l ++ t ++ [90%Z]) 14 16) with (dec2 b14 b15) by (unfold ts_number, dec2; simpl; lia).
  replace (ts_number (l ++ t ++ [90%Z]) 17 19) with (dec2 b17 b18) by (unfold ts_number, dec2; simpl; lia).
  tauto.
Qed.

Lemma digits2_dec2 a b :
  48 <= a <= 57 -> 48 <= b <= 57 -> digits2 (dec2 a b) = [a; b].
Proof. apply digits2_of. Qed.

Lemma digits4_dec4 a b c d :
  48 <= a <= 57 -> 48 <= b <= 57 -> 48 <= c <= 57 -> 48 <= d <= 57 ->
  digits4 (dec4 a b c d) = [a; b; c; d].
Proof.
  intros. unfold digits4, dec4.
  replace ((dec2 a b * 100 + dec2 c d) / 100) with (dec2 a b)
    by (apply Z.div_unique with (dec2 c d); unfold dec2; lia).
  rewrite digits2_dec2 by done.
  assert (digits2 (dec2 a b * 100 + dec2 c d) = digits2 (dec2 c d)) as ->;
    [|by rewrite digits2_dec2].
  unfold digits2, digit.
  replace ((dec2 a b * 100 + dec2 c d) / 10) with (dec2 a b * 10 + (c - 48))
    by (apply Z.div_unique with (d - 48); unfold dec2; lia).
  replace (dec2 c d / 10) with (c - 48)
    by (apply Z.div_unique with (d - 48); unfold dec2; lia).
  replace (dec2 a b * 100 + dec2 c d) with (dec2 c d + (dec2 a b * 10) * 10) by lia.
  replace (dec2 a b * 10 + (c - 48)) with ((c - 48) + dec2 a b * 10) by lia.
  by rewrite !Z.mod_add by lia.
Qed.

Lemma dec2_digits2 n : 0 <= n <= 99 -> dec2 (digit (n / 10)) (digit n) = n.
Proof. intros H. unfold dec2. pose proof (digits2_number n H). lia. Qed.

Lemma dec4_digits4 n : 0 <= n <= 9999 ->
  dec4 (digit (n / 100 / 10)) (digit (n / 100)) (digit (n / 10)) (digit n) = n.
Proof.
  intros H. pose proof (Z.div_mod n 100). pose proof (Z.mod_pos_bound n 100).
  assert (0 <= n / 100 <= 99)
    by (split; [apply Z.div_pos; lia | apply Z.lt_succ_r, Z.div_lt_upper_bound; lia]).
  unfold dec4. rewrite dec2_digits2 by done.
  assert (dec2 (digit (n / 10)) (digit n) = n mod 100) as ->; [|lia].
  rewrite <- (dec2_digits2 (n mod 100)) by lia. unfold digit. f_equal; f_equal.
  - rewrite (Z.div_mod n 100) at 1 by lia.
    replace (100 * (n / 100) + n mod 100) with (n mod 100 + (10 * (n / 100)) * 10) by lia.
    rewrite Z.div_add by lia. rewrite Z.mul_comm, Z.mod_add by lia. done.
  - rewrite (Z.div_mod n 100) at 1 by lia.
    replace (100 * (n / 100) + n mod 100) with (n mod 100 + (10 * (n / 100)) * 10) by lia.
    by rewrite Z.mod_add by lia.
Qed.

Lemma digit_range n : 48 <= digit n <= 57.
Proof. unfold digit. pose proof (Z.mod_pos_bound n 10). lia. Qed.

(** [valid_timestamp] accepts exactly the UTC timestamps of real calendar instants:
    the strings [YYYY-MM-DDTHH:MM:SS(.digits)Z] printed from a year, a month, a day that
    exists in that month (leap years included), an hour, a minute and a second in
    range, with an optional non-empty fraction. *)
Theorem valid_timestamp_iff value :
  valid_timestamp value = true <-> exists u, utc_ok u /\ bytes_of value = print_utc u.
Proof.
  unfold valid_timestamp. generalize (bytes_of value). intros bytes. split.
  - intros H.
    destruct ((length bytes <? 20)%nat || negb (is_some_and (last bytes) (Z.eqb 90))) eqn:E.
    { unfold valid_timestamp_bytes in H. by rewrite E in H. }
    apply ts_split in E as (l & t & Hl & ->).
    destruct l as [|b0 [|b1 [|b2 [|b3 [|s4 [|b5 [|b6 [|s7 [|b8 [|b9 [|s10 [|b11 [|b12 [|s13
      [|b14 [|b15 [|s16 [|b17 [|b18 [|]]]]]]]]]]]]]]]]]]]]; try done.
    apply valid_explicit in H as (Hd & -> & -> & -> & -> & -> & Ht & Hday & Hh & Hm & Hs).
    apply fraction_bytes_print in Ht as (f & -> & Hf).
    repeat (apply Forall_cons in Hd as [? Hd]).
    exists {| year := dec4 b0 b1 b2 b3; month := dec2 b5 b6; day := dec2 b8 b9;
              hour := dec2 b11 b12; minute := dec2 b14 b15; second := dec2 b17 b18;
              fraction := f |}. split.
    + unfold utc_ok; simpl.
      pose proof (days_in_month _ _ (Z.le_trans _ _ _ (proj1 Hday) (proj2 Hday))).
      split_and!; try done; try lia; unfold dec4, dec2; lia.
    + unfold print_utc. cbn [year month day hour minute second fraction].
      rewrite digits4_dec4, !digits2_dec2 by done. done.
  - intros (u & (Hy & Hmo & Hday & Hh & Hm & Hs & Hf) & ->).
    unfold print_utc, digits4, digits2.
    set (t := match fraction u with None => [] | Some _ => _ end).
    assert (Ht : fraction_bytes t) by (apply fraction_bytes_print; by exists (fraction u)).
    clearbody t. simpl app.
    pose proof (days_in_month (year u) (month u)).
    assert (days_in (year u) (month u) <= 31)
      by (unfold days_in; repeat case_match; lia).
    refine (proj2 (valid_explicit _ _ _ _ _ _ _ _ _ _ _ _ _ _ _ _ _ _ _ t) _).
    rewrite dec4_digits4, !dec2_digits2 by lia.
    split; [repeat constructor; apply digit_range|]. split_and!; (done || lia).
Qed.

(** ** The listing order is a total order on identifiers *)

Definition case_flag (b : Z) : Z := if is_ascii_uppercase b then 1 else 0.

Lemma lowercase_flag_inj x y :
  to_ascii_lowercase x = to_ascii_lowercase y -> case_flag x = case_flag y -> x = y.
Proof.
  unfold to_ascii_lowercase, case_flag.
  destruct (is_ascii_uppercase x), (is_ascii_uppercase y); lia.
Qed.

Lemma first_difference_case a b :
  map to_ascii_lowercase a = map to_ascii_lowercase b ->
  match first_difference a b with
  | Some (x, y) => bool_cmp (is_ascii_uppercase x) (is_ascii_uppercase y)
  | None => Eq
  end = bytes_cmp (map case_flag a) (map case_flag b).
Proof.
  revert b. induction a as [|x a IH]; intros [|y b]; simpl; try done.
  intros [= Hxy Hab]. destruct (Z.eqb_spec x y) as [->|Hne].
  - rewrite Z.compare_refl. by apply IH.
  - assert (case_flag x <> case_flag y) as Hf by (intros ?; by apply Hne, lowercase_flag_inj).
    unfold case_flag in *. by destruct (is_ascii_uppercase x), (is_ascii_uppercase y).
Qed.

Lemma uuid_collation_lex a b :
  uuid_collation a b =
  then_with
    (bytes_cmp (map to_ascii_lowercase (bytes_of a)) (map to_ascii_lowercase (bytes_of b)))
    (bytes_cmp (map case_flag (bytes_of a)) (map case_flag (bytes_of b))).
Proof.
  unfold uuid_collation, then_with.
  destruct (bytes_cmp (map to_ascii_lowercase _) _) eqn:E; [|done|done].
  apply bytes_cmp_eq in E. by apply first_difference_case.
Qed.

#[export] Instance uuid_collation_order : CompareOrder uuid_collation.
Proof.
  assert (H : CompareOrder (fun a b =>
    then_with
      (bytes_cmp (map to_ascii_lowercase (bytes_of a)) (map to_ascii_lowercase (bytes_of b)))
      (bytes_cmp (map case_flag (bytes_of a)) (map case_flag (bytes_of b))))).
  { apply compare_order_then.
    - apply (compare_order_on bytes_cmp (fun s => map to_ascii_lowercase (bytes_of s))), _.
    - apply (compare_order_on bytes_cmp (fun s => map case_flag (bytes_of s))), _. }
  destruct H as [H1 H2 H3 H4]. split; intros *; rewrite ?uuid_collation_lex; eauto.
Qed.

Lemma uuid_collation_eq a b : uuid_collation a b = Eq -> a = b.
Proof.
  rewrite uuid_collation_lex. unfold then_with.
  destruct (bytes_cmp (map to_ascii_lowercase _) _) eqn:E; try done.
  apply bytes_cmp_eq in E. intros Hf%bytes_cmp_eq. apply bytes_of_inj.
  revert E Hf. generalize (bytes_of a), (bytes_of b). intros l.
  induction l as [|x l IH]; intros [|y l']; simpl; try done.
  intros [= Hl Hls] [= Hc Hcs]. f_equal; [by apply lowercase_flag_inj | auto].
Qed.
