(* ===== verification/Serde.v ===== *)
(** * Derived (de)serialization

    The combinators from which the [#[derive(Serialize, Deserialize)]] instances of the
    receipt structs are assembled, as their attributes prescribe: fields under their
    [camelCase] names, [deny_unknown_fields], an [Option] field that is absent or [null]
    is [None], unit enum variants under their renamed string.  A struct value is read
    from an object, or from an array of its fields in declaration order. *)
From S2P Require Import Prelude Json.

Definition de_string (v : Value) : option string := as_str v.
Definition de_bool (v : Value) : option bool := as_bool v.
Definition de_u64 (v : Value) : option Z := as_u64 v.
Definition de_u8 (v : Value) : option Z := opt_filter (fun n => n <=? U8_MAX) (as_u64 v).

(** A unit variant: its name, or an object [{name: null}]. *)
Definition de_variant {A} (names : list (string * A)) (v : Value) : option A :=
  let find name :=
    snd <$> List.find (fun '(n, _) => str_eqb name n) names in
  match v with
  | Str name => find name
  | Object [(name, Null)] => find name
  | _ => None
  end.

Definition de_option {A} (de : Value -> option A) (v : Value) : option (option A) :=
  match v with
  | Null => Some None
  | _ => Some <$> de v
  end.

Definition ser_option {A} (ser : A -> Value) (o : option A) : Value :=
  match o with
  | None => Null
  | Some a => ser a
  end.

(** A field that must be present. *)
Definition required {A} (k : string) (de : Value -> option A) (fields : list (string * Value))
  : option A := field k fields >>? de.

(** An [Option] field: absent means [None]. *)
Definition optional {A} (k : string) (de : Value -> option A) (fields : list (string * Value))
  : option (option A) :=
  match field k fields with
  | None => Some None
  | Some v => de_option de v
  end.

(** [deny_unknown_fields] *)
Definition only_fields (names : list string) (fields : list (string * Value)) : bool :=
  forallb (fun '(k, _) => one_of k names) fields.

Notation "'let!' x ':=' c 'in' k" := (and_then c (fun x => k))
  (at level 10, x pattern, c at level 100, k at level 200) : result_scope.

Lemma de_variant_name {A} (names : list (string * A)) (name : A -> string) a :
  List.find (fun '(n, _) => str_eqb (name a) n) names = Some (name a, a) ->
  de_variant names (Str (name a)) = Some a.
Proof. intros H. unfold de_variant. by rewrite H. Qed.

Lemma de_option_ser {A} (de : Value -> option A) (ser : A -> Value) o :
  (forall a, ser a <> Null) -> (forall a, o = Some a -> de (ser a) = Some a) ->
  de_option de (ser_option ser o) = Some o.
Proof.
  intros Hnull Hrt. destruct o as [a|]; [|done]. simpl. specialize (Hnull a).
  unfold de_option. rewrite (Hrt a eq_refl). by destruct (ser a).
Qed.

Lemma de_u8_num n : n <= U8_MAX -> de_u8 (num n) = Some n.
Proof. intros H. unfold de_u8. simpl. by apply Z.leb_le in H as ->. Qed.

Lemma only_fields_object names l :
  only_fields names l = true -> only_fields names (object_fields l) = true.
Proof. apply forallb_object_fields. Qed.

(** A stored value has no floating-point number in it, and its objects have their keys in
    the order [Map] keeps them in; the textual form of such a value is exact. *)
Fixpoint canonical (v : Value) : bool :=
  match v with
  | Num (Float _) => false
  | Array vs => forallb canonical vs
  | Object fields => sorted_keys fields && forallb (fun '(_, v) => canonical v) fields
  | _ => true
  end.

(** The [serde_json] text codec. *)
Class SerdeJson := {
  to_vec : Value -> list Z;
  from_slice : list Z -> option Value;
  from_slice_to_vec : forall v, canonical v = true -> from_slice (to_vec v) = Some v
}.
