(* ===== verification/PhaseMachine.v ===== *)
(** * Receipt phase machines

    What every updatable receipt promises about its history: an interface the V2 to V5
    receipts implement, and the facts about chains of updates that follow from it.  A
    receipt is never an instruction to replay: its chain of updates is bounded and each
    intent to dispatch is recorded at most as often as the receipt planned it. *)
From S2P Require Import Prelude ReceiptFields.

Class PhaseMachine (R U : Type) := {
  (** the checked successor of a receipt under an update at a UTC time *)
  pm_updated : R -> U -> string -> result StoreError R;
  (** does the update record the intent to send something to OBS? *)
  pm_dispatch : U -> bool;
  (** how many more updates, and how many more dispatches, the receipt allows *)
  pm_rank : R -> nat;
  pm_budget : R -> nat;
  pm_rank_decreases r u utc r' :
    pm_updated r u utc = Ok r' -> (pm_rank r' < pm_rank r)%nat;
  pm_budget_spent r u utc r' :
    pm_updated r u utc = Ok r' ->
    (pm_budget r' + (if pm_dispatch u then 1 else 0) <= pm_budget r)%nat
}.

Section Chains.
Context {R U : Type} `{!PhaseMachine R U}.

(** A receipt's history: the updates applied to it, oldest first. *)
Inductive history : R -> list (U * string) -> R -> Prop :=
| history_nil r : history r [] r
| history_cons r u utc r1 us r2 :
    pm_updated r u utc = Ok r1 -> history r1 us r2 -> history r ((u, utc) :: us) r2.

Definition dispatches (us : list (U * string)) : nat :=
  length (List.filter (fun '(u, _) => pm_dispatch u) us).

Lemma history_rank r us r' :
  history r us r' -> (length us + pm_rank r' <= pm_rank r)%nat.
Proof.
  induction 1 as [r|r u utc r1 us r2 Hu _ IH]; simpl; [lia|].
  apply pm_rank_decreases in Hu. lia.
Qed.

Lemma history_budget r us r' :
  history r us r' -> (dispatches us + pm_budget r' <= pm_budget r)%nat.
Proof.
  unfold dispatches. induction 1 as [r|r u utc r1 us r2 Hu _ IH]; simpl; [lia|].
  apply pm_budget_spent in Hu. destruct (pm_dispatch u); simpl; lia.
Qed.

(** An invariant of one update is an invariant of every history. *)
Lemma history_ind_inv (I : R -> Prop) :
  (forall r u utc r', I r -> pm_updated r u utc = Ok r' -> I r') ->
  forall r us r', history r us r' -> I r -> I r'.
Proof. intros Hstep. induction 1; eauto. Qed.
End Chains.

#[export] Hint Resolve history_rank history_budget : obs.
