(* ===== verification/OperationReceipt.v ===== *)
(** * Version 1 receipts

    [OperationReceipt] of [native/src/operation_store.rs]: a single-request operation
    (stage, take, record start, record stop), its checked constructor, its JSON form,
    and the update the store applies to it. *)
From Stdlib Require Import SpecFloat.
From S2P Require Import Prelude Json Serde ReceiptFields.

Inductive OperationKind :=
| StageScene
| TakeScene
| RecordStart
| RecordStop.

Inductive Phase :=
| Prepared
| Dispatching
| Accepted
| Observed
| NotDispatched
| Unknown.

#[global] Instance OperationKind_eq_dec : EqDecision OperationKind.
Proof. solve_decision. Defined.
#[global] Instance Phase_eq_dec : EqDecision Phase.
Proof. solve_decision. Defined.

Definition is_uncertain (self : Phase) : bool :=
  match self with
  | Dispatching | Accepted | Unknown => true
  | _ => false
  end.

Definition phase_name (self : Phase) : string :=
  match self with
  | Prepared => "prepared"
  | Dispatching => "dispatching"
  | Accepted => "accepted"
  | Observed => "observed"
  | NotDispatched => "not-dispatched"
  | Unknown => "unknown"
  end.

Definition kind_name (self : OperationKind) : string :=
  match self with
  | StageScene => "stage-scene"
  | TakeScene => "take-scene"
  | RecordStart => "record-start"
  | RecordStop => "record-stop"
  end.

(** [struct Record], wrapped by [OperationReceipt] *)
Record OperationReceipt := {
  version : Z;
  operation_id : string;
  kind : OperationKind;
  endpoint_hash : string;
  collection_hash : option string;
  scene_uuid : option string;
  stage_id : option string;
  take_id : option string;
  generation : Z;
  created_at : string;
  updated_at : string;
  phase : Phase;
  request_dispatched : option bool;
  request_accepted : option bool;
  postcondition_observed : bool;
  rendered_composition : string
}.

#[global] Instance OperationReceipt_eq_dec : EqDecision OperationReceipt.
Proof. solve_decision. Defined.

(** ** The checked constructor *)

Definition record_valid (record : OperationReceipt) : bool :=
  negb
    (negb (version record =? 1)
     || negb (valid_uuid (operation_id record))
     || negb (valid_hash (endpoint_hash record))
     || is_some_and (collection_hash record) (fun value => negb (valid_hash value))
     || is_some_and (stage_id record) (fun value => negb (valid_uuid value))
     || existsb (fun o => is_some_and o (fun value => negb (bounded_identity value)))
          [scene_uuid record; take_id record]
     || (MAX_SAFE_INTEGER <? generation record)
     || negb (valid_timestamp (created_at record))
     || negb (valid_timestamp (updated_at record))
     || negb (str_eqb (rendered_composition record) "unverified")).

Definition checked (record : OperationReceipt) : result StoreError OperationReceipt :=
  if record_valid record then Ok record else Err InvalidReceipt.

(** ** JSON *)

Definition phase_table : list (string * Phase) :=
  map (fun p => (phase_name p, p))
    [Prepared; Dispatching; Accepted; Observed; NotDispatched; Unknown].

Definition kind_table : list (string * OperationKind) :=
  map (fun k => (kind_name k, k)) [StageScene; TakeScene; RecordStart; RecordStop].

(** [skip_serializing_if = "Option::is_none"] *)
Definition present (k : string) (o : option string) : list (string * Value) :=
  match o with
  | None => []
  | Some s => [(k, Str s)]
  end.

Definition value_fields (r : OperationReceipt) : list (string * Value) :=
  [("version", num (version r)); ("operationId", Str (operation_id r));
   ("kind", Str (kind_name (kind r))); ("endpointHash", Str (endpoint_hash r))]
  ++ present "collectionHash" (collection_hash r) ++ present "sceneUuid" (scene_uuid r)
  ++ present "stageId" (stage_id r) ++ present "takeId" (take_id r)
  ++ [("generation", num (generation r)); ("createdAt", Str (created_at r));
      ("updatedAt", Str (updated_at r)); ("phase", Str (phase_name (phase r)));
      ("requestDispatched", ser_option Bool (request_dispatched r));
      ("requestAccepted", ser_option Bool (request_accepted r));
      ("postconditionObserved", Bool (postcondition_observed r));
      ("renderedComposition", Str (rendered_composition r))].

Definition to_value (r : OperationReceipt) : Value := object_of (value_fields r).

Definition required_keys : list string :=
  ["version"; "operationId"; "kind"; "endpointHash"; "generation"; "createdAt"; "updatedAt";
   "phase"; "requestDispatched"; "requestAccepted"; "postconditionObserved";
   "renderedComposition"].

Definition optional_keys : list string := ["collectionHash"; "sceneUuid"; "stageId"; "takeId"].

(** The derived [Deserialize] of [Record], from the fields of an object. *)
Definition record_of_fields (fields : list (string * Value)) : option OperationReceipt :=
  if negb (only_fields (required_keys ++ optional_keys) fields) then None
  else
    let! version := required "version" de_u8 fields in
    let! operation_id := required "operationId" de_string fields in
    let! kind := required "kind" (de_variant kind_table) fields in
    let! endpoint_hash := required "endpointHash" de_string fields in
    let! collection_hash := optional "collectionHash" de_string fields in
    let! scene_uuid := optional "sceneUuid" de_string fields in
    let! stage_id := optional "stageId" de_string fields in
    let! take_id := optional "takeId" de_string fields in
    let! generation := required "generation" de_u64 fields in
    let! created_at := required "createdAt" de_string fields in
    let! updated_at := required "updatedAt" de_string fields in
    let! phase := required "phase" (de_variant phase_table) fields in
    let! request_dispatched := optional "requestDispatched" de_bool fields in
    let! request_accepted := optional "requestAccepted" de_bool fields in
    let! postcondition_observed := required "postconditionObserved" de_bool fields in
    let! rendered_composition := required "renderedComposition" de_string fields in
    Some {| version := version; operation_id := operation_id; kind := kind;
            endpoint_hash := endpoint_hash; collection_hash := collection_hash;
            scene_uuid := scene_uuid; stage_id := stage_id; take_id := take_id;
            generation := generation; created_at := created_at; updated_at := updated_at;
            phase := phase; request_dispatched := request_dispatched;
            request_accepted := request_accepted;
            postcondition_observed := postcondition_observed;
            rendered_composition := rendered_composition |}.

(** The integer value of a finite [f64] without fractional part. *)
Definition f64_integer (f : f64) : option Z :=
  match f with
  | S754_zero _ => Some 0
  | S754_finite s m e =>
      let magnitude :=
        if 0 <=? e then Some (Z.pos m * 2 ^ e)
        else if Z.pos m mod 2 ^ (- e) =? 0 then Some (Z.pos m / 2 ^ (- e))
        else None in
      (fun z => if s then - z else z) <$> magnitude
  | _ => None
  end.

(** A JSON number read as a non-negative integer up to [maximum]. *)
Definition normal_integer (v : Value) (maximum : Z) : option Z :=
  opt_filter (fun n => n <=? maximum)
    (or_else (as_u64 v)
       (let! number := as_f64 v in
        let! n := f64_integer number in
        if f64_leb f64_zero number && f64_leb number (f64_of_Z maximum) then Some n else None)).

Definition normalize (field_name : string) (maximum : Z) (fields : list (string * Value))
  : result StoreError (list (string * Value)) :=
  let? number := ok_or (let! v := field field_name fields in normal_integer v maximum)
                   InvalidReceipt in
  Ok (field_insert field_name (num number) fields).

Definition from_value (value : Value) : result StoreError OperationReceipt :=
  let? fields := ok_or (as_object value) InvalidReceipt in
  if existsb (fun k => is_none (field k fields)) required_keys then Err InvalidReceipt
  else if existsb (fun k => is_some_and (field k fields) is_null) optional_keys
  then Err InvalidReceipt
  else
    let? fields := normalize "version" 1 fields in
    let? fields := normalize "generation" MAX_SAFE_INTEGER fields in
    let? record := ok_or (record_of_fields fields) InvalidReceipt in
    checked record.

(** ** Updates *)

Record OperationUpdate := {
  new_phase : Phase;
  (** [None] keeps the old value; [Some None] records uncertainty. *)
  set_dispatched : option (option bool);
  set_accepted : option (option bool);
  set_observed : option bool
}.

Definition update_new (p : Phase) : OperationUpdate :=
  {| new_phase := p; set_dispatched := None; set_accepted := None; set_observed := None |}.

(** The record [BackendStore::update] builds before it is checked. *)
Definition updated_record (r : OperationReceipt) (u : OperationUpdate) (utc : string)
  : OperationReceipt :=
  {| version := version r; operation_id := operation_id r; kind := kind r;
     endpoint_hash := endpoint_hash r; collection_hash := collection_hash r;
     scene_uuid := scene_uuid r; stage_id := stage_id r; take_id := take_id r;
     generation := generation r; created_at := created_at r; updated_at := utc;
     phase := new_phase u;
     request_dispatched := default (request_dispatched r) (set_dispatched u);
     request_accepted := default (request_accepted r) (set_accepted u);
     postcondition_observed := default (postcondition_observed r) (set_observed u);
     rendered_composition := rendered_composition r |}.

(** [summary_receipt] *)
Definition PENDING_CHECK : string :=
  "Inspect fresh OBS state; this receipt does not authorize replay or prove a rendered result".
Definition SEPARATE_CHECK : string :=
  "Current OBS state and rendered composition require separate inspection".

Definition summary_receipt (r : OperationReceipt) : Value :=
  match to_value r with
  | Object fields =>
      Object (field_insert "nextCheck"
                (Str (if is_uncertain (phase r) then PENDING_CHECK else SEPARATE_CHECK))
             (field_insert "status"
                (Str (if is_uncertain (phase r) then "unknown" else phase_name (phase r)))
             (field_remove "endpointHash" fields)))
  | v => v
  end.

(** ** Lemmas *)

Lemma v1_checked_Ok record r : checked record = Ok r <-> r = record /\ record_valid record = true.
Proof. unfold checked. destruct (record_valid record); naive_solver. Qed.

Lemma v1_record_valid_fields r :
  record_valid r = true <->
  version r = 1 /\ valid_uuid (operation_id r) = true /\ valid_hash (endpoint_hash r) = true /\
  (forall h, collection_hash r = Some h -> valid_hash h = true) /\
  (forall s, stage_id r = Some s -> valid_uuid s = true) /\
  (forall s, scene_uuid r = Some s \/ take_id r = Some s -> bounded_identity s = true) /\
  generation r <= MAX_SAFE_INTEGER /\ valid_timestamp (created_at r) = true /\
  valid_timestamp (updated_at r) = true /\ rendered_composition r = "unverified".
Proof.
  unfold record_valid. rewrite negb_true_iff. simpl.
  rewrite !orb_false_iff, !negb_false_iff, Z.eqb_eq, Z.ltb_ge, str_eqb_eq.
  assert (Hsome : forall (o : option string) p,
    is_some_and o (fun value => negb (p value)) = false <-> forall s, o = Some s -> p s = true).
  { intros o p. destruct o as [s|]; simpl; [|naive_solver].
    rewrite negb_false_iff. naive_solver. }
  rewrite !Hsome. naive_solver.
Qed.

Lemma v1_value_fields_nodup r : NoDup (keys (value_fields r)).
Proof.
  destruct r as [? ? ? ? [] [] [] [] ? ? ? ? ? ? ? ?]; apply nodup_keys_spec; vm_compute; reflexivity.
Qed.

(** Normalizing a field that already holds a small enough integer rewrites it with
    itself. *)
Lemma normalize_num k n maximum fields :
  field k fields = Some (num n) -> n <= maximum ->
  normalize k maximum fields = Ok (field_insert k (num n) fields).
Proof.
  intros Hf Hn. unfold normalize. rewrite Hf. simpl. unfold normal_integer. simpl.
  by apply Z.leb_le in Hn as ->.
Qed.

Lemma v1_record_of_fields_rt r fields :
  (forall k, field k fields = field k (value_fields r)) ->
  only_fields (required_keys ++ optional_keys) fields = true ->
  version r <= U8_MAX ->
  record_of_fields fields = Some r.
Proof.
  intros Hf Honly Hv. unfold record_of_fields. rewrite Honly. unfold required, optional.
  rewrite !Hf.
  destruct r as [v oid k eh ch su si ti g ca ua p rd ra po rc]; simpl in Hv.
  destruct ch, su, si, ti; simpl; rewrite de_u8_num by done; simpl;
    destruct k, p, rd, ra; reflexivity.
Qed.

Lemma value_fields_only r :
  only_fields (required_keys ++ optional_keys) (value_fields r) = true.
Proof. by destruct r as [? ? ? ? [] [] [] [] ? ? ? ? ? ? ? ?]. Qed.

Lemma value_fields_required r k : In k required_keys -> is_none (field k (value_fields r)) = false.
Proof.
  destruct r as [? ? ? ? [] [] [] [] ? ? ? ? ? ? ? ?]; simpl; intros Hin;
    repeat destruct Hin as [<-|Hin]; done.
Qed.

Lemma value_fields_optional r k :
  In k optional_keys -> is_some_and (field k (value_fields r)) is_null = false.
Proof.
  destruct r as [? ? ? ? [] [] [] [] ? ? ? ? ? ? ? ?]; simpl; intros Hin;
    repeat destruct Hin as [<-|Hin]; done.
Qed.

(** Version 1 round trip: every valid receipt is read back unchanged from its own JSON
    form, through the presence checks, the number normalization, the strict
    deserialization and the validation of [from_value]. *)
Lemma operation_receipt_roundtrip r :
  record_valid r = true -> from_value (to_value r) = Ok r.
Proof.
  intros Hv. pose proof (proj1 (v1_record_valid_fields r) Hv) as (Hver & _ & _ & _ & _ & _ & Hgen & _).
  unfold from_value, to_value, object_of. cbn [as_object ok_or bind_result].
  pose proof (fun k => field_object_fields k _ (v1_value_fields_nodup r)) as Hf.
  pose proof (forallb_object_fields _ _ (value_fields_only r)) as Ho.
  set (fs := object_fields (value_fields r)) in *.
  clearbody fs.
  rewrite existsb_none; [|intros k Hin; rewrite Hf; by apply value_fields_required].
  rewrite existsb_none; [|intros k Hin; rewrite Hf; by apply value_fields_optional].
  assert (H1 : field "version" fs = Some (num (version r))) by (rewrite Hf; done).
  assert (H2 : field "generation" fs = Some (num (generation r))).
  { rewrite Hf. by destruct r as [? ? ? ? [] [] [] [] ? ? ? ? ? ? ? ?]. }
  rewrite (normalize_num _ _ _ _ H1) by lia. cbn [bind_result].
  assert (H3 := field_insert_same _ _ _ "generation" H1). rewrite H2 in H3.
  rewrite (normalize_num _ _ _ _ H3) by done. cbn [bind_result].
  rewrite (v1_record_of_fields_rt r).
  - simpl. apply v1_checked_Ok. done.
  - intros k. by rewrite (field_insert_same _ _ _ _ H3), (field_insert_same _ _ _ _ H1).
  - apply forallb_field_insert; [done|]. by apply forallb_field_insert.
  - rewrite Hver. unfold U8_MAX. lia.
Qed.
