(* ===== verification/GenericReceipt.v ===== *)
(** * Version 2 receipts

    [GenericKind], [GenericReceipt] and the phase machine [BackendStore::update_generic]
    applies, from [native/src/operation_store.rs]: one typed request, its metadata only. *)
From S2P Require Import Prelude Json Serde ReceiptFields PhaseMachine.

Inductive GenericKind :=
| OpaqueRequest
| OpaqueBatch
| VendorRequest
| HotkeyName
| HotkeySequence
| ManualRecordStart
| ManualRecordToggle
| NamedOutputStart
| NamedOutputStop
| NamedOutputToggle
| ManualRecordStop
| StreamStart
| VirtualCamStart
| ReplayBufferStart
| StreamToggle
| VirtualCamToggle
| ReplayBufferToggle
| StreamStop
| VirtualCamStop
| ReplayBufferStop
| StudioModeEnabled
| InputPropertiesDialog
| InputFiltersDialog
| InputInteractDialog
| VideoMixProjector
| SourceProjector
| RecordPause
| RecordResume
| RecordPauseToggle
| RecordFileSplit
| RecordChapter
| BroadcastCustomEvent
| CurrentSceneTransitionSettings
| CreateSourceFilter
| SourceFilterSettings
| InputPropertiesButton
| SaveSourceScreenshot
| CreateInput
| InputSettings
| SceneItemTransform
| PersistentData
| CurrentSceneCollection
| CreateSceneCollection
| CurrentProfile
| CreateProfile
| RemoveProfile
| StreamServiceSettings
| RecordDirectory
| OutputSettings
| VideoSettings
| ProfileParameter
| MediaInputCursor
| MediaInputCursorOffset
| MediaInputAction
| InputAudioTracks
| InputMuteToggle
| InputVolume
| StreamCaption
| SaveReplayBuffer
| CreateScene
| RemoveScene
| RemoveSceneItem
| RemoveSourceFilter
| SourceFilterName
| SourceFilterIndex
| RemoveInput
| InputName
| DuplicateSceneItem
| SceneName
| CreateSceneItem
| SceneItemEnabled
| CurrentProgramScene
| CurrentPreviewScene
| TriggerStudioModeTransition
| CurrentSceneTransition
| SceneSceneTransitionOverride
| TBarPosition
| CurrentSceneTransitionDuration
| InputMute
| InputAudioBalance
| InputAudioSyncOffset
| InputAudioMonitorType
| InputDeinterlaceFieldOrder
| InputDeinterlaceMode
| SceneItemIndex
| SceneItemLocked
| SceneItemBlendMode
| SourceFilterEnabled.

#[global] Instance GenericKind_eq_dec : EqDecision GenericKind.
Proof. solve_decision. Defined.

(** The [#[serde(rename)]] string of a kind. *)
Definition serde_name (self : GenericKind) : string :=
  match self with
  | OpaqueRequest => "OpaqueRequest"
  | OpaqueBatch => "RequestBatch"
  | VendorRequest => "CallVendorRequest"
  | HotkeyName => "TriggerHotkeyByName"
  | HotkeySequence => "TriggerHotkeyByKeySequence"
  | ManualRecordStart => "StartRecord"
  | ManualRecordToggle => "ToggleRecord"
  | NamedOutputStart => "StartOutput"
  | NamedOutputStop => "StopOutput"
  | NamedOutputToggle => "ToggleOutput"
  | ManualRecordStop => "StopRecord"
  | StreamStart => "StartStream"
  | VirtualCamStart => "StartVirtualCam"
  | ReplayBufferStart => "StartReplayBuffer"
  | StreamToggle => "ToggleStream"
  | VirtualCamToggle => "ToggleVirtualCam"
  | ReplayBufferToggle => "ToggleReplayBuffer"
  | StreamStop => "StopStream"
  | VirtualCamStop => "StopVirtualCam"
  | ReplayBufferStop => "StopReplayBuffer"
  | StudioModeEnabled => "SetStudioModeEnabled"
  | InputPropertiesDialog => "OpenInputPropertiesDialog"
  | InputFiltersDialog => "OpenInputFiltersDialog"
  | InputInteractDialog => "OpenInputInteractDialog"
  | VideoMixProjector => "OpenVideoMixProjector"
  | SourceProjector => "OpenSourceProjector"
  | RecordPause => "PauseRecord"
  | RecordResume => "ResumeRecord"
  | RecordPauseToggle => "ToggleRecordPause"
  | RecordFileSplit => "SplitRecordFile"
  | RecordChapter => "CreateRecordChapter"
  | BroadcastCustomEvent => "BroadcastCustomEvent"
  | CurrentSceneTransitionSettings => "SetCurrentSceneTransitionSettings"
  | CreateSourceFilter => "CreateSourceFilter"
  | SourceFilterSettings => "SetSourceFilterSettings"
  | InputPropertiesButton => "PressInputPropertiesButton"
  | SaveSourceScreenshot => "SaveSourceScreenshot"
  | CreateInput => "CreateInput"
  | InputSettings => "SetInputSettings"
  | SceneItemTransform => "SetSceneItemTransform"
  | PersistentData => "SetPersistentData"
  | CurrentSceneCollection => "SetCurrentSceneCollection"
  | CreateSceneCollection => "CreateSceneCollection"
  | CurrentProfile => "SetCurrentProfile"
  | CreateProfile => "CreateProfile"
  | RemoveProfile => "RemoveProfile"
  | StreamServiceSettings => "SetStreamServiceSettings"
  | RecordDirectory => "SetRecordDirectory"
  | OutputSettings => "SetOutputSettings"
  | VideoSettings => "SetVideoSettings"
  | ProfileParameter => "SetProfileParameter"
  | MediaInputCursor => "SetMediaInputCursor"
  | MediaInputCursorOffset => "OffsetMediaInputCursor"
  | MediaInputAction => "TriggerMediaInputAction"
  | InputAudioTracks => "SetInputAudioTracks"
  | InputMuteToggle => "ToggleInputMute"
  | InputVolume => "SetInputVolume"
  | StreamCaption => "SendStreamCaption"
  | SaveReplayBuffer => "SaveReplayBuffer"
  | CreateScene => "CreateScene"
  | RemoveScene => "RemoveScene"
  | RemoveSceneItem => "RemoveSceneItem"
  | RemoveSourceFilter => "RemoveSourceFilter"
  | SourceFilterName => "SetSourceFilterName"
  | SourceFilterIndex => "SetSourceFilterIndex"
  | RemoveInput => "RemoveInput"
  | InputName => "SetInputName"
  | DuplicateSceneItem => "DuplicateSceneItem"
  | SceneName => "SetSceneName"
  | CreateSceneItem => "CreateSceneItem"
  | SceneItemEnabled => "SetSceneItemEnabled"
  | CurrentProgramScene => "SetCurrentProgramScene"
  | CurrentPreviewScene => "SetCurrentPreviewScene"
  | TriggerStudioModeTransition => "TriggerStudioModeTransition"
  | CurrentSceneTransition => "SetCurrentSceneTransition"
  | SceneSceneTransitionOverride => "SetSceneSceneTransitionOverride"
  | TBarPosition => "SetTBarPosition"
  | CurrentSceneTransitionDuration => "SetCurrentSceneTransitionDuration"
  | InputMute => "SetInputMute"
  | InputAudioBalance => "SetInputAudioBalance"
  | InputAudioSyncOffset => "SetInputAudioSyncOffset"
  | InputAudioMonitorType => "SetInputAudioMonitorType"
  | InputDeinterlaceFieldOrder => "SetInputDeinterlaceFieldOrder"
  | InputDeinterlaceMode => "SetInputDeinterlaceMode"
  | SceneItemIndex => "SetSceneItemIndex"
  | SceneItemLocked => "SetSceneItemLocked"
  | SceneItemBlendMode => "SetSceneItemBlendMode"
  | SourceFilterEnabled => "SetSourceFilterEnabled"
  end.

Definition request_type (self : GenericKind) : string :=
  match self with
  | OpaqueRequest => "OpaqueRequest"
  | OpaqueBatch => "RequestBatch"
  | VendorRequest => "CallVendorRequest"
  | HotkeyName => "TriggerHotkeyByName"
  | HotkeySequence => "TriggerHotkeyByKeySequence"
  | ManualRecordStart => "StartRecord"
  | ManualRecordToggle => "ToggleRecord"
  | NamedOutputStart => "StartOutput"
  | NamedOutputStop => "StopOutput"
  | NamedOutputToggle => "ToggleOutput"
  | ManualRecordStop => "StopRecord"
  | StreamStart => "StartStream"
  | VirtualCamStart => "StartVirtualCam"
  | ReplayBufferStart => "StartReplayBuffer"
  | StreamToggle => "ToggleStream"
  | VirtualCamToggle => "ToggleVirtualCam"
  | ReplayBufferToggle => "ToggleReplayBuffer"
  | StreamStop => "StopStream"
  | VirtualCamStop => "StopVirtualCam"
  | ReplayBufferStop => "StopReplayBuffer"
  | StudioModeEnabled => "SetStudioModeEnabled"
  | InputPropertiesDialog => "OpenInputPropertiesDialog"
  | InputFiltersDialog => "OpenInputFiltersDialog"
  | InputInteractDialog => "OpenInputInteractDialog"
  | VideoMixProjector => "OpenVideoMixProjector"
  | SourceProjector => "OpenSourceProjector"
  | RecordPause => "PauseRecord"
  | RecordResume => "ResumeRecord"
  | RecordPauseToggle => "ToggleRecordPause"
  | RecordFileSplit => "SplitRecordFile"
  | RecordChapter => "CreateRecordChapter"
  | BroadcastCustomEvent => "BroadcastCustomEvent"
  | CurrentSceneTransitionSettings => "SetCurrentSceneTransitionSettings"
  | CreateSourceFilter => "CreateSourceFilter"
  | SourceFilterSettings => "SetSourceFilterSettings"
  | InputPropertiesButton => "PressInputPropertiesButton"
  | SaveSourceScreenshot => "SaveSourceScreenshot"
  | CreateInput => "CreateInput"
  | InputSettings => "SetInputSettings"
  | SceneItemTransform => "SetSceneItemTransform"
  | PersistentData => "SetPersistentData"
  | CurrentSceneCollection => "SetCurrentSceneCollection"
  | CreateSceneCollection => "CreateSceneCollection"
  | CurrentProfile => "SetCurrentProfile"
  | CreateProfile => "CreateProfile"
  | RemoveProfile => "RemoveProfile"
  | StreamServiceSettings => "SetStreamServiceSettings"
  | RecordDirectory => "SetRecordDirectory"
  | OutputSettings => "SetOutputSettings"
  | VideoSettings => "SetVideoSettings"
  | ProfileParameter => "SetProfileParameter"
  | MediaInputCursor => "SetMediaInputCursor"
  | MediaInputCursorOffset => "OffsetMediaInputCursor"
  | MediaInputAction => "TriggerMediaInputAction"
  | InputAudioTracks => "SetInputAudioTracks"
  | InputMuteToggle => "ToggleInputMute"
  | InputVolume => "SetInputVolume"
  | StreamCaption => "SendStreamCaption"
  | SaveReplayBuffer => "SaveReplayBuffer"
  | CreateScene => "CreateScene"
  | RemoveScene => "RemoveScene"
  | RemoveSceneItem => "RemoveSceneItem"
  | RemoveSourceFilter => "RemoveSourceFilter"
  | SourceFilterName => "SetSourceFilterName"
  | SourceFilterIndex => "SetSourceFilterIndex"
  | RemoveInput => "RemoveInput"
  | InputName => "SetInputName"
  | DuplicateSceneItem => "DuplicateSceneItem"
  | SceneName => "SetSceneName"
  | CreateSceneItem => "CreateSceneItem"
  | SceneItemEnabled => "SetSceneItemEnabled"
  | CurrentProgramScene => "SetCurrentProgramScene"
  | CurrentPreviewScene => "SetCurrentPreviewScene"
  | TriggerStudioModeTransition => "TriggerStudioModeTransition"
  | CurrentSceneTransition => "SetCurrentSceneTransition"
  | SceneSceneTransitionOverride => "SetSceneSceneTransitionOverride"
  | TBarPosition => "SetTBarPosition"
  | CurrentSceneTransitionDuration => "SetCurrentSceneTransitionDuration"
  | InputMute => "SetInputMute"
  | InputAudioBalance => "SetInputAudioBalance"
  | InputAudioSyncOffset => "SetInputAudioSyncOffset"
  | InputAudioMonitorType => "SetInputAudioMonitorType"
  | InputDeinterlaceFieldOrder => "SetInputDeinterlaceFieldOrder"
  | InputDeinterlaceMode => "SetInputDeinterlaceMode"
  | SceneItemIndex => "SetSceneItemIndex"
  | SceneItemLocked => "SetSceneItemLocked"
  | SceneItemBlendMode => "SetSceneItemBlendMode"
  | SourceFilterEnabled => "SetSourceFilterEnabled"
  end.

Definition all_kinds : list GenericKind :=
  [
     OpaqueRequest; OpaqueBatch; VendorRequest; HotkeyName; HotkeySequence; ManualRecordStart;
     ManualRecordToggle; NamedOutputStart; NamedOutputStop; NamedOutputToggle; ManualRecordStop;
     StreamStart; VirtualCamStart; ReplayBufferStart; StreamToggle; VirtualCamToggle;
     ReplayBufferToggle; StreamStop; VirtualCamStop; ReplayBufferStop; StudioModeEnabled;
     InputPropertiesDialog; InputFiltersDialog; InputInteractDialog; VideoMixProjector;
     SourceProjector; RecordPause; RecordResume; RecordPauseToggle; RecordFileSplit;
     RecordChapter; BroadcastCustomEvent; CurrentSceneTransitionSettings; CreateSourceFilter;
     SourceFilterSettings; InputPropertiesButton; SaveSourceScreenshot; CreateInput;
     InputSettings; SceneItemTransform; PersistentData; CurrentSceneCollection;
     CreateSceneCollection; CurrentProfile; CreateProfile; RemoveProfile; StreamServiceSettings;
     RecordDirectory; OutputSettings; VideoSettings; ProfileParameter; MediaInputCursor;
     MediaInputCursorOffset; MediaInputAction; InputAudioTracks; InputMuteToggle; InputVolume;
     StreamCaption; SaveReplayBuffer; CreateScene; RemoveScene; RemoveSceneItem;
     RemoveSourceFilter; SourceFilterName; SourceFilterIndex; RemoveInput; InputName;
     DuplicateSceneItem; SceneName; CreateSceneItem; SceneItemEnabled; CurrentProgramScene;
     CurrentPreviewScene; TriggerStudioModeTransition; CurrentSceneTransition;
     SceneSceneTransitionOverride; TBarPosition; CurrentSceneTransitionDuration; InputMute;
     InputAudioBalance; InputAudioSyncOffset; InputAudioMonitorType; InputDeinterlaceFieldOrder;
     InputDeinterlaceMode; SceneItemIndex; SceneItemLocked; SceneItemBlendMode;
     SourceFilterEnabled].

Definition advanced_only (self : GenericKind) : bool :=
  match self with
  | OpaqueRequest | OpaqueBatch | VendorRequest | HotkeyName | HotkeySequence
  | InputPropertiesButton | ManualRecordStart | ManualRecordToggle | NamedOutputStart
  | NamedOutputStop | NamedOutputToggle => true
  | _ => false
  end.

Definition incompatible_with_guarded_reentry (self : GenericKind) : bool :=
  advanced_only self
  || match self with StreamStart | StreamStop | StreamToggle => true | _ => false end.

Inductive GenericPhase :=
| Prepared
| Dispatching
| Accepted
| Rejected
| NotDispatched
| Unknown.

#[global] Instance GenericPhase_eq_dec : EqDecision GenericPhase.
Proof. solve_decision. Defined.

Definition phase_name (self : GenericPhase) : string :=
  match self with
  | Prepared => "prepared"
  | Dispatching => "dispatching"
  | Accepted => "accepted"
  | Rejected => "rejected"
  | NotDispatched => "not-dispatched"
  | Unknown => "unknown"
  end.

(** [struct GenericRecord], wrapped by [GenericReceipt] *)
Record GenericReceipt := {
  version : Z;
  operation_id : string;
  kind_text : string;
  kind : GenericKind;
  endpoint_hash : string;
  generation : Z;
  created_at : string;
  updated_at : string;
  phase : GenericPhase;
  request_dispatched : option bool;
  request_accepted : option bool;
  postcondition_observed : bool;
  rendered_composition : string
}.

#[global] Instance GenericReceipt_eq_dec : EqDecision GenericReceipt.
Proof. solve_decision. Defined.

(** ** The checked constructor *)

Definition is_opt (o : option bool) (b : bool) : bool := bool_decide (o = Some b).

Definition valid_disposition (record : GenericReceipt) : bool :=
  match phase record with
  | Prepared | NotDispatched =>
      is_opt (request_dispatched record) false && is_none (request_accepted record)
  | Dispatching | Unknown =>
      is_none (request_dispatched record) && is_none (request_accepted record)
  | Accepted =>
      is_opt (request_dispatched record) true && is_opt (request_accepted record) true
  | Rejected =>
      is_opt (request_dispatched record) true && is_opt (request_accepted record) false
  end.

Definition record_valid (record : GenericReceipt) : bool :=
  negb
    (negb (version record =? 2)
     || negb (str_eqb (kind_text record) "request")
     || negb (valid_uuid (operation_id record))
     || negb (valid_hash (endpoint_hash record))
     || (MAX_SAFE_INTEGER <? generation record)
     || negb (valid_timestamp (created_at record))
     || negb (valid_timestamp (updated_at record))
     || str_ltb (updated_at record) (created_at record)
     || negb (valid_disposition record)
     || postcondition_observed record
     || negb (str_eqb (rendered_composition record) "unverified")).

Definition checked (record : GenericReceipt) : result StoreError GenericReceipt :=
  if record_valid record then Ok record else Err InvalidReceipt.

Definition blocking (self : GenericReceipt) : bool :=
  match phase self with
  | Dispatching | Unknown => true
  | _ => false
  end.

(** ** JSON *)

Definition value_fields (r : GenericReceipt) : list (string * Value) :=
  [("version", num (version r)); ("operationId", Str (operation_id r));
   ("kind", Str (kind_text r)); ("requestType", Str (serde_name (kind r)));
   ("endpointHash", Str (endpoint_hash r)); ("generation", num (generation r));
   ("createdAt", Str (created_at r)); ("updatedAt", Str (updated_at r));
   ("phase", Str (phase_name (phase r)));
   ("requestDispatched", ser_option Bool (request_dispatched r));
   ("requestAccepted", ser_option Bool (request_accepted r));
   ("postconditionObserved", Bool (postcondition_observed r));
   ("renderedComposition", Str (rendered_composition r))].

Definition to_value (r : GenericReceipt) : Value := object_of (value_fields r).

Definition field_names : list string :=
  ["version"; "operationId"; "kind"; "requestType"; "endpointHash"; "generation"; "createdAt";
   "updatedAt"; "phase"; "requestDispatched"; "requestAccepted"; "postconditionObserved";
   "renderedComposition"].

Definition phase_table : list (string * GenericPhase) :=
  map (fun p => (phase_name p, p))
    [Prepared; Dispatching; Accepted; Rejected; NotDispatched; Unknown].

Definition kind_table : list (string * GenericKind) :=
  map (fun k => (serde_name k, k)) all_kinds.

Definition record_of_fields (fields : list (string * Value)) : option GenericReceipt :=
  if negb (only_fields field_names fields) then None
  else
    let! version := required "version" de_u8 fields in
    let! operation_id := required "operationId" de_string fields in
    let! kind_text := required "kind" de_string fields in
    let! kind := required "requestType" (de_variant kind_table) fields in
    let! endpoint_hash := required "endpointHash" de_string fields in
    let! generation := required "generation" de_u64 fields in
    let! created_at := required "createdAt" de_string fields in
    let! updated_at := required "updatedAt" de_string fields in
    let! phase := required "phase" (de_variant phase_table) fields in
    let! request_dispatched := optional "requestDispatched" de_bool fields in
    let! request_accepted := optional "requestAccepted" de_bool fields in
    let! postcondition_observed := required "postconditionObserved" de_bool fields in
    let! rendered_composition := required "renderedComposition" de_string fields in
    Some {| version := version; operation_id := operation_id; kind_text := kind_text;
            kind := kind; endpoint_hash := endpoint_hash; generation := generation;
            created_at := created_at; updated_at := updated_at; phase := phase;
            request_dispatched := request_dispatched; request_accepted := request_accepted;
            postcondition_observed := postcondition_observed;
            rendered_composition := rendered_composition |}.

(** The option fields must be present, even when null; an array has no field. *)
Definition from_value (value : Value) : result StoreError GenericReceipt :=
  if existsb (fun k => is_none (get k value)) ["requestDispatched"; "requestAccepted"]
  then Err InvalidReceipt
  else
    let? record := ok_or (as_object value >>? record_of_fields) InvalidReceipt in
    checked record.

(** ** The phase machine of [BackendStore::update_generic] *)

Definition may_update (from to : GenericPhase) : bool :=
  match from, to with
  | Prepared, (Dispatching | NotDispatched) => true
  | Dispatching, (Accepted | Rejected | NotDispatched | Unknown) => true
  | _, _ => false
  end.

Definition disposition_of (phase : GenericPhase) : option bool * option bool :=
  match phase with
  | Prepared | NotDispatched => (Some false, None)
  | Dispatching | Unknown => (None, None)
  | Accepted => (Some true, Some true)
  | Rejected => (Some true, Some false)
  end.

Definition updated_record (r : GenericReceipt) (p : GenericPhase) (utc : string) : GenericReceipt :=
  {| version := version r; operation_id := operation_id r; kind_text := kind_text r;
     kind := kind r; endpoint_hash := endpoint_hash r; generation := generation r;
     created_at := created_at r; updated_at := utc; phase := p;
     request_dispatched := fst (disposition_of p);
     request_accepted := snd (disposition_of p);
     postcondition_observed := postcondition_observed r;
     rendered_composition := rendered_composition r |}.

(** The pure part of [update_generic], between reading the stored receipt and
    persisting the new one. *)
Definition updated (r : GenericReceipt) (p : GenericPhase) (utc : string)
  : result StoreError GenericReceipt :=
  if negb (may_update (phase r) p) then Err Conflict
  else checked (updated_record r p utc).

(** The record [prepare_generic] checks. *)
Definition prepared_record (id : string) (k : GenericKind) (endpoint : string) (g : Z)
  (utc : string) : GenericReceipt :=
  {| version := 2; operation_id := id; kind_text := "request"; kind := k;
     endpoint_hash := endpoint; generation := g; created_at := utc; updated_at := utc;
     phase := Prepared; request_dispatched := Some false; request_accepted := None;
     postcondition_observed := false; rendered_composition := "unverified" |}.

(** The status line of a listed receipt. *)
Definition summary (r : GenericReceipt) : Value :=
  match to_value r with
  | Object fields =>
      Object (field_insert "nextCheck"
                (Str "Acceptance is not observation or replay authority; inspect current OBS state independently")
             (field_insert "status"
                (Str (if blocking r then "unknown" else phase_name (phase r)))
             (field_remove "endpointHash" fields)))
  | v => v
  end.

(** ** Lemmas *)

Lemma generic_checked_Ok record r : checked record = Ok r <-> r = record /\ record_valid record = true.
Proof. unfold checked. destruct (record_valid record); naive_solver. Qed.

Lemma generic_record_valid_fields r :
  record_valid r = true <->
  version r = 2 /\ kind_text r = "request" /\ valid_uuid (operation_id r) = true /\
  valid_hash (endpoint_hash r) = true /\ generation r <= MAX_SAFE_INTEGER /\
  valid_timestamp (created_at r) = true /\ valid_timestamp (updated_at r) = true /\
  str_ltb (updated_at r) (created_at r) = false /\
  (request_dispatched r, request_accepted r) = disposition_of (phase r) /\
  postcondition_observed r = false /\ rendered_composition r = "unverified".
Proof.
  assert (Hd : valid_disposition r = true <->
               (request_dispatched r, request_accepted r) = disposition_of (phase r)).
  { unfold valid_disposition, is_opt. destruct (phase r); to_prop;
      destruct (request_dispatched r) as [[]|], (request_accepted r) as [[]|]; naive_solver. }
  unfold record_valid. rewrite negb_true_iff, !orb_false_iff, !negb_false_iff, Z.eqb_eq, Z.ltb_ge,
    !str_eqb_eq, Hd. tauto.
Qed.

Lemma request_type_serde k : serde_name k = request_type k.
Proof. by destruct k. Qed.

Lemma kind_table_find k :
  List.find (fun '(n, _) => str_eqb (serde_name k) n) kind_table = Some (serde_name k, k).
Proof. destruct k; vm_compute; reflexivity. Qed.

Lemma serde_name_inj k k' : serde_name k = serde_name k' -> k = k'.
Proof.
  intros H. pose proof (kind_table_find k) as H1. rewrite H, kind_table_find in H1. congruence.
Qed.

Lemma phase_table_find p :
  List.find (fun '(n, _) => str_eqb (phase_name p) n) phase_table = Some (phase_name p, p).
Proof. destruct p; vm_compute; reflexivity. Qed.

Lemma generic_value_fields_nodup r : NoDup (keys (value_fields r)).
Proof. apply nodup_keys_spec. vm_compute. reflexivity. Qed.

Lemma generic_record_of_fields_rt r fields :
  (forall k, field k fields = field k (value_fields r)) ->
  only_fields field_names fields = true -> version r <= U8_MAX ->
  record_of_fields fields = Some r.
Proof.
  intros Hf Honly Hv. unfold record_of_fields. rewrite Honly. unfold required, optional.
  rewrite !Hf. cbn -[kind_table phase_table de_u8 de_variant]. rewrite de_u8_num by done.
  rewrite (de_variant_name _ serde_name _ (kind_table_find (kind r))),
    (de_variant_name _ phase_name _ (phase_table_find (phase r))). cbn.
  destruct r as [? ? ? ? ? ? ? ? ? [] [] ? ?]; reflexivity.
Qed.

(** Version 2 round trip: a valid receipt of any of the request kinds is read back
    unchanged from its own JSON form. *)
Lemma generic_receipt_roundtrip r :
  record_valid r = true -> from_value (to_value r) = Ok r.
Proof.
  intros Hv. pose proof (proj1 (generic_record_valid_fields r) Hv) as (Hver & _).
  unfold from_value, to_value, object_of. cbn [get as_object and_then].
  pose proof (fun k => field_object_fields k _ (generic_value_fields_nodup r)) as Hf.
  rewrite existsb_none.
  - rewrite (generic_record_of_fields_rt r).
    + simpl. by apply generic_checked_Ok.
    + apply Hf.
    + by apply forallb_object_fields.
    + rewrite Hver. unfold U8_MAX. lia.
  - intros k Hin. rewrite Hf. simpl in Hin. by repeat destruct Hin as [<-|Hin].
Qed.

(** ** The phase machine *)

Definition rank (r : GenericReceipt) : nat :=
  match phase r with
  | Prepared => 2
  | Dispatching => 1
  | _ => 0
  end.

Definition budget (r : GenericReceipt) : nat :=
  match phase r with
  | Prepared => 1
  | _ => 0
  end.

Lemma generic_updated_Ok r p utc r' :
  updated r p utc = Ok r' <->
  may_update (phase r) p = true /\ r' = updated_record r p utc /\
  record_valid (updated_record r p utc) = true.
Proof.
  unfold updated. destruct (may_update (phase r) p); simpl.
  - rewrite generic_checked_Ok. tauto.
  - split; [done|]. intros [? _]. done.
Qed.

Definition is_dispatch (p : GenericPhase) : bool :=
  match p with Dispatching => true | _ => false end.

#[global] Instance generic_machine : PhaseMachine GenericReceipt GenericPhase.
Proof.
  refine {| pm_updated := updated; pm_dispatch := is_dispatch; pm_rank := rank; pm_budget := budget |}.
  all: intros r u utc r' (Hm & -> & _)%generic_updated_Ok; unfold rank, budget; simpl.
  all: destruct (phase r), u; simpl in *; (done || lia).
Defined.

(** Every legal update of a valid version 2 receipt succeeds: at a valid time not before
    the receipt's creation, the successor is the receipt with the new phase, exactly
    the transport facts that phase stands for, and nothing else changed. *)
Theorem generic_update_total r p utc :
  record_valid r = true -> may_update (phase r) p = true ->
  valid_timestamp utc = true -> str_ltb utc (created_at r) = false ->
  updated r p utc = Ok (updated_record r p utc).
Proof.
  rewrite generic_record_valid_fields. intros (? & ? & ? & ? & ? & ? & ? & ? & ? & ? & ?) Hm Ht Hlt.
  apply generic_updated_Ok. split; [done|]. split; [done|]. apply generic_record_valid_fields; simpl.
  split_and!; try done. by destruct (disposition_of p).
Qed.

Lemma generic_updated_valid r p utc r' : updated r p utc = Ok r' -> record_valid r' = true.
Proof. intros (_ & -> & H)%generic_updated_Ok. done. Qed.

(** A version 2 receipt records the intent to dispatch at most once in its life, takes at
    most two updates, and once it is settled or uncertain no update changes it: an
    unknown outcome is never promoted and never re-sent. *)
Theorem generic_dispatched_at_most_once r us r' :
  history r us r' ->
  (dispatches us <= 1)%nat /\ (length us <= 2)%nat /\
  (phase r <> Prepared -> phase r <> Dispatching -> us = [] /\ r' = r).
Proof.
  intros H. pose proof (history_rank _ _ _ H) as Hr. pose proof (history_budget _ _ _ H) as Hb.
  simpl in Hr, Hb. unfold rank, budget in Hr, Hb. split_and!.
  - destruct (phase r); lia.
  - destruct (phase r); lia.
  - intros Hp Hd. destruct us; [by inversion H|]. simpl in Hr. destruct (phase r); done || lia.
Qed.
