(* ===== verification/RestoreReceipt.v ===== *)
(** * Version 3 receipts

    [RestoreReceipt] of [native/src/operation_store.rs]: the manual restore batch.  An
    acknowledgement carries the individual results, whose counts add up to the batch. *)
From S2P Require Import Prelude Json Serde ReceiptFields PhaseMachine.

Inductive RestorePhase :=
| Prepared
| Dispatching
| Acknowledged
| NotDispatched
| Unknown.

#[global] Instance RestorePhase_eq_dec : EqDecision RestorePhase.
Proof. solve_decision. Defined.

Definition phase_name (self : RestorePhase) : string :=
  match self with
  | Prepared => "prepared"
  | Dispatching => "dispatching"
  | Acknowledged => "acknowledged"
  | NotDispatched => "not-dispatched"
  | Unknown => "unknown"
  end.

Record RestoreCounts := {
  successful : Z;
  failed : Z
}.

(** [struct RestoreRecord], wrapped by [RestoreReceipt] *)
Record RestoreReceipt := {
  version : Z;
  operation_id : string;
  kind : string;
  endpoint_hash : string;
  generation : Z;
  created_at : string;
  updated_at : string;
  phase : RestorePhase;
  execution_type : Z;
  halt_on_failure : bool;
  request_count : Z;
  request_dispatched : option bool;
  batch_acknowledged : option bool;
  successful_requests : option Z;
  failed_requests : option Z;
  postcondition_observed : bool;
  rendered_composition : string
}.

#[global] Instance RestoreReceipt_eq_dec : EqDecision RestoreReceipt.
Proof. solve_decision. Defined.

(** ** The checked constructor *)

Definition counts_ok (record : RestoreReceipt) : bool :=
  match phase record with
  | Acknowledged =>
      match successful_requests record, failed_requests record with
      | Some yes, Some no => bool_decide (checked_add yes no = Some (request_count record))
      | _, _ => false
      end
  | _ => is_none (successful_requests record) && is_none (failed_requests record)
  end.

Definition is_opt (o : option bool) (b : bool) : bool := bool_decide (o = Some b).

Definition disposition_ok (record : RestoreReceipt) : bool :=
  match phase record with
  | Prepared | NotDispatched =>
      is_opt (request_dispatched record) false && is_none (batch_acknowledged record)
  | Dispatching | Unknown =>
      is_none (request_dispatched record) && is_none (batch_acknowledged record)
  | Acknowledged =>
      is_opt (request_dispatched record) true && is_opt (batch_acknowledged record) true
  end.

Definition record_valid (record : RestoreReceipt) : bool :=
  negb
    (negb (version record =? 3)
     || negb (str_eqb (kind record) "manual-restore-batch")
     || negb (execution_type record =? 0)
     || halt_on_failure record
     || (request_count record =? 0)
     || (MAX_SAFE_INTEGER <? request_count record)
     || negb (counts_ok record)
     || negb (disposition_ok record)
     || negb (valid_uuid (operation_id record))
     || negb (valid_hash (endpoint_hash record))
     || (MAX_SAFE_INTEGER <? generation record)
     || negb (valid_timestamp (created_at record))
     || negb (valid_timestamp (updated_at record))
     || str_ltb (updated_at record) (created_at record)
     || postcondition_observed record
     || negb (str_eqb (rendered_composition record) "unverified")).

Definition checked (record : RestoreReceipt) : result StoreError RestoreReceipt :=
  if record_valid record then Ok record else Err InvalidReceipt.

Definition blocking (self : RestoreReceipt) : bool :=
  match phase self with
  | Dispatching | Unknown => true
  | _ => false
  end.

(** ** JSON *)

Definition value_fields (r : RestoreReceipt) : list (string * Value) :=
  [("version", num (version r)); ("operationId", Str (operation_id r)); ("kind", Str (kind r));
   ("endpointHash", Str (endpoint_hash r)); ("generation", num (generation r));
   ("createdAt", Str (created_at r)); ("updatedAt", Str (updated_at r));
   ("phase", Str (phase_name (phase r))); ("executionType", num (execution_type r));
   ("haltOnFailure", Bool (halt_on_failure r)); ("requestCount", num (request_count r));
   ("requestDispatched", ser_option Bool (request_dispatched r));
   ("batchAcknowledged", ser_option Bool (batch_acknowledged r));
   ("successfulRequests", ser_option num (successful_requests r));
   ("failedRequests", ser_option num (failed_requests r));
   ("postconditionObserved", Bool (postcondition_observed r));
   ("renderedComposition", Str (rendered_composition r))].

Definition to_value (r : RestoreReceipt) : Value := object_of (value_fields r).

Definition field_names : list string :=
  ["version"; "operationId"; "kind"; "endpointHash"; "generation"; "createdAt"; "updatedAt";
   "phase"; "executionType"; "haltOnFailure"; "requestCount"; "requestDispatched";
   "batchAcknowledged"; "successfulRequests"; "failedRequests"; "postconditionObserved";
   "renderedComposition"].

Definition phase_table : list (string * RestorePhase) :=
  map (fun p => (phase_name p, p)) [Prepared; Dispatching; Acknowledged; NotDispatched; Unknown].

Definition record_of_fields (fields : list (string * Value)) : option RestoreReceipt :=
  if negb (only_fields field_names fields) then None
  else
    let! version := required "version" de_u8 fields in
    let! operation_id := required "operationId" de_string fields in
    let! kind := required "kind" de_string fields in
    let! endpoint_hash := required "endpointHash" de_string fields in
    let! generation := required "generation" de_u64 fields in
    let! created_at := required "createdAt" de_string fields in
    let! updated_at := required "updatedAt" de_string fields in
    let! phase := required "phase" (de_variant phase_table) fields in
    let! execution_type := required "executionType" de_u8 fields in
    let! halt_on_failure := required "haltOnFailure" de_bool fields in
    let! request_count := required "requestCount" de_u64 fields in
    let! request_dispatched := optional "requestDispatched" de_bool fields in
    let! batch_acknowledged := optional "batchAcknowledged" de_bool fields in
    let! successful_requests := optional "successfulRequests" de_u64 fields in
    let! failed_requests := optional "failedRequests" de_u64 fields in
    let! postcondition_observed := required "postconditionObserved" de_bool fields in
    let! rendered_composition := required "renderedComposition" de_string fields in
    Some {| version := version; operation_id := operation_id; kind := kind;
            endpoint_hash := endpoint_hash; generation := generation;
            created_at := created_at; updated_at := updated_at; phase := phase;
            execution_type := execution_type; halt_on_failure := halt_on_failure;
            request_count := request_count; request_dispatched := request_dispatched;
            batch_acknowledged := batch_acknowledged;
            successful_requests := successful_requests; failed_requests := failed_requests;
            postcondition_observed := postcondition_observed;
            rendered_composition := rendered_composition |}.

Definition from_value (value : Value) : result StoreError RestoreReceipt :=
  if existsb (fun k => is_none (get k value))
       ["requestDispatched"; "batchAcknowledged"; "successfulRequests"; "failedRequests"]
  then Err InvalidReceipt
  else
    let? record := ok_or (as_object value >>? record_of_fields) InvalidReceipt in
    checked record.

(** ** The phase machine of [BackendStore::update_restore] *)

Definition may_update (from to : RestorePhase) : bool :=
  match from, to with
  | Prepared, (Dispatching | NotDispatched) => true
  | Dispatching, (Acknowledged | NotDispatched | Unknown) => true
  | _, _ => false
  end.

Definition disposition_of (p : RestorePhase) : option bool * option bool :=
  match p with
  | Prepared | NotDispatched => (Some false, None)
  | Dispatching | Unknown => (None, None)
  | Acknowledged => (Some true, Some true)
  end.

Definition updated_record (r : RestoreReceipt) (p : RestorePhase) (counts : option RestoreCounts)
  (utc : string) : RestoreReceipt :=
  {| version := version r; operation_id := operation_id r; kind := kind r;
     endpoint_hash := endpoint_hash r; generation := generation r; created_at := created_at r;
     updated_at := utc; phase := p; execution_type := execution_type r;
     halt_on_failure := halt_on_failure r; request_count := request_count r;
     request_dispatched := fst (disposition_of p);
     batch_acknowledged := snd (disposition_of p);
     successful_requests := successful <$> counts;
     failed_requests := failed <$> counts;
     postcondition_observed := postcondition_observed r;
     rendered_composition := rendered_composition r |}.

Definition updated (r : RestoreReceipt) (u : RestorePhase * option RestoreCounts) (utc : string)
  : result StoreError RestoreReceipt :=
  let '(p, counts) := u in
  if negb (may_update (phase r) p) then Err Conflict
  else checked (updated_record r p counts utc).

(** The record [prepare_restore] checks. *)
Definition prepared_record (id endpoint : string) (g count : Z) (utc : string) : RestoreReceipt :=
  {| version := 3; operation_id := id; kind := "manual-restore-batch"; endpoint_hash := endpoint;
     generation := g; created_at := utc; updated_at := utc; phase := Prepared;
     execution_type := 0; halt_on_failure := false; request_count := count;
     request_dispatched := Some false; batch_acknowledged := None; successful_requests := None;
     failed_requests := None; postcondition_observed := false;
     rendered_composition := "unverified" |}.

Definition summary (r : RestoreReceipt) : Value :=
  match to_value r with
  | Object fields =>
      Object (field_insert "nextCheck"
                (Str "Batch acknowledgement counts individual results; restored fields and rendered composition require independent inspection. No replay authority.")
             (field_insert "status"
                (Str (if blocking r then "unknown" else phase_name (phase r)))
             (field_remove "endpointHash" fields)))
  | v => v
  end.

(** ** Lemmas *)

Lemma restore_checked_Ok record r : checked record = Ok r <-> r = record /\ record_valid record = true.
Proof. unfold checked. destruct (record_valid record); naive_solver. Qed.

Lemma disposition_ok_iff r :
  disposition_ok r = true <->
  (request_dispatched r, batch_acknowledged r) = disposition_of (phase r).
Proof.
  unfold disposition_ok, is_opt. destruct (phase r); to_prop;
    destruct (request_dispatched r) as [[]|], (batch_acknowledged r) as [[]|]; naive_solver.
Qed.

Lemma restore_record_valid_fields r :
  record_valid r = true <->
  version r = 3 /\ kind r = "manual-restore-batch" /\ execution_type r = 0 /\
  halt_on_failure r = false /\ request_count r <> 0 /\ request_count r <= MAX_SAFE_INTEGER /\
  counts_ok r = true /\ (request_dispatched r, batch_acknowledged r) = disposition_of (phase r) /\
  valid_uuid (operation_id r) = true /\ valid_hash (endpoint_hash r) = true /\
  generation r <= MAX_SAFE_INTEGER /\ valid_timestamp (created_at r) = true /\
  valid_timestamp (updated_at r) = true /\ str_ltb (updated_at r) (created_at r) = false /\
  postcondition_observed r = false /\ rendered_composition r = "unverified".
Proof.
  unfold record_valid. rewrite negb_true_iff, !orb_false_iff, !negb_false_iff, !Z.eqb_eq,
    !Z.ltb_ge, !str_eqb_eq, Z.eqb_neq, disposition_ok_iff. tauto.
Qed.

Lemma restore_value_fields_nodup r : NoDup (keys (value_fields r)).
Proof. apply nodup_keys_spec. vm_compute. reflexivity. Qed.

Lemma restore_record_of_fields_rt r fields :
  (forall k, field k fields = field k (value_fields r)) ->
  only_fields field_names fields = true -> version r <= U8_MAX -> execution_type r <= U8_MAX ->
  record_of_fields fields = Some r.
Proof.
  intros Hf Honly Hv He. unfold record_of_fields. rewrite Honly. unfold required, optional.
  rewrite !Hf. cbn -[phase_table de_u8 de_variant]. rewrite !de_u8_num by done.
  replace (de_variant phase_table (Str (phase_name (phase r)))) with (Some (phase r))
    by (by destruct (phase r)). cbn.
  by destruct r as [? ? ? ? ? ? ? ? ? ? ? [] [] [] [] ? ?].
Qed.

(** Version 3 round trip: a valid restore receipt is read back unchanged from its JSON. *)
Lemma restore_receipt_roundtrip r :
  record_valid r = true -> from_value (to_value r) = Ok r.
Proof.
  intros Hv. pose proof (proj1 (restore_record_valid_fields r) Hv) as (Hver & _ & Hex & _).
  unfold from_value, to_value, object_of. cbn [get as_object and_then].
  pose proof (fun k => field_object_fields k _ (restore_value_fields_nodup r)) as Hf.
  rewrite existsb_none.
  - rewrite (restore_record_of_fields_rt r).
    + simpl. by apply restore_checked_Ok.
    + apply Hf.
    + by apply forallb_object_fields.
    + rewrite Hver. unfold U8_MAX. lia.
    + rewrite Hex. unfold U8_MAX. lia.
  - intros k Hin. rewrite Hf. simpl in Hin. by repeat destruct Hin as [<-|Hin].
Qed.

Definition rank (r : RestoreReceipt) : nat :=
  match phase r with Prepared => 2 | Dispatching => 1 | _ => 0 end.

Definition budget (r : RestoreReceipt) : nat :=
  match phase r with Prepared => 1 | _ => 0 end.

Lemma restore_updated_Ok r p counts utc r' :
  updated r (p, counts) utc = Ok r' <->
  may_update (phase r) p = true /\ r' = updated_record r p counts utc /\
  record_valid (updated_record r p counts utc) = true.
Proof.
  unfold updated. destruct (may_update (phase r) p); simpl.
  - rewrite restore_checked_Ok. tauto.
  - split; [done|]. intros [? _]. done.
Qed.

Definition is_dispatch (u : RestorePhase * option RestoreCounts) : bool :=
  match fst u with Dispatching => true | _ => false end.

#[global] Instance restore_machine :
  PhaseMachine RestoreReceipt (RestorePhase * option RestoreCounts).
Proof.
  refine {| pm_updated := updated; pm_dispatch := is_dispatch; pm_rank := rank; pm_budget := budget |}.
  all: intros r [p c] utc r' (Hm & -> & _)%restore_updated_Ok; unfold rank, budget; simpl.
  all: destruct (phase r), p; simpl in *; (done || lia).
Defined.

Lemma restore_updated_valid r u utc r' : updated r u utc = Ok r' -> record_valid r' = true.
Proof. destruct u as [p c]. intros (_ & -> & H)%restore_updated_Ok. done. Qed.

(** A restore acknowledgement accounts for the whole batch: the update from [Dispatching]
    to [Acknowledged] succeeds (at a valid time not before creation) exactly when counts
    are given and add up to the planned number of requests without overflowing a
    [u64]; any other phase accepts no counts at all. *)
Theorem restore_counts_account r p counts utc :
  record_valid r = true -> may_update (phase r) p = true ->
  valid_timestamp utc = true -> str_ltb utc (created_at r) = false ->
  (exists r', updated r (p, counts) utc = Ok r') <->
  match p with
  | Acknowledged =>
      exists c, counts = Some c /\ successful c + failed c = request_count r
  | _ => counts = None
  end.
Proof.
  rewrite restore_record_valid_fields.
  intros (H1 & H2 & H3 & H4 & H5 & H6 & _ & _ & H9 & H10 & H11 & H12 & _ & _ & H15 & H16) Hm Ht Hlt.
  assert (Hcounts : counts_ok (updated_record r p counts utc) = true <->
    match p with
    | Acknowledged => exists c, counts = Some c /\ successful c + failed c = request_count r
    | _ => counts = None
    end).
  { unfold counts_ok. simpl. destruct p, counts as [c|]; simpl; try naive_solver.
    rewrite bool_decide_eq_true, checked_add_Some. split.
    - intros [? ?]. exists c. split; [done|lia].
    - intros (c' & [= <-] & Hc). unfold MAX_SAFE_INTEGER, U64_MAX in *. lia. }
  rewrite <- Hcounts. split.
  - intros [r' (_ & _ & Hv)%restore_updated_Ok]. apply restore_record_valid_fields in Hv. tauto.
  - intros Hc. eexists. apply restore_updated_Ok. split; [done|]. split; [done|].
    apply restore_record_valid_fields; simpl. split_and!; try done. by destruct (disposition_of p).
Qed.
