(* ===== verification/ApplyReceipt.v ===== *)
(** * Version 4 receipts

    [ApplyReceipt] of [native/src/operation_store.rs]: the Apply Scene workflow, a batch of
    creations (halting on failure) and then a batch of changes, each with its own stage
    record, and the workflow's phase machine [ApplyReceipt::updated]. *)
From S2P Require Import Prelude Json Serde ReceiptFields PhaseMachine.

Inductive ApplyPhase :=
| Prepared
| DispatchingCreations
| Continuation
| DispatchingChanges
| Closed
| Aborted
| Unknown.

Inductive ApplyStagePhase :=
| SNotNeeded
| SPrepared
| SDispatching
| SAcknowledged
| SNotDispatched
| SUnknown.

#[global] Instance ApplyPhase_eq_dec : EqDecision ApplyPhase.
Proof. solve_decision. Defined.
#[global] Instance ApplyStagePhase_eq_dec : EqDecision ApplyStagePhase.
Proof. solve_decision. Defined.

Definition phase_name (self : ApplyPhase) : string :=
  match self with
  | Prepared => "prepared"
  | DispatchingCreations => "dispatching-creations"
  | Continuation => "continuation"
  | DispatchingChanges => "dispatching-changes"
  | Closed => "closed"
  | Aborted => "aborted"
  | Unknown => "unknown"
  end.

Definition stage_phase_name (self : ApplyStagePhase) : string :=
  match self with
  | SNotNeeded => "not-needed"
  | SPrepared => "prepared"
  | SDispatching => "dispatching"
  | SAcknowledged => "acknowledged"
  | SNotDispatched => "not-dispatched"
  | SUnknown => "unknown"
  end.

Record ApplyCounts := {
  successful : Z;
  failed : Z;
  skipped : Z
}.

Record ApplyStageRecord := {
  execution_type : Z;
  halt_on_failure : bool;
  request_count : Z;
  stage_phase : ApplyStagePhase;
  request_dispatched : option bool;
  batch_acknowledged : option bool;
  counts : option ApplyCounts;
  not_attempted : option Z
}.

#[global] Instance ApplyCounts_eq_dec : EqDecision ApplyCounts.
Proof. solve_decision. Defined.
#[global] Instance ApplyStageRecord_eq_dec : EqDecision ApplyStageRecord.
Proof. solve_decision. Defined.

(** ** Stages *)

Definition stage_new (count : Z) (halt : bool) : ApplyStageRecord :=
  {| execution_type := 0; halt_on_failure := halt; request_count := count;
     stage_phase := if count =? 0 then SNotNeeded else SPrepared;
     request_dispatched := Some false; batch_acknowledged := None; counts := None;
     not_attempted := if count =? 0 then Some 0 else None |}.

Definition stage_set (self : ApplyStageRecord) (phase : ApplyStagePhase) (c : option ApplyCounts)
  : ApplyStageRecord :=
  let facts :=
    match phase with
    | SNotNeeded | SNotDispatched => (Some (request_count self), Some false, None)
    | SPrepared => (None, Some false, None)
    | SDispatching | SUnknown => (None, None, None)
    | SAcknowledged => (None, Some true, Some true)
    end in
  {| execution_type := execution_type self; halt_on_failure := halt_on_failure self;
     request_count := request_count self; stage_phase := phase;
     request_dispatched := snd (fst facts); batch_acknowledged := snd facts;
     counts := c; not_attempted := fst (fst facts) |}.

Definition is_opt (o : option bool) (b : bool) : bool := bool_decide (o = Some b).

Definition counts_valid (c : ApplyCounts) (total : Z) (halt : bool) : bool :=
  bool_decide ((checked_add (successful c) (failed c) >>? fun v => checked_add v (skipped c))
               = Some total)
  && if halt then (failed c <=? 1) && (negb (failed c =? 0) || (skipped c =? 0))
     else skipped c =? 0.

Definition stage_valid (self : ApplyStageRecord) (halt : bool) : bool :=
  let base :=
    (execution_type self =? 0) && Bool.eqb (halt_on_failure self) halt
    && (request_count self <=? MAX_SAFE_INTEGER)
    && Bool.eqb (request_count self =? 0) (bool_decide (stage_phase self = SNotNeeded)) in
  let facts :=
    match stage_phase self with
    | SNotNeeded | SNotDispatched =>
        is_opt (request_dispatched self) false && is_none (batch_acknowledged self)
        && is_none (counts self) && bool_decide (not_attempted self = Some (request_count self))
    | SPrepared =>
        is_opt (request_dispatched self) false && is_none (batch_acknowledged self)
        && is_none (counts self) && is_none (not_attempted self)
    | SDispatching | SUnknown =>
        is_none (request_dispatched self) && is_none (batch_acknowledged self)
        && is_none (counts self) && is_none (not_attempted self)
    | SAcknowledged =>
        is_opt (request_dispatched self) true && is_opt (batch_acknowledged self) true
        && is_none (not_attempted self)
        && is_some_and (counts self) (fun c => counts_valid c (request_count self) halt)
    end in
  base && facts.

(** ** The workflow record *)

(** [struct ApplyRecord], wrapped by [ApplyReceipt] *)
Record ApplyReceipt := {
  version : Z;
  operation_id : string;
  kind : string;
  endpoint_hash : string;
  generation : Z;
  created_at : string;
  updated_at : string;
  phase : ApplyPhase;
  creations : ApplyStageRecord;
  changes : option ApplyStageRecord;
  postcondition_observed : bool;
  rendered_composition : string
}.

#[global] Instance ApplyReceipt_eq_dec : EqDecision ApplyReceipt.
Proof. solve_decision. Defined.

Definition clean (c : ApplyCounts) : bool := (failed c =? 0) && (skipped c =? 0).

Definition stage_success (s : ApplyStageRecord) : bool :=
  match stage_phase s with
  | SNotNeeded => true
  | SAcknowledged => is_some_and (counts s) clean
  | _ => false
  end.

Definition successful_creations (self : ApplyReceipt) : bool := stage_success (creations self).

Definition dispatching (self : ApplyReceipt) : bool :=
  match phase self with DispatchingCreations | DispatchingChanges => true | _ => false end.

Definition blocking (self : ApplyReceipt) : bool :=
  negb match phase self with Closed | Aborted => true | _ => false end.

Definition live (self : ApplyReceipt) : bool :=
  match phase self with
  | Prepared | DispatchingCreations | Continuation | DispatchingChanges => true
  | _ => false
  end.

Definition stage_in (o : option ApplyStageRecord) (phases : list ApplyStagePhase) : bool :=
  is_some_and o (fun s => existsb (fun p => bool_decide (stage_phase s = p)) phases).

Definition creations_in (r : ApplyReceipt) (phases : list ApplyStagePhase) : bool :=
  stage_in (Some (creations r)) phases.

(** Which stage records go with each workflow phase. *)
Definition layout (r : ApplyReceipt) : bool :=
  match phase r with
  | Prepared => creations_in r [SPrepared; SNotNeeded] && is_none (changes r)
  | DispatchingCreations => creations_in r [SDispatching] && is_none (changes r)
  | Continuation => successful_creations r && is_none (changes r)
  | DispatchingChanges => successful_creations r && stage_in (changes r) [SDispatching]
  | Closed => successful_creations r && stage_in (changes r) [SAcknowledged; SNotNeeded]
  | Aborted =>
      match changes r with
      | None => creations_in r [SAcknowledged; SNotDispatched; SNotNeeded]
      | Some s => successful_creations r && stage_in (Some s) [SNotDispatched]
      end
  | Unknown =>
      (creations_in r [SUnknown] && is_none (changes r))
      || (successful_creations r && stage_in (changes r) [SUnknown])
  end.

Definition record_valid (r : ApplyReceipt) : bool :=
  negb
    (negb (version r =? 4)
     || negb (str_eqb (kind r) "apply-scene-workflow")
     || negb (valid_uuid (operation_id r))
     || negb (valid_hash (endpoint_hash r))
     || (MAX_SAFE_INTEGER <? generation r)
     || negb (valid_timestamp (created_at r))
     || negb (valid_timestamp (updated_at r))
     || str_ltb (updated_at r) (created_at r)
     || postcondition_observed r
     || negb (str_eqb (rendered_composition r) "unverified")
     || negb (stage_valid (creations r) true && is_none_or (changes r) (fun s => stage_valid s false))
     || negb (layout r)).

Definition checked (record : ApplyReceipt) : result StoreError ApplyReceipt :=
  if record_valid record then Ok record else Err InvalidReceipt.

(** ** Updates *)

Inductive ApplyUpdate :=
| Ready
| DispatchCreations
| CreationsAcknowledged (c : ApplyCounts)
| CreationsNotDispatched
| CreationsUnknown
| DispatchChanges (count : Z)
| ChangesAcknowledged (c : ApplyCounts)
| ChangesNotDispatched
| ChangesUnknown
| Close
| Abort.

(** The receipt with new phase and stages, at time [utc]. *)
Definition with_stages (r : ApplyReceipt) (utc : string) (p : ApplyPhase) (c : ApplyStageRecord)
  (ch : option ApplyStageRecord) : ApplyReceipt :=
  {| version := version r; operation_id := operation_id r; kind := kind r;
     endpoint_hash := endpoint_hash r; generation := generation r; created_at := created_at r;
     updated_at := utc; phase := p; creations := c; changes := ch;
     postcondition_observed := postcondition_observed r;
     rendered_composition := rendered_composition r |}.

(** The record [updated] builds before it is checked; [Conflict] is an update the
    phase does not allow. *)
Definition step (r : ApplyReceipt) (update : ApplyUpdate) (utc : string)
  : result StoreError ApplyReceipt :=
  let c := creations r in
  match phase r, update with
  | Prepared, Ready =>
      if bool_decide (stage_phase c = SNotNeeded)
      then Ok (with_stages r utc Continuation c (changes r)) else Err Conflict
  | Prepared, DispatchCreations =>
      if 0 <? request_count c
      then Ok (with_stages r utc DispatchingCreations (stage_set c SDispatching None) (changes r))
      else Err Conflict
  | DispatchingCreations, CreationsAcknowledged n =>
      Ok (with_stages r utc (if clean n then Continuation else Aborted)
            (stage_set c SAcknowledged (Some n)) (changes r))
  | DispatchingCreations, CreationsNotDispatched =>
      Ok (with_stages r utc Aborted (stage_set c SNotDispatched None) (changes r))
  | DispatchingCreations, CreationsUnknown =>
      Ok (with_stages r utc Unknown (stage_set c SUnknown None) (changes r))
  | Continuation, DispatchChanges count =>
      if 0 <? count
      then Ok (with_stages r utc DispatchingChanges c
                 (Some (stage_set (stage_new count false) SDispatching None)))
      else Err Conflict
  | DispatchingChanges, ChangesAcknowledged n =>
      let? s := ok_or (changes r) Conflict in
      Ok (with_stages r utc Closed c (Some (stage_set s SAcknowledged (Some n))))
  | DispatchingChanges, ChangesNotDispatched =>
      let? s := ok_or (changes r) Conflict in
      Ok (with_stages r utc Aborted c (Some (stage_set s SNotDispatched None)))
  | DispatchingChanges, ChangesUnknown =>
      let? s := ok_or (changes r) Conflict in
      Ok (with_stages r utc Unknown c (Some (stage_set s SUnknown None)))
  | Continuation, Close =>
      Ok (with_stages r utc Closed c (Some (stage_new 0 false)))
  | (Prepared | Continuation), Abort =>
      Ok (with_stages r utc Aborted
            (if bool_decide (stage_phase c = SPrepared) then stage_set c SNotDispatched None else c)
            (changes r))
  | _, _ => Err Conflict
  end.

Definition updated (r : ApplyReceipt) (update : ApplyUpdate) (utc : string)
  : result StoreError ApplyReceipt :=
  let? next := step r update utc in
  checked next.

(** The record [prepare_apply] checks. *)
Definition prepared_record (id endpoint : string) (g creation_count : Z) (utc : string)
  : ApplyReceipt :=
  {| version := 4; operation_id := id; kind := "apply-scene-workflow"; endpoint_hash := endpoint;
     generation := g; created_at := utc; updated_at := utc; phase := Prepared;
     creations := stage_new creation_count true; changes := None;
     postcondition_observed := false; rendered_composition := "unverified" |}.

(** ** JSON *)

Definition counts_fields (c : ApplyCounts) : list (string * Value) :=
  [("successful", num (successful c)); ("failed", num (failed c)); ("skipped", num (skipped c))].

Definition stage_fields (s : ApplyStageRecord) : list (string * Value) :=
  [("executionType", num (execution_type s)); ("haltOnFailure", Bool (halt_on_failure s));
   ("requestCount", num (request_count s)); ("phase", Str (stage_phase_name (stage_phase s)));
   ("requestDispatched", ser_option Bool (request_dispatched s));
   ("batchAcknowledged", ser_option Bool (batch_acknowledged s));
   ("counts", ser_option (fun c => object_of (counts_fields c)) (counts s));
   ("notAttempted", ser_option num (not_attempted s))].

Definition value_fields (r : ApplyReceipt) : list (string * Value) :=
  [("version", num (version r)); ("operationId", Str (operation_id r)); ("kind", Str (kind r));
   ("endpointHash", Str (endpoint_hash r)); ("generation", num (generation r));
   ("createdAt", Str (created_at r)); ("updatedAt", Str (updated_at r));
   ("phase", Str (phase_name (phase r)));
   ("creations", object_of (stage_fields (creations r)));
   ("changes", ser_option (fun s => object_of (stage_fields s)) (changes r));
   ("postconditionObserved", Bool (postcondition_observed r));
   ("renderedComposition", Str (rendered_composition r))].

Definition to_value (r : ApplyReceipt) : Value := object_of (value_fields r).

Definition counts_names : list string := ["successful"; "failed"; "skipped"].
Definition stage_names : list string :=
  ["executionType"; "haltOnFailure"; "requestCount"; "phase"; "requestDispatched";
   "batchAcknowledged"; "counts"; "notAttempted"].
Definition field_names : list string :=
  ["version"; "operationId"; "kind"; "endpointHash"; "generation"; "createdAt"; "updatedAt";
   "phase"; "creations"; "changes"; "postconditionObserved"; "renderedComposition"].

Definition phase_table : list (string * ApplyPhase) :=
  map (fun p => (phase_name p, p))
    [Prepared; DispatchingCreations; Continuation; DispatchingChanges; Closed; Aborted; Unknown].
Definition stage_phase_table : list (string * ApplyStagePhase) :=
  map (fun p => (stage_phase_name p, p))
    [SNotNeeded; SPrepared; SDispatching; SAcknowledged; SNotDispatched; SUnknown].

Definition de_counts (v : Value) : option ApplyCounts :=
  match v with
  | Object fields =>
      if negb (only_fields counts_names fields) then None
      else
        let! s := required "successful" de_u64 fields in
        let! f := required "failed" de_u64 fields in
        let! k := required "skipped" de_u64 fields in
        Some {| successful := s; failed := f; skipped := k |}
  | Array [s; f; k] =>
      let! s := de_u64 s in
      let! f := de_u64 f in
      let! k := de_u64 k in
      Some {| successful := s; failed := f; skipped := k |}
  | _ => None
  end.

(** A stage is only ever read from an object: [from_value] has looked its fields up. *)
Definition de_stage (v : Value) : option ApplyStageRecord :=
  let! fields := as_object v in
  if negb (only_fields stage_names fields) then None
  else
    let! execution_type := required "executionType" de_u8 fields in
    let! halt_on_failure := required "haltOnFailure" de_bool fields in
    let! request_count := required "requestCount" de_u64 fields in
    let! stage_phase := required "phase" (de_variant stage_phase_table) fields in
    let! request_dispatched := optional "requestDispatched" de_bool fields in
    let! batch_acknowledged := optional "batchAcknowledged" de_bool fields in
    let! counts := optional "counts" de_counts fields in
    let! not_attempted := optional "notAttempted" de_u64 fields in
    Some {| execution_type := execution_type; halt_on_failure := halt_on_failure;
            request_count := request_count; stage_phase := stage_phase;
            request_dispatched := request_dispatched; batch_acknowledged := batch_acknowledged;
            counts := counts; not_attempted := not_attempted |}.

Definition record_of_fields (fields : list (string * Value)) : option ApplyReceipt :=
  if negb (only_fields field_names fields) then None
  else
    let! version := required "version" de_u8 fields in
    let! operation_id := required "operationId" de_string fields in
    let! kind := required "kind" de_string fields in
    let! endpoint_hash := required "endpointHash" de_string fields in
    let! generation := required "generation" de_u64 fields in
    let! created_at := required "createdAt" de_string fields in
    let! updated_at := required "updatedAt" de_string fields in
    let! phase := required "phase" (de_variant phase_table) fields in
    let! creations := required "creations" de_stage fields in
    let! changes := optional "changes" de_stage fields in
    let! postcondition_observed := required "postconditionObserved" de_bool fields in
    let! rendered_composition := required "renderedComposition" de_string fields in
    Some {| version := version; operation_id := operation_id; kind := kind;
            endpoint_hash := endpoint_hash; generation := generation;
            created_at := created_at; updated_at := updated_at; phase := phase;
            creations := creations; changes := changes;
            postcondition_observed := postcondition_observed;
            rendered_composition := rendered_composition |}.

(** The nullable fields a stage value must spell out. *)
Definition stage_spelled (stage : Value) : bool :=
  forallb (fun k => negb (is_none (get k stage)))
    ["requestDispatched"; "batchAcknowledged"; "counts"; "notAttempted"].

Definition from_value (value : Value) : result StoreError ApplyReceipt :=
  if is_none (get "changes" value) then Err InvalidReceipt
  else if negb (is_none_or (get "creations" value) stage_spelled
                && is_none_or (opt_filter (fun v => negb (is_null v)) (get "changes" value))
                     stage_spelled)
  then Err InvalidReceipt
  else
    let? record := ok_or (as_object value >>? record_of_fields) InvalidReceipt in
    checked record.

Definition summary (r : ApplyReceipt) : Value :=
  match to_value r with
  | Object fields =>
      Object (field_insert "nextCheck"
                (Str "Stage acknowledgement is not a postcondition, rendered result, continuation or replay authority. Inspect OBS independently; unfinished history refuses restart.")
             (field_insert "status"
                (Str (if blocking r then "unknown"
                      else if bool_decide (phase r = Closed) then "closed" else "aborted"))
             (field_remove "endpointHash" fields)))
  | v => v
  end.

(** ** Lemmas *)

Lemma apply_checked_Ok record r : checked record = Ok r <-> r = record /\ record_valid record = true.
Proof. unfold checked. destruct (record_valid record); naive_solver. Qed.

(** The part of validity that no update touches. *)
Definition header_valid (r : ApplyReceipt) : Prop :=
  version r = 4 /\ kind r = "apply-scene-workflow" /\ valid_uuid (operation_id r) = true /\
  valid_hash (endpoint_hash r) = true /\ generation r <= MAX_SAFE_INTEGER /\
  valid_timestamp (created_at r) = true /\ postcondition_observed r = false /\
  rendered_composition r = "unverified".

Lemma apply_record_valid_iff r :
  record_valid r = true <->
  header_valid r /\ valid_timestamp (updated_at r) = true /\
  str_ltb (updated_at r) (created_at r) = false /\
  stage_valid (creations r) true = true /\
  (forall s, changes r = Some s -> stage_valid s false = true) /\ layout r = true.
Proof.
  unfold record_valid, header_valid.
  rewrite negb_true_iff, !orb_false_iff, !negb_false_iff, andb_true_iff, !Z.eqb_eq,
    Z.ltb_ge, !str_eqb_eq.
  assert (is_none_or (changes r) (fun s => stage_valid s false) = true <->
          forall s, changes r = Some s -> stage_valid s false = true) as ->.
  { destruct (changes r); simpl; naive_solver. }
  tauto.
Qed.

Lemma stage_new_valid count halt :
  count <= MAX_SAFE_INTEGER -> stage_valid (stage_new count halt) halt = true.
Proof.
  intros H%Z.leb_le. unfold stage_valid, stage_new, is_opt. simpl. rewrite H, Bool.eqb_reflx.
  destruct (Z.eqb_spec count 0) as [->|]; done.
Qed.

(** The counts a stage update brings, where it brings any. *)
Definition stage_update_ok (s : ApplyStageRecord) (p : ApplyStagePhase) (c : option ApplyCounts)
  (halt : bool) : bool :=
  match p, c with
  | SAcknowledged, Some c => counts_valid c (request_count s) halt
  | SAcknowledged, None => false
  | _, Some _ => false
  | _, None => true
  end.

(** Moving a needed stage to a needed phase keeps it valid. *)
Lemma stage_set_valid s p c halt :
  stage_valid s halt = true -> stage_phase s <> SNotNeeded -> p <> SNotNeeded ->
  stage_update_ok s p c halt = true -> stage_valid (stage_set s p c) halt = true.
Proof.
  unfold stage_valid. rewrite !andb_true_iff.
  intros [(((He & Hh) & Hc) & Hz) _] Hs Hp Hu.
  rewrite bool_decide_eq_false_2 in Hz by done. simpl.
  rewrite He, Hh, Hc, (bool_decide_eq_false_2 (p = SNotNeeded)) by done. rewrite Hz. simpl.
  destruct p, c; simpl in *; try done.
  by rewrite bool_decide_eq_true_2.
Qed.

Lemma stage_set_count s p c : request_count (stage_set s p c) = request_count s.
Proof. done. Qed.

(** What an update must bring for its successor to be valid. *)
Definition update_ok (r : ApplyReceipt) (u : ApplyUpdate) : bool :=
  match u with
  | CreationsAcknowledged c => counts_valid c (request_count (creations r)) true
  | DispatchChanges count => count <=? MAX_SAFE_INTEGER
  | ChangesAcknowledged c =>
      is_none_or (changes r) (fun s => counts_valid c (request_count s) false)
  | _ => true
  end.

Lemma stage_in_iff s phases :
  stage_in (Some s) phases = true <-> In (stage_phase s) phases.
Proof.
  unfold stage_in. simpl. rewrite existsb_exists. split.
  - intros (p & Hin & Hp%bool_decide_eq_true). by rewrite Hp.
  - intros Hin. eexists. split; [done|]. by apply bool_decide_eq_true.
Qed.

Lemma with_stages_valid r utc p c ch :
  header_valid r -> valid_timestamp utc = true -> str_ltb utc (created_at r) = false ->
  stage_valid c true = true -> (forall s, ch = Some s -> stage_valid s false = true) ->
  layout (with_stages r utc p c ch) = true ->
  record_valid (with_stages r utc p c ch) = true.
Proof. intros. apply apply_record_valid_iff. split_and!; try done. Qed.

Lemma stage_valid_prepared s halt :
  stage_valid s halt = true -> 0 < request_count s -> stage_phase s <> SNotNeeded.
Proof.
  unfold stage_valid. rewrite !andb_true_iff. intros [[_ Hz] _] Hpos Hs.
  rewrite Hs, bool_decide_eq_true_2 in Hz by done. apply Bool.eqb_prop, Z.eqb_eq in Hz. lia.
Qed.

Lemma layout_creations r phases :
  creations_in r phases = true -> In (stage_phase (creations r)) phases.
Proof. apply stage_in_iff. Qed.

(** A stage phase pinned by the layout, by case analysis on the listed phases. *)
Ltac stage_cases :=
  repeat match goal with
    | H : _ && _ = true |- _ => apply andb_true_iff in H as [? ?]
    | H : creations_in _ _ = true |- _ => apply layout_creations in H; simpl in H
    | H : stage_in (Some _) _ = true |- _ => apply stage_in_iff in H; simpl in H
    | H : stage_in None _ = true |- _ => discriminate H
    | H : is_none ?o = true |- _ =>
        let E := fresh "Enone" in assert (E : o = None) by (destruct o; [discriminate H|reflexivity]);
        clear H
    | H : _ \/ _ |- _ => destruct H
    | H : False |- _ => destruct H
    end.

Lemma step_valid r u utc n :
  record_valid r = true -> valid_timestamp utc = true -> str_ltb utc (created_at r) = false ->
  step r u utc = Ok n -> update_ok r u = true -> record_valid n = true.
Proof.
  rewrite apply_record_valid_iff. intros (Hh & _ & _ & Hc & Hch & Hl) Ht Hlt Hs Hu.
  unfold layout in Hl. unfold step in Hs.
  destruct (phase r) eqn:Ep, u; try discriminate; simpl in Hu.
  all: unfold ok_or, bind_result in Hs; repeat case_match; simplify_eq/=; stage_cases.
  all: repeat match goal with
         | H : bool_decide _ = true |- _ => apply bool_decide_eq_true in H
         | H : bool_decide _ = false |- _ => apply bool_decide_eq_false in H
         | H : (0 <? _) = true |- _ => apply Z.ltb_lt in H
         | H : bool_decide _ || false = true |- _ => rewrite orb_false_r in H
         end.
  all: apply with_stages_valid; try assumption.
  all: try (apply stage_set_valid; [assumption|..|assumption || done];
            congruence || (eapply stage_valid_prepared; eassumption)).
  all: try (intros ? [= <-];
            first [ by apply stage_new_valid
                  | apply stage_set_valid; [by eauto|..|assumption || done]; congruence
                  | apply stage_set_valid; [by apply stage_new_valid, Z.leb_le|..]; try done;
                    unfold stage_new; simpl; case_match; (done || lia) ]).
  all: unfold layout, successful_creations, creations_in, stage_in, stage_success in *; simpl in *.
  all: rewrite ?Enone.
  all: try (destruct (stage_phase (creations r)); simpl in *; (done || congruence)).
  all: try (destruct (stage_phase (creations r)); simpl in *; try done; by rewrite ?andb_true_r).
Qed.

Lemma apply_updated_Ok r u utc r' :
  updated r u utc = Ok r' <-> step r u utc = Ok r' /\ record_valid r' = true.
Proof.
  unfold updated. rewrite bind_result_Ok. split.
  - intros (n & Hs & (-> & Hv)%apply_checked_Ok). done.
  - intros [Hs Hv]. exists r'. split; [done|]. by apply apply_checked_Ok.
Qed.

(** The Apply Scene machine never gets stuck on a legal update: at a valid time not
    before creation, an update that the phase allows and that brings a count vector
    accounting for its whole stage succeeds, and the successor is again valid. *)
Theorem apply_update_total r u utc n :
  record_valid r = true -> valid_timestamp utc = true -> str_ltb utc (created_at r) = false ->
  step r u utc = Ok n -> update_ok r u = true ->
  updated r u utc = Ok n /\ record_valid n = true.
Proof.
  intros Hv Ht Hlt Hs Hu. rewrite apply_updated_Ok.
  assert (record_valid n = true) by eauto using step_valid. done.
Qed.

(** ** The phase machine *)

Definition rank (r : ApplyReceipt) : nat :=
  match phase r with
  | Prepared => 4
  | DispatchingCreations => 3
  | Continuation => 2
  | DispatchingChanges => 1
  | _ => 0
  end.

Definition budget (r : ApplyReceipt) : nat :=
  match phase r with
  | Prepared => 2
  | DispatchingCreations | Continuation => 1
  | _ => 0
  end.

Definition is_dispatch (u : ApplyUpdate) : bool :=
  match u with DispatchCreations | DispatchChanges _ => true | _ => false end.

Lemma step_ranks r u utc n :
  step r u utc = Ok n ->
  (rank n < rank r)%nat /\ (budget n + (if is_dispatch u then 1 else 0) <= budget r)%nat.
Proof.
  unfold step, rank, budget, ok_or, bind_result. intros Hs.
  destruct (phase r), u; try discriminate; repeat case_match; simplify_eq/=; lia.
Qed.

#[global] Instance apply_machine : PhaseMachine ApplyReceipt ApplyUpdate.
Proof.
  refine {| pm_updated := updated; pm_dispatch := is_dispatch; pm_rank := rank; pm_budget := budget |}.
  all: intros r u utc r' (Hs & _)%apply_updated_Ok; by apply step_ranks in Hs as [? ?].
Defined.

(** No change is sent after a failed or uncertain creation: whenever a valid Apply Scene
    receipt has a changes stage at all (planned, in flight or settled), every creation was
    either unnecessary or acknowledged with no failure and nothing skipped. *)
Theorem changes_only_after_clean_creations r s :
  record_valid r = true -> changes r = Some s ->
  request_count (creations r) = 0 \/
  exists c, counts (creations r) = Some c /\ failed c = 0 /\ skipped c = 0 /\
            successful c = request_count (creations r).
Proof.
  rewrite apply_record_valid_iff. intros (_ & _ & _ & Hc & _ & Hl) Hs.
  assert (successful_creations r = true) as Hsucc.
  { unfold layout in Hl. rewrite Hs in Hl.
    destruct (phase r); simpl in Hl; rewrite ?andb_false_r in Hl; simpl in Hl;
      try discriminate; by apply andb_true_iff in Hl as [? _]. }
  unfold successful_creations, stage_success in Hsucc. unfold stage_valid in Hc.
  rewrite !andb_true_iff in Hc. destruct Hc as [[_ Hz] Hf].
  destruct (stage_phase (creations r)) eqn:Ep; try done.
  - left. apply Bool.eqb_prop in Hz. by apply Z.eqb_eq.
  - right. rewrite !andb_true_iff in Hf. destruct Hf as [_ Hcv].
    destruct (counts (creations r)) as [c|]; [|done]. exists c. simpl in *.
    unfold clean, counts_valid, and_then in *. to_prop.
    destruct (checked_add (successful c) (failed c)) eqn:E1; [|naive_solver].
    apply checked_add_Some in E1 as [-> _]. destruct Hcv as [Hcv _].
    apply checked_add_Some in Hcv as [Hcv _]. split_and!; (done || lia).
Qed.

(** An Apply Scene workflow sends at most two batches in its life (one of creations, then
    one of changes), takes at most four updates, and a closed, aborted or unknown
    workflow is final: nothing resumes or replays it. *)
Theorem apply_bounded_history r us r' :
  history r us r' ->
  (dispatches us <= 2)%nat /\ (length us <= 4)%nat /\
  (live r = false -> us = [] /\ r' = r).
Proof.
  intros H. pose proof (history_rank _ _ _ H) as Hr. pose proof (history_budget _ _ _ H) as Hb.
  simpl in Hr, Hb. unfold rank, budget, live in *. split_and!.
  - destruct (phase r); lia.
  - destruct (phase r); lia.
  - intros Hp. destruct us; [by inversion H|]. simpl in Hr. destruct (phase r); done || lia.
Qed.

(** ** Round trip *)

Lemma stage_fields_nodup s : NoDup (keys (stage_fields s)).
Proof. apply nodup_keys_spec. vm_compute. reflexivity. Qed.

Lemma apply_value_fields_nodup r : NoDup (keys (value_fields r)).
Proof. apply nodup_keys_spec. vm_compute. reflexivity. Qed.

Lemma apply_de_counts_rt c : de_counts (object_of (counts_fields c)) = Some c.
Proof. by destruct c. Qed.

Lemma de_stage_rt s : execution_type s = 0 -> de_stage (object_of (stage_fields s)) = Some s.
Proof.
  intros He. unfold de_stage, object_of. cbn [as_object and_then].
  rewrite (only_fields_object stage_names (stage_fields s) eq_refl).
  unfold required, optional.
  rewrite !(fun k => field_object_fields k _ (stage_fields_nodup s)).
  cbn -[stage_phase_table de_u8 de_variant de_counts object_of].
  rewrite de_u8_num by (rewrite He; unfold U8_MAX; lia).
  replace (de_variant stage_phase_table (Str (stage_phase_name (stage_phase s))))
    with (Some (stage_phase s)) by (by destruct (stage_phase s)).
  assert (de_option de_counts (ser_option (fun c => object_of (counts_fields c)) (counts s))
          = Some (counts s)) as ->
    by (apply de_option_ser; [done|]; intros; apply apply_de_counts_rt).
  by destruct s as [? ? ? ? [] [] ? []].
Qed.

Lemma stage_spelled_rt s : stage_spelled (object_of (stage_fields s)) = true.
Proof.
  unfold stage_spelled. apply forallb_forall. intros k Hin. unfold object_of. cbn [get].
  rewrite (field_object_fields k _ (stage_fields_nodup s)). simpl in Hin.
  by repeat destruct Hin as [<-|Hin].
Qed.

Lemma stage_valid_execution s halt : stage_valid s halt = true -> execution_type s = 0.
Proof. unfold stage_valid. rewrite !andb_true_iff, Z.eqb_eq. tauto. Qed.

(** Version 4 round trip: a valid Apply Scene receipt, its two stages and their count
    vectors included, is read back unchanged from its JSON. *)
Lemma apply_receipt_roundtrip r :
  record_valid r = true -> from_value (to_value r) = Ok r.
Proof.
  intros Hv. pose proof (proj1 (apply_record_valid_iff r) Hv) as ((Hver & _) & _ & _ & Hc & Hch & _).
  apply stage_valid_execution in Hc.
  assert (Hch' : forall s, changes r = Some s -> execution_type s = 0)
    by (intros s Hs; by eapply stage_valid_execution, Hch).
  unfold from_value, to_value, object_of at 1 2 3 4. cbn [get as_object and_then].
  rewrite !(fun k => field_object_fields k _ (apply_value_fields_nodup r)).
  cbn [value_fields field str_eqb String.eqb Ascii.eqb Bool.eqb is_none is_none_or].
  rewrite stage_spelled_rt.
  replace (is_none_or (opt_filter (fun v => negb (is_null v))
             (Some (ser_option (fun s => object_of (stage_fields s)) (changes r)))) stage_spelled)
    with true by (destruct (changes r) as [s|]; [|done]; simpl; by rewrite stage_spelled_rt).
  cbn [negb andb].
  unfold record_of_fields.
  rewrite (only_fields_object field_names (value_fields r) eq_refl).
  unfold required, optional.
  rewrite !(fun k => field_object_fields k _ (apply_value_fields_nodup r)).
  cbn -[phase_table de_u8 de_variant de_stage object_of checked].
  rewrite de_u8_num by (rewrite Hver; unfold U8_MAX; lia).
  rewrite (de_stage_rt _ Hc).
  replace (de_variant phase_table (Str (phase_name (phase r)))) with (Some (phase r))
    by (by destruct (phase r)).
  assert (de_option de_stage (ser_option (fun s => object_of (stage_fields s)) (changes r))
          = Some (changes r)) as ->.
  { apply de_option_ser; [done|]. intros s Hs. by apply de_stage_rt, Hch'. }
  cbn -[checked]. apply apply_checked_Ok. by destruct r.
Qed.
