(* ===== verification/CaptureReceipt.v ===== *)
(** * Version 5 receipts

    [CaptureReceipt] of [native/src/operation_store.rs]: the Capture Window workflow, up to
    three steps (initial, audio, fit) run in order, each at most once, and the phase
    machine [CaptureReceipt::updated]. *)
From S2P Require Import Prelude Json Serde ReceiptFields PhaseMachine.

Inductive CaptureInitial := INone | ICreate | IRetarget.

Record CapturePlan := {
  initial : CaptureInitial;
  audio : bool;
  fit : bool
}.

Inductive CaptureStep := Initial | Audio | Fit.

Inductive CapturePhase :=
| Prepared
| Dispatching
| Continuation
| Closed
| Aborted
| Unknown.

Inductive CaptureStepPhase :=
| SNotNeeded
| SPrepared
| SDispatching
| SAcknowledged
| SNotDispatched
| SUnknown.

#[global] Instance CaptureInitial_eq_dec : EqDecision CaptureInitial.
Proof. solve_decision. Defined.
#[global] Instance CapturePlan_eq_dec : EqDecision CapturePlan.
Proof. solve_decision. Defined.
#[global] Instance CaptureStep_eq_dec : EqDecision CaptureStep.
Proof. solve_decision. Defined.
#[global] Instance CapturePhase_eq_dec : EqDecision CapturePhase.
Proof. solve_decision. Defined.
#[global] Instance CaptureStepPhase_eq_dec : EqDecision CaptureStepPhase.
Proof. solve_decision. Defined.

(** ** Plans and steps *)

Definition plan_counts (self : CapturePlan) : list Z :=
  [if bool_decide (initial self = INone) then 0 else 1;
   if audio self then 2 else 0;
   if fit self then 1 else 0].

Definition has_effects (self : CapturePlan) : bool := existsb (fun n => 0 <? n) (plan_counts self).

Definition step_index (self : CaptureStep) : nat :=
  match self with Initial => 0 | Audio => 1 | Fit => 2 end.

Definition all_steps : list CaptureStep := [Initial; Audio; Fit].

Record CaptureCounts := {
  successful : Z;
  failed : Z;
  skipped : Z
}.

Record CaptureStepRecord := {
  step : CaptureStep;
  request_count : Z;
  step_phase : CaptureStepPhase;
  request_dispatched : option bool;
  reply_acknowledged : option bool;
  counts : option CaptureCounts
}.

#[global] Instance CaptureCounts_eq_dec : EqDecision CaptureCounts.
Proof. solve_decision. Defined.
#[global] Instance CaptureStepRecord_eq_dec : EqDecision CaptureStepRecord.
Proof. solve_decision. Defined.

Definition step_new (k : CaptureStep) (count : Z) : CaptureStepRecord :=
  {| step := k; request_count := count;
     step_phase := if count =? 0 then SNotNeeded else SPrepared;
     request_dispatched := Some false; reply_acknowledged := None; counts := None |}.

Definition step_set (self : CaptureStepRecord) (p : CaptureStepPhase) (c : option CaptureCounts)
  : CaptureStepRecord :=
  let facts :=
    match p with
    | SNotNeeded | SPrepared | SNotDispatched => (Some false, None)
    | SDispatching | SUnknown => (None, None)
    | SAcknowledged => (Some true, Some true)
    end in
  {| step := step self; request_count := request_count self; step_phase := p;
     request_dispatched := fst facts; reply_acknowledged := snd facts; counts := c |}.

Definition clean (c : CaptureCounts) : bool := (failed c =? 0) && (skipped c =? 0).

Definition success (self : CaptureStepRecord) : bool :=
  match step_phase self with
  | SNotNeeded => true
  | SAcknowledged => is_some_and (counts self) clean
  | _ => false
  end.

Definition is_opt (o : option bool) (b : bool) : bool := bool_decide (o = Some b).

(** The sum is taken in [u16], where three [u8] counts cannot overflow. *)
Definition counts_valid (c : CaptureCounts) (k : CaptureStep) (count : Z) : bool :=
  (successful c + failed c + skipped c =? count)
  && (failed c <=? 1) && (negb (failed c =? 0) || (skipped c =? 0))
  && (bool_decide (k = Audio) || (skipped c =? 0)).

Definition step_valid (self : CaptureStepRecord) (k : CaptureStep) (count : Z) : bool :=
  if negb (bool_decide (step self = k)) || negb (request_count self =? count)
     || negb (Bool.eqb (count =? 0) (bool_decide (step_phase self = SNotNeeded)))
  then false
  else
    match step_phase self with
    | SNotNeeded | SPrepared | SNotDispatched =>
        is_opt (request_dispatched self) false && is_none (reply_acknowledged self)
        && is_none (counts self)
    | SDispatching | SUnknown =>
        is_none (request_dispatched self) && is_none (reply_acknowledged self)
        && is_none (counts self)
    | SAcknowledged =>
        is_opt (request_dispatched self) true && is_opt (reply_acknowledged self) true
        && is_some_and (counts self) (fun c => counts_valid c k count)
    end.

(** ** The workflow record *)

(** [struct CaptureRecord], wrapped by [CaptureReceipt]; [steps] is an array of three. *)
Record CaptureReceipt := {
  version : Z;
  operation_id : string;
  kind : string;
  endpoint_hash : string;
  generation : Z;
  created_at : string;
  updated_at : string;
  phase : CapturePhase;
  plan : CapturePlan;
  active_step : option CaptureStep;
  steps : list CaptureStepRecord;
  postcondition_observed : bool;
  rendered_target : string
}.

#[global] Instance CaptureReceipt_eq_dec : EqDecision CaptureReceipt.
Proof. solve_decision. Defined.

Definition next_step (self : CaptureReceipt) : option CaptureStep :=
  step <$> List.find (fun s => bool_decide (step_phase s = SPrepared)) (steps self).

Definition acknowledged (self : CaptureReceipt) : list (CaptureStep * CaptureCounts) :=
  omap (fun s => (fun c => (step s, c)) <$> counts s) (steps self).

Definition dispatching (self : CaptureReceipt) : bool := bool_decide (phase self = Dispatching).

Definition blocking (self : CaptureReceipt) : bool :=
  negb match phase self with Closed | Aborted => true | _ => false end.

Definition live (self : CaptureReceipt) : bool :=
  match phase self with Prepared | Dispatching | Continuation => true | _ => false end.

Definition in_phase (p : CaptureStepPhase) (s : CaptureStepRecord) : bool :=
  bool_decide (step_phase s = p).

Definition needed (ss : list CaptureStepRecord) : list CaptureStepRecord :=
  List.filter (fun s => 0 <? request_count s) ss.

(** [needed.iter().position(|s| !s.success()).unwrap_or(needed.len())] *)
Definition first_open (l : list CaptureStepRecord) : nat :=
  default (length l) (position (fun s => negb (success s)) l).

(** The tail of an aborted workflow: nothing more was sent, except that the first open
    step may have been acknowledged with a failure. *)
Fixpoint aborted_tail (first : bool) (l : list CaptureStepRecord) : bool :=
  match l with
  | [] => true
  | s :: rest =>
      (in_phase SNotDispatched s
       || (first && in_phase SAcknowledged s && is_some_and (counts s) (fun c => 0 <? failed c)))
      && aborted_tail false rest
  end.

Definition layout_ok (p : CapturePhase) (active : option CaptureStep)
  (l : list CaptureStepRecord) : bool :=
  match p with
  | Prepared => is_none active && forallb (in_phase SPrepared) l
  | Continuation =>
      is_none active && existsb success l && forallb (in_phase SPrepared) (drop (first_open l) l)
  | Dispatching =>
      is_some_and active (fun k =>
        is_some_and (position (fun s => bool_decide (step s = k)) l) (fun i =>
          forallb success (take i l)
          && is_some_and (l !! i) (in_phase SDispatching)
          && forallb (in_phase SPrepared) (drop (S i) l)))
  | Closed => is_none active && forallb success l
  | Unknown =>
      is_none active
      && is_some_and (position (in_phase SUnknown) l) (fun i =>
           forallb success (take i l) && forallb (in_phase SNotDispatched) (drop (S i) l))
  | Aborted =>
      is_none active && forallb success (take (first_open l) l)
      && aborted_tail true (drop (first_open l) l)
  end.

Definition layout (r : CaptureReceipt) : bool :=
  layout_ok (phase r) (active_step r) (needed (steps r)).

(** [r.steps.iter().zip(CaptureStep::all()).zip(counts).all(..)], on arrays of three *)
Definition steps_valid (p : CapturePlan) (ss : list CaptureStepRecord) : bool :=
  match ss, all_steps, plan_counts p with
  | [s0; s1; s2], [k0; k1; k2], [n0; n1; n2] =>
      step_valid s0 k0 n0 && step_valid s1 k1 n1 && step_valid s2 k2 n2
  | _, _, _ => false
  end.

Definition record_valid (r : CaptureReceipt) : bool :=
  negb
    (negb (version r =? 5)
     || negb (str_eqb (kind r) "capture-window-workflow")
     || negb (valid_uuid (operation_id r))
     || negb (valid_hash (endpoint_hash r))
     || (MAX_SAFE_INTEGER <? generation r)
     || negb (valid_timestamp (created_at r))
     || negb (valid_timestamp (updated_at r))
     || str_ltb (updated_at r) (created_at r)
     || negb (has_effects (plan r))
     || postcondition_observed r
     || negb (str_eqb (rendered_target r) "unverified")
     || negb (steps_valid (plan r) (steps r))
     || negb (layout r)).

Definition checked (record : CaptureReceipt) : result StoreError CaptureReceipt :=
  if record_valid record then Ok record else Err InvalidReceipt.

(** ** Updates *)

Inductive CaptureUpdate :=
| Dispatch (k : CaptureStep)
| UAcknowledged (c : CaptureCounts)
| UNotDispatched
| UUnknown
| Close
| Abort.

Definition with_steps (r : CaptureReceipt) (utc : string) (p : CapturePhase)
  (active : option CaptureStep) (ss : list CaptureStepRecord) : CaptureReceipt :=
  {| version := version r; operation_id := operation_id r; kind := kind r;
     endpoint_hash := endpoint_hash r; generation := generation r; created_at := created_at r;
     updated_at := utc; phase := p; plan := plan r; active_step := active; steps := ss;
     postcondition_observed := postcondition_observed r; rendered_target := rendered_target r |}.

(** [r.steps[k.index()].set(p, c)] *)
Definition set_at (k : CaptureStep) (p : CaptureStepPhase) (c : option CaptureCounts)
  (ss : list CaptureStepRecord) : list CaptureStepRecord :=
  alter (fun s => step_set s p c) (step_index k) ss.

(** The loop that closes every step still prepared. *)
Definition drop_prepared (ss : list CaptureStepRecord) : list CaptureStepRecord :=
  map (fun s => if in_phase SPrepared s then step_set s SNotDispatched None else s) ss.

Definition next (r : CaptureReceipt) (update : CaptureUpdate) (utc : string)
  : result StoreError CaptureReceipt :=
  match phase r, update with
  | (Prepared | Continuation), Dispatch k =>
      if bool_decide (next_step r = Some k)
      then Ok (with_steps r utc Dispatching (Some k) (set_at k SDispatching None (steps r)))
      else Err Conflict
  | Dispatching, UAcknowledged c =>
      let? k := ok_or (active_step r) Conflict in
      let ss := set_at k SAcknowledged (Some c) (steps r) in
      Ok (if clean c then with_steps r utc Continuation None ss
          else with_steps r utc Aborted None (drop_prepared ss))
  | Dispatching, UNotDispatched =>
      let? k := ok_or (active_step r) Conflict in
      Ok (with_steps r utc Aborted None (drop_prepared (set_at k SNotDispatched None (steps r))))
  | Dispatching, UUnknown =>
      let? k := ok_or (active_step r) Conflict in
      Ok (with_steps r utc Unknown None (drop_prepared (set_at k SUnknown None (steps r))))
  | Continuation, Close =>
      if is_none (next_step r)
      then Ok (with_steps r utc Closed (active_step r) (steps r)) else Err Conflict
  | (Prepared | Continuation), Abort =>
      Ok (with_steps r utc Aborted (active_step r) (drop_prepared (steps r)))
  | _, _ => Err Conflict
  end.

Definition updated (r : CaptureReceipt) (update : CaptureUpdate) (utc : string)
  : result StoreError CaptureReceipt :=
  let? n := next r update utc in
  checked n.

(** The record [prepare_capture] checks. *)
Definition prepared_record (id endpoint : string) (g : Z) (p : CapturePlan) (utc : string)
  : CaptureReceipt :=
  {| version := 5; operation_id := id; kind := "capture-window-workflow";
     endpoint_hash := endpoint; generation := g; created_at := utc; updated_at := utc;
     phase := Prepared; plan := p; active_step := None;
     steps := map (fun '(k, n) => step_new k n) (combine all_steps (plan_counts p));
     postcondition_observed := false; rendered_target := "unverified" |}.

(** ** JSON *)

Definition initial_name (i : CaptureInitial) : string :=
  match i with INone => "none" | ICreate => "create" | IRetarget => "retarget" end.

Definition step_name (k : CaptureStep) : string :=
  match k with Initial => "initial" | Audio => "audio" | Fit => "fit" end.

Definition phase_name (p : CapturePhase) : string :=
  match p with
  | Prepared => "prepared"
  | Dispatching => "dispatching"
  | Continuation => "continuation"
  | Closed => "closed"
  | Aborted => "aborted"
  | Unknown => "unknown"
  end.

Definition step_phase_name (p : CaptureStepPhase) : string :=
  match p with
  | SNotNeeded => "not-needed"
  | SPrepared => "prepared"
  | SDispatching => "dispatching"
  | SAcknowledged => "acknowledged"
  | SNotDispatched => "not-dispatched"
  | SUnknown => "unknown"
  end.

Definition plan_fields (p : CapturePlan) : list (string * Value) :=
  [("initial", Str (initial_name (initial p))); ("audio", Bool (audio p)); ("fit", Bool (fit p))].

Definition counts_fields (c : CaptureCounts) : list (string * Value) :=
  [("successful", num (successful c)); ("failed", num (failed c)); ("skipped", num (skipped c))].

Definition step_fields (s : CaptureStepRecord) : list (string * Value) :=
  [("step", Str (step_name (step s))); ("requestCount", num (request_count s));
   ("phase", Str (step_phase_name (step_phase s)));
   ("requestDispatched", ser_option Bool (request_dispatched s));
   ("replyAcknowledged", ser_option Bool (reply_acknowledged s));
   ("counts", ser_option (fun c => object_of (counts_fields c)) (counts s))].

Definition value_fields (r : CaptureReceipt) : list (string * Value) :=
  [("version", num (version r)); ("operationId", Str (operation_id r)); ("kind", Str (kind r));
   ("endpointHash", Str (endpoint_hash r)); ("generation", num (generation r));
   ("createdAt", Str (created_at r)); ("updatedAt", Str (updated_at r));
   ("phase", Str (phase_name (phase r))); ("plan", object_of (plan_fields (plan r)));
   ("activeStep", ser_option (fun k => Str (step_name k)) (active_step r));
   ("steps", Array (map (fun s => object_of (step_fields s)) (steps r)));
   ("postconditionObserved", Bool (postcondition_observed r));
   ("renderedTarget", Str (rendered_target r))].

Definition to_value (r : CaptureReceipt) : Value := object_of (value_fields r).

Definition initial_table : list (string * CaptureInitial) :=
  map (fun i => (initial_name i, i)) [INone; ICreate; IRetarget].
Definition step_table : list (string * CaptureStep) :=
  map (fun k => (step_name k, k)) all_steps.
Definition phase_table : list (string * CapturePhase) :=
  map (fun p => (phase_name p, p)) [Prepared; Dispatching; Continuation; Closed; Aborted; Unknown].
Definition step_phase_table : list (string * CaptureStepPhase) :=
  map (fun p => (step_phase_name p, p))
    [SNotNeeded; SPrepared; SDispatching; SAcknowledged; SNotDispatched; SUnknown].

Definition plan_names : list string := ["initial"; "audio"; "fit"].
Definition counts_names : list string := ["successful"; "failed"; "skipped"].
Definition step_names : list string :=
  ["step"; "requestCount"; "phase"; "requestDispatched"; "replyAcknowledged"; "counts"].
Definition field_names : list string :=
  ["version"; "operationId"; "kind"; "endpointHash"; "generation"; "createdAt"; "updatedAt";
   "phase"; "plan"; "activeStep"; "steps"; "postconditionObserved"; "renderedTarget"].

Definition de_plan (v : Value) : option CapturePlan :=
  match v with
  | Object fields =>
      if negb (only_fields plan_names fields) then None
      else
        let! i := required "initial" (de_variant initial_table) fields in
        let! a := required "audio" de_bool fields in
        let! f := required "fit" de_bool fields in
        Some {| initial := i; audio := a; fit := f |}
  | Array [i; a; f] =>
      let! i := de_variant initial_table i in
      let! a := de_bool a in
      let! f := de_bool f in
      Some {| initial := i; audio := a; fit := f |}
  | _ => None
  end.

Definition de_counts (v : Value) : option CaptureCounts :=
  match v with
  | Object fields =>
      if negb (only_fields counts_names fields) then None
      else
        let! s := required "successful" de_u8 fields in
        let! f := required "failed" de_u8 fields in
        let! k := required "skipped" de_u8 fields in
        Some {| successful := s; failed := f; skipped := k |}
  | Array [s; f; k] =>
      let! s := de_u8 s in
      let! f := de_u8 f in
      let! k := de_u8 k in
      Some {| successful := s; failed := f; skipped := k |}
  | _ => None
  end.

(** A step is only ever read from an object: [from_value] has looked its fields up. *)
Definition de_step (v : Value) : option CaptureStepRecord :=
  let! fields := as_object v in
  if negb (only_fields step_names fields) then None
  else
    let! k := required "step" (de_variant step_table) fields in
    let! request_count := required "requestCount" de_u8 fields in
    let! p := required "phase" (de_variant step_phase_table) fields in
    let! request_dispatched := optional "requestDispatched" de_bool fields in
    let! reply_acknowledged := optional "replyAcknowledged" de_bool fields in
    let! c := optional "counts" de_counts fields in
    Some {| step := k; request_count := request_count; step_phase := p;
            request_dispatched := request_dispatched; reply_acknowledged := reply_acknowledged;
            counts := c |}.

(** [[CaptureStepRecord; 3]] *)
Definition de_steps (v : Value) : option (list CaptureStepRecord) :=
  match v with
  | Array [a; b; c] =>
      let! a := de_step a in
      let! b := de_step b in
      let! c := de_step c in
      Some [a; b; c]
  | _ => None
  end.

Definition record_of_fields (fields : list (string * Value)) : option CaptureReceipt :=
  if negb (only_fields field_names fields) then None
  else
    let! version := required "version" de_u8 fields in
    let! operation_id := required "operationId" de_string fields in
    let! kind := required "kind" de_string fields in
    let! endpoint_hash := required "endpointHash" de_string fields in
    let! generation := required "generation" de_u64 fields in
    let! created_at := required "createdAt" de_string fields in
    let! updated_at := required "updatedAt" de_string fields in
    let! phase := required "phase" (de_variant phase_table) fields in
    let! plan := required "plan" de_plan fields in
    let! active_step := optional "activeStep" (de_variant step_table) fields in
    let! steps := required "steps" de_steps fields in
    let! postcondition_observed := required "postconditionObserved" de_bool fields in
    let! rendered_target := required "renderedTarget" de_string fields in
    Some {| version := version; operation_id := operation_id; kind := kind;
            endpoint_hash := endpoint_hash; generation := generation;
            created_at := created_at; updated_at := updated_at; phase := phase; plan := plan;
            active_step := active_step; steps := steps;
            postcondition_observed := postcondition_observed;
            rendered_target := rendered_target |}.

(** The nullable fields a step value must spell out. *)
Definition step_spelled (s : Value) : bool :=
  forallb (fun k => negb (is_none (get k s))) ["requestDispatched"; "replyAcknowledged"; "counts"].

Definition from_value (value : Value) : result StoreError CaptureReceipt :=
  if is_none (get "activeStep" value) then Err InvalidReceipt
  else
    let? rows := ok_or (opt_filter (fun rows => (length rows =? 3)%nat)
                          (get "steps" value >>? as_array)) InvalidReceipt in
    if negb (forallb step_spelled rows) then Err InvalidReceipt
    else
      let? record := ok_or (as_object value >>? record_of_fields) InvalidReceipt in
      checked record.

Definition summary (r : CaptureReceipt) : Value :=
  match to_value r with
  | Object fields =>
      Object (field_insert "nextCheck"
                (Str "Capture acknowledgement is not a rendered target, rollback, continuation or replay authority. Inspect OBS independently; unfinished history refuses restart.")
             (field_insert "status"
                (Str (if blocking r then "unknown"
                      else if bool_decide (phase r = Closed) then "closed" else "aborted"))
             (field_remove "endpointHash" fields)))
  | v => v
  end.

(** ** Lemmas: steps and labels *)

Lemma capture_checked_Ok record r : checked record = Ok r <-> r = record /\ record_valid record = true.
Proof. unfold checked. destruct (record_valid record); naive_solver. Qed.

Lemma in_phase_iff p s : in_phase p s = true <-> step_phase s = p.
Proof. apply bool_decide_eq_true. Qed.

Lemma steps_valid_iff p ss :
  steps_valid p ss = true <->
  exists s0 s1 s2, ss = [s0; s1; s2] /\
    step_valid s0 Initial (nth 0 (plan_counts p) 0) = true /\
    step_valid s1 Audio (nth 1 (plan_counts p) 0) = true /\
    step_valid s2 Fit (nth 2 (plan_counts p) 0) = true.
Proof.
  unfold steps_valid. simpl. split.
  - destruct ss as [|s0 [|s1 [|s2 [|]]]]; try done. rewrite !andb_true_iff.
    intros [[? ?] ?]. exists s0, s1, s2. done.
  - intros (s0 & s1 & s2 & -> & H0 & H1 & H2). by rewrite H0, H1, H2.
Qed.

Lemma step_valid_label s k n : step_valid s k n = true -> step s = k /\ request_count s = n.
Proof.
  unfold step_valid. destruct (_ || _) eqn:E; [done|]. intros _. to_prop.
  destruct E as [[? ?] _]. done.
Qed.

Lemma step_valid_needed s k n :
  step_valid s k n = true -> step_phase s <> SNotNeeded -> n <> 0.
Proof.
  unfold step_valid. destruct (_ || _) eqn:E; [done|]. intros _ Hp ->. to_prop.
  destruct E as [_ E]. rewrite bool_decide_eq_false_2 in E by done. done.
Qed.

Lemma steps_labels p ss : steps_valid p ss = true -> map step ss = all_steps.
Proof.
  intros (s0 & s1 & s2 & -> & [H0 _]%step_valid_label & [H1 _]%step_valid_label
          & [H2 _]%step_valid_label)%steps_valid_iff. simpl. by rewrite H0, H1, H2.
Qed.

(** Counts of a plan are not negative, so a step that is not needed has count zero. *)
Lemma plan_counts_nonneg p i : 0 <= nth i (plan_counts p) 0.
Proof.
  unfold plan_counts. destruct i as [|[|[|i]]]; simpl; repeat case_match; try lia.
Qed.

(** Every step still to do is in the needed list. *)
Lemma steps_valid_needed p ss s :
  steps_valid p ss = true -> In s ss -> step_phase s <> SNotNeeded -> 0 < request_count s.
Proof.
  intros (s0 & s1 & s2 & -> & H0 & H1 & H2)%steps_valid_iff Hin Hp.
  pose proof (plan_counts_nonneg p 0). pose proof (plan_counts_nonneg p 1).
  pose proof (plan_counts_nonneg p 2). cbn [In] in Hin.
  destruct Hin as [<-|[<-|[<-|[]]]].
  - pose proof (step_valid_needed _ _ _ H0 Hp). apply step_valid_label in H0 as [_ ->]. lia.
  - pose proof (step_valid_needed _ _ _ H1 Hp). apply step_valid_label in H1 as [_ ->]. lia.
  - pose proof (step_valid_needed _ _ _ H2 Hp). apply step_valid_label in H2 as [_ ->]. lia.
Qed.

Lemma needed_NoDup ss : map step ss = all_steps -> NoDup (map step (needed ss)).
Proof.
  intros Hl. destruct ss as [|s0 [|s1 [|s2 [|]]]]; try done. injection Hl as H0 H1 H2.
  unfold needed. cbn [List.filter]. destruct (0 <? request_count s0), (0 <? request_count s1),
    (0 <? request_count s2); cbn [map]; rewrite ?H0, ?H1, ?H2; repeat constructor; set_solver.
Qed.

(** Updating the labelled step is a map over the labelled list. *)
Definition set_label (k : CaptureStep) (p : CaptureStepPhase) (c : option CaptureCounts)
  (s : CaptureStepRecord) : CaptureStepRecord :=
  if decide (step s = k) then step_set s p c else s.

Lemma needed_set_at k p c ss :
  map step ss = all_steps -> needed (set_at k p c ss) = map (set_label k p c) (needed ss).
Proof.
  intros Hl. destruct ss as [|s0 [|s1 [|s2 [|]]]]; try done.
  injection Hl as H0 H1 H2. unfold needed, set_at, set_label.
  destruct k; cbn [alter list_alter step_index List.filter request_count step_set];
    destruct (0 <? request_count s0), (0 <? request_count s1), (0 <? request_count s2);
    cbn [map]; rewrite ?H0, ?H1, ?H2; done.
Qed.

Lemma needed_drop_prepared ss : needed (drop_prepared ss) = drop_prepared (needed ss).
Proof.
  unfold needed, drop_prepared. induction ss as [|s ss IH]; cbn [map List.filter]; [done|].
  assert (request_count (if in_phase SPrepared s then step_set s SNotDispatched None else s)
          = request_count s) as -> by (by case_match).
  destruct (0 <? request_count s); cbn [map]; by rewrite IH.
Qed.

Lemma set_label_other k p c l :
  ~ In k (map step l) -> map (set_label k p c) l = l.
Proof.
  induction l as [|s l IH]; simpl; [done|]. intros Hn. rewrite IH by tauto. f_equal.
  unfold set_label. destruct (decide (step s = k)); tauto.
Qed.

Lemma set_label_split k p c pre x suf :
  NoDup (map step (pre ++ x :: suf)) -> step x = k ->
  map (set_label k p c) (pre ++ x :: suf) = pre ++ step_set x p c :: suf.
Proof.
  rewrite map_app, NoDup_app. simpl. intros (_ & Hd & Hx%NoDup_cons_1_1) <-.
  rewrite map_app. simpl. rewrite !set_label_other.
  - unfold set_label. by rewrite decide_True.
  - by rewrite <- list_elem_of_In.
  - intros Hin. apply list_elem_of_In in Hin. apply (Hd _ Hin). by left.
Qed.

(** ** Lemmas: layouts as decompositions of the needed steps *)

Lemma success_not_phase s p :
  success s = true -> step_phase s = p -> p = SNotNeeded \/ p = SAcknowledged.
Proof. unfold success. intros H <-. destruct (step_phase s); auto; done. Qed.

Definition all_in (p : CaptureStepPhase) (l : list CaptureStepRecord) : Prop :=
  Forall (fun s => step_phase s = p) l.
Definition all_success (l : list CaptureStepRecord) : Prop := Forall (fun s => success s = true) l.

Lemma forallb_phase p l : forallb (in_phase p) l = true <-> all_in p l.
Proof.
  unfold all_in. rewrite forallb_forall, Forall_forall. setoid_rewrite in_phase_iff.
  by setoid_rewrite list_elem_of_In.
Qed.

Lemma forallb_success l : forallb success l = true <-> all_success l.
Proof.
  unfold all_success. rewrite forallb_forall, Forall_forall.
  by setoid_rewrite list_elem_of_In.
Qed.

Lemma all_success_in_nil p l :
  p <> SNotNeeded -> p <> SAcknowledged -> all_in p l -> all_success l -> l = [].
Proof.
  intros H1 H2 Hin Hs. destruct l as [|s l]; [done|].
  inversion Hin; inversion Hs; subst. by destruct (success_not_phase s _ ltac:(done) eq_refl).
Qed.

Lemma first_open_app pre suf :
  all_success pre -> match suf with [] => True | s :: _ => success s = false end ->
  first_open (pre ++ suf) = length pre.
Proof.
  unfold first_open. induction 1 as [|s pre Hs _ IH]; intros Hsuf; simpl.
  - destruct suf as [|s suf]; simpl; [done|]. by rewrite Hsuf.
  - rewrite Hs. simpl. specialize (IH Hsuf).
    destruct (position _ (pre ++ suf)); simpl in *; lia.
Qed.

Lemma first_open_split l :
  exists pre suf, l = pre ++ suf /\ first_open l = length pre /\ all_success pre /\
    match suf with [] => True | s :: _ => success s = false end.
Proof.
  unfold first_open. destruct (position (fun s => negb (success s)) l) as [i|] eqn:E.
  - apply position_Some in E as (pre & x & suf & -> & <- & Hpre & Hx).
    exists pre, (x :: suf). split; [done|]. split; [done|]. split; [|by apply negb_true_iff].
    apply forallb_success. rewrite forallb_forall in *. intros s Hin.
    specialize (Hpre s Hin). simpl in Hpre. by rewrite negb_involutive in Hpre.
  - apply position_None in E. exists l, []. rewrite app_nil_r. split; [done|]. split; [done|].
    split; [|done]. apply forallb_success. rewrite forallb_forall in *. intros s Hin.
    specialize (E s Hin). simpl in E. by rewrite negb_involutive in E.
Qed.

Lemma prepared_not_success s : step_phase s = SPrepared -> success s = false.
Proof. unfold success. by intros ->. Qed.

Lemma layout_continuation active l :
  layout_ok Continuation active l = true <->
  active = None /\ exists pre suf, l = pre ++ suf /\ pre <> [] /\ all_success pre /\ all_in SPrepared suf.
Proof.
  simpl. rewrite !andb_true_iff. split.
  - intros [[Ha Hex] Hsuf]. split; [by destruct active|].
    destruct (first_open_split l) as (pre & suf & -> & Hn & Hpre & _).
    rewrite Hn, drop_app_length in Hsuf. apply forallb_phase in Hsuf.
    exists pre, suf. split; [done|]. split; [|done]. intros ->. simpl in Hex.
    apply existsb_exists in Hex as (s & Hin & Hs). unfold all_in in Hsuf.
    rewrite Forall_forall in Hsuf. specialize (Hsuf s). rewrite list_elem_of_In in Hsuf.
    rewrite prepared_not_success in Hs by auto. done.
  - intros (-> & pre & suf & -> & Hne & Hpre & Hsuf). split; [split; [done|]|].
    + destruct pre as [|s pre]; [done|]. inversion Hpre as [|? ? Hs]; subst. simpl. by rewrite Hs.
    + rewrite first_open_app; [|done|].
      * rewrite drop_app_length. by apply forallb_phase.
      * destruct suf as [|s suf]; [done|]. apply prepared_not_success. by inversion Hsuf.
Qed.

Lemma layout_dispatching active l :
  NoDup (map step l) ->
  layout_ok Dispatching active l = true <->
  exists k pre x suf, active = Some k /\ l = pre ++ x :: suf /\ step x = k /\
    all_success pre /\ step_phase x = SDispatching /\ all_in SPrepared suf.
Proof.
  intros Hnd. simpl. split.
  - rewrite is_some_and_true. intros (k & -> & H). apply is_some_and_true in H as (i & Hi & H).
    apply position_Some in Hi as (pre & x & suf & -> & <- & _ & Hx%bool_decide_eq_true).
    rewrite take_app_length, list_lookup_middle in H by done.
    replace (drop (S (length pre)) (pre ++ x :: suf)) with suf in H
      by (by rewrite cons_middle, app_assoc, drop_app_length' by (rewrite length_app; simpl; lia)).
    rewrite !andb_true_iff in H. destruct H as [[H1 H2] H3].
    exists k, pre, x, suf. rewrite forallb_success in H1. rewrite forallb_phase in H3.
    apply in_phase_iff in H2. done.
  - intros (k & pre & x & suf & -> & -> & Hk & Hpre & Hx & Hsuf). simpl.
    assert (position (fun s => bool_decide (step s = k)) (pre ++ x :: suf) = Some (length pre)) as ->.
    { apply position_Some. exists pre, x, suf. split_and!; try done; [|by apply bool_decide_eq_true].
      apply forallb_forall. intros s Hin. apply negb_true_iff, bool_decide_eq_false. intros Hs.
      rewrite map_app in Hnd. apply NoDup_app in Hnd as (_ & Hd & _).
      apply (Hd (step s)); [apply list_elem_of_In, in_map, Hin|]. simpl. rewrite Hs, Hk. by left. }
    simpl. rewrite take_app_length, list_lookup_middle by done.
    replace (drop (S (length pre)) (pre ++ x :: suf)) with suf
      by (by rewrite cons_middle, app_assoc, drop_app_length' by (rewrite length_app; simpl; lia)).
    apply forallb_success in Hpre. apply forallb_phase in Hsuf. apply in_phase_iff in Hx.
    simpl in *. by rewrite Hpre, Hsuf, Hx.
Qed.

Lemma layout_unknown_intro pre x suf :
  all_success pre -> step_phase x = SUnknown -> all_in SNotDispatched suf ->
  layout_ok Unknown None (pre ++ x :: suf) = true.
Proof.
  intros Hpre Hx Hsuf. simpl.
  assert (position (in_phase SUnknown) (pre ++ x :: suf) = Some (length pre)) as ->.
  { apply position_Some. exists pre, x, suf. split_and!; try done; [|by apply in_phase_iff].
    apply forallb_forall. intros s Hin. apply negb_true_iff, not_true_is_false.
    intros Hs%in_phase_iff. unfold all_success in Hpre. rewrite Forall_forall in Hpre.
    specialize (Hpre s). rewrite list_elem_of_In in Hpre.
    by destruct (success_not_phase _ _ (Hpre Hin) Hs). }
  simpl. rewrite take_app_length.
  replace (drop (S (length pre)) (pre ++ x :: suf)) with suf
    by (by rewrite cons_middle, app_assoc, drop_app_length' by (rewrite length_app; simpl; lia)).
  apply forallb_success in Hpre. apply forallb_phase in Hsuf. simpl in *. by rewrite Hpre, Hsuf.
Qed.

Lemma layout_aborted_intro pre suf :
  all_success pre -> match suf with [] => True | s :: _ => success s = false end ->
  aborted_tail true suf = true -> layout_ok Aborted None (pre ++ suf) = true.
Proof.
  intros Hpre Hs Ht. simpl. rewrite first_open_app by done.
  rewrite take_app_length, drop_app_length, Ht. apply forallb_success in Hpre.
  simpl in *. by rewrite Hpre.
Qed.

Lemma aborted_tail_nd b l : all_in SNotDispatched l -> aborted_tail b l = true.
Proof.
  intros H. revert b. induction H as [|s l Hs _ IH]; intros b; simpl; [done|].
  by rewrite (proj2 (in_phase_iff _ _) Hs), IH.
Qed.

(** ** Lemmas: updates *)

Definition counts_u8 (c : CaptureCounts) : Prop :=
  is_u8 (successful c) /\ is_u8 (failed c) /\ is_u8 (skipped c).

Lemma step_set_valid s k n p c :
  step_valid s k n = true -> n <> 0 -> p <> SNotNeeded ->
  match p, c with
  | SAcknowledged, Some c => counts_valid c k n
  | SAcknowledged, None => false
  | _, Some _ => false
  | _, None => true
  end = true ->
  step_valid (step_set s p c) k n = true.
Proof.
  intros Hv Hn Hp Hc. pose proof (step_valid_label _ _ _ Hv) as [Hk Hr].
  unfold step_valid. cbn [step request_count step_phase step_set].
  rewrite Hk, Hr, bool_decide_eq_true_2, Z.eqb_refl by done.
  rewrite (bool_decide_eq_false_2 (p = SNotNeeded)) by done.
  apply Z.eqb_neq in Hn as ->. cbn [negb orb Bool.eqb].
  destruct p, c; simpl in *; try done.
Qed.

Lemma set_at_valid p ss k ph c :
  steps_valid p ss = true -> nth (step_index k) (plan_counts p) 0 <> 0 -> ph <> SNotNeeded ->
  match ph, c with
  | SAcknowledged, Some c => counts_valid c k (nth (step_index k) (plan_counts p) 0)
  | SAcknowledged, None => false
  | _, Some _ => false
  | _, None => true
  end = true ->
  steps_valid p (set_at k ph c ss) = true.
Proof.
  intros (s0 & s1 & s2 & -> & H0 & H1 & H2)%steps_valid_iff Hn Hp Hc. apply steps_valid_iff.
  unfold set_at. destruct k; cbn [step_index alter list_alter] in *; do 3 eexists;
    (split; [done|]); split_and!; try done; by apply step_set_valid.
Qed.

Lemma drop_prepared_valid p ss :
  steps_valid p ss = true -> steps_valid p (drop_prepared ss) = true.
Proof.
  intros (s0 & s1 & s2 & -> & H0 & H1 & H2)%steps_valid_iff. apply steps_valid_iff.
  unfold drop_prepared. cbn [map]. do 3 eexists. split; [done|].
  assert (Hone : forall s k n, step_valid s k n = true ->
    step_valid (if in_phase SPrepared s then step_set s SNotDispatched None else s) k n = true).
  { intros s k n Hv. destruct (in_phase SPrepared s) eqn:E; [|done].
    apply in_phase_iff in E. apply step_set_valid; try done.
    apply (step_valid_needed _ _ _ Hv). by rewrite E. }
  split_and!; auto.
Qed.

Lemma needed_count p ss s :
  steps_valid p ss = true -> In s (needed ss) ->
  0 < nth (step_index (step s)) (plan_counts p) 0.
Proof.
  intros (s0 & s1 & s2 & -> & H0 & H1 & H2)%steps_valid_iff [Hin Hpos%Z.ltb_lt]%filter_In.
  apply step_valid_label in H0 as [E0 N0], H1 as [E1 N1], H2 as [E2 N2].
  cbn [In] in Hin. destruct Hin as [<-|[<-|[<-|[]]]]; rewrite ?E0, ?E1, ?E2; simpl step_index; lia.
Qed.

Lemma find_app_none {A} (f : A -> bool) l1 l2 :
  Forall (fun x => f x = false) l1 -> List.find f (l1 ++ l2) = List.find f l2.
Proof. induction 1 as [|x l Hx _ IH]; simpl; [done|]. by rewrite Hx. Qed.

Lemma find_filter {A} (f g : A -> bool) l :
  (forall x, In x l -> f x = true -> g x = true) ->
  List.find f (List.filter g l) = List.find f l.
Proof.
  induction l as [|x l IH]; intros Hg; [done|]. cbn [List.filter List.find].
  destruct (g x) eqn:Eg; cbn [List.find].
  - destruct (f x); [done|]. apply IH. intros. apply Hg; [by right|done].
  - destruct (f x) eqn:Ef; [rewrite (Hg x) in Eg; [done|by left|done]|].
    apply IH. intros. apply Hg; [by right|done].
Qed.

(** The next step is the first needed one still prepared. *)
Lemma next_step_needed r pre suf :
  steps_valid (plan r) (steps r) = true -> needed (steps r) = pre ++ suf ->
  all_success pre -> all_in SPrepared suf ->
  next_step r = step <$> head suf.
Proof.
  intros Hv Hn Hpre Hsuf. unfold next_step.
  rewrite <- (find_filter _ (fun s => 0 <? request_count s)).
  - fold (needed (steps r)). rewrite Hn, find_app_none.
    + destruct suf as [|s suf]; [done|]. inversion Hsuf; subst. simpl.
      by rewrite bool_decide_eq_true_2.
    + eapply Forall_impl; [exact Hpre|]. intros s Hs. apply bool_decide_eq_false. intros E.
      by destruct (success_not_phase _ _ Hs E).
  - intros s Hin Hs%bool_decide_eq_true. apply Z.ltb_lt.
    apply (steps_valid_needed _ _ _ Hv Hin). by rewrite Hs.
Qed.

(** The part of validity no update touches. *)
Definition header_valid (r : CaptureReceipt) : Prop :=
  version r = 5 /\ kind r = "capture-window-workflow" /\ valid_uuid (operation_id r) = true /\
  valid_hash (endpoint_hash r) = true /\ generation r <= MAX_SAFE_INTEGER /\
  valid_timestamp (created_at r) = true /\ has_effects (plan r) = true /\
  postcondition_observed r = false /\ rendered_target r = "unverified".

Lemma capture_record_valid_iff r :
  record_valid r = true <->
  header_valid r /\ valid_timestamp (updated_at r) = true /\
  str_ltb (updated_at r) (created_at r) = false /\
  steps_valid (plan r) (steps r) = true /\ layout r = true.
Proof.
  unfold record_valid, header_valid.
  rewrite negb_true_iff, !orb_false_iff, !negb_false_iff, !Z.eqb_eq, Z.ltb_ge, !str_eqb_eq.
  tauto.
Qed.

Lemma with_steps_valid r utc p active ss :
  header_valid r -> valid_timestamp utc = true -> str_ltb utc (created_at r) = false ->
  steps_valid (plan r) ss = true -> layout_ok p active (needed ss) = true ->
  record_valid (with_steps r utc p active ss) = true.
Proof. intros. apply capture_record_valid_iff. done. Qed.

Lemma drop_prepared_success l : all_success l -> drop_prepared l = l.
Proof.
  unfold drop_prepared. induction 1 as [|s l Hs _ IH]; [done|]. cbn [map]. rewrite IH. f_equal.
  destruct (in_phase SPrepared s) eqn:E; [|done]. apply in_phase_iff in E.
  by destruct (success_not_phase _ _ Hs E).
Qed.

Lemma drop_prepared_all l : all_in SPrepared l -> all_in SNotDispatched (drop_prepared l).
Proof.
  induction 1 as [|s l Hs _ IH]; cbn [drop_prepared map]; constructor; [|done].
  by rewrite (proj2 (in_phase_iff _ _) Hs).
Qed.

Lemma drop_prepared_app l1 l2 : drop_prepared (l1 ++ l2) = drop_prepared l1 ++ drop_prepared l2.
Proof. apply map_app. Qed.

(** What an update must bring for its successor to be valid. *)
Definition update_ok (r : CaptureReceipt) (u : CaptureUpdate) : Prop :=
  match u with
  | UAcknowledged c =>
      counts_u8 c /\
      forall k, active_step r = Some k ->
        counts_valid c k (nth (step_index k) (plan_counts (plan r)) 0) = true
  | _ => True
  end.

(** Workflow open, no step in flight: [pre] is done, [suf] is still prepared. *)
Lemma open_layout r :
  steps_valid (plan r) (steps r) = true -> layout r = true ->
  phase r = Prepared \/ phase r = Continuation ->
  active_step r = None /\ exists pre suf, needed (steps r) = pre ++ suf /\
    all_success pre /\ all_in SPrepared suf /\ next_step r = step <$> head suf.
Proof.
  intros Hv Hl Hp. unfold layout in Hl.
  assert (H : active_step r = None /\ exists pre suf, needed (steps r) = pre ++ suf /\
    all_success pre /\ all_in SPrepared suf).
  { destruct Hp as [Hp|Hp]; rewrite Hp in Hl.
    - simpl in Hl. apply andb_true_iff in Hl as [Ha Hl]. split; [by destruct (active_step r)|].
      exists [], (needed (steps r)). apply forallb_phase in Hl. split_and!; try done. constructor.
    - apply layout_continuation in Hl as (Ha & pre & suf & ? & _ & ? & ?). eauto 10. }
  destruct H as (Ha & pre & suf & Hn & Hpre & Hsuf). split; [done|].
  exists pre, suf. split_and!; try done. by eapply next_step_needed.
Qed.

Lemma dispatch_valid r k utc :
  record_valid r = true -> valid_timestamp utc = true -> str_ltb utc (created_at r) = false ->
  phase r = Prepared \/ phase r = Continuation -> next_step r = Some k ->
  record_valid (with_steps r utc Dispatching (Some k) (set_at k SDispatching None (steps r))) = true.
Proof.
  intros (Hh & _ & _ & Hv & Hl)%capture_record_valid_iff Ht Hlt Hp Hk.
  destruct (open_layout r Hv Hl Hp) as (_ & pre & suf & Hn & Hpre & Hsuf & Hnext).
  destruct suf as [|x suf]; [by rewrite Hnext in Hk|]. rewrite Hnext in Hk. injection Hk as Hx.
  inversion Hsuf as [|? ? Hxp Hsuf']; subst x0 l.
  pose proof (needed_NoDup _ (steps_labels _ _ Hv)) as Hnd. rewrite Hn in Hnd.
  apply with_steps_valid; try done.
  - apply set_at_valid; try done. rewrite <- Hx.
    enough (0 < nth (step_index (step x)) (plan_counts (plan r)) 0) by lia.
    eapply needed_count; [done|]. rewrite Hn. apply in_app_iff. right. by left.
  - rewrite (needed_set_at _ _ _ _ (steps_labels _ _ Hv)), Hn, set_label_split by done.
    apply layout_dispatching; [by rewrite map_app in *|].
    exists k, pre, (step_set x SDispatching None), suf. done.
Qed.

(** The step in flight and its neighbours. *)
Lemma in_flight r :
  steps_valid (plan r) (steps r) = true -> layout r = true -> phase r = Dispatching ->
  exists k pre x suf, active_step r = Some k /\ needed (steps r) = pre ++ x :: suf /\
    step x = k /\ all_success pre /\ all_in SPrepared suf /\
    nth (step_index k) (plan_counts (plan r)) 0 <> 0 /\
    forall p c, needed (set_at k p c (steps r)) = pre ++ step_set x p c :: suf.
Proof.
  intros Hv Hl Hp. unfold layout in Hl. rewrite Hp in Hl.
  pose proof (needed_NoDup _ (steps_labels _ _ Hv)) as Hnd.
  apply layout_dispatching in Hl as (k & pre & x & suf & Ha & Hn & Hk & Hpre & _ & Hsuf); [|done].
  exists k, pre, x, suf. split_and!; try done.
  - rewrite <- Hk. enough (0 < nth (step_index (step x)) (plan_counts (plan r)) 0) by lia.
    eapply needed_count; [done|]. rewrite Hn. apply in_app_iff. right. by left.
  - intros p c. rewrite (needed_set_at _ _ _ _ (steps_labels _ _ Hv)), Hn.
    rewrite Hn in Hnd. by apply set_label_split.
Qed.

Lemma in_phase_set p x q c : in_phase p (step_set x q c) = bool_decide (q = p).
Proof. done. Qed.

Lemma drop_prepared_cons_set x p c l :
  p <> SPrepared -> drop_prepared (step_set x p c :: l) = step_set x p c :: drop_prepared l.
Proof. intros Hp. simpl. by rewrite in_phase_set, bool_decide_eq_false_2. Qed.

Lemma settle_valid r c utc :
  record_valid r = true -> valid_timestamp utc = true -> str_ltb utc (created_at r) = false ->
  phase r = Dispatching -> update_ok r (UAcknowledged c) ->
  forall n, next r (UAcknowledged c) utc = Ok n -> record_valid n = true.
Proof.
  intros (Hh & _ & _ & Hv & Hl)%capture_record_valid_iff Ht Hlt Hp [Hu8 Hc] n Hn.
  destruct (in_flight r Hv Hl Hp) as (k & pre & x & suf & Ha & _ & Hk & Hpre & Hsuf & Hcnt & Hset).
  unfold next in Hn. rewrite Hp, Ha in Hn. simpl in Hn. injection Hn as <-. specialize (Hc k Ha).
  assert (Hs : steps_valid (plan r) (set_at k SAcknowledged (Some c) (steps r)) = true)
    by (by apply set_at_valid).
  destruct (clean c) eqn:Ec; apply with_steps_valid; try done.
  - rewrite Hset. apply layout_continuation. split; [done|].
    exists (pre ++ [step_set x SAcknowledged (Some c)]), suf. split_and!; try done.
    + by rewrite <- app_assoc.
    + by destruct pre.
    + apply Forall_app. split; [done|]. constructor; [|constructor]. by unfold success.
  - by apply drop_prepared_valid.
  - rewrite needed_drop_prepared, Hset, drop_prepared_app, (drop_prepared_success _ Hpre).
    apply layout_aborted_intro; [done|by unfold success|].
    assert (0 < failed c) as Hf%Z.ltb_lt.
    { unfold counts_valid, clean in *. destruct Hu8 as (_ & [? _] & _). to_prop. lia. }
    apply drop_prepared_all in Hsuf.
    rewrite (drop_prepared_cons_set x SAcknowledged) by done.
    unfold aborted_tail; fold aborted_tail. rewrite !in_phase_set, (aborted_tail_nd _ _ Hsuf).
    cbn. by rewrite Hf.
Qed.

Lemma fail_valid r ph p utc k :
  record_valid r = true -> valid_timestamp utc = true -> str_ltb utc (created_at r) = false ->
  phase r = Dispatching -> active_step r = Some k ->
  (ph = SNotDispatched /\ p = Aborted) \/ (ph = SUnknown /\ p = Unknown) ->
  record_valid (with_steps r utc p None (drop_prepared (set_at k ph None (steps r)))) = true.
Proof.
  intros (Hh & _ & _ & Hv & Hl)%capture_record_valid_iff Ht Hlt Hp Hk Hph.
  destruct (in_flight r Hv Hl Hp) as (k' & pre & x & suf & Ha & _ & _ & Hpre & Hsuf & Hcnt & Hset).
  rewrite Hk in Ha. injection Ha as <-. apply drop_prepared_all in Hsuf.
  apply with_steps_valid; try done.
  - apply drop_prepared_valid, set_at_valid; try done; by destruct Hph as [[-> _]|[-> _]].
  - rewrite needed_drop_prepared, Hset, drop_prepared_app, (drop_prepared_success _ Hpre).
    destruct Hph as [[-> ->]|[-> ->]]; cbn [drop_prepared map].
    + apply layout_aborted_intro; [done|done|]. simpl. fold (drop_prepared suf).
      by rewrite (aborted_tail_nd false _ Hsuf).
    + by apply layout_unknown_intro.
Qed.

Lemma close_valid r utc :
  record_valid r = true -> valid_timestamp utc = true -> str_ltb utc (created_at r) = false ->
  phase r = Continuation -> next_step r = None ->
  record_valid (with_steps r utc Closed (active_step r) (steps r)) = true.
Proof.
  intros (Hh & _ & _ & Hv & Hl)%capture_record_valid_iff Ht Hlt Hp Hk.
  destruct (open_layout r Hv Hl (or_intror Hp)) as (Ha & pre & suf & Hn & Hpre & _ & Hnext).
  rewrite Hnext in Hk. destruct suf; [|done]. apply with_steps_valid; try done.
  rewrite Ha, Hn, app_nil_r. simpl. by apply forallb_success.
Qed.

Lemma abort_valid r utc :
  record_valid r = true -> valid_timestamp utc = true -> str_ltb utc (created_at r) = false ->
  phase r = Prepared \/ phase r = Continuation ->
  record_valid (with_steps r utc Aborted (active_step r) (drop_prepared (steps r))) = true.
Proof.
  intros (Hh & _ & _ & Hv & Hl)%capture_record_valid_iff Ht Hlt Hp.
  destruct (open_layout r Hv Hl Hp) as (Ha & pre & suf & Hn & Hpre & Hsuf & _).
  apply with_steps_valid; try done; [by apply drop_prepared_valid|].
  rewrite Ha, needed_drop_prepared, Hn, drop_prepared_app, (drop_prepared_success _ Hpre).
  apply drop_prepared_all in Hsuf. apply layout_aborted_intro; [done| |by apply aborted_tail_nd].
  destruct (drop_prepared suf) as [|s l]; [done|]. inversion Hsuf as [|? ? E _]; subst.
  unfold success. by rewrite E.
Qed.

Lemma next_valid r u utc n :
  record_valid r = true -> valid_timestamp utc = true -> str_ltb utc (created_at r) = false ->
  update_ok r u -> next r u utc = Ok n -> record_valid n = true.
Proof.
  intros Hv Ht Hlt Hu Hn. pose proof Hn as Hn'.
  unfold next, ok_or, bind_result in Hn.
  destruct (phase r) eqn:Ep, u; try discriminate; repeat case_match; simplify_eq.
  all: repeat match goal with
         | H : bool_decide _ = true |- _ => apply bool_decide_eq_true in H
         | H : is_none ?o = true |- _ => destruct o eqn:?; try discriminate; clear H
         end.
  all: try solve [ apply dispatch_valid; auto | apply abort_valid; auto | apply close_valid; auto
                 | apply fail_valid; auto ].
  all: by eapply settle_valid.
Qed.

Lemma capture_updated_Ok r u utc r' :
  updated r u utc = Ok r' <-> next r u utc = Ok r' /\ record_valid r' = true.
Proof.
  unfold updated. rewrite bind_result_Ok. split.
  - intros (n & Hs & (-> & Hv)%capture_checked_Ok). done.
  - intros [Hs Hv]. exists r'. split; [done|]. by apply capture_checked_Ok.
Qed.

(** The Capture Window machine never gets stuck on a legal update: at a valid time not
    before creation, an update that the phase allows (with counts that account for the
    step in flight) succeeds and gives a valid receipt again. *)
Theorem capture_update_total r u utc n :
  record_valid r = true -> valid_timestamp utc = true -> str_ltb utc (created_at r) = false ->
  next r u utc = Ok n -> update_ok r u ->
  updated r u utc = Ok n /\ record_valid n = true.
Proof.
  intros Hv Ht Hlt Hs Hu. rewrite capture_updated_Ok.
  assert (record_valid n = true) by eauto using next_valid. done.
Qed.

(** ** The phase machine *)

Definition prepared_steps (ss : list CaptureStepRecord) : nat :=
  length (List.filter (in_phase SPrepared) ss).

Definition rank (r : CaptureReceipt) : nat :=
  match phase r with
  | Prepared | Continuation => 2 * prepared_steps (steps r) + 1
  | Dispatching => 2 * prepared_steps (steps r) + 2
  | _ => 0
  end.

Definition budget (r : CaptureReceipt) : nat :=
  if live r then prepared_steps (steps r) else 0.

Definition is_dispatch (u : CaptureUpdate) : bool :=
  match u with Dispatch _ => true | _ => false end.

Lemma prepared_steps_set_at k p c ss :
  p <> SPrepared -> (prepared_steps (set_at k p c ss) <= prepared_steps ss)%nat.
Proof.
  intros Hp. unfold prepared_steps, set_at. generalize (step_index k) as i.
  induction ss as [|s ss IH]; intros [|i]; simpl; try lia.
  - rewrite in_phase_set, bool_decide_eq_false_2 by done. destruct (in_phase _ s); simpl; lia.
  - destruct (in_phase _ s); simpl; [apply le_n_S|]; apply IH.
Qed.

(** Dispatching the next step takes it off the prepared ones. *)
Lemma prepared_steps_dispatch r k :
  map step (steps r) = all_steps -> next_step r = Some k ->
  S (prepared_steps (set_at k SDispatching None (steps r))) = prepared_steps (steps r).
Proof.
  unfold next_step. destruct (steps r) as [|s0 [|s1 [|s2 [|]]]]; try done.
  intros [= H0 H1 H2]. unfold prepared_steps, in_phase. simpl.
  repeat case_match; simpl; intros [= <-]; rewrite ?H0, ?H1, ?H2; simpl;
    repeat (rewrite bool_decide_eq_true_2 by done || rewrite bool_decide_eq_false_2 by done);
    simpl; try done.
  all: repeat match goal with H : _ = _ |- _ => rewrite H end; done.
Qed.

Lemma set_at_labels k p c ss : map step (set_at k p c ss) = map step ss.
Proof.
  unfold set_at. generalize (step_index k) as i.
  induction ss as [|s ss IH]; intros [|i]; simpl; try done. f_equal. apply IH.
Qed.

Lemma next_ranks r u utc n :
  next r u utc = Ok n -> record_valid n = true ->
  (rank n < rank r)%nat /\ (budget n + (if is_dispatch u then 1 else 0) <= budget r)%nat.
Proof.
  intros Hn (_ & _ & _ & Hv & _)%capture_record_valid_iff. apply steps_labels in Hv.
  unfold next, ok_or, bind_result in Hn. unfold rank, budget, live.
  destruct (phase r) eqn:Ep, u; try discriminate; repeat case_match; simplify_eq/=; try lia.
  all: try (match goal with |- context [set_at ?k ?p ?c ?ss] =>
              pose proof (prepared_steps_set_at k p c ss ltac:(done)) end; lia).
  all: rewrite set_at_labels in Hv; to_prop;
    match goal with H : next_step _ = Some _ |- _ =>
      pose proof (prepared_steps_dispatch _ _ Hv H) end; lia.
Qed.

#[global] Instance capture_machine : PhaseMachine CaptureReceipt CaptureUpdate.
Proof.
  refine {| pm_updated := updated; pm_dispatch := is_dispatch; pm_rank := rank; pm_budget := budget |}.
  all: intros r u utc r' (Hs & Hv)%capture_updated_Ok; by apply (next_ranks _ _ _ _ Hs) in Hv as [? ?].
Defined.

(** A Capture Window workflow sends each of its at most three steps once: over a whole
    history it records no more dispatch intents than it had steps prepared, takes at most
    seven updates after [prepare_capture], and a closed, aborted or unknown workflow is
    final. *)
Theorem capture_bounded_history r us r' :
  record_valid r = true -> history r us r' ->
  (dispatches us <= prepared_steps (steps r) <= 3)%nat /\ (length us <= 8)%nat /\
  (phase r = Prepared -> length us <= 7)%nat /\
  (live r = false -> us = [] /\ r' = r).
Proof.
  intros (_ & _ & _ & Hv & _)%capture_record_valid_iff H.
  assert (Hp : (prepared_steps (steps r) <= 3)%nat).
  { apply steps_valid_iff in Hv as (s0 & s1 & s2 & -> & _). unfold prepared_steps.
    etrans; [apply List.filter_length_le|done]. }
  pose proof (history_rank _ _ _ H) as Hr. pose proof (history_budget _ _ _ H) as Hb.
  simpl in Hr, Hb. unfold rank, budget, live in *. split_and!.
  - destruct (phase r); lia.
  - lia.
  - destruct (phase r); lia.
  - intros E. rewrite E in *. lia.
  - intros E. destruct us; [by inversion H|]. simpl in Hr. destruct (phase r); done || lia.
Qed.

Lemma step_valid_success s k n :
  step_valid s k n = true -> n <> 0 -> success s = true ->
  exists c, step_phase s = SAcknowledged /\ counts s = Some c /\
    failed c = 0 /\ skipped c = 0 /\ successful c = n.
Proof.
  unfold step_valid, success. destruct (_ || _) eqn:E; [done|]. intros Hv Hn Hs. to_prop.
  destruct E as [_ E%Bool.eqb_prop]. destruct (step_phase s); try done.
  - rewrite bool_decide_eq_true_2 in E by done. by apply Z.eqb_eq in E.
  - rewrite !andb_true_iff in Hv. destruct Hv as [_ Hv]. destruct (counts s) as [c|]; [|done]. exists c.
    simpl in *. unfold clean, counts_valid in *. to_prop. split_and!; try done; lia.
Qed.

Lemma step_valid_prepared s k n :
  step_valid s k n = true -> step_phase s = SPrepared ->
  step_phase s = SPrepared /\ request_dispatched s = Some false.
Proof.
  unfold step_valid. destruct (_ || _) eqn:E; [done|]. intros Hv Hp. rewrite Hp in *.
  unfold is_opt in Hv. to_prop. naive_solver.
Qed.

(** Capture Window steps run strictly in order: while a step of a valid receipt is in
    flight, every needed step before it was acknowledged with no failure and nothing
    skipped, and every needed step after it has not been sent. *)
Theorem capture_steps_in_order r k :
  record_valid r = true -> phase r = Dispatching -> active_step r = Some k ->
  exists pre x suf,
    needed (steps r) = pre ++ x :: suf /\ step x = k /\ step_phase x = SDispatching /\
    Forall (fun s => exists c, step_phase s = SAcknowledged /\ counts s = Some c /\
              failed c = 0 /\ skipped c = 0 /\ successful c = request_count s) pre /\
    Forall (fun s => step_phase s = SPrepared /\ request_dispatched s = Some false) suf.
Proof.
  intros (_ & _ & _ & Hv & Hl)%capture_record_valid_iff Hp Ha. unfold layout in Hl. rewrite Hp in Hl.
  assert (Hin : forall s, In s (needed (steps r)) -> exists k, step_valid s k (request_count s) = true
            /\ request_count s <> 0).
  { intros s [Hs Hc]%filter_In. apply Z.ltb_lt in Hc.
    apply steps_valid_iff in Hv as (s0 & s1 & s2 & E & H0 & H1 & H2). rewrite E in Hs.
    destruct Hs as [<-|[<-|[<-|[]]]];
      (eexists; split; [|lia]; match goal with H : step_valid ?s _ _ = true |- step_valid ?s _ _ = _ =>
         destruct (step_valid_label _ _ _ H) as [_ ->]; exact H end). }
  pose proof (needed_NoDup _ (steps_labels _ _ Hv)) as Hnd.
  apply layout_dispatching in Hl as (k' & pre & x & suf & Ha' & Hn & Hk & Hpre & Hx & Hsuf); [|done].
  exists pre, x, suf. split_and!; try done; [congruence|..].
  all: rewrite Hn in Hin; apply Forall_forall; intros s Hs; apply list_elem_of_In in Hs.
  all: destruct (Hin s) as (kk & Hsv & Hne); [apply in_app_iff; simpl; auto|].
  - unfold all_success in Hpre. rewrite Forall_forall in Hpre.
    by apply (step_valid_success _ _ _ Hsv Hne), Hpre, list_elem_of_In.
  - unfold all_in in Hsuf. rewrite Forall_forall in Hsuf.
    by apply (step_valid_prepared _ _ _ Hsv), Hsuf, list_elem_of_In.
Qed.

(** ** Round trip *)

Lemma plan_fields_nodup p : NoDup (keys (plan_fields p)).
Proof. apply nodup_keys_spec. vm_compute. reflexivity. Qed.

Lemma step_fields_nodup s : NoDup (keys (step_fields s)).
Proof. apply nodup_keys_spec. vm_compute. reflexivity. Qed.

Lemma capture_value_fields_nodup r : NoDup (keys (value_fields r)).
Proof. apply nodup_keys_spec. vm_compute. reflexivity. Qed.

Lemma de_plan_rt p : de_plan (object_of (plan_fields p)) = Some p.
Proof. by destruct p as [[] [] []]. Qed.

Lemma capture_de_counts_rt c : counts_u8 c -> de_counts (object_of (counts_fields c)) = Some c.
Proof.
  intros ([_ H1] & [_ H2] & [_ H3]). destruct c. simpl in *.
  unfold de_counts, object_of, required. simpl. by rewrite !de_u8_num by done.
Qed.

(** The machine integers of a step record are bytes. *)
Definition step_typed (s : CaptureStepRecord) : Prop :=
  is_u8 (request_count s) /\ forall c, counts s = Some c -> counts_u8 c.

Lemma de_step_rt s : step_typed s -> de_step (object_of (step_fields s)) = Some s.
Proof.
  intros [[_ Hr] Hc]. unfold de_step, object_of. cbn [as_object and_then].
  rewrite (only_fields_object step_names (step_fields s) eq_refl).
  unfold required, optional.
  rewrite !(fun k => field_object_fields k _ (step_fields_nodup s)).
  cbn -[step_phase_table step_table de_u8 de_variant de_counts object_of].
  rewrite de_u8_num by done.
  replace (de_variant step_table (Str (step_name (step s)))) with (Some (step s))
    by (by destruct (step s)).
  replace (de_variant step_phase_table (Str (step_phase_name (step_phase s))))
    with (Some (step_phase s)) by (by destruct (step_phase s)).
  assert (de_option de_counts (ser_option (fun c => object_of (counts_fields c)) (counts s))
          = Some (counts s)) as ->
    by (apply de_option_ser; [done|]; intros; by apply capture_de_counts_rt, Hc).
  by destruct s as [? ? ? [] [] ?].
Qed.

Lemma step_spelled_rt s : step_spelled (object_of (step_fields s)) = true.
Proof.
  unfold step_spelled. apply forallb_forall. intros k Hin. unfold object_of. cbn [get].
  rewrite (field_object_fields k _ (step_fields_nodup s)). simpl in Hin.
  by repeat destruct Hin as [<-|Hin].
Qed.

(** Version 5 round trip: a valid Capture Window receipt, its plan, its three steps and
    their byte counts included, is read back unchanged from its JSON. *)
Lemma capture_receipt_roundtrip r :
  record_valid r = true -> Forall step_typed (steps r) -> from_value (to_value r) = Ok r.
Proof.
  intros Hv Ht.
  pose proof (proj1 (capture_record_valid_iff r) Hv) as ((Hver & _) & _ & _ & Hsv & _).
  apply steps_valid_iff in Hsv as (s0 & s1 & s2 & E & _).
  assert (Hd : de_steps (Array (map (fun s => object_of (step_fields s)) (steps r))) = Some (steps r)).
  { rewrite E in *. inversion Ht as [|? ? T0 Ht1]; inversion Ht1 as [|? ? T1 Ht2];
      inversion Ht2 as [|? ? T2 _]; subst. simpl. by rewrite !de_step_rt. }
  assert (Hs : forallb step_spelled (map (fun s => object_of (step_fields s)) (steps r)) = true).
  { rewrite E. cbn [map forallb]. by rewrite !step_spelled_rt. }
  assert (Hlen : length (map (fun s => object_of (step_fields s)) (steps r)) = 3%nat) by (by rewrite E).
  unfold from_value, to_value, object_of at 1 2 3. cbn [get as_object and_then].
  rewrite !(fun k => field_object_fields k _ (capture_value_fields_nodup r)).
  cbn [value_fields field str_eqb String.eqb Ascii.eqb Bool.eqb is_none and_then as_array opt_filter].
  rewrite Hlen. cbn [Nat.eqb ok_or bind_result]. rewrite Hs. cbn [negb].
  unfold record_of_fields.
  rewrite (only_fields_object field_names (value_fields r) eq_refl).
  unfold required, optional.
  rewrite !(fun k => field_object_fields k _ (capture_value_fields_nodup r)).
  cbn -[phase_table step_table de_u8 de_variant de_steps de_plan object_of checked].
  rewrite de_u8_num by (rewrite Hver; unfold U8_MAX; lia).
  rewrite de_plan_rt, Hd.
  replace (de_variant phase_table (Str (phase_name (phase r)))) with (Some (phase r))
    by (by destruct (phase r)).
  assert (de_option (de_variant step_table) (ser_option (fun k => Str (step_name k)) (active_step r))
          = Some (active_step r)) as ->.
  { apply de_option_ser; [done|]. by intros []. }
  cbn -[checked]. apply capture_checked_Ok. by destruct r.
Qed.

(** Updates keep the byte ranges. *)
Lemma prepared_record_typed id e g p utc : Forall step_typed (steps (prepared_record id e g p utc)).
Proof.
  destruct p as [[] [] []]; simpl; repeat constructor; simpl; unfold U8_MAX; try lia; done.
Qed.

Lemma step_set_typed s p c :
  step_typed s -> (forall c', c = Some c' -> counts_u8 c') -> step_typed (step_set s p c).
Proof. intros [Hr _] Hc. by split. Qed.

Lemma set_at_typed k p c ss :
  Forall step_typed ss -> (forall c', c = Some c' -> counts_u8 c') ->
  Forall step_typed (set_at k p c ss).
Proof.
  intros Hs Hc. apply Forall_alter; [done|]. intros s _ Ht. by apply step_set_typed.
Qed.

Lemma drop_prepared_typed ss : Forall step_typed ss -> Forall step_typed (drop_prepared ss).
Proof.
  intros Hs. unfold drop_prepared. apply Forall_map. eapply Forall_impl; [done|].
  intros s Ht. simpl. case_match; [|done]. by apply step_set_typed.
Qed.

Lemma next_typed r u utc n :
  Forall step_typed (steps r) ->
  match u with UAcknowledged c => counts_u8 c | _ => True end ->
  next r u utc = Ok n -> Forall step_typed (steps n).
Proof.
  intros Hr Hu Hn. unfold next, ok_or, bind_result in Hn.
  repeat case_match; simplify_eq/=; try done;
    repeat (apply drop_prepared_typed || apply set_at_typed); try done; naive_solver.
Qed.
