(* ===== verification/Filesystem.v ===== *)
(** * The file system

    The part of [std::fs] and [std::path] that [native/src/operation_store.rs] calls, as
    an explicit state: names bound to inodes, and inodes.  A [Path] is the list of its
    components.  Every call is one tick of a [World]: before it acts, the rest of the
    system may change the file system ([interfere]), and the call itself may fail
    ([fault]).  Nothing is assumed of the two here; the theorems state what they need. *)
From S2P Require Import Prelude.

(** ** Paths *)

Record Path := {
  absolute : bool;
  parts : list string
}.

(** [Path::join] with one plain component *)
Definition path_join (p : Path) (name : string) : Path :=
  {| absolute := absolute p; parts := parts p ++ [name] |}.

(** [Component::Normal], as opposed to [CurDir] and [ParentDir] *)
Definition is_normal (part : string) : bool := negb (one_of part ["."; ".."]).

(** ** Inodes *)

(** [st_dev] and [st_ino] *)
Notation InodeId := (Z * Z)%type.

Inductive FileKind :=
| Regular
| Directory
| Symlink (target : option InodeId)  (* what it resolves to now *)
| Special.

Record Inode := {
  i_kind : FileKind;
  i_mode : Z;
  i_nlink : Z;
  i_data : list Z;
  i_modified : Z
}.

Record Fs := {
  names : gmap (list string) InodeId;
  inodes : gmap InodeId Inode;
  now : Z
}.

#[export] Instance FileKind_eq_dec : EqDecision FileKind.
Proof. solve_decision. Defined.
#[export] Instance Inode_eq_dec : EqDecision Inode.
Proof. solve_decision. Defined.

(** [std::fs::Metadata] *)
Record Metadata := {
  m_id : InodeId;
  m_kind : FileKind;
  m_mode : Z;
  m_nlink : Z;
  m_len : Z;
  m_modified : Z
}.

#[export] Instance Metadata_eq_dec : EqDecision Metadata.
Proof. solve_decision. Defined.

Definition metadata_of (i : InodeId) (n : Inode) : Metadata :=
  {| m_id := i; m_kind := i_kind n; m_mode := i_mode n; m_nlink := i_nlink n;
     m_len := Z.of_nat (length (i_data n)); m_modified := i_modified n |}.

Definition is_dir (m : Metadata) : bool := bool_decide (m_kind m = Directory).
Definition is_file (m : Metadata) : bool := bool_decide (m_kind m = Regular).
Definition is_symlink (m : Metadata) : bool :=
  match m_kind m with Symlink _ => true | _ => false end.

(** ** Errors *)

Inductive ErrorKind := NotFound | AlreadyExists | OtherError.

#[export] Instance ErrorKind_eq_dec : EqDecision ErrorKind.
Proof. solve_decision. Defined.

(** ** Acts on a file system *)

(** The inode a name is bound to *)
Definition lookup_path (fs : Fs) (p : list string) : option (InodeId * Inode) :=
  match names fs !! p with
  | Some i => (fun n => (i, n)) <$> inodes fs !! i
  | None => None
  end.

(** An inode number no inode has and no name is bound to. *)
Definition fresh_inode (fs : Fs) : InodeId :=
  (0, 1 + Z.max (map_fold (fun i _ m => Z.max (snd i) m) 0 (inodes fs))
                (map_fold (fun _ i m => Z.max (snd i) m) 0 (names fs))).

Definition bind_new (p : list string) (n : Inode) (fs : Fs) : InodeId * Fs :=
  let i := fresh_inode fs in
  (i, {| names := <[p := i]> (names fs); inodes := <[i := n]> (inodes fs); now := now fs |}).

Definition set_inode (i : InodeId) (f : Inode -> Inode) (fs : Fs) : Fs :=
  {| names := names fs; inodes := alter f i (inodes fs); now := now fs |}.

Definition unlinked (n : Inode) : Inode :=
  {| i_kind := i_kind n; i_mode := i_mode n; i_nlink := i_nlink n - 1; i_data := i_data n;
     i_modified := i_modified n |}.

Definition with_data (data : list Z) (t : Z) (n : Inode) : Inode :=
  {| i_kind := i_kind n; i_mode := i_mode n; i_nlink := i_nlink n; i_data := data;
     i_modified := t |}.

Definition dir_parent (p : list string) : list string := removelast p.

Definition is_directory_at (fs : Fs) (p : list string) : bool :=
  match lookup_path fs p with
  | Some (_, n) =>
      match i_kind n with
      | Directory => true
      | Symlink (Some t) => is_some_and (inodes fs !! t) (fun n => bool_decide (i_kind n = Directory))
      | _ => false
      end
  | None => false
  end.

(** What [open] reaches: it follows a symbolic link. *)
Definition open_target (fs : Fs) (p : list string) : result ErrorKind InodeId :=
  match lookup_path fs p with
  | Some (i, n) =>
      match i_kind n with
      | Symlink (Some t) => Ok t
      | Symlink None => Err NotFound
      | _ => Ok i
      end
  | None => Err NotFound
  end.

Definition act_symlink_metadata (p : list string) (fs : Fs) : result ErrorKind Metadata * Fs :=
  (match lookup_path fs p with
   | Some (i, n) => Ok (metadata_of i n)
   | None => Err NotFound
   end, fs).

Definition act_open (p : list string) (fs : Fs) : result ErrorKind InodeId * Fs :=
  (open_target fs p, fs).

Definition act_fstat (i : InodeId) (fs : Fs) : result ErrorKind Metadata * Fs :=
  (ok_or (metadata_of i <$> inodes fs !! i) OtherError, fs).

(** [read_to_end] of a handle limited with [take] *)
Definition act_read (i : InodeId) (limit : Z) (fs : Fs) : result ErrorKind (list Z) * Fs :=
  (ok_or ((fun n => take (Z.to_nat limit) (i_data n)) <$> inodes fs !! i) OtherError, fs).

Definition act_mkdir (p : list string) (mode : Z) (fs : Fs) : result ErrorKind unit * Fs :=
  if negb (is_none (names fs !! p)) then (Err AlreadyExists, fs)
  else if negb (is_directory_at fs (dir_parent p)) then (Err NotFound, fs)
  else
    (Ok tt, snd (bind_new p {| i_kind := Directory; i_mode := mode; i_nlink := 2; i_data := [];
                               i_modified := now fs |} fs)).

(** [OpenOptions::create_new] *)
Definition act_create_new (p : list string) (mode : Z) (fs : Fs)
  : result ErrorKind InodeId * Fs :=
  if negb (is_none (names fs !! p)) then (Err AlreadyExists, fs)
  else if negb (is_directory_at fs (dir_parent p)) then (Err NotFound, fs)
  else
    let '(i, fs') := bind_new p {| i_kind := Regular; i_mode := mode; i_nlink := 1; i_data := [];
                                   i_modified := now fs |} fs in
    (Ok i, fs').

(** [write_all] to a newly created file *)
Definition act_write (i : InodeId) (bytes : list Z) (fs : Fs) : result ErrorKind unit * Fs :=
  (Ok tt, set_inode i (with_data bytes (now fs)) fs).

Definition act_sync (fs : Fs) : result ErrorKind unit * Fs := (Ok tt, fs).

(** [rename]: the destination name is rebound in one step, and what it was bound to loses
    a link. *)
Definition act_rename (src dst : list string) (fs : Fs) : result ErrorKind unit * Fs :=
  match lookup_path fs src with
  | None => (Err NotFound, fs)
  | Some (i, _) =>
      let fs1 := match names fs !! dst with
                 | Some old => set_inode old unlinked fs
                 | None => fs
                 end in
      (Ok tt, {| names := <[dst := i]> (delete src (names fs1)); inodes := inodes fs1;
                 now := now fs1 |})
  end.

Definition act_remove_file (p : list string) (fs : Fs) : result ErrorKind unit * Fs :=
  match lookup_path fs p with
  | None => (Err NotFound, fs)
  | Some (i, _) =>
      (Ok tt, let fs1 := set_inode i unlinked fs in
              {| names := delete p (names fs1); inodes := inodes fs1; now := now fs1 |})
  end.

(** The name of a direct child of a directory *)
Fixpoint child_name (d p : list string) : option string :=
  match d, p with
  | [], [name] => Some name
  | x :: d, y :: p => if str_eqb x y then child_name d p else None
  | _, _ => None
  end.

Definition children (fs : Fs) (d : list string) : list string :=
  omap (fun '(p, _) => child_name d p) (map_to_list (names fs)).

(** ** Ticks *)

(** The rest of the system, and the calling process's id. *)
Class Environment := {
  interfere : nat -> Fs -> Fs;
  (** a call that fails for a reason other than what its names are bound to, and how many
      bytes a failed write still left behind *)
  fault : nat -> option nat;
  (** the order in which a directory is enumerated *)
  listing : nat -> list string -> list string;
  listing_perm : forall t l, Permutation (listing t l) l;
  process_id : Z
}.

Record World := {
  tick : nat;
  disk : Fs
}.

Definition io (A : Type) : Type := World -> result ErrorKind A * World.

Section Calls.
Context `{Environment}.

Definition call {A} (act : Fs -> result ErrorKind A * Fs) : io A := fun w =>
  let fs := interfere (tick w) (disk w) in
  match fault (tick w) with
  | Some _ => (Err OtherError, {| tick := S (tick w); disk := fs |})
  | None => let '(r, fs') := act fs in (r, {| tick := S (tick w); disk := fs' |})
  end.

Definition symlink_metadata (p : Path) : io Metadata := call (act_symlink_metadata (parts p)).
Definition open (p : Path) : io InodeId := call (act_open (parts p)).
Definition fstat (i : InodeId) : io Metadata := call (act_fstat i).
Definition read_limited (i : InodeId) (limit : Z) : io (list Z) := call (act_read i limit).
Definition mkdir (p : list string) (mode : Z) : io unit := call (act_mkdir p mode).
Definition create_new (p : Path) (mode : Z) : io InodeId := call (act_create_new (parts p) mode).
Definition sync_all (i : InodeId) : io unit := call act_sync.
Definition rename (src dst : Path) : io unit := call (act_rename (parts src) (parts dst)).
Definition remove_file (p : Path) : io unit := call (act_remove_file (parts p)).

(** A failed write may leave a prefix behind. *)
Definition write_all (i : InodeId) (bytes : list Z) : io unit := fun w =>
  let fs := interfere (tick w) (disk w) in
  match fault (tick w) with
  | Some n =>
      (Err OtherError, {| tick := S (tick w); disk := snd (act_write i (take n bytes) fs) |})
  | None => let '(r, fs') := act_write i bytes fs in (r, {| tick := S (tick w); disk := fs' |})
  end.

(** [Path::is_dir], which has no error *)
Definition path_is_dir (p : list string) : World -> bool * World := fun w =>
  let fs := interfere (tick w) (disk w) in
  (match fault (tick w) with Some _ => false | None => is_directory_at fs p end,
   {| tick := S (tick w); disk := fs |}).

(** [DirBuilder::recursive(true).create], on the reversed components *)
Fixpoint create_dir_all (rev_parts : list string) (mode : Z) : io unit := fun w =>
  match rev_parts with
  | [] =>
      let '(r, w) := mkdir [] mode w in
      match r with
      | Ok tt => (Ok tt, w)
      | Err NotFound => (Err NotFound, w)
      | Err e => let '(d, w) := path_is_dir [] w in (if d then Ok tt else Err e, w)
      end
  | _ :: rest =>
      let p := rev rev_parts in
      let '(r, w) := mkdir p mode w in
      match r with
      | Ok tt => (Ok tt, w)
      | Err NotFound =>
          let '(r, w) := create_dir_all rest mode w in
          match r with
          | Err e => (Err e, w)
          | Ok tt =>
              let '(r, w) := mkdir p mode w in
              match r with
              | Ok tt => (Ok tt, w)
              | Err e => let '(d, w) := path_is_dir p w in (if d then Ok tt else Err e, w)
              end
          end
      | Err e => let '(d, w) := path_is_dir p w in (if d then Ok tt else Err e, w)
      end
  end.

(** [fs::read_dir]: the names present when the directory is opened, in some order; each
    further entry is a call that can fail. *)
Definition read_dir (p : Path) : io (list string) := fun w =>
  let t := tick w in
  call (fun fs =>
    (if is_directory_at fs (parts p) then Ok (listing t (children fs (parts p)))
     else Err NotFound, fs)) w.

Definition next_entry (name : string) : io string := call (fun fs => (Ok name, fs)).

End Calls.

(** ** Directories whose children only the store changes *)

(** Same names in the directory [d], bound to the same, unchanged inodes *)
Definition same_children (d : list string) (fs fs' : Fs) : Prop :=
  forall x, names fs' !! (d ++ [x]) = names fs !! (d ++ [x]) /\
    forall i, names fs !! (d ++ [x]) = Some i -> inodes fs' !! i = inodes fs !! i.

#[export] Instance same_children_preorder d : PreOrder (same_children d).
Proof.
  split.
  - by intros fs x.
  - intros fs1 fs2 fs3 H12 H23 x. destruct (H12 x) as [N1 I1], (H23 x) as [N2 I2]. split.
    + congruence.
    + intros i Hi. rewrite I2 by congruence. by apply I1.
Qed.

(** Interference leaves the children of [d] alone: the process owns the directory. *)
Definition private `{Environment} (d : list string) : Prop :=
  forall t fs, same_children d fs (interfere t fs).

(** A child and its inode *)
Definition entry (d : list string) (fs : Fs) (x : string) : option (InodeId * Inode) :=
  lookup_path fs (d ++ [x]).

Definition contents (d : list string) (fs : Fs) (x : string) : option (list Z) :=
  (fun '(_, n) => i_data n) <$> entry d fs x.

Lemma same_children_entry d fs fs' x : same_children d fs fs' -> entry d fs' x = entry d fs x.
Proof.
  intros Hs. destruct (Hs x) as [Hn Hi]. unfold entry, lookup_path. rewrite Hn.
  destruct (names fs !! _) as [i|]; [|done]. by rewrite Hi.
Qed.

Lemma same_children_contents d fs fs' x :
  same_children d fs fs' -> contents d fs' x = contents d fs x.
Proof. intros Hs. unfold contents. by rewrite (same_children_entry _ _ _ _ Hs). Qed.

Lemma map_fold_max {K A} `{Countable K} (f : K -> A -> Z) (m : gmap K A) k a :
  m !! k = Some a -> f k a <= map_fold (fun k a acc => Z.max (f k a) acc) 0 m.
Proof.
  revert k a. apply (map_fold_weak_ind (fun r m => forall k a, m !! k = Some a -> f k a <= r)).
  - intros k a. by rewrite lookup_empty.
  - intros k0 a0 m0 r Hnone IH k a. rewrite lookup_insert_Some.
    intros [[-> ->]|[_ Hk]]; [lia|]. apply IH in Hk. lia.
Qed.

Lemma fresh_inode_inodes fs i n : inodes fs !! i = Some n -> i <> fresh_inode fs.
Proof.
  intros Hi ->. pose proof (map_fold_max (fun i _ => snd i) _ _ _ Hi) as H.
  unfold fresh_inode in H. simpl in H. lia.
Qed.

Lemma fresh_inode_names fs p i : names fs !! p = Some i -> i <> fresh_inode fs.
Proof.
  intros Hi ->. pose proof (map_fold_max (fun _ i => snd i) _ _ _ Hi) as H.
  unfold fresh_inode in H. simpl in H. lia.
Qed.

(** Is [p] the path of a child of [d]? *)
Definition child_of (d p : list string) : Prop := exists x, p = d ++ [x].

Lemma child_inj (d : list string) x y : d ++ [x] = d ++ [y] -> x = y.
Proof. intros H%app_inv_head. by simplify_eq. Qed.

Lemma child_name_app d x : child_name d (d ++ [x]) = Some x.
Proof. induction d as [|y d IH]; simpl; [done|]. by rewrite str_eqb_refl. Qed.

Lemma child_name_Some d p x : child_name d p = Some x <-> p = d ++ [x].
Proof.
  split; [|intros ->; apply child_name_app]. revert p.
  induction d as [|y d IH]; intros [|z p]; simpl; try done.
  - destruct p; naive_solver.
  - destruct (str_eqb y z) eqn:E; [|done]. apply str_eqb_eq in E as ->.
    intros ->%IH. done.
Qed.

Lemma children_spec fs d x : In x (children fs d) <-> is_Some (names fs !! (d ++ [x])).
Proof.
  unfold children. rewrite <- list_elem_of_In, list_elem_of_omap. split.
  - intros ([p i] & Hin & Hc). apply child_name_Some in Hc as ->.
    apply elem_of_map_to_list in Hin. eauto.
  - intros [i Hi]. exists (d ++ [x], i). split; [by apply elem_of_map_to_list|].
    apply child_name_app.
Qed.

(** ** What the calls do to the children of a directory *)

Lemma same_children_insert d p i n fs :
  ~ child_of d p -> i = fresh_inode fs ->
  same_children d fs
    {| names := <[p := i]> (names fs); inodes := <[i := n]> (inodes fs); now := now fs |}.
Proof.
  intros Hp -> x. simpl. split.
  - rewrite lookup_insert_ne; [done|]. intros ->. by apply Hp; exists x.
  - intros j Hj. apply fresh_inode_names in Hj. by rewrite lookup_insert_ne.
Qed.

Lemma act_mkdir_children d p mode fs :
  (length p <= length d)%nat -> same_children d fs (snd (act_mkdir p mode fs)).
Proof.
  intros Hlen. assert (Hp : ~ child_of d p).
  { intros [x ->]. rewrite length_app in Hlen. simpl in Hlen. lia. }
  unfold act_mkdir. repeat case_match; simpl; try reflexivity.
  by apply same_children_insert.
Qed.

(** The children of [d] other than [x] are as before. *)
Definition same_but (d : list string) (x : string) (fs fs' : Fs) : Prop :=
  forall y, y <> x ->
    names fs' !! (d ++ [y]) = names fs !! (d ++ [y]) /\
    forall i, names fs !! (d ++ [y]) = Some i -> inodes fs' !! i = inodes fs !! i.

(** A file staged in [d] under the name [tmp]: its inode is its own. *)
Record staged (d : list string) (tmp : string) (i : InodeId) (n : Inode) (fs0 fs : Fs) : Prop := {
  st_others : same_but d tmp fs0 fs;
  st_own : forall y, y <> tmp -> names fs0 !! (d ++ [y]) <> Some i;
  st_name : names fs !! (d ++ [tmp]) = Some i;
  st_inode : inodes fs !! i = Some n
}.

(** The staged inode is now bound to [dst]; the data of every other child is as before. *)
Record published (d : list string) (tmp dst : string) (i : InodeId) (n : Inode) (fs0 fs : Fs)
  : Prop := {
  pub_entry : entry d fs dst = Some (i, n);
  pub_others : forall y, y <> dst -> y <> tmp -> contents d fs y = contents d fs0 y;
  pub_names : forall y, y <> dst -> y <> tmp ->
    names fs !! (d ++ [y]) = names fs0 !! (d ++ [y])
}.

Lemma same_but_contents d x y fs fs' :
  same_but d x fs fs' -> y <> x -> contents d fs' y = contents d fs y.
Proof.
  intros Hs Hy. destruct (Hs y Hy) as [Hn Hi]. unfold contents, entry, lookup_path. rewrite Hn.
  destruct (names fs !! _) as [i|]; [|done]. by rewrite Hi.
Qed.

Lemma same_but_children d x fs0 fs fs' :
  same_but d x fs0 fs -> same_children d fs fs' -> same_but d x fs0 fs'.
Proof.
  intros Hb Hs y Hy. destruct (Hb y Hy) as [Hn Hi], (Hs y) as [Hn' Hi']. split; [congruence|].
  intros i Ei. rewrite Hi' by congruence. by apply Hi.
Qed.

Lemma same_children_but d x fs fs' : same_children d fs fs' -> same_but d x fs fs'.
Proof. intros Hs y _. apply Hs. Qed.

Lemma staged_children d tmp i n fs0 fs fs' :
  staged d tmp i n fs0 fs -> same_children d fs fs' -> staged d tmp i n fs0 fs'.
Proof.
  intros [Ho Hw Hn Hi] Hs. destruct (Hs tmp) as [Hn' Hi']. split; [|done|congruence|].
  - by eapply same_but_children.
  - by rewrite Hi'.
Qed.

Lemma published_children d tmp dst i n fs0 fs fs' :
  published d tmp dst i n fs0 fs -> same_children d fs fs' -> published d tmp dst i n fs0 fs'.
Proof.
  intros [He Ho Hn] Hs. split.
  - by rewrite (same_children_entry _ _ _ _ Hs).
  - intros y Hy Hy'. rewrite (same_children_contents _ _ _ _ Hs). by apply Ho.
  - intros y Hy Hy'. destruct (Hs y) as [-> _]. by apply Hn.
Qed.

Lemma act_create_staged d tmp mode fs i fs' :
  act_create_new (d ++ [tmp]) mode fs = (Ok i, fs') ->
  staged d tmp i {| i_kind := Regular; i_mode := mode; i_nlink := 1; i_data := [];
                    i_modified := now fs |} fs fs'.
Proof.
  unfold act_create_new, bind_new. repeat case_match; intros [= <- <-].
  split; simpl.
  - intros y Hy. simpl. split.
    + rewrite lookup_insert_ne; [done|]. by intros ->%child_inj.
    + intros j Hj%fresh_inode_names. by rewrite lookup_insert_ne.
  - intros y _ Hj%fresh_inode_names. done.
  - by rewrite lookup_insert_eq.
  - by rewrite lookup_insert_eq.
Qed.

Lemma act_create_error d tmp mode fs e fs' :
  act_create_new (d ++ [tmp]) mode fs = (Err e, fs') -> fs' = fs.
Proof. unfold act_create_new, bind_new. repeat case_match; naive_solver. Qed.

Lemma set_inode_staged d tmp i n f fs0 fs :
  staged d tmp i n fs0 fs -> staged d tmp i (f n) fs0 (set_inode i f fs).
Proof.
  intros [Ho Hw Hn Hi]. split; simpl; [|done|done|].
  - intros y Hy. destruct (Ho y Hy) as [Hny Hiy]. split; [done|]. intros j Hj. simpl.
    rewrite lookup_alter_ne; [by apply Hiy|]. intros ->. by eapply Hw.
  - by rewrite lookup_alter_eq, Hi.
Qed.

Lemma act_remove_staged d tmp i n fs0 fs :
  staged d tmp i n fs0 fs -> same_but d tmp fs0 (snd (act_remove_file (d ++ [tmp]) fs)).
Proof.
  intros Hst. pose proof (set_inode_staged _ _ _ _ unlinked _ _ Hst) as [Ho _ _ _].
  destruct Hst as [_ _ Hn Hi]. unfold act_remove_file, lookup_path. rewrite Hn, Hi.
  intros y Hy. destruct (Ho y Hy) as [Hny Hiy]. simpl in *. split; [|done].
  rewrite lookup_delete_ne; [done|]. by intros ->%child_inj.
Qed.

Lemma act_rename_staged d tmp dst i n fs0 fs :
  staged d tmp i n fs0 fs -> tmp <> dst ->
  act_rename (d ++ [tmp]) (d ++ [dst]) fs = (Ok tt, snd (act_rename (d ++ [tmp]) (d ++ [dst]) fs)) /\
  published d tmp dst i n fs0 (snd (act_rename (d ++ [tmp]) (d ++ [dst]) fs)).
Proof.
  intros [Ho Hw Hn Hi] Hne. unfold act_rename, lookup_path. rewrite Hn, Hi. simpl.
  split; [done|]. destruct (Ho dst (not_eq_sym Hne)) as [Hdn Hdi]. split; simpl.
  - unfold entry, lookup_path. simpl. rewrite lookup_insert_eq.
    destruct (names fs !! (d ++ [dst])) as [j|] eqn:Ej; simpl; [|by rewrite Hi].
    rewrite lookup_alter_ne, Hi; [done|]. intros ->. eapply Hw; [|by rewrite <- Hdn]. done.
  - intros y Hy Hyt. destruct (Ho y Hyt) as [Hny Hiy].
    unfold contents, entry, lookup_path. simpl.
    rewrite lookup_insert_ne by (intros E%child_inj; congruence).
    assert (Hd : forall m : gmap (list string) InodeId, delete (d ++ [tmp]) m !! (d ++ [y]) = m !! (d ++ [y]))
      by (intros m; apply lookup_delete_ne; intros E%child_inj; congruence).
    destruct (names fs !! (d ++ [dst])) as [j|] eqn:Ej; simpl; rewrite Hd, Hny;
      (destruct (names fs0 !! (d ++ [y])) as [k|] eqn:Ek; [|done]).
    + destruct (decide (k = j)) as [->|Hkj].
      * rewrite lookup_alter_eq, Hiy by done. by destruct (inodes fs0 !! j).
      * by rewrite lookup_alter_ne, Hiy.
    + by rewrite Hiy.
  - intros y Hy Hyt. destruct (Ho y Hyt) as [Hny _].
    rewrite lookup_insert_ne by (intros E%child_inj; congruence).
    rewrite lookup_delete_ne by (intros E%child_inj; congruence).
    by destruct (names fs !! (d ++ [dst])).
Qed.

(** ** Calls and relations that interference respects *)

(** A call relates the file systems before and after it by [R]. *)
Definition io_quiet (R : relation Fs) {A} (c : io A) : Prop :=
  forall w, R (disk w) (disk (snd (c w))).

Section Quiet.
Context `{Environment} (R : relation Fs) `{!PreOrder R} (Hpriv : forall t fs, R fs (interfere t fs)).

Lemma call_quiet {A} (act : Fs -> result ErrorKind A * Fs) :
  (forall fs, R fs (snd (act fs))) -> io_quiet R (call act).
Proof.
  intros Hact w. unfold call. destruct (fault (tick w)) as [k|]; simpl; [apply Hpriv|].
  destruct (act _) as [r fs'] eqn:E. simpl. etrans; [apply Hpriv|].
  specialize (Hact (interfere (tick w) (disk w))). by rewrite E in Hact.
Qed.

Lemma path_is_dir_quiet p w : R (disk w) (disk (snd (path_is_dir p w))).
Proof. apply Hpriv. Qed.

Lemma create_dir_all_quiet n rp mode :
  (forall p fs, (length p <= n)%nat -> R fs (snd (act_mkdir p mode fs))) ->
  (length rp <= n)%nat -> io_quiet R (create_dir_all rp mode).
Proof.
  intros Hact.
  assert (Hmk : forall p, (length p <= n)%nat -> io_quiet R (mkdir p mode)).
  { intros p Hp. apply call_quiet. intros fs. by apply Hact. }
  induction rp as [|x rp IH]; intros Hlen w.
  - simpl. destruct (mkdir [] mode w) as [r w1] eqn:E1.
    pose proof (Hmk [] ltac:(simpl; lia) w) as H1. rewrite E1 in H1. simpl in H1.
    destruct r as [[]|[| |]]; try done.
    all: pose proof (path_is_dir_quiet [] w1) as H2; destruct (path_is_dir [] w1); simpl in *;
      by etrans.
  - assert (Hp : (length (rev (x :: rp)) <= n)%nat) by (by rewrite length_rev).
    specialize (Hmk _ Hp). cbn [create_dir_all]. set (p := rev (x :: rp)) in *.
    destruct (mkdir p mode w) as [r w1] eqn:E1.
    pose proof (Hmk w) as H1. rewrite E1 in H1. simpl in H1.
    pose proof (fun w => path_is_dir_quiet p w) as Hd.
    destruct r as [[]|[| |]]; [done| | |].
    2,3: pose proof (Hd w1) as H2; destruct (path_is_dir p w1) as [b w2]; simpl in *; by etrans.
    pose proof (IH ltac:(simpl in Hlen; lia) w1) as H2.
    destruct (create_dir_all rp mode w1) as [[[]|e] w2]; simpl in H2; [|simpl; by etrans].
    pose proof (Hmk w2) as H3. destruct (mkdir p mode w2) as [[[]|e] w3]; simpl in H3.
    + simpl. etrans; [done|]. by etrans.
    + pose proof (Hd w3) as H4. destruct (path_is_dir p w3) as [b w4]; simpl in *.
      etrans; [done|]. etrans; [done|]. by etrans.
Qed.
End Quiet.
