(* ===== verification/Store.v ===== *)
(** * The operation store

    [BackendStore], [OperationView] and [read_stored] of [native/src/operation_store.rs]
    over the file system of [Filesystem]: the layout checks, the staged publication of a
    receipt, the compare-and-publish updates of the five receipt versions, and the
    inventory with the admission facts computed from it.

    The view of a store shares its [ReadNamespace]; both are parts of one state here, so
    that a change made through the store is seen by the view.  A mutex is never poisoned:
    no code that holds one panics. *)
From S2P Require Import Prelude Json Serde ReceiptFields Filesystem PhaseMachine.
From S2P Require OperationReceipt GenericReceipt RestoreReceipt ApplyReceipt CaptureReceipt.

(** ** State *)

(** [LayoutIdentity] is inlined; the paths are those of the store. *)
Record ReadNamespace := {
  poisoned : bool;
  id_root : option Metadata;
  id_directory : option Metadata
}.

Record BackendStore := {
  root : Path;
  directory : Path;
  endpoint_hash : string;
  root_identity : option Metadata;
  directory_identity : option Metadata;
  sequence : Z;
  read_namespace : ReadNamespace
}.

Record State := {
  world : World;
  backend : BackendStore
}.

Definition M (A : Type) : Type := State -> result StoreError A * State.

Definition ret {A} (a : A) : M A := fun s => (Ok a, s).
Definition fail {A} (e : StoreError) : M A := fun s => (Err e, s).
Definition bind {A B} (c : M A) (k : A -> M B) : M B := fun s =>
  match c s with
  | (Ok a, s) => k a s
  | (Err e, s) => (Err e, s)
  end.

Declare Scope store_scope.
Delimit Scope store_scope with store.
#[global] Open Scope store_scope.

Notation "'let*' x ':=' c 'in' k" := (bind c (fun x => k))
  (at level 10, x pattern, c at level 100, k at level 200) : store_scope.

Definition lift_result {A} (r : result StoreError A) : M A := fun s => (r, s).

(** A file-system call whose error the code looks at, and one whose error it maps. *)
Definition attempt {A} (c : io A) : M (result ErrorKind A) := fun s =>
  let '(r, w) := c (world s) in (Ok r, {| world := w; backend := backend s |}).

Definition lift {A} (f : ErrorKind -> StoreError) (c : io A) : M A :=
  let* r := attempt c in
  match r with
  | Ok a => ret a
  | Err e => fail (f e)
  end.

Definition unavailable (e : ErrorKind) : StoreError := Unavailable.
Definition uncertain (e : ErrorKind) : StoreError := DurabilityUncertain.

(** [Result::map_err] *)
Definition map_err {A} (f : StoreError -> StoreError) (c : M A) : M A := fun s =>
  match c s with
  | (Ok a, s) => (Ok a, s)
  | (Err e, s) => (Err (f e), s)
  end.

Definition gets {A} (f : BackendStore -> A) : M A := fun s => (Ok (f (backend s)), s).
Definition modify (f : BackendStore -> BackendStore) : M unit := fun s =>
  (Ok tt, {| world := world s; backend := f (backend s) |}).

Definition require (b : bool) (e : StoreError) : M unit := if b then ret tt else fail e.

(** ** Metadata checks *)

Definition writable_by_others (m : Metadata) : bool := negb (Z.land (m_mode m) 18 =? 0).

Definition validate_regular (m : Metadata) : M unit :=
  if negb (is_file m) || is_symlink m then fail UnsafePath
  else if negb (m_nlink m =? 1) || writable_by_others m then fail UnsafePath
  else ret tt.

Definition same_identity (a b : Metadata) : bool := bool_decide (m_id a = m_id b).

Section Operations.
Context `{Environment} `{SerdeJson} `{Sha256}.

Definition directory_metadata (p : Path) : M (option Metadata) :=
  let* r := attempt (symlink_metadata p) in
  match r with
  | Ok m =>
      if negb (is_dir m) || is_symlink m then fail UnsafePath
      else if writable_by_others m then fail UnsafePath
      else ret (Some m)
  | Err NotFound => ret None
  | Err _ => fail Unavailable
  end.

(** The loop of [validate_chain] after the root component; [current] is the prefix. *)
Fixpoint validate_components (current rest : list string) (missing missing_allowed : bool)
  : M unit :=
  match rest with
  | [] => ret tt
  | part :: rest =>
      if negb (is_normal part) then fail UnsafePath
      else
        let current := current ++ [part] in
        if missing then validate_components current rest true missing_allowed
        else
          let* r := attempt (symlink_metadata {| absolute := true; parts := current |}) in
          match r with
          | Ok m =>
              if is_dir m && negb (is_symlink m)
              then validate_components current rest false missing_allowed
              else fail UnsafePath
          | Err e =>
              if missing_allowed && bool_decide (e = NotFound)
              then validate_components current rest true missing_allowed
              else fail Unavailable
          end
  end.

Definition validate_chain (p : Path) (missing_allowed : bool) : M unit :=
  if negb (absolute p) then fail UnsafePath
  else
    let* r := attempt (symlink_metadata {| absolute := true; parts := [] |}) in
    match r with
    | Ok m =>
        if is_dir m && negb (is_symlink m)
        then validate_components [] (parts p) false missing_allowed
        else fail UnsafePath
    | Err e =>
        if missing_allowed && bool_decide (e = NotFound)
        then validate_components [] (parts p) true missing_allowed
        else fail Unavailable
    end.

(** An expected identity, where there is one, is still the current one. *)
Definition identity_kept (expected current : option Metadata) : bool :=
  is_none_or expected (fun e => is_some_and current (same_identity e)).

Definition check_layout (expected_root expected_directory : option Metadata) : M bool :=
  let* root := gets root in
  let* directory := gets directory in
  let* current_root := directory_metadata root in
  let* current := directory_metadata directory in
  let* _ := require (identity_kept expected_root current_root) UnsafePath in
  let* _ := require (identity_kept expected_directory current) UnsafePath in
  ret (negb (is_none current)).

(** [BackendStore::validate_layout] *)
Definition validate_layout : M bool :=
  let* directory := gets directory in
  let* _ := validate_chain directory true in
  let* r := gets root_identity in
  let* d := gets directory_identity in
  check_layout r d.

(** [OperationView::validate_layout] *)
Definition view_validate_layout : M bool :=
  let* directory := gets directory in
  let* _ := validate_chain directory true in
  let* ns := gets read_namespace in
  check_layout (id_root ns) (id_directory ns).

Definition set_identities (r d : option Metadata) (b : BackendStore) : BackendStore :=
  {| root := root b; directory := directory b; endpoint_hash := endpoint_hash b;
     root_identity := r; directory_identity := d; sequence := sequence b;
     read_namespace := {| poisoned := poisoned (read_namespace b); id_root := r;
                          id_directory := d |} |}.

Definition set_root_identity (r : option Metadata) (b : BackendStore) : BackendStore :=
  {| root := root b; directory := directory b; endpoint_hash := endpoint_hash b;
     root_identity := r; directory_identity := directory_identity b; sequence := sequence b;
     read_namespace := read_namespace b |}.

Definition ensure_layout : M unit :=
  let* _ := validate_layout in
  let* root := gets root in
  let* directory := gets directory in
  let* _ := lift unavailable (create_dir_all (rev (parts directory)) 448) in
  let* _ := validate_chain directory false in
  let* r := directory_metadata root in
  let* _ := modify (set_root_identity r) in
  let* d := directory_metadata directory in
  modify (set_identities r d).

(** ** Publication *)

Definition set_sequence (n : Z) (b : BackendStore) : BackendStore :=
  {| root := root b; directory := directory b; endpoint_hash := endpoint_hash b;
     root_identity := root_identity b; directory_identity := directory_identity b;
     sequence := n; read_namespace := read_namespace b |}.

Definition receipt_name (id : string) : string := id +:+ ".json".
Definition temporary_name (id : string) (n : Z) : string :=
  id +:+ "." +:+ pretty process_id +:+ "." +:+ pretty n +:+ ".tmp".

(** [Drop for StagedFile], for a file that was not published *)
Definition drop_staged (p : Path) (identity : Metadata) : M unit :=
  let* r := attempt (symlink_metadata p) in
  match r with
  | Ok current =>
      if same_identity identity current
      then let* _ := attempt (remove_file p) in ret tt
      else ret tt
  | Err _ => ret tt
  end.

(** [c], with the staged file dropped when it fails *)
Definition or_drop_staged {A} (p : Path) (identity : Metadata) (c : M A) : M A := fun s =>
  match c s with
  | (Ok a, s) => (Ok a, s)
  | (Err e, s) => (Err e, snd (drop_staged p identity s))
  end.

(** Sync one directory of the layout through a handle whose identity is checked. *)
Definition sync_directory (p : Path) (expected : option Metadata) : M unit :=
  let* handle := lift uncertain (open p) in
  let* opened := lift uncertain (fstat handle) in
  let* _ := require (is_some_and expected (fun e => same_identity e opened)) DurabilityUncertain in
  lift uncertain (sync_all handle).

(** What follows the rename: any failure is a loss of certainty, not of the file. *)
Definition confirm_publication : M unit :=
  let* _ := map_err (fun _ => DurabilityUncertain) validate_layout in
  let* b := gets id in
  let* _ := sync_directory (directory b) (directory_identity b) in
  let* _ := sync_directory (root b) (root_identity b) in
  let* _ := map_err (fun _ => DurabilityUncertain) validate_layout in
  ret tt.

(** May the destination be published to, given what it is now? *)
Definition check_destination (destination : Path) (replacing : bool) : M unit :=
  let* r := attempt (symlink_metadata destination) in
  match r with
  | Ok m =>
      let* _ := validate_regular m in
      require replacing Conflict
  | Err NotFound => require (negb replacing) MissingReceipt
  | Err _ => fail Unavailable
  end.

Definition next_sequence : M Z :=
  let* m := gets sequence in
  match checked_add m 1 with
  | Some n => let* _ := modify (set_sequence n) in ret n
  | None => fail IdentityExhausted
  end.

(** From the creation of the temporary file to the end of [persist_value] *)
Definition stage_and_publish (temporary destination : Path) (bytes : list Z) : M unit :=
  let* file := lift unavailable (create_new temporary 384) in
  let* identity := lift unavailable (fstat file) in
  let* _ := or_drop_staged temporary identity (
    let* _ := lift unavailable (write_all file bytes) in
    let* _ := lift unavailable (sync_all file) in
    let* _ := validate_layout in
    lift unavailable (rename temporary destination)) in
  confirm_publication.

Definition persist_value (id : string) (value : Value) (replacing : bool) : M unit :=
  let bytes := to_vec value in
  let* _ := require (Z.of_nat (length bytes) <=? MAX_RECEIPT_BYTES) ReceiptTooLarge in
  let* _ := ensure_layout in
  let* directory := gets directory in
  let destination := path_join directory (receipt_name id) in
  let* _ := check_destination destination replacing in
  let* n := next_sequence in
  stage_and_publish (path_join directory (temporary_name id n)) destination bytes.

(** ** Reading *)

Definition read_bytes (p : Path) : M (list Z) :=
  let* before := lift (fun e => if bool_decide (e = NotFound) then MissingReceipt else Unavailable)
                   (symlink_metadata p) in
  let* _ := validate_regular before in
  let* _ := require (m_len before <=? MAX_RECEIPT_BYTES) ReceiptTooLarge in
  let* file := lift unavailable (open p) in
  let* opened := lift unavailable (fstat file) in
  let* _ := validate_regular opened in
  let* _ := require (same_identity before opened) UnsafePath in
  let* bytes := lift unavailable (read_limited file (MAX_RECEIPT_BYTES + 1)) in
  let* _ := require (Z.of_nat (length bytes) <=? MAX_RECEIPT_BYTES) ReceiptTooLarge in
  let* after := lift unavailable (symlink_metadata p) in
  let* _ := validate_regular after in
  let* _ := require (same_identity opened after && (m_len opened =? m_len after)
                     && (m_modified opened =? m_modified after)) Conflict in
  ret bytes.

End Operations.
