(* ===== verification/Publication.v ===== *)
(** * Publication

    What the store does to its directory, under arbitrary call failures and arbitrary
    interference outside the directory: reading never changes a receipt, and publishing
    replaces exactly one file in one step or reports that it did not. *)
From S2P Require Import Prelude Json Serde ReceiptFields Filesystem Store.

(** ** Frames *)

(** The fields no operation changes, and the temporary-name counter that only grows *)
Record kept (b b' : BackendStore) : Prop := {
  kept_root : root b' = root b;
  kept_directory : directory b' = directory b;
  kept_endpoint : endpoint_hash b' = endpoint_hash b;
  kept_sequence : sequence b <= sequence b';
  kept_poisoned : poisoned (read_namespace b') = poisoned (read_namespace b)
}.

#[export] Instance kept_preorder : PreOrder kept.
Proof.
  split.
  - intros b. by split.
  - intros b1 b2 b3 [? ? ? ? ?] [? ? ? ? ?]. split; (congruence || lia).
Qed.

(** The errors an operation can return *)
Definition raises {A} (m : M A) (P : StoreError -> Prop) : Prop :=
  forall s e s', m s = (Err e, s') -> P e.

Definition certain (e : StoreError) : Prop := e <> DurabilityUncertain.
Definition uncertain_only (e : StoreError) : Prop := e = DurabilityUncertain.

Section Raises.
Context {P : StoreError -> Prop}.

Lemma raises_ret {A} (a : A) : raises (ret a) P.
Proof. by intros s e s'. Qed.

Lemma raises_fail {A} e : P e -> raises (A := A) (fail e) P.
Proof. by intros H s e' s' [= <- <-]. Qed.

Lemma raises_bind {A B} (c : M A) (k : A -> M B) :
  raises c P -> (forall a, raises (k a) P) -> raises (bind c k) P.
Proof.
  intros Hc Hk s e s'. unfold bind. destruct (c s) as [[a|e'] s1] eqn:E.
  - apply Hk.
  - intros [= <- <-]. by eapply Hc.
Qed.

Lemma raises_attempt {A} (c : io A) : raises (attempt c) P.
Proof. intros s e s'. unfold attempt. by destruct (c (world s)). Qed.

Lemma raises_gets {A} (f : BackendStore -> A) : raises (gets f) P.
Proof. by intros s e s'. Qed.

Lemma raises_modify f : raises (modify f) P.
Proof. by intros s e s'. Qed.

Lemma raises_require b e : P e -> raises (require b e) P.
Proof. intros H. unfold require. destruct b; [apply raises_ret|by apply raises_fail]. Qed.

Lemma raises_lift {A} f (c : io A) : (forall e, P (f e)) -> raises (lift f c) P.
Proof.
  intros Hf. apply raises_bind; [apply raises_attempt|]. intros [a|e].
  - apply raises_ret.
  - by apply raises_fail.
Qed.

Lemma raises_lift_result {A} (r : result StoreError A) :
  (forall e, r = Err e -> P e) -> raises (lift_result r) P.
Proof. intros Hr s e s' [= -> ->]. by apply Hr. Qed.

Lemma raises_map_err {A} f (c : M A) : (forall e, P (f e)) -> raises (map_err f c) P.
Proof.
  intros Hf s e s'. unfold map_err. destruct (c s) as [[a|e'] s1]; intros [= <- <-]. by apply Hf.
Qed.
End Raises.

#[export] Hint Resolve raises_ret raises_fail raises_attempt raises_gets raises_modify
  raises_require raises_lift raises_map_err : obs.

(** Break an operation into its binds, cases and primitive steps. *)
Ltac raises_step :=
  repeat first
    [ progress (intros; eauto with obs)
    | match goal with
      | |- raises (let* _ := _ in _) _ => apply raises_bind
      | |- raises (match ?x with _ => _ end) _ => destruct x
      | |- raises (if ?x then _ else _) _ => destruct x
      end ].

(** An operation that keeps the store's fields and relates the file systems by [R] *)
Section Framed.
Context (d : list string) (R : relation Fs) `{!PreOrder R}.

Definition here (s : State) : Prop := parts (directory (backend s)) = d.

Record frame_by (s s' : State) : Prop := {
  frame_kept : kept (backend s) (backend s');
  frame_children : R (disk (world s)) (disk (world s'))
}.

#[export] Instance frame_preorder : PreOrder frame_by.
Proof.
  split.
  - intros s. split; reflexivity.
  - intros s1 s2 s3 [? ?] [? ?]. split; by etrans.
Qed.

Definition framed_by {A} (m : M A) : Prop := forall s, here s -> frame_by s (snd (m s)).

Lemma kept_here s s' : kept (backend s) (backend s') -> here s -> here s'.
Proof. unfold here. by intros [_ -> _ _ _]. Qed.

Lemma frame_here s s' : frame_by s s' -> here s -> here s'.
Proof. intros [Hk _]. by apply kept_here. Qed.

Lemma framed_ret {A} (a : A) : framed_by (ret a).
Proof. intros s _. reflexivity. Qed.

Lemma framed_fail {A} e : framed_by (A := A) (fail e).
Proof. intros s _. reflexivity. Qed.

Lemma framed_bind {A B} (c : M A) (k : A -> M B) :
  framed_by c -> (forall a, framed_by (k a)) -> framed_by (bind c k).
Proof.
  intros Hc Hk s Hs. specialize (Hc s Hs). unfold bind.
  destruct (c s) as [[a|e] s1]; simpl in *; [|done].
  etrans; [exact Hc|]. apply Hk. by eapply frame_here.
Qed.

Lemma framed_attempt {A} (c : io A) : io_quiet R c -> framed_by (attempt c).
Proof.
  intros Hc s _. specialize (Hc (world s)). unfold attempt.
  destruct (c (world s)) as [r w]. split; simpl in *; [reflexivity|done].
Qed.

Lemma framed_gets {A} (f : BackendStore -> A) : framed_by (gets f).
Proof. intros s _. reflexivity. Qed.

Lemma framed_modify f : (forall b, kept b (f b)) -> framed_by (modify f).
Proof. intros Hf s _. split; simpl; [apply Hf|reflexivity]. Qed.

Lemma framed_require b e : framed_by (require b e).
Proof. destruct b; [apply framed_ret|apply framed_fail]. Qed.

Lemma framed_lift_result {A} (r : result StoreError A) : framed_by (lift_result r).
Proof. intros s _. reflexivity. Qed.

Lemma framed_lift {A} f (c : io A) : io_quiet R c -> framed_by (lift f c).
Proof.
  intros Hc. apply framed_bind; [by apply framed_attempt|].
  intros [a|e]; [apply framed_ret|apply framed_fail].
Qed.

Lemma framed_map_err {A} f (c : M A) : framed_by c -> framed_by (map_err f c).
Proof.
  intros Hc s Hs. specialize (Hc s Hs). unfold map_err. by destruct (c s) as [[a|e] s1].
Qed.
End Framed.

(** The case of most operations: the children of [d] are left alone. *)
Notation frame d := (frame_by (same_children d)).
Notation framed d := (framed_by d (same_children d)).

#[export] Hint Resolve framed_ret framed_fail framed_attempt framed_gets framed_require
  framed_lift_result framed_lift framed_map_err : obs.

#[export] Hint Extern 0 (PreOrder _) => typeclasses eauto : obs.

Ltac framed_step :=
  repeat first
    [ progress (intros; eauto with obs)
    | match goal with
      | |- framed_by _ _ (let* _ := _ in _) => apply framed_bind
      | |- framed_by _ _ (match ?x with _ => _ end) => destruct x
      | |- framed_by _ _ (if ?x then _ else _) => destruct x
      end ].

(** ** Errors of the layout checks *)

(** A set of errors that leaves out at most a loss of certainty and a full inventory *)
Class Tolerates (P : StoreError -> Prop) : Prop :=
  tolerated : forall e, e <> DurabilityUncertain -> e <> InventoryLimit -> P e.

Definition no_limit (e : StoreError) : Prop := e <> InventoryLimit.

#[export] Instance certain_tolerates : Tolerates certain.
Proof. by intros e. Qed.
#[export] Instance no_limit_tolerates : Tolerates no_limit.
Proof. by intros e. Qed.

Lemma certain_unavailable e : certain (unavailable e).
Proof. done. Qed.
Lemma uncertain_uncertain e : uncertain_only (uncertain e).
Proof. done. Qed.
#[export] Hint Resolve uncertain_uncertain : obs.
#[export] Hint Extern 1 (uncertain_only _) => reflexivity : obs.
#[export] Hint Extern 1 (certain _) => discriminate : obs.
#[export] Hint Extern 1 (no_limit _) => discriminate : obs.
#[export] Hint Extern 2 => (apply tolerated; discriminate) : obs.
#[export] Hint Extern 0 (Tolerates _) => typeclasses eauto : obs.

Section Layout.
Context `{Environment} {P : StoreError -> Prop} `{!Tolerates P}.

Lemma validate_regular_raises m : raises (validate_regular m) P.
Proof. unfold validate_regular. raises_step. Qed.

Lemma directory_metadata_raises p : raises (directory_metadata p) P.
Proof. unfold directory_metadata. raises_step. Qed.

Lemma validate_components_raises rest : forall current missing allowed,
  raises (validate_components current rest missing allowed) P.
Proof. induction rest; simpl; raises_step. Qed.

Lemma validate_chain_raises p allowed : raises (validate_chain p allowed) P.
Proof.
  pose proof validate_components_raises. unfold validate_chain. raises_step.
Qed.
#[local] Hint Resolve validate_regular_raises directory_metadata_raises validate_chain_raises : obs.

Lemma check_layout_raises r d : raises (check_layout r d) P.
Proof. unfold check_layout. raises_step. Qed.
#[local] Hint Resolve check_layout_raises : obs.

Lemma validate_layout_raises : raises validate_layout P.
Proof. unfold validate_layout. raises_step. Qed.

Lemma view_validate_layout_raises : raises view_validate_layout P.
Proof. unfold view_validate_layout. raises_step. Qed.
#[local] Hint Resolve validate_layout_raises : obs.

Lemma ensure_layout_raises : raises ensure_layout P.
Proof. unfold ensure_layout. raises_step. Qed.

Lemma check_destination_raises p replacing : raises (check_destination p replacing) P.
Proof. unfold check_destination. raises_step. Qed.

Lemma next_sequence_raises : raises next_sequence P.
Proof. unfold next_sequence. raises_step. Qed.

Lemma confirm_publication_raises : raises confirm_publication uncertain_only.
Proof. unfold confirm_publication, sync_directory. raises_step. Qed.

Lemma read_bytes_raises p : raises (read_bytes p) P.
Proof.
  unfold read_bytes. raises_step. apply raises_lift. intros e. case_match; by apply tolerated.
Qed.

End Layout.

#[export] Hint Resolve validate_regular_raises directory_metadata_raises validate_chain_raises
  check_layout_raises validate_layout_raises view_validate_layout_raises ensure_layout_raises
  check_destination_raises next_sequence_raises confirm_publication_raises read_bytes_raises : obs.

(** ** Frames of the layout checks, for a relation that interference respects *)

Section FramedLayout.
Context `{Environment} (d : list string) (R : relation Fs) `{!PreOrder R}.
Context (Hpriv : forall t fs, R fs (interfere t fs)).

Lemma symlink_metadata_quiet p : io_quiet R (symlink_metadata p).
Proof. by apply call_quiet. Qed.
Lemma open_quiet p : io_quiet R (open p).
Proof. by apply call_quiet. Qed.
Lemma fstat_quiet i : io_quiet R (fstat i).
Proof. by apply call_quiet. Qed.
Lemma sync_all_quiet i : io_quiet R (sync_all i).
Proof. by apply call_quiet. Qed.
Lemma read_limited_quiet i n : io_quiet R (read_limited i n).
Proof. by apply call_quiet. Qed.
Lemma read_dir_quiet p : io_quiet R (read_dir p).
Proof. intros w. apply (call_quiet R Hpriv). reflexivity. Qed.
Lemma next_entry_quiet x : io_quiet R (next_entry x).
Proof. by apply call_quiet. Qed.
#[local] Hint Resolve symlink_metadata_quiet open_quiet fstat_quiet sync_all_quiet
  read_limited_quiet read_dir_quiet next_entry_quiet : obs.

Lemma validate_regular_framed m : framed_by d R (validate_regular m).
Proof. unfold validate_regular. framed_step. Qed.

Lemma directory_metadata_framed p : framed_by d R (directory_metadata p).
Proof. unfold directory_metadata. framed_step. Qed.

Lemma validate_components_framed rest : forall current missing allowed,
  framed_by d R (validate_components current rest missing allowed).
Proof. induction rest; simpl; framed_step. Qed.

Lemma validate_chain_framed p allowed : framed_by d R (validate_chain p allowed).
Proof. pose proof validate_components_framed. unfold validate_chain. framed_step. Qed.
#[local] Hint Resolve validate_regular_framed directory_metadata_framed validate_chain_framed : obs.

Lemma check_layout_framed r i : framed_by d R (check_layout r i).
Proof. unfold check_layout. framed_step. Qed.
#[local] Hint Resolve check_layout_framed : obs.

Lemma validate_layout_framed : framed_by d R validate_layout.
Proof. unfold validate_layout. framed_step. Qed.

Lemma view_validate_layout_framed : framed_by d R view_validate_layout.
Proof. unfold view_validate_layout. framed_step. Qed.
#[local] Hint Resolve validate_layout_framed : obs.

Lemma set_identities_kept r i b : kept b (set_identities r i b).
Proof. by split. Qed.
Lemma set_root_identity_kept r b : kept b (set_root_identity r b).
Proof. by split. Qed.
#[local] Hint Resolve framed_modify set_identities_kept set_root_identity_kept : obs.

Lemma framed_gets_bind {A B} (f : BackendStore -> A) (k : A -> M B) :
  (forall s, here d s -> framed_by d R (k (f (backend s)))) -> framed_by d R (bind (gets f) k).
Proof. intros Hk s Hs. unfold bind, gets. simpl. by apply Hk. Qed.

Lemma ensure_layout_framed :
  (forall p mode fs, (length p <= length d)%nat -> R fs (snd (act_mkdir p mode fs))) ->
  framed_by d R ensure_layout.
Proof.
  intros Hmk. unfold ensure_layout. apply (framed_bind d R); [auto with obs|]. intros _.
  apply (framed_bind d R); [auto with obs|]. intros r.
  apply framed_gets_bind. intros s Hs.
  apply (framed_bind d R); [|framed_step].
  apply framed_lift, (create_dir_all_quiet R Hpriv (length d)); auto.
  by rewrite length_rev, Hs.
Qed.

Lemma check_destination_framed p replacing : framed_by d R (check_destination p replacing).
Proof. unfold check_destination. framed_step. Qed.

Lemma next_sequence_framed : framed_by d R next_sequence.
Proof.
  intros s _. unfold next_sequence, bind, gets. simpl.
  destruct (checked_add (sequence (backend s)) 1) as [n|] eqn:E; simpl; [|reflexivity].
  apply checked_add_Some in E as [-> _]. split; simpl; [|reflexivity]. split; simpl; (done || lia).
Qed.

Lemma confirm_publication_framed : framed_by d R confirm_publication.
Proof. unfold confirm_publication, sync_directory. framed_step. Qed.

Lemma read_bytes_framed p : framed_by d R (read_bytes p).
Proof. unfold read_bytes. framed_step. Qed.

End FramedLayout.

#[export] Hint Resolve symlink_metadata_quiet open_quiet fstat_quiet sync_all_quiet
  read_limited_quiet read_dir_quiet next_entry_quiet
  validate_regular_framed directory_metadata_framed validate_chain_framed
  validate_layout_framed view_validate_layout_framed ensure_layout_framed
  check_destination_framed next_sequence_framed confirm_publication_framed
  read_bytes_framed : obs.

(** ** Publishing one receipt *)

Section Persist.
Context `{Environment} `{SerdeJson} (d : list string) (Hpriv : private d).

(** What a single look at a child tells *)
Lemma symlink_metadata_child p x w r w' :
  parts p = d ++ [x] -> symlink_metadata p w = (r, w') ->
  same_children d (disk w) (disk w') /\
  match r with
  | Ok m => exists i n, entry d (disk w) x = Some (i, n) /\ m = metadata_of i n
  | Err NotFound => entry d (disk w) x = None
  | Err _ => True
  end.
Proof.
  intros Hp Hc. split.
  { pose proof (symlink_metadata_quiet (same_children d) Hpriv p w) as Hq. by rewrite Hc in Hq. }
  revert Hc. unfold symlink_metadata, call. destruct (fault (tick w)); intros [= <- <-]; [done|].
  rewrite Hp. fold (entry d (interfere (tick w) (disk w)) x).
  rewrite (same_children_entry d _ _ x (Hpriv _ _)).
  destruct (entry _ _ _) as [[i n]|]; [|done]. by exists i, n.
Qed.

Lemma check_destination_Ok p x replacing s s' :
  parts p = d ++ [x] -> check_destination p replacing s = (Ok tt, s') ->
  is_none (entry d (disk (world s)) x) = negb replacing.
Proof.
  intros Hp. unfold check_destination, bind, attempt.
  destruct (symlink_metadata p (world s)) as [r w1] eqn:E.
  apply (symlink_metadata_child _ _ _ _ _ Hp) in E as [_ Hr].
  destruct r as [m|[| |]]; try done.
  - destruct Hr as (i & n & -> & _). destruct (validate_regular m _) as [[[]|] ?]; [|done].
    unfold require. by destruct replacing.
  - rewrite Hr. unfold require. by destruct replacing.
Qed.

(** The state of the directory once the file is staged, and once it is published *)
Lemma write_all_staged tmp i n fs0 w bytes r w' :
  staged d tmp i n fs0 (disk w) -> write_all i bytes w = (r, w') ->
  exists n', staged d tmp i n' fs0 (disk w') /\
    (r = Ok tt -> exists t, n' = with_data bytes t n).
Proof.
  intros Hst. apply (staged_children _ _ _ _ _ _ (interfere (tick w) (disk w))) in Hst; [|apply Hpriv].
  unfold write_all, act_write. destruct (fault (tick w)) as [k|]; intros [= <- <-]; simpl.
  - eexists. split; [by apply set_inode_staged|done].
  - eexists. split; [by apply set_inode_staged|]. eauto.
Qed.

Lemma rename_staged p q tmp dst i n fs0 w r w' :
  parts p = d ++ [tmp] -> parts q = d ++ [dst] -> tmp <> dst ->
  staged d tmp i n fs0 (disk w) -> rename p q w = (r, w') ->
  match r with
  | Ok _ => published d tmp dst i n fs0 (disk w')
  | Err _ => staged d tmp i n fs0 (disk w')
  end.
Proof.
  intros Hp Hq Hne Hst.
  apply (staged_children _ _ _ _ _ _ (interfere (tick w) (disk w))) in Hst; [|apply Hpriv].
  unfold rename, call. rewrite Hp, Hq. destruct (fault (tick w)); [by intros [= <- <-]|].
  destruct (act_rename_staged _ _ dst _ _ _ _ Hst Hne) as [E Hpub].
  destruct (act_rename _ _ _) as [r' fs'] eqn:Er. injection E as ->.
  by intros [= <- <-].
Qed.

Lemma drop_staged_same p tmp identity i n fs0 s :
  parts p = d ++ [tmp] -> staged d tmp i n fs0 (disk (world s)) ->
  kept (backend s) (backend (snd (drop_staged p identity s))) /\
  same_but d tmp fs0 (disk (world (snd (drop_staged p identity s)))).
Proof.
  intros Hp Hst. unfold drop_staged, bind, attempt.
  destruct (symlink_metadata p (world s)) as [r w1] eqn:E.
  apply (symlink_metadata_child _ _ _ _ _ Hp) in E as [Hs _].
  apply (staged_children _ _ _ _ _ _ _ Hst) in Hs.
  destruct r as [m|e]; simpl; [|by destruct Hs].
  destruct (same_identity identity m); simpl; [|by destruct Hs].
  destruct (remove_file p w1) as [r2 w2] eqn:E2. simpl. split; [reflexivity|].
  revert E2. unfold remove_file, call. rewrite Hp.
  apply (staged_children _ _ _ _ _ _ (interfere (tick w1) (disk w1))) in Hs; [|apply Hpriv].
  destruct (fault (tick w1)); [intros [= <- <-]; by destruct Hs|].
  pose proof (act_remove_staged _ _ _ _ _ _ Hs) as Hr.
  destruct (act_remove_file _ _) as [r3 fs3]. by intros [= <- <-].
Qed.

Definition is_json (y : string) : Prop := ends_with ".json" y = true.

Lemma receipt_name_json id : is_json (receipt_name id).
Proof. apply ends_with_true. by exists id. Qed.

Lemma temporary_not_json id n : ~ is_json (temporary_name id n).
Proof.
  intros [a Ha]%ends_with_true. unfold temporary_name in Ha. apply (f_equal bytes_of) in Ha.
  apply (f_equal last) in Ha. by rewrite !bytes_of_app, !last_app in Ha.
Qed.

(** The receipts of [d] are as before. *)
Definition untouched (fs fs' : Fs) : Prop :=
  forall y, is_json y ->
    contents d fs' y = contents d fs y /\ names fs' !! (d ++ [y]) = names fs !! (d ++ [y]).

(** The receipt file [x] is a fresh private file that holds [bytes], every other receipt
    is as before. *)
Record wrote (x : string) (bytes : list Z) (fs fs' : Fs) : Prop := {
  wrote_entry : exists i t, entry d fs' x =
    Some (i, {| i_kind := Regular; i_mode := 384; i_nlink := 1; i_data := bytes; i_modified := t |});
  wrote_others : forall y, is_json y -> y <> x ->
    contents d fs' y = contents d fs y /\ names fs' !! (d ++ [y]) = names fs !! (d ++ [y])
}.

Lemma same_children_untouched fs fs' : same_children d fs fs' -> untouched fs fs'.
Proof.
  intros Hs y _. split; [by apply same_children_contents|]. apply Hs.
Qed.

Lemma same_but_untouched tmp fs0 fs fs' :
  same_children d fs0 fs -> same_but d tmp fs fs' -> ~ is_json tmp -> untouched fs0 fs'.
Proof.
  intros Hs Hb Ht y Hy. assert (y <> tmp) by (by intros ->). split.
  - rewrite (same_but_contents _ _ _ _ _ Hb) by done. by apply same_children_contents.
  - destruct (Hb y) as [-> _]; [done|]. apply Hs.
Qed.

Lemma published_wrote tmp x i bytes t fs0 fs fs' :
  same_children d fs0 fs -> ~ is_json tmp ->
  published d tmp x i {| i_kind := Regular; i_mode := 384; i_nlink := 1; i_data := bytes;
                         i_modified := t |} fs fs' ->
  wrote x bytes fs0 fs'.
Proof.
  intros Hs Ht [He Ho Hn]. split; [eauto|]. intros y Hy Hyx.
  assert (y <> tmp) by (by intros ->). split.
  - rewrite Ho by done. by apply same_children_contents.
  - rewrite Hn by done. apply Hs.
Qed.

Lemma lift_run {A} f (c : io A) s :
  lift f c s =
  let '(r, w) := c (world s) in
  (match r with Ok a => Ok a | Err e => Err (f e) end, {| world := w; backend := backend s |}).
Proof. unfold lift, bind, attempt. by destruct (c (world s)) as [[a|e] w]. Qed.

(** Staging and renaming: either the file is published, or the directory is left with at
    most the temporary file in it. *)
Lemma stage_and_rename tmp p q x file identity t0 bytes fs0 s r s' :
  here d s -> parts p = d ++ [tmp] -> parts q = d ++ [x] -> tmp <> x ->
  staged d tmp file {| i_kind := Regular; i_mode := 384; i_nlink := 1; i_data := [];
                       i_modified := t0 |} fs0 (disk (world s)) ->
  or_drop_staged p identity (
    let* _ := lift unavailable (write_all file bytes) in
    let* _ := lift unavailable (sync_all file) in
    let* _ := validate_layout in
    lift unavailable (rename p q)) s = (r, s') ->
  kept (backend s) (backend s') /\
  match r with
  | Ok _ => exists t, published d tmp x file {| i_kind := Regular; i_mode := 384; i_nlink := 1;
                        i_data := bytes; i_modified := t |} fs0 (disk (world s'))
  | Err e => certain e /\ same_but d tmp fs0 (disk (world s'))
  end.
Proof.
  intros Hh Hp Hq Hne Hst.
  assert (Hdrop : forall s1 e n, kept (backend s) (backend s1) -> certain e ->
            staged d tmp file n fs0 (disk (world s1)) ->
            (@Err StoreError unit e, snd (drop_staged p identity s1)) = (r, s') ->
            kept (backend s) (backend s') /\
            match r with
            | Ok _ => exists t, published d tmp x file {| i_kind := Regular; i_mode := 384;
                i_nlink := 1; i_data := bytes; i_modified := t |} fs0 (disk (world s'))
            | Err e => certain e /\ same_but d tmp fs0 (disk (world s'))
            end).
  { intros s1 e n Hk He Hs1 [= <- <-].
    destruct (drop_staged_same p tmp identity file n fs0 s1 Hp Hs1) as [Hk' Hb].
    split; [by etrans|done]. }
  unfold or_drop_staged, bind. rewrite lift_run.
  destruct (write_all file bytes (world s)) as [r1 w1] eqn:E1.
  apply (write_all_staged _ _ _ _ _ _ _ _ Hst) in E1 as (n1 & Hs1 & Hn1).
  set (s1 := {| world := w1; backend := backend s |}) in *.
  destruct r1 as [[]|e1]; [|by apply (Hdrop s1 (unavailable e1) n1)].
  destruct (Hn1 eq_refl) as [t1 ->]. clear Hn1. unfold with_data in Hs1. simpl in Hs1.
  pose proof (framed_lift d (same_children d) unavailable (sync_all file) (sync_all_quiet (same_children d) Hpriv file)) as Hf2.
  specialize (Hf2 s1 Hh).
  pose proof (raises_lift (P := certain) unavailable (sync_all file) certain_unavailable) as He2.
  destruct (lift unavailable (sync_all file) s1) as [[[]|e2] s2] eqn:E2; destruct Hf2 as [Hk2 Hc2];
    simpl in Hk2, Hc2; apply (staged_children _ _ _ _ _ _ _ Hs1) in Hc2;
    [|eapply Hdrop; [exact Hk2|by eapply He2|exact Hc2]].
  pose proof (validate_layout_framed d (same_children d) Hpriv s2 (kept_here d s1 s2 Hk2 Hh)) as [Hk3 Hc3].
  destruct (validate_layout s2) as [[b|e3] s3] eqn:E3; simpl in Hk3, Hc3;
    apply (staged_children _ _ _ _ _ _ _ Hc2) in Hc3;
    (assert (Hk13 : kept (backend s) (backend s3)) by (etrans; [exact Hk2|exact Hk3]));
    [|eapply Hdrop; [exact Hk13|by eapply validate_layout_raises|exact Hc3]].
  rewrite lift_run. destruct (rename p q (world s3)) as [r4 w4] eqn:E4.
  apply (rename_staged _ _ _ _ _ _ _ _ _ _ Hp Hq Hne Hc3) in E4.
  destruct r4 as [[]|e4].
  - intros [= <- <-]. split; [exact Hk13|]. by exists t1.
  - by apply (Hdrop {| world := w4; backend := backend s3 |} (unavailable e4) _ Hk13
                (certain_unavailable e4) E4).
Qed.

(** A receipt is published, or every receipt is left alone; an error other than a loss of
    certainty means the latter. *)
Definition outcome (x : string) (bytes : list Z) (s : State) (r : result StoreError unit)
  (s' : State) : Prop :=
  kept (backend s) (backend s') /\
  match r with
  | Ok _ | Err DurabilityUncertain => wrote x bytes (disk (world s)) (disk (world s'))
  | Err _ => untouched (disk (world s)) (disk (world s'))
  end.

Lemma outcome_quiet x bytes s e s' : frame d s s' -> certain e -> outcome x bytes s (Err e) s'.
Proof.
  intros [Hk Hc%same_children_untouched] He. split; [done|]. by destruct e.
Qed.

Lemma outcome_frame x bytes s1 s2 r s3 :
  frame d s1 s2 -> outcome x bytes s2 r s3 -> outcome x bytes s1 r s3.
Proof.
  intros [Hk Hc] [Hk' Ho]. split; [by etrans|].
  assert (Hj : forall y, is_json y ->
    contents d (disk (world s2)) y = contents d (disk (world s1)) y /\
    names (disk (world s2)) !! (d ++ [y]) = names (disk (world s1)) !! (d ++ [y])).
  { intros y _. split; [by apply same_children_contents|apply Hc]. }
  assert (Hw : wrote x bytes (disk (world s2)) (disk (world s3)) ->
               wrote x bytes (disk (world s1)) (disk (world s3))).
  { intros [He Hot]. split; [done|]. intros y Hy Hyx.
    destruct (Hj y Hy) as [<- <-]. by apply Hot. }
  assert (Hu : untouched (disk (world s2)) (disk (world s3)) ->
               untouched (disk (world s1)) (disk (world s3))).
  { intros Hot y Hy. destruct (Hj y Hy) as [<- <-]. by apply Hot. }
  destruct r as [?|[]]; auto.
Qed.

Lemma create_new_staged p tmp s r s' :
  parts p = d ++ [tmp] -> lift unavailable (create_new p 384) s = (r, s') ->
  kept (backend s) (backend s') /\
  match r with
  | Ok i => exists fs t, same_children d (disk (world s)) fs /\
      staged d tmp i {| i_kind := Regular; i_mode := 384; i_nlink := 1; i_data := [];
                        i_modified := t |} fs (disk (world s'))
  | Err e => certain e /\ frame d s s'
  end.
Proof.
  intros Hp. rewrite lift_run. unfold create_new, call. rewrite Hp.
  set (fs := interfere (tick (world s)) (disk (world s))).
  assert (Hs : same_children d (disk (world s)) fs) by apply Hpriv.
  destruct (fault _).
  { intros [= <- <-]. split; [reflexivity|]. split; [done|]. split; [reflexivity|done]. }
  destruct (act_create_new _ _ _) as [[i|e] fs'] eqn:E; intros [= <- <-]; (split; [reflexivity|]).
  - apply act_create_staged in E. by exists fs, (now fs).
  - apply act_create_error in E as ->. split; [done|]. split; [reflexivity|done].
Qed.

Lemma stage_and_publish_outcome p q tmp x bytes s r s' :
  here d s -> parts p = d ++ [tmp] -> parts q = d ++ [x] -> ~ is_json tmp -> is_json x ->
  stage_and_publish p q bytes s = (r, s') -> outcome x bytes s r s'.
Proof.
  intros Hh Hp Hq Ht Hx. assert (Hne : tmp <> x) by (by intros ->).
  unfold stage_and_publish, bind.
  destruct (lift unavailable (create_new p 384) s) as [[file|e] s1] eqn:E1;
    apply (create_new_staged _ _ _ _ _ Hp) in E1 as [Hk1 E1];
    [|intros [= <- <-]; destruct E1; by apply outcome_quiet].
  destruct E1 as (fs & t0 & Hs & Hst).
  pose proof (kept_here d _ _ Hk1 Hh) as Hh1.
  pose proof (framed_lift d (same_children d) unavailable _ (fstat_quiet (same_children d) Hpriv file) s1 Hh1) as [Hk2 Hc2].
  pose proof (raises_lift (P := certain) unavailable (fstat file) certain_unavailable s1) as He2.
  destruct (lift unavailable (fstat file) s1) as [[m|e] s2]; simpl in Hk2, Hc2;
    apply (staged_children _ _ _ _ _ _ _ Hst) in Hc2.
  2: { intros [= <- <-]. specialize (He2 _ _ eq_refl). split; [by etrans|].
       apply (same_but_untouched _ _ _ _ Hs (st_others _ _ _ _ _ _ Hc2)) in Ht. by destruct e. }
  pose proof (kept_here d _ _ Hk2 Hh1) as Hh2.
  destruct (or_drop_staged p m _ s2) as [r3 s3] eqn:E3.
  apply (stage_and_rename _ _ _ _ _ _ _ _ _ _ _ _ Hh2 Hp Hq Hne Hc2) in E3 as [Hk3 E3].
  assert (Hk13 : kept (backend s) (backend s3)) by (etrans; [exact Hk1|]; by etrans).
  destruct r3 as [[]|e].
  2: { intros [= <- <-]. destruct E3 as [He E3]. split; [done|].
       apply (same_but_untouched _ _ _ _ Hs E3) in Ht. by destruct e. }
  destruct E3 as [t Hpub]. pose proof (kept_here d _ _ Hk13 Hh) as Hh3.
  pose proof (confirm_publication_framed d (same_children d) Hpriv s3 Hh3) as [Hk4 Hc4].
  pose proof (confirm_publication_raises s3) as He4.
  destruct (confirm_publication s3) as [r4 s4]. simpl in Hk4, Hc4. intros [= -> ->].
  apply (published_children _ _ _ _ _ _ _ _ Hpub), (published_wrote _ _ _ _ _ _ _ _ Hs Ht) in Hc4.
  split; [by etrans|]. destruct r as [?|e]; [done|]. by rewrite (He4 e s' eq_refl).
Qed.

Lemma persist_value_outcome id value replacing s r s' :
  here d s -> persist_value id value replacing s = (r, s') ->
  outcome (receipt_name id) (to_vec value) s r s' /\
  (r = Ok tt \/ r = Err DurabilityUncertain ->
   is_none (entry d (disk (world s)) (receipt_name id)) = negb replacing /\
   Z.of_nat (length (to_vec value)) <= MAX_RECEIPT_BYTES).
Proof.
  intros Hh. unfold persist_value.
  assert (Hquiet : forall s1 e, frame d s s1 -> certain e -> (Err e, s1) = (r, s') ->
    outcome (receipt_name id) (to_vec value) s r s' /\
    (r = Ok tt \/ r = Err DurabilityUncertain ->
     is_none (entry d (disk (world s)) (receipt_name id)) = negb replacing /\
     Z.of_nat (length (to_vec value)) <= MAX_RECEIPT_BYTES)).
  { intros s1 e Hf He [= <- <-]. split; [by apply outcome_quiet|].
    intros [?|[= ->]]; [done|]. by destruct He. }
  unfold bind. unfold require at 1.
  destruct (Z.leb_spec (Z.of_nat (length (to_vec value))) MAX_RECEIPT_BYTES) as [Hlen|];
    simpl; [|apply Hquiet; [reflexivity|done]].
  pose proof (ensure_layout_framed d (same_children d) Hpriv (act_mkdir_children d) s Hh) as F1.
  destruct (ensure_layout s) as [[[]|e] s1] eqn:E1; simpl in F1;
    [|apply Hquiet; [done|by eapply ensure_layout_raises]].
  pose proof (frame_here _ _ _ _ F1 Hh) as Hh1. unfold gets.
  set (dst := path_join (directory (backend s1)) (receipt_name id)).
  assert (Hdst : parts dst = d ++ [receipt_name id]) by (unfold dst, path_join; by rewrite <- Hh1).
  pose proof (check_destination_framed d (same_children d) Hpriv dst replacing s1 Hh1) as F2.
  destruct (check_destination dst replacing s1) as [[[]|e] s2] eqn:E2; simpl in F2;
    [|apply Hquiet; [by etrans|by eapply check_destination_raises]].
  apply (check_destination_Ok _ _ _ _ _ Hdst) in E2.
  rewrite (same_children_entry _ _ _ _ (frame_children _ _ _ F1)) in E2.
  assert (F12 : frame d s s2) by (by etrans). pose proof (frame_here _ _ _ _ F12 Hh) as Hh2.
  pose proof (next_sequence_framed d (same_children d) s2 Hh2) as F3.
  destruct (next_sequence s2) as [[n|e] s3] eqn:E3; simpl in F3;
    [|apply Hquiet; [by etrans|by eapply next_sequence_raises]].
  assert (F13 : frame d s s3) by (by etrans). pose proof (frame_here _ _ _ _ F13 Hh) as Hh3.
  intros E4. split; [|done]. apply (outcome_frame _ _ _ _ _ _ F13).
  eapply stage_and_publish_outcome; [done| |exact Hdst|apply temporary_not_json
    |apply receipt_name_json|exact E4]. unfold path_join. simpl. by rewrite <- Hh1.
Qed.

(** C4: publication is atomic for every reader of the directory, whatever calls fail: when
    [persist_value] succeeds, or reports only that durability is uncertain, the receipt
    file holds exactly the serialised value, within the size bound, and existed before if
    and only if the caller was replacing; after any other error no receipt has changed; and
    in no case is another receipt touched. *)
Theorem publication_atomic id value replacing s r s' :
  here d s -> persist_value id value replacing s = (r, s') ->
  let before := contents d (disk (world s)) in
  let after := contents d (disk (world s')) in
  match r with
  | Ok _ | Err DurabilityUncertain =>
      after (receipt_name id) = Some (to_vec value) /\
      is_none (entry d (disk (world s)) (receipt_name id)) = negb replacing /\
      Z.of_nat (length (to_vec value)) <= MAX_RECEIPT_BYTES /\
      (forall x, is_json x -> x <> receipt_name id -> after x = before x)
  | Err _ => forall x, is_json x -> after x = before x
  end.
Proof.
  intros Hh Hr before after. destruct (persist_value_outcome _ _ _ _ _ _ Hh Hr) as [[_ Ho] Hb].
  assert (Hw : wrote (receipt_name id) (to_vec value) (disk (world s)) (disk (world s')) ->
    after (receipt_name id) = Some (to_vec value) /\
    (forall x, is_json x -> x <> receipt_name id -> after x = before x)).
  { intros [(i & t & He) Hoth]. unfold after, contents. rewrite He. split; [done|].
    intros x Hx Hne. by destruct (Hoth x Hx Hne). }
  destruct r as [[]|[]]; try (intros x Hx; by destruct (Ho x Hx)).
  - destruct (Hb (or_introl eq_refl)), (Hw Ho). done.
  - destruct (Hb (or_intror eq_refl)), (Hw Ho). done.
Qed.

End Persist.
