(* ===== verification/StoredReceipt.v ===== *)
(** * Stored receipts

    The [StoredReceipt] enum and [read_stored] of [native/src/operation_store.rs]: one
    value for the five receipt versions, what a version-agnostic reader may ask of it, and
    the version dispatch that decodes a file. *)
From S2P Require Import Prelude Json Serde ReceiptFields Filesystem Store.
From S2P Require OperationReceipt GenericReceipt RestoreReceipt ApplyReceipt CaptureReceipt.

Inductive StoredReceipt :=
| V1 (r : OperationReceipt.OperationReceipt)
| Generic (r : GenericReceipt.GenericReceipt)
| Restore (r : RestoreReceipt.RestoreReceipt)
| Apply (r : ApplyReceipt.ApplyReceipt)
| Capture (r : CaptureReceipt.CaptureReceipt).

#[export] Instance StoredReceipt_eq_dec : EqDecision StoredReceipt.
Proof. solve_decision. Defined.

Definition dispatching (self : StoredReceipt) : bool :=
  match self with
  | V1 r => bool_decide (OperationReceipt.phase r = OperationReceipt.Dispatching)
  | Generic r => bool_decide (GenericReceipt.phase r = GenericReceipt.Dispatching)
  | Restore r => bool_decide (RestoreReceipt.phase r = RestoreReceipt.Dispatching)
  | Apply r => ApplyReceipt.dispatching r
  | Capture r => CaptureReceipt.dispatching r
  end.

Definition known_live_in_flight (self : StoredReceipt) : bool :=
  match self with
  | V1 r =>
      match OperationReceipt.phase r with
      | OperationReceipt.Dispatching | OperationReceipt.Accepted => true
      | _ => false
      end
  | Generic r => bool_decide (GenericReceipt.phase r = GenericReceipt.Dispatching)
  | Restore r => bool_decide (RestoreReceipt.phase r = RestoreReceipt.Dispatching)
  | Apply r => ApplyReceipt.live r
  | Capture r => CaptureReceipt.live r
  end.

Definition receipt_id (self : StoredReceipt) : string :=
  match self with
  | V1 r => OperationReceipt.operation_id r
  | Generic r => GenericReceipt.operation_id r
  | Restore r => RestoreReceipt.operation_id r
  | Apply r => ApplyReceipt.operation_id r
  | Capture r => CaptureReceipt.operation_id r
  end.

Definition endpoint (self : StoredReceipt) : string :=
  match self with
  | V1 r => OperationReceipt.endpoint_hash r
  | Generic r => GenericReceipt.endpoint_hash r
  | Restore r => RestoreReceipt.endpoint_hash r
  | Apply r => ApplyReceipt.endpoint_hash r
  | Capture r => CaptureReceipt.endpoint_hash r
  end.

Definition created (self : StoredReceipt) : string :=
  match self with
  | V1 r => OperationReceipt.created_at r
  | Generic r => GenericReceipt.created_at r
  | Restore r => RestoreReceipt.created_at r
  | Apply r => ApplyReceipt.created_at r
  | Capture r => CaptureReceipt.created_at r
  end.

Definition blocking (self : StoredReceipt) : bool :=
  match self with
  | V1 r => OperationReceipt.is_uncertain (OperationReceipt.phase r)
  | Generic r => GenericReceipt.blocking r
  | Restore r => RestoreReceipt.blocking r
  | Apply r => ApplyReceipt.blocking r
  | Capture r => CaptureReceipt.blocking r
  end.

Definition summary (self : StoredReceipt) : Value :=
  match self with
  | V1 r => OperationReceipt.summary_receipt r
  | Generic r => GenericReceipt.summary r
  | Restore r => RestoreReceipt.summary r
  | Apply r => ApplyReceipt.summary r
  | Capture r => CaptureReceipt.summary r
  end.

(** The JSON of a stored receipt, as [read_any] returns it *)
Definition to_value (self : StoredReceipt) : Value :=
  match self with
  | V1 r => OperationReceipt.to_value r
  | Generic r => GenericReceipt.to_value r
  | Restore r => RestoreReceipt.to_value r
  | Apply r => ApplyReceipt.to_value r
  | Capture r => CaptureReceipt.to_value r
  end.

(** [value["version"] == n] for a small literal *)
Definition version_is (value : Value) (n : Z) : bool :=
  match get "version" value with
  | Some (Num (PosInt m)) => m =? n
  | _ => false
  end.

(** [result.map(f).map_err(|_| StoreError::Corrupt)] *)
Definition corrupt_or {A B} (f : A -> B) (r : result StoreError A) : result StoreError B :=
  match r with
  | Ok a => Ok (f a)
  | Err _ => Err Corrupt
  end.

Definition stored_of_value (value : Value) : result StoreError StoredReceipt :=
  if version_is value 5 then corrupt_or Capture (CaptureReceipt.from_value value)
  else if version_is value 4 then corrupt_or Apply (ApplyReceipt.from_value value)
  else if version_is value 3 then corrupt_or Restore (RestoreReceipt.from_value value)
  else if version_is value 2 then corrupt_or Generic (GenericReceipt.from_value value)
  else corrupt_or V1 (OperationReceipt.from_value value).

Section Reading.
Context `{Environment} `{SerdeJson}.

(** What [read_stored] makes of a file's bytes. *)
Definition decode (bytes : list Z) : result StoreError StoredReceipt :=
  let? value := ok_or (from_slice bytes) Corrupt in
  stored_of_value value.

Definition read_stored (p : Path) : M StoredReceipt :=
  let* bytes := read_bytes p in
  lift_result (decode bytes).

(** [OperationReceipt::from_json], every error of which [read_receipt] maps to [Corrupt];
    [read_bytes] has bounded the length. *)
Definition read_receipt (p : Path) : M OperationReceipt.OperationReceipt :=
  let* bytes := read_bytes p in
  lift_result (
    let? value := ok_or (from_slice bytes) Corrupt in
    corrupt_or (fun r => r) (OperationReceipt.from_value value)).

End Reading.

(** ** Validity of a stored receipt *)

Definition valid (self : StoredReceipt) : bool :=
  match self with
  | V1 r => OperationReceipt.record_valid r
  | Generic r => GenericReceipt.record_valid r
  | Restore r => RestoreReceipt.record_valid r
  | Apply r => ApplyReceipt.record_valid r
  | Capture r => CaptureReceipt.record_valid r
  end.

(** The machine-integer ranges the Rust types give for free. *)
Definition typed (self : StoredReceipt) : Prop :=
  match self with
  | Capture r => Forall CaptureReceipt.step_typed (CaptureReceipt.steps r)
  | _ => True
  end.

(** ** Round trip *)

Lemma canonical_object fields :
  forallb (fun '(_, v) => canonical v) fields = true -> canonical (object_of fields) = true.
Proof.
  intros Hf. unfold object_of. cbn [canonical]. rewrite object_fields_sorted.
  by apply (forallb_object_fields (fun '(_, v) => canonical v)).
Qed.

Lemma canonical_option {A} (ser : A -> Value) o :
  (forall a, canonical (ser a) = true) -> canonical (ser_option ser o) = true.
Proof. intros H. destruct o; [apply H|done]. Qed.

#[local] Hint Resolve canonical_object canonical_option : obs.

Lemma apply_stage_canonical s : canonical (object_of (ApplyReceipt.stage_fields s)) = true.
Proof.
  apply canonical_object. cbn. rewrite !andb_true_iff. split_and!; try done.
  all: by apply canonical_option.
Qed.

Lemma capture_step_canonical s : canonical (object_of (CaptureReceipt.step_fields s)) = true.
Proof.
  apply canonical_object. cbn. rewrite !andb_true_iff. split_and!; try done.
  all: by apply canonical_option.
Qed.

Lemma to_value_canonical r : canonical (to_value r) = true.
Proof.
  destruct r as [r|r|r|r|r]; apply canonical_object.
  - destruct r as [? ? ? ? [] [] [] [] ? ? ? ? [] [] ? ?]; done.
  - destruct r as [? ? ? ? ? ? ? ? ? [] [] ? ?]; done.
  - cbn. rewrite !andb_true_iff. split_and!; try done; by apply canonical_option.
  - cbn. rewrite !andb_true_iff. split_and!; try done; [apply apply_stage_canonical|].
    apply canonical_option, apply_stage_canonical.
  - cbn. rewrite !andb_true_iff. split_and!; try done.
    + by apply canonical_option.
    + apply forallb_forall. intros v (s & <- & _)%in_map_iff. apply capture_step_canonical.
Qed.

(** The version a receipt carries, and the one its decoder requires. *)
Definition version_of (r : StoredReceipt) : Z :=
  match r with V1 _ => 1 | Generic _ => 2 | Restore _ => 3 | Apply _ => 4 | Capture _ => 5 end.

Lemma version_is_to_value r n :
  valid r = true -> version_is (to_value r) n = (version_of r =? n).
Proof.
  unfold version_is. intros Hv. destruct r as [r|r|r|r|r]; cbn [to_value valid version_of] in *.
  - unfold OperationReceipt.to_value, object_of. cbn [get].
    rewrite field_object_fields by apply OperationReceipt.v1_value_fields_nodup. cbn.
    apply OperationReceipt.v1_record_valid_fields in Hv as (-> & _). done.
  - unfold GenericReceipt.to_value, object_of. cbn [get].
    rewrite field_object_fields by apply GenericReceipt.generic_value_fields_nodup. cbn.
    apply GenericReceipt.generic_record_valid_fields in Hv as (-> & _). done.
  - unfold RestoreReceipt.to_value, object_of. cbn [get].
    rewrite field_object_fields by apply RestoreReceipt.restore_value_fields_nodup. cbn.
    apply RestoreReceipt.restore_record_valid_fields in Hv as (-> & _). done.
  - unfold ApplyReceipt.to_value, object_of. cbn [get].
    rewrite field_object_fields by apply ApplyReceipt.apply_value_fields_nodup. cbn.
    apply ApplyReceipt.apply_record_valid_iff in Hv as ((-> & _) & _). done.
  - unfold CaptureReceipt.to_value, object_of. cbn [get].
    rewrite field_object_fields by apply CaptureReceipt.capture_value_fields_nodup. cbn.
    apply CaptureReceipt.capture_record_valid_iff in Hv as ((-> & _) & _). done.
Qed.

Lemma stored_of_value_rt r :
  valid r = true -> typed r -> stored_of_value (to_value r) = Ok r.
Proof.
  intros Hv Ht. unfold stored_of_value. rewrite !version_is_to_value by done.
  destruct r as [r|r|r|r|r]; cbn -[OperationReceipt.from_value GenericReceipt.from_value
    RestoreReceipt.from_value ApplyReceipt.from_value CaptureReceipt.from_value] in *.
  - by rewrite OperationReceipt.operation_receipt_roundtrip.
  - by rewrite GenericReceipt.generic_receipt_roundtrip.
  - by rewrite RestoreReceipt.restore_receipt_roundtrip.
  - by rewrite ApplyReceipt.apply_receipt_roundtrip.
  - by rewrite CaptureReceipt.capture_receipt_roundtrip.
Qed.

Lemma decode_to_vec `{SerdeJson} r :
  valid r = true -> typed r -> decode (to_vec (to_value r)) = Ok r.
Proof.
  intros Hv Ht. unfold decode. rewrite from_slice_to_vec by apply to_value_canonical.
  by apply stored_of_value_rt.
Qed.

(** A value that version 1 accepts is dispatched to version 1. *)
Lemma v1_stored_of_value v r :
  OperationReceipt.from_value v = Ok r -> stored_of_value v = Ok (V1 r).
Proof.
  intros Hr. assert (Hn : forall n, 2 <= n -> version_is v n = false).
  { intros n Hn. unfold OperationReceipt.from_value in Hr.
    apply bind_result_Ok in Hr as (fields & Hf%ok_or_Ok & Hr). destruct v; try done.
    injection Hf as ->. destruct (existsb _ _); [done|]. destruct (existsb _ _); [done|].
    apply bind_result_Ok in Hr as (fields' & Hv & _). unfold OperationReceipt.normalize in Hv.
    apply bind_result_Ok in Hv as (m & Hm%ok_or_Ok & _). unfold version_is. cbn [get].
    destruct (field "version" fields) as [[| |[k|k|k]| | |]|]; try done.
    unfold OperationReceipt.normal_integer in Hm. simpl in Hm.
    destruct (Z.leb_spec k 1); [|done]. apply Z.eqb_neq. lia. }
  unfold stored_of_value. rewrite !Hn by lia. by rewrite Hr.
Qed.

(** C37: what is written can always be read: for every receipt of each of the five versions
    that passes its validation (with its counters in the ranges of their integer types),
    serialising it, parsing the bytes and dispatching on the version field gives back the
    same receipt. *)
Theorem stored_receipt_roundtrip `{SerdeJson} r :
  valid r = true -> typed r -> decode (to_vec (to_value r)) = Ok r.
Proof. apply decode_to_vec. Qed.
