(* ===== verification/OperationView.v ===== *)
(** * The read-only view

    [OperationView] of [native/src/operation_store.rs]: reading one receipt, the bounded
    and fully validated inventory, and what is computed from it (admission, the guarded
    re-entry and Production barriers, the wire summary). *)
From S2P Require Import Prelude Json Serde ReceiptFields Filesystem Store StoredReceipt.
From S2P Require OperationReceipt GenericReceipt.

Record Admission := {
  adm_blocking : bool;
  generic_v2_present : bool;
  total : Z
}.

Record ObservedSummary := {
  status : string;
  operations : list Value;
  os_total : Z;
  truncated : bool
}.

Definition not_own (own : option string) (r : StoredReceipt) : bool :=
  negb (bool_decide (Some (receipt_id r) = own)).

Definition is_not_v1 (r : StoredReceipt) : bool :=
  match r with V1 _ => false | _ => true end.

(** The order of an inventory: newest first, then by identifier. *)
Definition inventory_order (a b : StoredReceipt) : comparison :=
  then_with (str_cmp (created b) (created a)) (uuid_collation (receipt_id a) (receipt_id b)).

Section View.
Context `{Environment} `{SerdeJson}.

Definition check_endpoint (r : OperationReceipt.OperationReceipt) : M unit :=
  let* e := gets endpoint_hash in
  require (str_eqb (OperationReceipt.endpoint_hash r) e) EndpointMismatch.

Definition set_poisoned (b : BackendStore) : BackendStore :=
  {| root := root b; directory := directory b; endpoint_hash := endpoint_hash b;
     root_identity := root_identity b; directory_identity := directory_identity b;
     sequence := sequence b;
     read_namespace := {| poisoned := true; id_root := id_root (read_namespace b);
                          id_directory := id_directory (read_namespace b) |} |}.

Definition mark_uncertain : M unit := modify set_poisoned.

(** [OperationView::read], which reads version 1 receipts only *)
Definition view_read (operation_id : string) : M OperationReceipt.OperationReceipt :=
  let* _ := require (valid_uuid operation_id) InvalidIdentifier in
  let* present := view_validate_layout in
  let* _ := require present MissingReceipt in
  let* directory := gets directory in
  let* receipt := read_receipt (path_join directory (receipt_name operation_id)) in
  let* _ := require (str_eqb (OperationReceipt.operation_id receipt) operation_id) Corrupt in
  let* _ := check_endpoint receipt in
  let* _ := view_validate_layout in
  ret receipt.

(** The loop over [fs::read_dir]; [count] names were kept before. *)
Fixpoint json_names (entries : list string) (count : Z) : M (list string) :=
  match entries with
  | [] => ret []
  | entry :: rest =>
      let* name := lift unavailable (next_entry entry) in
      let* _ := require (valid_utf8 name) Corrupt in
      if negb (ends_with ".json" name) then json_names rest count
      else
        let* _ := require (count + 1 <=? MAX_RECEIPTS) InventoryLimit in
        let* names := json_names rest (count + 1) in
        ret (name :: names)
  end.

(** The loop that reads and validates every named receipt. *)
Fixpoint read_all (directory : Path) (names : list string) : M (list StoredReceipt) :=
  match names with
  | [] => ret []
  | name :: rest =>
      let* id := lift_result (ok_or (strip_suffix ".json" name) Corrupt) in
      let* _ := require (valid_uuid id) Corrupt in
      let* receipt := read_stored (path_join directory name) in
      let* _ := require (str_eqb (receipt_id receipt) id) Corrupt in
      let* e := gets endpoint_hash in
      let* receipts := read_all directory rest in
      ret (if str_eqb (endpoint receipt) e then receipt :: receipts else receipts)
  end.

Definition inventory : M (list StoredReceipt) :=
  let* ns := gets read_namespace in
  let* _ := require (negb (poisoned ns)) DurabilityUncertain in
  let* present := view_validate_layout in
  if negb present then ret []
  else
    let* directory := gets directory in
    let* entries := lift unavailable (read_dir directory) in
    let* names := json_names entries 0 in
    let* receipts := read_all directory names in
    let* _ := view_validate_layout in
    ret (sort_by inventory_order receipts).

Definition capacity_used : M Z :=
  let* present := view_validate_layout in
  if negb present then ret 0
  else
    let* directory := gets directory in
    let* entries := lift unavailable (read_dir directory) in
    let* names := json_names entries 0 in
    let* _ := view_validate_layout in
    ret (Z.of_nat (length names)).

Definition read_any (id : string) : M Value :=
  let* _ := require (valid_uuid id) InvalidIdentifier in
  let* receipts := inventory in
  lift_result (ok_or (to_value <$> List.find (fun r => str_eqb (receipt_id r) id) receipts)
                 MissingReceipt).

Definition admission_of (own : option string) (receipts : list StoredReceipt) : Admission :=
  {| adm_blocking := existsb (fun r => not_own own r && blocking r) receipts;
     generic_v2_present := existsb is_not_v1 receipts;
     total := Z.of_nat (length receipts) |}.

Definition admission_except (own : option string) : M Admission :=
  let* receipts := inventory in
  ret (admission_of own receipts).

Definition admission : M Admission := admission_except None.

(** A generic receipt of the given kinds that may have had an effect. *)
Definition effect_of (p : GenericReceipt.GenericKind -> bool) (r : StoredReceipt) : bool :=
  match r with
  | Generic r =>
      p (GenericReceipt.kind r)
      && negb (bool_decide (GenericReceipt.phase r = GenericReceipt.NotDispatched))
  | _ => false
  end.

Definition guarded_reentry_allowed : M bool :=
  let* receipts := inventory in
  ret (negb (existsb (effect_of GenericReceipt.incompatible_with_guarded_reentry) receipts)).

Definition production_connection_allowed : M bool :=
  let* receipts := inventory in
  ret (negb (existsb (effect_of GenericReceipt.advanced_only) receipts)).

Definition is_dispatching (id : string) : M bool :=
  let* receipts := inventory in
  ret (existsb (fun r => str_eqb (receipt_id r) id && dispatching r) receipts).

Definition live_admission (own : option string) (live : gset string)
  (receipts : list StoredReceipt) : result StoreError Admission :=
  if existsb (fun id => negb (existsb (fun r => str_eqb (receipt_id r) id) receipts))
       (elements live)
  then Err MissingReceipt
  else if negb (is_none_or own (fun own =>
                  existsb (fun r => str_eqb (receipt_id r) own && dispatching r) receipts))
  then Err Conflict
  else
    Ok {| adm_blocking :=
            existsb (fun r =>
              blocking r && not_own own r
              && negb (bool_decide (receipt_id r ∈ live) && known_live_in_flight r)) receipts;
          generic_v2_present := existsb is_not_v1 receipts;
          total := Z.of_nat (length receipts) |}.

Definition admission_with_live_ids (own : option string) (live : gset string) : M Admission :=
  let* receipts := inventory in
  lift_result (live_admission own live receipts).

Definition summary_of (receipts : list StoredReceipt) : ObservedSummary :=
  let shown :=
    map summary
      (take (Z.to_nat DISPLAY_RECEIPTS)
         (List.filter blocking receipts ++ List.filter (fun r => negb (blocking r)) receipts)) in
  {| status := "observed"; operations := shown; os_total := Z.of_nat (length receipts);
     truncated := Z.of_nat (length shown) <? Z.of_nat (length receipts) |}.

Definition try_summary : M ObservedSummary :=
  let* receipts := inventory in
  ret (summary_of receipts).

(** [OperationView::summary]: an inspection failure is reported as uncertainty. *)
Definition view_summary : State -> Value * State := fun s =>
  match try_summary s with
  | (Ok o, s) =>
      (object_of [("status", Str (status o)); ("operations", Array (operations o));
                  ("total", num (os_total o)); ("truncated", Bool (truncated o))], s)
  | (Err _, s) =>
      (object_of [("status", Str "unknown"); ("operations", Array []);
                  ("reason", Str "receipt_unavailable");
                  ("nextCheck", Str "Operation receipts could not be inspected; do not infer that no operation is pending")], s)
  end.

End View.
