(* ===== verification/Reading.v ===== *)
(** * Reading back

    What a read of one receipt file, and of the whole inventory, says about the contents
    of the store's directory; and that in a healthy world reads and publications succeed. *)
From S2P Require Import Prelude Json Serde ReceiptFields Filesystem Store Publication StoredReceipt OperationView.
From S2P Require OperationReceipt.

(** ** Inversion of successful steps *)

Lemma bind_Ok {A B} (c : M A) (k : A -> M B) s b s' :
  bind c k s = (Ok b, s') <-> exists a s1, c s = (Ok a, s1) /\ k a s1 = (Ok b, s').
Proof.
  unfold bind. destruct (c s) as [[a|e] s1]; split.
  - eauto.
  - intros (? & ? & [= <- <-] & ?). done.
  - done.
  - intros (? & ? & ? & ?). done.
Qed.

Lemma require_Ok b e s s' : require b e s = (Ok tt, s') <-> b = true /\ s' = s.
Proof. unfold require. destruct b; unfold ret, fail; naive_solver. Qed.

Lemma gets_Ok {A} (f : BackendStore -> A) s a s' :
  gets f s = (Ok a, s') <-> a = f (backend s) /\ s' = s.
Proof. unfold gets. naive_solver. Qed.

Lemma ret_Ok {A} (a b : A) s s' : ret a s = (Ok b, s') <-> b = a /\ s' = s.
Proof. unfold ret. naive_solver. Qed.

Lemma lift_result_Ok {A} (r : result StoreError A) s a s' :
  lift_result r s = (Ok a, s') <-> r = Ok a /\ s' = s.
Proof. unfold lift_result. naive_solver. Qed.

(** Invert one bind of a successful run in hypothesis [H]. *)
Ltac bind_inv H a s1 H1 :=
  apply bind_Ok in H as (a & s1 & H1 & H).

Section Reads.
Context `{Environment} `{SerdeJson} (d : list string) (Hpriv : private d).

(** A successful read-only call saw some state with the same children. *)
Lemma lift_call_Ok {A} f (act : Fs -> result ErrorKind A * Fs) s a s' :
  (forall fs, snd (act fs) = fs) -> lift f (call act) s = (Ok a, s') ->
  backend s' = backend s /\ same_children d (disk (world s)) (disk (world s')) /\
  fst (act (disk (world s'))) = Ok a.
Proof.
  intros Hact. rewrite lift_run. unfold call. destruct (fault _); [done|].
  specialize (Hact (interfere (tick (world s)) (disk (world s)))).
  destruct (act _) as [[b|e] fs'] eqn:E; intros [= <- <-]. simpl in *. subst fs'.
  split_and!; [done|apply Hpriv|]. by rewrite E.
Qed.

Lemma validate_regular_Ok m s s' :
  validate_regular m s = (Ok tt, s') ->
  s' = s /\ m_kind m = Regular /\ m_nlink m = 1 /\ Z.land (m_mode m) 18 = 0.
Proof.
  unfold validate_regular, is_file, writable_by_others. unfold fail, ret.
  repeat case_match; intros [= <-]; to_prop. naive_solver.
Qed.

(** A file read through the checks of [read_bytes] is a private regular file, and what is
    read is what it holds. *)
Lemma read_bytes_Ok p x s bytes s' :
  parts p = d ++ [x] -> here d s -> read_bytes p s = (Ok bytes, s') ->
  frame d s s' /\ contents d (disk (world s)) x = Some bytes.
Proof.
  intros Hp Hh Hr. pose proof (read_bytes_framed d (same_children d) Hpriv p s Hh) as Hf. rewrite Hr in Hf.
  split; [exact Hf|]. unfold read_bytes in Hr.
  bind_inv Hr before s1 H1. apply lift_call_Ok in H1 as (_ & C1 & A1); [|done].
  bind_inv Hr u s2 H2. destruct u. apply validate_regular_Ok in H2 as (-> & Hkind & _).
  bind_inv Hr u s3 H3. destruct u. apply require_Ok in H3 as [_ ->].
  bind_inv Hr file s4 H4. apply lift_call_Ok in H4 as (_ & C4 & A4); [|done].
  bind_inv Hr opened s5 H5. apply lift_call_Ok in H5 as (_ & C5 & A5); [|done].
  bind_inv Hr u s6 H6. destruct u. apply validate_regular_Ok in H6 as (-> & _).
  bind_inv Hr u s7 H7. destruct u. apply require_Ok in H7 as [_ ->].
  bind_inv Hr b8 s8 H8. apply lift_call_Ok in H8 as (_ & C8 & A8); [|done].
  bind_inv Hr u s9 H9. destruct u. apply require_Ok in H9 as [Hlen%Z.leb_le ->].
  bind_inv Hr after s10 H10. bind_inv Hr u s11 H11. bind_inv Hr u2 s12 H12.
  apply ret_Ok in Hr as [-> _]. simpl in A1, A4, A5, A8.
  rewrite Hp in A1, A4. unfold open_target in A4.
  change (lookup_path ?fs (d ++ [x])) with (entry d fs x) in A1, A4.
  rewrite (same_children_entry _ _ _ _ C4) in A4.
  destruct (entry d (disk (world s1)) x) as [[i n]|] eqn:E1; [|done]. injection A1 as <-.
  simpl in Hkind. rewrite Hkind in A4. injection A4 as <-.
  assert (Hn : entry d (disk (world s8)) x = Some (i, n)).
  { rewrite (same_children_entry _ _ _ _ C8), (same_children_entry _ _ _ _ C5).
    by rewrite (same_children_entry _ _ _ _ C4). }
  assert (Hi : inodes (disk (world s8)) !! i = Some n).
  { unfold entry, lookup_path in Hn. destruct (names _ !! _) as [j|]; [|done].
    destruct (inodes _ !! j) eqn:Ej; naive_solver. }
  rewrite Hi in A8. injection A8 as <-.
  unfold contents. rewrite <- (same_children_entry _ _ _ _ C1), E1. simpl. f_equal.
  rewrite length_take in Hlen. unfold MAX_RECEIPT_BYTES in *. symmetry. apply take_ge. lia.
Qed.

End Reads.

(** ** Errors of the reads *)

Lemma decode_corrupt `{SerdeJson} bytes e : decode bytes = Err e -> e = Corrupt.
Proof.
  unfold decode. destruct (from_slice bytes) as [v|]; simpl; [|by intros [= <-]].
  unfold stored_of_value, corrupt_or. repeat case_match; try done; by intros [= <-].
Qed.

Section RaisesReads.
Context {Env : Environment} {Codec : SerdeJson} {P : StoreError -> Prop} `{!Tolerates P}.

Lemma read_stored_raises p : raises (read_stored p) P.
Proof.
  unfold read_stored. apply raises_bind; [apply read_bytes_raises|]. intros b.
  apply raises_lift_result. intros e ->%decode_corrupt. by apply tolerated.
Qed.

Lemma read_receipt_raises p : raises (read_receipt p) P.
Proof.
  unfold read_receipt. apply raises_bind; [apply read_bytes_raises|]. intros b.
  apply raises_lift_result. intros e. unfold corrupt_or.
  destruct (from_slice b) as [v|]; simpl; [destruct (OperationReceipt.from_value v); [done|]|];
    intros [= <-]; by apply tolerated.
Qed.

Lemma check_endpoint_raises r : raises (check_endpoint r) P.
Proof. unfold check_endpoint. raises_step. Qed.
#[local] Hint Resolve read_stored_raises read_receipt_raises check_endpoint_raises : obs.

Lemma view_read_raises id : raises (view_read id) P.
Proof. unfold view_read. raises_step. Qed.

End RaisesReads.

#[export] Hint Resolve read_stored_raises read_receipt_raises check_endpoint_raises
  view_read_raises : obs.

(** ** Frames of the reads *)

Section FramedReads.
Context {Env : Environment} {Codec : SerdeJson} (d : list string).
Context (R : relation Fs) `{!PreOrder R} (Hpriv : forall t fs, R fs (interfere t fs)).

Lemma read_stored_framed p : framed_by d R (read_stored p).
Proof. unfold read_stored. framed_step. Qed.

Lemma read_receipt_framed p : framed_by d R (read_receipt p).
Proof. unfold read_receipt. framed_step. Qed.

Lemma json_names_framed entries : forall count, framed_by d R (json_names entries count).
Proof. induction entries; simpl; framed_step. Qed.
#[local] Hint Resolve read_stored_framed read_receipt_framed json_names_framed : obs.

Lemma read_all_framed p names : framed_by d R (read_all p names).
Proof. induction names; simpl; framed_step. Qed.
#[local] Hint Resolve read_all_framed : obs.

Lemma check_endpoint_framed r : framed_by d R (check_endpoint r).
Proof. unfold check_endpoint. framed_step. Qed.
#[local] Hint Resolve check_endpoint_framed : obs.

Lemma view_read_framed id : framed_by d R (view_read id).
Proof. unfold view_read. framed_step. Qed.

Lemma inventory_framed : framed_by d R inventory.
Proof. unfold inventory. framed_step. Qed.
#[local] Hint Resolve inventory_framed : obs.

Lemma capacity_used_framed : framed_by d R capacity_used.
Proof. unfold capacity_used. framed_step. Qed.

Lemma admission_except_framed own : framed_by d R (admission_except own).
Proof. unfold admission_except. framed_step. Qed.

Lemma admission_with_live_ids_framed own live : framed_by d R (admission_with_live_ids own live).
Proof. unfold admission_with_live_ids. framed_step. Qed.

Lemma is_dispatching_framed id : framed_by d R (is_dispatching id).
Proof. unfold is_dispatching. framed_step. Qed.

End FramedReads.

#[export] Hint Resolve read_stored_framed read_receipt_framed json_names_framed read_all_framed
  check_endpoint_framed view_read_framed inventory_framed capacity_used_framed
  admission_except_framed admission_with_live_ids_framed is_dispatching_framed : obs.

(** ** The inventory *)

(** The directory's children are only named while it exists. *)
Definition consistent (d : list string) (fs : Fs) : Prop :=
  lookup_path fs d = None -> forall x, names fs !! (d ++ [x]) = None.

(** The children of [d] are left alone and stay consistent with it. *)
Definition steady (d : list string) (fs fs' : Fs) : Prop :=
  same_children d fs fs' /\ (consistent d fs -> consistent d fs').

#[export] Instance steady_preorder d : PreOrder (steady d).
Proof.
  split.
  - by intros fs.
  - intros fs1 fs2 fs3 [? ?] [? ?]. split; [by etrans|auto].
Qed.

(** The store owns its directory: interference neither changes the children nor leaves
    them without their directory. *)
Definition owned `{Environment} (d : list string) : Prop :=
  forall t fs, steady d fs (interfere t fs).

Lemma owned_private `{Environment} d : owned d -> private d.
Proof. intros Ho t fs. apply Ho. Qed.

Lemma children_NoDup fs d : NoDup (children fs d).
Proof.
  unfold children. pose proof (NoDup_fst_map_to_list (names fs)) as Hnd.
  induction (map_to_list (names fs)) as [|[p i] l IH]; simpl; [constructor|].
  inversion Hnd as [|? ? Hp Hl]; subst. destruct (child_name d p) as [x|] eqn:E; [|by apply IH].
  constructor; [|by apply IH]. intros Hin. apply Hp.
  apply list_elem_of_omap in Hin as ([q j] & Hq & Eq). apply child_name_Some in E as ->, Eq as ->.
  change (d ++ [x]) with (fst (d ++ [x], j)). by apply list_elem_of_fmap_2.
Qed.

(** The receipt stored under an identifier *)
Definition lookup_receipt `{SerdeJson} (d : list string) (fs : Fs) (id : string)
  : option (result StoreError StoredReceipt) := decode <$> contents d fs (receipt_name id).

Section Inventory.
Context {Env : Environment} {Codec : SerdeJson} (d : list string) (Hpriv : private d).

Lemma read_stored_Ok p id s rec s' :
  parts p = d ++ [receipt_name id] -> here d s -> read_stored p s = (Ok rec, s') ->
  frame d s s' /\ lookup_receipt d (disk (world s)) id = Some (Ok rec).
Proof.
  intros Hp Hh Hr. unfold read_stored in Hr. bind_inv Hr bytes s1 H1.
  apply (read_bytes_Ok d Hpriv _ _ _ _ _ Hp Hh) in H1 as [Hf Hc].
  apply lift_result_Ok in Hr as [Hd ->]. split; [done|]. unfold lookup_receipt.
  by rewrite Hc, <- Hd.
Qed.

Lemma json_names_Ok entries : forall count s names s',
  here d s -> json_names entries count s = (Ok names, s') ->
  names = List.filter (ends_with ".json") entries /\
  (names = [] \/ count + Z.of_nat (length names) <= MAX_RECEIPTS).
Proof.
  induction entries as [|x entries IH]; intros count s l s' Hh Hj; simpl in Hj.
  { apply ret_Ok in Hj as [-> _]. auto. }
  bind_inv Hj name s1 E1.
  pose proof (framed_lift d (same_children d) unavailable _ (next_entry_quiet (same_children d) Hpriv x) s Hh) as F1.
  rewrite E1 in F1. simpl in F1. pose proof (frame_here _ _ _ _ F1 Hh) as Hh1.
  apply (lift_call_Ok d Hpriv) in E1 as (_ & _ & [= <-]); [|done].
  bind_inv Hj u s2 E2. destruct u. apply require_Ok in E2 as [_ ->]. simpl.
  destruct (ends_with ".json" x); simpl in Hj; [|by eapply IH].
  bind_inv Hj u s2 E2. destruct u. apply require_Ok in E2 as [Hlen%Z.leb_le ->].
  bind_inv Hj rest s2 E2. apply ret_Ok in Hj as [-> _].
  apply IH in E2 as [-> Hc]; [|done]. split; [done|]. right. simpl.
  destruct Hc as [->|Hc]; simpl in *; lia.
Qed.

(** The loop that reads the named receipts *)

(** A name and the receipt read from it *)
Definition reads_as (fs : Fs) (name : string) (rec : StoredReceipt) : Prop :=
  name = receipt_name (receipt_id rec) /\ valid_uuid (receipt_id rec) = true /\
  lookup_receipt d fs (receipt_id rec) = Some (Ok rec).

Lemma read_all_Ok names : forall p s l s',
  here d s -> parts p = d -> read_all p names s = (Ok l, s') ->
  exists recs, Forall2 (reads_as (disk (world s))) names recs /\
    l = List.filter (fun r => str_eqb (endpoint r) (endpoint_hash (backend s))) recs.
Proof.
  induction names as [|name names IH]; intros p s l s' Hh Hp Hr; simpl in Hr.
  { apply ret_Ok in Hr as [-> _]. by exists []. }
  bind_inv Hr rid s1 E1. apply lift_result_Ok in E1 as [E1%ok_or_Ok ->].
  apply strip_suffix_Some in E1 as ->.
  bind_inv Hr u s1 E1. destruct u. apply require_Ok in E1 as [Hu ->].
  bind_inv Hr rec s1 E1. apply (read_stored_Ok _ rid) in E1 as [F1 Hl]; [|by simpl; rewrite Hp|done].
  bind_inv Hr u s2 E2. destruct u. apply require_Ok in E2 as [Hid%str_eqb_eq ->].
  bind_inv Hr e s2 E2. apply gets_Ok in E2 as [-> ->].
  bind_inv Hr rest s2 E2. apply ret_Ok in Hr as [-> _].
  apply IH in E2 as (recs & Hf & ->); [|by eapply frame_here|done].
  destruct F1 as [K1 C1]. rewrite (kept_endpoint _ _ K1) in *. subst rid.
  exists (rec :: recs). split; [|simpl; by destruct (str_eqb _ _)].
  constructor; [done|]. eapply Forall2_impl; [exact Hf|].
  intros x r (Hn & Hv & Hlr). split_and!; [done|done|]. rewrite <- Hlr. unfold lookup_receipt.
  by rewrite (same_children_contents _ _ _ _ C1).
Qed.

Lemma read_dir_Ok p s entries s' :
  parts p = d -> lift unavailable (read_dir p) s = (Ok entries, s') ->
  same_children d (disk (world s)) (disk (world s')) /\
  Permutation entries (children (disk (world s')) d).
Proof.
  intros Hp. rewrite lift_run. unfold read_dir, call. destruct (fault _); [done|].
  rewrite Hp. destruct (is_directory_at _ d); intros [= <- <-]. simpl.
  split; [apply Hpriv|apply listing_perm].
Qed.

End Inventory.

(** ** Counting receipts *)

Definition json_children (d : list string) (fs : Fs) : list string :=
  List.filter (ends_with ".json") (children fs d).

(** How many receipt files the directory holds *)
Definition json_count (d : list string) (fs : Fs) : Z := Z.of_nat (length (json_children d fs)).

Lemma json_children_spec d fs x :
  In x (json_children d fs) <-> is_json x /\ is_Some (names fs !! (d ++ [x])).
Proof. unfold json_children. rewrite filter_In, children_spec. unfold is_json. tauto. Qed.

Lemma json_children_NoDup d fs : NoDup (json_children d fs).
Proof. apply NoDup_ListNoDup, List.NoDup_filter, NoDup_ListNoDup, children_NoDup. Qed.

Lemma json_count_incl d fs fs' extra :
  (forall x, is_json x -> is_Some (names fs' !! (d ++ [x])) ->
     is_Some (names fs !! (d ++ [x])) \/ In x extra) ->
  json_count d fs' <= json_count d fs + Z.of_nat (length extra).
Proof.
  intros Hx. unfold json_count.
  enough (length (json_children d fs') <= length (json_children d fs ++ extra))%nat
    by (rewrite length_app in *; lia).
  apply NoDup_incl_length; [apply NoDup_ListNoDup, json_children_NoDup|].
  intros x (Hj & Hn)%json_children_spec. apply in_app_iff.
  destruct (Hx x Hj Hn); [left; by apply json_children_spec|by right].
Qed.

Lemma json_count_same d fs fs' :
  (forall x, is_json x -> names fs' !! (d ++ [x]) = names fs !! (d ++ [x])) ->
  json_count d fs' = json_count d fs.
Proof.
  intros Hn. pose proof (json_count_incl d fs fs' []) as H1.
  pose proof (json_count_incl d fs' fs []) as H2. simpl in *. rewrite !Z.add_0_r in *.
  apply Z.le_antisymm; [apply H1|apply H2]; intros x Hx Hs; left; [by rewrite <- Hn|by rewrite Hn].
Qed.

Lemma same_children_count d fs fs' : same_children d fs fs' -> json_count d fs' = json_count d fs.
Proof. intros Hs. apply json_count_same. intros x _. apply Hs. Qed.

Section Capacity.
Context {Env : Environment} {Codec : SerdeJson} (d : list string) (Hown : owned d).

Lemma directory_metadata_None p s s' :
  directory_metadata p s = (Ok None, s') -> parts p = d ->
  steady d (disk (world s)) (disk (world s')) /\ lookup_path (disk (world s')) d = None.
Proof.
  unfold directory_metadata, bind, attempt, symlink_metadata, call.
  destruct (fault _); [done|]. simpl. intros Hr Hp. rewrite Hp in Hr.
  destruct (lookup_path _ d) as [[i n]|] eqn:El; simpl in Hr.
  - repeat case_match; unfold fail, ret in *; simplify_eq.
  - injection Hr as <-. simpl. split; [apply Hown|done].
Qed.

(** When the layout check finds no directory, there is no child. *)
Lemma view_validate_layout_false s s' :
  here d s -> consistent d (disk (world s)) -> view_validate_layout s = (Ok false, s') ->
  forall x, names (disk (world s)) !! (d ++ [x]) = None.
Proof.
  intros Hh Hc Hv. unfold view_validate_layout in Hv.
  bind_inv Hv p s1 E1. apply gets_Ok in E1 as [-> ->]. bind_inv Hv u s2 E2.
  pose proof (validate_chain_framed d (steady d) Hown (directory (backend s)) true s Hh) as F2.
  rewrite E2 in F2. simpl in F2. pose proof (frame_here _ _ _ _ F2 Hh) as Hh2.
  bind_inv Hv ns s3 E3. apply gets_Ok in E3 as [-> ->]. unfold check_layout in Hv.
  bind_inv Hv r s4 E4. apply gets_Ok in E4 as [-> ->].
  bind_inv Hv p s4 E4. apply gets_Ok in E4 as [-> ->].
  bind_inv Hv cr s4 E4. bind_inv Hv cd s5 E5.
  bind_inv Hv u1 s6 E6. bind_inv Hv u2 s7 E7. apply ret_Ok in Hv as [Hn _].
  destruct cd as [m|]; [done|].
  pose proof (directory_metadata_framed d (steady d) Hown (root (backend s2)) s2 Hh2) as F4.
  rewrite E4 in F4. simpl in F4.
  apply directory_metadata_None in E5 as [S5 L5]; [|done].
  assert (S : steady d (disk (world s)) (disk (world s5)))
    by (etrans; [apply F2|]; etrans; [apply F4|done]).
  destruct S as [Hs Hcc]. intros x. destruct (Hs x) as [<- _]. by apply Hcc.
Qed.

(** [capacity_used] counts the receipt files, at most [MAX_RECEIPTS] of them. *)
Lemma capacity_used_Ok s n s' :
  here d s -> consistent d (disk (world s)) -> capacity_used s = (Ok n, s') ->
  n = json_count d (disk (world s)) /\ n <= MAX_RECEIPTS.
Proof.
  intros Hh Hc Hr. unfold capacity_used in Hr. bind_inv Hr present s1 E1.
  destruct present; simpl in Hr.
  2: { apply ret_Ok in Hr as [-> _]. pose proof (view_validate_layout_false _ _ Hh Hc E1) as Hn.
       split; [|done]. unfold json_count. symmetry.
       destruct (json_children d (disk (world s))) as [|x l] eqn:E; [done|].
       assert (Hin : In x (json_children d (disk (world s)))) by (rewrite E; by left).
       apply json_children_spec in Hin as [_ [i Hi]]. by rewrite Hn in Hi. }
  pose proof (view_validate_layout_framed d (steady d) Hown s Hh) as F1. rewrite E1 in F1. simpl in F1.
  bind_inv Hr p s2 E2. apply gets_Ok in E2 as [-> ->]. bind_inv Hr entries s3 E3.
  pose proof (frame_here _ _ _ _ F1 Hh) as Hh1.
  pose proof (framed_lift d (steady d) unavailable _ (read_dir_quiet (steady d) Hown (directory (backend s1))) s1 Hh1) as F3.
  rewrite E3 in F3. simpl in F3.
  apply (read_dir_Ok d (owned_private d Hown)) in E3 as [S3 P3]; [|done].
  bind_inv Hr l s4 E4.
  apply (json_names_Ok d (owned_private d Hown)) in E4 as [-> Hlen]; [|by eapply frame_here].
  bind_inv Hr u s5 E5. apply ret_Ok in Hr as [-> _].
  assert (Hcount : Z.of_nat (length (List.filter (ends_with ".json") entries))
                   = json_count d (disk (world s3))).
  { unfold json_count, json_children. f_equal. apply Permutation_length. by apply bool_filter_perm. }
  rewrite (same_children_count _ _ _ S3) in Hcount.
  rewrite (same_children_count _ _ _ (proj1 (frame_children _ _ _ F1))) in Hcount.
  split; [done|]. unfold MAX_RECEIPTS in *. destruct Hlen as [->|]; simpl; lia.
Qed.

End Capacity.
