(* ===== verification/Inventory.v ===== *)
(** * The inventory is the endpoint's receipts

    A successful [OperationView::inventory] has validated every receipt file and returns
    exactly the receipts of this endpoint, newest first, whatever order the directory is
    enumerated in; admission and the wire summary follow from it. *)
From S2P Require Import Prelude Json Serde ReceiptFields Filesystem Store Publication StoredReceipt OperationView Reading.

#[export] Instance inventory_order_compare : CompareOrder inventory_order.
Proof.
  apply (compare_order_then (fun a b => str_cmp (created b) (created a))
           (fun a b => uuid_collation (receipt_id a) (receipt_id b))).
  - apply (compare_order_on (fun x y => bytes_cmp y x) (fun r => bytes_of (created r))).
    apply compare_order_flip, bytes_cmp_order.
  - apply (compare_order_on uuid_collation receipt_id), uuid_collation_order.
Qed.

Section Inventories.
Context {Env : Environment} {Codec : SerdeJson} (d : list string) (Hown : owned d).

(** The receipts of an endpoint *)
Definition belongs (e : string) (fs : Fs) (rec : StoredReceipt) : Prop :=
  endpoint rec = e /\ reads_as d fs (receipt_name (receipt_id rec)) rec.

Lemma belongs_same e fs fs' rec :
  same_children d fs fs' -> belongs e fs' rec <-> belongs e fs rec.
Proof.
  intros Hs. unfold belongs, reads_as, lookup_receipt.
  by rewrite (same_children_contents _ _ _ _ Hs).
Qed.

(** The receipt files a successful inventory saw, and what it read from them *)
Lemma inventory_files s l s' :
  here d s -> consistent d (disk (world s)) -> inventory s = (Ok l, s') ->
  exists names recs,
    Permutation names (json_children d (disk (world s))) /\
    Z.of_nat (length names) <= MAX_RECEIPTS /\
    Forall2 (reads_as d (disk (world s))) names recs /\
    l = sort_by inventory_order
          (List.filter (fun r => str_eqb (endpoint r) (endpoint_hash (backend s))) recs).
Proof.
  intros Hh Hc Hr. unfold inventory in Hr. bind_inv Hr ns s0 E0. apply gets_Ok in E0 as [-> ->].
  bind_inv Hr u s0 E0. destruct u. apply require_Ok in E0 as [_ ->].
  bind_inv Hr present s1 E1. destruct present; simpl in Hr.
  2: { apply ret_Ok in Hr as [-> _].
       pose proof (view_validate_layout_false d Hown _ _ Hh Hc E1) as Hn.
       exists [], []. split_and!; [|done|done|done].
       destruct (json_children d (disk (world s))) as [|x l] eqn:E; [done|].
       assert (Hin : In x (json_children d (disk (world s)))) by (rewrite E; by left).
       apply json_children_spec in Hin as [_ [i Hi]]. by rewrite Hn in Hi. }
  pose proof (owned_private d Hown) as Hpriv.
  pose proof (view_validate_layout_framed d (same_children d) Hpriv s Hh) as F1.
  rewrite E1 in F1. simpl in F1. pose proof (frame_here _ _ _ _ F1 Hh) as Hh1.
  bind_inv Hr p s2 E2. apply gets_Ok in E2 as [-> ->]. bind_inv Hr entries s3 E3.
  pose proof (framed_lift d (same_children d) unavailable _
    (read_dir_quiet (same_children d) Hpriv (directory (backend s1))) s1 Hh1) as F3.
  rewrite E3 in F3. simpl in F3. apply (read_dir_Ok d Hpriv) in E3 as [_ P3]; [|done].
  assert (F13 : frame d s s3) by (by etrans).
  bind_inv Hr jn s4 E4.
  pose proof (json_names_framed d (same_children d) Hpriv entries 0 s3
    (frame_here _ _ _ _ F13 Hh)) as F4. rewrite E4 in F4. simpl in F4.
  apply (json_names_Ok d Hpriv) in E4 as [-> Hlen]; [|by eapply frame_here].
  assert (F14 : frame d s s4) by (by etrans).
  bind_inv Hr recs s5 E5. bind_inv Hr u s6 E6. apply ret_Ok in Hr as [-> _].
  apply (read_all_Ok d Hpriv) in E5 as (all & Hall & ->);
    [|by eapply frame_here|by rewrite (kept_directory _ _ (frame_kept _ _ _ F1))].
  exists (List.filter (ends_with ".json") entries), all. split_and!.
  - etrans; [by apply bool_filter_perm|]. fold (json_children d (disk (world s3))).
    apply NoDup_Permutation; [apply json_children_NoDup..|].
    intros x. rewrite !list_elem_of_In, !json_children_spec.
    by destruct (frame_children _ _ _ F13 x) as [-> _].
  - unfold MAX_RECEIPTS in *. destruct Hlen as [->|]; simpl; lia.
  - eapply Forall2_impl; [exact Hall|]. intros x r (Hx & Hv & Hl). split_and!; [done..|].
    rewrite <- Hl. unfold lookup_receipt.
    by rewrite (same_children_contents _ _ _ _ (frame_children _ _ _ F14)).
  - by rewrite (kept_endpoint _ _ (frame_kept _ _ _ F14)).
Qed.

Lemma reads_as_fun fs x r r' : reads_as d fs x r -> reads_as d fs x r' -> r = r'.
Proof.
  intros (-> & _ & Hl) (Heq & _ & Hl'). unfold receipt_name in Heq.
  pose proof (strip_suffix_app ".json" (receipt_id r)) as H1.
  rewrite Heq, strip_suffix_app in H1. injection H1 as H1. rewrite H1, Hl in Hl'.
  by injection Hl'.
Qed.

Lemma reads_as_inj fs x x' r : reads_as d fs x r -> reads_as d fs x' r -> x = x'.
Proof. by intros (-> & _) (-> & _). Qed.

Lemma contents_named fs x b : contents d fs x = Some b -> is_Some (names fs !! (d ++ [x])).
Proof. unfold contents, entry, lookup_path. destruct (names fs !! _); [eauto|done]. Qed.

(** The receipts read are those of the files, each once. *)
Lemma Forall2_reads_NoDup fs names recs :
  NoDup names -> Forall2 (reads_as d fs) names recs -> NoDup recs.
Proof.
  intros Hnd Hf. induction Hf as [|x r names recs Hx Hf IH]; [constructor|].
  inversion Hnd as [|? ? Hnx Hn]; subst. constructor; [|by apply IH].
  intros Hin%list_elem_of_In. apply (Forall2_In_r _ _ _ _ Hf) in Hin as (y & Hy & Hyr).
  apply Hnx, list_elem_of_In. by rewrite (reads_as_inj _ _ _ _ Hx Hyr).
Qed.

Lemma Forall2_reads fs names recs rec :
  Permutation names (json_children d fs) -> Forall2 (reads_as d fs) names recs ->
  In rec recs <-> reads_as d fs (receipt_name (receipt_id rec)) rec.
Proof.
  intros Hp Hf. split.
  - intros (x & _ & Hx)%(Forall2_In_r _ _ _ _ Hf). by rewrite <- (proj1 Hx).
  - intros Hr. assert (Hin : In (receipt_name (receipt_id rec)) names).
    { apply (Permutation_in (l := json_children d fs)); [by symmetry|].
      apply json_children_spec. split; [apply receipt_name_json|].
      destruct Hr as (_ & _ & Hl). unfold lookup_receipt in Hl.
      destruct (contents d fs _) eqn:Ec; [|done]. by eapply contents_named. }
    apply (Forall2_In_l _ _ _ _ Hf) in Hin as (r & Hin & Hr').
    by rewrite (reads_as_fun _ _ _ _ Hr Hr').
Qed.

Lemma inventory_members s l s' :
  here d s -> consistent d (disk (world s)) -> inventory s = (Ok l, s') ->
  NoDup l /\ Sorted (in_order inventory_order) l /\ Z.of_nat (length l) <= MAX_RECEIPTS /\
  (forall rec, In rec l <-> belongs (endpoint_hash (backend s)) (disk (world s)) rec).
Proof.
  intros Hh Hc Hr. apply inventory_files in Hr as (names & recs & Hp & Hlen & Hf & ->); [|done..].
  assert (Hnd : NoDup recs).
  { eapply Forall2_reads_NoDup; [|done]. rewrite Hp. apply json_children_NoDup. }
  split_and!.
  - rewrite sort_by_perm. by apply NoDup_ListNoDup, List.NoDup_filter, NoDup_ListNoDup.
  - apply sort_by_sorted, _.
  - rewrite sort_by_perm. pose proof (List.filter_length_le
      (fun r => str_eqb (endpoint r) (endpoint_hash (backend s))) recs).
    apply Forall2_length in Hf. lia.
  - intros rec. rewrite <- list_elem_of_In, sort_by_perm, list_elem_of_In, filter_In, str_eqb_eq.
    rewrite (Forall2_reads _ _ _ _ Hp Hf). unfold belongs. tauto.
Qed.

Lemma inventory_validates s l s' x :
  here d s -> consistent d (disk (world s)) -> inventory s = (Ok l, s') ->
  is_json x -> is_Some (names (disk (world s)) !! (d ++ [x])) ->
  exists rec, reads_as d (disk (world s)) x rec.
Proof.
  intros Hh Hc Hr Hj Hn. apply inventory_files in Hr as (names & recs & Hp & _ & Hf & _); [|done..].
  assert (Hin : In x names).
  { apply (Permutation_in (l := json_children d (disk (world s)))); [by symmetry|].
    by apply json_children_spec. }
  apply (Forall2_In_l _ _ _ _ Hf) in Hin as (rec & _ & Hr). eauto.
Qed.

(** C29: an inventory is exact: when it succeeds, every receipt file in the directory was
    readable, decoded under its own identifier and passed its version's validation, and
    the result is exactly the receipts of this endpoint: none missing, none twice, at
    most [MAX_RECEIPTS], newest first and by identifier among equal times. *)
Theorem inventory_exact s l s' :
  here d s -> consistent d (disk (world s)) -> inventory s = (Ok l, s') ->
  (forall x, is_json x -> is_Some (names (disk (world s)) !! (d ++ [x])) ->
     exists rec, reads_as d (disk (world s)) x rec) /\
  (forall rec, In rec l <->
     endpoint rec = endpoint_hash (backend s) /\
     reads_as d (disk (world s)) (receipt_name (receipt_id rec)) rec) /\
  NoDup l /\ Sorted (in_order inventory_order) l /\ Z.of_nat (length l) <= MAX_RECEIPTS.
Proof.
  intros Hh Hc Hr. destruct (inventory_members _ _ _ Hh Hc Hr) as (? & ? & ? & Hm).
  split_and!; try done. intros x. by apply (inventory_validates _ _ _ _ Hh Hc Hr).
Qed.

(** The inventory does not depend on the order in which the directory is enumerated: two
    successful inventories of the same endpoint over the same files are equal lists, so
    the page a client is shown is stable. *)
Theorem inventory_deterministic s1 l1 s1' s2 l2 s2' :
  here d s1 -> here d s2 -> consistent d (disk (world s1)) ->
  steady d (disk (world s1)) (disk (world s2)) ->
  endpoint_hash (backend s2) = endpoint_hash (backend s1) ->
  inventory s1 = (Ok l1, s1') -> inventory s2 = (Ok l2, s2') -> l1 = l2.
Proof.
  intros Hh1 Hh2 Hc [Hs Hc2] He R1 R2. specialize (Hc2 Hc).
  destruct (inventory_members _ _ _ Hh1 Hc R1) as (N1 & _ & _ & M1).
  destruct (inventory_members _ _ _ Hh2 Hc2 R2) as (N2 & _ & _ & M2).
  apply inventory_files in R1 as (x1 & r1 & _ & _ & _ & E1); [|done..].
  apply inventory_files in R2 as (x2 & r2 & _ & _ & _ & E2); [|done..].
  assert (Hb : forall rec, belongs (endpoint_hash (backend s1)) (disk (world s1)) rec <->
                           belongs (endpoint_hash (backend s2)) (disk (world s2)) rec).
  { intros rec. by rewrite He, (belongs_same _ _ _ _ Hs). }
  assert (Hp : Permutation l1 l2).
  { apply NoDup_Permutation; [done..|]. intros rec. rewrite !list_elem_of_In, M1, M2. apply Hb. }
  rewrite E1, sort_by_perm in N1. rewrite E1, E2 in Hp. rewrite !sort_by_perm in Hp.
  rewrite E1, E2. apply sort_by_unique; [apply _|done|done|].
  intros a b Ha Hb' Eq. assert (Ia : In a l1) by (rewrite E1; apply list_elem_of_In;
    rewrite sort_by_perm; by apply list_elem_of_In).
  assert (Ib : In b l1) by (rewrite E1; apply list_elem_of_In;
    rewrite sort_by_perm; by apply list_elem_of_In).
  apply M1 in Ia as (_ & Ra), Ib as (_ & Rb). unfold inventory_order, then_with in Eq.
  destruct (str_cmp _ _); try done. apply uuid_collation_eq in Eq. rewrite Eq in Ra.
  by apply (reads_as_fun _ _ _ _ Ra).
Qed.

Lemma admission_except_spec own s a s' :
  here d s -> consistent d (disk (world s)) -> admission_except own s = (Ok a, s') ->
  adm_blocking a = false <->
  (forall rec, belongs (endpoint_hash (backend s)) (disk (world s)) rec ->
     Some (receipt_id rec) = own \/ blocking rec = false).
Proof.
  intros Hh Hc Hr. unfold admission_except in Hr. bind_inv Hr l s1 E1. apply ret_Ok in Hr as [-> _].
  destruct (inventory_members _ _ _ Hh Hc E1) as (_ & _ & _ & Hm). simpl.
  rewrite <- not_true_iff_false, existsb_exists. unfold not_own. split.
  - intros Hno rec Hb. apply Hm in Hb. destruct (decide (Some (receipt_id rec) = own)); [by left|].
    right. apply not_true_iff_false. intros Hbl. apply Hno. exists rec. split; [done|].
    by rewrite Hbl, bool_decide_eq_false_2.
  - intros Hall (rec & Hin%Hm & Hb). apply andb_true_iff in Hb as [Hown' Hb].
    apply negb_true_iff, bool_decide_eq_false in Hown'. destruct (Hall rec Hin); [done|congruence].
Qed.

Lemma is_dispatching_spec id s s' :
  here d s -> consistent d (disk (world s)) -> is_dispatching id s = (Ok true, s') ->
  exists rec, receipt_id rec = id /\ dispatching rec = true /\
    belongs (endpoint_hash (backend s)) (disk (world s)) rec.
Proof.
  intros Hh Hc Hr. unfold is_dispatching in Hr. bind_inv Hr l s1 E1. apply ret_Ok in Hr as [Hx _].
  destruct (inventory_members _ _ _ Hh Hc E1) as (_ & _ & _ & Hm).
  symmetry in Hx. apply existsb_exists in Hx as (rec & Hin%Hm & Hb).
  apply andb_true_iff in Hb as [Hid%str_eqb_eq Hd]. eauto.
Qed.

Lemma live_admission_spec own live s a s' :
  here d s -> consistent d (disk (world s)) ->
  admission_with_live_ids (Some own) live s = (Ok a, s') -> adm_blocking a = false ->
  (exists rec, receipt_id rec = own /\ dispatching rec = true /\
     belongs (endpoint_hash (backend s)) (disk (world s)) rec) /\
  (forall rec, belongs (endpoint_hash (backend s)) (disk (world s)) rec ->
     receipt_id rec = own \/ blocking rec = false \/
     (receipt_id rec ∈ live /\ known_live_in_flight rec = true)).
Proof.
  intros Hh Hc Hr Hb. unfold admission_with_live_ids in Hr. bind_inv Hr l s1 E1.
  apply lift_result_Ok in Hr as [Hr _]. unfold live_admission in Hr.
  destruct (inventory_members _ _ _ Hh Hc E1) as (_ & _ & _ & Hm).
  destruct (existsb _ (elements live)); [done|]. simpl in Hr.
  destruct (existsb (fun r => str_eqb (receipt_id r) own && dispatching r) l) eqn:Hd; [|done].
  simpl in Hr. injection Hr as <-. simpl in Hb. split.
  - apply existsb_exists in Hd as (rec & Hin%Hm & Hx).
    apply andb_true_iff in Hx as [Hid%str_eqb_eq Hx]. eauto.
  - intros rec Hbel%Hm. destruct (blocking rec) eqn:Ebl; [|by auto].
    destruct (decide (receipt_id rec = own)) as [|Hne]; [by left|]. right. right.
    apply not_true_iff_false in Hb. destruct (bool_decide (receipt_id rec ∈ live) && known_live_in_flight rec) eqn:El.
    + by apply andb_true_iff in El as [?%bool_decide_eq_true ?].
    + exfalso. apply Hb, existsb_exists. exists rec. split; [done|].
      rewrite Ebl, El. simpl. rewrite andb_true_r. apply negb_true_iff, bool_decide_eq_false.
      congruence.
Qed.

(** Admission fails closed: it reports no blocking receipt only when every receipt of
    the endpoint other than the caller's own is settled. *)
Theorem admission_unblocked own s a s' :
  here d s -> consistent d (disk (world s)) -> admission_except own s = (Ok a, s') ->
  adm_blocking a = false <->
  (forall rec, endpoint rec = endpoint_hash (backend s) ->
     reads_as d (disk (world s)) (receipt_name (receipt_id rec)) rec ->
     Some (receipt_id rec) = own \/ blocking rec = false).
Proof.
  intros Hh Hc Hr. rewrite (admission_except_spec _ _ _ _ Hh Hc Hr). unfold belongs. naive_solver.
Qed.

(** The wire summary never hides an unsettled operation behind settled ones: it shows at
    most [DISPLAY_RECEIPTS] receipts, blocking ones first, and when it shows a settled
    receipt it shows every blocking one. *)
Theorem summary_blocking_first receipts :
  let o := summary_of receipts in
  let blocked := List.filter blocking receipts in
  Z.of_nat (length (operations o)) = Z.min DISPLAY_RECEIPTS (Z.of_nat (length receipts)) /\
  (truncated o = true <-> DISPLAY_RECEIPTS < Z.of_nat (length receipts)) /\
  take (length blocked) (operations o) = map summary (take (Z.to_nat DISPLAY_RECEIPTS) blocked) /\
  os_total o = Z.of_nat (length receipts).
Proof.
  intros o blocked.
  assert (Hsum : forall l : list StoredReceipt,
    (length (List.filter blocking l) + length (List.filter (fun r => negb (blocking r)) l)
     = length l)%nat).
  { induction l as [|r l IH]; simpl; [done|]. destruct (blocking r); simpl; lia. }
  specialize (Hsum receipts). fold blocked in Hsum.
  assert (Hlen : length (operations o) = Nat.min 64 (length receipts)).
  { unfold o, summary_of. cbn [operations]. rewrite length_map, length_take, length_app.
    fold blocked. rewrite Hsum. done. }
  unfold DISPLAY_RECEIPTS. split_and!.
  - lia.
  - change (truncated o) with (Z.of_nat (length (operations o)) <? Z.of_nat (length receipts)).
    rewrite Z.ltb_lt. lia.
  - unfold o, summary_of. cbn [operations]. fold blocked.
    rewrite <- fmap_take, take_take. unfold DISPLAY_RECEIPTS. change (Z.to_nat 64) with 64%nat.
    destruct (Nat.le_gt_cases (length blocked) 64).
    + rewrite Nat.min_l by done. by rewrite take_app_length, take_ge.
    + rewrite Nat.min_r by lia. by rewrite take_app_le by lia.
  - done.
Qed.

End Inventories.
