(* ===== verification/Backend.v ===== *)
(** * The store's operations

    The constructor of [BackendStore] and its [prepare] and [update] operations for the
    five receipt versions, from [native/src/operation_store.rs]. *)
From S2P Require Import Prelude Json Serde ReceiptFields Filesystem Store StoredReceipt OperationView.
From S2P Require OperationReceipt GenericReceipt RestoreReceipt ApplyReceipt CaptureReceipt.

Record PrepareDetails := {
  d_scene_collection : option string;
  d_scene_uuid : option string;
  d_stage_id : option string;
  d_take_id : option string
}.

Definition no_details : PrepareDetails :=
  {| d_scene_collection := None; d_scene_uuid := None; d_stage_id := None; d_take_id := None |}.

Section Backend.
Context `{Environment} `{SerdeJson} `{Sha256}.

(** A store before its identities are read. *)
Definition unopened (r : Path) (endpoint : string) : BackendStore :=
  {| root := r; directory := path_join r "operation-receipts"; endpoint_hash := hash endpoint;
     root_identity := None; directory_identity := None; sequence := 0;
     read_namespace := {| poisoned := false; id_root := None; id_directory := None |} |}.

Definition new (r : Path) (endpoint : string) (w : World) : result StoreError State * World :=
  let c : M unit :=
    let* _ := validate_chain r true in
    let* d := gets directory in
    let* _ := validate_chain d true in
    let* root_identity := directory_metadata r in
    let* directory_identity := directory_metadata d in
    modify (set_identities root_identity directory_identity) in
  match c {| world := w; backend := unopened r endpoint |} with
  | (Ok _, s) => (Ok s, world s)
  | (Err e, s) => (Err e, world s)
  end.

(** [persist], for version 1 *)
Definition persist (receipt : OperationReceipt.OperationReceipt) (replacing : bool) : M unit :=
  let* _ := check_endpoint receipt in
  persist_value (OperationReceipt.operation_id receipt) (OperationReceipt.to_value receipt)
    replacing.

Definition v1_record (id : string) (kind : OperationReceipt.OperationKind) (endpoint : string)
  (generation : Z) (utc : string) (details : PrepareDetails) : OperationReceipt.OperationReceipt :=
  {| OperationReceipt.version := 1; OperationReceipt.operation_id := id;
     OperationReceipt.kind := kind; OperationReceipt.endpoint_hash := endpoint;
     OperationReceipt.collection_hash := hash <$> d_scene_collection details;
     OperationReceipt.scene_uuid := d_scene_uuid details;
     OperationReceipt.stage_id := d_stage_id details;
     OperationReceipt.take_id := d_take_id details;
     OperationReceipt.generation := generation; OperationReceipt.created_at := utc;
     OperationReceipt.updated_at := utc; OperationReceipt.phase := OperationReceipt.Prepared;
     OperationReceipt.request_dispatched := Some false;
     OperationReceipt.request_accepted := None;
     OperationReceipt.postcondition_observed := false;
     OperationReceipt.rendered_composition := "unverified" |}.

Definition prepare (id : string) (kind : OperationReceipt.OperationKind) (generation : Z)
  (utc : string) (details : PrepareDetails) : M OperationReceipt.OperationReceipt :=
  let* _ := require (valid_uuid id) InvalidIdentifier in
  let* _ := require (valid_timestamp utc) InvalidTimestamp in
  let* e := gets endpoint_hash in
  let* receipt := lift_result
    (OperationReceipt.checked (v1_record id kind e generation utc details)) in
  let* _ := persist receipt false in
  ret receipt.

Definition update (receipt : OperationReceipt.OperationReceipt)
  (u : OperationReceipt.OperationUpdate) (utc : string) : M OperationReceipt.OperationReceipt :=
  let* _ := require (valid_timestamp utc) InvalidTimestamp in
  let* _ := check_endpoint receipt in
  let* actual := view_read (OperationReceipt.operation_id receipt) in
  let* _ := require (bool_decide (actual = receipt)) Conflict in
  let* receipt := lift_result
    (OperationReceipt.checked (OperationReceipt.updated_record receipt u utc)) in
  let* _ := persist receipt true in
  ret receipt.

(** ** Versions 2 to 5 *)

(** What every [prepare_*] does with its checked record. *)
Definition publish_new {R} (id : string) (value_of : R -> Value) (receipt : R) : M R :=
  let* _ := persist_value id (value_of receipt) false in
  ret receipt.

(** What every [update_*] starts with: the endpoint is ours and the stored receipt is
    exactly the one the caller holds. *)
Definition check_current (r : StoredReceipt) : M unit :=
  let* e := gets endpoint_hash in
  let* _ := require (str_eqb (endpoint r) e) EndpointMismatch in
  let* directory := gets directory in
  let* actual := read_stored (path_join directory (receipt_name (receipt_id r))) in
  require (bool_decide (actual = r)) Conflict.

Definition prepare_generic (id : string) (kind : GenericReceipt.GenericKind) (generation : Z)
  (utc : string) : M GenericReceipt.GenericReceipt :=
  let* e := gets endpoint_hash in
  let* receipt := lift_result
    (GenericReceipt.checked (GenericReceipt.prepared_record id kind e generation utc)) in
  publish_new id GenericReceipt.to_value receipt.

Definition update_generic (receipt : GenericReceipt.GenericReceipt)
  (phase : GenericReceipt.GenericPhase) (utc : string) : M GenericReceipt.GenericReceipt :=
  let* _ := check_current (Generic receipt) in
  let* updated := lift_result (GenericReceipt.updated receipt phase utc) in
  let* _ := persist_value (GenericReceipt.operation_id updated)
              (GenericReceipt.to_value updated) true in
  ret updated.

Definition prepare_restore (id : string) (generation request_count : Z) (utc : string)
  : M RestoreReceipt.RestoreReceipt :=
  let* e := gets endpoint_hash in
  let* receipt := lift_result
    (RestoreReceipt.checked (RestoreReceipt.prepared_record id e generation request_count utc)) in
  publish_new id RestoreReceipt.to_value receipt.

Definition update_restore (receipt : RestoreReceipt.RestoreReceipt)
  (phase : RestoreReceipt.RestorePhase) (counts : option RestoreReceipt.RestoreCounts)
  (utc : string) : M RestoreReceipt.RestoreReceipt :=
  let* _ := check_current (Restore receipt) in
  let* updated := lift_result (RestoreReceipt.updated receipt (phase, counts) utc) in
  let* _ := persist_value (RestoreReceipt.operation_id updated)
              (RestoreReceipt.to_value updated) true in
  ret updated.

Definition prepare_apply (id : string) (generation creation_count : Z) (utc : string)
  : M ApplyReceipt.ApplyReceipt :=
  let* e := gets endpoint_hash in
  let* receipt := lift_result
    (ApplyReceipt.checked (ApplyReceipt.prepared_record id e generation creation_count utc)) in
  publish_new id ApplyReceipt.to_value receipt.

Definition update_apply (receipt : ApplyReceipt.ApplyReceipt) (u : ApplyReceipt.ApplyUpdate)
  (utc : string) : M ApplyReceipt.ApplyReceipt :=
  let* _ := check_current (Apply receipt) in
  let* updated := lift_result (ApplyReceipt.updated receipt u utc) in
  let* _ := persist_value (ApplyReceipt.operation_id updated) (ApplyReceipt.to_value updated) true in
  ret updated.

Definition prepare_capture (id : string) (generation : Z) (plan : CaptureReceipt.CapturePlan)
  (utc : string) : M CaptureReceipt.CaptureReceipt :=
  let* e := gets endpoint_hash in
  let* receipt := lift_result
    (CaptureReceipt.checked (CaptureReceipt.prepared_record id e generation plan utc)) in
  publish_new id CaptureReceipt.to_value receipt.

Definition update_capture (receipt : CaptureReceipt.CaptureReceipt)
  (u : CaptureReceipt.CaptureUpdate) (utc : string) : M CaptureReceipt.CaptureReceipt :=
  let* _ := check_current (Capture receipt) in
  let* updated := lift_result (CaptureReceipt.updated receipt u utc) in
  let* _ := persist_value (CaptureReceipt.operation_id updated)
              (CaptureReceipt.to_value updated) true in
  ret updated.

End Backend.
