(* ===== verification/Refinement.v ===== *)
(** * The store implements a map of receipts

    The abstract store: a map from identifiers to receipts, changed by one operation at a
    time: [prepare] adds a fresh identifier, [update] replaces exactly the receipt the
    caller holds by its successor.  The theorems say that [Backend] implements it under
    arbitrary call failures, and that a receipt therefore only ever moves along its phase
    machine. *)
From S2P Require Import Prelude Json Serde ReceiptFields PhaseMachine Filesystem Store Publication StoredReceipt OperationView Reading Backend.
From S2P Require OperationReceipt GenericReceipt RestoreReceipt ApplyReceipt CaptureReceipt.

(** ** Operations *)

Inductive Op :=
| PrepareV1 (id : string) (kind : OperationReceipt.OperationKind) (generation : Z) (utc : string)
    (details : PrepareDetails)
| UpdateV1 (r : OperationReceipt.OperationReceipt) (u : OperationReceipt.OperationUpdate)
    (utc : string)
| PrepareGeneric (id : string) (kind : GenericReceipt.GenericKind) (generation : Z) (utc : string)
| UpdateGeneric (r : GenericReceipt.GenericReceipt) (p : GenericReceipt.GenericPhase) (utc : string)
| PrepareRestore (id : string) (generation request_count : Z) (utc : string)
| UpdateRestore (r : RestoreReceipt.RestoreReceipt) (p : RestoreReceipt.RestorePhase)
    (counts : option RestoreReceipt.RestoreCounts) (utc : string)
| PrepareApply (id : string) (generation creation_count : Z) (utc : string)
| UpdateApply (r : ApplyReceipt.ApplyReceipt) (u : ApplyReceipt.ApplyUpdate) (utc : string)
| PrepareCapture (id : string) (generation : Z) (plan : CaptureReceipt.CapturePlan) (utc : string)
| UpdateCapture (r : CaptureReceipt.CaptureReceipt) (u : CaptureReceipt.CaptureUpdate)
    (utc : string).

Definition wrap {A} (inj : A -> StoredReceipt) (m : M A) : M StoredReceipt :=
  let* a := m in
  ret (inj a).

Section Spec.
Context `{Environment} `{SerdeJson} `{Sha256}.

Definition run_op (op : Op) : M StoredReceipt :=
  match op with
  | PrepareV1 id k g utc details => wrap V1 (prepare id k g utc details)
  | UpdateV1 r u utc => wrap V1 (update r u utc)
  | PrepareGeneric id k g utc => wrap Generic (prepare_generic id k g utc)
  | UpdateGeneric r p utc => wrap Generic (update_generic r p utc)
  | PrepareRestore id g n utc => wrap Restore (prepare_restore id g n utc)
  | UpdateRestore r p c utc => wrap Restore (update_restore r p c utc)
  | PrepareApply id g n utc => wrap Apply (prepare_apply id g n utc)
  | UpdateApply r u utc => wrap Apply (update_apply r u utc)
  | PrepareCapture id g plan utc => wrap Capture (prepare_capture id g plan utc)
  | UpdateCapture r u utc => wrap Capture (update_capture r u utc)
  end.

(** The receipt an operation writes, on its own *)
Definition op_result (e : string) (op : Op) : result StoreError StoredReceipt :=
  let wrap_result {A} (inj : A -> StoredReceipt) (r : result StoreError A) :=
    let? a := r in Ok (inj a) in
  match op with
  | PrepareV1 id k g utc details =>
      wrap_result V1 (OperationReceipt.checked (v1_record id k e g utc details))
  | UpdateV1 r u utc =>
      wrap_result V1 (OperationReceipt.checked (OperationReceipt.updated_record r u utc))
  | PrepareGeneric id k g utc =>
      wrap_result Generic (GenericReceipt.checked (GenericReceipt.prepared_record id k e g utc))
  | UpdateGeneric r p utc => wrap_result Generic (GenericReceipt.updated r p utc)
  | PrepareRestore id g n utc =>
      wrap_result Restore (RestoreReceipt.checked (RestoreReceipt.prepared_record id e g n utc))
  | UpdateRestore r p c utc => wrap_result Restore (RestoreReceipt.updated r (p, c) utc)
  | PrepareApply id g n utc =>
      wrap_result Apply (ApplyReceipt.checked (ApplyReceipt.prepared_record id e g n utc))
  | UpdateApply r u utc => wrap_result Apply (ApplyReceipt.updated r u utc)
  | PrepareCapture id g plan utc =>
      wrap_result Capture (CaptureReceipt.checked (CaptureReceipt.prepared_record id e g plan utc))
  | UpdateCapture r u utc => wrap_result Capture (CaptureReceipt.updated r u utc)
  end.

(** The receipt an update replaces *)
Definition op_expects (op : Op) : option StoredReceipt :=
  match op with
  | UpdateV1 r _ _ => Some (V1 r)
  | UpdateGeneric r _ _ => Some (Generic r)
  | UpdateRestore r _ _ _ => Some (Restore r)
  | UpdateApply r _ _ => Some (Apply r)
  | UpdateCapture r _ _ => Some (Capture r)
  | _ => None
  end.

(** The ranges Rust's types give the arguments *)
Definition op_typed (op : Op) : Prop :=
  match op with
  | UpdateCapture r u _ =>
      typed (Capture r) /\
      match u with CaptureReceipt.UAcknowledged c => CaptureReceipt.counts_u8 c | _ => True end
  | _ => True
  end.

End Spec.

(** ** Results are valid and typed *)

Lemma op_result_valid `{Sha256} e op rec : op_result e op = Ok rec -> valid rec = true.
Proof.
  unfold op_result. intros Hr.
  destruct op; apply bind_result_Ok in Hr as (a & Ha & [= <-]); simpl;
    first
    [ by apply OperationReceipt.v1_checked_Ok in Ha as [-> ?]
    | by apply GenericReceipt.generic_checked_Ok in Ha as [-> ?]
    | by apply RestoreReceipt.restore_checked_Ok in Ha as [-> ?]
    | by apply ApplyReceipt.apply_checked_Ok in Ha as [-> ?]
    | by apply CaptureReceipt.capture_checked_Ok in Ha as [-> ?]
    | by apply GenericReceipt.generic_updated_Ok in Ha as (-> & ? & ?)
    | by apply GenericReceipt.generic_updated_Ok in Ha as (? & -> & ?)
    | by apply RestoreReceipt.restore_updated_Ok in Ha as (? & -> & ?)
    | by apply ApplyReceipt.apply_updated_Ok in Ha as (? & ?)
    | by apply CaptureReceipt.capture_updated_Ok in Ha as (? & ?) ].
Qed.

Lemma op_result_typed `{Sha256} e op rec :
  op_typed op -> op_result e op = Ok rec -> typed rec.
Proof.
  unfold op_result. intros Ht Hr.
  destruct op; apply bind_result_Ok in Hr as (a & Ha & [= <-]); try done; simpl in *.
  - apply CaptureReceipt.capture_checked_Ok in Ha as [-> _].
    apply CaptureReceipt.prepared_record_typed.
  - apply CaptureReceipt.capture_updated_Ok in Ha as [Ha _]. destruct Ht.
    by eapply CaptureReceipt.next_typed.
Qed.

(** An update keeps the identifier and the endpoint. *)
Lemma op_result_same `{Sha256} e op rec old :
  op_expects op = Some old -> op_result e op = Ok rec ->
  receipt_id rec = receipt_id old /\ endpoint rec = endpoint old.
Proof.
  unfold op_result. intros Ho Hr.
  destruct op; try discriminate; injection Ho as <-;
    apply bind_result_Ok in Hr as (a & Ha & [= <-]); simpl.
  - by apply OperationReceipt.v1_checked_Ok in Ha as [-> _].
  - by apply GenericReceipt.generic_updated_Ok in Ha as (_ & -> & _).
  - by apply RestoreReceipt.restore_updated_Ok in Ha as (_ & -> & _).
  - apply ApplyReceipt.apply_updated_Ok in Ha as [Ha _].
    unfold ApplyReceipt.step, ok_or, bind_result in Ha. repeat case_match; by simplify_eq/=.
  - apply CaptureReceipt.capture_updated_Ok in Ha as [Ha _].
    unfold CaptureReceipt.next, ok_or, bind_result in Ha. repeat case_match; by simplify_eq/=.
Qed.

(** Errors of the pure part are refusals. *)
Definition refusal (e : StoreError) : Prop := e = Conflict \/ e = InvalidReceipt.

Lemma refusal_certain e : refusal e -> certain e.
Proof. by intros [-> | ->]. Qed.

Lemma apply_updated_refusal r u utc e : ApplyReceipt.updated r u utc = Err e -> refusal e.
Proof.
  unfold ApplyReceipt.updated, bind_result. destruct (ApplyReceipt.step r u utc) eqn:E.
  - unfold ApplyReceipt.checked. case_match; [done|]. intros [= <-]. by right.
  - intros [= <-]. left. unfold ApplyReceipt.step, ok_or, bind_result in E.
    repeat case_match; by simplify_eq/=.
Qed.

Lemma capture_updated_refusal r u utc e : CaptureReceipt.updated r u utc = Err e -> refusal e.
Proof.
  unfold CaptureReceipt.updated, bind_result. destruct (CaptureReceipt.next r u utc) eqn:E.
  - unfold CaptureReceipt.checked. case_match; [done|]. intros [= <-]. by right.
  - intros [= <-]. left. unfold CaptureReceipt.next, ok_or, bind_result in E.
    repeat case_match; by simplify_eq/=.
Qed.

Lemma op_result_refusal `{Sha256} e op err : op_result e op = Err err -> refusal err.
Proof.
  unfold op_result. destruct op;
    match goal with |- (let? _ := ?c in _) = _ -> _ => destruct c eqn:E; [done|intros [= <-]] end;
    first [by eapply apply_updated_refusal | by eapply capture_updated_refusal | idtac].
  all: unfold GenericReceipt.updated, RestoreReceipt.updated, OperationReceipt.checked,
    GenericReceipt.checked, RestoreReceipt.checked, ApplyReceipt.checked, CaptureReceipt.checked in E;
    cbv beta iota in E.
  all: repeat match type of E with (if ?b then _ else _) = _ => destruct b end;
    try discriminate E; injection E as <-; unfold refusal; auto.
Qed.

Lemma op_result_certain `{Sha256} e op err : op_result e op = Err err -> certain err.
Proof. intros Hr. by eapply refusal_certain, op_result_refusal. Qed.

(** ** The shape of an operation *)

Section Shape.
Context {Env : Environment} {Codec : SerdeJson} {Sha : Sha256} (d : list string) (Hpriv : private d).

(** It stops before touching a receipt, or it publishes its result over what it expects. *)
Definition shape (op : Op) (s : State) (r : result StoreError StoredReceipt) (s' : State) : Prop :=
  (exists e, r = Err e /\ certain e /\ frame d s s') \/
  (exists rec s1 pr, frame d s s1 /\ op_result (endpoint_hash (backend s)) op = Ok rec /\
     (forall old, op_expects op = Some old ->
        lookup_receipt d (disk (world s)) (receipt_id old) = Some (Ok old)) /\
     persist_value (receipt_id rec) (to_value rec) (negb (is_none (op_expects op))) s1 = (pr, s') /\
     r = match pr with Ok _ => Ok rec | Err e => Err e end).

Lemma wrap_run {A} (inj : A -> StoredReceipt) (m : M A) s :
  wrap inj m s = let '(r, s') := m s in (match r with Ok a => Ok (inj a) | Err e => Err e end, s').
Proof. unfold wrap, bind, ret. by destruct (m s) as [[a|e] s']. Qed.

Lemma prepare_shape {R} (inj : R -> StoredReceipt) (value_of : R -> Value)
  (mk : string -> result StoreError R) op id s r s' :
  op_expects op = None ->
  (forall e, op_result e op = let? a := mk e in Ok (inj a)) ->
  (forall e a, mk e = Ok a -> receipt_id (inj a) = id) ->
  (forall a, to_value (inj a) = value_of a) ->
  wrap inj (let* e := gets endpoint_hash in
            let* a := lift_result (mk e) in
            publish_new id value_of a) s = (r, s') ->
  shape op s r s'.
Proof.
  intros Hex Hres Hid Hval. rewrite wrap_run. unfold bind at 1, gets, bind at 1, lift_result.
  specialize (Hres (endpoint_hash (backend s))).
  pose proof (op_result_certain (endpoint_hash (backend s)) op) as Hce.
  destruct (mk (endpoint_hash (backend s))) as [a|e] eqn:Ea; simpl in Hres; rewrite Hres in Hce.
  2: { intros [= <- <-]. left. exists e. split_and!; [done|by apply Hce|reflexivity]. }
  unfold publish_new, bind, ret. destruct (persist_value id (value_of a) false s) as [pr s1] eqn:Ep.
  intros Heq. right. exists (inj a), s, pr. rewrite Hex, (Hid _ _ Ea), Hval.
  split_and!; [reflexivity|done|done|..]; destruct pr; simplify_eq/=; done.
Qed.

Lemma check_current_framed r : framed d (check_current r).
Proof.
  pose proof (read_stored_framed d (same_children d) Hpriv). unfold check_current. framed_step.
Qed.

Lemma check_current_raises {P} `{!Tolerates P} r : raises (check_current r) P.
Proof. unfold check_current. raises_step. Qed.

Lemma check_current_Ok r s s' :
  here d s -> check_current r s = (Ok tt, s') ->
  lookup_receipt d (disk (world s)) (receipt_id r) = Some (Ok r).
Proof.
  intros Hh Hc. unfold check_current in Hc. bind_inv Hc e s1 H1. apply gets_Ok in H1 as [_ ->].
  bind_inv Hc u s2 H2. destruct u. apply require_Ok in H2 as [_ ->].
  bind_inv Hc p s3 H3. apply gets_Ok in H3 as [-> ->].
  bind_inv Hc actual s4 H4. apply require_Ok in Hc as [->%bool_decide_eq_true _].
  apply (read_stored_Ok d Hpriv _ (receipt_id r)) in H4 as [_ Hl]; [done| |done].
  unfold path_join. simpl. by rewrite Hh.
Qed.

Lemma update_shape {R} (inj : R -> StoredReceipt) (id_of : R -> string) (value_of : R -> Value)
  (c : result StoreError R) op old s r s' :
  here d s -> op_expects op = Some old ->
  (forall e, op_result e op = let? a := c in Ok (inj a)) ->
  (forall a, receipt_id (inj a) = id_of a) -> (forall a, to_value (inj a) = value_of a) ->
  wrap inj (let* _ := check_current old in
            let* a := lift_result c in
            let* _ := persist_value (id_of a) (value_of a) true in
            ret a) s = (r, s') ->
  shape op s r s'.
Proof.
  intros Hh Hex Hres Hid Hval. rewrite wrap_run. unfold bind at 1.
  pose proof (check_current_framed old s Hh) as Hf.
  destruct (check_current old s) as [[[]|e] s1] eqn:Ec; simpl in Hf.
  2: { intros [= <- <-]. left. exists e. split_and!; [done|by eapply check_current_raises|done]. }
  apply check_current_Ok in Ec; [|done]. unfold bind at 1, lift_result.
  specialize (Hres (endpoint_hash (backend s))).
  pose proof (op_result_certain (endpoint_hash (backend s)) op) as Hce.
  destruct c as [a|e]; simpl in Hres; rewrite Hres in Hce.
  2: { intros [= <- <-]. left. exists e. split_and!; [done|by apply Hce|done]. }
  unfold bind, ret. destruct (persist_value (id_of a) (value_of a) true s1) as [pr s2] eqn:Ep.
  intros Heq. right. exists (inj a), s1, pr. rewrite Hex, Hid, Hval.
  split_and!; [done|done|by intros ? [= <-]|..]; destruct pr; simplify_eq/=; done.
Qed.

(** *** Version 1 *)

Lemma view_read_Ok id s r s' :
  here d s -> view_read id s = (Ok r, s') ->
  lookup_receipt d (disk (world s)) id = Some (Ok (V1 r)).
Proof.
  intros Hh Hr. unfold view_read in Hr. bind_inv Hr u s1 E1. destruct u.
  apply require_Ok in E1 as [_ ->]. bind_inv Hr present s2 E2.
  pose proof (view_validate_layout_framed d (same_children d) Hpriv s Hh) as Hf. rewrite E2 in Hf. simpl in Hf.
  bind_inv Hr u s3 E3. destruct u. apply require_Ok in E3 as [_ ->].
  bind_inv Hr p s4 E4. apply gets_Ok in E4 as [-> ->].
  bind_inv Hr r5 s5 E5. bind_inv Hr u s6 E6. bind_inv Hr u2 s7 E7. bind_inv Hr u3 s8 E8.
  apply ret_Ok in Hr as [-> _]. clear E6 E7 E8.
  unfold read_receipt in E5. bind_inv E5 bytes s9 E9. apply lift_result_Ok in E5 as [E5 _].
  apply (read_bytes_Ok d Hpriv _ (receipt_name id)) in E9 as [_ Hc];
    [|unfold path_join; simpl; by rewrite (frame_here _ _ _ _ Hf Hh)|by eapply frame_here].
  rewrite (same_children_contents _ _ _ _ (frame_children _ _ _ Hf)) in Hc.
  unfold lookup_receipt. rewrite Hc. simpl. f_equal. unfold decode.
  destruct (from_slice bytes) as [v|]; [|done]. simpl in *.
  unfold corrupt_or in E5. destruct (OperationReceipt.from_value v) eqn:Ev; [|done].
  injection E5 as ->. by apply v1_stored_of_value.
Qed.

(** Publication of a version 1 receipt of this endpoint *)
Lemma persist_run r replacing s :
  OperationReceipt.endpoint_hash r = endpoint_hash (backend s) ->
  persist r replacing s =
  persist_value (receipt_id (V1 r)) (to_value (V1 r)) replacing s.
Proof.
  intros He. unfold persist, check_endpoint, bind, gets, require. by rewrite He, str_eqb_refl.
Qed.

Lemma prepare_v1_shape id k g utc details s r s' :
  wrap V1 (prepare id k g utc details) s = (r, s') ->
  shape (PrepareV1 id k g utc details) s r s'.
Proof.
  rewrite wrap_run. unfold prepare, bind, gets, lift_result.
  unfold require at 1. destruct (valid_uuid id); simpl.
  2: { intros [= <- <-]. left. eexists. split_and!; [done|done|reflexivity]. }
  unfold require. destruct (valid_timestamp utc); simpl.
  2: { intros [= <- <-]. left. eexists. split_and!; [done|done|reflexivity]. }
  pose proof (op_result_certain (endpoint_hash (backend s)) (PrepareV1 id k g utc details)) as Hce.
  unfold shape, op_result in *. cbv zeta in *.
  destruct (OperationReceipt.checked _) as [rec|e] eqn:Ec; simpl in Hce.
  2: { intros [= <- <-]. left. exists e. split_and!; [done|by apply Hce|reflexivity]. }
  apply OperationReceipt.v1_checked_Ok in Ec as [-> _].
  rewrite persist_run by done. destruct (persist_value _ _ _ s) as [pr s1] eqn:Ep.
  intros Heq. right. eexists _, s, pr. split_and!; [reflexivity|done|done|..];
    destruct pr; simplify_eq/=; done.
Qed.

Lemma update_v1_shape old u utc s r s' :
  here d s -> wrap V1 (update old u utc) s = (r, s') -> shape (UpdateV1 old u utc) s r s'.
Proof.
  intros Hh. rewrite wrap_run. unfold update, bind, lift_result.
  unfold require at 1. destruct (valid_timestamp utc); simpl.
  2: { intros [= <- <-]. left. eexists. split_and!; [done|done|reflexivity]. }
  pose proof (check_endpoint_framed d (same_children d) old s Hh) as F1.
  destruct (check_endpoint old s) as [[[]|e] s1] eqn:E1; simpl in F1.
  2: { intros [= <- <-]. left. exists e. split_and!; [done|by eapply check_endpoint_raises|done]. }
  assert (s1 = s /\ OperationReceipt.endpoint_hash old = endpoint_hash (backend s)) as [-> Hend].
  { unfold check_endpoint in E1. bind_inv E1 e s2 E2. apply gets_Ok in E2 as [-> ->].
    by apply require_Ok in E1 as [?%str_eqb_eq ->]. }
  pose proof (view_read_framed d (same_children d) Hpriv (OperationReceipt.operation_id old) s Hh) as F2.
  destruct (view_read _ s) as [[actual|e] s2] eqn:E2; simpl in F2.
  2: { intros [= <- <-]. left. exists e. split_and!; [done|by eapply view_read_raises|done]. }
  apply view_read_Ok in E2; [|done]. unfold require.
  destruct (bool_decide (actual = old)) eqn:Eb; simpl.
  2: { intros [= <- <-]. left. exists Conflict. done. }
  apply bool_decide_eq_true in Eb as ->.
  pose proof (op_result_certain (endpoint_hash (backend s)) (UpdateV1 old u utc)) as Hce.
  unfold shape, op_result in *. cbv zeta in *.
  destruct (OperationReceipt.checked _) as [rec|e] eqn:Ec; simpl in Hce.
  2: { intros [= <- <-]. left. exists e. split_and!; [done|by apply Hce|done]. }
  apply OperationReceipt.v1_checked_Ok in Ec as [-> _].
  rewrite persist_run by (simpl; by rewrite (kept_endpoint _ _ (frame_kept _ _ _ F2))).
  destruct (persist_value _ _ _ s2) as [pr s3] eqn:Ep.
  intros Heq. right. eexists _, s2, pr. split_and!; [done|done|by intros ? [= <-]|..];
    destruct pr; simplify_eq/=; done.
Qed.

Lemma run_op_shape op s r s' : here d s -> run_op op s = (r, s') -> shape op s r s'.
Proof.
  intros Hh. destruct op; cbn [run_op].
  - apply prepare_v1_shape.
  - by apply update_v1_shape.
  - apply prepare_shape; try done. by intros e a [-> _]%GenericReceipt.generic_checked_Ok.
  - apply (update_shape _ _ _ _ _ (Generic r0)); done.
  - apply prepare_shape; try done. by intros e a [-> _]%RestoreReceipt.restore_checked_Ok.
  - apply (update_shape _ _ _ _ _ (Restore r0)); done.
  - apply prepare_shape; try done. by intros e a [-> _]%ApplyReceipt.apply_checked_Ok.
  - apply (update_shape _ _ _ _ _ (Apply r0)); done.
  - apply prepare_shape; try done. by intros e a [-> _]%CaptureReceipt.capture_checked_Ok.
  - apply (update_shape _ _ _ _ _ (Capture r0)); done.
Qed.

End Shape.

(** ** Refinement *)

Notation ReceiptMap := (string -> option (result StoreError StoredReceipt)).

(** One step of the abstract store *)
Record abstract_step `{Sha256} (e : string) (op : Op) (rec : StoredReceipt) (m m' : ReceiptMap)
  : Prop := {
  as_result : op_result e op = Ok rec;
  as_before : m (receipt_id rec) = (fun old => Ok old) <$> op_expects op;
  as_after : m' (receipt_id rec) = Some (Ok rec);
  as_others : forall id, id <> receipt_id rec -> m' id = m id
}.

Lemma receipt_name_inj id id' : receipt_name id = receipt_name id' -> id = id'.
Proof.
  unfold receipt_name. intros Heq. pose proof (strip_suffix_app ".json" id) as H1.
  rewrite Heq, strip_suffix_app in H1. by injection H1.
Qed.

Section Refines.
Context {Env : Environment} {Codec : SerdeJson} {Sha : Sha256} (d : list string) (Hpriv : private d).

Lemma untouched_lookup fs fs' id :
  untouched d fs fs' -> lookup_receipt d fs' id = lookup_receipt d fs id.
Proof.
  intros Hu. unfold lookup_receipt. destruct (Hu _ (receipt_name_json id)) as [-> _]. done.
Qed.

Lemma persist_abstract op rec s s1 pr s' :
  here d s -> op_typed op -> frame d s s1 ->
  op_result (endpoint_hash (backend s)) op = Ok rec ->
  (forall old, op_expects op = Some old ->
     lookup_receipt d (disk (world s)) (receipt_id old) = Some (Ok old)) ->
  persist_value (receipt_id rec) (to_value rec) (negb (is_none (op_expects op))) s1 = (pr, s') ->
  pr = Ok tt \/ pr = Err DurabilityUncertain ->
  abstract_step (endpoint_hash (backend s)) op rec
    (lookup_receipt d (disk (world s))) (lookup_receipt d (disk (world s'))).
Proof.
  intros Hh Ht Hf Hres Hex Hp Hpr. pose proof (frame_here _ _ _ _ Hf Hh) as Hh1.
  apply (persist_value_outcome d Hpriv) in Hp as [[_ Ho] Hb]; [|done].
  destruct (Hb Hpr) as [Hent _]. rewrite negb_involutive in Hent.
  rewrite (same_children_entry _ _ _ _ (frame_children _ _ _ Hf)) in Hent.
  assert (Hw : wrote d (receipt_name (receipt_id rec)) (to_vec (to_value rec))
                 (disk (world s1)) (disk (world s'))) by (by destruct Hpr as [-> | ->]).
  destruct Hw as [(i & t & He) Hoth]. split; [done| | |].
  - destruct (op_expects op) as [old|] eqn:Eo; simpl in *.
    + destruct (op_result_same _ _ _ _ Eo Hres) as [-> _]. by apply Hex.
    + unfold lookup_receipt, contents.
      by destruct (entry d (disk (world s)) (receipt_name (receipt_id rec))).
  - unfold lookup_receipt, contents. rewrite He. simpl. f_equal.
    apply decode_to_vec; [by eapply op_result_valid|by eapply op_result_typed].
  - intros id Hid. unfold lookup_receipt.
    destruct (Hoth _ (receipt_name_json id)) as [-> _]; [by intros ?%receipt_name_inj|].
    by rewrite (same_children_contents _ _ _ _ (frame_children _ _ _ Hf)).
Qed.

Lemma run_op_refines op s r s' :
  here d s -> op_typed op -> run_op op s = (r, s') ->
  kept (backend s) (backend s') /\
  match r with
  | Ok rec => abstract_step (endpoint_hash (backend s)) op rec
                (lookup_receipt d (disk (world s))) (lookup_receipt d (disk (world s')))
  | Err DurabilityUncertain =>
      exists rec, abstract_step (endpoint_hash (backend s)) op rec
        (lookup_receipt d (disk (world s))) (lookup_receipt d (disk (world s')))
  | Err _ => forall id, lookup_receipt d (disk (world s')) id = lookup_receipt d (disk (world s)) id
  end.
Proof.
  intros Hh Ht Hrun. apply (run_op_shape d Hpriv) in Hrun; [|done].
  destruct Hrun as [(e & -> & He & [Hk Hc])|(rec & s1 & pr & Hf & Hres & Hex & Hp & ->)].
  { split; [done|]. apply same_children_untouched in Hc.
    destruct e; try done; intros id; by apply untouched_lookup. }
  pose proof (persist_abstract op rec s s1 pr s' Hh Ht Hf Hres Hex Hp) as Habs.
  apply (persist_value_outcome d Hpriv) in Hp as [[Hk Ho] _]; [|by eapply frame_here].
  split; [by etrans; [apply Hf|]|].
  destruct pr as [[]|e]; [by auto|].
  destruct e; try (by intros id; rewrite (untouched_lookup _ _ _ Ho); unfold lookup_receipt;
                   rewrite (same_children_contents _ _ _ _ (frame_children _ _ _ Hf))).
  eauto.
Qed.

(** ** Histories of a store *)

(** The states operations lead to, whatever they return *)
Inductive store_run : State -> State -> Prop :=
| run_nil s : store_run s s
| run_cons s op r s1 s2 :
    op_typed op -> run_op op s = (r, s1) -> store_run s1 s2 -> store_run s s2.

(** A receipt and a later one of the same identifier *)
Definition advances (r r' : StoredReceipt) : Prop :=
  match r, r' with
  | V1 a, V1 b =>
      OperationReceipt.kind b = OperationReceipt.kind a /\
      OperationReceipt.generation b = OperationReceipt.generation a /\
      OperationReceipt.created_at b = OperationReceipt.created_at a
  | Generic a, Generic b => exists us, history a us b
  | Restore a, Restore b => exists us, history a us b
  | Apply a, Apply b => exists us, history a us b
  | Capture a, Capture b => exists us, history a us b
  | _, _ => False
  end.

Lemma history_snoc {R U} `{!PhaseMachine R U} r us r1 u utc r2 :
  history r us r1 -> pm_updated r1 u utc = Ok r2 -> history r (us ++ [(u, utc)]) r2.
Proof.
  induction 1 as [r|r v t r1' us r1 Hv _ IH]; simpl; intros Hu.
  - econstructor; [done|]. constructor.
  - econstructor; [done|]. by apply IH.
Qed.

Lemma advances_refl r : advances r r.
Proof. destruct r; simpl; try (by exists []; constructor); done. Qed.

Lemma advances_step r old op rec :
  advances r old -> op_expects op = Some old ->
  forall e, op_result e op = Ok rec -> advances r rec.
Proof.
  intros Ha Hex e Hr. unfold op_result in Hr.
  destruct op; try discriminate; injection Hex as <-;
    apply bind_result_Ok in Hr as (a & Hu & [= <-]); destruct r; try done; simpl in *.
  - by apply OperationReceipt.v1_checked_Ok in Hu as [-> _].
  - destruct Ha as [us Ha]. eexists. by eapply (history_snoc _ _ _ p).
  - destruct Ha as [us Ha]. eexists. by apply (history_snoc _ _ _ (p, counts) utc _ Ha).
  - destruct Ha as [us Ha]. eexists. by eapply (history_snoc _ _ _ u).
  - destruct Ha as [us Ha]. eexists. by eapply (history_snoc _ _ _ u).
Qed.

Lemma abstract_step_advances e op rec m m' id r0 r :
  abstract_step e op rec m m' -> m id = Some (Ok r) -> advances r0 r ->
  exists r', m' id = Some (Ok r') /\ advances r0 r'.
Proof.
  intros [Hres Hb Ha Ho] Hm Hadv. destruct (decide (id = receipt_id rec)) as [->|Hne].
  - exists rec. split; [done|]. rewrite Hm in Hb.
    destruct (op_expects op) as [old|] eqn:Eo; [|done]. injection Hb as ->.
    by eapply advances_step.
  - exists r. by rewrite Ho.
Qed.

Lemma store_run_advances s s' id r0 r :
  store_run s s' -> here d s -> lookup_receipt d (disk (world s)) id = Some (Ok r) ->
  advances r0 r ->
  exists r', lookup_receipt d (disk (world s')) id = Some (Ok r') /\ advances r0 r'.
Proof.
  intros Hrun. revert r. induction Hrun as [s|s op res s1 s2 Ht Hop Hrun IH]; intros r Hh Hl Hadv.
  { eauto. }
  apply run_op_refines in Hop as [Hk Hop]; [|done|done].
  assert (exists r1, lookup_receipt d (disk (world s1)) id = Some (Ok r1) /\ advances r0 r1)
    as (r1 & Hl1 & Ha1).
  { destruct res as [rec|e]; [by eapply abstract_step_advances|].
    destruct e; try (exists r; split; [by rewrite Hop|done]).
    destruct Hop as [rec Hop]. by eapply abstract_step_advances. }
  eapply IH; [|done|done]. by eapply kept_here.
Qed.

(** C3: the store implements a map from identifiers to receipts: whatever fails underneath,
    an operation that returns a receipt has replaced exactly the entry of that identifier,
    which before held what the operation expected (nothing for a [prepare], the caller's
    receipt for an [update]); an uncertain result stands for the same step; any other error
    leaves every entry as it was. *)
Theorem store_refines_receipt_map op s r s' :
  here d s -> op_typed op -> run_op op s = (r, s') ->
  let m := lookup_receipt d (disk (world s)) in
  let m' := lookup_receipt d (disk (world s')) in
  let step rec :=
    op_result (endpoint_hash (backend s)) op = Ok rec /\
    m (receipt_id rec) = (fun old => Ok old) <$> op_expects op /\
    m' (receipt_id rec) = Some (Ok rec) /\
    (forall id, id <> receipt_id rec -> m' id = m id) in
  match r with
  | Ok rec => step rec
  | Err DurabilityUncertain => exists rec, step rec
  | Err _ => forall id, m' id = m id
  end.
Proof.
  intros Hh Ht Hr m m' step. apply (run_op_refines _ _ _ _ Hh Ht) in Hr as [_ Hr].
  destruct r as [rec|[]]; try exact Hr; [by destruct Hr|]. destruct Hr as [rec []]. by exists rec.
Qed.

(** Nothing the store does ever loses or rewinds a receipt: after any sequence of its
    operations, successful or not, every receipt that was readable is still readable under
    its identifier, in the same version, and is the same receipt or one reached from it by
    a sequence of allowed updates of its phase machine (for version 1, with kind,
    generation and creation time unchanged). *)
Theorem receipts_only_advance s s' id r :
  store_run s s' -> here d s -> lookup_receipt d (disk (world s)) id = Some (Ok r) ->
  exists r', lookup_receipt d (disk (world s')) id = Some (Ok r') /\ advances r r'.
Proof. intros Hrun Hh Hl. eapply store_run_advances; [done..|]. apply advances_refl. Qed.

End Refines.
