(* ===== verification/Capacity.v ===== *)
(** * What the store promises the broker

    The interface the broker is verified against: how many receipts there are, which
    identifiers have one, and how each operation changes that.  The laws are those of the
    operations in [Backend] and [OperationView]; the instance proves them for a store that
    owns its directory, under arbitrary call failures. *)
From S2P Require Import Prelude Json Serde ReceiptFields PhaseMachine Filesystem Store Publication StoredReceipt OperationView Reading Backend Refinement.
From S2P Require OperationReceipt GenericReceipt RestoreReceipt ApplyReceipt CaptureReceipt.

(** Is it a [prepare]? *)
Definition is_prepare (op : Op) : bool := is_none (op_expects op).

(** The identifier a [prepare] is given *)
Definition op_new_id (op : Op) : option string :=
  match op with
  | PrepareV1 id _ _ _ _ | PrepareGeneric id _ _ _ | PrepareRestore id _ _ _
  | PrepareApply id _ _ _ | PrepareCapture id _ _ _ => Some id
  | _ => None
  end.

Lemma op_result_new_id `{Sha256} e op rec id :
  op_result e op = Ok rec -> op_new_id op = Some id -> receipt_id rec = id.
Proof.
  unfold op_result. intros Hr Hid.
  destruct op; try discriminate; injection Hid as <-;
    apply bind_result_Ok in Hr as (a & Ha & [= <-]); simpl.
  - by apply OperationReceipt.v1_checked_Ok in Ha as [-> _].
  - by apply GenericReceipt.generic_checked_Ok in Ha as [-> _].
  - by apply RestoreReceipt.restore_checked_Ok in Ha as [-> _].
  - by apply ApplyReceipt.apply_checked_Ok in Ha as [-> _].
  - by apply CaptureReceipt.capture_checked_Ok in Ha as [-> _].
Qed.

(** Was a receipt published, as far as the caller can know? *)
Definition may_publish {A} (r : result StoreError A) : bool :=
  match r with
  | Ok _ | Err DurabilityUncertain => true
  | Err _ => false
  end.

Class CapacityStore {Env : Environment} {Codec : SerdeJson} {Sha : Sha256} := {
  (** a store the laws speak of; how many receipts it holds; whether it holds one *)
  cs_ok : State -> Prop;
  cs_used : State -> Z;
  cs_holds : State -> string -> Prop;
  (** what reading changes *)
  cs_stays (s s' : State) : Prop :=
    cs_ok s -> cs_ok s' /\ cs_used s' = cs_used s /\
    (forall id, cs_holds s id -> cs_holds s' id) /\
    poisoned (read_namespace (backend s')) = poisoned (read_namespace (backend s));
  cs_admission s own : cs_stays s (snd (admission_except own s));
  cs_live_admission s own live : cs_stays s (snd (admission_with_live_ids own live s));
  cs_dispatching s id : cs_stays s (snd (is_dispatching id s));
  cs_capacity_stays s : cs_stays s (snd (capacity_used s));
  cs_capacity s n s' : cs_ok s -> capacity_used s = (Ok n, s') -> n = cs_used s;
  cs_capacity_limit s s' :
    cs_ok s -> capacity_used s = (Err InventoryLimit, s') -> MAX_RECEIPTS < cs_used s;
  cs_used_nonneg s : 0 <= cs_used s;
  cs_used_bound s (l : gset string) :
    (forall id, id ∈ l -> cs_holds s id) -> Z.of_nat (size l) <= cs_used s;
  cs_mark s : cs_ok s ->
    cs_ok (snd (mark_uncertain s)) /\ cs_used (snd (mark_uncertain s)) = cs_used s /\
    (forall id, cs_holds s id -> cs_holds (snd (mark_uncertain s)) id) /\
    poisoned (read_namespace (backend (snd (mark_uncertain s)))) = true;
  (** what an operation changes *)
  cs_op op s r s' : cs_ok s -> run_op op s = (r, s') ->
    cs_ok s' /\ (forall id, cs_holds s id -> cs_holds s' id) /\
    poisoned (read_namespace (backend s')) = poisoned (read_namespace (backend s)) /\
    cs_used s' <= cs_used s + (if is_prepare op && may_publish r then 1 else 0) /\
    r <> Err InventoryLimit /\
    (forall rec, r = Ok rec -> cs_holds s' (receipt_id rec) /\
       forall id, op_new_id op = Some id -> receipt_id rec = id)
}.

(** ** Consistency of the directory is kept by publications *)

Lemma lookup_path_set_inode fs i f q :
  lookup_path (set_inode i f fs) q = None <-> lookup_path fs q = None.
Proof.
  unfold lookup_path. simpl. destruct (names fs !! q) as [j|]; [|done].
  destruct (decide (i = j)) as [->|]; [rewrite lookup_alter_eq|by rewrite lookup_alter_ne].
  by destruct (inodes fs !! j).
Qed.

Lemma child_not_dir (d : list string) x : d <> d ++ [x].
Proof. intros E. apply (f_equal length) in E. rewrite length_app in E. simpl in E. lia. Qed.

(** Files come and go below [d], which stays named. *)
Definition stays_consistent (d : list string) : relation Fs :=
  fun fs fs' => consistent d fs -> consistent d fs'.

#[export] Instance stays_consistent_preorder d : PreOrder (stays_consistent d).
Proof. split; unfold stays_consistent; [by intros fs|intros fs1 fs2 fs3; auto]. Qed.

Lemma bind_new_lookup p n fs q :
  lookup_path (snd (bind_new p n fs)) q = None -> p <> q -> lookup_path fs q = None.
Proof.
  unfold lookup_path. simpl. intros Hl Hp. rewrite lookup_insert_ne in Hl by done.
  destruct (names fs !! q) as [j|] eqn:Ej; [|done]. apply fresh_inode_names in Ej.
  by rewrite lookup_insert_ne in Hl.
Qed.

Lemma bind_new_lookup_eq p n fs : lookup_path (snd (bind_new p n fs)) p <> None.
Proof. unfold lookup_path. simpl. by rewrite !lookup_insert_eq. Qed.

Lemma mkdir_consistent d p mode fs :
  (length p <= length d)%nat -> stays_consistent d fs (snd (act_mkdir p mode fs)).
Proof.
  intros Hlen Hc. unfold act_mkdir. destruct (names fs !! p); simpl; [done|].
  destruct (is_directory_at fs (dir_parent p)); simpl; [|done].
  intros Hl x. destruct (decide (p = d)) as [->|Hne]; [by apply bind_new_lookup_eq in Hl|].
  apply bind_new_lookup in Hl; [|done]. simpl. rewrite lookup_insert_ne; [by apply Hc|].
  intros ->. rewrite length_app in Hlen. simpl in Hlen. lia.
Qed.

Lemma create_consistent d x mode fs :
  stays_consistent d fs (snd (act_create_new (d ++ [x]) mode fs)).
Proof.
  intros Hc. unfold act_create_new. destruct (names fs !! (d ++ [x])); simpl; [done|].
  unfold dir_parent. rewrite removelast_last.
  destruct (is_directory_at fs d) eqn:Ed; simpl; [|done].
  intros Hl. apply bind_new_lookup in Hl; [|apply not_eq_sym, child_not_dir].
  unfold is_directory_at in Ed. by rewrite Hl in Ed.
Qed.

Lemma write_consistent d i bytes fs : stays_consistent d fs (snd (act_write i bytes fs)).
Proof. intros Hc Hl x. apply lookup_path_set_inode in Hl. by apply Hc. Qed.

(** A name bound below [d] witnesses [d]. *)
Lemma consistent_child d x fs i n :
  consistent d fs -> lookup_path fs (d ++ [x]) = Some (i, n) -> lookup_path fs d <> None.
Proof. intros Hc Hl Hn. unfold lookup_path in Hl. by rewrite (Hc Hn x) in Hl. Qed.

Lemma rename_consistent d x y fs :
  stays_consistent d fs (snd (act_rename (d ++ [x]) (d ++ [y]) fs)).
Proof.
  intros Hc. unfold act_rename. destruct (lookup_path fs (d ++ [x])) as [[i n]|] eqn:El; simpl; [|done].
  intros Hl. exfalso. apply (consistent_child _ _ _ _ _ Hc El).
  unfold lookup_path in Hl. simpl in Hl.
  rewrite lookup_insert_ne in Hl by (apply not_eq_sym, child_not_dir).
  rewrite lookup_delete_ne in Hl by (apply not_eq_sym, child_not_dir).
  destruct (names fs !! (d ++ [y])) as [j|]; [|done].
  by apply (lookup_path_set_inode fs j unlinked d).
Qed.

Lemma remove_consistent d x fs : stays_consistent d fs (snd (act_remove_file (d ++ [x]) fs)).
Proof.
  intros Hc. unfold act_remove_file. destruct (lookup_path fs (d ++ [x])) as [[i n]|] eqn:El; simpl; [|done].
  intros Hl. exfalso. apply (consistent_child _ _ _ _ _ Hc El).
  unfold lookup_path in Hl. simpl in Hl.
  rewrite lookup_delete_ne in Hl by (apply not_eq_sym, child_not_dir).
  by apply (lookup_path_set_inode fs i unlinked d).
Qed.

(** ** Frames of the writes *)

Section FramedWrites.
Context {Env : Environment} {Codec : SerdeJson} {Sha : Sha256} (d : list string).
Context (R : relation Fs) `{!PreOrder R} (Hpriv : forall t fs, R fs (interfere t fs)).
Context (Hmkdir : forall p mode fs, (length p <= length d)%nat -> R fs (snd (act_mkdir p mode fs)))
  (Hcreate : forall x mode fs, R fs (snd (act_create_new (d ++ [x]) mode fs)))
  (Hwrite : forall i bytes fs, R fs (snd (act_write i bytes fs)))
  (Hrename : forall x y fs, R fs (snd (act_rename (d ++ [x]) (d ++ [y]) fs)))
  (Hremove : forall x fs, R fs (snd (act_remove_file (d ++ [x]) fs))).

Lemma write_all_quiet i bytes : io_quiet R (write_all i bytes).
Proof.
  intros w. unfold write_all. destruct (fault _) as [n|]; simpl.
  - etrans; [apply Hpriv|]. apply (Hwrite i (take n bytes)).
  - etrans; [apply Hpriv|]. apply (Hwrite i bytes).
Qed.

Lemma drop_staged_framed p x identity :
  parts p = d ++ [x] -> framed_by d R (drop_staged p identity).
Proof.
  intros Hp. unfold drop_staged. framed_step.
  apply framed_attempt, (call_quiet R Hpriv). intros fs. rewrite Hp. apply Hremove.
Qed.

Lemma or_drop_staged_framed {A} p x identity (c : M A) :
  parts p = d ++ [x] -> framed_by d R c -> framed_by d R (or_drop_staged p identity c).
Proof.
  intros Hp Hc s Hs. specialize (Hc s Hs). unfold or_drop_staged.
  destruct (c s) as [[a|e] s1]; simpl in *; [done|].
  etrans; [exact Hc|]. apply (drop_staged_framed p x identity Hp). by eapply frame_here.
Qed.

Lemma stage_and_publish_framed p q x y bytes :
  parts p = d ++ [x] -> parts q = d ++ [y] -> framed_by d R (stage_and_publish p q bytes).
Proof.
  intros Hp Hq. pose proof write_all_quiet as Hw.
  assert (Hc : io_quiet R (create_new p 384)) by (apply (call_quiet R Hpriv); intros fs; rewrite Hp; apply Hcreate).
  assert (Hr : io_quiet R (rename p q)) by (apply (call_quiet R Hpriv); intros fs; rewrite Hp, Hq; apply Hrename).
  unfold stage_and_publish.
  apply (framed_bind d R); [auto with obs|]. intros file.
  apply (framed_bind d R); [auto with obs|]. intros identity.
  apply (framed_bind d R); [|intros _; auto with obs].
  apply (or_drop_staged_framed _ x); [done|]. framed_step.
Qed.

Lemma persist_value_framed id value replacing : framed_by d R (persist_value id value replacing).
Proof.
  unfold persist_value. apply (framed_bind d R); [auto with obs|]. intros _.
  apply (framed_bind d R); [auto with obs|]. intros _.
  apply framed_gets_bind. intros s Hs.
  apply (framed_bind d R); [auto with obs|]. intros _.
  apply (framed_bind d R); [auto with obs|]. intros n.
  eapply stage_and_publish_framed; simpl; rewrite Hs; reflexivity.
Qed.

Lemma run_op_framed op : framed_by d R (run_op op).
Proof.
  pose proof persist_value_framed as Hp.
  assert (Hc : forall r, framed_by d R (check_current r)) by (intros r; unfold check_current; framed_step).
  destruct op; cbn [run_op]; unfold wrap.
  all: unfold prepare, update, prepare_generic, update_generic, prepare_restore, update_restore,
    prepare_apply, update_apply, prepare_capture, update_capture, publish_new, persist; framed_step.
Qed.

End FramedWrites.

(** ** The store of an owned directory keeps the laws *)

Section Instance.
Context {Env : Environment} {Codec : SerdeJson} {Sha : Sha256} (d : list string) (Hown : owned d).

Let Hpriv : private d := owned_private d Hown.

Definition dir_ok (s : State) : Prop := here d s /\ consistent d (disk (world s)).
Definition dir_used (s : State) : Z := json_count d (disk (world s)).
Definition dir_holds (s : State) (id : string) : Prop :=
  is_Some (names (disk (world s)) !! (d ++ [receipt_name id])).

Definition dir_stays (s s' : State) : Prop :=
  dir_ok s -> dir_ok s' /\ dir_used s' = dir_used s /\
  (forall id, dir_holds s id -> dir_holds s' id) /\
  poisoned (read_namespace (backend s')) = poisoned (read_namespace (backend s)).

(** A read that keeps the children of the directory keeps everything counted. *)
Lemma framed_stays {A} (m : M A) s : framed_by d (steady d) m -> dir_stays s (snd (m s)).
Proof.
  intros Hm [Hh Hc]. destruct (Hm s Hh) as [Hk [Hs Hcons]]. split_and!.
  - split; [by eapply kept_here|auto].
  - by apply same_children_count.
  - intros id. unfold dir_holds. by destruct (Hs (receipt_name id)) as [-> _].
  - apply Hk.
Qed.

Lemma json_names_limit entries : forall count s s',
  0 <= count -> json_names entries count s = (Err InventoryLimit, s') ->
  MAX_RECEIPTS < count + Z.of_nat (length (List.filter (ends_with ".json") entries)).
Proof.
  induction entries as [|x entries IH]; intros count s s' Hpos Hj; simpl in Hj; [done|].
  unfold bind at 1 in Hj. rewrite lift_run in Hj. unfold next_entry, call in Hj.
  destruct (fault _); [done|]. simpl in Hj. unfold bind at 1, require at 1 in Hj.
  destruct (valid_utf8 x); [|done]. simpl in *. destruct (ends_with ".json" x); simpl in *.
  2: { by eapply IH. }
  unfold bind at 1, require in Hj. destruct (Z.leb_spec (count + 1) MAX_RECEIPTS); simpl in Hj; [|lia].
  unfold bind in Hj. destruct (json_names entries (count + 1) _) as [[l|e] s1] eqn:E; [done|].
  injection Hj as -> ->. apply IH in E; lia.
Qed.

(** Only too many receipts make [capacity_used] report a full inventory. *)
Lemma capacity_used_limit s s' :
  dir_ok s -> capacity_used s = (Err InventoryLimit, s') -> MAX_RECEIPTS < dir_used s.
Proof.
  intros [Hh Hc] Hr. unfold capacity_used, bind in Hr.
  pose proof (view_validate_layout_raises (P := no_limit)) as Hv.
  pose proof (view_validate_layout_framed d (same_children d) Hpriv s Hh) as F1.
  destruct (view_validate_layout s) as [[present|e] s1] eqn:E1.
  2: { injection Hr as -> ->. by apply Hv in E1. }
  destruct present; [|done]. cbn [negb] in Hr. unfold gets in Hr. simpl in F1.
  destruct (lift unavailable (read_dir (directory (backend s1))) s1) as [[entries|e] s2] eqn:E2.
  2: { injection Hr as -> ->. rewrite lift_run in E2.
       destruct (read_dir _ _) as [[?|?] ?]; simplify_eq/=. }
  apply (read_dir_Ok d Hpriv) in E2 as [S2 P2]; [|by eapply frame_here].
  destruct (json_names entries 0 s2) as [[l|e] s3] eqn:E3.
  2: { injection Hr as -> ->. apply json_names_limit in E3; [|done]. rewrite Z.add_0_l in E3.
       unfold dir_used. rewrite <- (same_children_count _ _ _ (frame_children _ _ _ F1)).
       rewrite <- (same_children_count _ _ _ S2). unfold json_count, json_children.
       by rewrite <- (bool_filter_perm _ _ _ P2). }
  destruct (view_validate_layout s3) as [[?|e] s4] eqn:E4; [done|].
  injection Hr as -> ->. by apply Hv in E4.
Qed.

Lemma dir_used_bound s (l : gset string) :
  (forall id, id ∈ l -> dir_holds s id) -> Z.of_nat (size l) <= dir_used s.
Proof.
  intros Hl. unfold dir_used, json_count.
  enough (length (map receipt_name (elements l)) <= length (json_children d (disk (world s))))%nat
    as Hle by (rewrite length_map in Hle; change (size l) with (length (elements l)); lia).
  apply NoDup_incl_length.
  - apply NoDup_ListNoDup, NoDup_fmap; [intros x y; apply receipt_name_inj|]. apply NoDup_elements.
  - intros x (id & <- & Hin)%in_map_iff. apply json_children_spec.
    split; [apply receipt_name_json|]. by apply Hl, elem_of_elements, list_elem_of_In.
Qed.

Lemma persist_value_limit id value replacing : raises (persist_value id value replacing) no_limit.
Proof.
  assert (Hc : raises confirm_publication no_limit).
  { intros s e s' E. by rewrite (confirm_publication_raises _ _ _ E). }
  assert (Ho : forall {A} p identity (c : M A),
    raises c no_limit -> raises (or_drop_staged p identity c) no_limit).
  { intros A p identity c Hr s e s'. unfold or_drop_staged.
    destruct (c s) as [[u|e'] s1] eqn:E; [done|]. intros [= <- _]. by eapply Hr. }
  unfold persist_value, stage_and_publish. raises_step. apply Ho. raises_step.
Qed.

Lemma lift_result_limit {A} (inj : A -> StoredReceipt) c e0 op :
  op_result e0 op = (let? a := c in Ok (inj a)) -> raises (lift_result c) no_limit.
Proof.
  intros Hop. apply raises_lift_result. intros e ->. apply op_result_refusal in Hop as [-> | ->]; done.
Qed.

Lemma run_op_limit op : raises (run_op op) no_limit.
Proof.
  pose proof persist_value_limit as Hp.
  pose proof (fun r => check_current_raises (P := no_limit) r) as Hc.
  destruct op eqn:Eop; cbn [run_op]; unfold wrap.
  all: unfold prepare, update, prepare_generic, update_generic, prepare_restore, update_restore,
    prepare_apply, update_apply, prepare_capture, update_capture, publish_new, persist; raises_step.
  all: first [ by apply (lift_result_limit V1 _ EmptyString op); rewrite Eop
             | by apply (lift_result_limit Generic _ EmptyString op); rewrite Eop
             | by apply (lift_result_limit Restore _ EmptyString op); rewrite Eop
             | by apply (lift_result_limit Apply _ EmptyString op); rewrite Eop
             | by apply (lift_result_limit Capture _ EmptyString op); rewrite Eop
             | by eapply (lift_result_limit V1 _ _ op); rewrite Eop
             | by eapply (lift_result_limit Generic _ _ op); rewrite Eop
             | by eapply (lift_result_limit Restore _ _ op); rewrite Eop
             | by eapply (lift_result_limit Apply _ _ op); rewrite Eop
             | by eapply (lift_result_limit Capture _ _ op); rewrite Eop ].
Qed.

Lemma names_counts s s' :
  (forall x, is_json x -> names (disk (world s')) !! (d ++ [x]) = names (disk (world s)) !! (d ++ [x])) ->
  dir_used s' = dir_used s /\ (forall id, dir_holds s id -> dir_holds s' id).
Proof.
  intros Hn. split; [by apply json_count_same|]. intros id. unfold dir_holds.
  by rewrite Hn by apply receipt_name_json.
Qed.

Lemma wrote_counts id bytes s s' :
  wrote d (receipt_name id) bytes (disk (world s)) (disk (world s')) ->
  let absent := is_none (entry d (disk (world s)) (receipt_name id)) in
  dir_holds s' id /\ (forall i, dir_holds s i -> dir_holds s' i) /\
  dir_used s' <= dir_used s + (if absent then 1 else 0).
Proof.
  intros [(i & t & He) Hoth] absent.
  assert (Hnew : dir_holds s' id).
  { unfold dir_holds. unfold entry, lookup_path in He. destruct (names _ !! _); [eauto|done]. }
  split_and!; [done|..].
  - intros j Hj. destruct (decide (j = id)) as [->|Hne]; [done|]. unfold dir_holds.
    destruct (Hoth (receipt_name j) (receipt_name_json j)) as [_ ->]; [|done].
    by intros ?%receipt_name_inj.
  - pose proof (json_count_incl d (disk (world s)) (disk (world s'))) as Hi.
    unfold dir_used, absent. destruct (entry d (disk (world s)) (receipt_name id)) eqn:Ee; simpl.
    + specialize (Hi []). apply Hi. intros x Hx Hn. left.
      destruct (decide (x = receipt_name id)) as [->|Hne]; [|by destruct (Hoth x Hx Hne) as [_ <-]].
      unfold entry, lookup_path in Ee. destruct (names (disk (world s)) !! _); [eauto|done].
    + apply (Hi [receipt_name id]). intros x Hx Hn.
      destruct (decide (x = receipt_name id)) as [->|Hne]; [by right; left|].
      left. by destruct (Hoth x Hx Hne) as [_ <-].
Qed.

(** What an operation does to the counted receipts *)
Lemma run_op_counts op s r s' :
  dir_ok s -> run_op op s = (r, s') ->
  (forall id, dir_holds s id -> dir_holds s' id) /\
  dir_used s' <= dir_used s + (if is_prepare op && may_publish r then 1 else 0) /\
  (forall rec, r = Ok rec -> dir_holds s' (receipt_id rec) /\
     forall id, op_new_id op = Some id -> receipt_id rec = id).
Proof.
  intros [Hh Hc] Hrun. apply (run_op_shape d Hpriv) in Hrun; [|done].
  destruct Hrun as [(e & -> & _ & [_ Hs])|(rec & s1 & pr & Hf & Hres & _ & Hp & ->)].
  { destruct (names_counts s s') as [-> Hm]; [intros x _; apply Hs|].
    split_and!; [done|case_match; lia|done]. }
  destruct (names_counts s s1) as [<- Hm1]; [intros x _; apply Hf|].
  apply (persist_value_outcome d Hpriv) in Hp as [[_ Ho] Hb]; [|by eapply frame_here].
  destruct (may_publish pr) eqn:Em.
  - assert (Hpr : pr = Ok tt \/ pr = Err DurabilityUncertain)
      by (destruct pr as [[]|[]]; try done; auto).
    destruct (Hb Hpr) as [Hent _]. rewrite negb_involutive in Hent. fold (is_prepare op) in Hent.
    destruct (wrote_counts (receipt_id rec) (to_vec (to_value rec)) s1 s') as (Hnew & Hm & Hu);
      [by destruct Hpr as [-> | ->]|]. rewrite Hent in Hu.
    replace (may_publish (match pr with Ok _ => Ok rec | Err e => Err e end)) with true
      by (by destruct Hpr as [-> | ->]). rewrite andb_true_r.
    split_and!; [auto|done|]. intros rec' Hr. destruct pr; [|done]. injection Hr as <-.
    split; [done|]. intros id. by apply (op_result_new_id _ _ _ _ Hres).
  - assert (Hu : untouched d (disk (world s1)) (disk (world s'))) by (destruct pr as [?|[]]; done).
    destruct (names_counts s1 s') as [-> Hm]; [intros x Hx; apply (Hu x Hx)|].
    split_and!; [auto|destruct (_ && _); lia|]. intros r. by destruct pr.
Qed.

Lemma run_op_consistent op s : dir_ok s -> dir_ok (snd (run_op op s)) /\
  poisoned (read_namespace (backend (snd (run_op op s)))) = poisoned (read_namespace (backend s)).
Proof.
  intros [Hh Hc]. destruct (run_op_framed d (stays_consistent d) (fun t fs => proj2 (Hown t fs))
    (mkdir_consistent d) (create_consistent d) (write_consistent d) (rename_consistent d)
    (remove_consistent d) op s Hh) as [Hk Hcons].
  split; [split; [by eapply kept_here|auto]|apply Hk].
Qed.

#[export] Instance owned_capacity_store : CapacityStore.
Proof.
  refine {| cs_ok := dir_ok; cs_used := dir_used; cs_holds := dir_holds |}.
  - intros s own. apply framed_stays, admission_except_framed; [apply _|apply Hown].
  - intros s own live. apply framed_stays, admission_with_live_ids_framed; [apply _|apply Hown].
  - intros s id. apply framed_stays, is_dispatching_framed; [apply _|apply Hown].
  - intros s. apply framed_stays, capacity_used_framed; [apply _|apply Hown].
  - intros s n s' [Hh Hc] Hr. by apply (capacity_used_Ok d Hown) in Hr as [-> _].
  - apply capacity_used_limit.
  - intros s. unfold dir_used, json_count. lia.
  - apply dir_used_bound.
  - by intros s [Hh Hc].
  - intros op s r s' Hok Hr. destruct (run_op_counts _ _ _ _ Hok Hr) as (? & ? & ?).
    destruct (run_op_consistent op s Hok) as [Hok' Hp]. rewrite Hr in Hok', Hp.
    split_and!; try done. intros ->. by apply run_op_limit in Hr.
Defined.

End Instance.
