(* ===== verification/Healthy.v ===== *)
(** * A healthy world

    With no failing call and no interference, on a sound directory chain, a publication
    under a fresh identifier succeeds and is read back: the checks of the store refuse
    nothing they should let pass. *)
From S2P Require Import Prelude Json Serde ReceiptFields Filesystem Store Publication StoredReceipt OperationView Reading Backend.

(** No call fails and nothing else runs. *)
Class Healthy {Env : Environment} : Prop := {
  no_faults : forall t, fault t = None;
  no_interference : forall t fs, interfere t fs = fs
}.

Lemma healthy_private `{Healthy} d : private d.
Proof. intros t fs. by rewrite no_interference. Qed.

(** The directory named by a path, if it is a sound one *)
Definition sound_dir (fs : Fs) (q : list string) (i : InodeId) : Prop :=
  exists n, lookup_path fs q = Some (i, n) /\ i_kind n = Directory /\ Z.land (i_mode n) 18 = 0.

(** Every prefix of [d] is a sound directory. *)
Definition sound_chain (fs : Fs) (d : list string) : Prop :=
  forall q r, d = q ++ r -> exists i, sound_dir fs q i.

(** A store whose paths are plain and whose recorded identities, where there are any, are
    those of the directories on disk *)
Record sound (s : State) : Prop := {
  sd_root : directory (backend s) = path_join (root (backend s)) "operation-receipts";
  sd_absolute : absolute (root (backend s)) = true;
  sd_normal : Forall (fun part => is_normal part = true) (parts (root (backend s)));
  sd_chain : sound_chain (disk (world s)) (parts (directory (backend s)));
  sd_root_identity : forall m i, root_identity (backend s) = Some m ->
    sound_dir (disk (world s)) (parts (root (backend s))) i -> m_id m = i;
  sd_directory_identity : forall m i, directory_identity (backend s) = Some m ->
    sound_dir (disk (world s)) (parts (directory (backend s))) i -> m_id m = i
}.

Section HealthyStore.
Context {Env : Environment} {Hhealthy : Healthy} {Codec : SerdeJson}.

(** A call in a healthy world is its act. *)
Lemma attempt_call {A} (act : Fs -> result ErrorKind A * Fs) s :
  attempt (call act) s =
  (Ok (fst (act (disk (world s)))),
   {| world := {| tick := S (tick (world s)); disk := snd (act (disk (world s))) |};
      backend := backend s |}).
Proof.
  unfold attempt, call. rewrite no_faults, no_interference. by destruct (act _).
Qed.

Lemma lift_call {A} f (act : Fs -> result ErrorKind A * Fs) s a :
  fst (act (disk (world s))) = Ok a ->
  lift f (call act) s =
  (Ok a, {| world := {| tick := S (tick (world s)); disk := snd (act (disk (world s))) |};
            backend := backend s |}).
Proof. intros Ha. unfold lift, bind. rewrite attempt_call, Ha. done. Qed.

(** The same state, later *)
Definition later (s s' : State) : Prop :=
  disk (world s') = disk (world s) /\ backend s' = backend s.

(** [m] succeeds with [a] and changes nothing. *)
Definition gives {A} (m : M A) (s : State) (a : A) : Prop :=
  exists s', m s = (Ok a, s') /\ later s s'.

Lemma gives_bind {A B} (c : M A) (k : A -> M B) s a b :
  gives c s a -> (forall s', later s s' -> gives (k a) s' b) -> gives (bind c k) s b.
Proof.
  intros (s1 & Hc & Hl) Hk. destruct (Hk s1 Hl) as (s2 & Hk2 & Hl2). exists s2.
  unfold bind. rewrite Hc. split; [done|]. destruct Hl, Hl2. split; congruence.
Qed.

Lemma gives_ret {A} (a : A) s : gives (ret a) s a.
Proof. by exists s. Qed.

Lemma gives_gets {A} (f : BackendStore -> A) s : gives (gets f) s (f (backend s)).
Proof. by exists s. Qed.

Lemma gives_require b e s : b = true -> gives (require b e) s tt.
Proof. intros ->. by exists s. Qed.

Lemma gives_attempt {A} (act : Fs -> result ErrorKind A * Fs) s :
  snd (act (disk (world s))) = disk (world s) ->
  gives (attempt (call act)) s (fst (act (disk (world s)))).
Proof. intros Hs. eexists. split; [apply attempt_call|]. split; [exact Hs|done]. Qed.

Lemma sound_dir_metadata fs q i :
  sound_dir fs q i ->
  exists m, act_symlink_metadata q fs = (Ok m, fs) /\ m_id m = i /\ is_dir m = true /\
    is_symlink m = false /\ writable_by_others m = false.
Proof.
  intros (n & Hl & Hk & Hm). unfold act_symlink_metadata. rewrite Hl. eexists.
  split_and!; [done|done|..]; unfold is_dir, is_symlink, writable_by_others; simpl.
  - by apply bool_decide_eq_true.
  - by rewrite Hk.
  - by rewrite Hm.
Qed.

Lemma validate_components_gives rest : forall current allowed s,
  Forall (fun part => is_normal part = true) rest ->
  sound_chain (disk (world s)) (current ++ rest) ->
  gives (validate_components current rest false allowed) s tt.
Proof.
  induction rest as [|part rest IH]; intros current allowed s Hn Hc; simpl; [apply gives_ret|].
  inversion Hn as [|? ? Hpart Hrest]; subst. rewrite Hpart. simpl.
  destruct (Hc (current ++ [part]) rest) as [i Hi]; [by rewrite <- app_assoc|].
  apply sound_dir_metadata in Hi as (m & Hact & _ & Hd & Hs & _).
  eapply gives_bind.
  - apply gives_attempt. simpl. done.
  - intros s' [Hdisk _]. simpl. unfold act_symlink_metadata in *. injection Hact as ->.
    rewrite Hd, Hs. simpl. apply IH; [done|]. rewrite Hdisk. by rewrite <- app_assoc.
Qed.

Lemma validate_chain_gives p allowed s :
  absolute p = true -> Forall (fun part => is_normal part = true) (parts p) ->
  sound_chain (disk (world s)) (parts p) -> gives (validate_chain p allowed) s tt.
Proof.
  intros Ha Hn Hc. unfold validate_chain. rewrite Ha. simpl.
  destruct (Hc [] (parts p) eq_refl) as [i Hi].
  apply sound_dir_metadata in Hi as (m & Hact & _ & Hd & Hs & _).
  eapply gives_bind; [by apply gives_attempt|]. intros s' [Hdisk _]. simpl.
  unfold act_symlink_metadata in *. injection Hact as ->. rewrite Hd, Hs. simpl.
  apply validate_components_gives; [done|]. by rewrite Hdisk.
Qed.

Lemma directory_metadata_gives p s i :
  sound_dir (disk (world s)) (parts p) i ->
  exists m, gives (directory_metadata p) s (Some m) /\ m_id m = i.
Proof.
  intros (m & Hact & Hid & Hd & Hs & Hw)%sound_dir_metadata. exists m. split; [|done].
  unfold directory_metadata. eapply gives_bind; [by apply gives_attempt|]. intros s' _. simpl.
  unfold act_symlink_metadata in *. injection Hact as ->. rewrite Hd, Hs, Hw. apply gives_ret.
Qed.

Lemma sound_later s s' : later s s' -> sound s -> sound s'.
Proof.
  intros [Hd Hb] [? ? ? ? ? ?]. split; rewrite ?Hd, ?Hb; done.
Qed.

Lemma sound_dirs s :
  sound s -> exists i j, sound_dir (disk (world s)) (parts (root (backend s))) i /\
    sound_dir (disk (world s)) (parts (directory (backend s))) j.
Proof.
  intros [Hr _ _ Hc _ _].
  destruct (Hc (parts (root (backend s))) ["operation-receipts"]) as [i Hi]; [by rewrite Hr|].
  destruct (Hc (parts (directory (backend s))) []) as [j Hj]; [by rewrite app_nil_r|]. eauto.
Qed.

Lemma sound_normal s :
  sound s -> absolute (directory (backend s)) = true /\
    Forall (fun part => is_normal part = true) (parts (directory (backend s))).
Proof.
  intros [-> ? ? _ _ _]. split; [done|]. apply Forall_app. split; [done|]. by repeat constructor.
Qed.

Lemma identity_kept_true expected m :
  (forall e, expected = Some e -> m_id e = m_id m) -> identity_kept expected (Some m) = true.
Proof.
  intros He. unfold identity_kept. destruct expected as [e|]; [|done]. simpl.
  apply bool_decide_eq_true. by apply He.
Qed.

Lemma check_layout_gives s er ed i j :
  sound_dir (disk (world s)) (parts (root (backend s))) i ->
  sound_dir (disk (world s)) (parts (directory (backend s))) j ->
  (forall e, er = Some e -> m_id e = i) -> (forall e, ed = Some e -> m_id e = j) ->
  gives (check_layout er ed) s true.
Proof.
  intros Hi Hj Her Hed. unfold check_layout.
  eapply gives_bind; [apply gives_gets|]. intros s1 [D1 B1].
  eapply gives_bind; [apply gives_gets|]. intros s2 [D2 B2]. rewrite B1 in *.
  rewrite <- D1, <- D2 in Hi, Hj. clear D1 D2 B1.
  destruct (directory_metadata_gives _ _ _ Hi) as (mi & Gi & Mi).
  eapply gives_bind; [exact Gi|]. intros s3 [D3 _]. rewrite <- D3 in Hj.
  destruct (directory_metadata_gives _ _ _ Hj) as (mj & Gj & Mj).
  eapply gives_bind; [exact Gj|]. intros s4 _.
  eapply gives_bind; [apply gives_require, identity_kept_true; intros e He; rewrite Mi; auto|].
  intros s5 _.
  eapply gives_bind; [apply gives_require, identity_kept_true; intros e He; rewrite Mj; auto|].
  intros s6 _. apply gives_ret.
Qed.

Lemma validate_layout_gives s : sound s -> gives validate_layout s true.
Proof.
  intros Hs. unfold validate_layout. destruct (sound_normal s Hs) as [Ha Hn].
  eapply gives_bind; [apply gives_gets|]. intros s1 [D1 B1].
  eapply gives_bind; [apply validate_chain_gives; [done|done|rewrite D1; apply Hs]|].
  intros s2 [D2 B2].
  eapply gives_bind; [apply gives_gets|]. intros s3 [D3 B3].
  eapply gives_bind; [apply gives_gets|]. intros s4 [D4 B4].
  assert (L : later s s4) by (split; congruence).
  apply (sound_later _ _ L) in Hs as Hs4. destruct (sound_dirs s4 Hs4) as (i & j & Hi & Hj).
  apply (check_layout_gives s4 _ _ i j); [done|done|..]; intros e He.
  - apply (sd_root_identity _ Hs4); [congruence|done].
  - apply (sd_directory_identity _ Hs4); [congruence|done].
Qed.

(** ** Publishing *)

Lemma sound_dir_exists fs q i : sound_dir fs q i -> names fs !! q = Some i.
Proof.
  intros (n & Hl & _). unfold lookup_path in Hl. destruct (names fs !! q) as [j|]; [|done].
  destruct (inodes fs !! j); naive_solver.
Qed.

Lemma sound_dir_is_dir fs q i : sound_dir fs q i -> is_directory_at fs q = true.
Proof. intros (n & Hl & Hk & _). unfold is_directory_at. by rewrite Hl, Hk. Qed.

Lemma create_dir_all_gives q x mode w i :
  sound_dir (disk w) (q ++ [x]) i ->
  exists t, create_dir_all (rev (q ++ [x])) mode w = (Ok tt, {| tick := t; disk := disk w |}).
Proof.
  intros Hd. rewrite rev_app_distr. simpl. rewrite rev_involutive. unfold mkdir, call.
  rewrite no_faults, no_interference. unfold act_mkdir. rewrite (sound_dir_exists _ _ _ Hd). simpl.
  unfold path_is_dir. simpl. rewrite no_faults, no_interference, (sound_dir_is_dir _ _ _ Hd). eauto.
Qed.

(** The state [ensure_layout] leaves: the same disk, the identities recorded *)
Lemma ensure_layout_gives s :
  sound s -> exists s', ensure_layout s = (Ok tt, s') /\ disk (world s') = disk (world s) /\
    kept (backend s) (backend s') /\ sequence (backend s') = sequence (backend s) /\ sound s' /\
    exists mr md, root_identity (backend s') = Some mr /\ directory_identity (backend s') = Some md.
Proof.
  intros Hs. destruct (validate_layout_gives s Hs) as (s1 & E1 & L1).
  apply (sound_later _ _ L1) in Hs as Hs1. destruct L1 as [D1 B1].
  destruct (sound_dirs s1 Hs1) as (i & j & Hi & Hj).
  assert (Hdir : parts (directory (backend s1)) = parts (root (backend s1)) ++ ["operation-receipts"])
    by (by rewrite (sd_root _ Hs1)).
  unfold ensure_layout, bind at 1. rewrite E1. unfold bind at 1, gets at 1, bind at 1, gets at 1.
  unfold bind at 1. rewrite lift_run. rewrite Hdir.
  destruct (create_dir_all_gives (parts (root (backend s1))) "operation-receipts" 448 (world s1) j)
    as [t ->]; [by rewrite <- Hdir|].
  set (s2 := {| world := {| tick := t; disk := disk (world s1) |}; backend := backend s1 |}).
  destruct (sound_normal s1 Hs1) as [Ha Hn].
  destruct (validate_chain_gives (directory (backend s1)) false s2 Ha Hn (sd_chain _ Hs1))
    as (s3 & E3 & D3 & B3). unfold bind at 1. rewrite E3.
  destruct (directory_metadata_gives (root (backend s1)) s3 i) as (mr & (s4 & E4 & D4 & B4) & Mr);
    [by rewrite D3|]. unfold bind at 1. rewrite E4. unfold bind at 1, modify at 1.
  set (s5 := {| world := world s4; backend := set_root_identity (Some mr) (backend s4) |}).
  destruct (directory_metadata_gives (directory (backend s1)) s5 j) as (md & (s6 & E6 & D6 & B6) & Md);
    [simpl; by rewrite D4, D3|]. unfold bind at 1. rewrite E6. unfold modify.
  assert (D : disk (world s6) = disk (world s)) by (rewrite D6; simpl; by rewrite D4, D3, <- D1).
  assert (B : backend s6 = set_root_identity (Some mr) (backend s))
    by (rewrite B6; simpl; by rewrite B4, B3, <- B1).
  eexists. split; [done|]. simpl. rewrite B. split_and!; [done|by split|done| |].
  - destruct Hs as [? ? ? ? _ _]. rewrite D1, B1 in Hi, Hj.
    split; simpl; rewrite ?D, ?B; simpl; try done; intros m k [= <-] Hk;
      apply sound_dir_exists in Hk; [apply sound_dir_exists in Hi|apply sound_dir_exists in Hj];
      congruence.
  - simpl. eauto.
Qed.

(** Changes to the children of [d] and to inodes of their own leave the chain alone. *)
Definition same_dirs (d : list string) (fs fs' : Fs) : Prop :=
  forall q r, d = q ++ r -> lookup_path fs' q = lookup_path fs q.

Lemma sound_same_dirs s s' :
  sound s -> same_dirs (parts (directory (backend s))) (disk (world s)) (disk (world s')) ->
  backend s' = backend s -> sound s'.
Proof.
  intros [Hr Ha Hn Hc Hri Hdi] Hsame Hb. split; rewrite ?Hb; try done.
  - intros q r E. destruct (Hc q r E) as (i & n & Hl & ?). exists i, n. by rewrite (Hsame q r E).
  - intros m i Hm (n & Hl & Hk). apply (Hri m i Hm). exists n.
    by rewrite <- (Hsame _ ["operation-receipts"]) by (by rewrite Hr).
  - intros m i Hm (n & Hl & Hk). apply (Hdi m i Hm). exists n.
    by rewrite <- (Hsame _ []) by (by rewrite app_nil_r).
Qed.

Lemma prefix_not_child (d q r : list string) x : d = q ++ r -> q <> d ++ [x].
Proof. intros -> E. apply (f_equal length) in E. rewrite !length_app in E. simpl in E. lia. Qed.

(** Once a file is staged under a fresh inode, the chain is untouched by what is done to it. *)
Record staged_apart (d : list string) (i : InodeId) (fs0 fs : Fs) : Prop := {
  sa_dirs : same_dirs d fs0 fs;
  sa_apart : forall q r, d = q ++ r -> names fs !! q <> Some i
}.

Lemma create_apart d tmp mode fs i fs' :
  act_create_new (d ++ [tmp]) mode fs = (Ok i, fs') -> staged_apart d i fs fs'.
Proof.
  unfold act_create_new, bind_new. repeat case_match; intros [= <- <-]. split.
  - intros q r E. unfold lookup_path. simpl.
    rewrite lookup_insert_ne by (by apply not_eq_sym; eapply prefix_not_child).
    destruct (names fs !! q) as [j|] eqn:Ej; [|done]. apply fresh_inode_names in Ej.
    by rewrite lookup_insert_ne.
  - intros q r E. simpl.
    rewrite lookup_insert_ne by (by apply not_eq_sym; eapply prefix_not_child).
    intros ?%fresh_inode_names. done.
Qed.

Lemma set_inode_apart d i f fs0 fs :
  staged_apart d i fs0 fs -> staged_apart d i fs0 (set_inode i f fs).
Proof.
  intros [Hd Ha]. split; [|done]. intros q r E. rewrite <- (Hd q r E). unfold lookup_path. simpl.
  destruct (names fs !! q) as [j|] eqn:Ej; [|done].
  rewrite lookup_alter_ne; [done|]. intros <-. by eapply Ha.
Qed.

(** Renaming over nothing, or over a regular file, leaves the chain alone. *)
Lemma rename_apart d tmp dst i fs0 fs :
  staged_apart d i fs0 fs -> sound_chain fs0 d ->
  (forall j n, lookup_path fs (d ++ [dst]) = Some (j, n) -> i_kind n = Regular) ->
  same_dirs d fs0 (snd (act_rename (d ++ [tmp]) (d ++ [dst]) fs)).
Proof.
  intros [Hd Ha] Hc Hdst q r E. rewrite <- (Hd q r E). unfold act_rename.
  destruct (lookup_path fs (d ++ [tmp])) as [[k n]|]; simpl; [|done].
  unfold lookup_path at 1. simpl.
  rewrite lookup_insert_ne by (by apply not_eq_sym; eapply prefix_not_child).
  rewrite lookup_delete_ne by (by apply not_eq_sym; eapply prefix_not_child).
  destruct (Hc q r E) as (i0 & n0 & Hl & Hk & _). rewrite <- (Hd q r E) in Hl.
  destruct (names fs !! (d ++ [dst])) as [j|] eqn:Ej; simpl; [|done].
  unfold lookup_path in *. destruct (names fs !! q) as [j'|] eqn:Ej'; [|done].
  destruct (decide (j = j')) as [<-|Hne]; [|by rewrite lookup_alter_ne].
  rewrite Ej in Hdst. destruct (inodes fs !! j) as [n1|] eqn:E1; [|done].
  simpl in Hl. injection Hl as -> ->. specialize (Hdst _ _ eq_refl). congruence.
Qed.

Lemma sync_directory_gives s p m i :
  sound_dir (disk (world s)) (parts p) i -> m_id m = i -> gives (sync_directory p (Some m)) s tt.
Proof.
  intros (n & Hl & Hk & Hm) Hi. unfold sync_directory.
  assert (Hin : inodes (disk (world s)) !! i = Some n).
  { unfold lookup_path in Hl. destruct (names _ !! _) as [j|]; [|done].
    destruct (inodes _ !! j) eqn:Ej; naive_solver. }
  assert (G : forall {A} f (act : Fs -> result ErrorKind A * Fs) s1 a,
    snd (act (disk (world s1))) = disk (world s1) -> fst (act (disk (world s1))) = Ok a ->
    gives (lift f (call act)) s1 a).
  { intros A f act s1 a Hs Ha. eexists. split; [by apply lift_call|]. by split. }
  eapply gives_bind; [apply G; [done|]; simpl; unfold open_target; by rewrite Hl, Hk|].
  intros s1 [D1 _].
  eapply gives_bind; [apply G; [done|]; simpl; by rewrite D1, Hin|]. intros s2 _.
  eapply gives_bind; [apply gives_require; simpl; by apply bool_decide_eq_true|]. intros s3 _.
  by apply G.
Qed.

Lemma confirm_publication_gives s mr md :
  sound s -> root_identity (backend s) = Some mr -> directory_identity (backend s) = Some md ->
  gives confirm_publication s tt.
Proof.
  intros Hs Hr Hd. destruct (sound_dirs s Hs) as (i & j & Hi & Hj). unfold confirm_publication.
  assert (G : forall s1, sound s1 -> gives (map_err (fun _ => DurabilityUncertain) validate_layout) s1 true).
  { intros s1 Hs1. destruct (validate_layout_gives s1 Hs1) as (s2 & E & L). exists s2.
    unfold map_err. by rewrite E. }
  eapply gives_bind; [by apply G|]. intros s1 L1.
  eapply gives_bind; [apply gives_gets|]. intros s2 [D2 B2]. destruct L1 as [D1 B1].
  unfold id. rewrite B1, Hr, Hd.
  eapply gives_bind; [eapply (sync_directory_gives _ _ _ j); [by rewrite D2, D1|]|].
  { by apply (sd_directory_identity _ Hs). }
  intros s3 [D3 B3].
  eapply gives_bind; [eapply (sync_directory_gives _ _ _ i); [by rewrite D3, D2, D1|]|].
  { by apply (sd_root_identity _ Hs). }
  intros s4 [D4 B4].
  eapply gives_bind; [apply G, (sound_later s); [split; congruence|done]|].
  intros s5 _. apply gives_ret.
Qed.

Lemma staging_succeeds s d p q tmp x identity file n0 fs0 bytes :
  d = parts (directory (backend s)) -> parts p = d ++ [tmp] -> parts q = d ++ [x] -> tmp <> x ->
  sound_chain fs0 d -> sound s -> staged_apart d file fs0 (disk (world s)) ->
  staged d tmp file n0 fs0 (disk (world s)) ->
  (forall j n, lookup_path fs0 (d ++ [x]) = Some (j, n) -> i_kind n = Regular) ->
  exists s', or_drop_staged p identity (
    let* _ := lift unavailable (write_all file bytes) in
    let* _ := lift unavailable (sync_all file) in
    let* _ := validate_layout in
    lift unavailable (rename p q)) s = (Ok tt, s') /\
    backend s' = backend s /\ same_dirs d fs0 (disk (world s')).
Proof.
  intros Hd Hp Hq Hne Hchain Hs Hap Hst Hreg. unfold or_drop_staged, bind, sync_all, rename.
  rewrite lift_run. unfold write_all. rewrite no_faults, no_interference. simpl.
  set (fs1 := set_inode file (with_data bytes (now (disk (world s)))) (disk (world s))).
  apply (set_inode_apart _ _ (with_data bytes (now (disk (world s))))) in Hap.
  pose proof (set_inode_staged _ _ _ _ (with_data bytes (now (disk (world s)))) _ _ Hst) as Hst1.
  fold fs1 in Hap, Hst1.
  set (s1 := {| world := {| tick := S (tick (world s)); disk := fs1 |}; backend := backend s |}).
  rewrite (lift_call unavailable act_sync s1 tt eq_refl). simpl.
  set (s2 := {| world := {| tick := S (S (tick (world s))); disk := fs1 |}; backend := backend s |}).
  assert (Hs2 : sound s2).
  { apply (sound_same_dirs s); [done| |done]. intros r t E. rewrite <- Hd in E. simpl.
    unfold fs1, lookup_path. simpl. destruct (names (disk (world s)) !! r) as [j|] eqn:Ej; [|done].
    rewrite lookup_alter_ne; [done|]. intros <-. by eapply (sa_apart _ _ _ _ Hap). }
  destruct (validate_layout_gives s2 Hs2) as (s3 & E3 & D3 & B3). rewrite E3.
  destruct (act_rename_staged _ _ x _ _ _ _ Hst1 Hne) as [Er _].
  rewrite (lift_call unavailable (act_rename (parts p) (parts q)) s3 tt)
    by (rewrite D3, Hp, Hq; simpl; by rewrite Er).
  eexists. split; [done|]. simpl. split; [done|]. rewrite D3, Hp, Hq. simpl.
  apply (rename_apart _ _ _ _ _ _ Hap Hchain). intros j n Hl. apply (Hreg j n).
  destruct (st_others _ _ _ _ _ _ Hst1 x (not_eq_sym Hne)) as [Hn Hi].
  unfold lookup_path in *. rewrite Hn in Hl. destruct (names fs0 !! (d ++ [x])); [|done].
  by rewrite <- Hi.
Qed.

Lemma stage_and_publish_succeeds s d p q tmp x bytes mr md :
  d = parts (directory (backend s)) -> parts p = d ++ [tmp] -> parts q = d ++ [x] -> tmp <> x ->
  sound s -> root_identity (backend s) = Some mr -> directory_identity (backend s) = Some md ->
  names (disk (world s)) !! (d ++ [tmp]) = None ->
  (forall j n, entry d (disk (world s)) x = Some (j, n) -> i_kind n = Regular) ->
  exists s', stage_and_publish p q bytes s = (Ok tt, s') /\ backend s' = backend s /\ sound s'.
Proof.
  intros Hd Hp Hq Hne Hs Hr Hdi Htmp Hreg. destruct (sound_dirs s Hs) as (_ & j & _ & Hj).
  unfold stage_and_publish, bind at 1, create_new, fstat.
  destruct (act_create_new (d ++ [tmp]) 384 (disk (world s))) as [[file|e] fs1] eqn:Ec.
  2: { unfold act_create_new, dir_parent in Ec. rewrite removelast_last, Htmp in Ec. simpl in Ec.
       rewrite Hd, (sound_dir_is_dir _ _ _ Hj) in Ec. done. }
  rewrite (lift_call unavailable (act_create_new (parts p) 384) s file) by (by rewrite Hp, Ec).
  rewrite Hp, Ec. simpl. pose proof (create_apart _ _ _ _ _ _ Ec) as Hap.
  apply act_create_staged in Ec as Hst.
  set (s1 := {| world := {| tick := S (tick (world s)); disk := fs1 |}; backend := backend s |}).
  unfold bind at 1.
  rewrite (lift_call unavailable (act_fstat file) s1 (metadata_of file {| i_kind := Regular;
    i_mode := 384; i_nlink := 1; i_data := []; i_modified := now (disk (world s)) |}))
    by (simpl; by rewrite (st_inode _ _ _ _ _ _ Hst)). simpl.
  set (s2 := {| world := {| tick := S (S (tick (world s))); disk := fs1 |}; backend := backend s |}).
  assert (Hs2 : sound s2).
  { apply (sound_same_dirs s); [done| |done]. rewrite <- Hd. apply Hap. }
  edestruct (staging_succeeds s2 d p q tmp x) as (s3 & E3 & B3 & D3); try done.
  { rewrite Hd. apply Hs. }
  unfold bind at 1. rewrite E3.
  assert (Hs3 : sound s3). { apply (sound_same_dirs s); [done|by rewrite <- Hd|by rewrite B3]. }
  destruct (confirm_publication_gives s3 mr md Hs3) as (s4 & E4 & L4); [by rewrite B3..|].
  exists s4. split; [done|]. split; [etrans; [apply L4|exact B3]|by eapply sound_later].
Qed.

(** A destination that may be published to *)
Definition destination_ok (o : option (InodeId * Inode)) (replacing : bool) : Prop :=
  match o with
  | None => replacing = false
  | Some (_, n) =>
      replacing = true /\ i_kind n = Regular /\ i_nlink n = 1 /\ Z.land (i_mode n) 18 = 0
  end.

Lemma check_destination_gives s d p x replacing :
  parts p = d ++ [x] -> destination_ok (entry d (disk (world s)) x) replacing ->
  gives (check_destination p replacing) s tt.
Proof.
  intros Hp Hd. unfold check_destination. eapply gives_bind; [by apply gives_attempt|].
  intros s1 _. simpl. rewrite Hp. fold (entry d (disk (world s)) x).
  destruct (entry d (disk (world s)) x) as [[i n]|].
  - destruct Hd as (-> & Hk & Hn & Hm). simpl. eapply gives_bind; [|intros; apply gives_ret].
    unfold validate_regular, is_file, is_symlink, writable_by_others. simpl.
    rewrite Hk, Hn, Hm. simpl. apply gives_ret.
  - simpl in *. subst. by apply gives_require.
Qed.

Lemma persist_value_succeeds s id value replacing :
  sound s -> Z.of_nat (length (to_vec value)) <= MAX_RECEIPT_BYTES ->
  sequence (backend s) < U64_MAX ->
  destination_ok (entry (parts (directory (backend s))) (disk (world s)) (receipt_name id)) replacing ->
  names (disk (world s)) !!
    (parts (directory (backend s)) ++ [temporary_name id (sequence (backend s) + 1)]) = None ->
  exists s', persist_value id value replacing s = (Ok tt, s') /\ sound s'.
Proof.
  intros Hs Hlen Hseq Hdst Htmp. unfold persist_value, bind at 1, require.
  apply Z.leb_le in Hlen. rewrite Hlen. simpl.
  destruct (ensure_layout_gives s Hs) as (s1 & E1 & D1 & K1 & Q1 & Hs1 & mr & md & Hr & Hd).
  unfold bind at 1. rewrite E1. unfold bind at 1, gets at 1.
  set (dir := directory (backend s1)). assert (Edir : dir = directory (backend s)) by apply K1.
  destruct (check_destination_gives s1 (parts dir) (path_join dir (receipt_name id))
    (receipt_name id) replacing eq_refl) as (s2 & E2 & D2 & B2); [by rewrite D1, Edir|].
  unfold bind at 1. rewrite E2. unfold next_sequence, bind at 1 2, gets at 1.
  rewrite B2, Q1. unfold checked_add. rewrite (proj2 (Z.leb_le _ _)) by lia.
  unfold bind at 1, modify, ret.
  set (s3 := {| world := world s2; backend := set_sequence (sequence (backend s) + 1) (backend s2) |}).
  assert (Hs3 : sound s3).
  { destruct Hs1 as [? ? ? ? ? ?]. split; simpl; rewrite ?D2, ?B2; done. }
  destruct (stage_and_publish_succeeds s3 (parts dir)
    (path_join dir (temporary_name id (sequence (backend s) + 1)))
    (path_join dir (receipt_name id)) (temporary_name id (sequence (backend s) + 1))
    (receipt_name id) (to_vec value) mr md) as (s4 & E4 & _ & Hs4); simpl; rewrite ?B2; try done.
  - intros E. apply (temporary_not_json id (sequence (backend s) + 1)). rewrite E.
    apply receipt_name_json.
  - by rewrite D2, D1, Edir.
  - rewrite D2, D1, Edir. intros j n He. rewrite He in Hdst. apply Hdst.
  - eauto.
Qed.

(** ** Reading *)

Lemma gives_lift {A} f (act : Fs -> result ErrorKind A * Fs) s a :
  snd (act (disk (world s))) = disk (world s) -> fst (act (disk (world s))) = Ok a ->
  gives (lift f (call act)) s a.
Proof. intros Hs Ha. eexists. split; [by apply lift_call|]. by split. Qed.

Lemma validate_regular_gives i n s :
  i_kind n = Regular -> i_nlink n = 1 -> Z.land (i_mode n) 18 = 0 ->
  gives (validate_regular (metadata_of i n)) s tt.
Proof.
  intros Hk Hn Hm. unfold validate_regular, is_file, is_symlink, writable_by_others. simpl.
  rewrite Hk, Hn, Hm. apply gives_ret.
Qed.

Lemma read_bytes_gives s d p x i n :
  parts p = d ++ [x] -> entry d (disk (world s)) x = Some (i, n) ->
  i_kind n = Regular -> i_nlink n = 1 -> Z.land (i_mode n) 18 = 0 ->
  Z.of_nat (length (i_data n)) <= MAX_RECEIPT_BYTES ->
  gives (read_bytes p) s (i_data n).
Proof.
  intros Hp He Hk Hn Hm Hlen. pose proof (validate_regular_gives i n) as Hreg.
  assert (Hi : inodes (disk (world s)) !! i = Some n).
  { unfold entry, lookup_path in He. destruct (names _ !! _) as [j|]; [|done].
    destruct (inodes _ !! j) eqn:Ej; naive_solver. }
  assert (Hl : forall s1, disk (world s1) = disk (world s) ->
            lookup_path (disk (world s1)) (parts p) = Some (i, n)) by (intros s1 ->; by rewrite Hp).
  assert (Hmeta : forall f s1, disk (world s1) = disk (world s) ->
            gives (lift f (symlink_metadata p)) s1 (metadata_of i n)).
  { intros f s1 D. apply gives_lift; [done|]. simpl. by rewrite (Hl s1 D). }
  unfold read_bytes.
  eapply gives_bind; [by apply Hmeta|]. intros s1 [D1 _].
  eapply gives_bind; [by apply Hreg|]. intros s2 [D2 _].
  eapply gives_bind; [apply gives_require; by apply Z.leb_le|]. intros s3 [D3 _].
  assert (E3 : disk (world s3) = disk (world s)) by congruence.
  eapply gives_bind; [apply gives_lift; [done|]; simpl; unfold open_target; by rewrite (Hl s3 E3), Hk|].
  intros s4 [D4 _].
  eapply gives_bind; [apply gives_lift; [done|]; simpl; by rewrite D4, E3, Hi|]. intros s5 [D5 _].
  eapply gives_bind; [by apply Hreg|]. intros s6 [D6 _].
  eapply gives_bind; [apply gives_require; by apply bool_decide_eq_true|]. intros s7 [D7 _].
  assert (E7 : disk (world s7) = disk (world s)) by congruence.
  eapply gives_bind; [apply (gives_lift _ _ _ (i_data n)); [done|]; simpl; rewrite E7, Hi; simpl;
    rewrite take_ge; [done|unfold MAX_RECEIPT_BYTES in *; lia]|]. intros s8 [D8 _].
  eapply gives_bind; [apply gives_require; by apply Z.leb_le|]. intros s9 [D9 _].
  eapply gives_bind; [apply Hmeta; congruence|]. intros s10 _.
  eapply gives_bind; [by apply Hreg|]. intros s11 _.
  eapply gives_bind; [apply gives_require|intros; apply gives_ret].
  unfold same_identity. rewrite bool_decide_eq_true_2 by done. by rewrite !Z.eqb_refl.
Qed.

(** In a healthy world publication works and is durable to a reader: on a sound directory
    chain, a valid receipt of any version that fits the byte bound is published under an
    identifier not in use, and reading the file back through all the checks of
    [read_bytes] and the version dispatch gives exactly that receipt. *)
Theorem published_receipt_reads_back s rec :
  sound s -> valid rec = true -> typed rec ->
  Z.of_nat (length (to_vec (to_value rec))) <= MAX_RECEIPT_BYTES ->
  sequence (backend s) < U64_MAX ->
  let d := parts (directory (backend s)) in
  entry d (disk (world s)) (receipt_name (receipt_id rec)) = None ->
  names (disk (world s)) !!
    (d ++ [temporary_name (receipt_id rec) (sequence (backend s) + 1)]) = None ->
  exists s1 s2,
    persist_value (receipt_id rec) (to_value rec) false s = (Ok tt, s1) /\
    read_stored (path_join (directory (backend s1)) (receipt_name (receipt_id rec))) s1
      = (Ok rec, s2).
Proof.
  intros Hs Hv Ht Hlen Hseq d He Htmp.
  destruct (persist_value_succeeds s (receipt_id rec) (to_value rec) false) as (s1 & E1 & Hs1);
    try done. { unfold d in He. by rewrite He. }
  pose proof E1 as Ho. apply (persist_value_outcome d (healthy_private d)) in Ho as [[Hk Hw] _];
    [|done]. destruct Hw as [(i & t & Hent) _].
  pose proof (fun p Hp => read_bytes_gives s1 d p _ _ _ Hp Hent eq_refl eq_refl eq_refl Hlen) as Hr.
  destruct (Hr (path_join (directory (backend s1)) (receipt_name (receipt_id rec))))
    as (s2 & E2 & _); [simpl; by rewrite (kept_directory _ _ Hk)|].
  exists s1, s2. split; [done|]. unfold read_stored, bind. rewrite E2. simpl.
  unfold lift_result. by rewrite decode_to_vec.
Qed.

End HealthyStore.
