(* ===== verification/Broker.v ===== *)
(** * The receipt broker

    [native/src/receipt_broker.rs]: one receipt writer shared through bounded typed
    scopes.  The state behind the broker's mutex is one record; every public method is a
    function on it, run under the lock from beginning to end.  A port or a fence is the
    number of its scope. *)
From S2P Require Import Prelude Json Serde ReceiptFields Filesystem Store StoredReceipt OperationView Backend.
From S2P Require OperationReceipt GenericReceipt RestoreReceipt ApplyReceipt CaptureReceipt.

Definition MAX_SCOPES : Z := 34.

(** [session::SafetyStopRequest] *)
Inductive SafetyStopRequest := StopStream | StopVirtualCam | StopReplayBuffer.

Inductive ScopeKind :=
| Take
| Stage
| CriticalRecord
| GenericScope (kind : GenericReceipt.GenericKind)
| SafetyStop (kind : SafetyStopRequest)
| ManualRecordStop
| RestoreBatch
| ApplyScene
| CaptureWindow.

#[export] Instance SafetyStopRequest_eq_dec : EqDecision SafetyStopRequest.
Proof. solve_decision. Defined.
#[export] Instance ScopeKind_eq_dec : EqDecision ScopeKind.
Proof. solve_decision. Defined.

Definition is_public_stop (self : ScopeKind) : bool :=
  match self with SafetyStop _ | ManualRecordStop => true | _ => false end.

Record Scope := {
  kind : ScopeKind;
  ids : gset string;
  stop_reserved : bool
}.

Record Broker := {
  store : State;
  scopes : gmap Z Scope;
  next : Z;
  broker_poisoned : bool
}.

Definition B (A : Type) : Type := Broker -> result StoreError A * Broker.

Definition with_store (s : State) (b : Broker) : Broker :=
  {| store := s; scopes := scopes b; next := next b; broker_poisoned := broker_poisoned b |}.

Definition with_scopes (m : gmap Z Scope) (b : Broker) : Broker :=
  {| store := store b; scopes := m; next := next b; broker_poisoned := broker_poisoned b |}.

Definition bret {A} (a : A) : B A := fun b => (Ok a, b).
Definition bfail {A} (e : StoreError) : B A := fun b => (Err e, b).
Definition bbind {A C} (c : B A) (k : A -> B C) : B C := fun b =>
  match c b with
  | (Ok a, b) => k a b
  | (Err e, b) => (Err e, b)
  end.
Definition bget : B Broker := fun b => (Ok b, b).
Definition bmodify (f : Broker -> Broker) : B unit := fun b => (Ok tt, f b).
Definition brequire (c : bool) (e : StoreError) : B unit := if c then bret tt else bfail e.

(** An operation of the store or of its view *)
Definition on_store {A} (m : M A) : B A := fun b =>
  let '(r, s) := m (store b) in (r, with_store s b).

Notation "'do' x '<-' c 'in' k" := (bbind c (fun x => k))
  (at level 10, x pattern, c at level 100, k at level 200) : store_scope.

(** ** Helpers *)

Definition safety_kind (k : SafetyStopRequest) : GenericReceipt.GenericKind :=
  match k with
  | StopStream => GenericReceipt.StreamStop
  | StopVirtualCam => GenericReceipt.VirtualCamStop
  | StopReplayBuffer => GenericReceipt.ReplayBufferStop
  end.

Definition scope_matches_generic (scope : ScopeKind) (k : GenericReceipt.GenericKind) : bool :=
  match scope with
  | GenericScope expected => bool_decide (expected = k)
  | SafetyStop expected => bool_decide (safety_kind expected = k)
  | ManualRecordStop => bool_decide (k = GenericReceipt.ManualRecordStop)
  | _ => false
  end.

(** [state.scopes.values().any(p)] and [.filter(p).count()] *)
Definition any_scope (p : Scope -> bool) (m : gmap Z Scope) : bool :=
  existsb (fun '(_, s) => p s) (map_to_list m).
Definition count_scopes (p : Scope -> bool) (m : gmap Z Scope) : Z :=
  Z.of_nat (length (List.filter (fun '(_, s) => p s) (map_to_list m))).

(** The identifiers of every retained loan *)
Definition live_ids (m : gmap Z Scope) : gset string :=
  foldr (fun '(_, s) acc => ids s ∪ acc) ∅ (map_to_list m).

Definition add_id (id : string) (s : Scope) : Scope :=
  {| kind := kind s; ids := {[id]} ∪ ids s; stop_reserved := stop_reserved s |}.
Definition reserve (r : bool) (s : Scope) : Scope :=
  {| kind := kind s; ids := ids s; stop_reserved := r |}.

Definition update_scope (port : Z) (f : Scope -> Scope) : B unit :=
  bmodify (fun b => with_scopes (alter f port (scopes b)) b).

Section Methods.
Context {Env : Environment} {Codec : SerdeJson} {Sha : Sha256}.

(** The in-process loss of proof: the broker and the view both remember it. *)
Definition poison : B unit :=
  do _ <- bmodify (fun b => {| store := store b; scopes := scopes b; next := next b;
                               broker_poisoned := true |}) in
  on_store mark_uncertain.

Definition safety_admission (own : option string) : B Admission := fun b =>
  let '(r, b) := on_store (admission_with_live_ids own (live_ids (scopes b))) b in
  match r with
  | Err e => if bool_decide (e = Conflict) then (r, b) else (r, snd (poison b))
  | Ok _ => (r, b)
  end.

(** ** [ReceiptBroker] *)

Definition broker_new (s : State) : Broker :=
  {| store := s; scopes := ∅; next := 0; broker_poisoned := false |}.

Definition broker_admission : B Admission :=
  do b <- bget in
  do _ <- brequire (negb (broker_poisoned b)) DurabilityUncertain in
  on_store admission.

(** The admission check of [scope] *)
Definition admit_scope (k : ScopeKind) : B unit :=
  do b <- bget in
  if is_public_stop k then
    if any_scope (fun s => is_public_stop (kind s)) (scopes b) then bfail Conflict
    else
      do a <- safety_admission None in
      brequire (negb (adm_blocking a)) Conflict
  else
    do a <- on_store admission in
    brequire (negb (adm_blocking a)) Conflict.

(** A Take reserves the receipt of its own Stop. *)
Definition admit_take (k : ScopeKind) : B unit :=
  if negb (bool_decide (k = Take)) then bret tt
  else
    do b <- bget in
    if any_scope (fun s => bool_decide (kind s = Take)) (scopes b) then bfail InventoryLimit
    else
      do used <- on_store capacity_used in
      brequire (saturating_add used 2 <=? MAX_RECEIPTS) InventoryLimit.

Definition scope (k : ScopeKind) : B Z :=
  do b <- bget in
  do _ <- brequire (negb (broker_poisoned b)) DurabilityUncertain in
  do _ <- brequire (Z.of_nat (size (scopes b)) <? MAX_SCOPES) Conflict in
  do _ <- admit_scope k in
  do _ <- admit_take k in
  do b <- bget in
  match checked_add (next b) 1 with
  | None => bfail IdentityExhausted
  | Some n =>
      do _ <- bmodify (fun b =>
        {| store := store b;
           scopes := <[n := {| kind := k; ids := ∅; stop_reserved := bool_decide (k = Take) |}]>
                       (scopes b);
           next := n; broker_poisoned := broker_poisoned b |}) in
      bret n
  end.

(** [into_store]; [sole] tells whether this is the last handle to the shared state. *)
Definition into_store (sole : bool) (b : Broker) : State + Broker :=
  if sole && negb (broker_poisoned b) then inl (store b) else inr b.

(** ** [DispatchFence] *)

(** What every query starts with *)
Definition fenced_scope (port : Z) : B Scope :=
  do b <- bget in
  do _ <- brequire (negb (broker_poisoned b)) DurabilityUncertain in
  match scopes b !! port with
  | Some s => bret s
  | None => bfail Conflict
  end.

Definition is_scope_kind (k : ScopeKind) (port : Z) : B bool :=
  do s <- fenced_scope port in
  bret (bool_decide (kind s = k)).

Definition is_capture_window : Z -> B bool := is_scope_kind CaptureWindow.
Definition is_apply_scene : Z -> B bool := is_scope_kind ApplyScene.
Definition is_restore_batch : Z -> B bool := is_scope_kind RestoreBatch.
Definition is_manual_record_stop : Z -> B bool := is_scope_kind ManualRecordStop.

Definition safety_stop_kind (port : Z) : B (option SafetyStopRequest) :=
  do s <- fenced_scope port in
  bret (match kind s with SafetyStop k => Some k | _ => None end).

Definition fence_admission (port : Z) : B Admission :=
  do s <- fenced_scope port in
  if is_public_stop (kind s) then safety_admission None else on_store admission.

Definition permits (port : Z) (own : string) : B bool :=
  do b <- bget in
  do _ <- brequire (negb (broker_poisoned b)) DurabilityUncertain in
  match scopes b !! port with
  | Some s =>
      if negb (bool_decide (own ∈ ids s)) then bfail Conflict
      else if is_public_stop (kind s) then
        do a <- safety_admission (Some own) in
        bret (negb (adm_blocking a))
      else
        do d <- on_store (is_dispatching own) in
        if d then
          do a <- on_store (admission_except (Some own)) in
          bret (negb (adm_blocking a))
        else bret false
  | None => bfail Conflict
  end.

(** ** [ReceiptPort] *)

(** Errors after which the store can no longer be trusted *)
Definition loses_proof (e : StoreError) : bool :=
  match e with
  | DurabilityUncertain | Unavailable | UnsafePath | Corrupt => true
  | _ => false
  end.

Definition apply {A} (action : B A) : B A := fun b =>
  match action b with
  | (Ok a, b) => (Ok a, b)
  | (Err e, b) =>
      if loses_proof e then (Err e, snd (poison b))
      else
        let '(r, b) := on_store admission b in
        (Err e, if is_err r then snd (poison b) else b)
  end.

Definition get_scope (port : Z) : B Scope :=
  do b <- bget in
  match scopes b !! port with
  | Some s => bret s
  | None => bfail Conflict
  end.

Definition reserved_stops (b : Broker) : Z := count_scopes stop_reserved (scopes b).

(** The receipt kinds a scope may prepare in version 1 *)
Definition allows_v1 (s : ScopeKind) (k : OperationReceipt.OperationKind) : bool :=
  match s, k with
  | (Take | CriticalRecord), (OperationReceipt.RecordStart | OperationReceipt.RecordStop) => true
  | Stage, (OperationReceipt.StageScene | OperationReceipt.TakeScene) => true
  | _, _ => false
  end.

(** [used + reserved + extra <= MAX_RECEIPTS], in saturating arithmetic *)
Definition check_capacity (extra : Z) : B unit :=
  do b <- bget in
  let reserved := reserved_stops b in
  do used <- on_store capacity_used in
  brequire (saturating_add (saturating_add used reserved) extra <=? MAX_RECEIPTS) InventoryLimit.

Definition check_ids (s : Scope) : B unit :=
  brequire (Z.of_nat (size (ids s)) <? MAX_RECEIPTS) InventoryLimit.

Definition port_prepare (port : Z) (id : string) (k : OperationReceipt.OperationKind)
  (generation : Z) (utc : string) (details : PrepareDetails)
  : B OperationReceipt.OperationReceipt :=
  apply (
    do s <- get_scope port in
    do _ <- brequire (allows_v1 (kind s) k) Conflict in
    let stop := bool_decide (k = OperationReceipt.RecordStop) in
    do b <- bget in
    do _ <- brequire (negb (broker_poisoned b && negb stop)) DurabilityUncertain in
    let own_reserved := if stop && stop_reserved s then 1 else 0 in
    let restarting := bool_decide (kind s = Take)
                      && bool_decide (k = OperationReceipt.RecordStart) && negb (stop_reserved s) in
    do _ <- check_capacity (1 - own_reserved + (if restarting then 1 else 0)) in
    do _ <- check_ids s in
    do receipt <- on_store (prepare id k generation utc details) in
    do _ <- update_scope port (add_id id) in
    do _ <- (if stop then update_scope port (reserve false)
             else if restarting then update_scope port (reserve true)
             else bret tt) in
    bret receipt).

(** Is the identifier one of the loans of the port's scope, of an allowed kind? *)
Definition check_loan (port : Z) (allowed : ScopeKind -> bool) (id : string) : B unit :=
  do b <- bget in
  brequire (is_some_and (scopes b !! port)
              (fun s => allowed (kind s) && bool_decide (id ∈ ids s))) Conflict.

Definition port_update (port : Z) (receipt : OperationReceipt.OperationReceipt)
  (u : OperationReceipt.OperationUpdate) (utc : string) : B OperationReceipt.OperationReceipt :=
  apply (
    do _ <- check_loan port (fun _ => true) (OperationReceipt.operation_id receipt) in
    on_store (update receipt u utc)).

(** The common end of the other [prepare_*] methods *)
Definition lend {A} (port : Z) (s : Scope) (id : string) (m : M A) : B A :=
  do _ <- check_capacity 1 in
  do _ <- check_ids s in
  do receipt <- on_store m in
  do _ <- update_scope port (add_id id) in
  bret receipt.

Definition port_prepare_generic (port : Z) (id : string) (k : GenericReceipt.GenericKind)
  (generation : Z) (utc : string) : B GenericReceipt.GenericReceipt :=
  apply (
    do s <- get_scope port in
    do _ <- brequire (scope_matches_generic (kind s) k) Conflict in
    do b <- bget in
    do _ <- brequire (negb (broker_poisoned b)) DurabilityUncertain in
    do _ <- (if is_public_stop (kind s) then
               do a <- safety_admission None in
               brequire (negb (adm_blocking a)) Conflict
             else bret tt) in
    lend port s id (prepare_generic id k generation utc)).

Definition port_update_generic (port : Z) (receipt : GenericReceipt.GenericReceipt)
  (p : GenericReceipt.GenericPhase) (utc : string) : B GenericReceipt.GenericReceipt :=
  apply (
    do _ <- check_loan port (fun k => scope_matches_generic k (GenericReceipt.kind receipt))
              (GenericReceipt.operation_id receipt) in
    on_store (update_generic receipt p utc)).

(** [prepare_restore], [prepare_apply] and [prepare_capture] guard the scope alike. *)
Definition lend_of_kind {A} (port : Z) (k : ScopeKind) (id : string) (m : M A) : B A :=
  apply (
    do s <- get_scope port in
    do _ <- brequire (bool_decide (kind s = k)) Conflict in
    do b <- bget in
    do _ <- brequire (negb (broker_poisoned b)) DurabilityUncertain in
    lend port s id m).

Definition port_prepare_restore (port : Z) (id : string) (generation request_count : Z)
  (utc : string) : B RestoreReceipt.RestoreReceipt :=
  lend_of_kind port RestoreBatch id (prepare_restore id generation request_count utc).

Definition port_update_restore (port : Z) (receipt : RestoreReceipt.RestoreReceipt)
  (p : RestoreReceipt.RestorePhase) (counts : option RestoreReceipt.RestoreCounts) (utc : string)
  : B RestoreReceipt.RestoreReceipt :=
  apply (
    do _ <- check_loan port (fun k => bool_decide (k = RestoreBatch))
              (RestoreReceipt.operation_id receipt) in
    on_store (update_restore receipt p counts utc)).

Definition port_prepare_capture (port : Z) (id : string) (generation : Z)
  (plan : CaptureReceipt.CapturePlan) (utc : string) : B CaptureReceipt.CaptureReceipt :=
  lend_of_kind port CaptureWindow id (prepare_capture id generation plan utc).

Definition port_update_capture (port : Z) (receipt : CaptureReceipt.CaptureReceipt)
  (u : CaptureReceipt.CaptureUpdate) (utc : string) : B CaptureReceipt.CaptureReceipt :=
  apply (
    do _ <- check_loan port (fun k => bool_decide (k = CaptureWindow))
              (CaptureReceipt.operation_id receipt) in
    on_store (update_capture receipt u utc)).

Definition port_prepare_apply (port : Z) (id : string) (generation creation_count : Z)
  (utc : string) : B ApplyReceipt.ApplyReceipt :=
  lend_of_kind port ApplyScene id (prepare_apply id generation creation_count utc).

Definition port_update_apply (port : Z) (receipt : ApplyReceipt.ApplyReceipt)
  (u : ApplyReceipt.ApplyUpdate) (utc : string) : B ApplyReceipt.ApplyReceipt :=
  apply (
    do _ <- check_loan port (fun k => bool_decide (k = ApplyScene))
              (ApplyReceipt.operation_id receipt) in
    on_store (update_apply receipt u utc)).

(** [Drop for ReceiptPort] *)
Definition drop_port (port : Z) (b : Broker) : Broker :=
  with_scopes (delete port (scopes b)) b.

End Methods.
