(* ===== verification/BrokerSafety.v ===== *)
(** * Safety of the receipt broker

    The invariant of the broker's state under every public method, proved against the
    [CapacityStore] interface; that a reserved Stop always has room for its receipt; and
    that a loss of proof is never forgotten. *)
From S2P Require Import Prelude Json Serde ReceiptFields PhaseMachine Filesystem Store StoredReceipt OperationView Backend Refinement Capacity Broker.
From S2P Require OperationReceipt GenericReceipt RestoreReceipt ApplyReceipt CaptureReceipt.

(** ** Counting scopes *)

Definition b2z (b : bool) : Z := if b then 1 else 0.

Lemma count_scopes_delete p m i s :
  m !! i = Some s -> count_scopes p m = b2z (p s) + count_scopes p (delete i m).
Proof.
  intros Hi. unfold count_scopes.
  rewrite <- (bool_filter_perm (fun '(_, s) => p s) _ _ (map_to_list_delete m i s Hi)).
  simpl. unfold b2z. destruct (p s); simpl; lia.
Qed.

Lemma count_scopes_insert p m i s :
  count_scopes p (<[i := s]> m) = b2z (p s) + count_scopes p (delete i m).
Proof.
  rewrite (count_scopes_delete p _ i s) by apply lookup_insert_eq. by rewrite delete_insert_eq.
Qed.

Lemma count_scopes_fresh p m i s :
  m !! i = None -> count_scopes p (<[i := s]> m) = b2z (p s) + count_scopes p m.
Proof. intros Hi. rewrite count_scopes_insert. by rewrite delete_id. Qed.

Lemma count_scopes_alter p f m i s :
  m !! i = Some s ->
  count_scopes p (alter f i m) = count_scopes p m + b2z (p (f s)) - b2z (p s).
Proof.
  intros Hi. rewrite (count_scopes_delete p m i s Hi).
  rewrite (count_scopes_delete p (alter f i m) i (f s)) by (by rewrite lookup_alter_eq, Hi).
  rewrite delete_alter_eq. lia.
Qed.

Lemma count_scopes_nonneg p m : 0 <= count_scopes p m.
Proof. unfold count_scopes. lia. Qed.

Lemma count_scopes_delete_le p m i : count_scopes p (delete i m) <= count_scopes p m.
Proof.
  destruct (m !! i) as [s|] eqn:E; [|by rewrite delete_id].
  rewrite (count_scopes_delete p m i s E). unfold b2z. destruct (p s); lia.
Qed.

Lemma count_scopes_pos p m i s : m !! i = Some s -> p s = true -> 1 <= count_scopes p m.
Proof.
  intros Hi Hp. rewrite (count_scopes_delete p m i s Hi), Hp.
  pose proof (count_scopes_nonneg p (delete i m)). simpl. lia.
Qed.

Lemma any_scope_false p m :
  any_scope p m = false -> forall i s, m !! i = Some s -> p s = false.
Proof.
  unfold any_scope. intros Hf i s Hi. apply not_true_iff_false. intros Hp.
  apply not_true_iff_false in Hf. apply Hf, existsb_exists. exists (i, s). split; [|done].
  by apply list_elem_of_In, elem_of_map_to_list.
Qed.

Lemma saturating_le a b : 0 <= a -> 0 <= b -> (saturating_add a b <=? MAX_RECEIPTS) = (a + b <=? MAX_RECEIPTS).
Proof.
  intros Ha Hb. unfold saturating_add, USIZE_MAX, U64_MAX, MAX_RECEIPTS.
  destruct (Z.leb_spec (a + b) 1024); [apply Z.leb_le|apply Z.leb_gt]; lia.
Qed.

Lemma saturating_le3 a b c :
  0 <= a -> 0 <= b -> 0 <= c ->
  (saturating_add (saturating_add a b) c <=? MAX_RECEIPTS) = (a + b + c <=? MAX_RECEIPTS).
Proof.
  intros Ha Hb Hc. unfold saturating_add, USIZE_MAX, U64_MAX, MAX_RECEIPTS.
  destruct (Z.leb_spec (a + b + c) 1024); [apply Z.leb_le|apply Z.leb_gt]; lia.
Qed.

(** ** The invariant *)

Section Safety.
Context {Env : Environment} {Codec : SerdeJson} {Sha : Sha256} `{!CapacityStore}.

(** Everything but the room for reserved Stops *)
Record core (b : Broker) : Prop := {
  bi_store : cs_ok (store b);
  bi_size : Z.of_nat (size (scopes b)) <= MAX_SCOPES;
  bi_fresh : forall p s, scopes b !! p = Some s -> 0 < p <= next b;
  bi_next : 0 <= next b <= U64_MAX;
  bi_one_take : forall p q s t, scopes b !! p = Some s -> scopes b !! q = Some t ->
    kind s = Take -> kind t = Take -> p = q;
  bi_one_stop : forall p q s t, scopes b !! p = Some s -> scopes b !! q = Some t ->
    is_public_stop (kind s) = true -> is_public_stop (kind t) = true -> p = q;
  bi_reserved : forall p s, scopes b !! p = Some s -> stop_reserved s = true -> kind s = Take;
  bi_loans : forall p s id, scopes b !! p = Some s -> id ∈ ids s -> cs_holds (store b) id;
  bi_view : poisoned (read_namespace (backend (store b))) = broker_poisoned b
}.

(** Every reserved Stop has room. *)
Definition room (b : Broker) : Prop :=
  reserved_stops b = 0 \/ cs_used (store b) + reserved_stops b <= MAX_RECEIPTS.

Definition inv (b : Broker) : Prop := core b /\ (broker_poisoned b = false -> room b).

(** A change of the store alone that keeps what is counted *)
Definition quiet_step (b b' : Broker) : Prop :=
  scopes b' = scopes b /\ next b' = next b /\ broker_poisoned b' = broker_poisoned b /\
  cs_stays (store b) (store b').

Lemma quiet_core b b' : quiet_step b b' -> core b -> core b' /\ cs_used (store b') = cs_used (store b).
Proof.
  intros (Es & En & Ep & Hst) [? ? ? ? ? ? ? Hl Hv].
  destruct Hst as (Hok & Hu & Hh & Hp); [done|]. split; [|done].
  split; rewrite ?Es, ?En, ?Ep; try done; [|congruence]. intros p s id Hs Hid. eauto.
Qed.

Lemma quiet_room b b' : quiet_step b b' -> core b -> room b -> room b'.
Proof.
  intros Hq Hc. destruct (quiet_core _ _ Hq Hc) as [_ Hu]. destruct Hq as (Es & _).
  unfold room, reserved_stops. by rewrite Hu, Es.
Qed.

Lemma quiet_inv b b' : quiet_step b b' -> inv b -> inv b'.
Proof.
  intros Hq [Hc Hr]. split; [by eapply quiet_core|]. intros Hp. eapply quiet_room; [done|done|].
  apply Hr. by destruct Hq as (_ & _ & <- & _).
Qed.

Lemma on_store_quiet {A} (m : M A) b :
  cs_stays (store b) (snd (m (store b))) -> quiet_step b (snd (on_store m b)).
Proof. intros Hm. unfold on_store. by destruct (m (store b)). Qed.

Lemma admission_quiet own b : quiet_step b (snd (on_store (admission_except own) b)).
Proof. apply on_store_quiet, cs_admission. Qed.
Lemma dispatching_quiet id b : quiet_step b (snd (on_store (is_dispatching id) b)).
Proof. apply on_store_quiet, cs_dispatching. Qed.
Lemma capacity_quiet b : quiet_step b (snd (on_store capacity_used b)).
Proof. apply on_store_quiet, cs_capacity_stays. Qed.

(** Poisoning keeps the core and voids the promise of room. *)
Lemma poison_core b : core b -> core (snd (poison b)) /\ broker_poisoned (snd (poison b)) = true.
Proof.
  intros [Hok ? ? ? ? ? ? Hl Hv]. destruct (cs_mark (store b) Hok) as (Hok' & Hu & Hh & Hp).
  unfold poison, bbind, bmodify, on_store. simpl in *.
  destruct (mark_uncertain (store b)) as [r s]. simpl in *.
  split; [|done]. split; simpl; try done. intros p sc id Hs Hid. eauto.
Qed.

Lemma poison_inv b : core b -> inv (snd (poison b)).
Proof. intros Hc. destruct (poison_core b Hc) as [? Hp]. split; [done|]. by rewrite Hp. Qed.

(** ** Methods that lend nothing *)

Lemma safety_admission_inv own b :
  inv b ->
  inv (snd (safety_admission own b)) /\
  (scopes (snd (safety_admission own b)) = scopes b /\ next (snd (safety_admission own b)) = next b) /\
  (forall a, fst (safety_admission own b) = Ok a ->
     quiet_step b (snd (safety_admission own b))).
Proof.
  intros Hi. unfold safety_admission.
  pose proof (on_store_quiet (admission_with_live_ids own (live_ids (scopes b))) b
    (cs_live_admission _ _ _)) as Hq.
  destruct (on_store _ b) as [[a|e] b1]; simpl in Hq.
  - simpl. split_and!; [by eapply quiet_inv|apply Hq..|done].
  - destruct (quiet_inv _ _ Hq Hi) as [Hc1 Hr1]. case_bool_decide; simpl.
    + split_and!; [by split|apply Hq..|done].
    + assert (Hsame : scopes (snd (poison b1)) = scopes b1 /\ next (snd (poison b1)) = next b1).
      { unfold poison, bbind, bmodify, on_store. simpl. by destruct (mark_uncertain (store b1)). }
      destruct Hsame as [Hs Hn]. split_and!; [by apply poison_inv| | |done].
      * etrans; [exact Hs|apply Hq].
      * etrans; [exact Hn|apply Hq].
Qed.

(** ** Opening a scope *)

Lemma admit_scope_spec k b :
  inv b ->
  let b1 := snd (admit_scope k b) in
  inv b1 /\
  (fst (admit_scope k b) = Ok tt ->
   quiet_step b b1 /\
   (is_public_stop k = true -> any_scope (fun s => is_public_stop (kind s)) (scopes b) = false)).
Proof.
  intros Hi. unfold admit_scope, bbind, bget. simpl. destruct (is_public_stop k).
  - destruct (any_scope _ _); simpl; [by split|].
    destruct (safety_admission_inv None b Hi) as (Hi1 & _ & Hq).
    destruct (safety_admission None b) as [[a|e] b1]; simpl in *; [|by split].
    specialize (Hq a eq_refl). unfold brequire. by destruct (adm_blocking a).
  - pose proof (admission_quiet None b) as Hq. unfold admission.
    destruct (on_store (admission_except None) b) as [[a|e] b1]; simpl in *;
      apply (quiet_inv _ _ Hq) in Hi; [|by split].
    unfold brequire. by destruct (adm_blocking a).
Qed.

Lemma capacity_step b n b1 :
  core b -> on_store capacity_used b = (Ok n, b1) -> quiet_step b b1 /\ n = cs_used (store b).
Proof.
  intros Hc Hr. pose proof (capacity_quiet b) as Hq. rewrite Hr in Hq. split; [done|].
  unfold on_store in Hr. destruct (capacity_used (store b)) as [r s] eqn:E. injection Hr as -> <-.
  eapply cs_capacity; [apply Hc|exact E].
Qed.

Lemma admit_take_spec k b :
  inv b ->
  let b1 := snd (admit_take k b) in
  inv b1 /\
  (fst (admit_take k b) = Ok tt ->
   quiet_step b b1 /\
   (k = Take -> any_scope (fun s => bool_decide (kind s = Take)) (scopes b) = false /\
                cs_used (store b) + 2 <= MAX_RECEIPTS)).
Proof.
  intros Hi. unfold admit_take. case_bool_decide as Hk; simpl.
  2: { split; [done|]. intros _. split; [|done]. split_and!; done. }
  unfold bbind, bget. simpl. destruct (any_scope _ _) eqn:Ea; simpl; [by split|].
  pose proof (capacity_quiet b) as Hq.
  destruct (on_store capacity_used b) as [[n|e] b1] eqn:Ec; simpl in *;
    pose proof (quiet_inv _ _ Hq Hi) as Hi1; [|by split].
  apply capacity_step in Ec as [_ ->]; [|apply Hi]. unfold brequire.
  rewrite saturating_le by (done || apply cs_used_nonneg).
  destruct (Z.leb_spec (cs_used (store b) + 2) MAX_RECEIPTS); simpl; [|by split].
  split; [done|]. intros _. by split.
Qed.

(** The scope [ReceiptBroker::scope] inserts *)
Definition opened (n : Z) (k : ScopeKind) (b : Broker) : Broker :=
  {| store := store b;
     scopes := <[n := {| kind := k; ids := ∅; stop_reserved := bool_decide (k = Take) |}]> (scopes b);
     next := n; broker_poisoned := broker_poisoned b |}.

Lemma no_take_no_reserve b :
  core b -> any_scope (fun s => bool_decide (kind s = Take)) (scopes b) = false ->
  reserved_stops b = 0.
Proof.
  intros Hc Ha. unfold reserved_stops, count_scopes.
  destruct (List.filter _ _) as [|[p s] l] eqn:E; [done|]. exfalso.
  assert (Hin : In (p, s) (List.filter (fun '(_, s) => stop_reserved s) (map_to_list (scopes b))))
    by (rewrite E; by left).
  apply filter_In in Hin as [Hin Hs]. apply list_elem_of_In, elem_of_map_to_list in Hin.
  pose proof (bi_reserved _ Hc _ _ Hin Hs) as Hk.
  apply any_scope_false with (i := p) (s := s) in Ha; [|done]. by apply bool_decide_eq_false in Ha.
Qed.

Lemma opened_core n k b :
  core b -> Z.of_nat (size (scopes b)) < MAX_SCOPES -> n = next b + 1 -> n <= U64_MAX ->
  (is_public_stop k = true -> any_scope (fun s => is_public_stop (kind s)) (scopes b) = false) ->
  (k = Take -> any_scope (fun s => bool_decide (kind s = Take)) (scopes b) = false) ->
  scopes b !! n = None /\ core (opened n k b).
Proof.
  intros Hc Hsize -> Hmax Hstop Htake.
  assert (Hfresh : scopes b !! (next b + 1) = None).
  { destruct (scopes b !! (next b + 1)) as [s|] eqn:E; [|done].
    apply (bi_fresh _ Hc) in E. lia. }
  split; [done|]. destruct Hc as [? Hsz Hfr Hn Ht Hp Hr Hl Hv].
  split; simpl; try done.
  - rewrite map_size_insert_None by done. lia.
  - intros p s. rewrite lookup_insert_Some. intros [[<- _]|[_ Hs]]; [lia|].
    apply Hfr in Hs. lia.
  - lia.
  - intros p q s t. rewrite !lookup_insert_Some.
    intros [[<- <-]|[_ Hs]] [[<- <-]|[_ Hq]] Ks Kt; simpl in *; try done; [| |by eapply Ht].
    + pose proof (any_scope_false _ _ (Htake Ks) _ _ Hq) as Hf. by apply bool_decide_eq_false in Hf.
    + pose proof (any_scope_false _ _ (Htake Kt) _ _ Hs) as Hf. by apply bool_decide_eq_false in Hf.
  - intros p q s t. rewrite !lookup_insert_Some.
    intros [[<- <-]|[_ Hs]] [[<- <-]|[_ Hq]] Ks Kt; simpl in *; try done; [| |by eapply Hp].
    + pose proof (any_scope_false _ _ (Hstop Ks) _ _ Hq) as Hf. simpl in Hf. congruence.
    + pose proof (any_scope_false _ _ (Hstop Kt) _ _ Hs) as Hf. simpl in Hf. congruence.
  - intros p s. rewrite lookup_insert_Some. intros [[<- <-]|[_ Hs]]; simpl; [|by eapply Hr].
    apply bool_decide_eq_true.
  - intros p s id. rewrite lookup_insert_Some. intros [[<- <-]|[_ Hs]]; simpl; [set_solver|].
    by eapply Hl.
Qed.

Lemma scope_inv k b : inv b -> inv (snd (scope k b)).
Proof.
  intros Hi. unfold scope, bbind, bget. simpl. unfold brequire at 1.
  destruct (broker_poisoned b) eqn:Ep; simpl; [done|].
  unfold brequire at 1. destruct (Z.ltb_spec (Z.of_nat (size (scopes b))) MAX_SCOPES); simpl; [|done].
  destruct (admit_scope_spec k b Hi) as [Hi1 Hs1].
  destruct (admit_scope k b) as [[[]|e] b1]; simpl in *; [|done].
  destruct (Hs1 eq_refl) as [(Es1 & En1 & Ep1 & _) Hstop].
  destruct (admit_take_spec k b1 Hi1) as [Hi2 Hs2].
  destruct (admit_take k b1) as [[[]|e] b2]; simpl in *; [|done].
  destruct (Hs2 eq_refl) as [Hq2 Htake]. pose proof (quiet_core _ _ Hq2 (proj1 Hi1)) as [Hc2 Hu2].
  destruct Hq2 as (Es2 & En2 & Ep2 & _).
  destruct (checked_add (next b2) 1) as [n|] eqn:En; simpl; [|done].
  apply checked_add_Some in En as [-> Hmax]. fold (opened (next b2 + 1) k b2).
  destruct (opened_core (next b2 + 1) k b2) as [Hfresh Hc]; try done.
  { by rewrite Es2, Es1. }
  { intros Hk. rewrite Es2, Es1. by apply Hstop. }
  { intros Hk. rewrite Es2. by apply Htake. }
  split; [done|]. intros _. destruct Hi2 as [_ Hr2].
  unfold room, reserved_stops. simpl. rewrite count_scopes_fresh by done. simpl.
  case_bool_decide as Hk; simpl.
  - destruct (Htake Hk) as [Ha Hroom]. rewrite <- Es2 in Ha.
    pose proof (no_take_no_reserve b2 Hc2 Ha) as Hz. unfold reserved_stops in Hz. right. lia.
  - rewrite Z.add_0_l. apply Hr2. congruence.
Qed.

(** ** Port methods *)

(** Where an action may leave the broker: the room is kept, or the error poisons. *)
Definition after {A} (r : result StoreError A) (b : Broker) : Prop :=
  core b /\
  (broker_poisoned b = false -> room b \/ exists e, r = Err e /\ loses_proof e = true).

Lemma after_inv {A} (r : result StoreError A) b : inv b -> after r b.
Proof. intros [? ?]. split; auto. Qed.

Lemma apply_inv {A} (action : B A) b :
  after (fst (action b)) (snd (action b)) -> inv (snd (apply action b)).
Proof.
  unfold apply. destruct (action b) as [[a|e] b1]; simpl; intros [Hc Hr].
  - split; [done|]. intros Hp. destruct (Hr Hp) as [?|(? & ? & _)]; done.
  - destruct (loses_proof e) eqn:El; simpl; [by apply poison_inv|].
    assert (Hi : inv b1).
    { split; [done|]. intros Hp. destruct (Hr Hp) as [?|(? & [= <-] & ?)]; [done|congruence]. }
    pose proof (admission_quiet None b1) as Hq. unfold admission.
    destruct (on_store (admission_except None) b1) as [r b2]. simpl in *.
    apply (quiet_inv _ _ Hq) in Hi. destruct (is_err r); simpl; [apply poison_inv, Hi|done].
Qed.

(** An operation of the store, run by a port *)
Lemma on_op {A} (inj : A -> StoredReceipt) (m : M A) op b :
  run_op op = wrap inj m -> core b ->
  let r := fst (on_store m b) in
  let b1 := snd (on_store m b) in
  core b1 /\ scopes b1 = scopes b /\ broker_poisoned b1 = broker_poisoned b /\
  cs_used (store b1) <= cs_used (store b) + b2z (is_prepare op && may_publish r) /\
  r <> Err InventoryLimit /\
  (forall a, r = Ok a -> cs_holds (store b1) (receipt_id (inj a)) /\
     forall id, op_new_id op = Some id -> receipt_id (inj a) = id).
Proof.
  intros Hop [? ? ? ? ? ? ? Hl Hv]. unfold on_store.
  pose proof (cs_op op (store b)) as Hlaw. rewrite Hop in Hlaw. unfold wrap, bind, ret in Hlaw.
  destruct (m (store b)) as [[a|e] s'] eqn:E; simpl in *;
    destruct (Hlaw _ _ ltac:(done) eq_refl) as (Hok & Hh & Hp & Hu & Hlim & Hnew);
    (split_and!; [split; simpl; try done; [intros; eauto|congruence]|done|done|exact Hu| |]).
  - done.
  - intros a' [= <-]. by apply Hnew.
  - congruence.
  - done.
Qed.

(** [update_*]: the loan is checked, then the store updates in place. *)
Lemma update_method_inv {A} (inj : A -> StoredReceipt) (m : M A) op port allowed id b :
  run_op op = wrap inj m -> is_prepare op = false -> inv b ->
  inv (snd (apply (do _ <- check_loan port allowed id in on_store m) b)).
Proof.
  intros Hop Hup [Hc Hr]. apply apply_inv. unfold bbind, check_loan, bget, bbind, brequire.
  destruct (is_some_and (scopes b !! port) _); simpl; [|by apply after_inv].
  destruct (on_op inj m op b Hop Hc) as (Hc1 & Es & Ep & Hu & _ & _).
  split; [done|]. intros Hp. left. rewrite Ep in Hp. specialize (Hr Hp).
  unfold room, reserved_stops in *. rewrite Es. rewrite Hup in Hu. simpl in Hu.
  destruct Hr; [by left|right; lia].
Qed.

Lemma check_capacity_spec extra b :
  core b -> 0 <= extra ->
  let b1 := snd (check_capacity extra b) in
  quiet_step b b1 /\
  (fst (check_capacity extra b) = Ok tt ->
   cs_used (store b) + reserved_stops b + extra <= MAX_RECEIPTS) /\
  (fst (check_capacity extra b) = Err InventoryLimit ->
   MAX_RECEIPTS < cs_used (store b) + reserved_stops b + extra).
Proof.
  intros Hc Hx. unfold check_capacity, bbind, bget. simpl. pose proof (capacity_quiet b) as Hq.
  pose proof (count_scopes_nonneg stop_reserved (scopes b)) as Hn.
  destruct (on_store capacity_used b) as [[n|e] b1] eqn:Ec; simpl in *.
  - apply capacity_step in Ec as [_ ->]; [|done]. unfold brequire.
    rewrite saturating_le3 by (done || apply cs_used_nonneg).
    destruct (Z.leb_spec (cs_used (store b) + reserved_stops b + extra) MAX_RECEIPTS); simpl; done.
  - split_and!; [done|done|]. intros [= ->]. unfold on_store in Ec.
    destruct (capacity_used (store b)) as [r s] eqn:E. injection Ec as -> <-.
    apply cs_capacity_limit in E; [|apply Hc]. unfold reserved_stops. lia.
Qed.

(** Lending an identifier to a scope *)
Lemma lent_core b port s id f :
  core b -> scopes b !! port = Some s -> cs_holds (store b) id ->
  kind (f s) = kind s -> ids (f s) = {[id]} ∪ ids s ->
  (stop_reserved (f s) = true -> kind s = Take) ->
  core (with_scopes (alter f port (scopes b)) b).
Proof.
  intros [? Hsz Hfr Hn Ht Hp Hr Hl Hv] Hs Hh Hk Hids Hres.
  assert (Hget : forall q t, alter f port (scopes b) !! q = Some t ->
            exists t0, scopes b !! q = Some t0 /\ kind t = kind t0 /\
              ((q = port /\ t0 = s /\ t = f s) \/ t = t0)).
  { intros q t. destruct (decide (q = port)) as [->|Hne].
    - rewrite lookup_alter_eq, Hs. intros [= <-]. exists s. split_and!; [done|done|by left].
    - rewrite lookup_alter_ne by done. intros Hq. exists t. split_and!; [done|done|by right]. }
  split; simpl; try done.
  - by rewrite <- size_dom, dom_alter_L, size_dom.
  - intros q t (t0 & Hq & _)%Hget. by apply Hfr in Hq.
  - intros p q t u (t0 & H0 & K0 & _)%Hget (u0 & H1 & K1 & _)%Hget. rewrite K0, K1. by apply Ht.
  - intros p q t u (t0 & H0 & K0 & _)%Hget (u0 & H1 & K1 & _)%Hget. rewrite K0, K1. by apply Hp.
  - intros q t (t0 & Hq & Kq & [(-> & -> & ->)| ->])%Hget; [rewrite Hk; auto|by eapply Hr].
  - intros q t i (t0 & Hq & Kq & [(-> & -> & ->)| ->])%Hget; [|by eapply Hl].
    rewrite Hids, elem_of_union, elem_of_singleton. intros [->|Hi]; [done|by eapply Hl].
Qed.

(** What publishing under a checked capacity leaves: [f] is how the scope changes. *)
Lemma publish_after {A} (inj : A -> StoredReceipt) (m : M A) op port s id f extra b :
  run_op op = wrap inj m -> op_new_id op = Some id -> inv b -> scopes b !! port = Some s ->
  (broker_poisoned b = false -> cs_used (store b) + reserved_stops b + extra <= MAX_RECEIPTS) ->
  kind (f s) = kind s -> ids (f s) = {[id]} ∪ ids s ->
  (stop_reserved (f s) = true -> kind s = Take) ->
  b2z (stop_reserved (f s)) - b2z (stop_reserved s) + 1 <= extra ->
  let c := do receipt <- on_store m in
           do _ <- update_scope port f in
           bret receipt in
  after (fst (c b)) (snd (c b)) /\ fst (c b) <> Err InventoryLimit.
Proof.
  intros Hop Hid [Hc Hr] Hs Hcap Hk Hids Hres Hx c.
  assert (Hprep : is_prepare op = true) by (by destruct op).
  destruct (on_op inj m op b Hop Hc) as (Hc1 & Es & Ep & Hu & Hlim & Hnew).
  unfold c, bbind, update_scope, bmodify, bret. rewrite Hprep in Hu. simpl in Hu.
  destruct (on_store m b) as [[a|e] b1]; simpl in *.
  - split; [|done]. destruct (Hnew a eq_refl) as [Hh Hn]. rewrite (Hn id Hid) in Hh.
    split; [eapply lent_core; by rewrite ?Es|]. simpl. intros Hp. left. right.
    unfold reserved_stops in *. simpl. rewrite Es, (count_scopes_alter _ _ _ _ _ Hs).
    rewrite Ep in Hp. specialize (Hcap Hp). lia.
  - split; [|congruence]. split; [done|]. intros Hp. rewrite Ep in Hp. specialize (Hr Hp).
    unfold room, reserved_stops in *. rewrite Es.
    destruct (loses_proof e) eqn:El; [right; eauto|]. left.
    assert (cs_used (store b1) <= cs_used (store b)) as Hu'
      by (destruct e; simpl in *; first [done|lia]).
    destruct Hr; [by left|right; lia].
Qed.

Lemma quiet_scopes b b1 : quiet_step b b1 -> scopes b1 = scopes b.
Proof. by intros (-> & _). Qed.

(** An action of a port *)
Definition settles {A} (c : B A) (b : Broker) : Prop := after (fst (c b)) (snd (c b)).

Lemma settles_bind {A C} (c : B A) (k : A -> B C) b :
  (forall e b1, c b = (Err e, b1) -> inv b1) -> (forall a b1, c b = (Ok a, b1) -> settles (k a) b1) ->
  settles (bbind c k) b.
Proof.
  intros He Hk. unfold settles, bbind. destruct (c b) as [[a|e] b1]; [by apply Hk|].
  by apply after_inv, (He e).
Qed.

Lemma settles_ext {A C} (c : B A) (k k' : A -> B C) b :
  (forall a b1, k a b1 = k' a b1) -> settles (bbind c k') b -> settles (bbind c k) b.
Proof. intros Hk. unfold settles, bbind. destruct (c b) as [[a|e] b1]; by rewrite ?Hk. Qed.

Lemma settles_get {C} (k : Broker -> B C) b : settles (k b) b -> settles (bbind bget k) b.
Proof. done. Qed.

Lemma settles_require {C} p e (k : unit -> B C) b :
  inv b -> (p = true -> settles (k tt) b) -> settles (bbind (brequire p e) k) b.
Proof.
  intros Hi Hk. apply settles_bind; unfold brequire; destruct p; try done.
  - by intros ? ? [= _ <-].
  - intros [] ? [= <-]. by apply Hk.
Qed.

Lemma settles_get_scope {C} port (k : Scope -> B C) b :
  inv b -> (forall s, scopes b !! port = Some s -> settles (k s) b) ->
  settles (bbind (get_scope port) k) b.
Proof.
  intros Hi Hk. apply settles_bind; unfold get_scope, bbind, bget; simpl;
    destruct (scopes b !! port) as [s|]; try done.
  - by intros ? ? [= _ <-].
  - intros ? ? [= <- <-]. by apply Hk.
Qed.

Lemma settles_capacity {C} extra (k : unit -> B C) b :
  inv b -> 0 <= extra ->
  (forall b1, inv b1 -> scopes b1 = scopes b -> broker_poisoned b1 = broker_poisoned b ->
     cs_used (store b1) + reserved_stops b1 + extra <= MAX_RECEIPTS -> settles (k tt) b1) ->
  settles (bbind (check_capacity extra) k) b.
Proof.
  intros Hi Hx Hk. destruct (check_capacity_spec extra b (proj1 Hi) Hx) as (Hq & Hcap & _).
  pose proof (quiet_inv _ _ Hq Hi) as Hi1. destruct (quiet_core _ _ Hq (proj1 Hi)) as [_ Hu].
  apply settles_bind.
  - intros e b1 E. by rewrite E in Hi1.
  - intros [] b1 E. rewrite E in *. simpl in *. destruct Hq as (Es & _ & Ep & _).
    apply Hk; try done. unfold reserved_stops. rewrite Hu, Es. by apply Hcap.
Qed.

Lemma lend_after {A} (inj : A -> StoredReceipt) (m : M A) op port s id b :
  run_op op = wrap inj m -> op_new_id op = Some id -> inv b -> scopes b !! port = Some s ->
  settles (lend port s id m) b.
Proof.
  intros Hop Hid Hi Hs. apply settles_capacity; [done..|]. intros b1 Hi1 Es _ Hcap.
  apply settles_require; [done|]. intros _.
  eapply (publish_after inj m op port s id (add_id id) 1); try done.
  - by rewrite Es.
  - simpl. by eapply (bi_reserved _ (proj1 Hi)).
  - simpl. lia.
Qed.

Lemma lend_of_kind_inv {A} (inj : A -> StoredReceipt) (m : M A) op port k id b :
  run_op op = wrap inj m -> op_new_id op = Some id -> inv b ->
  inv (snd (lend_of_kind port k id m b)).
Proof.
  intros Hop Hid Hi. apply apply_inv, settles_get_scope; [done|]. intros s Hs.
  apply settles_require; [done|]. intros _. apply settles_get, settles_require; [done|]. intros _.
  by eapply lend_after.
Qed.

Lemma port_prepare_generic_inv port id k generation utc b :
  inv b -> inv (snd (port_prepare_generic port id k generation utc b)).
Proof.
  intros Hi. apply apply_inv, settles_get_scope; [done|]. intros s Hs.
  apply settles_require; [done|]. intros _. apply settles_get, settles_require; [done|]. intros _.
  set (op := PrepareGeneric id k generation utc).
  assert (Hgo : forall b1, inv b1 -> scopes b1 = scopes b ->
    settles (lend port s id (prepare_generic id k generation utc)) b1).
  { intros b1 Hi1 Es. eapply (lend_after Generic _ op); try done. by rewrite Es. }
  destruct (is_public_stop (kind s)).
  - destruct (safety_admission_inv None b Hi) as (Hi1 & (Es & _) & _).
    apply settles_bind; unfold bbind, brequire; destruct (safety_admission None b) as [[a|e] b1];
      simpl in *; try destruct (adm_blocking a); try done; simpl; intros ? ? [= ? <-]; auto.
  - apply settles_bind; [done|]. intros [] b1 [= <-]. auto.
Qed.

Lemma two_updates {A} port f (stop restarting : bool) g h (a : A) b :
  (do _ <- update_scope port f in
   do _ <- (if stop then update_scope port g else if restarting then update_scope port h
            else bret tt) in bret a)%store b =
  (do _ <- update_scope port (fun s => (if stop then g else if restarting then h else fun x => x) (f s))
   in bret a)%store b.
Proof.
  unfold bbind, update_scope, bmodify, bret.
  destruct stop, restarting; simpl; unfold with_scopes; simpl;
    rewrite ?alter_alter_eq; done.
Qed.

(** [prepare] takes the reserved place, or reserves one for the next Stop. *)
Lemma port_prepare_inv port id k generation utc details b :
  inv b -> inv (snd (port_prepare port id k generation utc details b)).
Proof.
  intros Hi. apply apply_inv, settles_get_scope; [done|]. intros s Hs.
  apply settles_require; [done|]. intros _. apply settles_get, settles_require; [done|]. intros _.
  set (stop := bool_decide (k = OperationReceipt.RecordStop)).
  set (restarting := bool_decide (kind s = Take) && _ && _).
  apply settles_capacity; [done|repeat case_match; lia|]. intros b1 Hi1 Es _ Hcap.
  apply settles_require; [done|]. intros _.
  set (op := PrepareV1 id k generation utc details).
  set (f := fun sc => (if stop then reserve false else if restarting then reserve true else (fun x => x))
                        (add_id id sc)).
  assert (Hf : b2z (stop_reserved (f s)) - b2z (stop_reserved s) + 1 =
    1 - (if stop && stop_reserved s then 1 else 0) + (if restarting then 1 else 0)).
  { unfold f, restarting, stop. repeat case_bool_decide; simplify_eq/=;
      destruct (stop_reserved s) eqn:?; simpl; rewrite ?Heqb0; try done; lia. }
  enough (settles (do receipt <- on_store (prepare id k generation utc details) in
                   do _ <- update_scope port f in bret receipt) b1) as Hgo.
  { eapply settles_ext; [|exact Hgo]. intros a b2. apply two_updates. }
  eapply (publish_after V1 _ op port s id f); try done.
  - by rewrite Es.
  - unfold f. by destruct stop, restarting.
  - unfold f. by destruct stop, restarting.
  - pose proof (bi_reserved _ (proj1 Hi) _ _ Hs) as Hres. unfold f, restarting, stop.
    repeat case_bool_decide; simplify_eq/=; try done; by destruct (stop_reserved s).
  - by rewrite Hf.
Qed.

(** ** Queries and the end of a port *)

Lemma broker_admission_inv b : inv b -> inv (snd (broker_admission b)).
Proof.
  intros Hi. unfold broker_admission, bbind, bget, brequire. simpl.
  destruct (broker_poisoned b); simpl; [done|]. eapply quiet_inv; [apply admission_quiet|done].
Qed.

Lemma fence_admission_inv port b : inv b -> inv (snd (fence_admission port b)).
Proof.
  intros Hi. unfold fence_admission, fenced_scope, bbind, bget, brequire. simpl.
  destruct (broker_poisoned b); simpl; [done|]. destruct (scopes b !! port) as [s|]; simpl; [|done].
  destruct (is_public_stop _); [by apply safety_admission_inv|].
  eapply quiet_inv; [apply admission_quiet|done].
Qed.

Lemma permits_inv port own b : inv b -> inv (snd (permits port own b)).
Proof.
  intros Hi. unfold permits, bbind at 1 2, bget, brequire.
  destruct (broker_poisoned b); simpl; [done|]. destruct (scopes b !! port) as [s|]; simpl; [|done].
  case_bool_decide; simpl; [|done]. destruct (is_public_stop _); unfold bbind at 1.
  - destruct (safety_admission_inv (Some own) b Hi) as [Hi1 _].
    by destruct (safety_admission _ b) as [[a|e] b1].
  - pose proof (quiet_inv _ _ (dispatching_quiet own b) Hi) as Hi1.
    destruct (on_store _ b) as [[[]|e] b1]; simpl in *; try done. unfold bbind.
    pose proof (quiet_inv _ _ (admission_quiet (Some own) b1) Hi1) as Hi2.
    by destruct (on_store _ b1) as [[a|e] b2].
Qed.

Lemma drop_port_inv port b : inv b -> inv (drop_port port b).
Proof.
  intros [[? Hsz Hfr ? Ht Hp Hr Hl ?] Hroom].
  assert (Hd : forall p s, delete port (scopes b) !! p = Some s -> scopes b !! p = Some s)
    by (intros p s; by rewrite lookup_delete_Some; intros [_ ?]).
  split; [split; simpl; try done; eauto|].
  - pose proof (map_subseteq_size _ _ (delete_subseteq (scopes b) port)). lia.
  - intros Hpo. unfold room, reserved_stops in *. simpl.
    pose proof (count_scopes_delete_le stop_reserved (scopes b) port).
    pose proof (count_scopes_nonneg stop_reserved (delete port (scopes b))).
    destruct (Hroom Hpo); [left|right]; lia.
Qed.

(** ** Every sequence of calls *)

(** The public methods that change the state; each runs under the lock, so concurrent
    callers are a sequence of these steps in some order. *)
Inductive Call :=
| CAdmission
| CScope (k : ScopeKind)
| CFenceAdmission (port : Z)
| CPermits (port : Z) (own : string)
| CPrepare (port : Z) (id : string) (k : OperationReceipt.OperationKind) (generation : Z)
    (utc : string) (details : PrepareDetails)
| CUpdate (port : Z) (receipt : OperationReceipt.OperationReceipt)
    (u : OperationReceipt.OperationUpdate) (utc : string)
| CPrepareGeneric (port : Z) (id : string) (k : GenericReceipt.GenericKind) (generation : Z)
    (utc : string)
| CUpdateGeneric (port : Z) (receipt : GenericReceipt.GenericReceipt)
    (p : GenericReceipt.GenericPhase) (utc : string)
| CPrepareRestore (port : Z) (id : string) (generation request_count : Z) (utc : string)
| CUpdateRestore (port : Z) (receipt : RestoreReceipt.RestoreReceipt)
    (p : RestoreReceipt.RestorePhase) (counts : option RestoreReceipt.RestoreCounts) (utc : string)
| CPrepareCapture (port : Z) (id : string) (generation : Z) (plan : CaptureReceipt.CapturePlan)
    (utc : string)
| CUpdateCapture (port : Z) (receipt : CaptureReceipt.CaptureReceipt)
    (u : CaptureReceipt.CaptureUpdate) (utc : string)
| CPrepareApply (port : Z) (id : string) (generation creation_count : Z) (utc : string)
| CUpdateApply (port : Z) (receipt : ApplyReceipt.ApplyReceipt) (u : ApplyReceipt.ApplyUpdate)
    (utc : string)
| CDrop (port : Z).

Definition run_call (c : Call) (b : Broker) : Broker :=
  match c with
  | CAdmission => snd (broker_admission b)
  | CScope k => snd (scope k b)
  | CFenceAdmission port => snd (fence_admission port b)
  | CPermits port own => snd (permits port own b)
  | CPrepare port id k generation utc details => snd (port_prepare port id k generation utc details b)
  | CUpdate port receipt u utc => snd (port_update port receipt u utc b)
  | CPrepareGeneric port id k generation utc => snd (port_prepare_generic port id k generation utc b)
  | CUpdateGeneric port receipt p utc => snd (port_update_generic port receipt p utc b)
  | CPrepareRestore port id generation n utc => snd (port_prepare_restore port id generation n utc b)
  | CUpdateRestore port receipt p counts utc => snd (port_update_restore port receipt p counts utc b)
  | CPrepareCapture port id generation plan utc =>
      snd (port_prepare_capture port id generation plan utc b)
  | CUpdateCapture port receipt u utc => snd (port_update_capture port receipt u utc b)
  | CPrepareApply port id generation n utc => snd (port_prepare_apply port id generation n utc b)
  | CUpdateApply port receipt u utc => snd (port_update_apply port receipt u utc b)
  | CDrop port => drop_port port b
  end.

Definition run_calls (cs : list Call) (b : Broker) : Broker := foldl (fun b c => run_call c b) b cs.

Lemma run_call_inv c b : inv b -> inv (run_call c b).
Proof.
  intros Hi. destruct c as [|k|p|p own|p id k g utc dt|p r u utc|p id k g utc|p r u utc|
    p id g n utc|p r ph cs utc|p id g pl utc|p r u utc|p id g n utc|p r u utc|p]; simpl.
  - by apply broker_admission_inv.
  - by apply scope_inv.
  - by apply fence_admission_inv.
  - by apply permits_inv.
  - by apply port_prepare_inv.
  - by apply (update_method_inv V1 _ (UpdateV1 r u utc)).
  - by apply port_prepare_generic_inv.
  - by apply (update_method_inv Generic _ (UpdateGeneric r u utc)).
  - by apply (lend_of_kind_inv Restore _ (PrepareRestore id g n utc)).
  - by apply (update_method_inv Restore _ (UpdateRestore r ph cs utc)).
  - by apply (lend_of_kind_inv Capture _ (PrepareCapture id g pl utc)).
  - by apply (update_method_inv Capture _ (UpdateCapture r u utc)).
  - by apply (lend_of_kind_inv Apply _ (PrepareApply id g n utc)).
  - by apply (update_method_inv Apply _ (UpdateApply r u utc)).
  - by apply drop_port_inv.
Qed.

(** A broker over a store that has not lost its proof *)
Definition fresh_store (s : State) : Prop :=
  cs_ok s /\ poisoned (read_namespace (backend s)) = false.

Lemma broker_new_inv s : fresh_store s -> inv (broker_new s).
Proof. intros [Hok Hp]. split; [split; simpl; try done; lia|]. intros _. by left. Qed.

Lemma run_calls_inv cs : forall b, inv b -> inv (run_calls cs b).
Proof. induction cs as [|c cs IH]; simpl; [done|]. intros b Hi. by apply IH, run_call_inv. Qed.

(** In every state the broker can be driven to, by any sequence of calls with any
    arguments over a store whose calls may fail, at most [MAX_SCOPES] ports are open under
    numbers never used twice; at most one of them is a Take and at most one a public Stop;
    only a Take reserves a receipt; every identifier a port was lent has its receipt; the
    broker and its view agree on whether proof was lost; and while it is not lost, the
    receipts stored together with those reserved for Stops fit in the inventory. *)
Theorem broker_invariant s cs :
  fresh_store s ->
  let b := run_calls cs (broker_new s) in
  Z.of_nat (size (scopes b)) <= MAX_SCOPES /\
  (forall p sc, scopes b !! p = Some sc -> 0 < p <= next b) /\
  (forall p q sc sd, scopes b !! p = Some sc -> scopes b !! q = Some sd ->
     kind sc = Take -> kind sd = Take -> p = q) /\
  (forall p q sc sd, scopes b !! p = Some sc -> scopes b !! q = Some sd ->
     is_public_stop (kind sc) = true -> is_public_stop (kind sd) = true -> p = q) /\
  (forall p sc, scopes b !! p = Some sc -> stop_reserved sc = true -> kind sc = Take) /\
  (forall p sc id, scopes b !! p = Some sc -> id ∈ ids sc -> cs_holds (store b) id) /\
  poisoned (read_namespace (backend (store b))) = broker_poisoned b /\
  (broker_poisoned b = false -> reserved_stops b = 0 \/
     cs_used (store b) + reserved_stops b <= MAX_RECEIPTS).
Proof.
  intros Hs b. destruct (run_calls_inv cs _ (broker_new_inv s Hs)) as [[] Hr].
  split_and!; assumption.
Qed.

(** ** The reserved Stop *)

Lemma not_limit_apply {A} (c : B A) b :
  fst (c b) <> Err InventoryLimit -> fst (apply c b) <> Err InventoryLimit.
Proof.
  unfold apply. destruct (c b) as [[a|e] b1]; simpl; [done|]. intros He.
  destruct (loses_proof e); [done|]. by destruct (on_store admission b1).
Qed.

Lemma bbind_run {A C} (c : B A) (k : A -> B C) b a b1 :
  c b = (Ok a, b1) -> bbind c k b = k a b1.
Proof. unfold bbind. by intros ->. Qed.

Lemma get_scope_run port b s : scopes b !! port = Some s -> get_scope port b = (Ok s, b).
Proof. intros Hs. unfold get_scope, bbind, bget. by rewrite Hs. Qed.

Lemma reserved_stop_room b port sc :
  inv b -> broker_poisoned b = false -> scopes b !! port = Some sc -> stop_reserved sc = true ->
  cs_used (store b) + reserved_stops b <= MAX_RECEIPTS /\ Z.of_nat (size (ids sc)) < MAX_RECEIPTS.
Proof.
  intros [Hc Hr] Hp Hs Hres. pose proof (count_scopes_pos _ _ _ _ Hs Hres) as H1.
  fold (reserved_stops b) in H1. destruct (Hr Hp) as [?|?]; [lia|]. split; [done|].
  pose proof (cs_used_bound (store b) (ids sc) (fun id => bi_loans _ Hc port sc id Hs)). lia.
Qed.

(** C14: a Take that was admitted can always write the receipt of its Stop: in every reachable
    broker that still trusts its store, preparing RecordStop on a Take whose reservation is
    unspent is never refused for want of room, however many receipts other ports wrote. *)
Theorem reserved_stop_never_crowded_out s cs port sc id generation utc details :
  fresh_store s ->
  let b := run_calls cs (broker_new s) in
  broker_poisoned b = false -> scopes b !! port = Some sc -> stop_reserved sc = true ->
  fst (port_prepare port id OperationReceipt.RecordStop generation utc details b)
    <> Err InventoryLimit.
Proof.
  intros Hf b Hp Hs Hres. pose proof (run_calls_inv cs _ (broker_new_inv s Hf)) as Hi. fold b in Hi.
  destruct (reserved_stop_room b port sc Hi Hp Hs Hres) as [Hroom Hids].
  apply not_limit_apply. rewrite (bbind_run _ _ _ _ _ (get_scope_run _ _ _ Hs)).
  rewrite (bi_reserved _ (proj1 Hi) _ _ Hs Hres), Hres.
  rewrite (bbind_run _ _ b tt b), (bbind_run bget _ b b b) by done. rewrite Hp.
  rewrite (bbind_run _ _ b tt b) by done. change (check_capacity _) with (check_capacity 0).
  destruct (check_capacity_spec 0 b (proj1 Hi) ltac:(done)) as (Hq & _ & Hlim).
  unfold bbind at 1. destruct (check_capacity 0 b) as [[[]|e] b1]; simpl in *.
  2: { intros [= ->]. specialize (Hlim eq_refl). lia. }
  unfold check_ids, bbind at 1, brequire. rewrite (proj2 (Z.ltb_lt _ _) Hids). simpl.
  unfold bbind at 1. destruct (quiet_core _ _ Hq (proj1 Hi)) as [Hc1 _].
  destruct (on_op V1 (prepare id OperationReceipt.RecordStop generation utc details)
    (PrepareV1 id OperationReceipt.RecordStop generation utc details) b1 eq_refl Hc1)
    as (_ & _ & _ & _ & Hn & _).
  destruct (on_store _ b1) as [[a|e] b2]; simpl in *; [done|congruence].
Qed.

End Safety.
