(* ===== verification/BrokerFence.v ===== *)
(** * What the broker's fences and refusals guarantee

    A loss of proof is final for the process, and a fence that permits a dispatch has seen
    the caller's own intent on disk and nothing else unsettled. *)
From S2P Require Import Prelude Json Serde ReceiptFields Filesystem Store Publication StoredReceipt OperationView Reading Inventory Backend Refinement Capacity Broker BrokerSafety.
From S2P Require OperationReceipt GenericReceipt RestoreReceipt ApplyReceipt CaptureReceipt.

(** ** A lost proof is never regained *)

Section Poison.
Context {Env : Environment} {Codec : SerdeJson} {Sha : Sha256}.

(** A method never clears the flag. *)
Definition sticky {A} (c : B A) : Prop :=
  forall b, broker_poisoned b = true -> broker_poisoned (snd (c b)) = true.

Lemma sticky_bind {A C} (c : B A) (k : A -> B C) :
  sticky c -> (forall a, sticky (k a)) -> sticky (bbind c k).
Proof.
  intros Hc Hk b Hb. unfold bbind. specialize (Hc b Hb). destruct (c b) as [[a|e] b1]; [|done].
  by apply Hk.
Qed.

Lemma sticky_get : sticky bget.
Proof. by intros b. Qed.
Lemma sticky_ret {A} (a : A) : sticky (bret a).
Proof. by intros b. Qed.
Lemma sticky_fail {A} e : sticky (@bfail A e).
Proof. by intros b. Qed.
Lemma sticky_require p e : sticky (brequire p e).
Proof. intros b. unfold brequire. by destruct p. Qed.
Lemma sticky_store {A} (m : M A) : sticky (on_store m).
Proof. intros b. unfold on_store. by destruct (m (store b)). Qed.
Lemma sticky_scope port f : sticky (update_scope port f).
Proof. by intros b. Qed.

Lemma poison_sets b : broker_poisoned (snd (poison b)) = true.
Proof. unfold poison, bbind, bmodify, on_store. simpl. by destruct (mark_uncertain (store b)). Qed.

Lemma sticky_safety own : sticky (safety_admission own).
Proof.
  intros b Hb. unfold safety_admission.
  pose proof (sticky_store (admission_with_live_ids own (live_ids (scopes b))) b Hb) as H1.
  destruct (on_store _ b) as [[a|e] b1]; [done|]. case_bool_decide; [done|]. apply poison_sets.
Qed.

Lemma sticky_apply {A} (c : B A) : sticky c -> sticky (apply c).
Proof.
  intros Hc b Hb. unfold apply. specialize (Hc b Hb). destruct (c b) as [[a|e] b1]; [done|].
  destruct (loses_proof e); [apply poison_sets|].
  pose proof (sticky_store admission b1 Hc) as H1.
  destruct (on_store admission b1) as [r b2]. destruct (is_err r); [apply poison_sets|done].
Qed.

#[local] Hint Resolve sticky_get sticky_ret sticky_fail sticky_require sticky_store sticky_scope
  sticky_safety : obs.

Ltac sticky_step :=
  repeat first
    [ progress auto with obs
    | apply sticky_apply
    | apply sticky_bind; [|intro]
    | case_match ].

Lemma run_call_sticky c b : broker_poisoned b = true -> broker_poisoned (run_call c b) = true.
Proof.
  intros Hb. destruct c; simpl; [..|exact Hb].
  all: match goal with |- broker_poisoned (snd (?m ?b0)) = true => cut (sticky m); [by auto|] end.
  all: unfold broker_admission, scope, admit_scope, admit_take, fence_admission, fenced_scope, permits,
    port_prepare, port_update, port_prepare_generic, port_update_generic, port_prepare_restore,
    port_update_restore, port_prepare_capture, port_update_capture, port_prepare_apply,
    port_update_apply, lend_of_kind, lend, get_scope, check_loan, check_ids, check_capacity.
  all: sticky_step; by intros b0.
Qed.

Lemma run_calls_sticky cs : forall b,
  broker_poisoned b = true -> broker_poisoned (run_calls cs b) = true.
Proof. induction cs; simpl; auto using run_call_sticky. Qed.

Lemma apply_err {A} (c : B A) b : is_err (fst (c b)) = true -> is_err (fst (apply c b)) = true.
Proof.
  unfold apply. destruct (c b) as [[a|e] b1]; [done|]. intros _. destruct (loses_proof e); [done|].
  by destruct (on_store admission b1).
Qed.

Lemma lend_of_kind_poisoned {A} port k id (m : M A) b :
  broker_poisoned b = true -> is_err (fst (lend_of_kind port k id m b)) = true.
Proof.
  intros Hb. apply apply_err. unfold get_scope, bbind, bget, brequire. simpl.
  destruct (scopes b !! port); simpl; [|done]. case_bool_decide; simpl; [|done]. by rewrite Hb.
Qed.

(** A loss of proof is final: once the broker is poisoned, no sequence of calls clears
    it, and from then on it opens no port, answers no admission, permits no dispatch,
    never gives its store back, and prepares no receipt other than a RecordStop's. *)
Theorem lost_proof_is_final cs b0 :
  broker_poisoned b0 = true ->
  let b := run_calls cs b0 in
  broker_admission b = (Err DurabilityUncertain, b) /\
  (forall k, scope k b = (Err DurabilityUncertain, b)) /\
  (forall port, fence_admission port b = (Err DurabilityUncertain, b)) /\
  (forall port own, permits port own b = (Err DurabilityUncertain, b)) /\
  (forall sole, into_store sole b = inr b) /\
  (forall port id k g utc dt, k <> OperationReceipt.RecordStop ->
     is_err (fst (port_prepare port id k g utc dt b)) = true) /\
  (forall port id k g utc, is_err (fst (port_prepare_generic port id k g utc b)) = true) /\
  (forall port id g n utc, is_err (fst (port_prepare_restore port id g n utc b)) = true) /\
  (forall port id g plan utc, is_err (fst (port_prepare_capture port id g plan utc b)) = true) /\
  (forall port id g n utc, is_err (fst (port_prepare_apply port id g n utc b)) = true).
Proof.
  intros H0 b. assert (Hb : broker_poisoned b = true) by (by apply run_calls_sticky).
  clearbody b. split_and!; intros; try (by apply lend_of_kind_poisoned).
  1-4: unfold broker_admission, scope, fence_admission, fenced_scope, permits, bbind, bget, brequire;
    simpl; by rewrite Hb.
  - unfold into_store. rewrite Hb. by rewrite andb_false_r.
  - apply apply_err. unfold get_scope, bbind, bget, brequire. simpl.
    destruct (scopes b !! port); simpl; [|done]. destruct (allows_v1 _ _); simpl; [|done].
    by rewrite Hb, (bool_decide_eq_false_2 (k = _)).
  - apply apply_err. unfold get_scope, bbind, bget, brequire. simpl.
    destruct (scopes b !! port); simpl; [|done]. destruct (scope_matches_generic _ _); simpl; [|done].
    by rewrite Hb.
Qed.

End Poison.

(** ** A fence that permits *)

Section Fence.
Context {Env : Environment} {Codec : SerdeJson} {Sha : Sha256} (d : list string) (Hown : owned d).

Lemma on_store_run {A} (m : M A) b r b' :
  on_store m b = (r, b') -> m (store b) = (r, store b').
Proof. unfold on_store. destruct (m (store b)). by intros [= <- <-]. Qed.

Lemma safety_admission_Ok own b a b' :
  safety_admission own b = (Ok a, b') ->
  admission_with_live_ids own (live_ids (scopes b)) (store b) = (Ok a, store b').
Proof.
  unfold safety_admission. destruct (on_store _ b) as [[a1|e] b1] eqn:E.
  - intros [= -> ->]. by apply on_store_run in E.
  - by case_bool_decide.
Qed.

(** C28: a fence permits a dispatch only when proof was not lost, the receipt was lent to
    this very port and is on disk for this endpoint in the dispatching phase, and every
    other receipt of the endpoint is settled; a public Stop may also overtake receipts
    that live ports of this process hold in flight. *)
Theorem permits_sound port own b b' :
  dir_ok d (store b) -> permits port own b = (Ok true, b') ->
  let e := endpoint_hash (backend (store b)) in
  let fs := disk (world (store b)) in
  broker_poisoned b = false /\
  exists sc, scopes b !! port = Some sc /\ own ∈ ids sc /\
    (exists rec, receipt_id rec = own /\ dispatching rec = true /\ belongs d e fs rec) /\
    (forall rec, belongs d e fs rec ->
       receipt_id rec = own \/ blocking rec = false \/
       (is_public_stop (kind sc) = true /\ receipt_id rec ∈ live_ids (scopes b) /\
        known_live_in_flight rec = true)).
Proof.
  intros [Hh Hc] Hr e fs. unfold permits, bbind at 1 2, bget, brequire in Hr.
  destruct (broker_poisoned b); [done|]. simpl in Hr.
  destruct (scopes b !! port) as [sc|]; [|done]. case_bool_decide as Hid; simpl in Hr; [|done].
  split; [done|]. exists sc. split; [done|]. split; [done|]. destruct (is_public_stop _); unfold bbind at 1 in Hr.
  - destruct (safety_admission (Some own) b) as [[a|?] b1] eqn:Ea; [|done].
    injection Hr as Hb%negb_true_iff <-. apply safety_admission_Ok in Ea.
    destruct (live_admission_spec d Hown _ _ _ _ _ Hh Hc Ea Hb) as [? Hall].
    split; [done|]. intros rec Hrec. destruct (Hall rec Hrec) as [?|[?|?]]; auto.
  - pose proof (is_dispatching_framed d (steady d) Hown own (store b) Hh) as F1.
    destruct (on_store (is_dispatching own) b) as [[[]|?] b1] eqn:E1; try done.
    apply on_store_run in E1. rewrite E1 in F1. simpl in F1. unfold bbind in Hr.
    destruct (on_store (admission_except (Some own)) b1) as [[a|?] b2] eqn:E2; [|done].
    injection Hr as Hb%negb_true_iff <-. apply on_store_run in E2.
    split; [by apply (is_dispatching_spec d Hown _ _ _ Hh Hc E1)|]. destruct F1 as [K1 [S1 C1]].
    pose proof (proj1 (admission_except_spec d Hown _ _ _ _ (kept_here d _ _ K1 Hh) (C1 Hc) E2) Hb)
      as Hall.
    intros rec Hrec. destruct (Hall rec) as [[= ?]|?]; auto.
    apply (belongs_same d _ _ _ _ S1). by rewrite (kept_endpoint _ _ K1).
Qed.

End Fence.
