(* ===== verification/ReadRequest.v ===== *)
(** * The read vocabulary

    [ReadRequest] of [native/src/observation.rs]: the closed set of OBS requests the runtime
    may send as observations. *)
From S2P Require Import Prelude.

Inductive ReadRequest :=
| SceneCollectionList
| SceneList
| VideoSettings
| InputList
| InputKindList
| SceneItemList
| SceneItemTransform
| GroupSceneItemList
| SourceScreenshot
| StudioModeEnabled
| CurrentProgramScene
| CurrentPreviewScene
| RecordStatus
| StreamStatus
| ReplayBufferStatus
| VirtualCamStatus
| OutputList
| OutputStatus
| InputSettings
| SourceFilterList
| InputMute
| InputVolume
| InputAudioTracks
| RecordDirectory
| Stats
| ProfileParameter
| Version
| HotkeyList
| SourceActive
| SceneItemId
| SceneTransitionList
| CurrentSceneTransition
| PersistentData
| ProfileList
| StreamServiceSettings
| SourceFilterKindList
| SourceFilterDefaultSettings
| SourceFilter
| SpecialInputs
| InputDefaultSettings
| InputAudioBalance
| InputAudioSyncOffset
| InputAudioMonitorType
| MediaInputStatus
| LastReplayBufferReplay
| OutputSettings
| MonitorList
| CanvasList
| InputDeinterlaceFieldOrder
| InputDeinterlaceMode
| SceneItemEnabled
| SceneItemIndex
| SceneItemLocked
| SceneItemBlendMode
| SceneItemSource
| GroupList
| SceneSceneTransitionOverride
| TransitionKindList
| CurrentSceneTransitionCursor.

#[export] Instance ReadRequest_eq_dec : EqDecision ReadRequest.
Proof. solve_decision. Defined.

Definition as_str (r : ReadRequest) : string :=
  match r with
  | SceneCollectionList => "GetSceneCollectionList"
  | SceneList => "GetSceneList"
  | VideoSettings => "GetVideoSettings"
  | InputList => "GetInputList"
  | InputKindList => "GetInputKindList"
  | SceneItemList => "GetSceneItemList"
  | SceneItemTransform => "GetSceneItemTransform"
  | GroupSceneItemList => "GetGroupSceneItemList"
  | SourceScreenshot => "GetSourceScreenshot"
  | StudioModeEnabled => "GetStudioModeEnabled"
  | CurrentProgramScene => "GetCurrentProgramScene"
  | CurrentPreviewScene => "GetCurrentPreviewScene"
  | RecordStatus => "GetRecordStatus"
  | StreamStatus => "GetStreamStatus"
  | ReplayBufferStatus => "GetReplayBufferStatus"
  | VirtualCamStatus => "GetVirtualCamStatus"
  | OutputList => "GetOutputList"
  | OutputStatus => "GetOutputStatus"
  | InputSettings => "GetInputSettings"
  | SourceFilterList => "GetSourceFilterList"
  | InputMute => "GetInputMute"
  | InputVolume => "GetInputVolume"
  | InputAudioTracks => "GetInputAudioTracks"
  | RecordDirectory => "GetRecordDirectory"
  | Stats => "GetStats"
  | ProfileParameter => "GetProfileParameter"
  | Version => "GetVersion"
  | HotkeyList => "GetHotkeyList"
  | SourceActive => "GetSourceActive"
  | SceneItemId => "GetSceneItemId"
  | SceneTransitionList => "GetSceneTransitionList"
  | CurrentSceneTransition => "GetCurrentSceneTransition"
  | PersistentData => "GetPersistentData"
  | ProfileList => "GetProfileList"
  | StreamServiceSettings => "GetStreamServiceSettings"
  | SourceFilterKindList => "GetSourceFilterKindList"
  | SourceFilterDefaultSettings => "GetSourceFilterDefaultSettings"
  | SourceFilter => "GetSourceFilter"
  | SpecialInputs => "GetSpecialInputs"
  | InputDefaultSettings => "GetInputDefaultSettings"
  | InputAudioBalance => "GetInputAudioBalance"
  | InputAudioSyncOffset => "GetInputAudioSyncOffset"
  | InputAudioMonitorType => "GetInputAudioMonitorType"
  | MediaInputStatus => "GetMediaInputStatus"
  | LastReplayBufferReplay => "GetLastReplayBufferReplay"
  | OutputSettings => "GetOutputSettings"
  | MonitorList => "GetMonitorList"
  | CanvasList => "GetCanvasList"
  | InputDeinterlaceFieldOrder => "GetInputDeinterlaceFieldOrder"
  | InputDeinterlaceMode => "GetInputDeinterlaceMode"
  | SceneItemEnabled => "GetSceneItemEnabled"
  | SceneItemIndex => "GetSceneItemIndex"
  | SceneItemLocked => "GetSceneItemLocked"
  | SceneItemBlendMode => "GetSceneItemBlendMode"
  | SceneItemSource => "GetSceneItemSource"
  | GroupList => "GetGroupList"
  | SceneSceneTransitionOverride => "GetSceneSceneTransitionOverride"
  | TransitionKindList => "GetTransitionKindList"
  | CurrentSceneTransitionCursor => "GetCurrentSceneTransitionCursor"
  end.

Definition from_name (name : string) : option ReadRequest :=
  if str_eqb name "GetSceneCollectionList" then Some SceneCollectionList else
  if str_eqb name "GetSceneList" then Some SceneList else
  if str_eqb name "GetVideoSettings" then Some VideoSettings else
  if str_eqb name "GetInputList" then Some InputList else
  if str_eqb name "GetInputKindList" then Some InputKindList else
  if str_eqb name "GetSceneItemList" then Some SceneItemList else
  if str_eqb name "GetSceneItemTransform" then Some SceneItemTransform else
  if str_eqb name "GetGroupSceneItemList" then Some GroupSceneItemList else
  if str_eqb name "GetSourceScreenshot" then Some SourceScreenshot else
  if str_eqb name "GetStudioModeEnabled" then Some StudioModeEnabled else
  if str_eqb name "GetCurrentProgramScene" then Some CurrentProgramScene else
  if str_eqb name "GetCurrentPreviewScene" then Some CurrentPreviewScene else
  if str_eqb name "GetRecordStatus" then Some RecordStatus else
  if str_eqb name "GetStreamStatus" then Some StreamStatus else
  if str_eqb name "GetReplayBufferStatus" then Some ReplayBufferStatus else
  if str_eqb name "GetVirtualCamStatus" then Some VirtualCamStatus else
  if str_eqb name "GetOutputList" then Some OutputList else
  if str_eqb name "GetOutputStatus" then Some OutputStatus else
  if str_eqb name "GetInputSettings" then Some InputSettings else
  if str_eqb name "GetSourceFilterList" then Some SourceFilterList else
  if str_eqb name "GetInputMute" then Some InputMute else
  if str_eqb name "GetInputVolume" then Some InputVolume else
  if str_eqb name "GetInputAudioTracks" then Some InputAudioTracks else
  if str_eqb name "GetRecordDirectory" then Some RecordDirectory else
  if str_eqb name "GetStats" then Some Stats else
  if str_eqb name "GetProfileParameter" then Some ProfileParameter else
  if str_eqb name "GetVersion" then Some Version else
  if str_eqb name "GetHotkeyList" then Some HotkeyList else
  if str_eqb name "GetSourceActive" then Some SourceActive else
  if str_eqb name "GetSceneItemId" then Some SceneItemId else
  if str_eqb name "GetSceneTransitionList" then Some SceneTransitionList else
  if str_eqb name "GetCurrentSceneTransition" then Some CurrentSceneTransition else
  if str_eqb name "GetPersistentData" then Some PersistentData else
  if str_eqb name "GetProfileList" then Some ProfileList else
  if str_eqb name "GetStreamServiceSettings" then Some StreamServiceSettings else
  if str_eqb name "GetSourceFilterKindList" then Some SourceFilterKindList else
  if str_eqb name "GetSourceFilterDefaultSettings" then Some SourceFilterDefaultSettings else
  if str_eqb name "GetSourceFilter" then Some SourceFilter else
  if str_eqb name "GetSpecialInputs" then Some SpecialInputs else
  if str_eqb name "GetInputDefaultSettings" then Some InputDefaultSettings else
  if str_eqb name "GetInputAudioBalance" then Some InputAudioBalance else
  if str_eqb name "GetInputAudioSyncOffset" then Some InputAudioSyncOffset else
  if str_eqb name "GetInputAudioMonitorType" then Some InputAudioMonitorType else
  if str_eqb name "GetMediaInputStatus" then Some MediaInputStatus else
  if str_eqb name "GetLastReplayBufferReplay" then Some LastReplayBufferReplay else
  if str_eqb name "GetOutputSettings" then Some OutputSettings else
  if str_eqb name "GetMonitorList" then Some MonitorList else
  if str_eqb name "GetCanvasList" then Some CanvasList else
  if str_eqb name "GetInputDeinterlaceFieldOrder" then Some InputDeinterlaceFieldOrder else
  if str_eqb name "GetInputDeinterlaceMode" then Some InputDeinterlaceMode else
  if str_eqb name "GetSceneItemEnabled" then Some SceneItemEnabled else
  if str_eqb name "GetSceneItemIndex" then Some SceneItemIndex else
  if str_eqb name "GetSceneItemLocked" then Some SceneItemLocked else
  if str_eqb name "GetSceneItemBlendMode" then Some SceneItemBlendMode else
  if str_eqb name "GetSceneItemSource" then Some SceneItemSource else
  if str_eqb name "GetGroupList" then Some GroupList else
  if str_eqb name "GetSceneSceneTransitionOverride" then Some SceneSceneTransitionOverride else
  if str_eqb name "GetTransitionKindList" then Some TransitionKindList else
  if str_eqb name "GetCurrentSceneTransitionCursor" then Some CurrentSceneTransitionCursor else
  None.

(** The vocabulary is closed: a name denotes a read exactly when it is the name of that read. *)
Lemma from_name_iff name r : from_name name = Some r <-> as_str r = name.
Proof.
  split.
  - unfold from_name. intros H.
    repeat match type of H with
      | (if str_eqb ?a ?b then _ else _) = _ =>
          destruct (str_eqb a b) eqn:?;
            [injection H as <-; symmetry; by apply str_eqb_eq|]
      end. done.
  - intros <-. by destruct r.
Qed.
