(* ===== verification/Dispatch.v ===== *)
(** * Dispatch of one request

    The protocol between the caller of a session request and the socket owner, from
    [native/src/session.rs]: [enqueue] puts a command with an atomic state and a one-shot
    reply channel into a queue; the actor runs [prepare_dispatch], which calls the guard
    and claims the command by a compare-and-exchange, before it hands the frame to the
    socket; the caller may time out, be cancelled, or see the actor die at any moment.
    The two sides are a step relation over the state they share. *)
From S2P Require Import Prelude Json.

Inductive Invalidation :=
| Shutdown
| OwnerDropped
| ActorStopped
| Disconnected
| MalformedMessage
| EventOverflow
| EventConsumerDropped
| CancelledAfterDispatch
| DeadlineAfterDispatch
| SocketWriteFailed
| ResponseIdentityMismatch
| InvalidationIdentityExhausted.

Inductive BeforeDispatch :=
| StaleConnection
| Closed (reason : Invalidation)
| InvalidRequest
| Capacity
| ByteCapacity
| Deadline
| Cancelled
| IdentityExhausted
| GuardRefused (message : string).

Inductive RequestError :=
| NotSent (reason : BeforeDispatch)        (* [RequestError::BeforeDispatch] *)
| Rejected (code : Z)
| RejectedDetailed (code : Z) (comment : string)
| Unknown (reason : Invalidation).

Definition QUEUED : Z := 0.
Definition DISPATCHING : Z := 1.
Definition ABANDONED : Z := 2.

(** [AtomicU8::compare_exchange]: the new contents of the cell and whether it succeeded *)
Definition compare_exchange (cell current new : Z) : Z * bool :=
  if cell =? current then (new, true) else (cell, false).

Definition is_not_sent {R} (r : result RequestError R) : bool :=
  match r with Err (NotSent _) => true | _ => false end.

Definition is_unknown {R} (r : result RequestError R) : bool :=
  match r with Err (Unknown _) => true | _ => false end.

(** Program points of [prepare_dispatch] *)
Inductive Point :=
| AtExpected
| AtDeadline
| AtOpen
| AtGuard
| AtDeadlineAgain
| AtCompanions
| AtClaim
| AtClosed.

(** Where the command is *)
Inductive Place :=
| Queued
| Preparing (at_ : Point)
| Active            (* [prepare_dispatch] returned [None] *)
| Sending           (* the frame was handed to the socket *)
| Gone.             (* finished or dropped *)

(** The caller's future *)
Inductive Caller (R : Type) :=
| Waiting
| Returned (r : result RequestError R)
| Dropped.
Arguments Waiting {R}.
Arguments Returned {R}.
Arguments Dropped {R}.

Section Protocol.
(** What the guard reads and changes, the guard, what a reply carries, and whether the
    command names another connection than the actor's *)
Context {G R : Type} (guard : G -> result string unit * G) (stale : bool).

Record Config := {
  cell : Z;
  place : Place;
  receiver_open : bool;
  reply : option (result RequestError R);
  caller : Caller R;
  guarded_at : option G;
  sent : bool;
  shared : G
}.

Definition at_place (p : Place) (c : Config) : Config :=
  {| cell := cell c; place := p; receiver_open := receiver_open c; reply := reply c;
     caller := caller c; guarded_at := guarded_at c; sent := sent c; shared := shared c |}.

(** [finish(command, result)]: the reply is lost when the receiver is gone. *)
Definition finish (r : result RequestError R) (c : Config) : Config :=
  {| cell := cell c; place := Gone; receiver_open := receiver_open c;
     reply := if receiver_open c then Some r else reply c;
     caller := caller c; guarded_at := guarded_at c; sent := sent c; shared := shared c |}.

Definition set_caller (k : Caller R) (c : Config) : Config :=
  {| cell := cell c; place := place c; receiver_open := receiver_open c; reply := reply c;
     caller := k; guarded_at := guarded_at c; sent := sent c; shared := shared c |}.

Definition set_cell (v : Z) (c : Config) : Config :=
  {| cell := v; place := place c; receiver_open := receiver_open c; reply := reply c;
     caller := caller c; guarded_at := guarded_at c; sent := sent c; shared := shared c |}.

(** Just after [try_send] *)
Definition enqueued (g : G) : Config :=
  {| cell := QUEUED; place := Queued; receiver_open := true; reply := None;
     caller := Waiting; guarded_at := None; sent := false; shared := g |}.

(** [prepare_dispatch], one program point at a time; [late] and [busy] are what the clock
    and the commands in flight say at that point. *)
Definition prepare_step (at_ : Point) (late : bool) (busy : option Invalidation) (c : Config)
  : Config :=
  let refuse r := finish (Err (NotSent r)) c in
  match at_ with
  | AtExpected => if stale then refuse StaleConnection else at_place (Preparing AtDeadline) c
  | AtDeadline => if late then refuse Deadline else at_place (Preparing AtOpen) c
  | AtOpen =>
      if negb (receiver_open c) || negb (cell c =? QUEUED) then refuse Cancelled
      else at_place (Preparing AtGuard) c
  | AtGuard =>
      let '(verdict, g) := guard (shared c) in
      let c := {| cell := cell c; place := place c; receiver_open := receiver_open c;
                  reply := reply c; caller := caller c; guarded_at := Some (shared c);
                  sent := sent c; shared := g |} in
      match verdict with
      | Err message => finish (Err (NotSent (GuardRefused message))) c
      | Ok _ => at_place (Preparing AtDeadlineAgain) c
      end
  | AtDeadlineAgain => if late then refuse Deadline else at_place (Preparing AtCompanions) c
  | AtCompanions =>
      match busy with
      | Some reason => refuse (Closed reason)
      | None => at_place (Preparing AtClaim) c
      end
  | AtClaim =>
      let '(v, claimed) := compare_exchange (cell c) QUEUED DISPATCHING in
      if negb claimed then finish (Err (NotSent Cancelled)) (set_cell v c)
      else at_place (Preparing AtClosed) (set_cell v c)
  | AtClosed => if negb (receiver_open c) then refuse Cancelled else at_place Active c
  end.

(** [sink.send(frame)] *)
Definition send (c : Config) : Config :=
  {| cell := cell c; place := Sending; receiver_open := receiver_open c; reply := reply c;
     caller := caller c; guarded_at := guarded_at c; sent := true; shared := shared c |}.

(** The caller's [timeout_at] elapsed. *)
Definition time_out (c : Config) : Config :=
  let '(v, abandoned) := compare_exchange (cell c) QUEUED ABANDONED in
  set_caller (Returned (Err (if abandoned then NotSent Deadline
                             else Unknown DeadlineAfterDispatch))) (set_cell v c).

(** The reply channel closed without a reply. *)
Definition orphaned (reason : Invalidation) (c : Config) : Config :=
  set_caller (Returned (Err (if cell c =? DISPATCHING then Unknown reason
                             else NotSent (Closed reason)))) c.

(** Dropping the caller's [Cancellation], and its receiver *)
Definition cancel (c : Config) : Config :=
  set_cell (fst (compare_exchange (cell c) QUEUED ABANDONED)) c.

Definition close (c : Config) : Config :=
  {| cell := cell c; place := place c; receiver_open := false; reply := reply c;
     caller := caller c; guarded_at := guarded_at c; sent := sent c; shared := shared c |}.

Definition is_waiting (c : Config) : bool :=
  match caller c with Waiting => true | _ => false end.

Inductive step : Config -> Config -> Prop :=
(** the socket owner *)
| step_take c : place c = Queued -> step c (at_place (Preparing AtExpected) c)
| step_drain c reason : place c = Queued -> step c (finish (Err (NotSent (Closed reason))) c)
| step_prepare c at_ late busy :
    place c = Preparing at_ -> step c (prepare_step at_ late busy c)
| step_send c : place c = Active -> step c (send c)
| step_reply c r : place c = Sending -> is_not_sent r = false -> step c (finish r c)
| step_die c : place c <> Gone -> step c (at_place Gone c)
(** the caller *)
| step_receive c r : caller c = Waiting -> reply c = Some r -> step c (set_caller (Returned r) c)
| step_orphaned c reason :
    caller c = Waiting -> place c = Gone -> reply c = None -> step c (orphaned reason c)
| step_time_out c : caller c = Waiting -> step c (time_out c)
| step_drop c : caller c = Waiting -> step c (set_caller Dropped c)
| step_cancel c : caller c <> Waiting -> step c (cancel c)
| step_close c : caller c <> Waiting -> step c (close c)
(** everything else in the process *)
| step_other c g :
    step c {| cell := cell c; place := place c; receiver_open := receiver_open c;
              reply := reply c; caller := caller c; guarded_at := guarded_at c;
              sent := sent c; shared := g |}.

Definition reachable (c : Config) : Prop := exists g, rtc step (enqueued g) c.

(** ** The invariant *)

(** Has the guard let the command pass at this place? *)
Definition past_guard (p : Place) : bool :=
  match p with
  | Preparing (AtDeadlineAgain | AtCompanions | AtClaim | AtClosed) | Active | Sending => true
  | _ => false
  end.

(** Was the command claimed? *)
Definition past_claim (p : Place) : bool :=
  match p with Preparing AtClosed | Active | Sending => true | _ => false end.

Definition approved (c : Config) : Prop :=
  exists g, guarded_at c = Some g /\ fst (guard g) = Ok tt.

Record wf (c : Config) : Prop := {
  wf_claimed : past_claim (place c) = true -> cell c = DISPATCHING;
  wf_approved : past_guard (place c) = true \/ sent c = true -> approved c;
  wf_sent : sent c = true -> cell c = DISPATCHING /\ (place c = Sending \/ place c = Gone);
  wf_sending : place c = Sending -> sent c = true;
  wf_reply : forall r, reply c = Some r ->
    place c = Gone /\ sent c = negb (is_not_sent r);
  wf_returned : forall r, caller c = Returned r ->
    (is_not_sent r = true -> sent c = false /\ (place c = Gone \/ cell c = ABANDONED)) /\
    (is_not_sent r = false -> is_unknown r = false -> sent c = true)
}.

Lemma enqueued_wf g : wf (enqueued g).
Proof. split; simpl; try done. by intros [|]. Qed.

(** A command that is not past a point has not been sent. *)
Lemma wf_unsent c : wf c -> place c <> Sending -> place c <> Gone -> sent c = false.
Proof. intros Hw H1 H2. destruct (sent c) eqn:E; [|done]. by destruct (wf_sent c Hw E) as [_ [?|?]]. Qed.

Lemma wf_no_reply c : wf c -> place c <> Gone -> reply c = None.
Proof.
  intros Hw Hp. destruct (reply c) as [r|] eqn:E; [|done]. by destruct (wf_reply c Hw r E).
Qed.

(** Ending a command that is not past the send *)
Lemma finish_wf r c : wf c -> place c <> Gone -> sent c = negb (is_not_sent r) -> wf (finish r c).
Proof.
  intros Hw Hp Hs. pose proof (wf_no_reply c Hw Hp) as Hn. destruct Hw as [W1 W2 W3 W4 W5 W6].
  split; simpl; try done.
  - intros [|H1]; [done|]. apply W2. by right.
  - intros H1. destruct (W3 H1). auto.
  - intros q. destruct (receiver_open c); [by intros [= <-]|]. by rewrite Hn.
  - intros q Hq. destruct (W6 q Hq) as [A B]. split; [|done]. intros Hr. destruct (A Hr). auto.
Qed.

(** Moving a command that stays in the queue or under preparation *)
Lemma moved_wf c c' :
  wf c -> place c <> Gone -> place c <> Sending -> place c' <> Sending -> place c' <> Gone ->
  (past_claim (place c') = true -> cell c' = DISPATCHING) ->
  (past_guard (place c') = true -> approved c') ->
  reply c' = reply c -> caller c' = caller c -> sent c' = sent c ->
  (cell c = ABANDONED -> cell c' = ABANDONED) -> wf c'.
Proof.
  intros Hw H1 H2 H3 H4 Hc Hg Er Ek Es Ha.
  pose proof (wf_unsent c Hw H2 H1) as Hu. pose proof (wf_no_reply c Hw H1) as Hn.
  split; rewrite ?Er, ?Ek, ?Es, ?Hu, ?Hn; try done.
  - intros [|]; [auto|done].
  - intros r Hr. destruct (wf_returned c Hw r Hr) as [A B]. rewrite Hu in B. split; [|done].
    intros Hr'. destruct (A Hr') as [_ [|]]; [done|]. auto.
Qed.

Lemma prepare_step_wf at_ late busy c :
  wf c -> place c = Preparing at_ -> wf (prepare_step at_ late busy c).
Proof.
  intros Hw Hp. assert (Hu : sent c = false) by (by apply wf_unsent; rewrite ?Hp).
  assert (Hrefuse : forall r, wf (finish (Err (NotSent r)) c))
    by (intros r; by apply finish_wf; rewrite ?Hp).
  assert (Happ : past_guard (place c) = true -> approved c)
    by (intros Hg; apply (wf_approved c Hw); by left). rewrite Hp in Happ.
  assert (Hmove : forall q, q <> Sending -> q <> Gone -> (past_claim q = true -> cell c = DISPATCHING) ->
    (past_guard q = true -> approved c) -> wf (at_place q c))
    by (intros q ? ? ? ?; apply (moved_wf c); simpl; try done; by rewrite Hp).
  destruct at_; simpl in *.
  - destruct stale; [done|by apply Hmove].
  - destruct late; [done|by apply Hmove].
  - destruct (_ || _); [done|by apply Hmove].
  - destruct (guard (shared c)) as [[[]|m] g] eqn:Eg.
    + apply (moved_wf c); simpl; try done; rewrite ?Hp; try done.
      intros _. exists (shared c). by rewrite Eg.
    + apply finish_wf; [|simpl; by rewrite Hp|done].
      apply (moved_wf c); simpl; rewrite ?Hp; done.
  - destruct late; [done|]. by apply Hmove.
  - destruct busy; [done|]. by apply Hmove.
  - unfold compare_exchange. destruct (Z.eqb_spec (cell c) QUEUED) as [Hq|Hq]; simpl.
    + apply (moved_wf c); simpl; rewrite ?Hp; try done; by rewrite Hq.
    + apply finish_wf; [|simpl; by rewrite Hp|done].
      apply (moved_wf c); simpl; rewrite ?Hp; done.
  - destruct (receiver_open c); simpl; [|done]. apply Hmove; try done.
    intros _. apply (wf_claimed c Hw). by rewrite Hp.
Qed.

Lemma send_wf c : wf c -> place c = Active -> wf (send c).
Proof.
  intros Hw Hp. pose proof (wf_claimed c Hw) as Hc. rewrite Hp in Hc. specialize (Hc eq_refl).
  pose proof (wf_no_reply c Hw) as Hn. rewrite Hp in Hn.
  split; simpl; try done.
  - intros _. apply (wf_approved c Hw). rewrite Hp. by left.
  - auto.
  - rewrite Hn by done. done.
  - intros r Hr. destruct (wf_returned c Hw r Hr) as [A B]. split; [|done].
    intros Hr'. destruct (A Hr') as [_ [Hg|Ha]]; [by rewrite Hp in Hg|by rewrite Hc in Ha].
Qed.

(** Steps of the caller *)
Lemma set_cell_wf v c :
  wf c -> cell c = QUEUED -> v = ABANDONED -> wf (set_cell v c).
Proof.
  intros [W1 W2 W3 W4 W5 W6] Hq ->. assert (Hu : sent c = false).
  { destruct (sent c); [|done]. destruct W3 as [W3 _]; [done|]. by rewrite Hq in W3. }
  split; simpl; try done.
  - intros Hc. specialize (W1 Hc). by rewrite Hq in W1.
  - by rewrite Hu.
  - intros r Hr. destruct (W6 r Hr) as [A B]. split; [|done]. intros Hr'. destruct (A Hr'). auto.
Qed.

Lemma set_caller_wf k c :
  wf c ->
  (forall r, k = Returned r ->
    (is_not_sent r = true -> sent c = false /\ (place c = Gone \/ cell c = ABANDONED)) /\
    (is_not_sent r = false -> is_unknown r = false -> sent c = true)) ->
  wf (set_caller k c).
Proof. intros [] Hk. by split. Qed.

Lemma time_out_wf c : wf c -> wf (time_out c).
Proof.
  intros Hw. unfold time_out, compare_exchange.
  destruct (Z.eqb_spec (cell c) QUEUED) as [Hq|Hq]; simpl.
  - apply set_caller_wf; [by apply set_cell_wf|]. intros r [= <-]. split; [|done]. intros _. simpl.
    split; [|by right]. destruct (sent c) eqn:E; [|done].
    destruct (wf_sent c Hw E) as [Hd _]. by rewrite Hq in Hd.
  - apply set_caller_wf; [by destruct c|]. by intros r [= <-].
Qed.

Lemma orphaned_wf reason c : wf c -> place c = Gone -> wf (orphaned reason c).
Proof.
  intros Hw Hp. unfold orphaned. apply set_caller_wf; [done|]. intros r [= <-].
  destruct (Z.eqb_spec (cell c) DISPATCHING) as [Hd|Hd]; simpl; [done|]. split; [|done].
  intros _. split; [|by left]. destruct (sent c) eqn:E; [|done].
  by destruct (wf_sent c Hw E).
Qed.

Lemma protocol_step_wf c c' : step c c' -> wf c -> wf c'.
Proof.
  intros Hs Hw. destruct Hs as [c Hp|c reason Hp|c at_ late busy Hp|c Hp|c r Hp Hr|c Hp|c r Hk Hr
    |c reason Hk Hp Hr|c Hk|c Hk|c Hk|c Hk|c g].
  - apply (moved_wf c); simpl; try done; by rewrite Hp.
  - apply finish_wf; [done|by rewrite Hp|]. apply wf_unsent; by rewrite ?Hp.
  - by apply prepare_step_wf.
  - by apply send_wf.
  - apply finish_wf; [done|by rewrite Hp|]. rewrite Hr. by apply wf_sending.
  - pose proof (wf_no_reply c Hw Hp) as Hn. destruct Hw as [W1 W2 W3 W4 W5 W6]. split; simpl; try done.
    + intros [|H1]; [done|]. apply W2. by right.
    + intros H1. destruct (W3 H1). auto.
    + by rewrite Hn.
    + intros r Hr. destruct (W6 r Hr) as [A B]. split; [|done]. intros Hr'. destruct (A Hr'). auto.
  - apply set_caller_wf; [done|]. intros r0 [= <-]. destruct (wf_reply c Hw r Hr) as [Hg ->].
    split; [intros ->|by intros ->]. auto.
  - by apply orphaned_wf.
  - by apply time_out_wf.
  - by apply set_caller_wf.
  - unfold cancel, compare_exchange. destruct (Z.eqb_spec (cell c) QUEUED); simpl;
      [by apply set_cell_wf|by destruct c].
  - by destruct Hw.
  - by destruct Hw.
Qed.

Lemma protocol_reachable_wf c : reachable c -> wf c.
Proof.
  intros [g Hr]. remember (enqueued g) as c0 eqn:E0.
  assert (Hw : wf c0) by (subst; apply enqueued_wf). clear E0.
  induction Hr as [c|c0 c1 c Hs Hr IH]; [done|]. by apply IH, (protocol_step_wf c0).
Qed.

(** What a caller returned is never revised. *)
Lemma step_returned c c' r : step c c' -> caller c = Returned r -> caller c' = Returned r.
Proof.
  intros Hs Hr. destruct Hs; simpl; try done; try congruence.
  unfold prepare_step. destruct at_; simpl; repeat case_match; done.
Qed.

Lemma steps_returned c c' r : rtc step c c' -> caller c = Returned r -> caller c' = Returned r.
Proof. induction 1; eauto using step_returned. Qed.

(** C27: the report that a request was not dispatched is true and final: in every
    interleaving of the caller, the socket owner, timeouts, cancellation and the death of
    either side, once the caller was told so, the request's frame has not been handed to
    the socket and never will be; and an acceptance or a rejection is only reported for a
    frame that was. *)
Theorem reported_dispatch_is_true c c' r :
  reachable c -> caller c = Returned r -> rtc step c c' ->
  (is_not_sent r = true -> sent c' = false) /\
  (is_not_sent r = false -> is_unknown r = false -> sent c' = true).
Proof.
  intros [g H0] Hr Hs. assert (Hw : wf c') by (apply protocol_reachable_wf; exists g; by etrans).
  destruct (wf_returned c' Hw r (steps_returned _ _ _ Hs Hr)) as [A B]. split; [|done].
  intros Hn. by apply A.
Qed.

(** No frame reaches the socket unchecked: whatever the interleaving, when a request's
    frame was handed to the socket its guard had been called and had agreed, and the
    command had been claimed against cancellation. *)
Theorem sent_only_when_guarded c :
  reachable c -> sent c = true ->
  cell c = DISPATCHING /\ exists g, guarded_at c = Some g /\ fst (guard g) = Ok tt.
Proof.
  intros Hc%protocol_reachable_wf Hs. split; [by apply (wf_sent c Hc)|]. apply (wf_approved c Hc). by right.
Qed.

(** A request whose caller went away before it was claimed is never sent: once the
    command is abandoned the socket owner can only refuse it. *)
Theorem abandoned_is_never_sent c c' :
  reachable c -> cell c = ABANDONED -> rtc step c c' -> sent c' = false.
Proof.
  intros [g H0] Ha Hs. assert (Hc' : cell c' = ABANDONED).
  { clear H0. induction Hs as [c|c c1 c' H1 Hs IH]; [done|]. apply IH.
    destruct H1; simpl; try done.
    - unfold prepare_step. destruct at_; simpl; rewrite ?Ha; simpl; repeat case_match; done.
    - unfold time_out. by rewrite Ha.
    - by rewrite Ha. }
  destruct (sent c') eqn:E; [|done].
  assert (Hw : wf c') by (apply protocol_reachable_wf; exists g; by etrans).
  destruct (wf_sent c' Hw E) as [Hd _].
  by rewrite Hc' in Hd.
Qed.

End Protocol.
