(* ===== verification/Replies.v ===== *)
(** * Replies

    [response] and [batch_response] of [native/src/session.rs]: what a response frame of the
    peer says about the command it is matched against.  What a transform read captures from
    the frame is a parameter. *)
From S2P Require Import Prelude Json Text Dispatch Broker.
From S2P Require ReadRequest OperationReceipt.

Record BatchResult := {
  br_request_type : string;
  ok : bool;
  code : Z;
  comment : option string;
  response_data : Value
}.

Inductive StopControl :=
| StopRecord
| RecordStatus.

Definition stop_control_type (c : StopControl) : string :=
  match c with StopRecord => "StopRecord" | RecordStatus => "GetRecordStatus" end.

Definition safety_request_type (k : SafetyStopRequest) : string :=
  match k with
  | StopStream => "StopStream"
  | StopVirtualCam => "StopVirtualCam"
  | StopReplayBuffer => "StopReplayBuffer"
  end.

Inductive CommandKind :=
| Single (request_type : string)
| Observation (request : ReadRequest.ReadRequest)
| ReservedControl (control : StopControl)
| SafetyStop (kind : SafetyStopRequest)
| ManualRecordStop
| Transform
| Batch (request_types : list string) (halt_on_failure : bool).

Inductive Lane :=
| NormalLane
| OwnedStopLane
| SafetyStopLane.

#[export] Instance Lane_eq_dec : EqDecision Lane.
Proof. solve_decision. Defined.

Definition lane (k : CommandKind) : Lane :=
  match k with
  | ReservedControl _ => OwnedStopLane
  | SafetyStop _ | ManualRecordStop => SafetyStopLane
  | _ => NormalLane
  end.

Section Replies.
Context {P : Type}.

(** What a transform read makes of the raw text, the response value and the deadline *)
Context (capture : string -> Value -> Z -> P).

Inductive ReplyData :=
| SingleReply (v : Value)
| BatchReply (results : list BatchResult)
| TransformReply (p : P).

(** [str::parse::<usize>], with its optional plus sign *)
Definition parse_digits (digits : list Z) : option Z :=
  match digits with
  | [] => None
  | _ :: _ =>
      if forallb is_digit digits then
        let v := fold_left (fun v b => v * 10 + (b - 48)) digits 0 in
        if v <=? USIZE_MAX then Some v else None
      else None
  end.

Definition parse_usize (s : string) : option Z :=
  parse_digits match bytes_of s with
               | b :: r => if b =? 43 then r else b :: r
               | [] => []
               end.

(** The index a result claims: canonical decimal, within the results *)
Definition result_index (id : string) (len : nat) : option nat :=
  match opt_filter (fun i => str_eqb (pretty (Z.to_N i)) id) (parse_usize id) with
  | Some i => if i <? Z.of_nat len then Some (Z.to_nat i) else None
  | None => None
  end.

Definition status_code (v : Value) : option Z :=
  or_else (as_u64 v)
    (as_f64 v >>? (fun n =>
       OperationReceipt.f64_integer n >>? (fun z =>
         if f64_leb f64_zero n && f64_ltb n (f64_of_Z (2 ^ 64)) then Some z else None))).

Definition or_empty (o : option Value) : Value :=
  match opt_filter (fun v => negb (is_null v)) o with
  | Some v => v
  | None => Object []
  end.

(** One turn of the loop over the results: the entry goes to its index *)
Definition place_result (request_types : list string) (ordered : list (option BatchResult))
  (result : Value) : Prelude.result Invalidation (list (option BatchResult)) :=
  if negb (is_object result) || negb (is_object (index "requestStatus" result))
  then Err MalformedMessage
  else
    let? i := ok_or (as_str (index "requestId" result)
                     >>? (fun id => result_index id (length ordered)))
                ResponseIdentityMismatch in
    let? request_type := ok_or (as_str (index "requestType" result)) MalformedMessage in
    if negb (is_some_and (request_types !! i) (str_eqb request_type))
       || match ordered !! i with Some (Some _) => true | _ => false end
    then Err ResponseIdentityMismatch
    else
      let status := index "requestStatus" result in
      let? ok := ok_or (as_bool (index "result" status)) MalformedMessage in
      let? code := ok_or (status_code (index "code" status)) MalformedMessage in
      Ok (<[i := Some {| br_request_type := request_type; ok := ok; code := code;
                         comment := as_str (index "comment" status);
                         response_data := or_empty (get "responseData" result) |}]> ordered).

Fixpoint place_results (request_types : list string) (ordered : list (option BatchResult))
  (results : list Value) : Prelude.result Invalidation (list (option BatchResult)) :=
  match results with
  | [] => Ok ordered
  | r :: results =>
      let? ordered := place_result request_types ordered r in
      place_results request_types ordered results
  end.

Fixpoint collect {A} (l : list (option A)) : option (list A) :=
  match l with
  | [] => Some []
  | Some x :: l => match collect l with Some xs => Some (x :: xs) | None => None end
  | None :: _ => None
  end.

Definition batch_results (results : list Value) (request_types : list string)
  (halt_on_failure : bool) : Prelude.result Invalidation (list BatchResult) :=
  if match results with [] => true | _ :: _ => false end
     || (length request_types <? length results)%nat
     || (negb halt_on_failure && negb (length results =? length request_types)%nat)
  then Err ResponseIdentityMismatch
  else
    let? ordered := place_results request_types (replicate (length results) None) results in
    let? results := ok_or (collect ordered) ResponseIdentityMismatch in
    if halt_on_failure then
      let first_failure := position (fun r => negb (ok r)) results in
      if is_some_and first_failure (fun i => negb (i + 1 =? length results)%nat)
         || (is_none first_failure && negb (length results =? length request_types)%nat)
      then Err ResponseIdentityMismatch
      else Ok results
    else Ok results.

Definition batch_response (data : Value) (request_id : string) (request_types : list string)
  (halt_on_failure : bool) : Prelude.result Invalidation (list BatchResult) :=
  if negb (is_some_and (as_str (index "requestId" data)) (str_eqb request_id))
  then Err ResponseIdentityMismatch
  else
    let? results := ok_or (get "results" data >>? as_array) MalformedMessage in
    batch_results results request_types halt_on_failure.

(** The request type a single response must name, or the whole answer of a batch *)
Definition single_type (kind : CommandKind) : option string :=
  match kind with
  | Single request_type => Some request_type
  | Observation request => Some (ReadRequest.as_str request)
  | Transform => Some "GetSceneItemTransform"%string
  | ReservedControl control => Some (stop_control_type control)
  | SafetyStop kind => Some (safety_request_type kind)
  | ManualRecordStop => Some "StopRecord"%string
  | Batch _ _ => None
  end.

Definition response (data : Value) (kind : CommandKind) (request_id : string) (deadline : Z)
  (batch : bool) (raw : string)
  : Prelude.result Invalidation (option (Prelude.result RequestError ReplyData)) :=
  match kind, batch with
  | Batch request_types halt_on_failure, true =>
      let? results := batch_response data request_id request_types halt_on_failure in
      Ok (Some (Ok (BatchReply results)))
  | _, _ =>
      match (if batch then None else single_type kind) with
      | None => Err ResponseIdentityMismatch
      | Some request_type =>
          if negb (is_some_and (as_str (index "requestId" data)) (str_eqb request_id))
          then Ok None
          else if negb (is_some_and (as_str (index "requestType" data)) (str_eqb request_type))
          then Err ResponseIdentityMismatch
          else
            let status := index "requestStatus" data in
            let? code := ok_or (as_u64 (index "code" status)) MalformedMessage in
            let? success := ok_or (as_bool (index "result" status)) MalformedMessage in
            let comment := opt_filter (fun c => negb (str_is_empty c))
                             (get "comment" status >>? as_str) in
            if negb success && is_some_and comment (fun c => 65536 <? str_len c)
            then Err MalformedMessage
            else
              Ok (Some (if success then
                          let value := or_empty (get "responseData" data) in
                          match kind with
                          | Transform => Ok (TransformReply (capture raw value deadline))
                          | _ => Ok (SingleReply value)
                          end
                        else
                          Err (match comment with
                               | Some c => RejectedDetailed code c
                               | None => Rejected code
                               end)))
      end
  end.

(** ** Batches *)

(** The entry [v] is a well-formed answer to request [i], and says [r]. *)
Record says (request_types : list string) (len : nat) (v : Value) (i : nat) (r : BatchResult)
  : Prop := {
  says_object : is_object v = true;
  says_status : is_object (index "requestStatus" v) = true;
  says_index : as_str (index "requestId" v) >>? (fun id => result_index id len) = Some i;
  says_type : as_str (index "requestType" v) = Some (br_request_type r);
  says_admitted : request_types !! i = Some (br_request_type r);
  says_ok : as_bool (index "result" (index "requestStatus" v)) = Some (ok r);
  says_code : status_code (index "code" (index "requestStatus" v)) = Some (code r);
  says_comment : as_str (index "comment" (index "requestStatus" v)) = comment r;
  says_data : or_empty (get "responseData" v) = response_data r
}.

Lemma says_fun types len v i r i' r' :
  says types len v i r -> says types len v i' r' -> i = i' /\ r = r'.
Proof.
  intros [] []. split; [congruence|]. destruct r, r'. simpl in *. f_equal; congruence.
Qed.

Lemma parse_digits_nonneg digits n : parse_digits digits = Some n -> 0 <= n.
Proof.
  assert (forall l v, forallb is_digit l = true -> 0 <= v ->
    0 <= fold_left (fun v b => v * 10 + (b - 48)) l v) as F.
  { induction l as [|b l IH]; intros v Hl Hv; simpl; [done|].
    simpl in Hl. apply andb_true_iff in Hl as [Hb Hl]. unfold is_digit in Hb. to_prop.
    apply IH; [done|lia]. }
  unfold parse_digits. destruct digits as [|d ds]; [done|].
  destruct (forallb is_digit (d :: ds)) eqn:E; [|done].
  cbv zeta. destruct (_ <=? USIZE_MAX); [|done]. intros [= <-]. apply (F (d :: ds)); [done|lia].
Qed.

Lemma result_index_Some id len i :
  result_index id len = Some i -> (i < len)%nat /\ id = pretty (N.of_nat i).
Proof.
  unfold result_index, opt_filter. destruct (parse_usize id) as [n|] eqn:E; [|done].
  destruct (str_eqb (pretty (Z.to_N n)) id) eqn:Q; [|done].
  destruct (Z.ltb_spec n (Z.of_nat len)); [|done]. intros [= <-]. apply str_eqb_eq in Q as <-.
  assert (0 <= n).
  { by eapply parse_digits_nonneg. }
  split; [lia|]. f_equal. lia.
Qed.

Lemma place_result_iff types o v o' :
  place_result types o v = Ok o' <->
  exists i r, says types (length o) v i r /\ o !! i = Some None /\ o' = <[i := Some r]> o.
Proof.
  split.
  - unfold place_result. destruct (is_object v) eqn:Eo; [|done].
    destruct (is_object (index "requestStatus" v)) eqn:Es; [|done]. simpl.
    destruct (as_str (index "requestId" v) >>? _) as [i|] eqn:Ei; [|done]. simpl.
    destruct (as_str (index "requestType" v)) as [ty|] eqn:Et; [|done]. simpl.
    destruct (types !! i) as [ty'|] eqn:Ey; [|done]. simpl.
    destruct (str_eqb ty ty') eqn:Q; [|done]. apply str_eqb_eq in Q as <-. simpl.
    assert ((i < length o)%nat) as Hi.
    { unfold and_then in Ei. destruct (as_str _); [|done]. by apply result_index_Some in Ei as []. }
    destruct (lookup_lt_is_Some_2 o i Hi) as [x Ex]. rewrite Ex.
    destruct x; [done|].
    destruct (as_bool _) as [k|] eqn:Ek; [|done]. simpl.
    destruct (status_code _) as [n|] eqn:En; [|done]. simpl. intros [= <-].
    eexists i, _. split; [|split; [done|reflexivity]]. by constructor.
  - intros (i & r & S & E & ->). destruct S. unfold place_result.
    rewrite says_object0, says_status0, says_index0. simpl. rewrite says_type0. simpl.
    rewrite says_admitted0. simpl. rewrite str_eqb_refl, E. simpl.
    rewrite says_ok0. simpl. rewrite says_code0. simpl. rewrite says_comment0, says_data0.
    by destruct r.
Qed.

Lemma place_results_spec types vs : forall o o',
  place_results types o vs = Ok o' ->
  length o' = length o /\
  (forall i r, o !! i = Some (Some r) -> o' !! i = Some (Some r)) /\
  (forall v, In v vs -> exists i r, says types (length o) v i r /\ o !! i = Some None /\
                                    o' !! i = Some (Some r)) /\
  (forall i r, o' !! i = Some (Some r) ->
     o !! i = Some (Some r) \/ exists v, In v vs /\ says types (length o) v i r).
Proof.
  induction vs as [|v vs IH]; intros o o'; simpl.
  - intros [= <-]. split; [done|]. split; [done|]. split; [done|]. auto.
  - intros H. apply bind_result_Ok in H as (o1 & Hp & H).
    apply place_result_iff in Hp as (i & r & S & N & ->). apply IH in H as (L & K & F & B).
    rewrite length_insert in *. pose proof (lookup_lt_Some _ _ _ N) as Hi.
    split; [done|]. split; [|split].
    + intros j q Hq. apply K. rewrite list_lookup_insert_ne; [done|]. congruence.
    + intros w [<-|Hw].
      * exists i, r. split; [done|]. split; [done|]. apply K. by rewrite list_lookup_insert_eq.
      * destruct (F w Hw) as (j & q & Sq & Nq & Oq). exists j, q. split; [done|]. split; [|done].
        destruct (decide (i = j)) as [->|]; [by rewrite list_lookup_insert_eq in Nq|].
        by rewrite list_lookup_insert_ne in Nq.
    + intros j q Hq. destruct (B j q Hq) as [Hj|(w & Hw & Sw)]; [|eauto].
      destruct (decide (i = j)) as [<-|]; [|left; by rewrite list_lookup_insert_ne in Hj].
      rewrite list_lookup_insert_eq in Hj by done. injection Hj as <-. eauto.
Qed.

Lemma collect_Some {A} (l : list (option A)) xs :
  collect l = Some xs <-> l = map Some xs.
Proof.
  revert xs. induction l as [|[x|] l IH]; intros xs; simpl.
  - split; [by intros [= <-]|by destruct xs].
  - destruct (collect l) as [ys|].
    + rewrite (proj1 (IH ys) eq_refl). split; [by intros [= <-]|].
      destruct xs as [|y xs]; [done|]. intros [= -> H]. f_equal. f_equal.
      apply (inj (map Some)). done.
    + split; [done|]. destruct xs as [|y xs]; [done|]. intros [= -> H].
      pose proof (proj2 (IH xs) H). done.
  - split; [done|]. by destruct xs.
Qed.

Lemma batch_results_Ok vs types halt rs :
  batch_results vs types halt = Ok rs ->
  (halt = false -> length vs = length types) /\
  place_results types (replicate (length vs) None) vs = Ok (map Some rs) /\
  (halt = true ->
   match position (fun r => negb (ok r)) rs with
   | Some i => (i + 1)%nat = length rs
   | None => length rs = length types
   end).
Proof.
  unfold batch_results. destruct (_ || _) eqn:E; [done|].
  apply orb_false_iff in E as [_ E].
  destruct (place_results types _ vs) as [o|e]; [|done]. simpl.
  destruct (collect o) as [ys|] eqn:C; [|done]. simpl. apply collect_Some in C as ->.
  destruct halt; simpl in E.
  - destruct (_ || _) eqn:Q; [done|]. intros [= <-]. split; [done|]. split; [done|]. intros _.
    destruct (position _ ys) as [i|]; simpl in Q.
    + rewrite orb_false_r in Q. by apply negb_false_iff, Nat.eqb_eq in Q.
    + by apply negb_false_iff, Nat.eqb_eq in Q.
  - intros [= <-]. split; [|done]. intros _. by apply negb_false_iff, Nat.eqb_eq in E.
Qed.

Lemma place_results_perm types vs vs' :
  Permutation vs vs' -> forall o o',
  place_results types o vs = Ok o' -> place_results types o vs' = Ok o'.
Proof.
  induction 1 as [|v vs vs' _ IH|v w vs|vs1 vs2 vs3 _ IH1 _ IH2]; intros o o'; simpl.
  - done.
  - intros (o1 & E & H)%bind_result_Ok. rewrite E. simpl. auto.
  - intros (o1 & E & H)%bind_result_Ok. apply bind_result_Ok in H as (o2 & E2 & H).
    apply place_result_iff in E as (i & r & S & N & ->).
    apply place_result_iff in E2 as (j & q & S' & N' & ->). rewrite length_insert in S'.
    assert (i <> j) as D.
    { intros ->. rewrite list_lookup_insert_eq in N' by (by eapply lookup_lt_Some). done. }
    rewrite list_lookup_insert_ne in N' by done.
    rewrite (proj2 (place_result_iff types o _ (<[j := Some q]> o))) by eauto. simpl.
    rewrite (proj2 (place_result_iff types _ _ (<[j := Some q]> (<[i := Some r]> o))));
      [simpl; exact H|].
    exists i, r. rewrite length_insert, list_lookup_insert_ne by done. split_and!; try done.
    by rewrite list_insert_insert_ne.
  - auto.
Qed.

(** What the answers [rs] to the admitted [types] must look like *)
Definition batch_shape (types : list string) (halt : bool) (rs : list BatchResult) : Prop :=
  rs <> [] /\ (length rs <= length types)%nat /\
  (halt = false -> length rs = length types) /\
  (halt = true ->
   (forall i r, rs !! i = Some r -> (S i < length rs)%nat -> ok r = true) /\
   (length rs = length types \/ exists r, last rs = Some r /\ ok r = false)).

Lemma halted_shape (types : list string) (rs : list BatchResult) :
  rs <> [] ->
  match position (fun r => negb (ok r)) rs with
  | Some i => (i + 1)%nat = length rs
  | None => length rs = length types
  end <->
  (forall i r, rs !! i = Some r -> (S i < length rs)%nat -> ok r = true) /\
  (length rs = length types \/ exists r, last rs = Some r /\ ok r = false).
Proof.
  intros NE. destruct (position _ rs) as [i|] eqn:E.
  - apply position_first in E as (x & Hx & Px & Hb). apply negb_true_iff in Px. split.
    + intros L. split.
      * intros j r Hj Hl. apply negb_false_iff, (Hb j r); [lia|done].
      * right. exists x. split; [|done]. rewrite last_lookup. rewrite <- Hx. f_equal. lia.
    + intros [H _]. pose proof (lookup_lt_Some _ _ _ Hx). 
      destruct (decide (S i < length rs)%nat) as [Hl|]; [|lia].
      rewrite (H i x Hx Hl) in Px. done.
  - apply position_None in E. rewrite forallb_forall in E. split.
    + intros L. split; [|by left]. intros j r Hj _.
      specialize (E r (proj1 (list_elem_of_In _ _) (list_elem_of_lookup_2 _ _ _ Hj))).
      by rewrite negb_involutive in E.
    + intros [_ [L|(r & Hr & Or)]]; [done|]. rewrite last_lookup in Hr.
      specialize (E r (proj1 (list_elem_of_In _ _) (list_elem_of_lookup_2 _ _ _ Hr))).
      by rewrite Or in E.
Qed.

Lemma batch_results_iff vs types halt rs :
  batch_results vs types halt = Ok rs <->
  length vs = length rs /\ batch_shape types halt rs /\
  place_results types (replicate (length vs) None) vs = Ok (map Some rs).
Proof.
  unfold batch_shape. split.
  - intros H. pose proof H as (A & Pl & Q)%batch_results_Ok.
    pose proof (place_results_spec _ _ _ _ Pl) as (L & _).
    rewrite length_map, length_replicate in L. unfold batch_results in H.
    destruct (_ || _) eqn:E; [done|]. clear H. apply orb_false_iff in E as [E _].
    apply orb_false_iff in E as [E1 E2]. apply Nat.ltb_ge in E2.
    assert (rs <> []) as NE by (destruct vs, rs; done).
    split; [done|]. split; [|done]. split; [done|]. split; [lia|].
    split; [intros; rewrite L; auto|]. intros ->. apply halted_shape; [done|]. by apply Q.
  - intros (L & (NE & LE & HF & HT) & Pl). unfold batch_results. rewrite Pl. simpl.
    rewrite (proj2 (collect_Some _ rs) eq_refl). simpl.
    destruct vs as [|v vs]; [by destruct rs|].
    replace ((length types <? length (v :: vs))%nat) with false
      by (symmetry; apply Nat.ltb_ge; lia). cbn [orb]. destruct halt; cbn [negb andb].
    + pose proof (proj2 (halted_shape types rs NE) (HT eq_refl)) as Q.
      destruct (position _ rs); cbn; rewrite Q, Nat.eqb_refl; done.
    + rewrite L, HF, Nat.eqb_refl; done.
Qed.

Lemma place_results_in_order types rs : forall k ws o,
  length ws = length rs -> (length o = k + length rs)%nat ->
  (forall i, (k <= i < length o)%nat -> o !! i = Some None) ->
  (forall i v r, ws !! i = Some v -> rs !! i = Some r -> says types (length o) v (k + i) r) ->
  place_results types o ws = Ok (take k o ++ map Some rs).
Proof.
  induction rs as [|r rs IH]; intros k [|w ws] o L Lo N Sy; simpl in *; try lia.
  - by rewrite app_nil_r, take_ge by lia.
  - pose proof (Sy 0%nat w r eq_refl eq_refl) as S0. rewrite Nat.add_0_r in S0.
    rewrite (proj2 (place_result_iff types o w (<[k := Some r]> o))); cycle 1.
    { exists k, r. split; [done|]. split; [|done]. apply N. lia. }
    simpl. rewrite (IH (1 + k)%nat); rewrite ?length_insert; try lia.
    + f_equal. rewrite (take_S_r _ _ (Some r)) by (apply list_lookup_insert_eq; lia).
      rewrite take_insert_ge by lia. by rewrite <- app_assoc.
    + intros i Hi. rewrite list_lookup_insert_ne by lia. apply N. lia.
    + intros i v q Hv Hq. replace (1 + k + i)%nat with (k + S i)%nat by lia. by apply Sy.
Qed.

Lemma choose_list {A} (Q : nat -> A -> Prop) n :
  (forall i, (i < n)%nat -> exists a, Q i a) ->
  exists l, length l = n /\ forall i a, l !! i = Some a -> Q i a.
Proof.
  induction n as [|n IH]; intros H.
  - exists []. by split.
  - destruct IH as (l & L & F); [auto with lia|]. destruct (H n) as [a Ha]; [lia|].
    exists (l ++ [a]). rewrite length_app. split; [simpl; lia|].
    intros i b [Hb|[Hi Hb]]%lookup_app_Some; [auto|].
    apply list_lookup_singleton_Some in Hb as [? <-]. by replace i with n by lia.
Qed.

Lemma placed_permutation types vs rs :
  length vs = length rs ->
  place_results types (replicate (length vs) None) vs = Ok (map Some rs) ->
  exists ws, Permutation ws vs /\ length ws = length rs /\
    forall i v r, ws !! i = Some v -> rs !! i = Some r -> says types (length vs) v i r.
Proof.
  intros L (_ & _ & _ & B)%place_results_spec. rewrite length_replicate in B.
  destruct (choose_list (fun i v => In v vs /\ forall r, rs !! i = Some r ->
              says types (length vs) v i r) (length rs)) as (ws & Lw & F).
  { intros i [r Hr]%lookup_lt_is_Some_2. destruct (B i r) as [H|(v & Hv & S)].
    - by rewrite (list_lookup_fmap Some rs), Hr.
    - by apply lookup_replicate in H as [? _].
    - exists v. split; [done|]. intros q Hq. rewrite Hr in Hq. by injection Hq as <-. }
  assert (forall i v r, ws !! i = Some v -> rs !! i = Some r -> says types (length vs) v i r) as S.
  { intros i v r Hv Hr. by apply (proj2 (F i v Hv)). }
  exists ws. split; [|done]. apply NoDup_Permutation_bis; [|lia|].
  - apply NoDup_ListNoDup, NoDup_alt. intros i j v Hi Hj.
    destruct (lookup_lt_is_Some_2 rs i) as [r Hr]; [rewrite <- Lw; by eapply lookup_lt_Some|].
    destruct (lookup_lt_is_Some_2 rs j) as [q Hq]; [rewrite <- Lw; by eapply lookup_lt_Some|].
    by apply (says_fun _ _ _ _ _ _ _ (S _ _ _ Hi Hr) (S _ _ _ Hj Hq)).
  - intros v Hv. apply list_elem_of_In, list_elem_of_lookup in Hv as [i Hi]. by apply (F i v Hi).
Qed.

(** A batch response is accepted with the answers [rs] exactly when it names the batch
    and its result entries, in some order, are well-formed answers to requests 0, 1, 2, ...
    each naming the admitted type and saying [rs]: no entry is missing, foreign or repeated,
    and the order the peer sent them in does not matter.  Without halting, every request is
    answered; with halting, only the last answer can be a failure, and an answer list that
    stops early stops at a failure. *)
Theorem batch_response_exact data id types halt rs :
  batch_response data id types halt = Ok rs <->
  as_str (index "requestId" data) = Some id /\ batch_shape types halt rs /\
  exists vs ws, get "results" data = Some (Array vs) /\ Permutation ws vs /\
    length ws = length rs /\
    forall i v r, ws !! i = Some v -> rs !! i = Some r -> says types (length vs) v i r.
Proof.
  unfold batch_response. split.
  - destruct (as_str (index "requestId" data)) as [x|]; [|done]. simpl.
    destruct (str_eqb id x) eqn:E; [|done]. apply str_eqb_eq in E as <-. simpl.
    destruct (get "results" data) as [[| | | |vs|]|]; try done. simpl.
    intros (L & Sh & (ws & Pm & Lw & F)%placed_permutation)%batch_results_iff; [|done].
    split_and!; [done..|]. by exists vs, ws.
  - intros (-> & Sh & vs & ws & -> & Pm & L & F). simpl. rewrite str_eqb_refl. simpl.
    apply batch_results_iff. pose proof (Permutation_length Pm) as LP.
    split_and!; [lia|done|]. apply (place_results_perm _ _ _ Pm).
    change (map Some rs) with (take 0 (replicate (length vs) (@None BatchResult)) ++ map Some rs).
    apply place_results_in_order; rewrite ?length_replicate; auto; [lia|].
    intros i [_ Hi]. by apply lookup_replicate_2.
Qed.
End Replies.

(** Answers out of order are put in order, and a halted batch stops at its failure. *)
Example batch_example :
  let entry i ty ok code :=
    Object [("requestId", Str i); ("requestType", Str ty);
            ("requestStatus", Object [("result", Bool ok); ("code", Num (PosInt code))])]%string in
  let rs ok code :=
    batch_response (Object [("requestId", Str "7");
                            ("results", Array [entry "1" "GetStats" ok code;
                                               entry "0" "GetVersion" true 100])])%string
      "7" ["GetVersion"; "GetStats"; "GetHotkeyList"]%string true in
  (exists a b, rs false 604 = Ok [a; b] /\ ok a = true /\ ok b = false /\ code b = 604) /\
  rs true 100 = Err ResponseIdentityMismatch.
Proof. split; [do 2 eexists; vm_compute; split_and!|vm_compute]; reflexivity. Qed.
Arguments ReplyData : clear implicits.
