(* ===== verification/Incoming.v ===== *)
(** * Incoming

    The reading half of the socket owner in [native/src/session.rs]: [incoming] classifies a
    websocket message, and [Publisher::publish] hands an event of the peer to the bounded
    event channel, whose receiver is [EventReceiver].  The JSON parser is a parameter.  The
    permits an event holds are released when the consumer drops it. *)
From S2P Require Import Prelude Json Dispatch Replies.

Definition ALL_EVENTS : Z := Z.shiftl 1 12 - 1.
Definition SUPPORTED_EVENT_SUBSCRIPTIONS : Z := Z.lor ALL_EVENTS (Z.shiftl 15 16).

(** [fetch_update] of an atomic counter with [checked_add(1)]: the new value, if any *)
Definition advance (counter : Z) : option Z := checked_add counter 1.

Record CloseFrame := {
  close_code : Z;
  close_reason : string
}.

Inductive Message :=
| Text (text : string)
| Ping
| Pong
| Close (frame : option CloseFrame)
| OtherMessage.

(** [Option<Result<Message, _>>], an item of the stream *)
Inductive Item :=
| Ended
| Failed
| Received (m : Message).

Record PeerClose := {
  peer_code : option Z;
  peer_reason : string
}.

Definition capture_close (frame : option CloseFrame) : PeerClose :=
  {| peer_code := close_code <$> frame;
     peer_reason := match opt_filter (fun r => str_len r <=? 123) (close_reason <$> frame) with
                    | Some r => r
                    | None => EmptyString
                    end |}.

Record ObsEvent := {
  ev_connection : Z;
  ev_sequence : Z;
  ev_type : string;
  ev_intent : Z;
  ev_data : option Value;
  ev_encoded_bytes : Z;
  ev_received_at : Z;
  ev_permits : Z            (* byte permits held; each event holds one item permit too *)
}.

(** The publisher, its channel, and the events the consumer has not dropped yet *)
Record Publisher := {
  p_token : Z;
  cursor : Z;
  items : Z;
  bytes : Z;
  channel_capacity : Z;
  channel : list ObsEvent;
  consumer_alive : bool;
  retained : list ObsEvent;
  peer_close : option PeerClose
}.

Definition publisher_new (token event_items event_bytes : Z) : Publisher :=
  {| p_token := token; cursor := 0; items := event_items; bytes := event_bytes;
     channel_capacity := event_items; channel := []; consumer_alive := true; retained := [];
     peer_close := None |}.

Definition set_cursor (n : Z) (p : Publisher) : Publisher :=
  {| p_token := p_token p; cursor := n; items := items p; bytes := bytes p;
     channel_capacity := channel_capacity p; channel := channel p;
     consumer_alive := consumer_alive p; retained := retained p; peer_close := peer_close p |}.

Definition sent_event (e : ObsEvent) (p : Publisher) : Publisher :=
  {| p_token := p_token p; cursor := cursor p; items := items p - 1;
     bytes := bytes p - ev_permits e; channel_capacity := channel_capacity p;
     channel := channel p ++ [e]; consumer_alive := consumer_alive p; retained := retained p;
     peer_close := peer_close p |}.

(** [peer_close.get_or_init] *)
Definition init_peer_close (c : PeerClose) (p : Publisher) : Publisher :=
  {| p_token := p_token p; cursor := cursor p; items := items p; bytes := bytes p;
     channel_capacity := channel_capacity p; channel := channel p;
     consumer_alive := consumer_alive p; retained := retained p;
     peer_close := match peer_close p with Some c => Some c | None => Some c end |}.

(** [self.sender.try_send(event)]: the refused event is dropped with its permits. *)
Definition try_send (e : ObsEvent) (p : Publisher) : result Invalidation unit * Publisher :=
  if negb (consumer_alive p) then (Err EventConsumerDropped, p)
  else if channel_capacity p <=? Z.of_nat (length (channel p)) then (Err EventOverflow, p)
  else (Ok tt, sent_event e p).

Definition publish (data : Value) (encoded_bytes received_at : Z) (p : Publisher)
  : result Invalidation unit * Publisher :=
  match opt_filter (fun n => negb (str_is_empty n)) (as_str (index "eventType" data)) with
  | None => (Err MalformedMessage, p)
  | Some event_type =>
      match as_u64 (index "eventIntent" data) with
      | None => (Err MalformedMessage, p)
      | Some intent =>
          if negb (Z.ldiff intent SUPPORTED_EVENT_SUBSCRIPTIONS =? 0)
          then (Err MalformedMessage, p)
          else
            match advance (cursor p) with
            | None => (Err InvalidationIdentityExhausted, p)
            | Some sequence =>
                let p := set_cursor sequence p in
                let permits := encoded_bytes mod 2 ^ 32 in
                if items p <? 1 then (Err EventOverflow, p)
                else if bytes p <? permits then (Err EventOverflow, p)
                else
                  try_send {| ev_connection := p_token p; ev_sequence := sequence;
                              ev_type := event_type; ev_intent := intent;
                              ev_data := get "eventData" data;
                              ev_encoded_bytes := encoded_bytes;
                              ev_received_at := received_at; ev_permits := permits |} p
            end
      end
  end.

Inductive Incoming :=
| Response (batch : bool) (data : Value) (raw : string)
| Other.

Section Incoming.
(** [serde_json::from_str] *)
Context (from_str : string -> option Value).

Definition incoming (m : Item) (now : Z) (p : Publisher) : result Invalidation Incoming * Publisher :=
  match m with
  | Received (Text text) =>
      match from_str text with
      | None => (Err MalformedMessage, p)
      | Some frame =>
          if negb (is_object frame) || negb (is_object (index "d" frame))
          then (Err MalformedMessage, p)
          else
            let d := index "d" frame in
            match as_u64 (index "op" frame) with
            | Some op =>
                if op =? 5 then
                  let '(r, p) := publish d (str_len text) now p in
                  ((let? _ := r in Ok Other), p)
                else if op =? 7 then (Ok (Response false d text), p)
                else if op =? 9 then (Ok (Response true d text), p)
                else if (op =? 0) || (op =? 2) then (Err ResponseIdentityMismatch, p)
                else (Err MalformedMessage, p)
            | None => (Err MalformedMessage, p)
            end
      end
  | Received Ping | Received Pong => (Ok Other, p)
  | Received (Close frame) => (Err Disconnected, init_peer_close (capture_close frame) p)
  | Ended | Failed => (Err Disconnected, init_peer_close (capture_close None) p)
  | Received OtherMessage => (Err MalformedMessage, p)
  end.

(** ** The consumer: [EventReceiver], and the drop of an event *)

Definition set_channel (evs kept : list ObsEvent) (alive : bool) (p : Publisher) : Publisher :=
  {| p_token := p_token p; cursor := cursor p; items := items p; bytes := bytes p;
     channel_capacity := channel_capacity p; channel := evs; consumer_alive := alive;
     retained := kept; peer_close := peer_close p |}.

(** [receiver.recv()] *)
Definition recv (p : Publisher) : option ObsEvent * Publisher :=
  match channel p with
  | e :: evs => (Some e, set_channel evs (retained p ++ [e]) (consumer_alive p) p)
  | [] => (None, p)
  end.

Definition release (e : ObsEvent) (p : Publisher) : Publisher :=
  {| p_token := p_token p; cursor := cursor p; items := items p + 1;
     bytes := bytes p + ev_permits e; channel_capacity := channel_capacity p;
     channel := channel p; consumer_alive := consumer_alive p; retained := retained p;
     peer_close := peer_close p |}.

(** the consumer drops the [i]th event it holds *)
Definition drop_event (i : nat) (p : Publisher) : Publisher :=
  match retained p !! i with
  | Some e => release e (set_channel (channel p) (delete i (retained p)) (consumer_alive p) p)
  | None => p
  end.

(** [close] and the drain of [EventReceiver::next], or the drop of the receiver *)
Definition close_receiver (p : Publisher) : Publisher :=
  foldr release (set_channel [] (retained p) false p) (channel p).

(** ** Accounting *)

Definition permits_of (es : list ObsEvent) : Z := foldr (fun e n => ev_permits e + n) 0 es.

Record publisher_wf (event_items event_bytes : Z) (p : Publisher) : Prop := {
  wf_cursor : 0 <= cursor p <= U64_MAX;
  wf_capacity : channel_capacity p = event_items;
  wf_items : items p + Z.of_nat (length (channel p ++ retained p)) = event_items;
  wf_bytes : bytes p + permits_of (channel p ++ retained p) = event_bytes;
  wf_items_nonneg : 0 <= items p;
  wf_bytes_nonneg : 0 <= bytes p;
  wf_permits : Forall (fun e => 0 <= ev_permits e) (channel p ++ retained p)
}.

Lemma permits_of_app a b : permits_of (a ++ b) = permits_of a + permits_of b.
Proof. induction a; simpl; [done|lia]. Qed.

Lemma permits_of_delete es i e :
  es !! i = Some e -> permits_of es = ev_permits e + permits_of (delete i es).
Proof.
  revert i. induction es as [|x es IH]; intros [|i]; simpl; try done.
  - by intros [= ->].
  - intros H. unfold delete in *. rewrite (IH i H) at 1. lia.
Qed.

Lemma permits_of_nonneg es : Forall (fun e => 0 <= ev_permits e) es -> 0 <= permits_of es.
Proof. induction 1; simpl; lia. Qed.

Lemma publisher_new_wf token i b :
  0 <= i -> 0 <= b -> publisher_wf i b (publisher_new token i b).
Proof. intros. constructor; simpl; try done; unfold U64_MAX; lia. Qed.

Lemma advance_Some c n : 0 <= c -> advance c = Some n -> n = c + 1 /\ n <= U64_MAX.
Proof. intros Hc [-> H]%checked_add_Some. lia. Qed.

(** What a turn of [publish] does: it refuses before reserving a number, or reserves the next
    one and either refuses or appends exactly one event. *)
Lemma publish_cases data len now p r p' :
  0 <= cursor p ->
  publish data len now p = (r, p') ->
  (exists e, r = Err e /\ p' = p) \/
  (exists e, r = Err e /\ p' = set_cursor (cursor p + 1) p /\ cursor p + 1 <= U64_MAX) \/
  (exists e, r = Ok tt /\ p' = sent_event e (set_cursor (cursor p + 1) p) /\
     cursor p + 1 <= U64_MAX /\ ev_sequence e = cursor p + 1 /\ ev_connection e = p_token p /\
     ev_encoded_bytes e = len /\ ev_permits e = len mod 2 ^ 32 /\ 1 <= items p /\
     ev_permits e <= bytes p /\ Z.of_nat (length (channel p)) < channel_capacity p /\
     consumer_alive p = true).
Proof.
  intros Hc. unfold publish. destruct (opt_filter _ _) as [ty|]; [|intros [= <- <-]; left; eauto].
  destruct (as_u64 _) as [it|]; [|intros [= <- <-]; left; eauto].
  destruct (negb _); [intros [= <- <-]; left; eauto|].
  destruct (advance _) as [n|] eqn:A; [|intros [= <- <-]; left; eauto].
  apply advance_Some in A as [-> Hn]; [|done]. cbv zeta. cbn [items bytes set_cursor].
  destruct (Z.ltb_spec (items p) 1); [intros [= <- <-]; right; left; eauto|].
  destruct (Z.ltb_spec (bytes p) (len mod 2 ^ 32)); [intros [= <- <-]; right; left; eauto|].
  unfold try_send. cbn [consumer_alive channel_capacity channel set_cursor].
  destruct (consumer_alive p); [|intros [= <- <-]; right; left; eauto]. simpl negb. cbv iota.
  destruct (Z.leb_spec (channel_capacity p) (Z.of_nat (length (channel p))));
    [intros [= <- <-]; right; left; eauto|].
  intros [= <- <-]. right; right. eexists. split_and!; try reflexivity; try done.
Qed.

Lemma publisher_publish_wf i b data len now p :
  publisher_wf i b p -> publisher_wf i b (snd (publish data len now p)).
Proof.
  intros W. destruct (publish data len now p) as [r p'] eqn:E. simpl.
  apply publish_cases in E; [|apply W].
  destruct E as [(e & _ & ->)|[(e & _ & -> & H)|(e & _ & -> & H & _ & _ & _ & P & I & B & _)]].
  - done.
  - destruct W. constructor; simpl; try done. lia.
  - destruct W. assert (0 <= ev_permits e) by (rewrite P; apply Z.mod_pos_bound; lia).
    constructor; simpl; try done; try lia.
    + rewrite !length_app in *. simpl. lia.
    + rewrite !permits_of_app in *. simpl. lia.
    + rewrite !Forall_app in *. rewrite Forall_singleton. tauto.
Qed.

Lemma incoming_wf i b m now p :
  publisher_wf i b p -> publisher_wf i b (snd (incoming m now p)).
Proof.
  intros W. unfold incoming.
  assert (forall c, publisher_wf i b (init_peer_close c p)) as C by (intros; by destruct W).
  destruct m as [| |[text| | |f|]]; simpl; auto.
  destruct (from_str text) as [frame|]; [|done]. destruct (_ || _); [done|].
  destruct (as_u64 _) as [op|]; [|done]. destruct (op =? 5); [|by repeat case_match].
  pose proof (publisher_publish_wf i b (index "d" frame) (str_len text) now p W).
  by destruct (publish _ _ _ _).
Qed.

Lemma recv_wf i b p : publisher_wf i b p -> publisher_wf i b (snd (recv p)).
Proof.
  intros W. unfold recv. destruct (channel p) as [|e evs] eqn:E; [done|].
  destruct W; rewrite E in *; constructor; simpl in *; try done.
  - rewrite !length_app in *. simpl. lia.
  - rewrite !permits_of_app in *. simpl. lia.
  - apply Forall_cons in wf_permits0 as [? ?]. by rewrite app_assoc, Forall_app, Forall_singleton.
Qed.

Lemma consumer_drop_wf i b n p : publisher_wf i b p -> publisher_wf i b (drop_event n p).
Proof.
  intros W. unfold drop_event. destruct (retained p !! n) as [e|] eqn:E; [|done].
  pose proof (length_delete _ _ (mk_is_Some _ _ E)) as L. pose proof (permits_of_delete _ _ _ E) as Q.
  pose proof (lookup_lt_Some _ _ _ E).
  destruct W. apply Forall_app in wf_permits0 as [F1 F2].
  assert (0 <= ev_permits e) by (by eapply Forall_lookup_1 in F2; [|exact E]).
  constructor; simpl in *; try done; try lia.
  - rewrite !length_app in *. rewrite L. lia.
  - rewrite !permits_of_app in *. lia.
  - apply Forall_app. split; [done|]. by apply Forall_delete.
Qed.

Lemma release_all es p :
  let q := foldr release p es in
  items q = items p + Z.of_nat (length es) /\ bytes q = bytes p + permits_of es /\
  channel q = channel p /\ retained q = retained p /\ cursor q = cursor p /\
  channel_capacity q = channel_capacity p.
Proof.
  induction es as [|e es IH]; cbv zeta in *; simpl; [split_and!; try done; lia|].
  destruct IH as (-> & -> & ?). split_and!; try lia; tauto.
Qed.

Lemma close_receiver_wf i b p : publisher_wf i b p -> publisher_wf i b (close_receiver p).
Proof.
  intros W. unfold close_receiver.
  destruct (release_all (channel p) (set_channel [] (retained p) false p))
    as (A & B & C & D & F & G). simpl in *. destruct W.
  pose proof wf_permits0 as [F1 F2]%Forall_app. pose proof (permits_of_nonneg _ F1).
  rewrite length_app, permits_of_app in *.
  constructor; rewrite ?A, ?B, ?C, ?D, ?F, ?G; simpl; try done; lia.
Qed.

(** ** Histories *)

Inductive Op :=
| Read (m : Item) (now : Z)     (* the socket owner reads one item, while it runs *)
| Recv                          (* the consumer takes an event *)
| DropEvent (i : nat)           (* the consumer drops one it holds *)
| CloseReceiver.

Record Feed := {
  publisher : Publisher;
  failure : option Invalidation;      (* why the owner stopped reading *)
  accepted : list ObsEvent;           (* events the channel took, in order *)
  delivered : list ObsEvent           (* events the consumer took, in order *)
}.

Definition feed_new (token event_items event_bytes : Z) : Feed :=
  {| publisher := publisher_new token event_items event_bytes; failure := None;
     accepted := []; delivered := [] |}.

Definition feed_op (op : Op) (f : Feed) : Feed :=
  match op with
  | Read m now =>
      match failure f with
      | Some _ => f
      | None =>
          let '(r, p) := incoming m now (publisher f) in
          {| publisher := p;
             failure := match r with Err e => Some e | Ok _ => None end;
             accepted := accepted f ++ drop (length (channel (publisher f))) (channel p);
             delivered := delivered f |}
      end
  | Recv =>
      let '(e, p) := recv (publisher f) in
      {| publisher := p; failure := failure f; accepted := accepted f;
         delivered := delivered f ++ match e with Some e => [e] | None => [] end |}
  | DropEvent i =>
      {| publisher := drop_event i (publisher f); failure := failure f; accepted := accepted f;
         delivered := delivered f |}
  | CloseReceiver =>
      {| publisher := close_receiver (publisher f); failure := failure f;
         accepted := accepted f; delivered := delivered f |}
  end.

Definition feed_ops (ops : list Op) (f : Feed) : Feed := fold_left (fun f op => feed_op op f) ops f.

Record feed_wf (event_items event_bytes : Z) (f : Feed) : Prop := {
  feed_publisher : publisher_wf event_items event_bytes (publisher f);
  feed_sequence : map ev_sequence (accepted f) = seqZ 1 (Z.of_nat (length (accepted f)));
  feed_cursor : failure f = None -> cursor (publisher f) = Z.of_nat (length (accepted f));
  feed_bound : Z.of_nat (length (accepted f)) <= cursor (publisher f);
  feed_open : consumer_alive (publisher f) = true ->
    accepted f = delivered f ++ channel (publisher f);
  feed_prefix : delivered f `prefix_of` accepted f;
  feed_closed : consumer_alive (publisher f) = false -> channel (publisher f) = []
}.

(** What reading one item does to the channel *)
Lemma incoming_cases m now p r p' :
  0 <= cursor p -> incoming m now p = (r, p') ->
  consumer_alive p' = consumer_alive p /\
  ((channel p' = channel p /\ (cursor p' = cursor p \/ cursor p' = cursor p + 1 /\ is_ok r = false)) \/
   (exists e, channel p' = channel p ++ [e] /\ ev_sequence e = cursor p + 1 /\
      cursor p' = cursor p + 1 /\ is_ok r = true /\ consumer_alive p = true)).
Proof.
  intros Hc. unfold incoming. destruct m as [| |[text| | |f|]]; try (intros [= <- <-]; simpl; tauto).
  destruct (from_str text) as [frame|]; [|intros [= <- <-]; simpl; tauto].
  destruct (_ || _); [intros [= <- <-]; simpl; tauto|].
  destruct (as_u64 _) as [op|]; [|intros [= <- <-]; simpl; tauto].
  destruct (op =? 5); [|repeat case_match; intros [= <- <-]; simpl; tauto].
  destruct (publish _ _ _ _) as [q p1] eqn:E. intros [= <- <-].
  apply publish_cases in E; [|done].
  destruct E as [(e & -> & ->)|[(e & -> & -> & _)|(e & -> & -> & _ & S & _ & _ & _ & _ & _ & _ & A)]];
    simpl; [tauto|tauto|]. split; [done|]. right. exists e. done.
Qed.

Lemma feed_new_wf token i b : 0 <= i -> 0 <= b -> feed_wf i b (feed_new token i b).
Proof. intros. constructor; simpl; try done; by apply publisher_new_wf. Qed.

Lemma feed_read_wf i b m now f : feed_wf i b f -> feed_wf i b (feed_op (Read m now) f).
Proof.
  intros W. simpl. destruct (failure f) eqn:F; [done|].
  pose proof (incoming_wf i b m now _ (feed_publisher _ _ _ W)) as PW.
  destruct (incoming m now (publisher f)) as [r p] eqn:E. simpl in PW.
  apply incoming_cases in E as (A & C); [|apply W]. destruct W.
  specialize (feed_cursor0 F).
  destruct C as [[C D]|(e & C & S & D & R & L)].
  - rewrite C, drop_all, app_nil_r. constructor; simpl; rewrite ?A, ?C; try done; try lia.
    intros Hr. destruct D as [->|[_ D]]; [done|]. destruct r; done.
  - rewrite C, drop_app_length. constructor; simpl; rewrite ?A, ?C; try done.
    + rewrite map_app, length_app, feed_sequence0. simpl. rewrite S, feed_cursor0.
      rewrite Nat2Z.inj_add, seqZ_app by lia. f_equal. simpl.
      by rewrite seqZ_cons, (Z.add_comm 1) by lia.
    + rewrite length_app. simpl. lia.
    + rewrite length_app. simpl. lia.
    + intros K. rewrite (feed_open0 K), app_assoc. done.
    + by apply prefix_app_r.
    + congruence.
Qed.

Lemma feed_op_wf i b op f : feed_wf i b f -> feed_wf i b (feed_op op f).
Proof.
  destruct op as [m now| |n|]; [apply feed_read_wf|..]; intros W.
  - pose proof (recv_wf i b _ (feed_publisher _ _ _ W)) as PW. simpl. unfold recv in *.
    destruct (channel (publisher f)) as [|e evs] eqn:E; simpl in *.
    + rewrite app_nil_r. by destruct W; constructor; simpl.
    + destruct W. destruct (consumer_alive (publisher f)) eqn:A; [|by rewrite feed_closed0 in E].
      rewrite feed_open0, E in * by done.
      constructor; simpl; rewrite ?A; try done. 
      * intros _. by rewrite <- app_assoc.
      * exists evs. by rewrite <- app_assoc.
  - destruct W. constructor; simpl; try done; [by apply consumer_drop_wf|..];
      unfold drop_event; destruct (retained _ !! n); done.
  - destruct W. pose proof (close_receiver_wf i b _ feed_publisher0) as PW.
    assert (forall es q, consumer_alive (foldr release q es) = consumer_alive q) as A.
    { by induction es. }
    destruct (release_all (channel (publisher f))
                (set_channel [] (retained (publisher f)) false (publisher f)))
      as (_ & _ & C & _ & G & _).
    constructor; simpl; try done; unfold close_receiver in *; rewrite ?A, ?C, ?G; done.
Qed.

Lemma feed_ops_wf i b ops : forall f, feed_wf i b f -> feed_wf i b (feed_ops ops f).
Proof. induction ops as [|op ops IH]; intros f W; simpl; [done|]. by apply IH, feed_op_wf. Qed.

(** Whatever the peer sends and however the consumer behaves, the events it is given carry
    the sequence numbers 1, 2, 3, ... without a gap, repeat or reorder, and while the session
    runs the shared cursor is exactly the number of events handed to the channel, so a reply
    can never overtake an earlier event; every event held, queued or delivered, keeps its item
    and byte permits until it is dropped, and the channel never holds more than its budgets. *)
Theorem events_gapless token event_items event_bytes ops :
  0 <= event_items -> 0 <= event_bytes ->
  let f := feed_ops ops (feed_new token event_items event_bytes) in
  let p := publisher f in
  map ev_sequence (delivered f) = seqZ 1 (Z.of_nat (length (delivered f))) /\
  (failure f = None -> consumer_alive p = true ->
   cursor p = Z.of_nat (length (delivered f) + length (channel p))) /\
  items p = event_items - Z.of_nat (length (channel p ++ retained p)) /\
  bytes p = event_bytes - permits_of (channel p ++ retained p) /\
  0 <= items p /\ 0 <= bytes p.
Proof.
  intros Hi Hb f p. subst p. pose proof (feed_ops_wf _ _ ops _ (feed_new_wf token _ _ Hi Hb)) as W.
  fold f in W. destruct W as [[] Sq C B O P _]. split_and!; try done; try lia.
  - destruct P as [k E]. rewrite E, map_app, length_app, Nat2Z.inj_add in Sq.
    rewrite seqZ_app in Sq by lia. apply app_inj_1 in Sq as [Sq _]; [done|].
    by rewrite length_map, length_seqZ, Nat2Z.id.
  - intros F A. rewrite (C F), (O A), length_app. done.
Qed.
End Incoming.

(** Two events in, one taken and dropped: one number each, one permit still out. *)
Lemma events_gapless_witness :
  let from_str (s : string) :=
    Some (Object [("d", Object [("eventIntent", Num (PosInt 4)); ("eventType", Str s)]);
                  ("op", Num (PosInt 5))])%string in
  let ops := [Read (Received (Text "SceneChanged")) 7; Read (Received (Text "Vendor")) 9;
              Recv; DropEvent 0] in
  let f := feed_ops from_str ops (feed_new 1 2 64) in
  map ev_sequence (delivered f) = [1] /\ cursor (publisher f) = 2 /\
  0 <= bytes (publisher f).
Proof.
  intros from_str ops f.
  destruct (events_gapless from_str 1 2 64 ops ltac:(lia) ltac:(lia)) as (S & _ & _ & _ & _ & B).
  split; [exact S|]. split; [vm_compute; reflexivity|exact B].
Defined.
