(* ===== verification/Actor.v ===== *)
(** * Actor

    The socket owner of [native/src/session.rs]: [actor], [drive], [send_active] and what they
    call.  Commands wait in three queues, one per lane; at most one command of each lane is
    active on the socket; one complete frame is written at a time; every command leaves by
    [finish].  The code is a set of [select!] loops, so an [Input] names the branch that is
    taken, with the clock readings and the states of the reply channels it sees, and [step]
    does what that branch does; an input the loop does not listen for has no step.  The
    biased order of the branches is kept where it chooses between queues. *)
From S2P Require Import Prelude Json Dispatch Replies Incoming.

Definition slot_of (l : Lane) : nat :=
  match l with NormalLane => 0 | OwnedStopLane => 1 | SafetyStopLane => 2 end.

Record Command := {
  expected : Z;
  kind : CommandKind;
  request_id : string;
  wire : string;
  flushed : bool;
  deadline : Z
}.

(** [std::mem::take(&mut command.wire)], and [command.flushed = true] *)
Definition take_wire (c : Command) : Command :=
  {| expected := expected c; kind := kind c; request_id := request_id c; wire := EmptyString;
     flushed := flushed c; deadline := deadline c |}.
Definition flush (c : Command) : Command :=
  {| expected := expected c; kind := kind c; request_id := request_id c; wire := wire c;
     flushed := true; deadline := deadline c |}.

Definition request_id_of (token sequence : Z) : string :=
  pretty (Z.to_N token) +:+ ":" +:+ pretty (Z.to_N sequence).

Notation ActiveCommands := (list (option Command)).

(** What [prepare_dispatch] reads as it runs: the clock, the command's atomic state and reply
    channel, the verdict of its guard, the commands in flight, and the outcome of the claim *)
Record Seen := {
  first_now : Z;
  first_closed : bool;
  first_state : Z;
  verdict : result string unit;
  second_now : Z;
  companion_now : string -> Z;
  companion_closed : string -> bool;
  claimed : bool;
  last_closed : bool
}.

Fixpoint busy (seen : Seen) (companions : ActiveCommands) : option Invalidation :=
  match companions with
  | [] => None
  | None :: rest => busy seen rest
  | Some other :: rest =>
      if deadline other <=? companion_now seen (request_id other)
      then Some DeadlineAfterDispatch
      else if companion_closed seen (request_id other) then Some CancelledAfterDispatch
      else busy seen rest
  end.

Definition prepare_dispatch (seen : Seen) (command : Command) (token : Z)
  (companions : ActiveCommands) : option BeforeDispatch :=
  if negb (expected command =? token) then Some StaleConnection
  else if deadline command <=? first_now seen then Some Deadline
  else if first_closed seen || negb (first_state seen =? QUEUED) then Some Cancelled
  else
    match verdict seen with
    | Err reason => Some (GuardRefused reason)
    | Ok _ =>
        if deadline command <=? second_now seen then Some Deadline
        else
          match busy seen companions with
          | Some reason => Some (Closed reason)
          | None => if negb (claimed seen) || last_closed seen then Some Cancelled else None
          end
    end.

(** [active.iter().flatten()] *)
Definition flatten (active : ActiveCommands) : list Command := omap id active.

(** the earliest deadline of the commands in flight *)
Definition active_deadline (active : ActiveCommands) : option Z :=
  match map deadline (flatten active) with
  | [] => None
  | d :: ds => Some (fold_left Z.min ds d)
  end.

Definition is_observation (k : CommandKind) : bool :=
  match k with Observation _ => true | _ => false end.

Section Actor.
Context {P : Type} (capture : string -> Value -> Z -> P).
Context (from_str : string -> option Value).

Notation R := (result RequestError (ReplyData P)).

Inductive Phase :=
| Idle                                        (* [actor]'s select *)
| Sending (slot : nat) (early : option R)     (* [send_active]'s select *)
| Looping                                     (* the top of [drive]'s loop *)
| Selecting                                   (* [drive]'s select *)
| Closing (reason : Invalidation).            (* [actor] after its loop *)

Record Actor := {
  token : Z;
  sequence : Z;
  normal : list Command;
  stop : list Command;
  safety : list Command;
  senders : bool;                 (* some handle still holds the senders *)
  stopping : bool;
  active : ActiveCommands;
  phase : Phase;
  feed : Publisher;
  admitted : list string;         (* ids put into a queue, in order *)
  started : list Command;         (* frames handed to the sink, in order *)
  heard : list (bool * Value * string);    (* responses read, in order *)
  finished : list (Command * R)   (* [finish] calls, in order *)
}.

(** [route_response]: the deferred result, the commands still active, the ones finished *)
Definition answers (id : option string) (c : option Command) : bool :=
  is_some_and c (fun c => is_some_and id (str_eqb (request_id c))).

Definition select_slot (id : option string) (active : ActiveCommands) : option nat :=
  or_else (position (answers id) active)
    (or_else (position (fun c => is_some_and c (fun c =>
                                   bool_decide (lane (kind c) = NormalLane))) active)
       (position (fun c => negb (is_none c)) active)).

Definition route_response (i : Incoming) (active : ActiveCommands) (defer_slot : option nat)
  : result Invalidation (option R * ActiveCommands * list (Command * R)) :=
  match i with
  | Other => Ok (None, active, [])
  | Response batch data raw =>
      let id := as_str (index "requestId" data) in
      if negb batch && negb (existsb (answers id) active) then Ok (None, active, [])
      else
        match select_slot id active with
        | None => Ok (None, active, [])
        | Some slot =>
            match active !! slot with
            | Some (Some c) =>
                let? r := response capture data (kind c) (request_id c) (deadline c) batch raw in
                match r with
                | None => Ok (None, active, [])
                | Some result =>
                    if bool_decide (defer_slot = Some slot) then Ok (Some result, active, [])
                    else Ok (None, <[slot := None]> active, [(c, result)])
                end
            | _ => Ok (None, active, [])
            end
        end
  end.

(** [retire_observations], with the clock and the closed replies it reads *)
Definition retire_reason (now : Z) (closed : string -> bool) (c : Command) : option Invalidation :=
  if negb (flushed c) || negb (is_observation (kind c)) then None
  else if deadline c <=? now then Some DeadlineAfterDispatch
  else if closed (request_id c) then Some CancelledAfterDispatch
  else None.

Fixpoint retire_observations (now : Z) (closed : string -> bool) (active : ActiveCommands)
  : ActiveCommands * list (Command * R) :=
  match active with
  | [] => ([], [])
  | slot :: rest =>
      let '(rest, gone) := retire_observations now closed rest in
      match slot with
      | Some c =>
          match retire_reason now closed c with
          | Some reason => (None :: rest, (c, Err (Unknown reason)) :: gone)
          | None => (Some c :: rest, gone)
          end
      | None => (None :: rest, gone)
      end
  end.

(** [unknown_active] *)
Definition unknown_active (reason : Invalidation) (active : ActiveCommands)
  : ActiveCommands * list (Command * R) :=
  (map (fun _ => None) active, map (fun c => (c, Err (Unknown reason))) (flatten active)).

Definition set_phase (ph : Phase) (a : Actor) : Actor :=
  {| token := token a; sequence := sequence a; normal := normal a; stop := stop a;
     safety := safety a; senders := senders a; stopping := stopping a; active := active a;
     phase := ph; feed := feed a; admitted := admitted a; started := started a;
     heard := heard a; finished := finished a |}.

(** new active commands, and the commands that finished *)
Definition settle (act : ActiveCommands) (gone : list (Command * R)) (a : Actor) : Actor :=
  {| token := token a; sequence := sequence a; normal := normal a; stop := stop a;
     safety := safety a; senders := senders a; stopping := stopping a; active := act;
     phase := phase a; feed := feed a; admitted := admitted a; started := started a;
     heard := heard a; finished := finished a ++ gone |}.

Definition set_queues (n st sa : list Command) (a : Actor) : Actor :=
  {| token := token a; sequence := sequence a; normal := n; stop := st;
     safety := sa; senders := senders a; stopping := stopping a; active := active a;
     phase := phase a; feed := feed a; admitted := admitted a; started := started a;
     heard := heard a; finished := finished a |}.

Definition set_feed (p : Publisher) (new : list (bool * Value * string)) (a : Actor) : Actor :=
  {| token := token a; sequence := sequence a; normal := normal a; stop := stop a;
     safety := safety a; senders := senders a; stopping := stopping a; active := active a;
     phase := phase a; feed := p; admitted := admitted a; started := started a;
     heard := heard a ++ new; finished := finished a |}.

Definition set_flags (alive stopped : bool) (n : Z) (a : Actor) : Actor :=
  {| token := token a; sequence := n; normal := normal a; stop := stop a;
     safety := safety a; senders := alive; stopping := stopped; active := active a;
     phase := phase a; feed := feed a; admitted := admitted a; started := started a;
     heard := heard a; finished := finished a |}.

(** a command joins the active ones and its frame goes to the sink *)
Definition start (slot : nat) (c : Command) (a : Actor) : Actor :=
  {| token := token a; sequence := sequence a; normal := normal a; stop := stop a;
     safety := safety a; senders := senders a; stopping := stopping a;
     active := <[slot := Some (take_wire c)]> (active a);
     phase := Sending slot None; feed := feed a; admitted := admitted a;
     started := started a ++ [c]; heard := heard a; finished := finished a |}.

Definition enqueue (l : Lane) (c : Command) (a : Actor) : Actor :=
  {| token := token a; sequence := sequence a;
     normal := if decide (l = NormalLane) then normal a ++ [c] else normal a;
     stop := if decide (l = OwnedStopLane) then stop a ++ [c] else stop a;
     safety := if decide (l = SafetyStopLane) then safety a ++ [c] else safety a;
     senders := senders a; stopping := stopping a; active := active a;
     phase := phase a; feed := feed a; admitted := admitted a ++ [request_id c];
     started := started a; heard := heard a; finished := finished a |}.

(** the loops end: [drive] settles what is active before [actor] breaks *)
Definition fail (reason : Invalidation) (a : Actor) : Actor :=
  let '(act, gone) := unknown_active reason (active a) in
  set_phase (Closing reason) (settle act gone a).

(** [next_command]: the first queue that is ready, of stop, safety, normal; a queue without
    senders is ready when empty too, and yields none. *)
Definition next_command (a : Actor) : option (option Command * Actor) :=
  match stop a, safety a, normal a with
  | c :: st, sa, n => Some (Some c, set_queues n st sa a)
  | [], sa, n =>
      if negb (senders a) then Some (None, a)
      else
        match sa, n with
        | c :: sa, n => Some (Some c, set_queues n [] sa a)
        | [], c :: n => Some (Some c, set_queues n [] [] a)
        | [], [] => None
        end
  end.

Definition next_control (admit_owned admit_safety : bool) (a : Actor)
  : option (nat * option Command * Actor) :=
  let owned :=
    if admit_owned then
      match stop a with
      | c :: st => Some (1%nat, Some c, set_queues (normal a) st (safety a) a)
      | [] => if negb (senders a) then Some (1%nat, None, a) else None
      end
    else None in
  match owned with
  | Some x => Some x
  | None =>
      if admit_safety then
        match safety a with
        | c :: sa => Some (2%nat, Some c, set_queues (normal a) (stop a) sa a)
        | [] => if negb (senders a) then Some (2%nat, None, a) else None
        end
      else None
  end.

(** ** The branches *)

Inductive Input :=
| Admit (k : CommandKind) (wire : string) (deadline : Z)  (* a handle enqueues a request *)
| Skip                                      (* a handle reserves a number and then refuses *)
| DropSenders
| Stop
| ConsumerRecv
| ConsumerDrop (i : nat)
| ConsumerClose
| Stopping                                                (* [stopping.changed()] *)
| ConsumerGone                                            (* [publisher.sender.closed()] *)
| Next (m : Item) (now : Z)                               (* [stream.next()] *)
| Command_ (seen : Seen)                                  (* [next_command] *)
| Sent (ok : bool)                                        (* the send and flush end *)
| Turn (now : Z) (closed : string -> bool)                (* the top of [drive]'s loop *)
| Elapsed (fired now : Z) (closed : string -> bool)       (* [sleep_until(deadline)] *)
| ReplyClosed (id : string) (now : Z) (closed : string -> bool)  (* [active_closed] *)
| Control (now : Z) (closed : string -> bool) (seen : Seen)      (* [next_control] *)
| Drain.                                                  (* one [recv] after the loop *)

Definition is_closing (a : Actor) : bool :=
  match phase a with Closing _ => true | _ => false end.

(** An item of the stream, in each of the three selects *)
Definition on_item (m : Item) (now : Z) (a : Actor) : option Actor :=
  let '(r, p) := incoming from_str m now (feed a) in
  let a := set_feed p match r with Ok (Response b d t) => [(b, d, t)] | _ => [] end a in
  match phase a with
  | Idle =>
      Some match r with
           | Ok (Response true _ _) => set_phase (Closing ResponseIdentityMismatch) a
           | Ok _ => a
           | Err reason => set_phase (Closing reason) a
           end
  | Sending slot early =>
      Some match (let? i := r in route_response i (active a) (Some slot)) with
           | Err reason => fail reason a
           | Ok (deferred, act, gone) =>
               let early := match early with Some e => Some e | None => deferred end in
               set_phase (Sending slot early) (settle act gone a)
           end
  | Selecting =>
      Some match (let? i := r in route_response i (active a) None) with
           | Err reason => fail reason a
           | Ok (_, act, gone) => set_phase Looping (settle act gone a)
           end
  | Looping | Closing _ => None
  end.

(** The frame is written and flushed, or the sink failed. *)
Definition on_sent (ok : bool) (a : Actor) : option Actor :=
  match phase a with
  | Sending slot early =>
      if negb ok then Some (fail SocketWriteFailed a)
      else
        match active a !! slot with
        | Some (Some c) =>
            let c := flush c in
            Some (set_phase Looping
                    match early with
                    | Some r => settle (<[slot := None]> (active a)) [(c, r)] a
                    | None => settle (<[slot := Some c]> (active a)) [] a
                    end)
        | _ => None
        end
  | _ => None
  end.

Definition on_command (seen : Seen) (a : Actor) : option Actor :=
  match phase a with
  | Idle =>
      match next_command a with
      | None => None
      | Some (None, a) => Some (set_phase (Closing Shutdown) a)
      | Some (Some c, a) =>
          Some match prepare_dispatch seen c (token a) [] with
               | Some refusal => settle (active a) [(c, Err (NotSent refusal))] a
               | None => start (slot_of (lane (kind c))) c a
               end
      end
  | _ => None
  end.

Definition on_turn (now : Z) (closed : string -> bool) (a : Actor) : option Actor :=
  match phase a with
  | Looping =>
      let '(act, gone) := retire_observations now closed (active a) in
      let a := settle act gone a in
      Some (set_phase (if forallb is_none act then Idle else Selecting) a)
  | _ => None
  end.

(** [drive]'s deadline and closed branches: only a flushed observation expires alone. *)
Definition on_expiry (reason : Invalidation) (now : Z) (closed : string -> bool) (a : Actor)
  : option Actor :=
  match phase a with
  | Sending _ _ => Some (fail reason a)
  | Selecting =>
      let '(act, gone) := retire_observations now closed (active a) in
      Some match gone with
           | [] => fail reason a
           | _ :: _ => set_phase Looping (settle act gone a)
           end
  | _ => None
  end.

Definition on_control (now : Z) (closed : string -> bool) (seen : Seen) (a : Actor)
  : option Actor :=
  match phase a with
  | Selecting =>
      let free i := match active a !! i with Some None => true | _ => false end in
      match next_control (free 1%nat) (free 2%nat) a with
      | None => None
      | Some (_, None, a) => Some (fail Shutdown a)
      | Some (slot, Some c, a) =>
          let '(act, gone) := retire_observations now closed (active a) in
          let a := settle act gone a in
          Some match prepare_dispatch seen c (token a) (active a) with
               | Some refusal =>
                   set_phase Looping (settle (active a) [(c, Err (NotSent refusal))] a)
               | None => start slot c a
               end
      end
  | _ => None
  end.

Definition on_drain (a : Actor) : option Actor :=
  match phase a with
  | Closing reason =>
      let refuse c a := settle (active a) [(c, Err (NotSent (Closed reason)))] a in
      match safety a, stop a, normal a with
      | c :: sa, st, n => Some (refuse c (set_queues n st sa a))
      | [], c :: st, n => Some (refuse c (set_queues n st [] a))
      | [], [], c :: n => Some (refuse c (set_queues n [] [] a))
      | [], [], [] => None
      end
  | _ => None
  end.

Definition step (i : Input) (a : Actor) : option Actor :=
  match i with
  | Admit k w d =>
      if is_closing a || negb (senders a) then None
      else
        n ← advance (sequence a);
        Some (enqueue (lane k)
                {| expected := token a; kind := k; request_id := request_id_of (token a) n;
                   wire := w; flushed := false; deadline := d |}
                (set_flags (senders a) (stopping a) n a))
  | Skip =>
      n ← advance (sequence a);
      Some (set_flags (senders a) (stopping a) n a)
  | DropSenders => Some (set_flags false (stopping a) (sequence a) a)
  | Stop => Some (set_flags (senders a) true (sequence a) a)
  | ConsumerRecv => Some (set_feed (snd (recv (feed a))) [] a)
  | ConsumerDrop n => Some (set_feed (drop_event n (feed a)) [] a)
  | ConsumerClose => Some (set_feed (close_receiver (feed a)) [] a)
  | Stopping =>
      match stopping a, phase a with
      | false, _ | _, Looping | _, Closing _ => None
      | true, Idle => Some (set_phase (Closing Shutdown) a)
      | true, _ => Some (fail Shutdown a)
      end
  | ConsumerGone =>
      match consumer_alive (feed a), phase a with
      | true, _ | _, Looping | _, Closing _ => None
      | false, Idle => Some (set_phase (Closing EventConsumerDropped) a)
      | false, _ => Some (fail EventConsumerDropped a)
      end
  | Next m now => on_item m now a
  | Command_ seen => on_command seen a
  | Sent ok => on_sent ok a
  | Turn now closed => on_turn now closed a
  | Elapsed fired now closed =>
      if is_some_and (active_deadline (active a)) (fun d => d <=? fired) && (fired <=? now)
      then on_expiry DeadlineAfterDispatch now closed a
      else None
  | ReplyClosed id now closed =>
      if existsb (answers (Some id)) (active a) && closed id
      then on_expiry CancelledAfterDispatch now closed a
      else None
  | Control now closed seen => on_control now closed seen a
  | Drain => on_drain a
  end.

Fixpoint run (inputs : list Input) (a : Actor) : option Actor :=
  match inputs with
  | [] => Some a
  | i :: inputs => a ← step i a; run inputs a
  end.

Definition actor_new (tok event_items event_bytes : Z) : Actor :=
  {| token := tok; sequence := 0; normal := []; stop := []; safety := []; senders := true;
     stopping := false; active := [None; None; None]; phase := Idle;
     feed := publisher_new tok event_items event_bytes; admitted := []; started := [];
     heard := []; finished := [] |}.

(** ** Bookkeeping *)

Definition ids (cs : list Command) : list string := map request_id cs.
Definition queued (a : Actor) : list Command := normal a ++ stop a ++ safety a.
Definition reached (x : Command * R) : bool := negb (is_not_sent (snd x)).

Record core (a : Actor) : Prop := {
  core_len : length (active a) = 3%nat;
  core_slots : forall i c, active a !! i = Some (Some c) ->
    slot_of (lane (kind c)) = i /\ expected c = token a;
  core_queues : Forall (fun c => lane (kind c) = NormalLane) (normal a) /\
    Forall (fun c => lane (kind c) = OwnedStopLane) (stop a) /\
    Forall (fun c => lane (kind c) = SafetyStopLane) (safety a);
  core_fresh : Forall (fun c => flushed c = false /\ expected c = token a) (queued a);
  core_account : Permutation (ids (queued a) ++ ids (flatten (active a)) ++
                              ids (map fst (finished a))) (admitted a);
  core_nodup : NoDup (admitted a);
  core_sequence : 0 <= sequence a;
  core_numbers : forall id, In id (admitted a) ->
    exists k, 1 <= k <= sequence a /\ id = request_id_of (token a) k;
  core_started : Permutation (ids (started a))
    (ids (flatten (active a)) ++ ids (map fst (List.filter reached (finished a))))
}.

(** [act] is [before] with the commands of [gone] taken out *)
Record removes (before act : ActiveCommands) (gone : list Command) : Prop := {
  removes_len : length act = length before;
  removes_perm : Permutation (flatten before) (flatten act ++ gone);
  removes_slots : forall i c, act !! i = Some (Some c) -> before !! i = Some (Some c)
}.

Lemma flatten_cons x act :
  flatten (x :: act) = match x with Some c => c :: flatten act | None => flatten act end.
Proof. by destruct x. Qed.

Lemma flatten_take act i c :
  act !! i = Some (Some c) -> Permutation (flatten act) (c :: flatten (<[i := None]> act)).
Proof.
  revert i. induction act as [|x act IH]; intros [|i]; simpl; try done.
  - intros [= ->]. done.
  - intros H. destruct x as [d|]; [|by apply IH].
    rewrite (IH i H). apply perm_swap.
Qed.

Lemma flatten_put act i c :
  act !! i = Some None -> Permutation (flatten (<[i := Some c]> act)) (c :: flatten act).
Proof.
  intros H. assert (<[i := Some c]> act !! i = Some (Some c)) as E
    by (apply list_lookup_insert_eq; by eapply lookup_lt_Some).
  apply flatten_take in E. by rewrite list_insert_insert_eq, (list_insert_id act i None) in E.
Qed.

Lemma in_flatten act c : In c (flatten act) <-> exists i, act !! i = Some (Some c).
Proof.
  rewrite <- list_elem_of_In. unfold flatten. rewrite list_elem_of_omap. split.
  - intros (x & Hx & E). apply list_elem_of_lookup in Hx as [i Hi]. simpl in E. subst x. eauto.
  - intros [i Hi]. exists (Some c). split; [|done]. by apply list_elem_of_lookup_2 in Hi.
Qed.

Lemma removes_refl act : removes act act [].
Proof. by constructor; rewrite ?app_nil_r. Qed.

Lemma removes_one act i c : act !! i = Some (Some c) -> removes act (<[i := None]> act) [c].
Proof.
  intros H. constructor.
  - by rewrite length_insert.
  - rewrite (flatten_take _ _ _ H). apply Permutation_cons_append.
  - intros j d. destruct (decide (i = j)) as [<-|]; [|by rewrite list_lookup_insert_ne].
    rewrite list_lookup_insert_eq; [done|]. by eapply lookup_lt_Some.
Qed.

Lemma retire_removes now closed act :
  removes act (fst (retire_observations now closed act))
    (map fst (snd (retire_observations now closed act))).
Proof.
  induction act as [|x act IH]; simpl; [apply removes_refl|].
  destruct (retire_observations now closed act) as [rest gone]. simpl in IH. destruct IH.
  destruct x as [c|]; [destruct (retire_reason now closed c) as [reason|]|]; simpl; constructor; simpl;
    rewrite ?flatten_cons; try lia; try done.
  - rewrite removes_perm0. by rewrite Permutation_middle.
  - intros [|i] d; simpl; [done|apply removes_slots0].
  - by rewrite removes_perm0.
  - intros [|i] d; simpl; [done|apply removes_slots0].
  - intros [|i] d; simpl; [done|apply removes_slots0].
Qed.

Lemma retire_gone now closed act c r :
  In (c, r) (snd (retire_observations now closed act)) ->
  exists reason, r = Err (Unknown reason) /\ flushed c = true /\ is_observation (kind c) = true /\
    (reason = DeadlineAfterDispatch \/ reason = CancelledAfterDispatch).
Proof.
  induction act as [|x act IH]; simpl; [done|].
  destruct (retire_observations now closed act) as [rest gone]. simpl in IH.
  destruct x as [d|]; [|done]. destruct (retire_reason now closed d) as [reason|] eqn:E; [|done].
  simpl. intros [[= <- <-]|H]; [|auto]. exists reason. split; [done|].
  unfold retire_reason in E. destruct (flushed d); [|done]. destruct (is_observation _); [|done].
  simpl in E. repeat case_match; simplify_eq; auto.
Qed.

Lemma unknown_removes reason act :
  removes act (fst (unknown_active reason act)) (map fst (snd (unknown_active reason act))).
Proof.
  assert (flatten (map (fun _ => None) act) = []) as E by (by induction act).
  constructor; simpl.
  - apply length_map.
  - rewrite E, map_map. simpl. by rewrite map_id.
  - intros i c H. apply list_lookup_fmap_Some in H as (? & ? & ?). done.
Qed.

Lemma unknown_none reason act : Forall (eq None) (fst (unknown_active reason act)).
Proof. simpl. by induction act; constructor. Qed.

Lemma response_reached data k id dl batch raw r :
  response capture data k id dl batch raw = Ok (Some r) ->
  is_not_sent r = false /\ is_unknown r = false /\ as_str (index "requestId" data) = Some id.
Proof.
  assert (forall o : option string, negb (is_some_and o (str_eqb id)) = false -> o = Some id) as Q.
  { intros [x|]; simpl; [|done]. intros H%negb_false_iff%str_eqb_eq. by subst. }
  unfold response, batch_response.
  destruct k, batch; simpl; try done;
    (destruct (negb _) eqn:E; [done|apply Q in E]);
    repeat (match goal with |- context [ok_or ?o _] => destruct o end; simpl; try done);
    try (destruct (batch_results _ _ _); simpl; try done);
    try (destruct (negb _) eqn:?; [done|]);
    try (destruct (_ && _); [done|]); intros [= <-]; repeat case_match; simplify_eq; done.
Qed.

Lemma list_filter_all {A} (p : A -> bool) l :
  Forall (fun x => p x = true) l -> List.filter p l = l.
Proof. induction 1 as [|x l H _ IH]; simpl; [done|]. by rewrite H, IH. Qed.

(** A response among [hs] says [r] to [c]. *)
Definition justified (hs : list (bool * Value * string)) (c : Command) (r : R) : Prop :=
  exists batch data raw, In (batch, data, raw) hs /\
    as_str (index "requestId" data) = Some (request_id c) /\
    response capture data (kind c) (request_id c) (deadline c) batch raw = Ok (Some r).

Lemma route_spec i act defer d act' gone :
  route_response i act defer = Ok (d, act', gone) ->
  removes act act' (map fst gone) /\
  (forall c r, In (c, r) gone -> exists batch data raw, i = Response batch data raw /\
     is_not_sent r = false /\ is_unknown r = false /\
     justified [(batch, data, raw)] c r) /\
  (forall r, d = Some r -> exists slot c batch data raw, defer = Some slot /\
     act !! slot = Some (Some c) /\ i = Response batch data raw /\
     justified [(batch, data, raw)] c r) /\
  (forall slot, defer = Some slot -> act' !! slot = act !! slot).
Proof.
  assert (removes act act (map fst (@nil (Command * R))) /\
    (forall c r, In (c, r) [] -> exists batch data raw, i = Response batch data raw /\
       is_not_sent r = false /\ is_unknown r = false /\ justified [(batch, data, raw)] c r) /\
    (forall r, None = Some r -> exists slot c batch data raw, defer = Some slot /\
       act !! slot = Some (Some c) /\ i = Response batch data raw /\
       justified [(batch, data, raw)] c r) /\
    (forall slot, defer = Some slot -> act !! slot = act !! slot)) as Z.
  { split; [apply removes_refl|done]. }
  unfold route_response. destruct i as [batch data raw|]; [|by intros [= <- <- <-]].
  destruct (_ && _); [by intros [= <- <- <-]|].
  destruct (select_slot _ act) as [slot|]; [|by intros [= <- <- <-]].
  destruct (act !! slot) as [[c|]|] eqn:S; try (by intros [= <- <- <-]).
  destruct (response _ _ _ _ _ _ _) as [[r|]|e] eqn:E; simpl; [|by intros [= <- <- <-]|done].
  pose proof (response_reached _ _ _ _ _ _ _ E) as (N & U & I).
  assert (justified [(batch, data, raw)] c r) as J.
  { exists batch, data, raw. split; [by left|]. done. }
  case_bool_decide as D; intros [= <- <- <-].
  - split; [apply removes_refl|]. split; [done|]. split; [|done]. intros q [= <-].
    exists slot, c, batch, data, raw. done.
  - split; [by apply removes_one|]. split.
    + intros x q [[= <- <-]|[]]. eauto 8.
    + split; [done|]. intros s ->. rewrite list_lookup_insert_ne; [done|]. congruence.
Qed.

Lemma core_settle act gone a :
  core a -> removes (active a) act (map fst gone) -> Forall (fun x => reached x = true) gone ->
  core (settle act gone a).
Proof.
  intros [] [] F. constructor; simpl; try done.
  - lia.
  - intros i c H. auto.
  - rewrite <- core_account0. apply Permutation_app_head. unfold ids.
    rewrite (Permutation_map request_id removes_perm0), !map_app, <- app_assoc.
    apply Permutation_app_head. apply Permutation_app_comm.
  - rewrite core_started0. unfold ids. rewrite (Permutation_map request_id removes_perm0).
    rewrite List.filter_app, !map_app, <- app_assoc. apply Permutation_app_head.
    rewrite (list_filter_all reached gone F). apply Permutation_app_comm.
Qed.

(** a command [c] is taken from a queue, leaving [n], [st] and [sa] *)
Record pops (c : Command) (a : Actor) (n st sa : list Command) : Prop := {
  pops_perm : Permutation (queued a) (c :: n ++ st ++ sa);
  pops_queues : Forall (fun c => lane (kind c) = NormalLane) n /\
    Forall (fun c => lane (kind c) = OwnedStopLane) st /\
    Forall (fun c => lane (kind c) = SafetyStopLane) sa
}.

Lemma pops_fresh c a n st sa :
  core a -> pops c a n st sa ->
  (flushed c = false /\ expected c = token a) /\
  Forall (fun c => flushed c = false /\ expected c = token a) (n ++ st ++ sa).
Proof. intros [] []. rewrite pops_perm0 in core_fresh0. by apply Forall_cons in core_fresh0. Qed.

Lemma core_refuse c refusal a n st sa :
  core a -> pops c a n st sa ->
  core (settle (active a) [(c, Err (NotSent refusal))] (set_queues n st sa a)).
Proof.
  intros C Po. pose proof (pops_fresh _ _ _ _ _ C Po) as [_ F]. destruct C, Po.
  constructor; simpl; try done.
  - rewrite <- core_account0. unfold queued, ids in *. simpl.
    rewrite (Permutation_map request_id pops_perm0). simpl. rewrite !map_app. simpl.
    solve_Permutation.
  - rewrite core_started0, List.filter_app. simpl. by rewrite app_nil_r.
Qed.

Lemma core_start c slot a n st sa :
  core a -> pops c a n st sa -> active a !! slot = Some None -> slot_of (lane (kind c)) = slot ->
  core (start slot c (set_queues n st sa a)).
Proof.
  intros C Po S L. pose proof (pops_fresh _ _ _ _ _ C Po) as [[_ X] F]. destruct C, Po.
  pose proof (lookup_lt_Some _ _ _ S). constructor; simpl; try done.
  - by rewrite length_insert.
  - intros i d. destruct (decide (slot = i)) as [<-|].
    + rewrite list_lookup_insert_eq by done. by intros [= <-].
    + rewrite list_lookup_insert_ne by done. auto.
  - rewrite <- core_account0. unfold queued, ids in *. simpl.
    rewrite (Permutation_map request_id (flatten_put _ _ _ S)),
      (Permutation_map request_id pops_perm0). simpl. solve_Permutation.
  - unfold ids in *. rewrite map_app, core_started0, (Permutation_map request_id (flatten_put _ _ _ S)).
    simpl. solve_Permutation.
Qed.

Definition explained (ph : Phase) (hs : list (bool * Value * string)) (x : Command * R) : Prop :=
  let '(c, r) := x in
  match r with
  | Err (NotSent _) => True
  | Err (Unknown reason) =>
      (flushed c = true /\ is_observation (kind c) = true /\
       (reason = DeadlineAfterDispatch \/ reason = CancelledAfterDispatch)) \/
      ph = Closing reason
  | _ => justified hs c r
  end.

Definition phase_ok (a : Actor) : Prop :=
  match phase a with
  | Idle | Closing _ => Forall (eq None) (active a)
  | Sending slot early =>
      (exists c, active a !! slot = Some (Some c) /\ flushed c = false /\
         forall r, early = Some r -> justified (heard a) c r) /\
      (forall i c, i <> slot -> active a !! i = Some (Some c) -> flushed c = true)
  | Looping | Selecting => forall i c, active a !! i = Some (Some c) -> flushed c = true
  end.

Record inv (a : Actor) : Prop := {
  inv_core : core a;
  inv_phase : phase_ok a;
  inv_finished : Forall (explained (phase a) (heard a)) (finished a)
}.

Lemma justified_mono hs hs' c r :
  (forall h, In h hs -> In h hs') -> justified hs c r -> justified hs' c r.
Proof. intros M (b & d & t & H & J). exists b, d, t. auto. Qed.

Lemma explained_mono ph ph' hs hs' x :
  (forall reason, ph = Closing reason -> ph' = Closing reason) ->
  (forall h, In h hs -> In h hs') -> explained ph hs x -> explained ph' hs' x.
Proof.
  intros Hp Hh. destruct x as [c r]. simpl.
  destruct r as [v|[e|code|code cm|reason]]; try done; try (by apply justified_mono).
  intros [?|?]; [by left|]. right. auto.
Qed.

Lemma explained_all ph ph' hs hs' l :
  (forall reason, ph = Closing reason -> ph' = Closing reason) ->
  (forall h, In h hs -> In h hs') -> Forall (explained ph hs) l -> Forall (explained ph' hs') l.
Proof. intros Hp Hh F. apply (Forall_impl _ _ _ F). intros x. by apply explained_mono. Qed.

Lemma justified_explained ph hs c r :
  is_not_sent r = false -> is_unknown r = false -> justified hs c r -> explained ph hs (c, r).
Proof. simpl. by destruct r as [v|[]]. Qed.

Lemma justified_reached hs c r :
  justified hs c r -> is_not_sent r = false /\ is_unknown r = false.
Proof. intros (b & d & t & _ & _ & H). apply response_reached in H. tauto. Qed.

Lemma core_set_phase ph a : core a -> core (set_phase ph a).
Proof. by intros []; constructor. Qed.

Lemma core_set_feed p new a : core a -> core (set_feed p new a).
Proof. by intros []; constructor. Qed.

Lemma core_set_flags alive stopped n a :
  core a -> sequence a <= n -> core (set_flags alive stopped n a).
Proof.
  intros [] H. constructor; simpl; try done; [lia|].
  intros i (k & Hk & ->)%core_numbers0. exists k. split; [lia|done].
Qed.

Lemma fail_inv reason a :
  core a -> Forall (explained (phase a) (heard a)) (finished a) -> is_closing a = false ->
  inv (fail reason a).
Proof.
  intros C F N. unfold fail.
  pose proof (unknown_removes reason (active a)) as Rm.
  pose proof (unknown_none reason (active a)) as Nn.
  destruct (unknown_active reason (active a)) as [act gone] eqn:E. simpl in *.
  assert (gone = map (fun c => (c, Err (Unknown reason))) (flatten (active a))) as G
    by (by injection E as <- <-).
  constructor; simpl.
  - apply core_set_phase, core_settle; [done|done|]. rewrite G.
    apply Forall_map. by apply Forall_true.
  - done.
  - apply Forall_app. split.
    + revert F. apply explained_all; [|done]. intros r Hr. unfold is_closing in N. by rewrite Hr in N.
    + rewrite G. apply Forall_map, Forall_true. intros c. simpl. by right.
Qed.

Lemma settle_inv ph act gone a :
  core a -> removes (active a) act (map fst gone) ->
  Forall (explained (phase a) (heard a)) (finished a) ->
  Forall (fun x => reached x = true /\ explained ph (heard a) x) gone -> is_closing a = false ->
  phase_ok (set_phase ph (settle act gone a)) -> inv (set_phase ph (settle act gone a)).
Proof.
  intros C Rm F G N Ok. constructor.
  - apply core_set_phase, core_settle; [done..|]. apply (Forall_impl _ _ _ G). tauto.
  - done.
  - simpl. apply Forall_app. split.
    + revert F. apply explained_all; [|done]. intros r Hr. unfold is_closing in N. by rewrite Hr in N.
    + apply (Forall_impl _ _ _ G). tauto.
Qed.

Lemma retire_explained ph hs now closed act :
  Forall (fun x => reached x = true /\ explained ph hs x) (snd (retire_observations now closed act)).
Proof.
  apply Forall_forall. intros [c r] H%list_elem_of_In.
  apply retire_gone in H as (reason & -> & Fl & Ob & Hr). simpl. tauto.
Qed.

Lemma route_explained ph hs i act defer d act' gone :
  route_response i act defer = Ok (d, act', gone) ->
  Forall (fun x => reached x = true /\
     explained ph (hs ++ match i with Response b d t => [(b, d, t)] | Other => [] end) x) gone.
Proof.
  intros (_ & G & _)%route_spec. apply Forall_forall. intros [c r] H%list_elem_of_In.
  destruct (G c r H) as (b & dt & t & -> & N & U & J). split; [unfold reached; simpl; by rewrite N|].
  apply justified_explained; [done..|]. revert J. apply justified_mono. intros h Hh. apply in_or_app. by right.
Qed.

Lemma none_flushed act : Forall (eq None) act -> forall i (c : Command), act !! i <> Some (Some c).
Proof. intros F i c H. by apply (Forall_lookup_1 _ _ _ _ F) in H. Qed.

Lemma removes_none act act' gone :
  removes act act' gone -> Forall (eq None) act -> Forall (eq None) act'.
Proof.
  intros Rm F. apply Forall_lookup_2. intros i [c|] H; [|done].
  apply (removes_slots _ _ _ Rm) in H. by apply (none_flushed _ F) in H.
Qed.

(** Reading an item only adds to what was heard. *)
Lemma feed_inv p new a : inv a -> inv (set_feed p new a).
Proof.
  intros [C Ph F]. constructor.
  - by apply core_set_feed.
  - unfold phase_ok in *. simpl. destruct (phase a); try done.
    destruct Ph as [(c & H & Fl & E) O]. split; [|done]. exists c. split_and!; [done..|].
    intros r Hr. apply (justified_mono (heard a)); [|auto]. intros h Hh. apply in_or_app. by left.
  - simpl. revert F. apply explained_all; [done|]. intros h Hh. apply in_or_app. by left.
Qed.

Lemma on_item_inv m now a a' : inv a -> on_item m now a = Some a' -> inv a'.
Proof.
  intros I. unfold on_item. destruct (incoming from_str m now (feed a)) as [r p].
  set (new := match r with Ok (Response b d t) => [(b, d, t)] | _ => [] end).
  assert (forall i, r = Ok i -> match i with Response b d t => [(b, d, t)] | Other => [] end = new)
    as New by (by intros i ->).
  pose proof (feed_inv p new a I) as J. clearbody new.
  set (b := set_feed p new a) in *. change (phase a) with (phase b). change (active a) with (active b).
  pose proof (inv_core _ J) as C. pose proof (inv_finished _ J) as F. pose proof (inv_phase _ J) as Ph.
  assert (heard b = heard a ++ new) as Hb by done. clearbody b.
  destruct (phase b) as [|slot early| | |reason] eqn:E; try done; intros [= <-].
  - assert (forall reason, inv (set_phase (Closing reason) b)) as K.
    { intros reason. constructor; [by apply core_set_phase| |].
      - unfold phase_ok in *. by rewrite E in Ph.
      - simpl. revert F. apply explained_all; [|done]. by rewrite ?E. }
    destruct r as [[[] d t|]|reason]; auto.
  - destruct r as [i|reason]; simpl; [|apply fail_inv; auto; unfold is_closing; by rewrite E].
    destruct (route_response i (active b) (Some slot)) as [[[d act] gone]|reason] eqn:Rt;
      [|apply fail_inv; auto; unfold is_closing; by rewrite E].
    pose proof (route_explained (Sending slot early) (heard a) _ _ _ _ _ _ Rt) as G.
    rewrite (New i eq_refl), <- Hb in G. pose proof Rt as (Rm & _ & D & K)%route_spec.
    specialize (K slot eq_refl). apply settle_inv; auto; [by rewrite E| |by unfold is_closing; rewrite E|].
    + apply (Forall_impl _ _ _ G). intros x [X Y]. split; [done|].
      revert Y. by apply explained_mono.
    + unfold phase_ok in *. rewrite E in Ph. simpl. destruct Ph as [(c & H & Fl & Ey) O].
      rewrite K. split.
      * exists c. split_and!; [done..|]. intros q Hq. destruct early as [e|]; [auto|].
        destruct (D q Hq) as (s & c' & b' & dt & t & [= <-] & Hs & -> & Jq).
        rewrite H in Hs. injection Hs as <-. revert Jq. apply justified_mono.
        intros h Hh. rewrite Hb, <- (New _ eq_refl). apply in_or_app. by right.
      * intros j c' Hj Hc. apply (O j c' Hj). by apply (removes_slots _ _ _ Rm).
  - destruct r as [i|reason]; simpl; [|apply fail_inv; auto; unfold is_closing; by rewrite E].
    destruct (route_response i (active b) None) as [[[d act] gone]|reason] eqn:Rt;
      [|apply fail_inv; auto; unfold is_closing; by rewrite E].
    pose proof (route_explained Looping (heard a) _ _ _ _ _ _ Rt) as G.
    rewrite (New i eq_refl), <- Hb in G. apply route_spec in Rt as (Rm & _).
    apply settle_inv; auto; [by rewrite E|by unfold is_closing; rewrite E|].
    unfold phase_ok in *. rewrite E in Ph. simpl. intros j c Hc.
    apply (Ph j). by apply (removes_slots _ _ _ Rm).
Qed.

Lemma core_flush a slot c :
  core a -> active a !! slot = Some (Some c) ->
  core (settle (<[slot := Some (flush c)]> (active a)) [] a).
Proof.
  intros [] S. pose proof (lookup_lt_Some _ _ _ S).
  assert (Permutation (ids (flatten (<[slot := Some (flush c)]> (active a))))
            (ids (flatten (active a)))) as Pm.
  { unfold ids. rewrite (Permutation_map request_id (flatten_take _ _ _ S)).
    rewrite <- (list_insert_insert_eq (active a) slot (Some (flush c)) None).
    rewrite (Permutation_map request_id (flatten_put (<[slot := None]> (active a)) slot (flush c)
               ltac:(by apply list_lookup_insert_eq))). done. }
  constructor; simpl; rewrite ?app_nil_r; try done.
  - by rewrite length_insert.
  - intros i d. destruct (decide (slot = i)) as [<-|].
    + rewrite list_lookup_insert_eq by done. intros [= <-]. apply (core_slots0 slot c S).
    + rewrite list_lookup_insert_ne by done. auto.
  - by rewrite Pm.
  - by rewrite Pm.
Qed.

Lemma on_sent_inv ok a a' : inv a -> on_sent ok a = Some a' -> inv a'.
Proof.
  intros [C Ph F]. unfold on_sent, phase_ok in *.
  destruct (phase a) as [|slot early| | |] eqn:E; try done.
  assert (is_closing a = false) as N by (unfold is_closing; by rewrite E).
  destruct ok; simpl; [|intros [= <-]; apply fail_inv; auto; by rewrite E].
  destruct Ph as [(c & S & Fl & J) O]. rewrite S. intros [= <-].
  pose proof (core_flush a slot c C S) as CF. pose proof (lookup_lt_Some _ _ _ S) as L.
  assert (forall j d, <[slot := Some (flush c)]> (active a) !! j = Some (Some d) ->
            flushed d = true) as All.
  { intros j d. destruct (decide (slot = j)) as [<-|D].
    - rewrite list_lookup_insert_eq by done. by intros [= <-].
    - rewrite list_lookup_insert_ne by done. apply O. congruence. }
  destruct early as [r|].
  - specialize (J r eq_refl). pose proof (justified_reached _ _ _ J) as [Ns Un].
    replace (settle (<[slot := None]> (active a)) [(flush c, r)] a)
      with (settle (<[slot := None]> (active a)) [(flush c, r)]
              (settle (<[slot := Some (flush c)]> (active a)) [] a))
      by (unfold settle; simpl; by rewrite app_nil_r).
    apply settle_inv; auto; simpl.
    + rewrite <- (list_insert_insert_eq (active a) slot None (Some (flush c))).
      apply removes_one. by apply list_lookup_insert_eq.
    + by rewrite app_nil_r, E.
    + constructor; [|done]. split; [unfold reached; simpl; by rewrite Ns|].
      by apply justified_explained.
    + unfold phase_ok. simpl. intros j d H. destruct (decide (slot = j)) as [<-|D].
      * by rewrite list_lookup_insert_eq in H.
      * rewrite list_lookup_insert_ne in H by done. apply (O j); [congruence|done].
  - constructor; [by apply core_set_phase|exact All|].
    simpl. rewrite app_nil_r. revert F. apply explained_all; [|done]. by rewrite ?E.
Qed.

Lemma next_command_pops a c a' :
  core a -> next_command a = Some (Some c, a') ->
  exists n st sa, a' = set_queues n st sa a /\ pops c a n st sa.
Proof.
  intros C. destruct (core_queues _ C) as (Q0 & Q1 & Q2).
  unfold next_command. destruct (stop a) as [|x st] eqn:Est.
  - destruct (senders a); [|done]. simpl. destruct (safety a) as [|x sa] eqn:Esa.
    + destruct (normal a) as [|x n] eqn:En; [done|]. intros [= <- <-].
      eexists _, _, _. split; [reflexivity|]. apply Forall_cons in Q0 as [_ Q0]. constructor.
      * unfold queued. by rewrite En, Est, Esa.
      * done.
    + intros [= <- <-]. eexists _, _, _. split; [reflexivity|].
      apply Forall_cons in Q2 as [_ Q2]. constructor.
      * unfold queued. rewrite Est, Esa. solve_Permutation.
      * done.
  - intros [= <- <-]. eexists _, _, _. split; [reflexivity|].
    apply Forall_cons in Q1 as [_ Q1]. constructor.
    + unfold queued. rewrite Est. solve_Permutation.
    + done.
Qed.

Lemma next_control_pops ow sf a slot c a' :
  core a -> next_control ow sf a = Some (slot, Some c, a') ->
  exists n st sa, a' = set_queues n st sa a /\ pops c a n st sa /\
    slot_of (lane (kind c)) = slot /\
    ((slot = 1%nat /\ ow = true) \/ (slot = 2%nat /\ sf = true)).
Proof.
  intros C. destruct (core_queues _ C) as (Q0 & Q1 & Q2). unfold next_control. intros H.
  assert ((exists st, stop a = c :: st /\ ow = true /\ slot = 1%nat /\
             a' = set_queues (normal a) st (safety a) a) \/
          (exists sa, safety a = c :: sa /\ sf = true /\ slot = 2%nat /\
             a' = set_queues (normal a) (stop a) sa a)) as D.
  { destruct ow, sf; repeat case_match; simplify_eq; eauto 10. }
  destruct D as [(st & E & -> & -> & ->)|(sa & E & -> & -> & ->)];
    eexists _, _, _; (split; [reflexivity|]); rewrite E in *.
  - apply Forall_cons in Q1 as [Lc Q1]. rewrite Lc. split; [|auto]. constructor; [|done].
    unfold queued. rewrite E. solve_Permutation.
  - apply Forall_cons in Q2 as [Lc Q2]. rewrite Lc. split; [|auto]. constructor; [|done].
    unfold queued. rewrite E. solve_Permutation.
Qed.

(** A command taken from a queue is refused, or starts in a free slot of its own. *)
Lemma refuse_inv ph c refusal a n st sa :
  core a -> pops c a n st sa -> Forall (explained (phase a) (heard a)) (finished a) ->
  (forall reason, phase a = Closing reason -> ph = Closing reason) ->
  phase_ok (set_phase ph a) ->
  inv (set_phase ph (settle (active a) [(c, Err (NotSent refusal))] (set_queues n st sa a))).
Proof.
  intros C Po F N Ok. constructor.
  - by apply core_set_phase, core_refuse.
  - done.
  - simpl. apply Forall_app. split; [|by constructor]. revert F. by apply explained_all.
Qed.

Lemma start_inv c slot a n st sa :
  core a -> pops c a n st sa -> Forall (explained (phase a) (heard a)) (finished a) ->
  is_closing a = false -> active a !! slot = Some None -> slot_of (lane (kind c)) = slot ->
  (forall i d, active a !! i = Some (Some d) -> flushed d = true) ->
  inv (start slot c (set_queues n st sa a)).
Proof.
  intros C Po F N S L O. pose proof (pops_fresh _ _ _ _ _ C Po) as [[Fl _] _].
  pose proof (lookup_lt_Some _ _ _ S). constructor.
  - by apply core_start.
  - unfold phase_ok. simpl. split.
    + exists (take_wire c). split; [by apply list_lookup_insert_eq|]. by split.
    + intros i d Hi. rewrite list_lookup_insert_ne by done. apply O.
  - simpl. revert F. apply explained_all; [|done].
    intros r Hr. unfold is_closing in N. by rewrite Hr in N.
Qed.

Lemma none_slot a k : core a -> Forall (eq None) (active a) -> active a !! slot_of (lane k) = Some None.
Proof.
  intros C F. destruct (lookup_lt_is_Some_2 (active a) (slot_of (lane k))) as [x Hx].
  - rewrite (core_len _ C). destruct (lane k); simpl; lia.
  - pose proof (Forall_lookup_1 _ _ _ _ F Hx) as <-. done.
Qed.

Lemma set_phase_id ph a : phase a = ph -> set_phase ph a = a.
Proof. intros <-. by destruct a. Qed.

Lemma closing_inv reason a :
  inv a -> phase a = Idle -> inv (set_phase (Closing reason) a).
Proof.
  intros [C Ph F] E. unfold phase_ok in Ph. rewrite E in *. constructor.
  - by apply core_set_phase.
  - done.
  - simpl. revert F. by apply explained_all.
Qed.

Lemma on_command_inv seen a a' : inv a -> on_command seen a = Some a' -> inv a'.
Proof.
  intros I. unfold on_command. destruct (phase a) eqn:E; try done.
  destruct (next_command a) as [[[c|] b]|] eqn:Nx; [| |done].
  - destruct I as [C Ph F]. unfold phase_ok in Ph. rewrite E in Ph.
    apply next_command_pops in Nx as (n & st & sa & -> & Po); [|done].
    destruct (prepare_dispatch _ _ _ _) as [refusal|]; intros [= <-].
    + rewrite <- (set_phase_id Idle (settle _ _ _)) by done.
      apply refuse_inv; auto. by rewrite E.
    + apply start_inv; auto; [by unfold is_closing; rewrite E|by apply none_slot|].
      intros i d H. by apply (none_flushed _ Ph) in H.
  - intros [= <-]. unfold next_command in Nx.
    assert (b = a) as -> by (repeat case_match; by simplify_eq). by apply closing_inv.
Qed.

Lemma all_none (act : ActiveCommands) : forallb is_none act = true -> Forall (eq None) act.
Proof.
  intros H. apply Forall_forall. intros x Hx%list_elem_of_In.
  rewrite forallb_forall in H. specialize (H x Hx). by destruct x.
Qed.

Lemma retire_inv ph now closed a :
  inv a -> (phase a = Looping \/ phase a = Selecting) ->
  let act := fst (retire_observations now closed (active a)) in
  let gone := snd (retire_observations now closed (active a)) in
  phase_ok (set_phase ph (settle act gone a)) -> inv (set_phase ph (settle act gone a)).
Proof.
  intros [C Ph F] E act gone Ok. apply settle_inv; auto.
  - apply retire_removes.
  - apply retire_explained.
  - unfold is_closing. by destruct E as [->| ->].
Qed.

Lemma retire_flushed now closed a :
  inv a -> (phase a = Looping \/ phase a = Selecting) ->
  forall i c, fst (retire_observations now closed (active a)) !! i = Some (Some c) ->
  flushed c = true.
Proof.
  intros [C Ph F] E i c H. apply (removes_slots _ _ _ (retire_removes now closed _)) in H.
  unfold phase_ok in Ph. destruct E as [E|E]; rewrite E in Ph; eauto.
Qed.

Lemma on_turn_inv now closed a a' : inv a -> on_turn now closed a = Some a' -> inv a'.
Proof.
  intros I. unfold on_turn. destruct (phase a) eqn:E; try done.
  pose proof (fun ph => retire_inv ph now closed a I (or_introl E)) as K.
  pose proof (retire_flushed now closed a I (or_introl E)) as L.
  destruct (retire_observations now closed (active a)) as [act gone]. simpl in K, L.
  intros [= <-]. apply K. destruct (forallb is_none act) eqn:Q; [|exact L].
  by apply all_none.
Qed.

Lemma on_expiry_inv reason now closed a a' :
  inv a -> on_expiry reason now closed a = Some a' -> inv a'.
Proof.
  intros I. unfold on_expiry. destruct (phase a) as [|slot early| | |] eqn:E; try done.
  - intros [= <-]. destruct I as [C Ph F]. apply fail_inv; auto. unfold is_closing. by rewrite E.
  - pose proof (retire_inv Looping now closed a I (or_intror E)) as K.
    pose proof (retire_flushed now closed a I (or_intror E)) as L.
    destruct (retire_observations now closed (active a)) as [act [|x gone]]; simpl in K, L;
      intros [= <-]; [|by apply K].
    destruct I as [C Ph F]. apply fail_inv; auto. unfold is_closing. by rewrite E.
Qed.

Lemma on_control_inv now closed seen a a' :
  inv a -> on_control now closed seen a = Some a' -> inv a'.
Proof.
  intros I. unfold on_control. destruct (phase a) eqn:E; try done.
  pose proof (core_len _ (inv_core _ I)) as Len.
  set (free := fun i => match active a !! i with Some None => true | _ => false end).
  change (next_control _ _ a) with (next_control (free 1%nat) (free 2%nat) a).
  destruct (next_control (free 1%nat) (free 2%nat) a) as [[[slot [c|]] b]|] eqn:Nx; [| |done].
  - apply next_control_pops in Nx as (n & st & sa & -> & Po & Ls & Fr); [|apply I].
    assert (active a !! slot = Some None) as Sl.
    { destruct Fr as [[-> Fr]|[-> Fr]]; unfold free in Fr;
        by destruct (active a !! _) as [[]|]. }
    pose proof (retire_removes now closed (active a)) as Rm.
    pose proof (retire_inv Selecting now closed a I (or_intror E)) as K.
    pose proof (retire_flushed now closed a I (or_intror E)) as L.
    change (active (set_queues n st sa a)) with (active a).
    destruct (retire_observations now closed (active a)) as [act gone]. simpl in K, L, Rm.
    specialize (K L). rewrite set_phase_id in K by done.
    change (settle act gone (set_queues n st sa a)) with (set_queues n st sa (settle act gone a)).
    assert (pops c (settle act gone a) n st sa) as Po' by (by destruct Po; constructor).
    assert (act !! slot = Some None) as Sl'.
    { destruct (lookup_lt_is_Some_2 act slot) as [[d|] Hd]; [|apply (removes_slots _ _ _ Rm) in Hd; congruence|done].
      rewrite (removes_len _ _ _ Rm). by eapply lookup_lt_Some. }
    destruct K as [C Ph F].
    destruct (prepare_dispatch _ _ _ _) as [refusal|]; intros [= <-].
    + apply (refuse_inv Looping c refusal (settle act gone a)); auto. simpl. by rewrite E.
    + apply (start_inv c slot (settle act gone a)); auto. unfold is_closing. simpl. by rewrite E.
  - intros [= <-]. destruct I as [C Ph F].
    assert (b = a) as -> by (unfold next_control in Nx; repeat case_match; by simplify_eq).
    apply fail_inv; auto. unfold is_closing. by rewrite E.
Qed.

Lemma on_drain_cases a a' :
  core a -> on_drain a = Some a' ->
  exists reason c n st sa, phase a = Closing reason /\ pops c a n st sa /\
    a' = settle (active a) [(c, Err (NotSent (Closed reason)))] (set_queues n st sa a).
Proof.
  intros C. destruct (core_queues _ C) as (Q0 & Q1 & Q2). unfold on_drain.
  destruct (phase a) as [| | | |reason]; try done.
  destruct (safety a) as [|c sa] eqn:Esa; [destruct (stop a) as [|c st] eqn:Est;
    [destruct (normal a) as [|c n] eqn:En; [done|]|]|]; intros [= <-];
    eexists reason, c, _, _, _; (split; [done|]); (split; [|reflexivity]);
    repeat match goal with H : Forall _ (_ :: _) |- _ => apply Forall_cons in H as [_ H] end;
    (constructor; [unfold queued; rewrite ?Esa, ?Est, ?En; solve_Permutation|done]).
Qed.

Lemma on_drain_inv a a' : inv a -> on_drain a = Some a' -> inv a'.
Proof.
  intros [C Ph F] H. apply on_drain_cases in H as (reason & c & n & st & sa & E & Po & ->); [|done].
  rewrite <- (set_phase_id (Closing reason) (settle _ _ _)) by done.
  apply refuse_inv; auto; [by rewrite E; intros ? [= ->]|].
  unfold phase_ok in *. simpl. by rewrite E in Ph.
Qed.

Lemma request_id_inj t j k :
  0 <= j -> 0 <= k -> request_id_of t j = request_id_of t k -> j = k.
Proof.
  unfold request_id_of. intros Hj Hk H. apply (inj (String.append _)) in H.
  apply (inj (String.append _)) in H. apply (inj pretty) in H. lia.
Qed.

Lemma core_admit k w d n a :
  core a -> advance (sequence a) = Some n ->
  core (enqueue (lane k)
          {| expected := token a; kind := k; request_id := request_id_of (token a) n;
             wire := w; flushed := false; deadline := d |}
          (set_flags (senders a) (stopping a) n a)).
Proof.
  intros C [-> Hn]%advance_Some; [|apply C].
  set (c := {| expected := token a |}). set (b := enqueue _ _ _).
  assert (Permutation (queued b) (c :: queued a)) as Pm.
  { unfold queued, b, enqueue. simpl. destruct (lane k); simpl; solve_Permutation. }
  destruct C. destruct core_queues0 as (Q0 & Q1 & Q2). constructor; try done; subst b.
  - simpl. split_and!; case_decide; try done; apply Forall_app; (split; [done|by repeat constructor]).
  - rewrite Pm. by constructor.
  - unfold ids in *. rewrite (Permutation_map request_id Pm). simpl.
    rewrite <- core_account0. solve_Permutation.
  - simpl. apply NoDup_app. split; [done|]. split; [|by apply NoDup_singleton].
    intros x Hx ->%list_elem_of_singleton. apply list_elem_of_In, core_numbers0 in Hx as (j & Hj & E).
    simpl in E. apply request_id_inj in E; lia.
  - simpl. lia.
  - simpl. intros x Hx. apply in_app_or in Hx as [(j & Hj & ->)%core_numbers0|[<-|[]]].
    + exists j. split; [lia|done].
    + exists (sequence a + 1). split; [lia|done].
Qed.

Lemma set_flags_inv alive stopped n a :
  inv a -> sequence a <= n -> inv (set_flags alive stopped n a).
Proof. intros [C Ph F] H. constructor; [by apply core_set_flags|done|done]. Qed.

Lemma step_inv i a a' : inv a -> step i a = Some a' -> inv a'.
Proof.
  intros I. pose proof I as [C Ph F].
  assert (forall reason, phase a <> Looping -> is_closing a = false -> phase a <> Idle ->
            inv (fail reason a)) as K.
  { intros. by apply fail_inv. }
  destruct i as [k w d| | | | |n| | | |m now|seen|ok|now closed|fired now closed|id now closed
                |now closed seen|]; simpl.
  - destruct (is_closing a || negb (senders a)); [done|].
    destruct (advance (sequence a)) as [n|] eqn:A; [|done]. intros [= <-].
    constructor; [by apply core_admit|done|done].
  - destruct (advance (sequence a)) as [n|] eqn:A; [|done]. intros [= <-].
    apply advance_Some in A as [-> _]; [|apply C]. apply set_flags_inv; [done|lia].
  - intros [= <-]. by apply set_flags_inv.
  - intros [= <-]. by apply set_flags_inv.
  - intros [= <-]. by apply feed_inv.
  - intros [= <-]. by apply feed_inv.
  - intros [= <-]. by apply feed_inv.
  - unfold is_closing in K. destruct (stopping a), (phase a) eqn:E; intros; simplify_eq;
      try (by apply K); by apply closing_inv.
  - unfold is_closing in K. destruct (consumer_alive _), (phase a) eqn:E; intros; simplify_eq;
      try (by apply K); by apply closing_inv.
  - by apply on_item_inv.
  - by apply on_command_inv.
  - by apply on_sent_inv.
  - by apply on_turn_inv.
  - destruct (_ && _); [|done]. by apply on_expiry_inv.
  - destruct (_ && _); [|done]. by apply on_expiry_inv.
  - by apply on_control_inv.
  - by apply on_drain_inv.
Qed.

Lemma run_inv inputs : forall a a', inv a -> run inputs a = Some a' -> inv a'.
Proof.
  induction inputs as [|i inputs IH]; intros a a' I; simpl; [by intros [= <-]|].
  destruct (step i a) as [b|] eqn:E; [|done]. simpl. apply IH. by apply (step_inv i a).
Qed.

Lemma run_app i1 i2 a : run (i1 ++ i2) a = run i1 a ≫= run i2.
Proof. revert a. induction i1 as [|i i1 IH]; intros a; simpl; [done|]. destruct (step i a); [apply IH|done]. Qed.

Lemma actor_new_inv t i b : inv (actor_new t i b).
Proof.
  constructor; [constructor|..]; simpl; try done.
  - by intros [|[|[|]]].
  - constructor.
  - by repeat constructor.
Qed.

Lemma reachable_inv t i b inputs a : run inputs (actor_new t i b) = Some a -> inv a.
Proof. apply run_inv, actor_new_inv. Qed.

Lemma NoDup_map_eq {A B} (f : A -> B) l x y :
  NoDup (map f l) -> In x l -> In y l -> f x = f y -> x = y.
Proof.
  induction l as [|z l IH]; simpl; [done|]. intros [Nz N]%NoDup_cons Hx Hy E.
  rewrite list_elem_of_In in Nz.
  destruct Hx as [->|Hx], Hy as [->|Hy]; auto; exfalso; apply Nz.
  - rewrite E. by apply in_map.
  - rewrite <- E. by apply in_map.
Qed.


Lemma NoDup_map_filter {A B} (f : A -> B) (p : A -> bool) l :
  NoDup (map f l) -> NoDup (map f (List.filter p l)).
Proof.
  induction l as [|x l IH]; simpl; [done|]. intros [Nx N]%NoDup_cons.
  destruct (p x); simpl; [|auto]. apply NoDup_cons. split; [|auto].
  rewrite list_elem_of_In in *. intros H. apply Nx.
  apply in_map_iff in H as (y & <- & [H _]%List.filter_In). by apply in_map.
Qed.

Notation fin_id := (fun x : Command * R => request_id (fst x)).

Lemma ids_finished l : ids (map fst l) = map fin_id l.
Proof. apply map_map. Qed.

(** A started frame belongs to an active command or to one that was not finished as unsent. *)
Lemma started_iff a id :
  core a -> In id (ids (started a)) <->
  In id (ids (flatten (active a))) \/
  exists c r, In (c, r) (finished a) /\ is_not_sent r = false /\ request_id c = id.
Proof.
  intros []. rewrite <- list_elem_of_In, core_started0, list_elem_of_In, in_app_iff, ids_finished.
  rewrite (in_map_iff fin_id). split; (intros [H|H]; [by left|right]).
  - destruct H as ([c r] & <- & [H Q]%List.filter_In). apply negb_true_iff in Q. eauto.
  - destruct H as (c & r & H & Q & <-). exists (c, r). split; [done|].
    apply List.filter_In. split; [done|]. unfold reached. simpl. by rewrite Q.
Qed.

Lemma ids_disjoint a :
  core a ->
  (forall id, In id (ids (queued a)) -> ~ In id (ids (flatten (active a))) /\
     ~ In id (map fin_id (finished a))) /\
  (forall id, In id (ids (flatten (active a))) -> ~ In id (map fin_id (finished a))) /\
  NoDup (ids (flatten (active a))) /\ NoDup (map fin_id (finished a)).
Proof.
  intros []. rewrite <- core_account0, ids_finished in core_nodup0.
  apply NoDup_app in core_nodup0 as (_ & DQ & N). apply NoDup_app in N as (NA & DA & NF).
  setoid_rewrite list_elem_of_In in DQ. setoid_rewrite list_elem_of_In in DA.
  split_and!; [|done..]. intros id H. apply DQ in H. rewrite in_app_iff in H. tauto.
Qed.

(** Only the two dispatch branches hand a frame to the socket. *)
Lemma step_started inp a a' :
  inv a -> step inp a = Some a' -> started a' <> started a ->
  exists c, started a' = started a ++ [c] /\ In c (queued a) /\
    forall d, In d (flatten (active a)) -> flushed d = true.
Proof.
  intros I. pose proof I as [C Ph F]. unfold phase_ok in Ph.
  assert (forall b c n st sa, pops c a n st sa -> started b = started a ++ [c] ->
    (forall i d, active a !! i = Some (Some d) -> flushed d = true) ->
    exists c, started b = started a ++ [c] /\ In c (queued a) /\
      forall d, In d (flatten (active a)) -> flushed d = true) as K.
  { intros b c n st sa [Pm _] E Fl. exists c. split; [done|]. split.
    - rewrite <- list_elem_of_In, Pm. by left.
    - intros d [j Hj]%in_flatten. eauto. }
  destruct inp as [k w d| | | | |n| | | |m now|seen|ok|now closed|fired now closed|id now closed
                |now closed seen|]; simpl.
  all: try match goal with |- context [advance ?n] => destruct (advance n); simpl end.
  all: try (unfold fail; repeat case_match; intros; simplify_eq; done).
  - unfold on_item. destruct (incoming from_str m now (feed a)) as [r p].
    unfold fail. simpl. repeat case_match; intros; simplify_eq; done.
  - unfold on_command. destruct (phase a); try done.
    destruct (next_command a) as [[[c|] b]|] eqn:Nx; [| |done].
    + apply next_command_pops in Nx as (n & st & sa & -> & Po); [|done].
      destruct (prepare_dispatch _ _ _ _); intros [= <-] D; [done|].
      apply (K _ _ _ _ _ Po); [done|]. intros i d Hi. by apply (none_flushed _ Ph) in Hi.
    + unfold next_command in Nx. intros [= <-]. by repeat case_match; simplify_eq.
  - unfold on_sent, fail. repeat case_match; intros; simplify_eq; done.
  - unfold on_turn. destruct (phase a); try done. destruct (retire_observations _ _ _).
    by intros [= <-].
  - unfold on_expiry, fail. repeat case_match; intros; simplify_eq; done.
  - unfold on_expiry, fail. repeat case_match; intros; simplify_eq; done.
  - unfold on_control. destruct (phase a); try done.
    destruct (next_control _ _ a) as [[[slot [c|]] b]|] eqn:Nx; [| |done].
    + apply next_control_pops in Nx as (n & st & sa & -> & Po & _); [|done].
      destruct (retire_observations _ _ _). destruct (prepare_dispatch _ _ _ _); intros [= <-] D;
        [done|]. by apply (K _ _ _ _ _ Po).
    + unfold next_control in Nx. unfold fail. intros [= <-]. by repeat case_match; simplify_eq.
  - intros H. apply on_drain_cases in H as (? & ? & ? & ? & ? & ? & ? & ->); done.
Qed.

(** ** Theorems *)

(** C7: every command a handle enqueued is in exactly one place: a queue, the active slots or
    the finished ones; none is lost and none is answered twice.  A frame is handed to the
    socket at most once, and the answer tells the caller the truth about it: a command is
    finished with "not sent" exactly when its frame never went to the socket. *)
Theorem actor_answers_once t i b inputs a :
  run inputs (actor_new t i b) = Some a ->
  Permutation (ids (queued a) ++ ids (flatten (active a)) ++ ids (map fst (finished a)))
    (admitted a) /\
  NoDup (admitted a) /\ NoDup (ids (started a)) /\
  (forall c r, In (c, r) (finished a) ->
     is_not_sent r = true <-> ~ In (request_id c) (ids (started a))) /\
  (forall c, In c (queued a) -> ~ In (request_id c) (ids (started a))).
Proof.
  intros [C _ _]%reachable_inv. destruct (ids_disjoint a C) as (DQ & DA & NA & NF).
  pose proof (fun id => started_iff a id C) as S1. destruct C. split; [done|]. split; [done|].
  split_and!.
  - rewrite core_started0, ids_finished. apply NoDup_app. split; [done|].
    split; [|by apply NoDup_map_filter]. setoid_rewrite list_elem_of_In. intros x Hx H.
    apply (DA x Hx). apply in_map_iff in H as (y & <- & [H _]%List.filter_In).
    by apply (in_map fin_id).
  - intros c r H. pose proof (in_map fin_id _ _ H) as Hm. simpl in Hm. rewrite S1. split.
    + intros Ns [Hi|(c' & r' & Hi & Ns' & E)]; [by apply (DA _ Hi)|].
      pose proof (NoDup_map_eq fin_id _ _ _ NF Hi H E). congruence.
    + intros Hn. destruct (is_not_sent r) eqn:Ns; [done|]. exfalso. apply Hn. right. eauto.
  - intros c H. rewrite S1. destruct (DQ (request_id c)) as [D1 D2]; [by apply in_map|].
    intros [Hi|(c' & r' & Hi & _ & E)]; [done|]. apply D2. rewrite <- E.
    by apply (in_map fin_id) in Hi.
Qed.

(** C8: a result other than "not sent" is a fact: a value or a rejection is what [response]
    reads from a response the socket owner heard that names this request, and "unknown" is
    only reported of a flushed read-only observation that expired or was abandoned, or of a
    command that was on the wire when the session ended, with the reason it ended for. *)
Theorem actor_results_explained t i b inputs a c r :
  run inputs (actor_new t i b) = Some a -> In (c, r) (finished a) ->
  match r with
  | Err (NotSent _) => True
  | Err (Unknown reason) =>
      (flushed c = true /\ is_observation (kind c) = true /\
       (reason = DeadlineAfterDispatch \/ reason = CancelledAfterDispatch)) \/
      phase a = Closing reason
  | _ =>
      exists batch data raw, In (batch, data, raw) (heard a) /\
        as_str (index "requestId" data) = Some (request_id c) /\
        response capture data (kind c) (request_id c) (deadline c) batch raw = Ok (Some r)
  end.
Proof.
  intros [_ _ F]%reachable_inv H. rewrite Forall_forall in F.
  apply list_elem_of_In in H. exact (F _ H).
Qed.

(** One frame at a time: of the commands on the wire each has a lane of its own and at
    most one is not completely written, and a new frame is only handed to the socket when all
    the frames before it are complete. *)
Theorem one_frame_at_a_time t i b inputs a :
  run inputs (actor_new t i b) = Some a ->
  (forall j c, active a !! j = Some (Some c) ->
     j = slot_of (lane (kind c)) /\ expected c = token a /\ (j < 3)%nat) /\
  (forall j k c d, active a !! j = Some (Some c) -> active a !! k = Some (Some d) ->
     flushed c = false -> flushed d = false -> j = k) /\
  (forall inp a', step inp a = Some a' -> started a' <> started a ->
     exists c, started a' = started a ++ [c] /\ In c (queued a) /\
       forall d, In d (flatten (active a)) -> flushed d = true).
Proof.
  intros I%reachable_inv. pose proof I as [C Ph F]. split_and!.
  - intros j c H. pose proof (core_slots _ C j c H) as [E X]. split; [done|]. split; [done|].
    rewrite <- (core_len _ C). by eapply lookup_lt_Some.
  - intros j k c d Hj Hk Fc Fd. unfold phase_ok in Ph. destruct (phase a) as [|slot early| | |];
      try (by apply (none_flushed _ Ph) in Hj); try (rewrite (Ph j c Hj) in Fc; done).
    destruct Ph as [_ O]. destruct (decide (j = slot)) as [->|Nj]; [|by rewrite (O j c Nj Hj) in Fc].
    destruct (decide (k = slot)) as [->|Nk]; [done|]. by rewrite (O k d Nk Hk) in Fd.
  - intros inp a' H. by apply (step_started inp).
Qed.

Lemma step_closing reason inp a a' :
  phase a = Closing reason -> step inp a = Some a' ->
  phase a' = Closing reason /\ started a' = started a.
Proof.
  intros E. destruct inp as [k w d| | | | |n| | | |m now|seen|ok|now closed|fired now closed
    |id now closed|now closed seen|]; simpl;
    unfold is_closing, on_item, on_command, on_sent, on_turn, on_expiry, on_control, on_drain;
    rewrite ?E; simpl;
    try match goal with |- context [advance ?n] => destruct (advance n); simpl end;
    repeat (case_match; simpl in *); intros; by simplify_eq.
Qed.

Lemma drain_prefix reason l : forall a,
  phase a = Closing reason -> queued a = l ->
  exists a', run (replicate (length l) Drain) a = Some a' /\ queued a' = [] /\
    active a' = active a /\ admitted a' = admitted a /\
    finished a' = finished a ++
      map (fun c => (c, Err (NotSent (Closed reason)))) (safety a ++ stop a ++ normal a).
Proof.
  intros a E Q. assert (length l = length (safety a ++ stop a ++ normal a)) as L.
  { rewrite <- Q. unfold queued. rewrite !length_app. lia. }
  rewrite L. clear l L Q. remember (safety a ++ stop a ++ normal a) as m eqn:M.
  revert a E M. induction m as [|c m IH]; intros a E M; simpl.
  - symmetry in M. apply app_eq_nil in M as [Sa M]. apply app_eq_nil in M as [St Nm].
    exists a. split; [done|]. unfold queued. rewrite Sa, St, Nm, (app_nil_r (finished a)). done.
  - assert (exists n st sa, m = sa ++ st ++ n /\ on_drain a =
      Some (settle (active a) [(c, Err (NotSent (Closed reason)))] (set_queues n st sa a))) as D.
    { unfold on_drain. rewrite E. destruct (safety a) as [|x sa]; [destruct (stop a) as [|x st];
        [destruct (normal a) as [|x n]; [done|]|]|]; simpl in M; injection M as <- ->;
        (eexists _, _, _; split; [|reflexivity]); done. }
    destruct D as (n & st & sa & Hm & ->). simpl.
    edestruct IH as (a' & R & Q & A & Ad & Fi); cycle 2.
    { exists a'. split; [exact R|]. split; [exact Q|]. split; [exact A|]. split; [exact Ad|].
      rewrite Fi. simpl. rewrite <- app_assoc. simpl. by rewrite Hm. }
    + exact E.
    + exact Hm.
Qed.

(** C33: when the session ends, everybody is answered: draining takes exactly one step per
    queued command, first the safety stops, then the owned stops, then the rest, each told
    that it was not sent and why; afterwards every command ever enqueued has its one answer.
    Nothing is handed to the socket any more, whatever else happens. *)
Theorem ended_session_answers_everyone t i b inputs a reason :
  run inputs (actor_new t i b) = Some a -> phase a = Closing reason ->
  (exists a', run (replicate (length (queued a)) Drain) a = Some a' /\ queued a' = [] /\
     finished a' = finished a ++
       map (fun c => (c, Err (NotSent (Closed reason)))) (safety a ++ stop a ++ normal a) /\
     Permutation (ids (map fst (finished a'))) (admitted a')) /\
  (forall more a', run more a = Some a' ->
     phase a' = Closing reason /\ started a' = started a).
Proof.
  intros I%reachable_inv E. split.
  - destruct (drain_prefix reason (queued a) a E eq_refl) as (a' & Rn & Q & A & _ & Fi).
    exists a'. split_and!; [done..|]. pose proof (run_inv _ _ _ I Rn) as [C Ph _].
    pose proof (core_account _ C) as Ac. rewrite Q, A in Ac.
    pose proof (inv_phase _ I) as Pa. unfold phase_ok in Pa. rewrite E in Pa.
    assert (flatten (active a) = []) as Fl.
    { destruct (flatten (active a)) as [|c l] eqn:Z; [done|].
      assert (In c (flatten (active a))) as [j Hj]%in_flatten by (rewrite Z; by left).
      by apply (none_flushed _ Pa) in Hj. }
    by rewrite Fl in Ac.
  - intros more. clear I. revert a E. induction more as [|inp more IH]; intros a E a'; simpl;
      [by intros [= <-]|].
    destruct (step inp a) as [a1|] eqn:S; [|done]. simpl. intros Rn.
    destruct (step_closing _ _ _ _ E S) as [E1 <-]. by apply IH.
Qed.

(** The readings under which [prepare_dispatch] lets a command go *)
Definition permits_dispatch (seen : Seen) (c : Command) : Prop :=
  first_now seen < deadline c /\ second_now seen < deadline c /\
  first_closed seen = false /\ last_closed seen = false /\ first_state seen = QUEUED /\
  is_ok (verdict seen) = true /\ claimed seen = true.

Definition companions_alive (seen : Seen) (act : ActiveCommands) : Prop :=
  forall d, In d (flatten act) ->
    companion_now seen (request_id d) < deadline d /\
    companion_closed seen (request_id d) = false.

Lemma busy_none seen act : companions_alive seen act -> busy seen act = None.
Proof.
  unfold companions_alive. induction act as [|[d|] act IH]; intros H; simpl; [done| |auto].
  destruct (H d) as [L ->]; [by left|]. destruct (Z.leb_spec (deadline d) (companion_now seen (request_id d))); [lia|].
  apply IH. intros e He. apply H. by right.
Qed.

Lemma prepare_none seen c tok act :
  permits_dispatch seen c -> expected c = tok -> companions_alive seen act ->
  prepare_dispatch seen c tok act = None.
Proof.
  intros (L1 & L2 & C1 & C2 & Q & V & Cl) <- A. unfold prepare_dispatch.
  rewrite Z.eqb_refl, C1, C2, Q, Cl, (busy_none _ _ A). simpl.
  destruct (Z.leb_spec (deadline c) (first_now seen)); [lia|].
  destruct (Z.leb_spec (deadline c) (second_now seen)); [lia|].
  by destruct (verdict seen).
Qed.

(** C31: an owned stop at the head of its queue never waits for a reply to anything else: with
    the socket idle, or with any command of another lane still unanswered, the next turn that
    looks for work writes the stop, however many commands the other queues hold. *)
Theorem stop_control_not_blocked t i b inputs a c st seen now closed :
  run inputs (actor_new t i b) = Some a -> stop a = c :: st ->
  permits_dispatch seen c -> companions_alive seen (active a) ->
  (phase a = Idle -> exists a', step (Command_ seen) a = Some a' /\
     phase a' = Sending 1 None /\ started a' = started a ++ [c]) /\
  (phase a = Selecting -> active a !! 1%nat = Some None ->
   exists a', step (Control now closed seen) a = Some a' /\
     phase a' = Sending 1 None /\ started a' = started a ++ [c]).
Proof.
  intros [C Ph F]%reachable_inv St Pm Al.
  assert (lane (kind c) = OwnedStopLane /\ expected c = token a) as [L X].
  { destruct C. destruct core_queues0 as (_ & Q & _). rewrite St in Q. apply Forall_cons in Q as [Q _].
    split; [done|]. unfold queued in core_fresh0. rewrite St in core_fresh0.
    apply Forall_app in core_fresh0 as [_ [[[_ H] _]%Forall_cons _]%Forall_app]. done. }
  split.
  - intros E. simpl. unfold on_command, next_command. rewrite E, St. simpl.
    rewrite (prepare_none seen c (token a) []); [|done|done|by intros ? []].
    rewrite L. eexists. split; [reflexivity|]. done.
  - intros E Fr. simpl. unfold on_control, next_control. rewrite E, Fr, St. simpl.
    pose proof (retire_removes now closed (active a)) as Rm.
    destruct (retire_observations now closed (active a)) as [act gone]. simpl in Rm |- *.
    rewrite (prepare_none seen c (token a) act); [|done|done|].
    + eexists. split; [reflexivity|]. done.
    + intros d [j Hj]%in_flatten. apply Al, in_flatten. exists j. by apply (removes_slots _ _ _ Rm).
Qed.
End Actor.

(** ** A session: a stop overtakes an earlier request, is answered, and the session ends *)

Module ActorSample.
Definition capture (_ : string) (_ : Value) (_ : Z) : unit := tt.

Definition reply (id ty : string) : Value :=
  Object [("d", Object [("requestId", Str id);
                        ("requestStatus", Object [("code", Num (PosInt 100)); ("result", Bool true)]);
                        ("requestType", Str ty)]);
          ("op", Num (PosInt 7))]%string.

Definition from_str (s : string) : option Value :=
  if str_eqb s "stopped" then Some (reply "1:2" "StopRecord") else None.

Definition seen : Seen :=
  {| first_now := 5; first_closed := false; first_state := QUEUED; verdict := Ok tt;
     second_now := 6; companion_now := fun _ => 6; companion_closed := fun _ => false;
     claimed := true; last_closed := false |}.

Definition open_replies (_ : string) : bool := false.

Definition admissions : list (Input) :=
  [Admit (Single "GetVersion") "w1" 100; Admit (ReservedControl StopRecord) "w2" 90;
   Admit (Single "GetStats") "w3" 100]%string.

Definition answered : list Input :=
  admissions ++
  [Command_ seen; Sent true; Turn 7 open_replies; Next (Received (Text "stopped")) 8;
   Turn 9 open_replies].

Definition ended : list Input := answered ++ [Command_ seen; Sent true; Stop; Turn 9 open_replies; Stopping].

Definition start_state : Actor := actor_new (P := unit) 1 4 64.
Definition at_end : option (Actor (P := unit)) := run capture from_str ended start_state.
Definition waiting : option (Actor (P := unit)) := run capture from_str admissions start_state.

Definition state_of (o : option (Actor (P := unit))) : Actor := default start_state o.

Lemma run_ended : run capture from_str ended start_state = Some (state_of at_end).
Proof. vm_compute. reflexivity. Qed.

Lemma run_waiting : run capture from_str admissions start_state = Some (state_of waiting).
Proof. vm_compute. reflexivity. Qed.

Definition sending : list Input := admissions ++ [Command_ seen].
Definition at_send : option (Actor (P := unit)) := run capture from_str sending start_state.
Lemma run_sending : run capture from_str sending start_state = Some (state_of at_send).
Proof. vm_compute. reflexivity. Qed.
End ActorSample.

Lemma actor_answers_once_witness :
  let a := ActorSample.state_of ActorSample.at_end in
  ids (map fst (finished a)) = ["1:2"; "1:1"]%string /\ ids (queued a) = ["1:3"]%string /\
  NoDup (ids (started a)).
Proof.
  split; [vm_compute; reflexivity|]. split; [vm_compute; reflexivity|].
  apply (actor_answers_once _ _ 1 4 64 _ _ ActorSample.run_ended).
Defined.

Lemma actor_results_explained_witness :
  let a := ActorSample.state_of ActorSample.at_end in
  phase a = Closing Shutdown /\
  exists c, nth_error (finished a) 1 = Some (c, Err (Unknown Shutdown)) /\
    ((flushed c = true /\ is_observation (kind c) = true /\
      (Shutdown = DeadlineAfterDispatch \/ Shutdown = CancelledAfterDispatch)) \/
     phase a = Closing Shutdown).
Proof.
  split; [vm_compute; reflexivity|]. eexists. split; [vm_compute; reflexivity|].
  eapply (actor_results_explained _ _ 1 4 64 _ _ _ (Err (Unknown Shutdown)) ActorSample.run_ended).
  vm_compute. right. left. reflexivity.
Defined.

Lemma one_frame_at_a_time_witness :
  let a := ActorSample.state_of ActorSample.at_send in
  exists c, active a !! 1%nat = Some (Some c) /\ 1%nat = slot_of (lane (kind c)).
Proof.
  eexists. split; [vm_compute; reflexivity|].
  apply (proj1 (one_frame_at_a_time _ _ 1 4 64 _ _ ActorSample.run_sending)).
  vm_compute. reflexivity.
Defined.

Lemma ended_session_answers_everyone_witness :
  let a := ActorSample.state_of ActorSample.at_end in
  exists a', run ActorSample.capture ActorSample.from_str [Drain] a = Some a' /\
    queued a' = [] /\ Permutation (ids (map fst (finished a'))) ["1:1"; "1:2"; "1:3"]%string.
Proof.
  destruct (ended_session_answers_everyone _ _ 1 4 64 _ _ Shutdown ActorSample.run_ended
              ltac:(vm_compute; reflexivity))
    as [(a' & Rn & Q & F & _) _].
  exists a'. split; [exact Rn|]. split; [exact Q|]. rewrite F. vm_compute.
  apply perm_swap.
Defined.

Lemma stop_control_not_blocked_witness :
  let a := ActorSample.state_of ActorSample.waiting in
  length (normal a) = 2%nat /\
  exists a', step ActorSample.capture ActorSample.from_str (Command_ ActorSample.seen) a = Some a' /\
    phase a' = Sending 1 None.
Proof.
  split; [vm_compute; reflexivity|].
  destruct (proj1 (stop_control_not_blocked _ _ 1 4 64 _ _ _ _ ActorSample.seen 0
    ActorSample.open_replies ActorSample.run_waiting
    ltac:(vm_compute; reflexivity) ltac:(vm_compute; repeat split) ltac:(vm_compute; intros ? [])) ltac:(vm_compute; reflexivity)) as (a' & S & Ph & _).
  exists a'. split; [exact S|exact Ph].
Defined.
