(* ===== verification/OperationStore.v ===== *)
(** * The store a workflow holds

    [OperationStore] of [native/src/operation_store.rs]: either the one direct backend, or
    a scoped port into the broker's.  The direct backend is owned by the value; the broker
    is shared, so every method is given it and returns it. *)
From S2P Require Import Prelude Json Serde ReceiptFields PhaseMachine Filesystem Store Publication StoredReceipt OperationView Reading Backend Refinement Broker.
From S2P Require OperationReceipt GenericReceipt RestoreReceipt ApplyReceipt CaptureReceipt.

Inductive StoreMode :=
| Direct (s : State)
| Scoped (port : Z).

Section Methods.
Context {Env : Environment} {Codec : SerdeJson} {Sha : Sha256}.

(** A method with its result, the store after it and the broker after it *)
Definition W (A : Type) : Type := StoreMode -> Broker -> result StoreError A * StoreMode * Broker.

(** [match &mut self.mode] *)
Definition by_mode {A} (direct : M A) (scoped : Z -> B A) : W A := fun mode b =>
  match mode with
  | Direct s => let '(r, s) := direct s in (r, Direct s, b)
  | Scoped port => let '(r, b) := scoped port b in (r, Scoped port, b)
  end.

Definition os_new (r : Path) (endpoint : string) (w : World) : result StoreError StoreMode * World :=
  match new r endpoint w with
  | (Ok s, w) => (Ok (Direct s), w)
  | (Err e, w) => (Err e, w)
  end.

(** [ReceiptBroker::new] takes a direct store only. *)
Definition broker_of_store (mode : StoreMode) : result StoreError Broker :=
  match mode with
  | Direct s => Ok (broker_new s)
  | Scoped _ => Err Conflict
  end.

(** The state the store reads and writes *)
Definition backing (mode : StoreMode) (b : Broker) : State :=
  match mode with Direct s => s | Scoped _ => store b end.

Definition os_endpoint_hash (mode : StoreMode) (b : Broker) : string :=
  endpoint_hash (backend (backing mode b)).

(** [dispatch_fence]: a fence is the number of its scope. *)
Definition dispatch_fence (mode : StoreMode) : option Z :=
  match mode with Direct _ => None | Scoped port => Some port end.

(** The methods of [read_view]: a scoped store reads through the broker's view. *)
Definition os_read (id : string) : W OperationReceipt.OperationReceipt :=
  by_mode (view_read id) (fun _ => on_store (view_read id)).
Definition os_try_summary : W ObservedSummary :=
  by_mode try_summary (fun _ => on_store try_summary).

Definition os_prepare (id : string) (k : OperationReceipt.OperationKind) (generation : Z)
  (utc : string) (details : PrepareDetails) : W OperationReceipt.OperationReceipt :=
  by_mode (prepare id k generation utc details)
    (fun port => port_prepare port id k generation utc details).

Definition os_update (r : OperationReceipt.OperationReceipt) (u : OperationReceipt.OperationUpdate)
  (utc : string) : W OperationReceipt.OperationReceipt :=
  by_mode (update r u utc) (fun port => port_update port r u utc).

Definition os_prepare_generic (id : string) (k : GenericReceipt.GenericKind) (generation : Z)
  (utc : string) : W GenericReceipt.GenericReceipt :=
  by_mode (prepare_generic id k generation utc)
    (fun port => port_prepare_generic port id k generation utc).

Definition os_update_generic (r : GenericReceipt.GenericReceipt) (p : GenericReceipt.GenericPhase)
  (utc : string) : W GenericReceipt.GenericReceipt :=
  by_mode (update_generic r p utc) (fun port => port_update_generic port r p utc).

Definition os_prepare_restore (id : string) (generation request_count : Z) (utc : string)
  : W RestoreReceipt.RestoreReceipt :=
  by_mode (prepare_restore id generation request_count utc)
    (fun port => port_prepare_restore port id generation request_count utc).

Definition os_update_restore (r : RestoreReceipt.RestoreReceipt) (p : RestoreReceipt.RestorePhase)
  (counts : option RestoreReceipt.RestoreCounts) (utc : string) : W RestoreReceipt.RestoreReceipt :=
  by_mode (update_restore r p counts utc) (fun port => port_update_restore port r p counts utc).

Definition os_prepare_apply (id : string) (generation creation_count : Z) (utc : string)
  : W ApplyReceipt.ApplyReceipt :=
  by_mode (prepare_apply id generation creation_count utc)
    (fun port => port_prepare_apply port id generation creation_count utc).

Definition os_update_apply (r : ApplyReceipt.ApplyReceipt) (u : ApplyReceipt.ApplyUpdate)
  (utc : string) : W ApplyReceipt.ApplyReceipt :=
  by_mode (update_apply r u utc) (fun port => port_update_apply port r u utc).

Definition os_prepare_capture (id : string) (generation : Z) (plan : CaptureReceipt.CapturePlan)
  (utc : string) : W CaptureReceipt.CaptureReceipt :=
  by_mode (prepare_capture id generation plan utc)
    (fun port => port_prepare_capture port id generation plan utc).

Definition os_update_capture (r : CaptureReceipt.CaptureReceipt) (u : CaptureReceipt.CaptureUpdate)
  (utc : string) : W CaptureReceipt.CaptureReceipt :=
  by_mode (update_capture r u utc) (fun port => port_update_capture port r u utc).

End Methods.

(** ** A scoped method is the backend's method between reads *)

Section Scoped.
Context {Env : Environment} {Codec : SerdeJson} {Sha : Sha256} (d : list string) (Hpriv : private d).

(** Two states of the store with the same receipts *)
Notation same s s' := (frame d s s').

Lemma bbind_run_inv {A C} (c : B A) (k : A -> B C) b r b' :
  bbind c k b = (r, b') ->
  (exists e, c b = (Err e, b') /\ r = Err e) \/ (exists a b1, c b = (Ok a, b1) /\ k a b1 = (r, b')).
Proof. unfold bbind. destruct (c b) as [[a|e] b1]; [right; eauto|]. intros [= <- <-]. eauto. Qed.

Lemma brequire_inv p e b r b' :
  brequire p e b = (r, b') -> b' = b /\ (r = Err e \/ (r = Ok tt /\ p = true)).
Proof. unfold brequire. destruct p; intros [= <- <-]; auto. Qed.

Lemma on_store_inv {A} (m : M A) b r b' : on_store m b = (r, b') -> m (store b) = (r, store b').
Proof. unfold on_store. destruct (m (store b)). by intros [= -> <-]. Qed.

Lemma on_store_framed {A} (m : M A) b r b' :
  framed d m -> here d (store b) -> on_store m b = (r, b') -> same (store b) (store b').
Proof. intros Hm Hh E%on_store_inv. specialize (Hm _ Hh). by rewrite E in Hm. Qed.

(** What [apply] adds reads, and sets the flag of the view. *)
Lemma apply_run {A} (c : B A) b r b' :
  apply c b = (r, b') ->
  exists b1, c b = (r, b1) /\
    (here d (store b1) ->
     here d (store b') /\ same_children d (disk (world (store b1))) (disk (world (store b')))).
Proof.
  assert (Hpoison : forall fs b, here d (store b) -> same_children d fs (disk (world (store b))) ->
    here d (store (snd (poison b))) /\
    same_children d fs (disk (world (store (snd (poison b)))))).
  { intros fs b0. unfold poison, bbind, bmodify, on_store. simpl. done. }
  unfold apply. destruct (c b) as [[a|e] b1].
  - intros [= <- <-]. exists b1. split; [done|]. by intros Hh.
  - destruct (loses_proof e).
    + intros [= <- <-]. exists b1. split; [done|]. intros Hh. by apply (Hpoison _ b1).
    + destruct (on_store admission b1) as [r2 b2] eqn:E2. intros [= <- <-]. exists b1.
      split; [done|]. intros Hh.
      pose proof (on_store_framed _ _ _ _ (admission_except_framed d (same_children d) Hpriv None)
        Hh E2) as F. pose proof (frame_here _ _ _ _ F Hh) as Hh2.
      destruct (is_err r2); [|split; [done|apply F]].
      apply (Hpoison _ b2 Hh2), F.
Qed.

(** [check_loan] reads the scopes only. *)
Lemma check_loan_inv port allowed id b r b' :
  check_loan port allowed id b = (r, b') -> b' = b /\ (r = Ok tt \/ r = Err Conflict).
Proof.
  unfold check_loan. intros [(e & [=] & _)|(b0 & b1 & [= <- <-] & Hr)]%bbind_run_inv.
  apply brequire_inv in Hr as [-> [->|[-> _]]]; auto.
Qed.

(** [update] through the store, whichever mode it is in *)
Lemma os_update_run r u utc mode b res mode' b' :
  here d (backing mode b) -> os_update r u utc mode b = (res, mode', b') ->
  dispatch_fence mode' = dispatch_fence mode /\ here d (backing mode' b') /\
  exists s', (update r u utc (backing mode b) = (res, s') \/ (res = Err Conflict /\ s' = backing mode b)) /\
    same_children d (disk (world s')) (disk (world (backing mode' b'))).
Proof.
  intros Hh. unfold os_update, by_mode. destruct mode as [s|port]; simpl in *.
  - destruct (update r u utc s) as [r1 s1] eqn:E. intros [= <- <- <-].
    split; [done|]. simpl.
    assert (Hr : run_op (UpdateV1 r u utc) s = (match r1 with Ok a => Ok (V1 a) | Err e => Err e end, s1))
      by (cbn [run_op]; rewrite wrap_run, E; done).
    apply (run_op_refines d Hpriv) in Hr as [Hk _]; [|done|done].
    split; [by eapply kept_here|]. exists s1. split; [by left|done].
  - destruct (port_update port r u utc b) as [r1 b1] eqn:E. intros [= <- <- <-]. simpl.
    apply apply_run in E as (b2 & E & Hs). split; [done|].
    apply bbind_run_inv in E as [(e & E & ->)|(u0 & b3 & E1 & E2)].
    + apply check_loan_inv in E as [-> [[=]|[= ->]]]. destruct (Hs Hh). split; [done|].
      exists (store b). split; [by right|done].
    + apply check_loan_inv in E1 as [-> _]. apply on_store_inv in E2.
      assert (Hr : run_op (UpdateV1 r u utc) (store b) =
        (match r1 with Ok a => Ok (V1 a) | Err e => Err e end, store b2))
        by (cbn [run_op]; rewrite wrap_run, E2; done).
      apply (run_op_refines d Hpriv) in Hr as [Hk _]; [|done|done].
      destruct Hs; [by eapply kept_here|]. split; [done|]. exists (store b2). split; [by left|done].
Qed.

(** [prepare] through the store *)
Lemma os_prepare_run id k g at_ details mode b rec mode' b' :
  here d (backing mode b) -> os_prepare id k g at_ details mode b = (Ok rec, mode', b') ->
  dispatch_fence mode' = dispatch_fence mode /\
  exists s1, same (backing mode b) s1 /\
    prepare id k g at_ details s1 = (Ok rec, backing mode' b').
Proof.
  intros Hh. unfold os_prepare, by_mode. destruct mode as [s|port]; simpl in *.
  - destruct (prepare id k g at_ details s) as [r1 s1] eqn:E. intros [= -> <- <-].
    split; [done|]. exists s. split; [reflexivity|done].
  - destruct (port_prepare port id k g at_ details b) as [r1 b1] eqn:E. intros [= -> <- <-].
    split; [done|]. simpl. unfold port_prepare, apply in E.
    match type of E with context [bbind ?c ?f b] => destruct (bbind c f b) as [[a|e] b2] eqn:E1 end.
    2: { destruct (loses_proof e); [done|]. by destruct (on_store admission b2). }
    injection E as -> ->.
    apply bbind_run_inv in E1 as [(? & _ & [=])|(sc & b2 & E2 & E)].
    unfold get_scope in E2. apply bbind_run_inv in E2 as [(? & _ & [=])|(b3 & ? & [= <- <-] & E2)].
    destruct (scopes b !! port); [|done]. injection E2 as <- <-.
    apply bbind_run_inv in E as [(? & _ & [=])|(? & b3 & E2 & E)].
    apply brequire_inv in E2 as [-> _].
    apply bbind_run_inv in E as [(? & _ & [=])|(? & b3 & [= <- <-] & E)].
    apply bbind_run_inv in E as [(? & _ & [=])|(? & b3 & E2 & E)].
    apply brequire_inv in E2 as [-> _].
    apply bbind_run_inv in E as [(? & _ & [=])|(? & b3 & E2 & E)].
    assert (F : same (store b) (store b3)).
    { unfold check_capacity in E2.
      apply bbind_run_inv in E2 as [(? & [=] & _)|(? & b4 & [= <- <-] & E2)].
      apply bbind_run_inv in E2 as [(? & E3 & _)|(? & b4 & E3 & E2)];
        apply (on_store_framed _ _ _ _ (capacity_used_framed d (same_children d) Hpriv) Hh) in E3; [done|].
      by apply brequire_inv in E2 as [-> _]. }
    apply bbind_run_inv in E as [(? & _ & [=])|(? & b4 & E3 & E)].
    apply brequire_inv in E3 as [-> _].
    apply bbind_run_inv in E as [(? & _ & [=])|(rec' & b4 & E3 & E)].
    apply on_store_inv in E3. exists (store b3). split; [done|]. rewrite E3.
    apply bbind_run_inv in E as [(? & _ & [=])|(? & b5 & [= _ <-] & E)].
    apply bbind_run_inv in E as [(? & _ & [=])|(? & b6 & E4 & [= <- <-])].
    repeat case_match; injection E4 as _ <-; done.
Qed.

End Scoped.
