(* ===== verification/Custody.v ===== *)
(** * Custody of one request

    [native/src/custody.rs]: the coordinator that owns the receipt writer and one pending
    request.  [begin] decides the policy, publishes the two intents and leaves an observer
    behind; the observer sends the request through the session with a guard that decides
    everything again at the moment of dispatch; [finish] waits for it and publishes the
    result.  The session's part is [Dispatch]. *)
From S2P Require Import Prelude Json Serde ReceiptFields PhaseMachine Filesystem Store Publication StoredReceipt OperationView Reading Backend Refinement Broker OperationStore.
From S2P Require OperationReceipt Control Dispatch.

Record ClockSnapshot := {
  epoch_ms : Z;
  utc : string
}.

Record PolicyCall := {
  tool_name : string;
  arguments : Value;
  read_only_hint : bool;
  caller : string;
  confirmation : Control.ConfirmationContext
}.

Record TrackedRequest := {
  tr_operation_id : string;
  tr_kind : OperationReceipt.OperationKind;
  expected : Z;
  policy : PolicyCall;
  details : PrepareDetails;
  request_type : string;
  request_data : Value;
  timeout : Z
}.

#[export] Instance RefusalKind_eq_dec : EqDecision Control.RefusalKind.
Proof. solve_decision. Defined.
#[export] Instance Disposition_eq_dec : EqDecision Control.Disposition.
Proof. solve_decision. Defined.

Inductive IntentStep := IntentPrepared | IntentDispatching.

Inductive BeginError :=
| Busy
| InvalidDeadline
| BeginStaleConnection
| PolicyUnavailable
| PolicyRefused (d : Control.Disposition)
| ReceiptFailed (operation_id : string) (step : IntentStep) (error : StoreError).

Inductive TransportDisposition :=
| TransportAccepted
| TransportNotDispatched (reason : Dispatch.BeforeDispatch)
| TransportRejected (code : Z)
| TransportUnknown (reason : Dispatch.Invalidation).

Inductive FinishError :=
| NoPending
| CustodyUncertain (last_confirmed_receipt : OperationReceipt.OperationReceipt)
    (transport : TransportDisposition) (error : StoreError).

Inductive Outcome :=
| Accepted (receipt : OperationReceipt.OperationReceipt) (response : Value)
| NotDispatched (receipt : OperationReceipt.OperationReceipt) (reason : Dispatch.BeforeDispatch)
    (refused : option Control.Disposition)
| Rejected (receipt : OperationReceipt.OperationReceipt) (code : Z)
| Unknown (receipt : OperationReceipt.OperationReceipt) (reason : Dispatch.Invalidation).

(** What the process shares: the control domain behind its mutex, and the broker *)
Record Shared := {
  control : Control.ControlDomain;
  control_poisoned : bool;
  broker : Broker
}.

(** The shared state at a moment, with the clocks *)
Record Moment := {
  m_shared : Shared;
  m_now : Z;
  m_snapshot : ClockSnapshot;
  (** the disposition saved by the observer *)
  m_refusal : option Control.Disposition
}.

(** What the observer's closure captured, and the last receipt confirmed *)
Record Pending := {
  p_receipt : OperationReceipt.OperationReceipt;
  p_deadline : Z;
  p_request : TrackedRequest;
  p_fence : option Z
}.

Record CustodyCoordinator := {
  co_store : StoreMode;
  session_token : Z;
  session_endpoint : string;
  pending : option Pending
}.


Section Coordinator.
Context {Env : Environment} {Codec : SerdeJson} {Sha : Sha256} {Fmt : Control.F64Format}.

Definition policy_evaluate (self : PolicyCall) (c : Control.ControlDomain) (now_ms : Z)
  : Control.Disposition * Control.ControlDomain :=
  Control.evaluate c
    {| Control.tool_name := tool_name self; Control.arguments := arguments self;
       Control.read_only_hint := read_only_hint self; Control.caller := caller self;
       Control.confirmation := confirmation self |} now_ms.

Definition with_control (c : Control.ControlDomain) (sh : Shared) : Shared :=
  {| control := c; control_poisoned := control_poisoned sh; broker := broker sh |}.
Definition with_broker (b : Broker) (sh : Shared) : Shared :=
  {| control := control sh; control_poisoned := control_poisoned sh; broker := b |}.

Definition co_new (mode : StoreMode) (token : Z) (endpoint : string) (b : Broker)
  : result StoreError CustodyCoordinator :=
  if negb (str_eqb (os_endpoint_hash mode b) endpoint) then Err EndpointMismatch
  else Ok {| co_store := mode; session_token := token; session_endpoint := endpoint;
             pending := None |}.

Definition co_into_store (self : CustodyCoordinator) : StoreMode + CustodyCoordinator :=
  match pending self with Some _ => inr self | None => inl (co_store self) end.

Definition with_store_mode (mode : StoreMode) (self : CustodyCoordinator) : CustodyCoordinator :=
  {| co_store := mode; session_token := session_token self;
     session_endpoint := session_endpoint self; pending := pending self |}.

(** The intent published before the request can enter the queue *)
Definition dispatch_intent : OperationReceipt.OperationUpdate :=
  {| OperationReceipt.new_phase := OperationReceipt.Dispatching;
     OperationReceipt.set_dispatched := Some None; OperationReceipt.set_accepted := None;
     OperationReceipt.set_observed := None |}.

(** The two publications of [begin] *)
Definition publish_intents (request : TrackedRequest) (generation : Z) (at_ : string)
  (mode : StoreMode) (b : Broker)
  : result BeginError OperationReceipt.OperationReceipt * StoreMode * Broker :=
  match os_prepare (tr_operation_id request) (tr_kind request) generation at_ (details request)
          mode b with
  | (Err e, mode, b) => (Err (ReceiptFailed (tr_operation_id request) IntentPrepared e), mode, b)
  | (Ok prepared, mode, b) =>
      match os_update prepared dispatch_intent at_ mode b with
      | (Err e, mode, b) =>
          (Err (ReceiptFailed (tr_operation_id request) IntentDispatching e), mode, b)
      | (Ok receipt, mode, b) => (Ok receipt, mode, b)
      end
  end.

Definition begin (self : CustodyCoordinator) (request : TrackedRequest) (now : Z)
  (snapshot : ClockSnapshot) (sh : Shared)
  : result BeginError unit * CustodyCoordinator * Shared :=
  match pending self with
  | Some _ => (Err Busy, self, sh)
  | None =>
      match opt_filter (fun _ => negb (timeout request =? 0))
              (instant_checked_add now (timeout request)) with
      | None => (Err InvalidDeadline, self, sh)
      | Some deadline =>
          if control_poisoned sh then (Err PolicyUnavailable, self, sh)
          else
            let '(disposition, c) :=
              policy_evaluate (policy request) (control sh) (epoch_ms snapshot) in
            let sh := with_control c sh in
            if negb (bool_decide (disposition = Control.Allow))
            then (Err (PolicyRefused disposition), self, sh)
            else if negb (expected request =? session_token self)
            then (Err BeginStaleConnection, self, sh)
            else
              match publish_intents request (session_token self) (utc snapshot)
                      (co_store self) (broker sh) with
              | (Err e, mode, b) => (Err e, with_store_mode mode self, with_broker b sh)
              | (Ok receipt, mode, b) =>
                  (Ok tt,
                   {| co_store := mode; session_token := session_token self;
                      session_endpoint := session_endpoint self;
                      pending := Some {| p_receipt := receipt; p_deadline := deadline;
                                         p_request := request;
                                         p_fence := dispatch_fence mode |} |},
                   with_broker b sh)
              end
      end
  end.

(** The closure given to [request_checked], run by the socket owner *)
Definition final_guard (p : Pending) (m : Moment) : result string unit * Moment :=
  let keep sh refusal :=
    {| m_shared := sh; m_now := m_now m; m_snapshot := m_snapshot m; m_refusal := refusal |} in
  if p_deadline p <=? m_now m
  then (Err "Custody operation deadline expired before dispatch"%string, m)
  else if control_poisoned (m_shared m) then (Err "Control policy is unavailable"%string, m)
  else
    let '(disposition, c) :=
      policy_evaluate (policy (p_request p)) (control (m_shared m)) (epoch_ms (m_snapshot m)) in
    let sh := with_control c (m_shared m) in
    if bool_decide (disposition = Control.Allow) then
      match p_fence p with
      | None => (Ok tt, keep sh (m_refusal m))
      | Some fence =>
          let '(allowed, b) :=
            permits fence (OperationReceipt.operation_id (p_receipt p)) (broker sh) in
          let sh := with_broker b sh in
          match allowed with
          | Ok true => (Ok tt, keep sh (m_refusal m))
          | _ => (Err "Receipt custody changed before dispatch"%string, keep sh (m_refusal m))
          end
      end
    else (Err "Control policy changed before dispatch; inspect the returned disposition"%string,
          keep sh (Some disposition)).

(** What [finish] learns from the observer *)
Definition transport_of (response : result Dispatch.RequestError Value) : TransportDisposition :=
  match response with
  | Ok _ => TransportAccepted
  | Err (Dispatch.NotSent reason) => TransportNotDispatched reason
  | Err (Dispatch.Rejected code) | Err (Dispatch.RejectedDetailed code _) => TransportRejected code
  | Err (Dispatch.Unknown reason) => TransportUnknown reason
  end.

Definition update_of (transport : TransportDisposition) : OperationReceipt.OperationUpdate :=
  let mk p dispatched accepted :=
    {| OperationReceipt.new_phase := p; OperationReceipt.set_dispatched := Some dispatched;
       OperationReceipt.set_accepted := Some accepted; OperationReceipt.set_observed := None |} in
  match transport with
  | TransportAccepted => mk OperationReceipt.Accepted (Some true) (Some true)
  | TransportNotDispatched _ => mk OperationReceipt.NotDispatched (Some false) None
  | TransportRejected _ => mk OperationReceipt.Unknown (Some true) (Some false)
  | TransportUnknown _ => mk OperationReceipt.Unknown None None
  end.

(** [finish], from the observer's response on; [refusal] is what the guard saved. *)
Definition finish (self : CustodyCoordinator) (response : result Dispatch.RequestError Value)
  (refusal : option Control.Disposition) (snapshot : ClockSnapshot) (sh : Shared)
  : result FinishError Outcome * CustodyCoordinator * Shared :=
  match pending self with
  | None => (Err NoPending, self, sh)
  | Some p =>
      let transport := transport_of response in
      let '(r, mode, b) :=
        os_update (p_receipt p) (update_of transport) (utc snapshot) (co_store self) (broker sh) in
      let self := {| co_store := mode; session_token := session_token self;
                     session_endpoint := session_endpoint self; pending := None |} in
      let sh := with_broker b sh in
      match r with
      | Err e => (Err (CustodyUncertain (p_receipt p) transport e), self, sh)
      | Ok receipt =>
          (Ok (match response with
               | Ok response => Accepted receipt response
               | Err (Dispatch.NotSent reason) => NotDispatched receipt reason refusal
               | Err (Dispatch.Rejected code) | Err (Dispatch.RejectedDetailed code _) =>
                   Rejected receipt code
               | Err (Dispatch.Unknown reason) => Unknown receipt reason
               end), self, sh)
      end
  end.

(** The observer before it reaches the session: a late first poll spends the budget. *)
Definition first_poll (p : Pending) (now : Z) : result Dispatch.RequestError Z :=
  if now <? p_deadline p then Ok (p_deadline p - now) else Err (Dispatch.NotSent Dispatch.Deadline).

(** ** What is on disk *)

Section Durable.
Context (d : list string) (Hpriv : private d).

Notation on_disk s := (lookup_receipt d (disk (world s))).

Lemma same_lookup fs fs' id :
  same_children d fs fs' -> lookup_receipt d fs' id = lookup_receipt d fs id.
Proof. intros Hs. unfold lookup_receipt. by rewrite (same_children_contents _ _ _ _ Hs). Qed.

Lemma os_update_refines r u at_ mode b res mode' b' :
  here d (backing mode b) -> os_update r u at_ mode b = (res, mode', b') ->
  dispatch_fence mode' = dispatch_fence mode /\ here d (backing mode' b') /\
  match res with
  | Ok a =>
      a = OperationReceipt.updated_record r u at_ /\
      on_disk (backing mode b) (OperationReceipt.operation_id r) = Some (Ok (V1 r)) /\
      on_disk (backing mode' b') (OperationReceipt.operation_id r) = Some (Ok (V1 a))
  | Err DurabilityUncertain => True
  | Err _ => forall id, on_disk (backing mode' b') id = on_disk (backing mode b) id
  end.
Proof.
  intros Hh Hr. apply (os_update_run d Hpriv) in Hr as (Hf & Hh' & s' & Hu & Hs); [|done].
  split; [done|]. split; [done|]. destruct Hu as [Hu|[-> ->]].
  2: { intros id. by apply same_lookup. }
  assert (Hop : run_op (UpdateV1 r u at_) (backing mode b) =
    (match res with Ok a => Ok (V1 a) | Err e => Err e end, s'))
    by (cbn [run_op]; rewrite wrap_run, Hu; by destruct res).
  apply (run_op_refines d Hpriv) in Hop as [_ Hop]; [|done|done]. destruct res as [a|e].
  - destruct Hop as [Hres Hb Ha _]. unfold op_result in Hres.
    apply bind_result_Ok in Hres as (a' & Hc & [= ->]).
    apply OperationReceipt.v1_checked_Ok in Hc as [-> _]. simpl in *.
    rewrite (same_lookup _ _ _ Hs). done.
  - destruct e; try done; intros id; by rewrite (same_lookup _ _ _ Hs).
Qed.

Lemma os_prepare_refines id k g at_ dt mode b rec mode' b' :
  here d (backing mode b) -> os_prepare id k g at_ dt mode b = (Ok rec, mode', b') ->
  dispatch_fence mode' = dispatch_fence mode /\ here d (backing mode' b') /\
  (exists e, rec = v1_record id k e g at_ dt) /\ on_disk (backing mode b) id = None.
Proof.
  intros Hh Hr. apply (os_prepare_run d Hpriv) in Hr as (Hf & s1 & F & Hp); [|done].
  assert (Hop : run_op (PrepareV1 id k g at_ dt) s1 = (Ok (V1 rec), backing mode' b'))
    by (cbn [run_op]; by rewrite wrap_run, Hp).
  pose proof (frame_here _ _ _ _ F Hh) as Hh1.
  apply (run_op_refines d Hpriv) in Hop as [Hk [Hres Hb _ _]]; [|done|done].
  unfold op_result in Hres. apply bind_result_Ok in Hres as (a' & Hc & [= ->]).
  apply OperationReceipt.v1_checked_Ok in Hc as [-> _]. simpl in *.
  split; [done|]. split; [by eapply kept_here|]. split; [eauto|].
  by rewrite (same_lookup _ _ _ (frame_children _ _ _ F)) in Hb.
Qed.

(** Both intents are durable before the request can be queued: when [begin] succeeds,
    nothing else was pending, the policy allowed the call at that moment, the request was
    for this connection, its identifier had no receipt, and now the store's disk holds
    under it exactly the receipt the coordinator keeps, in the dispatching phase with the
    dispatch and the acceptance both unknown; this for a direct store and for a broker's
    port alike. *)
Theorem begin_publishes_intent self request now snapshot sh self' sh' :
  here d (backing (co_store self) (broker sh)) ->
  begin self request now snapshot sh = (Ok tt, self', sh') ->
  pending self = None /\ expected request = session_token self /\
  fst (policy_evaluate (policy request) (control sh) (epoch_ms snapshot)) = Control.Allow /\
  on_disk (backing (co_store self) (broker sh)) (tr_operation_id request) = None /\
  exists p, pending self' = Some p /\
    let r := p_receipt p in
    on_disk (backing (co_store self') (broker sh')) (tr_operation_id request) = Some (Ok (V1 r)) /\
    OperationReceipt.operation_id r = tr_operation_id request /\
    OperationReceipt.kind r = tr_kind request /\
    OperationReceipt.generation r = session_token self /\
    OperationReceipt.phase r = OperationReceipt.Dispatching /\
    OperationReceipt.request_dispatched r = None /\
    OperationReceipt.request_accepted r = None /\
    p_deadline p = now + timeout request /\ p_request p = request /\
    p_fence p = dispatch_fence (co_store self).
Proof.
  intros Hh Hb. unfold begin in Hb. destruct (pending self); [done|].
  destruct (opt_filter _ _) as [deadline|] eqn:Ed; [|done]. destruct (control_poisoned sh); [done|].
  destruct (policy_evaluate _ _ _) as [disp c]. case_bool_decide as Hd; [|done]. simpl in Hb.
  destruct (Z.eqb_spec (expected request) (session_token self)) as [He|]; [|done]. simpl in Hb.
  unfold publish_intents in Hb. destruct (os_prepare _ _ _ _ _ _ _) as [[[rec|e] mode1] b1] eqn:E1; [|done].
  apply os_prepare_refines in E1 as (F1 & Hh1 & [e ->] & Hnone); [|done].
  destruct (os_update _ _ _ mode1 b1) as [[[rec2|e2] mode2] b2] eqn:E2; [|done].
  injection Hb as <- <-. apply os_update_refines in E2 as (F2 & Hh2 & -> & _ & Hl); [|done].
  assert (Hdl : deadline = now + timeout request).
  { unfold instant_checked_add, opt_filter in Ed. repeat case_match; by simplify_eq. }
  split_and!; try done. eexists. split; [reflexivity|]. simpl.
  split_and!; try done. by rewrite F2, F1.
Qed.

(** A refusal before the intents creates no receipt: when [begin] refuses because a
    request is pending, the deadline is unusable, the policy is unavailable or does not
    allow the call, or the connection is stale, the coordinator with its store and the
    broker are exactly as before; and no failed [begin] ever leaves a pending request that
    was not there. *)
Theorem refusal_creates_no_receipt self request now snapshot sh e self' sh' :
  begin self request now snapshot sh = (Err e, self', sh') ->
  pending self' = pending self /\
  (match e with ReceiptFailed _ _ _ => True | _ => self' = self /\ broker sh' = broker sh end).
Proof.
  intros Hb. unfold begin in Hb. destruct (pending self) eqn:Ep; [by simplify_eq|].
  destruct (opt_filter _ _); [|by simplify_eq].
  destruct (control_poisoned sh); [by simplify_eq|].
  destruct (policy_evaluate _ _ _) as [disp c]. case_bool_decide; simpl in Hb;
    [|by simplify_eq].
  destruct (_ =? _); simpl in Hb; [|by simplify_eq].
  unfold publish_intents in Hb. destruct (os_prepare _ _ _ _ _ _ _) as [[[rec|e1] mode1] b1];
    [|by simplify_eq].
  destruct (os_update _ _ _ mode1 b1) as [[[rec2|e2] mode2] b2]; by simplify_eq.
Qed.

(** The phase and the two facts a response is recorded with *)
Definition recorded (response : result Dispatch.RequestError Value)
  : OperationReceipt.Phase * option bool * option bool :=
  match response with
  | Ok _ => (OperationReceipt.Accepted, Some true, Some true)
  | Err (Dispatch.NotSent _) => (OperationReceipt.NotDispatched, Some false, None)
  | Err (Dispatch.Rejected _) | Err (Dispatch.RejectedDetailed _ _) =>
      (OperationReceipt.Unknown, Some true, Some false)
  | Err (Dispatch.Unknown _) => (OperationReceipt.Unknown, None, None)
  end.

Definition outcome_receipt (o : Outcome) : OperationReceipt.OperationReceipt :=
  match o with
  | Accepted r _ | NotDispatched r _ _ | Rejected r _ | Unknown r _ => r
  end.

(** [finish] settles exactly the pending request and tells the truth about it: on
    success the store's disk holds the outcome's receipt, which is the pending one with
    the phase and the dispatch and acceptance facts of the response (a rejection is not an
    acceptance, and an unknown fate claims neither); on failure the caller gets the last
    receipt confirmed, and unless durability itself is in doubt the disk still holds what
    it held; either way no request is pending afterwards. *)
Theorem finish_records_response self p response refusal snapshot sh res self' sh' :
  here d (backing (co_store self) (broker sh)) -> pending self = Some p ->
  finish self response refusal snapshot sh = (res, self', sh') ->
  pending self' = None /\
  match res with
  | Ok o =>
      let r := outcome_receipt o in
      on_disk (backing (co_store self') (broker sh')) (OperationReceipt.operation_id (p_receipt p))
        = Some (Ok (V1 r)) /\
      (OperationReceipt.phase r, OperationReceipt.request_dispatched r,
       OperationReceipt.request_accepted r) = recorded response /\
      OperationReceipt.operation_id r = OperationReceipt.operation_id (p_receipt p) /\
      OperationReceipt.postcondition_observed r =
        OperationReceipt.postcondition_observed (p_receipt p)
  | Err (CustodyUncertain last _ e) =>
      last = p_receipt p /\
      (e <> DurabilityUncertain -> forall id,
         on_disk (backing (co_store self') (broker sh')) id =
         on_disk (backing (co_store self) (broker sh)) id)
  | Err NoPending => False
  end.
Proof.
  intros Hh Hp Hf. unfold finish in Hf. rewrite Hp in Hf.
  destruct (os_update _ _ _ _ _) as [[[rec|e] mode1] b1] eqn:E; injection Hf as <- <- <-;
    (split; [done|]); apply os_update_refines in E as (_ & _ & E); try done; simpl.
  - destruct E as (-> & _ & Hl).
    replace (outcome_receipt _) with
      (OperationReceipt.updated_record (p_receipt p) (update_of (transport_of response)) (utc snapshot))
      by (by destruct response as [|[]]).
    split_and!; try done; by destruct response as [|[]].
  - split; [done|]. intros Hne. by destruct e.
Qed.

End Durable.

(** ** From intent to outcome *)

(** What the observer can report for a pending request: it gave up before the queue, or
    the session's protocol returned to it; [moment] is where its guard ran. *)
Inductive observes (p : Pending) : result Dispatch.RequestError Value -> bool -> option Moment -> Prop :=
| observe_unqueued reason : observes p (Err (Dispatch.NotSent reason)) false None
| observe_returned stale (c : @Dispatch.Config Moment Value) r :
    Dispatch.reachable (final_guard p) stale c -> Dispatch.caller c = Dispatch.Returned r ->
    observes p r (Dispatch.sent c) (Dispatch.guarded_at c).

Lemma final_guard_allows p m m' :
  final_guard p m = (Ok tt, m') ->
  m_now m < p_deadline p /\
  fst (policy_evaluate (policy (p_request p)) (control (m_shared m)) (epoch_ms (m_snapshot m)))
    = Control.Allow /\
  (forall fence, p_fence p = Some fence ->
     fst (permits fence (OperationReceipt.operation_id (p_receipt p)) (broker (m_shared m))) = Ok true).
Proof.
  unfold final_guard. destruct (Z.leb_spec (p_deadline p) (m_now m)); [done|].
  destruct (control_poisoned (m_shared m)); [done|].
  destruct (policy_evaluate _ _ _) as [disp c]. case_bool_decide as Hd; [|done].
  intros Hr. split_and!; [done|done|]. intros fence Hf. rewrite Hf in Hr. simpl in *.
  destruct (permits _ _ _) as [[[]|] b]; done.
Qed.

(** C2: end to end, what custody reports is what happened on the wire, and nothing is sent
    unchecked: an outcome of NotDispatched means the request's frame was never handed to
    the socket; Accepted and Rejected mean it was; and whenever it was, there was a moment
    before it, inside the socket owner, at which the operation's deadline had not passed,
    the control policy allowed the call again, and the broker's fence permitted this very
    receipt. *)
Theorem custody_end_to_end self p response sent moment refusal snapshot sh o self' sh' :
  pending self = Some p -> observes p response sent moment ->
  finish self response refusal snapshot sh = (Ok o, self', sh') ->
  (match o with
   | NotDispatched _ _ _ => sent = false
   | Accepted _ _ | Rejected _ _ => sent = true
   | Unknown _ _ => True
   end) /\
  (sent = true -> exists m, moment = Some m /\ m_now m < p_deadline p /\
     fst (policy_evaluate (policy (p_request p)) (control (m_shared m)) (epoch_ms (m_snapshot m)))
       = Control.Allow /\
     (forall fence, p_fence p = Some fence ->
        fst (permits fence (OperationReceipt.operation_id (p_receipt p)) (broker (m_shared m)))
          = Ok true)).
Proof.
  intros Hp Hobs Hf. unfold finish in Hf. rewrite Hp in Hf.
  destruct (os_update _ _ _ _ _) as [[[rec|e] mode1] b1]; [|done]. injection Hf as <- _ _.
  destruct Hobs as [reason|stale c r Hc Hr]; [done|].
  pose proof (Dispatch.protocol_reachable_wf _ _ _ Hc) as Hw. split.
  - destruct (Dispatch.wf_returned _ _ Hw _ Hr) as [A B].
    destruct r as [v|[]]; simpl in *; auto. by apply A.
  - intros Hs. destruct (Dispatch.wf_approved _ _ Hw (or_intror Hs)) as (m & Hm & Hg).
    exists m. split; [done|]. destruct (final_guard p m) as [v m'] eqn:E. simpl in Hg. subst v.
    by apply final_guard_allows in E.
Qed.

End Coordinator.
