(* ===== verification/OutputEvents.v ===== *)
(** * First-terminal output events

    [native/src/output_events.rs]: a registry of at most [MAX_SUBSCRIPTIONS] waiters, each
    with a cell that receives the first eligible terminal event of its output, under a
    byte budget for the path copies.  A cell is shared between a slot and its subscription
    ([Arc]), so cells live in a store of their own, under the subscription's identity;
    events moved out to callers keep their bytes until they are dropped. *)
From S2P Require Import Prelude Json.

Definition MAX_SUBSCRIPTIONS : nat := 32.
Definition PATH_BYTES : Z := 8 * 1024 * 1024.
Definition OUTPUT_EVENTS : Z := Z.shiftl 1 6.

Inductive OutputKind := Record_ | Stream | VirtualCam | ReplayBuffer.

#[export] Instance OutputKind_eq_dec : EqDecision OutputKind.
Proof. solve_decision. Defined.

Definition event_name (self : OutputKind) : string :=
  match self with
  | Record_ => "RecordStateChanged"
  | Stream => "StreamStateChanged"
  | VirtualCam => "VirtualcamStateChanged"
  | ReplayBuffer => "ReplayBufferStateChanged"
  end.

Definition from_event (name : string) : option OutputKind :=
  List.find (fun kind => str_eqb (event_name kind) name) [Record_; Stream; VirtualCam; ReplayBuffer].

Inductive Terminal := Started | Stopped.

Inductive OutputEventError :=
| Capacity
| ByteCapacity
| PathTooLarge
| IdentityExhausted
| IncompleteEvents
| Unavailable
| Revoked
| ConfirmationExpired
| SettlementUnavailable.

(** [session::ObsEvent], as far as it is read here *)
Record ObsEvent := {
  e_connection : Z;
  e_sequence : Z;
  event_type : string;
  data : option Value;
  e_received_at : Z
}.

(** [session::SessionHandle], as it answers at one moment *)
Record Handle := {
  h_token : Z;
  invalidated : bool;
  event_subscriptions : Z;
  event_cursor : Z
}.

Record OutputEvent := {
  connection : Z;
  sequence : Z;
  received_at : Z;
  terminal : Terminal;
  path : option string
}.

Inductive Outcome :=
| Pending
| Ready (value : result OutputEventError OutputEvent)
| Consumed.

Record Slot := {
  slot_id : Z;
  kind : OutputKind;
  after : Z;
  registered_at : Z;
  confirmation_deadline : Z
}.

Record Registry := {
  token : Z;
  active : bool;
  next_id : option Z;
  slots : list (option Slot);
  cells : gmap Z Outcome;
  available : Z;
  progress : Z;
  taken : list OutputEvent
}.

(** [OutputSubscription]: its slot's index and identity, and the immutable clock *)
Record OutputSubscription := {
  index : nat;
  id : Z;
  sub_deadline : Z
}.

Definition with_cells (cs : gmap Z Outcome) (free : Z) (r : Registry) : Registry :=
  {| token := token r; active := active r; next_id := next_id r; slots := slots r;
     cells := cs; available := free; progress := progress r; taken := taken r |}.
Definition with_slots (l : list (option Slot)) (r : Registry) : Registry :=
  {| token := token r; active := active r; next_id := next_id r; slots := l;
     cells := cells r; available := available r; progress := progress r; taken := taken r |}.

(** [Registry::new] *)
Definition registry_new (t : Z) : Registry :=
  {| token := t; active := true; next_id := Some 1; slots := replicate MAX_SUBSCRIPTIONS None;
     cells := ∅; available := PATH_BYTES; progress := 0; taken := [] |}.

(** [State::identity] *)
Definition identity (next : option Z) : result OutputEventError (Z * option Z) :=
  match next with
  | None => Err IdentityExhausted
  | Some i => Ok (i, checked_add i 1)
  end.

(** [Registry::view] *)
Definition view (h : Handle) (r : Registry) : result OutputEventError unit :=
  if negb (h_token h =? token r) || invalidated h then Err Revoked
  else if negb (Z.land (event_subscriptions h) OUTPUT_EVENTS =? OUTPUT_EVENTS)
  then Err IncompleteEvents
  else if negb (active r) then Err Revoked
  else Ok tt.

(** ** Publication *)

Definition terminal_of (e : ObsEvent) : option Terminal :=
  data e >>? get "outputState" >>? as_str >>? fun s =>
    if str_eqb s "OBS_WEBSOCKET_OUTPUT_STARTED" then Some Started
    else if str_eqb s "OBS_WEBSOCKET_OUTPUT_STOPPED" then Some Stopped
    else None.

Definition path_of (e : ObsEvent) (t : Terminal) : option string :=
  match t with
  | Started => data e >>? get "outputPath" >>? as_str
  | Stopped => None
  end.

(** Which waiters an event of the kind is for *)
Definition eligible (e : ObsEvent) (k : OutputKind) (slot : Slot) : bool :=
  bool_decide (kind slot = k) && (after slot <? e_sequence e)
  && (registered_at slot <=? e_received_at e)
  && (e_received_at e <=? confirmation_deadline slot).

(** The copy of the path, charged to the budget *)
Definition lease_path (p : option string) (free : Z)
  : result OutputEventError (option string) * Z :=
  match p with
  | None => (Ok None, free)
  | Some text =>
      if PATH_BYTES <? str_len text then (Err PathTooLarge, free)
      else if str_len text <=? free then (Ok (Some text), free - str_len text)
      else (Err ByteCapacity, free)
  end.

(** One iteration of the loop of [publish] *)
Definition project (e : ObsEvent) (k : OutputKind) (t : Terminal)
  (acc : gmap Z Outcome * Z) (slot : Slot) : gmap Z Outcome * Z :=
  let '(cs, free) := acc in
  if negb (eligible e k slot) then acc
  else
    match cs !! slot_id slot with
    | Some Pending =>
        let '(selected, free) := lease_path (path_of e t) free in
        (<[slot_id slot := Ready (let? p := selected in
            Ok {| connection := e_connection e; sequence := e_sequence e;
                  received_at := e_received_at e; terminal := t; path := p |})]> cs, free)
    | _ => acc
    end.

Definition set_progress (n : Z) (r : Registry) : Registry :=
  {| token := token r; active := active r; next_id := next_id r; slots := slots r;
     cells := cells r; available := available r; progress := n; taken := taken r |}.

Definition registered (r : Registry) : list Slot := omap (fun s => s) (slots r).

Definition publish (e : ObsEvent) (r : Registry) : Registry :=
  if negb (active r) || negb (e_connection e =? token r) then r
  else
    let r :=
      match from_event (event_type e), terminal_of e with
      | Some k, Some t =>
          let '(cs, free) := fold_left (project e k t) (registered r) (cells r, available r) in
          with_cells cs free r
      | _, _ => r
      end in
    set_progress (e_sequence e) r.

Definition revoke_cell (cs : gmap Z Outcome) (slot : Slot) : gmap Z Outcome :=
  match cs !! slot_id slot with
  | Some Pending => <[slot_id slot := Ready (Err Revoked)]> cs
  | _ => cs
  end.

Definition revoke (r : Registry) : Registry :=
  {| token := token r; active := false; next_id := next_id r; slots := slots r;
     cells := fold_left revoke_cell (registered r) (cells r);
     available := available r; progress := progress r; taken := taken r |}.

Definition unregister (i : nat) (slot : Z) (r : Registry) : Registry :=
  match slots r !! i with
  | Some (Some s) => if slot_id s =? slot then with_slots (<[i := None]> (slots r)) r else r
  | _ => r
  end.

(** ** Subscriptions *)

(** [OutputEvents::subscribe]; [alive] tells whether the owner still holds the registry. *)
Definition subscribe (alive : bool) (h : Handle) (k : OutputKind) (deadline now : Z) (r : Registry)
  : result OutputEventError OutputSubscription * Registry :=
  if negb alive then (Err Revoked, r)
  else if negb (active r) || invalidated h || negb (h_token h =? token r) then (Err Revoked, r)
  else
    match position is_none (slots r) with
    | None => (Err Capacity, r)
    | Some i =>
        match identity (next_id r) with
        | Err e => (Err e, r)
        | Ok (n, next) =>
            (Ok {| index := i; id := n; sub_deadline := deadline |},
             {| token := token r; active := active r; next_id := next;
                slots := <[i := Some {| slot_id := n; kind := k; after := event_cursor h;
                                        registered_at := now; confirmation_deadline := deadline |}]>
                           (slots r);
                cells := <[n := Pending]> (cells r); available := available r;
                progress := progress r; taken := taken r |})
        end
    end.

Definition event_bytes (e : OutputEvent) : Z := default 0 (str_len <$> path e).

Definition outcome_bytes (o : Outcome) : Z :=
  match o with Ready (Ok e) => event_bytes e | _ => 0 end.

(** [Cell::take]: the event moves out to the caller. *)
Definition take_cell (n : Z) (r : Registry)
  : option (result OutputEventError OutputEvent) * Registry :=
  match cells r !! n with
  | Some (Ready v) =>
      (Some v,
       {| token := token r; active := active r; next_id := next_id r; slots := slots r;
          cells := <[n := Consumed]> (cells r); available := available r; progress := progress r;
          taken := match v with Ok e => e :: taken r | Err _ => taken r end |})
  | _ => (None, r)
  end.

(** [Drop for OutputSubscription], then of the last reference to its cell *)
Definition drop_subscription (sub : OutputSubscription) (r : Registry) : Registry :=
  let r := unregister (index sub) (id sub) r in
  match cells r !! id sub with
  | Some o => with_cells (delete (id sub) (cells r)) (available r + outcome_bytes o) r
  | None => r
  end.

(** Dropping a received event returns its bytes. *)
Fixpoint remove_at {A} (i : nat) (l : list A) : list A :=
  match l, i with
  | [], _ => []
  | _ :: l, O => l
  | x :: l, S i => x :: remove_at i l
  end.

Definition drop_event (i : nat) (r : Registry) : Registry :=
  match taken r !! i with
  | None => r
  | Some e =>
      {| token := token r; active := active r; next_id := next_id r; slots := slots r;
         cells := cells r; available := available r + event_bytes e; progress := progress r;
         taken := remove_at i (taken r) |}
  end.

(** One turn of the loop of [receive]: it returns, or waits for progress until a time. *)
Inductive Turn :=
| Return (value : result OutputEventError OutputEvent)
| Wait (cutoff : option Z) (until : Z).

Definition return_with (sub : OutputSubscription) (v : result OutputEventError OutputEvent)
  (r : Registry) : Turn * Registry := (Return v, drop_subscription sub r).

Definition receive_turn (sub : OutputSubscription) (settlement_deadline : Z) (cutoff : option Z)
  (alive : bool) (h : Handle) (now : Z) (r : Registry) : Turn * Registry :=
  match take_cell (id sub) r with
  | (Some v, r) => return_with sub v r
  | (None, r) =>
      if invalidated h || negb alive then return_with sub (Err Revoked) r
      else
        let cutoff :=
          if sub_deadline sub <=? now then Some (default (event_cursor h) cutoff) else cutoff in
        let settled := (sub_deadline sub <=? now) && is_some_and cutoff (fun c => c <=? progress r) in
        if settled then
          match take_cell (id sub) r with
          | (Some v, r) => return_with sub v r
          | (None, r) => return_with sub (Err ConfirmationExpired) r
          end
        else if settlement_deadline <=? now then return_with sub (Err SettlementUnavailable) r
        else
          (Wait cutoff (match cutoff with
                        | Some _ => settlement_deadline
                        | None => Z.min (sub_deadline sub) settlement_deadline
                        end), r)
  end.

(** [progress.changed()] reported that the registry is gone. *)
Definition receive_closed (sub : OutputSubscription) (r : Registry) : Turn * Registry :=
  match take_cell (id sub) r with
  | (Some v, r) => return_with sub v r
  | (None, r) => return_with sub (Err Revoked) r
  end.

(** ** Every interleaving *)

(** The subscription registered at an index *)
Definition subscription_at (i : nat) (slot : Slot) : OutputSubscription :=
  {| index := i; id := slot_id slot; sub_deadline := confirmation_deadline slot |}.

Inductive step : Registry -> Registry -> Prop :=
| step_publish e r : step r (publish e r)
| step_revoke r : step r (revoke r)
| step_subscribe alive h k deadline now r : step r (snd (subscribe alive h k deadline now r))
| step_receive i slot settlement cutoff alive h now r :
    slots r !! i = Some (Some slot) ->
    step r (snd (receive_turn (subscription_at i slot) settlement cutoff alive h now r))
| step_closed i slot r :
    slots r !! i = Some (Some slot) -> step r (snd (receive_closed (subscription_at i slot) r))
| step_drop i slot r :
    slots r !! i = Some (Some slot) -> step r (drop_subscription (subscription_at i slot) r)
| step_drop_event i r : step r (drop_event i r).

Definition reachable (r : Registry) : Prop := exists t, rtc step (registry_new t) r.

(** ** Sums over the cells *)

Notation cells_bytes := (map_total outcome_bytes).
Definition events_bytes (l : list OutputEvent) : Z :=
  foldr (fun e acc => event_bytes e + acc) 0 l.

Lemma event_bytes_nonneg e : 0 <= event_bytes e.
Proof. unfold event_bytes, str_len. destruct (path e); simpl; lia. Qed.
Lemma outcome_bytes_nonneg o : 0 <= outcome_bytes o.
Proof. destruct o as [|[]|]; simpl; try lia. apply event_bytes_nonneg. Qed.
#[export] Hint Resolve event_bytes_nonneg outcome_bytes_nonneg : obs.

Lemma events_bytes_remove l : forall i e,
  l !! i = Some e -> events_bytes l = event_bytes e + events_bytes (remove_at i l).
Proof.
  induction l as [|x l IH]; intros [|i] e; simpl; try done; [by intros [= ->]|].
  intros H%IH. lia.
Qed.

(** ** What a publication does to the cells *)

(** Cells keep their owners, and only a pending one changes, to its first outcome. *)
Definition advanced (cs cs' : gmap Z Outcome) : Prop :=
  forall n, match cs !! n with
            | None => cs' !! n = None
            | Some Pending => cs' !! n = Some Pending \/ exists v, cs' !! n = Some (Ready v)
            | Some o => cs' !! n = Some o
            end.

#[export] Instance advanced_preorder : PreOrder advanced.
Proof.
  split.
  - intros cs n. destruct (cs !! n) as [[]|]; auto.
  - intros c1 c2 c3 H12 H23 n. specialize (H12 n). specialize (H23 n).
    destruct (c1 !! n) as [[]|]; [|by rewrite H12 in H23..].
    destruct H12 as [E|[v E]]; rewrite E in H23; [done|]. right. eauto.
Qed.

Lemma advanced_settle cs n v : cs !! n = Some Pending -> advanced cs (<[n := Ready v]> cs).
Proof.
  intros Hn m. destruct (decide (m = n)) as [->|Hne].
  - rewrite Hn, lookup_insert_eq. eauto.
  - rewrite lookup_insert_ne by done. destruct (cs !! m) as [[]|]; auto.
Qed.

(** The event that is projected into a cell *)
Definition projected (e : ObsEvent) (t : Terminal) (p : option string) : OutputEvent :=
  {| connection := e_connection e; sequence := e_sequence e; received_at := e_received_at e;
     terminal := t; path := p |}.

Lemma lease_path_spec p free v free' :
  0 <= free -> lease_path p free = (v, free') ->
  0 <= free' /\
  match v with
  | Ok q => q = p /\ free' = free - default 0 (str_len <$> p)
  | Err e => free' = free /\
      (e = PathTooLarge \/ e = ByteCapacity) /\
      (exists text, p = Some text /\ (PATH_BYTES < str_len text \/ free < str_len text))
  end.
Proof.
  intros Hf. unfold lease_path. destruct p as [text|]; [|intros [= <- <-]; simpl; split_and!; (done || lia)].
  destruct (Z.ltb_spec PATH_BYTES (str_len text)); [intros [= <- <-]; naive_solver|].
  destruct (Z.leb_spec (str_len text) free); intros [= <- <-]; simpl; [split_and!; (done || lia)|naive_solver].
Qed.

Lemma project_spec e k t cs free slot cs' free' :
  0 <= free -> project e k t (cs, free) slot = (cs', free') ->
  advanced cs cs' /\ 0 <= free' /\ free' + cells_bytes cs' = free + cells_bytes cs /\
  (forall n, n <> slot_id slot -> cs' !! n = cs !! n) /\
  (cs !! slot_id slot = Some Pending ->
   if eligible e k slot then
     exists v, cs' !! slot_id slot = Some (Ready v) /\
       (v = Ok (projected e t (path_of e t)) \/ v = Err PathTooLarge \/ v = Err ByteCapacity)
   else cs' !! slot_id slot = Some Pending).
Proof.
  intros Hf. unfold project. destruct (eligible e k slot); simpl.
  2: { intros [= <- <-]. split_and!; done. }
  destruct (cs !! slot_id slot) as [[]|] eqn:Ec; try (intros [= <- <-]; split_and!; done).
  destruct (lease_path (path_of e t) free) as [v f] eqn:El.
  apply lease_path_spec in El as [Hf' Hv]; [|done]. intros [= <- <-]. split_and!.
  - by apply advanced_settle.
  - done.
  - rewrite (map_total_insert outcome_bytes _ _ _ _ Ec). destruct v as [q|err]; simpl in *; [|lia].
    destruct Hv as [-> ->]. unfold event_bytes. simpl. lia.
  - intros n Hne. by rewrite lookup_insert_ne.
  - intros _. rewrite lookup_insert_eq. eexists. split; [done|].
    destruct v as [q|err]; simpl; [by destruct Hv as [-> _]; left|].
    destruct Hv as (_ & [->| ->] & _); auto.
Qed.

Lemma projects_spec e k t l : forall cs free cs' free',
  0 <= free -> fold_left (project e k t) l (cs, free) = (cs', free') ->
  advanced cs cs' /\ 0 <= free' /\ free' + cells_bytes cs' = free + cells_bytes cs /\
  (forall n, (forall s, In s l -> slot_id s <> n) -> cs' !! n = cs !! n).
Proof.
  induction l as [|slot l IH]; intros cs free cs' free' Hf; cbn [fold_left].
  { intros [= <- <-]. split_and!; done. }
  destruct (project e k t (cs, free) slot) as [cs1 free1] eqn:E.
  apply project_spec in E as (A1 & F1 & S1 & O1 & _); [|done].
  intros (A2 & F2 & S2 & O2)%IH; [|done]. split_and!; [by etrans|done|lia|].
  intros n Hn. rewrite O2, O1; [done| |]; [|intros; apply Hn; by right].
  apply not_eq_sym, Hn. by left.
Qed.

(** A waiter of the list is settled by an event it is eligible for, and by no other. *)
Lemma projects_slot e k t l slot : forall cs free cs' free',
  0 <= free -> NoDup (map slot_id l) -> In slot l -> cs !! slot_id slot = Some Pending ->
  fold_left (project e k t) l (cs, free) = (cs', free') ->
  if eligible e k slot then
    exists v, cs' !! slot_id slot = Some (Ready v) /\
      (v = Ok (projected e t (path_of e t)) \/ v = Err PathTooLarge \/ v = Err ByteCapacity)
  else cs' !! slot_id slot = Some Pending.
Proof.
  induction l as [|s l IH]; intros cs free cs' free' Hf Hnd Hin Hp; [done|]. cbn [fold_left].
  inversion Hnd as [|? ? Hs Hl]; subst.
  destruct (project e k t (cs, free) s) as [cs1 free1] eqn:E.
  apply project_spec in E as (A1 & F1 & _ & O1 & P1); [|done]. intros Hfold.
  destruct Hin as [<-|Hin].
  - specialize (P1 Hp). apply projects_spec in Hfold as (_ & _ & _ & O2); [|done].
    rewrite O2; [done|]. intros s' Hs' Heq. apply Hs. rewrite <- Heq.
    by apply list_elem_of_In, in_map.
  - eapply IH; [done..| |exact Hfold]. rewrite O1; [done|]. intros Heq. apply Hs.
    rewrite <- Heq. by apply list_elem_of_In, in_map.
Qed.

(** ** The invariant *)

(** Identities given out so far stay below the next one. *)
Definition below (n : Z) (next : option Z) : Prop :=
  match next with Some m => n < m | None => n <= U64_MAX end.

Record wf (r : Registry) : Prop := {
  wf_length : length (slots r) = MAX_SUBSCRIPTIONS;
  wf_cell : forall i s, slots r !! i = Some (Some s) ->
    exists o, cells r !! slot_id s = Some o /\ o <> Consumed;
  wf_owner : forall n o, cells r !! n = Some o ->
    exists i s, slots r !! i = Some (Some s) /\ slot_id s = n;
  wf_unique : forall i j s t, slots r !! i = Some (Some s) -> slots r !! j = Some (Some t) ->
    slot_id s = slot_id t -> i = j;
  wf_ids : forall i s, slots r !! i = Some (Some s) ->
    1 <= slot_id s /\ below (slot_id s) (next_id r);
  wf_next : forall n, next_id r = Some n -> 1 <= n <= U64_MAX;
  wf_revoked : active r = false -> forall n, cells r !! n <> Some Pending;
  wf_free : 0 <= available r;
  wf_budget : available r + cells_bytes (cells r) + events_bytes (taken r) = PATH_BYTES
}.

Lemma registered_In r s : In s (registered r) <-> exists i, slots r !! i = Some (Some s).
Proof.
  unfold registered. rewrite <- list_elem_of_In, list_elem_of_omap. split.
  - intros ([x|] & Hin & [= ->]). by apply list_elem_of_lookup in Hin.
  - intros [i Hi]. exists (Some s). split; [by eapply list_elem_of_lookup_2|done].
Qed.

Lemma omap_unique (l : list (option Slot)) :
  (forall i j s t, l !! i = Some (Some s) -> l !! j = Some (Some t) -> slot_id s = slot_id t -> i = j) ->
  NoDup (map slot_id (omap (fun s => s) l)).
Proof.
  induction l as [|[s|] l IH]; intros Hu; simpl; [constructor|constructor|].
  - intros (t & Ht & Hin)%list_elem_of_In%in_map_iff.
    apply list_elem_of_In, list_elem_of_omap in Hin as ([x|] & Hin & [= ->]).
    apply list_elem_of_lookup in Hin as [j Hj].
    by specialize (Hu (S j) 0%nat t s Hj eq_refl Ht).
  - apply IH. intros i j s' t' Hi Hj Heq. by specialize (Hu (S i) (S j) s' t' Hi Hj Heq) as [= ->].
  - apply IH. intros i j s' t' Hi Hj Heq. by specialize (Hu (S i) (S j) s' t' Hi Hj Heq) as [= ->].
Qed.

Lemma registered_NoDup r : wf r -> NoDup (map slot_id (registered r)).
Proof. intros Hw. apply omap_unique, Hw. Qed.

(** Replacing the cells by later ones keeps the invariant. *)
Lemma advanced_wf r r' :
  wf r -> advanced (cells r) (cells r') -> slots r' = slots r -> next_id r' = next_id r ->
  (active r' = true -> active r = true) ->
  (active r' = false -> active r = true -> forall n, cells r' !! n <> Some Pending) ->
  0 <= available r' -> taken r' = taken r ->
  available r' + cells_bytes (cells r') = available r + cells_bytes (cells r) -> wf r'.
Proof.
  intros [W1 W2 W3 W4 W5 W6 W7 W8 W9] Ha Es En Hact Hrev Hf Et Hb.
  split; rewrite ?Es, ?En, ?Et; try done; [| | |lia].
  - intros i s Hi. destruct (W2 i s Hi) as (o & Ho & Hne). specialize (Ha (slot_id s)).
    rewrite Ho in Ha. destruct o; [|eauto|done]. destruct Ha as [->|[v ->]]; eauto.
  - intros n o Ho. specialize (Ha n). destruct (cells r !! n) eqn:E; [eauto|congruence].
  - intros Hx n Hn. destruct (active r) eqn:Er; [by eapply Hrev|].
    specialize (W7 eq_refl n). specialize (Ha n). destruct (cells r !! n) as [[]|]; congruence.
Qed.

Lemma publish_wf e r : wf r -> wf (publish e r).
Proof.
  intros Hw. unfold publish. destruct (active r) eqn:Ea; simpl; [|done].
  destruct (_ =? _); simpl; [|done].
  destruct (from_event (event_type e)) as [k|]; [|by destruct Hw].
  destruct (terminal_of e) as [t|]; [|by destruct Hw].
  destruct (fold_left _ _ _) as [cs free] eqn:E.
  apply projects_spec in E as (A & F & S & _); [|apply Hw].
  apply (advanced_wf r); simpl; try done; lia || congruence.
Qed.

Lemma revoke_cells_spec l : forall cs,
  advanced cs (fold_left revoke_cell l cs) /\
  cells_bytes (fold_left revoke_cell l cs) = cells_bytes cs /\
  (forall s, In s l -> fold_left revoke_cell l cs !! slot_id s <> Some Pending).
Proof.
  induction l as [|s l IH]; intros cs; cbn [fold_left]; [split_and!; done|].
  destruct (IH (revoke_cell cs s)) as (A & B & C).
  assert (H1 : advanced cs (revoke_cell cs s) /\ cells_bytes (revoke_cell cs s) = cells_bytes cs /\
               revoke_cell cs s !! slot_id s <> Some Pending).
  { unfold revoke_cell. destruct (cs !! slot_id s) as [[]|] eqn:E; rewrite ?E; split_and!; try done.
    - by apply advanced_settle.
    - rewrite (map_total_insert outcome_bytes _ _ _ _ E). simpl. lia.
    - by rewrite lookup_insert_eq. }
  destruct H1 as (A1 & B1 & C1). split_and!; [by etrans|congruence|].
  intros t [<-|Ht]; [|by apply C]. intros Hp. specialize (A (slot_id s)).
  destruct (revoke_cell cs s !! slot_id s) as [[]|]; congruence.
Qed.

Lemma revoke_wf r : wf r -> wf (revoke r).
Proof.
  intros Hw. destruct (revoke_cells_spec (registered r) (cells r)) as (A & B & C).
  apply (advanced_wf r); simpl; try done; [|apply Hw|lia].
  intros _ _ n Hn. specialize (A n). destruct (cells r !! n) as [o|] eqn:E; [|congruence].
  destruct (wf_owner r Hw n o E) as (i & s & Hi & <-). apply (C s); [|done].
  apply registered_In. eauto.
Qed.

Lemma position_none_slot (l : list (option Slot)) i :
  position is_none l = Some i -> l !! i = Some None.
Proof.
  intros (pre & x & suf & -> & <- & _ & Hx)%position_Some. destruct x; [done|].
  by rewrite lookup_app_r, Nat.sub_diag.
Qed.

Lemma identity_Ok next n next' :
  (forall m, next = Some m -> 1 <= m <= U64_MAX) -> identity next = Ok (n, next') ->
  next = Some n /\ 1 <= n <= U64_MAX /\ below n next' /\ (forall m, next' = Some m -> 1 <= m <= U64_MAX) /\
  (forall x, below x next -> x < n).
Proof.
  intros Hr. unfold identity. destruct next as [m|]; [|done]. intros [= <- <-].
  specialize (Hr m eq_refl). split_and!; try done; try lia.
  - destruct (checked_add m 1) eqn:E; simpl; [|lia]. apply checked_add_Some in E. lia.
  - intros k [-> ?]%checked_add_Some. lia.
Qed.

Lemma below_weaken x n next' : x < n -> below n next' -> below x next'.
Proof. destruct next'; simpl; lia. Qed.

Lemma subscribe_wf alive h k deadline now r :
  wf r -> wf (snd (subscribe alive h k deadline now r)).
Proof.
  intros Hw. unfold subscribe. destruct alive; simpl; [|done].
  destruct (_ || _ || _) eqn:Eg; simpl; [done|].
  destruct (position is_none (slots r)) as [i|] eqn:Ep; [|done].
  apply position_none_slot in Ep. destruct (identity (next_id r)) as [[n next]|] eqn:Ei; [|done].
  destruct Hw as [W1 W2 W3 W4 W5 W6 W7 W8 W9].
  apply identity_Ok in Ei as (En & Hn & Hb & Hnx & Hlt); [|done].
  assert (Hfresh : cells r !! n = None).
  { destruct (cells r !! n) as [o|] eqn:E; [|done]. destruct (W3 n o E) as (j & s & Hj & Hs).
    destruct (W5 j s Hj) as [_ Hx%Hlt]. lia. }
  assert (Hget : forall j s slot, <[i := Some slot]> (slots r) !! j = Some (Some s) ->
    (j = i /\ s = slot) \/ (j <> i /\ slots r !! j = Some (Some s))).
  { intros j s slot. destruct (decide (j = i)) as [->|Hne].
    - rewrite list_lookup_insert_eq by (by eapply lookup_lt_Some). intros [= <-]. auto.
    - rewrite list_lookup_insert_ne by done. auto. }
  assert (Hold : forall j s, slots r !! j = Some (Some s) -> slot_id s < n)
    by (intros j s Hj; apply Hlt, (W5 j s Hj)).
  split; simpl; try done.
  - by rewrite length_insert.
  - intros j s [[-> ->]|[_ Hj]]%Hget; simpl; [rewrite lookup_insert_eq; eauto|].
    specialize (Hold j s Hj). rewrite lookup_insert_ne by lia. by apply (W2 j).
  - intros m o. rewrite lookup_insert_Some. intros [[<- <-]|[Hne Hm]].
    + exists i. eexists. rewrite list_lookup_insert_eq by (by eapply lookup_lt_Some). done.
    + destruct (W3 m o Hm) as (j & s & Hj & Hs). exists j, s. split; [|done].
      rewrite list_lookup_insert_ne; [done|]. intros ->. congruence.
  - intros j j' s t [[-> ->]|[Hj1 Hj]]%Hget [[-> ->]|[Hj2 Hj']]%Hget; simpl; try done.
    + specialize (Hold _ _ Hj'). lia.
    + specialize (Hold _ _ Hj). lia.
    + by apply W4.
  - intros j s [[-> ->]|[_ Hj]]%Hget; simpl; [split; [lia|done]|].
    destruct (W5 j s Hj). split; [done|]. eapply below_weaken; [|exact Hb]. by eapply Hold.
  - intros Ha. by rewrite Ha in Eg.
  - rewrite map_total_fresh by done. simpl. lia.
Qed.

(** Dropping the subscription of a registered slot *)
Lemma drop_subscription_eq i s r o :
  slots r !! i = Some (Some s) -> cells r !! slot_id s = Some o ->
  drop_subscription (subscription_at i s) r =
  with_cells (delete (slot_id s) (cells r)) (available r + outcome_bytes o)
    (with_slots (<[i := None]> (slots r)) r).
Proof.
  intros Hi Ho. unfold drop_subscription, unregister. simpl. rewrite Hi, Z.eqb_refl. simpl.
  by rewrite Ho.
Qed.

Lemma dropped_wf i s r r' :
  wf r -> slots r !! i = Some (Some s) ->
  slots r' = <[i := None]> (slots r) -> cells r' = delete (slot_id s) (cells r) ->
  next_id r' = next_id r -> active r' = active r -> 0 <= available r' ->
  available r' + cells_bytes (cells r') + events_bytes (taken r') = PATH_BYTES -> wf r'.
Proof.
  intros [W1 W2 W3 W4 W5 W6 W7 W8 W9] Hi Es Ec En Ea Hf Hb.
  assert (Hget : forall j t, slots r' !! j = Some (Some t) -> j <> i /\ slots r !! j = Some (Some t)).
  { intros j t. rewrite Es. destruct (decide (j = i)) as [->|Hne].
    - by rewrite list_lookup_insert_eq by (by eapply lookup_lt_Some).
    - by rewrite list_lookup_insert_ne. }
  split; try done; rewrite ?En, ?Ea.
  - by rewrite Es, length_insert.
  - intros j t [Hne Hj]%Hget. rewrite Ec, lookup_delete_ne; [by apply (W2 j)|].
    intros Heq. apply Hne. by eapply W4.
  - intros n o. rewrite Ec, lookup_delete_Some. intros [Hne Hn].
    destruct (W3 n o Hn) as (j & t & Hj & <-). exists j, t. split; [|done].
    rewrite Es, list_lookup_insert_ne; [done|]. intros ->. congruence.
  - intros j k t u [_ Hj]%Hget [_ Hk]%Hget. by apply W4.
  - intros j t [_ Hj]%Hget. by apply (W5 j).
  - done.
  - intros Hx n. rewrite Ec, lookup_delete_Some. intros [_ Hn]. by apply (W7 Hx n).
Qed.

Lemma drop_wf i s r :
  wf r -> slots r !! i = Some (Some s) -> wf (drop_subscription (subscription_at i s) r).
Proof.
  intros Hw Hi. destruct (wf_cell r Hw i s Hi) as (o & Ho & _).
  rewrite (drop_subscription_eq _ _ _ _ Hi Ho). pose proof (outcome_bytes_nonneg o).
  pose proof (wf_free r Hw). pose proof (wf_budget r Hw) as Hb.
  rewrite (map_total_delete outcome_bytes _ _ _ Ho) in Hb.
  eapply (dropped_wf i s r); simpl; try done; lia.
Qed.

(** Taking what is ready, then dropping the subscription *)
Lemma take_drop_wf i s r v r1 :
  wf r -> slots r !! i = Some (Some s) -> take_cell (slot_id s) r = (Some v, r1) ->
  wf (drop_subscription (subscription_at i s) r1).
Proof.
  intros Hw Hi Ht. unfold take_cell in Ht. destruct (cells r !! slot_id s) as [[|w|]|] eqn:Ec; try done.
  injection Ht as -> <-. rewrite (drop_subscription_eq i s _ Consumed); [|done|by simpl; rewrite lookup_insert_eq].
  pose proof (wf_free r Hw). pose proof (wf_budget r Hw) as Hb.
  rewrite (map_total_delete outcome_bytes _ _ _ Ec) in Hb.
  eapply (dropped_wf i s r); simpl; try done; rewrite ?delete_insert_eq; try done; [lia|].
  destruct v as [e|err]; simpl in *; lia.
Qed.

Lemma take_none n r r1 : take_cell n r = (None, r1) -> r1 = r.
Proof. unfold take_cell. destruct (cells r !! n) as [[]|]; intros; by simplify_eq. Qed.

Lemma receive_turn_wf i s settlement cutoff alive h now r :
  wf r -> slots r !! i = Some (Some s) ->
  wf (snd (receive_turn (subscription_at i s) settlement cutoff alive h now r)).
Proof.
  intros Hw Hi. pose proof (drop_wf i s r Hw Hi) as Hd. unfold receive_turn, return_with.
  destruct (take_cell _ r) as [[v|] r1] eqn:E1; [exact (take_drop_wf _ _ _ _ _ Hw Hi E1)|].
  apply take_none in E1 as ->. destruct (_ || _); [done|]. cbv zeta. destruct (_ && _).
  - destruct (take_cell _ r) as [[v|] r2] eqn:E2; [exact (take_drop_wf _ _ _ _ _ Hw Hi E2)|].
    by apply take_none in E2 as ->.
  - by destruct (_ <=? now).
Qed.

Lemma receive_closed_wf i s r :
  wf r -> slots r !! i = Some (Some s) -> wf (snd (receive_closed (subscription_at i s) r)).
Proof.
  intros Hw Hi. pose proof (drop_wf i s r Hw Hi) as Hd. unfold receive_closed, return_with.
  destruct (take_cell _ r) as [[v|] r1] eqn:E1; [exact (take_drop_wf _ _ _ _ _ Hw Hi E1)|].
  by apply take_none in E1 as ->.
Qed.

Lemma drop_event_wf i r : wf r -> wf (drop_event i r).
Proof.
  intros [W1 W2 W3 W4 W5 W6 W7 W8 W9]. unfold drop_event.
  destruct (taken r !! i) as [e|] eqn:E; [|by split]. apply events_bytes_remove in E.
  pose proof (event_bytes_nonneg e). split; simpl; try done; lia.
Qed.

Lemma step_wf r r' : step r r' -> wf r -> wf r'.
Proof.
  destruct 1; intros Hw; auto using publish_wf, revoke_wf, subscribe_wf, receive_turn_wf,
    receive_closed_wf, drop_wf, drop_event_wf.
Qed.

Lemma steps_wf r r' : rtc step r r' -> wf r -> wf r'.
Proof. induction 1; eauto using step_wf. Qed.

Lemma registry_new_wf t : wf (registry_new t).
Proof.
  assert (Hn : forall i s, replicate MAX_SUBSCRIPTIONS (@None Slot) !! i <> Some (Some s)).
  { intros i s H. apply lookup_replicate in H as [[=] _]. }
  split; simpl; try done; try (intros; exfalso; by eapply Hn).
  - by intros n [= <-].
Qed.

Lemma reachable_wf r : reachable r -> wf r.
Proof. intros [t Hr]. eapply steps_wf; [exact Hr|apply registry_new_wf]. Qed.

(** The byte budget is exact: in every reachable registry the permits left, the bytes of
    the paths waiting in cells and the bytes of the paths callers still hold add up to
    [PATH_BYTES], so the copies never exceed the pool and no byte of it is ever lost; and
    every waiter has its own cell under an identity no other waiter has or had. *)
Theorem path_budget_exact r :
  reachable r ->
  0 <= available r /\
  available r + cells_bytes (cells r) + events_bytes (taken r) = PATH_BYTES /\
  (forall i j s t, slots r !! i = Some (Some s) -> slots r !! j = Some (Some t) ->
     slot_id s = slot_id t -> i = j) /\
  (forall i s, slots r !! i = Some (Some s) -> below (slot_id s) (next_id r)) /\
  (forall i s, slots r !! i = Some (Some s) -> is_Some (cells r !! slot_id s)).
Proof.
  intros Hw%reachable_wf. destruct Hw as [W1 W2 W3 W4 W5 W6 W7 W8 W9]. split_and!; try done.
  - intros i s Hi. by apply (W5 i).
  - intros i s Hi. destruct (W2 i s Hi) as (o & -> & _). eauto.
Qed.

(** ** Identities *)

Lemma receive_turn_next sub settlement cutoff alive h now r :
  next_id (snd (receive_turn sub settlement cutoff alive h now r)) = next_id r /\
  active (snd (receive_turn sub settlement cutoff alive h now r)) = active r.
Proof.
  assert (Hd : forall r, next_id (drop_subscription sub r) = next_id r /\
                         active (drop_subscription sub r) = active r).
  { intros r0. unfold drop_subscription, unregister. repeat case_match; done. }
  assert (Ht : forall r0 v r1, take_cell (id sub) r0 = (v, r1) ->
    next_id r1 = next_id r0 /\ active r1 = active r0).
  { intros r0 v r1. unfold take_cell. repeat case_match; intros; by simplify_eq. }
  unfold receive_turn, return_with. destruct (take_cell (id sub) r) as [[v|] r1] eqn:E1;
    destruct (Ht _ _ _ E1) as [<- <-]; [apply Hd|].
  destruct (_ || _); [apply Hd|]. cbv zeta. destruct (_ && _); [|by destruct (_ <=? now); [apply Hd|]].
  destruct (take_cell (id sub) r1) as [[v|] r2] eqn:E2; destruct (Ht _ _ _ E2) as [<- <-]; apply Hd.
Qed.

Lemma receive_closed_next sub r :
  next_id (snd (receive_closed sub r)) = next_id r /\ active (snd (receive_closed sub r)) = active r.
Proof.
  unfold receive_closed, return_with, take_cell, drop_subscription, unregister.
  repeat case_match; simplify_eq/=; done.
Qed.

Lemma drop_next sub r :
  next_id (drop_subscription sub r) = next_id r /\ active (drop_subscription sub r) = active r.
Proof. unfold drop_subscription, unregister. repeat case_match; done. Qed.

Lemma publish_next e r :
  next_id (publish e r) = next_id r /\ active (publish e r) = active r /\ slots (publish e r) = slots r.
Proof. unfold publish. repeat case_match; done. Qed.

Lemma drop_event_same i r :
  next_id (drop_event i r) = next_id r /\ active (drop_event i r) = active r /\
  cells (drop_event i r) = cells r.
Proof. unfold drop_event. by case_match. Qed.

(** Identities only move up. *)
Lemma step_below r r' x : step r r' -> wf r -> below x (next_id r) -> below x (next_id r').
Proof.
  intros Hs Hw Hb. destruct Hs as [e r|r|alive h k dl now r|i s st c al h now r Hi|i s r Hi|i s r Hi|i r].
  - by destruct (publish_next e r) as [-> _].
  - done.
  - unfold subscribe. repeat case_match; try done. simpl.
    apply identity_Ok in H2 as (_ & _ & Hn & _ & Hlt); [|apply Hw].
    eapply below_weaken; [|exact Hn]. by apply Hlt.
  - by destruct (receive_turn_next (subscription_at i s) st c al h now r) as [-> _].
  - by destruct (receive_closed_next (subscription_at i s) r) as [-> _].
  - by destruct (drop_next (subscription_at i s) r) as [-> _].
  - by destruct (drop_event_same i r) as [-> _].
Qed.

Lemma steps_below r r' x : rtc step r r' -> wf r -> below x (next_id r) -> below x (next_id r').
Proof. induction 1; eauto using step_wf, step_below. Qed.

Lemma subscribe_Ok alive h k dl now r sub r' :
  wf r -> subscribe alive h k dl now r = (Ok sub, r') ->
  next_id r = Some (id sub) /\ below (id sub) (next_id r') /\ (forall x, below x (next_id r) -> x < id sub).
Proof.
  intros Hw. unfold subscribe. repeat case_match; try done. intros [= <- <-]. simpl.
  apply identity_Ok in H2 as (? & _ & ? & _ & ?); [done|apply Hw].
Qed.

(** A subscription's identity is never used again: of two subscriptions granted by one
    registry, whatever happened in between, the later has the greater identity; when the
    64-bit identities are exhausted no further one is granted. *)
Theorem identity_never_reused r al1 h1 k1 d1 t1 a r1 r2 al2 h2 k2 d2 t2 b r3 :
  reachable r -> subscribe al1 h1 k1 d1 t1 r = (Ok a, r1) -> rtc step r1 r2 ->
  subscribe al2 h2 k2 d2 t2 r2 = (Ok b, r3) -> id a < id b <= U64_MAX.
Proof.
  intros Hr%reachable_wf Ha Hs Hb.
  assert (H1 : wf r1) by (change r1 with (snd (Ok (E := OutputEventError) a, r1)); rewrite <- Ha; by apply subscribe_wf).
  pose proof (steps_wf _ _ Hs H1) as H2.
  apply subscribe_Ok in Ha as (_ & Hbelow & _); [|done].
  apply subscribe_Ok in Hb as (Hn & _ & Hlt); [|done].
  split; [by apply Hlt, (steps_below r1)|]. by apply (wf_next r2 H2).
Qed.

(** ** The first terminal event *)

(** Publication settles exactly the waiters it is for: a registered waiter's cell changes
    only if it was pending, the registry is active, the event is of this connection, of
    the waiter's output, terminal, later than the waiter's cursor and received between its
    registration and its confirmation deadline; then it holds that event, with the path a
    Started event carries, or the refusal of the path's bytes.  Every other cell is left
    as it was, whatever it holds. *)
Theorem publish_settles_eligible e r i s o :
  reachable r -> slots r !! i = Some (Some s) -> cells r !! slot_id s = Some o ->
  let after := cells (publish e r) !! slot_id s in
  match o, from_event (event_type e), terminal_of e with
  | Pending, Some k, Some t =>
      if active r && (e_connection e =? token r) && eligible e k s then
        exists v, after = Some (Ready v) /\
          (v = Ok (projected e t (path_of e t)) \/ v = Err PathTooLarge \/ v = Err ByteCapacity)
      else after = Some o
  | _, _, _ => after = Some o
  end.
Proof.
  intros Hw%reachable_wf Hi Ho after0. unfold after0, publish.
  destruct (active r) eqn:Ea; simpl; [|by repeat case_match; subst].
  destruct (_ =? _); simpl; [|by repeat case_match; subst].
  destruct (from_event (event_type e)) as [k|]; [|by destruct o].
  destruct (terminal_of e) as [t|]; [|by destruct o].
  destruct (fold_left _ _ _) as [cs free] eqn:E. simpl. destruct o as [|v|].
  - eapply (projects_slot e k t (registered r) s); [apply (wf_free r Hw)|by apply registered_NoDup| |exact Ho|exact E].
    apply registered_In. eauto.
  - apply projects_spec in E as (A & _); [|apply Hw]. specialize (A (slot_id s)). by rewrite Ho in A.
  - apply projects_spec in E as (A & _); [|apply Hw]. specialize (A (slot_id s)). by rewrite Ho in A.
Qed.

(** A cell that is settled, or whose subscription is over *)
Definition settled_or_gone (n : Z) (v : result OutputEventError OutputEvent) (r : Registry) : Prop :=
  cells r !! n = Some (Ready v) \/ (cells r !! n = None /\ below n (next_id r)).

Lemma advanced_settled n v r r' :
  advanced (cells r) (cells r') -> next_id r' = next_id r ->
  settled_or_gone n v r -> settled_or_gone n v r'.
Proof.
  intros Ha En [Hr|[Hr Hb]]; specialize (Ha n); rewrite Hr in Ha; [by left|right]. by rewrite En.
Qed.

Lemma dropped_settled i s n v r r1 :
  wf r -> slots r !! i = Some (Some s) -> next_id r1 = next_id r -> slots r1 = slots r ->
  (forall m, m <> slot_id s -> cells r1 !! m = cells r !! m) -> is_Some (cells r1 !! slot_id s) ->
  settled_or_gone n v r -> settled_or_gone n v (drop_subscription (subscription_at i s) r1).
Proof.
  intros Hw Hi En Es Hc [o Ho] Hr. rewrite <- Es in Hi.
  rewrite (drop_subscription_eq _ _ _ _ Hi Ho). unfold settled_or_gone in *. simpl. rewrite En.
  destruct (decide (n = slot_id s)) as [->|Hne].
  - right. rewrite lookup_delete_eq. split; [done|]. rewrite Es in Hi. by apply (wf_ids r Hw i s).
  - by rewrite lookup_delete_ne, Hc.
Qed.

Lemma publish_advanced e r : 0 <= available r -> advanced (cells r) (cells (publish e r)).
Proof.
  intros Hf. unfold publish. destruct (_ || _); [done|].
  destruct (from_event (event_type e)) as [k|]; [|done]. destruct (terminal_of e) as [t|]; [|done].
  destruct (fold_left _ _ _) as [cs free] eqn:E. by apply projects_spec in E as (? & _).
Qed.

Lemma step_settled r r' n v : step r r' -> wf r -> settled_or_gone n v r -> settled_or_gone n v r'.
Proof.
  intros Hs Hw Hr. assert (Hdrop : forall i s, slots r !! i = Some (Some s) ->
    settled_or_gone n v (drop_subscription (subscription_at i s) r)).
  { intros i s Hi. eapply (dropped_settled i s n v r); try done.
    destruct (wf_cell r Hw i s Hi) as (o & -> & _). eauto. }
  assert (Htake : forall i s w r1, slots r !! i = Some (Some s) -> take_cell (slot_id s) r = (Some w, r1) ->
    settled_or_gone n v (drop_subscription (subscription_at i s) r1)).
  { intros i s w r1 Hi Ht. unfold take_cell in Ht.
    destruct (cells r !! slot_id s) as [[|x|]|]; try done. injection Ht as _ <-.
    eapply (dropped_settled i s n v r); simpl; try done.
    - intros m Hne. by rewrite lookup_insert_ne.
    - rewrite lookup_insert_eq. eauto. }
  destruct Hs as [e r|r|alive h k dl now r|i s st c al h now r Hi|i s r Hi|i s r Hi|i r].
  - eapply advanced_settled; [apply publish_advanced, (wf_free _ Hw)|apply publish_next|done].
  - apply (advanced_settled n v r (revoke r)); [apply revoke_cells_spec|done|done].
  - unfold subscribe. repeat case_match; try done. simpl.
    apply identity_Ok in H2 as (En & _ & Hn & _ & Hlt); [|apply Hw]. unfold settled_or_gone. simpl.
    assert (Hne : n <> z).
    { intros ->. destruct Hr as [Hr|[_ Hb]]; [|specialize (Hlt _ Hb); lia].
      destruct (wf_owner r Hw _ _ Hr) as (j & t & Hj & <-).
      destruct (wf_ids r Hw j t Hj) as [_ Hb]. specialize (Hlt _ Hb). lia. }
    rewrite lookup_insert_ne by done. destruct Hr as [Hr|[Hr Hb]]; [by left|right].
    split; [done|]. eapply below_weaken; [|exact Hn]. by apply Hlt.
  - unfold receive_turn, return_with. destruct (take_cell _ r) as [[w|] r1] eqn:E1; [exact (Htake _ _ _ _ Hi E1)|].
    apply take_none in E1 as ->. destruct (_ || _); [by apply Hdrop|]. cbv zeta. destruct (_ && _).
    + destruct (take_cell _ r) as [[w|] r2] eqn:E2; [exact (Htake _ _ _ _ Hi E2)|].
      apply take_none in E2 as ->. by apply Hdrop.
    + destruct (_ <=? now); [by apply Hdrop|done].
  - unfold receive_closed, return_with. destruct (take_cell _ r) as [[w|] r1] eqn:E1; [exact (Htake _ _ _ _ Hi E1)|].
    apply take_none in E1 as ->. by apply Hdrop.
  - by apply Hdrop.
  - unfold settled_or_gone. by destruct (drop_event_same i r) as (-> & _ & ->).
Qed.

Lemma steps_settled r r' n v :
  rtc step r r' -> wf r -> settled_or_gone n v r -> settled_or_gone n v r'.
Proof. induction 1; eauto using step_wf, step_settled. Qed.

(** A registered waiter whose cell is settled returns it at once. *)
Lemma receive_settled i s settlement cutoff alive h now r v :
  cells r !! slot_id s = Some (Ready v) ->
  fst (receive_turn (subscription_at i s) settlement cutoff alive h now r) = Return v /\
  fst (receive_closed (subscription_at i s) r) = Return v.
Proof.
  intros Hv. unfold receive_turn, receive_closed, take_cell. simpl. rewrite Hv. done.
Qed.

(** The first terminal outcome of a waiter wins and is not missed: once its cell is
    settled, by an event or by revocation, then whatever is published, revoked, granted or
    dropped afterwards, and however late the clocks, the waiter receives that very
    outcome; in particular no later event replaces it and it is never reported as a
    confirmation that expired. *)
Theorem first_terminal_wins r r' i s v settlement cutoff alive h now :
  reachable r -> cells r !! slot_id s = Some (Ready v) -> rtc step r r' ->
  slots r' !! i = Some (Some s) ->
  fst (receive_turn (subscription_at i s) settlement cutoff alive h now r') = Return v /\
  fst (receive_closed (subscription_at i s) r') = Return v.
Proof.
  intros Hw%reachable_wf Hv Hs Hi. apply receive_settled.
  destruct (steps_settled r r' (slot_id s) v Hs Hw (or_introl Hv)) as [?|[Hn _]]; [done|].
  destruct (wf_cell r' (steps_wf _ _ Hs Hw) i s Hi) as (o & Ho & _). congruence.
Qed.

(** ** Revocation and termination *)

Lemma step_inactive r r' : step r r' -> active r = false -> active r' = false.
Proof.
  intros Hs Ha. destruct Hs as [e r|r|alive h k dl now r|i s st c al h now r Hi|i s r Hi|i s r Hi|i r].
  - by destruct (publish_next e r) as (_ & -> & _).
  - done.
  - unfold subscribe. rewrite Ha. by destruct alive.
  - by destruct (receive_turn_next (subscription_at i s) st c al h now r) as [_ ->].
  - by destruct (receive_closed_next (subscription_at i s) r) as [_ ->].
  - by destruct (drop_next (subscription_at i s) r) as [_ ->].
  - by destruct (drop_event_same i r) as (_ & -> & _).
Qed.

(** Revocation is final: after [revoke] no sequence of steps makes the registry active
    again; it grants no view and no subscription, its publications change nothing, and
    every waiter still registered receives an outcome at its next turn instead of waiting. *)
Theorem revocation_is_final r r' :
  reachable r -> rtc step (revoke r) r' ->
  active r' = false /\
  (forall h, is_err (view h r') = true) /\
  (forall alive h k deadline now, subscribe alive h k deadline now r' = (Err Revoked, r')) /\
  (forall e, publish e r' = r') /\
  (forall i s settlement cutoff alive h now, slots r' !! i = Some (Some s) ->
     exists v, fst (receive_turn (subscription_at i s) settlement cutoff alive h now r') = Return v).
Proof.
  intros Hr%reachable_wf%revoke_wf Hs. assert (Ha : active r' = false).
  { assert (H0 : active (revoke r) = false) by done. revert H0. clear Hr.
    induction Hs; eauto using step_inactive. }
  pose proof (steps_wf _ _ Hs Hr) as Hw. split_and!; [done|..].
  - intros h. unfold view. rewrite Ha. by repeat case_match.
  - intros. unfold subscribe. rewrite Ha. by destruct alive.
  - intros e. unfold publish. by rewrite Ha.
  - intros i s st c al h now Hi. destruct (wf_cell r' Hw i s Hi) as ([|v|] & Ho & Hne).
    + by apply (wf_revoked r' Hw Ha) in Ho.
    + exists v. by apply receive_settled.
    + done.
Qed.

(** Receiving terminates: a turn that does not return waits until a time that is still to
    come and no later than the settlement deadline, and a turn at or after that deadline
    always returns. *)
Theorem receive_is_bounded sub settlement cutoff alive h now r :
  match fst (receive_turn sub settlement cutoff alive h now r) with
  | Return _ => True
  | Wait _ until => now < until <= settlement
  end /\
  (settlement <= now ->
   exists v, fst (receive_turn sub settlement cutoff alive h now r) = Return v).
Proof.
  unfold receive_turn. destruct (take_cell (id sub) r) as [[v|] r1]; [split; [done|eauto]|].
  destruct (_ || _); [split; [done|eauto]|]. cbv zeta. destruct (_ && _).
  { destruct (take_cell (id sub) r1) as [[v|] r2]; (split; [done|eauto]). }
  destruct (Z.leb_spec settlement now); [split; [done|eauto]|]. split; [|lia]. simpl.
  destruct (Z.leb_spec (sub_deadline sub) now); [lia|]. destruct cutoff; lia.
Qed.

(** ** Concrete runs *)

Definition sample_handle : Handle :=
  {| h_token := 3; invalidated := false; event_subscriptions := 64; event_cursor := 7 |}.

Definition sample_event : ObsEvent :=
  {| e_connection := 3; e_sequence := 8; event_type := "StreamStateChanged";
     data := Some (object_of [("outputPath", Str "clip.mkv");
                              ("outputState", Str "OBS_WEBSOCKET_OUTPUT_STARTED")]);
     e_received_at := 20 |}.

Definition sample_slot : Slot :=
  {| slot_id := 1; kind := Stream; after := 7; registered_at := 10; confirmation_deadline := 30 |}.

Definition granted : Registry := snd (subscribe true sample_handle Stream 30 10 (registry_new 3)).
Definition settled : Registry := publish sample_event granted.
Definition sample_outcome : OutputEvent := projected sample_event Started (Some "clip.mkv"%string).

Lemma registry_reachable t : reachable (registry_new t).
Proof. exists t. apply rtc_refl. Qed.

Lemma granted_reachable : reachable granted.
Proof. exists 3. apply rtc_once. apply (step_subscribe true sample_handle Stream 30 10). Qed.

Lemma settled_reachable : reachable settled.
Proof.
  destruct granted_reachable as [t Ht]. exists t. eapply rtc_r; [exact Ht|]. apply step_publish.
Qed.

Lemma path_budget_exact_witness :
  available settled + cells_bytes (cells settled) + events_bytes (taken settled) = PATH_BYTES /\
  cells_bytes (cells settled) = 8.
Proof.
  split; [exact (proj1 (proj2 (path_budget_exact settled settled_reachable)))|vm_compute; reflexivity].
Defined.

Lemma identity_never_reused_witness : 1 < 2 <= U64_MAX.
Proof.
  apply (identity_never_reused (registry_new 3) true sample_handle Stream 30 10
    {| index := 0; id := 1; sub_deadline := 30 |} granted settled true sample_handle Record_ 40 12
    {| index := 1; id := 2; sub_deadline := 40 |}
    (snd (subscribe true sample_handle Record_ 40 12 settled)) (registry_reachable 3)).
  - vm_compute. reflexivity.
  - apply rtc_once, step_publish.
  - vm_compute. reflexivity.
Defined.

Lemma publish_settles_eligible_witness :
  exists v, cells settled !! 1 = Some (Ready v) /\
    (v = Ok sample_outcome \/ v = Err PathTooLarge \/ v = Err ByteCapacity).
Proof.
  apply (publish_settles_eligible sample_event granted 0 sample_slot Pending granted_reachable);
    vm_compute; reflexivity.
Defined.

Lemma first_terminal_wins_witness :
  fst (receive_turn (subscription_at 0 sample_slot) 90 None true sample_handle 80 (revoke settled))
    = Return (Ok sample_outcome).
Proof.
  apply (first_terminal_wins settled (revoke settled) 0 sample_slot (Ok sample_outcome) 90 None true
    sample_handle 80 settled_reachable).
  - vm_compute. reflexivity.
  - apply rtc_once, step_revoke.
  - vm_compute. reflexivity.
Defined.

Lemma revocation_is_final_witness :
  exists v, fst (receive_turn (subscription_at 0 sample_slot) 90 None true sample_handle 12
                   (revoke granted)) = Return v.
Proof.
  destruct (revocation_is_final granted (revoke granted) granted_reachable (rtc_refl _ _))
    as (_ & _ & _ & _ & H).
  apply (H 0%nat sample_slot). vm_compute. reflexivity.
Defined.
