(* ===== verification/Clock.v ===== *)
(** * Wall-clock snapshots

    [native/src/clock.rs]: the UTC text and the epoch milliseconds of a [Duration] since the
    epoch.  The loops are total: the year loop runs on fuel that is proved sufficient, an
    index outside the table of months would be a panic, here [None]. *)
From S2P Require Import Prelude Json ReceiptFields Custody.

(** [std::time::Duration] *)
Record Duration := {
  as_secs : Z;
  nanos : Z
}.

Definition duration_ok (d : Duration) : Prop :=
  0 <= as_secs d <= U64_MAX /\ 0 <= nanos d < 1000000000.

Definition subsec_millis (d : Duration) : Z := nanos d / 1000000.
Definition as_millis (d : Duration) : Z := as_secs d * 1000 + subsec_millis d.

Inductive ClockError :=
| BeforeEpoch
| OutOfRange.

Definition leap (year : Z) : bool :=
  is_multiple_of year 4 && (negb (is_multiple_of year 100) || is_multiple_of year 400).

(** [{:0w}] *)
Fixpoint zeros (n : nat) : string :=
  match n with
  | O => ""
  | S n => String.append "0" (zeros n)
  end.

Definition pad (w : nat) (n : Z) : string :=
  let digits := pretty (Z.to_N n) in
  String.append (zeros (w - String.length digits)) digits.

Definition year_length (year : Z) : Z := if leap year then 366 else 365.

(** The [loop] over years *)
Fixpoint year_loop (fuel : nat) (year days : Z) : option (Z * Z) :=
  match fuel with
  | O => None
  | S fuel =>
      if days <? year_length year then Some (year, days)
      else year_loop fuel (year + 1) (days - year_length year)
  end.

Definition months (year : Z) : list Z :=
  [31; if leap year then 29 else 28; 31; 30; 31; 30; 31; 31; 30; 31; 30; 31].

(** The [while] over months *)
Fixpoint month_loop (months : list Z) (month days : Z) : option (Z * Z) :=
  match months with
  | [] => None
  | length :: months =>
      if length <=? days then month_loop months (month + 1) (days - length)
      else Some (month, days)
  end.

Definition utc_text (year month days time millis : Z) : string :=
  join "" [pad 4 year; "-"; pad 2 (month + 1); "-"; pad 2 (days + 1); "T";
           pad 2 (time / 3600); ":"; pad 2 ((time / 60) mod 60); ":"; pad 2 (time mod 60); ".";
           pad 3 millis; "Z"]%string.

Definition from_epoch_duration (duration : Duration)
  : option (result ClockError ClockSnapshot) :=
  if U64_MAX <? as_millis duration then Some (Err OutOfRange)
  else
    let days := as_secs duration / 86400 in
    if 2932896 <? days then Some (Err OutOfRange)
    else
      match year_loop (S (Z.to_nat (days / 365))) 1970 days with
      | None => None
      | Some (year, days) =>
          if 9999 <? year then Some (Err OutOfRange)
          else
            match month_loop (months year) 0 days with
            | None => None
            | Some (month, days) =>
                let time := as_secs duration mod 86400 in
                Some (Ok {| epoch_ms := as_millis duration;
                            utc := utc_text year month days time (subsec_millis duration) |})
            end
      end.

(** [snapshot]: what [SystemTime::now().duration_since(UNIX_EPOCH)] said *)
Definition snapshot (since_epoch : option Duration) : option (result ClockError ClockSnapshot) :=
  match since_epoch with
  | None => Some (Err BeforeEpoch)
  | Some d => from_epoch_duration d
  end.

(** ** The proleptic Gregorian calendar, in closed form *)

(** Days from 1 January of year 1 to 1 January of [y] *)
Definition days_before_year (y : Z) : Z :=
  365 * (y - 1) + (y - 1) / 4 - (y - 1) / 100 + (y - 1) / 400.

Definition days_before_month (y m : Z) : Z :=
  foldr (fun k sum => if k <? m then days_in y k + sum else sum) 0
    [1; 2; 3; 4; 5; 6; 7; 8; 9; 10; 11; 12].

Definition day_number (u : Utc) : Z :=
  days_before_year (year u) - days_before_year 1970 + days_before_month (year u) (month u)
  + (day u - 1).

Definition epoch_seconds (u : Utc) : Z :=
  ((day_number u * 24 + hour u) * 60 + minute u) * 60 + second u.

Lemma div_step y k : 0 < k -> y / k - (y - 1) / k = if y mod k =? 0 then 1 else 0.
Proof.
  intros Hk. pose proof (Z.div_mod y k ltac:(lia)) as E.
  pose proof (Z.mod_pos_bound y k Hk) as B.
  destruct (Z.eqb_spec (y mod k) 0) as [E0|N0].
  - enough ((y - 1) / k = y / k - 1) by lia.
    symmetry. apply (Z.div_unique _ _ _ (k - 1)); lia.
  - enough ((y - 1) / k = y / k) by lia.
    symmetry. apply (Z.div_unique _ _ _ (y mod k - 1)); lia.
Qed.

Lemma mod_weaken y a b : 0 < a -> 0 < b -> y mod (a * b) = 0 -> y mod a = 0.
Proof.
  intros Ha Hb H. apply Z.mod_divide; [lia|]. apply Z.mod_divide in H; [|nia].
  destruct H as [q ->]. exists (q * b). lia.
Qed.

Lemma leap_eq y :
  leap y = is_multiple_of y 400 || (is_multiple_of y 4 && negb (is_multiple_of y 100)).
Proof.
  unfold leap, is_multiple_of.
  pose proof (mod_weaken y 4 100 ltac:(lia) ltac:(lia)) as W. change (4 * 100) with 400 in W.
  destruct (Z.eqb_spec (y mod 400) 0), (Z.eqb_spec (y mod 4) 0), (Z.eqb_spec (y mod 100) 0);
    simpl; try done; exfalso; auto.
Qed.

Lemma days_before_year_step y : days_before_year (y + 1) = days_before_year y + year_length y.
Proof.
  unfold days_before_year, year_length, leap, is_multiple_of.
  replace (y + 1 - 1) with y by lia.
  pose proof (div_step y 4 ltac:(lia)). pose proof (div_step y 100 ltac:(lia)).
  pose proof (div_step y 400 ltac:(lia)).
  pose proof (mod_weaken y 4 25 ltac:(lia) ltac:(lia)) as W1.
  pose proof (mod_weaken y 100 4 ltac:(lia) ltac:(lia)) as W2.
  change (4 * 25) with 100 in W1. change (100 * 4) with 400 in W2.
  destruct (Z.eqb_spec (y mod 4) 0), (Z.eqb_spec (y mod 100) 0), (Z.eqb_spec (y mod 400) 0);
    simpl; lia.
Qed.

Lemma days_before_year_le x y :
  x <= y -> days_before_year x + 365 * (y - x) <= days_before_year y.
Proof.
  intros H. replace y with (x + Z.of_nat (Z.to_nat (y - x))) by lia.
  induction (Z.to_nat (y - x)) as [|n IH]; [rewrite Z.add_0_r; lia|].
  replace (x + Z.of_nat (S n)) with (x + Z.of_nat n + 1) by lia.
  rewrite days_before_year_step. unfold year_length. destruct (leap _); lia.
Qed.

Lemma year_loop_spec fuel : forall year days,
  0 <= days < 365 * Z.of_nat fuel ->
  exists y d, year_loop fuel year days = Some (y, d) /\ year <= y /\
    0 <= d < year_length y /\ days_before_year year + days = days_before_year y + d.
Proof.
  induction fuel as [|fuel IH]; intros year days H; [lia|]. simpl.
  assert (365 <= year_length year) by (unfold year_length; destruct (leap year); lia).
  destruct (Z.ltb_spec days (year_length year)).
  - exists year, days. split; [done|]. lia.
  - destruct (IH (year + 1) (days - year_length year)) as (y & d & E & Hy & Hd & S); [lia|].
    rewrite days_before_year_step in S. exists y, d. split; [done|]. lia.
Qed.

Ltac compute_succ :=
  repeat match goal with
  | |- context [?a + 1] =>
      let r := eval vm_compute in (a + 1) in
      match r with Zpos _ => idtac end; change (a + 1) with r
  end.

Lemma month_lengths y :
  days_in y 1 = 31 /\ days_in y 3 = 31 /\ days_in y 4 = 30 /\ days_in y 5 = 31 /\
  days_in y 6 = 30 /\ days_in y 7 = 31 /\ days_in y 8 = 31 /\ days_in y 9 = 30 /\
  days_in y 10 = 31 /\ days_in y 11 = 30 /\ days_in y 12 = 31.
Proof. done. Qed.

Lemma months_before y :
  let feb := days_in y 2 in
  days_before_month y 1 = 0 /\ days_before_month y 2 = 31 /\ days_before_month y 3 = 31 + feb /\
  days_before_month y 4 = 62 + feb /\ days_before_month y 5 = 92 + feb /\
  days_before_month y 6 = 123 + feb /\ days_before_month y 7 = 153 + feb /\
  days_before_month y 8 = 184 + feb /\ days_before_month y 9 = 215 + feb /\
  days_before_month y 10 = 245 + feb /\ days_before_month y 11 = 276 + feb /\
  days_before_month y 12 = 306 + feb.
Proof.
  unfold days_before_month. cbn [foldr Z.ltb Z.compare Pos.compare Pos.compare_cont].
  pose proof (month_lengths y). lia.
Qed.

Lemma month_loop_spec y days :
  0 <= days < year_length y ->
  exists m d, month_loop (months y) 0 days = Some (m, d) /\ 0 <= m <= 11 /\
    0 <= d < days_in y (m + 1) /\ days = days_before_month y (m + 1) + d.
Proof.
  intros H. unfold months, year_length in *. simpl.
  assert (F : days_in y 2 = if leap y then 29 else 28)
    by (unfold days_in; simpl; rewrite leap_eq; done).
  pose proof (months_before y) as B. simpl in B. rewrite F in B.
  repeat match goal with
    | |- context [?a <=? ?b] => destruct (Z.leb_spec a b)
    end;
    try (destruct (leap y); lia);
    eexists _, _; (split; [reflexivity|]); (split; [lia|]);
    compute_succ; pose proof (month_lengths y); destruct (leap y); lia.
Qed.

(** ** The text *)

Definition digits3 (n : Z) : list Z := digit (n / 100) :: digits2 n.

(** The last [w] decimal digits, as bytes *)
Fixpoint digits_n (w : nat) (n : Z) : list Z :=
  match w with
  | O => []
  | S w => digits_n w (n / 10) ++ [digit n]
  end.

Lemma digits_n_zero w : digits_n w 0 = repeat 48 w.
Proof.
  induction w as [|w IH]; [done|]. simpl. change (0 / 10) with 0. rewrite IH.
  change (digit 0) with 48. by rewrite <- repeat_cons.
Qed.

Lemma bytes_of_zeros n : bytes_of (zeros n) = repeat 48 n.
Proof. induction n as [|n IH]; simpl; [done|]. by rewrite <- IH. Qed.

Lemma pretty_char n : 0 <= n -> byte_of (pretty_N_char (Z.to_N n `mod` 10)) = digit n.
Proof.
  intros H. unfold digit. replace (Z.to_N n `mod` 10)%N with (Z.to_N (n mod 10)) by (by rewrite Z2N.inj_mod by lia).
  pose proof (Z.mod_pos_bound n 10 ltac:(lia)).
  assert (exists m, n mod 10 = m /\ m ∈ [0; 1; 2; 3; 4; 5; 6; 7; 8; 9]) as (m & -> & Hm).
  { eexists. split; [reflexivity|]. rewrite !elem_of_cons. lia. }
  repeat (apply elem_of_cons in Hm as [->|Hm]; [done|]). by apply elem_of_nil in Hm.
Qed.

Lemma pretty_go w : forall n s, 0 <= n < 10 ^ Z.of_nat w ->
  exists k, (k <= w)%nat /\
    String.length (pretty_N_go (Z.to_N n) s) = (k + String.length s)%nat /\
    repeat 48 (w - k) ++ bytes_of (pretty_N_go (Z.to_N n) s) = digits_n w n ++ bytes_of s.
Proof.
  induction w as [|w IH]; intros n s H.
  - exists 0%nat. assert (n = 0) as -> by (change (10 ^ Z.of_nat 0) with 1 in H; lia). done.
  - destruct (decide (n = 0)) as [->|Hn].
    + exists 0%nat. split; [lia|]. split; [done|]. by rewrite digits_n_zero.
    + rewrite Nat2Z.inj_succ, Z.pow_succ_r in H by lia.
      rewrite pretty_N_go_step by lia. replace (Z.to_N n `div` 10)%N with (Z.to_N (n / 10)) by (by rewrite Z2N.inj_div by lia).
      destruct (IH (n / 10) (String (pretty_N_char (Z.to_N n `mod` 10)) s)) as (k & Hk & L & E).
      { split; [apply Z.div_pos; lia|]. apply Z.div_lt_upper_bound; lia. }
      exists (S k). split; [lia|]. split; [rewrite L; simpl; lia|].
      replace (S w - S k)%nat with (w - k)%nat by lia. rewrite E. simpl.
      rewrite pretty_char by lia. by rewrite <- app_assoc.
Qed.

Lemma pad_digits w n : (0 < w)%nat -> 0 <= n < 10 ^ Z.of_nat w -> bytes_of (pad w n) = digits_n w n.
Proof.
  intros Hw H. unfold pad. rewrite bytes_of_app, bytes_of_zeros. unfold pretty, pretty_N.
  case_decide as D.
  - assert (n = 0) as -> by lia. rewrite digits_n_zero. destruct w as [|w]; [lia|]. simpl.
    rewrite Nat.sub_0_r. by rewrite <- repeat_cons.
  - destruct (pretty_go w n "" H) as (k & Hk & L & E). rewrite L, Nat.add_0_r, E. apply app_nil_r.
Qed.

Lemma pad_two n : 0 <= n < 100 -> bytes_of (pad 2 n) = digits2 n.
Proof. intros H. by rewrite pad_digits by (simpl; lia). Qed.

Lemma pad_three n : 0 <= n < 1000 -> bytes_of (pad 3 n) = digits3 n.
Proof. intros H. rewrite pad_digits by (simpl; lia). cbn [digits_n app]. by rewrite Z.div_div by lia. Qed.

Lemma pad_four n : 0 <= n < 10000 -> bytes_of (pad 4 n) = digits4 n.
Proof.
  intros H. rewrite pad_digits by (simpl; lia). cbn [digits_n app].
  unfold digits4, digits2. by rewrite !Z.div_div by lia.
Qed.

(** The calendar fields of the text *)
Definition utc_fields (y m d time millis : Z) : Utc :=
  {| year := y; month := m + 1; day := d + 1; hour := time / 3600; minute := (time / 60) mod 60;
     second := time mod 60; fraction := Some [millis / 100; millis / 10 mod 10; millis mod 10] |}.

Lemma time_fields time : 0 <= time < 86400 ->
  0 <= time / 3600 <= 23 /\ 0 <= (time / 60) mod 60 <= 59 /\ 0 <= time mod 60 <= 59 /\
  time = (time / 3600 * 60 + (time / 60) mod 60) * 60 + time mod 60.
Proof.
  intros H. replace (time / 3600) with (time / 60 / 60) by (rewrite Z.div_div by lia; done).
  pose proof (Z.div_mod time 60 ltac:(lia)). pose proof (Z.div_mod (time / 60) 60 ltac:(lia)).
  pose proof (Z.mod_pos_bound time 60 ltac:(lia)).
  pose proof (Z.mod_pos_bound (time / 60) 60 ltac:(lia)). lia.
Qed.

Lemma utc_text_bytes y m d time millis :
  0 <= y <= 9999 -> 0 <= m <= 11 -> 0 <= d <= 30 -> 0 <= time < 86400 -> 0 <= millis < 1000 ->
  bytes_of (utc_text y m d time millis) = print_utc (utc_fields y m d time millis).
Proof.
  intros Hy Hm Hd Ht Hs. pose proof (time_fields time Ht) as (H1 & H2 & H3 & _).
  unfold utc_text, print_utc. simpl join. simpl fraction.
  rewrite !bytes_of_app, pad_four, !pad_two, pad_three by lia. simpl.
  assert (millis / 10 / 10 = millis / 100) as E by (rewrite Z.div_div by lia; done).
  unfold digits3, digit. rewrite (Z.mod_small (millis / 100)); [done|].
  split; [apply Z.div_pos; lia|apply Z.div_lt_upper_bound; lia].
Qed.

Lemma utc_fields_ok y m d time millis :
  0 <= y <= 9999 -> 0 <= m <= 11 -> 0 <= d < days_in y (m + 1) -> 0 <= time < 86400 ->
  0 <= millis < 1000 -> utc_ok (utc_fields y m d time millis).
Proof.
  intros Hy Hm Hd Ht Hs. pose proof (time_fields time Ht) as (H1 & H2 & H3 & _).
  assert (0 <= millis / 100 <= 9).
  { split; [apply Z.div_pos; lia|]. assert (millis / 100 < 10); [|lia].
    apply Z.div_lt_upper_bound; lia. }
  pose proof (Z.mod_pos_bound (millis / 10) 10). pose proof (Z.mod_pos_bound millis 10).
  unfold utc_ok. simpl. repeat split; try lia; [done|]. repeat constructor; lia.
Qed.

Lemma subsec_range d : duration_ok d -> 0 <= subsec_millis d < 1000.
Proof.
  intros [_ H]. unfold subsec_millis.
  split; [apply Z.div_pos; lia|apply Z.div_lt_upper_bound; lia].
Qed.

Lemma clock_spec d :
  duration_ok d ->
  if as_secs d <? 253402300800 then
    exists y m day, from_epoch_duration d =
      Some (Ok {| epoch_ms := as_millis d;
                  utc := utc_text y m day (as_secs d mod 86400) (subsec_millis d) |}) /\
      1970 <= y <= 9999 /\ 0 <= m <= 11 /\ 0 <= day < days_in y (m + 1) /\
      as_secs d / 86400 = days_before_year y - days_before_year 1970
                          + days_before_month y (m + 1) + day
  else from_epoch_duration d = Some (Err OutOfRange).
Proof.
  intros [Hs Hn]. unfold from_epoch_duration.
  pose proof (subsec_range d (conj Hs Hn)) as Hm.
  pose proof (Z.div_mod (as_secs d) 86400 ltac:(lia)) as E.
  pose proof (Z.mod_pos_bound (as_secs d) 86400 ltac:(lia)) as B.
  destruct (Z.ltb_spec (as_secs d) 253402300800) as [L|L].
  - replace (U64_MAX <? as_millis d) with false
      by (symmetry; apply Z.ltb_ge; unfold as_millis, U64_MAX; lia).
    replace (2932896 <? as_secs d / 86400) with false by (symmetry; apply Z.ltb_ge; lia).
    set (days := as_secs d / 86400) in *. assert (0 <= days <= 2932896) by lia.
    destruct (year_loop_spec (S (Z.to_nat (days / 365))) 1970 days) as (y & r & -> & Hy & Hr & Er).
    { pose proof (Z.div_mod days 365 ltac:(lia)). pose proof (Z.mod_pos_bound days 365 ltac:(lia)).
      pose proof (Z.div_pos days 365). lia. }
    assert (y <= 9999) as Hy'.
    { destruct (Z.le_gt_cases y 9999) as [|G]; [done|].
      pose proof (days_before_year_le 10000 y ltac:(lia)) as M.
      change (days_before_year 10000) with 3652059 in M.
      change (days_before_year 1970) with 719162 in Er. lia. }
    replace (9999 <? y) with false by (symmetry; apply Z.ltb_ge; lia).
    destruct (month_loop_spec y r Hr) as (m & day & -> & Hm' & Hd & Em).
    exists y, m, day. split; [done|]. lia.
  - destruct (U64_MAX <? as_millis d); [done|].
    replace (2932896 <? as_secs d / 86400) with true by (symmetry; apply Z.ltb_lt; lia). done.
Qed.

(** ** Textual order is temporal order *)

Lemma compare_lex B a b a' b' : 0 <= b < B -> 0 <= b' < B ->
  (a * B + b ?= a' * B + b') = then_with (a ?= a') (b ?= b').
Proof.
  intros Hb Hb'. destruct (Z.compare_spec a a') as [->|L|L]; simpl.
  - apply Zcompare_plus_compat.
  - apply Z.compare_lt_iff. nia.
  - apply Z.compare_gt_iff. nia.
Qed.

Lemma bytes_cmp_app a : forall a' b b', length a = length a' ->
  bytes_cmp (a ++ b) (a' ++ b') = then_with (bytes_cmp a a') (bytes_cmp b b').
Proof.
  induction a as [|x a IH]; intros [|x' a'] b b' H; try done. simpl.
  destruct (x ?= x'); try done. apply IH. simpl in H. lia.
Qed.

Lemma bytes_cmp_cons x y a b :
  bytes_cmp (x :: a) (y :: b) = then_with (x ?= y) (bytes_cmp a b).
Proof. simpl. by destruct (x ?= y). Qed.

Lemma digit_cmp x y a b :
  bytes_cmp (digit x :: a) (digit y :: b) = then_with (x mod 10 ?= y mod 10) (bytes_cmp a b).
Proof. unfold digit. rewrite bytes_cmp_cons, Zcompare_plus_compat. done. Qed.

Lemma split_ten x n : 0 <= x < 10 * n -> x = (x / 10) * 10 + x mod 10 /\ 0 <= x mod 10 < 10 /\
  0 <= x / 10 < n.
Proof.
  intros H. pose proof (Z.div_mod x 10 ltac:(lia)). pose proof (Z.mod_pos_bound x 10 ltac:(lia)).
  lia.
Qed.

Lemma digits2_cmp x y a b : 0 <= x < 100 -> 0 <= y < 100 ->
  bytes_cmp (digits2 x ++ a) (digits2 y ++ b) = then_with (x ?= y) (bytes_cmp a b).
Proof.
  intros Hx Hy. destruct (split_ten x 10) as (Ex & Rx & Qx); [lia|].
  destruct (split_ten y 10) as (Ey & Ry & Qy); [lia|].
  unfold digits2. simpl app. rewrite !digit_cmp, !(Z.mod_small (_ / 10)) by lia.
  rewrite Ex at 3. rewrite Ey at 3. rewrite compare_lex by lia.
  by destruct (x / 10 ?= y / 10), (x mod 10 ?= y mod 10).
Qed.

Lemma digits4_cmp x y a b : 0 <= x < 10000 -> 0 <= y < 10000 ->
  bytes_cmp (digits4 x ++ a) (digits4 y ++ b) = then_with (x ?= y) (bytes_cmp a b).
Proof.
  intros Hx Hy. unfold digits4. rewrite <- !(assoc_L (++)).
  assert (forall z, digits2 z = digits2 (z mod 100)) as M.
  { intros z. unfold digits2, digit. f_equal; [|f_equal].
    - rewrite (Z.div_mod z 100) at 1 by lia.
      replace (100 * (z / 100) + z mod 100) with (z mod 100 + (z / 100 * 10) * 10) by lia.
      rewrite Z.div_add by lia. by rewrite Z.mod_add by lia.
    - rewrite (Z.div_mod z 100) at 1 by lia.
      replace (100 * (z / 100) + z mod 100) with (z mod 100 + (z / 100 * 10) * 10) by lia.
      by rewrite Z.mod_add by lia. }
  rewrite (M x), (M y).
  pose proof (Z.div_mod x 100 ltac:(lia)) as Ex. pose proof (Z.div_mod y 100 ltac:(lia)) as Ey.
  pose proof (Z.mod_pos_bound x 100 ltac:(lia)). pose proof (Z.mod_pos_bound y 100 ltac:(lia)).
  rewrite !digits2_cmp by lia. rewrite Ex at 3. rewrite Ey at 3.
  rewrite (Z.mul_comm 100), (Z.mul_comm 100), compare_lex by lia.
  by destruct (x / 100 ?= y / 100), (x mod 100 ?= y mod 100).
Qed.

Lemma days_before_month_step y m : 1 <= m <= 11 ->
  days_before_month y (m + 1) = days_before_month y m + days_in y m.
Proof.
  intros H. pose proof (months_before y) as B. pose proof (month_lengths y) as L. simpl in B.
  assert (m = 1 \/ m = 2 \/ m = 3 \/ m = 4 \/ m = 5 \/ m = 6 \/ m = 7 \/ m = 8 \/ m = 9 \/
          m = 10 \/ m = 11) as C by lia.
  decompose [or] C; subst m; compute_succ; lia.
Qed.

Lemma days_before_month_le y m m' : 1 <= m -> m < m' <= 12 ->
  days_before_month y m + days_in y m <= days_before_month y m'.
Proof.
  intros H H'. replace m' with (m + 1 + Z.of_nat (Z.to_nat (m' - m - 1))) in * by lia.
  induction (Z.to_nat (m' - m - 1)) as [|n IH].
  - rewrite Z.add_0_r, days_before_month_step by lia. lia.
  - replace (m + 1 + Z.of_nat (S n)) with (m + 1 + Z.of_nat n + 1) in * by lia.
    rewrite days_before_month_step by lia. specialize (IH ltac:(lia)).
    assert (0 <= days_in y (m + 1 + Z.of_nat n)); [|lia].
    unfold days_in. repeat case_match; lia.
Qed.

Lemma day_of_year_range y m d : 1 <= m <= 12 -> 1 <= d <= days_in y m ->
  0 <= days_before_month y m + (d - 1) < year_length y.
Proof.
  intros Hm Hd. pose proof (months_before y) as B. simpl in B. pose proof (month_lengths y) as L.
  assert (days_in y 2 = year_length y - 337) as F
    by (unfold days_in, year_length; simpl; rewrite leap_eq; case_match; done).
  assert (365 <= year_length y) by (unfold year_length; case_match; lia).
  destruct (Z.eq_dec m 12) as [->|]; [lia|].
  pose proof (days_before_month_le y m 12 ltac:(lia) ltac:(lia)).
  destruct (Z.eq_dec m 1) as [->|]; [lia|].
  pose proof (days_before_month_le y 1 m ltac:(lia) ltac:(lia)). lia.
Qed.

Lemma day_number_cmp u v : utc_ok u -> utc_ok v ->
  (day_number u ?= day_number v) =
    then_with (year u ?= year v) (then_with (month u ?= month v) (day u ?= day v)).
Proof.
  intros (Hy & Hm & Hd & _) (Hy' & Hm' & Hd' & _). unfold day_number.
  pose proof (day_of_year_range (year u) (month u) (day u) Hm Hd).
  pose proof (day_of_year_range (year v) (month v) (day v) Hm' Hd').
  assert (forall a b, a < b -> days_before_year a + year_length a <= days_before_year b) as Y.
  { intros a b Hab. rewrite <- days_before_year_step.
    pose proof (days_before_year_le (a + 1) b ltac:(lia)). lia. }
  destruct (Z.compare_spec (year u) (year v)) as [E|L|L]; simpl.
  - rewrite E in *. destruct (Z.compare_spec (month u) (month v)) as [E'|L'|L']; simpl.
    + rewrite E' in *. rewrite !Zcompare_plus_compat. unfold Z.sub.
      by rewrite !(Z.add_comm _ (-1)), Zcompare_plus_compat.
    + apply Z.compare_lt_iff.
      pose proof (days_before_month_le (year v) (month u) (month v) ltac:(lia) ltac:(lia)). lia.
    + apply Z.compare_gt_iff.
      pose proof (days_before_month_le (year v) (month v) (month u) ltac:(lia) ltac:(lia)). lia.
  - apply Z.compare_lt_iff. specialize (Y _ _ L). lia.
  - apply Z.compare_gt_iff. specialize (Y _ _ L). lia.
Qed.

Lemma snapshot_fields d y m day :
  duration_ok d -> 1970 <= y <= 9999 -> 0 <= m <= 11 -> 0 <= day < days_in y (m + 1) ->
  let u := utc_fields y m day (as_secs d mod 86400) (subsec_millis d) in
  utc_ok u /\
  bytes_of (utc_text y m day (as_secs d mod 86400) (subsec_millis d)) = print_utc u /\
  (as_secs d / 86400 = day_number u -> epoch_seconds u = as_secs d).
Proof.
  intros [Hs Hn] Hy Hm Hd u.
  pose proof (subsec_range d (conj Hs Hn)).
  pose proof (Z.mod_pos_bound (as_secs d) 86400 ltac:(lia)) as B.
  assert (days_in y (m + 1) <= 31) by (unfold days_in; repeat case_match; lia).
  split; [apply utc_fields_ok; lia|]. split; [apply utc_text_bytes; lia|].
  intros E. unfold epoch_seconds. rewrite <- E. simpl.
  pose proof (time_fields _ B) as (_ & _ & _ & T).
  pose proof (Z.div_mod (as_secs d) 86400 ltac:(lia)). lia.
Qed.

Lemma epoch_seconds_cmp u v : utc_ok u -> utc_ok v ->
  (epoch_seconds u ?= epoch_seconds v) =
    then_with (day_number u ?= day_number v)
      (then_with (hour u ?= hour v) (then_with (minute u ?= minute v) (second u ?= second v))).
Proof.
  intros (_ & _ & _ & Hh & Hi & Hs & _) (_ & _ & _ & Hh' & Hi' & Hs' & _). unfold epoch_seconds.
  rewrite !compare_lex by lia.
  by destruct (_ ?= _), (_ ?= _), (_ ?= _).
Qed.

Lemma millis_cmp ms ms' : 0 <= ms < 1000 -> 0 <= ms' < 1000 ->
  bytes_cmp [46; 48 + ms / 100; 48 + (ms / 10) mod 10; 48 + ms mod 10; 90]
            [46; 48 + ms' / 100; 48 + (ms' / 10) mod 10; 48 + ms' mod 10; 90] = (ms ?= ms').
Proof.
  intros H H'. rewrite !bytes_cmp_cons, !Zcompare_plus_compat, Z.compare_refl. simpl.
  destruct (split_ten ms 100) as (E & R & Q); [lia|].
  destruct (split_ten ms' 100) as (E' & R' & Q'); [lia|].
  rewrite E at 4. rewrite E' at 4. rewrite compare_lex by lia.
  destruct (split_ten (ms / 10) 10) as (F & S & _); [lia|].
  destruct (split_ten (ms' / 10) 10) as (F' & S' & _); [lia|].
  rewrite F at 2. rewrite F' at 2. rewrite compare_lex by lia. rewrite !Z.div_div by lia.
  by destruct (ms / _ ?= _), ((ms / 10) mod 10 ?= _), (ms mod 10 ?= _).
Qed.

Lemma print_utc_cmp y m d t ms y' m' d' t' ms' :
  let u := utc_fields y m d t ms in
  let v := utc_fields y' m' d' t' ms' in
  utc_ok u -> utc_ok v -> 0 <= ms < 1000 -> 0 <= ms' < 1000 ->
  bytes_cmp (print_utc u) (print_utc v) =
    then_with (epoch_seconds u ?= epoch_seconds v) (ms ?= ms').
Proof.
  intros u v Hu Hv Hms Hms'. rewrite epoch_seconds_cmp, day_number_cmp by done.
  destruct Hu as (Hy & Hm & Hd & Hh & Hi & Hs & _), Hv as (Hy' & Hm' & Hd' & Hh' & Hi' & Hs' & _).
  assert (forall a b, days_in a b <= 31) as D by (intros; unfold days_in; repeat case_match; lia).
  pose proof (D (year u) (month u)). pose proof (D (year v) (month v)).
  unfold print_utc. rewrite digits4_cmp by lia. simpl fraction.
  repeat (rewrite bytes_cmp_app by done; rewrite digits2_cmp by lia).
  simpl map. simpl app. rewrite millis_cmp by done.
  by destruct (year u ?= _), (month u ?= _), (day u ?= _), (hour u ?= _), (minute u ?= _),
    (second u ?= _).
Qed.

(** The clock is exact and total: for every duration since the epoch, [from_epoch_duration]
    returns without panicking; it refuses exactly the instants after the year 9999, and
    otherwise the snapshot carries the milliseconds of the duration and a text that is the
    printed form of the one calendar instant, in the proleptic Gregorian calendar given in
    closed form, that lies that many seconds after the epoch, with its milliseconds; the
    receipt validator accepts the text. *)
Theorem clock_exact d :
  duration_ok d ->
  if as_secs d <? 253402300800 then
    exists s u f1 f2 f3, from_epoch_duration d = Some (Ok s) /\ epoch_ms s = as_millis d /\
      utc_ok u /\ bytes_of (utc s) = print_utc u /\ epoch_seconds u = as_secs d /\
      fraction u = Some [f1; f2; f3] /\ f1 * 100 + f2 * 10 + f3 = subsec_millis d /\
      valid_timestamp (utc s) = true
  else from_epoch_duration d = Some (Err OutOfRange).
Proof.
  intros Hd. pose proof (clock_spec d Hd) as S. destruct (as_secs d <? 253402300800); [|done].
  destruct S as (y & m & day & -> & Hy & Hm & Hday & E). destruct (snapshot_fields d y m day Hd)
    as (Hok & Hb & He); [done..|].
  eexists _, (utc_fields y m day (as_secs d mod 86400) (subsec_millis d)), _, _, _.
  split; [done|]. split; [done|]. split; [done|]. split; [done|]. split; [apply He; unfold day_number; simpl; lia|].
  split; [done|]. split.
  - replace (subsec_millis d / 100) with (subsec_millis d / 10 / 10)
      by (rewrite Z.div_div by lia; done).
    pose proof (Z.div_mod (subsec_millis d) 10 ltac:(lia)).
    pose proof (Z.div_mod (subsec_millis d / 10) 10 ltac:(lia)). lia.
  - apply valid_timestamp_iff. eauto.
Qed.

(** The order of the texts is the order of time: of two snapshots, the UTC text of one
    sorts before, with or after that of the other exactly as its epoch milliseconds do; so
    the string comparisons by which the store orders its inventory and refuses an update
    older than its receipt compare instants. *)
Theorem clock_order d1 d2 s1 s2 :
  duration_ok d1 -> duration_ok d2 ->
  from_epoch_duration d1 = Some (Ok s1) -> from_epoch_duration d2 = Some (Ok s2) ->
  str_cmp (utc s1) (utc s2) = (epoch_ms s1 ?= epoch_ms s2).
Proof.
  intros H1 H2 E1 E2. pose proof (clock_spec d1 H1) as S1. pose proof (clock_spec d2 H2) as S2.
  rewrite E1 in S1. rewrite E2 in S2.
  destruct (as_secs d1 <? _); [|done]. destruct (as_secs d2 <? _); [|done].
  destruct S1 as (y & m & day & [= ->] & Hy & Hm & Hday & N).
  destruct S2 as (y' & m' & day' & [= ->] & Hy' & Hm' & Hday' & N'). simpl.
  destruct (snapshot_fields d1 y m day H1) as (Hok & Hb & He); [done..|].
  destruct (snapshot_fields d2 y' m' day' H2) as (Hok' & Hb' & He'); [done..|].
  unfold str_cmp. rewrite Hb, Hb', print_utc_cmp by first [done | by apply subsec_range].
  unfold as_millis. rewrite compare_lex by (by apply subsec_range).
  rewrite He, He'; [done|unfold day_number; simpl; lia..].
Qed.

Definition leap_day : Duration := {| as_secs := 1709251199; nanos := 987654321 |}.
Definition next_day : Duration := {| as_secs := 1709251200; nanos := 0 |}.

Lemma clock_exact_witness :
  exists s u f1 f2 f3, from_epoch_duration leap_day = Some (Ok s) /\ epoch_ms s = as_millis leap_day /\
    utc_ok u /\ bytes_of (utc s) = print_utc u /\ epoch_seconds u = as_secs leap_day /\
    fraction u = Some [f1; f2; f3] /\ f1 * 100 + f2 * 10 + f3 = subsec_millis leap_day /\
    valid_timestamp (utc s) = true.
Proof. refine (clock_exact leap_day _). vm_compute. split; split; discriminate || done. Defined.

Lemma clock_order_witness :
  str_cmp "2024-02-29T23:59:59.987Z" "2024-03-01T00:00:00.000Z" = Lt.
Proof.
  refine (clock_order leap_day next_day
    {| epoch_ms := 1709251199987; utc := "2024-02-29T23:59:59.987Z" |}
    {| epoch_ms := 1709251200000; utc := "2024-03-01T00:00:00.000Z" |} _ _ _ _).
  - vm_compute. split; split; discriminate || done.
  - vm_compute. split; split; discriminate || done.
  - vm_compute. reflexivity.
  - vm_compute. reflexivity.
Defined.
