(* ===== verification/Resolver.v ===== *)
(** * The resolver's wire protocol

    [native/crates/resolver/src/protocol.rs] and the lookup of [helper.rs]: the service asks
    a helper process for the addresses of one host by a request frame on its input and reads
    one reply frame from its output.  A frame is a list of bytes. *)
From S2P Require Import Prelude Text.

Definition MAX_HOST : Z := 253.
Definition MAX_ADDRESSES : Z := 16.
Definition MAX_SCANNED : nat := 64.
Definition MAX_REQUEST : Z := 7 + MAX_HOST.
Definition MAX_REPLY : Z := 512.
Definition REQUEST_MAGIC : list Z := [79; 68; 82; 49].
Definition REPLY_MAGIC : list Z := [79; 68; 65; 49].

(** ** [std::net]

    Addresses as their octets, and the text parser of the standard library. *)

Inductive IpAddr :=
| V4 (octets : list Z)
| V6 (octets : list Z).

Inductive SocketAddr :=
| SocketV4 (octets : list Z) (port : Z)
| SocketV6 (octets : list Z) (port flowinfo scope_id : Z).

#[export] Instance SocketAddr_eq_dec : EqDecision SocketAddr.
Proof. solve_decision. Defined.

Definition addr_port (a : SocketAddr) : Z :=
  match a with SocketV4 _ p => p | SocketV6 _ p _ _ => p end.

(** Digits up to the first other byte; [None] when there are more than [remaining]. *)
Fixpoint read_digits (radix : Z) (remaining count : nat) (acc : Z) (bs : list Z)
  : option (Z * nat * list Z) :=
  match bs with
  | [] => Some (acc, count, [])
  | b :: rest =>
      match to_digit radix b with
      | None => Some (acc, count, bs)
      | Some d =>
          match remaining with
          | O => None
          | S remaining => read_digits radix remaining (S count) (acc * radix + d) rest
          end
      end
  end.

Definition read_number (radix : Z) (max_digits : nat) (limit : Z) (allow_zero_prefix : bool)
  (bs : list Z) : option (Z * list Z) :=
  let has_leading_zero := is_some_and (head bs) (Z.eqb 48) in
  match read_digits radix max_digits 0 0 bs with
  | None => None
  | Some (v, count, rest) =>
      if (count =? 0)%nat then None
      else if negb allow_zero_prefix && has_leading_zero && (1 <? count)%nat then None
      else if v <=? limit then Some (v, rest) else None
  end.

Definition read_separator {A} (sep : Z) (index : nat) (inner : list Z -> option (A * list Z))
  (bs : list Z) : option (A * list Z) :=
  if (0 <? index)%nat then
    match bs with
    | b :: rest => if b =? sep then inner rest else None
    | [] => None
    end
  else inner bs.

Fixpoint read_v4_groups (n index : nat) (bs : list Z) : option (list Z * list Z) :=
  match n with
  | O => Some ([], bs)
  | S n =>
      match read_separator 46 index (read_number 10 3 U8_MAX false) bs with
      | None => None
      | Some (g, rest) =>
          match read_v4_groups n (S index) rest with
          | None => None
          | Some (gs, rest) => Some (g :: gs, rest)
          end
      end
  end.

Definition read_ipv4_addr (bs : list Z) : option (list Z * list Z) := read_v4_groups 4 0 bs.

(** The groups read, and whether they end with an embedded IPv4 address *)
Fixpoint read_groups (n index : nat) (bs : list Z) : list Z * bool * list Z :=
  match n with
  | O => ([], false, bs)
  | S n =>
      let v4 := if (0 <? n)%nat then read_separator 58 index read_ipv4_addr bs else None in
      match v4 with
      | Some ([a; b; c; d], rest) => ([a * 256 + b; c * 256 + d], true, rest)
      | _ =>
          match read_separator 58 index (read_number 16 4 U16_MAX true) bs with
          | None => ([], false, bs)
          | Some (g, rest) =>
              let '(gs, v4, rest) := read_groups n (S index) rest in (g :: gs, v4, rest)
          end
      end
  end.

Definition read_ipv6_addr (bs : list Z) : option (list Z * list Z) :=
  let '(front, v4, rest) := read_groups 8 0 bs in
  if (length front =? 8)%nat then Some (front, rest)
  else if v4 then None
  else
    match rest with
    | 58 :: 58 :: rest =>
        let limit := (8 - (length front + 1))%nat in
        let '(back, _, rest) := read_groups limit 0 rest in
        Some (front ++ replicate (8 - length front - length back) 0 ++ back, rest)
    | _ => None
    end.

(** [str::parse::<IpAddr>] *)
Definition parse_ip (host : string) : option IpAddr :=
  let done r := match r with (a, []) => Some a | _ => None end in
  match read_ipv4_addr (bytes_of host) with
  | Some (o, rest) => done (V4 o, rest)
  | None =>
      match read_ipv6_addr (bytes_of host) with
      | Some (gs, rest) => done (V6 (concat (map (be_bytes 2) gs)), rest)
      | None => None
      end
  end.

(** ** The protocol *)

Inductive ExpectedPeer :=
| Dns (host : string)
| Ip (ip : IpAddr).

Inductive Error :=
| InvalidInput
| Deadline
| Cancelled
| Capacity
| Spawn
| Io
| Protocol
| Lookup
| TooManyAddresses
| ChildFailed
| OwnerStopped
| CleanupUnconfirmed.

Definition bad_label (label : list Z) : bool :=
  match label with [] => true | _ :: _ => false end
  || (63 <? Z.of_nat (length label))
  || negb (is_some_and (head label) is_alphanumeric)
  || negb (is_some_and (last label) is_alphanumeric)
  || negb (forallb (fun b => is_alphanumeric b || (b =? 45)) label).

Definition parse (host : string) : result Error ExpectedPeer :=
  match parse_ip host with
  | Some ip => Ok (Ip ip)
  | None =>
      let labels := match strip_suffix "." host with Some l => l | None => host end in
      if str_is_empty host || (MAX_HOST <? str_len host)
         || negb (is_ascii_bytes (bytes_of host))
         || existsb bad_label (split_byte 46 (bytes_of labels))
      then Err InvalidInput
      else Ok (Dns host)
  end.

Definition dns_name (peer : ExpectedPeer) : option string :=
  match peer with Dns host => Some host | Ip _ => None end.

Record Resolved := {
  expected : ExpectedPeer;
  port : Z;
  addresses : list SocketAddr
}.

Definition request (peer : ExpectedPeer) (port : Z) : result Error (list Z) :=
  if port =? 0 then Err InvalidInput
  else
    let? host := ok_or (dns_name peer) InvalidInput in
    Ok (REQUEST_MAGIC ++ be_bytes 2 port ++ [str_len host mod 256] ++ bytes_of host).

(** [Read::read_exact] on what the peer sends before it closes *)
Definition read_exact (n : nat) (input : list Z) : option (list Z * list Z) :=
  if (n <=? length input)%nat then Some (firstn n input, skipn n input) else None.

(** [read_request], with the input it leaves unread *)
Definition read_request (input : list Z) : result Error (ExpectedPeer * Z * list Z) :=
  let? (header, input) := ok_or (read_exact 7 input) Protocol in
  let size := nth 6 header 0 in
  if negb (bool_decide (firstn 4 header = REQUEST_MAGIC)) || (size =? 0) || (MAX_HOST <? size)
  then Err Protocol
  else
    let? (host, input) := ok_or (read_exact (Z.to_nat size) input) Protocol in
    let port := be_value (firstn 2 (skipn 4 header)) in
    if port =? 0 then Err Protocol
    else if negb (utf8_bytes host) then Err Protocol
    else
      match parse (str_of_bytes host) with
      | Ok (Dns host) => Ok (Dns host, port, input)
      | _ => Err Protocol
      end.

Definition reply_error (error : Error) : list Z :=
  REPLY_MAGIC
  ++ [match error with
      | TooManyAddresses => 2
      | InvalidInput | Protocol => 3
      | _ => 1
      end]
  ++ [0].

Definition encode_address (a : SocketAddr) : list Z :=
  match a with
  | SocketV4 octets _ => 4 :: octets
  | SocketV6 octets _ flowinfo scope_id =>
      6 :: octets ++ be_bytes 4 flowinfo ++ be_bytes 4 scope_id
  end.

Definition reply (found : result Error (list SocketAddr)) : list Z :=
  match found with
  | Err error => reply_error error
  | Ok l =>
      if (Z.of_nat (length l) =? 0) || (MAX_ADDRESSES <? Z.of_nat (length l))
      then reply_error TooManyAddresses
      else REPLY_MAGIC ++ [0] ++ [Z.of_nat (length l) mod 256] ++ concat (map encode_address l)
  end.

(** [bytes.get(a..a + n)] *)
Definition slice (bs : list Z) (a n : nat) : option (list Z) :=
  if (a + n <=? length bs)%nat then Some (firstn n (skipn a bs)) else None.

(** One turn of the loop of [decode]: an address and the offset after it *)
Definition decode_address (bs : list Z) (offset : nat) (port : Z)
  : result Error (SocketAddr * nat) :=
  let? kind := ok_or (bs !! offset) Protocol in
  let offset := S offset in
  if kind =? 4 then
    let? data := ok_or (slice bs offset 4) Protocol in
    Ok (SocketV4 data port, offset + 4)%nat
  else if kind =? 6 then
    let? data := ok_or (slice bs offset 24) Protocol in
    Ok (SocketV6 (firstn 16 data) port (be_value (firstn 4 (skipn 16 data)))
          (be_value (firstn 4 (skipn 20 data))), offset + 24)%nat
  else Err Protocol.

Fixpoint decode_addresses (n : nat) (bs : list Z) (offset : nat) (port : Z)
  (seen : list SocketAddr) : result Error (list SocketAddr * nat) :=
  match n with
  | O => Ok (seen, offset)
  | S n =>
      let? (address, offset) := decode_address bs offset port in
      if bool_decide (address ∈ seen) then Err Protocol
      else decode_addresses n bs offset port (seen ++ [address])
  end.

Definition decode (bs : list Z) (expected : ExpectedPeer) (port : Z) : result Error Resolved :=
  let len := Z.of_nat (length bs) in
  if (len <? 6) || (MAX_REPLY <? len) || negb (bool_decide (firstn 4 bs = REPLY_MAGIC))
  then Err Protocol
  else if negb (nth 4 bs 0 =? 0) then
    if negb (len =? 6) || negb (nth 5 bs 0 =? 0) then Err Protocol
    else Err (if nth 4 bs 0 =? 1 then Lookup
              else if nth 4 bs 0 =? 2 then TooManyAddresses
              else if nth 4 bs 0 =? 3 then InvalidInput
              else Protocol)
  else
    let count := nth 5 bs 0 in
    if (count =? 0) || (MAX_ADDRESSES <? count) then Err Protocol
    else
      let? (l, offset) := decode_addresses (Z.to_nat count) bs 6 port [] in
      if negb (offset =? length bs)%nat then Err Protocol
      else Ok {| expected := expected; port := port; addresses := l |}.

(** ** The helper's lookup

    [found] is what [to_socket_addrs] yielded, [None] when it failed. *)

Fixpoint scan (port : Z) (found : list SocketAddr) (result : list SocketAddr)
  : Prelude.result Error (list SocketAddr) :=
  match found with
  | [] => Ok result
  | address :: found =>
      if negb (addr_port address =? port) then Err Protocol
      else if bool_decide (address ∈ result) then scan port found result
      else if Z.of_nat (length result) =? MAX_ADDRESSES then Err TooManyAddresses
      else scan port found (result ++ [address])
  end.

Definition lookup (peer : ExpectedPeer) (port : Z) (found : option (list SocketAddr))
  : result Error (list SocketAddr) :=
  let? _ := ok_or (dns_name peer) InvalidInput in
  let? found := ok_or found Lookup in
  let scanned := firstn MAX_SCANNED found in
  let? l := scan port scanned [] in
  if (length scanned =? MAX_SCANNED)%nat then Err TooManyAddresses
  else match l with [] => Err Lookup | _ :: _ => Ok l end.

(** ** Correctness *)

#[local] Arguments be_bytes : simpl never.

Definition addr_ok (port : Z) (a : SocketAddr) : Prop :=
  addr_port a = port /\
  match a with
  | SocketV4 o _ => length o = 4%nat /\ Forall is_byte o
  | SocketV6 o _ f s =>
      length o = 16%nat /\ Forall is_byte o /\ 0 <= f < 256 ^ 4 /\ 0 <= s < 256 ^ 4
  end.

Definition addresses_ok (port : Z) (l : list SocketAddr) : Prop :=
  1 <= Z.of_nat (length l) <= MAX_ADDRESSES /\ NoDup l /\ Forall (addr_ok port) l.

Lemma slice_app pre data rest n :
  length data = n -> slice (pre ++ data ++ rest) (length pre) n = Some data.
Proof.
  intros <-. unfold slice. rewrite !length_app.
  replace (length pre + length data <=? _)%nat with true by (symmetry; apply Nat.leb_le; lia).
  by rewrite drop_app_length, take_app_length.
Qed.

Lemma slice_Some bs a n data :
  slice bs a n = Some data ->
  skipn a bs = data ++ skipn (a + n) bs /\ length data = n /\ (a + n <= length bs)%nat.
Proof.
  unfold slice. destruct (Nat.leb_spec (a + n) (length bs)); [|done]. intros [= <-].
  rewrite <- drop_drop, take_drop. split; [done|]. rewrite length_take, length_drop. lia.
Qed.

Lemma skipn_cons (bs : list Z) i x : bs !! i = Some x -> skipn i bs = x :: skipn (S i) bs.
Proof. intros H. by apply drop_S in H. Qed.

Lemma Forall_skipn (P : Z -> Prop) n l : Forall P l -> Forall P (skipn n l).
Proof. apply Forall_drop. Qed.

Lemma lookup_after {A} (pre : list A) x rest : (pre ++ x :: rest) !! length pre = Some x.
Proof. by rewrite lookup_app_r, Nat.sub_diag by lia. Qed.

Lemma decode_address_encode pre a rest port :
  addr_ok port a ->
  decode_address (pre ++ encode_address a ++ rest) (length pre) port
  = Ok (a, (length pre + length (encode_address a))%nat).
Proof.
  intros [Hp H]. unfold decode_address. destruct a as [o p|o p f s]; simpl in Hp; subst p.
  - destruct H as [L _]. simpl encode_address. simpl app. rewrite lookup_after. simpl.
    replace (pre ++ 4 :: o ++ rest) with ((pre ++ [4]) ++ o ++ rest) by by rewrite <- (assoc_L (++)).
    replace (S (length pre)) with (length (pre ++ [4])) by (rewrite length_app; simpl; lia).
    rewrite slice_app by done. simpl. rewrite L. do 2 f_equal. lia.
  - destruct H as (L & _ & Hf & Hs). unfold encode_address.
    remember (o ++ be_bytes 4 f ++ be_bytes 4 s) as data eqn:ED.
    rewrite <- app_comm_cons, lookup_after. simpl.
    replace (pre ++ 6 :: data ++ rest) with ((pre ++ [6]) ++ data ++ rest)
      by by rewrite <- (assoc_L (++)).
    replace (S (length pre)) with (length (pre ++ [6])) by (rewrite length_app; simpl; lia).
    assert (length data = 24%nat) as LD
      by (rewrite ED, !length_app, !be_bytes_length; lia).
    rewrite slice_app by done. simpl.
    assert (firstn 16 data = o) as ->.
    { rewrite ED, <- L. apply take_app_length. }
    assert (skipn 16 data = be_bytes 4 f ++ be_bytes 4 s) as E.
    { rewrite ED, <- L. apply drop_app_length. }
    assert (skipn 20 data = be_bytes 4 s) as ->.
    { change 20%nat with (16 + 4)%nat. rewrite <- drop_drop, E.
      by rewrite <- (be_bytes_length 4 f) at 1; rewrite drop_app_length. }
    rewrite E. rewrite <- (be_bytes_length 4 f) at 1. rewrite take_app_length.
    rewrite (take_ge (be_bytes 4 s)) by (rewrite be_bytes_length; lia).
    rewrite !be_value_bytes by (simpl; lia). do 2 f_equal. simpl. lia.
Qed.

Lemma decode_address_Ok bs offset port a o' :
  Forall is_byte bs ->
  decode_address bs offset port = Ok (a, o') ->
  addr_ok port a /\ skipn offset bs = encode_address a ++ skipn o' bs.
Proof.
  intros Hb. unfold decode_address. destruct (bs !! offset) as [kind|] eqn:K; [|done]. simpl.
  pose proof (Forall_skipn _ (S offset) _ Hb) as Hd. rewrite (skipn_cons _ _ _ K).
  destruct (Z.eqb_spec kind 4) as [->|].
  - destruct (slice bs (S offset) 4) as [data|] eqn:S; [|done]. simpl. intros [= <- <-].
    apply slice_Some in S as (E & L & _). rewrite E in Hd. apply Forall_app in Hd as [Hd _].
    split; [done|]. by rewrite E.
  - destruct (Z.eqb_spec kind 6) as [->|]; [|done].
    destruct (slice bs (S offset) 24) as [data|] eqn:S; [|done]. simpl. intros [= <- <-].
    apply slice_Some in S as (E & L & _). rewrite E in Hd. apply Forall_app in Hd as [Hd _].
    assert (forall n m, Forall is_byte (firstn n (skipn m data))) as P
      by (intros; by apply Forall_take, Forall_drop).
    assert (forall m, (m + 4 <= 24)%nat -> length (firstn 4 (skipn m data)) = 4%nat) as Q
      by (intros; rewrite length_take, length_drop; lia).
    assert (data = firstn 16 data ++ firstn 4 (skipn 16 data) ++ firstn 4 (skipn 20 data)) as D.
    { rewrite <- (take_drop 16 data) at 1. f_equal. rewrite <- (take_drop 4 (skipn 16 data)) at 1.
      f_equal. rewrite drop_drop. symmetry. apply take_ge. rewrite length_drop. lia. }
    split.
    + split; [done|]. simpl. split; [rewrite length_take; lia|]. split; [by apply (P 16%nat 0%nat)|].
      split; [pose proof (be_value_range _ (P 4%nat 16%nat)) as R; rewrite Q in R by lia; exact R|].
      pose proof (be_value_range _ (P 4%nat 20%nat)) as R; rewrite Q in R by lia; exact R.
    + simpl. f_equal. rewrite E. rewrite D at 1. rewrite <- !(assoc_L (++)). f_equal.
      rewrite <- (be_bytes_value _ (P 4%nat 16%nat)) at 1.
      rewrite <- (be_bytes_value _ (P 4%nat 20%nat)) at 1. rewrite !Q by lia. done.
Qed.

Lemma decode_addresses_encode port l : forall pre rest seen,
  Forall (addr_ok port) l -> NoDup (seen ++ l) ->
  decode_addresses (length l) (pre ++ concat (map encode_address l) ++ rest) (length pre) port seen
  = Ok (seen ++ l, (length pre + length (concat (map encode_address l)))%nat).
Proof.
  induction l as [|a l IH]; intros pre rest seen Hl Hn; simpl.
  - by rewrite app_nil_r, Nat.add_0_r.
  - inversion_clear Hl as [|? ? Ha Hl']. rewrite <- (assoc_L (++)), decode_address_encode by done.
    simpl. rewrite bool_decide_false.
    2: { apply NoDup_app in Hn as (_ & D & _). intros Hin. apply (D a Hin). left. }
    replace (length pre + length (encode_address a))%nat
      with (length (pre ++ encode_address a)) by apply length_app.
    rewrite (assoc_L (++) pre), IH by (try done; by rewrite <- (assoc_L (++))).
    rewrite !length_app, <- (assoc_L (++)). do 2 f_equal. lia.
Qed.

Lemma decode_addresses_Ok port bs n : forall offset seen l o',
  Forall is_byte bs -> NoDup seen ->
  decode_addresses n bs offset port seen = Ok (l, o') ->
  exists l', l = seen ++ l' /\ length l' = n /\ NoDup l /\ Forall (addr_ok port) l' /\
    skipn offset bs = concat (map encode_address l') ++ skipn o' bs.
Proof.
  induction n as [|n IH]; intros offset seen l o' Hb Hn; simpl.
  - intros [= <- <-]. exists []. rewrite app_nil_r. done.
  - destruct (decode_address bs offset port) as [[a o1]|] eqn:D; [|done]. simpl.
    apply decode_address_Ok in D as [Ha E]; [|done].
    case_bool_decide as M; [done|]. intros H. apply IH in H; [|done|].
    + destruct H as (l' & -> & L & N & F & E'). exists (a :: l'). rewrite <- (assoc_L (++)) in *.
      split; [done|]. split; [simpl; lia|]. split; [done|]. split; [by constructor|].
      rewrite E, E'. simpl. by rewrite <- (assoc_L (++)).
    + apply NoDup_app. split; [done|]. split; [|apply NoDup_singleton].
      intros x Hx ->%list_elem_of_singleton. done.
Qed.

Lemma encode_address_bound port a : addr_ok port a -> (length (encode_address a) <= 25)%nat.
Proof.
  intros [_ H]. destruct a; unfold encode_address; cbn [length]; rewrite ?length_app, ?be_bytes_length;
    lia.
Qed.

Lemma encodings_bound port l :
  Forall (addr_ok port) l -> (length (concat (map encode_address l)) <= 25 * length l)%nat.
Proof.
  induction 1 as [|a l Ha Hl IH]; simpl; [lia|]. rewrite length_app.
  pose proof (encode_address_bound port a Ha). lia.
Qed.

Lemma reply_bound port l :
  Forall (addr_ok port) l -> Z.of_nat (length (reply (Ok l))) <= MAX_REPLY.
Proof.
  intros H. pose proof (encodings_bound port l H) as B. unfold reply.
  destruct (Z.eqb_spec (Z.of_nat (length l)) 0); [done|]. simpl orb.
  destruct (Z.ltb_spec MAX_ADDRESSES (Z.of_nat (length l))); [done|].
  unfold MAX_ADDRESSES, MAX_REPLY in *. rewrite !length_app. simpl. lia.
Qed.

Lemma firstn_skipn_nth (bs : list Z) : (6 <= length bs)%nat ->
  bs = firstn 4 bs ++ [nth 4 bs 0] ++ [nth 5 bs 0] ++ skipn 6 bs.
Proof.
  intros H. do 6 (destruct bs as [|? bs]; [simpl in H; lia|]). done.
Qed.

Lemma decode_reply_Ok peer port l :
  addresses_ok port l ->
  decode (reply (Ok l)) peer port = Ok {| expected := peer; port := port; addresses := l |}.
Proof.
  intros ([Hl Hm] & Hn & Hf). pose proof (reply_bound port l Hf) as B. revert B. unfold reply.
  rewrite (proj2 (Z.eqb_neq _ _)), (proj2 (Z.ltb_ge _ _)) by lia. simpl orb. cbv iota.
  unfold MAX_ADDRESSES in *. rewrite Z.mod_small by lia. intros B. unfold decode.
  set (n := Z.of_nat (length l)) in *. set (data := concat (map encode_address l)).
  replace (Z.of_nat (length (REPLY_MAGIC ++ [0] ++ [n] ++ data)) <? 6) with false
    by (symmetry; apply Z.ltb_ge; rewrite !length_app; simpl; lia).
  fold data in B. rewrite (proj2 (Z.ltb_ge _ _) B). simpl.
  rewrite (proj2 (Z.eqb_neq n 0)), (proj2 (Z.ltb_ge MAX_ADDRESSES n))
    by (unfold MAX_ADDRESSES; lia). simpl.
  unfold n. rewrite Nat2Z.id. fold n.
  pose proof (decode_addresses_encode port l (REPLY_MAGIC ++ [0] ++ [n]) [] [] Hf Hn) as D.
  simpl in D. rewrite app_nil_r in D. fold data in D. rewrite D. simpl.
  by rewrite Nat.eqb_refl.
Qed.

(** The reply frame is canonical: decoding accepts a frame exactly when it is the encoding of
    the addresses it returns, which are between one and sixteen, pairwise distinct, well
    formed and on the port that was asked for; nothing else decodes, and no two frames decode
    to the same answer. *)
Theorem reply_decode_iff bs peer p r :
  Forall is_byte bs ->
  decode bs peer p = Ok r <->
  expected r = peer /\ port r = p /\ addresses_ok p (addresses r) /\ bs = reply (Ok (addresses r)).
Proof.
  intros Hb. split.
  - unfold decode. destruct (Z.ltb_spec (Z.of_nat (length bs)) 6); [done|]. simpl.
    destruct (Z.ltb_spec MAX_REPLY (Z.of_nat (length bs))); [done|]. simpl.
    case_bool_decide as M; [|done]. simpl.
    destruct (Z.eqb_spec (nth 4 bs 0) 0) as [Z4|]; simpl; [|repeat case_match; done].
    destruct (Z.eqb_spec (nth 5 bs 0) 0) as [|N5]; [done|]. simpl.
    destruct (Z.ltb_spec MAX_ADDRESSES (nth 5 bs 0)) as [|L5]; [done|].
    destruct (decode_addresses _ bs 6 p []) as [[l o]|] eqn:D; [|done]. simpl.
    destruct (Nat.eqb_spec o (length bs)) as [->|]; [|done]. intros [= <-]. simpl.
    apply decode_addresses_Ok in D as (l' & -> & L & N & F & E); [|done|constructor]. simpl in *.
    assert (0 <= nth 5 bs 0).
    { rewrite Forall_forall in Hb. assert (is_byte (nth 5 bs 0)) as [? ?]; [|done].
      apply Hb, list_elem_of_In, nth_In. lia. }
    split; [done|]. split; [done|]. split; [split; [unfold MAX_ADDRESSES in *; lia|done]|].
    rewrite drop_all, app_nil_r in E. unfold reply.
    rewrite (proj2 (Z.eqb_neq _ _)), (proj2 (Z.ltb_ge _ _)) by (unfold MAX_ADDRESSES in *; lia).
    simpl orb. cbv iota. rewrite L, Z2Nat.id, Z.mod_small by (unfold MAX_ADDRESSES in *; lia).
    rewrite (firstn_skipn_nth bs) at 1 by lia. rewrite M, Z4, E. done.
  - intros (He & Hp & Ha & ->). rewrite decode_reply_Ok by done. f_equal. destruct r; simpl in *.
    by subst.
Qed.

(** What an error of the lookup is on the other side of the wire *)
Definition wire_error (e : Error) : Error :=
  match e with
  | TooManyAddresses => TooManyAddresses
  | InvalidInput | Protocol => InvalidInput
  | _ => Lookup
  end.

Lemma decode_reply_error e peer p : decode (reply_error e) peer p = Err (wire_error e).
Proof. by destruct e. Qed.

Lemma scan_Ok port found : forall acc l,
  scan port found acc = Ok l ->
  (Forall (addr_ok port) acc -> Forall (fun a => addr_port a = port -> addr_ok port a) found ->
   Forall (addr_ok port) l) /\
  (NoDup acc -> NoDup l) /\
  (Z.of_nat (length acc) <= MAX_ADDRESSES -> Z.of_nat (length l) <= MAX_ADDRESSES) /\
  (forall a, a ∈ l <-> a ∈ acc \/ a ∈ found).
Proof.
  induction found as [|a found IH]; intros acc l; simpl.
  - intros [= <-]. split; [done|]. split; [done|]. split; [done|]. set_solver.
  - destruct (Z.eqb_spec (addr_port a) port) as [P|]; [|done]. simpl.
    case_bool_decide as M.
    + intros H. apply IH in H as (F & N & B & I). split; [|split; [done|split; [done|]]].
      * intros Hacc Hf. inversion_clear Hf. auto.
      * intros x. rewrite I. set_solver.
    + destruct (Z.eqb_spec (Z.of_nat (length acc)) MAX_ADDRESSES) as [|NE]; [done|].
      intros H. apply IH in H as (F & N & B & I). split; [|split; [|split]].
      * intros Hacc Hf. inversion_clear Hf. apply F; [|done]. apply Forall_app. auto.
      * intros Hn. apply N, NoDup_app. split; [done|]. split; [|apply NoDup_singleton].
        intros x Hx ->%list_elem_of_singleton. done.
      * intros Hb. apply B. rewrite length_app. simpl. lia.
      * intros x. rewrite I. set_solver.
Qed.

(** Addresses as [to_socket_addrs] gives them *)
Definition well_formed (a : SocketAddr) : Prop := addr_ok (addr_port a) a.

Lemma lookup_Ok peer port found l :
  lookup peer port (Some found) = Ok l -> Forall well_formed found ->
  addresses_ok port l /\ (forall a, a ∈ l <-> a ∈ found).
Proof.
  unfold lookup. destruct (dns_name peer); [|done]. simpl.
  destruct (scan port (firstn MAX_SCANNED found) []) as [l'|] eqn:S; [|done]. simpl.
  destruct (Nat.eqb_spec (length (firstn MAX_SCANNED found)) MAX_SCANNED) as [|NE]; [done|].
  intros H W. assert (l' = l /\ l <> []) as [-> Hne] by (destruct l'; [done|]; by injection H as <-).
  apply scan_Ok in S as (F & N & B & I).
  assert (firstn MAX_SCANNED found = found) as E
    by (apply take_ge; rewrite length_take in NE; lia).
  split; [split; [|split]|].
  - split; [destruct l; [done|]; simpl; lia|]. apply B. done.
  - apply N. constructor.
  - apply F; [constructor|]. rewrite E. eapply Forall_impl; [exact W|].
    intros a Ha <-. exact Ha.
  - intros a. rewrite I, E. set_solver.
Qed.

Lemma ascii_utf8 bs : is_ascii_bytes bs = true -> utf8_bytes bs = true.
Proof.
  induction bs as [|b bs IH]; [done|]. intros H. cbn -[Z.ltb] in H |- *.
  apply andb_true_iff in H as [Hb H]. rewrite Hb. auto.
Qed.

Lemma parse_Dns host h :
  parse host = Ok (Dns h) ->
  h = host /\ 1 <= str_len host <= MAX_HOST /\ is_ascii_bytes (bytes_of host) = true.
Proof.
  unfold parse. destruct (parse_ip host); [done|].
  destruct (str_is_empty host) eqn:E; [done|].
  destruct (Z.ltb_spec MAX_HOST (str_len host)); [done|].
  destruct (is_ascii_bytes (bytes_of host)); [|done]. simpl.
  case_match; [done|]. intros [= <-]. split; [done|]. split; [|done]. split; [|done].
  destruct host; [done|]. unfold str_len. simpl. lia.
Qed.

Lemma read_exact_app data rest n :
  length data = n -> read_exact n (data ++ rest) = Some (data, rest).
Proof.
  intros <-. unfold read_exact. rewrite length_app, (proj2 (Nat.leb_le _ _)) by lia.
  by rewrite take_app_length, drop_app_length.
Qed.

Lemma request_roundtrip host p rest :
  parse host = Ok (Dns host) -> 1 <= p <= U16_MAX ->
  exists frame, request (Dns host) p = Ok frame /\ Z.of_nat (length frame) <= MAX_REQUEST /\
    read_request (frame ++ rest) = Ok (Dns host, p, rest).
Proof.
  intros Hp Hr. pose proof (parse_Dns host host Hp) as (_ & Hl & Ha). unfold request.
  rewrite (proj2 (Z.eqb_neq p 0)) by lia. simpl ok_or. unfold bind_result.
  unfold MAX_HOST, U16_MAX in *. rewrite Z.mod_small by lia. eexists. split; [done|].
  assert (length (bytes_of host) = Z.to_nat (str_len host)) as L
    by (rewrite length_bytes_of; unfold str_len; lia).
  split.
  { rewrite !length_app, be_bytes_length, L. simpl. unfold MAX_REQUEST, MAX_HOST. lia. }
  unfold read_request. rewrite <- !(assoc_L (++)).
  set (header := REQUEST_MAGIC ++ be_bytes 2 p ++ [str_len host]).
  replace (REQUEST_MAGIC ++ _ ++ _ ++ _ ++ _) with (header ++ bytes_of host ++ rest)
    by (unfold header; by rewrite <- !(assoc_L (++))).
  rewrite read_exact_app by (unfold header; rewrite !length_app, be_bytes_length; done).
  cbn [ok_or bind_result].
  assert (nth 6 header 0 = str_len host) as -> by done.
  assert (firstn 2 (skipn 4 header) = be_bytes 2 p) as -> by done.
  rewrite (proj2 (Z.eqb_neq (str_len host) 0)), (proj2 (Z.ltb_ge MAX_HOST _))
    by (unfold MAX_HOST; lia).
  rewrite bool_decide_true by done. cbn [negb orb]. rewrite read_exact_app by done.
  cbn [ok_or bind_result]. rewrite be_value_bytes by (simpl; lia).
  rewrite (proj2 (Z.eqb_neq p 0)) by lia. rewrite ascii_utf8 by done. simpl.
  by rewrite str_of_bytes_of, Hp.
Qed.

(** C39: the resolver's exchange loses nothing: for every host name the parser admits and every
    port, the request frame is within its bound and the helper reads back exactly the name
    and the port, leaving whatever follows unread; whatever addresses the system resolver
    finds, the service decodes from the helper's reply exactly the addresses of the lookup,
    which are those found without repetition, or the lookup's error in its wire class. *)
Theorem resolver_end_to_end host p found :
  parse host = Ok (Dns host) -> 1 <= p <= U16_MAX ->
  (forall l, found = Some l -> Forall well_formed l) ->
  (exists frame, request (Dns host) p = Ok frame /\ Z.of_nat (length frame) <= MAX_REQUEST /\
     forall rest, read_request (frame ++ rest) = Ok (Dns host, p, rest)) /\
  Z.of_nat (length (reply (lookup (Dns host) p found))) <= MAX_REPLY /\
  match lookup (Dns host) p found with
  | Ok l =>
      decode (reply (Ok l)) (Dns host) p
        = Ok {| expected := Dns host; port := p; addresses := l |} /\
      NoDup l /\ exists f, found = Some f /\ forall a, a ∈ l <-> a ∈ f
  | Err e => decode (reply (Err e)) (Dns host) p = Err (wire_error e)
  end.
Proof.
  intros Hp Hr Hw. split.
  - destruct (request_roundtrip host p [] Hp Hr) as (frame & E & B & _). exists frame.
    split; [done|]. split; [done|]. intros rest.
    destruct (request_roundtrip host p rest Hp Hr) as (frame' & E' & _ & R). congruence.
  - destruct (lookup (Dns host) p found) as [l|e] eqn:L.
    + destruct found as [f|]; [|done]. destruct (lookup_Ok _ _ _ _ L (Hw f eq_refl)) as [A I].
      split; [eapply reply_bound, A|]. split; [by apply decode_reply_Ok|].
      split; [apply A|]. eauto.
    + split; [by destruct e|]. apply decode_reply_error.
Qed.

Definition loopback : SocketAddr := SocketV4 [127; 0; 0; 1] 4455.
Definition loopback6 : SocketAddr :=
  SocketV6 [0; 0; 0; 0; 0; 0; 0; 0; 0; 0; 0; 0; 0; 0; 0; 1] 4455 7 3.

Lemma reply_decode_iff_witness :
  decode [79; 68; 65; 49; 0; 1; 4; 127; 0; 0; 1] (Dns "localhost") 4455
    = Ok {| expected := Dns "localhost"; port := 4455; addresses := [loopback] |} /\
  [79; 68; 65; 49; 0; 1; 4; 127; 0; 0; 1] = reply (Ok [loopback]).
Proof.
  assert (Forall is_byte [79; 68; 65; 49; 0; 1; 4; 127; 0; 0; 1]) as B
    by (repeat constructor; done).
  pose proof (proj1 (reply_decode_iff _ (Dns "localhost") 4455 _ B) eq_refl) as (_ & _ & _ & E).
  split; [reflexivity|exact E].
Defined.

Lemma resolver_end_to_end_witness :
  (exists frame, request (Dns "localhost") 4455 = Ok frame /\
     Z.of_nat (length frame) <= MAX_REQUEST /\
     forall rest, read_request (frame ++ rest) = Ok (Dns "localhost", 4455, rest)) /\
  decode (reply (Ok [loopback; loopback6])) (Dns "localhost") 4455
    = Ok {| expected := Dns "localhost"; port := 4455; addresses := [loopback; loopback6] |}.
Proof.
  pose proof (resolver_end_to_end "localhost" 4455 (Some [loopback; loopback6; loopback])
    eq_refl) as H.
  destruct H as (H1 & _ & H2 & _).
  - split; discriminate.
  - intros l [= <-]. repeat constructor; done.
  - exact (conj H1 H2).
Defined.
