(* ===== verification/Continuations.v ===== *)
(** * One-shot confirmation continuations

    [native/src/confirmation.rs]: a call that needs confirmation is parked under a token (or,
    for legacy clients, a request number) and released by the answer.  [T] is the parked
    call; the size of a map entry, which the byte accounting adds, is a parameter.  A failed
    [expect] would be a panic, here [None]. *)
From S2P Require Import Prelude Json Control.

Definition MAX_ID : Z := 9007199254740991.

Record Bounds := {
  items : Z;
  bytes : Z;
  lifetime : Z
}.

Definition default_bounds : Bounds :=
  {| items := 16; bytes := 8 * 1024 * 1024; lifetime := 60 * 10 ^ 9 |}.

Inductive Challenge :=
| Modern (token : string)
| Legacy (id : Z).

#[export] Instance Challenge_eq_dec : EqDecision Challenge.
Proof. solve_decision. Defined.

Inductive Refusal :=
| Capacity
| Identity
| InvalidState
| Expired.

Section Continuations.
Context {T : Type} (size_of_pending : Z) (size_nonneg : 0 <= size_of_pending).

Record Pending := {
  original : Value;
  binding : list Z;
  challenge : Challenge;
  deadline : Z;
  entry_bytes : Z;
  call : T
}.

Record Removed := {
  removed_challenge : Challenge;
  removed_call : T
}.

Record Continuations := {
  nonce : string;
  next : option Z;
  bounds : Bounds;
  used : Z;                          (* the field [bytes] *)
  pending : gmap string Pending
}.

Definition with_nonce (nonce : string) (bounds : Bounds) : Continuations :=
  {| nonce := nonce; next := Some 0; bounds := bounds; used := 0; pending := ∅ |}.

Definition disabled : Continuations :=
  {| nonce := ""; next := None;
     bounds := {| items := 0; bytes := 0; lifetime := lifetime default_bounds |};
     used := 0; pending := ∅ |}.

(** [new]: the random identifier may fail *)
Definition new (uuid : option string) : result Refusal Continuations :=
  let? nonce := ok_or uuid Identity in
  Ok (with_nonce nonce default_bounds).

Definition contains_original (id : Value) (c : Continuations) : bool :=
  existsb (fun '(_, entry) => value_eqb (original entry) id) (map_to_list (pending c)).

Definition key_of (nonce : string) (sequence : Z) : string :=
  join "" ["native-confirmation/"; nonce; "/"; pretty (Z.to_N sequence)]%string.

Definition issue (original : Value) (binding : list Z) (call : T) (retained : Z) (legacy : bool)
  (now : Z) (c : Continuations) : result (Refusal * T) Challenge * Continuations :=
  match next c with
  | None => (Err (Identity, call), c)
  | Some sequence =>
      let key := key_of (nonce c) sequence in
      match checked_add retained (str_len key) >>? (fun n => checked_add n size_of_pending) with
      | None => (Err (Capacity, call), c)
      | Some cost =>
          match checked_add (used c) cost with
          | None => (Err (Capacity, call), c)
          | Some total =>
              if (items (bounds c) <=? Z.of_nat (size (pending c)))
                 || (bytes (bounds c) <? total) || contains_original original c
              then (Err (Capacity, call), c)
              else
                match instant_checked_add now (lifetime (bounds c)) with
                | None => (Err (Identity, call), c)
                | Some deadline =>
                    let challenge := if legacy then Legacy sequence else Modern key in
                    (Ok challenge,
                     {| nonce := nonce c;
                        next := opt_filter (fun n => n <=? MAX_ID) (checked_add sequence 1);
                        bounds := bounds c;
                        used := total;
                        pending := <[key := {| original := original; binding := binding;
                                               challenge := challenge; deadline := deadline;
                                               entry_bytes := cost; call := call |}]> (pending c) |})
                end
          end
      end
  end.

Definition remove (key : string) (c : Continuations) : option (option Pending * Continuations) :=
  match pending c !! key with
  | None => Some (None, c)
  | Some entry =>
      match checked_sub (used c) (entry_bytes entry) with
      | None => None
      | Some left_ =>
          Some (Some entry,
                {| nonce := nonce c; next := next c; bounds := bounds c; used := left_;
                   pending := delete key (pending c) |})
      end
  end.

Definition take_modern (state : string) (bound : list Z) (now : Z) (c : Continuations)
  : option (result Refusal T * Continuations) :=
  match pending c !! state with
  | None => Some (Err InvalidState, c)
  | Some entry =>
      if deadline entry <=? now then
        match remove state c with
        | None => None
        | Some (_, c) => Some (Err Expired, c)
        end
      else if negb (bool_decide (binding entry = bound))
              || negb (bool_decide (challenge entry = Modern state))
      then Some (Err InvalidState, c)
      else
        match remove state c with
        | Some (Some entry, c) => Some (Ok (call entry), c)
        | _ => None
        end
  end.

(** The frame of a legacy response: the number it answers and the answer *)
Definition legacy_frame (frame : Value) : option (Z * list (string * Value)) :=
  match as_object frame with
  | None => None
  | Some fields =>
      let has k := negb (is_none (field k fields)) in
      if negb (is_some_and (get "jsonrpc" frame) (value_eqb (Str "2.0")))
         || existsb (fun '(k, _) => negb (one_of k ["jsonrpc"; "id"; "result"; "error"]%string))
              fields
         || Bool.eqb (has "result"%string) (has "error"%string)
      then None
      else
        match get "id" frame >>? as_u64 with
        | None => None
        | Some id => Some (id, fields)
        end
  end.

Definition legacy_answer (fields : list (string * Value)) : Value :=
  let response :=
    match field "error" fields with
    | Some _ => object_of [("action", Str "cancel")]
    | None => match field "result" fields with Some r => r | None => Null end
    end in
  let answer := object_of [("confirm", response)] in
  match from_responses (Some answer) with
  | Missing => object_of [("confirm", object_of [("action", Str "cancel")])]
  | _ => answer
  end.

Definition take_legacy_for (frame : Value) (now : Z) (owns : T -> bool) (c : Continuations)
  : option (option (T * Value) * Continuations) :=
  match legacy_frame frame with
  | None => Some (None, c)
  | Some (id, fields) =>
      match List.find (fun '(_, p) => bool_decide (challenge p = Legacy id) && owns (call p))
              (map_to_list (pending c)) with
      | None => Some (None, c)
      | Some (key, p) =>
          if deadline p <=? now then Some (None, c)
          else
            match remove key c with
            | None => None
            | Some (None, c) => Some (None, c)
            | Some (Some entry, c) => Some (Some (call entry, legacy_answer fields), c)
            end
      end
  end.

Definition next_deadline (c : Continuations) : option Z :=
  match map (fun '(_, p) => deadline p) (map_to_list (pending c)) with
  | [] => None
  | d :: ds => Some (foldr Z.min d ds)
  end.

Fixpoint remove_all (keys : list string) (c : Continuations)
  : option (list Removed * Continuations) :=
  match keys with
  | [] => Some ([], c)
  | key :: keys =>
      match remove key c with
      | None => None
      | Some (entry, c) =>
          match remove_all keys c with
          | None => None
          | Some (removed, c) =>
              Some (match entry with
                    | Some p =>
                        {| removed_challenge := challenge p; removed_call := call p |} :: removed
                    | None => removed
                    end, c)
          end
      end
  end.

Definition keys_where (p : Pending -> bool) (c : Continuations) : list string :=
  map fst (List.filter (fun '(_, entry) => p entry) (map_to_list (pending c))).

Definition expire (now : Z) (c : Continuations) : option (list Removed * Continuations) :=
  remove_all (keys_where (fun p => deadline p <=? now) c) c.

Definition cancel (id : Value) (c : Continuations) : option (list Removed * Continuations) :=
  remove_all (keys_where (fun p => value_eqb (original p) id) c) c.

(** ** Reachable states *)

Inductive step : Continuations -> Continuations -> Prop :=
| step_issue original binding call retained legacy now c :
    0 <= retained ->
    step c (snd (issue original binding call retained legacy now c))
| step_modern state bound now c r c' :
    take_modern state bound now c = Some (r, c') -> step c c'
| step_legacy frame now owns c r c' :
    take_legacy_for frame now owns c = Some (r, c') -> step c c'
| step_expire now c r c' :
    expire now c = Some (r, c') -> step c c'
| step_cancel id c r c' :
    cancel id c = Some (r, c') -> step c c'.

Definition bounds_ok (b : Bounds) : Prop := 0 <= items b /\ 0 <= bytes b.

Definition reachable (c : Continuations) : Prop :=
  exists nonce b, bounds_ok b /\ rtc step (with_nonce nonce b) c.

(** The sequence number [n] was given out before *)
Definition issued (n : Z) (next : option Z) : Prop :=
  match next with Some m => n < m | None => n <= MAX_ID end.

Record wf (c : Continuations) : Prop := {
  wf_next : forall n, next c = Some n -> 0 <= n <= MAX_ID;
  wf_used : used c = map_total entry_bytes (pending c);
  wf_sizes : forall k p, pending c !! k = Some p -> 0 <= entry_bytes p;
  wf_items : Z.of_nat (size (pending c)) <= items (bounds c);
  wf_bytes : used c <= bytes (bounds c);
  wf_keys : forall k p, pending c !! k = Some p ->
    exists n, 0 <= n /\ issued n (next c) /\ k = key_of (nonce c) n /\
      (challenge p = Modern k \/ challenge p = Legacy n)
}.

Lemma key_of_inj nonce m n : 0 <= m -> 0 <= n -> key_of nonce m = key_of nonce n -> m = n.
Proof.
  intros Hm Hn E. unfold key_of in E. simpl in E.
  repeat (apply (inj (String.append _)) in E || injection E as E).
  apply (inj pretty) in E. lia.
Qed.

Lemma issued_next n m : n <= m <= MAX_ID ->
  issued n (opt_filter (fun n => n <=? MAX_ID) (checked_add m 1)).
Proof.
  intros H. destruct (checked_add m 1) as [z|] eqn:E; simpl; [|lia].
  apply checked_add_Some in E as [-> _]. destruct (Z.leb_spec (m + 1) MAX_ID); simpl; lia.
Qed.

(** A fresh key *)
Lemma fresh_key c n : wf c -> next c = Some n -> pending c !! key_of (nonce c) n = None.
Proof.
  intros W E. destruct (pending c !! _) as [p|] eqn:P; [|done].
  destruct (wf_keys c W _ _ P) as (m & Hm & I & K & _). pose proof (wf_next c W n E).
  apply key_of_inj in K; [|lia|done]. subst m. rewrite E in I. simpl in I. lia.
Qed.

Lemma issue_Ok original binding call retained legacy now c ch c' :
  issue original binding call retained legacy now c = (Ok ch, c') ->
  exists n cost deadline, next c = Some n /\
    let key := key_of (nonce c) n in
    cost = retained + str_len key + size_of_pending /\
    used c + cost <= bytes (bounds c) /\
    Z.of_nat (size (pending c)) < items (bounds c) /\
    deadline = now + lifetime (bounds c) /\
    ch = (if legacy then Legacy n else Modern key) /\
    c' = {| nonce := nonce c; next := opt_filter (fun n => n <=? MAX_ID) (checked_add n 1);
            bounds := bounds c; used := used c + cost;
            pending := <[key := {| original := original; binding := binding; challenge := ch;
                                   deadline := deadline; entry_bytes := cost; call := call |}]>
                         (pending c) |}.
Proof.
  unfold issue. destruct (next c) as [n|]; [|done]. set (key := key_of (nonce c) n).
  destruct (checked_add retained (str_len key)) as [z|] eqn:E1; [|done]. simpl.
  destruct (checked_add z size_of_pending) as [cost|] eqn:E2; [|done].
  destruct (checked_add (used c) cost) as [total|] eqn:E3; [|done].
  destruct (Z.leb_spec (items (bounds c)) (Z.of_nat (size (pending c)))); [done|].
  destruct (Z.ltb_spec (bytes (bounds c)) total); [done|]. simpl.
  destruct (contains_original original c); [done|].
  unfold instant_checked_add.
  destruct (now + lifetime (bounds c) <=? INSTANT_MAX); [|done]. intros [= <- <-].
  apply checked_add_Some in E1 as [-> _], E2 as [-> _], E3 as [-> _].
  exists n, (retained + str_len key + size_of_pending), (now + lifetime (bounds c)).
  simpl. split_and!; done.
Qed.

Lemma issue_Err original binding call retained legacy now c e c' :
  issue original binding call retained legacy now c = (Err e, c') -> c' = c.
Proof.
  unfold issue. intros H. repeat case_match; by simplify_eq.
Qed.

Lemma issue_wf original binding call retained legacy now c :
  0 <= retained -> wf c -> wf (snd (issue original binding call retained legacy now c)).
Proof.
  intros Hr W. destruct (issue _ _ _ _ _ _ c) as [[ch|e] c'] eqn:E; [|by apply issue_Err in E as ->].
  apply issue_Ok in E as (n & cost & d & En & Es & Hb & Hi & Ed & Ec & ->). simpl in *.
  pose proof (fresh_key c n W En) as F. pose proof (wf_next c W n En) as R.
  set (key := key_of (nonce c) n) in *.
  split; simpl.
  - intros m Hm. destruct (checked_add n 1) as [z|] eqn:C; [|done]. simpl in Hm.
    apply checked_add_Some in C as [-> _]. destruct (Z.leb_spec (n + 1) MAX_ID); simplify_eq. lia.
  - rewrite map_total_fresh by done. rewrite (wf_used c W). done.
  - intros k p [[<- <-]|[_ Hp]]%lookup_insert_Some; [|by eapply wf_sizes].
    simpl. unfold str_len in Es. lia.
  - rewrite map_size_insert_None by done. lia.
  - done.
  - intros k p [[<- <-]|[_ Hp]]%lookup_insert_Some.
    + exists n. simpl. split; [lia|]. split; [apply issued_next; lia|]. split; [done|].
      destruct legacy; subst ch; auto.
    + destruct (wf_keys c W k p Hp) as (m & Hm & I & K & C). exists m. split; [done|].
      split; [|done]. apply issued_next. rewrite En in I. simpl in I. lia.
Qed.

(** [remove] never panics, and leaves a well-formed state without the key *)
Lemma remove_wf key c :
  wf c ->
  exists c', remove key c = Some (pending c !! key, c') /\ wf c' /\ nonce c' = nonce c /\
    next c' = next c /\ bounds c' = bounds c /\ pending c' = delete key (pending c).
Proof.
  intros W. unfold remove. destruct (pending c !! key) as [p|] eqn:P.
  2: { exists c. rewrite delete_id by done. done. }
  pose proof (wf_used c W) as U. rewrite (map_total_delete entry_bytes _ _ _ P) in U.
  pose proof (wf_sizes c W key p P).
  assert (0 <= map_total entry_bytes (delete key (pending c))).
  { apply map_total_nonneg. intros k q [_ Hq]%lookup_delete_Some. by eapply wf_sizes. }
  unfold checked_sub. rewrite (proj2 (Z.leb_le _ _)) by lia.
  eexists. split; [done|]. split; [|done]. split; simpl.
  - apply (wf_next c W).
  - lia.
  - intros k q [_ Hq]%lookup_delete_Some. by eapply wf_sizes.
  - pose proof (wf_items c W). rewrite map_size_delete. rewrite P. lia.
  - pose proof (wf_bytes c W). lia.
  - intros k q [_ Hq]%lookup_delete_Some. by apply (wf_keys c W).
Qed.

(** What every operation but [issue] does to the state *)
Definition shrinks (c c' : Continuations) : Prop :=
  wf c' /\ nonce c' = nonce c /\ next c' = next c /\ bounds c' = bounds c /\
  pending c' ⊆ pending c.

Lemma shrinks_refl c : wf c -> shrinks c c.
Proof. done. Qed.

Lemma shrinks_trans a b c : shrinks a b -> shrinks b c -> shrinks a c.
Proof.
  intros (_ & N1 & X1 & B1 & P1) (W & N2 & X2 & B2 & P2).
  split; [done|]. split_and!; try congruence. by trans (pending b).
Qed.

Lemma remove_shrinks key c :
  wf c -> exists c', remove key c = Some (pending c !! key, c') /\ shrinks c c' /\
                     pending c' = delete key (pending c).
Proof.
  intros W. destruct (remove_wf key c W) as (c' & E & W' & N & X & B & P).
  exists c'. split; [done|]. split; [|done]. split; [done|]. split_and!; try done.
  rewrite P. apply delete_subseteq.
Qed.

Lemma remove_all_shrinks keys : forall c,
  wf c -> exists removed c', remove_all keys c = Some (removed, c') /\ shrinks c c' /\
    (forall k, In k keys -> pending c' !! k = None).
Proof.
  induction keys as [|key keys IH]; intros c W; simpl; [by exists [], c|].
  destruct (remove_shrinks key c W) as (c1 & -> & S1 & P1).
  destruct (IH c1 (proj1 S1)) as (removed & c2 & -> & S2 & D2).
  eexists _, c2. split; [done|]. split; [by eapply shrinks_trans|].
  intros k [<-|Hk]; [|auto]. destruct S2 as (_ & _ & _ & _ & P2).
  destruct (pending c2 !! key) as [q|] eqn:Q; [|done].
  eapply lookup_weaken in Q; [|exact P2]. rewrite P1, lookup_delete_eq in Q. done.
Qed.

Lemma take_modern_shrinks state bound now c :
  wf c -> exists r c', take_modern state bound now c = Some (r, c') /\ shrinks c c'.
Proof.
  intros W. unfold take_modern. destruct (pending c !! state) as [p|] eqn:P; [|by eexists _, c].
  destruct (remove_shrinks state c W) as (c' & E & S & _). rewrite E, P.
  repeat case_match; eauto using shrinks_refl.
Qed.

Lemma take_legacy_shrinks frame now owns c :
  wf c -> exists r c', take_legacy_for frame now owns c = Some (r, c') /\ shrinks c c'.
Proof.
  intros W. unfold take_legacy_for. destruct (legacy_frame frame) as [[id fields]|]; [|by eexists _, c].
  destruct (List.find _ _) as [[key p]|]; [|by eexists _, c].
  destruct (remove_shrinks key c W) as (c' & E & S & _). rewrite E.
  repeat case_match; simplify_eq; eauto using shrinks_refl.
Qed.

Lemma with_nonce_wf nonce b : bounds_ok b -> wf (with_nonce nonce b).
Proof.
  intros [? ?]. split; simpl; try done.
  - intros n [= <-]. unfold MAX_ID. lia.
Qed.

Lemma step_continues c c' :
  wf c -> step c c' -> wf c' /\ nonce c' = nonce c /\ bounds c' = bounds c.
Proof.
  intros W H. destruct H as [o b x r l now c Hr| | | |].
  - split; [by apply issue_wf|]. destruct (issue o b x r l now c) as [[ch|e] c'] eqn:E.
    + apply issue_Ok in E as (n & cost & d & _ & _ & _ & _ & _ & _ & ->). done.
    + by apply issue_Err in E as ->.
  - destruct (take_modern_shrinks state bound now c W) as (r' & c1 & E & S). simplify_eq.
    destruct S as (? & ? & ? & ? & ?). done.
  - destruct (take_legacy_shrinks frame now owns c W) as (r' & c1 & E & S). simplify_eq.
    destruct S as (? & ? & ? & ? & ?). done.
  - destruct (remove_all_shrinks (keys_where (fun p => deadline p <=? now) c) c W)
      as (r' & c1 & E & S & _). unfold expire in *. simplify_eq. destruct S as (? & ? & ? & ? & ?). done.
  - destruct (remove_all_shrinks (keys_where (fun p => value_eqb (original p) id) c) c W)
      as (r' & c1 & E & S & _). unfold cancel in *. simplify_eq. destruct S as (? & ? & ? & ? & ?). done.
Qed.

Lemma steps_continue c c' :
  wf c -> rtc step c c' -> wf c' /\ nonce c' = nonce c /\ bounds c' = bounds c.
Proof.
  intros W H. induction H as [|a b c' S _ IH]; [done|].
  destruct (step_continues a b W S) as (Wb & Nb & Bb). destruct (IH Wb) as (Wc & Nc & Bc).
  split_and!; congruence.
Qed.

Lemma continuations_wf c : reachable c -> wf c.
Proof.
  intros (n & b & Hb & R). by apply (steps_continue _ _ (with_nonce_wf n b Hb) R).
Qed.

(** An entry once issued can only disappear: its key is never given out again. *)
Lemma entry_step c c' n :
  wf c -> step c c' -> 0 <= n -> issued n (next c) ->
  issued n (next c') /\
  forall p, pending c' !! key_of (nonce c) n = Some p -> pending c !! key_of (nonce c) n = Some p.
Proof.
  intros W H Hn I.
  assert (forall c', shrinks c c' -> issued n (next c') /\
    forall p, pending c' !! key_of (nonce c) n = Some p ->
              pending c !! key_of (nonce c) n = Some p) as S.
  { intros c1 (_ & _ & -> & _ & P). split; [done|]. intros p Hp. by eapply lookup_weaken. }
  destruct H as [o b x r l now c Hr|state bound now c r c' E|frame now owns c r c' E
                |now c r c' E|id c r c' E].
  - destruct (issue o b x r l now c) as [[ch|e] c'] eqn:E.
    + apply issue_Ok in E as (m & cost & d & En & _ & _ & _ & _ & _ & ->). simpl.
      rewrite En in I. simpl in I. pose proof (wf_next c W m En).
      split; [apply issued_next; lia|]. intros p [[K _]|[_ Hp]]%lookup_insert_Some; [|done].
      apply key_of_inj in K; lia.
    + apply issue_Err in E as ->. done.
  - destruct (take_modern_shrinks state bound now c W) as (r' & c1 & E' & S'). simplify_eq. auto.
  - destruct (take_legacy_shrinks frame now owns c W) as (r' & c1 & E' & S'). simplify_eq. auto.
  - destruct (remove_all_shrinks (keys_where (fun p => deadline p <=? now) c) c W)
      as (r' & c1 & E' & S' & _). unfold expire in *. simplify_eq. auto.
  - destruct (remove_all_shrinks (keys_where (fun p => value_eqb (original p) id) c) c W)
      as (r' & c1 & E' & S' & _). unfold cancel in *. simplify_eq. auto.
Qed.

Lemma entry_steps c c' n :
  wf c -> rtc step c c' -> 0 <= n -> issued n (next c) ->
  issued n (next c') /\
  forall p, pending c' !! key_of (nonce c) n = Some p -> pending c !! key_of (nonce c) n = Some p.
Proof.
  intros W H Hn. induction H as [|a b c' S _ IH]; [done|]. intros I.
  destruct (entry_step a b n W S Hn I) as [Ib Pb].
  destruct (step_continues a b W S) as (Wb & Nb & _). rewrite <- Nb in *.
  destruct (IH Wb Ib) as [Ic Pc]. auto.
Qed.

Lemma take_modern_Ok state bound now c call' c' :
  wf c -> take_modern state bound now c = Some (Ok call', c') ->
  exists p, pending c !! state = Some p /\ now < deadline p /\ binding p = bound /\
    challenge p = Modern state /\ call' = call p /\ shrinks c c' /\ pending c' !! state = None.
Proof.
  intros W. unfold take_modern. destruct (pending c !! state) as [p|] eqn:P; [|done].
  destruct (remove_shrinks state c W) as (c1 & E & S & D). rewrite E, P.
  destruct (Z.leb_spec (deadline p) now); [done|].
  case_bool_decide; [|done]. case_bool_decide; [|done]. simpl. intros [= <- <-].
  exists p. split_and!; try done. rewrite D. apply lookup_delete_eq.
Qed.

(** C38: a confirmation releases exactly the call it was asked for, in time, and once.  Whatever
    else happens to the table after a token was issued, the token can only release the call
    that was parked under it, to a request with the same binding, before its lifetime is
    over; and once it did, no later presentation of the token, by anyone, releases anything. *)
Theorem confirmation_released_once c o b x r now tok c1 c2 b' t' x' c3 c4 b'' t'' :
  reachable c -> 0 <= r ->
  issue o b x r false now c = (Ok (Modern tok), c1) -> rtc step c1 c2 ->
  take_modern tok b' t' c2 = Some (Ok x', c3) -> rtc step c3 c4 ->
  x' = x /\ b' = b /\ t' < now + lifetime (bounds c) /\
  take_modern tok b'' t'' c4 = Some (Err InvalidState, c4).
Proof.
  intros R Hr E1 S12 E3 S34. pose proof (continuations_wf c R) as W.
  pose proof (issue_wf o b x r false now c Hr W) as W1. rewrite E1 in W1. simpl in W1.
  pose proof E1 as I1. apply issue_Ok in I1 as (n & cost & d & En & _ & _ & _ & Ed & Et & E).
  injection Et as ->. pose proof (wf_next c W n En) as Hn.
  assert (nonce c1 = nonce c) as N1 by (by rewrite E).
  assert (issued n (next c1)) as I by (rewrite E; apply issued_next; lia).
  destruct (steps_continue c1 c2 W1 S12) as (W2 & N2 & _).
  destruct (entry_steps c1 c2 n W1 S12 ltac:(lia) I) as [I2 P2].
  destruct (take_modern_Ok _ _ _ _ _ _ W2 E3) as (p & Hp & Hd & Hb & _ & -> & S3 & D3).
  rewrite N1 in P2. pose proof (P2 p Hp) as Hp1. rewrite E in Hp1. simpl in Hp1.
  rewrite lookup_insert_eq in Hp1. injection Hp1 as <-. simpl in *.
  split; [done|]. split; [done|]. split; [lia|].
  destruct S3 as (W3 & N3 & X3 & _ & _). rewrite <- X3 in I2.
  destruct (entry_steps c3 c4 n W3 S34 ltac:(lia) I2) as [_ P4]. unfold take_modern.
  rewrite N3, N2, N1 in P4. destruct (pending c4 !! key_of (nonce c) n) as [q|] eqn:Q; [|done].
  rewrite (P4 q eq_refl) in D3. done.
Qed.

Lemma keys_where_removed f c :
  wf c -> exists removed c', remove_all (keys_where f c) c = Some (removed, c') /\
    forall k p, pending c' !! k = Some p -> f p = false.
Proof.
  intros W. destruct (remove_all_shrinks (keys_where f c) c W) as (removed & c' & E & S & D).
  exists removed, c'. split; [done|]. intros k p Hp. destruct (f p) eqn:F; [|done].
  destruct S as (_ & _ & _ & _ & P). pose proof (lookup_weaken _ _ _ _ Hp P) as Hc.
  rewrite D in Hp; [done|]. unfold keys_where. apply in_map_iff. exists (k, p). split; [done|].
  apply filter_In. split; [|done]. by apply list_elem_of_In, elem_of_map_to_list.
Qed.

(** The table stays within its bounds and its accounting is exact: in every reachable state
    the bytes charged are the sum of those of the parked calls, within the byte bound, with
    no more calls than the item bound; every entry has its own key, given out once; and no
    operation panics. *)
Theorem confirmation_accounting c :
  reachable c ->
  used c = map_total entry_bytes (pending c) /\ 0 <= used c <= bytes (bounds c) /\
  Z.of_nat (size (pending c)) <= items (bounds c) /\
  (forall k p, pending c !! k = Some p ->
     challenge p = Modern k \/ exists n, challenge p = Legacy n /\ k = key_of (nonce c) n) /\
  (forall state bound now, is_Some (take_modern state bound now c)) /\
  (forall frame now owns, is_Some (take_legacy_for frame now owns c)) /\
  (forall now, exists removed c', expire now c = Some (removed, c') /\
     forall k p, pending c' !! k = Some p -> now < deadline p) /\
  (forall id, exists removed c', cancel id c = Some (removed, c') /\
     forall k p, pending c' !! k = Some p -> value_eqb (original p) id = false).
Proof.
  intros R. pose proof (continuations_wf c R) as W.
  split; [apply W|]. split; [split; [|apply W]|].
  { rewrite (wf_used c W). apply map_total_nonneg, W. }
  split; [apply W|]. split; [|split; [|split; [|split]]].
  - intros k p Hp. destruct (wf_keys c W k p Hp) as (n & _ & _ & -> & [H|H]); eauto.
  - intros state bound now. destruct (take_modern_shrinks state bound now c W) as (? & ? & -> & _).
    eauto.
  - intros frame now owns. destruct (take_legacy_shrinks frame now owns c W) as (? & ? & -> & _).
    eauto.
  - intros now. destruct (keys_where_removed (fun p => deadline p <=? now) c W)
      as (removed & c' & E & D).
    exists removed, c'. split; [done|]. intros k p Hp. specialize (D k p Hp). simpl in D. lia.
  - intros id. apply (keys_where_removed (fun p => value_eqb (original p) id) c W).
Qed.

Lemma legacy_frame_Some frame id fields :
  legacy_frame frame = Some (id, fields) ->
  frame = Object fields /\ get "id" frame = Some (Num (PosInt id)).
Proof.
  unfold legacy_frame. destruct frame; try done. simpl as_object. cbv iota.
  case_match; [done|]. unfold and_then. destruct (get "id" _) as [v|]; [|done].
  destruct (as_u64 v) as [n|] eqn:E; [|done]. intros [= -> ->]. split; [done|].
  destruct v as [| |[]| | |]; try done. by injection E as ->.
Qed.

Lemma from_cancel :
  from_responses (Some (object_of [("confirm", object_of [("action", Str "cancel")])])) = OtherResponse.
Proof. done. Qed.

Lemma accepted_true response :
  from_responses (Some (object_of [("confirm", response)])) = Accepted true ->
  exists content, get "action" response = Some (Str "accept") /\
    get "content" response = Some content /\ get "confirm" content = Some (Bool true).
Proof.
  unfold from_responses. change (Some _ >>? get "confirm") with (Some response).
  unfold opt_filter at 1. destruct (is_object response); [|done].
  unfold and_then. destruct (get "action" response) as [v|]; [|by case_match].
  destruct (as_str v) as [action|] eqn:Ea; [|by case_match].
  destruct (str_eqb action "accept") eqn:Es; [|repeat case_match; done].
  apply str_eqb_eq in Es as ->. destruct v; try done. injection Ea as ->.
  destruct (get "content" response) as [content|]; [|done]. simpl.
  destruct (is_object content); [|done].
  destruct (get "confirm" content) as [b|] eqn:Eb; [|done].
  destruct (as_bool b) as [b'|] eqn:Eb'; [|done]. intros [= ->].
  destruct b; try done. injection Eb' as ->. eauto.
Qed.

Lemma legacy_answer_spec fields :
  from_responses (Some (legacy_answer fields)) <> Missing /\
  (from_responses (Some (legacy_answer fields)) = Accepted true ->
   exists r content, get "error" (Object fields) = None /\ get "result" (Object fields) = Some r /\
     get "action" r = Some (Str "accept") /\ get "content" r = Some content /\
     get "confirm" content = Some (Bool true)).
Proof.
  unfold legacy_answer. simpl get at 3 4.
  destruct (field "error" fields) as [e|] eqn:Fe.
  { rewrite from_cancel. done. }
  set (response := match field "result" fields with Some r => r | None => Null end).
  destruct (from_responses (Some (object_of [("confirm", response)]))) eqn:Fr.
  - rewrite from_cancel. done.
  - rewrite Fr. split; [done|]. intros H. rewrite H in Fr.
    apply accepted_true in Fr as (content & Ha & Hc & Hb). subst response.
    simpl get. destruct (field "result" fields) as [r|]; [|done]. exists r, content. done.
  - rewrite Fr. done.
Qed.

(** A legacy response releases only the call it answers, and is consent only when it says so:
    the call released is the one entry parked under that number, whose deadline has not
    passed and which the responding client owns, and it leaves the table; the answer handed
    on is never an invitation to ask again, and it is an acceptance only when the frame
    carries a result, not an error, whose action is accept and whose content confirms. *)
Theorem legacy_response_is_consent frame now owns c x answer c' :
  reachable c -> take_legacy_for frame now owns c = Some (Some (x, answer), c') ->
  (exists id k p, get "id" frame = Some (Num (PosInt id)) /\ pending c !! k = Some p /\
     challenge p = Legacy id /\ x = call p /\ owns x = true /\ now < deadline p /\
     (forall k' q, pending c !! k' = Some q -> challenge q = Legacy id -> k' = k) /\
     pending c' = delete k (pending c)) /\
  from_responses (Some answer) <> Missing /\
  (from_responses (Some answer) = Accepted true ->
   exists r content, get "error" frame = None /\ get "result" frame = Some r /\
     get "action" r = Some (Str "accept") /\ get "content" r = Some content /\
     get "confirm" content = Some (Bool true)).
Proof.
  intros R. pose proof (continuations_wf c R) as W. unfold take_legacy_for.
  destruct (legacy_frame frame) as [[id fields]|] eqn:F; [|done].
  apply legacy_frame_Some in F as [-> Fid].
  destruct (List.find _ _) as [[key p]|] eqn:P; [|done].
  apply find_some in P as [Pin Pok]. apply list_elem_of_In, elem_of_map_to_list in Pin.
  apply andb_true_iff in Pok as [Pc%bool_decide_eq_true Po].
  destruct (remove_shrinks key c W) as (c1 & E & _ & D). rewrite E, Pin.
  destruct (Z.leb_spec (deadline p) now); [done|]. intros [= <- <- <-].
  split; [|apply legacy_answer_spec].
  exists id, key, p. split_and!; try done. intros k' q Hq Hc.
  destruct (wf_keys c W key p Pin) as (n & _ & _ & -> & C).
  destruct (wf_keys c W k' q Hq) as (n' & _ & _ & -> & C').
  destruct C, C'; congruence.
Qed.
End Continuations.

(** ** A run *)

Definition empty_table : Continuations (T := string) := with_nonce "fixture" default_bounds.
Definition parked : Continuations := snd (issue 200 (num 1) [1] "call"%string 100 false 0 empty_table).
Definition asked : Continuations := snd (issue 200 (num 1) [1] "call"%string 100 true 0 empty_table).
Definition token : string := "native-confirmation/fixture/0".
Definition yes_frame : Value :=
  object_of [("jsonrpc", Str "2.0"); ("id", num 0);
             ("result", object_of [("action", Str "accept");
                                   ("content", object_of [("confirm", Bool true)])])].

Lemma empty_reachable : reachable 200 empty_table.
Proof. exists "fixture"%string, default_bounds. split; [done|]. apply rtc_refl. Qed.

Lemma asked_reachable : reachable 200 asked.
Proof.
  exists "fixture"%string, default_bounds. split; [done|]. apply rtc_once. by apply step_issue.
Qed.

Definition released : Continuations :=
  match take_modern token [1] 5 parked with Some (_, c) => c | None => parked end.

Lemma confirmation_released_once_witness :
  take_modern token [1] 5 parked = Some (Ok "call"%string, released) /\
  take_modern token [1] 6 released = Some (Err InvalidState, released).
Proof.
  assert (E : take_modern token [1] 5 parked = Some (Ok "call"%string, released))
    by (vm_compute; reflexivity).
  exact (conj E (proj2 (proj2 (proj2 (confirmation_released_once 200 ltac:(lia) empty_table (num 1)
    [1] "call"%string 100 0 token parked parked [1] 5 "call"%string released released [1] 6
    empty_reachable ltac:(lia) ltac:(vm_compute; reflexivity) (rtc_refl _ _) E (rtc_refl _ _)))))).
Defined.

Lemma confirmation_accounting_witness :
  used asked = map_total entry_bytes (pending asked) /\ used asked = 329.
Proof.
  split; [exact (proj1 (confirmation_accounting 200 ltac:(lia) asked asked_reachable))|].
  vm_compute. reflexivity.
Defined.

Definition answered : option (option (string * Value) * Continuations) :=
  take_legacy_for yes_frame 5 (fun _ => true) asked.

Lemma legacy_response_is_consent_witness :
  exists r content, get "error" yes_frame = None /\ get "result" yes_frame = Some r /\
     get "action" r = Some (Str "accept") /\ get "content" r = Some content /\
     get "confirm" content = Some (Bool true).
Proof.
  destruct answered as [[[[x answer]|] c']|] eqn:E;
    [|exfalso; vm_compute in E; discriminate E..].
  refine (proj2 (proj2 (legacy_response_is_consent 200 ltac:(lia) yes_frame 5 (fun _ => true)
    asked x answer c' asked_reachable E)) _).
  vm_compute in E. injection E as _ <- _. vm_compute. reflexivity.
Defined.
