(* ===== verification/RecordImpact.v ===== *)
(** * RecordImpact

    [native/src/record_impact.rs]: the veto that a manual recording effect holds over the take
    in progress.  One owner keeps the registry; tickets of takes and attempts of manual
    requests reach it through weak references.  [transient] says whether an upgrade of such a
    reference succeeds once the owner is gone, because another call still borrows it.  The
    mutex makes every call one step; its poisoning is a flag, as is the end of the session. *)
From S2P Require Import Prelude.

Inductive Revocation :=
| ExternalEffect
| UnknownEffect
| UnqualifiedRejection
| AbandonedAttempt
| OwnerIsGone
| ConnectionIsClosed
| IsPoisoned
| IdentityIsExhausted.

Inductive ImpactStatus :=
| Ready
| Suspended (id : Z)
| Revoked (reason : Revocation).

Inductive ImpactError :=
| OwnerGone
| ConnectionClosed
| WrongConnection
| Capacity
| StaleAttempt
| Poisoned
| IdentityExhausted.

Record State := {
  alive : bool;
  terminal : option Revocation;
  last_id : Z;
  pending : option Z;
  revoked_through : Z;
  reason : Revocation;
  revision : Z
}.

(** [Inner] and what its surroundings hold: the session's end, the poison flag of the mutex,
    the owner's strong reference, and the revision last published *)
Record Inner := {
  token : Z;
  state : State;
  session_closed : bool;
  poisoned : bool;
  owned : bool;
  changed : Z
}.

Definition set_state (st : State) (i : Inner) : Inner :=
  {| token := token i; state := st; session_closed := session_closed i; poisoned := poisoned i;
     owned := owned i; changed := changed i |}.

Definition set_terminal (r : Revocation) (st : State) : State :=
  {| alive := alive st; terminal := Some r; last_id := last_id st; pending := pending st;
     revoked_through := revoked_through st; reason := reason st; revision := revision st |}.

Definition set_pending (p : option Z) (st : State) : State :=
  {| alive := alive st; terminal := terminal st; last_id := last_id st; pending := p;
     revoked_through := revoked_through st; reason := reason st; revision := revision st |}.

Definition set_revision (n : Z) (st : State) : State :=
  {| alive := alive st; terminal := terminal st; last_id := last_id st; pending := pending st;
     revoked_through := revoked_through st; reason := reason st; revision := n |}.

(** [Inner::advance], on the locked state and the watch cell *)
Definition advance (st : State) (i : Inner) : Inner :=
  let st := match checked_add (revision st) 1 with
            | Some next => set_revision next st
            | None => set_pending None (set_terminal IdentityIsExhausted st)
            end in
  {| token := token i; state := st; session_closed := session_closed i; poisoned := poisoned i;
     owned := owned i; changed := revision st |}.

Arguments advance : simpl never.

(** the three checks of [Inner::with] *)
Definition enter (i : Inner) : result ImpactError unit * Inner :=
  if poisoned i then
    (Err Poisoned, advance (set_pending None (set_terminal IsPoisoned (state i))) i)
  else if negb (alive (state i)) then (Err OwnerGone, i)
  else
    let i := if session_closed i && is_none (terminal (state i))
             then advance (set_pending None (set_terminal ConnectionIsClosed (state i))) i
             else i in
    match terminal (state i) with
    | Some IsPoisoned => (Err Poisoned, i)
    | Some IdentityIsExhausted => (Err IdentityExhausted, i)
    | Some _ => (Err ConnectionClosed, i)
    | None => (Ok tt, i)
    end.

(** [Inner::with] *)
Definition with_ {R} (f : Inner -> result ImpactError R * Inner) (i : Inner)
  : result ImpactError R * Inner :=
  match enter i with
  | (Ok _, i) => f i
  | (Err e, i) => (Err e, i)
  end.

Definition settle (id : Z) (fate : option Revocation) : Inner -> result ImpactError unit * Inner :=
  with_ (fun i =>
    let st := state i in
    if negb (bool_decide (pending st = Some id)) then (Err StaleAttempt, i)
    else
      let st := set_pending None st in
      let st := match fate with
                | Some r => {| alive := alive st; terminal := terminal st; last_id := last_id st;
                               pending := pending st; revoked_through := id; reason := r;
                               revision := revision st |}
                | None => st
                end in
      (Ok tt, advance st i)).

(** [upgrade] of a weak reference, then the call *)
Definition upgraded {R} (transient : bool) (f : Inner -> result ImpactError R * Inner) (i : Inner)
  : result ImpactError R * Inner :=
  if owned i || transient then f i else (Err OwnerGone, i).

(** [RecordImpactOwner::bind] *)
Definition bind (tok : Z) (closed : bool) : result ImpactError Inner :=
  if closed then Err ConnectionClosed
  else
    Ok {| token := tok;
          state := {| alive := true; terminal := None; last_id := 0; pending := None;
                      revoked_through := 0; reason := ExternalEffect; revision := 0 |};
          session_closed := false; poisoned := false; owned := true; changed := 0 |}.

(** [Drop for RecordImpactOwner] *)
Definition drop_owner (i : Inner) : Inner :=
  let st := state i in
  let i := advance {| alive := false; terminal := terminal st; last_id := last_id st;
                      pending := None; revoked_through := revoked_through st;
                      reason := reason st; revision := revision st |} i in
  {| token := token i; state := state i; session_closed := session_closed i;
     poisoned := poisoned i; owned := false; changed := changed i |}.

(** [RecordImpactView::reserve_take]: the epoch of the ticket *)
Definition reserve_take (transient : bool) : Inner -> result ImpactError Z * Inner :=
  upgraded transient (with_ (fun i =>
    match pending (state i) with
    | Some _ => (Err Capacity, i)
    | None => (Ok (last_id (state i)), i)
    end)).

(** [RecordImpactView::changes], and every other call that only enters *)
Definition touch (transient : bool) : Inner -> result ImpactError unit * Inner :=
  upgraded transient (with_ (fun i => (Ok tt, i))).

(** [TakeImpactTicket::check] *)
Definition check (epoch : Z) (transient : bool) (i : Inner) : ImpactStatus * Inner :=
  if negb (owned i || transient) then (Revoked OwnerIsGone, i)
  else
    match with_ (fun i =>
        let st := state i in
        (Ok (if epoch <? revoked_through st then Revoked (reason st)
             else match pending st with Some id => Suspended id | None => Ready end), i)) i with
    | (Ok status, i) => (status, i)
    | (Err Poisoned, i) => (Revoked IsPoisoned, i)
    | (Err IdentityExhausted, i) => (Revoked IdentityIsExhausted, i)
    | (Err OwnerGone, i) => (Revoked OwnerIsGone, i)
    | (Err _, i) => (Revoked ConnectionIsClosed, i)
    end.

(** [ManualRecordImpactPort::check_connection] *)
Definition check_connection (expected : Z) (transient : bool) (i : Inner)
  : result ImpactError unit * Inner :=
  if negb (expected =? token i) then (Err WrongConnection, i) else touch transient i.

(** [ManualRecordImpactPort::begin_at_send] *)
Definition begin_at_send (expected : Z) (transient : bool) (i : Inner)
  : result ImpactError Z * Inner :=
  if negb (expected =? token i) then (Err WrongConnection, i)
  else
    upgraded transient (with_ (fun i =>
      let st := state i in
      match pending st with
      | Some _ => (Err Capacity, i)
      | None =>
          match checked_add (last_id st) 1 with
          | None => (Err IdentityExhausted, advance (set_terminal IdentityIsExhausted st) i)
          | Some next =>
              let i := advance {| alive := alive st; terminal := terminal st; last_id := next;
                                  pending := Some next; revoked_through := revoked_through st;
                                  reason := reason st; revision := revision st |} i in
              match terminal (state i) with
              | Some _ => (Err IdentityExhausted, i)
              | None => (Ok next, i)
              end
          end
      end)) i.

(** [ManualImpactAttempt::finish]: [not_dispatched], [accepted], [unknown],
    [rejected_unqualified], and the drop of an attempt that was not settled *)
Inductive Fate :=
| NotDispatched
| Accepted
| UnknownFate
| RejectedUnqualified
| Abandoned.

Definition revocation_of (f : Fate) : option Revocation :=
  match f with
  | NotDispatched => None
  | Accepted => Some ExternalEffect
  | UnknownFate => Some UnknownEffect
  | RejectedUnqualified => Some UnqualifiedRejection
  | Abandoned => Some AbandonedAttempt
  end.

Definition finish (id : Z) (f : Fate) (transient : bool) : Inner -> result ImpactError unit * Inner :=
  upgraded transient (settle id (revocation_of f)).

(** ** Histories *)

Inductive Op :=
| Reserve (transient : bool)
| Begin (expected : Z) (transient : bool)
| Finish (id : Z) (f : Fate) (transient : bool)
| CheckTicket (epoch : Z) (transient : bool)
| Touch (transient : bool)
| DropOwner
| SessionEnds
| Poison.

(** The registry, the epochs of the tickets handed out, the attempts not finished yet, and
    what became of each attempt begun so far, in order *)
Record World := {
  inner : Inner;
  tickets : list Z;
  attempts : list Z;
  fates : list (option Fate)
}.

Definition set_inner (i : Inner) (w : World) : World :=
  {| inner := i; tickets := tickets w; attempts := attempts w; fates := fates w |}.

Definition set_flags (closed poison : bool) (i : Inner) : Inner :=
  {| token := token i; state := state i; session_closed := closed; poisoned := poison;
     owned := owned i; changed := changed i |}.

Definition step (op : Op) (w : World) : World :=
  match op with
  | Reserve tr =>
      let '(r, i) := reserve_take tr (inner w) in
      {| inner := i;
         tickets := match r with Ok epoch => epoch :: tickets w | Err _ => tickets w end;
         attempts := attempts w; fates := fates w |}
  | Begin expected tr =>
      let '(r, i) := begin_at_send expected tr (inner w) in
      match r with
      | Ok id =>
          {| inner := i; tickets := tickets w; attempts := id :: attempts w;
             fates := fates w ++ [None] |}
      | Err _ =>
          (* an identity may be used up although the caller is refused *)
          {| inner := i; tickets := tickets w; attempts := attempts w;
             fates := fates w ++ replicate (Z.to_nat (last_id (state i)) - length (fates w))
                                   (Some NotDispatched) |}
      end
  | Finish id f tr =>
      if existsb (Z.eqb id) (attempts w) then
        {| inner := snd (finish id f tr (inner w)); tickets := tickets w;
           attempts := List.filter (fun x => negb (x =? id)) (attempts w);
           fates := <[Z.to_nat (id - 1) := Some f]> (fates w) |}
      else w
  | CheckTicket epoch tr => set_inner (snd (check epoch tr (inner w))) w
  | Touch tr => set_inner (snd (touch tr (inner w))) w
  | DropOwner => set_inner (if owned (inner w) then drop_owner (inner w) else inner w) w
  | SessionEnds => set_inner (set_flags true (poisoned (inner w)) (inner w)) w
  | Poison => set_inner (set_flags (session_closed (inner w)) true (inner w)) w
  end.

Definition run (ops : list Op) (w : World) : World := fold_left (fun w op => step op w) ops w.

Definition world (i : Inner) : World :=
  {| inner := i; tickets := []; attempts := []; fates := [] |}.

(** ** Invariant *)

Definition live (st : State) : Prop := alive st = true /\ terminal st = None.

(** The registry answers: it is owned, and nothing ended it. *)
Definition answering (i : Inner) : Prop :=
  owned i = true /\ session_closed i = false /\ poisoned i = false /\ live (state i).

Lemma advance_fields st i :
  last_id (state (advance st i)) = last_id st /\ alive (state (advance st i)) = alive st /\
  (live (state (advance st i)) -> live st /\ state (advance st i) = set_revision (revision st + 1) st) /\
  token (advance st i) = token i /\ owned (advance st i) = owned i /\
  session_closed (advance st i) = session_closed i /\ poisoned (advance st i) = poisoned i.
Proof.
  unfold advance, live. destruct (checked_add (revision st) 1) as [n|] eqn:E; simpl; [|by split_and!; try intros []].
  apply checked_add_Some in E as [-> _]. split_and!; done.
Qed.

Lemma enter_spec i r i' :
  enter i = (r, i') ->
  last_id (state i') = last_id (state i) /\ alive (state i') = alive (state i) /\
  token i' = token i /\ owned i' = owned i /\ session_closed i' = session_closed i /\
  poisoned i' = poisoned i /\
  match r with
  | Ok _ => i' = i /\ live (state i) /\ session_closed i = false /\ poisoned i = false
  | Err _ => ~ live (state i') /\
             ~ (session_closed i = false /\ poisoned i = false /\ live (state i))
  end.
Proof.
  unfold enter. destruct (poisoned i) eqn:Ep.
  { intros [= <- <-].
    destruct (advance_fields (set_pending None (set_terminal IsPoisoned (state i))) i)
      as (L & A & V & T & O & C & P). rewrite L, A, T, O, C, P. split_and!; try done.
    - intros [[_ V1] _]%V. done.
    - intros (_ & ? & _). done. }
  destruct (alive (state i)) eqn:Ea; cbn [negb]; [|intros [= <- <-]; unfold live; rewrite Ea; split_and!; try done; naive_solver].
  destruct (session_closed i) eqn:Ec, (terminal (state i)) as [rv|] eqn:Et; cbn [andb is_none]; rewrite ?Et.
  - destruct rv; intros [= <- <-]; unfold live; rewrite ?Et, ?Ea, ?Ec; split_and!; try done; naive_solver.
  - destruct (advance_fields (set_pending None (set_terminal ConnectionIsClosed (state i))) i)
      as (L & A & V & T & O & C & P).
    cbn [last_id alive set_pending set_terminal] in L, A.
    assert (exists rv, terminal (state (advance (set_pending None
      (set_terminal ConnectionIsClosed (state i))) i)) = Some rv) as [rv E].
    { unfold advance. destruct (checked_add _ _); cbn; eauto. }
    rewrite E. destruct rv; intros [= <- <-]; rewrite ?L, ?A, ?T, ?O, ?C, ?P; split_and!; try done;
      try (by intros [[_ V1] _]%V); intros [? _]; done.
  - destruct rv; intros [= <- <-]; unfold live; rewrite ?Et, ?Ea; split_and!; try done; naive_solver.
  - intros [= <- <-]. unfold live. by rewrite Et, Ea.
Qed.

Record inv (w : World) : Prop := {
  inv_count : last_id (state (inner w)) = Z.of_nat (length (fates w));
  inv_attempts : forall id, In id (attempts w) <->
    0 < id /\ fates w !! Z.to_nat (id - 1) = Some None;
  inv_pending : live (state (inner w)) -> forall id,
    pending (state (inner w)) = Some id <-> In id (attempts w);
  inv_revoked : live (state (inner w)) ->
    0 <= revoked_through (state (inner w)) /\
    (forall k f, fates w !! k = Some (Some f) -> f <> NotDispatched ->
       Z.of_nat k < revoked_through (state (inner w))) /\
    (0 < revoked_through (state (inner w)) -> exists f,
       fates w !! Z.to_nat (revoked_through (state (inner w)) - 1) = Some (Some f) /\
       revocation_of f = Some (reason (state (inner w))));
  inv_last : live (state (inner w)) -> forall id,
    pending (state (inner w)) = Some id -> id = last_id (state (inner w));
  inv_owner : owned (inner w) = alive (state (inner w));
  inv_tickets : forall e, In e (tickets w) -> 0 <= e <= last_id (state (inner w)) /\
    forall k, Z.of_nat k < e -> fates w !! k <> Some None
}.

(** A call that changes nothing but what [enter] does *)
Lemma inv_enter i' w :
  inv w -> last_id (state i') = last_id (state (inner w)) -> owned i' = alive (state i') ->
  (live (state i') -> state i' = state (inner w)) -> inv (set_inner i' w).
Proof.
  intros [] L O V. constructor; simpl; rewrite ?L; try done.
  - intros H. rewrite (V H). apply inv_pending0. by rewrite <- (V H).
  - intros H. rewrite (V H). apply inv_revoked0. by rewrite <- (V H).
  - intros H. rewrite (V H). apply inv_last0. by rewrite <- (V H).
Qed.

Lemma revocation_none f : revocation_of f = None <-> f = NotDispatched.
Proof. by destruct f. Qed.

Lemma inv_enter_op i' w r : inv w -> enter (inner w) = (r, i') -> inv (set_inner i' w).
Proof.
  intros I (L & A & _ & O & _ & _ & R)%enter_spec. apply inv_enter; try done.
  - rewrite O, A. apply I.
  - destruct r; [by destruct R as (-> & _)|]. by destruct R.
Qed.

(** [with_] runs its body on an untouched, live registry or leaves a dead one. *)
Lemma with_cases {R} (f : Inner -> result ImpactError R * Inner) i r i' :
  with_ f i = (r, i') ->
  (f i = (r, i') /\ live (state i) /\ session_closed i = false /\ poisoned i = false) \/
  (exists e e', r = Err e /\ enter i = (Err e', i') /\ ~ live (state i')).
Proof.
  unfold with_. destruct (enter i) as [[[]|e] i1] eqn:E; pose proof (enter_spec _ _ _ E) as S.
  - intros H. left. destruct S as (_ & _ & _ & _ & _ & _ & -> & V & C & P). done.
  - intros [= <- <-]. right. exists e, e. split_and!; [done..|]. apply S.
Qed.

Lemma upgraded_cases {R} tr (f : Inner -> result ImpactError R * Inner) i r i' :
  upgraded tr f i = (r, i') -> f i = (r, i') \/ (r = Err OwnerGone /\ i' = i).
Proof. unfold upgraded. destruct (_ || _); [by left|]. intros [= <- <-]. by right. Qed.

Lemma set_inner_id w : set_inner (inner w) w = w.
Proof. by destruct w. Qed.

Lemma touch_inv w tr : inv w -> inv (set_inner (snd (touch tr (inner w))) w).
Proof.
  intros I. unfold touch. destruct (upgraded _ _ _) as [r i'] eqn:E. simpl.
  apply upgraded_cases in E as [[([= <- <-] & _)|(e & e' & _ & E & _)]%with_cases|[_ ->]];
    rewrite ?set_inner_id; try done. by apply (inv_enter_op _ _ _ I E).
Qed.

Lemma check_inv w e tr : inv w -> inv (set_inner (snd (check e tr (inner w))) w).
Proof.
  intros I. unfold check. destruct (negb _); [simpl; by rewrite set_inner_id|].
  destruct (with_ _ _) as [r i'] eqn:E.
  assert (inv (set_inner i' w)) as K.
  { apply with_cases in E as [([= _ <-] & _)|(x & x' & _ & E & _)];
      [by rewrite set_inner_id|by apply (inv_enter_op _ _ _ I E)]. }
  by destruct r as [|[]].
Qed.

Lemma reserve_inv w tr : inv w -> inv (step (Reserve tr) w).
Proof.
  intros I. simpl. unfold reserve_take. destruct (upgraded _ _ _) as [r i'] eqn:E.
  assert (forall e, inv (set_inner i' w) -> inv {| inner := i';
    tickets := match @Err ImpactError Z e with Ok epoch => epoch :: tickets w | Err _ => tickets w end;
    attempts := attempts w; fates := fates w |}) as K by done.
  apply upgraded_cases in E as [[(E & V & _)|(e & e' & -> & E & _)]%with_cases|[-> ->]].
  - destruct (pending (state (inner w))) eqn:Ep; injection E as <- <-.
    + apply (K Capacity). by rewrite set_inner_id.
    + destruct I. constructor; simpl; try done.
      intros x [<-|Hx]; [|auto]. split; [lia|]. intros k Hk Hn.
      assert (In (Z.of_nat k + 1) (attempts w)) as Hin.
      { apply inv_attempts0. split; [lia|]. by replace (Z.to_nat (Z.of_nat k + 1 - 1)) with k by lia. }
      apply (inv_pending0 V) in Hin. congruence.
  - apply (K e). by apply (inv_enter_op _ _ _ I E).
  - apply (K OwnerGone). by rewrite set_inner_id.
Qed.

Lemma dead_inv w i' l :
  inv w -> ~ live (state i') -> owned i' = alive (state i') ->
  last_id (state i') = Z.of_nat (length (fates w) + l) ->
  inv {| inner := i'; tickets := tickets w; attempts := attempts w;
         fates := fates w ++ replicate l (Some NotDispatched) |}.
Proof.
  intros [] D O L. constructor; simpl; try done; try (by intros V; destruct (D V)).
  - by rewrite length_app, length_replicate, L.
  - intros id. rewrite inv_attempts0. split; intros [P H]; (split; [done|]).
    + by apply lookup_app_l_Some.
    + apply lookup_app_Some in H as [H|[_ H]]; [done|]. by apply lookup_replicate in H as [? _].
  - intros e He. destruct (inv_tickets0 e He) as [B N]. split; [lia|]. intros k Hk H.
    apply lookup_app_Some in H as [H|[_ H]]; [by apply (N k)|]. by apply lookup_replicate in H as [? _].
Qed.

Lemma begin_inv w expected tr : inv w -> inv (step (Begin expected tr) w).
Proof.
  intros I. simpl. unfold begin_at_send.
  assert (forall i', last_id (state i') = last_id (state (inner w)) -> inv (set_inner i' w) ->
    inv {| inner := i'; tickets := tickets w; attempts := attempts w;
           fates := fates w ++ replicate (Z.to_nat (last_id (state i')) - length (fates w))
                                 (Some NotDispatched) |}) as K.
  { intros i' L J. rewrite L, (inv_count _ I), Nat2Z.id, Nat.sub_diag. simpl.
    by rewrite app_nil_r. }
  destruct (negb _); [apply K; [done|by rewrite set_inner_id]|].
  destruct (upgraded _ _ _) as [r i'] eqn:E.
  apply upgraded_cases in E as [[(E & V & _)|(e & e' & -> & E & _)]%with_cases|[-> ->]];
    [|apply K; [by apply enter_spec in E as (-> & _)|by apply (inv_enter_op _ _ _ I E)]
     |apply K; [done|by rewrite set_inner_id]].
  destruct (pending (state (inner w))) eqn:Ep; [injection E as <- <-;
    apply K; [done|by rewrite set_inner_id]|].
  pose proof (inv_count _ I) as Cn.
  destruct (checked_add (last_id (state (inner w))) 1) as [next|] eqn:Ec.
  - apply checked_add_Some in Ec as [-> _].
    match type of E with context [advance ?s ?i] =>
      destruct (advance_fields s i) as (L & A & Vv & _ & O & _ & _); set (j := advance s i) in * end.
    cbn [last_id alive] in L, A. destruct (terminal (state j)) eqn:Et; injection E as <- <-.
    + rewrite L, Cn. replace (Z.to_nat (Z.of_nat (length (fates w)) + 1) - length (fates w))%nat
        with 1%nat by lia.
      apply dead_inv; [done|by intros [_ ?]; congruence|rewrite O, A; apply I|rewrite L; lia].
    + assert (live (state j)) as Vj by (split; [rewrite A; apply V|done]).
      destruct (Vv Vj) as [_ S]. clearbody j. destruct I.
      assert (attempts w = []) as Em.
      { assert (forall x, ~ In x (attempts w)) as No.
        { intros x Hx%(inv_pending0 V). congruence. }
        destruct (attempts w) as [|x l]; [done|]. destruct (No x). by left. }
      destruct (inv_revoked0 V) as (R0 & R1 & R2). rewrite Em in *.
      constructor; simpl; rewrite ?S; simpl; rewrite ?Em.
      * rewrite length_app. simpl. lia.
      * intros id. split.
        -- intros [<-|[]]. split; [lia|]. rewrite Cn.
           replace (Z.to_nat (Z.of_nat (length (fates w)) + 1 - 1)) with (length (fates w)) by lia.
           by apply list_lookup_middle.
        -- intros [P [H|[G H]]%lookup_app_Some].
           ++ assert (In id []) as [] by (by apply inv_attempts0).
           ++ apply list_lookup_singleton_Some in H as [H _]. left. lia.
      * intros _ id. split; [intros [= <-]; by left|intros [<-|[]]; done].
      * intros _. split; [done|]. split.
        -- intros k f [H|[_ H]]%lookup_app_Some; [by apply R1|].
           by apply list_lookup_singleton_Some in H as [_ ?].
        -- intros P. destruct (R2 P) as (f & Hf & Hr). exists f. split; [|done].
           by apply lookup_app_l_Some.
      * by intros _ id [= <-].
      * rewrite O, inv_owner0. done.
      * intros e He. destruct (inv_tickets0 e He) as [B N]. split; [lia|].
        intros k Hk H. rewrite lookup_app_l in H by lia. by apply (N k).
  - injection E as <- <-.
    match goal with |- context [advance ?s ?i] =>
      destruct (advance_fields s i) as (L & A & Vv & _ & O & _ & _); set (j := advance s i) in * end.
    apply K; [exact L|]. apply inv_enter; [done|exact L|rewrite O, A; apply I|].
    intros Vj. by destruct (Vv Vj) as [[_ ?] _].
Qed.

Lemma finish_common w i' id f :
  inv w -> In id (attempts w) -> last_id (state i') = last_id (state (inner w)) ->
  owned i' = alive (state i') ->
  (live (state i') ->
   live (state (inner w)) /\ pending (state (inner w)) = Some id /\ pending (state i') = None /\
   match revocation_of f with
   | Some r => revoked_through (state i') = id /\ reason (state i') = r
   | None => revoked_through (state i') = revoked_through (state (inner w)) /\
             reason (state i') = reason (state (inner w))
   end) ->
  inv {| inner := i'; tickets := tickets w;
         attempts := List.filter (fun x => negb (x =? id)) (attempts w);
         fates := <[Z.to_nat (id - 1) := Some f]> (fates w) |}.
Proof.
  intros [] Hin L O V. pose proof (proj1 (inv_attempts0 id) Hin) as [Pid Hid].
  pose proof (lookup_lt_Some _ _ _ Hid) as Lt.
  constructor; simpl; rewrite ?L; try done.
  - by rewrite length_insert.
  - intros x. rewrite List.filter_In, negb_true_iff, Z.eqb_neq, inv_attempts0. split.
    + intros [[Px Hx] Nx]. split; [done|]. rewrite list_lookup_insert_ne by lia. done.
    + intros [Px Hx]. destruct (decide (x = id)) as [->|Nx].
      * by rewrite list_lookup_insert_eq in Hx.
      * rewrite list_lookup_insert_ne in Hx by lia. done.
  - intros Hl. destruct (V Hl) as (Hl0 & Pe & -> & _). intros x. split; [done|].
    rewrite List.filter_In, <- (inv_pending0 Hl0), Pe. intros [[= ->] H].
    by rewrite Z.eqb_refl in H.
  - intros Hl. destruct (V Hl) as (Hl0 & Pe & _ & Rv). destruct (inv_revoked0 Hl0) as (R0 & R1 & R2).
    pose proof (inv_last0 Hl0 _ Pe) as La.
    destruct (revocation_of f) as [r|] eqn:Ef; destruct Rv as [-> ->].
    + split; [lia|]. split.
      * intros k g H _. apply lookup_lt_Some in H. rewrite length_insert in H. lia.
      * intros _. exists f. split; [by apply list_lookup_insert_eq|done].
    + apply revocation_none in Ef as ->. split; [done|]. split.
      * intros k g H Ng. destruct (decide (k = Z.to_nat (id - 1))) as [->|Nk].
        -- rewrite list_lookup_insert_eq in H by done. congruence.
        -- rewrite list_lookup_insert_ne in H by done. by apply (R1 k g).
      * intros P. destruct (R2 P) as (g & Hg & Hr). exists g. split; [|done].
        rewrite list_lookup_insert_ne; [done|]. intros E. rewrite <- E, Hid in Hg. done.
  - intros Hl. destruct (V Hl) as (_ & _ & -> & _). done.
  - intros e He. destruct (inv_tickets0 e He) as [B N]. split; [done|]. intros k Hk H.
    destruct (decide (k = Z.to_nat (id - 1))) as [->|Nk].
    + by rewrite list_lookup_insert_eq in H.
    + rewrite list_lookup_insert_ne in H by done. by apply (N k).
Qed.

(** What settling the outstanding attempt does *)
Lemma settle_spec id f i r i' :
  settle id (revocation_of f) i = (r, i') ->
  last_id (state i') = last_id (state i) /\ owned i' = owned i /\ alive (state i') = alive (state i) /\
  (pending (state i) = Some id -> live (state i) -> session_closed i = false -> poisoned i = false ->
   r = Ok tt) /\
  (live (state i') -> live (state i)) /\
  (live (state i') -> pending (state i) = Some id ->
   live (state i) /\ pending (state i') = None /\
   match revocation_of f with
   | Some r => revoked_through (state i') = id /\ reason (state i') = r
   | None => revoked_through (state i') = revoked_through (state i) /\
             reason (state i') = reason (state i)
   end).
Proof.
  intros [(E & V & C & P)|(e & e' & -> & E & D)]%with_cases.
  - cbv zeta in E. destruct (bool_decide (pending (state i) = Some id)) eqn:B; cbn [negb] in E.
    + injection E as <- <-.
      match goal with |- context [advance ?s ?i] =>
        destruct (advance_fields s i) as (L & A & Vv & _ & O & _ & _); set (j := advance s i) in * end.
      rewrite L, A, O. split_and!; try (by destruct (revocation_of f)); try done.
      intros Hl _. destruct (Vv Hl) as [_ ->]. split; [done|]. by destruct (revocation_of f).
    + injection E as <- <-. apply bool_decide_eq_false in B. split_and!; done.
  - apply enter_spec in E as (L & A & _ & O & _ & _ & _ & N). split_and!; try done.
    intros _ Hl C P. destruct N. done.
Qed.

Lemma existsb_In id l : existsb (Z.eqb id) l = true <-> In id l.
Proof.
  rewrite existsb_exists. split; [intros (x & H & ->%Z.eqb_eq); done|].
  intros H. exists id. by rewrite Z.eqb_refl.
Qed.

Lemma finish_inv w id f tr : inv w -> inv (step (Finish id f tr) w).
Proof.
  intros I. simpl. destruct (existsb _ _) eqn:Ex; [|done]. apply existsb_In in Ex.
  unfold finish. destruct (upgraded _ _ _) as [r i'] eqn:E. simpl.
  unfold upgraded in E. destruct (owned (inner w) || tr) eqn:Ow.
  - apply settle_spec in E as (L & O & A & _ & V & S). apply finish_common; try done.
    + rewrite O, A. apply I.
    + intros Hl. pose proof (proj2 (inv_pending _ I (V Hl) id) Ex) as Pe.
      by destruct (S Hl Pe) as (? & ? & ?).
  - injection E as <- <-. apply orb_false_iff in Ow as [Ow _]. apply finish_common; try done.
    + apply I.
    + intros [Al _]. rewrite <- (inv_owner _ I) in Al. congruence.
Qed.

Lemma op_inv op w : inv w -> inv (step op w).
Proof.
  intros I. destruct op as [tr|expected tr|id f tr|epoch tr|tr| | |].
  - by apply reserve_inv.
  - by apply begin_inv.
  - by apply finish_inv.
  - by apply check_inv.
  - by apply touch_inv.
  - simpl. destruct (owned (inner w)) eqn:O; [|by rewrite set_inner_id].
    unfold drop_owner. match goal with |- context [advance ?s ?i] =>
      destruct (advance_fields s i) as (L & A & V & _); set (j := advance s i) in * end.
    clearbody j. apply inv_enter; simpl; [done|exact L|by rewrite A|]. intros Hl. by destruct (V Hl) as [[? _] _].
  - apply inv_enter; simpl; [done..|apply I|done].
  - apply inv_enter; simpl; [done..|apply I|done].
Qed.

Lemma history_inv ops : forall w, inv w -> inv (run ops w).
Proof. induction ops as [|op ops IH]; intros w I; simpl; [done|]. by apply IH, op_inv. Qed.

Lemma world_inv tok i : bind tok false = Ok i -> inv (world i).
Proof.
  intros [= <-]. constructor; simpl; try done.
  intros id. split; [done|]. by intros [_ ?].
Qed.

Lemma check_result w e tr :
  inv w ->
  (answering (inner w) /\
   fst (check e tr (inner w)) =
     (if e <? revoked_through (state (inner w)) then Revoked (reason (state (inner w)))
      else match pending (state (inner w)) with Some id => Suspended id | None => Ready end)) \/
  (~ answering (inner w) /\ exists r, fst (check e tr (inner w)) = Revoked r).
Proof.
  intros I. unfold check, answering, with_. destruct (owned (inner w)) eqn:O; cbn [orb negb].
  - destruct (enter (inner w)) as [[[]|x] i'] eqn:E; apply enter_spec in E as (_ & _ & _ & _ & _ & _ & E).
    + destruct E as (-> & V & C & P). left. split; [done|]. cbn. done.
    + right. split; [tauto|]. destruct E as [_ N]. destruct x; eauto.
  - right. split; [by intros [? _]|]. destruct tr; cbn [negb]; [|eauto].
    destruct (enter (inner w)) as [[[]|x] i'] eqn:E; apply enter_spec in E as (_ & _ & _ & _ & _ & _ & E).
    + destruct E as (_ & [Al _] & _). rewrite <- (inv_owner _ I) in Al. congruence.
    + destruct x; eauto.
Qed.

(** No attempt numbered after [e] may have had an effect, the attempt [but] apart. *)
Definition untouched (w : World) (e : Z) (but : option Z) : Prop :=
  forall k fate, e <= Z.of_nat k -> fates w !! k = Some fate ->
    fate = Some NotDispatched \/ but = Some (Z.of_nat k + 1).

Lemma untouched_iff w e :
  inv w -> live (state (inner w)) -> 0 <= e ->
  (e <? revoked_through (state (inner w))) = false <-> untouched w e (pending (state (inner w))).
Proof.
  intros I V He. destruct (inv_revoked _ I V) as (R0 & R1 & R2). rewrite Z.ltb_ge. split.
  - intros H k [f|] Hk Hf.
    + left. destruct f; try done; (pose proof (R1 k _ Hf ltac:(done)); lia).
    + right. apply (inv_pending _ I V), (inv_attempts _ I). split; [lia|].
      by replace (Z.to_nat (Z.of_nat k + 1 - 1)) with k by lia.
  - intros U. destruct (Z.le_gt_cases (revoked_through (state (inner w))) e) as [|G]; [done|].
    destruct R2 as (f & Hf & Hr); [lia|]. exfalso. 
    destruct (U (Z.to_nat (revoked_through (state (inner w)) - 1)) _ ltac:(lia) Hf) as [[= ->]|B];
      [done|].
    apply (inv_pending _ I V), (inv_attempts _ I) in B as [_ B].
    replace (Z.of_nat (Z.to_nat (revoked_through (state (inner w)) - 1)) + 1 - 1)
      with (revoked_through (state (inner w)) - 1) in B by lia.
    congruence.
Qed.

(** C32: what a take's ticket says is exactly what became of the manual record requests begun
    after the ticket was issued: it is ready precisely when the registry still answers and
    every one of them was settled as not dispatched; it is suspended on a request precisely
    when that one is on its way and all the others were not dispatched; otherwise it is
    revoked, and with the registry answering, for the reason of a request that was. *)
Theorem ticket_check_exact tok i ops e tr :
  bind tok false = Ok i ->
  let w := run ops (world i) in
  In e (tickets w) ->
  let status := fst (check e tr (inner w)) in
  (status = Ready <-> answering (inner w) /\ untouched w e None) /\
  (forall id, status = Suspended id <->
     answering (inner w) /\ In id (attempts w) /\ untouched w e (Some id)) /\
  (forall r, status = Revoked r -> answering (inner w) ->
     exists k f, e <= Z.of_nat k /\ fates w !! k = Some (Some f) /\ revocation_of f = Some r).
Proof.
  intros Hb w Ht status. assert (inv w) as I by (by apply history_inv, (world_inv tok)).
  destruct (inv_tickets _ I e Ht) as [[He _] Hn].
  destruct (check_result w e tr I) as [(An & E)|(Na & r & E)]; fold status in E.
  - assert (live (state (inner w))) as V by apply An.
    pose proof (untouched_iff w e I V He) as U. pose proof (inv_pending _ I V) as Pe.
    destruct (inv_revoked _ I V) as (_ & _ & R2).
    destruct (Z.ltb_spec e (revoked_through (state (inner w)))) as [Lt|Ge].
    + assert (forall but, (forall id, but = Some id -> In id (attempts w)) -> ~ untouched w e but) as N.
      { intros but B H. assert (untouched w e (pending (state (inner w)))) as H'.
        { intros k fate Hk Hf. destruct (H k fate Hk Hf) as [X| ->]; [by left|right].
          by apply Pe, B. }
        by apply U in H'. }
      rewrite E. split_and!.
      * split; [done|]. intros [_ H]. by apply N in H.
      * intros id. split; [done|]. intros (_ & Hi & H). apply N in H; [done|]. by intros ? [= <-].
      * intros r [= <-] _. destruct R2 as (f & Hf & Hr); [lia|]. eexists _, f. split; [|done]. lia.
    + rewrite E. pose proof (proj1 U eq_refl) as Un.
      destruct (pending (state (inner w))) as [id|].
      * split_and!; [|intros id'; split|done].
        -- split; [done|]. intros [_ H]. destruct (proj1 (inv_attempts _ I id)) as [P Hi]; [by apply Pe|].
           assert (e <= Z.of_nat (Z.to_nat (id - 1))) as Hk.
           { destruct (Z.le_gt_cases e (Z.of_nat (Z.to_nat (id - 1)))); [done|]. by destruct (Hn (Z.to_nat (id - 1))). }
           by destruct (H _ _ Hk Hi) as [?|?].
        -- intros [= <-]. split; [done|]. split; [by apply Pe|done].
        -- intros (_ & Hi & _). apply Pe in Hi. congruence.
      * split_and!; [by split| |done]. intros id. split; [done|]. intros (_ & Hi & _).
        by apply Pe in Hi.
  - rewrite E. split_and!; [|intros id|intros r' _ An; done]; by split; [|intros (An & _)].
Qed.

(** ** Revocation is permanent *)

Definition keeps (i i' : Inner) : Prop :=
  owned i' = owned i /\ session_closed i' = session_closed i /\ poisoned i' = poisoned i /\
  (live (state i') -> live (state i)).

Lemma keeps_refl i : keeps i i.
Proof. done. Qed.

Lemma keeps_advance st i : (live st -> live (state i)) -> keeps i (advance st i).
Proof.
  intros H. destruct (advance_fields st i) as (_ & _ & V & _ & O & C & P). split_and!; try done.
  intros Hl. apply H, V, Hl.
Qed.

Lemma keeps_with {R} (f : Inner -> result ImpactError R * Inner) i :
  (live (state i) -> keeps i (snd (f i))) -> keeps i (snd (with_ f i)).
Proof.
  intros K. destruct (with_ f i) as [r i'] eqn:E. simpl.
  apply with_cases in E as [(E & V & _)|(e & e' & _ & E & D)].
  - specialize (K V). by rewrite E in K.
  - apply enter_spec in E as (_ & _ & _ & O & C & P & _). by split_and!.
Qed.

Lemma keeps_upgraded {R} tr (f : Inner -> result ImpactError R * Inner) i :
  keeps i (snd (f i)) -> keeps i (snd (upgraded tr f i)).
Proof. unfold upgraded. by destruct (_ || _). Qed.

Lemma keeps_answering i i' : keeps i i' -> answering i' -> answering i.
Proof. unfold keeps, answering. intros (-> & -> & -> & V). tauto. Qed.

Lemma step_answering op w : answering (inner (step op w)) -> answering (inner w).
Proof.
  assert (forall tr, keeps (inner w) (snd (touch tr (inner w)))) as Kt.
  { intros tr. by apply keeps_upgraded, keeps_with. }
  destruct op as [tr|expected tr|id f tr|epoch tr|tr| | |]; simpl.
  - assert (keeps (inner w) (snd (reserve_take tr (inner w)))) as K.
    { apply keeps_upgraded, keeps_with. intros V. by destruct (pending _). }
    destruct (reserve_take _ _) as [r i']. exact (keeps_answering _ _ K).
  - assert (keeps (inner w) (snd (begin_at_send expected tr (inner w)))) as K.
    { unfold begin_at_send. destruct (negb _); [done|]. apply keeps_upgraded, keeps_with. intros V.
      destruct (pending _); [done|]. destruct (checked_add _ _).
      - match goal with |- context [advance ?s ?i] =>
          assert (keeps i (advance s i)) as K by (by apply keeps_advance);
          destruct (terminal (state (advance s i))) end; exact K.
      - by apply keeps_advance. }
    destruct (begin_at_send _ _ _) as [[id|e] i']; exact (keeps_answering _ _ K).
  - destruct (existsb _ _); [|done]. apply keeps_answering, keeps_upgraded, keeps_with.
    intros V. cbv zeta. destruct (negb _); [done|]. by apply keeps_advance.
  - apply keeps_answering. unfold check. destruct (negb _); [done|].
    match goal with |- context [with_ ?f ?i] =>
      assert (keeps i (snd (with_ f i))) as K by (by apply keeps_with);
      destruct (with_ f i) as [r i'] end. by destruct r as [|[]].
  - apply keeps_answering, Kt.
  - destruct (owned (inner w)) eqn:O; [|done]. by intros [? _].
  - by intros (_ & ? & _).
  - by intros (_ & _ & ? & _).
Qed.

Lemma step_fates op w k f :
  inv w -> fates w !! k = Some (Some f) -> fates (step op w) !! k = Some (Some f).
Proof.
  intros I H. destruct op as [tr|expected tr|id g tr|epoch tr|tr| | |]; simpl; try done.
  - by destruct (reserve_take _ _).
  - destruct (begin_at_send _ _ _) as [[id|e] i']; simpl; by apply lookup_app_l_Some.
  - destruct (existsb _ _) eqn:Ex; [|done]. apply existsb_In, (inv_attempts _ I) in Ex as [P Hi].
    simpl. rewrite list_lookup_insert_ne; [done|]. intros E. rewrite E in Hi. congruence.
Qed.

Lemma step_tickets op w e : In e (tickets w) -> In e (tickets (step op w)).
Proof.
  intros H. destruct op as [tr|expected tr|id g tr|epoch tr|tr| | |]; simpl; try done.
  - destruct (reserve_take _ _) as [[]]; simpl; auto.
  - by destruct (begin_at_send _ _ _) as [[] ?].
  - by destruct (existsb _ _).
Qed.

(** A ticket is dead when the registry does not answer or a later request may have acted. *)
Definition dead (w : World) (e : Z) : Prop :=
  ~ answering (inner w) \/
  exists k f, e <= Z.of_nat k /\ fates w !! k = Some (Some f) /\ f <> NotDispatched.

Lemma run_dead ops e : forall w, inv w -> dead w e -> dead (run ops w) e.
Proof.
  induction ops as [|op ops IH]; intros w I D; simpl; [done|]. apply IH; [by apply op_inv|].
  destruct D as [N|(k & f & Hk & Hf & Hn)].
  - left. intros A. by apply step_answering in A.
  - right. exists k, f. split; [done|]. split; [by apply step_fates|done].
Qed.

Lemma dead_revoked w e tr :
  inv w -> In e (tickets w) -> dead w e <-> exists r, fst (check e tr (inner w)) = Revoked r.
Proof.
  intros I Ht. destruct (inv_tickets _ I e Ht) as [[He _] _].
  destruct (check_result w e tr I) as [(An & E)|(Na & r & E)].
  - assert (live (state (inner w))) as V by apply An. pose proof (untouched_iff w e I V He) as U.
    rewrite E. destruct (e <? _) eqn:L.
    + split; [eauto|]. intros _. right. destruct (inv_revoked _ I V) as (R0 & _ & R2).
      apply Z.ltb_lt in L. destruct R2 as (f & Hf & Hr); [lia|]. eexists _, f.
      split; [|split; [exact Hf|by intros ->]]. lia.
    + pose proof (proj1 U eq_refl) as Un. split.
      * intros [N|(k & f & Hk & Hf & Hn)]; [done|]. exfalso.
        destruct (Un k _ Hk Hf) as [[= ->]|P]; [done|].
        apply (inv_pending _ I V), (inv_attempts _ I) in P as [_ P].
        replace (Z.to_nat (Z.of_nat k + 1 - 1)) with k in P by lia. congruence.
      * intros [r Hr]. by destruct (pending _).
  - rewrite E. split; [eauto|]. intros _. by left.
Qed.

(** A revoked ticket stays revoked: nothing that happens later, no settlement, no new
    attempt, no other ticket, makes a take ready again after a manual recording effect that
    may have happened since it was reserved. *)
Theorem revocation_is_permanent tok i ops more e tr tr' r :
  bind tok false = Ok i ->
  In e (tickets (run ops (world i))) ->
  fst (check e tr (inner (run ops (world i)))) = Revoked r ->
  exists r', fst (check e tr' (inner (run more (run ops (world i))))) = Revoked r'.
Proof.
  intros Hb Ht Hr. set (w := run ops (world i)) in *.
  assert (inv w) as I by (by apply history_inv, (world_inv tok)).
  apply dead_revoked; [by apply history_inv| |].
  - clear Hr. clearbody w. revert w I Ht. induction more as [|op more IH]; intros w I Ht; simpl; [done|].
    apply IH; [by apply op_inv|by apply step_tickets].
  - apply run_dead; [done|]. apply (dead_revoked w e tr I Ht). eauto.
Qed.

(** ** A take, a manual stop that was not sent, and one that was *)

Definition sample : Inner :=
  {| token := 7;
     state := {| alive := true; terminal := None; last_id := 0; pending := None;
                 revoked_through := 0; reason := ExternalEffect; revision := 0 |};
     session_closed := false; poisoned := false; owned := true; changed := 0 |}.

Definition unsent : list Op := [Reserve false; Begin 7 false; Finish 1 NotDispatched false].
Definition acted : list Op := unsent ++ [Begin 7 false; Finish 2 Accepted false].

Lemma ticket_check_exact_witness :
  In 0 (tickets (run unsent (world sample))) /\
  answering (inner (run unsent (world sample))) /\
  untouched (run unsent (world sample)) 0 None.
Proof.
  split; [vm_compute; auto|].
  apply (ticket_check_exact 7 sample unsent 0 false); vm_compute; auto.
Defined.

Lemma revocation_is_permanent_witness :
  fst (check 0 false (inner (run acted (world sample)))) = Revoked ExternalEffect /\
  exists r, fst (check 0 true (inner (run [Reserve false; DropOwner] (run acted (world sample))))) =
            Revoked r.
Proof.
  split; [vm_compute; reflexivity|].
  apply (revocation_is_permanent 7 sample acted [Reserve false; DropOwner] 0 false true
           ExternalEffect); vm_compute; auto.
Defined.
