(* ===== verification/Visibility.v ===== *)
(** * Visibility

    Which tools a frontend shows.  [Module Config] holds the two text helpers of
    [native/src/config.rs]; [Module Filter] is the static selection of
    [native/src/tool_filter.rs]; the rest is [native/src/dynamic_visibility.rs]: the contract
    read from the catalogue, the availability of a session, and the groups that can be
    switched while it runs.  Hash sets are only asked for membership: they are lists. *)
From S2P Require Import Prelude Json Text.

Module Config.
Definition trim (value : string) : string := str_of_bytes (trim_bytes js_spaces (bytes_of value)).

Definition enabled (value : string) : bool :=
  one_of (to_ascii_lowercase (trim value)) ["1"; "true"; "yes"]%string.
End Config.
Import Config.

(** [HashSet::insert] over a list: keeps the first occurrences *)
Fixpoint distinct {A} `{EqDecision A} (seen l : list A) : list A :=
  match l with
  | [] => []
  | x :: l => if bool_decide (x ∈ seen) then distinct seen l else x :: distinct (x :: seen) l
  end.

(** [split(',').map(trim).filter(|s| !s.is_empty())] *)
Definition entries (value : option string) : list string :=
  List.filter (fun s => negb (str_is_empty s))
    (map trim (Text.split 44 match value with Some s => s | None => EmptyString end)).

Definition is_true (v : Value) : bool := match v with Bool true => true | _ => false end.
Definition is_text (s : string) (v : Value) : bool :=
  match v with Str t => str_eqb s t | _ => false end.

Definition quote : string := str_of_bytes [34].

Definition unknown_group (name : string) (groups : list string) : string :=
  join "" ["Unknown OBS_MCP_TOOLSETS entry "; quote; name; quote; ". Use all, core, or: ";
           join ", " groups]%string.

Definition unknown_tools (names : list string) : string :=
  join "" ["Unknown OBS_MCP_TOOLS entries: "; join ", " names]%string.

Definition excludes_all : string := "The tool filter excludes every tool".

Definition read_only_hint (tool : Value) : bool :=
  is_true (index "readOnlyHint" (index "annotations" tool)).

(** [values.iter().map(Value::as_str).collect()] *)
Definition texts (v : Value) : option (list string) := as_array v >>? mapM as_str.

Module Filter.
Record ToolFilter := {
  visible : list string;
  tools : list Value
}.

Definition split_list (value : option string) : list string := distinct [] (entries value).

Definition strings (v : Value) : result string (list string) :=
  ok_or (texts v) "Generated toolset metadata is invalid"%string.

(** The names and groups of the catalogue's tools *)
Fixpoint known (tool_groups : list (string * Value)) (known_groups : list string)
  (seen : list (string * string)) (tools : list Value) : result string (list (string * string)) :=
  match tools with
  | [] => Ok seen
  | tool :: rest =>
      let? name := ok_or (as_str (index "name" tool)) "Generated tool name is invalid"%string in
      let? group := ok_or (opt_filter (fun g => one_of g known_groups)
                             (field name tool_groups >>? as_str))
                      "Generated tool group is missing or invalid"%string in
      if one_of name (map fst seen) then Err "Generated tool names are duplicated"%string
      else known tool_groups known_groups (seen ++ [(name, group)]) rest
  end.

Fixpoint select_groups (core_groups known_groups names : list string)
  : result string (list string) :=
  match names with
  | [] => Ok []
  | name :: rest =>
      if str_eqb name "core" then
        let? selected := select_groups core_groups known_groups rest in
        Ok (core_groups ++ selected)
      else if one_of name known_groups then
        let? selected := select_groups core_groups known_groups rest in
        Ok (name :: selected)
      else Err (unknown_group name known_groups)
  end.

(** [known_tools[name]] *)
Fixpoint group_of (name : string) (known_tools : list (string * string)) : string :=
  match known_tools with
  | [] => EmptyString
  | (n, g) :: rest => if str_eqb n name then g else group_of name rest
  end.

Definition name_of (tool : Value) : string :=
  match as_str (index "name" tool) with Some n => n | None => EmptyString end.

Definition parse (get : string -> option string) (catalog : Value) : result string ToolFilter :=
  let metadata := index "toolsets" catalog in
  let? known_groups := strings (index "groups" metadata) in
  let? core_groups := strings (index "coreGroups" metadata) in
  let? tool_groups := ok_or (as_object (index "toolGroups" metadata))
                        "Generated toolset metadata is missing"%string in
  let? tools := ok_or (as_array (index "tools" catalog))
                  "Generated tool catalog is missing"%string in
  let? known_tools := known tool_groups known_groups [] tools in
  if negb (length tool_groups =? length tools)%nat
     || negb (length (distinct [] known_groups) =? length known_groups)%nat
     || existsb (fun g => negb (one_of g known_groups)) core_groups
  then Err "Generated toolset metadata does not match the catalog"%string
  else
    let group_names := split_list (get "OBS_MCP_TOOLSETS"%string) in
    let explicit := split_list (get "OBS_MCP_TOOLS"%string) in
    let read_only := is_some_and (get "OBS_MCP_READ_ONLY"%string) enabled in
    let all := match group_names, explicit with [], [] => true | _, _ => false end
               || one_of "all" group_names in
    let? selected_groups :=
      (if all then Ok [] else select_groups core_groups known_groups group_names) in
    match List.filter (fun n => negb (one_of n (map fst known_tools))) explicit with
    | (_ :: _) as unknown => Err (unknown_tools unknown)
    | [] =>
        let chosen := List.filter (fun tool =>
          (negb read_only || read_only_hint tool)
          && (all || one_of (group_of (name_of tool) known_tools) selected_groups
                  || one_of (name_of tool) explicit)) tools in
        match chosen with
        | [] => Err excludes_all
        | _ => Ok {| visible := map name_of chosen; tools := chosen |}
        end
    end.

Definition includes (f : ToolFilter) (name : string) : bool := one_of name (visible f).

Definition manifest (f : ToolFilter) : Value := object_of [("tools"%string, Array (tools f))].
End Filter.

(** ** The contract *)

Definition CONTROLLERS : list string :=
  ["obs-list-toolsets"; "obs-enable-toolset"; "obs-disable-toolset"]%string.
Definition STREAM : list string :=
  ["obs-start-stream"; "obs-stop-stream"; "obs-toggle-stream"]%string.

Inductive Error :=
| BadContract
| Configuration (message : string)
| UnavailableController
| InvalidArguments.

Record Tool := {
  t_name : string;
  t_group : nat;
  t_read_only : bool
}.

Record Group := {
  g_name : string;
  covers : string
}.

Record Contract := {
  tools : list Tool;
  groups : list Group;
  core : list nat;
  controllers : Value;
  registry_order : list nat
}.

Definition strings (v : Value) : result Error (list string) := ok_or (texts v) BadContract.

Definition find_name (name : string) (names : list string) : option nat :=
  position (fun n => str_eqb n name) names.

Fixpoint groups_of (names : list string) (descriptions : list Value) : result Error (list Group) :=
  match names, descriptions with
  | name :: names, entry :: descriptions =>
      if negb (is_text name (index "group" entry)) then Err BadContract
      else
        let? covers := ok_or (as_str (index "covers" entry)) BadContract in
        let? rest := groups_of names descriptions in
        Ok ({| g_name := name; covers := covers |} :: rest)
  | _, _ => Ok []
  end.

Fixpoint core_of (names : list string) (core : list nat) (wanted : list string)
  : result Error (list nat) :=
  match wanted with
  | [] => Ok core
  | name :: wanted =>
      let? index := ok_or (find_name name names) BadContract in
      if existsb (Nat.eqb index) core then Err BadContract
      else core_of names (core ++ [index]) wanted
  end.

Fixpoint tools_of (names : list string) (assignments : list (string * Value))
  (known : list string) (values : list Value) : result Error (list Tool) :=
  match values with
  | [] => Ok []
  | value :: values =>
      let? name := ok_or (opt_filter (fun n => negb (str_is_empty n)) (as_str (index "name" value)))
                     BadContract in
      if one_of name CONTROLLERS || one_of name known then Err BadContract
      else
        let? group := ok_or (field name assignments >>? as_str >>? (fun g => find_name g names))
                        BadContract in
        let? rest := tools_of names assignments (name :: known) values in
        Ok ({| t_name := name; t_group := group; t_read_only := read_only_hint value |} :: rest)
  end.

Definition known_names (c : Contract) : list string := map t_name (tools c).
Definition group_names (c : Contract) : list string := map g_name (groups c).

Definition from_source (catalog controller : Value) : result Error Contract :=
  let toolsets := index "toolsets" catalog in
  let? names := strings (index "groups" toolsets) in
  if match names with [] => true | _ => false end || existsb str_is_empty names
     || negb (length (distinct [] names) =? length names)%nat
  then Err BadContract
  else
    let? descriptions := ok_or (as_array (index "groups" controller)) BadContract in
    if negb (length descriptions =? length names)%nat then Err BadContract
    else
      let? groups := groups_of names descriptions in
      let? wanted := strings (index "coreGroups" toolsets) in
      let? core := core_of names [] wanted in
      let? assignments := ok_or (as_object (index "toolGroups" toolsets)) BadContract in
      let? values := ok_or (as_array (index "tools" catalog)) BadContract in
      let? tools := tools_of names assignments [] values in
      if negb (length assignments =? length tools)%nat then Err BadContract
      else
        let? registry_names := strings (index "registryOrder" controller) in
        let? registry_order :=
          ok_or (mapM (fun name => find_name name (map t_name tools)) registry_names) BadContract in
        if negb (length registry_order =? length tools)%nat
           || negb (length (distinct [] registry_order) =? length tools)%nat
        then Err BadContract
        else
          let? controllers := ok_or (as_array (index "tools" controller)) BadContract in
          if negb (length controllers =? 3)%nat
             || existsb (fun name =>
                  negb (length (List.filter (fun tool =>
                    is_text name (index "name" tool) && is_object (index "inputSchema" tool))
                    controllers) =? 1)%nat) CONTROLLERS
          then Err BadContract
          else if negb (one_of "general" names) then Err BadContract
          else Ok {| tools := tools; groups := groups; core := core;
                     controllers := Array controllers; registry_order := registry_order |}.

(** ** Availability and settings *)

Inductive CaptureProfile :=
| Standalone
| TakeOrMedia.

Fixpoint availability_new (c : Contract) (names : list string) (profile : CaptureProfile)
  : result Error (list string) :=
  match names with
  | [] => Ok []
  | name :: names =>
      if negb (one_of name (known_names c)) then Err BadContract
      else
        let? admitted := availability_new c names profile in
        Ok (match profile with
            | TakeOrMedia => if one_of name STREAM then admitted else name :: admitted
            | Standalone => name :: admitted
            end)
  end.

Record Settings := {
  s_dynamic : bool;
  toolsets : option string;
  s_tools : option string;
  read_only : bool
}.

Definition settings_parse (get : string -> option string) : Settings :=
  {| s_dynamic := is_some_and (get "OBS_MCP_DYNAMIC_TOOLSETS"%string) enabled;
     toolsets := get "OBS_MCP_TOOLSETS"%string;
     s_tools := get "OBS_MCP_TOOLS"%string;
     read_only := is_some_and (get "OBS_MCP_READ_ONLY"%string) enabled |}.

Record State := {
  available : bool;
  registered : bool;
  enabled : bool
}.

Inductive Effect := VisibilityChanged (name : string) (enabled : bool).

Inductive Projection :=
| CompleteSourceAvailability
| AvailabilityRestricted.

Record Counts := {
  n_known : nat;
  n_available : nat;
  n_registered : nat;
  n_enabled : nat
}.

Record Transition := {
  answer : Value;
  effects : list Effect;
  t_projection : Projection
}.

Record Visibility := {
  contract : Contract;
  states : list State;
  dynamic : bool;
  projection : Projection
}.

(** the loop over the configured groups *)
Fixpoint selected_groups (c : Contract) (names : list string) : result Error (list nat) :=
  match names with
  | [] => Ok []
  | name :: rest =>
      if str_eqb name "core" then
        let? selected := selected_groups c rest in Ok (core c ++ selected)
      else
        match find_name name (group_names c) with
        | Some index => let? selected := selected_groups c rest in Ok (index :: selected)
        | None => Err (Configuration (unknown_group name (group_names c)))
        end
  end.

Definition state_of (available_names : list string) (s : Settings) (all : bool)
  (selected : list nat) (explicit : list string) (tool : Tool) : State :=
  let available := one_of (t_name tool) available_names in
  let allowed := negb (read_only s) || t_read_only tool in
  let chosen := allowed && (all || existsb (Nat.eqb (t_group tool)) selected
                                || one_of (t_name tool) explicit) in
  let registered := available && allowed && (s_dynamic s || chosen) in
  {| available := available; registered := registered; enabled := registered && chosen |}.

(** whether every group is selected, and which ones are otherwise *)
Definition selection (c : Contract) (s : Settings) (group_list explicit : list string)
  : result Error (bool * list nat) :=
  if s_dynamic s && match group_list with [] => true | _ => false end then
    let? general := ok_or (find_name "general" (group_names c)) BadContract in
    Ok (false, [general])
  else if match group_list, explicit with [], [] => true | _, _ => false end
          || one_of "all" group_list then Ok (true, [])
  else let? selected := selected_groups c group_list in Ok (false, selected).

Definition visibility_new (c : Contract) (available_names : list string) (s : Settings)
  : result Error Visibility :=
  if existsb (fun n => negb (one_of n (known_names c))) available_names then Err BadContract
  else
    let group_list := entries (toolsets s) in
    let explicit := distinct [] (entries (s_tools s)) in
    let? selection := selection c s group_list explicit in
    let '(all, selected) := selection in
    match List.filter (fun n => negb (one_of n (known_names c))) explicit with
    | (_ :: _) as unknown => Err (Configuration (unknown_tools unknown))
    | [] =>
        let states := map (state_of available_names s all selected explicit) (tools c) in
        if negb (existsb registered states) then Err (Configuration excludes_all)
        else Ok {| contract := c; states := states; dynamic := s_dynamic s;
                   projection := if forallb available states then CompleteSourceAvailability
                                 else AvailabilityRestricted |}
    end.

(** ** Operations *)

Definition state (v : Visibility) (name : string) : option State :=
  find_name name (known_names (contract v)) >>? (fun i => states v !! i).

Definition tool_at (v : Visibility) (i : nat) : option (Tool * State) :=
  match tools (contract v) !! i, states v !! i with
  | Some t, Some s => Some (t, s)
  | _, _ => None
  end.

Definition registered_names (v : Visibility) : list string :=
  omap (fun i => tool_at v i >>? (fun '(t, s) => if registered s then Some (t_name t) else None))
    (registry_order (contract v)).

Definition enabled_names (v : Visibility) : list string :=
  omap (fun '(t, s) => if enabled s then Some (t_name t) else None)
    (combine (tools (contract v)) (states v)).

Definition controllers_available (v : Visibility) : bool := dynamic v.

Definition in_group (i : nat) (v : Visibility) : list State :=
  omap (fun '(t, s) => if (t_group t =? i)%nat then Some s else None)
    (combine (tools (contract v)) (states v)).

Definition count (p : State -> bool) (l : list State) : nat := length (List.filter p l).

Definition group_facts (v : Visibility) : list (string * Counts) :=
  imap (fun i g =>
    let l := in_group i v in
    (g_name g, {| n_known := length l; n_available := count available l;
                  n_registered := count registered l; n_enabled := count enabled l |}))
    (groups (contract v)).

Definition text_of (n : nat) : string := pretty n.

Definition tool_result (text : string) (fields : list (string * Value)) : Value :=
  object_of [("content"%string,
              Array [object_of [("type"%string, Str "text"); ("text"%string, Str text)]]);
             ("structuredContent"%string, object_of fields)].

(** a row of [list]: the group's name, how many of its registered tools are enabled, how many
    there are, and what it covers *)
Definition rows (v : Visibility) : list (string * nat * nat * string) :=
  omap id (imap (fun i g =>
    match List.filter registered (in_group i v) with
    | [] => None
    | l => Some (g_name g, count enabled l, length l, covers g)
    end) (groups (contract v))).

Definition row_text (r : string * nat * nat * string) : string :=
  let '(g, on, total, covers) := r in
  join "" [if (on =? total)%nat then "on " else if (on =? 0)%nat then "off" else "part";
           " "; g; " ("; text_of on; "/"; text_of total; "): "; covers]%string.

Definition row_value (r : string * nat * nat * string) : Value :=
  let '(g, on, total, covers) := r in
  object_of [("group"%string, Str g); ("enabled"%string, num (Z.of_nat on));
             ("total"%string, num (Z.of_nat total)); ("covers"%string, Str covers)].

Definition newline : string := str_of_bytes [10].

Definition list_ (v : Visibility) : result Error Transition :=
  if negb (dynamic v) then Err UnavailableController
  else
    Ok {| answer := tool_result (join newline (map row_text (rows v)))
                      [("groups"%string, Array (map row_value (rows v)))];
          effects := []; t_projection := projection v |}.

(** One tool of the loop of [set_groups]: its new states, and its name when it changed *)
Definition set_tool (v : Visibility) (wanted : list string) (enable : bool) (i : nat)
  (states : list State) : list State * option string :=
  match tools (contract v) !! i, states !! i with
  | Some tool, Some state =>
      if registered state
         && existsb (fun name => is_some_and (group_names (contract v) !! t_group tool)
                                   (str_eqb name)) wanted
         && negb (Bool.eqb (enabled state) enable)
      then (<[i := {| available := available state; registered := registered state;
                      enabled := enable |}]> states, Some (t_name tool))
      else (states, None)
  | _, _ => (states, None)
  end.

Fixpoint set_tools (v : Visibility) (wanted : list string) (enable : bool) (order : list nat)
  (states : list State) : list State * list string :=
  match order with
  | [] => (states, [])
  | i :: order =>
      let '(states, changed) := set_tool v wanted enable i states in
      let '(states, rest) := set_tools v wanted enable order states in
      (states, match changed with Some name => name :: rest | None => rest end)
  end.

Definition set_groups (wanted : list string) (enable : bool) (v : Visibility)
  : result Error Transition * Visibility :=
  if negb (dynamic v) then (Err UnavailableController, v)
  else if match wanted with [] => true | _ => false end
          || existsb (fun n => negb (one_of n (group_names (contract v)))) wanted
  then (Err InvalidArguments, v)
  else
    let '(states', changed) := set_tools v wanted enable (registry_order (contract v)) (states v) in
    let text :=
      match changed with
      | [] => join "" ["Nothing to change: "; join ", " wanted; " ";
                       if enable then "already on" else "already off"]
      | _ => join "" [if enable then "Enabled" else "Disabled"; " "; text_of (length changed);
                      " tool(s) in "; join ", " wanted; ": "; join ", " changed]
      end%string in
    (Ok {| answer := tool_result text [("groups"%string, Array (map Str wanted));
                                       ("changed"%string, Array (map Str changed))];
           effects := map (fun n => VisibilityChanged n enable) changed;
           t_projection := projection v |},
     {| contract := contract v; states := states'; dynamic := dynamic v;
        projection := projection v |}).

(** ** The contract is well formed *)

Lemma distinct_length {A} `{EqDecision A} (l : list A) : forall seen,
  (length (distinct seen l) <= length l)%nat /\
  (length (distinct seen l) = length l <-> NoDup l /\ forall x, x ∈ l -> x ∉ seen).
Proof.
  induction l as [|x l IH]; intros seen; simpl.
  - split; [done|]. split; [|done]. intros _. split; [constructor|]. by intros x ?%elem_of_nil.
  - case_bool_decide as D.
    + destruct (IH seen) as [L _]. split; [lia|]. split; [lia|].
      intros [_ H]. exfalso. apply (H x); [by left|done].
    + simpl. destruct (IH (x :: seen)) as [L E]. split; [lia|]. split.
      * intros [= H]. apply E in H as [N F]. split.
        -- constructor; [|done]. intros Hx. apply (F x Hx). by left.
        -- intros y [->|Hy]%elem_of_cons; [done|]. intros Hs. apply (F y Hy). by right.
      * intros [[Nx N]%NoDup_cons F]. f_equal. apply E. split; [done|].
        intros y Hy [->|Hs]%elem_of_cons; [done|]. by apply (F y); [right|].
Qed.

Lemma distinct_all {A} `{EqDecision A} (l : list A) :
  length (distinct [] l) = length l <-> NoDup l.
Proof.
  rewrite (proj2 (distinct_length l [])). split; [by intros []|]. intros N. split; [done|].
  intros x _. apply not_elem_of_nil.
Qed.

Lemma find_name_Some name names i :
  find_name name names = Some i -> names !! i = Some name.
Proof. unfold find_name. intros (x & Hx & ->%str_eqb_eq & _)%position_first. done. Qed.

Lemma find_name_None name names : find_name name names = None <-> one_of name names = false.
Proof.
  unfold find_name. rewrite position_None, forallb_forall.
  destruct (one_of name names) eqn:E; split; try done.
  - intros H. apply one_of_In in E. specialize (H name E). by rewrite str_eqb_refl in H.
  - intros _ x Hx. apply negb_true_iff, str_eqb_neq. intros ->.
    apply one_of_In in Hx. congruence.
Qed.

Lemma find_name_NoDup name names i :
  NoDup names -> names !! i = Some name -> find_name name names = Some i.
Proof.
  intros N H. destruct (find_name name names) as [j|] eqn:E.
  - apply find_name_Some in E. f_equal. by apply (NoDup_lookup names j i name).
  - apply find_name_None in E. apply list_elem_of_lookup_2, list_elem_of_In, one_of_In in H. congruence.
Qed.

Record contract_wf (c : Contract) : Prop := {
  wf_groups : NoDup (group_names c);
  wf_tools : NoDup (known_names c);
  wf_tool_group : forall t, In t (tools c) -> (t_group t < length (groups c))%nat;
  wf_order : NoDup (registry_order c);
  wf_order_all : forall i, In i (registry_order c) <-> (i < length (tools c))%nat
}.

Lemma NoDup_indices (l : list nat) n :
  NoDup l -> length l = n -> (forall i, In i l -> (i < n)%nat) -> forall i, (i < n)%nat -> In i l.
Proof.
  intros N L B i Hi.
  assert (incl (seq 0 n) l) as S.
  { apply NoDup_length_incl.
    - by apply NoDup_ListNoDup.
    - rewrite length_seq. lia.
    - intros x Hx. apply in_seq. specialize (B x Hx). lia. }
  apply S, in_seq. lia.
Qed.

Lemma groups_of_names names : forall descriptions gs,
  length descriptions = length names -> groups_of names descriptions = Ok gs -> map g_name gs = names.
Proof.
  induction names as [|n names IH]; intros [|d ds] gs; simpl; try done.
  - by intros _ [= <-].
  - intros [= L]. destruct (negb _); [done|]. intros H. apply bind_result_Ok in H as (cv & _ & H).
    apply bind_result_Ok in H as (rest & R & [= <-]). simpl. f_equal. by apply (IH ds).
Qed.

Lemma core_of_spec names wanted : forall core l,
  core_of names core wanted = Ok l ->
  exists rest, l = core ++ rest /\ Forall2 (fun w i => find_name w names = Some i) wanted rest.
Proof.
  induction wanted as [|w wanted IH]; intros core l; simpl.
  - intros [= <-]. exists []. by rewrite app_nil_r.
  - destruct (find_name w names) as [i|] eqn:F; [|done]. simpl. destruct (existsb _ _); [done|].
    intros (rest & -> & R)%IH. exists (i :: rest). rewrite <- app_assoc. split; [done|]. by constructor.
Qed.

(** What the catalogue says of a tool *)
Definition describes (names : list string) (assignments : list (string * Value)) (v : Value)
  (t : Tool) : Prop :=
  as_str (index "name" v) = Some (t_name t) /\ t_read_only t = read_only_hint v /\
  exists g, field (t_name t) assignments >>? as_str = Some g /\ find_name g names = Some (t_group t).

Lemma tools_of_spec names assignments values : forall known ts,
  tools_of names assignments known values = Ok ts ->
  Forall2 (describes names assignments) values ts /\ NoDup (map t_name ts) /\
  forall n, In n (map t_name ts) -> ~ In n known /\ ~ In n CONTROLLERS.
Proof.
  induction values as [|v values IH]; intros known ts; cbn [tools_of].
  - intros [= <-]. split; [constructor|]. split; [constructor|]. by intros n [].
  - destruct (as_str (index "name" v)) as [n|] eqn:En; [|done]. cbn [opt_filter].
    destruct (negb (str_is_empty n)); [|done]. cbn [ok_or bind_result].
    destruct (one_of n CONTROLLERS) eqn:C; [done|]. destruct (one_of n known) eqn:K; [done|].
    cbn [orb]. destruct (field n assignments) as [fv|] eqn:F; [|done].
    destruct (as_str fv) as [g|] eqn:Fg; [|cbn [and_then]; by rewrite Fg].
    cbn [and_then]. rewrite Fg. cbn [and_then].
    destruct (find_name g names) as [i|] eqn:Fi; [|done]. cbn [ok_or bind_result].
    destruct (tools_of names assignments (n :: known) values) as [rest|] eqn:R; [|done].
    cbn [bind_result]. intros [= <-]. apply IH in R as (D & N & X). split; [|split].
    + constructor; [|done]. split; [done|]. split; [done|]. exists g. simpl. by rewrite F.
    + simpl. constructor; [|done]. rewrite list_elem_of_In. intros H. apply (proj1 (X n H)). by left.
    + intros m [<-|H]; cbn [t_name].
      * rewrite <- !one_of_In, C, K. done.
      * split; [|by apply X]. intros Hk. apply (proj1 (X m H)). by right.
Qed.

(** What an accepted contract says of its two sources *)
Record sourced (catalog : Value) (c : Contract) : Prop := {
  src_wf : contract_wf c;
  src_groups : texts (index "groups" (index "toolsets" catalog)) = Some (group_names c);
  src_nonempty : existsb str_is_empty (group_names c) = false;
  src_core : exists wanted, texts (index "coreGroups" (index "toolsets" catalog)) = Some wanted /\
    Forall2 (fun w i => find_name w (group_names c) = Some i) wanted (core c);
  src_tools : exists assignments values,
    as_object (index "toolGroups" (index "toolsets" catalog)) = Some assignments /\
    as_array (index "tools" catalog) = Some values /\
    length assignments = length values /\
    Forall2 (describes (group_names c) assignments) values (tools c);
  src_general : one_of "general" (group_names c) = true
}.

Lemma mapM_find names wanted l :
  mapM (fun n => find_name n names) wanted = Some l ->
  Forall2 (fun w i => find_name w names = Some i) wanted l.
Proof. by rewrite mapM_Some. Qed.

Lemma from_source_spec catalog controller c :
  from_source catalog controller = Ok c -> sourced catalog c.
Proof.
  unfold from_source, strings. intros H.
  apply bind_result_Ok in H as (names & Hn%ok_or_Ok & H). destruct (_ || _) eqn:E1; [done|].
  apply orb_false_iff in E1 as [E1 N1]. apply orb_false_iff in E1 as [_ E1].
  apply negb_false_iff, Nat.eqb_eq, distinct_all in N1.
  apply bind_result_Ok in H as (ds & _ & H). destruct (negb _) eqn:E2; [done|].
  apply negb_false_iff, Nat.eqb_eq in E2.
  apply bind_result_Ok in H as (gs & Hg%(groups_of_names _ _ _ E2) & H).
  apply bind_result_Ok in H as (wanted & Hw%ok_or_Ok & H).
  apply bind_result_Ok in H as (core & Hc%core_of_spec & H). destruct Hc as (core' & -> & Hc).
  apply bind_result_Ok in H as (assignments & Ha%ok_or_Ok & H).
  apply bind_result_Ok in H as (values & Hv%ok_or_Ok & H).
  apply bind_result_Ok in H as (ts & Ht%tools_of_spec & H). destruct Ht as (Ht & Nt & _).
  destruct (negb _) eqn:E3; [done|]. apply negb_false_iff, Nat.eqb_eq in E3.
  apply bind_result_Ok in H as (rn & _ & H).
  apply bind_result_Ok in H as (order & Ho%ok_or_Ok%mapM_find & H).
  destruct (_ || _) eqn:E4; [done|]. apply orb_false_iff in E4 as [E4 E5].
  apply negb_false_iff, Nat.eqb_eq in E4. apply negb_false_iff, Nat.eqb_eq in E5.
  apply bind_result_Ok in H as (cs & _ & H). destruct (_ || _); [done|].
  destruct (negb _) eqn:E6; [done|]. apply negb_false_iff in E6. injection H as <-.
  assert (forall i, In i order -> (i < length ts)%nat) as B.
  { intros i Hi. apply (Forall2_In_r _ _ _ _ Ho) in Hi as (w & _ & Hi).
    apply find_name_Some, lookup_lt_Some in Hi. by rewrite length_map in Hi. }
  assert (NoDup order) as No by (apply distinct_all; congruence).
  constructor; simpl; try (unfold group_names; simpl; rewrite Hg; done).
  - constructor; unfold group_names, known_names; simpl; try (rewrite Hg; done); try done.
    + intros t Hin. apply (Forall2_In_r _ _ _ _ Ht) in Hin as (v & _ & _ & _ & g & _ & Hi).
      apply find_name_Some, lookup_lt_Some in Hi. by rewrite <- Hg, length_map in Hi.
    + intros i. split; [apply B|]. intros Hi. by apply (NoDup_indices order (length ts)).
  - exists wanted. unfold group_names. simpl. by rewrite Hg.
  - exists assignments, values. unfold group_names. simpl. rewrite Hg. split_and!; try done.
    rewrite E3. by apply Forall2_length in Ht.
Qed.

(** ** Switching groups *)

Definition in_groups (c : Contract) (wanted : list string) (t : Tool) : bool :=
  existsb (fun name => is_some_and (group_names c !! t_group t) (str_eqb name)) wanted.

(** What switching [wanted] to [enable] means for one tool *)
Definition switched (c : Contract) (wanted : list string) (enable : bool) (t : Tool) (s : State)
  : State :=
  if registered s && in_groups c wanted t
  then {| available := available s; registered := registered s; enabled := enable |}
  else s.

Definition switches (c : Contract) (wanted : list string) (enable : bool) (t : Tool) (s : State)
  : bool := registered s && in_groups c wanted t && negb (Bool.eqb (enabled s) enable).

Lemma switched_enabled c wanted enable t s :
  switched c wanted enable t s =
    if switches c wanted enable t s
    then {| available := available s; registered := registered s; enabled := enable |} else s.
Proof.
  unfold switched, switches. destruct (registered s && in_groups c wanted t); [|done]. simpl.
  destruct (Bool.eqb (enabled s) enable) eqn:E; [|done]. apply eqb_prop in E. destruct s. simpl in *.
  by subst.
Qed.

Lemma switches_iff c wanted enable t s :
  switches c wanted enable t s = true <-> enabled (switched c wanted enable t s) <> enabled s.
Proof.
  rewrite switched_enabled. destruct (switches c wanted enable t s) eqn:E; [|done]. simpl.
  unfold switches in E. apply andb_true_iff in E as [_ E]. apply negb_true_iff in E.
  split; [|done]. intros _ ->. by rewrite eqb_reflx in E.
Qed.

Lemma set_tool_eq v wanted enable i states t s :
  tools (contract v) !! i = Some t -> states !! i = Some s ->
  set_tool v wanted enable i states =
    (<[i := switched (contract v) wanted enable t s]> states,
     if switches (contract v) wanted enable t s then Some (t_name t) else None).
Proof.
  intros Ht Hs. unfold set_tool. rewrite Ht, Hs.
  rewrite switched_enabled. unfold switches, in_groups. destruct (_ && _); [done|].
  by rewrite list_insert_id.
Qed.

Lemma omap_ext_In {A B} (f g : A -> option B) l :
  (forall x, In x l -> f x = g x) -> omap f l = omap g l.
Proof.
  intros H. apply list_omap_ext, Forall_Forall2_diag, Forall_forall. intros x Hx. apply H.
  by apply list_elem_of_In.
Qed.

Lemma set_tools_spec v wanted enable order : forall states,
  NoDup order -> length states = length (tools (contract v)) ->
  (forall i, In i order -> (i < length states)%nat) ->
  let '(states', changed) := set_tools v wanted enable order states in
  length states' = length states /\
  (forall i, ~ In i order -> states' !! i = states !! i) /\
  (forall i t s, In i order -> tools (contract v) !! i = Some t -> states !! i = Some s ->
     states' !! i = Some (switched (contract v) wanted enable t s)) /\
  changed = omap (fun i => match tools (contract v) !! i, states !! i with
                           | Some t, Some s => if switches (contract v) wanted enable t s
                                               then Some (t_name t) else None
                           | _, _ => None
                           end) order.
Proof.
  induction order as [|i order IH]; intros states N L B; simpl; [done|].
  apply NoDup_cons in N as [Ni N]. rewrite list_elem_of_In in Ni.
  destruct (lookup_lt_is_Some_2 states i) as [s Hs]; [apply B; by left|].
  destruct (lookup_lt_is_Some_2 (tools (contract v)) i) as [t Ht]; [rewrite <- L; apply B; by left|].
  rewrite (set_tool_eq _ _ _ _ _ _ _ Ht Hs), Ht, Hs.
  set (states1 := <[i := _]> states).
  assert (length states1 = length states) as L1 by apply length_insert.
  specialize (IH states1 N ltac:(lia)). destruct (set_tools _ _ _ order states1) as [states' rest].
  destruct IH as (L' & Out & Inn & ->); [intros j Hj; rewrite L1; apply B; by right|].
  split; [lia|]. split; [|split].
  - intros j Hj. rewrite Out by tauto. apply list_lookup_insert_ne. naive_solver.
  - intros j t' s' [<-|Hj] Ht' Hs'.
    + rewrite Out by done. rewrite Ht in Ht'. rewrite Hs in Hs'. injection Ht' as <-. injection Hs' as <-.
      apply list_lookup_insert_eq. by eapply lookup_lt_Some.
    + apply Inn; [done..|]. unfold states1. rewrite list_lookup_insert_ne; [done|]. naive_solver.
  - assert (forall j, In j order -> states1 !! j = states !! j) as Same.
    { intros j Hj. apply list_lookup_insert_ne. naive_solver. }
    rewrite (omap_ext_In _ (fun i => match tools (contract v) !! i, states !! i with
      | Some t, Some s => if switches (contract v) wanted enable t s then Some (t_name t) else None
      | _, _ => None end) order); [by destruct (switches _ _ _ _ _)|].
    intros j Hj. by rewrite Same.
Qed.

Record visibility_wf (v : Visibility) : Prop := {
  wf_contract : contract_wf (contract v);
  wf_states : length (states v) = length (tools (contract v));
  wf_enabled : Forall (fun s => (enabled s = true -> registered s = true) /\
                                (registered s = true -> available s = true)) (states v)
}.

(** the states of a switch, on its own *)
Definition switch_states (v : Visibility) (wanted : list string) (enable : bool) : list State :=
  map (fun '(t, s) => switched (contract v) wanted enable t s) (combine (tools (contract v)) (states v)).

Definition announced (v : Visibility) (wanted : list string) (enable : bool) : list string :=
  omap (fun i => tool_at v i >>? (fun '(t, s) =>
    if bool_decide (enabled (switched (contract v) wanted enable t s) = enabled s)
    then None else Some (t_name t))) (registry_order (contract v)).

Lemma set_groups_spec v wanted enable :
  visibility_wf v -> dynamic v = true -> wanted <> [] ->
  forallb (fun n => one_of n (group_names (contract v))) wanted = true ->
  exists t, set_groups wanted enable v =
    (Ok t, {| contract := contract v; states := switch_states v wanted enable;
              dynamic := dynamic v; projection := projection v |}) /\
    effects t = map (fun n => VisibilityChanged n enable) (announced v wanted enable).
Proof.
  intros [C L _] D NE K. unfold set_groups. rewrite D. simpl negb.
  replace (match wanted with [] => true | _ :: _ => false end) with false by (by destruct wanted).
  replace (existsb _ wanted) with false; cycle 1.
  { symmetry. apply existsb_none. intros x Hx. rewrite forallb_forall in K. by rewrite K. }
  cbn [orb].
  pose proof (set_tools_spec v wanted enable (registry_order (contract v)) (states v)
    (wf_order _ C) L) as S.
  destruct (set_tools _ _ _ _ _) as [states' changed].
  destruct S as (L' & _ & Inn & Ch); [intros i Hi; rewrite L; by apply (wf_order_all _ C)|].
  assert (states' = switch_states v wanted enable) as ->.
  { apply list_eq. intros i. unfold switch_states. rewrite (list_lookup_fmap _ (combine _ _)).
    destruct (states v !! i) as [s|] eqn:Es.
    - pose proof (lookup_lt_Some _ _ _ Es) as Li. rewrite L in Li.
      destruct (lookup_lt_is_Some_2 _ _ Li) as [t Et].
      rewrite (Inn i t s); [|by apply (wf_order_all _ C)|done|done].
      assert (combine (tools (contract v)) (states v) !! i = Some (t, s)) as ->; [|done].
      apply lookup_zip_with_Some. eauto.
    - apply lookup_ge_None in Es. rewrite lookup_ge_None_2 by lia. symmetry.
      rewrite lookup_ge_None_2; [done|]. rewrite length_combine. lia. }
  eexists. split; [reflexivity|]. simpl. f_equal. rewrite Ch. unfold announced, tool_at.
  apply omap_ext_In. intros i _.
  destruct (tools (contract v) !! i) as [t|]; [|done]. destruct (states v !! i) as [s|]; [|done]. simpl.
  pose proof (switches_iff (contract v) wanted enable t s) as Sw.
  destruct (switches _ _ _ _ _); case_bool_decide as B; try done; [by apply Sw in B|].
  destruct B. apply dec_stable. intros B. by apply Sw in B.
Qed.

Lemma switched_registered c wanted enable t s :
  registered (switched c wanted enable t s) = registered s /\
  available (switched c wanted enable t s) = available s /\
  (enabled (switched c wanted enable t s) = true -> registered s = true \/ enabled s = true).
Proof.
  unfold switched. destruct (registered s && _) eqn:E; [|tauto]. simpl.
  apply andb_true_iff in E as [-> _]. tauto.
Qed.

Lemma length_switch_states v wanted enable :
  visibility_wf v -> length (switch_states v wanted enable) = length (states v).
Proof. intros [_ L _]. unfold switch_states. rewrite length_map, length_combine, L. lia. Qed.

Lemma switch_states_lookup v wanted enable i t s :
  tools (contract v) !! i = Some t -> states v !! i = Some s ->
  switch_states v wanted enable !! i = Some (switched (contract v) wanted enable t s).
Proof.
  intros Ht Hs. unfold switch_states. rewrite (list_lookup_fmap _ (combine _ _)).
  assert (combine (tools (contract v)) (states v) !! i = Some (t, s)) as ->; [|done].
  apply lookup_zip_with_Some. eauto.
Qed.

Lemma switch_wf v wanted enable :
  visibility_wf v ->
  visibility_wf {| contract := contract v; states := switch_states v wanted enable;
                   dynamic := dynamic v; projection := projection v |}.
Proof.
  intros W. pose proof (length_switch_states v wanted enable W) as L. destruct W as [C Ls F].
  constructor; simpl; [done|congruence|]. unfold switch_states. apply Forall_map, Forall_forall.
  intros [t s] Hin%list_elem_of_In%in_combine_r.
  rewrite Forall_forall in F. specialize (F s ltac:(by apply list_elem_of_In)).
  destruct (switched_registered (contract v) wanted enable t s) as (-> & -> & E). tauto.
Qed.

(** The tools whose visibility differs between [v] and [v'], in registry order *)
Definition changed_names (v v' : Visibility) : list string :=
  omap (fun i =>
    match tool_at v i, tool_at v' i with
    | Some (t, s), Some (_, s') =>
        if bool_decide (enabled s' = enabled s) then None else Some (t_name t)
    | _, _ => None
    end) (registry_order (contract v)).

Lemma announced_changed v wanted enable v' :
  contract v' = contract v -> states v' = switch_states v wanted enable ->
  announced v wanted enable = changed_names v v'.
Proof.
  intros C S. apply omap_ext_In. intros i _. unfold tool_at. rewrite C, S.
  destruct (tools (contract v) !! i) as [t|] eqn:Et; [|done].
  destruct (states v !! i) as [s|] eqn:Es; [|done].
  by rewrite (switch_states_lookup v wanted enable i t s).
Qed.

(** Switching groups does exactly what it says: it refuses without effect when groups are
    fixed, and when the request is empty or names an unknown group; otherwise every
    registered tool of a named group is enabled or disabled and every other tool is left
    alone, and the effects announced are the tools whose visibility really changed, each
    once, in registry order. *)
Theorem set_groups_exact v wanted enable :
  visibility_wf v ->
  match set_groups wanted enable v with
  | (Err e, v') =>
      v' = v /\ ((e = UnavailableController /\ dynamic v = false) \/
                 (e = InvalidArguments /\
                  (wanted = [] \/ exists n, In n wanted /\ ~ In n (group_names (contract v)))))
  | (Ok t, v') =>
      dynamic v = true /\ visibility_wf v' /\ contract v' = contract v /\
      (forall i tool s, tools (contract v) !! i = Some tool -> states v !! i = Some s ->
         states v' !! i = Some (switched (contract v) wanted enable tool s)) /\
      effects t = map (fun n => VisibilityChanged n enable) (changed_names v v') /\
      NoDup (changed_names v v')
  end.
Proof.
  intros W. destruct (dynamic v) eqn:D; [|unfold set_groups; rewrite D; simpl; auto].
  destruct (decide (wanted = [])) as [->|NE]; [unfold set_groups; rewrite D; simpl; auto|].
  destruct (forallb (fun n => one_of n (group_names (contract v))) wanted) eqn:K.
  - destruct (set_groups_spec v wanted enable W D NE K) as (t & -> & E).
    split; [done|]. split; [by apply switch_wf|]. split; [done|]. split; [|split].
    + intros i tool s. apply switch_states_lookup.
    + rewrite E. f_equal. by apply announced_changed.
    + unfold changed_names. destruct W as [C _ _].
      pose proof (wf_tools _ C) as Nt. pose proof (wf_order _ C) as No.
      clear -Nt No. induction (registry_order (contract v)) as [|i l IH]; [constructor|].
      apply NoDup_cons in No as [Ni No]. specialize (IH No). cbn.
      match goal with |- context [match ?x with _ => _ end] => destruct x as [n|] eqn:E end; [|done].
      constructor; [|done]. intros (j & Hj & Ej)%list_elem_of_omap.
      unfold tool_at in E, Ej. unfold known_names in Nt. simpl in E, Ej.
      destruct (tools (contract v) !! i) as [t1|] eqn:E1; [|done].
      destruct (tools (contract v) !! j) as [t2|] eqn:E2; [|done].
      assert (t_name t1 = n) as N1 by (repeat case_match; simplify_eq; done).
      assert (t_name t2 = n) as N2 by (repeat case_match; simplify_eq; done).
      apply Ni. replace i with j; [done|].
      apply (NoDup_lookup (map t_name (tools (contract v))) j i n Nt);
        rewrite (list_lookup_fmap t_name); [rewrite E2|rewrite E1]; simpl; congruence.
  - unfold set_groups. rewrite D. simpl negb.
    assert (existsb (fun n => negb (one_of n (group_names (contract v)))) wanted = true) as X.
    { apply existsb_exists. apply not_true_iff_false in K. rewrite forallb_forall in K.
      destruct (existsb (fun n => negb (one_of n (group_names (contract v)))) wanted) eqn:Y;
        [by apply existsb_exists in Y|].
      exfalso. apply K. intros x Hx. destruct (one_of x _) eqn:O; [done|].
      assert (existsb (fun n => negb (one_of n (group_names (contract v)))) wanted = true); [|congruence].
      apply existsb_exists. exists x. by rewrite O. }
    rewrite X, orb_true_r. split; [done|]. right. split; [done|]. right.
    apply existsb_exists in X as (n & Hn & Hk). exists n. split; [done|].
    rewrite <- one_of_In. by apply negb_true_iff in Hk as ->.
Qed.

(** ** What may ever be enabled *)

Lemma availability_spec c names profile : forall av,
  availability_new c names profile = Ok av ->
  forall n, In n av <-> In n names /\ (profile = TakeOrMedia -> ~ In n STREAM).
Proof.
  induction names as [|m names IH]; intros av; cbn [availability_new].
  - intros [= <-] n. simpl. tauto.
  - pose proof (one_of_In m STREAM) as S. set (stream := STREAM) in *. clearbody stream.
    destruct (negb _); [done|]. intros H. apply bind_result_Ok in H as (l & Hl & [= <-]).
    intros n. specialize (IH l Hl n).
    assert (In n (m :: names) <-> m = n \/ In n names) as -> by done.
    assert (forall l', In n (m :: l') <-> m = n \/ In n l') as E by done.
    destruct profile; [|destruct (one_of m stream)]; rewrite ?E, ?IH.
    + split; [|tauto]. intros [->|[Hn _]]; (split; [tauto|done]).
    + split; [tauto|]. intros [[->|Hn] Ns]; [|tauto]. destruct (Ns eq_refl). by apply S.
    + split; [|tauto]. intros [->|Hn]; [|tauto]. split; [by left|]. by intros _ Hs%S.
Qed.

Definition play (switches : list (list string * bool)) (v : Visibility) : Visibility :=
  fold_left (fun v '(wanted, enable) => snd (set_groups wanted enable v)) switches v.

(** Two states that differ in [enabled] only, and not beyond what is registered *)
Definition bounded_by (s s' : State) : Prop :=
  registered s' = registered s /\ available s' = available s /\
  (enabled s' = true -> registered s = true).

Lemma play_bounded switches : forall v,
  visibility_wf v ->
  visibility_wf (play switches v) /\ contract (play switches v) = contract v /\
  (dynamic v = false -> play switches v = v) /\
  forall i s', states (play switches v) !! i = Some s' ->
    exists s, states v !! i = Some s /\ bounded_by s s'.
Proof.
  induction switches as [|[wanted enable] switches IH]; intros v W; simpl.
  - split_and!; try done. intros i s' H. exists s'. split; [done|]. split_and!; try done.
    intros E. destruct W as [_ _ F]. apply (Forall_lookup_1 _ _ _ _ F H), E.
  - pose proof (set_groups_exact v wanted enable W) as S.
    destruct (set_groups wanted enable v) as [[t|e] v1]; simpl.
    + destruct S as (D & W1 & C1 & S1 & _). destruct (IH v1 W1) as (W' & C' & D' & B).
      split_and!; [done|congruence|congruence|].
      intros i s' H. destruct (B i s' H) as (s1 & H1 & (R1 & A1 & E1)).
      destruct (lookup_lt_is_Some_2 (tools (contract v)) i) as [tool Ht].
      { rewrite <- C1, <- (wf_states _ W1). by eapply lookup_lt_Some. }
      destruct (lookup_lt_is_Some_2 (states v) i) as [s Hs].
      { rewrite (wf_states _ W). by eapply lookup_lt_Some. }
      rewrite (S1 i tool s Ht Hs) in H1. injection H1 as <-. exists s. split; [done|].
      destruct (switched_registered (contract v) wanted enable tool s) as (R & A & _).
      rewrite R, A in *. by split_and!.
    + destruct S as [-> _]. by apply IH.
Qed.

Lemma visibility_new_spec c av s v :
  visibility_new c av s = Ok v ->
  contract v = c /\ dynamic v = s_dynamic s /\ exists all selected explicit,
    states v = map (state_of av s all selected explicit) (tools c).
Proof.
  unfold visibility_new. destruct (existsb _ av); [done|].
  intros H. apply bind_result_Ok in H as ([all selected] & _ & H). cbv zeta in H.
  destruct (List.filter _ _); [|done].
  destruct (negb _); [done|]. injection H as <-. split; [done|]. split; [done|].
  by exists all, selected, (distinct [] (entries (s_tools s))).
Qed.

Lemma state_of_bounds av s all selected explicit t :
  let st := state_of av s all selected explicit t in
  (enabled st = true -> registered st = true) /\
  (registered st = true -> available st = true /\ In (t_name t) av /\
     (read_only s = true -> t_read_only t = true)).
Proof.
  simpl. rewrite !andb_true_iff, orb_true_iff, negb_true_iff. split; [tauto|].
  intros [[A B] _]. apply one_of_In in A as A'. rewrite A. split; [done|]. split; [done|].
  intros R. rewrite R in B. by destruct B.
Qed.

Lemma visibility_new_wf catalog controller c av s v :
  from_source catalog controller = Ok c -> visibility_new c av s = Ok v -> visibility_wf v.
Proof.
  intros Hc%from_source_spec (E & _ & all & sel & ex & S)%visibility_new_spec.
  constructor; rewrite ?E, ?S.
  - apply Hc.
  - apply length_map.
  - apply Forall_map, Forall_forall. intros t _.
    destruct (state_of_bounds av s all sel ex t) as [A B]. split; [exact A|]. intros R. by apply B.
Qed.

(** However the groups are switched while a session runs, a tool that is enabled is one the
    session was given, is never a stream control in a session that queues takes or media, and
    is read-only when the settings ask for that; with fixed groups nothing ever changes. *)
Theorem enabled_tools_are_permitted catalog controller c names profile av s v switches name st :
  from_source catalog controller = Ok c -> availability_new c names profile = Ok av ->
  visibility_new c av s = Ok v ->
  state (play switches v) name = Some st ->
  (enabled st = true ->
   In name names /\ (profile = TakeOrMedia -> ~ In name STREAM) /\
   exists t, In t (tools c) /\ t_name t = name /\ (read_only s = true -> t_read_only t = true)) /\
  (s_dynamic s = false -> play switches v = v).
Proof.
  intros Hc Ha Hv Hs. pose proof (visibility_new_wf _ _ _ _ _ _ Hc Hv) as W.
  destruct (visibility_new_spec _ _ _ _ Hv) as (Ec & Ed & all & sel & ex & Es).
  destruct (play_bounded switches v W) as (_ & Cp & Dp & B).
  split; [|by rewrite <- Ed]. unfold state in Hs. rewrite Cp, Ec in Hs. intros En.
  destruct (find_name name (known_names c)) as [i|] eqn:F; [|done]. simpl in Hs.
  destruct (B i st Hs) as (s0 & H0 & (R & _ & E)). specialize (E En).
  rewrite Es, (list_lookup_fmap _ (tools c)) in H0.
  apply find_name_Some in F. unfold known_names in F. rewrite (list_lookup_fmap t_name) in F.
  destruct (tools c !! i) as [t|] eqn:Et; [|done]. simpl in F, H0. injection F as <-.
  injection H0 as <-. destruct (state_of_bounds av s all sel ex t) as [_ Sb].
  destruct (Sb E) as (_ & Hin & Ro). apply (availability_spec _ _ _ _ Ha) in Hin as [Hn Hp].
  split; [done|]. split; [done|]. exists t. split; [|done].
  apply list_elem_of_In. by eapply list_elem_of_lookup_2.
Qed.

(** ** The two selections agree *)

Lemma find_distinct (p : string -> bool) l : forall seen,
  (forall x, x ∈ seen -> p x = false) -> List.find p (distinct seen l) = List.find p l.
Proof.
  induction l as [|x l IH]; intros seen H; simpl; [done|]. case_bool_decide as D.
  - rewrite (H x D). by apply IH.
  - simpl. destruct (p x) eqn:P; [done|]. apply IH. intros y [->|Hy]%elem_of_cons; auto.
Qed.

Lemma in_distinct (l : list string) : forall seen x,
  In x (distinct seen l) <-> In x l /\ x ∉ seen.
Proof.
  induction l as [|y l IH]; intros seen x; simpl; [tauto|]. case_bool_decide as D.
  - rewrite IH. split; [tauto|]. intros [[->|H] N]; [done|tauto].
  - simpl. rewrite IH, not_elem_of_cons. destruct (decide (x = y)) as [->|Nx].
    + split; [|auto]. intros _. split; [by left|done].
    + split; [intros [->|[H [_ N]]]; [done|auto]|]. intros [[->|H] N]; [done|auto].
Qed.

Lemma distinct_nil (l : list string) : distinct [] l = [] <-> l = [].
Proof. by destruct l. Qed.

Lemma one_of_ext x l l' : (In x l <-> In x l') -> one_of x l = one_of x l'.
Proof. rewrite <- !one_of_In. destruct (one_of x l), (one_of x l'); naive_solver. Qed.

Definition bad_group (groups : list string) (n : string) : bool :=
  negb (str_eqb n "core") && negb (one_of n groups).

Lemma select_groups_spec core_groups groups l :
  match List.find (bad_group groups) l with
  | Some n => Filter.select_groups core_groups groups l = Err (unknown_group n groups)
  | None => exists sel, Filter.select_groups core_groups groups l = Ok sel /\
      forall g, In g sel <-> (In "core"%string l /\ In g core_groups) \/
                             (In g l /\ g <> "core"%string)
  end.
Proof.
  induction l as [|n l IH]; simpl; [exists []; split; [done|]; intros g; simpl; tauto|].
  unfold bad_group at 1. destruct (str_eqb n "core") eqn:C; simpl.
  - apply str_eqb_eq in C as ->. destruct (List.find _ l) as [b|]; [by rewrite IH|].
    destruct IH as (sel & -> & S). simpl. eexists. split; [done|]. intros g. rewrite in_app_iff, S.
    naive_solver.
  - apply str_eqb_neq in C. destruct (one_of n groups) eqn:K; simpl; [|done].
    destruct (List.find _ l) as [b|]; [by rewrite IH|].
    destruct IH as (sel & -> & S). simpl. eexists. split; [done|]. intros g. simpl. rewrite S.
    naive_solver.
Qed.

Lemma selected_groups_spec c l :
  match List.find (bad_group (group_names c)) l with
  | Some n => selected_groups c l = Err (Configuration (unknown_group n (group_names c)))
  | None => exists sel, selected_groups c l = Ok sel /\
      forall i, In i sel <-> (In "core"%string l /\ In i (core c)) \/
        (exists n, In n l /\ n <> "core"%string /\ find_name n (group_names c) = Some i)
  end.
Proof.
  induction l as [|n l IH]; simpl; [exists []; split; [done|]; intros i; simpl; naive_solver|].
  unfold bad_group at 1. destruct (str_eqb n "core") eqn:C; simpl.
  - apply str_eqb_eq in C as ->. destruct (List.find _ l) as [b|]; [by rewrite IH|].
    destruct IH as (sel & -> & S). simpl. eexists. split; [done|]. intros i. rewrite in_app_iff, S.
    naive_solver.
  - apply str_eqb_neq in C. destruct (find_name n (group_names c)) as [j|] eqn:F.
    + assert (one_of n (group_names c) = true) as K.
      { apply not_false_iff_true. intros K. apply find_name_None in K. congruence. }
      rewrite K. simpl. destruct (List.find _ l) as [b|]; [by rewrite IH|].
      destruct IH as (sel & -> & S). simpl. eexists. split; [done|]. intros i. simpl. rewrite S.
      naive_solver.
    + apply find_name_None in F as ->. done.
Qed.

Definition name_of_group (c : Contract) (t : Tool) : string :=
  match group_names c !! t_group t with Some g => g | None => EmptyString end.

Lemma describes_group c assignments v t :
  describes (group_names c) assignments v t ->
  field (t_name t) assignments >>? as_str = Some (name_of_group c t) /\
  find_name (name_of_group c t) (group_names c) = Some (t_group t) /\
  one_of (name_of_group c t) (group_names c) = true.
Proof.
  intros (_ & _ & g & Hg & Hi). pose proof (find_name_Some _ _ _ Hi) as Hl.
  unfold name_of_group. rewrite Hl. split_and!; try done.
  apply one_of_In, list_elem_of_In. by eapply list_elem_of_lookup_2.
Qed.

Lemma known_spec c assignments values ts :
  Forall2 (describes (group_names c) assignments) values ts ->
  forall seen, NoDup (map fst seen ++ map t_name ts) ->
  Filter.known assignments (group_names c) seen values =
    Ok (seen ++ map (fun t => (t_name t, name_of_group c t)) ts).
Proof.
  induction 1 as [|v t values ts D _ IH]; intros seen N; cbn [Filter.known map].
  - by rewrite app_nil_r.
  - pose proof (describes_group c assignments v t D) as (Hf & _ & Ho). destruct D as (Hn & _).
    rewrite Hn. cbn [ok_or bind_result]. rewrite Hf. cbn [opt_filter]. rewrite Ho.
    cbn [ok_or bind_result].
    destruct (one_of (t_name t) (map fst seen)) eqn:K.
    { apply one_of_In, list_elem_of_In in K. apply NoDup_app in N as (_ & N & _).
      destruct (N _ K). simpl. by left. }
    rewrite IH; [by rewrite <- app_assoc|]. rewrite map_app. simpl. by rewrite <- app_assoc.
Qed.

Lemma group_of_spec c ts t :
  NoDup (map t_name ts) -> In t ts ->
  Filter.group_of (t_name t) (map (fun t => (t_name t, name_of_group c t)) ts) = name_of_group c t.
Proof.
  induction ts as [|x ts IH]; simpl; [done|]. intros [Nx N]%NoDup_cons [->|H].
  - by rewrite str_eqb_refl.
  - destruct (str_eqb (t_name x) (t_name t)) eqn:E; [|by apply IH].
    apply str_eqb_eq in E. destruct Nx. rewrite E. apply list_elem_of_In. by apply in_map.
Qed.

Lemma filter_names names assignments (p : Value -> bool) (q : Tool -> bool) values ts :
  Forall2 (describes names assignments) values ts ->
  (forall v t, In t ts -> describes names assignments v t -> p v = q t) ->
  map Filter.name_of (List.filter p values) = map t_name (List.filter q ts).
Proof.
  induction 1 as [|v t values ts D _ IH]; intros E; [done|]. simpl.
  assert (map Filter.name_of (List.filter p values) = map t_name (List.filter q ts)) as R.
  { apply IH. intros w x Hx. apply E. by right. }
  rewrite (E v t); [|by left|done]. destruct (q t); simpl; [|done]. f_equal; [|done].
  unfold Filter.name_of. by destruct D as (-> & _).
Qed.

Lemma combine_names (f : Tool -> State) ts :
  omap (fun '(t, s) => if enabled s then Some (t_name t) else None) (combine ts (map f ts)) =
  map t_name (List.filter (fun t => enabled (f t)) ts).
Proof.
  induction ts as [|t ts IH]; [done|]. simpl. destruct (enabled (f t)); simpl; by rewrite <- IH.
Qed.

(** With the same configuration the two selections take the same branch. *)
Lemma selections_agree c wanted s group_list explicit :
  contract_wf c -> Forall2 (fun w i => find_name w (group_names c) = Some i) wanted (core c) ->
  s_dynamic s = false ->
  let all := match distinct [] group_list, explicit with [], [] => true | _, _ => false end
             || one_of "all" (distinct [] group_list) in
  match (if all then Ok [] else
           Filter.select_groups wanted (group_names c) (distinct [] group_list)),
        selection c s group_list explicit with
  | Ok names, Ok (all', indices) =>
      all' = all /\ forall t, In t (tools c) ->
        (all || one_of (name_of_group c t) names) = (all || existsb (Nat.eqb (t_group t)) indices)
  | Err m, Err (Configuration m') => m = m'
  | _, _ => False
  end.
Proof.
  intros W Hc D all. unfold selection. rewrite D. cbn [andb].
  assert (all = match group_list, explicit with [], [] => true | _, _ => false end
                || one_of "all" group_list) as <-.
  { unfold all. f_equal.
    - pose proof (distinct_nil group_list). destruct group_list, (distinct [] _); naive_solver.
    - apply one_of_ext. rewrite in_distinct. split; [tauto|]. intros H. split; [done|].
      apply not_elem_of_nil. }
  destruct all; [done|].
  pose proof (select_groups_spec wanted (group_names c) (distinct [] group_list)) as F.
  pose proof (selected_groups_spec c group_list) as V.
  rewrite find_distinct in F by (by intros x ?%elem_of_nil).
  destruct (List.find _ group_list) as [b|]; [by rewrite F, V|].
  destruct F as (names & -> & F). destruct V as (indices & -> & V). simpl. split; [done|].
  intros t Ht. apply (wf_tool_group _ W) in Ht as Hg.
  destruct (lookup_lt_is_Some_2 (group_names c) (t_group t)) as [g Hl].
  { unfold group_names. by rewrite length_map. }
  unfold name_of_group. rewrite Hl.
  pose proof (find_name_NoDup _ _ _ (wf_groups _ W) Hl) as Hi.
  apply Bool.eq_iff_eq_true. rewrite one_of_In, existsb_exists, F.
  setoid_rewrite Nat.eqb_eq. rewrite !in_distinct.
  assert (forall x : string, x ∉ []) as No by (intros; apply not_elem_of_nil).
  assert (In g wanted <-> In (t_group t) (core c)) as Cg.
  { split; intros H.
    - apply (Forall2_In_l _ _ _ _ Hc) in H as (i & Hin & E). congruence.
    - apply (Forall2_In_r _ _ _ _ Hc) in H as (w & Hin & E). apply find_name_Some in E. congruence. }
  split.
  - intros H. exists (t_group t). split; [|done]. apply V. rewrite <- Cg.
    destruct H as [[[H _] Hw]|[[H _] Hn]]; [by left|]. right. eauto.
  - intros (i & H & <-). apply V in H as [[H Hw]|(n & H & Hn & E)].
    + left. rewrite Cg. done.
    + right. apply find_name_Some in E. assert (n = g) as -> by congruence. done.
Qed.

(** What the settings choose when every tool is available and groups are fixed *)
Definition chosen (s : Settings) (all : bool) (indices : list nat) (explicit : list string)
  (t : Tool) : bool :=
  (negb (read_only s) || t_read_only t)
  && (all || existsb (Nat.eqb (t_group t)) indices || one_of (t_name t) explicit).

Lemma static_states c s all indices explicit :
  s_dynamic s = false ->
  map (state_of (known_names c) s all indices explicit) (tools c) =
  map (fun t => {| available := true; registered := chosen s all indices explicit t;
                   enabled := chosen s all indices explicit t |}) (tools c).
Proof.
  intros D. apply map_ext_in. intros t Ht. unfold state_of. rewrite D.
  assert (one_of (t_name t) (known_names c) = true) as ->.
  { apply one_of_In. by apply in_map. }
  unfold chosen. f_equal; destruct (_ || t_read_only t), (_ || one_of (t_name t) explicit); done.
Qed.

Lemma chosen_registered (q : Tool -> bool) ts :
  existsb registered (map (fun t => {| available := true; registered := q t; enabled := q t |}) ts) =
  match map t_name (List.filter q ts) with [] => false | _ :: _ => true end.
Proof. induction ts as [|t ts IH]; [done|]. simpl. by destruct (q t). Qed.

(** With fixed groups and every tool available, the static filter and the visibility
    contract are the same selection: for any configuration they show the same tools in the
    same order, or refuse with the same message. *)
Theorem static_visibility_is_tool_filter catalog controller c get :
  from_source catalog controller = Ok c ->
  s_dynamic (settings_parse get) = false ->
  match Filter.parse get catalog, visibility_new c (known_names c) (settings_parse get) with
  | Ok f, Ok v => Filter.visible f = enabled_names v
  | Err m, Err (Configuration m') => m = m'
  | _, _ => False
  end.
Proof.
  intros Hc D. apply from_source_spec in Hc as [W Hg _ (wanted & Hw & Fw) (asg & vals & Ha & Hv & L & Ft) _].
  unfold Filter.parse, Filter.strings. rewrite Hg, Hw, Ha, Hv. cbn [ok_or bind_result].
  rewrite (known_spec c asg vals (tools c) Ft [] (wf_tools _ W)). cbn [bind_result app].
  rewrite L, Nat.eqb_refl. rewrite (proj2 (distinct_all _) (wf_groups _ W)), Nat.eqb_refl.
  rewrite existsb_none; cycle 1.
  { intros x Hx. apply (Forall2_In_l _ _ _ _ Fw) in Hx as (i & _ & Hi).
    apply negb_false_iff, one_of_In, list_elem_of_In.
    apply find_name_Some in Hi. by eapply list_elem_of_lookup_2. }
  cbn [negb orb]. cbv zeta. unfold Filter.split_list, visibility_new.
  rewrite existsb_none; cycle 1.
  { intros x Hx. by apply negb_false_iff, one_of_In. }
  set (gl := entries (toolsets (settings_parse get))).
  set (ex := distinct [] (entries (s_tools (settings_parse get)))).
  change (entries (get "OBS_MCP_TOOLSETS"%string)) with gl.
  change (distinct [] (entries (get "OBS_MCP_TOOLS"%string))) with ex.
  change (is_some_and (get "OBS_MCP_READ_ONLY"%string) Config.enabled)
    with (read_only (settings_parse get)).
  pose proof (selections_agree c wanted (settings_parse get) gl ex W Fw D) as S. cbv zeta in S.
  set (all := match distinct [] gl, ex with [], [] => true | _, _ => false end
              || one_of "all" (distinct [] gl)) in *.
  destruct (if all then Ok [] else Filter.select_groups wanted (group_names c) (distinct [] gl))
    as [names|m]; destruct (selection c (settings_parse get) gl ex) as [[all' indices]|e]; try done.
  destruct S as [-> S]. cbn [bind_result].
  rewrite (map_map (fun t => (t_name t, name_of_group c t)) fst).
  change (map (fun x => fst (t_name x, name_of_group c x)) (tools c)) with (known_names c).
  destruct (List.filter _ ex) as [|u us]; [|done].
  rewrite static_states by done. set (q := chosen (settings_parse get) all indices ex).
  set (p := fun tool => (negb (read_only (settings_parse get)) || read_only_hint tool) &&
       (all || one_of (Filter.group_of (Filter.name_of tool)
                         (map (fun t => (t_name t, name_of_group c t)) (tools c))) names
            || one_of (Filter.name_of tool) ex)).
  assert (map Filter.name_of (List.filter p vals) = map t_name (List.filter q (tools c))) as E.
  { apply (filter_names _ asg p q vals (tools c) Ft). intros v t Ht (Hn & Hr & _).
    unfold p, q, chosen, Filter.name_of. rewrite Hn, Hr.
    by rewrite (group_of_spec c (tools c) t (wf_tools _ W) Ht), (S t Ht). }
  rewrite chosen_registered, <- E. destruct (List.filter p vals) as [|v0 vs]; [done|].
  unfold enabled_names. cbn [negb map contract states Filter.visible].
  rewrite combine_names. exact E.
Qed.

(** ** A small catalogue *)

Module VisibilitySample.
Definition text_list (l : list string) : Value := Array (map Str l).

Definition catalog : Value :=
  Object [("tools", Array
             [Object [("annotations", Object [("readOnlyHint", Bool true)]); ("name", Str "obs-get-version")];
              Object [("name", Str "obs-start-stream")];
              Object [("name", Str "obs-set-scene")]]);
          ("toolsets", Object
             [("coreGroups", text_list ["general"]);
              ("groups", text_list ["general"; "stream"]);
              ("toolGroups", Object [("obs-get-version", Str "general"); ("obs-set-scene", Str "general");
                                     ("obs-start-stream", Str "stream")])])]%string.

Definition controller : Value :=
  Object [("groups", Array (map (fun g => Object [("covers", Str "fixture"); ("group", Str g)])
                              ["general"; "stream"]));
          ("registryOrder", text_list ["obs-set-scene"; "obs-start-stream"; "obs-get-version"]);
          ("tools", Array (map (fun n => Object [("inputSchema", Object []); ("name", Str n)]) CONTROLLERS))]%string.

Definition empty : Contract :=
  {| tools := []; groups := []; core := []; controllers := Null; registry_order := [] |}.

Definition sample_contract : Contract :=
  match from_source catalog controller with Ok c => c | Err _ => empty end.

Definition settings (dyn : bool) : Settings :=
  {| s_dynamic := dyn; toolsets := None; s_tools := None; read_only := false |}.

Definition sample_names : list string := ["obs-get-version"; "obs-start-stream"; "obs-set-scene"]%string.

Definition admitted : list string := ["obs-get-version"; "obs-set-scene"]%string.

Definition sample : Visibility :=
  match visibility_new sample_contract admitted (settings true) with
  | Ok v => v
  | Err _ => {| contract := empty; states := []; dynamic := false;
                projection := AvailabilityRestricted |}
  end.

Definition fixed (name : string) : option string :=
  if str_eqb name "OBS_MCP_TOOLSETS" then Some " core , stream" else None.

Lemma sample_source : from_source catalog controller = Ok sample_contract.
Proof. vm_compute. reflexivity. Qed.

Lemma sample_new : visibility_new sample_contract admitted (settings true) = Ok sample.
Proof. vm_compute. reflexivity. Qed.
End VisibilitySample.

Lemma set_groups_exact_witness :
  exists t v', set_groups ["general"]%string false VisibilitySample.sample = (Ok t, v') /\
    effects t = map (fun n => VisibilityChanged n false)
                  (changed_names VisibilitySample.sample v') /\
    changed_names VisibilitySample.sample v' = ["obs-set-scene"; "obs-get-version"]%string.
Proof.
  pose proof (set_groups_exact VisibilitySample.sample ["general"]%string false
    (visibility_new_wf _ _ _ _ _ _ VisibilitySample.sample_source VisibilitySample.sample_new)) as H.
  destruct (set_groups _ _ _) as [[t|e] v'] eqn:E; [|vm_compute in E; discriminate E].
  exists t, v'. split; [reflexivity|]. split; [apply H|].
  vm_compute in E. injection E as _ <-. vm_compute. reflexivity.
Defined.

Lemma enabled_tools_are_permitted_witness :
  exists st, state (play [(["general"]%string, false); (["general"; "stream"]%string, true)]
                      VisibilitySample.sample) "obs-set-scene" = Some st /\ enabled st = true /\
    In "obs-set-scene"%string VisibilitySample.sample_names.
Proof.
  eexists. split; [vm_compute; reflexivity|]. split; [reflexivity|].
  eapply (enabled_tools_are_permitted _ _ _ VisibilitySample.sample_names TakeOrMedia
            VisibilitySample.admitted (VisibilitySample.settings true) _
            [(["general"]%string, false); (["general"; "stream"]%string, true)] _ _
            VisibilitySample.sample_source);
    [vm_compute; reflexivity|exact VisibilitySample.sample_new|vm_compute; reflexivity|reflexivity].
Defined.

Lemma static_visibility_is_tool_filter_witness :
  exists f v, Filter.parse VisibilitySample.fixed VisibilitySample.catalog = Ok f /\
    visibility_new VisibilitySample.sample_contract (known_names VisibilitySample.sample_contract)
      (settings_parse VisibilitySample.fixed) = Ok v /\
    length (Filter.visible f) = 3%nat /\ Filter.visible f = enabled_names v.
Proof.
  pose proof (static_visibility_is_tool_filter _ _ _ VisibilitySample.fixed
    VisibilitySample.sample_source eq_refl) as H.
  destruct (Filter.parse _ _) as [f|m] eqn:Ef; [|vm_compute in Ef; discriminate Ef].
  destruct (visibility_new _ _ _) as [v|e] eqn:Ev; [|destruct e; vm_compute in Ev; discriminate Ev].
  exists f, v. split; [reflexivity|]. split; [reflexivity|]. split; [|exact H].
  vm_compute in Ef. injection Ef as <-. reflexivity.
Defined.
