(* ===== verification/Provenance.v ===== *)
(** * The preparation journal

    [native/src/preparation_journal.rs]: the durable record of how far a preparation, and the
    recovery that undoes it, went.  Each field of the scene has at most one preparation attempt
    and a bounded list of recovery attempts; an attempt is a list of steps of which the last is
    its status.  [PossibleDispatch] is recorded before the socket send, so that a crash in the
    gap leaves the field uncertain.

    [Attempt::status] panics on an attempt without steps ([expect]).  A panic is [None] here,
    so a method that can panic returns an option; [any_m] and the like stop where the
    iterators of the code stop. *)
From S2P Require Import Prelude Json Text Serde ReceiptFields.

Definition MAX_RECOVERY_ATTEMPTS : nat := 64.
Definition MAX_REVISION : Z := 9007199254740991.

Inductive Step : Type :=
| Intent
| PossibleDispatch
| Accepted
| NotDispatched
| Rejected
| Unknown
| ObservedBefore.
#[export] Instance Step_eq_dec : EqDecision Step.
Proof. solve_decision. Defined.

Record Fence := mkFence { generation : Z; evidence_revision : Z }.
#[export] Instance Fence_eq_dec : EqDecision Fence.
Proof. solve_decision. Defined.

(** [Fence::valid] *)
Definition fence_valid (f : Fence) : bool :=
  (generation f <=? MAX_REVISION) && (evidence_revision f <=? MAX_REVISION).

Record Attempt := mkAttempt { fence : Fence; steps : list Step }.
#[export] Instance Attempt_eq_dec : EqDecision Attempt.
Proof. solve_decision. Defined.

Definition status (a : Attempt) : option Step := last (steps a).

(** [Attempt::valid] *)
Definition attempt_valid (recovery : bool) (a : Attempt) : bool :=
  if negb (fence_valid (fence a)) then false
  else match steps a with
       | [Intent] | [Intent; PossibleDispatch] | [Intent; NotDispatched]
       | [Intent; PossibleDispatch; (Accepted | NotDispatched | Rejected | Unknown)] => true
       | _ => recovery && bool_decide (steps a = [ObservedBefore])
       end.

Record FieldProvenance := mkField {
  preparation : option Attempt;
  recovery : list Attempt
}.
#[export] Instance FieldProvenance_eq_dec : EqDecision FieldProvenance.
Proof. solve_decision. Defined.

(** [Option::map(Attempt::status)] *)
Definition status_map (a : option Attempt) : option (option Step) :=
  match a with
  | None => Some None
  | Some a => s ← status a; Some (Some s)
  end.

Definition preparation_status (f : FieldProvenance) : option (option Step) :=
  status_map (preparation f).
Definition recovery_status (f : FieldProvenance) : option (option Step) :=
  status_map (last (recovery f)).

Definition owns_restore (f : FieldProvenance) : option bool :=
  s ← preparation_status f; Some (bool_decide (s = Some Accepted)).

Definition restored (f : FieldProvenance) : option bool :=
  s ← recovery_status f;
  Some (match s with Some (Accepted | ObservedBefore) => true | _ => false end).

Record Provenance := mkProvenance {
  codec : string;
  endpoint_hash : string;
  subject_hash : string;
  revision : Z;
  completed : bool;
  fields : list FieldProvenance
}.
#[export] Instance Provenance_eq_dec : EqDecision Provenance.
Proof. solve_decision. Defined.

Inductive ProvenanceError : Type := Invalid | Transition | Limit.

Record Summary := {
  su_revision : Z;
  su_completed : bool;
  accepted : nat;
  possible : nat;
  unknown : nat;
  not_dispatched : nat;
  rejected : nat;
  untouched : nat;
  intent : nat;
  recovery_accepted : nat;
  recovery_possible : nat;
  recovery_unknown : nat;
  recovery_observed_before : nat;
  recovery_intent : nat;
  recovery_not_dispatched : nat;
  recovery_rejected : nat
}.

(** ** Iterators whose closure may panic *)

Fixpoint any_m {A} (p : A -> option bool) (l : list A) : option bool :=
  match l with
  | [] => Some false
  | x :: l => b ← p x; if (b : bool) then Some true else any_m p l
  end.

Definition all_m {A} (p : A -> option bool) (l : list A) : option bool :=
  negb <$> any_m (fun x => negb <$> p x) l.

Fixpoint count_m {A} (p : A -> option bool) (l : list A) : option nat :=
  match l with
  | [] => Some 0%nat
  | x :: l => b ← p x; n ← count_m p l; Some (if (b : bool) then S n else n)
  end.

(** [Result] under a possible panic, with [?] *)
Definition outcome (A : Type) : Type := option (result ProvenanceError A).

Definition bind_outcome {A B} (c : outcome A) (k : A -> outcome B) : outcome B :=
  match c with
  | None => None
  | Some (Err e) => Some (Err e)
  | Some (Ok a) => k a
  end.

Notation "'do?' x ':=' c 'in' k" := (bind_outcome c (fun x => k))
  (at level 10, x pattern, c at level 100, k at level 200) : result_scope.

Definition raise {A} (e : ProvenanceError) : outcome A := Some (Err e).
Definition require (b : bool) (e : ProvenanceError) : outcome unit :=
  if b then Some (Ok tt) else raise e.

Definition status_in (s : option Step) (l : list Step) : bool :=
  match s with Some s => bool_decide (s ∈ l) | None => false end.

Definition has_recovery (f : FieldProvenance) : bool :=
  negb (bool_decide (recovery f = [])).

Definition steps_len (a : Attempt) : Z := Z.of_nat (length (steps a)).

(** [preparation.as_ref().map_or(0, |attempt| attempt.steps.len())] *)
Definition preparation_len (f : FieldProvenance) : Z :=
  match preparation f with Some a => steps_len a | None => 0 end.

(** [u64::from(completed)] *)
Definition completed_event (b : bool) : Z := if b then 1 else 0.

Definition uncertain_status (s : option Step) : bool := status_in s [PossibleDispatch; Unknown].

Section Hashes.
Context {Codec : SerdeJson} {Sha : Sha256}.

Definition nul : string := String Ascii.zero EmptyString.
Definition codec_name : string := "obs-mcp-preparation-v2".

Definition hash_with (domain bytes : string) : string := hash (domain +:+ bytes).
Definition hash_endpoint (endpoint : string) : string :=
  hash_with ("obs-mcp-endpoint-v1" +:+ nul) endpoint.
Definition hash_subject (subject : Value) : string :=
  hash_with ("obs-mcp-preparation-subject-v2" +:+ nul) (str_of_bytes (to_vec subject)).

Definition provenance_new (endpoint : string) (subject : Value) (count : nat) : Provenance :=
  {| codec := codec_name;
     endpoint_hash := hash_endpoint endpoint;
     subject_hash := hash_subject subject;
     revision := 0;
     completed := false;
     fields := replicate count (mkField None []) |}.

(** ** Queries *)

Definition uncertain (p : Provenance) : option bool :=
  any_m (fun f =>
    s ← preparation_status f;
    if uncertain_status s then Some true
    else s ← recovery_status f; Some (uncertain_status s)) (fields p).

Definition attempted (p : Provenance) : option nat :=
  count_m (fun f =>
    s ← preparation_status f;
    Some (status_in s [PossibleDispatch; Accepted; Rejected; Unknown])) (fields p).

Definition all_preparation_accepted (p : Provenance) : option bool :=
  if completed p then Some false else all_m owns_restore (fields p).

(** [summary]: one count per status *)
Definition tally (p : FieldProvenance -> option (option Step)) (l : list Step) (fs : list FieldProvenance)
  : option nat := count_m (fun f => s ← p f; Some (status_in s l)) fs.

Definition summary (p : Provenance) : option Summary :=
  let fs := fields p in
  n_accepted ← tally preparation_status [Accepted] fs;
  n_possible ← tally preparation_status [PossibleDispatch] fs;
  n_unknown ← tally preparation_status [Unknown] fs;
  n_not ← tally preparation_status [NotDispatched] fs;
  n_rejected ← tally preparation_status [Rejected] fs;
  n_intent ← tally preparation_status [Intent] fs;
  n_untouched ← count_m (fun f => s ← preparation_status f;
    Some (is_none s || status_in s [ObservedBefore])) fs;
  r_accepted ← tally recovery_status [Accepted] fs;
  r_possible ← tally recovery_status [PossibleDispatch] fs;
  r_unknown ← tally recovery_status [Unknown] fs;
  r_observed ← tally recovery_status [ObservedBefore] fs;
  r_intent ← tally recovery_status [Intent] fs;
  r_not ← tally recovery_status [NotDispatched] fs;
  r_rejected ← tally recovery_status [Rejected] fs;
  Some {| su_revision := revision p; su_completed := completed p;
          accepted := n_accepted; possible := n_possible; unknown := n_unknown;
          not_dispatched := n_not; rejected := n_rejected; untouched := n_untouched;
          intent := n_intent; recovery_accepted := r_accepted; recovery_possible := r_possible;
          recovery_unknown := r_unknown; recovery_observed_before := r_observed;
          recovery_intent := r_intent; recovery_not_dispatched := r_not;
          recovery_rejected := r_rejected |}.

(** ** [validate] *)

(** What the loop carries: the events counted, and whether the preparations and the recoveries
    have stopped. *)
Definition scan : Type := Z * bool * bool.

Fixpoint add_lengths (events : Z) (l : list Attempt) : option Z :=
  match l with
  | [] => Some events
  | a :: l => events ← checked_add events (steps_len a); add_lengths events l
  end.

Definition lift {A} (o : option A) (e : ProvenanceError) : outcome A := Some (ok_or o e).

(** a closure's panic inside a method that returns [Result] *)
Definition run {A} (o : option A) : outcome A := Ok <$> o.

Fixpoint check_settled (l : list Attempt) : outcome unit :=
  match l with
  | [] => Some (Ok tt)
  | a :: l =>
      do? s := run (status a) in
      do? _ := require (status_in (Some s) [NotDispatched; Rejected]) Invalid in
      check_settled l
  end.

Definition check_field (st : scan) (f : FieldProvenance) : outcome scan :=
  let '(events, preparation_stopped, recovery_stopped) := st in
  do? _ := require (negb (preparation_stopped && negb (is_none (preparation f)))) Invalid in
  do? s := run (preparation_status f) in
  let preparation_stopped := preparation_stopped || negb (bool_decide (s = Some Accepted)) in
  do? _ := require (negb (recovery_stopped && has_recovery f)) Invalid in
  do? r := run (restored f) in
  let recovery_stopped := recovery_stopped || negb r in
  do? _ := require (negb (uncertain_status s && has_recovery f)) Invalid in
  do? events := lift (checked_add events (preparation_len f)) Invalid in
  do? events := lift (add_lengths events (recovery f)) Invalid in
  do? _ := require (negb (is_some_and (preparation f) (fun a => negb (attempt_valid false a))
                          || (MAX_RECOVERY_ATTEMPTS <? length (recovery f))%nat
                          || existsb (fun a => negb (attempt_valid true a)) (recovery f)))
             Invalid in
  do? _ := check_settled (take (length (recovery f) - 1) (recovery f)) in
  do? owns := run (owns_restore f) in
  do? _ := require (negb (negb owns
                          && existsb (fun a => negb (bool_decide (steps a = [ObservedBefore])))
                               (recovery f))) Invalid in
  Some (Ok (events, preparation_stopped, recovery_stopped)).

Fixpoint check_fields (st : scan) (l : list FieldProvenance) : outcome scan :=
  match l with
  | [] => Some (Ok st)
  | f :: l => do? st := check_field st f in check_fields st l
  end.

Definition validate (p : Provenance) (endpoint : string) (subject : Value) (count : nat)
  : outcome unit :=
  do? _ := require (negb (negb (str_eqb (codec p) codec_name)
                          || negb (str_eqb (endpoint_hash p) (hash_endpoint endpoint))
                          || negb (str_eqb (subject_hash p) (hash_subject subject))
                          || (MAX_REVISION <? revision p)
                          || negb (length (fields p) =? count)%nat)) Invalid in
  do? (events, _, _) := check_fields (completed_event (completed p), false, false) (fields p) in
  do? _ := require (events =? revision p) Invalid in
  if completed p then
    do? r := run (all_m restored (fields p)) in
    if negb r then raise Invalid
    else do? u := run (uncertain p) in require (negb u) Invalid
  else Some (Ok tt).

(** ** The operations

    A method that fails leaves the journal as it was; one that succeeds returns the next. *)

Definition bump (p : Provenance) : result ProvenanceError Provenance :=
  if completed p then Err Transition
  else match opt_filter (fun r => r <=? MAX_REVISION) (checked_add (revision p) 1) with
       | None => Err Limit
       | Some r => Ok {| codec := codec p; endpoint_hash := endpoint_hash p;
                         subject_hash := subject_hash p; revision := r;
                         completed := completed p; fields := fields p |}
       end.

Definition with_fields (l : list FieldProvenance) (p : Provenance) : Provenance :=
  {| codec := codec p; endpoint_hash := endpoint_hash p; subject_hash := subject_hash p;
     revision := revision p; completed := completed p; fields := l |}.

Definition set_preparation (a : Attempt) (f : FieldProvenance) : FieldProvenance :=
  mkField (Some a) (recovery f).
Definition push_recovery (a : Attempt) (f : FieldProvenance) : FieldProvenance :=
  mkField (preparation f) (recovery f ++ [a]).
Definition push_step (s : Step) (a : Attempt) : Attempt := mkAttempt (fence a) (steps a ++ [s]).

(** [last_mut().unwrap().steps.push(next)] *)
Definition push_last (s : Step) (l : list Attempt) : list Attempt :=
  alter (push_step s) (pred (length l)) l.

Definition is_open (s : option Step) : bool :=
  match s with Some (NotDispatched | Rejected) => true | _ => false end.

Definition begin_preparation (index : nat) (fe : Fence) (p : Provenance) : outcome Provenance :=
  do? _ := require (fence_valid fe) Transition in
  do? _ := require (negb (existsb has_recovery (fields p))) Transition in
  do? unowned := run (any_m (fun f => negb <$> owns_restore f) (take index (fields p))) in
  do? _ := require (negb unowned) Transition in
  do? _ := require (negb (is_none_or (fields p !! index) (fun f =>
             negb (is_none (preparation f)) || has_recovery f))) Transition in
  do? p := Some (bump p) in
  Some (Ok (with_fields (alter (set_preparation (mkAttempt fe [Intent])) index (fields p)) p)).

Definition begin_recovery (index : nat) (fe : Fence) (p : Provenance) : outcome Provenance :=
  do? u := run (uncertain p) in
  do? _ := require (negb u && fence_valid fe) Transition in
  do? unrestored := run (any_m (fun f => negb <$> restored f) (take index (fields p))) in
  do? _ := require (negb unrestored) Transition in
  do? f := lift (fields p !! index) Transition in
  do? owns := run (owns_restore f) in
  do? _ := require (owns && (length (recovery f) <? MAX_RECOVERY_ATTEMPTS)%nat) Transition in
  do? s := run (recovery_status f) in
  do? _ := require (is_none s || is_open s) Transition in
  do? p := Some (bump p) in
  Some (Ok (with_fields (alter (push_recovery (mkAttempt fe [Intent])) index (fields p)) p)).

(** The table of [advance]. *)
Definition may_follow (s next : Step) : bool :=
  match s, next with
  | Intent, (PossibleDispatch | NotDispatched) => true
  | PossibleDispatch, (Accepted | NotDispatched | Rejected | Unknown) => true
  | _, _ => false
  end.

Definition advance_field (rec : bool) (next : Step) (f : FieldProvenance) : FieldProvenance :=
  if rec then mkField (preparation f) (push_last next (recovery f))
  else mkField (push_step next <$> preparation f) (recovery f).

Definition advance (index : nat) (rec : bool) (next : Step) (p : Provenance)
  : outcome Provenance :=
  do? _ := require (rec || negb (existsb has_recovery (fields p))) Transition in
  do? f := lift (fields p !! index) Transition in
  do? a := lift (if rec then last (recovery f) else preparation f) Transition in
  do? s := run (status a) in
  do? _ := require (may_follow s next) Transition in
  do? p := Some (bump p) in
  Some (Ok (with_fields (alter (advance_field rec next) index (fields p)) p)).

Definition observed_before (index : nat) (fe : Fence) (p : Provenance) : outcome Provenance :=
  do? _ := require (fence_valid fe) Transition in
  do? unrestored := run (any_m (fun f => negb <$> restored f) (take index (fields p))) in
  do? _ := require (negb unrestored) Transition in
  do? f := lift (fields p !! index) Transition in
  do? s := run (preparation_status f) in
  do? _ := require (negb (uncertain_status s)) Transition in
  do? s := run (recovery_status f) in
  do? _ := require ((is_none s || is_open s)
                    && (length (recovery f) <? MAX_RECOVERY_ATTEMPTS)%nat) Transition in
  do? p := Some (bump p) in
  Some (Ok (with_fields (alter (push_recovery (mkAttempt fe [ObservedBefore])) index (fields p)) p)).

Definition complete (p : Provenance) : outcome Provenance :=
  do? u := run (uncertain p) in
  do? _ := require (negb u) Transition in
  do? r := run (all_m restored (fields p)) in
  do? _ := require r Transition in
  do? p := Some (bump p) in
  Some (Ok {| codec := codec p; endpoint_hash := endpoint_hash p;
              subject_hash := subject_hash p; revision := revision p;
              completed := true; fields := fields p |}).

(** ** [successor]: may [next] replace [self] on disk? *)

Fixpoint sum_events (total : Z) (l : list FieldProvenance) : option Z :=
  match l with
  | [] => Some total
  | f :: l =>
      total ← checked_add total (preparation_len f);
      total ← add_lengths total (recovery f);
      sum_events total l
  end.

Definition events_of (p : Provenance) : option Z :=
  sum_events (completed_event (completed p)) (fields p).

Definition attempt_extension (old new : option Attempt) : bool :=
  match old, new with
  | None, None => true
  | None, Some new =>
      bool_decide (steps new = [Intent]) || bool_decide (steps new = [ObservedBefore])
  | Some old, Some new =>
      bool_decide (old = new)
      || (bool_decide (fence old = fence new)
          && (length (steps new) =? length (steps old) + 1)%nat
          && bool_decide (take (length (steps old)) (steps new) = steps old))
  | _, _ => false
  end.

(** One pass of the loop: is this field the one that changed, and by one event? *)
Definition compare_field (recovering : bool) (f next : FieldProvenance)
  : result ProvenanceError bool :=
  if bool_decide (f = next) then Ok false
  else if negb (bool_decide (preparation f = preparation next)) && recovering then Err Transition
  else if negb (attempt_extension (preparation f) (preparation next))
          || (length (recovery next) <? length (recovery f))%nat
          || (length (recovery f) + 1 <? length (recovery next))%nat then Err Transition
  else if negb (forallb (fun '(old, new) => attempt_extension (Some old) (Some new))
                  (combine (recovery f) (recovery next))) then Err Transition
  else if (length (recovery next) =? length (recovery f) + 1)%nat
          && negb (is_some_and (last (recovery next)) (attempt_valid true)) then Err Transition
  else Ok true.

Fixpoint candidates (recovering : bool) (l next : list FieldProvenance)
  : result ProvenanceError nat :=
  match l, next with
  | f :: l, f' :: next =>
      let? c := compare_field recovering f f' in
      let? n := candidates recovering l next in
      Ok (if c : bool then S n else n)
  | _, _ => Ok 0%nat
  end.

Definition successor (p next : Provenance) : outcome unit :=
  do? _ := require (bool_decide (events_of p = Some (revision p))
                    && bool_decide (events_of next = Some (revision next))) Transition in
  if bool_decide (p = next) then Some (Ok tt)
  else
    do? _ := require (negb (completed p
                            || negb (str_eqb (codec p) (codec next))
                            || negb (str_eqb (endpoint_hash p) (endpoint_hash next))
                            || negb (str_eqb (subject_hash p) (subject_hash next))
                            || negb (length (fields p) =? length (fields next))%nat)) Transition in
    do? r := lift (checked_add (revision p) 1) Limit in
    do? _ := require (revision next =? r) Transition in
    do? n := Some (candidates (existsb has_recovery (fields p)) (fields p) (fields next)) in
    if completed next then
      if negb (n =? 0)%nat then raise Transition
      else
        do? all := run (all_m restored (fields next)) in
        if negb all then raise Transition
        else do? u := run (uncertain next) in require (negb u) Transition
    else require (n =? 1)%nat Transition.

(** ** Operations as data *)

Inductive op : Type :=
| BeginPreparation (index : nat) (fe : Fence)
| BeginRecovery (index : nat) (fe : Fence)
| Advance (index : nat) (rec : bool) (next : Step)
| Observe (index : nat) (fe : Fence)
| Complete.
#[export] Instance op_eq_dec : EqDecision op.
Proof. solve_decision. Defined.

Definition apply (o : op) (p : Provenance) : outcome Provenance :=
  match o with
  | BeginPreparation i fe => begin_preparation i fe p
  | BeginRecovery i fe => begin_recovery i fe p
  | Advance i rec next => advance i rec next p
  | Observe i fe => observed_before i fe p
  | Complete => complete p
  end.

(** A caller's history: a refused operation leaves the journal alone; a panic ends it. *)
Fixpoint play (ops : list op) (p : Provenance) : option Provenance :=
  match ops with
  | [] => Some p
  | o :: ops =>
      match apply o p with
      | None => None
      | Some (Ok p) => play ops p
      | Some (Err _) => play ops p
      end
  end.

(** ** The journal without panics

    On attempts that have steps, the methods are these pure functions. *)

Definition status_of (a : Attempt) : Step := default Intent (last (steps a)).
Definition pstat (f : FieldProvenance) : option Step := status_of <$> preparation f.
Definition rstat (f : FieldProvenance) : option Step := status_of <$> last (recovery f).
Definition owned (f : FieldProvenance) : bool := bool_decide (pstat f = Some Accepted).
Definition is_restored (f : FieldProvenance) : bool :=
  match rstat f with Some (Accepted | ObservedBefore) => true | _ => false end.
Definition in_doubt (f : FieldProvenance) : bool :=
  uncertain_status (pstat f) || uncertain_status (rstat f).

Definition has_steps (a : Attempt) : Prop := steps a <> [].
Definition sound (f : FieldProvenance) : Prop :=
  (forall a, preparation f = Some a -> has_steps a) /\ Forall has_steps (recovery f).

Lemma status_some a : has_steps a -> status a = Some (status_of a).
Proof.
  unfold has_steps, status, status_of. destruct (last (steps a)) eqn:E; [done|].
  by apply last_None in E.
Qed.

Lemma preparation_status_sound f : sound f -> preparation_status f = Some (pstat f).
Proof.
  intros [H _]. unfold preparation_status, pstat. destruct (preparation f) as [a|]; simpl; [|done].
  by rewrite (status_some a) by auto.
Qed.

Lemma recovery_status_sound f : sound f -> recovery_status f = Some (rstat f).
Proof.
  intros [_ H]. unfold recovery_status, rstat. destruct (last (recovery f)) as [a|] eqn:E; simpl; [|done].
  rewrite (status_some a); [done|]. rewrite Forall_forall in H. apply H.
  apply last_Some in E as [l ->]. set_solver.
Qed.

Lemma owns_restore_sound f : sound f -> owns_restore f = Some (owned f).
Proof. intros H. unfold owns_restore. by rewrite preparation_status_sound. Qed.

Lemma restored_sound f : sound f -> restored f = Some (is_restored f).
Proof. intros H. unfold restored. by rewrite recovery_status_sound. Qed.

Lemma any_m_pure {A} (p : A -> option bool) q l :
  Forall (fun x => p x = Some (q x)) l -> any_m p l = Some (existsb q l).
Proof. induction 1 as [|x l Hx _ IH]; simpl; [done|]. rewrite Hx. simpl. by destruct (q x). Qed.

Lemma all_m_pure {A} (p : A -> option bool) q l :
  Forall (fun x => p x = Some (q x)) l -> all_m p l = Some (forallb q l).
Proof.
  intros H. unfold all_m. rewrite (any_m_pure _ (fun x => negb (q x))).
  - simpl. f_equal. clear H. induction l as [|x l IH]; simpl; [done|]. by destruct (q x).
  - eapply Forall_impl; [exact H|]. simpl. by intros x ->.
Qed.

Lemma uncertain_sound p : Forall sound (fields p) -> uncertain p = Some (existsb in_doubt (fields p)).
Proof.
  intros H. apply any_m_pure. eapply Forall_impl; [exact H|]. intros f Hf. simpl.
  rewrite preparation_status_sound, recovery_status_sound by done. simpl. unfold in_doubt.
  by destruct (uncertain_status (pstat f)).
Qed.

Lemma restored_all_sound p :
  Forall sound (fields p) -> all_m restored (fields p) = Some (forallb is_restored (fields p)).
Proof. intros H. apply all_m_pure. eapply Forall_impl; [exact H|]. apply restored_sound. Qed.

Lemma take_not_m p q l i :
  Forall (fun x : FieldProvenance => p x = Some (q x)) l ->
  any_m (fun f => negb <$> p f) (take i l) = Some (negb (forallb q (take i l))).
Proof.
  intros H. rewrite (any_m_pure _ (fun f => negb (q f))).
  - f_equal. generalize (take i l). clear. intros l. induction l as [|x l IH]; simpl; [done|].
    by destruct (q x).
  - apply Forall_take. eapply Forall_impl; [exact H|]. simpl. by intros x ->.
Qed.

(** The guard of each operation, and the journal it leaves. *)
Definition guard (o : op) (p : Provenance) : bool :=
  let l := fields p in
  match o with
  | BeginPreparation i fe =>
      fence_valid fe && negb (existsb has_recovery l) && forallb owned (take i l)
      && is_some_and (l !! i) (fun f => is_none (preparation f) && negb (has_recovery f))
  | BeginRecovery i fe =>
      negb (existsb in_doubt l) && fence_valid fe && forallb is_restored (take i l)
      && is_some_and (l !! i) (fun f =>
           owned f && (length (recovery f) <? MAX_RECOVERY_ATTEMPTS)%nat
           && (is_none (rstat f) || is_open (rstat f)))
  | Advance i rec next =>
      (rec || negb (existsb has_recovery l))
      && is_some_and (l !! i) (fun f =>
           is_some_and (if rec then last (recovery f) else preparation f) (fun a =>
             may_follow (status_of a) next))
  | Observe i fe =>
      fence_valid fe && forallb is_restored (take i l)
      && is_some_and (l !! i) (fun f =>
           negb (uncertain_status (pstat f)) && (is_none (rstat f) || is_open (rstat f))
           && (length (recovery f) <? MAX_RECOVERY_ATTEMPTS)%nat)
  | Complete => negb (existsb in_doubt l) && forallb is_restored l
  end.

Definition edit (o : op) (l : list FieldProvenance) : list FieldProvenance :=
  match o with
  | BeginPreparation i fe => alter (set_preparation (mkAttempt fe [Intent])) i l
  | BeginRecovery i fe => alter (push_recovery (mkAttempt fe [Intent])) i l
  | Advance i rec next => alter (advance_field rec next) i l
  | Observe i fe => alter (push_recovery (mkAttempt fe [ObservedBefore])) i l
  | Complete => l
  end.

Definition next_of (o : op) (p : Provenance) : Provenance :=
  {| codec := codec p; endpoint_hash := endpoint_hash p; subject_hash := subject_hash p;
     revision := revision p + 1;
     completed := match o with Complete => true | _ => completed p end;
     fields := edit o (fields p) |}.

Definition refusal (o : op) (p : Provenance) : option ProvenanceError :=
  if negb (guard o p) || completed p then Some Transition
  else if MAX_REVISION <? revision p + 1 then Some Limit
  else None.

Lemma bump_eq p :
  bump p = if completed p then Err Transition
           else if MAX_REVISION <? revision p + 1 then Err Limit
           else Ok {| codec := codec p; endpoint_hash := endpoint_hash p;
                      subject_hash := subject_hash p; revision := revision p + 1;
                      completed := completed p; fields := fields p |}.
Proof.
  unfold bump. destruct (completed p); [done|]. unfold checked_add.
  destruct (Z.leb_spec (revision p + 1) U64_MAX); simpl.
  - destruct (Z.leb_spec (revision p + 1) MAX_REVISION), (Z.ltb_spec MAX_REVISION (revision p + 1));
      (done || lia).
  - destruct (Z.ltb_spec MAX_REVISION (revision p + 1)); [done|].
    unfold U64_MAX, MAX_REVISION in *. lia.
Qed.

Lemma bump_then o p (k : Provenance -> outcome Provenance) :
  guard o p = true ->
  (completed p = false -> k {| codec := codec p; endpoint_hash := endpoint_hash p;
          subject_hash := subject_hash p; revision := revision p + 1;
          completed := completed p; fields := fields p |} = Some (Ok (next_of o p))) ->
  bind_outcome (Some (bump p)) k =
  Some (match refusal o p with Some e => Err e | None => Ok (next_of o p) end).
Proof.
  intros Hg Hk. rewrite bump_eq. unfold refusal. rewrite Hg. simpl.
  destruct (completed p); [done|]. destruct (MAX_REVISION <? revision p + 1); [done|]. by apply Hk.
Qed.

Lemma refused o p : guard o p = false -> refusal o p = Some Transition.
Proof. unfold refusal. by intros ->. Qed.

Lemma existsb_forallb_take (l : list FieldProvenance) i f :
  Forall sound l -> l !! i = Some f -> sound f.
Proof. intros H Hi. rewrite Forall_lookup in H. eauto. Qed.

Lemma is_none_or_some {A} (o : option A) q :
  negb (is_none_or o q) = is_some_and o (fun x => negb (q x)).
Proof. by destruct o. Qed.

(** One step of running an operation against its guard. *)
Ltac guard_step :=
  match goal with
  | |- context [require ?b _] => destruct b eqn:?; cbn [require bind_outcome raise]
  | |- context [bind_outcome (lift ?o _) _] =>
      destruct o eqn:?; cbn [lift ok_or bind_outcome raise]
  | |- context [ok_or ?o _] => destruct o eqn:?; cbn [ok_or bind_outcome raise]
  end.

(** Every operation on a sound journal does not panic, and is refused or performed exactly as
    its guard, the completion flag and the revision limit say. *)
Lemma apply_sound o p :
  Forall sound (fields p) ->
  apply o p = Some (match refusal o p with Some e => Err e | None => Ok (next_of o p) end).
Proof.
  intros Hs.
  assert (forall i, any_m (fun f => negb <$> owns_restore f) (take i (fields p))
                    = Some (negb (forallb owned (take i (fields p))))) as Ho.
  { intros i. apply take_not_m. eapply Forall_impl; [exact Hs|]. apply owns_restore_sound. }
  assert (forall i, any_m (fun f => negb <$> restored f) (take i (fields p))
                    = Some (negb (forallb is_restored (take i (fields p))))) as Hr.
  { intros i. apply take_not_m. eapply Forall_impl; [exact Hs|]. apply restored_sound. }
  assert (forall b e, refusal o p = Some e -> b = @raise Provenance e ->
    b = Some (match refusal o p with Some e => Err e | None => Ok (next_of o p) end)) as Hx.
  { intros b e -> ->. done. }
  destruct o as [i fe|i fe|i rec next|i fe|]; unfold apply.
  - unfold begin_preparation. rewrite Ho. cbn [run fmap option_fmap option_map bind_outcome].
    repeat guard_step; try (eapply Hx; [apply refused|done]); unfold guard.
    + apply bump_then; [|done]. unfold guard. rewrite is_none_or_some in *. to_prop.
      destruct (fields p !! i) as [f|]; simpl in *; [|done]. to_prop. tauto.
    + rewrite is_none_or_some in *. destruct (fields p !! i) as [f|]; simpl in *.
      * rewrite negb_orb, negb_involutive in *. to_prop. tauto.
      * to_prop. tauto.
    + to_prop. tauto.
    + to_prop. tauto.
    + to_prop. tauto.
  - unfold begin_recovery. rewrite (uncertain_sound p Hs), Hr.
    cbn [run fmap option_fmap option_map bind_outcome].
    repeat guard_step; try (eapply Hx; [apply refused|done]); unfold guard.
    all: try (to_prop; tauto).
    + pose proof (existsb_forallb_take _ _ _ Hs Heqo) as Hf.
      rewrite (owns_restore_sound _ Hf), (recovery_status_sound _ Hf).
      cbn [run fmap option_fmap option_map bind_outcome].
      repeat guard_step; try (eapply Hx; [apply refused|done]); unfold guard.
      * apply bump_then; [|done]. unfold guard. rewrite Heqo. simpl. to_prop. tauto.
      * rewrite Heqo. simpl. to_prop. tauto.
      * rewrite Heqo. simpl. to_prop. tauto.
    + rewrite Heqo. simpl. to_prop. tauto.
  - unfold advance.
    repeat guard_step; try (eapply Hx; [apply refused|done]); unfold guard.
    all: try (to_prop; tauto).
    + pose proof (existsb_forallb_take _ _ _ Hs Heqo) as [Hf1 Hf2].
      match goal with |- context [status ?a] => rewrite (status_some a) end.
      2: { destruct rec; [|auto]. rewrite Forall_forall in Hf2. apply Hf2.
           apply last_Some in Heqo0 as [l' ->]. set_solver. }
      cbn [run fmap option_fmap option_map bind_outcome].
      repeat guard_step; try (eapply Hx; [apply refused|done]).
      * apply bump_then; [|done]. unfold guard. rewrite Heqo. simpl. rewrite Heqo0. simpl. to_prop. tauto.
      * unfold guard. rewrite Heqo. simpl. rewrite Heqo0. simpl. to_prop. tauto.
    + rewrite Heqo. simpl. rewrite Heqo0. simpl. to_prop. tauto.
    + rewrite Heqo. simpl. to_prop. tauto.
  - unfold observed_before. rewrite Hr. cbn [run fmap option_fmap option_map bind_outcome].
    repeat guard_step; try (eapply Hx; [apply refused|done]); unfold guard.
    all: try (to_prop; tauto).
    + pose proof (existsb_forallb_take _ _ _ Hs Heqo) as Hf.
      rewrite (preparation_status_sound _ Hf), (recovery_status_sound _ Hf).
      cbn [run fmap option_fmap option_map bind_outcome].
      repeat guard_step; try (eapply Hx; [apply refused|done]).
      * apply bump_then; [|done]. unfold guard. rewrite Heqo. simpl. to_prop. tauto.
      * unfold guard. rewrite Heqo. simpl. to_prop. tauto.
      * unfold guard. rewrite Heqo. simpl. to_prop. tauto.
    + rewrite Heqo. simpl. to_prop. tauto.
  - unfold complete. rewrite (uncertain_sound p Hs), (restored_all_sound p Hs).
    cbn [run fmap option_fmap option_map bind_outcome].
    repeat guard_step; try (eapply Hx; [apply refused|done]).
    + apply bump_then; [|done]. unfold guard. to_prop. tauto.
    + unfold guard. to_prop. tauto.
    + unfold guard. to_prop. tauto.
Qed.

(** ** What [validate] accepts *)

Record field_ok (f : FieldProvenance) : Prop := {
  fo_preparation : forall a, preparation f = Some a -> attempt_valid false a = true;
  fo_recovery : Forall (fun a => attempt_valid true a = true) (recovery f);
  fo_bound : (length (recovery f) <= MAX_RECOVERY_ATTEMPTS)%nat;
  fo_doubt : uncertain_status (pstat f) = true -> recovery f = [];
  fo_settled : Forall (fun a => is_open (Some (status_of a)) = true)
                 (take (length (recovery f) - 1) (recovery f));
  fo_owned : owned f = false -> Forall (fun a => steps a = [ObservedBefore]) (recovery f)
}.

(** Preparations are made in order, and so are recoveries: one stops at the first field whose
    preparation was not accepted, the other at the first that is not restored. *)
Fixpoint chain (ps rs : bool) (l : list FieldProvenance) : Prop :=
  match l with
  | [] => True
  | f :: l =>
      field_ok f /\ (ps = true -> preparation f = None) /\ (rs = true -> recovery f = [])
      /\ chain (ps || negb (owned f)) (rs || negb (is_restored f)) l
  end.

Definition recovery_len (f : FieldProvenance) : Z := foldr (fun a n => steps_len a + n) 0 (recovery f).
Definition field_len (f : FieldProvenance) : Z := preparation_len f + recovery_len f.
Definition total (l : list FieldProvenance) : Z := foldr (fun f n => field_len f + n) 0 l.

Record inv (p : Provenance) : Prop := {
  inv_events : completed_event (completed p) + total (fields p) = revision p;
  inv_bound : revision p <= MAX_REVISION;
  inv_chain : chain false false (fields p);
  inv_completed : completed p = true ->
    forallb is_restored (fields p) = true /\ existsb in_doubt (fields p) = false
}.

Lemma steps_len_nonneg a : 0 <= steps_len a.
Proof. unfold steps_len. lia. Qed.

Lemma recovery_len_nonneg f : 0 <= recovery_len f.
Proof.
  unfold recovery_len. induction (recovery f) as [|a l IH]; simpl; [lia|].
  pose proof (steps_len_nonneg a). lia.
Qed.

Lemma field_len_nonneg f : 0 <= field_len f.
Proof.
  unfold field_len, preparation_len. pose proof (recovery_len_nonneg f).
  destruct (preparation f) as [a|]; [pose proof (steps_len_nonneg a)|]; lia.
Qed.

Lemma total_nonneg l : 0 <= total l.
Proof. induction l as [|f l IH]; simpl; [lia|]. pose proof (field_len_nonneg f). lia. Qed.

Lemma bind_outcome_Ok {A B} (c : outcome A) (k : A -> outcome B) b :
  bind_outcome c k = Some (Ok b) <-> exists a, c = Some (Ok a) /\ k a = Some (Ok b).
Proof. destruct c as [[a|e]|]; simpl; naive_solver. Qed.

Lemma outcome_require_Ok b e u : require b e = Some (Ok u) <-> b = true.
Proof. destruct b, u; simpl; naive_solver. Qed.

Lemma run_Ok {A} (o : option A) a : run o = Some (Ok a) <-> o = Some a.
Proof. destruct o; simpl; split; congruence. Qed.

Lemma lift_Ok {A} (o : option A) e a : lift o e = Some (Ok a) <-> o = Some a.
Proof. unfold lift, ok_or. destruct o; split; congruence. Qed.

Lemma add_lengths_spec l : forall e e',
  e <= U64_MAX ->
  add_lengths e l = Some e' <->
  e' = e + foldr (fun a n => steps_len a + n) 0 l /\ e' <= U64_MAX.
Proof.
  induction l as [|a l IH]; intros e e' He; simpl.
  - split; [intros [= <-]; lia|]. intros [-> _]. f_equal. lia.
  - destruct (checked_add e (steps_len a)) as [e1|] eqn:E; simpl.
    + apply checked_add_Some in E as [-> H1]. rewrite IH by done. split; intros [-> H2]; split; lia.
    + apply checked_add_None in E. split; [done|]. intros [-> H2].
      assert (0 <= foldr (fun a n => steps_len a + n) 0 l) as H.
      { clear. induction l as [|b l IH]; simpl; [lia|]. pose proof (steps_len_nonneg b). lia. }
      lia.
Qed.

Lemma valid_has_steps rec a : attempt_valid rec a = true -> has_steps a.
Proof.
  unfold attempt_valid, has_steps. destruct (fence_valid (fence a)); [|done]. simpl.
  intros H E. rewrite E in H. destruct rec; simpl in H; done.
Qed.

Lemma field_ok_sound f : field_ok f -> sound f.
Proof.
  intros H. split.
  - intros a Ha. eapply valid_has_steps, fo_preparation; eauto.
  - eapply Forall_impl; [apply fo_recovery, H|]. intros a. apply valid_has_steps.
Qed.

Lemma chain_sound ps rs l : chain ps rs l -> Forall sound l.
Proof.
  revert ps rs. induction l as [|f l IH]; intros ps rs; simpl; [constructor|].
  intros (Hf & _ & _ & H). constructor; [by apply field_ok_sound|eauto].
Qed.

Lemma check_settled_spec l :
  Forall has_steps l ->
  check_settled l = Some (Ok tt) <-> Forall (fun a => is_open (Some (status_of a)) = true) l.
Proof.
  induction 1 as [|a l Ha _ IH]; simpl; [split; [constructor|done]|].
  rewrite (status_some a Ha). cbn [run fmap option_fmap option_map bind_outcome].
  rewrite bind_outcome_Ok. setoid_rewrite outcome_require_Ok. rewrite Forall_cons, <- IH.
  split.
  - intros (? & H1 & H2). split; [|done]. destruct (status_of a); simpl in *; done.
  - intros [H1 H2]. exists tt. split; [|done]. destruct (status_of a); simpl in *; done.
Qed.

Lemma sound_of_status f s : preparation_status f = Some s ->
  (forall a, preparation f = Some a -> has_steps a).
Proof.
  unfold preparation_status. intros H a Ha. rewrite Ha in H. simpl in H. unfold has_steps.
  intros E. unfold status in H. by rewrite E in H.
Qed.

(** One turn of the loop, seen from a field whose attempts have steps. *)
Lemma check_field_sound events ps rs f st :
  sound f -> events <= U64_MAX ->
  check_field (events, ps, rs) f = Some (Ok st) <->
  field_ok f /\ (ps = true -> preparation f = None) /\ (rs = true -> recovery f = [])
  /\ events + field_len f <= U64_MAX
  /\ st = (events + field_len f, ps || negb (owned f), rs || negb (is_restored f)).
Proof.
  intros Hs He. unfold check_field, field_len.
  rewrite (preparation_status_sound f Hs), (restored_sound f Hs), (owns_restore_sound f Hs).
  rewrite bind_outcome_Ok. repeat setoid_rewrite bind_outcome_Ok. setoid_rewrite outcome_require_Ok.
  setoid_rewrite lift_Ok. setoid_rewrite run_Ok. setoid_rewrite negb_true_iff.
  assert (Forall has_steps (take (length (recovery f) - 1) (recovery f))) as Ht
    by apply Forall_take, Hs.
  split.
  - intros (_ & H1 & ? & [= <-] & _ & H2 & ? & [= <-] & _ & H3 & e1 & H4 & e2 & H5 & _ & H6 &
            [] & H7 & ? & [= <-] & _ & H8 & [= <-]).
    apply check_settled_spec in H7; [|done].
    apply checked_add_Some in H4 as [-> H4]. apply add_lengths_spec in H5 as [-> H5]; [|done].
    apply orb_false_iff in H6 as [[H6 H6']%orb_false_iff H6''].
    assert (has_recovery f = false <-> recovery f = []) as Hr.
    { unfold has_recovery. rewrite negb_false_iff. apply bool_decide_eq_true. }
    split; [split|]; try done.
    + intros a Ha. rewrite Ha in H6. simpl in H6. by apply negb_false_iff.
    + apply Forall_forall. intros a Ha. destruct (attempt_valid true a) eqn:E; [done|].
      assert (existsb (fun a => negb (attempt_valid true a)) (recovery f) = true); [|congruence].
      apply existsb_exists. exists a. rewrite E. split; [by apply list_elem_of_In|done].
    + by apply Nat.ltb_ge in H6'.
    + intros Hu. rewrite Hu in H3. by apply Hr.
    + intros Ho. rewrite Ho in H8. simpl in H8. apply Forall_forall. intros a Ha.
      destruct (decide (steps a = [ObservedBefore])) as [|Hn]; [done|].
      assert (existsb (fun a => negb (bool_decide (steps a = [ObservedBefore]))) (recovery f) = true); [|congruence].
      apply existsb_exists. exists a. split; [by apply list_elem_of_In|].
      by rewrite bool_decide_false.
    + split; [|split].
      * intros ->. simpl in H1. destruct (preparation f); [done|done].
      * intros ->. simpl in H2. by apply Hr.
      * split; [unfold recovery_len; lia|]. unfold recovery_len. f_equal. f_equal. lia.
  - intros (Hok & H1 & H2 & H3 & ->). exists tt.
    split. { destruct ps; [|done]. by rewrite H1. }
    exists (pstat f). split; [done|].
    assert (recovery f = [] -> has_recovery f = false) as Hr by (unfold has_recovery; by intros ->).
    exists tt. split. { destruct rs; [|done]. by apply Hr, H2. }
    exists (is_restored f). split; [done|].
    exists tt. split. { destruct (uncertain_status (pstat f)) eqn:E; [|done]. by apply Hr, fo_doubt. }
    pose proof (recovery_len_nonneg f).
    exists (events + preparation_len f). split; [apply checked_add_Some; lia|].
    exists (events + field_len f). split.
    { apply add_lengths_spec; [lia|]. unfold field_len, recovery_len in *. lia. }
    exists tt. split.
    { apply orb_false_iff; split; [apply orb_false_iff; split|].
      - destruct (preparation f) as [a|] eqn:E; [|done]. simpl. by rewrite (fo_preparation f Hok a E).
      - apply Nat.ltb_ge, Hok.
      - apply existsb_none. intros a Ha. apply negb_false_iff.
        pose proof (fo_recovery f Hok) as Hf. rewrite Forall_forall in Hf. by apply Hf, list_elem_of_In. }
    exists tt. split; [by apply check_settled_spec, Hok|].
    exists (owned f). split; [done|]. exists tt. split; [|unfold field_len; done].
    destruct (owned f) eqn:E; [done|]. simpl. apply existsb_none. intros a Ha.
    pose proof (fo_owned f Hok E) as Hf. rewrite Forall_forall in Hf.
    rewrite bool_decide_true; [done|]. by apply Hf, list_elem_of_In.
Qed.

(** The next step of a run that ends well. *)
Ltac next_bind H k :=
  let H1 := fresh "Hb" in apply bind_outcome_Ok in H as (? & H1 & H); k H1.

Lemma check_field_has_steps st f st' : check_field st f = Some (Ok st') -> sound f.
Proof.
  destruct st as [[events ps] rs]. unfold check_field. intros H. next_bind H ltac:(fun H1 => idtac).
  next_bind H ltac:(fun H1 => apply (proj1 (run_Ok _ _)) in H1; pose proof (sound_of_status _ _ H1)).
  split; [done|]. do 5 next_bind H ltac:(fun H1 => clear H1).
  next_bind H ltac:(fun H1 => apply (proj1 (outcome_require_Ok _ _ _)), negb_true_iff in H1; rename H1 into Hv).
  clear H. rename Hv into H.
  apply orb_false_iff in H as [_ H]. apply Forall_forall. intros a Ha.
  destruct (attempt_valid true a) eqn:E; [by eapply valid_has_steps|].
  assert (existsb (fun a => negb (attempt_valid true a)) (recovery f) = true); [|congruence].
  apply existsb_exists. exists a. rewrite E. split; [by apply list_elem_of_In|done].
Qed.

Lemma check_fields_spec l : forall events ps rs e',
  events <= U64_MAX ->
  (exists ps' rs', check_fields (events, ps, rs) l = Some (Ok (e', ps', rs'))) <->
  chain ps rs l /\ e' = events + total l /\ e' <= U64_MAX.
Proof.
  induction l as [|f l IH]; intros events ps rs e' He.
  - simpl. split; [intros (? & ? & [= <- _ _]); split; [done|lia]|].
    intros (_ & -> & _). exists ps, rs. repeat f_equal. lia.
  - cbn [check_fields chain total foldr]. change (foldr _ 0 l) with (total l).
    pose proof (field_len_nonneg f). pose proof (total_nonneg l). split.
    + intros (ps' & rs' & H1). apply bind_outcome_Ok in H1 as (st & H1 & H2).
      pose proof (check_field_has_steps _ _ _ H1) as Hs.
      apply check_field_sound in H1 as (Hok & Hp & Hr & Hle & ->); [|done|done].
      assert (chain (ps || negb (owned f)) (rs || negb (is_restored f)) l
              /\ e' = events + field_len f + total l /\ e' <= U64_MAX) as (Hc & -> & Hb).
      { apply IH; [done|]. by exists ps', rs'. }
      split; [done|]. lia.
    + intros ((Hok & Hp & Hr & Hc) & -> & Hb).
      destruct (IH (events + field_len f) (ps || negb (owned f)) (rs || negb (is_restored f))
                  (events + (field_len f + total l)) ltac:(lia)) as [_ H1].
      destruct H1 as (ps' & rs' & H1); [split; [done|lia]|].
      exists ps', rs'. apply bind_outcome_Ok. eexists. split; [|exact H1].
      apply check_field_sound; [by apply field_ok_sound|done|]. repeat split; (done || lia || apply Hok).
Qed.

Definition header_ok (endpoint : string) (subject : Value) (count : nat) (p : Provenance) : Prop :=
  codec p = codec_name /\ endpoint_hash p = hash_endpoint endpoint
  /\ subject_hash p = hash_subject subject /\ length (fields p) = count.

Lemma validate_iff p endpoint subject count :
  validate p endpoint subject count = Some (Ok tt) <-> header_ok endpoint subject count p /\ inv p.
Proof.
  unfold validate, header_ok.
  rewrite bind_outcome_Ok. setoid_rewrite outcome_require_Ok. setoid_rewrite negb_true_iff.
  repeat setoid_rewrite orb_false_iff. repeat setoid_rewrite negb_false_iff.
  setoid_rewrite str_eqb_eq. setoid_rewrite Nat.eqb_eq. setoid_rewrite Z.ltb_ge.
  assert (0 <= completed_event (completed p) <= 1) as Hc by (destruct (completed p); simpl; lia).
  split.
  - intros (_ & ((((H1 & H2) & H3) & H4) & H5) & H).
    apply bind_outcome_Ok in H as ([[e ps] rs] & Hf & H).
    apply bind_outcome_Ok in H as (? & He%outcome_require_Ok%Z.eqb_eq & H).
    assert (chain false false (fields p) /\ e = completed_event (completed p) + total (fields p)
            /\ e <= U64_MAX) as (Hch & -> & Hb).
    { apply check_fields_spec; [unfold U64_MAX; lia|]. by exists ps, rs. }
    split; [done|]. split; try done. intros Hd. rewrite Hd in H.
    pose proof (chain_sound _ _ _ Hch) as Hs.
    rewrite (restored_all_sound p Hs), (uncertain_sound p Hs) in H. simpl in H.
    destruct (forallb is_restored (fields p)); simpl in H; [|done].
    destruct (existsb in_doubt (fields p)); [done|]. done.
  - intros ((H1 & H2 & H3 & H4) & [Hev Hb Hch Hd]). exists tt. split; [done|].
    destruct (check_fields_spec (fields p) (completed_event (completed p)) false false
      (completed_event (completed p) + total (fields p))) as [_ Hf]; [unfold U64_MAX; lia|].
    destruct Hf as (ps & rs & Hf).
    { split; [done|]. split; [done|]. rewrite Hev. unfold MAX_REVISION, U64_MAX in *. lia. }
    rewrite Hf. cbn [bind_outcome]. rewrite (proj2 (Z.eqb_eq _ _) Hev). cbn [bind_outcome require].
    destruct (completed p); [|done]. specialize (Hd eq_refl) as [Hd1 Hd2].
    pose proof (chain_sound _ _ _ Hch) as Hs.
    rewrite (restored_all_sound p Hs), (uncertain_sound p Hs), Hd1, Hd2. done.
Qed.

(** ** Every operation preserves it *)

Lemma chain_app ps rs pre suf :
  chain ps rs (pre ++ suf) <->
  chain ps rs pre /\ chain (ps || negb (forallb owned pre)) (rs || negb (forallb is_restored pre)) suf.
Proof.
  revert ps rs. induction pre as [|f pre IH]; intros ps rs; simpl.
  - rewrite !orb_false_r. tauto.
  - rewrite IH. assert (forall a b c, a || negb b || negb c = a || negb (b && c)) as Hb
      by (by intros [] [] []).
    rewrite !Hb. tauto.
Qed.

Lemma chain_mono ps rs ps' rs' l :
  chain ps rs l -> (ps' = true -> ps = true) -> (rs' = true -> rs = true) -> chain ps' rs' l.
Proof.
  revert ps rs ps' rs'. induction l as [|f l IH]; intros ps rs ps' rs'; simpl; [done|].
  intros (Hf & Hp & Hr & H) H1 H2. split; [done|]. split; [auto|]. split; [auto|].
  eapply IH; [exact H|..]; rewrite !orb_true_iff; tauto.
Qed.

Lemma total_app a b : total (a ++ b) = total a + total b.
Proof. induction a as [|f a IH]; simpl; [lia|]. change (foldr _ 0 (a ++ b)) with (total (a ++ b)). rewrite IH. unfold total. lia. Qed.

(** A list split at an index. *)
Lemma split_at (l : list FieldProvenance) i f :
  l !! i = Some f -> exists pre suf, l = pre ++ f :: suf /\ take i l = pre
    /\ forall g, alter g i l = pre ++ g f :: suf.
Proof.
  revert i. induction l as [|x l IH]; intros [|i]; simpl; try done.
  - intros [= ->]. by exists [], l.
  - intros (pre & suf & E & Ht & Ha)%IH. exists (x :: pre), suf. rewrite Ht, E.
    split; [done|]. split; [done|]. intros g. simpl. f_equal. rewrite <- E. apply Ha.
Qed.

Lemma chain_replace ps rs pre f f' suf :
  chain ps rs (pre ++ f :: suf) -> field_ok f' ->
  (preparation f' <> None -> preparation f = None -> forallb owned pre = true /\ ps = false) ->
  (recovery f' <> [] -> recovery f = [] -> forallb is_restored pre = true /\ rs = false) ->
  (owned f = true -> owned f' = true) -> (is_restored f = true -> is_restored f' = true) ->
  chain ps rs (pre ++ f' :: suf).
Proof.
  rewrite !chain_app. simpl. intros (Hpre & _ & Hp & Hr & Hsuf) Hok H1 H2 H3 H4.
  split; [done|]. split; [done|].
  split; [|split].
  - intros Hs. specialize (Hp Hs). destruct (preparation f') eqn:E; [|done].
    destruct H1 as [H1 ->]; [done|done|]. by rewrite H1 in Hs.
  - intros Hs. specialize (Hr Hs). destruct (recovery f') eqn:E; [done|].
    destruct H2 as [H2 ->]; [done|done|]. by rewrite H2 in Hs.
  - eapply chain_mono; [exact Hsuf|..]; intros [->|Ha]%orb_true_iff; try done;
      apply orb_true_iff; right; apply negb_true_iff in Ha; apply negb_true_iff.
    + destruct (owned f); [by rewrite H3 in Ha|done].
    + destruct (is_restored f); [by rewrite H4 in Ha|done].
Qed.

(** *** The shapes of an attempt *)

Definition shapes (rec : bool) : list (list Step) :=
  [[Intent]; [Intent; PossibleDispatch]; [Intent; NotDispatched];
   [Intent; PossibleDispatch; Accepted]; [Intent; PossibleDispatch; NotDispatched];
   [Intent; PossibleDispatch; Rejected]; [Intent; PossibleDispatch; Unknown]]
  ++ (if rec then [[ObservedBefore]] else []).

Lemma attempt_valid_iff rec a :
  attempt_valid rec a = true <-> fence_valid (fence a) = true /\ In (steps a) (shapes rec).
Proof.
  unfold attempt_valid, shapes. destruct (fence_valid (fence a)); simpl; [|naive_solver].
  split.
  - intros H. split; [done|].
    destruct (steps a) as [|[] [|[] [|[] [|? ?]]]]; destruct rec; simpl in H; try done; simpl; tauto.
  - intros [_ H]. simpl in H.
    destruct H as [<-|[<-|[<-|[<-|[<-|[<-|[<-|H]]]]]]]; try done.
    destruct rec; [|done]. destruct H as [<-|[]]. done.
Qed.

Lemma status_push s a : status_of (push_step s a) = s.
Proof. unfold status_of. simpl. by rewrite last_snoc. Qed.

Lemma push_valid rec a next :
  attempt_valid rec a = true -> may_follow (status_of a) next = true ->
  attempt_valid rec (push_step next a) = true.
Proof.
  rewrite !attempt_valid_iff. intros [Hf H] Hm. split; [done|].
  simpl in H. unfold status_of in Hm. cbn [push_step steps].
  destruct H as [H|[H|[H|[H|[H|[H|[H|H]]]]]]].
  all: try (destruct rec; [destruct H as [H|[]]|done]).
  all: rewrite <- H in Hm |- *; simpl in Hm |- *; destruct next; simpl in Hm; try done; tauto.
Qed.

Lemma push_last_snoc s l a : push_last s (l ++ [a]) = l ++ [push_step s a].
Proof.
  unfold push_last. rewrite length_app, Nat.add_1_r. cbn [pred].
  induction l as [|x l IH]; [done|]. cbn [length app]. by rewrite <- IH.
Qed.

Lemma take_snoc {A} (l : list A) a : take (length (l ++ [a]) - 1) (l ++ [a]) = l.
Proof. rewrite length_app, Nat.add_sub. by rewrite take_app_length. Qed.

Lemma last_In {A} (l : list A) a : last l = Some a -> exists l', l = l' ++ [a].
Proof. apply last_Some. Qed.

Lemma rstat_snoc pr l a : rstat (mkField pr (l ++ [a])) = Some (status_of a).
Proof. unfold rstat. simpl. by rewrite last_snoc. Qed.

Lemma has_recovery_false f : has_recovery f = false <-> recovery f = [].
Proof. unfold has_recovery. rewrite negb_false_iff. apply bool_decide_eq_true. Qed.

Lemma no_recovery_at l i f :
  existsb has_recovery l = false -> l !! i = Some f -> recovery f = [].
Proof.
  intros H Hi. apply has_recovery_false. destruct (has_recovery f) eqn:E; [|done].
  assert (existsb has_recovery l = true); [|congruence]. apply existsb_exists. exists f.
  split; [|done]. eapply list_elem_of_In, list_elem_of_lookup_2, Hi.
Qed.

Lemma field_ok_at ps rs l i f : chain ps rs l -> l !! i = Some f -> field_ok f.
Proof.
  intros H Hi. destruct (split_at l i f Hi) as (pre & suf & -> & _). rewrite chain_app in H. apply H.
Qed.

(** *** Each edit keeps its field well formed, adds one event and takes nothing back *)

Definition extensions (l l' : list Attempt) : bool :=
  forallb (fun '(old, new) => attempt_extension (Some old) (Some new)) (combine l l').

Lemma extension_refl o : attempt_extension o o = true.
Proof. destruct o as [a|]; simpl; [|done]. by rewrite bool_decide_true. Qed.

Lemma extension_push s a : attempt_extension (Some a) (Some (push_step s a)) = true.
Proof.
  simpl. apply orb_true_iff. right. rewrite length_app. simpl. rewrite Nat.eqb_refl, take_app_length.
  by rewrite !bool_decide_true.
Qed.

Lemma extension_list l k :
  extensions l (l ++ k) = true.
Proof.
  induction l as [|a l IH]; [done|]. unfold extensions in *. cbn [combine app forallb]. by rewrite (extension_refl (Some a)), IH.
Qed.

Lemma extensions_refl l : extensions l l = true.
Proof. rewrite <- (app_nil_r l) at 2. apply extension_list. Qed.

Lemma extension_last l s a : extensions (l ++ [a]) (l ++ [push_step s a]) = true.
Proof.
  unfold extensions. induction l as [|x l IH]; cbn [combine app forallb].
  - by rewrite extension_push.
  - by rewrite (extension_refl (Some x)), IH.
Qed.

Record good_edit (f f' : FieldProvenance) : Prop := {
  ge_ok : field_ok f';
  ge_len : field_len f' = field_len f + 1;
  ge_owned : owned f = true -> owned f' = true;
  ge_restored : is_restored f = true -> is_restored f' = true;
  ge_preparation : attempt_extension (preparation f) (preparation f') = true;
  ge_recovery : extensions (recovery f) (recovery f') = true;
  ge_attempts : length (recovery f') = length (recovery f)
    \/ (length (recovery f') = S (length (recovery f))
        /\ exists a, last (recovery f') = Some a /\ attempt_valid true a = true)
}.

Lemma edit_preparation fe f :
  fence_valid fe = true -> preparation f = None -> recovery f = [] ->
  good_edit f (set_preparation (mkAttempt fe [Intent]) f).
Proof.
  intros Hf Hp Hr. unfold set_preparation. split.
  - split; simpl; rewrite ?Hr; simpl; [|constructor|unfold MAX_RECOVERY_ATTEMPTS; lia|done|constructor|intros _; constructor].
    intros a [= <-]. apply attempt_valid_iff. split; [done|]. simpl. tauto.
  - unfold field_len, preparation_len, recovery_len. rewrite Hp, Hr. done.
  - unfold owned, pstat. rewrite Hp. done.
  - unfold is_restored, rstat. rewrite Hr. done.
  - rewrite Hp. done.
  - apply extensions_refl.
  - by left.
Qed.

Lemma recovery_len_snoc pr l a : recovery_len (mkField pr (l ++ [a])) = recovery_len (mkField pr l) + steps_len a.
Proof. unfold recovery_len. simpl. induction l as [|x l IH]; simpl; lia. Qed.

Lemma open_not_restored f : is_none (rstat f) || is_open (rstat f) = true -> is_restored f = false.
Proof. unfold is_restored. by destruct (rstat f) as [[]|]. Qed.

Lemma edit_push f a s :
  field_ok f -> steps a = [s] -> attempt_valid true a = true ->
  (length (recovery f) < MAX_RECOVERY_ATTEMPTS)%nat ->
  is_none (rstat f) || is_open (rstat f) = true ->
  uncertain_status (pstat f) = false ->
  (owned f = true \/ s = ObservedBefore) ->
  good_edit f (push_recovery a f).
Proof.
  intros Hok Hs Hv Hl Ho Hu Hor. unfold push_recovery. split.
  - split; simpl.
    + apply Hok.
    + apply Forall_app. split; [apply Hok|]. by constructor.
    + rewrite length_app. simpl. lia.
    + intros H. unfold uncertain_status, pstat in *. simpl in H. congruence.
    + rewrite take_snoc. unfold rstat in Ho. destruct (last (recovery f)) as [b|] eqn:E.
      * destruct (last_In _ _ E) as [l' Hl']. rewrite Hl'. pose proof (fo_settled f Hok) as H.
        rewrite Hl', take_snoc in H. apply Forall_app. split; [done|]. by constructor.
      * apply last_None in E as ->. constructor.
    + intros H. destruct Hor as [Hw| ->]; [unfold owned, pstat in *; simpl in H; congruence|].
      apply Forall_app. split; [by apply (fo_owned f Hok)|]. by constructor.
  - unfold field_len. rewrite recovery_len_snoc. unfold preparation_len, recovery_len, steps_len.
    rewrite Hs. simpl. lia.
  - done.
  - rewrite open_not_restored; done.
  - apply extension_refl.
  - apply extension_list.
  - right. simpl. rewrite length_app, last_snoc. simpl. split; [lia|]. by exists a.
Qed.

Lemma edit_advance_preparation f a next :
  field_ok f -> preparation f = Some a -> recovery f = [] ->
  may_follow (status_of a) next = true -> good_edit f (advance_field false next f).
Proof.
  intros Hok Ha Hr Hm. unfold advance_field. rewrite Ha, Hr. simpl. split.
  - split; simpl; [|constructor|unfold MAX_RECOVERY_ATTEMPTS; lia|done|constructor|intros _; constructor].
    intros b [= <-]. apply push_valid; [by apply Hok|done].
  - unfold field_len, preparation_len, recovery_len, steps_len. rewrite Ha, Hr. simpl.
    rewrite length_app. simpl. lia.
  - unfold owned, pstat. rewrite Ha. simpl. intros H%bool_decide_eq_true. injection H as H.
    rewrite H in Hm. done.
  - unfold is_restored, rstat. rewrite Hr. done.
  - rewrite Ha. apply extension_push.
  - rewrite Hr. done.
  - left. by rewrite Hr.
Qed.

Lemma edit_advance_recovery f a next :
  field_ok f -> last (recovery f) = Some a -> may_follow (status_of a) next = true ->
  good_edit f (advance_field true next f).
Proof.
  intros Hok [l Hl]%last_In Hm. unfold advance_field. rewrite Hl, push_last_snoc. split.
  - pose proof (fo_settled f Hok) as Hset. pose proof (fo_recovery f Hok) as Hrec.
    pose proof (fo_bound f Hok) as Hb. rewrite Hl in Hset, Hrec, Hb. rewrite take_snoc in Hset.
    apply Forall_app in Hrec as [Hrec Ha]. rewrite Forall_singleton in Ha. split; simpl.
    + apply Hok.
    + apply Forall_app. split; [done|]. constructor; [|constructor]. by apply push_valid.
    + rewrite length_app in *. simpl in *. lia.
    + intros H. assert (recovery f = []) as E by (apply (fo_doubt f Hok); exact H).
      rewrite Hl in E. by destruct l.
    + by rewrite take_snoc.
    + intros H. pose proof (fo_owned f Hok H) as Hw. rewrite Hl in Hw.
      apply Forall_app in Hw as [_ Hw]. rewrite Forall_singleton in Hw. unfold status_of in Hm.
      rewrite Hw in Hm. done.
  - unfold field_len. rewrite recovery_len_snoc.
    assert (recovery_len f = recovery_len (mkField (preparation f) l) + steps_len a) as ->.
    { rewrite <- recovery_len_snoc. unfold recovery_len. by rewrite Hl. }
    unfold preparation_len, steps_len. simpl. rewrite length_app. simpl. lia.
  - done.
  - unfold is_restored. rewrite rstat_snoc, status_push. unfold rstat. rewrite Hl, last_snoc. simpl.
    intros H. destruct (status_of a); done.
  - apply extension_refl.
  - rewrite Hl. apply extension_last.
  - left. rewrite Hl. cbn [recovery]. by rewrite !length_app.
Qed.

(** What a permitted operation other than [complete] does: one good edit of one field, whose
    first preparation or recovery attempt finds every earlier field prepared or restored. *)
Definition edits (o : op) (l l' : list FieldProvenance) : Prop :=
  exists pre f f' suf,
    l = pre ++ f :: suf /\ l' = pre ++ f' :: suf /\ good_edit f f'
    /\ (preparation f' <> None -> preparation f = None -> forallb owned pre = true)
    /\ (recovery f' <> [] -> recovery f = [] -> forallb is_restored pre = true)
    /\ (preparation f' <> preparation f -> existsb has_recovery l = false).

Lemma guard_edits o p :
  chain false false (fields p) -> guard o p = true -> o <> Complete ->
  edits o (fields p) (edit o (fields p)).
Proof.
  intros Hc Hg Hn. destruct o as [i fe|i fe|i rec next|i fe|]; [..|done]; simpl in Hg;
    to_prop; repeat match goal with H : _ /\ _ |- _ => destruct H end;
    match goal with H : is_some_and _ _ = true |- _ =>
      apply is_some_and_true in H as (f & Hi & Hf) end;
    destruct (split_at _ _ _ Hi) as (pre & suf & Hl & Ht & Ha);
    pose proof (field_ok_at _ _ _ _ _ Hc Hi) as Hok; to_prop;
    simpl edit; rewrite Ha.
  - destruct Hf as [Hp Hr%has_recovery_false]. assert (preparation f = None) by (by destruct (preparation f)).
    exists pre, f, (set_preparation (mkAttempt fe [Intent]) f), suf. split; [done|]. split; [done|].
    split; [by apply edit_preparation|]. split; [by rewrite <- Ht|]. split; [done|done].
  - destruct Hf as ((Ho & Hlen) & Hs). apply Nat.ltb_lt in Hlen.
    exists pre, f, (push_recovery (mkAttempt fe [Intent]) f), suf. split; [done|]. split; [done|].
    split; [|split; [by rewrite <- Ht|split; [by rewrite <- Ht|done]]].
    eapply edit_push; try done; [..|by apply orb_true_iff| |by left].
    + apply attempt_valid_iff. split; [done|]. simpl. tauto.
    + unfold owned in Ho. apply bool_decide_eq_true in Ho. by rewrite Ho.
  - apply is_some_and_true in Hf as (a & Hat & Hm).
    exists pre, f, (advance_field rec next f), suf. split; [done|]. split; [done|].
    destruct rec.
    + split; [by eapply edit_advance_recovery|].
      split; [by intros ? ?|]. split; [|done]. intros _ E. by rewrite E in Hat.
    + assert (existsb has_recovery (fields p) = false) as Hx by (by destruct (existsb has_recovery (fields p)); destruct H).
      split; [eapply edit_advance_preparation; [done|exact Hat| |done]; by eapply no_recovery_at|].
      split; [intros _ E; by rewrite E in Hat|]. split; [|done].
      simpl. intros E1 E2. done.
  - destruct Hf as ((Hu & Hs) & Hlen). apply Nat.ltb_lt in Hlen.
    exists pre, f, (push_recovery (mkAttempt fe [ObservedBefore]) f), suf. split; [done|]. split; [done|].
    split; [|split; [by intros ? ?|split; [by rewrite <- Ht|done]]].
    eapply edit_push; try done; [..|by apply orb_true_iff|by right].
    apply attempt_valid_iff. split; [done|]. simpl. tauto.
Qed.

Lemma refusal_none o p :
  refusal o p = None <-> guard o p = true /\ completed p = false /\ revision p + 1 <= MAX_REVISION.
Proof.
  unfold refusal. destruct (guard o p), (completed p); simpl; try naive_solver.
  destruct (Z.ltb_spec MAX_REVISION (revision p + 1)); split; try done; lia.
Qed.

Lemma journal_step_inv o p : inv p -> refusal o p = None -> inv (next_of o p).
Proof.
  intros [Hev Hb Hc Hd] (Hg & Hcp & Hr)%refusal_none.
  destruct (decide (o = Complete)) as [->|Hn].
  - simpl in Hg. apply andb_true_iff in Hg as [Hg1%negb_true_iff Hg2].
    split; simpl; try done. rewrite Hcp in Hev. simpl in Hev. lia.
  - destruct (guard_edits o p Hc Hg Hn) as (pre & f & f' & suf & Hl & Hl' & Hge & H1 & H2 & H3).
    assert (completed (next_of o p) = false) as Hcp' by (by destruct o).
    split.
    + rewrite Hcp'. rewrite Hcp, Hl in Hev. simpl. rewrite Hl'. rewrite total_app in *. simpl in *.
      rewrite (ge_len _ _ Hge). lia.
    + simpl. lia.
    + simpl. rewrite Hl'. rewrite Hl in Hc. eapply chain_replace; [exact Hc|..]; try apply Hge.
      * intros Ha Hb'. split; [by apply H1|done].
      * intros Ha Hb'. split; [by apply H2|done].
    + by rewrite Hcp'.
Qed.

Lemma new_inv endpoint subject count :
  header_ok endpoint subject count (provenance_new endpoint subject count)
  /\ inv (provenance_new endpoint subject count).
Proof.
  unfold header_ok, provenance_new. simpl. rewrite length_replicate. split; [done|].
  split; simpl; [|unfold MAX_REVISION; lia| |done].
  - induction count; simpl; [done|]. exact IHcount.
  - assert (forall ps rs, chain ps rs (replicate count (mkField None []))) as H; [|apply H].
    induction count as [|n IH]; intros ps rs; simpl; [done|]. split; [|split; [done|split; [done|apply IH]]].
    split; simpl; [done|constructor|unfold MAX_RECOVERY_ATTEMPTS; lia|done|constructor|intros _; constructor].
Qed.

Lemma inv_sound p : inv p -> Forall sound (fields p).
Proof. intros H. eapply chain_sound, inv_chain, H. Qed.

Lemma apply_cases o p :
  inv p ->
  (exists e, apply o p = Some (Err e)) \/ (apply o p = Some (Ok (next_of o p)) /\ refusal o p = None).
Proof.
  intros H. rewrite (apply_sound o p (inv_sound p H)).
  destruct (refusal o p) as [e|]; [left; by exists e|by right].
Qed.

Lemma edit_length o l : length (edit o l) = length l.
Proof. destruct o; simpl; rewrite ?length_alter; done. Qed.

Lemma step_header endpoint subject count o p :
  header_ok endpoint subject count p -> header_ok endpoint subject count (next_of o p).
Proof. unfold header_ok. simpl. by rewrite edit_length. Qed.

(** C12: The journal never panics and is always valid. Whatever sequence of operations is played on
    a fresh journal, with any indices, fences and steps, no method panics, and the journal it
    leaves passes [validate] for the endpoint, subject and field count it was made for: what
    was written can be read back and trusted. *)
Theorem journal_always_valid endpoint subject count ops :
  exists p, play ops (provenance_new endpoint subject count) = Some p
    /\ validate p endpoint subject count = Some (Ok tt).
Proof.
  destruct (new_inv endpoint subject count) as [Hh Hi].
  revert Hh Hi. generalize (provenance_new endpoint subject count).
  induction ops as [|o ops IH]; intros p Hh Hi; simpl.
  - exists p. split; [done|]. by apply validate_iff.
  - destruct (apply_cases o p Hi) as [[e ->]|[-> Hr]]; [by apply IH|].
    apply IH; [by apply step_header|by apply journal_step_inv].
Qed.

(** ** [successor] and the operations *)

Lemma sum_events_spec l : forall t e,
  t <= U64_MAX -> sum_events t l = Some e <-> e = t + total l /\ e <= U64_MAX.
Proof.
  induction l as [|f l IH]; intros t e Ht; simpl.
  - split; [intros [= <-]; lia|]. intros [-> _]. f_equal. lia.
  - change (foldr _ 0 l) with (total l). pose proof (total_nonneg l). pose proof (recovery_len_nonneg f).
    unfold field_len. destruct (checked_add t (preparation_len f)) as [t1|] eqn:E1; simpl.
    + apply checked_add_Some in E1 as [-> H1].
      destruct (add_lengths (t + preparation_len f) (recovery f)) as [t2|] eqn:E2; simpl.
      * apply add_lengths_spec in E2 as [-> H2]; [|done]. rewrite IH by done. unfold recovery_len in *.
        split; intros [-> H3]; split; lia.
      * split; [done|]. intros [-> H2]. assert (add_lengths (t + preparation_len f) (recovery f)
          = Some (t + preparation_len f + recovery_len f)); [|congruence].
        apply add_lengths_spec; [done|]. unfold recovery_len in *. lia.
    + apply checked_add_None in E1. split; [done|]. intros [-> H2]. lia.
Qed.

Lemma inv_events_of p : inv p -> events_of p = Some (revision p).
Proof.
  intros [Hev Hb _ _]. unfold events_of. apply sum_events_spec.
  - destruct (completed p); simpl; unfold U64_MAX; lia.
  - unfold MAX_REVISION, U64_MAX in *. lia.
Qed.

(** Of an attempt and its extension: the same, or one step longer. *)
Lemma extension_cases a b :
  attempt_extension (Some a) (Some b) = true -> b = a \/ exists s, b = push_step s a.
Proof.
  unfold attempt_extension.
  intros [H%bool_decide_eq_true|[[Hf%bool_decide_eq_true Hl%Nat.eqb_eq]%andb_true_iff Ht%bool_decide_eq_true]%andb_true_iff]%orb_true_iff;
    [by left|right].
  destruct a as [fa sa], b as [fb sb]. simpl in *. subst fb.
  pose proof (take_drop (length sa) sb) as E. rewrite Ht in E.
  assert (length (drop (length sa) sb) = 1%nat) as Hd by (rewrite length_drop; lia).
  destruct (drop (length sa) sb) as [|s [|? ?]]; try done. exists s. by rewrite <- E.
Qed.

Lemma field_neq_len f f' : field_len f' = field_len f + 1 -> f <> f'.
Proof. intros H ->. lia. Qed.

Lemma compare_changed recovering f f' :
  good_edit f f' -> (preparation f' <> preparation f -> recovering = false) ->
  compare_field recovering f f' = Ok true.
Proof.
  intros Hge Hp. unfold compare_field.
  rewrite bool_decide_false by (apply field_neq_len, Hge).
  assert (negb (bool_decide (preparation f = preparation f')) && recovering = false) as ->.
  { destruct (decide (preparation f = preparation f')) as [E|E].
    - by rewrite bool_decide_true.
    - by rewrite Hp, andb_false_r by done. }
  pose proof (ge_recovery _ _ Hge) as Hr. unfold extensions in Hr.
  rewrite (ge_preparation _ _ Hge), Hr. cbn [negb orb].
  destruct (ge_attempts _ _ Hge) as [Hl|[Hl (a & Ha & Hv)]]; rewrite Hl.
  - rewrite Nat.ltb_irrefl. rewrite (proj2 (Nat.ltb_ge _ _)) by lia.
    rewrite (proj2 (Nat.eqb_neq _ _)) by lia. done.
  - rewrite (proj2 (Nat.ltb_ge _ _)) by lia. rewrite (proj2 (Nat.ltb_ge _ _)) by lia.
    rewrite Ha. simpl. by rewrite Hv, andb_false_r.
Qed.

Lemma candidates_refl r l : candidates r l l = Ok 0%nat.
Proof.
  induction l as [|f l IH]; simpl; [done|]. unfold compare_field. rewrite bool_decide_true by done.
  simpl. by rewrite IH.
Qed.

Lemma candidates_one r pre f f' suf :
  compare_field r f f' = Ok true -> candidates r (pre ++ f :: suf) (pre ++ f' :: suf) = Ok 1%nat.
Proof.
  intros H. induction pre as [|x pre IH]; simpl.
  - by rewrite H, candidates_refl.
  - unfold compare_field at 1. rewrite bool_decide_true by done. simpl. by rewrite IH.
Qed.

(** What an operation writes is accepted as the successor of what it read. *)
Lemma step_successor o p :
  inv p -> refusal o p = None -> successor p (next_of o p) = Some (Ok tt).
Proof.
  intros Hi Hr. pose proof (journal_step_inv o p Hi Hr) as Hi'. unfold successor.
  rewrite (inv_events_of p Hi), (inv_events_of _ Hi'), !bool_decide_true by done. cbn [andb require bind_outcome].
  rewrite bool_decide_false by (intros E; apply (f_equal revision) in E; simpl in E; lia).
  destruct Hi as [Hev Hb Hc Hd]. apply refusal_none in Hr as (Hg & Hcp & Hrev).
  rewrite Hcp. simpl codec. simpl endpoint_hash. simpl subject_hash. simpl revision. simpl fields.
  rewrite !str_eqb_refl, edit_length, Nat.eqb_refl. cbn [negb orb require bind_outcome].
  assert (checked_add (revision p) 1 = Some (revision p + 1)) as ->.
  { apply checked_add_Some. unfold MAX_REVISION, U64_MAX in *. lia. }
  cbn [lift ok_or bind_outcome]. rewrite Z.eqb_refl. cbn [require bind_outcome].
  destruct (decide (o = Complete)) as [->|Hn].
  - simpl edit. rewrite candidates_refl. simpl in Hg. apply andb_true_iff in Hg as [Hg1%negb_true_iff Hg2].
    cbn [bind_outcome]. simpl completed. cbn [Nat.eqb negb].
    rewrite (restored_all_sound p), (uncertain_sound (next_of Complete p)) by (simpl; eapply chain_sound, Hc).
    simpl. by rewrite Hg1, Hg2.
  - destruct (guard_edits o p Hc Hg Hn) as (pre & f & f' & suf & Hl & Hl' & Hge & _ & _ & H3).
    rewrite Hl', Hl, (candidates_one _ pre f f' suf).
    + cbn [bind_outcome]. by assert (completed (next_of o p) = false) as -> by (by destruct o).
    + apply compare_changed; [done|]. by rewrite <- Hl.
Qed.


Definition attempts_len (l : list Attempt) : Z := foldr (fun a n => steps_len a + n) 0 l.

Lemma attempts_len_cons a l : attempts_len (a :: l) = steps_len a + attempts_len l.
Proof. done. Qed.

Lemma attempts_len_app l k : attempts_len (l ++ k) = attempts_len l + attempts_len k.
Proof. induction l as [|a l IH]; [done|]. cbn [app attempts_len foldr]. fold (attempts_len (l ++ k)). fold (attempts_len l). lia. Qed.

Lemma attempts_len_nonneg l : 0 <= attempts_len l.
Proof.
  induction l as [|a l IH]; [done|]. cbn [attempts_len foldr]. fold (attempts_len l).
  pose proof (steps_len_nonneg a). lia.
Qed.

Lemma steps_len_push s a : steps_len (push_step s a) = steps_len a + 1.
Proof. unfold steps_len. simpl. rewrite length_app. simpl. lia. Qed.

(** A list of attempts and its extensions, counted by the steps that were added. *)
Lemma extensions_cases l : forall k,
  extensions l k = true -> length k = length l ->
  k = l \/ attempts_len l + 1 < attempts_len k
  \/ exists l1 a s l2, l = l1 ++ a :: l2 /\ k = l1 ++ push_step s a :: l2.
Proof.
  induction l as [|a l IH]; intros [|b k] He Hl; try done; [by left|].
  unfold extensions in He. cbn [combine forallb] in He. apply andb_true_iff in He as [Hb He].
  apply extension_cases in Hb. injection Hl as Hl.
  cbn [attempts_len foldr]. fold (attempts_len l). fold (attempts_len k).
  destruct (IH k He Hl) as [-> |[Hlt|(l1 & x & s & l2 & -> & ->)]], Hb as [-> |[s' ->]].
  - by left.
  - right. right. by exists [], a, s', l.
  - right. left. lia.
  - right. left. rewrite steps_len_push. lia.
  - right. right. by exists (a :: l1), x, s, l2.
  - right. left. rewrite !attempts_len_app. cbn [attempts_len foldr]. rewrite !steps_len_push. lia.
Qed.

Lemma extensions_take l k : extensions l (take (length l) k) = extensions l k.
Proof.
  unfold extensions. revert k. induction l as [|a l IH]; intros [|b k]; try done.
  cbn [length take combine forallb]. by rewrite IH.
Qed.

Lemma push_follows rec a s :
  attempt_valid rec a = true -> attempt_valid rec (push_step s a) = true ->
  may_follow (status_of a) s = true.
Proof.
  rewrite !attempt_valid_iff. intros [_ H] [_ H']. simpl in H, H'. unfold status_of.
  destruct H as [H|[H|[H|[H|[H|[H|[H|H]]]]]]].
  all: try (destruct rec; [destruct H as [H|[]]|done]).
  all: rewrite <- H in H' |- *; simpl in H'; destruct s; simpl; try done.
  all: exfalso; repeat (destruct H' as [H'|H']; [done|]); try destruct rec; simpl in H';
    repeat (destruct H' as [H'|H']; [done|]); done.
Qed.

Lemma open_cannot_follow a s :
  is_open (Some (status_of a)) = true -> may_follow (status_of a) s = false.
Proof. by destruct (status_of a). Qed.

(** The one event by which an accepted successor differs from its predecessor. *)
Inductive one_event (f f' : FieldProvenance) : Prop :=
| ev_prepare fe : preparation f = None -> f' = set_preparation (mkAttempt fe [Intent]) f ->
    one_event f f'
| ev_advance_preparation a s : preparation f = Some a -> may_follow (status_of a) s = true ->
    f' = advance_field false s f -> one_event f f'
| ev_advance_recovery a s : last (recovery f) = Some a -> may_follow (status_of a) s = true ->
    f' = advance_field true s f -> one_event f f'
| ev_recover fe : f' = push_recovery (mkAttempt fe [Intent]) f -> one_event f f'
| ev_observe fe : f' = push_recovery (mkAttempt fe [ObservedBefore]) f -> one_event f f'.

Lemma attempt_singleton a s : steps a = [s] -> a = mkAttempt (fence a) [s].
Proof. destruct a. simpl. by intros ->. Qed.

Lemma shape_singleton rec a : attempt_valid rec a = true -> steps_len a <= 1 ->
  steps a = [Intent] \/ steps a = [ObservedBefore].
Proof.
  rewrite attempt_valid_iff. intros [_ H] Hl. unfold steps_len in Hl. simpl in H.
  destruct H as [H|[H|[H|[H|[H|[H|[H|H]]]]]]]; rewrite <- ?H in *; simpl in Hl; try lia; try tauto.
  destruct rec; [|done]. destruct H as [H|[]]. auto.
Qed.

Lemma compare_field_inv r f f' :
  compare_field r f f' = Ok true ->
  f <> f' /\ (preparation f <> preparation f' -> r = false)
  /\ attempt_extension (preparation f) (preparation f') = true
  /\ extensions (recovery f) (recovery f') = true
  /\ (length (recovery f') = length (recovery f) \/ length (recovery f') = S (length (recovery f))).
Proof.
  unfold compare_field, extensions. destruct (bool_decide_reflect (f = f')) as [|Hne]; [done|].
  intros H. destruct (negb (bool_decide (preparation f = preparation f')) && r) eqn:E1; [done|].
  step_in H. step_in H. rewrite !orb_false_iff, negb_false_iff, !Nat.ltb_ge in *.
  split; [done|]. split.
  { intros Hp. rewrite bool_decide_false in E1 by done. by destruct r. }
  destruct Heqb as [[? ?] ?]. split; [done|]. split; [exact Heqb0|]. lia.
Qed.

Definition plen (o : option Attempt) : Z := match o with Some a => steps_len a | None => 0 end.

Lemma extension_plen pr pr' : attempt_extension pr pr' = true -> plen pr <= plen pr'.
Proof.
  destruct pr as [x|], pr' as [y|]; simpl; try done.
  - intros [-> |[s ->]]%(extension_cases x y); rewrite ?steps_len_push; lia.
  - intros _. apply steps_len_nonneg.
Qed.

(** A preparation that gained no step is the same preparation. *)
Lemma same_preparation pr pr' :
  attempt_extension pr pr' = true -> (forall y, pr' = Some y -> attempt_valid false y = true) ->
  plen pr' <= plen pr -> pr' = pr.
Proof.
  destruct pr as [x|], pr' as [y|]; try done.
  - intros [-> |[s ->]]%extension_cases _ Hl; [done|]. cbn [plen] in Hl. rewrite steps_len_push in Hl. lia.
  - intros _ Hv Hl. pose proof (valid_has_steps _ _ (Hv y eq_refl)) as Hs. unfold has_steps in Hs.
    cbn [plen] in Hl. unfold steps_len in Hl. by destruct (steps y).
Qed.

(** A preparation that gained one step was begun or advanced. *)
Lemma one_preparation pr pr' rc :
  attempt_extension pr pr' = true -> pr' <> pr ->
  (forall x, pr = Some x -> attempt_valid false x = true) ->
  (forall y, pr' = Some y -> attempt_valid false y = true) ->
  plen pr' = plen pr + 1 -> one_event (mkField pr rc) (mkField pr' rc).
Proof.
  destruct pr as [a|], pr' as [b|]; try done.
  - intros [-> |[s ->]]%extension_cases Hne Hv Hv' _; [done|].
    eapply ev_advance_preparation; [done| |done]. eapply push_follows; [by apply Hv|by apply Hv'].
  - intros _ _ _ Hv Hl. specialize (Hv b eq_refl). cbn [plen] in Hl.
    destruct (shape_singleton _ _ Hv ltac:(lia)) as [Hs|Hs].
    + apply (ev_prepare _ _ (fence b)); [done|]. unfold set_preparation. simpl.
      by rewrite <- (attempt_singleton _ _ Hs).
    + apply attempt_valid_iff in Hv as [_ Hv]. rewrite Hs in Hv. simpl in Hv.
      repeat (destruct Hv as [Hv|Hv]; [done|]). done.
Qed.

(** Only the last recovery attempt can have gained a step. *)
Lemma one_recovery pr l1 a s l2 :
  field_ok (mkField pr (l1 ++ a :: l2)) -> field_ok (mkField pr (l1 ++ push_step s a :: l2)) ->
  one_event (mkField pr (l1 ++ a :: l2)) (mkField pr (l1 ++ push_step s a :: l2)).
Proof.
  intros Hok Hok'. pose proof (fo_recovery _ Hok) as Hv. pose proof (fo_recovery _ Hok') as Hv'.
  simpl in Hv, Hv'. rewrite Forall_app, Forall_cons in Hv, Hv'.
  destruct Hv as (_ & Hv & _), Hv' as (_ & Hv' & _). pose proof (push_follows _ _ _ Hv Hv') as Hm.
  destruct l2 as [|x l2].
  - eapply ev_advance_recovery; [cbn [recovery]; by rewrite last_snoc|done|]. unfold advance_field.
    simpl. by rewrite push_last_snoc.
  - exfalso. pose proof (fo_settled _ Hok) as Hset. simpl in Hset.
    assert (In a (take (length (l1 ++ a :: x :: l2) - 1) (l1 ++ a :: x :: l2))) as Hin.
    { rewrite length_app. simpl.
      replace (length l1 + S (S (length l2)) - 1)%nat with (length l1 + S (length l2))%nat by lia.
      rewrite take_app_add. simpl. apply in_or_app. right. by left. }
    rewrite Forall_forall in Hset. rewrite (open_cannot_follow a s) in Hm; [done|].
    by apply Hset, list_elem_of_In.
Qed.

(** An attempt that was added with one step was begun or observed. *)
Lemma one_push pr rc b :
  attempt_valid true b = true -> steps_len b <= 1 ->
  one_event (mkField pr rc) (mkField pr (rc ++ [b])).
Proof.
  intros Hv Hb. destruct (shape_singleton _ _ Hv Hb) as [Hs|Hs].
  - apply (ev_recover _ _ (fence b)). unfold push_recovery. simpl. by rewrite <- (attempt_singleton _ _ Hs).
  - apply (ev_observe _ _ (fence b)). unfold push_recovery. simpl. by rewrite <- (attempt_singleton _ _ Hs).
Qed.

Lemma extensions_len l k : extensions l k = true -> length k = length l -> attempts_len l <= attempts_len k.
Proof.
  intros Hx Hl. destruct (extensions_cases _ _ Hx Hl) as [-> |[Hlt|(l1 & a & s & l2 & -> & ->)]]; [lia|lia|].
  rewrite !attempts_len_app, !attempts_len_cons, steps_len_push. lia.
Qed.

Lemma extensions_same l k :
  extensions l k = true -> length k = length l -> attempts_len k <= attempts_len l -> k = l.
Proof.
  intros Hx Hl Hn. destruct (extensions_cases _ _ Hx Hl) as [-> |[Hlt|(l1 & a & s & l2 & -> & ->)]]; [done|lia|].
  rewrite !attempts_len_app, !attempts_len_cons, steps_len_push in Hn. lia.
Qed.

Lemma one_event_of r f f' :
  compare_field r f f' = Ok true -> field_ok f -> field_ok f' -> field_len f' = field_len f + 1 ->
  one_event f f' /\ (preparation f <> preparation f' -> r = false).
Proof.
  intros (Hne & Hr & He & Hx & Hl)%compare_field_inv Hok Hok' Hlen. split; [|done].
  change (plen (preparation f') + attempts_len (recovery f')
          = plen (preparation f) + attempts_len (recovery f) + 1) in Hlen.
  pose proof (extension_plen _ _ He) as Hp. pose proof (fo_preparation _ Hok') as Hv'.
  pose proof (fo_preparation _ Hok) as Hv. destruct f as [pr rc], f' as [pr' rc']. simpl in *.
  destruct Hl as [Hl|Hl].
  - pose proof (extensions_len _ _ Hx Hl).
    destruct (extensions_cases rc rc' Hx Hl) as [-> |[Hlt|(l1 & a & s & l2 & -> & ->)]]; [|lia|].
    + apply one_preparation; try done; [|lia]. intros ->. done.
    + rewrite !attempts_len_app, !attempts_len_cons, steps_len_push in Hlen.
      rewrite (same_preparation pr pr' He Hv' ltac:(lia)) in *. by apply one_recovery.
  - rewrite <- extensions_take in Hx.
    assert (length (take (length rc) rc') = length rc) as Ht by (rewrite length_take; lia).
    pose proof (take_drop (length rc) rc') as Htd.
    assert (length (drop (length rc) rc') = 1%nat) as Hd by (rewrite length_drop; lia).
    destruct (drop (length rc) rc') as [|b [|? ?]]; try done. clear Hd.
    pose proof (fo_recovery _ Hok') as Hb. simpl in Hb. rewrite <- Htd in Hb.
    apply Forall_app in Hb as [_ Hb]. rewrite Forall_singleton in Hb.
    assert (1 <= steps_len b) as Hb1.
    { apply valid_has_steps in Hb. unfold has_steps, steps_len in *. destruct (steps b); simpl; [done|lia]. }
    rewrite <- Htd, attempts_len_app, attempts_len_cons in Hlen. change (attempts_len []) with 0 in Hlen.
    pose proof (extensions_len _ _ Hx Ht).
    pose proof (extensions_same _ _ Hx Ht ltac:(lia)) as E. rewrite E in Hlen, Htd. subst rc'.
    pose proof (same_preparation pr pr' He Hv' ltac:(lia)) as ->. apply one_push; [done|lia].
Qed.

Lemma candidates_zero r l : forall k, length k = length l -> candidates r l k = Ok 0%nat -> k = l.
Proof.
  induction l as [|f l IH]; intros [|f' k] Hl H; try done. simpl in H.
  apply bind_result_Ok in H as (c & Hc & (n & Hn & H)%bind_result_Ok). destruct c; [done|].
  injection H as ->. injection Hl as Hl. rewrite (IH k Hl Hn). f_equal.
  unfold compare_field in Hc. destruct (bool_decide_reflect (f = f')) as [|]; [done|].
  repeat step_in Hc.
Qed.

Lemma candidates_single r l : forall k,
  length k = length l -> candidates r l k = Ok 1%nat ->
  exists pre f f' suf, l = pre ++ f :: suf /\ k = pre ++ f' :: suf /\ compare_field r f f' = Ok true.
Proof.
  induction l as [|f l IH]; intros [|f' k] Hl H; try done. simpl in H.
  apply bind_result_Ok in H as (c & Hc & (n & Hn & H)%bind_result_Ok). injection Hl as Hl.
  destruct c.
  - injection H as ->. exists [], f, f', l. rewrite (candidates_zero r l k Hl Hn). done.
  - injection H as ->. destruct (IH k Hl Hn) as (pre & g & g' & suf & -> & -> & Hg).
    exists (f :: pre), g, g', suf. split; [done|]. split; [|done]. simpl. f_equal.
    unfold compare_field in Hc. destruct (bool_decide_reflect (f = f')) as [|]; [done|].
    repeat step_in Hc.
Qed.

Lemma edit_middle pre f suf o :
  match o with
  | BeginPreparation i fe => i = length pre -> edit o (pre ++ f :: suf) = pre ++ set_preparation (mkAttempt fe [Intent]) f :: suf
  | BeginRecovery i fe => i = length pre -> edit o (pre ++ f :: suf) = pre ++ push_recovery (mkAttempt fe [Intent]) f :: suf
  | Advance i rec s => i = length pre -> edit o (pre ++ f :: suf) = pre ++ advance_field rec s f :: suf
  | Observe i fe => i = length pre -> edit o (pre ++ f :: suf) = pre ++ push_recovery (mkAttempt fe [ObservedBefore]) f :: suf
  | Complete => True
  end.
Proof.
  assert (forall g, alter g (length pre) (pre ++ f :: suf) = pre ++ g f :: suf) as H.
  { intros g. induction pre as [|x pre IH]; [done|]. cbn [length app]. by rewrite <- IH. }
  destruct o; [..|done]; intros ->; apply H.
Qed.

Lemma lookup_middle_ (pre : list FieldProvenance) f suf : (pre ++ f :: suf) !! length pre = Some f.
Proof. by rewrite lookup_app_r, Nat.sub_diag by lia. Qed.

(** The operation behind an accepted change of one field. *)
Lemma event_guard p p' pre f f' suf :
  chain false false (fields p) -> chain false false (fields p') ->
  fields p = pre ++ f :: suf -> fields p' = pre ++ f' :: suf ->
  existsb in_doubt (fields p) = false -> one_event f f' ->
  (preparation f <> preparation f' -> existsb has_recovery (fields p) = false) ->
  exists o, guard o p = true /\ o <> Complete /\ edit o (fields p) = fields p'.
Proof.
  intros Hc Hc' Hl Hl' Hd Hev Hp. rewrite Hl in Hc. rewrite Hl' in Hc'. rewrite chain_app in Hc, Hc'.
  destruct Hc as (_ & Hok & _), Hc' as (_ & Hok' & Hps & Hrs & _). simpl in Hps, Hrs.
  assert (preparation f' <> None -> forallb owned pre = true) as Ho.
  { intros H. destruct (forallb owned pre); [done|]. by destruct H, Hps. }
  assert (recovery f' <> [] -> forallb is_restored pre = true) as Hr.
  { intros H. destruct (forallb is_restored pre); [done|]. by destruct H, Hrs. }
  pose proof (lookup_middle_ pre f suf) as Hi. rewrite <- Hl in Hi.
  assert (take (length pre) (fields p) = pre) as Ht by (rewrite Hl; apply take_app_length).
  assert (forall a, last (recovery f ++ [a]) = Some a) as Hlast by (intros; apply last_snoc).
  assert (forall a, f' = push_recovery a f ->
    (length (recovery f) < MAX_RECOVERY_ATTEMPTS)%nat /\ is_none (rstat f) || is_open (rstat f) = true
    /\ forallb is_restored pre = true /\ fence_valid (fence a) = true) as Hpush.
  { intros a ->. pose proof (fo_bound _ Hok') as Hb. simpl in Hb. rewrite length_app in Hb. simpl in Hb.
    split; [lia|]. split; [|split].
    - pose proof (fo_settled _ Hok') as Hs. simpl in Hs. rewrite take_snoc in Hs. unfold rstat.
      destruct (last (recovery f)) as [b|] eqn:E; [|done]. destruct (last_In _ _ E) as [l' E'].
      rewrite E' in Hs. apply Forall_app in Hs as [_ Hs]. rewrite Forall_singleton in Hs. exact Hs.
    - apply Hr. simpl. by destruct (recovery f).
    - pose proof (fo_recovery _ Hok') as Hv. simpl in Hv. apply Forall_app in Hv as [_ Hv].
      rewrite Forall_singleton in Hv. by apply attempt_valid_iff in Hv as [? _]. }
  destruct Hev as [fe Hn E|a s Ha Hm E|a s Ha Hm E|fe E|fe E].
  - exists (BeginPreparation (length pre) fe). split; [|split; [done|]].
    + simpl. rewrite Hi, Ht. simpl. assert (existsb has_recovery (fields p) = false) as Hx
        by (apply Hp; by rewrite Hn, E).
      rewrite Hx, Hn. pose proof (no_recovery_at _ _ _ Hx Hi) as H0%has_recovery_false. rewrite H0.
      pose proof (fo_preparation _ Hok') as Hv. rewrite E in Hv. specialize (Hv _ eq_refl).
      apply attempt_valid_iff in Hv as [Hv _]. simpl in Hv. rewrite Hv, Ho; [done|]. by rewrite E.
    + rewrite Hl, Hl', E. by apply (edit_middle pre f suf (BeginPreparation (length pre) fe)).
  - exists (Advance (length pre) false s). split; [|split; [done|]].
    + simpl. rewrite Hi. simpl. rewrite Ha. simpl. rewrite Hm, Hp; [done|]. rewrite E. simpl. rewrite Ha. simpl.
      intros [= H]. apply (f_equal steps_len) in H. rewrite steps_len_push in H. lia.
    + rewrite Hl, Hl', E. by apply (edit_middle pre f suf (Advance (length pre) false s)).
  - exists (Advance (length pre) true s). split; [|split; [done|]].
    + simpl. rewrite Hi. simpl. by rewrite Ha.
    + rewrite Hl, Hl', E. by apply (edit_middle pre f suf (Advance (length pre) true s)).
  - destruct (Hpush _ E) as (Hlen & Hst & Hrs' & Hfe). apply Nat.ltb_lt in Hlen.
    exists (BeginRecovery (length pre) fe). split; [|split; [done|]].
    + cbn [guard]. rewrite Hi, Ht, Hd, Hrs'. cbn [is_some_and]. simpl in Hfe. rewrite Hst, Hlen, Hfe.
      destruct (owned f) eqn:Eo; [done|]. exfalso. pose proof (fo_owned _ Hok') as Hw. rewrite E in Hw.
      specialize (Hw Eo). simpl in Hw. apply Forall_app in Hw as [_ Hw]. by rewrite Forall_singleton in Hw.
    + rewrite Hl, Hl', E. by apply (edit_middle pre f suf (BeginRecovery (length pre) fe)).
  - destruct (Hpush _ E) as (Hlen & Hst & Hrs' & Hfe). apply Nat.ltb_lt in Hlen.
    exists (Observe (length pre) fe). split; [|split; [done|]].
    + cbn [guard]. rewrite Hi, Ht, Hrs'. cbn [is_some_and]. simpl in Hfe. rewrite Hst, Hlen, Hfe.
      destruct (uncertain_status (pstat f)) eqn:Eo; [|done]. exfalso. pose proof (fo_doubt _ Hok') as Hw.
      rewrite E in Hw. specialize (Hw Eo). simpl in Hw. by destruct (recovery f).
    + rewrite Hl, Hl', E. by apply (edit_middle pre f suf (Observe (length pre) fe)).
Qed.

(** What [successor] accepts, read off its checks. *)
Lemma successor_Ok p next :
  inv p -> inv next -> successor p next = Some (Ok tt) ->
  p = next \/
  (completed p = false /\ codec next = codec p /\ endpoint_hash next = endpoint_hash p
   /\ subject_hash next = subject_hash p /\ length (fields next) = length (fields p)
   /\ revision next = revision p + 1
   /\ candidates (existsb has_recovery (fields p)) (fields p) (fields next)
      = Ok (if completed next then 0%nat else 1%nat)).
Proof.
  intros Hi Hi'. unfold successor. rewrite (inv_events_of p Hi), (inv_events_of _ Hi'), !bool_decide_true by done.
  cbn [andb require bind_outcome]. destruct (bool_decide_reflect (p = next)) as [|_]; [by left|].
  intros H. right. apply bind_outcome_Ok in H as (? & Hh%outcome_require_Ok%negb_true_iff & H).
  rewrite !orb_false_iff, !negb_false_iff, !str_eqb_eq, Nat.eqb_eq in Hh.
  destruct Hh as ((((Hcp & H1) & H2) & H3) & H4). apply bind_outcome_Ok in H as (rev & Hr%lift_Ok & H).
  apply checked_add_Some in Hr as [-> _]. apply bind_outcome_Ok in H as (? & Hrev%outcome_require_Ok%Z.eqb_eq & H).
  destruct (candidates (existsb has_recovery (fields p)) (fields p) (fields next)) as [n|];
    cbn [bind_outcome] in H; [|done].
  repeat (split; [done|]). f_equal. destruct (completed next).
  - destruct (Nat.eqb_spec n 0); [done|]. done.
  - by apply outcome_require_Ok, Nat.eqb_eq in H.
Qed.

Lemma next_eq o p p' :
  codec p' = codec p -> endpoint_hash p' = endpoint_hash p -> subject_hash p' = subject_hash p ->
  revision p' = revision p + 1 ->
  completed p' = match o with Complete => true | _ => completed p end ->
  edit o (fields p) = fields p' -> next_of o p = p'.
Proof. destruct p'. simpl. intros -> -> -> -> -> <-. done. Qed.

(** C13: What may replace a journal on disk is exactly what an operation makes of it. Of two
    valid journals, the first without uncertain dispatch, [successor] accepts the second if and
    only if it is the first or the result of one operation on it: a stored journal can only
    move by one recorded event of one field, in order, or be completed. *)
Theorem successor_is_one_operation p next :
  inv p -> inv next -> existsb in_doubt (fields p) = false ->
  successor p next = Some (Ok tt) <-> next = p \/ exists o, apply o p = Some (Ok next).
Proof.
  intros Hi Hi' Hd. split.
  - intros [->|(Hcp & H1 & H2 & H3 & H4 & H5 & Hn)]%successor_Ok; [by left| |done|done]. right.
    assert (exists o, refusal o p = None /\ next_of o p = next) as (o & Hr & <-).
    { pose proof (inv_bound _ Hi') as Hb. destruct (completed next) eqn:Hcn.
      - apply candidates_zero in Hn; [|done]. destruct (inv_completed _ Hi' Hcn) as [Hr Hu].
        exists Complete. rewrite Hn in Hr. split; [|by apply next_eq].
        apply refusal_none. simpl. rewrite Hr, Hd. split; [done|]. split; [done|lia].
      - destruct (candidates_single _ _ _ H4 Hn) as (pre & f & f' & suf & Hl & Hl' & Hcf).
        pose proof (inv_events _ Hi) as Hev. pose proof (inv_events _ Hi') as Hev'.
        pose proof (inv_chain _ Hi) as Hc. pose proof (inv_chain _ Hi') as Hc'.
        rewrite Hcp, Hl, total_app in Hev. rewrite Hcn, Hl', total_app in Hev'. simpl in Hev, Hev'.
        destruct (one_event_of _ f f' Hcf) as [Hone Hp].
        + eapply (field_ok_at _ _ _ (length pre)); [exact Hc|]. rewrite Hl. apply lookup_middle_.
        + eapply (field_ok_at _ _ _ (length pre)); [exact Hc'|]. rewrite Hl'. apply lookup_middle_.
        + lia.
        + destruct (event_guard p next pre f f' suf Hc Hc' Hl Hl' Hd Hone Hp) as (o & Hg & Ho & He).
          exists o. split.
          * apply refusal_none. split; [done|]. split; [done|lia].
          * apply next_eq; try done. destruct o; congruence. }
    exists o. by rewrite (apply_sound o p (inv_sound p Hi)), Hr.
  - intros [->|(o & Ho)].
    + unfold successor. rewrite (inv_events_of p Hi), !bool_decide_true by done. done.
    + destruct (apply_cases o p Hi) as [[e He]|[He Hr]]; rewrite Ho in He; [done|].
      injection He as ->. by apply step_successor.
Qed.

(** ** Doubt is final *)

Definition unsettled (f : FieldProvenance) : Prop :=
  pstat f = Some Unknown \/ rstat f = Some Unknown.

Lemma unsettled_in_doubt f : unsettled f -> in_doubt f = true.
Proof. unfold in_doubt. intros [-> | ->]; [done|]. by rewrite orb_true_r. Qed.

Lemma in_doubt_at (l : list FieldProvenance) i f :
  l !! i = Some f -> in_doubt f = true -> existsb in_doubt l = true.
Proof.
  intros Hi Hd. apply existsb_exists. exists f. split; [|done].
  by eapply list_elem_of_In, list_elem_of_lookup_2.
Qed.

Lemma has_recovery_at l i f :
  l !! i = Some f -> has_recovery f = true -> existsb has_recovery l = true.
Proof.
  intros Hi Hd. apply existsb_exists. exists f. split; [|done].
  by eapply list_elem_of_In, list_elem_of_lookup_2.
Qed.

Lemma rstat_has_recovery f s : rstat f = Some s -> has_recovery f = true.
Proof.
  unfold rstat, has_recovery. intros H. destruct (recovery f); [done|]. by rewrite bool_decide_false.
Qed.

Lemma edit_elsewhere o l i f :
  l !! i = Some f ->
  match o with
  | BeginPreparation j _ | BeginRecovery j _ | Advance j _ _ | Observe j _ => j <> i
  | Complete => True
  end -> edit o l !! i = Some f.
Proof. intros Hi H. destruct o; simpl; rewrite ?list_lookup_alter_ne by done; done. Qed.

Lemma step_unsettled o p i f :
  inv p -> fields p !! i = Some f -> unsettled f -> refusal o p = None ->
  fields (next_of o p) !! i = Some f.
Proof.
  intros Hinv Hi Hu (Hg & _)%refusal_none. simpl. apply edit_elsewhere; [done|].
  pose proof (in_doubt_at _ _ _ Hi (unsettled_in_doubt f Hu)) as Hd.
  pose proof (field_ok_at _ _ _ _ _ (inv_chain _ Hinv) Hi) as Hok.
  destruct o as [j fe|j fe|j rec s|j fe|]; [intros -> ..|done]; cbn [guard] in Hg; rewrite Hi in Hg;
    cbn [is_some_and] in Hg.
  - rewrite !andb_true_iff in Hg. destruct Hg as (_ & Hp & Hr%negb_true_iff). destruct Hu as [Hu|Hu].
    + unfold pstat in Hu. by destruct (preparation f).
    + by rewrite (rstat_has_recovery _ _ Hu) in Hr.
  - by rewrite Hd in Hg.
  - apply andb_true_iff in Hg as [Hr Hg]. apply is_some_and_true in Hg as (a & Ha & Hm).
    assert (status_of a <> Unknown) as Hs by (intros E; rewrite E in Hm; done).
    destruct rec, Hu as [Hu|Hu].
    + rewrite (fo_doubt _ Hok) in Ha; [done|]. by rewrite Hu.
    + unfold rstat in Hu. rewrite Ha in Hu. simpl in Hu. congruence.
    + unfold pstat in Hu. rewrite Ha in Hu. simpl in Hu. congruence.
    + by rewrite (has_recovery_at _ _ _ Hi (rstat_has_recovery _ _ Hu)) in Hr.
  - rewrite !andb_true_iff, negb_true_iff in Hg. destruct Hg as (_ & (Hx & Hy) & _).
    destruct Hu as [Hu|Hu]; rewrite Hu in *; done.
Qed.

(** Doubt is final. When the last thing known of a field's preparation or recovery is that
    its outcome is unknown, no sequence of operations changes that field again, the journal is
    never completed, and no recovery of any field is begun: reading the desired value does not
    turn an uncertain dispatch into an accepted one, and the uncertainty stays visible. *)
Theorem unknown_is_final p i f ops :
  inv p -> fields p !! i = Some f -> unsettled f ->
  exists p', play ops p = Some p' /\ fields p' !! i = Some f /\ completed p' = false
    /\ forall j fe, exists e, apply (BeginRecovery j fe) p' = Some (Err e).
Proof.
  revert p. induction ops as [|o ops IH]; intros p Hinv Hi Hu; simpl.
  - pose proof (in_doubt_at _ _ _ Hi (unsettled_in_doubt f Hu)) as Hd.
    exists p. split; [done|]. split; [done|]. split.
    + destruct (completed p) eqn:E; [|done]. apply (inv_completed _ Hinv) in E as [_ E]. congruence.
    + intros j fe. change (begin_recovery j fe p) with (apply (BeginRecovery j fe) p).
      rewrite (apply_sound _ p (inv_sound p Hinv)), refused; [by eexists|]. cbn [guard]. by rewrite Hd.
  - destruct (apply_cases o p Hinv) as [[e ->]|[-> Hr]]; [by apply IH|].
    apply IH; [by apply journal_step_inv|by apply step_unsettled|done].
Qed.

(** [validate] reads an attempt's status before it checks that the attempt has steps: a stored
    journal with an empty list of steps is not refused, it panics. *)
Theorem empty_attempt_panics endpoint subject fe :
  let p := {| codec := codec_name; endpoint_hash := hash_endpoint endpoint;
              subject_hash := hash_subject subject; revision := 0; completed := false;
              fields := [mkField (Some (mkAttempt fe [])) []] |} in
  header_ok endpoint subject 1 p /\ validate p endpoint subject 1 = None.
Proof.
  split; [done|]. unfold validate. simpl. rewrite !str_eqb_refl. done.
Qed.
End Hashes.

(** ** A journal in which the hypotheses hold *)

Module ProvenanceSample.
Definition fe : Fence := mkFence 1 7.
Definition start : Provenance :=
  {| codec := codec_name; endpoint_hash := EmptyString; subject_hash := EmptyString; revision := 0;
     completed := false; fields := [mkField None []; mkField None []] |}.

Definition prepared : list op :=
  [BeginPreparation 0 fe; Advance 0 false PossibleDispatch; Advance 0 false Accepted;
   BeginPreparation 1 fe; Advance 1 false PossibleDispatch].

Definition at_ (ops : list op) : Provenance := default start (play ops start).
End ProvenanceSample.

Lemma journal_start_inv : inv ProvenanceSample.start.
Proof.
  split; simpl; [done|unfold MAX_REVISION; lia| |done].
  assert (field_ok (mkField None [])) as H
    by (split; simpl; [done|constructor|unfold MAX_RECOVERY_ATTEMPTS; lia|done|constructor|intros _; constructor]).
  done.
Qed.

(** Playing operations keeps the invariant. *)
Lemma play_inv ops : forall p p', inv p -> play ops p = Some p' -> inv p'.
Proof.
  induction ops as [|o ops IH]; intros p p' Hi; simpl; [by intros [= <-]|].
  destruct (apply_cases o p Hi) as [[e ->]|[-> Hr]]; apply IH; [done|by apply journal_step_inv].
Qed.

Lemma sample_inv ops : inv (ProvenanceSample.at_ ops).
Proof.
  unfold ProvenanceSample.at_. destruct (play ops ProvenanceSample.start) as [p|] eqn:E; simpl.
  - eapply play_inv; [apply journal_start_inv|exact E].
  - apply journal_start_inv.
Qed.

(** Why [successor_is_one_operation] asks for a journal without doubt: [begin_recovery] refuses
    every field while one is uncertain, [successor] accepts the recovery of another field. *)
Example successor_ignores_other_doubt :
  let p := ProvenanceSample.at_ ProvenanceSample.prepared in
  let next := with_fields (alter (push_recovery (mkAttempt ProvenanceSample.fe [Intent])) 0%nat (fields p))
    {| codec := codec p; endpoint_hash := endpoint_hash p; subject_hash := subject_hash p;
       revision := revision p + 1; completed := false; fields := [] |} in
  successor p next = Some (Ok tt) /\ apply (BeginRecovery 0 ProvenanceSample.fe) p = Some (Err Transition).
Proof. split; reflexivity. Qed.

Lemma successor_is_one_operation_witness :
  let p := ProvenanceSample.at_ (take 2 ProvenanceSample.prepared) in
  let next := ProvenanceSample.at_ (take 3 ProvenanceSample.prepared) in
  successor (ProvenanceSample.at_ []) (ProvenanceSample.at_ (take 1 ProvenanceSample.prepared)) = Some (Ok tt)
  /\ (successor (ProvenanceSample.at_ []) next = Some (Ok tt)
      <-> next = ProvenanceSample.at_ [] \/ exists o, apply o (ProvenanceSample.at_ []) = Some (Ok next))
  /\ p <> next.
Proof.
  split; [reflexivity|]. split; [|discriminate].
  apply (successor_is_one_operation (ProvenanceSample.at_ []) (ProvenanceSample.at_ (take 3 ProvenanceSample.prepared)));
    [apply sample_inv|apply sample_inv|reflexivity].
Defined.

Lemma unknown_is_final_witness :
  let ops := ProvenanceSample.prepared ++ [Advance 1 false Unknown] in
  let p := ProvenanceSample.at_ ops in
  exists f, fields p !! 1%nat = Some f /\ pstat f = Some Unknown /\
  exists p', play [BeginRecovery 0 ProvenanceSample.fe; Observe 1 ProvenanceSample.fe; Complete] p = Some p'
    /\ fields p' !! 1%nat = Some f /\ completed p' = false
    /\ forall j fe, exists e, apply (BeginRecovery j fe) p' = Some (Err e).
Proof.
  eexists. split; [reflexivity|]. split; [reflexivity|].
  apply (unknown_is_final _ 1); [apply sample_inv|reflexivity|left; reflexivity].
Defined.
