(* ===== verification/HttpProtocol.v ===== *)
(** * Admission of HTTP exchanges

    [native/src/http_protocol.rs]: from the head and the body of an HTTP request to an exchange
    the host may run, or the response that refuses it.  The base64 codec, the JSON parser and
    the JSON stream that finds the end of a value are parameters without laws.

    A function that can panic returns an option, and [None] is the panic: a slice of a text out
    of range or inside a character ([str_slice]), a slice of a list out of range ([list_slice]), a
    length that would be negative ([length_minus]), [unwrap], [map[key]] of a key the map has not
    ([field] of the map) and [value[key] = ...] of a value that is no object ([assign]). *)
From S2P Require Import Prelude Json Text Serde.

Definition MAX_BODY_BYTES : Z := 4194304.
Definition MAX_HEADER_BYTES : Z := 16384.
Definition MAX_HEADERS : Z := 64.
Definition MAX_TARGET_BYTES : Z := 4096.
Definition MODERN : string := "2026-07-28".
Definition VERSION : string := "io.modelcontextprotocol/protocolVersion".
Definition INFO : string := "io.modelcontextprotocol/clientInfo".
Definition CAPABILITIES : string := "io.modelcontextprotocol/clientCapabilities".
Definition LEGACY : list string :=
  ["2025-11-25"; "2025-06-18"; "2025-03-26"; "2024-11-05"; "2024-10-07"].

(** Why [serde_json::from_slice] fails, as the code tells it apart *)
Inductive JsonFailure : Type := RecursionLimit | OtherFailure.

Class HttpLibs := {
  json_parse : list Z -> result JsonFailure Value;
  (** how many bytes the first value of a stream ends at *)
  json_span : list Z -> option nat;
  base64_decode : string -> option (list Z);
  base64_encode : list Z -> string
}.

Record RequestHead := { method : string; target : string; headers : list (string * string) }.

Definition ows (value : string) : string := trim_ascii [32; 9] value.

(** [RequestHead::header] *)
Definition header (head : RequestHead) (name : string) : option string :=
  ows ∘ snd <$> List.find (fun '(key, _) => eq_ignore_ascii_case key name) (headers head).

(** [Policy] *)
Definition policy_new (token : option string) : option string :=
  opt_filter (fun t => negb (str_is_empty t)) token.

Definition authenticated (policy : option string) (authorization : option string) : bool :=
  match policy with
  | None => true
  | Some expected =>
      let presented :=
        match authorization >>? strip_prefix "Bearer " with Some t => t | None => EmptyString end in
      if negb (str_len presented =? str_len expected) then false
      else fold_left (fun different '(a, b) => Z.lor different (Z.lxor a b))
             (combine (bytes_of presented) (bytes_of expected)) 0 =? 0
  end.

Inductive Era : Type := Modern | Legacy.
Inductive ResponseMode : Type := ModeJson | ModeSse | ModeListen | ModeEmpty.
Inductive ErrorOrigin : Type := Handler | Protocol.

Record Response := {
  rs_status : Z;
  content_type : option string;
  authenticate_bearer : bool;
  rs_body : list Z
}.

Inductive Unqualified : Type := UrlForm | EnvelopeSchema | JsonDepth | DuplicateHeader.

Record Exchange := {
  original_body : list Z;
  message : Value;
  era : Era;
  mode : ResponseMode;
  declared : option string
}.

Inductive Admission : Type :=
| Reply (r : Response)
| Exchanged (x : Exchange)
| Refused (u : Unqualified).

Inductive HeadRefusal : Type :=
| HeadReply (r : Response)
| HeadUnqualified (u : Unqualified).

(** ** What can panic *)

(** [str::is_char_boundary] *)
Definition char_boundary (bs : list Z) (i : nat) : bool :=
  match bs !! i with
  | Some b => (b <? 128) || (192 <=? b)
  | None => Nat.eqb i (length bs)
  end.

(** [&s[a..b]] of a [str] *)
Definition str_slice (a b : nat) (s : string) : option string :=
  let bs := bytes_of s in
  if (a <=? b)%nat && char_boundary bs a && char_boundary bs b
  then Some (str_of_bytes (take (b - a) (drop a bs))) else None.

(** [&list[..n]] *)
Definition list_slice {A} (n : nat) (l : list A) : option (list A) :=
  if (n <=? length l)%nat then Some (take n l) else None.

(** [s.len() - n] *)
Definition length_minus (s : string) (n : nat) : option nat :=
  if (n <=? String.length s)%nat then Some (String.length s - n)%nat else None.

(** [value[key] = ...]: [null] becomes an object, and an object gets the key *)
Definition assign (key : string) (f : Value -> option Value) (value : Value) : option Value :=
  match value with
  | Object fields =>
      x ← f (match field key fields with Some x => x | None => Null end);
      Some (Object (field_insert key x fields))
  | Null => x ← f Null; Some (Object [(key, x)])
  | _ => None
  end.

(** [matches!] on an object *)
Definition has (k : string) (v : Value) : bool := negb (is_none (get k v)).

(** [Value::as_i64] *)
Definition as_i64 (v : Value) : option Z :=
  match v with
  | Num (PosInt n) => if n <=? 9223372036854775807 then Some n else None
  | Num (NegInt n) => Some n
  | _ => None
  end.

Definition is_number (v : Value) : bool := match v with Num _ => true | _ => false end.
Definition is_boolean (v : Value) : bool := match v with Bool _ => true | _ => false end.

Section Protocol.
Context {Codec : SerdeJson} {Libs : HttpLibs}.

(** ** Responses *)

Definition response_empty (status : Z) : Response :=
  {| rs_status := status; content_type := None; authenticate_bearer := false; rs_body := [] |}.
Definition response_text (status : Z) (text : string) : Response :=
  {| rs_status := status; content_type := Some "text/plain"; authenticate_bearer := false;
     rs_body := bytes_of text |}.
Definition response_json (status : Z) (value : Value) : Response :=
  {| rs_status := status; content_type := Some "application/json"; authenticate_bearer := false;
     rs_body := to_vec value |}.
Definition response_sse (status : Z) (value : Value) : Response :=
  {| rs_status := status; content_type := Some "text/event-stream"; authenticate_bearer := false;
     rs_body := bytes_of "event: message" ++ [10] ++ bytes_of "data: " ++ to_vec value ++ [10; 10] |}.

(** [Response::allow_header] *)
Definition allow_header (r : Response) : option string :=
  if rs_status r =? 405 then Some "POST"%string else None.

Definition error_value (code : Z) (message : string) (id : Value) (data : option Value) : option Value :=
  let value := object_of
    [("jsonrpc", str "2.0");
     ("error", object_of [("code", Num (NegInt code)); ("message", str message)]);
     ("id", id)] in
  match data with
  | Some data => assign "error" (assign "data" (fun _ => Some data)) value
  | None => Some value
  end.

Definition error_response (status code : Z) (message : string) (id : Value) (data : option Value)
  : option Response :=
  value ← error_value code message id data; Some (response_json status value).

Definition error (status code : Z) (message : string) (id : Value) (data : option Value)
  : option Admission :=
  reply ← error_response status code message id data; Some (Reply reply).

Definition mismatch (header body : string) (id : Value) : option Admission :=
  error 400 (-32020)
    ("Bad Request: the request headers and body disagree: " +:+ body) id
    (Some (object_of [("mismatch", object_of [("header", str header); ("body", str body)])])).

(** [response] *)
Definition response (e : Era) (m : ResponseMode) (payload : Value) (origin : ErrorOrigin) : Response :=
  match m with
  | ModeEmpty => response_empty 202
  | _ =>
      let code := get "error" payload >>? get "code" >>? as_i64 in
      let status :=
        match e with
        | Legacy => 200
        | Modern =>
            match code with
            | Some c =>
                if c =? -32021 then 400
                else match origin with
                     | Handler => 200
                     | Protocol =>
                         if c =? -32601 then 404
                         else if (c =? -32700) || (c =? -32600) || (c =? -32020) || (c =? -32022)
                         then 400 else 200
                     end
            | None => 200
            end
        end in
      match m with
      | ModeJson => response_json status payload
      | _ => response_sse status payload
      end
  end.

(** ** Reading the message *)

Definition meta (message : Value) : option (list (string * Value)) :=
  get "params" message >>? get "_meta" >>? as_object.

Definition message_id (message : Value) : Value :=
  match opt_filter (fun id => is_string id || is_number id || is_null id) (get "id" message) with
  | Some id => id
  | None => Null
  end.

Definition modern (version : string) : bool := negb (str_ltb version MODERN).

(** ** Hosts *)

Definition host_forbidden (b : Z) : bool :=
  is_ascii_control b || existsb (Z.eqb b) [47; 63; 35; 64; 92; 37].

Definition canonical_hostname (authority : string) : option (result Unqualified string) :=
  let bs := bytes_of authority in
  if str_is_empty authority || existsb host_forbidden bs then Some (Err UrlForm)
  else
    parts ←
      (if starts_with "[" authority then
         match position (Z.eqb 93) bs with
         | None => Some (Err UrlForm)
         | Some i =>
             rest ← str_slice (i + 1) (length bs) authority;
             host ← str_slice 0 (i + 1) authority;
             Some (if str_is_empty rest then Ok (host, None)
                   else let? port := ok_or (strip_prefix ":" rest) UrlForm in Ok (host, Some port))
         end
       else
         Some (Ok match str_split_once ":" authority with
                  | Some (host, port) => (host, Some port)
                  | None => (authority, None)
                  end));
    Some
      (let? (host, port) := parts in
       if is_some_and port (fun port => negb (str_is_empty port) && is_none (parse_u16 port)) then Err UrlForm
       else if is_ascii_bytes (bytes_of host) && negb (str_is_empty host) then Ok host
       else Err UrlForm).

Definition allowed (host : string) : bool :=
  existsb (eq_ignore_ascii_case host) ["localhost"; "127.0.0.1"; "[::1]"].

Definition scheme_byte (b : Z) : bool := is_alphanumeric b || existsb (Z.eqb b) [43; 45; 46].

(** [Option::filter(|s| !s.is_empty())] *)
Definition nonempty (o : option string) : option string := opt_filter (fun s => negb (str_is_empty s)) o.

Definition forbidden (message : string) : option (result Unqualified (option Response)) :=
  reply ← error_response 403 (-32000) message Null None; Some (Ok (Some reply)).

(** [Ok(Some(reply))] is [Ok (Some reply)]: the request is answered with it. *)
Definition url_security (head : RequestHead) : option (result Unqualified (option Response)) :=
  match nonempty (header head "host") with
  | None => forbidden "Missing Host header"
  | Some host =>
      hostname ← canonical_hostname host;
      match hostname with
      | Err reason => Some (Err reason)
      | Ok hostname =>
          if negb (allowed hostname) then forbidden ("Invalid Host: " +:+ to_ascii_lowercase hostname)
          else
            match nonempty (header head "origin") with
            | None => Some (Ok None)
            | Some origin =>
                match str_split_once "://" origin with
                | None => forbidden ("Invalid Origin header: " +:+ origin)
                | Some (scheme, rest) =>
                    if str_is_empty scheme || negb (forallb scheme_byte (bytes_of scheme)) then Some (Err UrlForm)
                    else
                      let authority := str_until (fun b => existsb (Z.eqb b) [47; 63; 35]) rest in
                      hostname ← canonical_hostname authority;
                      match hostname with
                      | Err reason => Some (Err reason)
                      | Ok hostname =>
                          if negb (allowed hostname) then
                            forbidden ("Invalid Origin: " +:+ to_ascii_lowercase hostname)
                          else Some (Ok None)
                      end
                end
            end
      end
  end.

(** ** The declared client *)

Fixpoint decode_bytes (bs : list Z) : option (list Z) :=
  match bs with
  | [] => Some []
  | 43 :: bs => r ← decode_bytes bs; Some (32 :: r)
  | 37 :: a :: b :: bs =>
      a ← to_digit 16 a; b ← to_digit 16 b; r ← decode_bytes bs; Some (a * 16 + b :: r)
  | 37 :: _ => None
  | b :: bs => r ← decode_bytes bs; Some (b :: r)
  end.

Definition decode_form (value : list Z) : option string :=
  bs ← decode_bytes value; if utf8_bytes bs then Some (str_of_bytes bs) else None.

Definition client_byte (b : Z) : bool := is_alphanumeric b || existsb (Z.eqb b) [95; 46; 64; 58; 45].

Fixpoint client_of (pairs : list (list Z)) : option string :=
  match pairs with
  | [] => None
  | part :: pairs =>
      let '(key, value) := match split_once [61] part with Some kv => kv | None => (part, []) end in
      if bool_decide (decode_form key = Some "client"%string) then
        name ← decode_form value;
        let name := str_of_bytes (trim_bytes js_spaces (bytes_of name)) in
        if negb (str_is_empty name) && (str_len name <=? 64) && forallb client_byte (bytes_of name)
        then Some name else None
      else client_of pairs
  end.

Definition declared_client (target : string) : option string :=
  '(_, rest) ← split_once [63] (bytes_of target);
  client_of (split_byte 38 (until (Z.eqb 35) rest)).

(** ** Shapes *)

Definition message_shape (message : Value) : bool :=
  if negb (is_some_and (get "jsonrpc" message >>? as_str) (str_eqb "2.0")) then false
  else if is_some_and (get "method" message) is_string then
    is_none_or (get "id" message) (fun id =>
      is_string id || negb (is_none (as_i64 id)) || negb (is_none (as_u64 id)))
    && is_none_or (get "params" message) is_object
  else
    is_some_and (get "id" message) (fun id => is_string id || is_number id || is_null id)
    && (is_some_and (get "result" message) is_object || is_some_and (get "error" message) is_object).

Definition offer_qualified (key : string) (fields : list (string * Value)) : bool :=
  if str_eqb key "roots" then
    forallb (fun '(key, value) => str_eqb key "listChanged" && is_boolean value) fields
  else if str_eqb key "sampling" then
    forallb (fun '(key, value) => one_of key ["context"; "tools"]%string && is_object value) fields
  else if str_eqb key "elicitation" then
    forallb (fun '(key, value) =>
      if str_eqb key "url" then is_object value
      else if str_eqb key "form" then
        is_some_and (as_object value) (fun form => is_none_or (field "applyDefaults" form) is_boolean)
      else false) fields
  else one_of key ["experimental"; "extensions"]%string.

Definition qualified_capabilities (value : Value) : bool :=
  match as_object value with
  | None => false
  | Some offers =>
      forallb (fun '(key, value) =>
        match as_object value with None => false | Some fields => offer_qualified key fields end)
        offers
  end.

Definition info_qualified (info : Value) : bool :=
  is_object info && is_some_and (get "name" info) is_string
  && is_some_and (get "version" info) is_string
  && is_some_and (as_object info) (forallb (fun '(key, value) =>
       one_of key ["name"; "version"; "title"; "description"; "websiteUrl"]%string && is_string value)).

Definition envelope_issue (message : Value) (notification : bool) : option (option (string * string)) :=
  match meta message with
  | None => Some None
  | Some m =>
      let required := if notification then [VERSION] else [VERSION; CAPABILITIES] in
      match List.find (fun k => negb (one_of k (keys m))) required with
      | Some k => Some (Some (k, "missing"%string))
      | None =>
          version ← field VERSION m;
          if negb (is_string version) then
            Some (Some (VERSION, "expected a protocol version string"%string))
          else if notification then Some None
          else
            capabilities ← field CAPABILITIES m;
            if negb (qualified_capabilities capabilities) then
              Some (Some (CAPABILITIES, "unqualified"%string))
            else if is_some_and (field INFO m) (fun info => negb (info_qualified info)) then
              Some (Some (INFO, "unqualified"%string))
            else Some None
      end
  end.

(** ** The [Mcp-Name] header *)

Definition dq : string := String (Ascii.ascii_of_nat 34) EmptyString.

(** [&header[a..b]] *)
Definition slice (a b : nat) (bs : list Z) : option (list Z) :=
  if (a <=? b)%nat && (b <=? length bs)%nat then Some (take (b - a) (drop a bs)) else None.

Definition name_field (method : string) : option string :=
  if one_of method ["tools/call"; "prompts/get"] then Some "name"%string
  else if str_eqb method "resources/read" then Some "uri"%string
  else if one_of method ["tasks/get"; "tasks/update"; "tasks/cancel"] then Some "taskId"%string
  else None.

(** The name a header stands for *)
Definition decode_name (header : string) : option (option string) :=
  if starts_with "=?base64?" header && ends_with "?=" header then
    end_ ← length_minus header 2;
    body ← str_slice 9 end_ header;
    Some (opt_filter (fun d => str_eqb (base64_encode d) body) (base64_decode body)
            >>? fun d => if utf8_bytes d then Some (str_of_bytes d) else None)
  else Some (Some header).

Definition name_header_rejection (head : RequestHead) (message : Value) (method : string)
  : option (option Admission) :=
  match name_field method with
  | None => Some None
  | Some fld =>
      let body := get "params" message >>? get fld >>? as_str in
      match header head "mcp-name" with
      | None =>
          match body with
          | None => Some None
          | Some body =>
              refusal ← mismatch "(missing)"
                ("the body carries params." +:+ fld +:+ "=" +:+ dq +:+ body +:+ dq
                   +:+ " but the required Mcp-Name header is absent") (message_id message);
              Some (Some refusal)
          end
      | Some hd =>
          decoded ← decode_name hd;
          match decoded with
          | None =>
              refusal ← mismatch hd "the Mcp-Name header carries an invalid Base64 sentinel value"
                          (message_id message);
              Some (Some refusal)
          | Some decoded =>
              if is_some_and body (fun body => negb (str_eqb body decoded)) then
                body ← body;
                refusal ← mismatch hd
                  ("the body carries params." +:+ fld +:+ "=" +:+ dq +:+ body +:+ dq
                     +:+ " but the Mcp-Name header names " +:+ dq +:+ decoded +:+ dq)
                  (message_id message);
                Some (Some refusal)
              else Some None
          end
      end
  end.

(** ** [preflight]: everything the head decides, before the body is read *)

Fixpoint header_bytes (n : Z) (l : list (string * string)) : option Z :=
  match l with
  | [] => Some n
  | (key, value) :: l =>
      n ← checked_add n (str_len key);
      n ← checked_add n (str_len value);
      header_bytes n l
  end.

(** Does a header repeat the name of an earlier one?  Of header [at_] on *)
Fixpoint duplicate_from (all : list (string * string)) (at_ : nat) (l : list (string * string)) : option bool :=
  match l with
  | [] => Some false
  | (name, _) :: l =>
      earlier ← list_slice at_ all;
      if existsb (fun '(other, _) => eq_ignore_ascii_case name other) earlier then Some true
      else duplicate_from all (S at_) l
  end.

Definition duplicate_header (headers : list (string * string)) : option bool :=
  duplicate_from headers 0 headers.

Definition reject (status code : Z) (message : string) : option (result HeadRefusal unit) :=
  reply ← error_response status code message Null None; Some (Err (HeadReply reply)).

Definition media_is_json (content_type : string) : bool :=
  eq_ignore_ascii_case (str_trim (str_until (Z.eqb 59) content_type)) "application/json".

Definition default_empty (o : option string) : string :=
  match o with Some s => s | None => EmptyString end.

Definition preflight (head : RequestHead) (policy : option string) : option (result HeadRefusal unit) :=
  if negb (str_eqb (str_until (fun b => (b =? 63) || (b =? 35)) (target head)) "/mcp") then
    Some (Err (HeadReply (response_text 404 "Not found; the MCP endpoint is /mcp")))
  else if MAX_TARGET_BYTES <? str_len (target head) then
    reject 414 (-32000) "Native HTTP target admission capacity exceeded"
  else if (MAX_HEADERS <? Z.of_nat (length (headers head)))
          || is_none_or (header_bytes 0 (headers head)) (fun n => MAX_HEADER_BYTES <? n) then
    reject 431 (-32000) "Native HTTP header admission capacity exceeded"
  else
    duplicate ← duplicate_header (headers head);
    if duplicate : bool then Some (Err (HeadUnqualified DuplicateHeader))
    else
      security ← url_security head;
      match security with
      | Ok (Some reply) => Some (Err (HeadReply reply))
      | Err reason => Some (Err (HeadUnqualified reason))
      | Ok None =>
          if negb (authenticated policy (header head "authorization")) then
            Some (Err (HeadReply {| rs_status := 401; content_type := Some "text/plain"%string;
                                    authenticate_bearer := true;
                                    rs_body := bytes_of "Missing or wrong bearer token" |}))
          else if negb (eq_ignore_ascii_case (method head) "POST") then
            reject 405 (-32000) "Method not allowed."
          else
            let content_type := default_empty (header head "content-type") in
            if negb (media_is_json content_type) || contains "," content_type then
              reject 415 (-32000) "Unsupported Media Type: Content-Type must be application/json"
            else Some (Ok tt)
      end.

(** ** [admit_request] *)

Definition invalid_request (message : string) : option (option Admission) :=
  refusal ← error 400 (-32600) message Null None; Some (Some refusal).

(** The first item of a batch that makes the whole batch invalid *)
Fixpoint batch_item_issue (batch : list Value) : option (option Admission) :=
  match batch with
  | [] => Some None
  | item :: batch =>
      if is_some_and (meta item) (fun m => negb (is_none (field VERSION m))) then
        invalid_request "Bad Request: JSON-RPC batches may not contain requests for protocol revision 2026-07-28 or later"
      else if negb (message_shape item) then
        invalid_request "Bad Request: JSON-RPC batch contains an invalid message"
      else batch_item_issue batch
  end.

Definition is_method (name : string) (v : Value) : bool :=
  match v with Str s => str_eqb s name | _ => false end.

Definition batch_issue (batch : list Value) : option (option Admission) :=
  match batch with
  | [] => invalid_request "Bad Request: empty JSON-RPC batch"
  | _ =>
      issue ← batch_item_issue batch;
      match issue with
      | Some a => Some (Some a)
      | None =>
          if 100 <? Z.of_nat (length batch) then
            invalid_request "Invalid Request: Batch must not exceed 100 messages"
          else if (1 <? Z.of_nat (length batch))
                  && existsb (fun m => is_method "initialize" (index "method" m)) batch then
            invalid_request "Invalid Request: Only one initialization request is allowed"
          else Some None
      end
  end.

Definition shape_issue (message : Value) : option (option Admission) :=
  match as_array message with
  | Some batch => batch_issue batch
  | None =>
      if message_shape message then Some None
      else invalid_request "Bad Request: the request body is not a valid JSON-RPC message"
  end.

(** A message with a modern envelope, or a notification under a modern version header. *)
Definition admit_modern (head : RequestHead) (body : list Z) (message : Value)
  (meth version : option string) (claim : option Value) (notification : bool) : option Admission :=
  issue ← (if is_none claim then Some None else envelope_issue message notification);
  match issue with
  | Some (key, problem) =>
      if str_eqb problem "unqualified" then Some (Refused EnvelopeSchema)
      else error 400 (-32602)
             ("Invalid _meta envelope for protocol revision " +:+ MODERN +:+ ": " +:+ key +:+ ": " +:+ problem)
             (message_id message)
             (Some (object_of [("envelope", object_of [("key", str key); ("problem", str problem)])]))
  | None =>
      let claimed :=
        match or_else (claim >>? as_str) version with Some c => c | None => "unknown"%string end in
      if is_some_and version (fun hd => negb (is_none claim) && negb (str_eqb hd claimed)) then
        mismatch (default_empty version)
          ("the " +:+ (if notification then "notification" else "body")
             +:+ " envelope names protocol version " +:+ claimed
             +:+ " but the MCP-Protocol-Version header names " +:+ default_empty version)
          (message_id message)
      else if is_some_and (header head "mcp-method") (fun hd =>
                negb (bool_decide (Some hd = meth))) then
        let hd := default_empty (header head "mcp-method") in
        mismatch hd
          ("the " +:+ (if notification then "notification body " else "body ") +:+ "names method "
             +:+ default_empty meth +:+ " but the Mcp-Method header names " +:+ hd)
          (message_id message)
      else if negb (str_eqb claimed MODERN) then
        error 400 (-32022) ("Unsupported protocol version: " +:+ claimed) (message_id message)
          (Some (object_of [("supported", Array [str MODERN]); ("requested", str claimed)]))
      else
        let admitted :=
          Exchanged {| original_body := body; message := message; era := Modern;
                       mode := if notification then ModeEmpty
                               else if bool_decide (meth = Some "subscriptions/listen"%string)
                               then ModeListen else ModeJson;
                       declared := None |} in
        if notification then Some admitted
        else if is_none version then
          mismatch "(missing)"
            ("the body envelope names protocol version " +:+ claimed
               +:+ " but the required MCP-Protocol-Version header is absent") (message_id message)
        else if is_none (header head "mcp-method") then
          mismatch "(missing)"
            ("the body names method " +:+ default_empty meth
               +:+ " but the required Mcp-Method header is absent") (message_id message)
        else
          rejection ← name_header_rejection head message (default_empty meth);
          Some (match rejection with Some r => r | None => admitted end)
  end.

(** Everything else: the legacy protocol. *)
Definition admit_legacy (head : RequestHead) (body : list Z) (message : Value)
  (meth version : option string) (notification : bool) : option Admission :=
  let accept := default_empty (header head "accept") in
  if negb (contains "application/json" accept) || negb (contains "text/event-stream" accept) then
    error 406 (-32000)
      "Not Acceptable: Client must accept both application/json and text/event-stream" Null None
  else if negb (bool_decide (meth = Some "initialize"%string))
          && is_some_and version (fun v => negb (one_of v LEGACY)) then
    version ← version;
    error 400 (-32000)
      ("Bad Request: Unsupported protocol version: " +:+ version
         +:+ " (supported versions: " +:+ join ", " LEGACY +:+ ")") Null None
  else
    let batch_without_request := is_some_and (as_array message) (fun batch =>
      negb (existsb (fun m => has "method" m && has "id" m) batch)) in
    Some (Exchanged {| original_body := body; message := message; era := Legacy;
                       mode := if notification || batch_without_request || has "result" message
                                  || has "error" message then ModeEmpty else ModeSse;
                       declared := declared_client (target head) |}).

(** The keys a request without an envelope does not have *)
Definition missing_keys (message : Value) : option (list string) :=
  if is_none (meta message) then Some ["_meta"%string]
  else
    keys ← mapM (fun k => m ← meta message; Some (if is_none (field k m) then [k] else [])) [VERSION; CAPABILITIES];
    Some (concat keys).

Definition admit_message (head : RequestHead) (body : list Z) (message : Value) : option Admission :=
  let meth := get "method" message >>? as_str in
  let notification := negb (is_none meth) && negb (has "id" message) in
  let version := header head "mcp-protocol-version" in
  let claim := meta message >>? field VERSION in
  let initialize := bool_decide (meth = Some "initialize"%string) in
  modern_initialize ←
    (if initialize && is_some_and (claim >>? as_str) modern then
       issue ← envelope_issue message false; Some (is_none issue)
     else Some false);
  if initialize && negb modern_initialize then
    if is_some_and version modern then
      version ← version;
      mismatch version
        "an initialize request (legacy handshake) was sent with a modern MCP-Protocol-Version header"
        (message_id message)
    else admit_legacy head body message meth version notification
  else if negb (is_none claim) || (notification && is_some_and version modern) then
    admit_modern head body message meth version claim notification
  else if negb (is_none meth) && is_some_and version modern then
    missing ← missing_keys message;
    version ← version;
    error 400 (-32602)
      ("Invalid params: the MCP-Protocol-Version header names protocol revision "
         +:+ version
         +:+ ", but the request is missing the required per-request envelope key(s): "
         +:+ join ", " missing) (message_id message)
      (Some (object_of [("envelope", object_of [("missing", Array (map str missing))])]))
  else admit_legacy head body message meth version notification.

Definition admit_request (head : RequestHead) (body : list Z) (policy : option string) : option Admission :=
  verdict ← preflight head policy;
  match verdict with
  | Err (HeadReply reply) => Some (Reply reply)
  | Err (HeadUnqualified reason) => Some (Refused reason)
  | Ok _ =>
      if MAX_BODY_BYTES <? Z.of_nat (length body) then
        error 413 (-32000)
          ("Payload Too Large: Request body must not exceed " +:+ "4194304" +:+ " bytes") Null None
      else
        match json_parse body with
        | Err RecursionLimit => Some (Refused JsonDepth)
        | Err OtherFailure => error 400 (-32700) "Parse error: Invalid JSON" Null None
        | Ok message =>
            issue ← shape_issue message;
            match issue with
            | Some refusal => Some refusal
            | None => admit_message head body message
            end
        end
  end.

(** ** Splitting a legacy batch *)

(** [skip]: the index of the next byte that is not white space *)
Fixpoint skip_spaces (bs : list Z) : nat :=
  match bs with
  | b :: bs => if is_ascii_whitespace b then S (skip_spaces bs) else 0%nat
  | [] => 0%nat
  end.

Definition item_mode (message : Value) : ResponseMode :=
  if (has "method" message && negb (has "id" message)) || has "result" message || has "error" message
  then ModeEmpty else ModeSse.

(** The loop over the items from byte [at_] on; it ends with the byte after the last.  [at_] is
    the byte after one the loop has read, or one it skipped spaces to, so that the slices from it on
    do not panic. *)
Fixpoint split_items (body : list Z) (e : Era) (client : option string) (first : bool) (at_ : nat)
  (items : list Value) : result Unqualified (list Exchange * nat) :=
  match items with
  | [] => Ok ([], at_)
  | item :: items =>
      let at_ := (at_ + skip_spaces (drop at_ body))%nat in
      let? at_ :=
        if first then Ok at_
        else if bool_decide (body !! at_ = Some 44) then
          Ok (S at_ + skip_spaces (drop (S at_) body))%nat
        else Err EnvelopeSchema in
      let? span := ok_or (json_span (drop at_ body)) EnvelopeSchema in
      let? text := ok_or (slice at_ (at_ + span) body) EnvelopeSchema in
      let? (exchanges, end_) := split_items body e client false (at_ + span)%nat items in
      Ok ({| original_body := text; message := item; era := e; mode := item_mode item;
             declared := client |} :: exchanges, end_)
  end.

Definition into_items (x : Exchange) : result Unqualified (list Exchange) :=
  match as_array (message x) with
  | None => Ok [x]
  | Some items =>
      let body := original_body x in
      let at_ := skip_spaces body in
      if negb (bool_decide (body !! at_ = Some 91)) then Err EnvelopeSchema
      else
        let? (exchanges, end_) := split_items body (era x) (declared x) true (S at_) items in
        let end_ := (end_ + skip_spaces (drop end_ body))%nat in
        if bool_decide (body !! end_ = Some 93) then Ok exchanges else Err EnvelopeSchema
  end.

(** ** What is admitted *)

(** The comparison that always looks at every byte is equality. *)
Lemma xor_fold_zero l : forall k acc,
  length l = length k -> Forall is_byte l -> Forall is_byte k -> 0 <= acc ->
  fold_left (fun different '(a, b) => Z.lor different (Z.lxor a b)) (combine l k) acc = 0
  <-> acc = 0 /\ l = k.
Proof.
  induction l as [|a l IH]; intros [|b k] acc Hl Hb Hk Ha; try done; simpl; [tauto|].
  inversion_clear Hb as [|? ? Hb1 Hb2]. inversion_clear Hk as [|? ? Hk1 Hk2]. unfold is_byte in *.
  assert (0 <= Z.lxor a b) as Hx by (apply Z.lxor_nonneg; lia).
  injection Hl as Hl. rewrite IH; [|done|done|done|by apply Z.lor_nonneg].
  rewrite Z.lor_eq_0_iff, Z.lxor_eq_0_iff. split; [intros [[-> ->] ->]; done|intros [-> [= -> ->]]; done].
Qed.

Lemma authenticated_iff expected authorization :
  authenticated (Some expected) authorization = true <->
  default_empty (authorization >>? strip_prefix "Bearer ") = expected.
Proof.
  unfold authenticated, default_empty.
  destruct (authorization >>? strip_prefix "Bearer ") as [p|];
    [generalize p; clear p; intros p|set (p := EmptyString)].
  all: split; [|intros ->; rewrite Z.eqb_refl; apply Z.eqb_eq, xor_fold_zero; (done || apply bytes_of_bytes)].
  all: destruct (Z.eqb_spec (str_len p) (str_len expected)) as [E|]; [|done]; cbn [negb].
  all: intros [_ H%bytes_of_inj]%Z.eqb_eq%xor_fold_zero; try done; try apply bytes_of_bytes.
  all: rewrite !length_bytes_of; unfold str_len in E; lia.
Qed.

(** With a token configured, exactly its bearer is let in. *)
Lemma token_required token authorization :
  authenticated (policy_new (Some token)) authorization = true <->
  token = EmptyString \/ authorization = Some ("Bearer " +:+ token).
Proof.
  unfold policy_new. destruct token as [|c token]; simpl opt_filter.
  { split; [by left|done]. }
  rewrite authenticated_iff. split.
  - intros H. right. destruct authorization as [a|]; [|done]. simpl in H.
    destruct (strip_prefix "Bearer " a) as [r|] eqn:E; [|done]. simpl in H. subst r.
    by apply strip_prefix_Some in E as ->.
  - intros [|E]; [done|subst authorization]. cbn [and_then].
    by rewrite (proj2 (strip_prefix_Some "Bearer " _ (String c token)) eq_refl).
Qed.

(** A host and its port: the name of this machine, and nothing after it but a port number. *)
Definition loopback (authority : string) : Prop :=
  exists name port, authority = name +:+ port
    /\ In (to_ascii_lowercase name) ["localhost"; "127.0.0.1"; "[::1]"]%string
    /\ (port = EmptyString \/ port = ":"%string
        \/ exists digits n, port = ":" +:+ digits /\ parse_u16 digits = Some n).

Lemma str_app_empty s : s +:+ EmptyString = s.
Proof. apply bytes_of_inj. by rewrite bytes_of_app, app_nil_r. Qed.

Lemma str_app_bytes l r : str_of_bytes (l ++ r) = str_of_bytes l +:+ str_of_bytes r.
Proof. induction l as [|b l IH]; simpl; [done|]. by rewrite IH. Qed.

Lemma allowed_In host :
  allowed host = true <-> In (to_ascii_lowercase host) ["localhost"; "127.0.0.1"; "[::1]"]%string.
Proof.
  unfold allowed, eq_ignore_ascii_case. rewrite existsb_exists. simpl.
  split.
  - intros (x & [<-|[<-|[<-|[]]]] & Hx%str_eqb_eq); rewrite Hx; vm_compute; tauto.
  - intros [H|[H|[H|[]]]]; rewrite <- H.
    + exists "localhost"%string. split; [tauto|done].
    + exists "127.0.0.1"%string. split; [tauto|done].
    + exists "[::1]"%string. split; [tauto|done].
Qed.

Lemma str_slice_Some a b s t :
  str_slice a b s = Some t -> t = str_of_bytes (take (b - a) (drop a (bytes_of s))).
Proof. unfold str_slice. destruct (_ && _ && _); [by intros [= <-]|done]. Qed.

Lemma str_split_once_Some sep s l r : str_split_once sep s = Some (l, r) -> s = l +:+ sep +:+ r.
Proof.
  unfold str_split_once. destruct (split_once (bytes_of sep) (bytes_of s)) as [[a b]|] eqn:E; [|done].
  simpl. intros [= <- <-]. apply split_once_Some in E. rewrite <- (str_of_bytes_of s), E, !str_app_bytes.
  by rewrite str_of_bytes_of.
Qed.

(** What [canonical_hostname] returns is what stands before the port. *)
Lemma canonical_hostname_Ok authority host :
  canonical_hostname authority = Some (Ok host) ->
  exists port, authority = host +:+ port
    /\ (port = EmptyString \/ port = ":"%string
        \/ exists digits n, port = ":" +:+ digits /\ parse_u16 digits = Some n).
Proof.
  unfold canonical_hostname. destruct (str_is_empty authority || _); [done|].
  intros (parts & Hx & H)%bind_Some. apply Some_inj in H.
  apply bind_result_Ok in H as ([h port] & -> & H).
  destruct (is_some_and port _) eqn:Hp; [done|].
  destruct (is_ascii_bytes (bytes_of h) && negb (str_is_empty h)); [|done]. injection H as <-.
  assert (authority = h +:+ match port with Some p => ":" +:+ p | None => EmptyString end) as E.
  { destruct (starts_with "[" authority).
    - destruct (position (Z.eqb 93) (bytes_of authority)) as [i|]; [|done].
      apply bind_Some in Hx as (rest & Hr%str_slice_Some & Hx). apply bind_Some in Hx as (hs & Hh%str_slice_Some & Hx).
      assert (authority = hs +:+ rest) as Ha.
      { subst. rewrite <- str_app_bytes, Nat.sub_0_r, drop_0.
        rewrite (firstn_all2 (drop (i + 1) _)) by (rewrite length_drop; lia).
        by rewrite take_drop, str_of_bytes_of. }
      apply Some_inj in Hx. destruct (str_is_empty rest) eqn:Er.
      + injection Hx as <- <-. by destruct rest.
      + apply bind_result_Ok in Hx as (p & Ep%ok_or_Ok & Hx). injection Hx as <- <-.
        by apply strip_prefix_Some in Ep as ->.
    - apply Some_inj in Hx. injection Hx as Hx. destruct (str_split_once ":" authority) as [[l r]|] eqn:Es.
      + injection Hx as <- <-. by apply str_split_once_Some in Es.
      + injection Hx as <- <-. by rewrite str_app_empty. }
  exists (match port with Some p => ":" +:+ p | None => EmptyString end). split; [exact E|].
  destruct port as [p|]; [|by left]. right. simpl in Hp. destruct p as [|c p]; [by left|right].
  cbn [str_is_empty negb andb] in Hp. destruct (parse_u16 (String c p)) as [n|] eqn:En; [|done].
  by exists (String c p), n.
Qed.

Lemma canonical_loopback authority host :
  canonical_hostname authority = Some (Ok host) -> allowed host = true -> loopback authority.
Proof.
  intros (port & -> & Hp)%canonical_hostname_Ok Ha. exists host, port. split; [done|].
  split; [by apply allowed_In|done].
Qed.

(** [scheme://authority...] with a loopback authority *)
Definition loopback_origin (origin : string) : Prop :=
  exists scheme rest, origin = scheme +:+ "://" +:+ rest
    /\ loopback (str_until (fun b => existsb (Z.eqb b) [47; 63; 35]) rest).

(** *** A refusal with a JSON body is one: nothing in it panics *)

Lemma error_reply status code m id data : exists r, error status code m id data = Some (Reply r).
Proof. destruct data; by eexists. Qed.

Lemma mismatch_reply hd m id : exists r, mismatch hd m id = Some (Reply r).
Proof. apply error_reply. Qed.

Lemma invalid_reply m : exists r, invalid_request m = Some (Some (Reply r)).
Proof. by eexists. Qed.

Lemma forbidden_reply m : exists r, forbidden m = Some (Ok (Some r)).
Proof. by eexists. Qed.

Lemma reject_reply status code m : exists r, reject status code m = Some (Err (HeadReply r)).
Proof. by eexists. Qed.

#[local] Opaque error mismatch invalid_request forbidden reject.

(** Replace the refusals of the goal by what they are. *)
Ltac refusals :=
  repeat match goal with
  | |- context [error ?a ?b ?c ?d ?e] => let r := fresh "r" in destruct (error_reply a b c d e) as (r & ->)
  | |- context [mismatch ?a ?b ?c] => let r := fresh "r" in destruct (mismatch_reply a b c) as (r & ->)
  | |- context [invalid_request ?a] => let r := fresh "r" in destruct (invalid_reply a) as (r & ->)
  | |- context [forbidden ?a] => let r := fresh "r" in destruct (forbidden_reply a) as (r & ->)
  | |- context [reject ?a ?b ?c] => let r := fresh "r" in destruct (reject_reply a b c) as (r & ->)
  end.

Lemma url_security_None head :
  url_security head = Some (Ok None) ->
  (exists host, header head "host" = Some host /\ loopback host)
  /\ (forall origin, header head "origin" = Some origin -> origin <> EmptyString -> loopback_origin origin).
Proof.
  unfold url_security, nonempty. refusals. destruct (header head "host") as [host|]; [|done]. cbn [opt_filter].
  destruct (str_is_empty host); [done|]. cbn [negb]. intros (name & Hn & H)%bind_Some.
  destruct name as [name|]; [|done]. revert H. refusals. destruct (allowed name) eqn:Ha; [|done].
  intros H. cbn [negb] in H. split; [exists host; split; [done|]; by eapply canonical_loopback|].
  intros origin Ho Hne. rewrite Ho in H. cbn [opt_filter] in H.
  assert (str_is_empty origin = false) as He by (by destruct origin). rewrite He in H. cbn [negb] in H.
  revert H. refusals. destruct (str_split_once "://" origin) as [[scheme rest]|] eqn:Es; [|done].
  destruct (str_is_empty scheme || negb (forallb scheme_byte (bytes_of scheme))); [done|].
  intros (name' & Hn' & H)%bind_Some. destruct name' as [name'|]; [|done].
  revert H. refusals. destruct (allowed name') eqn:Ha'; [|done]. intros _.
  exists scheme, rest. split; [by apply str_split_once_Some|]. by eapply canonical_loopback.
Qed.

Definition header_name (h : string * string) : string := to_ascii_lowercase (fst h).

Lemma list_slice_seen (seen l : list (string * string)) : list_slice (length seen) (seen ++ l) = Some seen.
Proof.
  unfold list_slice. rewrite length_app, take_app_length.
  by destruct (Nat.leb_spec (length seen) (length seen + length l)); [|lia].
Qed.

Lemma duplicate_from_spec l : forall seen,
  NoDup (map header_name seen) -> duplicate_from (seen ++ l) (length seen) l = Some false ->
  NoDup (map header_name (seen ++ l)).
Proof.
  induction l as [|[name value] l IH]; intros seen Hs H; [by rewrite app_nil_r|].
  simpl in H. rewrite list_slice_seen in H. cbn [mbind option_bind] in H.
  destruct (existsb _ seen) eqn:H1; [done|].
  replace (seen ++ (name, value) :: l) with ((seen ++ [(name, value)]) ++ l) in * by by rewrite <- app_assoc.
  apply IH; [|by rewrite length_app, Nat.add_comm]. rewrite map_app. apply NoDup_app. split; [done|].
  split; [|apply NoDup_singleton]. intros x Hx Hn. apply list_elem_of_singleton in Hn. subst x.
  apply list_elem_of_In, in_map_iff in Hx as ([other v] & Ho & Hin).
  assert (existsb (fun '(other, _) => eq_ignore_ascii_case name other) seen = true); [|congruence].
  apply existsb_exists. exists (other, v). split; [done|]. unfold eq_ignore_ascii_case.
  apply str_eqb_eq. symmetry. exact Ho.
Qed.

Lemma duplicate_from_total l : forall seen, duplicate_from (seen ++ l) (length seen) l <> None.
Proof.
  induction l as [|[name value] l IH]; intros seen; simpl; [done|].
  rewrite list_slice_seen. cbn [mbind option_bind]. destruct (existsb _ seen); [done|].
  specialize (IH (seen ++ [(name, value)])). rewrite <- app_assoc, length_app, Nat.add_comm in IH. exact IH.
Qed.

(** What the head of an admitted request has shown. *)
Record head_admitted (head : RequestHead) (token : option string) : Prop := {
  ha_path : str_until (fun b => (b =? 63) || (b =? 35)) (target head) = "/mcp"%string;
  ha_target : str_len (target head) <= MAX_TARGET_BYTES;
  ha_count : Z.of_nat (length (headers head)) <= MAX_HEADERS;
  ha_bytes : exists n, header_bytes 0 (headers head) = Some n /\ n <= MAX_HEADER_BYTES;
  ha_unique : NoDup (map header_name (headers head));
  ha_host : exists host, header head "host" = Some host /\ loopback host;
  ha_origin : forall origin, header head "origin" = Some origin -> origin <> EmptyString ->
    loopback_origin origin;
  ha_token : forall t, token = Some t -> t <> EmptyString ->
    header head "authorization" = Some ("Bearer " +:+ t);
  ha_method : to_ascii_lowercase (method head) = "post"%string
}.

Lemma preflight_Ok head token :
  preflight head (policy_new token) = Some (Ok tt) -> head_admitted head token.
Proof.
  unfold preflight. refusals.
  destruct (str_eqb _ "/mcp") eqn:H1; [|done]. cbn [negb].
  destruct (Z.ltb_spec MAX_TARGET_BYTES (str_len (target head))) as [|H2]; [done|].
  destruct (Z.ltb_spec MAX_HEADERS (Z.of_nat (length (headers head)))) as [|H3]; [done|]. cbn [orb].
  destruct (is_none_or (header_bytes 0 (headers head)) (fun n => MAX_HEADER_BYTES <? n)) eqn:H4; [done|].
  intros (duplicate & H5 & H)%bind_Some. destruct duplicate; [done|].
  apply bind_Some in H as (security & H6 & H). destruct security as [[reply|]|reason]; [done| |done]. revert H.
  destruct (authenticated (policy_new token) (header head "authorization")) eqn:H7; [|done]. cbn [negb].
  destruct (eq_ignore_ascii_case (method head) "POST") eqn:H8; [|done]. cbn [negb]. intros _.
  apply url_security_None in H6 as [H6 H6']. split; try done.
  - by apply str_eqb_eq.
  - destruct (header_bytes 0 (headers head)) as [n|]; [|done]. simpl in H4. exists n.
    split; [done|]. by apply Z.ltb_ge.
  - apply (duplicate_from_spec (headers head) []); [constructor|done].
  - intros t -> Ht. by apply token_required in H7 as [|].
  - by apply str_eqb_eq in H8.
Qed.

Lemma batch_item_reply b a : batch_item_issue b = Some (Some a) -> exists r, a = Reply r.
Proof.
  induction b as [|i b IH]; simpl; [done|]. refusals.
  destruct (is_some_and _ _); [intros [= <-]; eauto|]. destruct (negb _); [intros [= <-]; eauto|done].
Qed.

Lemma shape_reply m a : shape_issue m = Some (Some a) -> exists r, a = Reply r.
Proof.
  unfold shape_issue. refusals. destruct (as_array m) as [b|].
  - unfold batch_issue. refusals. destruct b as [|i b]; [intros [= <-]; eauto|].
    intros (issue & E & H)%bind_Some. destruct issue as [a'|].
    + injection H as ->. by apply batch_item_reply in E.
    + revert H. destruct (100 <? _); [intros [= <-]; eauto|]. destruct (_ && _); [intros [= <-]; eauto|done].
  - destruct (message_shape m); [done|]. intros [= <-]; eauto.
Qed.

Lemma name_reply head m meth a : name_header_rejection head m meth = Some (Some a) -> exists r, a = Reply r.
Proof.
  unfold name_header_rejection. destruct (name_field meth) as [fld|]; [|done].
  destruct (header head "mcp-name") as [hd|].
  - intros (decoded & _ & H)%bind_Some. revert H. destruct decoded as [d|]; [|refusals; intros [= <-]; eauto].
    destruct (is_some_and _ _); [|done]. intros (body & _ & H)%bind_Some. revert H. refusals. intros [= <-]. eauto.
  - destruct (_ >>? as_str); [|done]. refusals. intros [= <-]. eauto.
Qed.

(** Case on the condition the goal's first [if] is stuck on. *)
Ltac on_if := match goal with |- (if ?b then _ else _) = _ -> _ => destruct b end.

Lemma admit_modern_body head body m meth version claim note x :
  admit_modern head body m meth version claim note = Some (Exchanged x) ->
  original_body x = body /\ message x = m /\ era x = Modern.
Proof.
  unfold admit_modern. intros (issue & _ & H)%bind_Some. revert H. destruct issue as [[k p]|]; [refusals; by on_if|].
  cbv zeta. refusals. do 3 (on_if; [done|]). on_if; [by intros [= <-]|]. do 2 (on_if; [done|]).
  intros ([a|] & E & H)%bind_Some; [|by injection H as <-].
  injection H as ->. by apply name_reply in E as (? & ?).
Qed.

Lemma admit_legacy_body head body m meth version note x :
  admit_legacy head body m meth version note = Some (Exchanged x) ->
  original_body x = body /\ message x = m /\ era x = Legacy.
Proof.
  unfold admit_legacy. cbv zeta. refusals. on_if; [done|]. on_if; [|by intros [= <-]].
  intros (v & _ & H)%bind_Some. revert H. by refusals.
Qed.

Lemma admit_message_body head body m x :
  admit_message head body m = Some (Exchanged x) -> original_body x = body /\ message x = m.
Proof.
  unfold admit_message. cbv zeta. intros (mi & _ & H)%bind_Some. revert H. on_if; [on_if|on_if; [|on_if]].
  - intros (v & _ & H)%bind_Some. revert H. by refusals.
  - intros H. by apply admit_legacy_body in H as (? & ? & _).
  - intros H. by apply admit_modern_body in H as (? & ? & _).
  - intros (keys & _ & H)%bind_Some. apply bind_Some in H as (v & _ & H). revert H. by refusals.
  - intros H. by apply admit_legacy_body in H as (? & ? & _).
Qed.

(** C24: Only a request from this machine, to the endpoint, with the token, is admitted. Whatever
    the head, the body and the JSON parser do, an exchange is admitted only when the path is
    [/mcp], target and headers are within their limits and no header is repeated, the [Host]
    (and a present [Origin]) is a loopback name with at most a port after it, the bearer token,
    when one is configured, is exactly the configured one, the method is [POST] and the body is
    within its limit; and the exchange is that body and what the parser read in it. *)
Theorem exchange_is_authorized head body token x :
  admit_request head body (policy_new token) = Some (Exchanged x) ->
  head_admitted head token /\ Z.of_nat (length body) <= MAX_BODY_BYTES
  /\ original_body x = body /\ json_parse body = Ok (message x).
Proof.
  unfold admit_request. intros (verdict & Hp & H)%bind_Some. revert H. destruct verdict as [[]|[r|u]]; [|done|done].
  apply preflight_Ok in Hp. refusals.
  destruct (Z.ltb_spec MAX_BODY_BYTES (Z.of_nat (length body))) as [|Hb]; [done|].
  destruct (json_parse body) as [m|[]] eqn:Hj; [|done|done].
  intros (issue & Hs & H)%bind_Some. destruct issue as [a|].
  { injection H as ->. by apply shape_reply in Hs as (? & ?). }
  by apply admit_message_body in H as (<- & <-).
Qed.

(** ** Panics *)

(** In UTF-8 a byte below 128 is a whole character: the one after it starts another. *)
Definition ascii_ends (bs : list Z) : Prop :=
  forall i b c, bs !! i = Some b -> b < 128 -> bs !! S i = Some c -> c < 128 \/ 192 <= c.

Lemma utf8_start c bs : utf8_bytes (c :: bs) = true -> c < 128 \/ 192 <= c.
Proof.
  simpl. destruct (Z.ltb_spec c 128); [by left|]. destruct bs as [|b1 bs]; [done|].
  destruct ((194 <=? c) && (c <=? 223)) eqn:E1; [apply andb_true_iff in E1 as (?%Z.leb_le & _); lia|].
  destruct bs as [|b2 bs]; [done|].
  destruct ((224 <=? c) && (c <=? 239)) eqn:E2; [apply andb_true_iff in E2 as (?%Z.leb_le & _); lia|].
  destruct bs as [|b3 bs]; [done|]. rewrite !andb_true_iff. intros (((((? & _) & _) & _) & _) & _). to_prop. lia.
Qed.

Lemma ascii_ends_cons b bs :
  (b < 128 -> match bs with c :: _ => c < 128 \/ 192 <= c | [] => True end) -> ascii_ends bs -> ascii_ends (b :: bs).
Proof.
  intros H T [|i] x c; simpl.
  - intros [= <-] Hb Hc. specialize (H Hb). destruct bs; [done|]. by injection Hc as <-.
  - apply T.
Qed.

Lemma utf8_ends : forall bs, utf8_bytes bs = true -> ascii_ends bs.
Proof.
  fix IH 1. intros [|b0 bs] H; [by intros [|?] ? ?|]. cbn [utf8_bytes] in H.
  destruct (Z.ltb_spec b0 128).
  { apply ascii_ends_cons; [|by apply IH]. intros _. destruct bs; [done|]. by apply utf8_start in H. }
  apply ascii_ends_cons; [lia|]. destruct bs as [|b1 bs]; [done|].
  destruct ((194 <=? b0) && (b0 <=? 223)).
  { rewrite !andb_true_iff in H. destruct H as ((? & _) & H). to_prop.
    apply ascii_ends_cons; [lia|by apply IH]. }
  destruct bs as [|b2 bs]; [done|]. destruct ((224 <=? b0) && (b0 <=? 239)).
  { rewrite !andb_true_iff in H. destruct H as (((H1 & _) & (? & _)) & H). apply Z.leb_le in H1. to_prop.
    apply ascii_ends_cons; [destruct (b0 =? 224); lia|]. apply ascii_ends_cons; [lia|by apply IH]. }
  destruct bs as [|b3 bs]; [done|]. rewrite !andb_true_iff in H.
  destruct H as (((((_ & _) & (H1 & _)) & (? & _)) & (? & _)) & H). apply Z.leb_le in H1. to_prop.
  apply ascii_ends_cons; [destruct (b0 =? 240); lia|]. apply ascii_ends_cons; [lia|].
  apply ascii_ends_cons; [lia|by apply IH].
Qed.

Lemma ascii_ends_part a m z : ascii_ends (a ++ m ++ z) -> ascii_ends m.
Proof.
  intros H i b c Hb Hl Hc. apply (H (length a + i)%nat b c); [|done|].
  - rewrite lookup_app_r, lookup_app_l by (apply lookup_lt_Some in Hb; lia). rewrite <- Hb. f_equal. lia.
  - rewrite lookup_app_r, lookup_app_l by (apply lookup_lt_Some in Hc; lia). rewrite <- Hc. f_equal. lia.
Qed.

Lemma strip_any_suffix ps bs r : strip_any ps bs = Some r -> exists a, bs = a ++ r.
Proof.
  induction ps as [|p ps IH]; simpl; [done|]. destruct (strip p bs) as [r'|] eqn:E; [|done].
  intros [= <-]. exists p. by apply strip_Some.
Qed.

Lemma strip_all_suffix fuel ps : forall bs, exists a, bs = a ++ strip_all fuel ps bs.
Proof.
  induction fuel as [|fuel IH]; intros bs; simpl; [by exists []|].
  destruct (strip_any ps bs) as [r|] eqn:E; [|by exists []]. apply strip_any_suffix in E as (a & ->).
  destruct (IH r) as (a' & Ha). exists (a ++ a'). by rewrite <- app_assoc, <- Ha.
Qed.

Lemma trim_part spaces bs : exists a z, bs = a ++ trim_bytes spaces bs ++ z.
Proof.
  unfold trim_bytes. destruct (strip_all_suffix (length bs) spaces bs) as (a & Ha).
  set (start := strip_all (length bs) spaces bs) in *.
  destruct (strip_all_suffix (length start) (map (@rev Z) spaces) (rev start)) as (z & Hz).
  exists a, (rev z). rewrite Ha at 1. f_equal. by rewrite <- rev_app_distr, <- Hz, rev_involutive.
Qed.

(** A part of a text: what is within it *)
Lemma bytes_of_part s a m z : bytes_of s = a ++ m ++ z -> bytes_of (str_of_bytes m) = m.
Proof.
  intros E. apply bytes_of_str. pose proof (bytes_of_bytes s) as H. rewrite E in H.
  apply Forall_app in H as (_ & H). by apply Forall_app in H as (H & _).
Qed.

(** Header names and values are texts of UTF-8. *)
Definition texts (head : RequestHead) : Prop := Forall (fun h => valid_utf8 (snd h) = true) (headers head).

Lemma header_ends head name value : texts head -> header head name = Some value -> ascii_ends (bytes_of value).
Proof.
  unfold header. intros T ((k, v) & F & ->)%fmap_Some. apply find_some in F as (Hin & _).
  unfold texts in T. rewrite Forall_forall in T. apply list_elem_of_In, T, utf8_ends in Hin. simpl in *.
  unfold ows, trim_ascii. destruct (trim_part (map (fun c => [c]) [32; 9]) (bytes_of v)) as (a & z & E).
  rewrite (bytes_of_part v _ _ _ E). by rewrite E in Hin; apply ascii_ends_part in Hin.
Qed.

Lemma bind_total {A B} (o : option A) (k : A -> option B) :
  o <> None -> (forall a, o = Some a -> k a <> None) -> (o ≫= k) <> None.
Proof. destruct o; simpl; auto. Qed.

(** A slice from after one ASCII byte to before another, or to the end *)
Lemma str_slice_total a b s :
  ascii_ends (bytes_of s) -> (a <= b)%nat ->
  (a = 0%nat /\ (exists c, bytes_of s !! 0%nat = Some c /\ c < 128)
   \/ exists i c, a = S i /\ bytes_of s !! i = Some c /\ c < 128) ->
  (b = length (bytes_of s) \/ (exists c, bytes_of s !! b = Some c /\ c < 128)
   \/ exists i c, b = S i /\ bytes_of s !! i = Some c /\ c < 128) ->
  str_slice a b s <> None.
Proof.
  intros E L Ha Hb. unfold str_slice.
  assert (forall i c, bytes_of s !! i = Some c -> c < 128 -> char_boundary (bytes_of s) (S i) = true) as After.
  { intros i c Hc Hl. unfold char_boundary. destruct (bytes_of s !! S i) as [d|] eqn:Ed.
    - destruct (E _ _ _ Hc Hl Ed); to_prop; lia.
    - apply lookup_lt_Some in Hc. apply lookup_ge_None in Ed. apply Nat.eqb_eq. lia. }
  assert (forall i c, bytes_of s !! i = Some c -> c < 128 -> char_boundary (bytes_of s) i = true) as Before.
  { intros i c Hc Hl. unfold char_boundary. rewrite Hc. to_prop. lia. }
  assert (char_boundary (bytes_of s) a = true) as ->.
  { destruct Ha as [(-> & c & Hc & Hl)|(i & c & -> & Hc & Hl)]; eauto. }
  assert (char_boundary (bytes_of s) b = true) as ->.
  { destruct Hb as [->|[(c & Hc & Hl)|(i & c & -> & Hc & Hl)]]; eauto.
    unfold char_boundary. rewrite lookup_ge_None_2 by lia. apply Nat.eqb_refl. }
  by rewrite (proj2 (Nat.leb_le _ _) L).
Qed.

Lemma canonical_total authority : ascii_ends (bytes_of authority) -> canonical_hostname authority <> None.
Proof.
  intros E. unfold canonical_hostname. destruct (_ || _); [done|]. apply bind_total; [|done].
  destruct (starts_with "[" authority) eqn:Hs; [|done].
  destruct (position (Z.eqb 93) (bytes_of authority)) as [i|] eqn:Hp; [|done].
  apply position_first in Hp as (x & Hx & <-%Z.eqb_eq & _). pose proof (lookup_lt_Some _ _ _ Hx).
  apply starts_with_true in Hs as (r & Hr).
  assert (bytes_of authority !! 0%nat = Some 91) as H0 by (by rewrite Hr).
  apply bind_total; [|intros rest _; apply bind_total; [|done]].
  - apply str_slice_total; [done|lia| |by left]. right. exists i, 93. by split; [lia|].
  - apply str_slice_total; [done|lia| |]; [left; split; [done|]; by exists 91|].
    right; right. exists i, 93. by split; [lia|].
Qed.

Lemma url_security_total head : texts head -> url_security head <> None.
Proof.
  intros T. unfold url_security, nonempty. refusals.
  destruct (header head "host") as [host|] eqn:Eh; [|done]. cbn [opt_filter].
  destruct (negb (str_is_empty host)); [|done].
  apply bind_total; [apply canonical_total; by eapply header_ends|]. intros [hostname|] _; [|done]. refusals.
  destruct (negb (allowed hostname)); [done|]. destruct (header head "origin") as [origin|] eqn:Eo; [|done].
  cbn [opt_filter]. destruct (negb (str_is_empty origin)); [|done]. refusals.
  destruct (str_split_once "://" origin) as [[scheme rest]|] eqn:Es; [|done]. destruct (_ || _); [done|].
  apply bind_total; [|intros [h|] _; [refusals; by destruct (negb _)|done]].
  apply canonical_total. pose proof (header_ends _ _ _ T Eo) as E. apply str_split_once_Some in Es as ->.
  rewrite !bytes_of_app in E. unfold str_until.
  destruct (until_prefix (fun b => existsb (Z.eqb b) [47; 63; 35]) (bytes_of rest)) as (z & Hz).
  rewrite (bytes_of_part rest [] _ z Hz). rewrite Hz in E. rewrite app_assoc in E. by apply ascii_ends_part in E.
Qed.

Lemma preflight_total head policy : texts head -> preflight head policy <> None.
Proof.
  intros T. unfold preflight. refusals. destruct (negb _); [done|]. destruct (_ <? _); [done|].
  destruct (_ || _); [done|]. apply bind_total; [apply (duplicate_from_total _ [])|].
  intros [] _; [done|]. apply bind_total; [by apply url_security_total|].
  intros [[]|] _; [done| |done]. destruct (negb _); [done|]. destruct (negb _); [done|]. by destruct (_ || _).
Qed.

Lemma shape_total m : shape_issue m <> None.
Proof.
  unfold shape_issue, batch_issue. refusals. destruct (as_array m) as [[|i b]|]; [done| |by destruct (message_shape m)].
  apply bind_total.
  - generalize (i :: b). intros l. induction l as [|x l IH]; simpl; [done|]. refusals.
    destruct (is_some_and _ _); [done|]. by destruct (negb _).
  - intros [a|] _; [done|]. destruct (100 <? _); [done|]. by destruct (_ && _).
Qed.

(** The keys the loop found are those that are read. *)
Lemma envelope_total m notification : envelope_issue m notification <> None.
Proof.
  unfold envelope_issue. destruct (meta m) as [fields|]; [|done].
  assert (forall k, negb (one_of k (keys fields)) = false -> field k fields <> None) as Read.
  { intros k H%negb_false_iff%one_of_In. by apply field_key. }
  destruct (List.find _ _) as [k|] eqn:F; [done|].
  assert (field VERSION fields <> None) as V.
  { apply Read. apply (find_none _ _ F). destruct notification; by left. }
  apply bind_total; [done|]. intros version _. destruct (negb (is_string version)); [done|].
  destruct notification; [done|].
  assert (field CAPABILITIES fields <> None) as C by (apply Read, (find_none _ _ F); right; by left).
  apply bind_total; [done|]. intros c _. destruct (negb _); [done|]. by destruct (is_some_and _ _).
Qed.

Definition empty_sentinel : string := "=?base64?=".

Lemma decode_name_total header :
  ascii_ends (bytes_of header) -> header <> empty_sentinel -> decode_name header <> None.
Proof.
  intros E N. unfold decode_name. destruct (starts_with "=?base64?" header) eqn:Hs; [|done].
  destruct (ends_with "?=" header) eqn:He; [|done]. cbn [andb].
  apply starts_with_true in Hs as [r Hr]. apply ends_with_true in He as [a Ha].
  assert (String.length header = 9 + String.length r)%nat as L1 by (by rewrite Hr, string_length_app).
  assert (String.length header = String.length a + 2)%nat as L2 by (by rewrite Ha, string_length_app).
  assert (2 <= String.length r)%nat as L.
  { destruct r as [|c [|c' r]]; simpl in L1; [exfalso|exfalso|simpl; lia].
    - rewrite L1 in L2. rewrite Ha in Hr. do 7 (destruct a as [|? a]; [simpl in L2; lia|]).
      destruct a; [by inversion Hr|simpl in L2; lia].
    - apply N. rewrite L1 in L2. rewrite Ha in Hr |- *. do 8 (destruct a as [|? a]; [simpl in L2; lia|]).
      destruct a; [|simpl in L2; lia]. simpl in Hr. by inversion Hr. }
  unfold length_minus. rewrite (proj2 (Nat.leb_le _ _)) by lia. cbn [mbind option_bind].
  apply bind_total; [|done]. apply str_slice_total; [done|lia| |].
  - right. exists 8%nat, 63. split; [done|]. by rewrite Hr.
  - right; left. exists 63. split; [|done]. rewrite L2, Nat.add_sub, Ha, bytes_of_app.
    rewrite lookup_app_r by (by rewrite length_bytes_of). by rewrite length_bytes_of, Nat.sub_diag.
Qed.

Lemma name_total head m meth :
  texts head -> header head "mcp-name" <> Some empty_sentinel -> name_header_rejection head m meth <> None.
Proof.
  intros T N. unfold name_header_rejection. destruct (name_field meth) as [fld|]; [|done].
  destruct (header head "mcp-name") as [hd|] eqn:E.
  - apply bind_total; [apply decode_name_total; [by eapply header_ends|by intros ->]|].
    intros [d|] _; refusals; [|done]. destruct (is_some_and _ _) eqn:S; [|done].
    destruct (_ >>? as_str) as [b|]; [|done]. cbn [mbind option_bind]. by refusals.
  - destruct (_ >>? as_str); [|done]. by refusals.
Qed.

Lemma is_some_and_some {A} (o : option A) p : is_some_and o p = true -> o <> None.
Proof. by destruct o. Qed.

Lemma legacy_total head body m meth version note : admit_legacy head body m meth version note <> None.
Proof.
  unfold admit_legacy. cbv zeta. refusals. destruct (_ || _); [done|]. destruct (_ && _) eqn:E; [|done].
  apply andb_true_iff in E as (_ & E%is_some_and_some). apply bind_total; [done|]. intros v _. by refusals.
Qed.

Lemma modern_total head body m meth version claim note :
  texts head -> header head "mcp-name" <> Some empty_sentinel ->
  admit_modern head body m meth version claim note <> None.
Proof.
  intros T N. unfold admit_modern. apply bind_total; [destruct (is_none claim); [done|apply envelope_total]|].
  intros [[k p]|] _; [refusals; by destruct (str_eqb _ _)|]. cbv zeta. refusals.
  destruct (is_some_and version _); [done|]. destruct (is_some_and _ _); [done|]. destruct (negb _); [done|].
  destruct note; [done|]. destruct (is_none version); [done|]. destruct (is_none _); [done|].
  apply bind_total; [by apply name_total|done].
Qed.

Lemma missing_total m : missing_keys m <> None.
Proof. unfold missing_keys. by destruct (meta m). Qed.

(** C36: Admission panics on one header value only.  Whatever the request and the codecs do, as long as
    the headers are UTF-8, as a [str] is, every slice of [admit_request] is within its text and
    between characters, every [unwrap] is of something, every key indexed in the envelope was
    found there before, and every value assigned into is an object, but for the slice of the
    [Mcp-Name] header when it is the sentinel with its two ends overlapping, [=?base64?=]. *)
Theorem admit_panics_only_on_empty_sentinel head body policy :
  texts head -> admit_request head body policy = None -> header head "mcp-name" = Some empty_sentinel.
Proof.
  intros T P. destruct (decide (header head "mcp-name" = Some empty_sentinel)) as [|N]; [done|].
  exfalso. revert P. unfold admit_request. apply bind_total; [by apply preflight_total|].
  intros [[]|[r|u]] _; [|done|done]. refusals. destruct (_ <? _); [done|].
  destruct (json_parse body) as [m|[]]; [|done|done]. apply bind_total; [apply shape_total|].
  intros [a|] _; [done|]. unfold admit_message. cbv zeta. apply bind_total.
  { destruct (_ && _); [|done]. apply bind_total; [apply envelope_total|done]. }
  intros mi _. destruct (_ && negb mi).
  { destruct (is_some_and _ _) eqn:V; [|apply legacy_total]. apply is_some_and_some in V.
    apply bind_total; [done|]. intros v _. by refusals. }
  destruct (_ || _); [by apply modern_total|]. destruct (_ && _) eqn:V; [|apply legacy_total].
  apply andb_true_iff in V as (_ & V%is_some_and_some). apply bind_total; [apply missing_total|].
  intros keys _. apply bind_total; [done|]. intros v _. by refusals.
Qed.

(** ** Modern requests agree with their headers *)

Lemma admit_legacy_era head body m meth version note x :
  admit_legacy head body m meth version note = Some (Exchanged x) -> era x = Legacy.
Proof. intros H. by apply admit_legacy_body in H as (_ & _ & ?). Qed.

(** A header that must repeat what the body says *)
Definition agrees (header body : option string) : Prop := exists v, header = Some v /\ body = Some v.

Lemma name_agrees head m meth fld :
  name_header_rejection head m meth = Some None -> name_field meth = Some fld ->
  forall body, get "params" m >>? get fld >>? as_str = Some body ->
  exists h, header head "mcp-name" = Some h /\ decode_name h = Some (Some body).
Proof.
  unfold name_header_rejection. intros H Hf body Hb. rewrite Hf in H. rewrite Hb in H.
  destruct (header head "mcp-name") as [h|].
  - apply bind_Some in H as (d & Hd & H). exists h. split; [done|]. revert H. refusals.
    destruct d as [d|]; [|done]. cbn [is_some_and]. destruct (str_eqb body d) eqn:E.
    + intros _. by apply str_eqb_eq in E as ->.
    + cbn [negb mbind option_bind]. by refusals.
  - revert H. by refusals.
Qed.

(** A modern request is what its headers say. An admitted exchange of the modern era that is
    not a notification carries an envelope for exactly the protocol revision this server
    speaks, its version header names the same revision, its method header names the body's
    method, and where the method names a tool, a resource, a prompt or a task, the decoded name
    header is that name: a proxy that decides on the headers has decided on this request. *)
Theorem modern_request_agrees head body policy x :
  admit_request head body policy = Some (Exchanged x) -> era x = Modern ->
  mode x <> ModeEmpty ->
  meta (message x) >>? field VERSION = Some (str MODERN)
  /\ header head "mcp-protocol-version" = Some MODERN
  /\ agrees (header head "mcp-method") (get "method" (message x) >>? as_str)
  /\ envelope_issue (message x) false = Some None
  /\ forall meth fld name, get "method" (message x) >>? as_str = Some meth ->
       name_field meth = Some fld -> get "params" (message x) >>? get fld >>? as_str = Some name ->
       exists h, header head "mcp-name" = Some h /\ decode_name h = Some (Some name).
Proof.
  unfold admit_request. intros (verdict & _ & H)%bind_Some. revert H. destruct verdict as [|[|]]; [|done|done].
  refusals. on_if; [done|]. destruct (json_parse body) as [m|[]]; [|done|done].
  intros (issue & Hs & H)%bind_Some. destruct issue as [refusal|].
  { injection H as ->. by apply shape_reply in Hs as (? & ?). }
  revert H. unfold admit_message. cbv zeta.
  set (meth := get "method" m >>? as_str). set (claim := meta m >>? field VERSION).
  set (version := header head "mcp-protocol-version"). intros (mi & _ & H)%bind_Some. revert H.
  on_if. { on_if.
    - intros (v & _ & H)%bind_Some. revert H. by refusals.
    - intros H He. apply admit_legacy_era in H. congruence. }
  destruct (negb (is_none claim) || _) eqn:Hclaim.
  2: { on_if.
    - intros (keys & _ & H)%bind_Some. apply bind_Some in H as (v & _ & H). revert H. by refusals.
    - intros H He. apply admit_legacy_era in H. congruence. }
  intros Hx _ Hm. pose proof (admit_modern_body _ _ _ _ _ _ _ _ Hx) as (_ & <- & _).
  revert Hx. unfold admit_modern. cbv zeta. refusals. intros (issue & Henv & H)%bind_Some. revert H.
  destruct (negb (is_none meth) && negb (has "id" (message x))) eqn:Hnote.
  { destruct issue as [[k p]|]; [by on_if|].
    do 3 (on_if; [done|]). intros [= Hx]. destruct Hm. by rewrite <- Hx. }
  rewrite orb_false_r in Hclaim. apply negb_true_iff in Hclaim. rewrite Hclaim in Henv |- *.
  destruct issue as [[k p]|]; [by on_if|].
  fold version. fold claim. destruct claim as [c|] eqn:Hc; [|done].
  assert (exists v, c = Str v) as [v ->].
  { revert Henv. unfold envelope_issue. unfold claim in Hc. destruct (meta (message x)) as [me|]; [|done].
    cbn [and_then] in Hc. destruct (List.find _ _); [done|]. rewrite Hc. cbn [mbind option_bind].
    destruct (is_string c) eqn:E; [|done]. destruct c; try done. eauto. }
  cbn [and_then as_str or_else]. destruct (is_some_and version _) eqn:Hv; [done|].
  destruct (is_some_and (header head "mcp-method") _) eqn:Hmm; [done|].
  destruct (str_eqb v MODERN) eqn:HM; [|done]. apply str_eqb_eq in HM as ->. cbn [negb].
  destruct version as [ver|] eqn:Hver; [|done]. cbn [is_none].
  destruct (header head "mcp-method") as [hm|] eqn:Hhm; [|done]. cbn [is_none].
  simpl in Hv. apply negb_false_iff, str_eqb_eq in Hv as ->.
  simpl in Hmm. apply negb_false_iff, bool_decide_eq_true in Hmm.
  intros (rejection & Hn & H)%bind_Some. destruct rejection as [refusal|].
  { injection H as ->. by apply name_reply in Hn as (? & ?). }
  split; [done|]. split; [done|]. split; [by exists hm|]. split; [done|].
  intros me fld name Hme Hf Hnm. fold meth in Hme. rewrite Hme in Hn.
  by eapply name_agrees.
Qed.

(** ** The spans of a batch *)

Definition spaces (l : list Z) : Prop := Forall (fun b => is_ascii_whitespace b = true) l.

(** What stands before an item: white space, and a comma unless it is the first. *)
Definition gap_ok (first : bool) (g : list Z) : Prop :=
  if first then spaces g else exists a b, g = a ++ 44 :: b /\ spaces a /\ spaces b.

Definition gaps_ok (first : bool) (gaps : list (list Z)) : Prop :=
  match gaps with [] => True | g :: gs => gap_ok first g /\ Forall (gap_ok false) gs end.

Lemma gaps_cons first g gs : gap_ok first g -> gaps_ok false gs -> gaps_ok first (g :: gs).
Proof. intros H1 H2. split; [done|]. destruct gs as [|g' gs]; [constructor|]. destruct H2. by constructor. Qed.

Lemma skip_spaces_spaces bs : spaces (take (skip_spaces bs) bs).
Proof.
  induction bs as [|b bs IH]; simpl; [constructor|].
  destruct (is_ascii_whitespace b) eqn:E; [by constructor|constructor].
Qed.

Lemma drop_split (n k : nat) (bs : list Z) : drop n bs = take k (drop n bs) ++ drop (n + k) bs.
Proof. by rewrite <- drop_drop, take_drop. Qed.

Lemma slice_eq a k bs t : slice a (a + k) bs = Some t -> t = take k (drop a bs).
Proof.
  unfold slice. destruct (_ && _)%bool; [|done]. intros [= <-].
  by replace (a + k - a)%nat with k by lia.
Qed.

Lemma lookup_drop_cons n b (bs : list Z) : bs !! n = Some b -> drop n bs = b :: drop (S n) bs.
Proof. apply drop_S. Qed.

(** What one item becomes *)
Definition item_of (e : Era) (client : option string) (y : Exchange) (item : Value) : Prop :=
  message y = item /\ era y = e /\ declared y = client /\ mode y = item_mode item.

Lemma split_items_spec body e client items : forall first at_ ys end_,
  split_items body e client first at_ items = Ok (ys, end_) ->
  Forall2 (item_of e client) ys items
  /\ exists gaps, length gaps = length ys /\ gaps_ok first gaps
     /\ drop at_ body = concat (zip_with app gaps (map original_body ys)) ++ drop end_ body.
Proof.
  induction items as [|item items IH]; intros first at_ ys end_; simpl.
  - intros [= <- <-]. split; [constructor|]. by exists [].
  - intros (at2 & Hat & H)%bind_result_Ok.
    apply bind_result_Ok in H as (span & Hspan & H). apply bind_result_Ok in H as (text & Ht%ok_or_Ok & H).
    apply bind_result_Ok in H as ([zs end2] & Hz & H). injection H as <- <-.
    apply IH in Hz as (Hf & gaps & Hl & Hg & Hd).
    apply slice_eq in Ht. set (n := skip_spaces (drop at_ body)) in *.
    assert (exists g, gap_ok first g /\ drop at_ body = g ++ drop at2 body) as (g & Hgk & Hgd).
    { destruct first.
      - injection Hat as <-. exists (take n (drop at_ body)). split; [apply skip_spaces_spaces|apply drop_split].
      - destruct (bool_decide_reflect (body !! (at_ + n)%nat = Some 44)) as [Hc|]; [|done].
        injection Hat as <-. set (k := skip_spaces (drop (S (at_ + n)) body)).
        exists (take n (drop at_ body) ++ 44 :: take k (drop (S (at_ + n)) body)). split.
        + exists (take n (drop at_ body)), (take k (drop (S (at_ + n)) body)).
          split; [done|]. split; apply skip_spaces_spaces.
        + etrans; [apply (drop_split at_ n)|]. rewrite <- app_assoc. f_equal.
          rewrite (lookup_drop_cons _ _ _ Hc). cbn [app]. f_equal. apply drop_split. }
    split; [constructor; [done|exact Hf]|].
    exists (g :: gaps). split; [simpl; by rewrite Hl|]. split; [by apply gaps_cons|].
    cbn [map zip_with concat original_body]. rewrite Hgd, <- !app_assoc. f_equal.
    etrans; [apply (drop_split at2 span)|]. by rewrite <- Ht, Hd.
Qed.

(** Splitting a batch loses, adds and reorders nothing. Whatever the JSON stream says about
    the ends of values, when a batch is split there is one exchange per item, in order, with
    the item as message, the era and the declared client of the batch and the response mode
    its kind asks for; and their bodies are disjoint spans of the original bytes: put back
    between the brackets with nothing but white space and one comma between neighbours, they
    are the body that was admitted. *)
Theorem batch_split_exact x items ys :
  into_items x = Ok ys -> as_array (message x) = Some items ->
  Forall2 (item_of (era x) (declared x)) ys items
  /\ exists lead gaps trail rest,
       original_body x = lead ++ 91 :: concat (zip_with app gaps (map original_body ys)) ++ trail ++ 93 :: rest
       /\ length gaps = length ys /\ spaces lead /\ gaps_ok true gaps /\ spaces trail.
Proof.
  unfold into_items. intros H Ha. rewrite Ha in H.
  set (body := original_body x) in *. set (n := skip_spaces body) in *.
  destruct (bool_decide_reflect (body !! n = Some 91)) as [Hb|]; [|done]. cbn [negb] in H.
  apply bind_result_Ok in H as ([zs end_] & Hz & H).
  destruct (bool_decide_reflect (body !! (end_ + skip_spaces (drop end_ body))%nat = Some 93)) as [He|]; [|done].
  injection H as ->. apply split_items_spec in Hz as (Hf & gaps & Hl & Hg & Hd). split; [done|].
  set (k := skip_spaces (drop end_ body)) in *.
  exists (take n body), gaps, (take k (drop end_ body)), (drop (S (end_ + k)) body).
  split; [|split; [done|split; [apply skip_spaces_spaces|split; [done|apply skip_spaces_spaces]]]].
  rewrite <- (lookup_drop_cons _ _ _ He), <- drop_split, <- Hd, <- (lookup_drop_cons _ _ _ Hb).
  by rewrite take_drop.
Qed.

(** ** The declared client *)

(** A declared client is a short plain name. Whatever the query of the target, a client name
    taken from it is not empty, has at most 64 bytes, and is made of letters, digits and five
    punctuation marks only. *)
Theorem declared_client_is_plain target name :
  declared_client target = Some name ->
  name <> EmptyString /\ str_len name <= 64 /\ forallb client_byte (bytes_of name) = true.
Proof.
  unfold declared_client. destruct (split_once [63] (bytes_of target)) as [[l rest]|]; [|done]. simpl.
  generalize (split_byte 38 (until (Z.eqb 35) rest)). intros pairs.
  induction pairs as [|part pairs IH]; [done|]. cbn [client_of].
  destruct (match split_once [61] part with Some kv => kv | None => (part, []) end) as [key value].
  on_if; [|done]. destruct (decode_form value) as [n|]; [|done]. simpl.
  set (t := str_of_bytes _). destruct (str_is_empty t) eqn:E1; [done|].
  destruct (Z.leb_spec (str_len t) 64); [|done]. destruct (forallb client_byte (bytes_of t)) eqn:E3; [|done].
  intros [= <-]. split; [by intros E; rewrite E in E1|]. done.
Qed.
End Protocol.
