(* ===== verification/HttpHead.v ===== *)
(** * The head of an HTTP request

    [native/src/http_tcp_head.rs]: the stricter reading of a request head before Hyper frames
    the request.  The parsers of the [httparse] and [hyper] crates are parameters without laws:
    whatever they report, a head that is let through has the facts the theorem names. *)
From S2P Require Import Prelude Json Text Resolver HttpProtocol.

Record Head := {
  hd_method : string;
  hd_target : string;
  hd_headers : list (string * string)
}.

(** [Head::request] and [Head::borrowed] *)
Definition head_request (h : Head) : RequestHead :=
  {| method := hd_method h; target := hd_target h; headers := hd_headers h |}.

Inductive Refusal : Type := Syntax | Capacity | Expect | Unsupported.

Inductive Parsed : Type :=
| Partial
| Complete (h : Head)
| Refuse (r : Refusal).

(** What [httparse::Request::parse] reports: nothing yet, the end of the head with its parts, or
    why it failed. *)
Inductive HttparseStatus : Type :=
| HpPartial
| HpComplete (offset : nat) (method path : option string) (headers : list (string * list Z))
| HpTooManyHeaders
| HpError.

(** [hyper::http::uri::Authority] *)
Record Authority := { au_host : string; au_port : option string; au_port_u16 : option Z }.
(** [hyper::http::Uri]: scheme and authority *)
Record Uri := { uri_scheme : option string; uri_authority : option string }.

Class HeadLibs := {
  httparse : list Z -> HttparseStatus;
  parse_authority : string -> option Authority;
  parse_uri : string -> option Uri
}.

(** [Ipv4Addr::to_string] *)
Definition ipv4_text (octets : list Z) : string :=
  join "." (map (fun o => pretty (Z.to_N o)) octets).

Definition authority_forbidden (b : Z) : bool :=
  negb (b <? 128) || is_ascii_control b || existsb (Z.eqb b) [64; 37; 92; 47; 63; 35].

Definition label_ok (label : string) : bool :=
  negb (str_is_empty label)
  && forallb (fun b => is_alphanumeric b || (b =? 45)) (bytes_of label)
  && negb (starts_with "-" label) && negb (ends_with "-" label).

Section Head.
Context {Libs : HeadLibs}.

Definition canonical_authority (value : string) : bool :=
  if existsb authority_forbidden (bytes_of value) then false
  else match parse_authority value with
  | None => false
  | Some authority =>
      if negb (is_none (au_port authority)) && is_none (au_port_u16 authority) then false
      else
        let host := au_host authority in
        if starts_with "0x" (to_ascii_lowercase host) then false
        else if starts_with "[" host then str_eqb host "[::1]"
        else if forallb (fun b => is_digit b || (b =? 46)) (bytes_of host) then
          match read_ipv4_addr (bytes_of host) with
          | Some (octets, []) => str_eqb (ipv4_text octets) host
          | _ => false
          end
        else
          let labels := split 46 host in
          if is_some_and (last labels) (fun label => forallb is_digit (bytes_of label))
             || existsb (fun label => starts_with "xn--" (to_ascii_lowercase label)) labels
          then false
          else negb (str_is_empty host) && negb (starts_with "." host) && forallb label_ok labels
  end.

Definition find_header (name : string) (l : list (string * string)) : option string :=
  snd <$> List.find (fun '(n, _) => str_eqb n name) l.

Definition closed_urls (target : string) (headers : list (string * string)) : bool :=
  let path := str_until (Z.eqb 63) target in
  if negb (is_ascii_bytes (bytes_of target)) || negb (starts_with "/" target)
     || starts_with "//" target
     || existsb (fun b => (b =? 35) || (b =? 92)) (bytes_of target)
     || contains "%" path
     || existsb (fun part => one_of part ["."; ".."]%string) (split 47 path)
  then false
  else if is_some_and (find_header "host" headers) (fun host => negb (canonical_authority host)) then false
  else
    match find_header "origin" headers with
    | None => true
    | Some origin =>
        if str_is_empty origin || str_eqb origin "null" then true
        else match parse_uri origin with
             | None => false
             | Some uri =>
                 negb (is_none (uri_scheme uri)) && is_some_and (uri_authority uri) canonical_authority
             end
    end.

Definition first_only (name : string) : bool :=
  one_of name ["age"; "authorization"; "content-length"; "content-type"; "etag"; "expires"; "from";
    "host"; "if-modified-since"; "if-unmodified-since"; "last-modified"; "location";
    "max-forwards"; "proxy-authorization"; "referer"; "retry-after"; "server"; "user-agent"]%string.

(** Is there a line feed that does not follow a carriage return? *)
Fixpoint bare_lf (previous : option Z) (bs : list Z) : bool :=
  match bs with
  | [] => false
  | b :: bs => ((b =? 10) && negb (bool_decide (previous = Some 13))) || bare_lf (Some b) bs
  end.

Definition named (name : string) (h : string * list Z) : bool := eq_ignore_ascii_case (fst h) name.
Definition count (name : string) (l : list (string * list Z)) : nat := length (List.filter (named name) l).

(** Joining a repeated header to the one already kept *)
Fixpoint join_header (name separator value : string) (l : list (string * string))
  : list (string * string) :=
  match l with
  | [] => []
  | (key, old) :: l =>
      if str_eqb key name then (key, old +:+ separator +:+ value) :: l
      else (key, old) :: join_header name separator value l
  end.

Fixpoint collect (kept : list (string * string)) (l : list (string * list Z))
  : result Refusal (list (string * string)) :=
  match l with
  | [] => Ok kept
  | (raw, bytes) :: l =>
      let name := to_ascii_lowercase raw in
      if negb (is_ascii_bytes bytes) then Err Unsupported
      else if negb (utf8_bytes bytes) then Err Unsupported
      else
        let value := ows (str_of_bytes bytes) in
        if str_eqb name "transfer-encoding" && negb (eq_ignore_ascii_case value "chunked") then
          Err Unsupported
        else if existsb (fun '(key, _) => str_eqb key name) kept then
          if first_only name then collect kept l
          else collect (join_header name (if str_eqb name "cookie" then "; " else ", ") value kept) l
        else collect (kept ++ [(name, value)]) l
  end.

Definition parse (bytes : list Z) : Parsed :=
  match httparse bytes with
  | HpPartial =>
      if MAX_HEADER_BYTES <=? Z.of_nat (length bytes) then Refuse Capacity else Partial
  | HpTooManyHeaders => Refuse Capacity
  | HpError => Refuse Syntax
  | HpComplete offset meth path headers =>
      if MAX_HEADER_BYTES <? Z.of_nat offset then Refuse Capacity
      else if bare_lf None (take offset bytes) then Refuse Syntax
      else if ((0 <? count "transfer-encoding" headers)%nat && (0 <? count "content-length" headers)%nat)
              || (1 <? count "content-length" headers)%nat
              || (1 <? count "transfer-encoding" headers)%nat then Refuse Syntax
      else if existsb (fun h => named "content-length" h && existsb (Z.eqb 44) (snd h)) headers then
        Refuse Syntax
      else if existsb (named "expect") headers then Refuse Expect
      else match collect [] headers with
      | Err r => Refuse r
      | Ok kept =>
          let target := default_empty path in
          if MAX_TARGET_BYTES <? str_len target then Refuse Capacity
          else if negb (closed_urls target kept) then Refuse Unsupported
          else Complete {| hd_method := default_empty meth; hd_target := target; hd_headers := kept |}
      end
  end.

(** ** What a head that is let through has *)

Lemma lower_byte_idem b : is_byte b -> lower_byte (lower_byte b) = lower_byte b.
Proof.
  unfold lower_byte, is_byte. intros H. destruct ((65 <=? b) && (b <=? 90)) eqn:E; [|by rewrite E].
  to_prop. destruct (Z.leb_spec (b + 32) 90); [lia|]. by rewrite andb_false_r.
Qed.

Lemma lower_bytes s : bytes_of (to_ascii_lowercase s) = map lower_byte (bytes_of s).
Proof.
  unfold to_ascii_lowercase. apply bytes_of_str. pose proof (bytes_of_bytes s) as H.
  induction H as [|b l Hb _ IH]; simpl; constructor; [|done].
  unfold lower_byte, is_byte in *. destruct ((65 <=? b) && (b <=? 90)) eqn:E; to_prop; lia.
Qed.

Lemma lower_idem s : to_ascii_lowercase (to_ascii_lowercase s) = to_ascii_lowercase s.
Proof.
  apply bytes_of_inj. rewrite !lower_bytes. rewrite map_map. apply map_ext_in. intros b Hb.
  apply lower_byte_idem. pose proof (bytes_of_bytes s) as H. rewrite Forall_forall in H.
  by apply H, list_elem_of_In.
Qed.

Definition lowered (l : list (string * string)) : Prop :=
  Forall (fun h => to_ascii_lowercase (fst h) = fst h) l.

Lemma join_header_names name sep value l : map fst (join_header name sep value l) = map fst l.
Proof.
  induction l as [|[k v] l IH]; simpl; [done|]. destruct (str_eqb k name); simpl; [done|]. by rewrite IH.
Qed.

(** The names kept are those of the parsed headers in lower case, each once. *)
Lemma collect_spec l : forall kept out,
  collect kept l = Ok out -> NoDup (map fst kept) -> lowered kept ->
  NoDup (map fst out) /\ lowered out
  /\ (forall n, In n (map fst out) <->
        In n (map fst kept) \/ In n (map (fun h => to_ascii_lowercase (fst h)) l)).
Proof.
  induction l as [|[raw bytes] l IH]; intros kept out H Hd Hl; simpl in H.
  - injection H as <-. simpl. split; [done|]. split; [done|]. tauto.
  - destruct (is_ascii_bytes bytes); [|done]. destruct (utf8_bytes bytes); [|done]. cbn [negb] in H.
    set (name := to_ascii_lowercase raw) in *. set (value := ows (str_of_bytes bytes)) in *.
    destruct (str_eqb name "transfer-encoding" && negb (eq_ignore_ascii_case value "chunked")); [done|].
    destruct (existsb (fun '(key, _) => str_eqb key name) kept) eqn:E.
    + apply existsb_exists in E as ([k v] & Hin & ->%str_eqb_eq).
      assert (In name (map fst kept)) as Hn by (by apply (in_map fst) in Hin).
      destruct (first_only name).
      * destruct (IH _ _ H Hd Hl) as (H1 & H2 & H3). split; [done|]. split; [done|].
        intros n. rewrite H3. simpl. fold name. split; [tauto|]. intros [?|[<-|?]]; tauto.
      * destruct (IH _ _ H) as (H1 & H2 & H3).
        -- by rewrite join_header_names.
        -- unfold lowered in *. rewrite Forall_forall in *. intros [k' v'] Hin'.
           apply list_elem_of_In, (in_map fst) in Hin'. rewrite join_header_names in Hin'.
           apply in_map_iff in Hin' as (h & Eh & Hh%list_elem_of_In). simpl in Eh. simpl. rewrite <- Eh. by apply Hl.
        -- split; [done|]. split; [done|]. intros n. rewrite H3, join_header_names. simpl. fold name.
           split; [tauto|]. intros [?|[<-|?]]; tauto.
    + destruct (IH _ _ H) as (H1 & H2 & H3).
      * rewrite map_app. apply NoDup_app. split; [done|]. split; [|apply NoDup_singleton].
        intros n Hn E'. apply list_elem_of_singleton in E'. simpl in E'. subst n.
        apply list_elem_of_In, in_map_iff in Hn as ([k v] & Ek & Hin). simpl in Ek. subst k.
        assert (existsb (fun '(key, _) => str_eqb key name) kept = true); [|congruence].
        apply existsb_exists. exists (name, v). split; [done|]. apply str_eqb_refl.
      * apply Forall_app. split; [done|]. constructor; [|constructor]. apply lower_idem.
      * split; [done|]. split; [done|]. intros n. rewrite H3, map_app, in_app_iff. simpl. fold name. tauto.
Qed.

(** No line feed without its carriage return. *)
Definition lines_end_in_crlf (bs : list Z) : Prop :=
  forall i, bs !! i = Some 10 -> exists j, i = S j /\ bs !! j = Some 13.

Lemma bare_lf_spec bs : forall previous, bare_lf previous bs = false ->
  forall i, bs !! i = Some 10 ->
  match i with O => previous = Some 13 | S j => bs !! j = Some 13 end.
Proof.
  induction bs as [|b bs IH]; intros previous H i Hi; [done|]. simpl in H.
  apply orb_false_iff in H as [H1 H2]. destruct i as [|i].
  - injection Hi as ->. simpl in H1. by destruct (bool_decide_reflect (previous = Some 13)).
  - simpl in Hi. pose proof (IH (Some b) H2 i Hi) as H. destruct i as [|i]; [|exact H].
    by injection H as ->.
Qed.

Lemma bare_lf_lines bs : bare_lf None bs = false -> lines_end_in_crlf bs.
Proof.
  intros H i Hi. pose proof (bare_lf_spec bs None H i Hi) as Hj. destruct i as [|j]; [done|]. by exists j.
Qed.

Lemma collect_chunked l : forall kept out,
  collect kept l = Ok out ->
  forall h, In h l -> eq_ignore_ascii_case (fst h) "transfer-encoding" = true ->
  eq_ignore_ascii_case (ows (str_of_bytes (snd h))) "chunked" = true.
Proof.
  induction l as [|[raw bytes] l IH]; intros kept out H h Hin Hn; [done|]. simpl in H.
  destruct (is_ascii_bytes bytes); [|done]. destruct (utf8_bytes bytes); [|done]. cbn [negb] in H.
  destruct (str_eqb (to_ascii_lowercase raw) "transfer-encoding"
            && negb (eq_ignore_ascii_case (ows (str_of_bytes bytes)) "chunked")) eqn:E; [done|].
  destruct Hin as [<-|Hin].
  - simpl. unfold eq_ignore_ascii_case in Hn. simpl in Hn.
    change (to_ascii_lowercase "transfer-encoding") with "transfer-encoding"%string in Hn.
    rewrite Hn in E. simpl in E. by apply negb_false_iff.
  - destruct (existsb _ kept); [destruct (first_only _)|]; by eapply IH.
Qed.

Record framed (bytes : list Z) (h : Head) : Prop := {
  fr_head : exists offset meth path l,
    httparse bytes = HpComplete offset meth path l
    /\ Z.of_nat offset <= MAX_HEADER_BYTES /\ lines_end_in_crlf (take offset bytes)
    /\ ((count "transfer-encoding" l <= 1)%nat /\ (count "content-length" l <= 1)%nat
        /\ ~ (1 <= count "transfer-encoding" l /\ 1 <= count "content-length" l)%nat)
    /\ (forall x, In x l -> named "transfer-encoding" x = true ->
         eq_ignore_ascii_case (ows (str_of_bytes (snd x))) "chunked" = true)
    /\ (forall x, In x l -> named "content-length" x = true -> ~ In 44 (snd x))
    /\ (forall n, In n (map fst (hd_headers h)) <-> In n (map (fun x => to_ascii_lowercase (fst x)) l));
  fr_unique : NoDup (map header_name (hd_headers h));
  fr_expect : ~ In "expect"%string (map fst (hd_headers h));
  fr_target : str_len (hd_target h) <= MAX_TARGET_BYTES
    /\ (exists rest, hd_target h = "/" +:+ rest /\ starts_with "/" rest = false)
    /\ forall part, In part (split 47 (str_until (Z.eqb 63) (hd_target h))) ->
        part <> "."%string /\ part <> ".."%string;
  fr_host : forall host, find_header "host" (hd_headers h) = Some host -> canonical_authority host = true
}.

Lemma starts_with_slash target :
  starts_with "/" target = true -> starts_with "//" target = false ->
  exists rest, target = "/" +:+ rest /\ starts_with "/" rest = false.
Proof.
  intros [rest ->]%starts_with_true H. exists rest. split; [done|].
  destruct (starts_with "/" rest) eqn:E; [|done]. apply starts_with_true in E as [r ->].
  assert (starts_with "//" ("/" +:+ "/" +:+ r) = true); [|congruence].
  apply starts_with_true. by exists r.
Qed.

Lemma closed_urls_true target l :
  closed_urls target l = true ->
  (exists rest, target = "/" +:+ rest /\ starts_with "/" rest = false)
  /\ (forall part, In part (split 47 (str_until (Z.eqb 63) target)) ->
       part <> "."%string /\ part <> ".."%string)
  /\ forall host, find_header "host" l = Some host -> canonical_authority host = true.
Proof.
  unfold closed_urls. cbv zeta. intros H.
  match type of H with (if ?c then _ else _) = _ => destruct c eqn:E; [done|] end.
  rewrite !orb_false_iff, !negb_false_iff in E. destruct E as (((((_ & E1) & E2) & _) & _) & E3).
  split; [by apply starts_with_slash|]. split.
  - intros part Hin. assert (one_of part ["."; ".."]%string = false) as Hp.
    { destruct (one_of part _) eqn:Ep; [|done].
      assert (existsb (fun part => one_of part ["."; ".."]%string) (split 47 (str_until (Z.eqb 63) target)) = true); [|congruence].
      apply existsb_exists. by exists part. }
    split; intros ->; done.
  - intros host Hh. rewrite Hh in H. simpl in H. by destruct (canonical_authority host).
Qed.

(** C25: A head that is let through cannot be framed in two ways. Whatever [httparse] and the URL
    parsers report, [parse] completes only on a head within its size in which every line feed
    ends a line, that does not declare its length twice or in two ways, whose only transfer
    coding is [chunked] and whose content length is a single value, that expects nothing of the
    server; whose target is a path of this server without dot segments, whose [Host] is
    canonical, and whose header names are those that were sent, in lower case, each once. *)
Theorem complete_head_is_unambiguous bytes h : parse bytes = Complete h -> framed bytes h.
Proof.
  unfold parse. destruct (httparse bytes) as [|offset meth path l| |] eqn:Hp; [by case_match| |done|done].
  destruct (Z.ltb_spec MAX_HEADER_BYTES (Z.of_nat offset)) as [|Hoff]; [done|].
  destruct (bare_lf None (take offset bytes)) eqn:Hlf; [done|].
  match goal with |- (if ?c then _ else _) = _ -> _ => destruct c eqn:Hc; [done|] end.
  destruct (existsb (fun h0 => named "content-length" h0 && existsb (Z.eqb 44) (snd h0)) l) eqn:Hcl; [done|].
  destruct (existsb (named "expect") l) eqn:Hex; [done|].
  destruct (collect [] l) as [kept|r] eqn:Hk; [|done]. cbv zeta.
  destruct (Z.ltb_spec MAX_TARGET_BYTES (str_len (default_empty path))) as [|Ht]; [done|].
  destruct (closed_urls (default_empty path) kept) eqn:Hu; [|done]. cbn [negb]. intros [= <-].
  apply closed_urls_true in Hu as (Hu1 & Hu2 & Hu3).
  destruct (collect_spec l [] kept Hk (NoDup_nil_2) (Forall_nil_2 _)) as (Hd & Hl & Hn).
  assert (forall n, In n (map fst kept) <-> In n (map (fun x => to_ascii_lowercase (fst x)) l)) as Hn'
    by (intros n; rewrite Hn; simpl; tauto).
  split; simpl; try done.
  - exists offset, meth, path, l. split; [done|]. split; [done|]. split; [by apply bare_lf_lines|].
    split; [|split; [|split; [|done]]].
    + rewrite !orb_false_iff, andb_false_iff, !Nat.ltb_ge in Hc. lia.
    + intros x Hin Hx. by eapply collect_chunked.
    + intros x Hin Hx Hc44. assert (existsb (fun h0 => named "content-length" h0 && existsb (Z.eqb 44) (snd h0)) l = true); [|congruence].
      apply existsb_exists. exists x. split; [done|]. rewrite Hx. simpl. apply existsb_exists. by exists 44.
  - assert (map header_name kept = map fst kept) as ->; [|done].
    unfold lowered in Hl. rewrite Forall_forall in Hl. apply map_ext_in. intros x Hin%list_elem_of_In. by apply Hl.
  - rewrite Hn'. intros (x & Hx & Hin)%in_map_iff.
    assert (existsb (named "expect") l = true); [|congruence]. apply existsb_exists. exists x.
    split; [done|]. unfold named, eq_ignore_ascii_case. apply str_eqb_eq. exact Hx.
Qed.
End Head.
