(* ===== verification/ResourceEvents.v ===== *)
(** * Resource notifications

    [native/src/resource_events.rs]: what a client listens to, and the batches of changes it is
    sent.  A mutex is held over each step of the routing; the queue is a channel of
    [QUEUE_ITEMS] batches whose payload is charged to a pool of [QUEUE_BYTES] permits until the
    batch is dropped.  A publication is one step: there is one publisher per connection, and
    what it does after it releases the routing lock touches the permits and the queue only. *)
From S2P Require Import Prelude Json Text Serde HttpProtocol.

Definition MAX_LISTENERS : Z := 1024.
Definition MAX_IDS : Z := 262144.
Definition MAX_ID : Z := 1024.
Definition MAX_URIS : Z := 4096.
Definition MAX_URI : Z := 262144.
Definition MAX_URI_BYTES : Z := 1048576.
Definition QUEUE_ITEMS : nat := 64.
Definition QUEUE_BYTES : Z := 8388608.
Definition MAX_SCENE_NAME : Z := 65536.

Inductive Failure : Type := SubscriptionLimit | Capacity | InvalidFilter | Unavailable.
#[export] Instance Failure_eq_dec : EqDecision Failure.
Proof. solve_decision. Defined.

Inductive Change : Type := Updated (uri : string) | ListChanged.
#[export] Instance Change_eq_dec : EqDecision Change.
Proof. solve_decision. Defined.

(** ** Projection of events *)

Definition hex_digit (n : Z) : Z := if n <? 10 then 48 + n else 55 + n.

Definition plain_byte (b : Z) : bool :=
  is_alphanumeric b || existsb (Z.eqb b) (bytes_of "-_.!~*'()").

(** [component]: [encodeURIComponent] *)
Definition component (value : string) : string :=
  str_of_bytes (flat_map (fun b =>
    if plain_byte b then [b] else [37; hex_digit (b / 16); hex_digit (b mod 16)]) (bytes_of value)).

Definition items (value : option string) : result Failure (option Change) :=
  match value with
  | None => Ok None
  | Some name =>
      if MAX_SCENE_NAME <? str_len name then Err Capacity
      else Ok (Some (Updated ("obs://scene/" +:+ component name +:+ "/items")))
  end.

Definition to_list {A} (o : option A) : list A := match o with Some a => [a] | None => [] end.

Definition project_selected (event : string) (data : Value) (scene_items : bool)
  : result Failure (list Change) :=
  let status :=
    if one_of event ["RecordStateChanged"; "StreamStateChanged"; "ReplayBufferStateChanged";
         "VirtualcamStateChanged"; "CurrentProgramSceneChanged"; "CurrentProfileChanged";
         "CurrentSceneCollectionChanged"; "CurrentPreviewSceneChanged"; "StudioModeStateChanged";
         "VideoSettingsChanged"; "CanvasCreated"; "CanvasRemoved"; "SceneNameChanged"]%string
    then [Updated "obs://status"] else [] in
  let scenes :=
    if one_of event ["SceneCreated"; "SceneRemoved"; "SceneNameChanged"; "SceneListChanged";
         "CurrentProgramSceneChanged"; "CurrentPreviewSceneChanged";
         "CurrentSceneCollectionChanged"]%string
    then [Updated "obs://scenes"] else [] in
  let? scene_item :=
    if one_of event ["SceneItemCreated"; "SceneItemRemoved"; "SceneItemListReindexed";
         "SceneItemEnableStateChanged"; "SceneItemLockStateChanged"]%string && scene_items
    then items (get "sceneName" data >>? as_str) else Ok None in
  let list_changed :=
    if one_of event ["SceneCreated"; "SceneRemoved"; "SceneNameChanged"]%string
    then [ListChanged] else [] in
  let? old_items :=
    if str_eqb event "SceneNameChanged" && scene_items
    then items (get "oldSceneName" data >>? as_str) else Ok None in
  Ok (status ++ scenes ++ to_list scene_item ++ list_changed ++ to_list old_items).

(** [project] *)
Definition project (event : string) (data : Value) : result Failure (list Change) :=
  project_selected event data true.

(** ** The state *)

Record Listener := {
  l_id : Value;
  l_tools : bool;
  l_list : bool;
  l_uris : list string;
  l_id_bytes : Z;
  l_uri_bytes : Z
}.

(** [legacy_uris] is a set: a list without repetitions. *)
Record Routing := {
  revision : Z;
  legacy : bool;
  tools : bool;
  listeners : list Listener;
  legacy_uris : list string;
  id_bytes : Z;
  uri_bytes : Z;
  uri_entries : Z
}.

Record ListenPlan := {
  lp_revision : Z;
  lp_listener : Listener;
  lp_prior : option nat;
  lp_honored : Value
}.

Record UriPlan := { up_revision : Z; up_uri : string; up_add : bool }.

Record Delivery := { d_change : Change; d_audiences : list (option Value) }.

(** A batch holds [b_bytes] permits of the pool until it is dropped. *)
Record Batch := { b_deliveries : list Delivery; b_bytes : Z }.

(** [Owner], [Inner] and their queue. [direct] is the bound sink, with whether it is still alive;
    [delivered] is what it was given. *)
Record Owner := {
  active : bool;
  routing : Routing;
  queue : list Batch;
  closed : bool;
  free : Z;
  failure : option Failure;
  direct : option bool;
  delivered : list Batch;
  failed : bool
}.

Definition owner_new (with_tools : bool) : Owner :=
  {| active := true;
     routing := {| revision := 0; legacy := false; tools := with_tools; listeners := [];
                   legacy_uris := []; id_bytes := 0; uri_bytes := 0; uri_entries := 0 |};
     queue := []; closed := false; free := QUEUE_BYTES; failure := None; direct := None;
     delivered := []; failed := false |}.

Definition with_routing (r : Routing) (o : Owner) : Owner :=
  {| active := active o; routing := r; queue := queue o; closed := closed o; free := free o;
     failure := failure o; direct := direct o; delivered := delivered o; failed := failed o |}.

(** [fail]: the first reason is kept. *)
Definition fail (reason : Failure) (o : Owner) : Owner :=
  {| active := active o; routing := routing o; queue := queue o; closed := closed o; free := free o;
     failure := match failure o with Some f => Some f | None => Some reason end;
     direct := direct o; delivered := delivered o; failed := failed o |}.

Section Events.
Context {Codec : SerdeJson}.

Definition json_len (v : Value) : Z := Z.of_nat (length (to_vec v)).

(** [encoded_len]: the writer refuses the byte after the limit. *)
Definition encoded_len (v : Value) (limit : Z) : result Failure Z :=
  if json_len v <=? limit then Ok (json_len v) else Err Capacity.

Definition bump (r : Routing) : result Failure Z := ok_or (checked_add (revision r) 1) Unavailable.

(** [cancel_inner] *)
Definition cancel (id : Value) (o : Owner) : result Failure bool * Owner :=
  let r := routing o in
  match position (fun l => value_eqb (l_id l) id) (listeners r) with
  | None => (Ok false, o)
  | Some i =>
      match bump r, listeners r !! i with
      | Ok revision, Some old =>
          (Ok true, with_routing
             {| revision := revision; legacy := legacy r; tools := tools r;
                listeners := delete i (listeners r); legacy_uris := legacy_uris r;
                id_bytes := id_bytes r - l_id_bytes old;
                uri_bytes := uri_bytes r - l_uri_bytes old;
                uri_entries := uri_entries r - Z.of_nat (length (l_uris old)) |} o)
      | _, _ => (Err Unavailable, o)
      end
  end.

Definition bind_delivery (o : Owner) : result Failure unit * Owner :=
  let r := routing o in
  if negb (active o) || negb (bool_decide (length (listeners r) = 0%nat))
     || negb (bool_decide (legacy_uris r = [])) || legacy r || tools r then (Err Unavailable, o)
  else if negb (is_none (direct o)) then (Err Unavailable, o)
  else (Ok tt,
        {| active := active o; routing := r; queue := queue o; closed := closed o; free := free o;
           failure := failure o; direct := Some true; delivered := delivered o; failed := failed o |}).

Definition set_legacy (b : bool) (o : Owner) : result Failure unit * Owner :=
  let r := routing o in
  if Bool.eqb (legacy r) b then (Ok tt, o)
  else match bump r with
       | Err e => (Err e, o)
       | Ok revision =>
           (Ok tt, with_routing
              {| revision := revision; legacy := b; tools := tools r; listeners := listeners r;
                 legacy_uris := legacy_uris r; id_bytes := id_bytes r; uri_bytes := uri_bytes r;
                 uri_entries := uri_entries r |} o)
       end.

Definition tool_targets (o : Owner) : list Value :=
  map l_id (List.filter l_tools (listeners (routing o))).

(** The bytes of the URIs of a filter, each checked *)
Fixpoint filter_bytes (total : Z) (uris : list Value) : result Failure Z :=
  match uris with
  | [] => Ok total
  | uri :: uris =>
      let? uri := ok_or (as_str uri) InvalidFilter in
      if MAX_URI <? str_len uri then Err Capacity
      else let? total := ok_or (checked_add total (str_len uri)) Capacity in filter_bytes total uris
  end.

Definition is_integer (v : Value) : bool := negb (is_none (as_i64 v)) || negb (is_none (as_u64 v)).

Definition is_true (v : Value) : bool := match v with Bool true => true | _ => false end.

Definition honored (tools lists : bool) (uris : list string) : Value :=
  object_of ((if tools then [("toolsListChanged", Bool true)] else [])
             ++ (if lists then [("resourcesListChanged", Bool true)] else [])
             ++ (if bool_decide (uris = []) then [] else [("resourceSubscriptions", Array (map str uris))])).

Definition plan_listen (id filter : Value) (valid : bool) (o : Owner) : result Failure ListenPlan :=
  if negb (active o) then Err Unavailable
  else
    let r := routing o in
    if MAX_LISTENERS <=? Z.of_nat (length (listeners r)) then Err SubscriptionLimit
    else if negb valid then Err InvalidFilter
    else if negb (is_string id || is_integer id) then Err Unavailable
    else
      let? new_id_bytes := encoded_len id MAX_ID in
      let uris := match get "resourceSubscriptions" filter >>? as_array with
                  | Some l => l | None => [] end in
      let entries := Z.of_nat (length uris) in
      if (MAX_ID <? new_id_bytes) || (MAX_LISTENERS <? entries) then Err Capacity
      else
        let? new_uri_bytes := filter_bytes 0 uris in
        let prior := position (fun l => value_eqb (l_id l) id) (listeners r) in
        let old := prior >>? fun i => listeners r !! i in
        let of_old f := match old with Some l => f l | None => 0 end in
        if (MAX_IDS <? id_bytes r - of_old l_id_bytes + new_id_bytes)
           || (MAX_URI_BYTES <? uri_bytes r - of_old l_uri_bytes + new_uri_bytes)
           || (MAX_URIS <? uri_entries r - of_old (fun l => Z.of_nat (length (l_uris l))) + entries)
        then Err Capacity
        else
          let tool := tools r && is_true (index "toolsListChanged" filter) in
          let lists := is_true (index "resourcesListChanged" filter) in
          let uris := omap as_str uris in
          Ok {| lp_revision := revision r;
                lp_listener := {| l_id := id; l_tools := tool; l_list := lists; l_uris := uris;
                                  l_id_bytes := new_id_bytes; l_uri_bytes := new_uri_bytes |};
                lp_prior := prior;
                lp_honored := honored tool lists uris |}.

(** A prior index out of range would panic; a plan of the current revision has it in range. *)
Definition commit_listen (plan : ListenPlan) (o : Owner) : result Failure unit * Owner :=
  let r := routing o in
  let l := lp_listener plan in
  if negb (active o) || negb (revision r =? lp_revision plan) then (Err Unavailable, o)
  else match bump r with
       | Err e => (Err e, o)
       | Ok revision =>
           let old := lp_prior plan >>? fun i => listeners r !! i in
           let of_old f := match old with Some l => f l | None => 0 end in
           (Ok tt, with_routing
              {| revision := revision; legacy := legacy r; tools := tools r;
                 listeners := match lp_prior plan with
                              | Some i => <[i := l]> (listeners r)
                              | None => listeners r ++ [l]
                              end;
                 legacy_uris := legacy_uris r;
                 id_bytes := id_bytes r - of_old l_id_bytes + l_id_bytes l;
                 uri_bytes := uri_bytes r - of_old l_uri_bytes + l_uri_bytes l;
                 uri_entries := uri_entries r - of_old (fun l => Z.of_nat (length (l_uris l)))
                                + Z.of_nat (length (l_uris l)) |} o)
       end.

Definition plan_uri (uri : string) (add : bool) (o : Owner) : result Failure UriPlan :=
  let r := routing o in
  if negb (active o) then Err Unavailable
  else if MAX_URI <? str_len uri then Err Capacity
  else if add && negb (one_of uri (legacy_uris r))
          && ((MAX_LISTENERS <=? Z.of_nat (length (legacy_uris r)))
              || (MAX_URI_BYTES <? uri_bytes r + str_len uri)
              || (MAX_URIS <=? uri_entries r)) then Err Capacity
  else Ok {| up_revision := revision r; up_uri := uri; up_add := add |}.

Definition commit_uri (plan : UriPlan) (o : Owner) : result Failure unit * Owner :=
  let r := routing o in
  let uri := up_uri plan in
  if negb (active o) || negb (revision r =? up_revision plan) then (Err Unavailable, o)
  else match bump r with
       | Err e => (Err e, o)
       | Ok revision =>
           let present := one_of uri (legacy_uris r) in
           let '(uris, bytes, entries) :=
             if up_add plan then
               if present then (legacy_uris r, uri_bytes r, uri_entries r)
               else (uri :: legacy_uris r, uri_bytes r + str_len uri, uri_entries r + 1)
             else if present then
               (List.filter (fun u => negb (str_eqb u uri)) (legacy_uris r),
                uri_bytes r - str_len uri, uri_entries r - 1)
             else (legacy_uris r, uri_bytes r, uri_entries r) in
           (Ok tt, with_routing
              {| revision := revision; legacy := legacy r; tools := tools r;
                 listeners := listeners r; legacy_uris := uris; id_bytes := id_bytes r;
                 uri_bytes := bytes; uri_entries := entries |} o)
       end.

(** ** Publication *)

Inductive Origin : Type := Obs (event : string) (data : Value) | Take.

Definition item_uri (uri : string) : bool := starts_with "obs://scene/" uri && ends_with "/items" uri.

Definition interested (r : Routing) : bool :=
  legacy r || existsb (fun l => l_list l || negb (bool_decide (l_uris l = []))) (listeners r).

Definition scene_items (r : Routing) : bool :=
  if legacy r then existsb item_uri (legacy_uris r)
  else existsb (fun l => existsb item_uri (l_uris l)) (listeners r).

Definition listens (change : Change) (l : Listener) : bool :=
  match change with ListChanged => l_list l | Updated uri => one_of uri (l_uris l) end.

Definition audiences (r : Routing) (change : Change) : list (option Value) :=
  if legacy r then
    match change with
    | ListChanged => [None]
    | Updated uri => if one_of uri (legacy_uris r) then [None] else []
    end
  else map (fun l => Some (l_id l)) (List.filter (listens change) (listeners r)).

Definition change_bytes (change : Change) : Z :=
  match change with ListChanged => 0 | Updated uri => str_len uri end.

Definition audience_bytes (id : option Value) : Z :=
  match id with Some id => json_len id | None => 0 end.

(** [bytes.checked_add(n)] within [QUEUE_BYTES] *)
Definition charge (bytes n : Z) : option Z :=
  opt_filter (fun b => b <=? QUEUE_BYTES) (checked_add bytes n).

Fixpoint charge_audiences (is_direct : bool) (uri : Z) (bytes : Z) (ids : list (option Value)) : option Z :=
  match ids with
  | [] => Some bytes
  | id :: ids =>
      bytes ← charge bytes (if is_direct then audience_bytes id + 256
                            else uri + audience_bytes id + 256);
      charge_audiences is_direct uri bytes ids
  end.

Fixpoint deliveries (r : Routing) (is_direct : bool) (bytes : Z) (changes : list Change)
  : option (list Delivery * Z) :=
  match changes with
  | [] => Some ([], bytes)
  | change :: changes =>
      let ids := audiences r change in
      match ids with
      | [] => deliveries r is_direct bytes changes
      | _ =>
          bytes ← (if is_direct then charge bytes (change_bytes change + 256) else Some bytes);
          bytes ← charge_audiences is_direct (change_bytes change) bytes ids;
          '(ds, bytes) ← deliveries r is_direct bytes changes;
          Some ({| d_change := change; d_audiences := ids |} :: ds, bytes)
      end
  end.

(** Permits are taken, the batch goes to the sink or the queue; when it cannot, it is dropped. *)
Definition send (ds : list Delivery) (bytes : Z) (o : Owner) : Owner :=
  if free o <? bytes then fail Capacity o
  else
    let batch := {| b_deliveries := ds; b_bytes := bytes |} in
    match direct o with
    | Some true =>
        {| active := active o; routing := routing o; queue := queue o; closed := closed o;
           free := free o - bytes; failure := failure o; direct := direct o;
           delivered := delivered o ++ [batch]; failed := failed o |}
    | Some false => fail Unavailable o
    | None =>
        if closed o || (QUEUE_ITEMS <=? length (queue o))%nat then fail Capacity o
        else {| active := active o; routing := routing o; queue := queue o ++ [batch];
                closed := closed o; free := free o - bytes; failure := failure o;
                direct := direct o; delivered := delivered o; failed := failed o |}
    end.

Definition changes_of (origin : Origin) (r : Routing) : result Failure (list Change) :=
  match origin with
  | Obs event data => project_selected event data (scene_items r)
  | Take => Ok [Updated "obs://take/current"]
  end.

Definition publish (origin : Origin) (o : Owner) : Owner :=
  if negb (active o) || negb (is_none (failure o)) || negb (interested (routing o)) then o
  else match changes_of origin (routing o) with
  | Err reason => fail reason o
  | Ok changes =>
      match deliveries (routing o) (negb (is_none (direct o))) 0 changes with
      | None => fail Capacity o
      | Some ([], _) => o
      | Some (ds, bytes) => send ds bytes o
      end
  end.

(** ** The consumer *)

(** [next]: [None] waits; [Some None] is the end. *)
Definition next (o : Owner) : option (option (result Failure Batch)) * Owner :=
  let finished := {| active := active o; routing := routing o; queue := queue o; closed := closed o;
                     free := free o; failure := failure o; direct := direct o;
                     delivered := delivered o; failed := true |} in
  if failed o then (Some None, o)
  else match queue o with
  | batch :: rest =>
      (Some (Some (Ok batch)),
       {| active := active o; routing := routing o; queue := rest; closed := closed o;
          free := free o; failure := failure o; direct := direct o; delivered := delivered o;
          failed := failed o |})
  | [] =>
      if closed o then (Some (Err <$> failure o), finished)
      else match failure o with
           | Some f => (Some (Some (Err f)), finished)
           | None => (None, o)
           end
  end.

(** [drain_ready]: the queue never holds more than the loop takes. *)
Definition drain_ready (o : Owner) : list Batch * Owner :=
  (take QUEUE_ITEMS (queue o),
   {| active := active o; routing := routing o; queue := drop QUEUE_ITEMS (queue o);
      closed := closed o; free := free o; failure := failure o; direct := direct o;
      delivered := delivered o; failed := failed o |}).

(** A batch is dropped by whoever received it: its permits go back to the pool. *)
Definition release (bytes : Z) (o : Owner) : Owner :=
  {| active := active o; routing := routing o; queue := queue o; closed := closed o;
     free := free o + bytes; failure := failure o; direct := direct o;
     delivered := delivered o; failed := failed o |}.

Definition drop_sink (o : Owner) : Owner :=
  {| active := active o; routing := routing o; queue := queue o; closed := closed o; free := free o;
     failure := failure o; direct := (fun _ => false) <$> direct o; delivered := delivered o;
     failed := failed o |}.

Definition close (o : Owner) : Owner :=
  {| active := false; routing := routing o; queue := queue o; closed := true; free := free o;
     failure := failure o; direct := direct o; delivered := delivered o; failed := failed o |}.

(** ** Runs

    What the front end, the publisher and the consumer do, in any order. A plan is kept until it
    is committed or forgotten; [held] are the permits of the batches that were handed out. *)

Record World := {
  owner : Owner;
  listen_plans : list ListenPlan;
  uri_plans : list UriPlan;
  held : list Z
}.

Inductive op : Type :=
| SetLegacy (b : bool)
| Bind
| DropSink
| PlanListen (id filter : Value) (valid : bool)
| CommitListen (k : nat)
| PlanUri (uri : string) (add : bool)
| CommitUri (k : nat)
| Cancel (id : Value)
| Publish (origin : Origin)
| Next
| Drain
| DropBatch (k : nat)
| Close.

Definition with_owner (o : Owner) (w : World) : World :=
  {| owner := o; listen_plans := listen_plans w; uri_plans := uri_plans w; held := held w |}.

Definition hold (batches : list Batch) (w : World) : World :=
  {| owner := owner w; listen_plans := listen_plans w; uri_plans := uri_plans w;
     held := held w ++ map b_bytes batches |}.

Definition step (a : op) (w : World) : World :=
  let o := owner w in
  match a with
  | SetLegacy b => with_owner (snd (set_legacy b o)) w
  | Bind => with_owner (snd (bind_delivery o)) w
  | DropSink => with_owner (drop_sink o) w
  | PlanListen id filter valid =>
      match plan_listen id filter valid o with
      | Ok p => {| owner := o; listen_plans := listen_plans w ++ [p]; uri_plans := uri_plans w;
                   held := held w |}
      | Err _ => w
      end
  | CommitListen k =>
      match listen_plans w !! k with
      | Some p => {| owner := snd (commit_listen p o); listen_plans := delete k (listen_plans w);
                     uri_plans := uri_plans w; held := held w |}
      | None => w
      end
  | PlanUri uri add =>
      match plan_uri uri add o with
      | Ok p => {| owner := o; listen_plans := listen_plans w; uri_plans := uri_plans w ++ [p];
                   held := held w |}
      | Err _ => w
      end
  | CommitUri k =>
      match uri_plans w !! k with
      | Some p => {| owner := snd (commit_uri p o); listen_plans := listen_plans w;
                     uri_plans := delete k (uri_plans w); held := held w |}
      | None => w
      end
  | Cancel id => with_owner (snd (cancel id o)) w
  | Publish origin =>
      let o' := publish origin o in
      hold (drop (length (delivered o)) (delivered o')) (with_owner o' w)
  | Next =>
      match next o with
      | (Some (Some (Ok batch)), o') => hold [batch] (with_owner o' w)
      | (_, o') => with_owner o' w
      end
  | Drain => let '(batches, o') := drain_ready o in hold batches (with_owner o' w)
  | DropBatch k =>
      match held w !! k with
      | Some bytes => {| owner := release bytes o; listen_plans := listen_plans w;
                         uri_plans := uri_plans w; held := delete k (held w) |}
      | None => w
      end
  | Close => with_owner (close o) w
  end.

Fixpoint steps (ops : list op) (w : World) : World :=
  match ops with [] => w | a :: ops => steps ops (step a w) end.

Definition start (with_tools : bool) : World :=
  {| owner := owner_new with_tools; listen_plans := []; uri_plans := []; held := [] |}.

(** ** The routing changes only with its revision *)

Definition newer (r r' : Routing) : Prop := r' = r \/ revision r < revision r'.

Lemma bump_newer r n : bump r = Ok n -> n = revision r + 1.
Proof. unfold bump. intros H%ok_or_Ok. by apply checked_add_Some in H as [-> _]. Qed.

Lemma fail_routing reason o : routing (fail reason o) = routing o.
Proof. done. Qed.

Lemma send_routing ds bytes o : routing (send ds bytes o) = routing o.
Proof. unfold send. repeat case_match; done. Qed.

Lemma publish_routing origin o : routing (publish origin o) = routing o.
Proof. unfold publish. repeat case_match; try done. apply send_routing. Qed.

Ltac newer_by_bump :=
  match goal with
  | H : bump _ = Ok _ |- _ => right; apply bump_newer in H; simpl; lia
  | _ => by left
  end.

Lemma step_newer a w : newer (routing (owner w)) (routing (owner (step a w))).
Proof.
  destruct a; simpl.
  - unfold set_legacy. repeat case_match; simpl; newer_by_bump.
  - unfold bind_delivery. repeat case_match; simpl; newer_by_bump.
  - by left.
  - case_match; by left.
  - case_match; [|by left]. unfold commit_listen. repeat case_match; simpl; newer_by_bump.
  - case_match; by left.
  - case_match; [|by left]. simpl. unfold commit_uri. repeat case_match; simpl; newer_by_bump.
  - unfold cancel. repeat case_match; simpl; newer_by_bump.
  - left. apply publish_routing.
  - unfold next. repeat case_match; simplify_eq; by left.
  - by left.
  - case_match; by left.
  - by left.
Qed.

Lemma newer_trans r1 r2 r3 : newer r1 r2 -> newer r2 r3 -> newer r1 r3.
Proof. unfold newer. intros [->|H1] [->|H2]; auto; right; lia. Qed.

Lemma steps_newer ops : forall w, newer (routing (owner w)) (routing (owner (steps ops w))).
Proof.
  induction ops as [|a ops IH]; intros w; simpl; [by left|].
  eapply newer_trans; [apply step_newer|apply IH].
Qed.

Lemma newer_same r r' : newer r r' -> revision r' = revision r -> r' = r.
Proof. intros [->|H] E; [done|]. lia. Qed.

Definition uris_of (filter : Value) : list Value :=
  match get "resourceSubscriptions" filter >>? as_array with Some l => l | None => [] end.

Definition old_of (r : Routing) (prior : option nat) (f : Listener -> Z) : Z :=
  match prior >>? fun i => listeners r !! i with Some l => f l | None => 0 end.

Definition entries_of (l : Listener) : Z := Z.of_nat (length (l_uris l)).

(** What a plan has checked, of the routing it was made for. *)
Record planned (r : Routing) (p : ListenPlan) : Prop := {
  pl_revision : lp_revision p = revision r;
  pl_count : Z.of_nat (length (listeners r)) < MAX_LISTENERS;
  pl_id : is_string (l_id (lp_listener p)) || is_integer (l_id (lp_listener p)) = true;
  pl_id_bytes : l_id_bytes (lp_listener p) = json_len (l_id (lp_listener p))
                /\ l_id_bytes (lp_listener p) <= MAX_ID;
  pl_uri_bytes : exists uris, filter_bytes 0 uris = Ok (l_uri_bytes (lp_listener p))
                /\ l_uris (lp_listener p) = omap as_str uris
                /\ Z.of_nat (length uris) <= MAX_LISTENERS
                /\ uri_entries r - old_of r (lp_prior p) entries_of + Z.of_nat (length uris) <= MAX_URIS;
  pl_prior : lp_prior p = position (fun l => value_eqb (l_id l) (l_id (lp_listener p))) (listeners r);
  pl_ids : id_bytes r - old_of r (lp_prior p) l_id_bytes + l_id_bytes (lp_listener p) <= MAX_IDS;
  pl_bytes : uri_bytes r - old_of r (lp_prior p) l_uri_bytes + l_uri_bytes (lp_listener p) <= MAX_URI_BYTES
}.

Lemma plan_listen_planned id filter valid o p :
  plan_listen id filter valid o = Ok p -> planned (routing o) p.
Proof.
  unfold plan_listen. destruct (active o); [|done]. cbn [negb].
  destruct (Z.leb_spec MAX_LISTENERS (Z.of_nat (length (listeners (routing o))))); [done|].
  destruct valid; [|done]. destruct (is_string id || is_integer id) eqn:Hid; [|done]. cbn [negb].
  intros (n & Hn & Hp)%bind_result_Ok. fold (uris_of filter) in Hp.
  unfold encoded_len in Hn. destruct (Z.leb_spec (json_len id) MAX_ID); [|done]. injection Hn as <-.
  destruct ((MAX_ID <? json_len id) || (MAX_LISTENERS <? Z.of_nat (length (uris_of filter)))) eqn:E; [done|].
  apply bind_result_Ok in Hp as (b & Hb & Hp).
  match type of Hp with (if ?c then _ else _) = _ => destruct c eqn:E2; [done|] end.
  injection Hp as <-. apply orb_false_iff in E as [_ E%Z.ltb_ge].
  apply orb_false_iff in E2 as [[E2%Z.ltb_ge E3%Z.ltb_ge]%orb_false_iff E4%Z.ltb_ge].
  split; simpl; try done. exists (uris_of filter). done.
Qed.

(** A plan is committed against the routing it was made for, or not at all. Between the
    plan of a subscription and its commit anything may happen; when the commit succeeds, the
    routing is still the one that was planned against, so every limit the plan checked and the
    answer it promised hold for what is committed; otherwise the commit changes nothing. *)
Theorem commit_is_as_planned id filter valid plan ops w :
  plan_listen id filter valid (owner w) = Ok plan ->
  let w' := steps ops w in
  (fst (commit_listen plan (owner w')) = Ok tt -> routing (owner w') = routing (owner w))
  /\ (fst (commit_listen plan (owner w')) <> Ok tt -> snd (commit_listen plan (owner w')) = owner w').
Proof.
  intros Hp w'. assert (lp_revision plan = revision (routing (owner w))) as Hr.
  { eapply pl_revision, plan_listen_planned, Hp. }
  unfold commit_listen. destruct (active (owner w')); [|done]. cbn [negb orb].
  destruct (Z.eqb_spec (revision (routing (owner w'))) (lp_revision plan)) as [E|]; [|done]. cbn [negb].
  destruct (bump (routing (owner w'))) as [n|]; [|done]. split; [|done]. intros _.
  apply newer_same; [apply steps_newer|]. congruence.
Qed.

(** ** Accounting *)

Definition sum_of {A} (f : A -> Z) (l : list A) : Z := foldr (fun x n => f x + n) 0 l.

Lemma sum_of_app {A} (f : A -> Z) l k : sum_of f (l ++ k) = sum_of f l + sum_of f k.
Proof. induction l as [|x l IH]; simpl; lia. Qed.

Lemma sum_of_delete {A} (f : A -> Z) l : forall i x,
  l !! i = Some x -> sum_of f (delete i l) = sum_of f l - f x.
Proof.
  induction l as [|y l IH]; intros [|i] x Hi; try done; simpl in *; [injection Hi as ->; lia|].
  change (f y + sum_of f (delete i l) = f y + sum_of f l - f x). rewrite (IH _ _ Hi). lia.
Qed.

Lemma sum_of_insert {A} (f : A -> Z) l : forall i x y,
  l !! i = Some x -> sum_of f (<[i := y]> l) = sum_of f l - f x + f y.
Proof.
  induction l as [|z l IH]; intros [|i] x y Hi; try done; simpl in *; [injection Hi as ->; lia|].
  change (f z + sum_of f (<[i := y]> l) = f z + sum_of f l - f x + f y). rewrite (IH _ _ y Hi). lia.
Qed.

Lemma sum_of_nonneg {A} (f : A -> Z) l : (forall x, In x l -> 0 <= f x) -> 0 <= sum_of f l.
Proof.
  induction l as [|x l IH]; simpl; [lia|]. intros H.
  pose proof (H x (or_introl eq_refl)). specialize (IH (fun y Hy => H y (or_intror Hy))). lia.
Qed.

Lemma filter_bytes_spec uris : forall t n,
  filter_bytes t uris = Ok n ->
  n = t + sum_of str_len (omap as_str uris) /\ length (omap as_str uris) = length uris
  /\ Forall (fun u => str_len u <= MAX_URI) (omap as_str uris).
Proof.
  induction uris as [|v uris IH]; intros t n H; simpl in H.
  - injection H as <-. simpl. split; [lia|]. by split.
  - apply bind_result_Ok in H as (u & Hu%ok_or_Ok & H).
    destruct (Z.ltb_spec MAX_URI (str_len u)) as [|Hle]; [done|].
    apply bind_result_Ok in H as (t' & Ht%ok_or_Ok & H). apply checked_add_Some in Ht as [-> _].
    apply IH in H as (-> & Hl & Hf). cbn [omap list_omap]. rewrite Hu. simpl. split; [lia|].
    split; [by rewrite Hl|]. by constructor.
Qed.

(** The identifiers of requests are strings and integers, on which [==] is equality. *)
Definition request_id (v : Value) : Prop := is_string v || is_integer v = true.

Lemma id_eqb a b : request_id a -> value_eqb a b = true <-> a = b.
Proof.
  unfold request_id. destruct a as [| |[n|n|f]|s|l|l]; try done; intros _.
  - destruct b as [| |[m|m|g]|t|k|k]; simpl; try done. rewrite Z.eqb_eq. split; [by intros ->|by intros [= ->]].
  - destruct b as [| |[m|m|g]|t|k|k]; simpl; try done. rewrite Z.eqb_eq. split; [by intros ->|by intros [= ->]].
  - destruct b as [| |[m|m|g]|t|k|k]; simpl; try done. rewrite str_eqb_eq. split; [by intros ->|by intros [= ->]].
Qed.

Record listener_wf (l : Listener) : Prop := {
  lw_id : request_id (l_id l);
  lw_id_bytes : l_id_bytes l = json_len (l_id l) /\ l_id_bytes l <= MAX_ID;
  lw_uri_bytes : l_uri_bytes l = sum_of str_len (l_uris l);
  lw_uris : Forall (fun u => str_len u <= MAX_URI) (l_uris l);
  lw_entries : entries_of l <= MAX_LISTENERS
}.

Record routing_wf (r : Routing) : Prop := {
  rw_listeners : Forall listener_wf (listeners r);
  rw_unique : NoDup (map l_id (listeners r));
  rw_count : Z.of_nat (length (listeners r)) <= MAX_LISTENERS;
  rw_set : NoDup (legacy_uris r);
  rw_set_count : Z.of_nat (length (legacy_uris r)) <= MAX_LISTENERS;
  rw_set_uris : Forall (fun u => str_len u <= MAX_URI) (legacy_uris r);
  rw_ids : id_bytes r = sum_of l_id_bytes (listeners r) /\ id_bytes r <= MAX_IDS;
  rw_bytes : uri_bytes r = sum_of l_uri_bytes (listeners r) + sum_of str_len (legacy_uris r)
             /\ uri_bytes r <= MAX_URI_BYTES;
  rw_entries : uri_entries r = sum_of entries_of (listeners r) + Z.of_nat (length (legacy_uris r))
               /\ uri_entries r <= MAX_URIS
}.

Lemma planned_listener r p : planned r p -> listener_wf (lp_listener p)
  /\ uri_entries r - old_of r (lp_prior p) entries_of + entries_of (lp_listener p) <= MAX_URIS.
Proof.
  intros [_ _ Hid Hb (uris & Hf & Hu & Hn & He) _ _ _].
  apply filter_bytes_spec in Hf as (Hs & Hl & Hm). rewrite <- Hu in Hs, Hl, Hm.
  unfold entries_of. rewrite Hl. split; [|done]. split; try done. unfold entries_of. by rewrite Hl.
Qed.

Lemma listener_bytes_nonneg l : listener_wf l -> 0 <= l_id_bytes l /\ 0 <= l_uri_bytes l /\ 0 <= entries_of l.
Proof.
  intros [_ [Hb _] Hu _ _]. rewrite Hb, Hu. unfold json_len, entries_of. split; [lia|]. split; [|lia].
  apply sum_of_nonneg. intros x _. unfold str_len. lia.
Qed.

Lemma map_insert_id (ls : list Listener) i old l :
  ls !! i = Some old -> l_id old = l_id l -> map l_id (<[i := l]> ls) = map l_id ls.
Proof.
  revert i. induction ls as [|x ls IH]; intros [|i] Hi E; try done; simpl in *.
  - injection Hi as ->. by rewrite E.
  - change (l_id x :: map l_id (<[i := l]> ls) = l_id x :: map l_id ls). by rewrite (IH i Hi E).
Qed.

Lemma length_insert_ (ls : list Listener) i l : length (<[i := l]> ls) = length ls.
Proof. apply length_insert. Qed.

(** A committed plan keeps every bound it checked. *)
Lemma commit_wf plan o :
  routing_wf (routing o) ->
  (lp_revision plan = revision (routing o) -> planned (routing o) plan) ->
  routing_wf (routing (snd (commit_listen plan o))).
Proof.
  intros Hr Hp. unfold commit_listen. destruct (active o); [|done]. cbn [negb orb].
  destruct (Z.eqb_spec (revision (routing o)) (lp_revision plan)) as [E|]; [|done]. cbn [negb].
  specialize (Hp (eq_sym E)). destruct (bump (routing o)) as [n|]; [|done]. simpl.
  destruct (planned_listener _ _ Hp) as [Hl He]. destruct Hp as [_ Hc Hid Hib _ Hprior Hids Hbytes].
  set (r := routing o) in *. set (l := lp_listener plan) in *.
  destruct Hr as [H1 H2 H3 H4 H5 H6 [H7 H7'] [H8 H8'] [H9 H9']].
  unfold old_of in He, Hids, Hbytes. fold (entries_of l). destruct (lp_prior plan) as [i|].
  - symmetry in Hprior. apply position_first in Hprior as (old & Hi & Heq & _).
    assert (listener_wf old) as Hw by (rewrite Forall_lookup in H1; eauto).
    apply id_eqb in Heq; [|apply Hw]. simpl in He, Hids, Hbytes |- *. rewrite Hi in *. simpl in *.
    split; simpl; try done.
    + by apply Forall_insert.
    + by rewrite (map_insert_id _ _ old).
    + by rewrite length_insert.
    + rewrite (sum_of_insert _ _ _ _ l Hi). split; [lia|done].
    + rewrite (sum_of_insert _ _ _ _ l Hi). split; [lia|done].
    + rewrite (sum_of_insert _ _ _ _ l Hi). unfold entries_of in *. split; [lia|done].
  - simpl in He, Hids, Hbytes |- *. split; simpl; try done.
    + apply Forall_app. split; [done|]. by constructor.
    + rewrite map_app. simpl. apply NoDup_app. split; [done|]. split; [|apply NoDup_singleton].
      intros v Hv Hn. apply list_elem_of_singleton in Hn. subst v.
      apply list_elem_of_In, in_map_iff in Hv as (x & Ex & Hx).
      symmetry in Hprior. apply position_None in Hprior. rewrite forallb_forall in Hprior.
      specialize (Hprior x Hx). apply negb_true_iff in Hprior.
      assert (value_eqb (l_id x) (l_id l) = true); [|congruence]. apply id_eqb; [|done].
      rewrite Ex. exact Hid.
    + rewrite length_app. simpl. lia.
    + rewrite sum_of_app. simpl. split; lia.
    + rewrite sum_of_app. simpl. split; lia.
    + rewrite sum_of_app. simpl. unfold entries_of in *. split; lia.
Qed.

Lemma cancel_wf id o : routing_wf (routing o) -> routing_wf (routing (snd (cancel id o))).
Proof.
  intros Hr. unfold cancel. destruct (position _ _) as [i|]; [|done].
  destruct (bump (routing o)) as [n|]; [|done]. destruct (listeners (routing o) !! i) as [old|] eqn:Hi; [|done].
  simpl. set (r := routing o) in *. destruct Hr as [H1 H2 H3 H4 H5 H6 [H7 H7'] [H8 H8'] [H9 H9']].
  assert (listener_wf old) as Hw by (rewrite Forall_lookup in H1; eauto).
  apply listener_bytes_nonneg in Hw as (Hw1 & Hw2 & Hw3).
  split; simpl; try done.
  - by apply Forall_delete.
  - assert (sublist (map l_id (delete i (listeners r))) (map l_id (listeners r))) as Hs.
    { apply (fmap_sublist l_id). apply sublist_delete. }
    by eapply sublist_NoDup.
  - rewrite length_delete by by eexists. lia.
  - rewrite (sum_of_delete _ _ _ _ Hi). split; lia.
  - rewrite (sum_of_delete _ _ _ _ Hi). split; lia.
  - rewrite (sum_of_delete _ _ _ _ Hi). unfold entries_of in *. split; lia.
Qed.

Definition uri_planned (r : Routing) (p : UriPlan) : Prop :=
  str_len (up_uri p) <= MAX_URI
  /\ (up_add p = true -> one_of (up_uri p) (legacy_uris r) = false ->
      Z.of_nat (length (legacy_uris r)) < MAX_LISTENERS
      /\ uri_bytes r + str_len (up_uri p) <= MAX_URI_BYTES /\ uri_entries r < MAX_URIS).

Lemma plan_uri_planned uri add o p :
  plan_uri uri add o = Ok p -> up_revision p = revision (routing o) /\ uri_planned (routing o) p.
Proof.
  unfold plan_uri. destruct (active o); [|done]. cbn [negb].
  destruct (Z.ltb_spec MAX_URI (str_len uri)); [done|].
  match goal with |- (if ?c then _ else _) = _ -> _ => destruct c eqn:E; [done|] end.
  intros [= <-]. split; [done|]. split; [done|]. simpl. intros -> Hn. rewrite Hn in E. simpl in E.
  apply orb_false_iff in E as [[E1%Z.leb_gt E2%Z.ltb_ge]%orb_false_iff E3%Z.leb_gt]. done.
Qed.

Lemma filter_set uri l :
  NoDup l -> In uri l ->
  sum_of str_len (List.filter (fun u => negb (str_eqb u uri)) l) = sum_of str_len l - str_len uri
  /\ Z.of_nat (length (List.filter (fun u => negb (str_eqb u uri)) l)) = Z.of_nat (length l) - 1
  /\ NoDup (List.filter (fun u => negb (str_eqb u uri)) l).
Proof.
  induction l as [|x l IH]; intros Hd Hin; [done|]. apply NoDup_cons in Hd as [Hx Hd].
  rewrite list_elem_of_In in Hx. simpl. destruct (str_eqb x uri) eqn:E; simpl.
  - apply str_eqb_eq in E as ->.
    assert (List.filter (fun u => negb (str_eqb u uri)) l = l) as ->.
    { clear IH Hin Hd. induction l as [|y l IH]; simpl; [done|].
      destruct (str_eqb y uri) eqn:E; simpl; [apply str_eqb_eq in E as ->; by destruct Hx; left|].
      rewrite IH; [done|]. intros H. apply Hx. by right. }
    split; [lia|]. split; [lia|done].
  - destruct Hin as [->|Hin]; [by rewrite str_eqb_refl in E|]. destruct (IH Hd Hin) as (H1 & H2 & H3).
    split; [unfold sum_of in *; lia|]. split; [lia|]. constructor; [|done].
    rewrite list_elem_of_In. intros [H _]%filter_In. done.
Qed.

Lemma commit_uri_wf plan o :
  routing_wf (routing o) ->
  (up_revision plan = revision (routing o) -> uri_planned (routing o) plan) ->
  routing_wf (routing (snd (commit_uri plan o))).
Proof.
  intros Hr Hp. unfold commit_uri. destruct (active o); [|done]. cbn [negb orb].
  destruct (Z.eqb_spec (revision (routing o)) (up_revision plan)) as [E|]; [|done]. cbn [negb].
  destruct (Hp (eq_sym E)) as [Hu Ha]. destruct (bump (routing o)) as [n|]; [|done].
  set (r := routing o) in *. destruct Hr as [H1 H2 H3 H4 H5 H6 [H7 H7'] [H8 H8'] [H9 H9']].
  destruct (one_of (up_uri plan) (legacy_uris r)) eqn:Ho.
  - apply one_of_In in Ho. destruct (up_add plan).
    + split; simpl; done.
    + destruct (filter_set _ _ H4 Ho) as (Hs & Hl & Hd). split; simpl; try done.
      * lia.
      * rewrite Forall_forall in H6 |- *. intros u Hin. apply H6. apply list_elem_of_In.
        apply list_elem_of_In, filter_In in Hin. tauto.
      * rewrite Hs. pose proof (Zle_0_nat (String.length (up_uri plan))). unfold str_len in *. split; lia.
      * rewrite Hl. split; lia.
  - destruct (up_add plan); [|split; simpl; done]. destruct (Ha eq_refl eq_refl) as (A1 & A2 & A3).
    split; simpl; try done.
    + constructor; [|done]. rewrite list_elem_of_In, <- one_of_In, Ho. done.
    + lia.
    + by constructor.
    + change (foldr _ 0 (legacy_uris r)) with (sum_of str_len (legacy_uris r)). split; lia.
    + split; lia.
Qed.

(** ** The permits and the queue *)

Record permits_ok (o : Owner) (h : list Z) : Prop := {
  po_total : free o + sum_of b_bytes (queue o) + sum_of id h = QUEUE_BYTES;
  po_free : 0 <= free o;
  po_queue : Forall (fun b => 0 <= b_bytes b) (queue o);
  po_held : Forall (Z.le 0) h;
  po_items : (length (queue o) <= QUEUE_ITEMS)%nat
}.

Lemma charge_Some bytes n b : charge bytes n = Some b -> b = bytes + n /\ b <= QUEUE_BYTES.
Proof.
  unfold charge. destruct (checked_add bytes n) as [m|] eqn:E; [|done]. simpl.
  destruct (Z.leb_spec m QUEUE_BYTES); [|done]. intros [= <-].
  by apply checked_add_Some in E as [-> _].
Qed.

Lemma audience_bytes_nonneg id : 0 <= audience_bytes id.
Proof. destruct id; simpl; unfold json_len; lia. Qed.

Lemma change_bytes_nonneg c : 0 <= change_bytes c.
Proof. destruct c; simpl; unfold str_len; lia. Qed.

Lemma charge_audiences_bounds is_direct uri ids : 0 <= uri -> forall bytes b,
  0 <= bytes <= QUEUE_BYTES -> charge_audiences is_direct uri bytes ids = Some b -> bytes <= b <= QUEUE_BYTES.
Proof.
  intros Hu. induction ids as [|id ids IH]; intros bytes b Hb H; cbn [charge_audiences] in H;
    [injection H as <-; lia|].
  destruct (charge bytes _) as [b1|] eqn:E; [|done]. simpl in H. apply charge_Some in E as [E Hle].
  pose proof (audience_bytes_nonneg id). apply IH in H; destruct is_direct; lia.
Qed.

Lemma deliveries_bounds r is_direct changes : forall bytes ds b,
  0 <= bytes <= QUEUE_BYTES -> deliveries r is_direct bytes changes = Some (ds, b) ->
  bytes <= b <= QUEUE_BYTES.
Proof.
  induction changes as [|c changes IH]; intros bytes ds b Hb H; cbn [deliveries] in H.
  { injection H as <- <-. lia. }
  pose proof (change_bytes_nonneg c). destruct (audiences r c) as [|id ids]; [by eapply IH|].
  destruct (if is_direct then charge bytes (change_bytes c + 256) else Some bytes) as [b1|] eqn:E1; [|done].
  assert (bytes <= b1 <= QUEUE_BYTES) as Hb1.
  { destruct is_direct; [apply charge_Some in E1; lia|]. injection E1 as <-. lia. }
  cbn [mbind option_bind] in H.
  destruct (charge_audiences is_direct (change_bytes c) b1 (id :: ids)) as [b2|] eqn:E2; [|done].
  apply charge_audiences_bounds in E2; [|done|lia]. cbn [mbind option_bind] in H.
  destruct (deliveries r is_direct b2 changes) as [[ds' b3]|] eqn:E3; [|done].
  apply IH in E3; [|lia]. cbn [mbind option_bind] in H. injection H as <- <-. lia.
Qed.

Lemma send_permits ds bytes o h :
  0 <= bytes -> permits_ok o h ->
  permits_ok (send ds bytes o)
    (h ++ map b_bytes (drop (length (delivered o)) (delivered (send ds bytes o)))).
Proof.
  intros Hb [H1 H2 H3 H4 H5]. unfold send.
  assert (h ++ map b_bytes (drop (length (delivered o)) (delivered o)) = h) as Hsame
    by (rewrite drop_ge by lia; apply app_nil_r).
  destruct (Z.ltb_spec (free o) bytes).
  { unfold fail. simpl. rewrite Hsame. by split. }
  destruct (direct o) as [[|]|].
  - simpl. rewrite drop_app_length. split; simpl; try done; [|lia|].
    + rewrite sum_of_app. change (sum_of id [bytes]) with (bytes + 0). lia.
    + apply Forall_app. split; [done|]. by constructor.
  - unfold fail. simpl. rewrite Hsame. by split.
  - destruct (closed o || (QUEUE_ITEMS <=? length (queue o))%nat) eqn:E.
    + unfold fail. simpl. rewrite Hsame. by split.
    + apply orb_false_iff in E as [_ E%Nat.leb_gt]. simpl. rewrite Hsame. split; simpl; try done; [|lia| |].
      * rewrite sum_of_app. simpl. lia.
      * apply Forall_app. split; [done|]. by constructor.
      * rewrite length_app. simpl. lia.
Qed.

Lemma publish_permits origin o h :
  permits_ok o h ->
  permits_ok (publish origin o)
    (h ++ map b_bytes (drop (length (delivered o)) (delivered (publish origin o)))).
Proof.
  intros H. assert (h ++ map b_bytes (drop (length (delivered o)) (delivered o)) = h) as Hsame
    by (rewrite drop_ge by lia; apply app_nil_r).
  unfold publish. destruct (negb (active o) || _ || _); [by rewrite Hsame|].
  destruct (changes_of origin (routing o)) as [changes|reason].
  - destruct (deliveries (routing o) _ 0 changes) as [[[|d ds] bytes]|] eqn:E.
    + by rewrite Hsame.
    + apply send_permits; [|done]. apply deliveries_bounds in E; [lia|unfold QUEUE_BYTES; lia].
    + unfold fail. simpl. rewrite Hsame. destruct H. by split.
  - unfold fail. simpl. rewrite Hsame. destruct H. by split.
Qed.

(** ** The invariant *)

Record world_inv (w : World) : Prop := {
  wi_routing : routing_wf (routing (owner w));
  wi_listen : Forall (fun p => lp_revision p <= revision (routing (owner w))
    /\ (lp_revision p = revision (routing (owner w)) -> planned (routing (owner w)) p)) (listen_plans w);
  wi_uri : Forall (fun p => up_revision p <= revision (routing (owner w))
    /\ (up_revision p = revision (routing (owner w)) -> uri_planned (routing (owner w)) p)) (uri_plans w);
  wi_permits : permits_ok (owner w) (held w)
}.

Lemma newer_listen r r' l :
  newer r r' ->
  Forall (fun p => lp_revision p <= revision r /\ (lp_revision p = revision r -> planned r p)) l ->
  Forall (fun p => lp_revision p <= revision r' /\ (lp_revision p = revision r' -> planned r' p)) l.
Proof.
  intros [->|Hn] H; [done|]. eapply Forall_impl; [exact H|]. simpl. intros p [Hp _]. split; lia.
Qed.

Lemma newer_uri r r' l :
  newer r r' ->
  Forall (fun p => up_revision p <= revision r /\ (up_revision p = revision r -> uri_planned r p)) l ->
  Forall (fun p => up_revision p <= revision r' /\ (up_revision p = revision r' -> uri_planned r' p)) l.
Proof.
  intros [->|Hn] H; [done|]. eapply Forall_impl; [exact H|]. simpl. intros p [Hp _]. split; lia.
Qed.

(** Only the publisher and the consumer touch permits and queue. *)
Definition same_flow (o o' : Owner) : Prop := queue o' = queue o /\ free o' = free o.

Lemma same_flow_permits o o' h : same_flow o o' -> permits_ok o h -> permits_ok o' h.
Proof. intros [Hq Hf] [H1 H2 H3 H4 H5]. split; rewrite ?Hq, ?Hf; done. Qed.

Lemma set_legacy_wf b o : routing_wf (routing o) -> routing_wf (routing (snd (set_legacy b o))).
Proof.
  intros H. unfold set_legacy. destruct (Bool.eqb _ _); [done|]. destruct (bump _); [|done].
  simpl. destruct H. by split.
Qed.

Lemma set_legacy_flow b o : same_flow o (snd (set_legacy b o)).
Proof. unfold set_legacy. by repeat case_match. Qed.

Lemma bind_delivery_flow o : same_flow o (snd (bind_delivery o)).
Proof. unfold bind_delivery. by repeat case_match. Qed.

Lemma bind_delivery_routing o : routing (snd (bind_delivery o)) = routing o.
Proof. unfold bind_delivery. by repeat case_match. Qed.

Lemma commit_listen_flow p o : same_flow o (snd (commit_listen p o)).
Proof. unfold commit_listen. by repeat case_match. Qed.

Lemma commit_uri_flow p o : same_flow o (snd (commit_uri p o)).
Proof. unfold commit_uri. by repeat (case_match; simplify_eq). Qed.

Lemma cancel_flow id o : same_flow o (snd (cancel id o)).
Proof. unfold cancel. by repeat case_match. Qed.

Lemma sum_of_map {A} (f : A -> Z) l : sum_of id (map f l) = sum_of f l.
Proof.
  induction l as [|x l IH]; [done|]. change (f x + sum_of id (map f l) = f x + sum_of f l).
  by rewrite IH.
Qed.

Lemma taken_permits n o o' h :
  queue o' = drop n (queue o) -> free o' = free o -> permits_ok o h ->
  permits_ok o' (h ++ map b_bytes (take n (queue o))).
Proof.
  intros Hq Hf [H1 H2 H3 H4 H5]. rewrite <- (take_drop n (queue o)) in H1, H3.
  rewrite sum_of_app in H1. apply Forall_app in H3 as [H3 H3'].
  split; rewrite ?Hq, ?Hf; try done.
  - rewrite sum_of_app, sum_of_map. lia.
  - apply Forall_app. split; [done|]. apply Forall_map. exact H3.
  - rewrite length_drop. lia.
Qed.

Lemma next_shape o :
  (exists b, next o = (Some (Some (Ok b)), snd (next o)) /\ take 1 (queue o) = [b]
             /\ queue (snd (next o)) = drop 1 (queue o) /\ free (snd (next o)) = free o)
  \/ (forall b, fst (next o) <> Some (Some (Ok b))) /\ same_flow o (snd (next o)).
Proof.
  unfold next. destruct (failed o); [by right|]. destruct (queue o) as [|b rest] eqn:Hq.
  - right. unfold same_flow. destruct (closed o); [simpl; by destruct (failure o)|].
    by destruct (failure o).
  - left. by exists b.
Qed.

Lemma next_routing o : routing (snd (next o)) = routing o.
Proof. unfold next. by repeat case_match. Qed.

Lemma release_permits k bytes o h :
  h !! k = Some bytes -> permits_ok o h -> permits_ok (release bytes o) (delete k h).
Proof.
  intros Hk [H1 H2 H3 H4 H5]. assert (0 <= bytes) by (rewrite Forall_lookup in H4; by eapply H4).
  split; simpl; try done; [|lia|by apply Forall_delete].
  rewrite (sum_of_delete _ _ _ _ Hk). unfold id at 2. lia.
Qed.

Lemma deleted {A} (P : A -> Prop) k l : Forall P l -> Forall P (delete k l).
Proof. apply Forall_delete. Qed.

Lemma world_change w w' :
  world_inv w -> newer (routing (owner w)) (routing (owner w')) ->
  routing_wf (routing (owner w')) -> permits_ok (owner w') (held w') ->
  (forall p, In p (listen_plans w') -> In p (listen_plans w)
             \/ lp_revision p <= revision (routing (owner w'))
                /\ planned (routing (owner w')) p) ->
  (forall p, In p (uri_plans w') -> In p (uri_plans w)
             \/ up_revision p <= revision (routing (owner w'))
                /\ uri_planned (routing (owner w')) p) ->
  world_inv w'.
Proof.
  intros [_ Hl Hu _] Hn Hr Hp Il Iu. split; try done.
  - apply (newer_listen _ _ _ Hn) in Hl. rewrite Forall_forall in Hl |- *. intros p Hin.
    apply list_elem_of_In, Il in Hin as [Hin|[H1 H2]]; [|done]. apply Hl. by apply list_elem_of_In.
  - apply (newer_uri _ _ _ Hn) in Hu. rewrite Forall_forall in Hu |- *. intros p Hin.
    apply list_elem_of_In, Iu in Hin as [Hin|[H1 H2]]; [|done]. apply Hu. by apply list_elem_of_In.
Qed.

Lemma in_delete {A} (x : A) k l : In x (delete k l) -> In x l.
Proof. rewrite <- !list_elem_of_In. intros H. eapply elem_of_submseteq; [exact H|]. apply sublist_submseteq, sublist_delete. Qed.

Lemma events_step_inv a w : world_inv w -> world_inv (step a w).
Proof.
  intros Hw. pose proof (step_newer a w) as Hn. pose proof Hw as [Hr Hl Hu Hp].
  destruct a; simpl in *.
  - apply (world_change w); simpl; auto. + by apply set_legacy_wf.
    + eapply same_flow_permits; [apply set_legacy_flow|done].
  - apply (world_change w); simpl; auto. + by rewrite bind_delivery_routing.
    + eapply same_flow_permits; [apply bind_delivery_flow|done].
  - apply (world_change w); simpl; auto. by apply (same_flow_permits (owner w)).
  - destruct (plan_listen id filter valid (owner w)) as [p|e] eqn:E; [|done].
    apply plan_listen_planned in E. apply (world_change w); simpl; auto. intros q [Hq|[->|[]]]%in_app_iff; [by left|].
    right. split; [|done]. destruct E. lia.
  - destruct (listen_plans w !! k) as [p|] eqn:E; [|done].
    apply (world_change w); simpl; auto.
    + apply commit_wf; [done|]. rewrite Forall_lookup in Hl. apply (Hl _ _ E).
    + eapply same_flow_permits; [apply commit_listen_flow|done].
    + intros q Hq%in_delete. by left.
  - destruct (plan_uri uri add (owner w)) as [p|e] eqn:E; [|done].
    apply plan_uri_planned in E as [E1 E2]. apply (world_change w); simpl; auto.
    intros q [Hq|[->|[]]]%in_app_iff; [by left|]. right. split; [lia|done].
  - destruct (uri_plans w !! k) as [p|] eqn:E; [|done].
    apply (world_change w); simpl; auto.
    + apply commit_uri_wf; [done|]. rewrite Forall_lookup in Hu. apply (Hu _ _ E).
    + eapply same_flow_permits; [apply commit_uri_flow|done].
    + intros q Hq%in_delete. by left.
  - apply (world_change w); simpl; auto. + by apply cancel_wf.
    + eapply same_flow_permits; [apply cancel_flow|done].
  - apply (world_change w); simpl; auto. + by rewrite publish_routing. + by apply publish_permits.
  - pose proof (next_routing (owner w)) as Hsame.
    destruct (next_shape (owner w)) as [(b & E & Ht & Hq & Hf)|[Hb Hf]].
    + rewrite E in *. simpl in *. apply (world_change w); simpl; auto; [by rewrite Hsame|].
      change [b_bytes b] with (map b_bytes [b]). rewrite <- Ht. by apply taken_permits.
    + destruct (next (owner w)) as [r o'] eqn:E. simpl in *.
      assert (world_inv (with_owner o' w)).
      { apply (world_change w); simpl; auto; [by left|by rewrite Hsame|]. by eapply same_flow_permits. }
      destruct r as [[[b|]|]|]; try done. by destruct (Hb b).
  - apply (world_change w); simpl; auto. by apply taken_permits.
  - destruct (held w !! k) as [b|] eqn:E; [|done]. apply (world_change w); simpl; auto.
    by apply (release_permits k).
  - apply (world_change w); simpl; auto. by apply (same_flow_permits (owner w)).
Qed.

Lemma events_start_inv with_tools : world_inv (start with_tools).
Proof.
  split; simpl; try by constructor.
  - split; simpl; try by constructor.
    all: unfold MAX_LISTENERS, MAX_IDS, MAX_URI_BYTES, MAX_URIS; lia.
  - split; simpl; try by constructor.
    all: unfold QUEUE_BYTES, QUEUE_ITEMS; lia.
Qed.

Lemma events_steps_inv ops : forall w, world_inv w -> world_inv (steps ops w).
Proof. induction ops as [|a ops IH]; intros w Hw; simpl; [done|]. by apply IH, events_step_inv. Qed.

(** C26: whatever clients subscribe to and cancel, whatever is published and however slowly it is
    consumed, the notifications stay within their limits, and their accounts are exact: at most
    1,024 listeners with distinct identifiers, the bytes of identifiers and of URIs and the
    number of URIs are the sums over the listeners and the set of the older protocol and below
    their limits, at most 64 batches are queued, and the free permits with those of the queued
    and of the handed-out batches are always the 8 MiB of the pool. *)
Theorem notifications_stay_within_limits with_tools ops :
  let w := steps ops (start with_tools) in
  let o := owner w in
  let r := routing o in
  Z.of_nat (length (listeners r)) <= 1024
  /\ NoDup (map l_id (listeners r))
  /\ Z.of_nat (length (legacy_uris r)) <= 1024
  /\ id_bytes r = sum_of (fun l => json_len (l_id l)) (listeners r) /\ id_bytes r <= 262144
  /\ uri_bytes r = sum_of (fun l => sum_of str_len (l_uris l)) (listeners r) + sum_of str_len (legacy_uris r)
  /\ uri_bytes r <= 1048576
  /\ uri_entries r = sum_of (fun l => Z.of_nat (length (l_uris l))) (listeners r)
                     + Z.of_nat (length (legacy_uris r))
  /\ uri_entries r <= 4096
  /\ (length (queue o) <= 64)%nat
  /\ 0 <= free o /\ free o + sum_of b_bytes (queue o) + sum_of id (held w) = 8388608.
Proof.
  intros w o r. destruct (events_steps_inv ops _ (events_start_inv with_tools)) as [Hr _ _ Hp]. fold w o r in Hr, Hp.
  destruct Hr as [H1 H2 H3 H4 H5 H6 [H7 H7'] [H8 H8'] [H9 H9']]. destruct Hp as [P1 P2 _ _ P5].
  split; [done|]. split; [done|]. split; [done|].
  assert (forall f g, (forall l, listener_wf l -> f l = g l) -> sum_of f (listeners r) = sum_of g (listeners r)) as Hs.
  { intros f g Hfg. clear -H1 Hfg. induction H1 as [|l ls Hl _ IH]; [done|].
    change (f l + sum_of f ls = g l + sum_of g ls). by rewrite IH, (Hfg l Hl). }
  split; [rewrite H7; apply Hs; intros l Hl; apply Hl|]. split; [done|].
  split; [rewrite H8; f_equal; apply Hs; intros l Hl; apply Hl|]. split; [done|].
  split; [done|]. split; [done|]. split; [done|]. by split.
Qed.

(** ** What a publication sends *)

Definition all_changes (origin : Origin) : result Failure (list Change) :=
  match origin with Obs event data => project event data | Take => Ok [Updated "obs://take/current"] end.

(** The changes someone listens to, in order, each with everyone who does *)
Definition owed (r : Routing) (changes : list Change) : list Delivery :=
  flat_map (fun c => match audiences r c with
                     | [] => []
                     | ids => [{| d_change := c; d_audiences := ids |}]
                     end) changes.

Definition handed (o o' : Owner) : list Batch :=
  drop (length (delivered o)) (delivered o') ++ drop (length (queue o)) (queue o').

Lemma owed_app r a b : owed r (a ++ b) = owed r a ++ owed r b.
Proof. apply flat_map_app. Qed.

Lemma owed_nil r changes : Forall (fun c => audiences r c = []) changes -> owed r changes = [].
Proof. induction 1 as [|c changes Hc _ IH]; [done|]. unfold owed in *. simpl. by rewrite Hc. Qed.

Lemma item_uri_items name : item_uri ("obs://scene/" +:+ component name +:+ "/items") = true.
Proof.
  unfold item_uri. apply andb_true_iff. split.
  - apply starts_with_true. by eexists.
  - apply ends_with_true. exists ("obs://scene/" +:+ component name). reflexivity.
Qed.

Lemma existsb_one_of f uri l : existsb f l = false -> f uri = true -> one_of uri l = false.
Proof.
  intros H Hf. destruct (one_of uri l) eqn:E; [|done]. apply one_of_In in E.
  assert (existsb f l = true); [|congruence]. apply existsb_exists. eauto.
Qed.

Lemma no_listener r change :
  (forall l, In l (listeners r) -> listens change l = false) ->
  map (fun l => Some (l_id l)) (List.filter (listens change) (listeners r)) = [].
Proof.
  induction (listeners r) as [|l ls IH]; intros H; [done|]. simpl.
  rewrite (H l (or_introl eq_refl)). apply IH. intros x Hx. apply H. by right.
Qed.

Lemma unheard_items r uri : scene_items r = false -> item_uri uri = true -> audiences r (Updated uri) = [].
Proof.
  unfold scene_items, audiences. destruct (legacy r); intros H Hu.
  - by rewrite (existsb_one_of _ _ _ H Hu).
  - apply no_listener. intros l Hl. simpl. apply (existsb_one_of item_uri); [|done].
    destruct (existsb item_uri (l_uris l)) eqn:E; [|done].
    assert (existsb (fun l => existsb item_uri (l_uris l)) (listeners r) = true); [|congruence].
    apply existsb_exists. eauto.
Qed.

Lemma items_unheard r v o : items v = Ok o -> scene_items r = false -> owed r (to_list o) = [].
Proof.
  unfold items. destruct v as [name|]; [|by intros [= <-]]. destruct (_ <? _); [done|].
  intros [= <-] H. apply owed_nil. constructor; [|done]. apply unheard_items; [done|]. apply item_uri_items.
Qed.

Lemma uninteresting r change : interested r = false -> audiences r change = [].
Proof.
  unfold interested, audiences. intros [-> H]%orb_false_iff. apply no_listener. intros l Hl.
  destruct (l_list l || negb (bool_decide (l_uris l = []))) eqn:E.
  - assert (existsb (fun l => l_list l || negb (bool_decide (l_uris l = []))) (listeners r) = true); [|congruence].
    apply existsb_exists. eauto.
  - apply orb_false_iff in E as [E1 E2%negb_false_iff%bool_decide_eq_true]. destruct change; simpl; [|done].
    by rewrite E2.
Qed.

(** Not projecting the item changes of a scene nobody listens to the items of loses nothing. *)
Lemma selected_owed event data r changes :
  project event data = Ok changes ->
  exists selected, project_selected event data (scene_items r) = Ok selected
                   /\ owed r selected = owed r changes.
Proof.
  unfold project. destruct (scene_items r) eqn:Hs; [by exists changes|]. intros H.
  unfold project_selected in *. rewrite !andb_false_r. rewrite !andb_true_r in H.
  apply bind_result_Ok in H as (a & Ha & H). apply bind_result_Ok in H as (b & Hb & H).
  injection H as <-. simpl. eexists. split; [done|]. rewrite !owed_app.
  assert (owed r (to_list a) = []) as ->.
  { destruct (one_of event _) in Ha; [by eapply items_unheard|by injection Ha as <-]. }
  assert (owed r (to_list b) = []) as ->; [|done].
  destruct (str_eqb event _) in Hb; [by eapply items_unheard|by injection Hb as <-].
Qed.

Lemma deliveries_owed r is_direct changes : forall bytes,
  match deliveries r is_direct bytes changes with
  | Some (ds, _) => ds = owed r changes
  | None => owed r changes <> []
  end.
Proof.
  induction changes as [|c changes IH]; intros bytes; [done|]. unfold owed in *.
  cbn [deliveries flat_map]. destruct (audiences r c) as [|id ids]; [apply IH|].
  destruct (if is_direct then _ else _) as [b|]; [|done]. cbn [mbind option_bind].
  destruct (charge_audiences _ _ _ _) as [b'|]; [|done]. cbn [mbind option_bind].
  specialize (IH b'). destruct (deliveries r is_direct b' changes) as [[ds b'']|]; [|done].
  cbn [mbind option_bind]. by rewrite IH.
Qed.

Lemma handed_same o o' : delivered o' = delivered o -> queue o' = queue o -> handed o o' = [].
Proof. intros Hd Hq. unfold handed. by rewrite Hd, Hq, !drop_all. Qed.

(** What a publication may do with what it owes *)
Definition sends (o o' : Owner) (ds : list Delivery) : Prop :=
  take (length (queue o)) (queue o') = queue o
  /\ take (length (delivered o)) (delivered o') = delivered o
  /\ match failure o' with
     | None => flat_map b_deliveries (handed o o') = ds /\ (length (handed o o') <= 1)%nat
     | Some _ => handed o o' = [] /\ ds <> []
     end.

Lemma sends_nothing o : failure o = None -> sends o o [].
Proof. intros Hf. unfold sends. rewrite !firstn_all, Hf, handed_same by done. simpl. auto with lia. Qed.

Lemma sends_failure reason o ds : failure o = None -> ds <> [] -> sends o (fail reason o) ds.
Proof.
  intros Hf Hd. unfold sends, fail. simpl. rewrite !firstn_all, Hf. split; [done|]. split; [done|].
  split; [by apply handed_same|done].
Qed.

Lemma send_sends ds bytes o : failure o = None -> ds <> [] -> sends o (send ds bytes o) ds.
Proof.
  intros Hf Hd. unfold send. destruct (_ <? _); [by apply sends_failure|].
  destruct (direct o) as [[|]|]; [|by apply sends_failure|].
  - unfold sends, handed. simpl. rewrite firstn_all, Hf, take_app_length, drop_app_length, drop_all. simpl.
    rewrite app_nil_r. auto with lia.
  - destruct (_ || _); [by apply sends_failure|]. unfold sends, handed. simpl.
    rewrite firstn_all, Hf, take_app_length, drop_app_length, drop_all. simpl. rewrite app_nil_r. auto with lia.
Qed.

(** A publication sends exactly what is owed, once. On an open connection that has not
    failed, either it records a failure and sends nothing, which only happens when something was
    owed; or it appends at most one batch, which holds, in order, every change of the event that
    someone listens to at that moment with exactly those who do. What was queued or delivered
    before stays as it was. That only the changes somebody could be interested in are projected
    makes no difference. *)
Theorem publish_exact origin changes o :
  active o = true -> failure o = None -> all_changes origin = Ok changes ->
  sends o (publish origin o) (owed (routing o) changes).
Proof.
  intros Ha Hf Hc. unfold publish. rewrite Ha, Hf. cbn [negb is_none orb].
  destruct (interested (routing o)) eqn:Hi; cbn [negb].
  2:{ rewrite owed_nil; [by apply sends_nothing|]. apply Forall_forall. intros c _. by apply uninteresting. }
  assert (exists selected, changes_of origin (routing o) = Ok selected
            /\ owed (routing o) selected = owed (routing o) changes) as (selected & -> & <-).
  { destruct origin as [event data|]; [by apply selected_owed|]. injection Hc as <-. by eexists. }
  pose proof (deliveries_owed (routing o) (negb (is_none (direct o))) selected 0) as Hd.
  destruct (deliveries _ _ _ _) as [[ds bytes]|]; [|by apply sends_failure].
  rewrite <- Hd. destruct ds as [|d ds]; [by apply sends_nothing|]. by apply send_sends.
Qed.

(** ** Failures *)

(** Nothing is sent any more. *)
Definition silent (o o' : Owner) : Prop :=
  delivered o' = delivered o /\ (exists n, queue o' = drop n (queue o)) /\ failure o' = failure o.

Lemma silent_refl o : silent o o.
Proof. split; [done|]. split; [by exists 0%nat|done]. Qed.

Lemma silent_trans o1 o2 o3 : silent o1 o2 -> silent o2 o3 -> silent o1 o3.
Proof.
  intros (D & (n & Q) & F) (D' & (m & Q') & F'). split; [congruence|]. split; [|congruence].
  exists (n + m)%nat. rewrite Q', Q. apply drop_drop.
Qed.

Lemma with_routing_silent r o : silent o (with_routing r o).
Proof. split; [done|]. split; [by exists 0%nat|done]. Qed.

Lemma next_silent w : silent (owner w) (owner (step Next w)).
Proof.
  simpl. unfold next. destruct (failed (owner w)); [apply silent_refl|].
  destruct (queue (owner w)) as [|b rest] eqn:Hq.
  - destruct (closed (owner w)); [destruct (failure (owner w)) eqn:Hf; simpl
                                 |destruct (failure (owner w)) eqn:Hf; simpl].
    all: try apply silent_refl; (split; [done|split; [exists 0%nat; by rewrite Hq|by rewrite Hf]]).
  - split; [done|]. split; [|done]. exists 1%nat. by rewrite Hq.
Qed.

Lemma quiet_step a w f : failure (owner w) = Some f -> silent (owner w) (owner (step a w)).
Proof.
  intros Hf. destruct a; simpl.
  - unfold set_legacy. repeat case_match; apply with_routing_silent || apply silent_refl.
  - unfold bind_delivery. repeat case_match; apply silent_refl || (split; [done|split; [by exists 0%nat|done]]).
  - split; [done|]. split; [by exists 0%nat|done].
  - case_match; apply silent_refl.
  - case_match; [|apply silent_refl]. unfold commit_listen. simpl.
    repeat case_match; apply with_routing_silent || apply silent_refl.
  - case_match; apply silent_refl.
  - case_match; [|apply silent_refl]. unfold commit_uri. simpl.
    repeat (case_match; simplify_eq); apply with_routing_silent || apply silent_refl.
  - unfold cancel. repeat case_match; apply with_routing_silent || apply silent_refl.
  - unfold publish. rewrite Hf. cbn [is_none negb]. rewrite orb_true_r. apply silent_refl.
  - apply next_silent.
  - split; [done|]. split; [by exists QUEUE_ITEMS|done].
  - case_match; [|apply silent_refl]. split; [done|]. split; [by exists 0%nat|done].
  - split; [done|]. split; [by exists 0%nat|done].
Qed.

Lemma failing_steps ops : forall w f, failure (owner w) = Some f -> silent (owner w) (owner (steps ops w)).
Proof.
  induction ops as [|a ops IH]; intros w f Hf; [apply silent_refl|]. simpl.
  pose proof (quiet_step a w f Hf) as H. eapply silent_trans; [exact H|]. apply (IH _ f).
  destruct H as (_ & _ & ->). done.
Qed.

(** A failure of the notifications is final and is reported. Once a publication could not
    be sent, the first reason is kept whatever happens, nothing more is queued or delivered, so
    no client ever receives a later change after a lost one; and the consumer, when it has taken
    what was queued before, is given that reason and then the end, also when the connection
    was closed meanwhile. *)
Theorem failure_is_final f ops w :
  failure (owner w) = Some f ->
  let o' := owner (steps ops w) in
  failure o' = Some f
  /\ delivered o' = delivered (owner w)
  /\ (exists n, queue o' = drop n (queue (owner w)))
  /\ (queue o' = [] -> failed o' = false ->
      fst (next o') = Some (Some (Err f)) /\ fst (next (snd (next o'))) = Some None).
Proof.
  intros Hf o'. destruct (failing_steps ops w f Hf) as (Hd & Hq & Hf'). fold o' in Hd, Hq, Hf'.
  rewrite Hf in Hf'. split; [done|]. split; [done|]. split; [done|]. intros He Hn.
  unfold next. rewrite Hn, He, Hf'. by destruct (closed o').
Qed.
End Events.
