(* ===== verification/Number.v ===== *)
(** * binary64 arithmetic and JavaScript's conversions

    The operations of [f64] the monitor of a take computes with, over the specification of
    IEEE 754 in [SpecFloat], and the conversions of JSON values that follow JavaScript
    ([Number], [String] and truthiness).  Rust's rendering and parsing of decimal text and the
    logarithm of the C library are parameters. *)
From Stdlib Require Import SpecFloat.
From stdpp Require Import pretty.
From S2P Require Import Prelude Json Text Control.

Definition f64_add : f64 -> f64 -> f64 := SFadd 53 1024.
Definition f64_sub : f64 -> f64 -> f64 := SFsub 53 1024.
Definition f64_mul : f64 -> f64 -> f64 := SFmul 53 1024.
Definition f64_div : f64 -> f64 -> f64 := SFdiv 53 1024.
Definition f64_infinity : f64 := S754_infinity false.
Definition f64_neg_infinity : f64 := S754_infinity true.
Definition f64_half : f64 := f64_div (f64_of_Z 1) (f64_of_Z 2).

Definition is_nan (f : f64) : bool := match f with S754_nan => true | _ => false end.

(** [f64::floor]: below 2^53 the integer is exact; a positive fraction gives zero. *)
Definition f64_floor (f : f64) : f64 :=
  match f with
  | S754_finite s m (Zneg k) =>
      let n := if s then - Z.pos m else Z.pos m in
      let q := Z.div n (2 ^ Z.pos k) in
      if q =? 0 then S754_zero s else f64_of_Z q
  | _ => f
  end.

(** [number.fract() == 0.0]: an infinity and NaN have NaN for a fraction *)
Definition is_integral (f : f64) : bool :=
  match f with
  | S754_zero _ => true
  | S754_finite _ m (Zneg k) => Z.pos m mod 2 ^ Z.pos k =? 0
  | S754_finite _ _ _ => true
  | _ => false
  end.

(** [f64::max], which prefers the number to a NaN *)
Definition f64_max (a b : f64) : f64 :=
  if is_nan a then b else if is_nan b then a else if f64_ltb a b then b else a.

Definition js_max (a b : f64) : f64 := if is_nan a || is_nan b then S754_nan else f64_max a b.

(** [round]: two decimals *)
Definition round (n : f64) : f64 :=
  f64_div (f64_floor (f64_add (f64_mul n (f64_of_Z 100)) f64_half)) (f64_of_Z 100).

(** [str::parse::<f64>], [f64::log10], and the coefficient and the exponent that
    [format!('{:.*e}', digits, n)] writes *)
Class F64Library := {
  #[global] f64_format :: F64Format;
  f64_parse : string -> option f64;
  f64_log10 : f64 -> f64;
  f64_scientific : Z -> f64 -> string * Z
}.

Section Conversions.
Context {Lib : F64Library}.

Definition to_db (n : f64) : f64 :=
  if f64_ltb f64_zero n then
    f64_div (f64_floor (f64_add (f64_mul (f64_mul (f64_of_Z 20) (f64_log10 n)) (f64_of_Z 10)) f64_half))
      (f64_of_Z 10)
  else f64_neg_infinity.

Definition number_string (n : f64) : string :=
  match n with
  | S754_nan => "NaN"
  | S754_infinity false => "Infinity"
  | S754_infinity true => "-Infinity"
  | _ =>
      if f64_eqb n f64_zero then "0"
      else if f64_leb f64_1e21 (SFabs n) || f64_ltb (SFabs n) f64_1em6 then
        match split_once_e (f64_lower_exp n) with
        | Some (mantissa, exponent) =>
            join "" [mantissa; "e"; if String.prefix "-" exponent then "" else "+"; exponent]
        | None => f64_lower_exp n
        end
      else f64_display n
  end.

(** [js_string] of a present value; the one of an absent value is [undefined]. *)
Fixpoint js_text (value : Value) : string :=
  match value with
  | Null => "null"
  | Bool b => if b then "true" else "false"
  | Num n => match as_f64 (Num n) with Some f => number_string f | None => "NaN" end
  | Str s => s
  | Array a => join "," (map (fun v => if is_null v then EmptyString else js_text v) a)
  | Object _ => "[object Object]"
  end.

Definition js_string (value : option Value) : string :=
  match value with Some v => js_text v | None => "undefined" end.

Definition string_or_empty (value : option Value) : string :=
  match opt_filter (fun v => negb (is_null v)) value with Some v => js_text v | None => EmptyString end.

Definition truthy (value : option Value) : bool :=
  match value with
  | None | Some Null => false
  | Some (Bool b) => b
  | Some (Num n) => is_some_and (as_f64 (Num n)) (fun n => negb (f64_eqb n f64_zero) && negb (is_nan n))
  | Some (Str s) => negb (str_is_empty s)
  | Some (Array _) | Some (Object _) => true
  end.

(** The integer literals [Number] reads: a prefix and the digits of its base *)
Definition radixes : list (string * Z) :=
  [("0x", 16); ("0X", 16); ("0b", 2); ("0B", 2); ("0o", 8); ("0O", 8)].

Fixpoint fold_digits (base : Z) (n : f64) (bs : list Z) : option f64 :=
  match bs with
  | [] => Some n
  | b :: bs =>
      d ← to_digit base b;
      fold_digits base (f64_add (f64_mul n (f64_of_Z base)) (f64_of_Z d)) bs
  end.

Fixpoint radix_literal (radixes : list (string * Z)) (s : string) : option f64 :=
  match radixes with
  | [] => None
  | (prefix, base) :: radixes =>
      match strip_prefix prefix s with
      | Some digits =>
          if str_is_empty digits then Some S754_nan
          else Some (match fold_digits base f64_zero (bytes_of digits) with Some n => n | None => S754_nan end)
      | None => radix_literal radixes s
      end
  end.

Definition number_of_text (s : string) : f64 :=
  let s := str_of_bytes (trim_bytes js_spaces (bytes_of s)) in
  if str_is_empty s then f64_zero
  else match radix_literal radixes s with
  | Some n => n
  | None =>
      if one_of s ["inf"; "-inf"; "+inf"; "infinity"; "-infinity"; "+infinity"]%string then S754_nan
      else match f64_parse s with Some n => n | None => S754_nan end
  end.

Definition js_number (value : option Value) : f64 :=
  match value with
  | None | Some Null => f64_zero
  | Some (Bool b) => if b then f64_of_Z 1 else f64_zero
  | Some (Num n) => match as_f64 (Num n) with Some f => f | None => S754_nan end
  | Some (Object _) => S754_nan
  | Some (Array a) => number_of_text (js_text (Array a))
  | Some (Str s) => number_of_text s
  end.
End Conversions.

(** An integer in decimal *)
Definition decimal_text (n : Z) : string := pretty n.

Example floor_positive : f64_floor (f64_div (f64_of_Z 7) (f64_of_Z 2)) = f64_of_Z 3.
Proof. vm_compute. reflexivity. Qed.

Example floor_negative : f64_floor (f64_div (f64_of_Z (-7)) (f64_of_Z 2)) = f64_of_Z (-4).
Proof. vm_compute. reflexivity. Qed.

(** 0.125 is rounded up, 0.124 down. *)
Example rounds_to_cents :
  round (f64_div (f64_of_Z 125) (f64_of_Z 1000)) = f64_div (f64_of_Z 13) (f64_of_Z 100)
  /\ round (f64_div (f64_of_Z 124) (f64_of_Z 1000)) = f64_div (f64_of_Z 12) (f64_of_Z 100).
Proof. by vm_compute. Qed.
