(* ===== verification/Observed.v ===== *)
(** * JavaScript's text of a JSON value, as the observations write it ([src/observation.rs])

    [js_number] lays the digits of a number out as ECMAScript does.  The digits themselves are
    Rust's: [f64_display] is the shortest text that reads back as the number, and [f64_scientific] the
    coefficient and the exponent of [{:.*e}].  A coefficient has a digit that is not
    zero, as the number is not zero, so that no slice of the digits panics. *)
From Stdlib Require Import SpecFloat.
From S2P Require Import Prelude Json Text Number.
From S2P Require Control.

Module Observed.
Definition DOT : Z := 46.
Definition ZERO : Z := 48.

(** [text.replace('.', "")] with no text for it *)
Definition without_dot (bs : list Z) : list Z := List.filter (fun b => negb (b =? DOT)) bs.

(** The digits without the zeros they start with, and how many those are *)
Fixpoint skip_zeros (bs : list Z) : list Z * Z :=
  match bs with
  | b :: rest => if b =? ZERO then let '(digits, n) := skip_zeros rest in (digits, n + 1) else (bs, 0)
  | [] => ([], 0)
  end.

Definition drop_zeros (bs : list Z) : list Z := rev (fst (skip_zeros (rev bs))).

Definition zeros (n : Z) : list Z := repeat ZERO (Z.to_nat n).

(** The digits of a positive number, [position] of them before the point *)
Definition layout (digits : list Z) (position : Z) : list Z :=
  let length := Z.of_nat (length digits) in
  if (0 <? position) && (position <=? 21) then
    if length <=? position then digits ++ zeros (position - length)
    else take (Z.to_nat position) digits ++ [DOT] ++ drop (Z.to_nat position) digits
  else if (-6 <? position) && (position <=? 0) then
    [ZERO; DOT] ++ zeros (- position) ++ digits
  else
    let exponent := position - 1 in
    take 1 digits ++ (if 1 <? length then DOT :: drop 1 digits else [])
      ++ bytes_of "e" ++ (if 0 <=? exponent then bytes_of "+" else []) ++ bytes_of (pretty exponent).

(** The four forms of a number, as ECMAScript has them *)
Example layout_forms :
  map (fun at_ => str_of_bytes (layout (bytes_of "125") at_)) [1; 3; 21; 22; 0; -5; -6]
  = ["1.25"; "125"; "125000000000000000000"; "1.25e+21"; "0.125"; "0.00000125"; "1.25e-7"]%string.
Proof. by vm_compute. Qed.

Definition sign_negative (n : f64) : bool :=
  match n with S754_zero s | S754_infinity s | S754_finite s _ _ => s | S754_nan => false end.

Section Text.
Context {Lib : F64Library}.

(** How many digits the shortest text of a number has, the zeros at its ends aside *)
Definition significant (n : f64) : Z :=
  let shortest := Control.f64_display n in
  let coefficient := match Control.split_once_e shortest with Some (c, _) => c | None => shortest end in
  Z.of_nat (length (drop_zeros (fst (skip_zeros (without_dot (bytes_of coefficient)))))).

Definition js_number (n : f64) : string :=
  if f64_eqb n f64_zero then "0"
  else if is_integral n && f64_leb (SFabs n) (f64_of_Z 9007199254740991) then Control.f64_display n
  else
    let '(coefficient, exponent) := f64_scientific (Z.max 0 (significant (SFabs n) - 1)) (SFabs n) in
    let bs := bytes_of coefficient in
    let point := match position (Z.eqb DOT) bs with Some i => i | None => length bs end in
    let '(digits, skipped) := skip_zeros (without_dot bs) in
    (if sign_negative n then "-" else EmptyString)
      +:+ str_of_bytes (layout (drop_zeros digits) (Z.of_nat point + exponent - skipped)).

Fixpoint js_text (value : Value) : string :=
  match value with
  | Null => "null"
  | Bool b => if b then "true" else "false"
  | Num n => match as_f64 (Num n) with Some f => js_number f | None => EmptyString end
  | Str s => s
  | Array a => join "," (map (fun v => if is_null v then EmptyString else js_text v) a)
  | Object _ => "[object Object]"
  end.

Definition js_string (value : option Value) : string :=
  match value with Some v => js_text v | None => "undefined" end.
End Text.
End Observed.
