(* ===== verification/Stills.v ===== *)
(** * Still pictures

    [StillTracker] of [native/src/take_monitor.rs]: from small grey pictures of the program, the
    spans of time in which it did not move.  Times are seconds as [f64]; pixels are bytes. *)
From S2P Require Import Prelude Json Number.

Record Span := { start_seconds : f64; end_seconds : f64 }.

Record Frame := { fr_at : f64; luma : list Z }.

Record StillTracker := {
  min_seconds : f64;
  samples : list Frame;
  still_from : option f64;
  last_time : option f64;
  comparison_qualified : bool;
  spans : list Span
}.

Definition tracker_new (min : f64) : StillTracker :=
  {| min_seconds := min; samples := []; still_from := None; last_time := None;
     comparison_qualified := false; spans := [] |}.

(** [at - start >= min] *)
Definition long_enough (min from until : f64) : bool := f64_leb min (f64_sub until from).

Definition still_since (t : StillTracker) : option f64 :=
  opt_filter (fun start =>
    comparison_qualified t && is_some_and (last_time t) (fun last => long_enough (min_seconds t) start last))
    (still_from t).

Definition close (at_ : f64) (t : StillTracker) : StillTracker :=
  match comparison_qualified t, opt_filter (fun start => long_enough (min_seconds t) start at_) (still_from t) with
  | true, Some start =>
      {| min_seconds := min_seconds t; samples := samples t; still_from := still_from t;
         last_time := last_time t; comparison_qualified := comparison_qualified t;
         spans := spans t ++ [{| start_seconds := start; end_seconds := at_ |}] |}
  | _, _ => t
  end.

Definition forget (t : StillTracker) : StillTracker :=
  {| min_seconds := min_seconds t; samples := []; still_from := None; last_time := None;
     comparison_qualified := false; spans := spans t |}.

Definition finish (at_ : f64) (t : StillTracker) : StillTracker := forget (close at_ t).

Definition far (p : Z * Z) : bool := 12 <? Z.abs (p.1 - p.2).

(** More than 12 apart in at most one pixel *)
Definition same_luma (a b : list Z) : bool :=
  negb (bool_decide (a = [])) && (length a =? length b)%nat
  && (length (take 2 (List.filter far (combine a b))) <? 2)%nat.

Definition median3 (a b c : Z) : Z := Z.max (Z.min a b) (Z.min (Z.max a b) c).

(** The pixels of the first picture with those of the next two; a picture that is too short
    would panic. *)
Fixpoint medians (a b c : list Z) : list Z :=
  match a, b, c with
  | x :: a, y :: b, z :: c => median3 x y z :: medians a b c
  | _, _, _ => []
  end.

Definition luma_at (i : nat) (l : list Frame) : list Z :=
  match l !! i with Some f => luma f | None => [] end.

Definition at_of (i : nat) (l : list Frame) : f64 :=
  match l !! i with Some f => fr_at f | None => f64_zero end.

Definition median (offset : nat) (l : list Frame) : list Z :=
  medians (luma_at offset l) (luma_at (offset + 1) l) (luma_at (offset + 2) l).

(** A first transition may close an old stable window. *)
Definition qualify (before : list Z) (t : StillTracker) : StillTracker :=
  if comparison_qualified t then t
  else
    let matching := map fr_at (List.filter (fun s => same_luma before (luma s)) (take 3 (samples t))) in
    match matching with
    | first :: _ :: _ =>
        {| min_seconds := min_seconds t; samples := samples t;
           still_from := (fun start => js_max start first) <$> still_from t;
           last_time := last_time t; comparison_qualified := true; spans := spans t |}
    | _ => t
    end.

Definition changed_at (before : list Z) (l : list Frame) : f64 :=
  match find (fun i => negb (same_luma before (luma_at i l))) [1; 2; 3; 4]%nat with
  | Some i => at_of i l
  | None => at_of 3 l
  end.

Definition settled (after : list Z) (l : list Frame) : f64 :=
  if negb (same_luma after (luma_at 2 l)) then at_of 3 l
  else if negb (same_luma after (luma_at 1 l)) then at_of 2 l
  else at_of 1 l.

(** What a window of six frames decides *)
Definition compare_window (t : StillTracker) : StillTracker :=
  let before := median 0 (samples t) in
  let after := median 3 (samples t) in
  if negb (same_luma before after) then
    let t := qualify before t in
    let changed := changed_at before (samples t) in
    let t := close changed t in
    {| min_seconds := min_seconds t; samples := samples t;
       still_from := Some (js_max changed (settled after (samples t)));
       last_time := last_time t; comparison_qualified := false; spans := spans t |}
  else
    {| min_seconds := min_seconds t; samples := samples t; still_from := still_from t;
       last_time := last_time t; comparison_qualified := negb (bool_decide (before = [])); spans := spans t |}.

Definition drop_first (t : StillTracker) : StillTracker :=
  {| min_seconds := min_seconds t; samples := drop 1 (samples t); still_from := still_from t;
     last_time := last_time t; comparison_qualified := comparison_qualified t; spans := spans t |}.

Definition push (at_ : f64) (picture : list Z) (t : StillTracker) : StillTracker :=
  let t :=
    if is_some_and (head (samples t)) (fun s => negb (length (luma s) =? length picture)%nat) then
      forget (match last_time t with Some last => close last t | None => t end)
    else t in
  let t :=
    {| min_seconds := min_seconds t; samples := samples t ++ [{| fr_at := at_; luma := picture |}];
       still_from := Some (match still_from t with Some start => start | None => at_ end);
       last_time := Some at_; comparison_qualified := comparison_qualified t; spans := spans t |} in
  if (length (samples t) <? 6)%nat then t else drop_first (compare_window t).

(** ** Runs *)

Inductive op : Type := Push (at_ : f64) (picture : list Z) | Finish (at_ : f64).

Definition apply (o : op) (t : StillTracker) : StillTracker :=
  match o with Push at_ picture => push at_ picture t | Finish at_ => finish at_ t end.

Definition play (ops : list op) (t : StillTracker) : StillTracker := fold_left (fun t o => apply o t) ops t.

Definition pushes (frames : list Frame) (t : StillTracker) : StillTracker :=
  fold_left (fun t f => push (fr_at f) (luma f) t) frames t.

(** ** Reported spans *)

(** What a step does to the spans: it may append one, which is long enough. *)
Definition grows (t t' : StillTracker) : Prop :=
  min_seconds t' = min_seconds t
  /\ exists new, spans t' = spans t ++ new
     /\ Forall (fun s => long_enough (min_seconds t) (start_seconds s) (end_seconds s) = true) new.

Lemma grows_refl t : grows t t.
Proof. split; [done|]. exists []. by rewrite app_nil_r. Qed.

Lemma grows_trans t1 t2 t3 : grows t1 t2 -> grows t2 t3 -> grows t1 t3.
Proof.
  intros (M & n & S & F) (M' & n' & S' & F'). split; [congruence|]. exists (n ++ n').
  rewrite S', S, <- app_assoc. split; [done|]. apply Forall_app. split; [done|]. by rewrite <- M.
Qed.

(** Steps that leave the spans *)
Lemma grows_same t t' : min_seconds t' = min_seconds t -> spans t' = spans t -> grows t t'.
Proof. intros M S. split; [done|]. exists []. by rewrite S, app_nil_r. Qed.

Lemma close_grows at_ t : grows t (close at_ t).
Proof.
  unfold close. destruct (comparison_qualified t); [|apply grows_refl].
  destruct (opt_filter _ _) as [start|] eqn:E; [|apply grows_refl]. split; [done|].
  exists [{| start_seconds := start; end_seconds := at_ |}]. split; [done|]. constructor; [|done].
  destruct (still_from t) as [s|]; [|done]. simpl in E. destruct (long_enough _ s at_) eqn:L; [|done].
  by injection E as <-.
Qed.

Lemma qualify_grows before t : grows t (qualify before t).
Proof.
  unfold qualify. destruct (comparison_qualified t); [apply grows_refl|].
  destruct (map _ _) as [|? [|? ?]]; apply grows_refl || by apply grows_same.
Qed.

Lemma compare_window_grows t : grows t (compare_window t).
Proof.
  unfold compare_window. destruct (negb _); [|by apply grows_same].
  eapply grows_trans; [apply qualify_grows|]. eapply grows_trans; [apply close_grows|]. by apply grows_same.
Qed.

Lemma push_grows at_ picture t : grows t (push at_ picture t).
Proof.
  unfold push. cbv zeta.
  match goal with |- context [samples (if ?c then ?a else t)] => set (u := if c then a else t) end.
  assert (grows t u) as Hu.
  { unfold u. destruct (is_some_and _ _); [|apply grows_refl].
    destruct (last_time t); [eapply grows_trans; [apply close_grows|]|]; by apply grows_same. }
  eapply grows_trans; [exact Hu|]. destruct (_ <? _)%nat; [by apply grows_same|].
  match goal with |- grows _ (drop_first (compare_window ?v)) =>
    apply (grows_trans _ v); [by apply grows_same|]; apply (grows_trans _ (compare_window v)) end.
  - apply compare_window_grows.
  - by apply grows_same.
Qed.

Lemma finish_grows at_ t : grows t (finish at_ t).
Proof. eapply grows_trans; [apply close_grows|]. by apply grows_same. Qed.

Lemma play_grows ops : forall t, grows t (play ops t).
Proof.
  induction ops as [|o ops IH]; intros t; [apply grows_refl|]. eapply grows_trans; [|apply IH].
  destruct o; [apply push_grows|apply finish_grows].
Qed.

(** A still that is reported lasted. Whatever pictures are pushed at whatever times, forwards
    or backwards, and whenever the tracker is finished, every span it reports and the one it
    reports as going on are at least as long as the configured minimum; and a reported span is
    never taken back or changed. *)
Theorem reported_stills_are_long min ops more :
  let t := play ops (tracker_new min) in
  Forall (fun s => long_enough min (start_seconds s) (end_seconds s) = true) (spans t)
  /\ (forall start, still_since t = Some start ->
        exists last, last_time t = Some last /\ long_enough min start last = true)
  /\ exists new, spans (play more t) = spans t ++ new.
Proof.
  intros t. destruct (play_grows ops (tracker_new min)) as (M & new & S & F). fold t in M, S.
  split; [by rewrite S|]. split.
  - intros start. unfold still_since. destruct (still_from t) as [s|]; [|done]. simpl.
    destruct (comparison_qualified t); [|done]. destruct (last_time t) as [last|]; [|done]. simpl.
    destruct (long_enough _ _ _) eqn:L; [|done]. intros [= <-]. exists last. simpl in M. by rewrite <- M.
  - destruct (play_grows more t) as (_ & new' & S' & _). by exists new'.
Qed.

(** ** A still picture is found *)

Definition near (base a : list Z) : Prop := Forall2 (fun x y => Z.abs (x - y) <= 6) base a.

Definition two_of {A} (P : A -> Prop) (a b c : A) : Prop := (P a /\ P b) \/ (P a /\ P c) \/ (P b /\ P c).

(** Of every three consecutive frames, two show the base picture but for noise. *)
Definition calm (base : list Z) (frames : list Frame) : Prop :=
  forall i f g h, frames !! i = Some f -> frames !! (i + 1)%nat = Some g -> frames !! (i + 2)%nat = Some h ->
    two_of (fun f => near base (luma f)) f g h.

Lemma medians_near base : forall a b c,
  length a = length base -> length b = length base -> length c = length base ->
  two_of (near base) a b c -> near base (medians a b c).
Proof.
  induction base as [|x base IH]; intros [|p a] [|q b] [|r c] Ha Hb Hc H; try done; [constructor|].
  simpl in *. injection Ha as Ha. injection Hb as Hb. injection Hc as Hc.
  assert (two_of (fun y => Z.abs (x - y) <= 6) p q r /\ two_of (near base) a b c) as [H1 H2].
  { unfold two_of, near in *. rewrite !Forall2_cons in H. tauto. }
  constructor; [|by apply IH]. unfold two_of, median3 in *. lia.
Qed.

Lemma near_same base a b : base <> [] -> near base a -> near base b -> same_luma a b = true.
Proof.
  intros Hb Ha Hb'. pose proof (Forall2_length _ _ _ Ha) as La. pose proof (Forall2_length _ _ _ Hb') as Lb.
  unfold same_luma. rewrite <- La, <- Lb, Nat.eqb_refl. apply andb_true_iff. split.
  - rewrite andb_true_r, negb_true_iff. apply bool_decide_eq_false. intros ->. by destruct base.
  - assert (List.filter far (combine a b) = []) as ->; [|done]. clear La Lb Hb.
    revert b Hb'. induction Ha as [|x y base a Hxy Ha IH]; intros b Hb'; inversion Hb'; subst; [done|].
    simpl. rewrite IH by done. unfold far. simpl.
    match goal with |- context [12 <? ?n] => destruct (Z.ltb_spec 12 n) end; [lia|done].
Qed.

Definition sized (base : list Z) (f : Frame) : Prop := length (luma f) = length base.

Lemma median_near base offset l :
  Forall (sized base) l -> calm base l -> (offset + 2 < length l)%nat -> near base (median offset l).
Proof.
  intros Hs Hc Hl. unfold median, luma_at. rewrite Forall_lookup in Hs.
  destruct (lookup_lt_is_Some_2 l offset ltac:(lia)) as [f Hf].
  destruct (lookup_lt_is_Some_2 l (offset + 1)%nat ltac:(lia)) as [g Hg].
  destruct (lookup_lt_is_Some_2 l (offset + 2)%nat ltac:(lia)) as [h Hh].
  rewrite Hf, Hg, Hh. apply medians_near; [exact (Hs _ _ Hf)|exact (Hs _ _ Hg)|exact (Hs _ _ Hh)|].
  exact (Hc _ _ _ _ Hf Hg Hh).
Qed.

Lemma calm_drop base n l : calm base l -> calm base (drop n l).
Proof.
  intros H i f g h. rewrite !lookup_drop. intros Hf Hg Hh.
  apply (H (n + i)%nat); [done| |]; by rewrite <- Nat.add_assoc.
Qed.

(** What the tracker knows after frames that show the base picture *)
Record watching (min : f64) (frames : list Frame) (t : StillTracker) : Prop := {
  w_min : min_seconds t = min;
  w_samples : samples t = drop (length frames - 5) frames;
  w_from : still_from t = fr_at <$> head frames;
  w_last : last_time t = fr_at <$> last frames;
  w_qualified : comparison_qualified t = (6 <=? length frames)%nat;
  w_spans : spans t = []
}.

Lemma push_watching min base frames f t :
  base <> [] -> Forall (sized base) (frames ++ [f]) -> calm base (frames ++ [f]) ->
  watching min frames t -> watching min (frames ++ [f]) (push (fr_at f) (luma f) t).
Proof.
  intros Hb Hs Hc [M S F L Q P]. unfold push. cbv zeta.
  assert (is_some_and (head (samples t)) (fun s => negb (length (luma s) =? length (luma f))%nat) = false) as ->.
  { rewrite S. destruct (drop _ frames) as [|s rest] eqn:E; [done|]. simpl. apply negb_false_iff, Nat.eqb_eq.
    apply Forall_app in Hs as [Hs Hf]. rewrite Forall_singleton in Hf.
    rewrite <- (take_drop (length frames - 5) frames), E in Hs. apply Forall_app in Hs as [_ Hs].
    apply Forall_cons in Hs as [Hs _]. unfold sized in *. congruence. }
  assert (samples t ++ [f] = drop (length frames - 5) (frames ++ [f])) as Hsam
    by (rewrite S, drop_app_le by lia; done).
  assert (match still_from t with Some start => start | None => fr_at f end
          = fr_at (default f (head (frames ++ [f])))) as Hfrom.
  { rewrite F. by destruct frames. }
  assert (Some (fr_at (default f (head (frames ++ [f])))) = fr_at <$> head (frames ++ [f])) as Hhead
    by (by destruct frames).
  replace {| fr_at := fr_at f; luma := luma f |} with f by (by destruct f).
  cbn [samples]. rewrite Hfrom, Hsam, length_drop, length_app. cbn [length].
  destruct (Nat.ltb_spec (length frames + 1 - (length frames - 5)) 6) as [Hlt|Hge].
  - assert (length frames < 5)%nat by lia.
    split; cbn [min_seconds samples still_from last_time comparison_qualified spans]; try done.
    + rewrite length_app. cbn [length]. f_equal. lia.
    + by rewrite last_snoc.
    + rewrite Q, length_app. cbn [length]. destruct (Nat.leb_spec 6 (length frames)), (Nat.leb_spec 6 (length frames + 1)); lia || done.
  - assert (5 <= length frames)%nat by lia.
    set (w := drop (length frames - 5) (frames ++ [f])).
    assert (length w = 6%nat) as Hw by (unfold w; rewrite length_drop, length_app; cbn [length]; lia).
    assert (Forall (sized base) w) as Hsw by (by apply Forall_drop).
    assert (calm base w) as Hcw by (by apply calm_drop).
    assert (near base (median 0 w)) as N0 by (apply median_near; [done|done|lia]).
    assert (near base (median 3 w)) as N3 by (apply median_near; [done|done|lia]).
    unfold compare_window. cbn [samples]. rewrite (near_same base _ _ Hb N0 N3). cbn [negb].
    assert (bool_decide (median 0 w = []) = false) as ->.
    { apply bool_decide_eq_false. intros E. rewrite E in N0. by inversion N0; subst. }
    split; cbn [drop_first min_seconds samples still_from last_time comparison_qualified spans]; try done.
    + unfold w. rewrite drop_drop, length_app. cbn [length]. f_equal. lia.
    + by rewrite last_snoc.
    + rewrite length_app. cbn [length]. destruct (Nat.leb_spec 6 (length frames + 1)); lia || done.
Qed.

Lemma calm_prefix base l k : calm base (l ++ k) -> calm base l.
Proof. intros H i f g h Hf Hg Hh. apply (H i); by apply lookup_app_l_Some. Qed.

Lemma pushes_watching min base frames :
  base <> [] -> Forall (sized base) frames -> calm base frames ->
  watching min frames (pushes frames (tracker_new min)).
Proof.
  intros Hb. induction frames as [|f frames IH] using rev_ind; intros Hs Hc; [done|].
  unfold pushes. rewrite fold_left_app. simpl. apply (push_watching min base); [done..|].
  apply IH; [by apply Forall_app in Hs as [? _]|by eapply calm_prefix].
Qed.

(** C30: A picture that stands still is reported from its first frame on. When at least six
    pictures of one size arrive, and of every three in a row at least two show the same picture
    but for noise of six levels per pixel, then nothing is reported too early, the still is
    reported as going on from the first picture as soon as it lasted long enough, and finishing
    reports exactly one span, from the first picture to that moment, if it is long enough. *)
Theorem still_picture_found min base frames first latest :
  base <> [] -> Forall (sized base) frames -> calm base frames -> (6 <= length frames)%nat ->
  head frames = Some first -> last frames = Some latest ->
  let t := pushes frames (tracker_new min) in
  let start := fr_at first in
  spans t = []
  /\ still_since t = (if long_enough min start (fr_at latest) then Some start else None)
  /\ forall at_, spans (finish at_ t)
       = if long_enough min start at_ then [{| start_seconds := start; end_seconds := at_ |}] else [].
Proof.
  intros Hb Hs Hc Hn Hh Hl t start. destruct (pushes_watching min base frames Hb Hs Hc) as [M S F L Q P].
  fold t in M, S, F, L, Q, P. rewrite Hh in F. rewrite Hl in L. simpl in F, L.
  apply Nat.leb_le in Hn. rewrite Hn in Q. split; [done|]. split.
  - unfold still_since. rewrite F, Q, L, M. done.
  - intros at_. unfold finish, forget, close. rewrite Q, F, M. cbn [opt_filter]. fold start.
    destruct (long_enough min start at_); cbn [spans]; by rewrite P.
Qed.
