(* ===== verification/Monitor.v ===== *)
(** * The monitor of a take

    [TakeMonitorCore] of [native/src/take_monitor.rs]: what is observed while a recording runs,
    its sound, pictures, frame statistics and events, and the summary of it.  Times are injected
    wall-clock milliseconds.  The flag a sample ticket shares with the monitor is a number, alive
    while it is in [live]; the identity of a history of pictures is a number too. *)
From Stdlib Require Import SpecFloat.
From coqutil Require Import Datatypes.RecordSettersUsingExistingGetters.
From S2P Require Import Prelude Json Number.
From S2P Require Stills.

Definition MAX_EVENTS : nat := 500.
Definition MAX_WARNINGS_PER_KIND : nat := 20.

Record MonitorOptions := {
  expect_silent : bool;
  silence_threshold_db : f64;
  sample_interval_ms : f64;
  stats_interval_ms : f64;
  still_after_seconds : f64
}.

Definition default_options : MonitorOptions :=
  {| expect_silent := false; silence_threshold_db := f64_of_Z (-60); sample_interval_ms := f64_of_Z 1000;
     stats_interval_ms := f64_of_Z 2000; still_after_seconds := f64_of_Z 3 |}.

Inductive WarningKind : Type := Audio | Blank | Frames_ | Output | Connection.
#[export] Instance WarningKind_eq_dec : EqDecision WarningKind.
Proof. solve_decision. Defined.

Record Warning := { wn_at : f64; wn_kind : WarningKind; wn_message : string }.
Record Event := { ev_at : f64; ev_type : string; ev_detail : option string }.
Record Chapter := { ch_at : f64; ch_name : string }.
Record InputLevel := { input_name : string; peak_db : f64; input_peak_db : f64; recorded : bool }.
Record Frames := { render_skipped : f64; render_total : f64; output_skipped : f64; output_total : f64 }.

Inductive Phase : Type := Starting | Running | Stopping | Stopped.
#[export] Instance Phase_eq_dec : EqDecision Phase.
Proof. solve_decision. Defined.

Inductive SampleKind : Type := Stats | Picture.
#[export] Instance SampleKind_eq_dec : EqDecision SampleKind.
Proof. solve_decision. Defined.

Record SampleTicket := { t_owner : nat; t_history : nat; t_active : nat; t_kind : SampleKind }.

Inductive SampleObservation : Type := ObsStats (stats : Value) | ObsPicture (luma : list Z) | ObsFailed.
Inductive CleanupError : Type := NotStopping | SamplesPending.

(** [TakeMonitorCore]; [resources] tells whether a publisher is bound, and [notified] how often
    it was told that the take changed. [busy_stats] and [busy_picture] are the two slots. *)
Record Core := {
  options : MonitorOptions;
  started_at_ms : Z;
  started_at : string;
  stopped_at_ms : option Z;
  phase : Phase;
  stop_expected : bool;
  warnings : list Warning;
  resources : bool;
  notified : Z;
  events : list Event;
  chapters : list Chapter;
  levels : list InputLevel;
  audible_now : gset string;
  input_tracks : gmap string (list (string * Value));
  record_tracks : list Z;
  frames : Frames;
  last_stats : option Value;
  last_render_warning_ms : option Z;
  last_output_warning_ms : option Z;
  stills : list Stills.Span;
  blanks : list Stills.Span;
  tracker : Stills.StillTracker;
  blank_since : option f64;
  blank_run : Z;
  frames_sampled : Z;
  picture_checks : bool;
  program_scene : option string;
  recording_path : option string;
  paused_ms : f64;
  paused_since : option Z;
  sample_owner : nat;
  picture_history : nat;
  busy_stats : option nat;
  busy_picture : option nat;
  live : gset nat;
  next_flag : nat
}.

Definition monitor_new (owner : nat) (start_ms : Z) (start : string) (opts : MonitorOptions) : Core :=
  {| options := opts; started_at_ms := start_ms; started_at := start; stopped_at_ms := None;
     phase := Starting; stop_expected := false; warnings := []; resources := false; notified := 0;
     events := []; chapters := []; levels := []; audible_now := ∅; input_tracks := ∅; record_tracks := [1];
     frames := {| render_skipped := f64_zero; render_total := f64_zero; output_skipped := f64_zero;
                  output_total := f64_zero |};
     last_stats := None; last_render_warning_ms := None; last_output_warning_ms := None;
     stills := []; blanks := []; tracker := Stills.tracker_new (still_after_seconds opts);
     blank_since := None; blank_run := 0; frames_sampled := 0; picture_checks := false;
     program_scene := None; recording_path := None; paused_ms := f64_zero; paused_since := None;
     sample_owner := owner; picture_history := 0; busy_stats := None; busy_picture := None;
     live := ∅; next_flag := 0 |}.

(** Seconds since the start without the pauses; frozen when the stop began *)
Definition now (m : Core) (now_ms : Z) : f64 :=
  let end_ := f64_of_Z (default now_ms (stopped_at_ms m)) in
  let paused := f64_add (paused_ms m)
    (match paused_since m with Some start => f64_sub end_ (f64_of_Z start) | None => f64_zero end) in
  round (f64_div (f64_sub (f64_sub end_ (f64_of_Z (started_at_ms m))) paused) (f64_of_Z 1000)).

Definition is_paused (m : Core) : bool := negb (is_none (paused_since m)).

Definition listening (m : Core) : bool := match phase m with Starting | Running => true | _ => false end.

Definition resource_changed (m : Core) : Core := if resources m then m <| notified ::= Z.add 1 |> else m.

Definition bind_resource_events (publisher : bool) (m : Core) : Core := m <| resources := publisher |>.

Definition log (now_ms : Z) (event : string) (detail : option string) (m : Core) : Core :=
  if (length (events m) <? MAX_EVENTS)%nat then
    m <| events := events m ++ [{| ev_at := now m now_ms; ev_type := event;
                                  ev_detail := opt_filter (fun d => negb (str_is_empty d)) detail |}] |>
  else m.

Definition warn (now_ms : Z) (kind : WarningKind) (message : string) (m : Core) : Core :=
  if (length (List.filter (fun w => bool_decide (wn_kind w = kind)) (warnings m)) <? MAX_WARNINGS_PER_KIND)%nat then
    resource_changed
      (m <| warnings := warnings m ++ [{| wn_at := now m now_ms; wn_kind := kind; wn_message := message |}] |>)
  else m.

Definition rounded (s : Stills.Span) : Stills.Span :=
  {| Stills.start_seconds := round (Stills.start_seconds s); Stills.end_seconds := round (Stills.end_seconds s) |}.

Definition close_still (at_ : f64) (m : Core) : Core :=
  m <| picture_history ::= S |>
    <| stills := stills m ++ map rounded (Stills.spans (Stills.finish at_ (tracker m))) |>
    <| tracker := Stills.tracker_new (still_after_seconds (options m)) |>.

Definition close_blank (at_ : f64) (m : Core) : Core :=
  match blank_since m with
  | Some start =>
      m <| blank_since := None |>
        <| blanks := blanks m ++ [{| Stills.start_seconds := start; Stills.end_seconds := at_ |}] |>
  | None => m
  end.

(** ** Set-up and stop *)

Definition load_tracks (tracks : list Z) (inputs : gmap string (list (string * Value))) (m : Core) : Core :=
  if listening m then m <| record_tracks := tracks |> <| input_tracks := inputs ∪ input_tracks m |> else m.

Definition tracks_unknown (now_ms : Z) (message : string) (m : Core) : Core :=
  if listening m then log now_ms "tracks-unknown" (Some message) m else m.

Definition load_program_scene (response : Value) (m : Core) : Core :=
  if listening m then
    m <| program_scene :=
           or_else (opt_filter (fun v => negb (is_null v)) (get "currentProgramSceneName" response))
                   (get "sceneName" response) >>? as_str |>
  else m.

Definition complete_setup (now_ms : Z) (supports_ppm : bool) (m : Core) : bool * Core :=
  if negb (bool_decide (phase m = Starting)) then (false, m)
  else
    let m := m <| phase := Running |> <| picture_checks := supports_ppm |> in
    let m := if supports_ppm then m
             else log now_ms "picture-checks-off" (Some "OBS cannot return PPM screenshots"%string) m in
    (true, resource_changed m).

Definition mark (now_ms : Z) (name : string) (m : Core) : Core :=
  resource_changed (m <| chapters := chapters m ++ [{| ch_at := now m now_ms; ch_name := name |}] |>).

Definition expect_stop (m : Core) : Core := m <| stop_expected := true |>.

(** The token is the expectation it replaces. *)
Definition begin_stop_expectation (m : Core) : bool * Core := (stop_expected m, m <| stop_expected := true |>).

Definition rollback_stop_expectation (previous : bool) (m : Core) : Core := m <| stop_expected := previous |>.

Definition begin_stop (now_ms : Z) (m : Core) : bool * Core :=
  match stopped_at_ms m with
  | Some _ => (false, m)
  | None => (true, m <| stopped_at_ms := Some now_ms |> <| stop_expected := true |> <| phase := Stopping |>)
  end.

(** A slot whose flag is alive and set *)
Definition flag_set (slot : option nat) (m : Core) : bool := is_some_and slot (fun f => bool_decide (f ∈ live m)).

Definition samples_pending (m : Core) : bool := flag_set (busy_stats m) m || flag_set (busy_picture m) m.

Definition finish_cleanup (m : Core) : result CleanupError unit * Core :=
  match phase m, stopped_at_ms m with
  | Stopped, _ => (Ok tt, m)
  | Stopping, Some stopped =>
      if samples_pending m then (Err SamplesPending, m)
      else
        let end_ := now m stopped in
        (Ok tt, resource_changed ((close_blank end_ (close_still end_ m)) <| phase := Stopped |>))
  | _, _ => (Err NotStopping, m)
  end.

(** ** Samples *)

Definition begin_sample (kind : SampleKind) (m : Core) : option SampleTicket * Core :=
  if negb (bool_decide (phase m = Running))
     || (bool_decide (kind = Picture)
         && (negb (picture_checks m) || is_none_or (program_scene m) str_is_empty || is_paused m))
  then (None, m)
  else
    let slot := match kind with Stats => busy_stats m | Picture => busy_picture m end in
    if flag_set slot m then (None, m)
    else
      let flag := next_flag m in
      let m := m <| next_flag := S flag |> <| live := {[flag]} ∪ live m |> in
      (Some {| t_owner := sample_owner m; t_history := picture_history m; t_active := flag; t_kind := kind |},
       match kind with Stats => m <| busy_stats := Some flag |> | Picture => m <| busy_picture := Some flag |> end).

Definition drop_ticket (t : SampleTicket) (m : Core) : Core := m <| live := live m ∖ {[t_active t]} |>.

(** ** Observations *)

Section Observations.
Context {Lib : F64Library}.

Definition delta (stats previous : Value) (name : string) : f64 :=
  js_max f64_zero (f64_sub (js_number (get name stats)) (js_number (get name previous))).

(** [now_ms - last < 10_000] *)
Definition recent (now_ms : Z) (last : option Z) : bool :=
  is_some_and last (fun last => f64_ltb (f64_sub (f64_of_Z now_ms) (f64_of_Z last)) (f64_of_Z 10000)).

Definition observe_stats (now_ms : Z) (stats : Value) (m : Core) : Core :=
  if bool_decide (phase m = Stopped) then m
  else
    let before := last_stats m in
    let m := m <| last_stats := Some stats |> in
    match before with
    | None => m
    | Some previous =>
        if negb (truthy (Some previous)) || is_null stats then m
        else
          let delta := delta stats previous in
          let render := delta "renderSkippedFrames" in
          let output := delta "outputSkippedFrames" in
          let f := frames m in
          let m := m <| frames :=
            {| render_skipped := f64_add (render_skipped f) render;
               render_total := f64_add (render_total f) (delta "renderTotalFrames");
               output_skipped := f64_add (output_skipped f) output;
               output_total := f64_add (output_total f) (delta "outputTotalFrames") |} |> in
          let m :=
            if f64_eqb render f64_zero || recent now_ms (last_render_warning_ms m) then m
            else warn now_ms Frames_ ("OBS missed " +:+ number_string render
                   +:+ " frame(s) while rendering; the GPU or CPU is overloaded")
                   (m <| last_render_warning_ms := Some now_ms |>) in
          if f64_eqb output f64_zero || recent now_ms (last_output_warning_ms m) then m
          else warn now_ms Frames_ ("The encoder skipped " +:+ number_string output
                 +:+ " frame(s); lower the encoder preset or resolution")
                 (m <| last_output_warning_ms := Some now_ms |>)
    end.

Definition observe_picture (now_ms : Z) (luma : list Z) (m : Core) : Core :=
  if negb (is_none (stopped_at_ms m)) || is_paused m then m
  else
    let at_ := now m now_ms in
    let m := m <| frames_sampled ::= fun n => saturating_add n 1 |> in
    let m :=
      if forallb (fun value => value <? 16) luma then
        let m := m <| blank_run ::= fun n => saturating_add n 1 |> in
        if blank_run m =? 2 then
          warn now_ms Blank ("The program output (" +:+ default "null"%string (program_scene m)
            +:+ ") is black. A capture may have lost its window or screen recording permission")
            (m <| blank_since := Some (round (f64_sub at_ (f64_div (sample_interval_ms (options m)) (f64_of_Z 1000)))) |>)
        else m
      else close_blank at_ (m <| blank_run := 0 |>) in
    m <| tracker := Stills.push at_ luma (tracker m) |>.

(** The ticket is consumed, whatever the outcome. *)
Definition finish_sample (t : SampleTicket) (now_ms : Z) (o : SampleObservation) (m : Core) : bool * Core :=
  let admitted := (sample_owner m =? t_owner t)%nat && bool_decide (t_active t ∈ live m)
                  && negb (bool_decide (t_kind t = Picture) && negb (picture_history m =? t_history t)%nat) in
  let m := drop_ticket t m in
  if negb admitted then (false, m)
  else match t_kind t, o with
  | Stats, ObsStats stats => (true, observe_stats now_ms stats m)
  | Picture, ObsPicture luma => (true, observe_picture now_ms luma m)
  | _, ObsFailed => (true, m)
  | _, _ => (false, m)
  end.

Definition on_disconnect (now_ms : Z) (m : Core) : Core :=
  if listening m then
    warn now_ms Connection "Lost the connection to OBS; checks paused until it reconnects" m
  else m.

(** ** Sound *)

Definition channel_level (channel : list Value) (i : nat) : f64 :=
  let n := js_number (channel !! i) in
  if is_nan n || f64_eqb n f64_zero then f64_zero else n.

(** The louder of what was heard and of what came in, over the channels *)
Definition peaks (channels : list Value) : f64 * f64 :=
  fold_left (fun '(peak, input_peak) channel =>
    (js_max peak (channel_level channel 1), js_max input_peak (channel_level channel 2)))
    (omap as_array channels) (f64_zero, f64_zero).

Definition is_recorded (name : string) (m : Core) : bool :=
  is_none_or (input_tracks m !! name) (fun tracks =>
    existsb (fun track => is_some_and (field (decimal_text track) tracks)
                            (fun v => value_eqb v (Bool true))) (record_tracks m)).

Definition set_level (name : string) (peak input_peak : f64) (rec : bool) (ls : list InputLevel) : list InputLevel :=
  match position (fun l => str_eqb (input_name l) name) ls with
  | Some i =>
      alter (fun l => {| input_name := input_name l; peak_db := js_max (peak_db l) peak;
                         input_peak_db := js_max (input_peak_db l) input_peak; recorded := rec |}) i ls
  | None => ls ++ [{| input_name := name; peak_db := peak; input_peak_db := input_peak; recorded := rec |}]
  end.

Definition observe_input (now_ms : Z) (m : Core) (input : Value) : Core :=
  match get "inputName" input >>? as_str, get "inputLevelsMul" input >>? as_array with
  | Some name, Some channels =>
      let '(peak, input_peak) := peaks channels in
      let rec := is_recorded name m in
      let peak_db := to_db peak in
      let m := m <| levels := set_level name peak_db (to_db input_peak) rec (levels m) |> in
      let audible := rec && f64_ltb (silence_threshold_db (options m)) peak_db in
      if audible && negb (bool_decide (name ∈ audible_now m)) then
        let m := m <| audible_now := {[name]} ∪ audible_now m |> in
        let m := log now_ms "audio-start"
                   (Some (name +:+ " at " +:+ number_string peak_db +:+ " dB")) m in
        if expect_silent (options m) then
          warn now_ms Audio (name +:+ " is audible in the recording at " +:+ number_string peak_db
            +:+ " dB (expected silence). Mute it or clear its recorded tracks") m
        else m
      else if negb audible && bool_decide (name ∈ audible_now m) then
        log now_ms "audio-end" (Some name) (m <| audible_now := audible_now m ∖ {[name]} |>)
      else m
  | _, _ => m
  end.

Definition on_meters (now_ms : Z) (data : Value) (m : Core) : Core :=
  if negb (is_none (stopped_at_ms m)) || is_paused m then m
  else match get "inputs" data >>? as_array with
  | None => m
  | Some inputs => fold_left (observe_input now_ms) inputs m
  end.

(** ** Events *)

Definition tracks_changed (data : Value) (m : Core) : Core :=
  match get "inputName" data >>? as_str, get "inputAudioTracks" data >>? as_object with
  | Some name, Some tracks => m <| input_tracks := <[name := tracks]> (input_tracks m) |>
  | _, _ => m
  end.

Definition scene_changed (now_ms : Z) (data : Value) (m : Core) : Core :=
  let m := match get "sceneName" data >>? as_str with
           | Some name => m <| program_scene := Some name |>
           | None => m
           end in
  close_still (now m now_ms) m.

Definition output_state (data : Value) : option string := get "outputState" data >>? as_str.

Definition paused_or_resumed (now_ms : Z) (data : Value) (m : Core) : Core :=
  match output_state data with
  | Some state =>
      if str_eqb state "OBS_WEBSOCKET_OUTPUT_PAUSED" then
        if is_none (paused_since m) then (close_still (now m now_ms) m) <| paused_since := Some now_ms |> else m
      else if str_eqb state "OBS_WEBSOCKET_OUTPUT_RESUMED" then
        match paused_since m with
        | Some since =>
            m <| paused_since := None |>
              <| paused_ms ::= fun p => f64_add p (f64_sub (f64_of_Z now_ms) (f64_of_Z since)) |>
        | None => m
        end
      else m
  | None => m
  end.

(** Whether the recording is over, by its event *)
Definition output_stopped (data : Value) : bool :=
  match get "outputActive" data with Some (Bool false) => true | _ => false end
  && is_some_and (output_state data) (fun s => str_eqb s "OBS_WEBSOCKET_OUTPUT_STOPPED").

Definition record_state_changed (now_ms : Z) (data : Value) (m : Core) : Core :=
  let m := match opt_filter (fun s => negb (str_is_empty s)) (get "outputPath" data >>? as_str) with
           | Some path => m <| recording_path := Some path |>
           | None => m
           end in
  let m := paused_or_resumed now_ms data m in
  if output_stopped data && negb (stop_expected m) then
    warn now_ms Output "The recording stopped before it was asked to" m
  else m.

Definition on_event (now_ms : Z) (event : string) (data : Value) (m : Core) : Core :=
  if negb (listening m) then m
  else if str_eqb event "InputVolumeMeters" then on_meters now_ms data m
  else
    let done (detail : string) (m : Core) := log now_ms event (Some detail) m in
    if str_eqb event "InputAudioTracksChanged" then
      done (string_or_empty (get "inputName" data)) (tracks_changed data m)
    else if str_eqb event "CurrentProgramSceneChanged" then
      done (string_or_empty (get "sceneName" data)) (scene_changed now_ms data m)
    else if str_eqb event "RecordStateChanged" then
      done (string_or_empty (get "outputState" data)) (record_state_changed now_ms data m)
    else if str_eqb event "StreamStateChanged" then done (string_or_empty (get "outputState" data)) m
    else if str_eqb event "RecordFileChanged" then done (string_or_empty (get "newOutputPath" data)) m
    else if str_eqb event "SceneItemEnableStateChanged" then
      done (js_string (get "sceneName" data) +:+ " #" +:+ js_string (get "sceneItemId" data) +:+ " "
            +:+ (if truthy (get "sceneItemEnabled" data) then "shown" else "hidden")) m
    else if str_eqb event "InputMuteStateChanged" then
      done (js_string (get "inputName" data) +:+ " "
            +:+ (if truthy (get "inputMuted" data) then "muted" else "unmuted")) m
    else m.

(** ** The summary *)

Record Summary := {
  running : bool;
  sm_started_at : string;
  duration_seconds : f64;
  sm_expect_silent : bool;
  sm_silence_threshold_db : f64;
  sm_warnings : list Warning;
  sm_events : list Event;
  sm_chapters : list Chapter;
  sm_audio : list InputLevel;
  sm_frames : Frames;
  sm_stills : list Stills.Span;
  sm_blanks : list Stills.Span;
  sm_frames_sampled : Z;
  sm_picture_checks : string
}.

(** Louder inputs first; equal when the levels do not compare *)
Definition louder_first (a b : InputLevel) : comparison :=
  match SFcompare (peak_db b) (peak_db a) with Some c => c | None => Eq end.

Definition summary (now_ms : Z) (m : Core) : Summary :=
  let going := is_none (stopped_at_ms m) in
  let open_ (start : option f64) :=
    match start with
    | Some start => if going then [{| Stills.start_seconds := start; Stills.end_seconds := now m now_ms |}] else []
    | None => []
    end in
  {| running := going; sm_started_at := started_at m; duration_seconds := now m now_ms;
     sm_expect_silent := expect_silent (options m);
     sm_silence_threshold_db := silence_threshold_db (options m);
     sm_warnings := warnings m; sm_events := events m; sm_chapters := chapters m;
     sm_audio := sort_by louder_first (levels m);
     sm_frames := frames m;
     sm_stills := stills m ++ map rounded (Stills.spans (tracker m)) ++ open_ (Stills.still_since (tracker m));
     sm_blanks := blanks m ++ open_ (blank_since m);
     sm_frames_sampled := frames_sampled m;
     sm_picture_checks := if picture_checks m then "on" else "off" |}.

(** ** Runs *)

Inductive op : Type :=
| BindResourceEvents (publisher : bool)
| LoadTracks (tracks : list Z) (inputs : gmap string (list (string * Value)))
| TracksUnknown (now_ms : Z) (message : string)
| LoadProgramScene (response : Value)
| CompleteSetup (now_ms : Z) (supports_ppm : bool)
| Mark (now_ms : Z) (name : string)
| ExpectStop
| BeginStopExpectation
| RollbackStopExpectation (previous : bool)
| BeginStop (now_ms : Z)
| FinishCleanup
| BeginSample (kind : SampleKind)
| FinishSample (k : nat) (now_ms : Z) (o : SampleObservation)
| DropTicket (k : nat)
| OnDisconnect (now_ms : Z)
| OnEvent (now_ms : Z) (event : string) (data : Value)
| ObserveStats (now_ms : Z) (stats : Value)
| ObservePicture (now_ms : Z) (luma : list Z).

(** A monitor and the tickets its sample tasks hold *)
Record World := { core : Core; tickets : list SampleTicket }.

Definition with_core (m : Core) (w : World) : World := {| core := m; tickets := tickets w |}.

Definition step (o : op) (w : World) : World :=
  let m := core w in
  match o with
  | BindResourceEvents publisher => with_core (bind_resource_events publisher m) w
  | LoadTracks tracks inputs => with_core (load_tracks tracks inputs m) w
  | TracksUnknown now_ms message => with_core (tracks_unknown now_ms message m) w
  | LoadProgramScene response => with_core (load_program_scene response m) w
  | CompleteSetup now_ms ppm => with_core (snd (complete_setup now_ms ppm m)) w
  | Mark now_ms name => with_core (mark now_ms name m) w
  | ExpectStop => with_core (expect_stop m) w
  | BeginStopExpectation => with_core (snd (begin_stop_expectation m)) w
  | RollbackStopExpectation previous => with_core (rollback_stop_expectation previous m) w
  | BeginStop now_ms => with_core (snd (begin_stop now_ms m)) w
  | FinishCleanup => with_core (snd (finish_cleanup m)) w
  | BeginSample kind =>
      match begin_sample kind m with
      | (Some t, m) => {| core := m; tickets := tickets w ++ [t] |}
      | (None, m) => with_core m w
      end
  | FinishSample k now_ms o =>
      match tickets w !! k with
      | Some t => {| core := snd (finish_sample t now_ms o m); tickets := delete k (tickets w) |}
      | None => w
      end
  | DropTicket k =>
      match tickets w !! k with
      | Some t => {| core := drop_ticket t m; tickets := delete k (tickets w) |}
      | None => w
      end
  | OnDisconnect now_ms => with_core (on_disconnect now_ms m) w
  | OnEvent now_ms event data => with_core (on_event now_ms event data m) w
  | ObserveStats now_ms stats => with_core (observe_stats now_ms stats m) w
  | ObservePicture now_ms luma => with_core (observe_picture now_ms luma m) w
  end.

Definition play (ops : list op) (w : World) : World := fold_left (fun w o => step o w) ops w.

Definition start (owner : nat) (start_ms : Z) (started : string) (opts : MonitorOptions) : World :=
  {| core := monitor_new owner start_ms started opts; tickets := [] |}.

(** ** What the observations may change *)

Definition count_kind (kind : WarningKind) (ws : list Warning) : nat :=
  length (List.filter (fun w => bool_decide (wn_kind w = kind)) ws).

Record core_ok (m : Core) : Prop := {
  ok_events : (length (events m) <= MAX_EVENTS)%nat;
  ok_warnings : forall kind, (count_kind kind (warnings m) <= MAX_WARNINGS_PER_KIND)%nat;
  ok_samples : (length (Stills.samples (tracker m)) <= 5)%nat;
  ok_levels : NoDup (map input_name (levels m))
}.

Definition config (m : Core) := (options m, started_at_ms m, started_at m).
Definition life (m : Core) := (stopped_at_ms m, phase m, stop_expected m).
Definition flags (m : Core) := (sample_owner m, busy_stats m, busy_picture m, live m, next_flag m).

(** Nothing but observations, and warnings of the kinds [ks] only *)
Record quiet (ks : list WarningKind) (m m' : Core) : Prop := {
  q_config : config m' = config m;
  q_life : life m' = life m;
  q_flags : flags m' = flags m;
  q_history : (picture_history m <= picture_history m')%nat;
  q_warnings : exists ws, warnings m' = warnings m ++ ws /\ Forall (fun w => wn_kind w ∈ ks) ws;
  q_ok : core_ok m -> core_ok m'
}.

Lemma quiet_refl ks m : quiet ks m m.
Proof. split; try done. exists []. by rewrite app_nil_r. Qed.

Lemma quiet_trans ks m1 m2 m3 : quiet ks m1 m2 -> quiet ks m2 m3 -> quiet ks m1 m3.
Proof.
  intros [C L F H (ws & W & K) O] [C' L' F' H' (ws' & W' & K') O'].
  split; [congruence|congruence|congruence|lia| |auto].
  exists (ws ++ ws'). rewrite W', W, app_assoc. split; [done|]. by apply Forall_app.
Qed.

(** Changing what the invariant and the frame do not speak of *)
Lemma quiet_same ks m m' :
  config m' = config m -> life m' = life m -> flags m' = flags m ->
  (picture_history m <= picture_history m')%nat -> warnings m' = warnings m -> events m' = events m ->
  Stills.samples (tracker m') = Stills.samples (tracker m) -> levels m' = levels m -> quiet ks m m'.
Proof.
  intros C L F H W E S V. split; try done; [exists []; by rewrite app_nil_r|].
  intros [? ? ? ?]. split; by rewrite ?E, ?W, ?S, ?V.
Qed.

Ltac simpl_set := simpl; unfold RecordSettersUsingExistingGetters.const.

Ltac quiet_set := apply quiet_same; try done; simpl_set; lia.

Lemma resource_changed_quiet ks m : quiet ks m (resource_changed m).
Proof. unfold resource_changed. destruct (resources m); [quiet_set|apply quiet_refl]. Qed.

Lemma log_quiet ks now_ms event detail m : quiet ks m (log now_ms event detail m).
Proof.
  unfold log. destruct (Nat.ltb_spec (length (events m)) MAX_EVENTS) as [Hl|]; [|apply quiet_refl].
  split; try done; [exists []; by rewrite app_nil_r|]. intros [H1 H2 H3 H4]. split; try done.
  simpl_set. rewrite length_app. simpl. lia.
Qed.

Lemma count_kind_app kind l k : count_kind kind (l ++ k) = (count_kind kind l + count_kind kind k)%nat.
Proof. unfold count_kind. by rewrite List.filter_app, length_app. Qed.

Lemma warn_quiet ks now_ms kind message m : kind ∈ ks -> quiet ks m (warn now_ms kind message m).
Proof.
  intros Hk. unfold warn. fold (count_kind kind (warnings m)).
  destruct (Nat.ltb_spec (count_kind kind (warnings m)) MAX_WARNINGS_PER_KIND) as [Hl|]; [|apply quiet_refl].
  eapply quiet_trans; [|apply resource_changed_quiet]. split; try done.
  - eexists. split; [done|]. by constructor.
  - intros [H1 H2 H3 H4]. split; try done. intros k. simpl_set. rewrite count_kind_app. unfold count_kind at 2.
    simpl. case_bool_decide as E; simpl; [|specialize (H2 k); lia]. rewrite <- E. lia.
Qed.

Lemma warn_after ks now_ms kind message m m' :
  kind ∈ ks -> quiet ks m m' -> quiet ks m (warn now_ms kind message m').
Proof. intros Hk H. eapply quiet_trans; [exact H|]. by apply warn_quiet. Qed.

Lemma close_still_quiet ks at_ m : quiet ks m (close_still at_ m).
Proof.
  split; try done; [simpl_set; lia|exists []; by rewrite app_nil_r|]. intros [? ? ? ?]. split; try done.
  simpl_set. simpl. lia.
Qed.

Lemma close_blank_quiet ks at_ m : quiet ks m (close_blank at_ m).
Proof. unfold close_blank. destruct (blank_since m); [quiet_set|apply quiet_refl]. Qed.

Lemma push_samples at_ luma t :
  (length (Stills.samples t) <= 5)%nat -> (length (Stills.samples (Stills.push at_ luma t)) <= 5)%nat.
Proof.
  intros H. unfold Stills.push. cbv zeta.
  match goal with |- context [Stills.samples (if ?c then ?a else t)] => set (u := if c then a else t) end.
  assert (length (Stills.samples u) <= 5)%nat as Hu by (unfold u; destruct (is_some_and _ _); simpl; lia).
  cbn [Stills.samples]. rewrite length_app. cbn [length].
  destruct (Nat.ltb_spec (length (Stills.samples u) + 1) 6).
  - cbn [Stills.samples]. rewrite length_app. cbn [length]. lia.
  - unfold Stills.drop_first. cbn [Stills.samples]. rewrite length_drop.
    match goal with |- (length (Stills.samples (Stills.compare_window ?v)) - 1 <= 5)%nat =>
      assert (Stills.samples (Stills.compare_window v) = Stills.samples v) as -> end.
    { unfold Stills.compare_window. destruct (negb _); [|done]. cbn [Stills.samples].
      unfold Stills.close, Stills.qualify. repeat case_match; done. }
    cbn [Stills.samples]. rewrite length_app. cbn [length]. lia.
Qed.

Lemma push_quiet ks at_ luma m : quiet ks m (m <| tracker := Stills.push at_ luma (tracker m) |>).
Proof.
  split; try done; [exists []; by rewrite app_nil_r|]. intros [? ? ? ?]. split; try done. by apply push_samples.
Qed.

Lemma set_level_names name peak input_peak rec ls :
  NoDup (map input_name ls) -> NoDup (map input_name (set_level name peak input_peak rec ls)).
Proof.
  intros H. unfold set_level. destruct (position _ ls) as [i|] eqn:E.
  - assert (forall f i, (forall l, input_name (f l) = input_name l) ->
      map input_name (alter f i ls) = map input_name ls) as ->; [|done|done].
    clear. intros f i Hf. revert i. induction ls as [|l ls IH]; intros [|i]; simpl; [done|done|by rewrite Hf|].
    change (input_name l :: map input_name (alter f i ls) = input_name l :: map input_name ls). by rewrite IH.
  - rewrite map_app. apply NoDup_app. split; [done|]. split; [|apply NoDup_singleton].
    intros n Hn Hx. apply list_elem_of_singleton in Hx. subst n.
    apply list_elem_of_In, in_map_iff in Hn as (l & El & Hl). apply position_None in E.
    rewrite forallb_forall in E. specialize (E l Hl). simpl in E, El. by rewrite El, str_eqb_refl in E.
Qed.

Lemma observe_input_quiet now_ms m input : quiet [Audio] m (observe_input now_ms m input).
Proof.
  unfold observe_input. destruct (_ >>? as_str) as [name|]; [|apply quiet_refl].
  destruct (_ >>? as_array) as [channels|]; [|apply quiet_refl].
  destruct (peaks channels) as [peak input_peak]. cbv zeta.
  match goal with |- context [options ?m1] =>
    match m1 with _ <| levels := _ |> => set (m1' := m1); assert (quiet [Audio] m m1') as H1 end end.
  { split; try done; [exists []; by rewrite app_nil_r|]. intros [? ? ? ?]. split; try done. by apply set_level_names. }
  destruct (_ && negb _).
  - set (m2 := m1' <| audible_now := {[name]} ∪ audible_now m1' |>).
    assert (quiet [Audio] m1' m2) as H2 by quiet_set.
    set (m3 := log _ _ _ m2). assert (quiet [Audio] m2 m3) as H3 by apply log_quiet.
    assert (quiet [Audio] m m3) as H by (eapply quiet_trans; [exact H1|]; by eapply quiet_trans).
    destruct (expect_silent (options m3)); [|done]. apply warn_after; [by left|done].
  - destruct (_ && _); [|done]. eapply quiet_trans; [exact H1|]. eapply quiet_trans; [|apply log_quiet]. quiet_set.
Qed.

Lemma on_meters_quiet now_ms data m : quiet [Audio] m (on_meters now_ms data m).
Proof.
  unfold on_meters. destruct (_ || _); [apply quiet_refl|]. destruct (_ >>? as_array) as [inputs|]; [|apply quiet_refl].
  revert m. induction inputs as [|input inputs IH]; intros m; [apply quiet_refl|]. simpl.
  eapply quiet_trans; [apply observe_input_quiet|apply IH].
Qed.

Lemma observe_stats_quiet now_ms stats m : quiet [Frames_] m (observe_stats now_ms stats m).
Proof.
  unfold observe_stats. case_bool_decide; [apply quiet_refl|]. cbv zeta.
  destruct (last_stats m) as [previous|]; [|quiet_set]. destruct (_ || _); [quiet_set|].
  match goal with |- quiet _ _ (if ?c then ?a else ?b) => set (m2 := a) end.
  assert (quiet [Frames_] m m2) as H2.
  { unfold m2. destruct (_ || _); [quiet_set|]. apply warn_after; [by left|quiet_set]. }
  clearbody m2. destruct (_ || _); [exact H2|]. eapply quiet_trans; [exact H2|].
  apply warn_after; [by left|quiet_set].
Qed.

Lemma observe_picture_quiet now_ms luma m : quiet [Blank] m (observe_picture now_ms luma m).
Proof.
  unfold observe_picture. destruct (_ || _); [apply quiet_refl|]. cbv zeta.
  eapply quiet_trans; [|apply push_quiet]. destruct (forallb _ luma).
  - destruct (_ =? 2); [|quiet_set]. apply warn_after; [by left|quiet_set].
  - eapply quiet_trans; [|apply close_blank_quiet]. quiet_set.
Qed.

(** The event of a recording that ended without having been asked to *)
Definition unexpected_stop (event : string) (data : Value) (m : Core) : bool :=
  str_eqb event "RecordStateChanged" && output_stopped data && negb (stop_expected m).

Lemma paused_or_resumed_quiet ks now_ms data m : quiet ks m (paused_or_resumed now_ms data m).
Proof.
  unfold paused_or_resumed. destruct (output_state data) as [state|]; [|apply quiet_refl].
  destruct (str_eqb state _).
  - destruct (is_none _); [|apply quiet_refl].
    apply (quiet_trans _ _ (close_still (now m now_ms) m)); [apply close_still_quiet|quiet_set].
  - destruct (str_eqb state _); [|apply quiet_refl]. destruct (paused_since m); [quiet_set|apply quiet_refl].
Qed.

Lemma stop_expected_quiet ks m m' : quiet ks m m' -> stop_expected m' = stop_expected m.
Proof. intros [_ L _ _ _ _]. by injection L. Qed.

Lemma record_state_quiet ks now_ms data m :
  (output_stopped data = true -> stop_expected m = false -> Output ∈ ks) ->
  quiet ks m (record_state_changed now_ms data m).
Proof.
  intros Hk. unfold record_state_changed. cbv zeta.
  match goal with |- context [paused_or_resumed now_ms data ?m1] => set (m1' := m1); assert (quiet ks m m1') as H1 end.
  { unfold m1'. destruct (opt_filter _ _); [quiet_set|apply quiet_refl]. }
  assert (quiet ks m (paused_or_resumed now_ms data m1')) as H2
    by (eapply quiet_trans; [exact H1|apply paused_or_resumed_quiet]).
  rewrite (stop_expected_quiet _ _ _ H2). destruct (output_stopped data), (stop_expected m); try exact H2.
  apply warn_after; [by apply Hk|exact H2].
Qed.

Lemma on_event_quiet ks now_ms event data m :
  Audio ∈ ks -> (unexpected_stop event data m = true -> Output ∈ ks) -> quiet ks m (on_event now_ms event data m).
Proof.
  intros Ha Ho. unfold on_event. destruct (negb (listening m)); [apply quiet_refl|].
  destruct (str_eqb event "InputVolumeMeters").
  { destruct (on_meters_quiet now_ms data m) as [? ? ? ? (ws & E & F) ?]. split; try done. exists ws.
    split; [done|]. eapply Forall_impl; [exact F|]. simpl. by intros w ->%list_elem_of_singleton. }
  cbv zeta. repeat (match goal with |- quiet _ _ (if ?c then _ else _) => destruct c eqn:? end).
  all: try apply log_quiet; try apply quiet_refl; (eapply quiet_trans; [|apply log_quiet]).
  - unfold tracks_changed. destruct (get "inputName" data >>? as_str), (get "inputAudioTracks" data >>? as_object);
      apply quiet_refl || quiet_set.
  - unfold scene_changed. cbv zeta. eapply quiet_trans; [|apply close_still_quiet].
    destruct (_ >>? as_str); [quiet_set|apply quiet_refl].
  - apply record_state_quiet. intros Hs He. apply Ho. unfold unexpected_stop. by rewrite Heqb1, Hs, He.
Qed.

(** ** Tickets *)

Definition slot (kind : SampleKind) (m : Core) : option nat :=
  match kind with Stats => busy_stats m | Picture => busy_picture m end.

Record tickets_ok (w : World) : Prop := {
  tk_live : forall f, f ∈ live (core w) <-> In f (map t_active (tickets w));
  tk_distinct : NoDup (map t_active (tickets w));
  tk_tickets : forall t, In t (tickets w) ->
    (t_active t < next_flag (core w))%nat /\ t_owner t = sample_owner (core w)
    /\ (t_history t <= picture_history (core w))%nat /\ slot (t_kind t) (core w) = Some (t_active t)
}.

Record monitor_ok (w : World) : Prop := {
  mo_core : core_ok (core w);
  mo_tickets : tickets_ok w;
  mo_phase : is_none (stopped_at_ms (core w)) = listening (core w)
}.

Lemma slot_flags kind m m' : flags m' = flags m -> slot kind m' = slot kind m.
Proof. unfold flags. intros [= ? ? ? ? ?]. by destruct kind. Qed.

Lemma same_flags_tickets m w :
  flags m = flags (core w) -> (picture_history (core w) <= picture_history m)%nat ->
  tickets_ok w -> tickets_ok (with_core m w).
Proof.
  intros F H [L D T]. pose proof F as F'. unfold flags in F'. injection F' as Ho Hs Hp Hl Hn.
  split; simpl; [by rewrite Hl|done|]. intros t Ht. destruct (T t Ht) as (T1 & T2 & T3 & T4).
  rewrite Hn, Ho, (slot_flags _ _ _ F). repeat split; try done. lia.
Qed.

Lemma quiet_ok ks w m : quiet ks (core w) m -> monitor_ok w -> monitor_ok (with_core m w).
Proof.
  intros [C L F H _ O] [K T P]. split; simpl; [by apply O|by apply same_flags_tickets|].
  unfold life in L. injection L as L1 L2 _. unfold listening in *. by rewrite L1, L2.
Qed.

(** The tickets but one, once its flag is cleared *)
Lemma drop_ticket_ok k t w :
  tickets w !! k = Some t -> monitor_ok w ->
  monitor_ok {| core := drop_ticket t (core w); tickets := delete k (tickets w) |}.
Proof.
  intros Hk [K [L D T] P]. split; [by destruct K| |done].
  assert (forall x, In x (delete k (tickets w)) -> In x (tickets w)) as Hsub.
  { intros x. rewrite <- !list_elem_of_In. intros H. eapply elem_of_submseteq; [exact H|].
    apply sublist_submseteq, sublist_delete. }
  assert (Permutation (tickets w) (t :: delete k (tickets w))) as Hp by (by apply delete_Permutation).
  pose proof (Permutation_map t_active Hp) as Hpm. simpl in Hpm.
  assert (NoDup (t_active t :: map t_active (delete k (tickets w)))) as Hd by (by rewrite <- Hpm).
  apply NoDup_cons in Hd as [Hn Hd].
  split; simpl.
  - intros f. unfold drop_ticket. simpl_set. rewrite elem_of_difference, elem_of_singleton, L, Hpm. simpl.
    rewrite <- list_elem_of_In. split; [intros [[<-|H] H']; done|].
    intros H. split; [by right|]. intros ->. done.
  - done.
  - intros x Hx. apply Hsub in Hx. by apply T.
Qed.

Lemma begin_sample_ok kind w :
  monitor_ok w -> monitor_ok (step (BeginSample kind) w).
Proof.
  intros Hw. simpl. unfold begin_sample. destruct (_ || _); [by destruct w|].
  fold (slot kind (core w)). destruct (flag_set (slot kind (core w)) (core w)) eqn:Hf; [by destruct w|].
  destruct Hw as [K [L D T] P]. set (flag := next_flag (core w)).
  assert (forall t, In t (tickets w) -> t_kind t <> kind) as Hother.
  { intros t Ht E. destruct (T t Ht) as (_ & _ & _ & Hs). rewrite E in Hs. rewrite Hs in Hf. simpl in Hf.
    apply bool_decide_eq_false in Hf. apply Hf, L, in_map. done. }
  assert (~ In flag (map t_active (tickets w))) as Hfresh.
  { intros (t & E & Ht)%in_map_iff. destruct (T t Ht) as [Hlt _]. subst flag. lia. }
  split.
  - destruct kind; by destruct K.
  - split; simpl.
    + intros f. rewrite map_app, in_app_iff. simpl. rewrite <- L.
      destruct kind; simpl; simpl_set; rewrite elem_of_union, elem_of_singleton; naive_solver.
    + rewrite map_app. simpl. apply NoDup_app. split; [done|]. split; [|apply NoDup_singleton].
      intros x Hx Hin. apply list_elem_of_singleton in Hin. subst x. by apply Hfresh, list_elem_of_In.
    + intros t [Ht|[<-|[]]]%in_app_iff.
      * destruct (T t Ht) as (T1 & T2 & T3 & T4). pose proof (Hother t Ht) as Hne.
        destruct kind, (t_kind t); try done; repeat split; try done; simpl; simpl_set; simpl; lia.
      * simpl. destruct kind; repeat split; simpl; simpl_set; try done; unfold flag; lia.
  - by destruct kind.
Qed.

Lemma finish_sample_step k t now_ms o w :
  tickets w !! k = Some t ->
  exists ks, quiet ks (drop_ticket t (core w)) (snd (finish_sample t now_ms o (core w)))
             /\ Forall (fun kind => kind = Frames_ \/ kind = Blank) ks.
Proof.
  intros Hk. unfold finish_sample. cbv zeta. destruct (negb _).
  { exists []. split; [apply quiet_refl|done]. }
  destruct (t_kind t), o; try (exists []; split; [apply quiet_refl|done]).
  - exists [Frames_]. split; [apply observe_stats_quiet|]. constructor; [by left|done].
  - exists [Blank]. split; [apply observe_picture_quiet|]. constructor; [by right|done].
Qed.

Lemma set_life_ok (m : Core) w :
  config m = config (core w) -> flags m = flags (core w) -> picture_history m = picture_history (core w) ->
  warnings m = warnings (core w) -> events m = events (core w) -> tracker m = tracker (core w) ->
  levels m = levels (core w) -> is_none (stopped_at_ms m) = listening m ->
  monitor_ok w -> monitor_ok (with_core m w).
Proof.
  intros C F H W E S V P [[K1 K2 K3 K4] T _]. split; simpl; [| |done].
  - split; by rewrite ?E, ?W, ?S, ?V.
  - apply same_flags_tickets; [done|lia|done].
Qed.

Lemma complete_setup_cases now_ms ppm m :
  complete_setup now_ms ppm m = (false, m) /\ phase m <> Starting
  \/ phase m = Starting /\ fst (complete_setup now_ms ppm m) = true
     /\ quiet [] (m <| phase := Running |> <| picture_checks := ppm |>) (snd (complete_setup now_ms ppm m)).
Proof.
  unfold complete_setup. case_bool_decide as E; simpl; [|by left]. right. split; [done|]. split; [done|].
  destruct ppm; [apply resource_changed_quiet|].
  eapply quiet_trans; [apply log_quiet|]. apply resource_changed_quiet.
Qed.

Lemma finish_cleanup_cases m :
  snd (finish_cleanup m) = m
  \/ phase m = Stopping /\ exists stopped, stopped_at_ms m = Some stopped /\ samples_pending m = false
     /\ snd (finish_cleanup m)
        = resource_changed ((close_blank (now m stopped) (close_still (now m stopped) m)) <| phase := Stopped |>).
Proof.
  unfold finish_cleanup. destruct (phase m) eqn:Hp; try by left.
  destruct (stopped_at_ms m) as [stopped|]; [|by left]. destruct (samples_pending m) eqn:E; [by left|].
  right. split; [done|]. by exists stopped.
Qed.

Lemma finish_cleanup_ok w : monitor_ok w -> monitor_ok (with_core (snd (finish_cleanup (core w))) w).
Proof.
  intros Hw. destruct (finish_cleanup_cases (core w)) as [->|(Hp & stopped & Hs & _ & ->)]; [by destruct w|].
  set (m1 := close_blank (now (core w) stopped) (close_still (now (core w) stopped) (core w))).
  assert (quiet [] (core w) m1) as H1 by (eapply quiet_trans; [apply close_still_quiet|apply close_blank_quiet]).
  pose proof (quiet_ok _ _ _ H1 Hw) as H2.
  assert (stopped_at_ms m1 = Some stopped) as Hs1.
  { destruct H1 as [_ L _ _ _ _]. unfold life in L. injection L as L1 _ _. by rewrite L1. }
  fold m1. clearbody m1.
  apply (quiet_ok [] (with_core (m1 <| phase := Stopped |>) w)); [apply resource_changed_quiet|].
  apply (set_life_ok (m1 <| phase := Stopped |>) (with_core m1 w)); try done. simpl. by rewrite Hs1.
Qed.

Lemma monitor_step_ok o w : monitor_ok w -> monitor_ok (step o w).
Proof.
  intros Hw. pose proof Hw as [_ _ Hp].
  destruct o; try (by apply begin_sample_ok); try (by apply finish_cleanup_ok).
  - apply (quiet_ok []); [quiet_set|done].
  - apply (quiet_ok []); [|done]. unfold load_tracks. destruct (listening _); [quiet_set|apply quiet_refl].
  - apply (quiet_ok []); [|done]. unfold tracks_unknown. destruct (listening _); [apply log_quiet|apply quiet_refl].
  - apply (quiet_ok []); [|done]. unfold load_program_scene. destruct (listening _); [quiet_set|apply quiet_refl].
  - simpl. destruct (complete_setup_cases now_ms supports_ppm (core w)) as [[-> _]|(Hs & _ & Hq)]; [by destruct w|].
    apply (quiet_ok [] (with_core ((core w) <| phase := Running |> <| picture_checks := supports_ppm |>) w));
      [exact Hq|]. apply set_life_ok; try done. simpl. rewrite Hp. unfold listening. by rewrite Hs.
  - apply (quiet_ok []); [|done]. eapply quiet_trans; [|apply resource_changed_quiet]. quiet_set.
  - by apply set_life_ok.
  - by apply set_life_ok.
  - by apply set_life_ok.
  - simpl. unfold begin_stop. destruct (stopped_at_ms (core w)); [by destruct w|]. by apply set_life_ok.
  - simpl. destruct (tickets w !! k) as [t|] eqn:Hk; [|done].
    destruct (finish_sample_step k t now_ms o w Hk) as (ks & Hq & _).
    apply (quiet_ok ks {| core := drop_ticket t (core w); tickets := delete k (tickets w) |}); [exact Hq|].
    by apply drop_ticket_ok.
  - simpl. destruct (tickets w !! k) as [t|] eqn:Hk; [|done]. by apply drop_ticket_ok.
  - apply (quiet_ok [Connection]); [|done]. unfold on_disconnect.
    destruct (listening _); [apply warn_quiet; by left|apply quiet_refl].
  - apply (quiet_ok [Audio; Output]); [|done]. apply on_event_quiet; [by left|]. intros _. right. by left.
  - apply (quiet_ok [Frames_]); [apply observe_stats_quiet|done].
  - apply (quiet_ok [Blank]); [apply observe_picture_quiet|done].
Qed.

(** No sample is pending exactly when no ticket is held. *)
Lemma pending_tickets w : monitor_ok w -> samples_pending (core w) = false <-> tickets w = [].
Proof.
  intros [_ [L _ T] _]. split.
  - intros H. destruct (tickets w) as [|t ts] eqn:E; [done|]. destruct (T t (or_introl eq_refl)) as (_ & _ & _ & Hs).
    assert (flag_set (slot (t_kind t) (core w)) (core w) = true) as Hf.
    { rewrite Hs. simpl. apply bool_decide_eq_true, L. by left. }
    apply orb_false_iff in H as [H1 H2]. destruct (t_kind t); simpl in Hf; congruence.
  - intros E. rewrite E in L. assert (forall f, f ∉ live (core w)) as N by (intros f H; by apply L in H).
    unfold samples_pending, flag_set, is_some_and.
    destruct (busy_stats (core w)), (busy_picture (core w)); rewrite ?bool_decide_eq_false_2 by apply N; done.
Qed.

Lemma monitor_start_ok owner start_ms started opts : monitor_ok (start owner start_ms started opts).
Proof.
  split; simpl; [| |done].
  - split; simpl; try lia; [|by constructor]. intros kind. unfold count_kind. simpl. lia.
  - split; simpl; [set_solver|by constructor|done].
Qed.

Lemma monitor_play_ok ops : forall w, monitor_ok w -> monitor_ok (play ops w).
Proof. induction ops as [|o ops IH]; intros w Hw; simpl; [done|]. by apply IH, monitor_step_ok. Qed.

(** A monitor stays small and samples one at a time. However long a take runs and whatever
    OBS reports, there are at most 500 events and 20 warnings of each kind, the tracker keeps at
    most five pictures, every input has one level, and at most one sample of each kind is
    outstanding. *)
Theorem monitor_is_bounded owner start_ms started opts ops :
  let w := play ops (start owner start_ms started opts) in
  let m := core w in
  (length (events m) <= 500)%nat
  /\ (forall kind, (count_kind kind (warnings m) <= 20)%nat)
  /\ (length (Stills.samples (tracker m)) <= 5)%nat
  /\ NoDup (map input_name (levels m))
  /\ forall i j t u, tickets w !! i = Some t -> tickets w !! j = Some u -> t_kind t = t_kind u -> i = j.
Proof.
  intros w m. destruct (monitor_play_ok ops _ (monitor_start_ok owner start_ms started opts)) as [[K1 K2 K3 K4] [L D T] _].
  fold w m in K1, K2, K3, K4, L, D, T. split; [done|]. split; [done|]. split; [done|]. split; [done|].
  intros i j t u Hi Hj E.
  destruct (T t) as (_ & _ & _ & Ht); [apply list_elem_of_In; by eapply list_elem_of_lookup_2|].
  destruct (T u) as (_ & _ & _ & Hu); [apply list_elem_of_In; by eapply list_elem_of_lookup_2|].
  rewrite E, Hu in Ht. injection Ht as Ht.
  apply (NoDup_lookup (map t_active (tickets w)) i j (t_active t) D); rewrite list_lookup_fmap.
  - by rewrite Hi.
  - rewrite Hj. simpl. by rewrite Ht.
Qed.

(** ** After the stop *)

(** What was seen of the take *)
Definition seen (m : Core) :=
  (events m, levels m, audible_now m, frames_sampled m, recording_path m, program_scene m).

Record settled (m m' : Core) : Prop := {
  st_config : config m' = config m;
  st_clock : (stopped_at_ms m', paused_ms m', paused_since m') = (stopped_at_ms m, paused_ms m, paused_since m);
  st_phase : phase m = Stopped -> phase m' = Stopped;
  st_seen : seen m' = seen m;
  st_warnings : exists ws, warnings m' = warnings m ++ ws /\ Forall (fun w => wn_kind w = Frames_) ws;
  st_chapters : exists cs, chapters m' = chapters m ++ cs /\ Forall (fun c => ch_at c = now m 0) cs;
  st_stills : exists l, stills m' = stills m ++ l;
  st_blanks : exists l, blanks m' = blanks m ++ l;
  st_closed : phase m = Stopped ->
    (warnings m', frames m', stills m', blanks m') = (warnings m, frames m, stills m, blanks m)
}.

Ltac settle := split; try done; try (exists []; by rewrite app_nil_r).

Lemma settled_refl m : settled m m.
Proof. settle. Qed.

Lemma now_frozen m m' x y : settled m m' -> stopped_at_ms m <> None -> now m' x = now m y.
Proof.
  intros [C K _ _ _ _ _ _ _] H. unfold config in C. injection C as C1 C2 C3. injection K as K1 K2 K3.
  unfold now. rewrite C2, K1, K2, K3. by destruct (stopped_at_ms m).
Qed.

Lemma settled_trans m1 m2 m3 : stopped_at_ms m1 <> None -> settled m1 m2 -> settled m2 m3 -> settled m1 m3.
Proof.
  intros Hs H1 H2. pose proof (now_frozen m1 m2 0 0 H1 Hs) as Hnow. destruct H1, H2. destruct_and?.
  destruct st_warnings0 as (ws & W & F), st_warnings1 as (ws' & W' & F').
  destruct st_chapters0 as (cs & C & D), st_chapters1 as (cs' & C' & D').
  destruct st_stills0 as [l L], st_stills1 as [l' L'], st_blanks0 as [b B], st_blanks1 as [b' B'].
  split; [congruence|congruence|auto|congruence| | | | |].
  - exists (ws ++ ws'). rewrite W', W, app_assoc. split; [done|]. by apply Forall_app.
  - exists (cs ++ cs'). rewrite C', C, app_assoc. split; [done|]. apply Forall_app. split; [done|].
    by rewrite <- Hnow.
  - exists (l ++ l'). by rewrite L', L, app_assoc.
  - exists (b ++ b'). by rewrite B', B, app_assoc.
  - intros Hp. rewrite st_closed1 by auto. by apply st_closed0.
Qed.

Lemma resource_changed_settled m : settled m (resource_changed m).
Proof. unfold resource_changed. destruct (resources m); settle. Qed.

Lemma warn_settled now_ms message m m' :
  stopped_at_ms m <> None -> settled m m' -> phase m <> Stopped -> settled m (warn now_ms Frames_ message m').
Proof.
  intros Hs H Hp. unfold warn. destruct (_ <? _)%nat; [|done].
  eapply settled_trans; [done| |apply resource_changed_settled].
  destruct H as [C K P S (ws & W & F) Ch St B Cl]. split; try done.
  eexists (ws ++ [_]). simpl_set. rewrite W, app_assoc. split; [done|]. apply Forall_app. split; [done|].
  by constructor.
Qed.

Lemma observe_stats_settled now_ms stats m :
  stopped_at_ms m <> None -> settled m (observe_stats now_ms stats m).
Proof.
  intros Hs. unfold observe_stats. case_bool_decide as Hp; [apply settled_refl|]. cbv zeta.
  destruct (last_stats m) as [previous|]; [|settle]. destruct (_ || _); [settle|].
  match goal with |- settled _ (if ?c then ?a else ?b) => set (m2 := a) end.
  assert (settled m m2) as H2.
  { unfold m2. destruct (_ || _); [settle|]. apply warn_settled; [done|settle|done]. }
  clearbody m2. destruct (_ || _); [exact H2|]. apply warn_settled; [done| |done].
  eapply settled_trans; [done|exact H2|settle].
Qed.

Lemma begin_sample_stopped kind m : listening m = false -> begin_sample kind m = (None, m).
Proof. intros H. unfold begin_sample. destruct (phase m) eqn:E; try done; unfold listening in H; by rewrite E in H. Qed.

Lemma finish_cleanup_settled m : stopped_at_ms m <> None -> settled m (snd (finish_cleanup m)).
Proof.
  intros Hn. destruct (finish_cleanup_cases m) as [->|(Hp & stopped & Hs & _ & ->)]; [apply settled_refl|].
  eapply settled_trans; [done| |apply resource_changed_settled].
  unfold close_blank. destruct (blank_since (close_still (now m stopped) m)); split; try done;
    try (exists []; by rewrite app_nil_r); try (by eexists); intros E; simpl in E; congruence.
Qed.

Lemma finish_sample_settled t now_ms o m :
  stopped_at_ms m <> None -> settled m (snd (finish_sample t now_ms o m)).
Proof.
  intros Hs. unfold finish_sample. cbv zeta. assert (settled m (drop_ticket t m)) as Hd by settle.
  destruct (negb _); [exact Hd|]. destruct (t_kind t), o; try exact Hd.
  - eapply settled_trans; [done|exact Hd|]. by apply observe_stats_settled.
  - simpl. unfold observe_picture. simpl. destruct (stopped_at_ms m); [exact Hd|done].
Qed.

Lemma stopped_step o w :
  monitor_ok w -> stopped_at_ms (core w) <> None -> settled (core w) (core (step o w)).
Proof.
  intros [_ _ Hp] Hs. assert (listening (core w) = false) as Hl.
  { rewrite <- Hp. by destruct (stopped_at_ms (core w)). }
  destruct o; simpl.
  - settle.
  - unfold load_tracks. rewrite Hl. apply settled_refl.
  - unfold tracks_unknown. rewrite Hl. apply settled_refl.
  - unfold load_program_scene. rewrite Hl. apply settled_refl.
  - destruct (complete_setup_cases now_ms supports_ppm (core w)) as [[-> _]|(E & _)]; [apply settled_refl|].
    unfold listening in Hl. by rewrite E in Hl.
  - eapply settled_trans; [done| |apply resource_changed_settled]. split; try done; try (exists []; by rewrite app_nil_r).
    eexists [_]. split; [done|]. constructor; [|done]. simpl. apply now_frozen; [apply settled_refl|done].
  - settle.
  - settle.
  - settle.
  - unfold begin_stop. destruct (stopped_at_ms (core w)); [apply settled_refl|done].
  - by apply finish_cleanup_settled.
  - rewrite begin_sample_stopped by done. apply settled_refl.
  - destruct (tickets w !! k); [|apply settled_refl]. by apply finish_sample_settled.
  - destruct (tickets w !! k); [settle|apply settled_refl].
  - unfold on_disconnect. rewrite Hl. apply settled_refl.
  - unfold on_event. rewrite Hl. apply settled_refl.
  - by apply observe_stats_settled.
  - unfold observe_picture. destruct (stopped_at_ms (core w)); [apply settled_refl|done].
Qed.

(** A stopped monitor takes no more samples. *)
Lemma stopped_tickets o w :
  monitor_ok w -> stopped_at_ms (core w) <> None -> tickets w = [] -> tickets (step o w) = [].
Proof.
  intros [_ _ Hp] Hs E. destruct o; simpl; rewrite ?E; try done.
  rewrite begin_sample_stopped; [done|]. rewrite <- Hp. by destruct (stopped_at_ms (core w)).
Qed.

Lemma stopped_play ops : forall w,
  monitor_ok w -> stopped_at_ms (core w) <> None -> settled (core w) (core (play ops w)).
Proof.
  induction ops as [|o ops IH]; intros w Hw Hs; simpl; [apply settled_refl|].
  pose proof (stopped_step o w Hw Hs) as H. eapply settled_trans; [done|exact H|].
  apply IH; [by apply monitor_step_ok|]. destruct H as [_ K _ _ _ _ _ _ _]. injection K as K _ _. by rewrite K.
Qed.

(** The stop of a take is final. Once the stop began, the clock of the take stands still
    whatever the wall clock says; no event, sound, picture, path or scene is taken in any more;
    marks are put at the end; only frame warnings of the last statistics are added; and after
    the cleanup the warnings, the frame counts, the stills and the blanks never change. *)
Theorem stopped_monitor_is_final owner start_ms started opts ops more :
  let w := play ops (start owner start_ms started opts) in
  let m := core w in
  let m' := core (play more w) in
  stopped_at_ms m <> None ->
  (forall x y, now m' x = now m y) /\ seen m' = seen m
  /\ (exists ws, warnings m' = warnings m ++ ws /\ Forall (fun w => wn_kind w = Frames_) ws)
  /\ (exists cs, chapters m' = chapters m ++ cs /\ Forall (fun c => ch_at c = now m 0) cs)
  /\ (phase m = Stopped ->
      (warnings m', frames m', stills m', blanks m') = (warnings m, frames m, stills m, blanks m)).
Proof.
  intros w m m' Hs. assert (settled m m') as H.
  { apply stopped_play; [|done]. apply monitor_play_ok, monitor_start_ok. }
  split; [intros x y; by apply now_frozen|]. destruct H. auto.
Qed.

(** ** Pictures of another history *)

Lemma step_history o w :
  (picture_history (core w) <= picture_history (core (step o w)))%nat.
Proof.
  destruct o; simpl; try done; try (by simpl_set); try lia.
  - unfold load_tracks. by destruct (listening _).
  - unfold tracks_unknown. destruct (listening _); [|done]. by destruct (log_quiet [] now_ms "tracks-unknown" (Some message) (core w)).
  - unfold load_program_scene. by destruct (listening _).
  - destruct (complete_setup_cases now_ms supports_ppm (core w)) as [[-> _]|(_ & _ & Q)]; [done|]. by destruct Q.
  - by destruct (resource_changed_quiet [] ((core w) <| chapters := chapters (core w) ++ [{| ch_at := now (core w) now_ms; ch_name := name |}] |>)).
  - unfold begin_stop. by destruct (stopped_at_ms (core w)).
  - destruct (finish_cleanup_cases (core w)) as [->|(_ & stopped & _ & _ & ->)]; [done|].
    unfold resource_changed, close_blank. destruct (blank_since _), (resources _); simpl; simpl_set; lia.
  - unfold begin_sample. destruct (_ || _); [done|]. destruct (flag_set _ _); [done|]. by destruct kind.
  - destruct (tickets w !! k) as [t|] eqn:Hk; [|done].
    destruct (finish_sample_step k t now_ms o w Hk) as (ks & [_ _ _ H _ _] & _). done.
  - by destruct (tickets w !! k).
  - unfold on_disconnect. destruct (listening _); [|done].
    by destruct (warn_quiet [Connection] now_ms Connection "Lost the connection to OBS; checks paused until it reconnects" (core w) ltac:(by left)).
  - destruct (on_event_quiet [Audio; Output] now_ms event data (core w)); [by left|right; by left|done].
  - by destruct (observe_stats_quiet now_ms stats (core w)).
  - by destruct (observe_picture_quiet now_ms luma (core w)).
Qed.

Lemma play_history ops : forall w, (picture_history (core w) <= picture_history (core (play ops w)))%nat.
Proof.
  induction ops as [|o ops IH]; intros w; simpl; [done|]. pose proof (step_history o w). specialize (IH (step o w)).
  lia.
Qed.

(** The events that end a history of pictures *)
Definition retires_pictures (event : string) (data : Value) (m : Core) : Prop :=
  event = "CurrentProgramSceneChanged"%string
  \/ event = "RecordStateChanged"%string /\ output_state data = Some "OBS_WEBSOCKET_OUTPUT_PAUSED"%string
     /\ paused_since m = None.

Lemma retires_history now_ms event data m :
  listening m = true -> retires_pictures event data m ->
  (picture_history m < picture_history (on_event now_ms event data m))%nat.
Proof.
  intros Hl H. unfold on_event. rewrite Hl. cbn [negb]. destruct H as [->|(-> & Ho & Hp)].
  - change (str_eqb "CurrentProgramSceneChanged" "InputVolumeMeters") with false.
    change (str_eqb "CurrentProgramSceneChanged" "InputAudioTracksChanged") with false.
    change (str_eqb "CurrentProgramSceneChanged" "CurrentProgramSceneChanged") with true. cbv iota zeta.
    match goal with |- context [log now_ms _ ?d ?x] => destruct (log_quiet [] now_ms "CurrentProgramSceneChanged" d x) as [_ _ _ H _ _] end.
    eapply Nat.lt_le_trans; [|exact H]. unfold scene_changed, close_still.
    destruct (_ >>? as_str); simpl; lia.
  - change (str_eqb "RecordStateChanged" "InputVolumeMeters") with false.
    change (str_eqb "RecordStateChanged" "InputAudioTracksChanged") with false.
    change (str_eqb "RecordStateChanged" "CurrentProgramSceneChanged") with false.
    change (str_eqb "RecordStateChanged" "RecordStateChanged") with true. cbv iota zeta.
    match goal with |- context [log now_ms _ ?d ?x] => destruct (log_quiet [] now_ms "RecordStateChanged" d x) as [_ _ _ H _ _] end.
    eapply Nat.lt_le_trans; [|exact H]. unfold record_state_changed. cbv zeta.
    match goal with |- context [paused_or_resumed now_ms data ?m1] =>
      assert (picture_history m < picture_history (paused_or_resumed now_ms data m1))%nat as Hlt end.
    { unfold paused_or_resumed. rewrite Ho, str_eqb_refl.
      destruct (opt_filter _ _); simpl; rewrite Hp; simpl; simpl_set; lia. }
    destruct (_ && _); [|exact Hlt]. eapply Nat.lt_le_trans; [exact Hlt|].
    match goal with |- (picture_history ?x <= picture_history (warn _ _ ?msg _))%nat =>
      by destruct (warn_quiet [Output] now_ms Output msg x ltac:(by left)) end.
Qed.

(** A picture taken before a pause or a scene switch is never counted. If a picture sample
    is outstanding when the program scene changes or the recording pauses, then, whatever
    happens in between and whatever it shows, finishing it later reports that it was not used
    and changes nothing but the ticket's own flag: the spans of stills and blanks never mix
    pictures from before and after. *)
Theorem retired_picture_is_ignored owner start_ms started opts ops k t now_ms event data more :
  let w := play ops (start owner start_ms started opts) in
  tickets w !! k = Some t -> t_kind t = Picture -> listening (core w) = true ->
  retires_pictures event data (core w) ->
  let m := core (play more (step (OnEvent now_ms event data) w)) in
  forall later o, finish_sample t later o m = (false, drop_ticket t m).
Proof.
  intros w Hk Ht Hl Hr m later o.
  destruct (monitor_play_ok ops _ (monitor_start_ok owner start_ms started opts)) as [_ [_ _ T] _]. fold w in T.
  destruct (T t) as (_ & _ & Hh & _); [apply list_elem_of_In; by eapply list_elem_of_lookup_2|].
  pose proof (retires_history now_ms event data (core w) Hl Hr) as H1.
  pose proof (play_history more (step (OnEvent now_ms event data) w)) as H2. fold m in H2. simpl in H2.
  unfold finish_sample. rewrite Ht. change (bool_decide (Picture = Picture)) with true.
  destruct (Nat.eqb_spec (picture_history m) (t_history t)) as [E|E]; [lia|].
  cbn [negb andb]. rewrite andb_false_r. done.
Qed.

(** ** The warning of an unexpected stop *)

Lemma quiet_count ks kind m m' :
  quiet ks m m' -> kind ∉ ks -> count_kind kind (warnings m') = count_kind kind (warnings m).
Proof.
  intros [_ _ _ _ (ws & W & F) _] Hk. rewrite W, count_kind_app.
  assert (count_kind kind ws = 0%nat) as ->; [|lia].
  clear W. unfold count_kind. induction F as [|x ws Hx F IH]; [done|]. simpl.
  case_bool_decide as E; [|done]. by rewrite E in Hx.
Qed.

Definition warns_of_stop (o : op) (m : Core) : bool :=
  match o with
  | OnEvent _ event data =>
      listening m && unexpected_stop event data m
      && (count_kind Output (warnings m) <? MAX_WARNINGS_PER_KIND)%nat
  | _ => false
  end.

Lemma count_resource kind m : count_kind kind (warnings (resource_changed m)) = count_kind kind (warnings m).
Proof. apply (quiet_count []); [apply resource_changed_quiet|set_solver]. Qed.

Lemma warn_count kind now_ms message m :
  (count_kind kind (warnings m) < MAX_WARNINGS_PER_KIND)%nat ->
  count_kind kind (warnings (warn now_ms kind message m)) = S (count_kind kind (warnings m)).
Proof.
  intros H. unfold warn. fold (count_kind kind (warnings m)). apply Nat.ltb_lt in H. rewrite H, count_resource.
  simpl. simpl_set. rewrite count_kind_app. unfold count_kind at 2. simpl. rewrite bool_decide_eq_true_2 by done.
  simpl. lia.
Qed.

Lemma unexpected_count now_ms event data m :
  listening m = true -> unexpected_stop event data m = true ->
  (count_kind Output (warnings m) < MAX_WARNINGS_PER_KIND)%nat ->
  count_kind Output (warnings (on_event now_ms event data m)) = S (count_kind Output (warnings m)).
Proof.
  intros Hl Hu Hc. unfold unexpected_stop in Hu. apply andb_true_iff in Hu as [[He Ho]%andb_true_iff Hs].
  apply str_eqb_eq in He as ->. unfold on_event. rewrite Hl. cbn [negb].
  change (str_eqb "RecordStateChanged" "InputVolumeMeters") with false.
  change (str_eqb "RecordStateChanged" "InputAudioTracksChanged") with false.
  change (str_eqb "RecordStateChanged" "CurrentProgramSceneChanged") with false.
  change (str_eqb "RecordStateChanged" "RecordStateChanged") with true. cbv iota zeta.
  rewrite (quiet_count [] Output _ _ (log_quiet [] now_ms _ _ _)) by set_solver.
  unfold record_state_changed. cbv zeta. rewrite Ho.
  match goal with |- context [paused_or_resumed now_ms data ?m1] =>
    assert (quiet [] m (paused_or_resumed now_ms data m1)) as Hq end.
  { eapply quiet_trans; [|apply paused_or_resumed_quiet]. destruct (opt_filter _ _); [quiet_set|apply quiet_refl]. }
  rewrite (stop_expected_quiet _ _ _ Hq), Hs. cbn [andb].
  pose proof (quiet_count [] Output _ _ Hq ltac:(set_solver)) as E. rewrite warn_count; by rewrite E.
Qed.

Lemma full_count now_ms event data m :
  core_ok m -> ~ (count_kind Output (warnings m) < MAX_WARNINGS_PER_KIND)%nat ->
  count_kind Output (warnings (on_event now_ms event data m)) = count_kind Output (warnings m).
Proof.
  intros K H. destruct (on_event_quiet [Audio; Output] now_ms event data m) as [_ _ _ _ (ws & W & _) O];
    [by left|right; by left|]. destruct (O K) as [_ K2 _ _]. pose proof (K2 Output) as Hb.
  rewrite W, count_kind_app in *. lia.
Qed.

(** The warning that a recording stopped by itself is exact. In every reachable state, the
    one step that adds it is the event of a stopped output that arrives while the monitor
    listens and no stop is expected, and it adds exactly one unless twenty are there; no other
    step does, so a stop that was announced and not rolled back is never reported. *)
Theorem stop_warning_exact owner start_ms started opts ops o :
  let w := play ops (start owner start_ms started opts) in
  count_kind Output (warnings (core (step o w)))
  = (count_kind Output (warnings (core w)) + (if warns_of_stop o (core w) then 1 else 0))%nat.
Proof.
  intros w. pose proof (monitor_play_ok ops _ (monitor_start_ok owner start_ms started opts)) as Hw. fold w in Hw.
  assert (forall ks m, quiet ks (core w) m -> Output ∉ ks ->
    count_kind Output (warnings m) = (count_kind Output (warnings (core w)) + 0)%nat) as Hq.
  { intros ks m H Hk. rewrite (quiet_count _ _ _ _ H Hk). lia. }
  destruct o; simpl; try (simpl_set; lia).
  - unfold load_tracks. destruct (listening _); simpl; simpl_set; lia.
  - unfold tracks_unknown. destruct (listening _); [|lia]. apply (Hq []); [apply log_quiet|set_solver].
  - unfold load_program_scene. destruct (listening _); simpl; simpl_set; lia.
  - destruct (complete_setup_cases now_ms supports_ppm (core w)) as [[-> _]|(_ & _ & Q)]; [simpl; lia|].
    rewrite (quiet_count [] Output _ _ Q) by set_solver. simpl. simpl_set. lia.
  - unfold mark. rewrite count_resource. simpl. simpl_set. lia.
  - unfold begin_stop. destruct (stopped_at_ms (core w)); simpl; simpl_set; lia.
  - destruct (finish_cleanup_cases (core w)) as [->|(_ & stopped & _ & _ & ->)]; [lia|].
    rewrite count_resource. unfold close_blank. destruct (blank_since _); simpl; simpl_set; lia.
  - unfold begin_sample. destruct (_ || _); [simpl; lia|]. destruct (flag_set _ _); [simpl; lia|].
    destruct kind; simpl; simpl_set; lia.
  - destruct (tickets w !! k) as [t|] eqn:Hk; [|lia].
    destruct (finish_sample_step k t now_ms o w Hk) as (ks & Q & F). simpl.
    rewrite (quiet_count ks Output _ _ Q); [simpl; simpl_set; lia|]. rewrite Forall_forall in F.
    intros H%F. by destruct H.
  - destruct (tickets w !! k); simpl; simpl_set; lia.
  - unfold on_disconnect. destruct (listening _); [|lia]. apply (Hq [Connection]); [apply warn_quiet; by left|set_solver].
  - destruct (listening (core w)) eqn:Hl; [|unfold on_event; rewrite Hl; simpl; lia].
    destruct (unexpected_stop event data (core w)) eqn:Hu; simpl.
    + destruct (Nat.ltb_spec (count_kind Output (warnings (core w))) MAX_WARNINGS_PER_KIND) as [Hc|Hc].
      * rewrite unexpected_count by done. lia.
      * rewrite full_count; [lia|apply Hw|lia].
    + apply (Hq [Audio]); [|set_solver]. apply on_event_quiet; [by left|]. by rewrite Hu.
  - apply (Hq [Frames_]); [apply observe_stats_quiet|set_solver].
  - apply (Hq [Blank]); [apply observe_picture_quiet|set_solver].
Qed.
End Observations.
