(* ===== verification/RecordClip.v ===== *)
(** * The arguments of a clip

    [native/src/record_clip.rs]: the closed arguments of a recorded clip, the refusal of a chapter
    that comes too late, and the schedule the supervisor runs, in the order of its chapters. *)
From Stdlib Require Import SpecFloat Permutation Sorted.
From S2P Require Import Prelude Json Text Number Observed.
From S2P Require Control.

Definition quote : string := str_of_bytes [34].

(** [join] *)
Fixpoint join (separator : string) (l : list string) : string :=
  match l with
  | [] => EmptyString
  | [s] => s
  | s :: rest => s +:+ separator +:+ join separator rest
  end.

(** [f64::is_finite] *)
Definition finite (f : f64) : bool := match f with S754_zero _ | S754_finite _ _ _ => true | _ => false end.

Definition MAX_CLIP_SECONDS : f64 := f64_of_Z 50.

Record Chapter := { at_seconds : f64; name : string }.

Record Request := { duration_seconds : f64; chapters : list Chapter; expect_silent : bool }.

Definition bad_chapter (c : Chapter) : bool :=
  negb (finite (at_seconds c)) || f64_ltb (at_seconds c) f64_zero || str_is_empty (name c).

Definition new (duration : f64) (chapters : list Chapter) (expect_silent : bool) : option Request :=
  if negb (finite duration) || f64_leb duration f64_zero || f64_ltb MAX_CLIP_SECONDS duration || existsb bad_chapter chapters
  then None
  else Some {| duration_seconds := duration; chapters := chapters; expect_silent := expect_silent |}.

Definition parse_chapter (value : Value) : option Chapter :=
  match get "atSeconds" value >>? as_f64, get "name" value >>? as_str with
  | Some at_, Some name => Some {| at_seconds := at_; name := name |}
  | _, _ => None
  end.

(** [collect] into an option *)
Fixpoint collect {A B} (f : A -> option B) (l : list A) : option (list B) :=
  match l with
  | [] => Some []
  | a :: l => match f a with
              | Some b => match collect f l with Some bs => Some (b :: bs) | None => None end
              | None => None
              end
  end.

Definition parse (value : Value) : option Request :=
  match as_object value with
  | None => None
  | Some fields =>
      match field "durationSeconds" fields >>? as_f64 with
      | None => None
      | Some duration =>
          match (match field "chapters" fields with
                 | None => Some []
                 | Some value => as_array value >>? collect parse_chapter
                 end) with
          | None => None
          | Some chapters =>
              match (match field "expectSilent" fields with None => Some false | Some value => as_bool value end) with
              | None => None
              | Some silent => new duration chapters silent
              end
          end
      end
  end.

(** The chapters that start at or after the end, in the order of the input *)
Definition late (r : Request) : list Chapter :=
  List.filter (fun c => f64_leb (duration_seconds r) (at_seconds c)) (chapters r).

Section Text.
Context {Lib : F64Library}.

Definition refusal (r : Request) : option string :=
  match map (fun c => quote +:+ name c +:+ quote) (late r) with
  | [] => None
  | names =>
      Some ("Not recording: chapter(s) " +:+ join ", " names +:+ " start at or after the "
            +:+ Observed.js_string (Some (Num (Float (duration_seconds r)))) +:+ "s clip ends")
  end.
End Text.

(** [sort_by] with [partial_cmp]: the stable order by offset *)
Fixpoint insert_chapter (c : Chapter) (l : list Chapter) : list Chapter :=
  match l with
  | [] => [c]
  | d :: rest => if f64_leb (at_seconds c) (at_seconds d) then c :: l else d :: insert_chapter c rest
  end.

Definition sort_chapters (l : list Chapter) : list Chapter := fold_right insert_chapter [] l.

Definition into_schedule (r : Request) : f64 * list Chapter := (duration_seconds r, sort_chapters (chapters r)).

(** [Duration::from_secs_f64] of a number that is not negative, in nanoseconds: to the nearest, ties to even *)
Definition round_half_even (n d : Z) : Z :=
  let q := n / d in
  let r := n mod d in
  if 2 * r <? d then q else if d <? 2 * r then q + 1 else if Z.even q then q else q + 1.

Definition from_secs_f64 (f : f64) : Z :=
  match f with
  | S754_finite _ m e =>
      if 0 <=? e then Z.pos m * 2 ^ e * 1000000000 else round_half_even (Z.pos m * 1000000000) (2 ^ (- e))
  | _ => 0
  end.

(** ** The order of offsets *)

(** A number that is finite and not negative *)
Definition offset (f : f64) : Prop := match f with S754_zero _ | S754_finite false _ _ => True | _ => False end.

Lemma not_bad_offset c : bad_chapter c = false -> offset (at_seconds c) /\ name c <> EmptyString.
Proof.
  unfold bad_chapter. rewrite !orb_false_iff, negb_false_iff. intros ((F & L) & N). split.
  - destruct (at_seconds c) as [s|[]| |[] m e]; try done.
  - by destruct (name c).
Qed.

(** The place of an offset in the order *)
Definition rank (f : f64) : Z * Z := match f with S754_finite _ m e => (e, Z.pos m) | _ => (0, 0) end.

Definition is_zero (f : f64) : bool := match f with S754_zero _ => true | _ => false end.

Lemma leb_offset f g :
  offset f -> offset g ->
  f64_leb f g = is_zero f || negb (is_zero g) && ((fst (rank f) <? fst (rank g))
                || (fst (rank f) =? fst (rank g)) && (snd (rank f) <=? snd (rank g))).
Proof.
  destruct f as [s| | |[] m e], g as [s'| | |[] m' e']; try done; intros _ _.
  unfold f64_leb, SFleb, SFcompare. simpl.
  destruct (Z.compare_spec e e') as [->|H|H].
  - rewrite Z.ltb_irrefl, Z.eqb_refl. simpl. change (Pos.compare_cont Eq m m') with (m ?= m')%positive.
    destruct (Pos.compare_spec m m') as [->|H|H]; symmetry; [apply Z.leb_le|apply Z.leb_le|apply Z.leb_gt]; lia.
  - apply Z.ltb_lt in H as ->. done.
  - destruct (e <? e') eqn:E1; [lia|]. destruct (e =? e') eqn:E2; [lia|]. done.
Qed.

Lemma leb_total f g : offset f -> offset g -> f64_leb f g = true \/ f64_leb g f = true.
Proof.
  intros Hf Hg. rewrite !leb_offset by done. destruct (is_zero f), (is_zero g); simpl; auto.
  destruct (rank f) as [a b], (rank g) as [c d]. simpl. lia.
Qed.

Lemma leb_trans f g h :
  offset f -> offset g -> offset h -> f64_leb f g = true -> f64_leb g h = true -> f64_leb f h = true.
Proof.
  intros Hf Hg Hh. rewrite !leb_offset by done. destruct (is_zero f), (is_zero g), (is_zero h); simpl; auto; try done.
  destruct (rank f) as [a b], (rank g) as [c d], (rank h) as [x y]. simpl. lia.
Qed.

Definition before (c d : Chapter) : Prop := f64_leb (at_seconds c) (at_seconds d) = true.
Definition timed (c : Chapter) : Prop := offset (at_seconds c).

(** Two chapters at the same time *)
Definition same_time (c d : Chapter) : bool := f64_leb (at_seconds c) (at_seconds d) && f64_leb (at_seconds d) (at_seconds c).

Lemma insert_perm c l : Permutation (insert_chapter c l) (c :: l).
Proof.
  induction l as [|d l IH]; [done|]. simpl. destruct (f64_leb _ _); [done|]. rewrite IH. constructor.
Qed.

Lemma sort_perm l : Permutation (sort_chapters l) l.
Proof. induction l as [|c l IH]; [done|]. simpl. by rewrite insert_perm, IH. Qed.

Lemma insert_sorted c l : timed c -> Forall timed l -> StronglySorted before l -> StronglySorted before (insert_chapter c l).
Proof.
  intros Hc. induction l as [|d l IH]; intros Hl Hs; [repeat constructor|].
  apply Forall_cons in Hl as [Hd Hl]. apply StronglySorted_inv in Hs as [Hs Hf]. simpl. destruct (f64_leb _ _) eqn:E.
  - constructor; [by constructor|]. constructor; [done|]. rewrite List.Forall_forall in *. intros x Hx.
    apply (leb_trans _ (at_seconds d)); [done|done|by apply Hl|done|by apply Hf].
  - constructor; [by apply IH|]. rewrite insert_perm. constructor; [|done]. unfold before.
    destruct (leb_total (at_seconds c) (at_seconds d) Hc Hd) as [E'|E']; congruence.
Qed.

Lemma sort_timed l : Forall timed l -> Forall timed (sort_chapters l).
Proof. intros H. by rewrite sort_perm. Qed.

Lemma sort_sorted l : Forall timed l -> StronglySorted before (sort_chapters l).
Proof.
  induction l as [|c l IH]; intros H; [constructor|]. apply Forall_cons in H as [Hc Hl]. simpl.
  apply insert_sorted; [done|by apply sort_timed|by apply IH].
Qed.

(** Chapters at one time keep their order. *)
Lemma insert_stable c l t :
  timed t -> timed c -> Forall timed l -> StronglySorted before l ->
  List.filter (same_time t) (insert_chapter c l) = List.filter (same_time t) (c :: l).
Proof.
  intros Ht Hc. induction l as [|d l IH]; intros Hl Hs; [done|]. simpl. destruct (f64_leb (at_seconds c) (at_seconds d)) eqn:E; [done|].
  apply Forall_cons in Hl as [Hd Hl]. apply StronglySorted_inv in Hs as [Hs Hf]. simpl. rewrite (IH Hl Hs). simpl.
  destruct (same_time t c) eqn:S1; [|done]. destruct (same_time t d) eqn:S2; [|done]. exfalso.
  unfold same_time in *. apply andb_true_iff in S1 as [A1 A2], S2 as [B1 B2].
  rewrite (leb_trans (at_seconds c) (at_seconds t) (at_seconds d)) in E; done.
Qed.

Lemma sort_stable l t :
  timed t -> Forall timed l -> List.filter (same_time t) (sort_chapters l) = List.filter (same_time t) l.
Proof.
  intros Ht. induction l as [|c l IH]; intros H; [done|]. apply Forall_cons in H as [Hc Hl]. simpl.
  rewrite insert_stable; [|done|done|by apply sort_timed|by apply sort_sorted]. simpl. by rewrite IH.
Qed.

(** ** The theorems *)

Lemma new_ok duration chs silent r :
  new duration chs silent = Some r ->
  r = {| duration_seconds := duration; chapters := chs; expect_silent := silent |}
  /\ finite duration = true /\ f64_leb duration f64_zero = false /\ f64_ltb MAX_CLIP_SECONDS duration = false
  /\ Forall (fun c => timed c /\ name c <> EmptyString) chs.
Proof.
  unfold new. destruct (_ || _) eqn:E; [done|]. intros [= <-]. rewrite !orb_false_iff in E. destruct E as (((E1 & E2) & E3) & E4).
  rewrite negb_false_iff in E1. split_and!; try done. rewrite List.Forall_forall. intros c Hc. apply not_bad_offset.
  destruct (bad_chapter c) eqn:B; [|done]. assert (existsb bad_chapter chs = true) by (apply existsb_exists; eauto). congruence.
Qed.

Lemma parse_new value r : parse value = Some r -> exists duration chs silent, new duration chs silent = Some r.
Proof.
  unfold parse. destruct (as_object value); [|done]. destruct (_ >>? _); [|done].
  destruct (match field "chapters" l with Some _ => _ | None => _ end); [|done].
  destruct (match field "expectSilent" l with Some _ => _ | None => _ end); [|done]. eauto.
Qed.

(** What a clip's arguments promise.  Arguments that are accepted ask for a clip of more than zero
    and at most fifty seconds, with named chapters at finite times that are not negative; and
    when they are not refused, every chapter starts before the clip ends. *)
Theorem accepted_clip_is_in_bounds `{F64Library} value r :
  parse value = Some r ->
  f64_leb (duration_seconds r) f64_zero = false /\ f64_ltb MAX_CLIP_SECONDS (duration_seconds r) = false
  /\ finite (duration_seconds r) = true
  /\ Forall (fun c => timed c /\ name c <> EmptyString) (chapters r)
  /\ (refusal r = None <-> Forall (fun c => f64_leb (duration_seconds r) (at_seconds c) = false) (chapters r)).
Proof.
  intros (duration & chs & silent & E)%parse_new. apply new_ok in E as (-> & E1 & E2 & E3 & E4). simpl. split_and!; try done.
  unfold refusal, late. simpl. clear E4. induction chs as [|c chs IH]; simpl; [by split|].
  destruct (f64_leb duration (at_seconds c)) eqn:B; simpl.
  - split; [done|]. intros F. apply Forall_cons in F as [F _]. congruence.
  - rewrite IH, Forall_cons. tauto.
Qed.

(** The schedule of a clip is the stable order of its chapters: each comes once, no later one is
    earlier in time, and chapters at the same time keep the order they were given in. *)
Theorem schedule_is_stable value r :
  parse value = Some r ->
  let l := snd (into_schedule r) in
  Permutation l (chapters r) /\ StronglySorted before l
  /\ forall c, In c (chapters r) -> List.filter (same_time c) l = List.filter (same_time c) (chapters r).
Proof.
  intros (duration & chs & silent & E)%parse_new. apply new_ok in E as (-> & _ & _ & _ & E4). simpl.
  assert (Forall timed chs) as Ht by (eapply Forall_impl; [exact E4|by intros c [? _]]).
  split_and!; [apply sort_perm|by apply sort_sorted|]. intros c Hc. apply sort_stable; [|done].
  rewrite List.Forall_forall in Ht. by apply Ht.
Qed.

(** A clip of a second and a half *)
Definition sample_arguments : Value :=
  object_of [("durationSeconds", Num (Float (S754_finite false 6755399441055744 (-52))));
             ("chapters", Array [object_of [("atSeconds", Num (PosInt 1)); ("name", str "a")];
                                 object_of [("atSeconds", Num (PosInt 0)); ("name", str "zero")];
                                 object_of [("atSeconds", Num (PosInt 1)); ("name", str "b")]])].

Definition sample_request : Request :=
  {| duration_seconds := S754_finite false 6755399441055744 (-52);
     chapters := [{| at_seconds := f64_of_Z 1; name := "a" |}; {| at_seconds := f64_of_Z 0; name := "zero" |};
                  {| at_seconds := f64_of_Z 1; name := "b" |}];
     expect_silent := false |}.

Lemma sample_parses : parse sample_arguments = Some sample_request.
Proof. vm_compute. reflexivity. Qed.

Example sample_schedule : map name (snd (into_schedule sample_request)) = ["zero"; "a"; "b"]%string.
Proof. vm_compute. reflexivity. Qed.

Example sample_duration : from_secs_f64 (duration_seconds sample_request) = 1500000000.
Proof. vm_compute. reflexivity. Qed.

Lemma schedule_is_stable_witness :
  StronglySorted before (snd (into_schedule sample_request)) /\ length (snd (into_schedule sample_request)) = 3%nat.
Proof.
  split; [|vm_compute; reflexivity]. apply (schedule_is_stable sample_arguments sample_request sample_parses).
Defined.
