(* ===== verification/TakeStop.v ===== *)
(** * The stop of a take

    [native/src/takes.rs]: the shared state of the take supervisor, what OBS's events and the
    recording-impact registry do to it, and [stop_take] with everything it calls.  A stop is an
    [async] procedure that many callers may run at once; between two of its awaits it is one
    step, so a running stop is a point of its code ([Pc]) with its local variables, and every
    answer it awaits, every event and every other change of the shared state may come in between.
    Receipts are written through an interface.  What a report says is data ([StopReport]); its
    JSON text is not modelled. *)
From coqutil Require Import Datatypes.RecordSettersUsingExistingGetters.
From S2P Require Import Prelude Json Number.
From S2P Require Import ReceiptFields.
From S2P Require RecordImpact Control OperationReceipt Monitor.

(** ** The writer of receipts *)

Class Writer (S : Type) := {
  w_prepare : string -> OperationReceipt.OperationKind -> Z -> string -> option string -> S ->
              result StoreError OperationReceipt.OperationReceipt * S;
  w_update : OperationReceipt.OperationReceipt -> OperationReceipt.OperationUpdate -> string -> S ->
             result StoreError OperationReceipt.OperationReceipt * S
}.

(** What a writer promises of a receipt it returns *)
Class WriterLaws (S : Type) `{!Writer S} : Prop := {
  w_prepared id kind generation utc take s r s' :
    w_prepare id kind generation utc take s = (Ok r, s') ->
    OperationReceipt.phase r = OperationReceipt.Prepared /\ OperationReceipt.kind r = kind
    /\ OperationReceipt.take_id r = take /\ OperationReceipt.operation_id r = id;
  w_updated r u utc s r' s' :
    w_update r u utc s = (Ok r', s') -> r' = OperationReceipt.updated_record r u utc
}.

(** ** The shared state *)

Definition IMPACT_LOST : string :=
  "External recording-impact operation invalidated owned recording authority".
Definition DISCONNECTED : string :=
  "OBS disconnected; recording ownership cannot be established after reconnect".

Record Continuity := { c_started : bool; c_stopped : bool; c_lost : option string; c_path : option string }.

Definition default_continuity : Continuity :=
  {| c_started := false; c_stopped := false; c_lost := None; c_path := None |}.

Record Policy := {
  p_caller : string;
  p_confirmation_enabled : bool;
  p_can_elicit : bool;
  p_input_responses : option Value
}.

Definition internal_policy (p : Policy) : Policy :=
  {| p_caller := p_caller p; p_confirmation_enabled := false; p_can_elicit := p_can_elicit p;
     p_input_responses := p_input_responses p |}.

Inductive Ownership : Type := Continuous | SuspendedOwnership | Unavailable.

(** What a stop reports.  [Uncertain]'s [historical]: the stop itself was observed before. *)
Inductive StopReport : Type :=
| Confirmed (path : string) (receipt_observed : bool) (operation : option string)
| NoFile
| Uncertain (ownership : Ownership) (reason : string) (operation : option string) (historical : bool)
| SuspendedStop (definitely_unsent : bool) (operation : option string)
| NotSent (ownership : Ownership) (reason : string) (operation : string).

(** [Take]; of its options, what the modelled code reads. *)
Record Take := {
  impact : Z;
  blocked_impact : option Z;
  id : string;
  expect_silent : bool;
  lock : bool;
  policy : Policy;
  local : bool;
  monitor : Monitor.World;
  continuity : Continuity;
  start_operation : option OperationReceipt.OperationReceipt;
  stop_operation : option OperationReceipt.OperationReceipt;
  receipt_unavailable : bool;
  stop_uncertain : bool;
  stop_running : bool;
  stop_result : option StopReport;
  last_stop : option StopReport;
  chapter_notes : list string;
  lease_holder : option string;
  deadline : option Z;
  deadline_fired : bool;
  setup_pending : bool;
  monitor_stop_running : bool;
  monitor_summary : option Monitor.Summary;
  next_stats : option Z;
  next_picture : option Z;
  program : option string
}.

(** A subscription to the supervisor's events: 256 are kept, and falling behind is noticed. *)
Record Watch := { w_events : list (string * Z * Value); w_lagged : bool }.

Definition WATCH_CAPACITY : nat := 256.

(** The local variables of [stop_once] *)
Record Locals := {
  impact_deadline : Z;
  output_path : option string;
  stop_deadline : Z;
  expectation : bool;
  watch : option Watch;
  was_stopped : bool;
  inactive : bool;
  receipt_observed : bool
}.

Definition no_locals : Locals :=
  {| impact_deadline := 0; output_path := None; stop_deadline := 0; expectation := false; watch := None;
     was_stopped := false; inactive := false; receipt_observed := false |}.

(** Where [wait_take_impact] and [monitor_stop] return to *)
Inductive AfterImpact : Type := Head | AfterStop | BeforeMonitor | AfterMonitor | Inspected | Logged.
Inductive MonitorFor : Type :=
| ForRefusal (now_inactive : bool)
| ForLost (reason : string)
| ForForeign (reason : string)
| ForResult.

(** The awaits of [stop_take] and what it calls; [Panicked] is an [expect] or [unwrap] that failed. *)
Inductive Pc : Type :=
| Enter (waiting : bool)
| WaitImpact (k : AfterImpact)
| HeadStatus
| RefusalStatus
| Sending (sent : bool)
| AwaitStopped
| PollStatus
| PollSleep (until : Z)
| MonitorWait (k : MonitorFor)
| MonitorStats (k : MonitorFor)
| MonitorDrain (k : MonitorFor)
| MonitorJoin (k : MonitorFor)
| Inspecting
| Logging
| Done (r : StopReport)
| Panicked.

Record StopTask := { on : nat; by_policy : Policy; locals : Locals; pc : Pc }.

(** What has happened to a take's Stop request, and what confirmed its end *)
Inductive Entry : Type :=
| Sent (take : nat)
| WasRejected (take : nat).

(** [StartReservation]; its cancellation is named by the start that may be cancelled. *)
Record Starting := {
  s_cancellation : option nat;
  s_impact : Z;
  s_deadline : option Z;
  s_receipt : option OperationReceipt.OperationReceipt;
  s_receipt_unavailable : bool;
  s_continuity : Continuity
}.

Record World {S : Type} := {
  registry : RecordImpact.Inner;
  borrowed : bool;
  store : S;
  control : Control.ControlDomain;
  takes : list Take;
  current : option nat;
  starting : option Starting;
  completed : option StopReport;
  closing : bool;
  closed : bool;
  instant : Z;
  epoch_ms : Z;
  utc : string;
  next_identity : nat;
  tasks : list StopTask;
  log : list Entry
}.
Arguments World : clear implicits.

Inductive DispatchOutcome : Type :=
| OkAccepted
| BeforeDispatch (message : string)
| WasRejectedBy (message : string)
| UnknownOutcome (message : string).

Section Supervisor.
Context {Lib : F64Library} {S : Type} {Wr : Writer S}.

(** The generation of the connection, fresh identities, and what is used of [Limits] *)
Context (generation : Z) (identity : nat -> string) (stop_limit stats_interval picture_interval : Z).

Notation W := (World S).

Definition upd (i : nat) (f : Take -> Take) (w : W) : W := w <| takes ::= alter f i |>.

(** A take by its handle; handles are never dangling. *)
Definition read {A} (i : nat) (d : A) (f : Take -> A) (w : W) : A :=
  match takes w !! i with Some t => f t | None => d end.

Definition no_take_continuity (i : nat) (w : W) : Continuity := read i default_continuity continuity w.

(** ** Receipts *)

Definition update (r : OperationReceipt.OperationReceipt) (u : OperationReceipt.OperationUpdate) (w : W)
  : result StoreError OperationReceipt.OperationReceipt * W :=
  let '(res, s) := w_update r u (utc w) (store w) in (res, w <| store := s |>).

Definition prepare (kind : OperationReceipt.OperationKind) (take : string) (w : W)
  : result StoreError OperationReceipt.OperationReceipt * W :=
  let '(res, s) := w_prepare (identity (next_identity w)) kind generation (utc w) (Some take) (store w) in
  (res, w <| store := s |> <| next_identity ::= Datatypes.S |>).

Definition dispatching_update : OperationReceipt.OperationUpdate :=
  {| OperationReceipt.new_phase := OperationReceipt.Dispatching;
     OperationReceipt.set_dispatched := Some None;
     OperationReceipt.set_accepted := None; OperationReceipt.set_observed := None |}.

Definition accepted_update : OperationReceipt.OperationUpdate :=
  {| OperationReceipt.new_phase := OperationReceipt.Accepted;
     OperationReceipt.set_dispatched := Some (Some true);
     OperationReceipt.set_accepted := Some (Some true); OperationReceipt.set_observed := None |}.

Definition dispatching (r : OperationReceipt.OperationReceipt) : W -> result StoreError OperationReceipt.OperationReceipt * W :=
  update r dispatching_update.

Definition accepted (r : OperationReceipt.OperationReceipt) : W -> result StoreError OperationReceipt.OperationReceipt * W :=
  update r accepted_update.

(** ** Recording impact *)

Definition revocation_text (r : RecordImpact.Revocation) : string :=
  match r with
  | RecordImpact.ConnectionIsClosed => DISCONNECTED
  | RecordImpact.OwnerIsGone => "Recording-impact owner is unavailable"
  | RecordImpact.IsPoisoned | RecordImpact.IdentityIsExhausted => "Recording-impact authority is unavailable"
  | _ => IMPACT_LOST
  end.

Definition lose (why : string) (c : Continuity) : Continuity :=
  match c_lost c with
  | Some _ => c
  | None => {| c_started := c_started c; c_stopped := c_stopped c; c_lost := Some why; c_path := c_path c |}
  end.

(** [take_impact]: [apply_impact] on the take's ticket and continuity *)
Definition take_impact (i : nat) (w : W) : RecordImpact.ImpactStatus * W :=
  let '(status, reg) := RecordImpact.check (read i 0 impact w) (borrowed w) (registry w) in
  let w := w <| registry := reg |> in
  (status,
   match status with
   | RecordImpact.Revoked r => upd i (fun t => t <| continuity ::= lose (revocation_text r) |>) w
   | _ => w
   end).

(** [RecordImpactView::changes] and the checks of [changed_until] *)
Definition changes (w : W) : bool * W :=
  let '(res, reg) := RecordImpact.touch (borrowed w) (registry w) in
  (match res with Ok _ => true | Err _ => false end, w <| registry := reg |>).

Inductive Waited : Type := Granted | Denied | Pending.

(** One turn of the loop of [wait_impact] *)
Definition impact_turn (i : nat) (w : W) : Waited * W :=
  let '(status, w) := take_impact i w in
  match status with
  | RecordImpact.Ready => (Granted, upd i (fun t => t <| blocked_impact := None |>) w)
  | RecordImpact.Revoked _ => (Denied, w)
  | RecordImpact.Suspended _ => (Pending, w)
  end.

(** [wait_take_impact] up to its first await *)
Definition wait_take_impact (i : nat) (w : W) : Waited * W :=
  let '(status, w) := take_impact i w in
  let w := match status with
           | RecordImpact.Suspended n => upd i (fun t => t <| blocked_impact := Some n |>) w
           | _ => w
           end in
  let '(ok, w) := changes w in
  if ok then impact_turn i w else let '(_, w) := take_impact i w in (Denied, w).

(** When [changed_until] returns: a change, or the deadline *)
Definition impact_woken (i : nat) (woken : bool) (until : Z) (w : W) : Waited * W :=
  let '(ok, w) := changes w in
  if negb ok then let '(_, w) := take_impact i w in (Denied, w)
  else if woken then impact_turn i w
  else if until <=? instant w then let '(_, w) := take_impact i w in (Denied, w)
  else (Pending, w).

(** ** Current take and lease *)

Definition is_current (i : nat) (w : W) : bool := bool_decide (current w = Some i).

Definition set_current (i : nat) (w : W) : W :=
  w <| control := Control.set_take_lock (control w)
         (Some {| Control.take_id := read i EmptyString id w; Control.locked := read i false lock w |}) |>
    <| current := Some i |>.

Definition clear_current (i : nat) (w : W) : W :=
  if is_current i w then w <| control := Control.set_take_lock (control w) None |> <| current := None |> else w.

Definition release_lease (i : nat) (w : W) : W :=
  match read i None lease_holder w with
  | Some holder =>
      (upd i (fun t => t <| lease_holder := None |>) w)
        <| control ::= fun c => snd (Control.release c holder (epoch_ms w)) |>
  | None => w
  end.

(** ** Reports that leave the outcome open *)

Definition ownership_of (i : nat) (status : RecordImpact.ImpactStatus) (w : W) : Ownership :=
  if negb (is_none (c_lost (no_take_continuity i w))) then Unavailable
  else match status with RecordImpact.Suspended _ => SuspendedOwnership | _ => Continuous end.

Definition is_observed (r : OperationReceipt.OperationReceipt) : bool :=
  bool_decide (OperationReceipt.phase r = OperationReceipt.Observed).

Definition uncertain (i : nat) (why : string) (w : W) : StopReport * W :=
  let w :=
    match read i None stop_operation w with
    | Some r =>
        if is_observed r then w
        else match update r (OperationReceipt.update_new OperationReceipt.Unknown) w with
             | (Ok r, w) => upd i (fun t => t <| stop_operation := Some r |>) w
             | (Err _, w) => w
             end
    | None => w
    end in
  let '(status, w) := take_impact i w in
  let op := read i None stop_operation w in
  (Uncertain (ownership_of i status w) why (OperationReceipt.operation_id <$> op) (is_some_and op is_observed), w).

(** Only the exact current reservation is retired, and only when its request was not sent. *)
Definition retire_unsent_stop (i : nat) (w : W) : result StoreError OperationReceipt.OperationReceipt * W :=
  match read i None stop_operation w with
  | None => (Err Conflict, w)
  | Some r =>
      if negb (bool_decide (OperationReceipt.phase r = OperationReceipt.Dispatching))
         || negb (bool_decide (OperationReceipt.kind r = OperationReceipt.RecordStop))
         || negb (bool_decide (OperationReceipt.take_id r = Some (read i EmptyString id w)))
         || negb (is_none (OperationReceipt.request_dispatched r))
         || negb (is_none (OperationReceipt.request_accepted r))
         || OperationReceipt.postcondition_observed r
      then (Err Conflict, w)
      else
        match update r {| OperationReceipt.new_phase := OperationReceipt.NotDispatched;
                          OperationReceipt.set_dispatched := Some (Some false);
                          OperationReceipt.set_accepted := Some None;
                          OperationReceipt.set_observed := Some false |} w with
        | (Ok retired, w) =>
            (Ok retired, upd i (fun t => t <| stop_uncertain := false |> <| stop_operation := None |>) w)
        | (Err e, w) => (Err e, w)
        end
  end.

(** ** The end of a stop *)

Definition Next : Type := Pc * Locals * W.

(** The tail of [stop_take] *)
Definition stop_end (i : nat) (r : StopReport) (l : Locals) (w : W) : Next :=
  let ended := negb (is_current i w) in
  let w := upd i (fun t => t <| stop_running := false |> <| last_stop := Some r |>) w in
  let w := if ended then (upd i (fun t => t <| stop_result := Some r |>) w) <| completed := Some r |> else w in
  (Done r, l <| watch := None |>, w).

Definition stop_uncertainly (i : nat) (why : string) (l : Locals) (w : W) : Next :=
  let '(r, w) := uncertain i why w in stop_end i r l w.

(** [impact_stop_refusal] up to its await *)
Definition impact_stop_refusal (i : nat) (l : Locals) (w : W) : Next :=
  let '(status, w) := take_impact i w in
  match status with
  | RecordImpact.Revoked _ => (RefusalStatus, l, upd i (fun t => t <| deadline := None |>) w)
  | _ => stop_end i (SuspendedStop false None) l w
  end.

Definition waited (i : nat) (k : AfterImpact) (r : Waited * W) (l : Locals) (go : Locals -> W -> Next) : Next :=
  match r with
  | (Granted, w) => go l w
  | (Denied, w) => impact_stop_refusal i l w
  | (Pending, w) => (WaitImpact k, l, w)
  end.

(** *** After inspection and log *)

Definition take_result (i : nat) (l : Locals) (w : W) : Next :=
  match output_path l with
  | Some path =>
      let op := OperationReceipt.operation_id <$> read i None stop_operation w in
      stop_end i (Confirmed path (receipt_observed l) op) l (clear_current i w)
  | None => stop_end i NoFile l w
  end.

Definition logged (i : nat) (l : Locals) (w : W) : Next :=
  waited i Logged (wait_take_impact i w) l (take_result i).

Definition write_log (i : nat) (l : Locals) (w : W) : Next :=
  if read i false local w then (Logging, l, w) else logged i l w.

Definition inspected (i : nat) (l : Locals) (w : W) : Next :=
  waited i Inspected (wait_take_impact i w) l (write_log i).

Definition observed_update : OperationReceipt.OperationUpdate :=
  {| OperationReceipt.new_phase := OperationReceipt.Observed; OperationReceipt.set_dispatched := None;
     OperationReceipt.set_accepted := None; OperationReceipt.set_observed := Some true |}.

(** The receipt of the stop: the one in hand, or a fresh one *)
Definition stop_receipt (i : nat) (w : W) : result StoreError OperationReceipt.OperationReceipt * W :=
  match read i None stop_operation w with
  | Some r => (Ok r, w)
  | None => prepare OperationReceipt.RecordStop (read i EmptyString id w) w
  end.

Definition nonempty_path (p : option string) : option string := opt_filter (fun s => negb (str_is_empty s)) p.

(** The monitor is closed: the path, the observed receipt, and the inspection of the file *)
Definition settle_file (i : nat) (l : Locals) (w : W) : Next :=
  let w := release_lease i w in
  let path := match output_path l with
              | Some path => Some path
              | None => read i None (fun t => Monitor.recording_path (Monitor.core (monitor t))) w
              end in
  match nonempty_path path with
  | None => stop_end i NoFile l (clear_current i w)
  | Some path =>
      let l := l <| output_path := Some path |> in
      let '(r, w) := stop_receipt i w in
      let '(r, w) := match r with Ok r => update r observed_update w | Err e => (Err e, w) end in
      let '(l, w) := match r with
                     | Ok r => (l <| receipt_observed := true |>, upd i (fun t => t <| stop_operation := Some r |>) w)
                     | Err _ => (l <| receipt_observed := false |>, w)
                     end in
      if read i false local w then (Inspecting, l, w) else inspected i l w
  end.

(** *** [monitor_stop] *)

(** What follows a closed monitor, or one whose observers could not be joined *)
Definition monitor_done (i : nat) (k : MonitorFor) (res : result string unit) (l : Locals) (w : W) : Next :=
  match res with
  | Err why => stop_uncertainly i why l w
  | Ok _ =>
      match k with
      | ForResult => waited i AfterMonitor (wait_take_impact i w) l (settle_file i)
      | ForForeign why => stop_uncertainly i why l w
      | ForLost why =>
          stop_uncertainly i (why +:+ "; OBS is now inactive, but the owned file cannot be established") l
            (clear_current i (release_lease i w))
      | ForRefusal now_inactive =>
          let why := default IMPACT_LOST (c_lost (no_take_continuity i w)) in
          if now_inactive then
            stop_uncertainly i (why +:+ "; OBS is now inactive, but the owned file cannot be established") l
              (clear_current i (release_lease i w))
          else stop_uncertainly i why l w
      end
  end.

(** One operation of the take's monitor *)
Definition watched (o : Monitor.op) (t : Take) : Take := t <| monitor ::= Monitor.step o |>.

(** The head of the loop of [monitor_stop] *)
Definition monitor_stop (i : nat) (k : MonitorFor) (l : Locals) (w : W) : Next :=
  match read i None monitor_summary w with
  | Some _ => monitor_done i k (Ok tt) l w
  | None =>
      if read i false monitor_stop_running w then (MonitorWait k, l, w)
      else
        (MonitorStats k, l,
         upd i (fun t => (watched (Monitor.BeginStop (epoch_ms w)) t)
                           <| monitor_stop_running := true |> <| next_stats := None |> <| next_picture := None |>) w)
  end.

(** Nothing is set up or sampled any more *)
Definition drained (t : Take) : bool :=
  negb (setup_pending t) && negb (Monitor.samples_pending (Monitor.core (monitor t))).

(** What follows the join of the observers *)
Definition seal_monitor (i : nat) (k : MonitorFor) (joined : result string unit) (l : Locals) (w : W) : Next :=
  match joined with
  | Err why =>
      monitor_done i k (Err ("Take monitor cleanup is unavailable (" +:+ why +:+ ")")) l
        (upd i (fun t => t <| monitor_stop_running := false |>) w)
  | Ok _ =>
      match read i (Err Monitor.NotStopping) (fun t => fst (Monitor.finish_cleanup (Monitor.core (monitor t)))) w with
      | Err _ => (Panicked, l, w)
      | Ok _ =>
          let w := upd i (watched Monitor.FinishCleanup) w in
          let w := upd i (fun t => t <| monitor_summary :=
                     Some (Monitor.summary (epoch_ms w) (Monitor.core (monitor t))) |>) w in
          monitor_done i k (Ok tt) l w
      end
  end.

(** *** The request and its confirmation *)

Definition before_monitor (i : nat) (l : Locals) (w : W) : Next :=
  monitor_stop i ForResult l (upd i (fun t => t <| deadline := None |>) w).

Definition to_monitor (i : nat) (l : Locals) (w : W) : Next :=
  waited i BeforeMonitor (wait_take_impact i w) l (before_monitor i).

Definition after_stop (i : nat) (l : Locals) (w : W) : Next :=
  match c_lost (no_take_continuity i w) with
  | Some why => stop_uncertainly i why l w
  | None =>
      if inactive l then to_monitor i l w
      else stop_uncertainly i "OBS did not confirm a completed stop and inactive status" l w
  end.

Definition confirmed_or_not (i : nat) (l : Locals) (w : W) : Next :=
  waited i AfterStop (wait_take_impact i w) l (after_stop i).

(** The condition of the loop that waits for the inactive status *)
Definition poll_inactive (i : nat) (l : Locals) (w : W) : Next :=
  if was_stopped l && is_none (c_lost (no_take_continuity i w)) && (instant w <? stop_deadline l)
  then (PollStatus, l, w) else confirmed_or_not i l w.

Definition polled (i : nat) (after : option bool) (l : Locals) (w : W) : Next :=
  if negb (is_none (c_lost (no_take_continuity i w))) || (stop_deadline l <=? instant w) then confirmed_or_not i l w
  else match after with
  | Some false => confirmed_or_not i (l <| inactive := true |>) w
  | Some true => (PollSleep (instant w + Z.min 200000000 (stop_deadline l - instant w)), l, w)
  | None => confirmed_or_not i l w
  end.

Definition stopped_state (data : Value) : bool :=
  is_some_and (get "outputState" data >>? as_str) (fun s => str_eqb s "OBS_WEBSOCKET_OUTPUT_STOPPED").

(** [Watch::next] in its loop: [None] waits, [Some None] is no stop, else the stop's event *)
Fixpoint next_stopped (until now : Z) (events : list (string * Z * Value))
  : option (option Value) * list (string * Z * Value) :=
  match events with
  | [] => (if until <=? now then Some None else None, [])
  | (name, at_, data) :: rest =>
      if negb (str_eqb name "RecordStateChanged") then next_stopped until now rest
      else if until <? at_ then (Some None, rest)
      else if stopped_state data then (Some (Some data), rest)
      else next_stopped until now rest
  end.

Definition await_stopped (i : nat) (l : Locals) (w : W) : Next :=
  match watch l with
  | None => poll_inactive i l w
  | Some v =>
      if w_lagged v then poll_inactive i l w
      else match next_stopped (stop_deadline l) (instant w) (w_events v) with
      | (None, rest) => (AwaitStopped, l <| watch := Some {| w_events := rest; w_lagged := false |} |>, w)
      | (Some None, _) => poll_inactive i l w
      | (Some (Some data), _) =>
          let path := match get "outputPath" data >>? as_str with
                      | Some path => Some path
                      | None => output_path l
                      end in
          poll_inactive i (l <| was_stopped := true |> <| output_path := path |>) w
      end
  end.

(** The final guard, run where the request is handed to the connection *)
Definition guard_stop (i : nat) (p : Policy) (w : W) : result string unit * W :=
  if closed w then (Err "Take supervisor is closing"%string, w)
  else if negb (is_current i w) then (Err "Take ownership is no longer current"%string, w)
  else if negb (is_none (c_lost (no_take_continuity i w))) || c_stopped (no_take_continuity i w) then
    (Err "Recording ownership changed before dispatch"%string, w)
  else
    let '(disposition, domain) := Control.evaluate (control w)
      {| Control.tool_name := "obs-take-stop"; Control.arguments := object_of [];
         Control.read_only_hint := false; Control.caller := p_caller p;
         Control.confirmation := {| Control.enabled := p_confirmation_enabled p;
                                    Control.can_elicit := p_can_elicit p;
                                    Control.input_responses := p_input_responses p |} |} (epoch_ms w) in
    let w := w <| control := domain |> in
    match disposition with
    | Control.Allow =>
        let '(status, w) := take_impact i w in
        match status with
        | RecordImpact.Ready => (Ok tt, w)
        | RecordImpact.Suspended n =>
            (Err "Recording impact blocks owned dispatch"%string, upd i (fun t => t <| blocked_impact := Some n |>) w)
        | RecordImpact.Revoked _ => (Err "Recording impact blocks owned dispatch"%string, w)
        end
    | Control.Refused _ message => (Err message, w)
    | Control.Cancelled => (Err "Cancelled; nothing was changed"%string, w)
    | Control.InputRequired _ => (Err "Take dispatch refused by policy"%string, w)
    end.

Definition rejected_update : OperationReceipt.OperationUpdate :=
  {| OperationReceipt.new_phase := OperationReceipt.Unknown; OperationReceipt.set_dispatched := Some (Some true);
     OperationReceipt.set_accepted := Some (Some false); OperationReceipt.set_observed := None |}.

(** A request that was certainly not sent *)
Definition not_sent (i : nat) (message : string) (l : Locals) (w : W) : Next :=
  match retire_unsent_stop i w with
  | (Err _, w) => stop_uncertainly i "Unsent Stop receipt could not be safely retired" l w
  | (Ok retired, w) =>
      let w := upd i (watched (Monitor.RollbackStopExpectation (expectation l))) w in
      let '(status, w) := take_impact i w in
      let op := OperationReceipt.operation_id retired in
      match status with
      | RecordImpact.Revoked _ => impact_stop_refusal i l w
      | _ =>
          if negb (is_none (read i None blocked_impact w)) then stop_end i (SuspendedStop true (Some op)) l w
          else
            let ownership := if is_none (c_lost (no_take_continuity i w)) then Continuous else Unavailable in
            stop_end i (NotSent ownership ("Stop request was not dispatched (" +:+ message +:+ ")") op) l w
      end
  end.

(** What the dispatch came to *)
Definition dispatched (i : nat) (outcome : DispatchOutcome) (l : Locals) (w : W) : Next :=
  match outcome with
  | OkAccepted =>
      match read i None stop_operation w with
      | None => (Panicked, l, w)
      | Some r =>
          match accepted r w with
          | (Ok r, w) => (AwaitStopped, l, upd i (fun t => t <| stop_operation := Some r |>) w)
          | (Err _, w) =>
              stop_uncertainly i "Stop request outcome is uncertain (Operation receipt could not be persisted or inspected; inspect obs-observe before any further production change)" l w
          end
      end
  | BeforeDispatch message => not_sent i message l w
  | WasRejectedBy message =>
      let w := (upd i (fun t => t <| stop_uncertain := false |>) w) <| log ::= fun l => l ++ [WasRejected i] |> in
      let w := match read i None stop_operation w with
               | Some r =>
                   match update r rejected_update w with
                   | (Ok r, w) => upd i (fun t => t <| stop_operation := Some r |>) w
                   | (Err _, w) => w
                   end
               | None => w
               end in
      stop_uncertainly i ("Stop request outcome is uncertain (" +:+ message +:+ ")") l w
  | UnknownOutcome message => stop_uncertainly i ("Stop request outcome is uncertain (" +:+ message +:+ ")") l w
  end.

(** From the intent to the request *)
Definition send_stop (i : nat) (l : Locals) (w : W) : Next :=
  let '(r, w) := stop_receipt i w in
  let '(r, w) := match r with Ok r => dispatching r w | Err e => (Err e, w) end in
  match r with
  | Err _ => stop_uncertainly i "Stop intent could not be persisted; no stop request was dispatched" l w
  | Ok r =>
      let expected := read i false (fun t => Monitor.stop_expected (Monitor.core (monitor t))) w in
      let w := upd i (fun t => (watched Monitor.BeginStopExpectation t)
                                 <| stop_operation := Some r |> <| stop_uncertain := true |>) w in
      (Sending false,
       l <| expectation := expected |> <| stop_deadline := instant w + stop_limit |>
         <| watch := Some {| w_events := []; w_lagged := false |} |>
         <| was_stopped := false |> <| inactive := false |>,
       w)
  end.

(** *** The head of [stop_once] *)

Definition classified (i : nat) (active : bool) (l : Locals) (w : W) : Next :=
  let c := no_take_continuity i w in
  match active, c_lost c with
  | false, Some why => monitor_stop i (ForLost why) l (upd i (fun t => t <| deadline := None |>) w)
  | true, Some why => monitor_stop i (ForForeign why) l (upd i (fun t => t <| deadline := None |>) w)
  | false, None =>
      if c_stopped c then to_monitor i (l <| output_path := c_path c |>) w
      else stop_uncertainly i "Inactive status has no matching stopped event or completed file" l w
  | true, None =>
      if c_stopped c then
        monitor_stop i (ForForeign "The owned recording stopped; the current recording may belong to another operator")
          l (upd i (fun t => t <| deadline := None |>) w)
      else if read i false stop_uncertain w then
        stop_uncertainly i "A prior stop dispatch is unresolved; only observation can reconcile it, and no stop request was replayed" l w
      else send_stop i (l <| output_path := c_path c |>) w
  end.

Definition ask_status (l : Locals) (w : W) : Next := (HeadStatus, l, w).

Definition head (i : nat) (l : Locals) (w : W) : Next :=
  waited i Head (wait_take_impact i w) l ask_status.

Definition head_status (i : nat) (answer : option bool) (l : Locals) (w : W) : Next :=
  match answer with
  | None => stop_uncertainly i "Recording status is unavailable" l w
  | Some active =>
      let '(status, w) := take_impact i w in
      match status with
      | RecordImpact.Ready => classified i active l w
      | RecordImpact.Suspended _ => head i l w
      | RecordImpact.Revoked _ => impact_stop_refusal i l w
      end
  end.

(** The head of the loop of [stop_take] *)
Definition enter (i : nat) (waiting : bool) (l : Locals) (w : W) : Next :=
  match read i None stop_result w with
  | Some r => (Done r, l, w)
  | None =>
      if waiting && negb (read i false stop_running w) then
        match read i None last_stop w with
        | Some r => (Done r, l, w)
        | None => (Panicked, l, w)
        end
      else if read i false stop_running w then (Enter true, l, w)
      else
        head i (no_locals <| impact_deadline := instant w + stop_limit |>)
          (upd i (fun t => t <| stop_running := true |>) w)
  end.

Definition after_impact (i : nat) (k : AfterImpact) : Locals -> W -> Next :=
  match k with
  | Head => ask_status
  | AfterStop => after_stop i
  | BeforeMonitor => before_monitor i
  | AfterMonitor => settle_file i
  | Inspected => write_log i
  | Logged => take_result i
  end.

(** ** Events and deadlines *)

Definition pushed (event : string * Z * Value) (v : Watch) : Watch :=
  let events := w_events v ++ [event] in
  if (WATCH_CAPACITY <? length events)%nat
  then {| w_events := drop 1 events; w_lagged := true |}
  else {| w_events := events; w_lagged := w_lagged v |}.

(** Every subscription gets the event. *)
Definition broadcast (name : string) (data : Value) (w : W) : W :=
  w <| tasks := fmap (fun t =>
    match watch (locals t) with
    | Some v => t <| locals := (locals t) <| watch := Some (pushed (name, instant w, data) v) |> |>
    | None => t
    end) (tasks w) |>.

Definition note_state (data : Value) (c : Continuity) : Continuity :=
  let state_is s := is_some_and (get "outputState" data >>? as_str) (fun x => str_eqb x s) in
  if state_is "OBS_WEBSOCKET_OUTPUT_STARTED"%string then
    {| c_started := true; c_stopped := c_stopped c;
       c_lost := if c_started c || c_stopped c then Some "A different recording may have started"%string else c_lost c;
       c_path := c_path c |}
  else if state_is "OBS_WEBSOCKET_OUTPUT_STOPPED"%string then
    {| c_started := c_started c; c_stopped := true; c_lost := c_lost c; c_path := c_path c |}
  else c.

Definition note_path (data : Value) (c : Continuity) : Continuity :=
  match c_lost c, nonempty_path (get "outputPath" data >>? as_str) with
  | None, Some path => {| c_started := c_started c; c_stopped := c_stopped c; c_lost := None; c_path := Some path |}
  | _, _ => c
  end.

Definition note (ours : bool) (name : string) (data : Value) (c : Continuity) : Continuity :=
  if negb ours || str_eqb name "disconnected" then
    {| c_started := c_started c; c_stopped := c_stopped c; c_lost := Some DISCONNECTED; c_path := c_path c |}
  else if str_eqb name "RecordStateChanged" then note_path data (note_state data c)
  else c.

(** What an event does to the current take's monitor, receipt and scene *)
Definition observe_take (i : nat) (ours : bool) (name : string) (data : Value) (w : W) : W :=
  if negb ours || str_eqb name "disconnected" then
    let w := upd i (watched (Monitor.OnDisconnect (epoch_ms w))) w in
    match read i None start_operation w with
    | Some r =>
        match update r (OperationReceipt.update_new OperationReceipt.Unknown) w with
        | (Ok r, w) => upd i (fun t => t <| start_operation := Some r |>) w
        | (Err _, w) => w
        end
    | None => w
    end
  else
    let w := upd i (watched (Monitor.OnEvent (epoch_ms w) name data)) w in
    match (if str_eqb name "CurrentProgramSceneChanged" then get "sceneName" data >>? as_str else None) with
    | Some scene => upd i (fun t => t <| program := Some scene |>) w
    | None => w
    end.

(** [observe]: [ours] says whether the event is of this connection. *)
Definition observe (ours : bool) (name : string) (data : Value) (w : W) : W :=
  let w :=
    match current w with
    | Some i => observe_take i ours name data (upd i (fun t => t <| continuity ::= note ours name data |>) w)
    | None => w <| starting ::= fmap (fun s => s <| s_continuity ::= note ours name data |>) |>
    end in
  if ours then broadcast name data w else w.

Definition eligible_deadline (at_ : option Z) (fired job_active : bool) : option Z :=
  opt_filter (fun _ => negb fired && negb job_active) at_.

Definition reserve_deadline_job (at_ : option Z) (fired job_active : bool) (now : Z) : bool :=
  is_some_and (eligible_deadline at_ fired job_active) (fun at_ => at_ <=? now).

(** [apply_impact] for a start that is under way *)
Definition starting_impact (w : W) : W :=
  match starting w with
  | None => w
  | Some s =>
      let '(status, reg) := RecordImpact.check (s_impact s) (borrowed w) (registry w) in
      let w := w <| registry := reg |> in
      match status with
      | RecordImpact.Revoked r =>
          w <| starting := Some (s <| s_continuity ::= lose (revocation_text r) |>) |>
      | _ => w
      end
  end.

Definition refresh_impacts (job_active : bool) (w : W) : W :=
  let w := starting_impact w in
  match current w with
  | None => w
  | Some i =>
      let '(status, w) := take_impact i w in
      match status with
      | RecordImpact.Ready =>
          upd i (fun t =>
            if negb (is_none (blocked_impact t)) && negb job_active && negb (stop_running t) && negb (stop_uncertain t)
            then
              let t := t <| blocked_impact := None |> in
              if negb (is_none (deadline t)) then t <| deadline_fired := false |> else t
            else t) w
      | RecordImpact.Suspended n =>
          upd i (fun t => if is_none (blocked_impact t) then t else t <| blocked_impact := Some n |>) w
      | RecordImpact.Revoked _ => upd i (fun t => t <| blocked_impact := None |>) w
      end
  end.

(** ** Runs *)

(** [MonitorSetup], as the OBS adapter read it *)
Record Setup := {
  record_tracks : list Z;
  input_tracks : gmap string (list (string * Value));
  tracks_error : option string;
  program_scene : Value;
  setup_stats : option Value;
  supports_ppm : bool
}.

Definition watched_opt {A} (i : nat) (x : option A) (o : A -> Monitor.op) (w : W) : W :=
  match x with Some a => upd i (watched (o a)) w | None => w end.

Definition setup_completed (i : nat) (ppm : bool) (w : W) : W :=
  let running := read i false (fun t => fst (Monitor.complete_setup (epoch_ms w) ppm (Monitor.core (monitor t)))) w in
  let w := upd i (watched (Monitor.CompleteSetup (epoch_ms w) ppm)) w in
  if running then
    upd i (fun t => t <| next_stats := Some (instant w + stats_interval) |>
                      <| next_picture ::= fun p => if ppm then Some (instant w + picture_interval) else p |>) w
  else w.

(** The end of the monitor's setup, in [start_reserved_core] *)
Definition setup_done (i : nat) (setup : option Setup) (w : W) : W :=
  let w := upd i (fun t => t <| setup_pending := false |>) w in
  match setup with
  | None => w
  | Some s =>
      let w := upd i (watched (Monitor.LoadTracks (record_tracks s) (input_tracks s))) w in
      let w := watched_opt i (tracks_error s) (Monitor.TracksUnknown (epoch_ms w)) w in
      let w := upd i (watched (Monitor.LoadProgramScene (program_scene s))) w in
      let w := upd i (fun t => t <| program :=
                 (match opt_filter (fun v => negb (is_null v)) (get "currentProgramSceneName" (program_scene s)) with
                  | Some v => Some v
                  | None => get "sceneName" (program_scene s)
                  end) >>? as_str |>) w in
      let w := watched_opt i (setup_stats s) (Monitor.ObserveStats (epoch_ms w)) w in
      setup_completed i (supports_ppm s) w
  end.

(** [schedule] for one kind of sample: due samples begin, and the next is planned. *)
Definition schedule_kind (i : nat) (kind : Monitor.SampleKind) (w : W) : W :=
  let next := read i None (match kind with Monitor.Stats => next_stats | Monitor.Picture => next_picture end) w in
  match next with
  | None => w
  | Some at_ =>
      if at_ <=? instant w then
        let w := upd i (fun t =>
          match kind with
          | Monitor.Stats => t <| next_stats := Some (instant w + stats_interval) |>
          | Monitor.Picture => t <| next_picture := Some (instant w + picture_interval) |>
          end) w in
        upd i (watched (Monitor.BeginSample kind)) w
      else w
  end.

Definition schedule (w : W) : W :=
  match current w with
  | Some i => schedule_kind i Monitor.Picture (schedule_kind i Monitor.Stats w)
  | None => w
  end.

(** What [start_report] does: the caller of the start claims control, and the impact is checked. *)
Definition start_report (i : nat) (w : W) : W :=
  let caller := read i EmptyString (fun t => p_caller (policy t)) w in
  let '(outcome, c) := Control.claim (control w) caller 240 ("recording take " +:+ read i EmptyString id w) (epoch_ms w) in
  let w := w <| control := c |> in
  let w := match outcome with
           | Ok (Control.Claimed _) => upd i (fun t => t <| lease_holder := Some caller |>) w
           | _ => w
           end in
  snd (take_impact i w).

(** What may happen next: a task's await returns, or something else changes the shared state.
    [Elsewhere] stands for every other component: control, receipts and recording impact. *)
Inductive Input : Type :=
| Spawn (i : nat) (p : Policy)
| Poll (k : nat) (woken : bool)
| StatusAnswer (k : nat) (answer : option bool)
| GuardRuns (k : nat)
| DispatchReturns (k : nat) (outcome : DispatchOutcome)
| StatsAnswer (k : nat) (stats : option Value)
| ObserversJoined (k : nat) (res : result string unit)
| FileDone (k : nat)
| Observe (ours : bool) (name : string) (data : Value)
| Refresh (job_active : bool)
| Due (job_active : bool)
| Schedule
| SampleDone (i k : nat) (o : Monitor.SampleObservation)
| SampleDropped (i k : nat)
| Mark (i : nat) (name : string)
| SetupDone (i : nat) (setup : option Setup)
| Report (i : nat)
| Elsewhere (reg : RecordImpact.Inner) (is_borrowed : bool) (s : S) (c : Control.ControlDomain)
| Clock (elapsed : Z) (epoch : Z) (text : string)
| Closing (is_closed : bool)
| Start (t : Take)
| Reserve (s : option Starting) (forgets : bool)
| FreshIdentity
| CheckImpact (i : nat)
| Note (i : nat) (note : string).

Definition put (k : nat) (t : StopTask) (n : Next) : W :=
  let '(p, l, w) := n in
  w <| tasks ::= <[k := {| on := on t; by_policy := by_policy t; locals := l; pc := p |}]> |>.

(** A take as [start_reserved_core] makes it *)
Definition is_fresh (t : Take) : Prop :=
  stop_operation t = None /\ stop_uncertain t = false /\ stop_running t = false /\ stop_result t = None
  /\ last_stop t = None /\ monitor_stop_running t = false /\ monitor_summary t = None
  /\ setup_pending t = true /\ deadline_fired t = false
  /\ exists owner at_ms at_text opts, monitor t = Monitor.start owner at_ms at_text opts.

Definition resume (a : Input) (k : nat) (t : StopTask) (w : W) : W :=
  let i := on t in
  let l := locals t in
  match a, pc t with
  | Poll _ _, Enter waiting => put k t (enter i waiting l w)
  | Poll _ woken, WaitImpact a => put k t (waited i a (impact_woken i woken (impact_deadline l) w) l (after_impact i a))
  | Poll _ _, AwaitStopped => put k t (await_stopped i l w)
  | Poll _ _, PollSleep until => if until <=? instant w then put k t (poll_inactive i l w) else w
  | Poll _ _, MonitorWait m => put k t (monitor_stop i m l w)
  | Poll _ _, MonitorDrain m => if read i false drained w then put k t (MonitorJoin m, l, w) else w
  | StatusAnswer _ answer, HeadStatus => put k t (head_status i answer l w)
  | StatusAnswer _ answer, RefusalStatus =>
      put k t (monitor_stop i (ForRefusal (bool_decide (answer = Some false))) l w)
  | StatusAnswer _ answer, PollStatus => put k t (polled i answer l w)
  | GuardRuns _, Sending false =>
      match guard_stop i (by_policy t) w with
      | (Ok _, w) => put k t (Sending true, l, w <| log ::= fun l => l ++ [Sent i] |>)
      | (Err message, w) => put k t (dispatched i (BeforeDispatch message) l w)
      end
  | DispatchReturns _ outcome, Sending sent =>
      match outcome, sent with
      | BeforeDispatch _, false | OkAccepted, true | WasRejectedBy _, true | UnknownOutcome _, _ =>
          put k t (dispatched i outcome l w)
      | _, _ => w
      end
  | StatsAnswer _ stats, MonitorStats m =>
      let w := match stats with
               | Some stats => upd i (watched (Monitor.ObserveStats (epoch_ms w) stats)) w
               | None => w
               end in
      put k t (MonitorDrain m, l, w)
  | ObserversJoined _ joined, MonitorJoin m => put k t (seal_monitor i m joined l w)
  | FileDone _, Inspecting => put k t (inspected i l w)
  | FileDone _, Logging => put k t (logged i l w)
  | _, _ => w
  end.

Definition task_of (a : Input) : option nat :=
  match a with
  | Poll k _ | StatusAnswer k _ | GuardRuns k | DispatchReturns k _ | StatsAnswer k _ | ObserversJoined k _
  | FileDone k => Some k
  | _ => None
  end.

Definition new_task (i : nat) (p : Policy) : StopTask := {| on := i; by_policy := p; locals := no_locals; pc := Enter false |}.

Definition environment (a : Input) (w : W) : W :=
  match a with
  | Spawn i p => if is_none (takes w !! i) then w else w <| tasks := tasks w ++ [new_task i p] |>
  | Observe ours name data => observe ours name data w
  | Refresh job => refresh_impacts job w
  | Due job =>
      match current w with
      | Some i =>
          if read i false (fun t => reserve_deadline_job (deadline t) (deadline_fired t) job (instant w)) w then
            (upd i (fun t => t <| deadline_fired := true |>) w)
              <| tasks ::= fun l => l ++ [new_task i (internal_policy (read i {| p_caller := EmptyString;
                   p_confirmation_enabled := false; p_can_elicit := false; p_input_responses := None |} policy w))] |>
          else w
      | None => w
      end
  | Schedule => schedule w
  | SampleDone i k o => upd i (watched (Monitor.FinishSample k (epoch_ms w) o)) w
  | SampleDropped i k => upd i (watched (Monitor.DropTicket k)) w
  | Mark i name => upd i (watched (Monitor.Mark (epoch_ms w) name)) w
  | SetupDone i setup => if read i false setup_pending w then setup_done i setup w else w
  | Report i => start_report i w
  | Elsewhere reg b s c => w <| registry := reg |> <| borrowed := b |> <| store := s |> <| control := c |>
  | Clock elapsed epoch text =>
      if 0 <=? elapsed then w <| instant ::= Z.add elapsed |> <| epoch_ms := epoch |> <| utc := text |> else w
  | Closing is_closed => w <| closing := true |> <| closed := is_closed || closed w |>
  | Start t => if is_none (current w) then set_current (length (takes w)) (w <| takes := takes w ++ [t] |>) else w
  | Reserve s forgets => w <| starting := s |> <| completed ::= fun c => if forgets then None else c |>
  | FreshIdentity => w <| next_identity ::= Datatypes.S |>
  | CheckImpact i => snd (take_impact i w)
  | Note i note => upd i (fun t => t <| chapter_notes ::= fun l => l ++ [note] |>) w
  | _ => w
  end.

Definition step (a : Input) (w : W) : W :=
  match task_of a with
  | Some k => match tasks w !! k with Some t => resume a k t w | None => w end
  | None => environment a w
  end.
End Supervisor.
