(* ===== verification/TakeStopSafety.v ===== *)
(** * What a stop never does

    Theorems on [TakeStop]: whatever the order of answers, events and other stops, the Stop
    request of a take is not replayed, is sent only under the authority the guard checks, never
    runs into a failed [expect], and a stop reported as confirmed was seen to stop.  The proofs
    are one invariant of the reachable worlds ([world_ok]), kept by the steps of a stop
    ([next_ok]) and by everything else that happens ([outside]). *)
From coqutil Require Import Datatypes.RecordSettersUsingExistingGetters.
From S2P Require Import Prelude Json Number.
From S2P Require Import ReceiptFields.
From S2P Require RecordImpact Control OperationReceipt Monitor.
From S2P Require Import TakeStop.

Ltac simpl_set := simpl; unfold RecordSettersUsingExistingGetters.const.

(** ** What is stated *)

(** The Stop request of a take: not outstanding, outstanding, or ([None]) sent while outstanding *)
Definition after_entry (i : nat) (st : option bool) (e : Entry) : option bool :=
  match st, e with
  | None, _ => None
  | Some out, Sent j => if bool_decide (j = i) then (if out then None else Some true) else st
  | Some out, WasRejected j => if bool_decide (j = i) then (if out then Some false else None) else st
  end.

Definition outstanding (i : nat) (l : list Entry) : option bool := fold_left (after_entry i) l (Some false).

Definition about (e : Entry) : nat := match e with Sent i | WasRejected i => i end.

Lemma outstanding_app i l e : outstanding i (l ++ [e]) = after_entry i (outstanding i l) e.
Proof. unfold outstanding. by rewrite fold_left_app. Qed.

Lemma outstanding_other i l e : about e <> i -> outstanding i (l ++ [e]) = outstanding i l.
Proof.
  intros H. rewrite outstanding_app. destruct (outstanding i l) as [out|]; [|done].
  destruct e; simpl in *; by rewrite bool_decide_eq_false_2.
Qed.

Lemma outstanding_sent i l : outstanding i l = Some false -> outstanding i (l ++ [Sent i]) = Some true.
Proof. intros H. rewrite outstanding_app, H. simpl. by rewrite bool_decide_eq_true_2. Qed.

Lemma outstanding_rejected i l : outstanding i l = Some true -> outstanding i (l ++ [WasRejected i]) = Some false.
Proof. intros H. rewrite outstanding_app, H. simpl. by rewrite bool_decide_eq_true_2. Qed.

Definition running (p : Pc) : bool :=
  match p with Enter _ | Done _ | Panicked => false | _ => true end.

Section Safety.
Context {Lib : F64Library} {S : Type} {Wr : Writer S} {Laws : WriterLaws S}.
Context (generation : Z) (identity : nat -> string) (stop_limit stats_interval picture_interval : Z).

Notation W := (World S).
Notation step := (step generation identity stop_limit stats_interval picture_interval).

(** A supervisor that has not started a take *)
Definition initial (w : W) : Prop :=
  takes w = [] /\ current w = None /\ tasks w = [] /\ log w = [].

(** Only fresh takes are started; of every other step nothing is asked. *)
Definition allowed (a : Input (S := S)) : Prop := match a with Start t => is_fresh t | _ => True end.

Inductive reached : W -> Prop :=
| reached_initial w : initial w -> reached w
| reached_step a w : reached w -> allowed a -> reached (step a w).

(** ** The invariant *)

Definition stopped_monitor (t : Take) : Prop := Monitor.stopped_at_ms (Monitor.core (monitor t)) <> None.
Definition mon_free (t : Take) : Prop := monitor_stop_running t = false \/ monitor_summary t <> None.
Definition op_dispatching (t : Take) : Prop :=
  exists r, stop_operation t = Some r /\ OperationReceipt.phase r = OperationReceipt.Dispatching.

Definition stop_event (e : string * Z * Value) : Prop :=
  fst (fst e) = "RecordStateChanged"%string /\ stopped_state (snd e) = true.

(** A stop that was seen while the take is current is in its continuity. *)
Definition watch_ok (l : Locals) (t : Take) (cur : bool) : Prop :=
  match watch l with
  | Some v => cur = true -> Exists stop_event (w_events v) -> c_stopped (continuity t) = true
  | None => True
  end.

Definition has_path (l : Locals) : Prop := exists path, output_path l = Some path /\ path <> EmptyString.

Definition closed_monitor (t : Take) : Prop := c_stopped (continuity t) = true /\ monitor_summary t <> None.

Definition monitoring (k : MonitorFor) (t : Take) : Prop :=
  stopped_monitor t /\ match k with ForResult => c_stopped (continuity t) = true | _ => True end.

(** What holds where a stop waits for its recording authority *)
Definition wait_stage (k : AfterImpact) (l : Locals) (t : Take) : Prop :=
  match k with
  | Head => True
  | AfterStop => inactive l = true -> c_stopped (continuity t) = true
  | BeforeMonitor => c_stopped (continuity t) = true
  | AfterMonitor => closed_monitor t
  | Inspected | Logged => closed_monitor t /\ has_path l
  end.

Definition sending (l : Locals) (t : Take) (cur : bool) : Prop :=
  op_dispatching t /\ watch_ok l t cur /\ inactive l = false /\ was_stopped l = false.

(** What holds where a stop waits *)
Definition stage (p : Pc) (l : Locals) (t : Take) (cur : bool) (out : option bool) : Prop :=
  match p with
  | MonitorStats k | MonitorDrain k => monitoring k t
  | MonitorJoin k => monitoring k t /\ drained t = true
  | _ =>
      mon_free t /\
      match p with
      | WaitImpact k => wait_stage k l t
      | HeadStatus | RefusalStatus => True
      | Sending false => out = Some false /\ stop_uncertain t = true /\ sending l t cur
      | Sending true => out = Some true /\ cur = true /\ sending l t cur
      | AwaitStopped => cur = true /\ watch_ok l t cur /\ inactive l = false /\ was_stopped l = false
      | PollStatus | PollSleep _ => c_stopped (continuity t) = true
      | Inspecting | Logging => closed_monitor t /\ has_path l
      | _ => False
      end
  end.

(** What a confirmed stop means *)
Definition confirmed_ok (r : StopReport) (t : Take) (cur : bool) : Prop :=
  match r with
  | Confirmed path _ _ => closed_monitor t /\ cur = false /\ path <> EmptyString
  | _ => True
  end.

(** The monitor is well formed, an outstanding request is marked, and what was reported holds. *)
Definition take_ok (i : nat) (w : W) (t : Take) : Prop :=
  Monitor.monitor_ok (monitor t) /\ outstanding i (log w) <> None
  /\ (outstanding i (log w) = Some true -> stop_uncertain t = true)
  /\ (stop_result t <> None -> is_current i w = false)
  /\ (forall r, stop_result t = Some r \/ last_stop t = Some r -> confirmed_ok r t (is_current i w)).

Definition task_ok (w : W) (k : StopTask) : Prop :=
  exists t, takes w !! on k = Some t /\
  match pc k with
  | Enter waiting => waiting = true -> stop_running t = true \/ last_stop t <> None
  | Done r => confirmed_ok r t (is_current (on k) w)
  | Panicked => False
  | p => stop_running t = true /\ stop_result t = None
         /\ stage p (locals k) t (is_current (on k) w) (outstanding (on k) (log w))
  end.

Record world_ok (w : W) : Prop := {
  wo_takes i t : takes w !! i = Some t -> take_ok i w t /\ (stop_running t = false -> mon_free t);
  wo_tasks k t : tasks w !! k = Some t -> task_ok w t;
  wo_one k1 k2 t1 t2 : tasks w !! k1 = Some t1 -> tasks w !! k2 = Some t2 -> on t1 = on t2 ->
    running (pc t1) = true -> running (pc t2) = true -> k1 = k2;
  wo_log i : (length (takes w) <= i)%nat -> outstanding i (log w) = Some false;
  wo_current i : current w = Some i -> (i < length (takes w))%nat
}.

(** ** Effects on one take *)

(** What the bookkeeping of a stop leaves alone *)
Record kept (t t' : Take) : Prop := {
  kp_op : stop_operation t' = stop_operation t;
  kp_uncertain : stop_uncertain t' = stop_uncertain t;
  kp_running : stop_running t' = stop_running t;
  kp_result : stop_result t' = stop_result t;
  kp_last : last_stop t' = last_stop t;
  kp_monitor : monitor t' = monitor t;
  kp_summary : monitor_summary t' = monitor_summary t;
  kp_mon : monitor_stop_running t' = monitor_stop_running t;
  kp_setup : setup_pending t' = setup_pending t;
  kp_id : id t' = id t;
  kp_stopped : c_stopped (continuity t') = c_stopped (continuity t)
}.

Lemma kept_refl t : kept t t.
Proof. by split. Qed.

Lemma kept_trans t1 t2 t3 : kept t1 t2 -> kept t2 t3 -> kept t1 t3.
Proof. intros [] []. split; congruence. Qed.

(** As [kept], but for the receipt of the stop *)
Definition kept_but_op (t t' : Take) : Prop := kept (t <| stop_operation := stop_operation t' |>) t'.

Record grown (t t' : Take) : Prop := {
  gr_stopped : c_stopped (continuity t) = true -> c_stopped (continuity t') = true;
  gr_summary : monitor_summary t <> None -> monitor_summary t' <> None;
  gr_last : last_stop t <> None -> last_stop t' <> None
}.

Lemma grown_trans t1 t2 t3 : grown t1 t2 -> grown t2 t3 -> grown t1 t3.
Proof. intros [] []. split; auto. Qed.

Lemma kept_grown t t' : kept t t' -> grown t t'.
Proof. intros []. split; congruence. Qed.

(** A change of the world that is a change of one take, and may end its being current *)
Record acts (R : Take -> Take -> Prop) (i : nat) (w w' : W) : Prop := {
  ac_tasks : tasks w' = tasks w;
  ac_log : log w' = log w;
  ac_takes : exists t t', takes w !! i = Some t /\ takes w' = <[i := t']> (takes w) /\ R t t';
  ac_current : current w' = current w \/ current w = Some i /\ current w' = None
}.

Lemma acts_trans R (HR : forall t1 t2 t3, R t1 t2 -> R t2 t3 -> R t1 t3) i w1 w2 w3 :
  acts R i w1 w2 -> acts R i w2 w3 -> acts R i w1 w3.
Proof.
  intros [T1 L1 (t1 & t2 & E1 & F1 & G1) C1] [T2 L2 (t2' & t3 & E2 & F2 & G2) C2].
  assert (t2' = t2) as ->.
  { rewrite F1, list_lookup_insert_eq in E2 by (by eapply lookup_lt_Some). congruence. }
  split; [congruence|congruence| |naive_solver congruence].
  exists t1, t3. split; [done|]. split; [by rewrite F2, F1, list_insert_insert_eq|]. by eapply HR.
Qed.

Lemma acts_weaken (R R' : Take -> Take -> Prop) i w w' :
  (forall t t', R t t' -> R' t t') -> acts R i w w' -> acts R' i w w'.
Proof. intros H [T L (t & t' & E & F & G) C]. split; [done|done| |done]. exists t, t'. auto. Qed.

Lemma upd_takes i f (w : W) t : takes w !! i = Some t -> takes (upd i f w) = <[i := f t]> (takes w).
Proof.
  intros H. unfold upd. simpl_set. apply list_eq. intros j. destruct (decide (j = i)) as [->|Hj].
  - by rewrite list_lookup_alter_eq, H, list_lookup_insert_eq by (by eapply lookup_lt_Some).
  - by rewrite list_lookup_alter_ne, list_lookup_insert_ne by done.
Qed.

Lemma acts_upd (R : Take -> Take -> Prop) i f (w : W) t :
  takes w !! i = Some t -> R t (f t) -> acts R i w (upd i f w).
Proof. intros H HR. split; [done|done| |by left]. exists t, (f t). split; [done|]. split; [by apply upd_takes|done]. Qed.

(** A change that leaves the takes alone *)
Lemma acts_same (R : Take -> Take -> Prop) i (w w' : W) t :
  takes w !! i = Some t -> R t t -> tasks w' = tasks w -> log w' = log w -> takes w' = takes w ->
  (current w' = current w \/ current w = Some i /\ current w' = None) -> acts R i w w'.
Proof.
  intros H HR ? ? E ?. split; [done|done| |done]. exists t, t. split; [done|].
  split; [by rewrite E, list_insert_id|done].
Qed.

Lemma confirmed_grown r t t' (cur cur' : bool) :
  grown t t' -> (cur = false -> cur' = false) -> confirmed_ok r t cur -> confirmed_ok r t' cur'.
Proof. intros [G1 G2 _] Hc. destruct r; try done. intros [[C1 C2] [C3 C4]]. split; [by split; auto|auto]. Qed.

Lemma take_ok_grown i (w w' : W) t t' :
  take_ok i w t -> grown t t' -> Monitor.monitor_ok (monitor t') -> outstanding i (log w') <> None ->
  (outstanding i (log w') = Some true -> stop_uncertain t' = true) ->
  stop_result t' = stop_result t -> last_stop t' = last_stop t ->
  (is_current i w = false -> is_current i w' = false) -> take_ok i w' t'.
Proof.
  intros (_ & _ & _ & R & Q) G M O U ER EL Hc. split; [done|]. split; [done|]. split; [done|]. rewrite ER, EL.
  split; [by auto|]. intros r Hr. eapply confirmed_grown; eauto.
Qed.

Lemma is_current_mono i j (w w' : W) :
  current w' = current w \/ current w = Some i /\ current w' = None ->
  is_current j w = false -> is_current j w' = false.
Proof. unfold is_current. rewrite !bool_decide_eq_false. intros [->|[_ ->]]; [done|by intros _ [=]]. Qed.

Definition calm := acts kept.

Lemma calm_trans i w1 w2 w3 : calm i w1 w2 -> calm i w2 w3 -> calm i w1 w3.
Proof. apply acts_trans. apply kept_trans. Qed.

Lemma acts_take R i w w' t :
  takes w !! i = Some t -> acts R i w w' -> exists t', takes w' !! i = Some t' /\ R t t'.
Proof.
  intros H [_ _ (t1 & t' & E & F & G) _]. exists t'. split.
  - by rewrite F, list_lookup_insert_eq by (by eapply lookup_lt_Some).
  - congruence.
Qed.

Lemma read_at {A} i (d : A) f (w : W) t : takes w !! i = Some t -> read i d f w = f t.
Proof. unfold read. by intros ->. Qed.

(** ** The bookkeeping of a stop *)

(** A change of the world that leaves the takes alone *)
Ltac same_takes := eapply acts_same; [eassumption|apply kept_refl|done|done|done|first [by left|by right]].

Lemma kept_continuity t f : (forall c, c_stopped (f c) = c_stopped c) -> kept t (t <| continuity ::= f |>).
Proof. intros H. split; try done. apply H. Qed.

Lemma lose_stopped why c : c_stopped (lose why c) = c_stopped c.
Proof. unfold lose. by destruct (c_lost c). Qed.

Lemma take_impact_calm i (w : W) t : takes w !! i = Some t -> calm i w (snd (take_impact i w)).
Proof.
  intros H. unfold take_impact. destruct (RecordImpact.check _ _ _) as [status reg]. simpl.
  set (w1 := w <| registry := reg |>).
  assert (calm i w w1) as H1 by (same_takes).
  destruct status; try exact H1. eapply calm_trans; [exact H1|]. eapply acts_upd; [exact H|].
  apply kept_continuity, lose_stopped.
Qed.

Lemma changes_calm i (w : W) t : takes w !! i = Some t -> calm i w (snd (changes w)).
Proof.
  intros H. unfold changes. destruct (RecordImpact.touch _ _) as [res reg].
  same_takes.
Qed.

(** Chains a calm step of the goal's world *)
Ltac calm_take t' H' :=
  match goal with
  | H : takes ?w !! ?i = Some _, C : calm ?i ?w ?w' |- _ => destruct (acts_take _ _ _ _ _ H C) as (t' & H' & _)
  end.

Lemma impact_turn_calm i (w : W) t : takes w !! i = Some t -> calm i w (snd (impact_turn i w)).
Proof.
  intros H. pose proof (take_impact_calm i w t H) as C. unfold impact_turn.
  destruct (take_impact i w) as [status w1]; simpl in C. calm_take t1 H1.
  destruct status; try exact C. eapply calm_trans; [exact C|]. by eapply acts_upd.
Qed.

Lemma wait_take_impact_calm i (w : W) t : takes w !! i = Some t -> calm i w (snd (wait_take_impact i w)).
Proof.
  intros H. pose proof (take_impact_calm i w t H) as C. unfold wait_take_impact.
  destruct (take_impact i w) as [status w1]; simpl in C. calm_take t1 H1.
  set (w2 := match status with RecordImpact.Suspended n => _ | _ => _ end).
  assert (calm i w w2) as C2.
  { destruct status; try exact C. eapply calm_trans; [exact C|]. by eapply acts_upd. }
  clearbody w2. clear C H1 t1. calm_take t2 H2. pose proof (changes_calm i w2 t2 H2) as C3.
  destruct (changes w2) as [ok w3]; simpl in C3. pose proof (calm_trans _ _ _ _ C2 C3) as C4.
  clear C2 C3. clear H2 t2. calm_take t3 H3. destruct ok.
  - eapply calm_trans; [exact C4|]. by eapply impact_turn_calm.
  - pose proof (take_impact_calm i w3 t3 H3) as C5. destruct (take_impact i w3). by eapply calm_trans.
Qed.

Lemma impact_woken_calm i woken until (w : W) t :
  takes w !! i = Some t -> calm i w (snd (impact_woken i woken until w)).
Proof.
  intros H. unfold impact_woken. pose proof (changes_calm i w t H) as C.
  destruct (changes w) as [ok w1]; simpl in C. calm_take t1 H1.
  pose proof (take_impact_calm i w1 t1 H1) as C1. pose proof (calm_trans _ _ _ _ C C1) as C2.
  destruct (negb ok); [by destruct (take_impact i w1)|].
  destruct woken; [eapply calm_trans; [exact C|]; by eapply impact_turn_calm|].
  destruct (until <=? instant w1); [by destruct (take_impact i w1)|exact C].
Qed.

Lemma release_lease_calm i (w : W) t : takes w !! i = Some t -> calm i w (release_lease i w).
Proof.
  intros H. unfold release_lease. destruct (read i None lease_holder w) as [holder|].
  - assert (calm i w (upd i (fun t => t <| lease_holder := None |>) w)) as [T L K C] by by eapply acts_upd.
    by split.
  - same_takes.
Qed.

Lemma clear_current_calm i (w : W) t : takes w !! i = Some t -> calm i w (clear_current i w).
Proof.
  intros H. unfold clear_current, is_current. case_bool_decide; same_takes.
Qed.

Lemma clear_current_not i (w : W) : is_current i (clear_current i w) = false.
Proof.
  unfold clear_current, is_current. destruct (bool_decide (current w = Some i)) eqn:E; [done|exact E].
Qed.

Lemma update_calm i r u (w : W) t :
  takes w !! i = Some t -> calm i w (snd (update r u w)).
Proof.
  intros H. unfold update. destruct (w_update _ _ _ _) as [res s]. same_takes.
Qed.

Lemma prepare_calm i kind id (w : W) t :
  takes w !! i = Some t -> calm i w (snd (prepare generation identity kind id w)).
Proof.
  intros H. unfold prepare. destruct (w_prepare _ _ _ _ _ _) as [res s].
  same_takes.
Qed.

Lemma update_is r u (w : W) r' w' : update r u w = (Ok r', w') -> r' = OperationReceipt.updated_record r u (utc w).
Proof.
  unfold update. destruct (w_update _ _ _ _) as [res s] eqn:E. intros [= -> <-]. by eapply w_updated.
Qed.

Lemma kept_but_op_refl t : kept_but_op t t.
Proof. by split. Qed.

Lemma kept_but_op_trans t1 t2 t3 : kept_but_op t1 t2 -> kept_but_op t2 t3 -> kept_but_op t1 t3.
Proof. intros [] []. split; [done|..]; simpl in *; congruence. Qed.

Lemma kept_kept_but_op t t' : kept t t' -> kept_but_op t t'.
Proof. intros []. split; [done|..]; simpl; congruence. Qed.

Definition noting := acts kept_but_op.

Lemma noting_trans i w1 w2 w3 : noting i w1 w2 -> noting i w2 w3 -> noting i w1 w3.
Proof. apply acts_trans. apply kept_but_op_trans. Qed.

Lemma calm_noting i w w' : calm i w w' -> noting i w w'.
Proof. apply acts_weaken. apply kept_kept_but_op. Qed.

Lemma set_op_noting i r (w : W) t :
  takes w !! i = Some t -> noting i w (upd i (fun t => t <| stop_operation := Some r |>) w).
Proof. intros H. eapply acts_upd; [exact H|]. by split. Qed.

Lemma uncertain_noting i why (w : W) t : takes w !! i = Some t -> noting i w (snd (uncertain i why w)).
Proof.
  intros H. unfold uncertain. set (w1 := match read i None stop_operation w with Some r => _ | None => _ end).
  assert (noting i w w1) as C1.
  { unfold w1. destruct (read i None stop_operation w) as [r|]; [|by apply calm_noting; same_takes].
    destruct (is_observed r); [by apply calm_noting; same_takes|].
    pose proof (update_calm i r (OperationReceipt.update_new OperationReceipt.Unknown) w t H) as C.
    destruct (update _ _ _) as [[r'|e] w']; simpl in C; [|by apply calm_noting].
    calm_take t' H'. eapply noting_trans; [by apply calm_noting|]. by eapply set_op_noting. }
  clearbody w1. destruct (acts_take _ _ _ _ _ H C1) as (t1 & H1 & _).
  pose proof (take_impact_calm i w1 t1 H1) as C2. destruct (take_impact i w1) as [status w2].
  eapply noting_trans; [exact C1|]. by apply calm_noting.
Qed.

(** ** The steps of a stop *)

(** A take whose stop is running *)
Definition base (i : nat) (w : W) (t : Take) : Prop :=
  takes w !! i = Some t /\ take_ok i w t /\ stop_running t = true /\ stop_result t = None.

Record frame (i : nat) (w w' : W) : Prop := {
  fr_tasks : tasks w' = tasks w;
  fr_takes : exists t t', takes w !! i = Some t /\ takes w' = <[i := t']> (takes w) /\ grown t t';
  fr_current : current w' = current w \/ current w = Some i /\ current w' = None;
  fr_log : forall j, j <> i -> outstanding j (log w') = outstanding j (log w)
}.


Lemma frame_trans i w1 w2 w3 : frame i w1 w2 -> frame i w2 w3 -> frame i w1 w3.
Proof.
  intros [T1 (t1 & t2 & E1 & F1 & G1) C1 L1] [T2 (t2' & t3 & E2 & F2 & G2) C2 L2].
  assert (t2' = t2) as ->.
  { rewrite F1, list_lookup_insert_eq in E2 by (by eapply lookup_lt_Some). congruence. }
  split; [congruence| |naive_solver congruence|intros j Hj; by rewrite L2, L1].
  exists t1, t3. split; [done|]. split; [by rewrite F2, F1, list_insert_insert_eq|]. by eapply grown_trans.
Qed.

Lemma kept_but_op_grown t t' : kept_but_op t t' -> grown t t'.
Proof. intros []; simpl in *. split; congruence. Qed.

(** A change whose only entries in the log are rejections *)
Definition rejections (i : nat) (w w' : W) : Prop :=
  exists l, log w' = log w ++ l /\ Forall (eq (WasRejected i)) l.

Definition silent (i : nat) (w w' : W) : Prop := frame i w w' /\ rejections i w w'.

Lemma silent_log i w w' : frame i w w' -> log w' = log w -> silent i w w'.
Proof. intros F E. split; [done|]. exists []. by rewrite app_nil_r. Qed.

Lemma silent_after i w1 w2 w3 : silent i w1 w2 -> silent i w2 w3 -> silent i w1 w3.
Proof.
  intros [F1 (l1 & E1 & A1)] [F2 (l2 & E2 & A2)]. split; [by eapply frame_trans|]. exists (l1 ++ l2).
  rewrite E2, E1, app_assoc. split; [done|]. by apply Forall_app.
Qed.

Lemma acts_silent R i w w' : (forall t t', R t t' -> grown t t') -> acts R i w w' -> silent i w w'.
Proof.
  intros HR [T L (t & t' & E & F & G) C]. apply silent_log; [|done].
  split; [done| |done|by rewrite L]. exists t, t'. auto.
Qed.

Lemma noting_silent i w w' : noting i w w' -> silent i w w'.
Proof. apply acts_silent, kept_but_op_grown. Qed.

(** Where a step of a stop ends *)
Definition good (i : nat) (n : Next) : Prop :=
  let '(p, l, w) := n in
  exists t, takes w !! i = Some t /\ take_ok i w t /\ stop_running t = running p /\
  match p with
  | Enter _ | Panicked => False
  | Done r => last_stop t = Some r /\ mon_free t /\ confirmed_ok r t (is_current i w)
  | _ => stop_result t = None /\ stage p l t (is_current i w) (outstanding i (log w))
  end.

Definition next_ok (i : nat) (w : W) (n : Next) : Prop := silent i w (snd n) /\ good i n.

Lemma next_after i (w w1 : W) n : silent i w w1 -> next_ok i w1 n -> next_ok i w n.
Proof. intros F [F' G]. split; [by eapply silent_after|done]. Qed.

Lemma base_noting i w w' t : base i w t -> noting i w w' -> exists t', base i w' t' /\ kept_but_op t t'.
Proof.
  intros (H & T & R & N) A. destruct (acts_take _ _ _ _ _ H A) as (t' & H' & K).
  exists t'. split; [|done]. pose proof (kept_but_op_grown _ _ K) as G. destruct A as [_ L _ C].
  destruct K; simpl in *. split; [done|]. split; [|split; congruence]. pose proof T as (M & O & U & _).
  apply (take_ok_grown i w w' t t'); rewrite ?L, ?kp_uncertain0, ?kp_monitor0; auto. by apply (is_current_mono i).
Qed.

Lemma base_calm i w w' t : base i w t -> calm i w w' -> exists t', base i w' t' /\ kept t t'.
Proof.
  intros B C. destruct (base_noting i w w' t B (calm_noting _ _ _ C)) as (t' & B' & _). exists t'.
  split; [done|]. destruct B as (H & _). destruct (acts_take _ _ _ _ _ H C) as (t'' & H'' & K).
  destruct B' as (H' & _). congruence.
Qed.

Lemma kept_free t t' : kept_but_op t t' -> mon_free t -> mon_free t'.
Proof. intros []; simpl in *. unfold mon_free. by rewrite kp_mon0, kp_summary0. Qed.

Lemma kept_closed t t' : kept_but_op t t' -> closed_monitor t -> closed_monitor t'.
Proof. intros []; simpl in *. unfold closed_monitor. by rewrite kp_stopped0, kp_summary0. Qed.

Lemma kept_c_stopped t t' : kept_but_op t t' -> c_stopped (continuity t') = c_stopped (continuity t).
Proof. by intros []. Qed.

Lemma kept_wait k l t t' : kept_but_op t t' -> wait_stage k l t -> wait_stage k l t'.
Proof.
  intros K. destruct k; simpl; rewrite ?(kept_c_stopped _ _ K); try done; [apply (kept_closed _ _ K)|..];
    intros [C P]; (split; [by apply (kept_closed _ _ K)|done]).
Qed.

#[local] Hint Resolve kept_kept_but_op kept_free kept_closed kept_wait calm_noting noting_silent : take.

(** A stop that goes on waiting *)
Lemma pause_ok i p l w t :
  base i w t -> running p = true -> stage p l t (is_current i w) (outstanding i (log w)) -> next_ok i w (p, l, w).
Proof.
  intros (H & T & R & N) Hp Hs. split.
  - apply noting_silent, calm_noting. same_takes.
  - exists t. split; [done|]. split; [done|]. split; [congruence|]. by destruct p.
Qed.

Lemma stop_end_ok i r l w t :
  base i w t -> mon_free t -> confirmed_ok r t (is_current i w) -> next_ok i w (stop_end i r l w).
Proof.
  intros (H & (M & O & U & _ & Q) & R & N) F C. pose proof (lookup_lt_Some _ _ _ H) as Hlt.
  unfold stop_end. destruct (is_current i w) eqn:Hc; simpl negb; cbv iota.
  - set (t1 := t <| stop_running := false |> <| last_stop := Some r |>).
    set (w1 := upd i _ w). assert (takes w1 = <[i := t1]> (takes w)) as E by exact (upd_takes i _ w t H).
    split.
    + apply silent_log; [|done]. split; [done| |by left|done]. exists t, t1. split; [done|]. split; [done|]. by split.
    + unfold good. cbv beta iota. exists t1. split; [by rewrite E, list_lookup_insert_eq|]. split; [|split; [done|split; [done|split; [exact F|]]]].
      * split; [exact M|]. split; [exact O|]. split; [exact U|]. split; [simpl; congruence|].
        change (is_current i w1) with (is_current i w). rewrite Hc. simpl. intros r' [?|[= <-]]; [congruence|exact C].
      * change (is_current i w1) with (is_current i w). rewrite Hc. exact C.
  - set (t1 := t <| stop_running := false |> <| last_stop := Some r |>).
    set (w1 := upd i (fun t : Take => t <| stop_running := false |> <| last_stop := Some r |>) w).
    assert (takes w1 = <[i := t1]> (takes w)) as E by exact (upd_takes i _ w t H).
    set (t2 := t1 <| stop_result := Some r |>). set (w2 := (upd i _ w1) <| completed := Some r |>).
    assert (takes w2 = <[i := t2]> (takes w)) as E2.
    { change (takes w2) with (takes (upd i (fun t => t <| stop_result := Some r |>) w1)).
      rewrite (upd_takes i _ w1 t1) by (by rewrite E, list_lookup_insert_eq).
      by rewrite E, list_insert_insert_eq. }
    split.
    + apply silent_log; [|done]. split; [done| |by left|done]. exists t, t2. split; [done|]. split; [done|]. by split.
    + unfold good. cbv beta iota. exists t2. split; [by rewrite E2, list_lookup_insert_eq|]. split; [|split; [done|split; [done|split; [exact F|]]]].
      * split; [exact M|]. split; [exact O|]. split; [exact U|]. split; [intros _; exact Hc|].
        change (is_current i w2) with (is_current i w). rewrite Hc. simpl. by intros r' [[= <-]|[= <-]].
      * change (is_current i w2) with (is_current i w). rewrite Hc. exact C.
Qed.

Lemma uncertain_report i why (w : W) : exists o n op h, fst (uncertain i why w) = Uncertain o n op h.
Proof. unfold uncertain. destruct (take_impact i _). simpl. eauto. Qed.

Lemma stop_uncertainly_ok i why l w t : base i w t -> mon_free t -> next_ok i w (stop_uncertainly i why l w).
Proof.
  intros B F. unfold stop_uncertainly. destruct (uncertain_report i why w) as (o & n & op & h & E).
  pose proof (uncertain_noting i why w t (proj1 B)) as N. destruct (uncertain i why w) as [r w1]. simpl in *. subst r.
  destruct (base_noting i w w1 t B N) as (t1 & B1 & K). apply (next_after i w w1); [by apply noting_silent|].
  apply (stop_end_ok _ _ _ _ t1); [done|by eapply kept_free|done].
Qed.

Lemma impact_stop_refusal_ok i l w t : base i w t -> mon_free t -> next_ok i w (impact_stop_refusal i l w).
Proof.
  intros B F. unfold impact_stop_refusal. pose proof (take_impact_calm i w t (proj1 B)) as C.
  destruct (take_impact i w) as [status w1]. simpl in C. destruct (base_calm i w w1 t B C) as (t1 & B1 & K).
  apply (next_after i w w1); [by eauto with take|]. assert (mon_free t1) as F1 by eauto with take.
  destruct status; try by apply (stop_end_ok _ _ _ _ t1).
  set (w2 := upd i _ w1). assert (calm i w1 w2) as C2 by (eapply acts_upd; [apply B1|by split]).
  destruct (base_calm i w1 w2 t1 B1 C2) as (t2 & B2 & K2). apply (next_after i w1 w2); [by eauto with take|].
  apply (pause_ok _ _ _ _ t2); [done|done|]. simpl. split; [by eauto with take|done].
Qed.

Lemma waited_ok i k r l go w t :
  base i w t -> mon_free t -> wait_stage k l t -> calm i w (snd r) ->
  (forall w' t', base i w' t' -> mon_free t' -> wait_stage k l t' -> next_ok i w' (go l w')) ->
  next_ok i w (waited i k r l go).
Proof.
  intros B F Q C G. unfold waited. destruct r as [a w1]. simpl in C.
  destruct (base_calm i w w1 t B C) as (t1 & B1 & K). apply (next_after i w w1); [by eauto with take|].
  assert (mon_free t1) as F1 by eauto with take. assert (wait_stage k l t1) as Q1 by eauto with take.
  destruct a; [by eapply G|by eapply impact_stop_refusal_ok|].
  by apply (pause_ok _ _ _ _ t1).
Qed.

(** A wait for authority, on the way *)
Lemma wait_ok i k l go w t :
  base i w t -> mon_free t -> wait_stage k l t ->
  (forall w' t', base i w' t' -> mon_free t' -> wait_stage k l t' -> next_ok i w' (go l w')) ->
  next_ok i w (waited i k (wait_take_impact i w) l go).
Proof. intros B F Q G. apply (waited_ok _ _ _ _ _ _ t); try done. by apply (wait_take_impact_calm _ _ t), B. Qed.

Lemma take_result_ok i l w t :
  base i w t -> mon_free t -> closed_monitor t /\ has_path l -> next_ok i w (take_result i l w).
Proof.
  intros B F [C (path & Ep & Np)]. unfold take_result. rewrite Ep. cbv zeta.
  pose proof (clear_current_calm i w t (proj1 B)) as A.
  destruct (base_calm i w _ t B A) as (t1 & B1 & K). eapply next_after; [by eauto with take|].
  apply (stop_end_ok _ _ _ _ t1); [done|by eauto with take|]. simpl.
  split; [by eauto with take|]. by split; [apply clear_current_not|].
Qed.

Lemma logged_ok i l w t :
  base i w t -> mon_free t -> closed_monitor t /\ has_path l -> next_ok i w (logged i l w).
Proof. intros B F Q. apply (wait_ok i Logged l _ w t); try done. intros w' t'. apply take_result_ok. Qed.

Lemma write_log_ok i l w t :
  base i w t -> mon_free t -> closed_monitor t /\ has_path l -> next_ok i w (write_log i l w).
Proof.
  intros B F Q. unfold write_log. destruct (read i false local w); [by apply (pause_ok _ _ _ _ t)|by eapply logged_ok].
Qed.

Lemma inspected_ok i l w t :
  base i w t -> mon_free t -> closed_monitor t /\ has_path l -> next_ok i w (inspected i l w).
Proof. intros B F Q. apply (wait_ok i Inspected l _ w t); try done. intros w' t'. apply write_log_ok. Qed.

Lemma nonempty_path_some p path : nonempty_path p = Some path -> path <> EmptyString.
Proof. unfold nonempty_path, opt_filter. destruct p as [[|a s]|]; naive_solver. Qed.

Lemma stop_receipt_calm i (w : W) t :
  takes w !! i = Some t -> calm i w (snd (stop_receipt generation identity i w)).
Proof.
  intros H. unfold stop_receipt. destruct (read i None stop_operation w) as [r|]; [same_takes|by eapply prepare_calm].
Qed.

(** The receipt of the stop moves on. *)
Lemma receipt_moves_calm i u (w : W) t :
  takes w !! i = Some t ->
  calm i w (snd (let '(r, w) := stop_receipt generation identity i w in
                 match r with Ok r => update r u w | Err e => (Err e, w) end)).
Proof.
  intros H. pose proof (stop_receipt_calm i w t H) as C. destruct (stop_receipt _ _ i w) as [[r|e] w1]; simpl in C; [|done].
  calm_take t1 H1. eapply calm_trans; [exact C|by eapply update_calm].
Qed.

Lemma settle_file_ok i l w t :
  base i w t -> mon_free t -> closed_monitor t -> next_ok i w (settle_file generation identity i l w).
Proof.
  intros B F Q. unfold settle_file. pose proof (release_lease_calm i w t (proj1 B)) as C. cbv zeta.
  set (w1 := release_lease i w) in *. clearbody w1.
  destruct (base_calm i w w1 t B C) as (t1 & B1 & K). apply (next_after i w w1); [by eauto with take|].
  assert (mon_free t1) as F1 by eauto with take. assert (closed_monitor t1) as Q1 by eauto with take.
  clear w t B F Q C K. match goal with |- context [nonempty_path ?p] => destruct (nonempty_path p) as [path|] eqn:E end.
  - apply nonempty_path_some in E. pose proof (receipt_moves_calm i observed_update w1 t1 (proj1 B1)) as C.
    destruct (stop_receipt _ _ i w1) as [r w2]. destruct (match r with Ok r => _ | Err e => _ end) as [r' w3].
    simpl in C. set (w4 := match r' with Ok r => upd i (fun t => t <| stop_operation := Some r |>) w3 | Err _ => w3 end).
    assert (noting i w1 w4) as N.
    { unfold w4. destruct r' as [r'|e]; [|by apply calm_noting]. destruct (base_calm i w1 w3 t1 B1 C) as (t3 & B3 & _).
      eapply noting_trans; [by apply calm_noting|]. eapply set_op_noting. apply B3. }
    destruct (base_noting i w1 w4 t1 B1 N) as (t4 & B4 & K). apply (next_after i w1 w4); [by eauto with take|].
    set (l' := (l <| output_path := Some path |>) <| receipt_observed := match r' with Ok _ => true | Err _ => false end |>).
    assert (closed_monitor t4 /\ has_path l') as Q4 by (split; [by eauto with take|by exists path]).
    assert (mon_free t4) as F4 by eauto with take.
    assert (next_ok i w4 (if read i false local w4 then (Inspecting, l', w4) else inspected i l' w4)) as R.
    { destruct (read i false local w4); [by apply (pause_ok _ _ _ _ t4)|by eapply inspected_ok]. }
    by destruct r'.
  - pose proof (clear_current_calm i w1 t1 (proj1 B1)) as A.
    destruct (base_calm i w1 _ t1 B1 A) as (t2 & B2 & K2). eapply next_after; [by eauto with take|].
    apply (stop_end_ok _ _ _ _ t2); [done|by eauto with take|done].
Qed.

(** *** The monitor *)

Lemma monitor_done_ok i k res l w t :
  base i w t -> mon_free t -> (k = ForResult -> forall u, res = Ok u -> closed_monitor t) ->
  next_ok i w (monitor_done generation identity i k res l w).
Proof.
  intros B F Q. unfold monitor_done. destruct res as [u|e]; [|by eapply stop_uncertainly_ok].
  assert (forall why, next_ok i w (stop_uncertainly i why l (clear_current i (release_lease i w)))) as H.
  { intros why. pose proof (release_lease_calm i w t (proj1 B)) as C1.
    destruct (base_calm i w _ t B C1) as (t1 & B1 & K1).
    pose proof (clear_current_calm i _ t1 (proj1 B1)) as C2. pose proof (calm_trans _ _ _ _ C1 C2) as C.
    destruct (base_calm i w _ t B C) as (t2 & B2 & K2). eapply next_after; [by eauto with take|].
    eapply stop_uncertainly_ok; [done|by eauto with take]. }
  destruct k as [[]| | |]; try apply H; try by eapply stop_uncertainly_ok.
  apply (wait_ok i AfterMonitor l _ w t); [done|done|by eapply Q|]. intros w' t'. apply settle_file_ok.
Qed.

(** A change of the running take itself *)
Lemma base_upd i f w t :
  base i w t -> grown t (f t) -> Monitor.monitor_ok (monitor (f t)) -> stop_running (f t) = true ->
  stop_result (f t) = None -> last_stop (f t) = last_stop t -> (outstanding i (log w) = Some true -> stop_uncertain (f t) = true) ->
  base i (upd i f w) (f t) /\ silent i w (upd i f w).
Proof.
  intros (H & T & R & N) G M' R' N' L' U'. pose proof (upd_takes i f w t H) as E.
  split; [|apply silent_log; [by split; [done|exists t, (f t)|left|]|done]].
  split; [rewrite E; apply list_lookup_insert_eq; by eapply lookup_lt_Some|]. split; [|done].
  apply (take_ok_grown i w (upd i f w) t (f t)); try done; [apply T|congruence].
Qed.

Lemma watched_ok o t : Monitor.monitor_ok (monitor t) -> Monitor.monitor_ok (monitor (watched o t)).
Proof. apply Monitor.monitor_step_ok. Qed.

Lemma begun_stopped now_ms m : Monitor.stopped_at_ms (snd (Monitor.begin_stop now_ms m)) <> None.
Proof. unfold Monitor.begin_stop. destruct (Monitor.stopped_at_ms m) eqn:E; simpl; [congruence|done]. Qed.

Lemma monitor_stop_ok i k l w t :
  base i w t -> mon_free t -> (k = ForResult -> c_stopped (continuity t) = true) ->
  next_ok i w (monitor_stop generation identity i k l w).
Proof.
  intros B F Q. unfold monitor_stop. rewrite !(read_at _ _ _ _ t) by apply B.
  destruct (monitor_summary t) as [s|] eqn:Hs.
  - apply (monitor_done_ok _ _ _ _ _ t); [done|done|]. intros Hk u _. split; [by apply Q|by rewrite Hs].
  - destruct F as [F|F]; [|done]. rewrite F. set (f := fun t : Take => _).
    destruct (base_upd i f w t B) as [B1 F1].
    { split; [done|by rewrite Hs|done]. }
    { apply (watched_ok (Monitor.BeginStop (epoch_ms w))), B. }
    { apply B. } { apply B. } { done. } { apply B. }
    eapply next_after; [exact F1|]. apply (pause_ok _ _ _ _ (f t)); [done|done|]. simpl. split; [apply begun_stopped|].
    destruct k; [done..|by apply Q].
Qed.

Lemma before_monitor_ok i l w t :
  base i w t -> mon_free t -> c_stopped (continuity t) = true -> next_ok i w (before_monitor generation identity i l w).
Proof.
  intros B F Q. unfold before_monitor. set (f := fun t : Take => _).
  destruct (base_upd i f w t B) as [B1 F1]; [by split|by apply B|by apply B|by apply B|done|by apply B|].
  eapply next_after; [exact F1|]. by apply (monitor_stop_ok _ _ _ _ (f t)).
Qed.

Lemma to_monitor_ok i l w t :
  base i w t -> mon_free t -> c_stopped (continuity t) = true -> next_ok i w (to_monitor generation identity i l w).
Proof. intros B F Q. apply (wait_ok i BeforeMonitor l _ w t); try done. intros w' t'. apply before_monitor_ok. Qed.

Lemma no_take_continuity_at i (w : W) t : takes w !! i = Some t -> no_take_continuity i w = continuity t.
Proof. apply read_at. Qed.

Lemma after_stop_ok i l w t :
  base i w t -> mon_free t -> (inactive l = true -> c_stopped (continuity t) = true) ->
  next_ok i w (after_stop generation identity i l w).
Proof.
  intros B F Q. unfold after_stop. destruct (c_lost _); [by eapply stop_uncertainly_ok|].
  destruct (inactive l); [by eapply to_monitor_ok; eauto|by eapply stop_uncertainly_ok].
Qed.

Lemma after_impact_ok i k l w t :
  base i w t -> mon_free t -> wait_stage k l t -> next_ok i w (after_impact generation identity i k l w).
Proof.
  intros B F Q. destruct k; simpl in *.
  - by apply (pause_ok _ _ _ _ t).
  - by eapply after_stop_ok.
  - by eapply before_monitor_ok.
  - by eapply settle_file_ok.
  - by eapply write_log_ok.
  - by eapply take_result_ok.
Qed.

(** *** Confirmation *)

Lemma confirmed_or_not_ok i l w t :
  base i w t -> mon_free t -> (inactive l = true -> c_stopped (continuity t) = true) ->
  next_ok i w (confirmed_or_not generation identity i l w).
Proof. intros B F Q. apply (wait_ok i AfterStop l _ w t); try done. intros w' t'. apply after_stop_ok. Qed.

Lemma poll_inactive_ok i l w t :
  base i w t -> mon_free t -> (inactive l = true \/ was_stopped l = true -> c_stopped (continuity t) = true) ->
  next_ok i w (poll_inactive generation identity i l w).
Proof.
  intros B F Q. unfold poll_inactive. destruct (was_stopped l && _ && _) eqn:E.
  - apply (pause_ok _ _ _ _ t); [done|done|]. simpl. split; [done|]. apply Q. right.
    by apply andb_true_iff in E as [[E _]%andb_true_iff _].
  - apply (confirmed_or_not_ok _ _ _ t); auto.
Qed.

Lemma polled_ok i after l w t :
  base i w t -> mon_free t -> c_stopped (continuity t) = true ->
  next_ok i w (polled generation identity i after l w).
Proof.
  intros B F Q. unfold polled. destruct (_ || _); [by eapply confirmed_or_not_ok|].
  destruct after as [[]|]; [by apply (pause_ok _ _ _ _ t)|by eapply confirmed_or_not_ok..].
Qed.

Lemma next_stopped_seen until now events data rest :
  next_stopped until now events = (Some (Some data), rest) -> Exists stop_event events.
Proof.
  induction events as [|[[name at_] d] events IH]; simpl; [by destruct (until <=? now)|].
  destruct (str_eqb name "RecordStateChanged") eqn:E; simpl; [|intros H; right; by apply IH].
  destruct (until <? at_); [done|]. destruct (stopped_state d) eqn:Es; [|intros H; right; by apply IH].
  intros _. left. split; [by apply str_eqb_eq in E|done].
Qed.

Lemma next_stopped_waits until now events rest : next_stopped until now events = (None, rest) -> rest = [].
Proof.
  induction events as [|[[name at_] d] events IH]; simpl; [by destruct (until <=? now); intros [=]|].
  destruct (negb _); [done|]. destruct (until <? at_); [done|]. by destruct (stopped_state d).
Qed.

Lemma await_stopped_ok i l w t :
  base i w t -> mon_free t -> is_current i w = true -> watch_ok l t true -> inactive l = false ->
  was_stopped l = false -> next_ok i w (await_stopped generation identity i l w).
Proof.
  intros B F Hc Hw Hi Hs. unfold await_stopped, watch_ok in *. destruct (watch l) as [v|].
  2: { apply (poll_inactive_ok _ _ _ t); [done|done|]. intros [|]; congruence. }
  destruct (w_lagged v). { apply (poll_inactive_ok _ _ _ t); [done|done|]. intros [|]; congruence. }
  destruct (next_stopped _ _ _) as [[[data|]|] rest] eqn:E.
  - apply next_stopped_seen in E. apply (poll_inactive_ok _ _ _ t); [done|done|]. intros _. by apply Hw.
  - apply (poll_inactive_ok _ _ _ t); [done|done|]. intros [|]; congruence.
  - apply next_stopped_waits in E as ->. apply (pause_ok _ _ _ _ t); [done|done|]. simpl. split; [done|].
    split; [done|]. split; [|done]. intros _ H. inversion H.
Qed.

(** *** The request *)

Lemma update_current r u (w : W) : current (snd (update r u w)) = current w.
Proof. unfold update. by destruct (w_update _ _ _ _). Qed.

Lemma retire_cases i (w : W) t :
  base i w t -> mon_free t -> outstanding i (log w) = Some false ->
  exists t', base i (snd (retire_unsent_stop i w)) t' /\ mon_free t' /\ silent i w (snd (retire_unsent_stop i w)).
Proof.
  intros B F O. assert (silent i w w) as Fr by (apply noting_silent, calm_noting; destruct B as (H & _); same_takes).
  unfold retire_unsent_stop. destruct (read i None stop_operation w) as [r|]; [|by exists t].
  destruct (_ || _); [by exists t|].
  match goal with |- context [update r ?u w] => pose proof (update_calm i r u w t (proj1 B)) as C; destruct (update r u w) as [[r'|e] w1] end;
    simpl in C; destruct (base_calm i w w1 t B C) as (t1 & B1 & K).
  - simpl. set (f := fun t : Take => t <| stop_uncertain := false |> <| stop_operation := None |>).
    destruct (base_upd i f w1 t1 B1) as [B2 F2]; [by split|by apply B1|by apply B1|by apply B1|done| |].
    + destruct C as [_ L _ _]. rewrite L, O. done.
    + exists (f t1). split; [done|]. split; [exact (kept_free t t1 (kept_kept_but_op _ _ K) F)|].
      eapply silent_after; [|exact F2]. by eauto with take.
  - exists t1. split; [done|]. split; by eauto with take.
Qed.

Lemma not_sent_ok i message l w t :
  base i w t -> mon_free t -> outstanding i (log w) = Some false -> next_ok i w (not_sent i message l w).
Proof.
  intros B F O. unfold not_sent. destruct (retire_cases i w t B F O) as (t1 & B1 & F1 & Fr).
  destruct (retire_unsent_stop i w) as [[retired|e] w1]; simpl in *; apply (next_after i w w1 _ Fr);
    [|by eapply stop_uncertainly_ok].
  destruct (base_upd i (watched (Monitor.RollbackStopExpectation (expectation l))) w1 t1 B1) as [B2 F2];
    [by split|by apply (watched_ok (Monitor.RollbackStopExpectation _)), B1|by apply B1|by apply B1|done|by apply B1|].
  eapply next_after; [exact F2|]. set (t2 := watched _ t1) in *. set (w2 := upd i _ w1) in *.
  assert (mon_free t2) as F3 by exact F1. clearbody t2 w2.
  pose proof (take_impact_calm i w2 t2 (proj1 B2)) as C. destruct (take_impact i w2) as [status w3]. simpl in C.
  destruct (base_calm i w2 w3 t2 B2 C) as (t3 & B3 & K3). apply (next_after i w2 w3); [by eauto with take|].
  assert (mon_free t3) as F4 by eauto with take.
  destruct status; try (by eapply impact_stop_refusal_ok);
    (destruct (negb _); [by apply (stop_end_ok _ _ _ _ t3)|by apply (stop_end_ok _ _ _ _ t3)]).
Qed.

Lemma is_current_same i (w w' : W) : current w' = current w -> is_current i w' = is_current i w.
Proof. unfold is_current. by intros ->. Qed.

Lemma outcome_ok i outcome l w t :
  base i w t -> mon_free t -> sending l t (is_current i w) ->
  match outcome with
  | BeforeDispatch _ => outstanding i (log w) = Some false
  | OkAccepted | WasRejectedBy _ => outstanding i (log w) = Some true /\ is_current i w = true
  | UnknownOutcome _ => True
  end ->
  next_ok i w (dispatched i outcome l w).
Proof.
  intros B F ((r & Hr & Hp) & Hw & Hi & Hs) Q. destruct outcome as [|m|m|m]; simpl.
  - rewrite (read_at _ _ _ _ t), Hr by apply B. unfold accepted.
    pose proof (update_calm i r accepted_update w t (proj1 B)) as C.
    pose proof (update_current r accepted_update w) as Hc.
    destruct (update _ _ _) as [[r'|e] w1]; simpl in C, Hc; destruct (base_calm i w w1 t B C) as (t1 & B1 & K);
      (apply (next_after i w w1); [by eauto with take|]).
    + pose proof (set_op_noting i r' w1 t1 (proj1 B1)) as N. destruct (base_noting _ _ _ _ B1 N) as (t2 & B2 & K2).
      eapply next_after; [by apply noting_silent|]. rewrite (is_current_same _ _ _ (eq_sym Hc)) in Q.
      apply (pause_ok _ _ _ _ t2); [done|done|]. simpl. split; [by eauto with take|].
      split; [apply Q|]. split; [|done]. unfold watch_ok in *. destruct (watch l); [|done].
      rewrite (kept_c_stopped _ _ K2), (kept_c_stopped t t1) by by apply kept_kept_but_op. intros _. apply Hw.
      rewrite <- (is_current_same i w w1 Hc). apply Q.
    + eapply stop_uncertainly_ok; [done|by eauto with take].
  - by apply (not_sent_ok _ _ _ _ t).
  - set (w1 := (upd i _ w) <| log ::= _ |>). set (t1 := t <| stop_uncertain := false |>).
    assert (outstanding i (log w1) = Some false) as O1.
    { apply outstanding_rejected, Q. }
    assert (base i w1 t1) as B1.
    { destruct B as (H & T & R & N). split.
      - change (takes w1) with (takes (upd i (fun t => t <| stop_uncertain := false |>) w)).
        rewrite (upd_takes i _ w t H). apply list_lookup_insert_eq. by eapply lookup_lt_Some.
      - split; [|done]. apply (take_ok_grown i w w1 t t1); rewrite ?O1; try done. apply T. }
    assert (silent i w w1) as F1.
    { split; [|by exists [WasRejected i]; split; [|constructor]]. split; [done| |by left|].
      - exists t, t1. split; [apply B|]. split; [|by split].
        change (takes w1) with (takes (upd i (fun t => t <| stop_uncertain := false |>) w)). apply upd_takes, B.
      - intros j Hj. by apply outstanding_other. }
    apply (next_after i w w1 _ F1). clearbody w1.
    assert (exists w2 t2, base i w2 t2 /\ mon_free t2 /\ silent i w1 w2 /\
      w2 = match read i None stop_operation w1 with
           | Some r => match update r rejected_update w1 with
                       | (Ok r, w) => upd i (fun t => t <| stop_operation := Some r |>) w
                       | (Err _, w) => w
                       end
           | None => w1
           end) as (w2 & t2 & B2 & F2 & Fr & <-).
    { destruct (read i None stop_operation w1) as [r1|].
      - pose proof (update_calm i r1 rejected_update w1 t1 (proj1 B1)) as C.
        destruct (update _ _ _) as [[r'|e] w2]; simpl in C; destruct (base_calm i w1 w2 t1 B1 C) as (t2 & B2 & K).
        + pose proof (set_op_noting i r' w2 t2 (proj1 B2)) as N. destruct (base_noting _ _ _ _ B2 N) as (t3 & B3 & K3).
          eexists _, t3. split; [done|]. split; [eapply kept_free; [done|]; eapply kept_free; [by apply kept_kept_but_op|done]|].
          split; [|done]. eapply silent_after; eauto with take.
        + exists w2, t2. split; [done|]. split; [eapply kept_free; [by apply kept_kept_but_op|done]|]. by eauto with take.
      - exists w1, t1. split; [done|]. split; [done|]. split; [|done]. apply noting_silent, calm_noting.
        destruct B1 as (H1 & _). same_takes. }
    apply (next_after i w1 w2 _ Fr). by eapply stop_uncertainly_ok.
  - by eapply stop_uncertainly_ok.
Qed.

Lemma updated_phase r u at_utc : OperationReceipt.phase (OperationReceipt.updated_record r u at_utc) = OperationReceipt.new_phase u.
Proof. done. Qed.

Lemma send_stop_ok i l w t :
  base i w t -> mon_free t -> stop_uncertain t = false -> next_ok i w (send_stop generation identity stop_limit i l w).
Proof.
  intros B F U. unfold send_stop. pose proof (receipt_moves_calm i dispatching_update w t (proj1 B)) as C.
  destruct (stop_receipt _ _ i w) as [r w1]. fold (dispatching (S := S)) in C.
  assert (forall r' w2, (match r with Ok r => dispatching r w1 | Err e => (Err e, w1) end) = (Ok r', w2) ->
          OperationReceipt.phase r' = OperationReceipt.Dispatching) as P.
  { intros r' w2 E. destruct r as [r|]; [|done]. apply update_is in E as ->. apply updated_phase. }
  unfold dispatching in *. destruct (match r with Ok r => _ | Err e => _ end) as [r' w2].
  simpl in C. destruct (base_calm i w w2 t B C) as (t2 & B2 & K). apply (next_after i w w2); [by eauto with take|].
  assert (mon_free t2) as F2 by eauto with take. destruct r' as [r'|]; [|by eapply stop_uncertainly_ok].
  specialize (P r' w2 eq_refl).
  assert (outstanding i (log w2) = Some false) as O.
  { destruct B2 as (_ & (_ & O & U' & _) & _). destruct (outstanding i (log w2)) as [[]|]; [|done|done].
    rewrite (kp_uncertain _ _ K), U in U'. by specialize (U' eq_refl). }
  set (f := fun t : Take => (watched Monitor.BeginStopExpectation t) <| stop_operation := Some r' |> <| stop_uncertain := true |>).
  destruct (base_upd i f w2 t2 B2) as [B3 F3];
    [by split|by apply (watched_ok Monitor.BeginStopExpectation), B2|by apply B2|by apply B2|done|done|].
  eapply next_after; [exact F3|]. apply (pause_ok _ _ _ _ (f t2)); [done|done|]. simpl. split; [done|].
  split; [done|]. split; [done|]. split; [by exists r'|]. split; [|done]. intros _ H. inversion H.
Qed.

Lemma classified_ok i active l w t :
  base i w t -> mon_free t -> next_ok i w (classified generation identity stop_limit i active l w).
Proof.
  intros B F. unfold classified. rewrite (no_take_continuity_at i w t) by apply B.
  assert (forall k l, k <> ForResult ->
    next_ok i w (monitor_stop generation identity i k l (upd i (fun t => t <| deadline := None |>) w))) as H.
  { intros k l' Hk. set (f := fun t : Take => t <| deadline := None |>).
    destruct (base_upd i f w t B) as [B1 F1]; [by split|by apply B|by apply B|by apply B|done|by apply B|].
    eapply next_after; [exact F1|]. by apply (monitor_stop_ok _ _ _ _ (f t)). }
  destruct active; destruct (c_lost (continuity t)); try (by apply H); destruct (c_stopped (continuity t)) eqn:Hs.
  - by apply H.
  - rewrite (read_at _ _ _ _ t) by apply B. destruct (stop_uncertain t) eqn:U; [by eapply stop_uncertainly_ok|].
    by apply (send_stop_ok _ _ _ t).
  - by apply (to_monitor_ok _ _ _ t).
  - by eapply stop_uncertainly_ok.
Qed.

Lemma head_ok i l w t : base i w t -> mon_free t -> next_ok i w (head i l w).
Proof. intros B F. apply (wait_ok i Head l _ w t); try done. intros w' t' B' F' _. by apply (pause_ok _ _ _ _ t'). Qed.

Lemma head_status_ok i answer l w t :
  base i w t -> mon_free t -> next_ok i w (head_status generation identity stop_limit i answer l w).
Proof.
  intros B F. unfold head_status. destruct answer as [active|]; [|by eapply stop_uncertainly_ok].
  pose proof (take_impact_calm i w t (proj1 B)) as C. destruct (take_impact i w) as [status w1]. simpl in C.
  destruct (base_calm i w w1 t B C) as (t1 & B1 & K). apply (next_after i w w1); [by eauto with take|].
  assert (mon_free t1) as F1 by eauto with take.
  destruct status; [by eapply classified_ok|by eapply head_ok|by eapply impact_stop_refusal_ok].
Qed.

(** *** The join of the observers *)

Lemma cleanup_finishes m :
  Monitor.stopped_at_ms m <> None -> is_none (Monitor.stopped_at_ms m) = Monitor.listening m ->
  Monitor.samples_pending m = false -> fst (Monitor.finish_cleanup m) = Ok tt.
Proof.
  unfold Monitor.listening, Monitor.finish_cleanup. intros Hs Hl Hp.
  destruct (Monitor.stopped_at_ms m) as [at_|]; [|done]. destruct (Monitor.phase m); simpl in Hl; try done. by rewrite Hp.
Qed.

Lemma seal_monitor_ok i k joined l w t :
  base i w t -> monitoring k t -> drained t = true -> next_ok i w (seal_monitor generation identity i k joined l w).
Proof.
  intros B [Q1 Q2] D. unfold seal_monitor. destruct joined as [u|why].
  - rewrite (read_at _ _ _ _ t) by apply B. apply andb_true_iff in D as [_ D%negb_true_iff].
    rewrite cleanup_finishes; [|done|apply B|done]. cbv zeta.
    destruct (base_upd i (watched Monitor.FinishCleanup) w t B) as [B1 F1];
      [by split|by apply (watched_ok Monitor.FinishCleanup), B|by apply B|by apply B|done|by apply B|].
    eapply next_after; [exact F1|]. set (w1 := upd i _ w) in *. set (t1 := watched _ t) in *.
    assert (c_stopped (continuity t1) = c_stopped (continuity t)) as Ec by done. clearbody w1 t1.
    match goal with |- context [upd i ?g w1] => set (f := g) end.
    destruct (base_upd i f w1 t1 B1) as [B2 F2]; [by split|by apply B1|by apply B1|by apply B1|done|by apply B1|].
    eapply next_after; [exact F2|]. apply (monitor_done_ok _ _ _ _ _ (f t1)); [done|by right|].
    intros -> _ _. split; [|done]. simpl in *. congruence.
  - set (f := fun t : Take => t <| monitor_stop_running := false |>).
    destruct (base_upd i f w t B) as [B1 F1]; [by split|by apply B|by apply B|by apply B|done|by apply B|].
    eapply next_after; [exact F1|]. by apply (monitor_done_ok _ _ _ _ _ (f t)); [|left|].
Qed.

(** ** The steps of the tasks *)

Lemma running_base (w : W) k t :
  world_ok w -> tasks w !! k = Some t -> running (pc t) = true ->
  exists tk, base (on t) w tk /\ stage (pc t) (locals t) tk (is_current (on t) w) (outstanding (on t) (log w)).
Proof.
  intros [T K _ _ _] Hk Hr. destruct (K k t Hk) as (tk & H & Q). exists tk. destruct (T _ _ H) as [Ht _].
  destruct (pc t); try done; destruct Q as (R & N & Q); (split; [by repeat split; try done; apply Ht|exact Q]).
Qed.

Lemma frame_other i (w w' : W) j t : frame i w w' -> j <> i -> takes w' !! j = Some t -> takes w !! j = Some t.
Proof. intros [_ (t1 & t2 & _ & E & _) _ _] Hj. rewrite E, list_lookup_insert_ne by done. done. Qed.

Lemma frame_length i (w w' : W) : frame i w w' -> length (takes w') = length (takes w).
Proof. intros [_ (t1 & t2 & _ & E & _) _ _]. by rewrite E, length_insert. Qed.

Lemma frame_is_current i (w w' : W) j : frame i w w' -> j <> i -> is_current j w' = is_current j w.
Proof.
  intros [_ _ C _] Hj. unfold is_current. destruct C as [->|[-> ->]]; [done|].
  rewrite !bool_decide_eq_false_2; [done|congruence|done].
Qed.

(** A task of another take is as it was. *)
Lemma other_task_ok i (w w' : W) t : frame i w w' -> on t <> i -> task_ok w t -> task_ok w' t.
Proof.
  intros F Hj (tk & H & Q). exists tk. split.
  - destruct (fr_takes _ _ _ F) as (t1 & t2 & _ & -> & _). by rewrite list_lookup_insert_ne.
  - by rewrite (frame_is_current _ _ _ _ F Hj), (fr_log _ _ _ F).
Qed.

(** A waiting or finished task of the same take still is. *)
Lemma same_task_ok i (w : W) p l w' t :
  frame i w w' -> good i (p, l, w') -> on t = i -> running (pc t) = false -> task_ok w t -> task_ok w' t.
Proof.
  intros F (t' & H' & T' & R' & Q') E Hr (tk & H & Q). rewrite E in *. exists t'. rewrite E. split; [done|].
  destruct (fr_takes _ _ _ F) as (t1 & t2 & H1 & E2 & G). rewrite H1 in H. injection H as ->.
  rewrite E2, list_lookup_insert_eq in H' by (by eapply lookup_lt_Some). injection H' as ->.
  destruct (pc t); try done.
  - intros Hw. destruct (running p) eqn:Hp; [by left|right]. destruct p; try done. destruct Q' as [-> _]. done.
  - eapply confirmed_grown; [exact G| |exact Q]. apply (is_current_mono i), F.
Qed.

(** A step of a stop keeps the world well formed. *)
Lemma put_ok k t (w : W) p l w' :
  world_ok w -> tasks w !! k = Some t -> frame (on t) w w' -> good (on t) (p, l, w') ->
  (running (pc t) = true \/ exists tk, takes w !! on t = Some tk /\ stop_running tk = false) ->
  world_ok (put k t (p, l, w')).
Proof.
  intros Hw Hk F G Hrun. set (i := on t) in *. set (w2 := put k t (p, l, w')).
  assert (forall k' t', tasks w !! k' = Some t' -> on t' = i -> running (pc t') = true -> k' = k) as Hone.
  { intros k' t' Hk' Ho Hr. destruct Hrun as [Hrun|(tk & H & Hrun)]; [by eapply (wo_one w Hw)|].
    destruct (running_base w k' t' Hw Hk' Hr) as (tk' & (H' & _ & R & _) & _). rewrite Ho in H'. congruence. }
  assert (tasks w2 = <[k := {| on := on t; by_policy := by_policy t; locals := l; pc := p |}]> (tasks w)) as Et.
  { simpl. by rewrite (fr_tasks _ _ _ F). }
  assert (k < length (tasks w))%nat as Hlt by by eapply lookup_lt_Some.
  assert (forall k' t', tasks w2 !! k' = Some t' ->
            k' = k /\ t' = {| on := on t; by_policy := by_policy t; locals := l; pc := p |}
            \/ k' <> k /\ tasks w !! k' = Some t') as Hcases.
  { intros k' t'. rewrite Et. destruct (decide (k' = k)) as [->|Hne].
    - rewrite list_lookup_insert_eq by done. left. split; congruence.
    - rewrite list_lookup_insert_ne by done. by right. }
  split.
  - intros j tj Hj. change (takes w2) with (takes w') in Hj. change (take_ok j w2 tj) with (take_ok j w' tj).
    destruct (decide (j = i)) as [->|Hne].
    + destruct G as (t' & H' & T' & R' & Q'). rewrite H' in Hj. injection Hj as <-. split; [done|].
      intros Hs. rewrite Hs in R'. destruct p; try done. apply Q'.
    + pose proof (frame_other _ _ _ _ _ F Hne Hj) as Hj0. destruct (wo_takes w Hw j tj Hj0) as [T Q]. split; [|done].
      apply (take_ok_grown j w w' tj tj); try done; try (by split); try apply T.
      * rewrite (fr_log _ _ _ F) by done. apply T.
      * rewrite (fr_log _ _ _ F) by done. apply T.
      * by rewrite (frame_is_current _ _ _ _ F Hne).
  - intros k' t' Hk'. change (task_ok w' t'). destruct (Hcases _ _ Hk') as [[-> ->]|[Hne Hold]].
    + destruct G as (tk & H' & T' & R' & Q'). exists tk. split; [done|]. fold i. simpl. rewrite R'.
      destruct p; try done. apply Q'.
    + pose proof (wo_tasks w Hw k' t' Hold) as Hok. destruct (decide (on t' = i)) as [E|E]; [|by eapply other_task_ok].
      eapply same_task_ok; [exact F|exact G|done| |done]. destruct (running (pc t')) eqn:Hr; [|done].
      by destruct Hne; eapply Hone.
  - intros k1 k2 t1 t2 H1 H2 Ho R1 R2.
    destruct (Hcases _ _ H1) as [[-> ->]|[N1 H1']], (Hcases _ _ H2) as [[-> ->]|[N2 H2']]; simpl in *.
    + done.
    + symmetry. by eapply (Hone k2 t2).
    + by eapply (Hone k1 t1).
    + by eapply (wo_one w Hw).
  - intros j Hj. change (takes w2) with (takes w') in Hj. change (log w2) with (log w').
    rewrite (frame_length _ _ _ F) in Hj. rewrite (fr_log _ _ _ F); [by apply (wo_log w Hw)|].
    intros ->. destruct (fr_takes _ _ _ F) as (t1 & _ & H1 & _). apply lookup_lt_Some in H1. lia.
  - intros j Hj. change (takes w2) with (takes w'). change (current w2) with (current w') in Hj.
    rewrite (frame_length _ _ _ F). apply (wo_current w Hw). destruct (fr_current _ _ _ F); [congruence|naive_solver congruence].
Qed.

(** What a step of a stop comes to: a well-formed world, and at most one request *)
Definition came_to (k : nat) (t : StopTask) (w w' : W) : Prop :=
  world_ok w' /\
  (rejections (on t) w w'
   \/ pc t = Sending false /\ log w' = log w ++ [Sent (on t)]
      /\ exists u w1, guard_stop (on t) (by_policy t) w = (Ok u, w1)).

Lemma put_next k t (w : W) n :
  world_ok w -> tasks w !! k = Some t -> next_ok (on t) w n ->
  (running (pc t) = true \/ exists tk, takes w !! on t = Some tk /\ stop_running tk = false) ->
  came_to k t w (put k t n).
Proof. destruct n as [[p l] w']. intros Hw Hk [[F R] G] Hr. split; [by eapply put_ok|by left]. Qed.

Lemma still_here k t (w : W) : world_ok w -> came_to k t w w.
Proof. intros Hw. split; [done|left]. exists []. by rewrite app_nil_r. Qed.

(** A task that waits for another, or reports what was reported *)
Lemma idle_ok k t (w : W) p l :
  world_ok w -> tasks w !! k = Some t -> running p = false ->
  task_ok w {| on := on t; by_policy := by_policy t; locals := l; pc := p |} -> came_to k t w (put k t (p, l, w)).
Proof.
  intros Hw Hk Hp Hn. split; [|left; exists []; by rewrite app_nil_r]. set (w2 := put k t (p, l, w)). set (t2 := {| on := on t; by_policy := by_policy t; locals := l; pc := p |}) in *.
  assert (forall k' t', tasks w2 !! k' = Some t' -> t' = t2 \/ tasks w !! k' = Some t') as Hcases.
  { intros k' t'. simpl. destruct (decide (k' = k)) as [->|Hne].
    - rewrite list_lookup_insert_eq by by eapply lookup_lt_Some. left. by injection H.
    - rewrite list_lookup_insert_ne by done. by right. }
  split; try apply Hw.
  - intros k' t' Hk'. change (task_ok w t'). destruct (Hcases _ _ Hk') as [->|H]; [done|by eapply (wo_tasks w Hw)].
  - intros k1 k2 t1 t2' H1 H2 Ho R1 R2.
    destruct (Hcases _ _ H1) as [->|H1']; [simpl in R1; congruence|].
    destruct (Hcases _ _ H2) as [->|H2']; [simpl in R2; congruence|]. by eapply (wo_one w Hw).
Qed.

Lemma entered_ok k t (w : W) waiting :
  world_ok w -> tasks w !! k = Some t -> pc t = Enter waiting ->
  came_to k t w (put k t (enter stop_limit (on t) waiting (locals t) w)).
Proof.
  intros Hw Hk Hp. destruct (wo_tasks w Hw k t Hk) as (tk & H & Q). rewrite Hp in Q.
  destruct (wo_takes w Hw _ _ H) as [T F]. unfold enter. rewrite !(read_at _ _ _ _ tk H).
  destruct (stop_result tk) as [r|] eqn:Hres.
  { apply idle_ok; [done|done|done|]. exists tk. split; [done|]. apply T. by left. }
  destruct (stop_running tk) eqn:Hrun; simpl; [rewrite andb_false_r|rewrite andb_true_r].
  { apply idle_ok; [done|done|done|]. exists tk. split; [done|]. by left. }
  destruct waiting.
  { destruct (Q eq_refl) as [|Hl]; [congruence|]. destruct (last_stop tk) as [r|] eqn:El; [|done].
    apply idle_ok; [done|done|done|]. exists tk. split; [done|]. apply T. by right. }
  set (f := fun t : Take => t <| stop_running := true |>).
  assert (base (on t) (upd (on t) f w) (f tk) /\ silent (on t) w (upd (on t) f w)) as [B Fr].
  { pose proof (upd_takes (on t) f w tk H) as E. split; [|apply silent_log; [by split; [done|exists tk, (f tk)|left|]|done]].
    split; [rewrite E; apply list_lookup_insert_eq; by eapply lookup_lt_Some|]. split; [|done].
    apply (take_ok_grown (on t) w _ tk (f tk)); try done; apply T. }
  apply put_next; [done|done| |right; by exists tk].
  eapply next_after; [exact Fr|]. apply (head_ok _ _ _ (f tk)); [done|]. exact (F eq_refl).
Qed.

(** *** The guard *)

Lemma guard_stop_calm i p (w : W) t : takes w !! i = Some t -> calm i w (snd (guard_stop i p w)).
Proof.
  intros H. unfold guard_stop. destruct (closed w); [same_takes|]. destruct (negb _); [same_takes|].
  destruct (_ || _); [same_takes|]. destruct (Control.evaluate _ _ _) as [d domain]. cbv zeta.
  set (w1 := w <| control := domain |>). assert (calm i w w1) as C1 by same_takes.
  destruct d; try exact C1. pose proof (take_impact_calm i w1 t H) as C2.
  destruct (take_impact i w1) as [status w2]. simpl in C2. pose proof (calm_trans _ _ _ _ C1 C2) as C.
  destruct status; try exact C. destruct (acts_take _ _ _ _ _ H C) as (t2 & H2 & _).
  eapply calm_trans; [exact C|]. by eapply acts_upd.
Qed.

Lemma take_impact_current i (w : W) : current (snd (take_impact i w)) = current w.
Proof. unfold take_impact. destruct (RecordImpact.check _ _ _) as [[| |] reg]; done. Qed.

(** What the guard found when it let the request go *)
Record authority (i : nat) (p : Policy) (w : W) : Prop := {
  au_open : closed w = false;
  au_current : current w = Some i;
  au_continuous : c_lost (no_take_continuity i w) = None;
  au_recording : c_stopped (no_take_continuity i w) = false;
  au_policy : exists c, fst (Control.evaluate c
      {| Control.tool_name := "obs-take-stop"; Control.arguments := object_of [];
         Control.read_only_hint := false; Control.caller := p_caller p;
         Control.confirmation := {| Control.enabled := p_confirmation_enabled p;
                                    Control.can_elicit := p_can_elicit p;
                                    Control.input_responses := p_input_responses p |} |} (epoch_ms w)) = Control.Allow
      /\ c = control w;
  au_impact : fst (RecordImpact.check (read i 0 impact w) (borrowed w) (registry w)) = RecordImpact.Ready
}.

Lemma guard_stop_allows i p (w w' : W) u : guard_stop i p w = (Ok u, w') -> authority i p w /\ current w' = current w.
Proof.
  unfold guard_stop. destruct (closed w) eqn:Hc; [done|]. destruct (is_current i w) eqn:Hi; [|done]. simpl negb. cbv iota.
  destruct (c_lost _) eqn:Hl; [done|]. simpl. destruct (c_stopped _) eqn:Hs; [done|].
  match goal with |- context [Control.evaluate ?c ?q ?e] => destruct (Control.evaluate c q e) as [d domain] eqn:He end.
  destruct d; try done. set (w1 := w <| control := domain |>). pose proof (take_impact_current i w1) as Ec.
  assert (fst (take_impact i w1) = fst (RecordImpact.check (read i 0 impact w) (borrowed w) (registry w))) as E1.
  { unfold take_impact. change (read i 0 impact w1) with (read i 0 impact w). simpl. by destruct (RecordImpact.check _ _ _). }
  destruct (take_impact i w1) as [status w2]. simpl in *. destruct status; try done. intros [= _ <-].
  split; [|done]. split; try done; [by apply bool_decide_eq_true in Hi|]. exists (control w). by rewrite He.
Qed.

Lemma sending_kept l t t' cur : kept t t' -> sending l t cur -> sending l t' cur.
Proof.
  intros K ((r & Hr & Hp) & Hw & Q). split; [exists r; by rewrite (kp_op _ _ K)|]. split; [|done].
  unfold watch_ok in *. by rewrite (kp_stopped _ _ K).
Qed.

Lemma guard_runs_ok k t (w : W) :
  world_ok w -> tasks w !! k = Some t -> pc t = Sending false ->
  came_to k t w (resume generation identity stop_limit (GuardRuns k) k t w).
Proof.
  intros Hw Hk Hp. assert (running (pc t) = true) as Hr by by rewrite Hp.
  destruct (running_base w k t Hw Hk Hr) as (tk & B & Q). rewrite Hp in Q. destruct Q as [F (O & U & Q)].
  unfold resume. rewrite Hp. pose proof (guard_stop_calm (on t) (by_policy t) w tk (proj1 B)) as C.
  destruct (guard_stop _ _ w) as [[u|message] w1] eqn:Eg; simpl in C; destruct (base_calm _ w w1 tk B C) as (t1 & B1 & K).
  - pose proof Eg as Eg0. apply guard_stop_allows in Eg as [A Ec]. set (w2 := w1 <| log ::= fun l => l ++ [Sent (on t)] |>).
    assert (outstanding (on t) (log w2) = Some true) as O2.
    { apply outstanding_sent. destruct C as [_ -> _ _]. exact O. }
    assert (is_current (on t) w2 = true) as Hc.
    { change (is_current (on t) w2) with (is_current (on t) w1). rewrite (is_current_same _ w w1 Ec).
      apply bool_decide_eq_true, A. }
    split; [|right; split; [done|]; split; [by simpl; destruct C as [_ -> _ _]|by exists u, w1]].
    apply (put_ok k t w); [done|done|..|by left].
    + apply (frame_trans _ w w1 w2); [by apply noting_silent, calm_noting|]. split; [done| |by left|].
      * exists t1, t1. split; [apply B1|]. split; [|by split]. symmetry. apply list_insert_id, B1.
      * intros j Hj. by apply outstanding_other.
    + exists t1. split; [apply B1|]. split; [|split; [apply B1|split; [apply B1|]]].
      * apply (take_ok_grown _ w1 w2 t1 t1); try done; try apply B1; [by rewrite O2|]. intros _.
        by rewrite (kp_uncertain _ _ K).
      * rewrite Hc, O2. split; [by eauto with take|]. split; [done|]. split; [done|]. eapply sending_kept; [done|].
        rewrite <- Hc. change (is_current (on t) w2) with (is_current (on t) w1). by rewrite (is_current_same _ w w1 Ec).
  - apply put_next; [done|done| |by left]. apply (next_after _ w w1); [by eauto with take|].
    apply (not_sent_ok _ _ _ _ t1); [done|by eauto with take|]. destruct C as [_ -> _ _]. exact O.
Qed.

(** *** Every await *)

(** Leaves the goal that the step of a running task ends well. *)
Ltac take_step Hw Hk :=
  apply put_next; [exact Hw|exact Hk| |left; match goal with E : pc _ = _ |- _ => rewrite E end; reflexivity].

Lemma resumed_ok a k t (w : W) :
  world_ok w -> tasks w !! k = Some t -> task_of a = Some k ->
  came_to k t w (resume generation identity stop_limit a k t w).
Proof.
  intros Hw Hk Ha. pose proof (still_here k t w Hw) as Hstill. destruct (running (pc t)) eqn:Hr.
  2: { destruct (pc t) eqn:Hp; try done; destruct a; unfold resume; rewrite ?Hp; try done. by apply (entered_ok _ _ _ waiting). }
  destruct (running_base w k t Hw Hk Hr) as (tk & B & Q).
  destruct (pc t) as [waiting|j| | |sent| | |until|m|m|m|m| | |r|] eqn:Hp; try done;
    destruct a; try done; unfold resume; rewrite ?Hp; simpl in Q; try done; try (injection Ha as ->).
  - take_step Hw Hk. destruct Q as [F Q].
    apply (waited_ok _ _ _ _ _ _ tk); [done|done|done|by eapply impact_woken_calm; apply B|].
    intros w' t'. apply after_impact_ok.
  - take_step Hw Hk. destruct Q as [F _]. by eapply head_status_ok.
  - take_step Hw Hk. destruct Q as [F _]. by eapply monitor_stop_ok.
  - destruct sent; [done|]. pose proof (guard_runs_ok k t w Hw Hk Hp) as G. unfold resume in G. by rewrite Hp in G.
  - destruct sent; destruct Q as [F Q]; destruct outcome; try done; take_step Hw Hk;
      apply (outcome_ok _ _ _ _ tk); try done; try apply Q; (split; apply Q).
  - take_step Hw Hk. destruct Q as (F & Hc & Q & Hi & Hs). apply (await_stopped_ok _ _ _ tk); try done.
    by rewrite Hc in Q.
  - take_step Hw Hk. destruct Q as [F Q]. by eapply polled_ok.
  - destruct (until <=? instant w); [|done]. take_step Hw Hk. destruct Q as [F Q]. by eapply poll_inactive_ok.
  - by destruct Q.
  - take_step Hw Hk. destruct stats as [stats|]; [|by apply (pause_ok _ _ _ _ tk)].
    destruct (base_upd (on t) (watched (Monitor.ObserveStats (epoch_ms w) stats)) w tk B) as [B1 F1];
      [by split|by apply (watched_ok (Monitor.ObserveStats _ _)), B|by apply B|by apply B|done|by apply B|].
    eapply next_after; [exact F1|]. apply (pause_ok _ _ _ _ _ B1); [done|].
    destruct Q as [Q1 Q2]. split; [|done]. unfold stopped_monitor in *.
    destruct (Monitor.stopped_step (Monitor.ObserveStats (epoch_ms w) stats) (monitor tk)) as [_ K _ _ _ _ _ _ _];
      [apply B|done|]. injection K as K _ _. unfold watched. simpl in *. by rewrite K.
  - destruct (read (on t) false drained w) eqn:D; [|done]. rewrite (read_at _ _ _ _ tk) in D by apply B.
    take_step Hw Hk. apply (pause_ok _ _ _ _ tk); [done|done|]. by split.
  - take_step Hw Hk. destruct Q as [Q D]. by apply (seal_monitor_ok _ _ _ _ _ tk).
  - take_step Hw Hk. destruct Q as [F Q]. by eapply inspected_ok.
  - take_step Hw Hk. destruct Q as [F Q]. by eapply logged_ok.
Qed.

(** ** Everything else *)

(** What the rest of the program may change of a take *)
Record outside (t t' : Take) : Prop := {
  os_op : stop_operation t' = stop_operation t;
  os_uncertain : stop_uncertain t' = stop_uncertain t;
  os_running : stop_running t' = stop_running t;
  os_result : stop_result t' = stop_result t;
  os_last : last_stop t' = last_stop t;
  os_summary : monitor_summary t' = monitor_summary t;
  os_mon : monitor_stop_running t' = monitor_stop_running t;
  os_stopped : c_stopped (continuity t) = true -> c_stopped (continuity t') = true;
  os_ok : Monitor.monitor_ok (monitor t) -> Monitor.monitor_ok (monitor t');
  os_monitor : Monitor.monitor_ok (monitor t) -> stopped_monitor t ->
    stopped_monitor t' /\ (drained t = true -> drained t' = true)
}.

Lemma outside_refl t : outside t t.
Proof. by split. Qed.

Lemma outside_trans t1 t2 t3 : outside t1 t2 -> outside t2 t3 -> outside t1 t3.
Proof.
  intros [] []. split; try congruence; try by auto. intros H1 H2.
  destruct (os_monitor0 H1 H2) as [A1 A2]. destruct (os_monitor1 (os_ok0 H1) A1) as [B1 B2]. auto.
Qed.

Lemma kept_outside t t' : kept t t' -> outside t t'.
Proof.
  intros []. split; try congruence. unfold stopped_monitor, drained. by rewrite kp_monitor0, kp_setup0.
Qed.

Lemma watched_outside o t : outside t (watched o t).
Proof.
  split; try done; [apply (watched_ok o)|]. intros Hok Hs. split.
  - destruct (Monitor.stopped_step o (monitor t) Hok Hs) as [_ K _ _ _ _ _ _ _]. injection K as K _ _.
    unfold stopped_monitor, watched in *. simpl. by rewrite K.
  - unfold drained. rewrite !andb_true_iff, !negb_true_iff. intros [D1 D2]. split; [done|].
    apply (Monitor.pending_tickets (monitor (watched o t))); [by apply watched_ok|].
    apply Monitor.stopped_tickets; [done|done|]. by apply Monitor.pending_tickets.
Qed.

Lemma watch_grown l t t' cur : (c_stopped (continuity t) = true -> c_stopped (continuity t') = true) ->
  watch_ok l t cur -> watch_ok l t' cur.
Proof. unfold watch_ok. destruct (watch l); [|done]. auto. Qed.

Lemma stage_outside p l l' t t' cur out :
  outside t t' -> Monitor.monitor_ok (monitor t) ->
  inactive l' = inactive l -> was_stopped l' = was_stopped l -> output_path l' = output_path l ->
  (watch_ok l t cur -> watch_ok l' t' cur) -> stage p l t cur out -> stage p l' t' cur out.
Proof.
  intros Os M Ei Ew Ep Hw. destruct Os.
  assert (closed_monitor t -> closed_monitor t') as Hcl.
  { unfold closed_monitor. rewrite os_summary0. intros []. auto. }
  assert (mon_free t -> mon_free t') as Hf by (unfold mon_free; by rewrite os_summary0, os_mon0).
  assert (sending l t cur -> sending l' t' cur) as Hs.
  { unfold sending, op_dispatching. rewrite os_op0, Ei, Ew. intros (? & ? & ?). auto. }
  assert (forall k, monitoring k t -> monitoring k t') as Hm.
  { intros m [M1 M2]. split; [by apply os_monitor0|]. destruct m; auto. }
  assert (has_path l -> has_path l') as Hp by (unfold has_path; by rewrite Ep).
  assert (forall j, wait_stage j l t -> wait_stage j l' t') as Hwt.
  { intros j. destruct j; simpl; rewrite ?Ei; try (by auto); intros []; auto. }
  destruct p as [waiting|j| | |sent| | |until|m|m|m|m| | |r|]; simpl; try (by auto); try (intros [F Q]; split; [by auto|by auto]).
  - destruct sent.
    + intros (F & ? & ? & ?). auto.
    + rewrite os_uncertain0. intros (F & ? & ? & ?). auto.
  - rewrite Ei, Ew. intros (F & ? & ? & ?). auto.
  - intros [Q D]. split; [by auto|]. by apply os_monitor0; [|apply Q|].
  - intros (F & ? & ?). auto.
  - intros (F & ? & ?). auto.
Qed.

(** A change of the takes, and of what was heard of the events *)
Lemma env_ok (w w' : W) :
  world_ok w -> log w' = log w -> current w' = current w -> length (takes w') = length (takes w) ->
  (forall i t', takes w' !! i = Some t' -> exists t, takes w !! i = Some t /\ outside t t') ->
  (forall k t', tasks w' !! k = Some t' -> exists t, tasks w !! k = Some t /\
     on t' = on t /\ pc t' = pc t /\ inactive (locals t') = inactive (locals t)
     /\ was_stopped (locals t') = was_stopped (locals t) /\ output_path (locals t') = output_path (locals t)
     /\ forall tk tk', takes w !! on t = Some tk -> takes w' !! on t = Some tk' ->
        watch_ok (locals t) tk (is_current (on t) w) -> watch_ok (locals t') tk' (is_current (on t) w)) ->
  world_ok w'.
Proof.
  intros [T K O L C] El Ec En Ht Hk.
  assert (forall i, is_current i w' = is_current i w) as Ei by (intros i; by apply is_current_same).
  split.
  - intros i t' H'. destruct (Ht i t' H') as (t & H & []). destruct (T i t H) as [(M & Oo & U & R & Q) F].
    unfold take_ok, mon_free. rewrite El, Ei, os_uncertain0, os_running0, os_result0, os_last0, os_mon0, os_summary0.
    split; [|done]. split; [auto|]. split; [done|]. split; [done|]. split; [done|]. intros r Hr. specialize (Q r Hr).
    eapply confirmed_grown; [|by intros; eassumption|exact Q]. split; [done|congruence|congruence].
  - intros k t' H'. destruct (Hk k t' H') as (t & H & Eo & Ep & Ein & Ew & Epath & W'). destruct (K k t H) as (tk & Htk & Q).
    destruct (lookup_lt_is_Some_2 (takes w') (on t)) as [tk' Htk']; [rewrite En; by eapply lookup_lt_Some|].
    destruct (Ht _ _ Htk') as (tk0 & Htk0 & Os). rewrite Htk in Htk0. injection Htk0 as <-. specialize (W' tk tk' Htk Htk').
    destruct (T _ _ Htk) as [(M & _) _].
    exists tk'. rewrite Eo. split; [done|]. rewrite Ep, El, Ei.
    assert (stage (pc t) (locals t) tk (is_current (on t) w) (outstanding (on t) (log w)) ->
            stage (pc t) (locals t') tk' (is_current (on t) w) (outstanding (on t) (log w))) as Hst.
    { by apply stage_outside. }
    destruct Os. clear T K O L C Ht Hk. destruct (pc t); rewrite ?os_running0, ?os_result0, ?os_last0; try done.
    all: try (destruct Q as (Q1 & Q2 & Q3); split; [done|]; split; [done|]; by apply Hst).
    eapply confirmed_grown; [|by intros; eassumption|exact Q]. split; [done|congruence|congruence].
  - intros k1 k2 t1 t2 H1 H2 Ho R1 R2. destruct (Hk _ _ H1) as (s1 & G1 & Eo1 & Ep1 & _), (Hk _ _ H2) as (s2 & G2 & Eo2 & Ep2 & _).
    rewrite Ep1 in R1. rewrite Ep2 in R2. eapply O; eauto; congruence.
  - intros i Hi. rewrite El. apply L. lia.
  - intros i Hi. rewrite En. apply C. congruence.
Qed.

(** A change that no task notices *)
Record steady (w w' : W) : Prop := {
  st_tasks : tasks w' = tasks w;
  st_log : log w' = log w;
  st_current : current w' = current w;
  st_length : length (takes w') = length (takes w);
  st_takes i t' : takes w' !! i = Some t' -> exists t, takes w !! i = Some t /\ outside t t'
}.

Lemma steady_same (w w' : W) :
  tasks w' = tasks w -> log w' = log w -> current w' = current w -> takes w' = takes w -> steady w w'.
Proof. intros ? ? ? E. split; try done; [by rewrite E|]. rewrite E. intros i t Ht. eauto using outside_refl. Qed.

Lemma steady_trans w1 w2 w3 : steady w1 w2 -> steady w2 w3 -> steady w1 w3.
Proof.
  intros [A1 A2 A3 A4 A5] [B1 B2 B3 B4 B5]. split; try congruence. intros i t H.
  destruct (B5 i t H) as (t2 & H2 & O2). destruct (A5 i t2 H2) as (t1 & H1 & O1). eauto using outside_trans.
Qed.

Lemma steady_upd i f (w : W) : (forall t, outside t (f t)) -> steady w (upd i f w).
Proof.
  intros Hf. destruct (takes w !! i) as [t|] eqn:H.
  - pose proof (upd_takes i f w t H) as E. split; try done; [by rewrite E, length_insert|]. intros j t' Hj. rewrite E in Hj.
    destruct (decide (j = i)) as [->|Hne].
    + rewrite list_lookup_insert_eq in Hj by by eapply lookup_lt_Some. injection Hj as <-. eauto.
    + rewrite list_lookup_insert_ne in Hj by done. eauto using outside_refl.
  - apply steady_same; try done. unfold upd. simpl. apply list_eq. intros j. destruct (decide (j = i)) as [->|Hne].
    + by rewrite list_lookup_alter_eq, H.
    + by rewrite list_lookup_alter_ne.
Qed.

Lemma steady_watched i o (w : W) : steady w (upd i (watched o) w).
Proof. apply steady_upd. apply watched_outside. Qed.

Lemma steady_ok (w w' : W) : world_ok w -> steady w w' -> world_ok w'.
Proof.
  intros Hw [A1 A2 A3 A4 A5]. apply (env_ok w); try done. intros k t' H. rewrite A1 in H. exists t'. split; [done|].
  repeat split. intros tk tk' H1 H2. apply watch_grown. destruct (A5 _ _ H2) as (tk0 & H0 & [? ? ? ? ? ? ? Os ? ?]).
  rewrite H1 in H0. by injection H0 as <-.
Qed.

Lemma steady_take_impact i (w : W) : steady w (snd (take_impact i w)).
Proof.
  unfold take_impact. destruct (RecordImpact.check _ _ _) as [status reg].
  assert (steady w (w <| registry := reg |>)) as H by by apply steady_same.
  destruct status; try exact H. eapply steady_trans; [exact H|]. apply steady_upd. intros t.
  apply kept_outside, kept_continuity, lose_stopped.
Qed.

(** What a [Take] field outside the stop becomes *)
Ltac steady_field := apply steady_upd; intros ?; by split.

Lemma refresh_steady job (w : W) : steady w (refresh_impacts job w).
Proof.
  unfold refresh_impacts. cbv zeta. assert (steady w (starting_impact w)) as H0.
  { unfold starting_impact. destruct (starting w) as [s|]; [|by apply steady_same].
    destruct (RecordImpact.check _ _ _) as [[| |] reg]; by apply steady_same. }
  set (w0 := starting_impact w) in *. clearbody w0. eapply steady_trans; [exact H0|].
  destruct (current w0) as [i|]; [|by apply steady_same].
  pose proof (steady_take_impact i w0) as H. destruct (take_impact i w0) as [status w1]. simpl in H.
  eapply steady_trans; [exact H|]. destruct status; apply steady_upd; intros t; [| |by split].
  - destruct (_ && _); [|apply outside_refl]. destruct (negb _); by split.
  - destruct (is_none _); by split.
Qed.

Lemma watched_opt_steady {A} i (x : option A) o (w : W) : steady w (watched_opt i x o w).
Proof. destruct x; [apply steady_watched|by apply steady_same]. Qed.

Lemma setup_completed_steady i ppm (w : W) : steady w (setup_completed stats_interval picture_interval i ppm w).
Proof.
  unfold setup_completed. cbv zeta. eapply steady_trans; [apply (steady_watched i (Monitor.CompleteSetup (epoch_ms w) ppm))|].
  destruct (read i false _ w); [steady_field|by apply steady_same].
Qed.

Lemma setup_steady i setup (w : W) : steady w (setup_done stats_interval picture_interval i setup w).
Proof.
  unfold setup_done. set (w1 := upd i _ w). assert (steady w w1) as H.
  { apply steady_upd. intros t. split; try done. intros _ Hs. split; [done|]. unfold drained. simpl.
    by rewrite !andb_true_iff; intros [_ D]. }
  clearbody w1. destruct setup as [s|]; [|exact H]. cbv zeta.
  eapply steady_trans; [|apply setup_completed_steady]. eapply steady_trans; [|apply watched_opt_steady].
  eapply steady_trans; [|steady_field]. eapply steady_trans; [|apply steady_watched].
  eapply steady_trans; [|apply watched_opt_steady]. eapply steady_trans; [exact H|apply steady_watched].
Qed.

Lemma schedule_kind_steady i kind (w : W) : steady w (schedule_kind stats_interval picture_interval i kind w).
Proof.
  unfold schedule_kind. destruct (read i None _ w); [|by apply steady_same]. destruct (_ <=? _); [|by apply steady_same].
  eapply steady_trans; [|apply steady_watched]. apply steady_upd. intros t. destruct kind; by split.
Qed.

Lemma schedule_steady (w : W) : steady w (schedule stats_interval picture_interval w).
Proof.
  unfold schedule. destruct (current w) as [i|]; [|by apply steady_same].
  eapply steady_trans; apply schedule_kind_steady.
Qed.

Lemma report_steady i (w : W) : steady w (start_report i w).
Proof.
  unfold start_report. destruct (Control.claim _ _ _ _ _) as [outcome c].
  eapply steady_trans; [|apply steady_take_impact].
  eapply steady_trans; [by apply (steady_same _ (w <| control := c |>))|].
  destruct outcome as [[| |]|]; first [steady_field|by apply steady_same].
Qed.

Lemma update_steady r u (w : W) : steady w (snd (update r u w)).
Proof. unfold update. destruct (w_update _ _ _ _). by apply steady_same. Qed.

(** *** Events *)

Lemma note_path_stopped data c : c_stopped (note_path data c) = c_stopped c.
Proof. unfold note_path. destruct (c_lost c); [done|]. by destruct (nonempty_path _). Qed.

Lemma note_grows ours name data c : c_stopped c = true -> c_stopped (note ours name data c) = true.
Proof.
  intros H. unfold note. destruct (negb ours || _); [done|]. destruct (str_eqb name _); [|done].
  rewrite note_path_stopped. unfold note_state. destruct (is_some_and _ _); [done|]. by destruct (is_some_and _ _).
Qed.

Lemma note_sees data c : stopped_state data = true -> c_stopped (note true "RecordStateChanged" data c) = true.
Proof.
  intros H. unfold note. change (str_eqb "RecordStateChanged" "disconnected") with false.
  change (str_eqb "RecordStateChanged" "RecordStateChanged") with true. cbv iota beta. simpl orb. cbv iota.
  rewrite note_path_stopped. unfold note_state, stopped_state in *. rewrite H.
  destruct (get "outputState" data >>? as_str) as [state|]; [|done]. simpl in *. apply str_eqb_eq in H as ->. done.
Qed.

Lemma observe_take_steady i ours name data (w : W) : steady w (observe_take i ours name data w).
Proof.
  unfold observe_take. destruct (negb ours || _).
  - eapply steady_trans; [apply (steady_watched i (Monitor.OnDisconnect (epoch_ms w)))|]. set (w1 := upd i _ w). clearbody w1.
    destruct (read i None start_operation w1) as [r|]; [|by apply steady_same].
    pose proof (update_steady r (OperationReceipt.update_new OperationReceipt.Unknown) w1) as H.
    destruct (update _ _ w1) as [[r'|e] w2]; [|exact H]. eapply steady_trans; [exact H|]. steady_field.
  - eapply steady_trans; [apply (steady_watched i (Monitor.OnEvent (epoch_ms w) name data))|].
    destruct (if str_eqb name _ then _ else _); [steady_field|by apply steady_same].
Qed.

(** The subscriptions of a well-formed world get an event the current take has noted. *)
Lemma broadcast_ok name data (w : W) :
  world_ok w ->
  (stop_event (name, instant w, data) -> forall i t, current w = Some i -> takes w !! i = Some t ->
     c_stopped (continuity t) = true) ->
  world_ok (broadcast name data w).
Proof.
  intros Hw Hs. apply (env_ok w); try done; [intros i t H; eauto using outside_refl|].
  intros k t' H. apply list_lookup_fmap_Some in H as (t & E & Hk). subst t'. exists t. split; [exact Hk|].
  assert (forall tk tk', takes w !! on t = Some tk -> takes (broadcast name data w) !! on t = Some tk' -> tk' = tk) as Hsame.
  { intros tk tk' H1 H2. change (takes (broadcast name data w)) with (takes w) in H2. congruence. }
  destruct (watch (locals t)) as [v|] eqn:Ev; [|repeat split; intros tk tk' H1 H2; by rewrite (Hsame tk tk' H1 H2)].
  repeat split. intros tk tk' H1 H2. rewrite (Hsame tk tk' H1 H2).
  unfold watch_ok. rewrite Ev. simpl. intros Hold Hc Hex.
  assert (Exists stop_event (w_events v ++ [(name, instant w, data)])) as H.
  { unfold pushed in Hex. destruct (WATCH_CAPACITY <? _)%nat; [|exact Hex]. simpl in Hex.
    destruct (w_events v ++ _) as [|e events]; [inversion Hex|]. by right. }
  apply Exists_app in H as [H|H]; [by apply Hold|].
  apply Exists_cons in H as [H|H]; [|inversion H]. eapply (Hs H); [|exact H1]. by apply bool_decide_eq_true in Hc.
Qed.

Lemma observe_ok ours name data (w : W) : world_ok w -> world_ok (observe ours name data w).
Proof.
  intros Hw. unfold observe. set (w1 := match current w with Some i => _ | None => _ end).
  assert (steady w w1) as H.
  { unfold w1. destruct (current w) as [i|]; [|by apply steady_same].
    eapply steady_trans; [|apply observe_take_steady]. apply steady_upd. intros t. split; try done. apply note_grows. }
  destruct ours; [|by eapply steady_ok]. apply broadcast_ok; [by eapply steady_ok|].
  intros [En Es] i t Hc Ht. simpl in En, Es. subst name. rewrite (st_current _ _ H) in Hc. unfold w1 in Ht. rewrite Hc in Ht.
  set (f := fun t : Take => t <| continuity ::= note true "RecordStateChanged" data |>) in Ht.
  destruct (st_takes _ _ (observe_take_steady i true "RecordStateChanged" data (upd i f w)) i t Ht) as (t1 & H1 & O).
  apply (os_stopped _ _ O). destruct (takes w !! i) as [t0|] eqn:H0.
  - rewrite (upd_takes i f w t0 H0), list_lookup_insert_eq in H1 by by eapply lookup_lt_Some. injection H1 as <-.
    by apply note_sees.
  - apply (wo_current w Hw) in Hc. apply lookup_ge_None in H0. lia.
Qed.

(** *** New stops and new takes *)

Lemma spawn_ok i p (w : W) :
  world_ok w -> (i < length (takes w))%nat -> world_ok (w <| tasks := tasks w ++ [new_task i p] |>).
Proof.
  intros Hw Hi. split; try apply Hw.
  - intros k t H. simpl in H. apply lookup_app_Some in H as [H|[_ H]]; [by apply (wo_tasks w Hw k t)|].
    apply list_lookup_singleton_Some in H as [_ <-]. destruct (lookup_lt_is_Some_2 _ _ Hi) as [tk Htk]. by exists tk.
  - intros k1 k2 t1 t2 H1 H2 Ho R1 R2. simpl in H1, H2.
    apply lookup_app_Some in H1 as [H1|[_ H1]]; [|apply list_lookup_singleton_Some in H1 as [_ <-]; done].
    apply lookup_app_Some in H2 as [H2|[_ H2]]; [|apply list_lookup_singleton_Some in H2 as [_ <-]; done].
    by eapply (wo_one w Hw).
Qed.

Lemma start_ok t (w : W) :
  world_ok w -> is_fresh t -> current w = None ->
  world_ok (set_current (length (takes w)) (w <| takes := takes w ++ [t] |>)).
Proof.
  intros [T K O L C] (F1 & F2 & F3 & F4 & F5 & F6 & F7 & _ & _ & (owner & at_ms & at_text & opts & Em)) Hc.
  set (w2 := set_current _ _).
  assert (forall i, (i < length (takes w))%nat -> is_current i w2 = is_current i w) as Hcur.
  { intros i Hi. unfold is_current. simpl. rewrite Hc. rewrite !bool_decide_eq_false_2; [done|done|]. intros [=]. lia. }
  split.
  - intros i t' H. simpl in H. apply lookup_app_Some in H as [H|[Hi H]].
    + destruct (T i t' H) as [Ht Hf]. unfold take_ok. rewrite Hcur by by eapply lookup_lt_Some. by split.
    + apply list_lookup_singleton_Some in H as [Hz <-]. unfold take_ok. change (log w2) with (log w).
      rewrite (L i) by lia. rewrite F4, F5, Em. split; [|by left]. split; [apply Monitor.monitor_start_ok|].
      split; [done|]. split; [done|]. split; [done|]. by intros r [|].
  - intros k t' H. destruct (K k t' H) as (tk & Htk & Q). exists tk. pose proof (lookup_lt_Some _ _ _ Htk) as Hi.
    split; [|by rewrite Hcur]. change (takes w2) with (takes w ++ [t]). by rewrite lookup_app_l.
  - exact O.
  - intros i Hi. apply L. change (takes w2) with (takes w ++ [t]) in Hi. rewrite length_app in Hi. lia.
  - intros i [= <-]. change (takes w2) with (takes w ++ [t]). rewrite length_app. simpl. lia.
Qed.

(** ** The reachable worlds *)

Lemma step_ok a (w : W) : world_ok w -> allowed a -> world_ok (step a w).
Proof.
  intros Hw Ha. unfold TakeStop.step. destruct (task_of a) as [k|] eqn:Hk.
  { destruct (tasks w !! k) as [t|] eqn:Ht; [|done]. by apply resumed_ok. }
  destruct a; try done; simpl.
  - destruct (takes w !! i) as [t|] eqn:H; [|done]. simpl. apply spawn_ok; [done|]. by eapply lookup_lt_Some.
  - by apply observe_ok.
  - eapply steady_ok; [done|apply refresh_steady].
  - destruct (current w) as [i|] eqn:Hc; [|done]. destruct (read i false _ w) eqn:Hr; [|done].
    set (p := internal_policy _). clearbody p.
    pose proof (steady_upd i (fun t => t <| deadline_fired := true |>) w) as Hs.
    assert (steady w (upd i (fun t => t <| deadline_fired := true |>) w)) as H1 by steady_field.
    pose proof (steady_ok w _ Hw H1) as H2. apply (spawn_ok i p) in H2; [exact H2|].
    rewrite (st_length _ _ H1). by apply (wo_current w Hw).
  - eapply steady_ok; [done|apply schedule_steady].
  - eapply steady_ok; [done|apply steady_watched].
  - eapply steady_ok; [done|apply steady_watched].
  - eapply steady_ok; [done|apply steady_watched].
  - destruct (read i false setup_pending w); [|done]. eapply steady_ok; [done|apply setup_steady].
  - eapply steady_ok; [done|apply report_steady].
  - eapply steady_ok; [done|by apply steady_same].
  - destruct (0 <=? elapsed); [|done]. eapply steady_ok; [done|by apply steady_same].
  - eapply steady_ok; [done|by apply steady_same].
  - destruct (current w) eqn:Hc; [done|]. simpl. by apply start_ok.
  - eapply steady_ok; [done|by apply steady_same].
  - eapply steady_ok; [done|by apply steady_same].
  - eapply steady_ok; [done|apply steady_take_impact].
  - eapply steady_ok; [done|steady_field].
Qed.

Lemma reached_ok (w : W) : reached w -> world_ok w.
Proof.
  induction 1 as [w (E1 & E2 & E3 & E4)|a w _ IH Ha]; [|by apply step_ok].
  split; rewrite ?E1, ?E3, ?E4; try done. rewrite E2. done.
Qed.

(** ** The theorems *)

Lemma outstanding_all i (w : W) : world_ok w -> outstanding i (log w) <> None.
Proof.
  intros Hw. destruct (takes w !! i) as [t|] eqn:H.
  - by destruct (wo_takes w Hw i t H) as [(_ & O & _) _].
  - apply lookup_ge_None in H. by rewrite (wo_log w Hw i H).
Qed.

Lemma replay_none i l : fold_left (after_entry i) l None = None.
Proof. by induction l. Qed.

Lemma replay_open i l : ~ In (WasRejected i) l -> fold_left (after_entry i) l (Some true) <> Some false.
Proof.
  induction l as [|e l IH]; [done|]. intros H. assert (~ In (WasRejected i) l) as H' by (intros H'; apply H; by right).
  destruct e as [j|j]; simpl; case_bool_decide as E; try (by apply IH); [by rewrite replay_none|].
  subst j. destruct H. by left.
Qed.

(** C1: The Stop request is never replayed.  Whatever stops run on a take and in whatever order their
    awaits return, between two Stop requests sent for the same take OBS rejected the first one:
    a request whose outcome is unknown, or that was accepted, is never followed by another. *)
Theorem stop_never_replayed (w : W) i l1 l2 l3 :
  reached w -> log w = l1 ++ [Sent i] ++ l2 ++ [Sent i] ++ l3 -> In (WasRejected i) l2.
Proof.
  intros Hr E. pose proof (outstanding_all i w (reached_ok w Hr)) as O. rewrite E in O. unfold outstanding in O.
  rewrite !fold_left_app in O. simpl in O. destruct (In_dec (fun e e' : Entry => ltac:(decide equality; apply Nat.eq_dec)) (WasRejected i) l2)
    as [H|H]; [done|]. exfalso. apply O. clear O E.
  assert (forall st, after_entry i st (Sent i) = None \/ after_entry i st (Sent i) = Some true) as S1.
  { intros [[]|]; simpl; rewrite ?bool_decide_eq_true_2 by done; auto. }
  destruct (S1 (fold_left (after_entry i) l1 (Some false))) as [->| ->]; [by rewrite replay_none; simpl; rewrite replay_none|].
  pose proof (replay_open i l2 H) as P. destruct (fold_left (after_entry i) l2 (Some true)) as [[]|]; [|done|].
  - simpl. rewrite bool_decide_eq_true_2 by done. apply replay_none.
  - simpl. apply replay_none.
Qed.

Lemma environment_log a (w : W) : task_of a = None -> log (environment stats_interval picture_interval a w) = log w.
Proof.
  destruct a; intros _; try done; simpl.
  - by destruct (is_none (takes w !! i)).
  - unfold observe. assert (log (match current w with
      | Some i => observe_take i ours name data (upd i (fun t => t <| continuity ::= note ours name data |>) w)
      | None => w <| starting ::= fmap (fun s => s <| s_continuity ::= note ours name data |>) |>
      end) = log w) as E.
    { destruct (current w) as [i|]; [|done]. by rewrite (st_log _ _ (observe_take_steady i ours name data _)). }
    destruct ours; exact E.
  - apply (st_log _ _ (refresh_steady job_active w)).
  - destruct (current w) as [i|]; [|done]. by destruct (read i false _ w).
  - apply (st_log _ _ (schedule_steady w)).
  - destruct (read i false setup_pending w); [|done]. apply (st_log _ _ (setup_steady i setup w)).
  - apply (st_log _ _ (report_steady i w)).
  - by destruct (0 <=? elapsed).
  - by destruct (current w).
  - apply (st_log _ _ (steady_take_impact i w)).
Qed.

(** C5: Nothing is sent without authority.  A step that sends the Stop request of take [i] is the
    final guard of a stop of [i], and at that moment the supervisor is open, [i] is the current
    take, its ownership is continuous and its recording has not stopped, the policy of the
    caller of that stop allows the change, the recording-impact registry is ready for the take's
    own ticket, and the receipt of the stop is on record as being dispatched. *)
Theorem stop_sent_under_authority (w : W) a i :
  reached w -> log (step a w) = log w ++ [Sent i] ->
  exists k t tk r,
    tasks w !! k = Some t /\ on t = i /\ pc t = Sending false /\ authority i (by_policy t) w
    /\ takes w !! i = Some tk /\ stop_operation tk = Some r
    /\ OperationReceipt.phase r = OperationReceipt.Dispatching.
Proof.
  intros Hr E. pose proof (reached_ok w Hr) as Hw. unfold TakeStop.step in E. destruct (task_of a) as [k|] eqn:Hk.
  2: { rewrite environment_log in E by done. apply (f_equal length) in E. rewrite length_app in E. simpl in E. lia. }
  destruct (tasks w !! k) as [t|] eqn:Ht; [|apply (f_equal length) in E; rewrite length_app in E; simpl in E; lia].
  destruct (resumed_ok a k t w Hw Ht Hk) as [_ [(l & El & Hl)|(Hp & El & u & w1 & Hg)]].
  - rewrite El in E. apply app_inv_head in E as ->. by inversion Hl.
  - rewrite El in E. apply app_inv_head in E. injection E as <-.
    assert (running (pc t) = true) as Hrun by by rewrite Hp.
    destruct (running_base w k t Hw Ht Hrun) as (tk & B & Q). rewrite Hp in Q. destruct Q as (_ & _ & _ & (r & Ho & Hd) & _).
    apply guard_stop_allows in Hg as [A _]. exists k, t, tk, r. by repeat split; try apply A; try apply B.
Qed.

(** C9: A confirmed stop is true.  When a stop reports a finished file, OBS has reported that the
    recording stopped while the take was the supervisor's own, the take's monitor is closed and
    its summary final, the path is not empty, and the take is no longer the current one. *)
Theorem confirmed_stop_is_true (w : W) k t path observed op :
  reached w -> tasks w !! k = Some t -> pc t = Done (Confirmed path observed op) ->
  exists tk, takes w !! on t = Some tk /\ c_stopped (continuity tk) = true /\ monitor_summary tk <> None
    /\ path <> EmptyString /\ current w <> Some (on t).
Proof.
  intros Hr Hk Hp. destruct (wo_tasks w (reached_ok w Hr) k t Hk) as (tk & H & Q). rewrite Hp in Q.
  destruct Q as ([C1 C2] & C3 & C4). exists tk. repeat split; try done. by apply bool_decide_eq_false in C3.
Qed.

(** C15: No stop panics.  The three [expect]s and [unwrap]s a stop relies on never fail: a caller that
    joined a running stop finds its report, an accepted request has its receipt, and when the
    observers are joined the monitor can be closed; nobody ever waits for the cleanup of another
    stop of the same take. *)
Theorem stop_never_panics (w : W) k t :
  reached w -> tasks w !! k = Some t -> pc t <> Panicked /\ forall m, pc t <> MonitorWait m.
Proof.
  intros Hr Hk. destruct (wo_tasks w (reached_ok w Hr) k t Hk) as (tk & H & Q).
  split; [intros E; by rewrite E in Q|]. intros m E. rewrite E in Q. by destruct Q as (_ & _ & _ & Q).
Qed.

(** At most one stop of a take runs; the others wait for its report. *)
Theorem one_stop_at_a_time (w : W) k1 k2 t1 t2 :
  reached w -> tasks w !! k1 = Some t1 -> tasks w !! k2 = Some t2 -> on t1 = on t2 ->
  running (pc t1) = true -> running (pc t2) = true -> k1 = k2.
Proof. intros Hr. apply (wo_one w (reached_ok w Hr)). Qed.

(** ** Runs *)

Definition run (inputs : list (Input (S := S))) (w : W) : W := fold_left (fun w a => step a w) inputs w.

Lemma run_reached inputs : forall w, reached w -> Forall allowed inputs -> reached (run inputs w).
Proof.
  induction inputs as [|a inputs IH]; intros w Hr H; [done|]. apply Forall_cons in H as [Ha H].
  simpl. apply IH; [by constructor|done].
Qed.
End Safety.
