(* ===== verification/TakeStart.v ===== *)
(** * The start of a take

    [native/src/takes.rs]: the commands of the supervisor, [start_take] and [run_clip] around
    [start_reserved_core], [mark_take], and [output_start.rs], with which a start is confirmed.
    The world is the one of [TakeStop] with the starts and the marks that are under way; each is,
    as a stop, a point of its code between two awaits.  The stop of a take, the events and the
    rest of the supervisor are the steps of [TakeStop], unchanged. *)
From Stdlib Require Import SpecFloat.
From coqutil Require Import Datatypes.RecordSettersUsingExistingGetters.
From S2P Require Import Prelude Json Text Number.
From S2P Require Import ReceiptFields.
From S2P Require RecordImpact Control OperationReceipt Monitor RecordClip.
From S2P Require Import TakeStop.

(** Whether a receipt in the store blocks, as far as it can be read *)
Class Admits (S : Type) := { admission_blocks : S -> result StoreError bool }.

(** ** Text *)

(** [chars().take(n)] *)
Fixpoint first_chars (n : nat) (bs : list Z) : list Z :=
  match bs with
  | [] => []
  | b :: rest =>
      if is_continuation b then b :: first_chars n rest
      else match n with O => [] | Datatypes.S n => b :: first_chars n rest end
  end.

(** ** Options and the preflight's answer *)

Definition newline : string := str_of_bytes [10].
Definition I64_MAX : Z := 2 ^ 63 - 1.

Record StartOptions := {
  o_expect_silent : bool;
  o_min_free_disk : f64;
  o_lock : bool;
  o_chapter : option string;
  o_max_duration : option Z;
  o_require_verified : bool
}.

Definition options_valid (o : StartOptions) : bool :=
  negb (negb (RecordClip.finite (o_min_free_disk o))
        || f64_ltb (o_min_free_disk o) f64_zero
        || negb (f64_eqb (f64_floor (o_min_free_disk o)) (o_min_free_disk o))
        || is_some_and (o_max_duration o) (fun seconds => (seconds =? 0) || (3600 <? seconds))
        || is_some_and (o_chapter o) str_is_empty).

Inductive CheckStatus : Type := Pass | Warn | Fail | UnknownStatus.

Record Check := { ck_id : string; ck_status : CheckStatus; ck_message : string }.

Record PreflightReport := { ready : bool; checks : list Check }.

#[local] Existing Instance Monitor.Phase_eq_dec.

#[export] Instance check_status_eq_dec : EqDecision CheckStatus.
Proof. solve_decision. Defined.

Definition DEMO_REQUIRED_CHECKS : list string :=
  ["connection"; "record-idle"; "record-directory"; "disk-space"; "encoder"; "audio"; "scene-items"]%string.

Definition passed (id : string) (r : PreflightReport) : bool :=
  existsb (fun c => str_eqb (ck_id c) id && bool_decide (ck_status c = Pass)) (checks r).

Definition missing_checks (r : PreflightReport) : list string :=
  List.filter (fun id => negb (passed id r)) DEMO_REQUIRED_CHECKS.

Definition failed_checks (r : PreflightReport) : list string :=
  map (fun c => "- " +:+ ck_id c +:+ ": " +:+ ck_message c) (List.filter (fun c => bool_decide (ck_status c = Fail)) (checks r)).

(** ** What a start reports *)

(** How the output was seen to start, or not *)
Inductive Outcome : Type := Started (path : option string) | OutputStopped | TimedOut.

Inductive StartReport : Type :=
| NotRecording (text : string)
| StartUnknown (text : string) (operation : option string)
| Interrupted (text : string) (stop : StopReport)
| IsRecording (take : nat)
| ClipEnded (take : nat) (stop : StopReport).

(** [as_secs_f64] *)
Definition as_secs_f64 (nanos : Z) : f64 :=
  f64_add (f64_of_Z (nanos / 1000000000)) (f64_div (f64_of_Z (nanos mod 1000000000)) (f64_of_Z 1000000000)).

(** The schedule of a clip, in the supervisor's clock *)
Record Clip := { clip_length : Z; clip_chapters : list (Z * string) }.

Definition clip_of (r : RecordClip.Request) : Clip :=
  let '(seconds, chapters) := RecordClip.into_schedule r in
  {| clip_length := RecordClip.from_secs_f64 seconds;
     clip_chapters := map (fun c => (RecordClip.from_secs_f64 (RecordClip.at_seconds c), RecordClip.name c)) chapters |}.

(** [start_options] of a clip *)
Definition clip_options (r : RecordClip.Request) : StartOptions :=
  {| o_expect_silent := RecordClip.expect_silent r; o_min_free_disk := f64_of_Z 1024; o_lock := true; o_chapter := None;
     o_max_duration := None; o_require_verified := false |}.

(** Where [wait_impact] returns to; the setup of the monitor is in hand at the last one. *)
Inductive AfterWait : Type := BeforeIntent | AfterStart | AfterSetup (setup : result string Setup).

Inductive ForMark : Type := FirstChapter | ClipChapter (rest : list (Z * string)).

Inductive StartPc : Type :=
| Entering
| Preflighting
| WaitingImpact (k : AfterWait)
| StartSending (sent : bool)
| AwaitStarted
| AskStatus (seen : Outcome)
| SettingUp
| Marking (m : nat) (k : ForMark)
| ClipWaiting (until : Z) (next : option (string * list (Z * string)))
| StopsFor (k : nat) (text : option string)
| StartDone (r : StartReport)
| StartPanicked.

(** The local variables of a start *)
Record StartLocals := {
  l_impact : Z;
  l_deadline : Z;
  l_checks : list Check;
  l_id : string;
  l_watch : option Watch;
  l_until : Z;
  l_take : nat;
  l_origin : Z
}.

Definition no_start_locals : StartLocals :=
  {| l_impact := 0; l_deadline := 0; l_checks := []; l_id := EmptyString; l_watch := None; l_until := 0; l_take := 0%nat;
     l_origin := 0 |}.

Record StartTask := {
  s_options : StartOptions;
  s_policy : Policy;
  s_clip : option Clip;
  s_cancel : bool;
  s_locals : StartLocals;
  s_pc : StartPc
}.

(** [mark_take] *)
Inductive MarkPc : Type := MarkSending (sent : bool) | Marked (note : option string).

Record MarkTask := { m_take : nat; m_name : string; m_policy : Policy; m_pc : MarkPc }.

Record StartWorld {S : Type} := {
  base : TakeStop.World S;
  starts : list StartTask;
  marks : list MarkTask;
  clip_shutdown : bool;
  sends : list nat
}.
Arguments StartWorld : clear implicits.

Section Starting.
Context {Lib : F64Library} {S : Type} {Wr : Writer S} {Adm : Admits S}.
Context (generation : Z) (identity : nat -> string) (stop_limit stats_interval picture_interval : Z).

(** Of [Limits], what a start uses, and the identity of the monitor's tickets *)
Context (setup_limit start_confirmation : Z) (owner : nat).

Notation B := (TakeStop.World S).
Notation W := (StartWorld S).

(** ** The receipts and the reservation of a start *)

Definition on_start (f : TakeStop.Starting -> TakeStop.Starting) (b : B) : B := b <| starting ::= fmap f |>.

Definition start_receipt (b : B) : option OperationReceipt.OperationReceipt := starting b >>? s_receipt.

(** [wait_impact]: on the reservation's continuity, or on the take's once there is one *)
Inductive Target : Type := OfStart (ticket : Z) | OfTake (i : nat).

Definition probe (t : Target) (b : B) : RecordImpact.ImpactStatus * B :=
  match t with
  | OfTake i => take_impact i b
  | OfStart ticket =>
      let '(status, reg) := RecordImpact.check ticket (borrowed b) (registry b) in
      let b := b <| registry := reg |> in
      (status,
       match status with
       | RecordImpact.Revoked r => on_start (fun s => s <| s_continuity ::= lose (revocation_text r) |>) b
       | _ => b
       end)
  end.

Definition probe_turn (t : Target) (b : B) : Waited * B :=
  let '(status, b) := probe t b in
  (match status with
   | RecordImpact.Ready => Granted
   | RecordImpact.Revoked _ => Denied
   | RecordImpact.Suspended _ => Pending
   end, b).

Definition wait_impact (t : Target) (b : B) : Waited * B :=
  let '(ok, b) := changes b in
  if ok then probe_turn t b else (Denied, snd (probe t b)).

Definition wait_woken (t : Target) (woken : bool) (until : Z) (b : B) : Waited * B :=
  let '(ok, b) := changes b in
  if negb ok then (Denied, snd (probe t b))
  else if woken then probe_turn t b
  else if until <=? instant b then (Denied, snd (probe t b))
  else (Pending, b).

(** ** Policy *)

Definition permitted (tool : string) (arguments : Value) (p : Policy) (b : B) : result string unit * B :=
  let '(disposition, domain) := Control.evaluate (control b)
    {| Control.tool_name := tool; Control.arguments := arguments;
       Control.read_only_hint := false; Control.caller := p_caller p;
       Control.confirmation := {| Control.enabled := p_confirmation_enabled p;
                                  Control.can_elicit := p_can_elicit p;
                                  Control.input_responses := p_input_responses p |} |} (epoch_ms b) in
  (match disposition with
   | Control.Allow => Ok tt
   | Control.Refused _ message => Err message
   | Control.Cancelled => Err "Cancelled; nothing was changed"%string
   | Control.InputRequired _ => Err "Take dispatch refused by policy"%string
   end, b <| control := domain |>).

(** The final guard of a request other than Stop, once policy allows it *)
Definition impact_allows (t : option Target) (b : B) : result string unit * B :=
  match t with
  | None => (Ok tt, b)
  | Some t =>
      let '(status, b) := probe t b in
      (match status with RecordImpact.Ready => Ok tt | _ => Err "Recording impact blocks owned dispatch"%string end, b)
  end.

Definition binding (b : B) : option Target :=
  match current b with
  | Some i => Some (OfTake i)
  | None => (fun s => OfStart (s_impact s)) <$> starting b
  end.

(** ** The world of the starts *)

Definition upd_start (k : nat) (f : StartTask -> StartTask) (w : W) : W := w <| starts ::= alter f k |>.

Definition cancelled (w : W) : bool :=
  match starting (base w) >>? s_cancellation with
  | Some k => is_some_and (starts w !! k) s_cancel || clip_shutdown w
  | None => false
  end.

Definition cancelled_before_dispatch (w : W) : bool :=
  match starting (base w) >>? s_cancellation with
  | Some k => is_some_and (starts w !! k) s_cancel
  | None => false
  end.

Definition with_base (b : B) (w : W) : W := w <| base := b |>.

Definition SNext : Type := StartPc * StartLocals * W.

(** ** [mark_take] *)

Definition mark_take (i : nat) (name : string) (p : Policy) (w : W) : nat * W :=
  (length (marks w),
   (w <| base := upd i (watched (Monitor.Mark (epoch_ms (base w)) name)) (base w) |>)
     <| marks ::= fun l => l ++ [{| m_take := i; m_name := name; m_policy := p; m_pc := MarkSending false |}] |>).

Definition guard_chapter (i : nat) (name : string) (p : Policy) (b : B) : result string unit * B :=
  if closed b then (Err "Take supervisor is closing"%string, b)
  else if negb (is_current i b) then (Err "Take ownership is no longer current"%string, b)
  else
    let '(allowed, b) := permitted "obs-take-mark" (object_of [("name", str name)]) p b in
    match allowed with
    | Err e => (Err e, b)
    | Ok _ => impact_allows (binding b) b
    end.

Definition mark_ends (m : nat) (t : MarkTask) (failure : option string) (w : W) : W :=
  let note := (fun message => "Chapter " +:+ RecordClip.quote +:+ m_name t +:+ RecordClip.quote +:+ " not added: " +:+ message) <$> failure in
  let w := match note with
           | Some note => with_base (upd (m_take t) (fun t => t <| chapter_notes ::= fun l => l ++ [note] |>) (base w)) w
           | None => w
           end in
  w <| marks ::= <[m := t <| m_pc := Marked note |>]> |>.

(** ** [start_reserved_core] *)

(** A clip goes on after the core, with its own clock; [None] is the end of its schedule. *)
Definition clip_next (l : StartLocals) (c : Clip) (chapters : list (Z * string)) : StartPc :=
  match chapters with
  | (at_, name) :: rest => ClipWaiting (l_origin l + at_) (Some (name, rest))
  | [] => ClipWaiting (l_origin l + clip_length c) None
  end.

(** What follows the core: its result, and the end of the reservation *)
Definition core_ends (t : StartTask) (r : result StartReport unit) (l : StartLocals) (w : W) : SNext :=
  match r, s_clip t with
  | Err report, _ => (StartDone report, l, with_base ((base w) <| starting := None |>) w)
  | Ok _, None =>
      let b := start_report (l_take l) (base w) in
      (StartDone (IsRecording (l_take l)), l, with_base (b <| starting := None |>) w)
  | Ok _, Some c =>
      let l := l <| l_origin := instant (base w) |> in
      (clip_next l c (clip_chapters c), l, with_base ((base w) <| starting := None |>) w)
  end.

Definition fails (t : StartTask) (text : string) (l : StartLocals) (w : W) : SNext :=
  core_ends t (Err (NotRecording text)) l w.

(** A stop that the start runs itself *)
Definition runs_stop (t : StartTask) (text : option string) (l : StartLocals) (w : W) : SNext :=
  (StopsFor (length (tasks (base w))) text, l,
   with_base ((base w) <| tasks ::= fun k => k ++ [new_task (l_take l) (internal_policy (s_policy t))] |>) w).

Definition clip_wakes (t : StartTask) (until : Z) (next : option (string * list (Z * string))) (l : StartLocals) (w : W)
  : option SNext :=
  let stopped := s_cancel t || clip_shutdown w in
  if negb stopped && (instant (base w) <? until) then None
  else Some
    (match next with
     | Some (name, rest) =>
         if stopped then
           match s_clip t with
           | Some c => (clip_next l c [], l, w)
           | None => (StartPanicked, l, w)
           end
         else
           let '(m, w) := mark_take (l_take l) name (internal_policy (s_policy t)) w in
           (Marking m (ClipChapter rest), l, w)
     | None => runs_stop t None l w
     end).

(** The chapter that opens the take *)
Definition first_chapter (t : StartTask) (l : StartLocals) (w : W) : SNext :=
  match opt_filter (fun name => negb (str_is_empty name)) (o_chapter (s_options t)) with
  | Some name =>
      let '(m, w) := mark_take (l_take l) name (s_policy t) w in
      (Marking m FirstChapter, l, w)
  | None => core_ends t (Ok tt) l w
  end.

(** Why the start ends with a stop of its own *)
Definition interruption (setup : result string Setup) (clip_cancelled : bool) : string :=
  match setup with
  | Err message => "Take monitor initialization failed: " +:+ message
  | Ok _ =>
      if clip_cancelled then "Record Clip cancelled during monitor initialization; inspect the stop result"
      else "Take deadline elapsed during monitor initialization; inspect the stop result"
  end.

Definition after_setup (t : StartTask) (setup : result string Setup) (l : StartLocals) (w : W) : SNext :=
  let i := l_take l in
  let b := setup_done stats_interval picture_interval i (match setup with Ok s => Some s | Err _ => None end) (base w) in
  let w := with_base b w in
  let interrupted := read i false (fun t =>
    stop_running t || negb (is_none (stop_result t))
    || negb (bool_decide (Monitor.phase (Monitor.core (monitor t)) = Monitor.Running))) b in
  let clip_cancelled := cancelled w in
  if (match setup with Err _ => true | Ok _ => false end) || interrupted || clip_cancelled
  then runs_stop t (Some (interruption setup clip_cancelled)) l w
  else first_chapter t l w.

(** [after]: whether the wait for authority was granted *)
Definition setup_waited (t : StartTask) (r : Waited * B) (setup : result string Setup) (l : StartLocals) (w : W) : SNext :=
  match r with
  | (Granted, b) => after_setup t setup l (with_base b w)
  | (Denied, b) =>
      after_setup t (Err "External recording impact invalidated monitor initialization"%string) l (with_base b w)
  | (Pending, b) => (WaitingImpact (AfterSetup setup), l, with_base b w)
  end.

Definition setup_answered (t : StartTask) (setup : result string Setup) (l : StartLocals) (w : W) : SNext :=
  setup_waited t (wait_impact (OfTake (l_take l)) (base w)) setup l w.

Definition started_update (continuous : bool) : OperationReceipt.OperationUpdate :=
  {| OperationReceipt.new_phase := if continuous then OperationReceipt.Observed else OperationReceipt.Unknown;
     OperationReceipt.set_dispatched := None; OperationReceipt.set_accepted := None;
     OperationReceipt.set_observed := Some continuous |}.

(** The receipt of a start that was confirmed, and whether it can be relied on *)
Definition settle_start (continuous : bool) (b : B) : option OperationReceipt.OperationReceipt * bool * B :=
  let unavailable := is_some_and (starting b) s_receipt_unavailable in
  match start_receipt b with
  | None => (None, unavailable, b)
  | Some r =>
      match update r (started_update continuous) b with
      | (Ok r, b) => (Some r, unavailable, b)
      | (Err _, b) => (Some r, true, b)
      end
  end.

(** [Take], as it is made when the start is confirmed *)
Definition make_take (t : StartTask) (l : StartLocals) (receipt : option OperationReceipt.OperationReceipt)
    (unavailable : bool) (b : B) : Take :=
  {| impact := l_impact l; blocked_impact := None; id := l_id l; expect_silent := o_expect_silent (s_options t);
     lock := o_lock (s_options t); policy := s_policy t; local := passed "record-directory" {| ready := true; checks := l_checks l |};
     monitor := Monitor.start owner (Z.min (epoch_ms b) I64_MAX) (utc b)
                  (Monitor.default_options <| Monitor.expect_silent := o_expect_silent (s_options t) |>);
     continuity := match starting b with Some s => s_continuity s | None => default_continuity end;
     start_operation := receipt; stop_operation := None; receipt_unavailable := unavailable; stop_uncertain := false;
     stop_running := false; stop_result := None; last_stop := None; chapter_notes := []; lease_holder := None;
     deadline := (fun seconds => instant b + seconds * 1000000000) <$> o_max_duration (s_options t);
     deadline_fired := false; setup_pending := true; monitor_stop_running := false; monitor_summary := None;
     next_stats := None; next_picture := None; program := None |}.

Definition STATUS_ONLY : string := "Start was confirmed only by status; recording identity is uncertain".

Definition note_unstarted (c : Continuity) : Continuity :=
  if c_started c then c
  else {| c_started := c_started c; c_stopped := c_stopped c; c_lost := Some STATUS_ONLY; c_path := c_path c |}.

(** The start is confirmed: its receipt, its take, and the setup of the monitor. *)
Definition confirmed (t : StartTask) (granted : bool) (l : StartLocals) (w : W) : SNext :=
  let b := on_start (fun s => s <| s_continuity ::= note_unstarted |>) (base w) in
  let '(continuous, b) :=
    if negb (is_none (start_receipt b)) && granted then
      let '(status, b) := probe (OfStart (l_impact l)) b in
      (match status with
       | RecordImpact.Ready => is_none (starting b >>? (fun s => c_lost (s_continuity s)))
       | _ => false
       end, b)
    else (false, b) in
  let '(receipt, unavailable, b) := settle_start continuous b in
  let l := l <| l_take := length (takes b) |> in
  let b := set_current (length (takes b)) (b <| takes ::= fun ts => ts ++ [make_take t l receipt unavailable b] |>) in
  if granted then (SettingUp, l, with_base b w)
  else setup_answered t (Err "External recording impact blocked monitor initialization"%string) l (with_base b w).

(** The output did not start as asked. *)
Definition start_failed (t : StartTask) (text : string) (l : StartLocals) (w : W) : SNext :=
  let '(op, b) :=
    match start_receipt (base w) with
    | Some r =>
        match update r (OperationReceipt.update_new OperationReceipt.Unknown) (base w) with
        | (Ok r, b) => (Some r, b)
        | (Err _, b) => (Some r, b)
        end
    | None => (None, base w)
    end in
  core_ends t (Err (StartUnknown text (OperationReceipt.operation_id <$> op))) l (with_base b w).

Definition confirmed_after (t : StartTask) (r : Waited * B) (l : StartLocals) (w : W) : SNext :=
  match r with
  | (Granted, b) => confirmed t true l (with_base b w)
  | (Denied, b) => confirmed t false l (with_base b w)
  | (Pending, b) => (WaitingImpact AfterStart, l, with_base b w)
  end.

Definition output_started (t : StartTask) (l : StartLocals) (w : W) : SNext :=
  confirmed_after t (wait_impact (OfStart (l_impact l)) (base w)) (l <| l_watch := None |>) w.

Definition DIALOG_NOTE : string :=
  ". OBS may be showing an error dialog that blocks further output requests until it is dismissed. If output settings were changed with obs-set-profile-parameter, restart OBS so it rebuilds its outputs.".

(** [start_output_and_confirm] after the events: what the status said *)
Definition status_answered (t : StartTask) (seen : Outcome) (active : bool) (l : StartLocals) (w : W) : SNext :=
  if active then output_started t l w
  else
    let reason := match seen with
                  | OutputStopped => "OBS stopped the output immediately after starting it"
                  | _ => "the output did not become active within " +:+ Control.f64_display (as_secs_f64 start_confirmation) +:+ "s"
                  end in
    start_failed t ("OBS accepted StartRecord, but " +:+ reason +:+ DIALOG_NOTE) (l <| l_watch := None |>) w.

Definition output_state (s : string) (data : Value) : bool :=
  is_some_and (get "outputState" data >>? as_str) (fun x => str_eqb x s).

(** The loop over the events of the output: [None] waits. *)
Fixpoint next_outcome (until now : Z) (events : list (string * Z * Value)) : option Outcome * list (string * Z * Value) :=
  match events with
  | [] => (if until <=? now then Some TimedOut else None, [])
  | (name, at_, data) :: rest =>
      if negb (str_eqb name "RecordStateChanged") then next_outcome until now rest
      else if until <? at_ then (Some TimedOut, rest)
      else if output_state "OBS_WEBSOCKET_OUTPUT_STARTED" data then
        (Some (Started (get "outputPath" data >>? as_str)), rest)
      else if output_state "OBS_WEBSOCKET_OUTPUT_STOPPED" data then (Some OutputStopped, rest)
      else next_outcome until now rest
  end.

Definition await_started (t : StartTask) (l : StartLocals) (w : W) : SNext :=
  match l_watch l with
  | None => (AskStatus TimedOut, l, w)
  | Some v =>
      if w_lagged v then (AskStatus TimedOut, l, w)
      else match next_outcome (l_until l) (instant (base w)) (w_events v) with
      | (None, rest) => (AwaitStarted, l <| l_watch := Some {| w_events := rest; w_lagged := false |} |>, w)
      | (Some (Started _), _) => output_started t l w
      | (Some seen, _) => (AskStatus seen, l, w)
      end
  end.

(** The acknowledged request, in the receipt *)
Definition on_accepted (b : B) : B :=
  match start_receipt b with
  | None => b
  | Some r =>
      match accepted r b with
      | (Ok r, b) => on_start (fun s => s <| s_receipt := Some r |>) b
      | (Err _, b) => on_start (fun s => s <| s_receipt_unavailable := true |>) b
      end
  end.

Definition start_dispatched (t : StartTask) (outcome : DispatchOutcome) (l : StartLocals) (w : W) : SNext :=
  match outcome with
  | OkAccepted => (AwaitStarted, l, with_base (on_accepted (base w)) w)
  | BeforeDispatch message | WasRejectedBy message | UnknownOutcome message =>
      start_failed t ("Recording failed to start: " +:+ message) (l <| l_watch := None |>) w
  end.

Definition guard_start (t : StartTask) (w : W) : result string unit * B :=
  let b := base w in
  if closed b || closing b then (Err "Take supervisor is closing"%string, b)
  else if cancelled_before_dispatch w then (Err "Record Clip cancelled before dispatch"%string, b)
  else
    let '(allowed, b) := permitted "obs-take-start" (object_of []) (s_policy t) b in
    match allowed with
    | Err e => (Err e, b)
    | Ok _ => impact_allows (binding b) b
    end.

Definition RECEIPT_UNAVAILABLE : string :=
  "Start Take failed: Operation receipt could not be persisted or inspected; inspect obs-observe before any further production change".

Definition take_id (n : nat) : string := str_of_bytes (first_chars 8 (bytes_of (identity n))).

(** Authority was granted: the durable intent, and the request. *)
Definition before_intent (t : StartTask) (l : StartLocals) (w : W) : SNext :=
  if cancelled w then fails t "Record Clip cancelled before recording started" l w
  else
    match admission_blocks (store (base w)) with
    | Err _ => fails t RECEIPT_UNAVAILABLE l w
    | Ok true =>
        fails t "Start Take failed: Operation receipts are unresolved or unavailable; inspect obs-observe before starting another take" l w
    | Ok false =>
        let id := take_id (next_identity (base w)) in
        let b := (base w) <| next_identity ::= Datatypes.S |> in
        let '(r, b) := prepare generation identity OperationReceipt.RecordStart id b in
        let '(r, b) := match r with Ok r => dispatching r b | Err e => (Err e, b) end in
        let w := with_base b w in
        match r with
        | Err _ => fails t RECEIPT_UNAVAILABLE l w
        | Ok r =>
            let b := b <| starting := Some {| s_cancellation := starting b >>? s_cancellation; s_impact := l_impact l;
                                              s_deadline := Some (l_deadline l); s_receipt := Some r;
                                              s_receipt_unavailable := false; s_continuity := default_continuity |} |> in
            (StartSending false,
             l <| l_id := id |> <| l_until := instant b + start_confirmation |>
               <| l_watch := Some {| w_events := []; w_lagged := false |} |>,
             with_base b w)
        end
    end.

Definition intent_waited (t : StartTask) (r : Waited * B) (l : StartLocals) (w : W) : SNext :=
  match r with
  | (Granted, b) => before_intent t l (with_base b w)
  | (Denied, b) => fails t "Start Take is blocked or revoked by an external recording-impact operation" l (with_base b w)
  | (Pending, b) => (WaitingImpact BeforeIntent, l, with_base b w)
  end.

Definition preflighted (t : StartTask) (report : option PreflightReport) (l : StartLocals) (w : W) : SNext :=
  match report with
  | None => fails t "Start Take failed: Preflight timed out" l w
  | Some r =>
      let missing := missing_checks r in
      if o_require_verified (s_options t) && negb (length missing =? 0)%nat then
        fails t ("Not recording; required preflight checks are not verified: " +:+ RecordClip.join ", " missing) l w
      else if negb (ready r) then
        fails t ("Not recording; preflight failed:" +:+ newline +:+ RecordClip.join newline (failed_checks r)) l w
      else
        intent_waited t (wait_impact (OfStart (l_impact l)) (base w)) (l <| l_checks := checks r |>) w
  end.

Definition enter_start (t : StartTask) (l : StartLocals) (w : W) : SNext :=
  match starting (base w) with
  | None => (StartPanicked, l, w)
  | Some s =>
      let l := l <| l_impact := s_impact s |> <| l_deadline := default (instant (base w) + setup_limit) (s_deadline s) |> in
      if cancelled w then fails t "Record Clip cancelled before recording started" l w
      else (Preflighting, l, w)
  end.

(** A stop that the start waits for *)
Definition stop_joined (t : StartTask) (k : nat) (text : option string) (l : StartLocals) (w : W) : option SNext :=
  match pc <$> tasks (base w) !! k with
  | Some (Done r) =>
      Some (match text with
            | Some text => core_ends t (Err (Interrupted text r)) l w
            | None => (StartDone (ClipEnded (l_take l) r), l, w)
            end)
  | Some Panicked | None => Some (StartPanicked, l, w)
  | Some _ => None
  end.

Definition mark_joined (t : StartTask) (m : nat) (k : ForMark) (l : StartLocals) (w : W) : option SNext :=
  match m_pc <$> marks w !! m with
  | Some (Marked _) =>
      Some (match k with
            | FirstChapter => core_ends t (Ok tt) l w
            | ClipChapter rest =>
                match s_clip t with
                | Some c => (clip_next l c rest, l, w)
                | None => (StartPanicked, l, w)
                end
            end)
  | Some (MarkSending _) => None
  | None => Some (StartPanicked, l, w)
  end.

(** ** Commands *)

(** [reserve_start].  An admitted ticket comes with whether it is of this registry. *)
Definition reserve_start (o : StartOptions) (admitted : option (bool * Z * Z)) (w : W) : option string * W :=
  let b := base w in
  match current b with
  | Some i => (Some ("Take " +:+ read i EmptyString id b +:+ " is already recording; stop it with obs-take-stop first"), w)
  | None =>
      if negb (is_none (starting b)) then
        (Some "Another take is being started; wait for it, then stop it with obs-take-stop"%string, w)
      else if negb (options_valid o) then (Some "Start Take failed: Invalid take options"%string, w)
      else
        let '(ticket, b) :=
          match admitted with
          | Some (owned, ticket, deadline) =>
              if negb owned then (Err "Start Take admission was invalidated by an external recording-impact operation"%string, b)
              else
                let '(status, reg) := RecordImpact.check ticket (borrowed b) (registry b) in
                let b := b <| registry := reg |> in
                match status with
                | RecordImpact.Revoked _ =>
                    (Err "Start Take admission was invalidated by an external recording-impact operation"%string, b)
                | _ => (Ok (ticket, Some deadline), b)
                end
          | None =>
              let '(res, reg) := RecordImpact.reserve_take (borrowed b) (registry b) in
              let b := b <| registry := reg |> in
              match res with
              | Ok ticket => (Ok (ticket, None), b)
              | Err _ => (Err "Start Take is blocked by an external recording-impact operation"%string, b)
              end
          end in
        match ticket with
        | Err text => (Some text, with_base b w)
        | Ok (ticket, deadline) =>
            (None,
             with_base (b <| completed := None |>
                          <| starting := Some {| s_cancellation := None; s_impact := ticket; s_deadline := deadline;
                                                 s_receipt := None; s_receipt_unavailable := false;
                                                 s_continuity := default_continuity |} |>) w)
        end
  end.

Definition new_start (o : StartOptions) (p : Policy) (clip : option Clip) : StartTask :=
  {| s_options := o; s_policy := p; s_clip := clip; s_cancel := false; s_locals := no_start_locals; s_pc := Entering |}.

(** A refused start is a start that has its report. *)
Definition refused (o : StartOptions) (p : Policy) (clip : option Clip) (text : string) (w : W) : W :=
  w <| starts ::= fun l => l ++ [(new_start o p clip) <| s_pc := StartDone (NotRecording text) |>] |>.

Definition command_start (o : StartOptions) (p : Policy) (clip : option Clip) (admitted : option (bool * Z * Z)) (w : W) : W :=
  match reserve_start o admitted w with
  | (Some text, w) => refused o p clip text w
  | (None, w) =>
      let k := length (starts w) in
      let w := match clip with
               | Some _ => with_base (on_start (fun s => s <| s_cancellation := Some k |>) (base w)) w
               | None => w
               end in
      w <| starts ::= fun l => l ++ [new_start o p clip] |>
  end.

(** A clip names its late chapters, or that it was cancelled, before anything is reserved. *)
Definition command_clip (r : RecordClip.Request) (p : Policy) (is_cancelled : bool) (admitted : option (bool * Z * Z)) (w : W) : W :=
  let clip := Some (clip_of r) in
  match RecordClip.refusal r with
  | Some text => refused (clip_options r) p clip text w
  | None =>
      if is_cancelled then refused (clip_options r) p clip "Record Clip cancelled before recording started" w
      else command_start (clip_options r) p clip admitted w
  end.

Definition command_mark (name : string) (p : Policy) (w : W) : W :=
  match current (base w) with Some i => snd (mark_take i name p w) | None => w end.

(** ** Runs *)

Inductive StartInput : Type :=
| Rest (a : TakeStop.Input (S := S))
| CommandStart (o : StartOptions) (p : Policy) (admitted : option (bool * Z * Z))
| CommandClip (r : RecordClip.Request) (p : Policy) (is_cancelled : bool) (admitted : option (bool * Z * Z))
| CommandMark (name : string) (p : Policy)
| CancelClip (k : nat)
| PollStart (k : nat) (woken : bool)
| PreflightAnswer (k : nat) (report : option PreflightReport)
| StartGuard (k : nat)
| StartDispatched (k : nat) (outcome : DispatchOutcome)
| StartStatus (k : nat) (active : bool)
| SetupAnswer (k : nat) (setup : result string Setup)
| MarkGuard (m : nat)
| MarkDispatched (m : nat) (outcome : DispatchOutcome).

(** What of [TakeStop]'s steps is done by a start itself *)
Definition of_start (a : TakeStop.Input (S := S)) : bool :=
  match a with
  | Start _ | SetupDone _ _ | Report _ | Reserve _ _ | FreshIdentity | CheckImpact _ | Note _ _ | Mark _ _ => true
  | _ => false
  end.

(** The subscriptions of the starts get the event too. *)
Definition deliver (name : string) (data : Value) (w : W) : W :=
  w <| starts := fmap (fun t =>
    match l_watch (s_locals t) with
    | Some v => t <| s_locals := (s_locals t) <| l_watch := Some (pushed (name, instant (base w), data) v) |> |>
    | None => t
    end) (starts w) |>.

Definition put_start (k : nat) (t : StartTask) (n : SNext) : W :=
  let '(p, l, w) := n in w <| starts ::= alter (fun t' => t' <| s_locals := l |> <| s_pc := p |>) k |>.

Definition put_some (k : nat) (t : StartTask) (n : option SNext) (w : W) : W :=
  match n with Some n => put_start k t n | None => w end.

(** The dispatch of a request whose guard has run or not can only end so. *)
Definition plausible (sent : bool) (outcome : DispatchOutcome) : bool :=
  match outcome, sent with
  | BeforeDispatch _, false | OkAccepted, true | WasRejectedBy _, true | UnknownOutcome _, _ => true
  | _, _ => false
  end.

Definition resume_start (a : StartInput) (k : nat) (t : StartTask) (w : W) : W :=
  let l := s_locals t in
  match a, s_pc t with
  | PollStart _ _, Entering => put_start k t (enter_start t l w)
  | PollStart _ woken, WaitingImpact BeforeIntent =>
      put_start k t (intent_waited t (wait_woken (OfStart (l_impact l)) woken (l_deadline l) (base w)) l w)
  | PollStart _ woken, WaitingImpact AfterStart =>
      put_start k t (confirmed_after t (wait_woken (OfStart (l_impact l)) woken (l_deadline l) (base w)) l w)
  | PollStart _ woken, WaitingImpact (AfterSetup setup) =>
      put_start k t (setup_waited t (wait_woken (OfTake (l_take l)) woken (l_deadline l) (base w)) setup l w)
  | PollStart _ _, AwaitStarted => put_start k t (await_started t l w)
  | PollStart _ _, Marking m after => put_some k t (mark_joined t m after l w) w
  | PollStart _ _, StopsFor j text => put_some k t (stop_joined t j text l w) w
  | PollStart _ _, ClipWaiting until next => put_some k t (clip_wakes t until next l w) w
  | PreflightAnswer _ report, Preflighting => put_start k t (preflighted t report l w)
  | StartGuard _, StartSending false =>
      match guard_start t w with
      | (Ok _, b) => put_start k t (StartSending true, l, (with_base b w) <| sends ::= fun s => s ++ [k] |>)
      | (Err message, b) => put_start k t (start_dispatched t (BeforeDispatch message) l (with_base b w))
      end
  | StartDispatched _ outcome, StartSending sent =>
      if plausible sent outcome then put_start k t (start_dispatched t outcome l w) else w
  | StartStatus _ active, AskStatus seen => put_start k t (status_answered t seen active l w)
  | SetupAnswer _ setup, SettingUp => put_start k t (setup_answered t setup l w)
  | _, _ => w
  end.

Definition resume_mark (a : StartInput) (m : nat) (t : MarkTask) (w : W) : W :=
  match a, m_pc t with
  | MarkGuard _, MarkSending false =>
      match guard_chapter (m_take t) (m_name t) (m_policy t) (base w) with
      | (Ok _, b) => (with_base b w) <| marks ::= <[m := t <| m_pc := MarkSending true |>]> |>
      | (Err message, b) => mark_ends m t (Some message) (with_base b w)
      end
  | MarkDispatched _ outcome, MarkSending sent =>
      if plausible sent outcome then
        mark_ends m t (match outcome with
                       | OkAccepted => None
                       | BeforeDispatch message | WasRejectedBy message | UnknownOutcome message => Some message
                       end) w
      else w
  | _, _ => w
  end.

Definition start_task_of (a : StartInput) : option nat :=
  match a with
  | PollStart k _ | PreflightAnswer k _ | StartGuard k | StartDispatched k _ | StartStatus k _ | SetupAnswer k _ => Some k
  | _ => None
  end.

Definition rest_step (a : TakeStop.Input (S := S)) (w : W) : W :=
  let w1 := with_base (TakeStop.step generation identity stop_limit stats_interval picture_interval a (base w)) w in
  match a with
  | Observe true name data => deliver name data w1
  | Closing _ => w1 <| clip_shutdown := true |>
  | _ => w1
  end.

Definition start_step (a : StartInput) (w : W) : W :=
  match start_task_of a with
  | Some k => match starts w !! k with Some t => resume_start a k t w | None => w end
  | None =>
      match a with
      | Rest a => if of_start a then w else rest_step a w
      | CommandStart o p admitted => if closing (base w) then w else command_start o p None admitted w
      | CommandClip r p is_cancelled admitted => if closing (base w) then w else command_clip r p is_cancelled admitted w
      | CommandMark name p => if closing (base w) then w else command_mark name p w
      | CancelClip k => upd_start k (fun t => t <| s_cancel := true |>) w
      | MarkGuard m | MarkDispatched m _ => match marks w !! m with Some t => resume_mark a m t w | None => w end
      | _ => w
      end
  end.
End Starting.
