(* ===== verification/TakeStartSafety.v ===== *)
(** * What a start never does

    Theorems on [TakeStart].  The supervisor with its starts takes only steps of the supervisor of
    [TakeStop] ([moves]), so what is shown of a stop holds while takes are started; a start sends
    its request once and under the authority its guard checks; a start that is on record as
    observed was seen; and no start runs into a failed [expect].  The proofs are one invariant
    of the reachable worlds ([world_inv]); what the rest of the supervisor does keeps it because
    it leaves the reservation and the setup of a take alone ([tame]). *)
From coqutil Require Import Datatypes.RecordSettersUsingExistingGetters.
From S2P Require Import Prelude Json Text Number.
From S2P Require Import ReceiptFields.
From S2P Require RecordImpact Control OperationReceipt Monitor.
From S2P Require Import TakeStop TakeStopSafety TakeStart.

(** A start on record as observed was seen to start. *)
Definition start_true (t : Take) : Prop :=
  forall r, start_operation t = Some r -> OperationReceipt.phase r = OperationReceipt.Observed ->
  c_started (continuity t) = true.

(** What of a reservation only the start that holds it changes *)
Definition still (s : TakeStop.Starting) : TakeStop.Starting := s <| s_continuity := default_continuity |>.

Section Safety.
Context {Lib : F64Library} {S : Type} {Wr : Writer S} {Laws : WriterLaws S} {Adm : Admits S}.
Context (generation : Z) (identity : nat -> string) (stop_limit stats_interval picture_interval : Z).
Context (setup_limit start_confirmation : Z) (owner : nat).

Notation B := (TakeStop.World S).
Notation W := (StartWorld S).

(** ** What the rest of the supervisor leaves alone *)

Record tame_take (t t' : Take) : Prop := {
  tt_setup : setup_pending t' = setup_pending t;
  tt_true : start_true t -> start_true t'
}.

Lemma tame_take_refl t : tame_take t t.
Proof. by split. Qed.

Lemma tame_take_trans t1 t2 t3 : tame_take t1 t2 -> tame_take t2 t3 -> tame_take t1 t3.
Proof. intros [] []. split; [congruence|auto]. Qed.

Record tame (b b' : B) : Prop := {
  tm_starting : still <$> starting b' = still <$> starting b;
  tm_current : current b = None -> current b' = None;
  tm_length : length (takes b') = length (takes b);
  tm_takes i t' : takes b' !! i = Some t' -> exists t, takes b !! i = Some t /\ tame_take t t';
  tm_tasks : (length (tasks b) <= length (tasks b'))%nat
}.

Lemma tame_refl b : tame b b.
Proof. split; eauto using tame_take_refl. Qed.

Lemma tame_trans b1 b2 b3 : tame b1 b2 -> tame b2 b3 -> tame b1 b3.
Proof.
  intros [A1 A2 A3 A4 A5] [C1 C2 C3 C4 C5]. split; [congruence|auto|congruence| |lia].
  intros i t H. destruct (C4 i t H) as (t2 & H2 & T2). destruct (A4 i t2 H2) as (t1 & H1 & T1).
  eauto using tame_take_trans.
Qed.

Lemma tame_upd b b1 i f : tame b b1 -> (forall t, tame_take t (f t)) -> tame b (upd i f b1).
Proof.
  intros H Hf. apply (tame_trans _ b1); [exact H|]. split; try done.
  - unfold upd. simpl. apply length_alter.
  - intros j t' Hj. unfold upd in Hj. simpl in Hj. destruct (decide (j = i)) as [->|Hne].
    + rewrite list_lookup_alter_eq in Hj. destruct (takes b1 !! i) as [t|]; [|done]. injection Hj as <-. eauto.
    + rewrite list_lookup_alter_ne in Hj by done. eauto using tame_take_refl.
Qed.

Lemma tame_same b b1 b2 :
  tame b b1 -> still <$> starting b2 = still <$> starting b1 -> current b2 = current b1 \/ current b2 = None -> takes b2 = takes b1 ->
  (length (tasks b1) <= length (tasks b2))%nat -> tame b b2.
Proof.
  intros H E1 E2 E3 E4. apply (tame_trans _ b1); [exact H|]. split; [done| |by rewrite E3| |done].
  - intros E. destruct E2 as [->|]; congruence.
  - rewrite E3. eauto using tame_take_refl.
Qed.

(** A call that leaves alone what [tame] says *)
Class TameCall {A} (f : B -> A * B) : Prop := tame_call b : tame b (snd (f b)).
Class TameStep (f : B -> B) : Prop := tame_step b : tame b (f b).

Ltac tame_fields := let t := fresh in intros t; split; [reflexivity|let H := fresh in intros H; exact H].

(** The world a term is made from, by its takes *)
Ltac tame_end :=
  match goal with
  | |- tame ?b ?b => apply tame_refl
  | H : tame ?b ?b' |- tame ?b ?b' => exact H
  | |- tame ?b (snd (_, ?b')) => change (tame b b'); tame_end
  | |- tame ?b (snd (?c ?b1)) => apply (tame_trans b b1); [tame_end|apply (tame_call (f := c))]
  | |- tame ?b (upd ?i ?f ?b1) => apply tame_upd; [tame_end|try tame_fields]
  | |- tame ?b ?b2 =>
      let tk := eval cbn -[upd clear_current release_lease] in (takes b2) in
      match tk with
      | takes b2 => match b2 with ?f ?b1 => apply (tame_trans b b1); [tame_end|apply (tame_step (f := f))] end
      | takes (match _ with _ => _ end) => fail 1
      | takes ?b1 => apply (tame_same b b1 b2); [tame_end|reflexivity|first [left; reflexivity|right; reflexivity]|reflexivity|try reflexivity]
      end
  end.

Ltac tame_known c b :=
  let H := fresh "T" in
  match goal with
  | K : tame ?b0 b |- _ => pose proof (tame_trans _ _ _ K (tame_call (f := c) b)) as H
  | |- _ => pose proof (tame_call (f := c) b) as H
  end.

(** One branch after the other, the calls known to be tame *)
Ltac tame_branches :=
  repeat (cbv zeta; match goal with
  | |- tame _ (snd (_, ?b)) => match goal with |- tame ?a _ => change (tame a b) end
  | |- context [match ?c ?b with pair _ _ => _ end] =>
      tame_known c b;
      let H := fresh "T" in
      match goal with T : tame _ (snd (c b)) |- _ => revert T end;
      destruct (c b) as [? ?]; intros H; cbn [snd] in H
  | |- tame _ (snd (match ?e with _ => _ end)) => destruct e
  | |- tame _ (match ?e with _ => _ end) => destruct e
  end).

Ltac tamed := tame_branches; tame_end.

#[export] Instance update_tame r u : TameCall (update r u).
Proof. intros b. unfold update. destruct (w_update _ _ _ _). simpl. tame_end. Qed.

#[export] Instance take_impact_tame i : TameCall (take_impact (S := S) i).
Proof. intros b. unfold take_impact. destruct (RecordImpact.check _ _ _) as [[| |r] reg]; simpl; tame_end.
  intros t. split; [done|]. intros H r' E P. specialize (H r' E P). simpl. unfold lose. by destruct (c_lost _).
Qed.

#[export] Instance changes_tame : TameCall (changes (S := S)).
Proof. intros b. unfold changes. destruct (RecordImpact.touch _ _). simpl. tame_end. Qed.

#[export] Instance prepare_tame kind take : TameCall (prepare generation identity kind take).
Proof. intros b. unfold prepare. destruct (w_prepare _ _ _ _ _ _). simpl. tame_end. Qed.

#[export] Instance impact_turn_tame i : TameCall (impact_turn (S := S) i).
Proof. intros b. unfold impact_turn. tamed. Qed.

#[export] Instance wait_take_impact_tame i : TameCall (wait_take_impact (S := S) i).
Proof.
  intros b. unfold wait_take_impact. tame_known (take_impact (S := S) i) b. destruct (take_impact i b) as [st b1]. simpl in T. cbv zeta.
  set (b2 := match st with RecordImpact.Suspended _ => _ | _ => _ end).
  assert (tame b b2) by (subst b2; tamed). clearbody b2. tamed.
Qed.

#[export] Instance impact_woken_tame i woken until : TameCall (impact_woken (S := S) i woken until).
Proof. intros b. unfold impact_woken. tamed. Qed.

#[export] Instance clear_current_tame i : TameStep (clear_current (S := S) i).
Proof. intros b. unfold clear_current. tamed. Qed.

#[export] Instance release_lease_tame i : TameStep (release_lease (S := S) i).
Proof. intros b. unfold release_lease. tamed. Qed.

#[export] Instance uncertain_tame i why : TameCall (uncertain i why).
Proof.
  intros b. unfold uncertain. set (b1 := match read i None stop_operation b with Some _ => _ | None => _ end).
  assert (tame b b1) by (subst b1; tamed). clearbody b1. tamed.
Qed.

#[export] Instance retire_tame i : TameCall (retire_unsent_stop i).
Proof. intros b. unfold retire_unsent_stop. tamed. Qed.

#[export] Instance stop_receipt_tame i : TameCall (stop_receipt generation identity i).
Proof. intros b. unfold stop_receipt. tamed. Qed.

(** ** The steps of a stop *)

#[export] Instance stop_end_tame i r l : TameCall (stop_end (S := S) i r l).
Proof. intros b. unfold stop_end. tamed. Qed.

#[export] Instance stop_uncertainly_tame i why l : TameCall (stop_uncertainly i why l).
Proof. intros b. unfold stop_uncertainly. tamed. Qed.

#[export] Instance impact_stop_refusal_tame i l : TameCall (impact_stop_refusal (S := S) i l).
Proof. intros b. unfold impact_stop_refusal. tamed. Qed.

Lemma waited_tame i k r l go b :
  tame b (snd r) -> (forall l, TameCall (go l)) -> tame b (snd (waited (S := S) i k r l go)).
Proof. intros H Hg. unfold waited. destruct r as [[| |] b1]; simpl in H |- *; tame_end. Qed.

(** An answer is waited for with the recording authority of the take. *)
Ltac tame_wait := apply waited_tame; [apply (tame_call (f := wait_take_impact _))|intros ?; exact _].

#[export] Instance take_result_tame i l : TameCall (take_result (S := S) i l).
Proof. intros b. unfold take_result. tamed. Qed.

#[export] Instance logged_tame i l : TameCall (logged (S := S) i l).
Proof. intros b. tame_wait. Qed.

#[export] Instance write_log_tame i l : TameCall (write_log (S := S) i l).
Proof. intros b. unfold write_log. tamed. Qed.

#[export] Instance inspected_tame i l : TameCall (inspected (S := S) i l).
Proof. intros b. tame_wait. Qed.

#[export] Instance settle_file_tame i l : TameCall (settle_file generation identity i l).
Proof.
  intros b. unfold settle_file. cbv zeta. pose proof (tame_step (f := release_lease i) b) as H.
  set (b1 := release_lease i b) in *. clearbody b1. destruct (nonempty_path _) as [path|]; [|tame_end].
  tame_known (stop_receipt generation identity i) b1. destruct (stop_receipt generation identity i b1) as [r b2]. simpl in T.
  set (c := match r with Ok _ => _ | Err _ => _ end). assert (tame b (snd c)) as Hc by (subst c; tamed).
  clearbody c. destruct c as [r' b3]. simpl in Hc.
  set (d := match r' with Ok _ => _ | Err _ => _ end). assert (tame b (snd d)) as Hd by (subst d; tamed).
  clearbody d. destruct d as [l' b4]. simpl in Hd. tamed.
Qed.

#[export] Instance monitor_done_tame i k res l : TameCall (monitor_done generation identity i k res l).
Proof.
  intros b. unfold monitor_done. destruct res; [|tamed]. destruct k; [tamed|tamed|tamed|tame_wait].
Qed.

#[export] Instance monitor_stop_tame i k l : TameCall (monitor_stop generation identity i k l).
Proof. intros b. unfold monitor_stop. tamed. Qed.

#[export] Instance seal_monitor_tame i k joined l : TameCall (seal_monitor generation identity i k joined l).
Proof. intros b. unfold seal_monitor. tamed. Qed.

#[export] Instance before_monitor_tame i l : TameCall (before_monitor generation identity i l).
Proof. intros b. unfold before_monitor. tamed. Qed.

#[export] Instance to_monitor_tame i l : TameCall (to_monitor generation identity i l).
Proof. intros b. tame_wait. Qed.

#[export] Instance after_stop_tame i l : TameCall (after_stop generation identity i l).
Proof. intros b. unfold after_stop. tamed. Qed.

#[export] Instance confirmed_or_not_tame i l : TameCall (confirmed_or_not generation identity i l).
Proof. intros b. tame_wait. Qed.

#[export] Instance poll_inactive_tame i l : TameCall (poll_inactive generation identity i l).
Proof. intros b. unfold poll_inactive. tamed. Qed.

#[export] Instance polled_tame i after l : TameCall (polled generation identity i after l).
Proof. intros b. unfold polled. tamed. Qed.

#[export] Instance await_stopped_tame i l : TameCall (await_stopped generation identity i l).
Proof.
  intros b. unfold await_stopped. destruct (watch l) as [v|]; [|tamed]. destruct (w_lagged v); [tamed|].
  destruct (next_stopped _ _ _) as [[[data|]|] rest]; tamed.
Qed.

#[export] Instance guard_stop_tame i p : TameCall (guard_stop (S := S) i p).
Proof.
  intros b. unfold guard_stop. destruct (closed b); [tamed|]. destruct (negb _); [tamed|]. destruct (_ || _); [tamed|].
  destruct (Control.evaluate _ _ _) as [d c]. cbv zeta. set (b1 := b <| control := c |>).
  assert (tame b b1) by (subst b1; tame_end). clearbody b1. destruct d; tamed.
Qed.

#[export] Instance not_sent_tame i message l : TameCall (not_sent i message l).
Proof.
  intros b. unfold not_sent. tame_known (retire_unsent_stop i) b. destruct (retire_unsent_stop i b) as [[r|e] b1]; simpl in T; [|tamed].
  cbv zeta. set (b2 := upd i _ b1). assert (tame b b2) by (subst b2; tamed). clearbody b2. tamed.
Qed.

#[export] Instance dispatched_tame i outcome l : TameCall (dispatched i outcome l).
Proof.
  intros b. unfold dispatched. destruct outcome; [|tamed| |tamed].
  - destruct (read i None stop_operation b) as [r|]; [|tamed]. unfold accepted. tamed.
  - cbv zeta. set (b1 := _ <| log ::= _ |>). assert (tame b b1) by (subst b1; tame_end). clearbody b1.
    set (b2 := match read i None stop_operation b1 with Some _ => _ | None => _ end).
    assert (tame b b2) by (subst b2; tamed). clearbody b2. tamed.
Qed.

#[export] Instance send_stop_tame i l : TameCall (send_stop generation identity stop_limit i l).
Proof.
  intros b. unfold send_stop. tame_known (stop_receipt generation identity i) b.
  destruct (stop_receipt generation identity i b) as [r b1]. cbn [snd] in T.
  set (c := match r with Ok _ => _ | Err _ => _ end).
  assert (tame b (snd c)) as Hc by (subst c; unfold dispatching; tamed). clearbody c. destruct c as [r' b2]. simpl in Hc. tamed.
Qed.

#[export] Instance classified_tame i active l : TameCall (classified generation identity stop_limit i active l).
Proof. intros b. unfold classified. tamed. Qed.

#[export] Instance head_tame i l : TameCall (head (S := S) i l).
Proof. intros b. apply waited_tame; [apply (tame_call (f := wait_take_impact _))|]. intros l' b'. unfold ask_status. tamed. Qed.

#[export] Instance head_status_tame i answer l : TameCall (head_status generation identity stop_limit i answer l).
Proof. intros b. unfold head_status. tamed. Qed.

#[export] Instance enter_tame i waiting l : TameCall (enter stop_limit (S := S) i waiting l).
Proof. intros b. unfold enter. tamed. Qed.

#[export] Instance after_impact_tame i k l : TameCall (after_impact generation identity i k l).
Proof. intros b. destruct k; simpl; tame_end. Qed.

Notation rest := (TakeStop.step generation identity stop_limit stats_interval picture_interval).

(** A new stop *)
Lemma spawned_tame b b1 t : tame b b1 -> tame b (b1 <| tasks ::= fun l => l ++ [t] |>).
Proof.
  intros H. apply (tame_same _ b1); try done; [by left|].
  change (length (tasks b1) <= length (tasks b1 ++ [t]))%nat. rewrite List.length_app. lia.
Qed.

Lemma put_tame b k t (n : Next) : tame b (snd n) -> tame b (put k t n).
Proof.
  intros H. destruct n as [[p l] b1]. apply (tame_same _ b1); try done; [by left|]. simpl. by rewrite length_insert.
Qed.

Lemma resume_tame a k t b : tame b (resume generation identity stop_limit a k t b).
Proof.
  unfold resume. destruct a; destruct (pc t) eqn:Hp; try apply tame_refl; try (apply put_tame; apply tame_call).
  - apply put_tame, waited_tame; [apply (impact_woken_tame _)|intros ?; exact _].
  - destruct (until <=? instant b); [apply put_tame, tame_call|apply tame_refl].
  - destruct (read _ _ _ b); [apply put_tame|]; apply tame_refl.
  - destruct sent; [apply tame_refl|]. tame_known (guard_stop (S := S) (on t) (by_policy t)) b.
    destruct (guard_stop _ _ b) as [[u|message] b1]; cbn [snd] in T.
    + apply put_tame. apply (tame_same _ b1); try done. by left.
    + apply put_tame. tame_end.
  - destruct outcome, sent; try apply tame_refl; apply put_tame, tame_call.
  - apply put_tame. destruct stats; tame_end.
Qed.

(** ** Everything else that happens *)

Lemma note_state_started data c : c_started c = true -> c_started (note_state data c) = true.
Proof. intros H. unfold note_state. destruct (is_some_and _ _); [done|]. by destruct (is_some_and _ _). Qed.

Lemma note_started ours name data c : c_started c = true -> c_started (note ours name data c) = true.
Proof.
  intros H. unfold note. destruct (_ || _); [done|]. destruct (str_eqb name "RecordStateChanged"); [|done].
  unfold note_path. apply (note_state_started data) in H. destruct (c_lost _); [done|]. by destruct (nonempty_path _).
Qed.

#[export] Instance observe_take_tame i ours name data : TameStep (observe_take i ours name data).
Proof.
  intros b. unfold observe_take. destruct (negb ours || _); cbv zeta.
  - set (b1 := upd i _ b). assert (tame b b1) by (subst b1; tamed). clearbody b1.
    destruct (read i None start_operation b1) as [r|]; [|tame_end]. unfold update.
    destruct (w_update r _ _ _) as [[r'|e] s] eqn:E; [|tame_end]. apply w_updated in E.
    apply tame_upd; [tame_end|]. intros t. split; [done|]. simpl. intros _ r2 [= <-] Hp. by rewrite E in Hp.
  - set (b1 := upd i _ b). assert (tame b b1) by (subst b1; tamed). clearbody b1. tamed.
Qed.

#[export] Instance observe_tame ours name data : TameStep (observe ours name data).
Proof.
  intros b. unfold observe. cbv zeta.
  set (b1 := match current b with Some _ => _ | None => _ end). assert (tame b b1).
  { subst b1. destruct (current b) as [i|].
    - apply (tame_trans _ (upd i (fun t => t <| continuity ::= note ours name data |>) b)); [|apply tame_step].
      apply tame_upd; [tame_end|]. intros t. split; [done|]. intros H r E Hp. simpl. apply note_started. by apply (H r).
    - apply (tame_same _ b); try done; [tame_end| |by left]. simpl. by destruct (starting b). }
  clearbody b1. destruct ours; [|tame_end]. apply (tame_same _ b1); try done; [by left|].
  apply Nat.eq_le_incl. symmetry. apply length_fmap.
Qed.

#[export] Instance refresh_impacts_tame job : TameStep (refresh_impacts (S := S) job).
Proof.
  intros b. unfold refresh_impacts. cbv zeta. assert (tame b (starting_impact b)) as H.
  { unfold starting_impact. destruct (starting b) as [s|] eqn:Es; [|tame_end].
    destruct (RecordImpact.check _ _ _) as [[| |r] reg]; cbv zeta; [tame_end|tame_end|].
    apply (tame_same _ b); try done; [tame_end| |by left]. simpl. by rewrite Es. }
  set (b1 := starting_impact b) in *. clearbody b1. destruct (current b1) as [i|]; [|tame_end].
  tame_known (take_impact (S := S) i) b1. destruct (take_impact i b1) as [st b2]. cbn [snd] in T.
  destruct st; (apply tame_upd; [tame_end|]); intros t.
  - destruct (_ && _); [|apply tame_take_refl]. destruct (negb _); by split.
  - destruct (is_none _); by split.
  - by split.
Qed.

#[export] Instance schedule_kind_tame i kind : TameStep (schedule_kind stats_interval picture_interval (S := S) i kind).
Proof.
  intros b. unfold schedule_kind. destruct (read i None _ b); [|tame_end]. destruct (_ <=? _); [|tame_end].
  apply tame_upd; [apply tame_upd; [tame_end|]|tame_fields]. intros t. destruct kind; by split.
Qed.

#[export] Instance schedule_tame : TameStep (schedule stats_interval picture_interval (S := S)).
Proof.
  intros b. unfold schedule. destruct (current b) as [i|]; [|tame_end].
  eapply tame_trans; apply tame_step.
Qed.

Lemma rest_tame a b : of_start a = false -> tame b (rest a b).
Proof.
  intros Ha. unfold TakeStop.step. destruct (task_of a) as [k|] eqn:Hk.
  { destruct (tasks b !! k) as [t|]; [apply resume_tame|apply tame_refl]. }
  destruct a; try done; simpl.
  - destruct (is_none _); [tame_end|]. apply spawned_tame, tame_refl.
  - apply observe_tame.
  - apply refresh_impacts_tame.
  - destruct (current b) as [i|] eqn:Hc; [|tame_end]. destruct (read i false _ b); [|tame_end].
    apply spawned_tame. tame_end.
  - apply schedule_tame.
  - tame_end.
  - tame_end.
  - tame_end.
  - destruct (0 <=? elapsed); tame_end.
  - tame_end.
Qed.

(** ** Steps of the supervisor *)

Notation reached := (TakeStopSafety.reached generation identity stop_limit stats_interval picture_interval (S := S)).

(** One step that [TakeStop] has *)
Definition moved (b b' : B) : Prop := exists a, allowed a /\ b' = rest a b.

Definition moves : B -> B -> Prop := rtc moved.

Lemma moves_step a b : allowed a -> moves b (rest a b).
Proof. intros Ha. apply rtc_once. by exists a. Qed.

Lemma moves_reached b b' : reached b -> moves b b' -> reached b'.
Proof.
  intros Hr H. revert Hr. induction H as [|b b1 b2 (a & Ha & E) _ IH]; [done|]. intros Hr. apply IH. rewrite E.
  by constructor.
Qed.

(** What only [Elsewhere], [Reserve] and [FreshIdentity] change *)
Record aside (b b' : B) : Prop := {
  as_takes : takes b' = takes b;
  as_current : current b' = current b;
  as_completed : completed b' = completed b \/ completed b' = None;
  as_closing : closing b' = closing b;
  as_closed : closed b' = closed b;
  as_instant : instant b' = instant b;
  as_epoch : epoch_ms b' = epoch_ms b;
  as_utc : utc b' = utc b;
  as_identity : (next_identity b <= next_identity b')%nat;
  as_tasks : tasks b' = tasks b;
  as_log : log b' = log b
}.

Lemma moves_identity n b : moves b (b <| next_identity := (n + next_identity b)%nat |>).
Proof.
  induction n as [|n IH]; simpl.
  - destruct b. apply rtc_refl.
  - eapply rtc_r; [exact IH|]. exists FreshIdentity. split; [done|]. reflexivity.
Qed.

Lemma moves_aside b b' : aside b b' -> moves b b'.
Proof.
  intros [E1 E2 E3 E4 E5 E6 E7 E8 E9 E10 E11].
  transitivity (b <| next_identity := (next_identity b' - next_identity b + next_identity b)%nat |>); [apply moves_identity|].
  set (b1 := b <| next_identity := _ |>). apply (rtc_l _ _ (rest (Elsewhere (registry b') (borrowed b') (store b') (control b')) b1)).
  { eexists. split; [|reflexivity]. done. }
  apply rtc_once. exists (Reserve (starting b') (is_none (completed b'))). split; [done|].
  subst b1. destruct b, b'. simpl in *. subst. unfold TakeStop.step, RecordSettersUsingExistingGetters.const. simpl.
  replace (next_identity0 - next_identity + next_identity)%nat with next_identity0 by lia.
  f_equal. destruct E3 as [->| ->]; [|done]. by destruct completed.
Qed.

(** A change between two awaits of a start that leaves the reservation and the takes' setup alone *)
Definition calm (b b' : B) : Prop := moves b b' /\ tame b b'.

Lemma calm_refl b : calm b b.
Proof. split; [reflexivity|apply tame_refl]. Qed.

Lemma calm_after b1 b2 b3 : calm b1 b2 -> calm b2 b3 -> calm b1 b3.
Proof. intros [M1 T1] [M2 T2]. split; [by transitivity b2|by eapply tame_trans]. Qed.

Lemma calm_step a b b' : calm b b' -> of_start a = false \/ tame b' (rest a b') -> allowed a -> calm b (rest a b').
Proof.
  intros H Ht Hok. apply (calm_after _ b'); [exact H|]. split; [by apply moves_step|].
  destruct Ht; [by apply rest_tame|done].
Qed.

Lemma calm_aside b b1 b2 : calm b b1 -> aside b1 b2 -> still <$> starting b2 = still <$> starting b1 -> calm b b2.
Proof.
  intros H A E. apply (calm_after _ b1); [exact H|]. split; [by apply moves_aside|]. destruct A.
  apply (tame_same _ b1); [apply tame_refl|done|by left|done|]. rewrite as_tasks0. done.
Qed.

Ltac aside_end := split; try reflexivity; try (left; reflexivity).

Class CalmCall {A} (f : B -> A * B) : Prop := calm_call b : calm b (snd (f b)).

#[export] Instance update_calm r u : CalmCall (update r u).
Proof.
  intros b. unfold update. destruct (w_update _ _ _ _). eapply calm_aside; [apply calm_refl|by aside_end|done].
Qed.

#[export] Instance changes_calm : CalmCall (changes (S := S)).
Proof.
  intros b. unfold changes. destruct (RecordImpact.touch _ _). eapply calm_aside; [apply calm_refl|by aside_end|done].
Qed.

#[export] Instance probe_calm t : CalmCall (probe (S := S) t).
Proof.
  intros b. destruct t as [ticket|i]; simpl.
  - destruct (RecordImpact.check _ _ _) as [st reg].
    assert (calm b (b <| registry := reg |>)) as H by (eapply calm_aside; [apply calm_refl|by aside_end|done]).
    destruct st; try exact H. eapply calm_aside; [exact H|by aside_end|]. unfold on_start. simpl. by destruct (starting b).
  - apply (calm_step (CheckImpact i) b b); [apply calm_refl| |done]. right. apply take_impact_tame.
Qed.

Ltac calm_known c b :=
  let H := fresh "C" in
  match goal with
  | K : calm ?b0 b |- _ => pose proof (calm_after _ _ _ K (calm_call (f := c) b)) as H
  | |- _ => pose proof (calm_call (f := c) b) as H
  end;
  revert H; destruct (c b) as [? ?]; intros H; cbn [snd] in H.

#[export] Instance probe_turn_calm t : CalmCall (probe_turn (S := S) t).
Proof. intros b. unfold probe_turn. by calm_known (probe (S := S) t) b. Qed.

Lemma calm_snd {A} (c : B -> A * B) `{!CalmCall c} b b1 : calm b b1 -> calm b (snd (c b1)).
Proof. intros H. eapply calm_after; [exact H|apply calm_call]. Qed.

Ltac calm_end :=
  match goal with
  | |- calm ?b (snd (_, ?b1)) => change (calm b b1); calm_end
  | H : calm ?b ?b1 |- calm ?b ?b1 => exact H
  | |- calm ?b (snd _) => apply calm_snd; [exact _|calm_end]
  | |- calm ?b ?b => apply calm_refl
  end.

#[export] Instance wait_impact_calm t : CalmCall (wait_impact (S := S) t).
Proof. intros b. unfold wait_impact. calm_known (changes (S := S)) b. destruct b0; calm_end. Qed.

#[export] Instance wait_woken_calm t woken until : CalmCall (wait_woken (S := S) t woken until).
Proof.
  intros b. unfold wait_woken. calm_known (changes (S := S)) b. destruct (negb b0); [calm_end|].
  destruct woken; [calm_end|]. destruct (until <=? _); calm_end.
Qed.

#[export] Instance permitted_calm tool arguments p : CalmCall (permitted (S := S) tool arguments p).
Proof.
  intros b. unfold permitted. destruct (Control.evaluate _ _ _). eapply calm_aside; [apply calm_refl|by aside_end|done].
Qed.

#[export] Instance impact_allows_calm t : CalmCall (impact_allows (S := S) t).
Proof. intros b. destruct t as [t|]; [|apply calm_refl]. unfold impact_allows. by calm_known (probe (S := S) t) b. Qed.

#[export] Instance guard_chapter_calm i name p : CalmCall (guard_chapter (S := S) i name p).
Proof.
  intros b. unfold guard_chapter. destruct (closed b); [apply calm_refl|]. destruct (negb _); [apply calm_refl|].
  calm_known (permitted (S := S) "obs-take-mark" (object_of [("name", str name)]) p) b. destruct r; calm_end.
Qed.

Lemma guard_start_calm t (w : W) : calm (base w) (snd (guard_start t w)).
Proof.
  unfold guard_start. destruct (_ || _); [apply calm_refl|]. destruct (cancelled_before_dispatch w); [apply calm_refl|].
  calm_known (permitted (S := S) "obs-take-start" (object_of []) (s_policy t)) (base w). destruct r; calm_end.
Qed.

(** ** What is kept, and where *)

Definition all_true (b : B) : Prop := forall i t, takes b !! i = Some t -> start_true t.

(** The receipt of a start under way does not say observed. *)
Definition receipt_ok (b : B) : Prop :=
  forall s r, starting b = Some s -> s_receipt s = Some r -> OperationReceipt.phase r <> OperationReceipt.Observed.

Lemma tame_all_true b b' : tame b b' -> all_true b -> all_true b'.
Proof. intros T H i t' Ht. destruct (tm_takes _ _ T i t' Ht) as (t & H0 & [_ X]). by eapply X, H. Qed.

Lemma tame_starting b b' s' :
  tame b b' -> starting b' = Some s' -> exists s, starting b = Some s /\ still s = still s'.
Proof.
  intros T E. pose proof (tm_starting _ _ T) as H. rewrite E in H. destruct (starting b) as [s|]; [|done].
  simpl in H. exists s. split; [done|congruence].
Qed.

Lemma tame_held b b' : tame b b' -> starting b' = None <-> starting b = None.
Proof. intros T. pose proof (tm_starting _ _ T) as H. by destruct (starting b), (starting b'). Qed.

Lemma still_fields s s' : still s = still s' ->
  s_cancellation s = s_cancellation s' /\ s_impact s = s_impact s' /\ s_receipt s = s_receipt s'.
Proof. destruct s, s'. unfold still. simpl. unfold RecordSettersUsingExistingGetters.const. by intros [=]. Qed.

Lemma tame_receipt b b' : tame b b' -> receipt_ok b -> receipt_ok b'.
Proof.
  intros T H s' r Es Er. destruct (tame_starting _ _ _ T Es) as (s & E & Eq). apply still_fields in Eq as (_ & _ & Eq).
  apply (H s r E). congruence.
Qed.

Lemma tame_lookup b b' i t :
  tame b b' -> takes b !! i = Some t -> exists t', takes b' !! i = Some t' /\ setup_pending t' = setup_pending t.
Proof.
  intros T H. pose proof (lookup_lt_Some _ _ _ H) as Hi. rewrite <- (tm_length _ _ T) in Hi.
  destruct (lookup_lt_is_Some_2 _ _ Hi) as [t' H']. exists t'. split; [done|].
  destruct (tm_takes _ _ T i t' H') as (t0 & H0 & [E _]). congruence.
Qed.

(** Where a start holds the reservation *)
Definition active (p : StartPc) : bool :=
  match p with
  | StartDone _ | StartPanicked | ClipWaiting _ _ | Marking _ (ClipChapter _) | StopsFor _ None => false
  | _ => true
  end.

(** Where the request of a start has not been sent *)
Definition unsent (p : StartPc) : bool :=
  match p with
  | Entering | Preflighting | WaitingImpact BeforeIntent | StartSending false => true
  | _ => false
  end.

(** The durable intent of a start *)
Definition intent (b : B) (l : StartLocals) : Prop :=
  exists s r, starting b = Some s /\ s_receipt s = Some r
    /\ OperationReceipt.phase r = OperationReceipt.Dispatching /\ OperationReceipt.kind r = OperationReceipt.RecordStart
    /\ OperationReceipt.take_id r = Some (l_id l).

Definition setting_up (b : B) (l : StartLocals) : Prop :=
  exists tk, takes b !! l_take l = Some tk /\ setup_pending tk = true.

(** What holds where a start waits *)
Definition stage (b : B) (marked : nat) (t : StartTask) (p : StartPc) (l : StartLocals) : Prop :=
  match p with
  | StartSending _ => current b = None /\ intent b l
  | Entering | Preflighting | WaitingImpact BeforeIntent | WaitingImpact AfterStart | AwaitStarted | AskStatus _ =>
      current b = None
  | SettingUp | WaitingImpact (AfterSetup _) => setting_up b l
  | Marking m k => (m < marked)%nat /\ (l_take l < length (takes b))%nat
                   /\ match k with ClipChapter _ => s_clip t <> None | FirstChapter => True end
  | ClipWaiting _ _ => (l_take l < length (takes b))%nat /\ s_clip t <> None
  | StopsFor j _ => (j < length (tasks b))%nat
  | StartDone _ => True
  | StartPanicked => False
  end.

Definition marks_ok (w : W) : Prop := forall m t, marks w !! m = Some t -> (m_take t < length (takes (base w)))%nat.

Lemma tame_stage b b' n n' t p l : tame b b' -> (n <= n')%nat -> stage b n t p l -> stage b' n' t p l.
Proof.
  intros T Hn. pose proof (tm_current _ _ T) as Hc. pose proof (tm_length _ _ T) as Hl. pose proof (tm_tasks _ _ T) as Ht.
  assert (setting_up b l -> setting_up b' l) as Hs.
  { intros (tk & H & E). destruct (tame_lookup b b' _ _ T H) as (tk' & H' & E'). exists tk'. split; [done|congruence]. }
  destruct p as [| |[]| | | | |m []| | | |]; simpl; auto; rewrite ?Hl; try lia.
  - intros [Hcu (s & r & Es & Er & X)]. split; [auto|]. pose proof (tm_starting _ _ T) as E. rewrite Es in E.
    destruct (starting b') as [s'|] eqn:Es'; [|done]. apply Some_inj in E. exists s', r. split; [done|].
    apply (still_fields s' s) in E as (_ & _ & E). split; [congruence|done].
  - intros (? & ? & ?). split_and!; [lia|lia|done].
  - done.
Qed.

(** An inactive start only needs that takes, stops and marks stay. *)
Lemma inactive_stage b b' n n' t p l :
  active p = false -> (length (takes b) <= length (takes b'))%nat -> (length (tasks b) <= length (tasks b'))%nat ->
  (n <= n')%nat -> stage b n t p l -> stage b' n' t p l.
Proof.
  intros Ha H1 H2 H3. destruct p as [| |[]| | | | |m []| |k []| |]; try done; simpl; intros; try lia.
  - split; [lia|]. split; [lia|tauto].
  - split; [lia|tauto].
Qed.

(** What every step of a start does to the world *)
Record goes (w w' : W) : Prop := {
  gs_moves : moves (base w) (base w');
  gs_takes : (length (takes (base w)) <= length (takes (base w')))%nat;
  gs_tasks : (length (tasks (base w)) <= length (tasks (base w')))%nat;
  gs_true : receipt_ok (base w) -> all_true (base w) -> all_true (base w');
  gs_receipt : receipt_ok (base w) -> receipt_ok (base w');
  gs_starts : starts w' = starts w;
  gs_sends : sends w' = sends w;
  gs_marks : (length (marks w) <= length (marks w'))%nat;
  gs_marked : marks_ok w -> marks_ok w'
}.

Lemma goes_refl w : goes w w.
Proof. split; auto. reflexivity. Qed.

Lemma goes_trans w1 w2 w3 : goes w1 w2 -> goes w2 w3 -> goes w1 w3.
Proof. intros [] []. split; auto; try congruence; try lia. by transitivity (base w2). Qed.

Lemma goes_base w w1 b :
  goes w w1 -> moves (base w1) b -> (length (takes (base w1)) <= length (takes b))%nat ->
  (length (tasks (base w1)) <= length (tasks b))%nat -> (receipt_ok (base w1) -> all_true (base w1) -> all_true b) ->
  (receipt_ok (base w1) -> receipt_ok b) -> goes w (with_base b w1).
Proof.
  intros H M H1 H2 H3 H4. apply (goes_trans _ w1); [done|]. split; try done. intros Hm m t E.
  specialize (Hm m t E). simpl. unfold with_base. simpl. eapply Nat.lt_le_trans; [exact Hm|exact H1].
Qed.

Lemma goes_calm w w1 b : goes w w1 -> calm (base w1) b -> goes w (with_base b w1).
Proof.
  intros H [M T]. apply goes_base; try done; [by rewrite (tm_length _ _ T)|apply T|intros _; by apply tame_all_true|by apply tame_receipt].
Qed.

(** A change of the reservation alone *)
Lemma goes_reserved w w1 b :
  goes w w1 -> aside (base w1) b -> (receipt_ok (base w1) -> receipt_ok b) -> goes w (with_base b w1).
Proof.
  intros H A Hr. destruct A eqn:E. apply goes_base; try done; [by apply moves_aside|by rewrite as_takes0|by rewrite as_tasks0|].
  intros _ Ht i t. rewrite as_takes0. apply Ht.
Qed.

(** Where a step of a start may end that holds the reservation: before its request only if [early] *)
Definition ends (early : bool) (t : StartTask) (w : W) (n : SNext) : Prop :=
  let '(p, l, w') := n in
  goes w w' /\ stage (base w') (length (marks w')) t p l
  /\ (if active p then starting (base w') <> None else starting (base w') = None)
  /\ (unsent p = true -> early = true).

Lemma ends_from early t w w1 n : goes w w1 -> ends early t w1 n -> ends early t w n.
Proof. intros H. destruct n as [[p l] w']. intros (? & ?). split; [by eapply goes_trans|done]. Qed.

Lemma ends_early early t w n : ends false t w n -> ends early t w n.
Proof. destruct n as [[p l] w']. intros (? & ? & ? & H). split_and!; try done. intros E. by apply H in E. Qed.

(** ** The ends of the core *)

Ltac same_aside := split; try reflexivity; try (left; reflexivity).

Lemma released_goes w w1 : goes w w1 -> goes w (with_base ((base w1) <| starting := None |>) w1).
Proof. intros H. by apply goes_reserved; [|same_aside|]. Qed.

Lemma report_calm i b : calm b (start_report i b).
Proof.
  apply (calm_step (Report i) b b); [apply calm_refl| |done]. right.
  change (rest (Report i) b) with (start_report i b). unfold start_report. cbv zeta.
  destruct (Control.claim _ _ _ _ _) as [outcome c]. apply (tame_trans _ (match outcome with
    | Ok (Control.Claimed _) => upd i (fun t => t <| lease_holder := Some (read i EmptyString (fun t => p_caller (policy t)) b) |>)
                                  (b <| control := c |>)
    | _ => b <| control := c |> end)); [|apply tame_call].
  destruct outcome as [[| |]|]; tame_end.
Qed.

Lemma core_ends_ok early t r l w :
  (r = Ok tt -> (l_take l < length (takes (base w)))%nat) -> ends early t w (core_ends t r l w).
Proof.
  intros Hr. unfold core_ends. pose proof (released_goes w w (goes_refl w)) as G. destruct r as [[]|report].
  - specialize (Hr eq_refl). destruct (s_clip t) as [c|] eqn:Ec.
    + unfold clip_next. cbv zeta. destruct (clip_chapters _) as [|[at_ name] chapters]; (split; [exact G|]);
        (split; [|done]); simpl; (split; [exact Hr|by rewrite Ec]).
    + split; [|done]. pose proof (goes_calm w w _ (goes_refl w) (report_calm (l_take l) (base w))) as H.
      apply (goes_reserved _ _ _ H); [same_aside|done].
  - simpl. by split_and!.
Qed.

Lemma fails_ok early t text l w : ends early t w (fails t text l w).
Proof. by apply core_ends_ok. Qed.

Lemma spawn_calm i p b :
  (i < length (takes b))%nat -> calm b (b <| tasks ::= fun k => k ++ [new_task i p] |>).
Proof.
  intros Hi. split; [|apply spawned_tame, tame_refl]. apply rtc_once. exists (Spawn i p). split; [done|].
  destruct (lookup_lt_is_Some_2 _ _ Hi) as [t Ht]. unfold TakeStop.step. simpl. by rewrite Ht.
Qed.

Lemma runs_stop_ok early t text l w :
  starting (base w) <> None -> (l_take l < length (takes (base w)))%nat -> ends early t w (runs_stop t (Some text) l w).
Proof.
  intros Hs Hi. unfold runs_stop. split_and!; [|simpl|done|done].
  - apply goes_calm; [apply goes_refl|by apply spawn_calm].
  - rewrite List.length_app. simpl. lia.
Qed.

Lemma watched_calm i name b : calm b (upd i (watched (Monitor.Mark (epoch_ms b) name)) b).
Proof.
  split; [|tamed]. apply rtc_once. by exists (TakeStop.Mark i name).
Qed.

Lemma mark_take_goes i name p w :
  (i < length (takes (base w)))%nat ->
  goes w (snd (mark_take i name p w)) /\ fst (mark_take i name p w) = length (marks w)
  /\ length (marks (snd (mark_take i name p w))) = Datatypes.S (length (marks w))
  /\ calm (base w) (base (snd (mark_take i name p w))).
Proof.
  intros Hi. pose proof (watched_calm i name (base w)) as Hc. pose proof (goes_calm w w _ (goes_refl w) Hc) as H.
  split; [|split; [done|split; [|exact Hc]]]; unfold mark_take; simpl; [|rewrite List.length_app; simpl; lia].
  apply (goes_trans _ _ _ H). split; try done; [simpl; rewrite List.length_app; simpl; lia|].
  intros Hm m t E. simpl in E. apply lookup_app_Some in E as [E|[_ E]]; [by apply (Hm m t)|].
  apply list_lookup_singleton_Some in E as [_ <-]. simpl. by rewrite length_alter.
Qed.

Lemma first_chapter_ok t l w :
  starting (base w) <> None -> (l_take l < length (takes (base w)))%nat -> ends false t w (first_chapter t l w).
Proof.
  intros Hs Hi. unfold first_chapter. destruct (opt_filter _ _) as [name|]; [|by apply core_ends_ok].
  destruct (mark_take_goes (l_take l) name (s_policy t) w Hi) as (G & E1 & E2 & [_ T]).
  destruct (mark_take _ _ _ _) as [m w1]. simpl in *. split_and!; try done; [lia|by rewrite (tm_length _ _ T)|].
  by rewrite (tame_held _ _ T).
Qed.

(** ** The setup of the monitor *)

Lemma setup_done_moves i setup b :
  read i false setup_pending b = true -> moves b (setup_done stats_interval picture_interval i setup b).
Proof.
  intros H. apply rtc_once. exists (SetupDone i setup). split; [done|]. unfold TakeStop.step. simpl. by rewrite H.
Qed.

Lemma true_upd i f b : (forall t, start_true t -> start_true (f t)) -> all_true b -> all_true (upd i f b).
Proof.
  intros Hf H j t. unfold upd. simpl. destruct (decide (j = i)) as [->|Hne].
  - rewrite list_lookup_alter_eq. destruct (takes b !! i) as [t0|] eqn:E; [|done]. intros [= <-]. eapply Hf, H, E.
  - rewrite list_lookup_alter_ne by done. apply H.
Qed.

Lemma true_watched i o b : all_true b -> all_true (upd i (watched o) b).
Proof. by apply true_upd. Qed.

Lemma watched_opt_same {A} i (x : option A) o b :
  starting (watched_opt i x o b) = starting b /\ (all_true b -> all_true (watched_opt i x o b)).
Proof. destruct x; simpl; [split; [done|apply true_watched]|done]. Qed.

Lemma setup_completed_same i ppm b :
  starting (setup_completed stats_interval picture_interval i ppm b) = starting b
  /\ (all_true b -> all_true (setup_completed stats_interval picture_interval i ppm b)).
Proof.
  unfold setup_completed. cbv zeta. destruct (read i false _ b); (split; [done|]); intros H.
  - apply true_upd; [done|]. by apply true_watched.
  - by apply true_watched.
Qed.

Lemma setup_done_same i setup b :
  starting (setup_done stats_interval picture_interval i setup b) = starting b
  /\ (all_true b -> all_true (setup_done stats_interval picture_interval i setup b)).
Proof.
  unfold setup_done. set (b1 := upd i _ b).
  assert (starting b1 = starting b /\ (all_true b -> all_true b1)) as [E1 H1] by (split; [done|by apply true_upd]).
  clearbody b1. destruct setup as [s|]; [|auto]. cbv zeta.
  set (b2 := upd i (watched (Monitor.LoadTracks _ _)) b1). set (b3 := watched_opt i (tracks_error s) _ b2).
  destruct (watched_opt_same i (tracks_error s) (Monitor.TracksUnknown (epoch_ms b2)) b2) as [E3 H3]. fold b3 in E3, H3.
  set (b4 := upd i (watched (Monitor.LoadProgramScene _)) b3). set (b5 := upd i (fun t => t <| program := _ |>) b4).
  set (b6 := watched_opt i (setup_stats s) _ b5).
  destruct (watched_opt_same i (setup_stats s) (Monitor.ObserveStats (epoch_ms b5)) b5) as [E6 H6]. fold b6 in E6, H6.
  destruct (setup_completed_same i (supports_ppm s) b6) as [E7 H7]. split.
  - rewrite E7, E6. change (starting b5) with (starting b3). rewrite E3. exact E1.
  - intros H. apply H7, H6. apply true_upd; [done|]. apply true_watched, H3, true_watched, H1, H.
Qed.

Lemma setup_done_goes i setup w w1 :
  goes w w1 -> read i false setup_pending (base w1) = true ->
  goes w (with_base (setup_done stats_interval picture_interval i setup (base w1)) w1).
Proof.
  intros H Hr. destruct (setup_done_same i setup (base w1)) as [E Ht].
  pose proof (setup_steady stats_interval picture_interval i setup (base w1)) as Hs.
  apply goes_base; [done|by apply setup_done_moves|by rewrite (st_length _ _ Hs)|by rewrite (st_tasks _ _ Hs)|done|].
  intros Hok s r. rewrite E. apply Hok.
Qed.

Lemma pending_read b l : setting_up b l -> read (l_take l) false setup_pending b = true.
Proof. intros (tk & H & E). unfold read. by rewrite H. Qed.

Lemma setting_up_lt b l : setting_up b l -> (l_take l < length (takes b))%nat.
Proof. intros (tk & H & _). by eapply lookup_lt_Some. Qed.

Lemma after_setup_ok t setup l w :
  starting (base w) <> None -> setting_up (base w) l ->
  ends false t w (after_setup stats_interval picture_interval t setup l w).
Proof.
  intros Hs Hu. unfold after_setup. cbv zeta. set (x := match setup with Ok s => Some s | Err _ => None end).
  pose proof (setup_done_goes (l_take l) x w w (goes_refl w) (pending_read _ _ Hu)) as G.
  destruct (setup_done_same (l_take l) x (base w)) as [E _]. rewrite <- E in Hs.
  assert (l_take l < length (takes (setup_done stats_interval picture_interval (l_take l) x (base w))))%nat as Hi.
  { rewrite (st_length _ _ (setup_steady stats_interval picture_interval (l_take l) x (base w))). by apply setting_up_lt. }
  apply (ends_from _ _ _ _ _ G). destruct (_ || _); [by apply runs_stop_ok|by apply first_chapter_ok].
Qed.

Lemma setting_up_calm b b' l : calm b b' -> setting_up b l -> setting_up b' l.
Proof. intros [_ T] (tk & H & E). destruct (tame_lookup b b' _ _ T H) as (tk' & H' & E'). exists tk'. split; [done|congruence]. Qed.

Lemma setup_waited_ok t r setup l w :
  starting (base w) <> None -> setting_up (base w) l -> calm (base w) (snd r) ->
  ends false t w (setup_waited stats_interval picture_interval t r setup l w).
Proof.
  intros Hs Hu Hc. assert (starting (snd r) <> None) as Hs' by by rewrite (tame_held _ _ (proj2 Hc)).
  pose proof (setting_up_calm _ _ _ Hc Hu) as Hu'.
  destruct r as [wait b]. cbn [snd] in *. pose proof (goes_calm w w b (goes_refl w) Hc) as G.
  unfold setup_waited. destruct wait.
  - apply (ends_from _ _ _ _ _ G). by apply after_setup_ok.
  - apply (ends_from _ _ _ _ _ G). by apply after_setup_ok.
  - by split_and!.
Qed.

Lemma setup_answered_ok t setup l w :
  starting (base w) <> None -> setting_up (base w) l ->
  ends false t w (setup_answered stats_interval picture_interval t setup l w).
Proof. intros Hs Hu. apply setup_waited_ok; [done|done|apply wait_impact_calm]. Qed.

(** ** The output that started *)

(** A reservation whose start was seen, or lost *)
Definition decided (b : B) : Prop :=
  forall s, starting b = Some s -> c_started (s_continuity s) = true \/ c_lost (s_continuity s) <> None.

Lemma on_start_calm f b : (forall s, still (f s) = still s) -> calm b (on_start f b).
Proof.
  intros Hf. eapply calm_aside; [apply calm_refl|by same_aside|]. unfold on_start. simpl.
  destruct (starting b) as [s|]; [|done]. simpl. by rewrite Hf.
Qed.

Lemma note_unstarted_decided b : decided (on_start (fun s => s <| s_continuity ::= note_unstarted |>) b).
Proof.
  intros s. unfold on_start. simpl. destruct (starting b) as [s0|]; [|done]. intros [= <-]. simpl.
  unfold note_unstarted. destruct (c_started (s_continuity s0)) eqn:E; [by left|by right].
Qed.

Lemma probe_decided ticket b : decided b -> decided (snd (probe (OfStart ticket) b)).
Proof.
  intros H. unfold probe. destruct (RecordImpact.check _ _ _) as [st reg].
  destruct st; try exact H. intros s. simpl. destruct (starting b) as [s0|] eqn:E; [|done]. intros [= <-]. simpl.
  unfold lose. destruct (c_lost (s_continuity s0)) eqn:El; [|by right]. specialize (H s0 E). rewrite El in H. simpl. by rewrite El.
Qed.

(** Whether the start can be put on record as observed *)
Definition continuity_of_start (granted : bool) (l : StartLocals) (b : B) : bool * B :=
  if negb (is_none (start_receipt b)) && granted then
    let '(status, b) := probe (OfStart (l_impact l)) b in
    (match status with
     | RecordImpact.Ready => is_none (starting b >>? (fun s => c_lost (s_continuity s)))
     | _ => false
     end, b)
  else (false, b).

Lemma continuity_of_start_ok granted l b :
  decided b ->
  calm b (snd (continuity_of_start granted l b)) /\
  (fst (continuity_of_start granted l b) = true ->
   forall s, starting (snd (continuity_of_start granted l b)) = Some s -> c_started (s_continuity s) = true).
Proof.
  intros H. unfold continuity_of_start. destruct (_ && _); [|split; [apply calm_refl|done]].
  pose proof (probe_calm (OfStart (l_impact l)) b) as C. pose proof (probe_decided (l_impact l) b H) as D.
  destruct (probe _ b) as [st b1]. simpl in *. split; [done|]. intros E s Es. specialize (D s Es). rewrite Es in E. simpl in E.
  destruct st; try done. destruct (c_lost (s_continuity s)); [done|]. by destruct D.
Qed.

Definition receipt_true (receipt : option OperationReceipt.OperationReceipt) (b : B) : Prop :=
  forall r, receipt = Some r -> OperationReceipt.phase r = OperationReceipt.Observed ->
  forall s, starting b = Some s -> c_started (s_continuity s) = true.

Lemma settle_start_ok continuous b :
  receipt_ok b -> (continuous = true -> forall s, starting b = Some s -> c_started (s_continuity s) = true) ->
  calm b (snd (settle_start continuous b)) /\ receipt_true (fst (fst (settle_start continuous b))) (snd (settle_start continuous b)).
Proof.
  intros Hr Hc. unfold settle_start. destruct (start_receipt b) as [r|] eqn:Er; [|split; [apply calm_refl|done]].
  pose proof (update_calm r (started_update continuous) b) as C. revert C. unfold update.
  destruct (w_update r _ _ _) as [[r'|e] s'] eqn:E; intros C; (split; [exact C|]).
  - intros r2 [= <-] Hp s Es. apply w_updated in E. subst r'. destruct continuous; [|done]. by apply Hc.
  - intros r2 [= <-] Hp s Es. exfalso. unfold start_receipt in Er. simpl in Es. rewrite Es in Er. by apply (Hr s r Es Er).
Qed.

Lemma make_take_fresh t l receipt unavailable (b : B) : is_fresh (make_take owner t l receipt unavailable b).
Proof. unfold is_fresh, make_take. simpl. split_and!; try done. by eexists _, _, _, _. Qed.

Lemma make_take_true t l receipt unavailable (b : B) :
  receipt_true receipt b -> starting b <> None -> start_true (make_take owner t l receipt unavailable b).
Proof.
  intros H Hs r E Hp. simpl in *. destruct (starting b) as [s|] eqn:Es; [|done]. by apply (H r E Hp).
Qed.

(** A take that begins *)
Definition begun (tk : Take) (b : B) : B := set_current (length (takes b)) (b <| takes ::= fun ts => ts ++ [tk] |>).

Lemma begun_goes tk w w1 :
  goes w w1 -> current (base w1) = None -> is_fresh tk -> start_true tk -> goes w (with_base (begun tk (base w1)) w1).
Proof.
  intros H Hc Hf Ht. apply goes_base; [done| | |done| |].
  - apply rtc_once. exists (TakeStop.Start tk). split; [done|]. unfold TakeStop.step. simpl. by rewrite Hc.
  - simpl. rewrite List.length_app. lia.
  - intros _ Ha i t E. simpl in E. apply lookup_app_Some in E as [E|[_ E]]; [by apply (Ha i)|].
    by apply list_lookup_singleton_Some in E as [_ <-].
  - intros Hr s r. apply Hr.
Qed.

Lemma confirmed_goes t granted l w :
  starting (base w) <> None -> current (base w) = None -> receipt_ok (base w) ->
  ends false t w (confirmed stats_interval picture_interval owner t granted l w).
Proof.
  intros Hs Hc Hr. unfold confirmed. set (b1 := on_start _ (base w)).
  assert (calm (base w) b1) as C1 by by apply on_start_calm. pose proof (note_unstarted_decided (base w)) as D. fold b1 in D.
  clearbody b1. change (if negb (is_none (start_receipt b1)) && granted then _ else _) with (continuity_of_start granted l b1).
  destruct (continuity_of_start_ok granted l b1 D) as [C2 Ht]. destruct (continuity_of_start granted l b1) as [continuous b2].
  cbn [fst snd] in C2, Ht. apply (calm_after _ _ _ C1) in C2. clear C1 D b1.
  destruct (settle_start_ok continuous b2 (tame_receipt _ _ (proj2 C2) Hr) Ht) as [C3 Rt].
  destruct (settle_start continuous b2) as [[receipt unavailable] b3]. cbn [fst snd] in C3, Rt.
  apply (calm_after _ _ _ C2) in C3. clear C2 Ht b2. cbv zeta.
  set (l1 := l <| l_take := length (takes b3) |>). set (tk := make_take owner t l1 receipt unavailable b3).
  change (set_current (length (takes b3)) _) with (begun tk b3).
  assert (starting b3 <> None) as Hs3 by by rewrite (tame_held _ _ (proj2 C3)).
  pose proof (goes_calm w w b3 (goes_refl w) C3) as G.
  assert (goes w (with_base (begun tk b3) w)) as G1.
  { apply (begun_goes tk w (with_base b3 w) G); [by apply C3|apply make_take_fresh|by apply make_take_true]. }
  assert (setting_up (begun tk b3) l1) as Hu.
  { exists tk. split; [|done]. by apply (list_lookup_middle (takes b3) []). }
  destruct granted; [by split_and!|]. apply (ends_from _ _ _ _ _ G1). by apply setup_answered_ok.
Qed.

Lemma start_failed_ok early t text l w : ends early t w (start_failed t text l w).
Proof.
  unfold start_failed. destruct (start_receipt (base w)) as [r|].
  - pose proof (update_calm r (OperationReceipt.update_new OperationReceipt.Unknown) (base w)) as C.
    destruct (update _ _ (base w)) as [[r'|e] b]; cbn [snd] in C;
      (eapply ends_from; [exact (goes_calm w w _ (goes_refl w) C)|by apply core_ends_ok]).
  - eapply ends_from; [exact (goes_calm w w _ (goes_refl w) (calm_refl _))|by apply core_ends_ok].
Qed.

(** What a start has where it holds the reservation and no take *)
Record holding (w : W) : Prop := {
  ho_starting : starting (base w) <> None;
  ho_current : current (base w) = None;
  ho_receipt : receipt_ok (base w)
}.

Lemma holding_calm w b : holding w -> calm (base w) b -> holding (with_base b w).
Proof.
  intros [H1 H2 H3] [_ T]. split; [by rewrite (tame_held _ _ T)|by apply T|by eapply tame_receipt].
Qed.

Lemma confirmed_after_ok t r l w :
  holding w -> calm (base w) (snd r) -> ends false t w (confirmed_after stats_interval picture_interval owner t r l w).
Proof.
  intros H C. pose proof (goes_calm w w _ (goes_refl w) C) as G. pose proof (holding_calm _ _ H C) as [H1 H2 H3].
  destruct r as [wait b]. cbn [snd] in *. unfold confirmed_after. destruct wait.
  - eapply ends_from; [exact G|by apply confirmed_goes].
  - eapply ends_from; [exact G|by apply confirmed_goes].
  - by split_and!.
Qed.

Lemma output_started_ok t l w : holding w -> ends false t w (output_started stats_interval picture_interval owner t l w).
Proof. intros H. apply confirmed_after_ok; [done|apply wait_impact_calm]. Qed.

Lemma status_answered_ok t seen seen_active l w :
  holding w -> ends false t w (status_answered stats_interval picture_interval start_confirmation owner t seen seen_active l w).
Proof.
  intros H. unfold status_answered. destruct seen_active; [by apply output_started_ok|apply start_failed_ok].
Qed.

Lemma await_started_ok t l w : holding w -> ends false t w (await_started stats_interval picture_interval owner t l w).
Proof.
  intros H. pose proof H as [H1 H2 H3]. assert (forall p l', active p = true -> unsent p = false ->
    stage (base w) (length (marks w)) t p l' -> ends false t w (p, l', w)) as Hp.
  { intros p l' Ha Hu Hst. split; [apply goes_refl|]. split; [done|]. rewrite Ha, Hu. done. }
  unfold await_started. destruct (l_watch l) as [v|]; [|by apply Hp]. destruct (w_lagged v); [by apply Hp|].
  destruct (next_outcome _ _ _) as [[[path| |]|] events]; try by apply Hp. by apply output_started_ok.
Qed.

(** ** The request *)

Lemma on_accepted_goes w w1 : goes w w1 -> goes w (with_base (on_accepted (base w1)) w1).
Proof.
  intros H. unfold on_accepted. destruct (start_receipt (base w1)) as [r|] eqn:Er; [|by apply goes_calm; [|apply calm_refl]].
  pose proof (update_calm r accepted_update (base w1)) as C. unfold accepted, update in *.
  destruct (w_update r accepted_update _ _) as [[r'|e] s] eqn:E; cbn [snd] in C; pose proof (goes_calm _ _ _ H C) as G.
  - apply w_updated in E. refine (goes_reserved w (with_base _ w1) _ G _ _); [same_aside|]. intros _ s' r2. simpl.
    destruct (starting (base w1)); [|done]. intros [= <-] [= <-]. by rewrite E.
  - refine (goes_reserved w (with_base _ w1) _ G _ _); [same_aside|]. intros Hr s' r2. simpl.
    destruct (starting (base w1)) as [s0|] eqn:Es; [|done]. intros [= <-]. simpl. by apply (Hr s0 r2).
Qed.

Lemma on_accepted_held b : starting (on_accepted b) = None <-> starting b = None.
Proof.
  unfold on_accepted. destruct (start_receipt b) as [r|]; [|done]. unfold accepted, update.
  destruct (w_update r _ _ _) as [[r'|e] s]; simpl; by destruct (starting b).
Qed.

Lemma on_accepted_current b : current (on_accepted b) = current b.
Proof.
  unfold on_accepted. destruct (start_receipt b) as [r|]; [|done]. unfold accepted, update.
  by destruct (w_update r _ _ _) as [[r'|e] s].
Qed.

Lemma start_dispatched_ok t outcome l w : holding w -> ends false t w (start_dispatched t outcome l w).
Proof.
  intros [H1 H2 H3]. unfold start_dispatched. destruct outcome; try apply start_failed_ok.
  split; [apply on_accepted_goes, goes_refl|]. split; [exact (eq_trans (on_accepted_current _) H2)|]. split; [|done].
  intros E. by apply H1, on_accepted_held.
Qed.

(** ** The durable intent *)

#[export] Instance prepare_calm kind take : CalmCall (prepare generation identity kind take).
Proof.
  intros b. unfold prepare. destruct (w_prepare _ _ _ _ _ _). eapply calm_aside; [apply calm_refl| |done].
  split; try reflexivity; [by left|]. simpl. lia.
Qed.

(** The receipt of a start that is about to be sent *)
Definition intended (id : string) (r : OperationReceipt.OperationReceipt) : Prop :=
  OperationReceipt.phase r = OperationReceipt.Dispatching /\ OperationReceipt.kind r = OperationReceipt.RecordStart
  /\ OperationReceipt.take_id r = Some id.

Lemma prepared_intent id b r b1 r' b2 :
  prepare generation identity OperationReceipt.RecordStart id b = (Ok r, b1) -> dispatching r b1 = (Ok r', b2) ->
  intended id r'.
Proof.
  unfold prepare, dispatching, update. destruct (w_prepare _ _ _ _ _ _) as [res s] eqn:E. intros [= -> <-].
  destruct (w_update r _ _ _) as [res' s'] eqn:E'. intros [= -> <-]. apply w_prepared in E as (_ & K & T & _). apply w_updated in E'.
  subst r'. by split_and!.
Qed.

Notation before_intent := (before_intent generation identity start_confirmation).

(** The intent of a start, before the reservation takes it *)
Definition intend (b : B) : result StoreError OperationReceipt.OperationReceipt * B :=
  let '(r, b) := prepare generation identity OperationReceipt.RecordStart (take_id identity (next_identity b))
                   (b <| next_identity ::= Datatypes.S |>) in
  match r with Ok r => dispatching r b | Err e => (Err e, b) end.

Lemma intend_ok b :
  calm b (snd (intend b)) /\ forall r, fst (intend b) = Ok r -> intended (take_id identity (next_identity b)) r.
Proof.
  unfold intend. set (b1 := b <| next_identity ::= Datatypes.S |>).
  assert (calm b b1) as C1 by (eapply calm_aside; [apply calm_refl| |done]; split; try reflexivity; [by left|simpl; lia]).
  pose proof (prepared_intent (take_id identity (next_identity b)) b1) as P.
  calm_known (prepare generation identity OperationReceipt.RecordStart (take_id identity (next_identity b))) b1.
  destruct r as [r|e]; [|by split]. specialize (P r w). unfold dispatching in *.
  pose proof (calm_after _ _ _ C (update_calm r dispatching_update w)) as C2.
  destruct (update r dispatching_update w) as [r' b2] eqn:E. split; [exact C2|]. simpl. intros r2 ->. by apply (P r2 b2).
Qed.

Lemma before_intent_ok t l w : holding w -> ends true t w (before_intent t l w).
Proof.
  intros H. unfold TakeStart.before_intent. destruct (cancelled w); [apply fails_ok|].
  destruct (admission_blocks _) as [[]|]; try apply fails_ok. cbv zeta.
  destruct (intend_ok (base w)) as [C P]. pose proof (holding_calm _ _ H C) as [H1 H2 H3]. revert C P H1 H2 H3. unfold intend.
  destruct (prepare _ _ _ _ _) as [r b]. destruct (match r with Ok r => dispatching r b | Err e => (Err e, b) end) as [r' b'].
  cbn [fst snd]. intros C P H1 H2 H3. pose proof (goes_calm w w b' (goes_refl w) C) as G.
  destruct r' as [r'|e]; [|eapply ends_from; [exact G|apply fails_ok]]. specialize (P r' eq_refl) as (P1 & P2 & P3).
  split; [|split; [|done]].
  - refine (goes_reserved w (with_base b' w) _ G _ _); [same_aside|]. intros _ s r2 [= <-] [= <-]. by rewrite P1.
  - split; [exact H2|]. eexists _, _. by split_and!.
Qed.

Lemma intent_waited_ok t r l w :
  holding w -> calm (base w) (snd r) -> ends true t w (intent_waited generation identity start_confirmation t r l w).
Proof.
  intros H C. pose proof (goes_calm w w _ (goes_refl w) C) as G. pose proof (holding_calm _ _ H C) as H'.
  destruct r as [wait b]. cbn [snd] in *. unfold intent_waited. destruct wait.
  - eapply ends_from; [exact G|by apply before_intent_ok].
  - eapply ends_from; [exact G|apply fails_ok].
  - destruct H'. by split_and!.
Qed.

Lemma preflighted_ok t report l w :
  holding w -> ends true t w (preflighted generation identity start_confirmation t report l w).
Proof.
  intros H. unfold preflighted. destruct report as [r|]; [|apply fails_ok]. cbv zeta. destruct (_ && _); [apply fails_ok|].
  destruct (negb _); [apply fails_ok|]. apply intent_waited_ok; [done|apply wait_impact_calm].
Qed.

Lemma enter_start_ok t l w : holding w -> ends true t w (enter_start setup_limit t l w).
Proof.
  intros [H1 H2 H3]. unfold enter_start. destruct (starting (base w)) as [s|] eqn:Es; [|done]. cbv zeta.
  destruct (cancelled w); [apply fails_ok|]. split; [apply goes_refl|]. simpl. by rewrite Es.
Qed.

(** ** What a start waits for *)

Lemma task_not_panicked b k t : reached b -> tasks b !! k = Some t -> pc t <> Panicked.
Proof.
  intros Hr Hk E. destruct (wo_tasks b (reached_ok _ _ _ _ _ b Hr) k t Hk) as (tk & _ & Q). by rewrite E in Q.
Qed.

Lemma stop_joined_ok t k text l w n :
  reached (base w) -> (k < length (tasks (base w)))%nat -> stop_joined t k (Some text) l w = Some n -> ends false t w n.
Proof.
  intros Hr Hk. destruct (lookup_lt_is_Some_2 _ _ Hk) as [st Hst]. unfold stop_joined. rewrite Hst.
  change (pc <$> Some st) with (Some (pc st)).
  pose proof (task_not_panicked _ _ _ Hr Hst). destruct (pc st); try done. intros <-%Some_inj. by apply core_ends_ok.
Qed.

Lemma mark_joined_ok t m l w n :
  (m < length (marks w))%nat -> (l_take l < length (takes (base w)))%nat -> mark_joined t m FirstChapter l w = Some n -> ends false t w n.
Proof.
  intros Hm Hi. destruct (lookup_lt_is_Some_2 _ _ Hm) as [mk E]. unfold mark_joined. rewrite E.
  change (m_pc <$> Some mk) with (Some (m_pc mk)).
  destruct (m_pc mk); [done|]. intros <-%Some_inj. by apply core_ends_ok.
Qed.

(** A step of a start that has given up the reservation *)
Definition follows (t : StartTask) (w : W) (n : SNext) : Prop :=
  let '(p, l, w') := n in
  goes w w' /\ calm (base w) (base w') /\ stage (base w') (length (marks w')) t p l /\ active p = false.

Lemma clip_next_ok t l c chapters w :
  (l_take l < length (takes (base w)))%nat -> s_clip t <> None -> follows t w (clip_next l c chapters, l, w).
Proof.
  intros Hi Hc. split; [apply goes_refl|]. split; [apply calm_refl|]. unfold clip_next. by destruct chapters as [|[at_ name] rest].
Qed.

Lemma clip_wakes_ok t until next l w n :
  (l_take l < length (takes (base w)))%nat -> s_clip t <> None -> clip_wakes t until next l w = Some n -> follows t w n.
Proof.
  intros Hi Hc. unfold clip_wakes. cbv zeta. destruct (_ && _); [done|]. intros <-%Some_inj. destruct next as [[name rest]|].
  - destruct (_ || _).
    + destruct (s_clip t) as [c|] eqn:Ec; [|done]. apply clip_next_ok; [done|by rewrite Ec].
    + destruct (mark_take_goes (l_take l) name (internal_policy (s_policy t)) w Hi) as (G & E1 & E2 & C).
      destruct (mark_take _ _ _ _) as [m w1]. simpl in *. split; [done|]. split; [done|]. rewrite (tm_length _ _ (proj2 C)).
      split_and!; try done. lia.
  - pose proof (spawn_calm (l_take l) (internal_policy (s_policy t)) (base w) Hi) as C. unfold runs_stop.
    split; [by apply goes_calm; [apply goes_refl|]|]. split; [exact C|]. split; [|done]. simpl. rewrite List.length_app. simpl. lia.
Qed.

Lemma stop_joined_follows t k l w n :
  reached (base w) -> (k < length (tasks (base w)))%nat -> stop_joined t k None l w = Some n -> follows t w n.
Proof.
  intros Hr Hk. destruct (lookup_lt_is_Some_2 _ _ Hk) as [st Hst]. unfold stop_joined. rewrite Hst.
  change (pc <$> Some st) with (Some (pc st)).
  pose proof (task_not_panicked _ _ _ Hr Hst). destruct (pc st); try done. intros <-%Some_inj.
  split; [apply goes_refl|]. by split; [apply calm_refl|].
Qed.

Lemma mark_joined_follows t m chapters l w n :
  (m < length (marks w))%nat -> (l_take l < length (takes (base w)))%nat -> s_clip t <> None ->
  mark_joined t m (ClipChapter chapters) l w = Some n -> follows t w n.
Proof.
  intros Hm Hi Hc. destruct (lookup_lt_is_Some_2 _ _ Hm) as [mk E]. unfold mark_joined. rewrite E.
  change (m_pc <$> Some mk) with (Some (m_pc mk)).
  destruct (m_pc mk); [done|]. intros <-%Some_inj. destruct (s_clip t) as [c|] eqn:Ec; [|done]. apply clip_next_ok; [done|by rewrite Ec].
Qed.

(** ** The invariant *)

Record world_inv (w : W) : Prop := {
  iv_reached : reached (base w);
  iv_true : all_true (base w);
  iv_receipt : receipt_ok (base w);
  iv_marks : marks_ok w;
  iv_stage k t : starts w !! k = Some t -> stage (base w) (length (marks w)) t (s_pc t) (s_locals t);
  iv_one k1 k2 t1 t2 : starts w !! k1 = Some t1 -> starts w !! k2 = Some t2 ->
    active (s_pc t1) = true -> active (s_pc t2) = true -> k1 = k2;
  iv_held : starting (base w) <> None <-> exists k t, starts w !! k = Some t /\ active (s_pc t) = true;
  iv_nodup : NoDup (sends w);
  iv_sends k : k ∈ sends w -> exists t, starts w !! k = Some t /\ unsent (s_pc t) = false
}.

Definition put_task (t : StartTask) (p : StartPc) (l : StartLocals) : StartTask := t <| s_locals := l |> <| s_pc := p |>.

Lemma put_lookup k t p l (w w' : W) j t' :
  starts w' = starts w -> starts w !! k = Some t -> starts (put_start k t (p, l, w')) !! j = Some t' ->
  j = k /\ t' = put_task t p l \/ j <> k /\ starts w !! j = Some t'.
Proof.
  intros E Hk. unfold put_start. simpl. rewrite E. destruct (decide (j = k)) as [->|Hne].
  - rewrite list_lookup_alter_eq, Hk. intros [= <-]. by left.
  - rewrite list_lookup_alter_ne by done. by right.
Qed.

Lemma put_here k t p l (w w' : W) :
  starts w' = starts w -> starts w !! k = Some t -> starts (put_start k t (p, l, w')) !! k = Some (put_task t p l).
Proof. intros E Hk. unfold put_start. simpl. by rewrite E, list_lookup_alter_eq, Hk. Qed.

Lemma put_there k t p l (w w' : W) j t' :
  starts w' = starts w -> starts w !! j = Some t' -> j <> k -> starts (put_start k t (p, l, w')) !! j = Some t'.
Proof. intros E Hj Hne. unfold put_start. simpl. by rewrite E, list_lookup_alter_ne. Qed.

(** What was sent stays sent. *)
Lemma put_sends k t p l (w w' : W) j :
  world_inv w -> goes w w' -> starts w !! k = Some t -> (unsent p = true -> unsent (s_pc t) = true) ->
  j ∈ sends w' -> exists t', starts (put_start k t (p, l, w')) !! j = Some t' /\ unsent (s_pc t') = false.
Proof.
  intros Hw G Hk Hu. rewrite (gs_sends _ _ G). intros Hj. destruct (iv_sends w Hw j Hj) as (t' & Ht' & U).
  destruct (decide (j = k)) as [->|Hne].
  - rewrite Hk in Ht'. injection Ht' as <-. eexists. split; [apply (put_here k t p l w w' (gs_starts _ _ G) Hk)|].
    change (unsent p = false). destruct (unsent p); [|done]. specialize (Hu eq_refl). congruence.
  - exists t'. split; [|done]. by apply (put_there k t p l w w' j t' (gs_starts _ _ G)).
Qed.

Lemma put_ends k t (n : SNext) (w : W) :
  world_inv w -> starts w !! k = Some t -> active (s_pc t) = true -> ends (unsent (s_pc t)) t w n -> world_inv (put_start k t n).
Proof.
  intros Hw Hk Ha. destruct n as [[p l] w']. intros (G & St & Hs & Hu). pose proof (gs_starts _ _ G) as E.
  assert (forall j t', starts w !! j = Some t' -> j <> k -> active (s_pc t') = false) as Hin.
  { intros j t' Hj Hne. destruct (active (s_pc t')) eqn:Ha'; [|done]. by destruct Hne; eapply (iv_one w Hw j k t' t). }
  split.
  - exact (moves_reached _ _ (iv_reached w Hw) (gs_moves _ _ G)).
  - exact (gs_true _ _ G (iv_receipt w Hw) (iv_true w Hw)).
  - exact (gs_receipt _ _ G (iv_receipt w Hw)).
  - exact (gs_marked _ _ G (iv_marks w Hw)).
  - intros j t' Hj. destruct (put_lookup k t p l w w' j t' E Hk Hj) as [[-> ->]|[Hne Hj']].
    + exact St.
    + eapply inactive_stage; [by eapply Hin|apply G|apply G|apply G|]. exact (iv_stage w Hw j t' Hj').
  - intros j1 j2 t1 t2 H1 H2 A1 A2.
    destruct (put_lookup k t p l w w' j1 t1 E Hk H1) as [[-> ->]|[N1 H1']], (put_lookup k t p l w w' j2 t2 E Hk H2) as [[-> ->]|[N2 H2']];
      [done| | |]; exfalso.
    + by rewrite (Hin j2 t2) in A2.
    + by rewrite (Hin j1 t1) in A1.
    + by rewrite (Hin j1 t1) in A1.
  - change (base (put_start k t (p, l, w'))) with (base w'). destruct (active p) eqn:Hp.
    + split; [|done]. intros _. exists k, (put_task t p l). split; [by apply (put_here k t p l w w')|done].
    + split; [done|]. intros (j & t' & Hj & A). destruct (put_lookup k t p l w w' j t' E Hk Hj) as [[-> ->]|[Hne Hj']].
      * change (active p = true) in A. congruence.
      * by rewrite (Hin j t') in A.
  - change (sends (put_start k t (p, l, w'))) with (sends w'). rewrite (gs_sends _ _ G). apply Hw.
  - intros j Hj. by apply (put_sends k t p l w w' j Hw G Hk Hu).
Qed.

Lemma put_follows k t (n : SNext) (w : W) :
  world_inv w -> starts w !! k = Some t -> active (s_pc t) = false -> follows t w n -> world_inv (put_start k t n).
Proof.
  intros Hw Hk Ha. destruct n as [[p l] w']. intros (G & [M T] & St & Hp). pose proof (gs_starts _ _ G) as E. split.
  - exact (moves_reached _ _ (iv_reached w Hw) (gs_moves _ _ G)).
  - exact (gs_true _ _ G (iv_receipt w Hw) (iv_true w Hw)).
  - exact (gs_receipt _ _ G (iv_receipt w Hw)).
  - exact (gs_marked _ _ G (iv_marks w Hw)).
  - intros j t' Hj. destruct (put_lookup k t p l w w' j t' E Hk Hj) as [[-> ->]|[Hne Hj']].
    + exact St.
    + eapply tame_stage; [exact T|apply G|]. exact (iv_stage w Hw j t' Hj').
  - intros j1 j2 t1 t2 H1 H2 A1 A2.
    destruct (put_lookup k t p l w w' j1 t1 E Hk H1) as [[-> ->]|[N1 H1']]; [change (active p = true) in A1; congruence|].
    destruct (put_lookup k t p l w w' j2 t2 E Hk H2) as [[-> ->]|[N2 H2']]; [change (active p = true) in A2; congruence|].
    by eapply (iv_one w Hw j1 j2 t1 t2).
  - change (base (put_start k t (p, l, w'))) with (base w'). rewrite (tame_held _ _ T), (iv_held w Hw). split.
    + intros (j & t' & Hj & A). exists j, t'. split; [|done]. apply (put_there k t p l w w' j t' E Hj). intros ->. congruence.
    + intros (j & t' & Hj & A). destruct (put_lookup k t p l w w' j t' E Hk Hj) as [[-> ->]|[Hne Hj']]; [change (active p = true) in A; congruence|eauto].
  - change (sends (put_start k t (p, l, w'))) with (sends w'). rewrite (gs_sends _ _ G). apply Hw.
  - intros j Hj. apply (put_sends k t p l w w' j Hw G Hk); [|done]. by destruct p as [| |[]|[]| | | |m []| |j' []| |].
Qed.

(** What of a start the invariant is about *)
Definition alike (t : StartTask) : StartPc * option Clip * nat * string :=
  (s_pc t, s_clip t, l_take (s_locals t), l_id (s_locals t)).

Lemma alike_stage b n t t' : alike t = alike t' -> stage b n t (s_pc t) (s_locals t) -> stage b n t' (s_pc t') (s_locals t').
Proof.
  intros [= Ep Ec Et Ei] H. rewrite <- Ep. destruct (s_pc t) as [| |[]|sent| | | |m []| | | |]; simpl in *; rewrite <- ?Et, <- ?Ec; try done.
  - destruct H as (tk & H1 & H2). exists tk. by rewrite <- Et.
  - destruct H as (H1 & s & r & H2). split; [done|]. exists s, r. by rewrite <- Ei.
  - destruct H as (tk & H1 & H2). exists tk. by rewrite <- Et.
Qed.

Lemma quiet_world_inv (w w' : W) :
  world_inv w -> calm (base w) (base w') -> (length (marks w) <= length (marks w'))%nat -> marks_ok w' -> sends w' = sends w ->
  (forall k, alike <$> starts w' !! k = alike <$> starts w !! k) -> world_inv w'.
Proof.
  intros Hw [M T] Hn Hm Es Hk.
  assert (forall k t', starts w' !! k = Some t' -> exists t, starts w !! k = Some t /\ alike t = alike t') as B1.
  { intros k t' E. specialize (Hk k). rewrite E in Hk. destruct (starts w !! k) as [t|]; [|done]. exists t. split; [done|].
    by apply Some_inj in Hk. }
  assert (forall k t, starts w !! k = Some t -> exists t', starts w' !! k = Some t' /\ s_pc t' = s_pc t) as B2.
  { intros k t E. specialize (Hk k). rewrite E in Hk. destruct (starts w' !! k) as [t'|]; [|done]. exists t'. split; [done|].
    apply Some_inj in Hk. by injection Hk. }
  split.
  - exact (moves_reached _ _ (iv_reached w Hw) M).
  - by eapply tame_all_true, Hw.
  - by eapply tame_receipt, Hw.
  - done.
  - intros k t' E. destruct (B1 k t' E) as (t & E0 & A). apply (alike_stage _ _ t t' A).
    eapply tame_stage; [exact T|exact Hn|]. by apply (iv_stage w Hw k).
  - intros k1 k2 t1' t2' H1 H2 A1 A2. destruct (B1 k1 t1' H1) as (t1 & E1 & X1), (B1 k2 t2' H2) as (t2 & E2 & X2).
    injection X1 as P1 _ _ _. injection X2 as P2 _ _ _. eapply (iv_one w Hw k1 k2 t1 t2); congruence.
  - rewrite (tame_held _ _ T), (iv_held w Hw). split.
    + intros (k & t & E & A). destruct (B2 k t E) as (t' & E' & P). exists k, t'. split; [done|congruence].
    + intros (k & t' & E & A). destruct (B1 k t' E) as (t & E' & X). injection X as P _ _ _. exists k, t. split; [done|congruence].
  - rewrite Es. apply Hw.
  - intros k. rewrite Es. intros H. destruct (iv_sends w Hw k H) as (t & E & U). destruct (B2 k t E) as (t' & E' & P).
    exists t'. split; [done|congruence].
Qed.

(** A step of the rest of the supervisor *)
Lemma rest_calm a b : of_start a = false -> calm b (rest a b).
Proof. intros Ha. split; [apply moves_step; by destruct a|by apply rest_tame]. Qed.

Lemma marks_calm (w w' : W) : calm (base w) (base w') -> marks w' = marks w -> marks_ok w -> marks_ok w'.
Proof. intros [_ T] E H m t. rewrite E, (tm_length _ _ T). apply H. Qed.

Lemma delivered_inv name data (w : W) : world_inv w -> world_inv (deliver name data w).
Proof.
  intros Hw. apply (quiet_world_inv w); try done; [apply calm_refl|apply Hw|]. intros k.
  etransitivity; [apply f_equal, list_lookup_fmap|]. destruct (starts w !! k) as [t|]; [|done]. simpl. by destruct (l_watch (s_locals t)).
Qed.

Lemma rest_step_inv a (w : W) :
  world_inv w -> of_start a = false ->
  world_inv (rest_step generation identity stop_limit stats_interval picture_interval a w).
Proof.
  intros Hw Ha. unfold rest_step. cbv zeta. pose proof (rest_calm a (base w) Ha) as C.
  set (w1 := with_base (rest a (base w)) w). assert (calm (base w) (base w1)) as C1 by exact C.
  assert (world_inv w1) as H1 by (apply (quiet_world_inv w); try done; by apply (marks_calm w), Hw).
  assert (world_inv (w1 <| clip_shutdown := true |>)) as H2.
  { apply (quiet_world_inv w1); try done; [apply calm_refl|]. apply H1. }
  destruct a; try exact H1; [|exact H2]. destruct ours; [by apply delivered_inv|exact H1].
Qed.

(** ** The steps of a start *)

Lemma holder (w : W) k t : world_inv w -> starts w !! k = Some t -> active (s_pc t) = true -> starting (base w) <> None.
Proof. intros Hw Hk Ha. apply (iv_held w Hw). eauto. Qed.

Lemma holding_here (w : W) k t :
  world_inv w -> starts w !! k = Some t -> active (s_pc t) = true -> current (base w) = None -> holding w.
Proof. intros Hw Hk Ha Hc. split; [by eapply holder|done|apply Hw]. Qed.

(** What a step of start [k] comes to *)
Inductive start_comes_to (k : nat) (t : StartTask) (w : W) : W -> Prop :=
| came_same : start_comes_to k t w w
| came_ends n : active (s_pc t) = true -> ends (unsent (s_pc t)) t w n -> start_comes_to k t w (put_start k t n)
| came_follows n : active (s_pc t) = false -> follows t w n -> start_comes_to k t w (put_start k t n)
| came_sent b : s_pc t = StartSending false -> guard_start t w = (Ok tt, b) ->
    start_comes_to k t w (put_start k t (StartSending true, s_locals t, (with_base b w) <| sends ::= fun s => s ++ [k] |>)).

Lemma came_some_ends k t (n : option SNext) (w : W) :
  active (s_pc t) = true -> (forall n', n = Some n' -> ends (unsent (s_pc t)) t w n') -> start_comes_to k t w (put_some k t n w).
Proof. intros Ha H. destruct n as [n|]; [|by constructor]. by apply came_ends, H. Qed.

Lemma came_some_follows k t (n : option SNext) (w : W) :
  active (s_pc t) = false -> (forall n', n = Some n' -> follows t w n') -> start_comes_to k t w (put_some k t n w).
Proof. intros Ha H. destruct n as [n|]; [|by constructor]. by apply came_follows, H. Qed.

Lemma guard_came k t (w : W) :
  holding w -> s_pc t = StartSending false ->
  start_comes_to k t w match guard_start t w with
                | (Ok _, b) => put_start k t (StartSending true, s_locals t, (with_base b w) <| sends ::= fun s => s ++ [k] |>)
                | (Err message, b) => put_start k t (start_dispatched t (BeforeDispatch message) (s_locals t) (with_base b w))
                end.
Proof.
  intros H Hp. pose proof (guard_start_calm t w) as C. destruct (guard_start t w) as [[[]|message] b] eqn:E; cbn [snd] in C.
  - by apply came_sent.
  - apply came_ends; rewrite Hp; [done|]. apply ends_early. eapply ends_from; [exact (goes_calm w w b (goes_refl w) C)|].
    by apply start_dispatched_ok, holding_calm.
Qed.

Notation resume_start := (resume_start generation identity stats_interval picture_interval setup_limit start_confirmation owner).

Lemma resume_start_came a k t (w : W) : world_inv w -> starts w !! k = Some t -> start_comes_to k t w (resume_start a k t w).
Proof.
  intros Hw Hk. pose proof (iv_stage w Hw k t Hk) as St.
  assert (active (s_pc t) = true -> current (base w) = None -> holding w) as Hh by (intros; by apply (holding_here w k t)).
  assert (active (s_pc t) = true -> starting (base w) <> None) as Hs by by apply (holder w k t Hw Hk).
  unfold TakeStart.resume_start. destruct a; try constructor; destruct (s_pc t) eqn:Hp; try (by constructor).
  - apply came_ends; rewrite Hp; [done|]. by apply enter_start_ok, Hh.
  - destruct k1; (apply came_ends; rewrite Hp; [done|]).
    + apply intent_waited_ok; [by apply Hh|apply wait_woken_calm].
    + apply confirmed_after_ok; [by apply Hh|apply wait_woken_calm].
    + apply setup_waited_ok; [by apply Hs|done|apply wait_woken_calm].
  - apply came_ends; rewrite Hp; [done|]. by apply await_started_ok, Hh.
  - destruct k1 as [|chapters]; [apply came_some_ends|apply came_some_follows];
      try (by rewrite Hp); intros n E; destruct St as (St1 & St2 & St3); rewrite ?Hp.
    + by apply (mark_joined_ok _ _ _ _ _ St1 St2) in E.
    + by apply (mark_joined_follows _ _ _ _ _ _ St1 St2 St3) in E.
  - apply came_some_follows; [by rewrite Hp|]. intros n E. destruct St as [St1 St2].
    by apply (clip_wakes_ok _ _ _ _ _ _ St1 St2) in E.
  - destruct text as [text|]; [apply came_some_ends|apply came_some_follows];
      try (by rewrite Hp); intros n E; rewrite ?Hp.
    + by apply (stop_joined_ok _ _ _ _ _ _ (iv_reached w Hw) St) in E.
    + by apply (stop_joined_follows _ _ _ _ _ (iv_reached w Hw) St) in E.
  - apply came_ends; rewrite Hp; [done|]. by apply preflighted_ok, Hh.
  - destruct sent; [constructor|]. apply guard_came; [by apply Hh, St|done].
  - destruct (plausible sent outcome); [|constructor]. apply came_ends; rewrite Hp; [done|].
    apply ends_early, start_dispatched_ok, Hh; [done|apply St].
  - apply came_ends; rewrite Hp; [done|]. by apply status_answered_ok, Hh.
  - apply came_ends; rewrite Hp; [done|]. apply setup_answered_ok; [by apply Hs|done].
Qed.

Lemma sent_inv k t (w : W) :
  world_inv w -> k ∉ sends w -> starts w !! k = Some t -> unsent (s_pc t) = false -> world_inv (w <| sends ::= fun s => s ++ [k] |>).
Proof.
  intros Hw Hn Hk Hu. split; try apply Hw.
  - apply NoDup_app. split_and!; [apply Hw| |apply NoDup_singleton]. intros j Hj. by intros ->%list_elem_of_singleton.
  - intros j Hj. apply elem_of_app in Hj as [Hj|Hj]; [by apply (iv_sends w Hw)|]. apply list_elem_of_singleton in Hj as ->. eauto.
Qed.

Lemma not_yet_sent k t (w : W) : world_inv w -> starts w !! k = Some t -> unsent (s_pc t) = true -> k ∉ sends w.
Proof. intros Hw Hk Hu Hs. destruct (iv_sends w Hw k Hs) as (t' & E & U). congruence. Qed.

Lemma came_sent_inv k t (w : W) b :
  world_inv w -> starts w !! k = Some t -> s_pc t = StartSending false -> calm (base w) b ->
  world_inv (put_start k t (StartSending true, s_locals t, (with_base b w) <| sends ::= fun s => s ++ [k] |>)).
Proof.
  intros Hw Hk Hp C. pose proof (iv_stage w Hw k t Hk) as St. rewrite Hp in St. destruct St as [Hc Hi].
  assert (active (s_pc t) = true) as Ha by by rewrite Hp. pose proof (holding_here w k t Hw Hk Ha Hc) as H.
  pose proof (goes_calm w w b (goes_refl w) C) as G. pose proof (holding_calm w b H C) as [H1 H2 H3].
  change (world_inv ((put_start k t (StartSending true, s_locals t, with_base b w)) <| sends ::= fun s => s ++ [k] |>)).
  assert (world_inv (put_start k t (StartSending true, s_locals t, with_base b w))) as Hw'.
  { apply (put_ends k t (StartSending true, s_locals t, with_base b w) w Hw Hk Ha). split; [exact G|]. split; [|done].
    apply (tame_stage (base w) b (length (marks w)) (length (marks w)) t (StartSending true) (s_locals t) (proj2 C)); [done|by split]. }
  apply (sent_inv k (put_task t (StartSending true) (s_locals t)) _ Hw'); [|by apply (put_here k t _ _ w (with_base b w))|done].
  apply (not_yet_sent k t w Hw Hk). by rewrite Hp.
Qed.

Lemma came_inv k t (w w' : W) : world_inv w -> starts w !! k = Some t -> start_comes_to k t w w' -> world_inv w'.
Proof.
  intros Hw Hk H. destruct H as [|n Ha H|n Ha H|b Hp Hg]; [done|by apply put_ends with w|by apply put_follows with w|].
  apply (came_sent_inv k t w b Hw Hk Hp). pose proof (guard_start_calm t w) as C. by rewrite Hg in C.
Qed.

Lemma resume_start_inv a k t (w : W) : world_inv w -> starts w !! k = Some t -> world_inv (resume_start a k t w).
Proof. intros Hw Hk. by apply (came_inv k t w _ Hw Hk), resume_start_came. Qed.

(** ** Marks *)

Lemma noted_calm i text b : calm b (upd i (fun t => t <| chapter_notes ::= fun l => l ++ [text] |>) b).
Proof. split; [apply rtc_once; by exists (TakeStop.Note i text)|tamed]. Qed.

Lemma mark_put_ok (w : W) b m t t' :
  marks_ok w -> calm (base w) b -> marks w !! m = Some t -> m_take t' = m_take t ->
  marks_ok ((with_base b w) <| marks ::= <[m := t']> |>).
Proof.
  intros Hm [_ T] E Et j tj Hj. change (<[m := t']> (marks w) !! j = Some tj) in Hj.
  change (m_take tj < length (takes b))%nat. rewrite (tm_length _ _ T). destruct (decide (j = m)) as [->|Hne].
  - rewrite list_lookup_insert_eq in Hj by by eapply lookup_lt_Some. injection Hj as <-. rewrite Et. by apply (Hm m).
  - rewrite list_lookup_insert_ne in Hj by done. by apply (Hm j).
Qed.

Lemma mark_put_inv (w : W) b m t t' :
  world_inv w -> calm (base w) b -> marks w !! m = Some t -> m_take t' = m_take t ->
  world_inv ((with_base b w) <| marks ::= <[m := t']> |>).
Proof.
  intros Hw C E Et. apply (quiet_world_inv w); try done; [simpl; by rewrite length_insert|].
  by apply (mark_put_ok w b m t t'); [apply Hw|..].
Qed.

Lemma mark_ends_inv (w : W) b m t failure :
  world_inv w -> calm (base w) b -> marks w !! m = Some t -> world_inv (mark_ends m t failure (with_base b w)).
Proof.
  intros Hw C E. unfold mark_ends. destruct failure as [message|]; [|by apply (mark_put_inv w b m t)].
  simpl fmap. cbv zeta. set (text := _ +:+ _).
  apply (mark_put_inv w (upd (m_take t) (fun t => t <| chapter_notes ::= fun l => l ++ [text] |>) b) m t); try done.
  eapply calm_after; [exact C|apply noted_calm].
Qed.

Lemma with_base_self (w : W) : with_base (base w) w = w.
Proof. by destruct w. Qed.

Lemma resume_mark_inv a m t (w : W) : world_inv w -> marks w !! m = Some t -> world_inv (resume_mark a m t w).
Proof.
  intros Hw E. unfold resume_mark. destruct a; try exact Hw; destruct (m_pc t) as [[]|]; try exact Hw.
  - pose proof (guard_chapter_calm (m_take t) (m_name t) (m_policy t) (base w)) as C.
    destruct (guard_chapter _ _ _ _) as [[u|message] b]; cbn [snd] in C.
    + by apply (mark_put_inv w b m t).
    + by apply mark_ends_inv.
  - destruct (plausible true outcome); [|exact Hw].
    pose proof (mark_ends_inv w (base w) m t) as H. rewrite with_base_self in H. by apply H; [|apply calm_refl|].
  - destruct (plausible false outcome); [|exact Hw].
    pose proof (mark_ends_inv w (base w) m t) as H. rewrite with_base_self in H. by apply H; [|apply calm_refl|].
Qed.

(** ** Commands *)

(** What [reserve_start] does when it refuses, and when it does not *)
Definition reserved (w w' : W) (refusal : option string) : Prop :=
  exists b, w' = with_base b w /\
  match refusal with
  | Some _ => calm (base w) b
  | None => aside (base w) b /\ starting (base w) = None /\ current (base w) = None
            /\ exists s, starting b = Some s /\ s_receipt s = None
  end.

Lemma refused_reserved (w : W) text b : calm (base w) b -> reserved w (with_base b w) (Some text).
Proof. intros C. by exists b. Qed.

Lemma unchanged_reserved (w : W) text : reserved w w (Some text).
Proof. exists (base w). rewrite with_base_self. split; [done|apply calm_refl]. Qed.

Lemma registry_calm (b : B) reg : calm b (b <| registry := reg |>).
Proof. eapply calm_aside; [apply calm_refl|by same_aside|done]. Qed.

Lemma reserve_start_reserved o admitted (w : W) :
  reserved w (snd (reserve_start o admitted w)) (fst (reserve_start o admitted w)).
Proof.
  unfold reserve_start. cbv zeta. destruct (current (base w)) as [i|] eqn:Hc; [apply unchanged_reserved|].
  destruct (starting (base w)) as [s|] eqn:Hs; [apply unchanged_reserved|]. simpl is_none. cbv iota. simpl negb. cbv iota.
  destruct (negb (options_valid o)); [apply unchanged_reserved|].
  assert (forall reg ticket limit, reserved w (with_base ((((base w) <| registry := reg |>) <| completed := None |>)
      <| starting := Some {| s_cancellation := None; s_impact := ticket; s_deadline := limit; s_receipt := None;
                             s_receipt_unavailable := false; s_continuity := default_continuity |} |>) w) None) as H.
  { intros reg ticket limit. eexists. split; [reflexivity|]. split; [|split; [done|split; [done|by eexists]]].
    split; try reflexivity. by right. }
  destruct admitted as [[[owned ticket] limit]|].
  - destruct owned; [|apply (refused_reserved w _ (base w)), calm_refl]. simpl negb. cbv iota.
    destruct (RecordImpact.check _ _ _) as [[| |r] reg]; [apply H|apply H|apply refused_reserved, registry_calm].
  - destruct (RecordImpact.reserve_take _ _) as [[ticket|e] reg]; [apply H|apply refused_reserved, registry_calm].
Qed.

(** A start that only reports *)
Lemma refused_inv (w : W) b t r :
  world_inv w -> calm (base w) b -> s_pc t = StartDone r ->
  world_inv ((with_base b w) <| starts ::= fun l => l ++ [t] |>).
Proof.
  intros Hw C Hp. assert (world_inv (with_base b w)) as H.
  { apply (quiet_world_inv w); try done. by apply (marks_calm w), Hw. }
  clear Hw C. destruct H as [V1 V2 V3 V4 V5 V6 V7 V8 V9].
  assert (forall k t', (starts (with_base b w) ++ [t]) !! k = Some t' -> starts (with_base b w) !! k = Some t' \/ s_pc t' = StartDone r) as Hk.
  { intros k t' H. apply lookup_app_Some in H as [H|[_ H]]; [by left|]. apply list_lookup_singleton_Some in H as [_ <-]. by right. }
  split; try done.
  - intros k t' H. destruct (Hk k t' H) as [H'|H']; [exact (V5 k t' H')|]. by rewrite H'.
  - intros k1 k2 t1 t2 H1 H2 A1 A2. destruct (Hk k1 t1 H1) as [E1|E1]; [|by rewrite E1 in A1].
    destruct (Hk k2 t2 H2) as [E2|E2]; [|by rewrite E2 in A2]. by eapply V6.
  - etransitivity; [exact V7|]. split.
    + intros (k & t' & H & A). exists k, t'. split; [by apply lookup_app_l_Some|done].
    + intros (k & t' & H & A). destruct (Hk k t' H) as [H'|H']; [eauto|by rewrite H' in A].
  - intros k H. destruct (V9 k H) as (t' & H' & U). exists t'. split; [by apply lookup_app_l_Some|done].
Qed.

(** A start that has the reservation *)
Lemma accepted_inv (w : W) b t s :
  world_inv w -> aside (base w) b -> starting (base w) = None -> current (base w) = None ->
  starting b = Some s -> s_receipt s = None -> s_pc t = Entering ->
  world_inv ((with_base b w) <| starts ::= fun l => l ++ [t] |>).
Proof.
  intros Hw A Hs Hc Es Er Hp. destruct Hw as [V1 V2 V3 V4 V5 V6 V7 V8 V9].
  assert (forall k t', starts w !! k = Some t' -> active (s_pc t') = false) as Hin.
  { intros k t' H. destruct (active (s_pc t')) eqn:Ha; [|done]. exfalso. apply V7; [|done]. by exists k, t'. }
  assert (forall k t', (starts w ++ [t]) !! k = Some t' -> starts w !! k = Some t' \/ k = length (starts w) /\ t' = t) as Hk.
  { intros k t' H. apply lookup_app_Some in H as [H|[Hk H]]; [by left|]. apply list_lookup_singleton_Some in H as [Hk' <-].
    right. split; [lia|done]. }
  pose proof (goes_reserved w w b (goes_refl w) A) as G.
  assert (receipt_ok b) as Hr by (intros s' r E; rewrite Es in E; injection E as <-; congruence).
  specialize (G (fun _ => Hr)). split; try done.
  - exact (moves_reached _ _ V1 (gs_moves _ _ G)).
  - exact (gs_true _ _ G V3 V2).
  - exact (gs_marked _ _ G V4).
  - intros k t' H. destruct (Hk k t' H) as [H'|[_ ->]].
    + eapply inactive_stage; [by eapply Hin|apply G|apply G|done|]. exact (V5 k t' H').
    + rewrite Hp. exact (eq_trans (as_current _ _ A) Hc).
  - intros k1 k2 t1 t2 H1 H2 A1 A2. destruct (Hk k1 t1 H1) as [E1|[-> ->]]; [by rewrite (Hin _ _ E1) in A1|].
    destruct (Hk k2 t2 H2) as [E2|[-> ->]]; [by rewrite (Hin _ _ E2) in A2|done].
  - split.
    + intros _. exists (length (starts w)), t. split; [by apply (list_lookup_middle (starts w) [])|by rewrite Hp].
    + intros _ E. change (starting b = None) in E. congruence.
  - intros k H. destruct (V9 k H) as (t' & H' & U). exists t'. split; [by apply lookup_app_l_Some|done].
Qed.

Lemma command_start_inv o p clip admitted (w : W) : world_inv w -> world_inv (command_start o p clip admitted w).
Proof.
  intros Hw. unfold command_start. pose proof (reserve_start_reserved o admitted w) as R.
  destruct (reserve_start o admitted w) as [[text|] w1]; cbn [fst snd] in R; destruct R as (b & -> & R).
  - by apply (refused_inv w b _ (NotRecording text)).
  - destruct R as (A & Hs & Hc & s & Es & Er). destruct clip as [c|]; [|by apply (accepted_inv w b _ s)].
    cbv zeta. set (f := fun s : TakeStop.Starting => s <| s_cancellation := Some (length (starts (with_base b w))) |>).
    change (with_base (on_start f (base (with_base b w))) (with_base b w)) with (with_base (on_start f b) w).
    apply (accepted_inv w (on_start f b) _ (f s)); try done; [destruct A; by split|].
    unfold on_start. simpl. by rewrite Es.
Qed.

Lemma command_clip_inv r p is_cancelled admitted (w : W) : world_inv w -> world_inv (command_clip r p is_cancelled admitted w).
Proof.
  intros Hw. unfold command_clip. cbv zeta.
  assert (forall text, world_inv (refused (clip_options r) p (Some (clip_of r)) text w)) as H.
  { intros text. pose proof (refused_inv w (base w) ((new_start (clip_options r) p (Some (clip_of r))) <| s_pc := StartDone (NotRecording text) |>)
      (NotRecording text) Hw (calm_refl _) eq_refl) as H. by rewrite with_base_self in H. }
  destruct (RecordClip.refusal r); [apply H|]. destruct is_cancelled; [apply H|by apply command_start_inv].
Qed.

Lemma command_mark_inv name p (w : W) : world_inv w -> world_inv (command_mark name p w).
Proof.
  intros Hw. unfold command_mark. destruct (current (base w)) as [i|] eqn:Hc; [|done].
  assert (i < length (takes (base w)))%nat as Hi.
  { exact (wo_current _ (reached_ok _ _ _ _ _ _ (iv_reached w Hw)) i Hc). }
  destruct (mark_take_goes i name p w Hi) as (G & _ & _ & C).
  apply (quiet_world_inv w); try done; [apply G|by apply G, Hw].
Qed.

(** ** The reachable worlds *)

Notation step := (start_step generation identity stop_limit stats_interval picture_interval setup_limit start_confirmation owner).

Definition start_initial (w : W) : Prop :=
  initial (base w) /\ starting (base w) = None /\ starts w = [] /\ marks w = [] /\ sends w = [].

Inductive start_reached : W -> Prop :=
| start_reached_initial w : start_initial w -> start_reached w
| start_reached_step a w : start_reached w -> start_reached (step a w).

Lemma start_step_inv a (w : W) : world_inv w -> world_inv (step a w).
Proof.
  intros Hw. unfold start_step. destruct (start_task_of a) as [k|] eqn:Ek.
  { destruct (starts w !! k) as [t|] eqn:Hk; [by apply resume_start_inv|done]. }
  destruct a; try done.
  - destruct (of_start a) eqn:Ha; [done|by apply rest_step_inv].
  - destruct (closing (base w)); [done|by apply command_start_inv].
  - destruct (closing (base w)); [done|by apply command_clip_inv].
  - destruct (closing (base w)); [done|by apply command_mark_inv].
  - apply (quiet_world_inv w); try done; [apply calm_refl|apply Hw|]. intros j. unfold upd_start. simpl.
    destruct (decide (j = k)) as [->|Hne]; [|by rewrite list_lookup_alter_ne]. rewrite list_lookup_alter_eq. by destruct (starts w !! k).
  - destruct (marks w !! m) as [t|] eqn:E; [by apply resume_mark_inv|done].
  - destruct (marks w !! m) as [t|] eqn:E; [by apply resume_mark_inv|done].
Qed.

Lemma start_reached_inv (w : W) : start_reached w -> world_inv w.
Proof.
  induction 1 as [w (H & Es & E1 & E2 & E3)|a w _ IH]; [|by apply start_step_inv]. split.
  - by constructor.
  - intros i t. destruct H as (-> & _). done.
  - intros s r. by rewrite Es.
  - intros m t. by rewrite E2.
  - intros k t. by rewrite E1.
  - intros k1 k2 t1 t2. by rewrite E1.
  - rewrite Es, E1. split; [done|]. by intros (k & t & H' & _).
  - rewrite E3. apply NoDup_nil_2.
  - intros k. rewrite E3. intros H0. inversion H0.
Qed.

(** ** What is sent *)

Lemma put_start_sends k t (n : SNext (S := S)) : sends (put_start k t n) = sends (snd n).
Proof. by destruct n as [[p l] w]. Qed.

Lemma mark_ends_sends m t failure (w : W) : sends (mark_ends m t failure w) = sends w.
Proof. by destruct failure. Qed.

Lemma resume_mark_sends a m t (w : W) : sends (resume_mark a m t w) = sends w.
Proof.
  unfold resume_mark. destruct a; try done; destruct (m_pc t) as [[]|]; try done.
  - destruct (guard_chapter _ _ _ _) as [[u|message] b]; [done|].
    exact (mark_ends_sends m t (Some message) (with_base b w)).
  - destruct (plausible _ _); [apply mark_ends_sends|done].
  - destruct (plausible _ _); [apply mark_ends_sends|done].
Qed.

Lemma rest_step_sends a (w : W) : sends (rest_step generation identity stop_limit stats_interval picture_interval a w) = sends w.
Proof. unfold rest_step. cbv zeta. destruct a; try done. by destruct ours. Qed.

Lemma command_start_sends o p clip admitted (w : W) : sends (command_start o p clip admitted w) = sends w.
Proof.
  unfold command_start. pose proof (reserve_start_reserved o admitted w) as R.
  destruct (reserve_start o admitted w) as [[text|] w1]; cbn [fst snd] in R; destruct R as (b & -> & _); [done|by destruct clip].
Qed.

Lemma step_sends a (w : W) :
  world_inv w ->
  sends (step a w) = sends w \/
  exists k t b, starts w !! k = Some t /\ s_pc t = StartSending false /\ guard_start t w = (Ok tt, b)
    /\ sends (step a w) = sends w ++ [k].
Proof.
  intros Hw. unfold start_step. destruct (start_task_of a) as [k|] eqn:Ek.
  - destruct (starts w !! k) as [t|] eqn:Hk; [|by left]. destruct (resume_start_came a k t w Hw Hk) as [|n Ha H|n Ha H|b Hp Hg].
    + by left.
    + left. rewrite put_start_sends. destruct n as [[p l] w']. apply H.
    + left. rewrite put_start_sends. destruct n as [[p l] w']. apply H.
    + right. exists k, t, b. split_and!; done.
  - left. destruct a; try done.
    + destruct (of_start a); [done|apply rest_step_sends].
    + destruct (closing (base w)); [done|apply command_start_sends].
    + destruct (closing (base w)); [done|]. unfold command_clip. cbv zeta. destruct (RecordClip.refusal r); [done|].
      destruct is_cancelled; [done|apply command_start_sends].
    + destruct (closing (base w)); [done|]. unfold command_mark. by destruct (current (base w)).
    + destruct (marks w !! m); [apply resume_mark_sends|done].
    + destruct (marks w !! m); [apply resume_mark_sends|done].
Qed.

(** What the final guard of a start requires *)
Record start_authority (t : StartTask) (w : W) : Prop := {
  sa_open : closed (base w) = false /\ closing (base w) = false;
  sa_wanted : cancelled_before_dispatch w = false;
  sa_policy : fst (permitted "obs-take-start" (object_of []) (s_policy t) (base w)) = Ok tt;
  sa_impact s : starting (base w) = Some s ->
    fst (RecordImpact.check (s_impact s) (borrowed (base w)) (registry (base w))) = RecordImpact.Ready
}.

Lemma guard_start_allows t (w : W) b : current (base w) = None -> guard_start t w = (Ok tt, b) -> start_authority t w.
Proof.
  intros Hc. unfold guard_start. destruct (closed (base w)) eqn:E1; [done|]. destruct (closing (base w)) eqn:E2; [done|]. simpl orb. cbv iota.
  destruct (cancelled_before_dispatch w) eqn:E3; [done|].
  pose proof (permitted_calm "obs-take-start" (object_of []) (s_policy t) (base w)) as [_ T].
  assert (registry (snd (permitted "obs-take-start" (object_of []) (s_policy t) (base w))) = registry (base w)
          /\ borrowed (snd (permitted "obs-take-start" (object_of []) (s_policy t) (base w))) = borrowed (base w)
          /\ starting (snd (permitted "obs-take-start" (object_of []) (s_policy t) (base w))) = starting (base w)) as (R1 & R2 & R3).
  { unfold permitted. by destruct (Control.evaluate _ _ _). }
  destruct (permitted _ _ _ (base w)) as [[[]|e] b1] eqn:E4; [|done]. simpl in *. intros Ha. split; [done|done|by rewrite E4|].
  intros s Es. unfold binding in Ha. rewrite (tm_current _ _ T Hc), R3, Es in Ha. simpl in Ha.
  rewrite R1, R2 in Ha. destruct (RecordImpact.check _ _ _) as [[| |r] reg]; done.
Qed.

(** ** The theorems *)

(** C10: Stops do not notice the starts.  Whatever starts, clips, marks and stops run and in whatever
    order their awaits return, the supervisor only takes steps that [TakeStop] has: every
    reachable world of the supervisor with starts is a reachable world of the supervisor whose
    stops are shown never to replay a request, never to act without authority, never to report
    a stop that was not seen and never to panic. *)
Theorem starts_refine_supervisor (w : W) : start_reached w -> reached (base w).
Proof. intros H. apply (iv_reached w (start_reached_inv w H)). Qed.

(** C6: A recording is started once and with authority.  The step that hands a StartRecord to the
    connection is the final guard of a start that has never sent one; at that moment the
    supervisor is open, the clip is not cancelled, policy allows the start, no take is current,
    the recording-impact registry is ready for the very ticket of the reservation, and the
    reservation carries the durable receipt of this start of this take, on record as being
    dispatched. *)
Theorem start_sent_under_authority (w : W) a :
  start_reached w -> sends (step a w) <> sends w ->
  exists k t s r,
    sends (step a w) = sends w ++ [k] /\ k ∉ sends w /\ starts w !! k = Some t /\ s_pc t = StartSending false
    /\ start_authority t w /\ current (base w) = None
    /\ starting (base w) = Some s /\ s_receipt s = Some r /\ intended (l_id (s_locals t)) r.
Proof.
  intros Hr Hne. pose proof (start_reached_inv w Hr) as Hw.
  destruct (step_sends a w Hw) as [E|(k & t & b & Hk & Hp & Hg & E)]; [done|].
  pose proof (iv_stage w Hw k t Hk) as St. rewrite Hp in St. destruct St as [Hc (s & r & Es & Er & P1 & P2 & P3)].
  exists k, t, s, r. split_and!; try done; [|by eapply guard_start_allows]. apply (not_yet_sent k t w Hw Hk). by rewrite Hp.
Qed.

(** C17: An observed start is true.  A take whose start receipt is on record as observed was reported
    by OBS as started while it was the supervisor's own. *)
Theorem observed_start_is_true (w : W) i t r :
  start_reached w -> takes (base w) !! i = Some t -> start_operation t = Some r ->
  OperationReceipt.phase r = OperationReceipt.Observed -> c_started (continuity t) = true.
Proof. intros Hr H. apply (iv_true w (start_reached_inv w Hr) i t H). Qed.

(** C16: The reservation is never leaked and starts never panic.  There is a reservation exactly when
    one start is between its admission and the end of its core, there is at most one such start,
    and none of the [expect]s a start relies on ever fails. *)
Theorem reservation_is_held (w : W) :
  start_reached w ->
  (starting (base w) <> None <-> exists k t, starts w !! k = Some t /\ active (s_pc t) = true)
  /\ (forall k1 k2 t1 t2, starts w !! k1 = Some t1 -> starts w !! k2 = Some t2 ->
      active (s_pc t1) = true -> active (s_pc t2) = true -> k1 = k2)
  /\ (forall k t, starts w !! k = Some t -> s_pc t <> StartPanicked).
Proof.
  intros Hr. pose proof (start_reached_inv w Hr) as Hw. split; [apply Hw|]. split; [apply Hw|].
  intros k t Hk E. pose proof (iv_stage w Hw k t Hk) as St. by rewrite E in St.
Qed.

(** ** Runs *)

Definition start_run (inputs : list (StartInput (S := S))) (w : W) : W := fold_left (fun w a => step a w) inputs w.

Lemma start_run_reached inputs : forall w, start_reached w -> start_reached (start_run inputs w).
Proof. induction inputs as [|a inputs IH]; intros w H; [done|]. simpl. apply IH. by constructor. Qed.
End Safety.
