(* ===== verification/TakeStore.v ===== *)
(** * The take supervisor writes through the operation store

    The supervisor's store is the facade of [OperationStore]: this instance gives [TakeStop] its
    writer and [TakeStart] its admission, and the laws it relies on are properties of the store's own methods, direct and
    scoped alike. *)
From S2P Require Import TakeStop TakeStart.
From S2P Require Import Prelude Json Serde ReceiptFields Filesystem Store Backend OperationView Broker OperationStore.
From S2P Require OperationReceipt.

Section Writing.
Context {Env : Environment} {Codec : SerdeJson} {Sha : Sha256}.

(** [prepare] and [update] of [takes.rs] on the borrowed store *)
#[export] Instance store_writer : Writer (StoreMode * Broker) := {
  w_prepare id k generation utc take s :=
    let '(r, mode, b) := os_prepare id k generation utc
      {| d_scene_collection := None; d_scene_uuid := None; d_stage_id := None; d_take_id := take |} (fst s) (snd s) in
    (r, (mode, b));
  w_update r u utc s := let '(r, mode, b) := os_update r u utc (fst s) (snd s) in (r, (mode, b))
}.

(** [read_view().admission()] *)
#[export] Instance store_admits : Admits (StoreMode * Broker) := {
  admission_blocks s :=
    match fst (fst (by_mode admission (fun _ => on_store admission) (fst s) (snd s))) with
    | Ok a => Ok (adm_blocking a)
    | Err e => Err e
    end
}.

(** What an action returns when it succeeds *)
Definition m_gives {A} (P : A -> Prop) (m : M A) : Prop := forall s a s', m s = (Ok a, s') -> P a.
Definition b_gives {A} (P : A -> Prop) (m : B A) : Prop := forall b a b', m b = (Ok a, b') -> P a.

Lemma m_gives_ret {A} (P : A -> Prop) a : P a -> m_gives P (ret a).
Proof. by intros H s a' s' [= <- _]. Qed.

Lemma m_gives_bind {A C} (P : C -> Prop) (Q : A -> Prop) (m : M A) k :
  m_gives Q m -> (forall a, Q a -> m_gives P (k a)) -> m_gives P (bind m k).
Proof.
  intros Hm Hk s c s' E. unfold bind in E. destruct (m s) as [[a|e] s1] eqn:Em; [|done].
  by eapply (Hk a (Hm _ _ _ Em)).
Qed.

Lemma m_gives_any {A} (m : M A) : m_gives (fun _ => True) m.
Proof. done. Qed.

Lemma b_gives_ret {A} (P : A -> Prop) a : P a -> b_gives P (bret a).
Proof. by intros H s a' s' [= <- _]. Qed.

Lemma b_gives_bind {A C} (P : C -> Prop) (Q : A -> Prop) (m : B A) k :
  b_gives Q m -> (forall a, Q a -> b_gives P (k a)) -> b_gives P (bbind m k).
Proof.
  intros Hm Hk s c s' E. unfold bbind in E. destruct (m s) as [[a|e] s1] eqn:Em; [|done].
  by eapply (Hk a (Hm _ _ _ Em)).
Qed.

Lemma b_gives_any {A} (m : B A) : b_gives (fun _ => True) m.
Proof. done. Qed.

Lemma b_gives_apply {A} (P : A -> Prop) (m : B A) : b_gives P m -> b_gives P (apply m).
Proof.
  intros H b a b' E. unfold apply in E. destruct (m b) as [[a'|e] b1] eqn:Em.
  - injection E as <- <-. by eapply H.
  - destruct (loses_proof e); [done|]. by destruct (on_store _ b1).
Qed.

Lemma b_gives_on_store {A} (P : A -> Prop) (m : M A) : m_gives P m -> b_gives P (on_store m).
Proof.
  intros H b a b' E. unfold on_store in E. destruct (m (Broker.store b)) as [r s] eqn:Em. injection E as -> <-. by eapply H.
Qed.

Ltac skip_m := eapply m_gives_bind; [apply m_gives_any|intros ? _].
Ltac skip_b := eapply b_gives_bind; [apply b_gives_any|intros ? _].

Definition prepared_as (id : string) (k : OperationReceipt.OperationKind) (generation : Z) (utc : string)
  (details : PrepareDetails) (r : OperationReceipt.OperationReceipt) : Prop :=
  exists e, r = v1_record id k e generation utc details.

Lemma checked_gives record :
  m_gives (fun r => r = record) (lift_result (OperationReceipt.checked record)).
Proof. intros s a s'. unfold lift_result, OperationReceipt.checked. destruct (OperationReceipt.record_valid record); by intros [= <- <-]. Qed.

Lemma prepare_gives id k generation utc details :
  m_gives (prepared_as id k generation utc details) (prepare id k generation utc details).
Proof.
  unfold prepare. do 3 skip_m. eapply m_gives_bind; [apply checked_gives|intros r ->]. skip_m.
  apply m_gives_ret. by eexists.
Qed.

Lemma update_gives r u utc : m_gives (fun r' => r' = OperationReceipt.updated_record r u utc) (Backend.update r u utc).
Proof.
  unfold Backend.update. do 4 skip_m. eapply m_gives_bind; [apply checked_gives|intros r' ->]. skip_m.
  by apply m_gives_ret.
Qed.

Lemma port_prepare_gives port id k generation utc details :
  b_gives (prepared_as id k generation utc details) (port_prepare port id k generation utc details).
Proof.
  unfold port_prepare. apply b_gives_apply. do 6 skip_b.
  eapply b_gives_bind; [apply b_gives_on_store, prepare_gives|intros r Hr]. do 2 skip_b. by apply b_gives_ret.
Qed.

Lemma port_update_gives port r u utc :
  b_gives (fun r' => r' = OperationReceipt.updated_record r u utc) (port_update port r u utc).
Proof. unfold port_update. apply b_gives_apply. skip_b. apply b_gives_on_store, update_gives. Qed.

#[export] Instance store_writer_laws : WriterLaws (StoreMode * Broker).
Proof.
  split.
  - intros id k generation utc take [mode b] r s'. simpl. unfold os_prepare, by_mode.
    set (details := {| d_scene_collection := None; d_scene_uuid := None; d_stage_id := None; d_take_id := take |}).
    destruct mode as [s|port].
    + destruct (prepare id k generation utc details s) as [res s1] eqn:E. intros [= -> _].
      by destruct (prepare_gives id k generation utc details _ _ _ E) as (e & ->).
    + destruct (port_prepare port id k generation utc details b) as [res b1] eqn:E. intros [= -> _].
      by destruct (port_prepare_gives port id k generation utc details _ _ _ E) as (e & ->).
  - intros r u utc [mode b] r' s'. simpl. unfold os_update, by_mode. destruct mode as [s|port].
    + destruct (Backend.update r u utc s) as [res s1] eqn:E. intros [= -> _]. by eapply update_gives.
    + destruct (port_update port r u utc b) as [res b1] eqn:E. intros [= -> _]. by eapply port_update_gives.
Qed.
End Writing.
