(* ===== verification/ReplayEvents.v ===== *)
(** * Saved replays, as events report them

    [native/src/replay_events.rs]: the registry of the subscriptions that wait for the one event
    that says where a replay was saved.  A subscription is armed where its request is handed to
    the socket; the registry is fed by the owner of the socket.  What the session promises of the
    events it publishes is part of the steps ([allowed]).  Locks are never poisoned: nothing that
    holds one panics. *)
From coqutil Require Import Datatypes.RecordSettersUsingExistingGetters.
From S2P Require Import Prelude Json Text.

Definition SLOTS : nat := 8.
Definition MAX_PATH : Z := 4096.

Record Event := { ev_connection : Z; ev_sequence : Z; ev_received : Z; ev_type : string; ev_data : option Value }.

Record Cell := { armed : option (Z * Z); seen : Z; path : option string; issue : option string }.

(** A cell is shared by its slot and its subscription, and named by its place. *)
Record Slot := { sl_id : Z; sl_deadline : Z; sl_cell : nat }.

Record Subscription := { index : nat; id : Z; cell : nat; deadline : Z }.

(** A [candidate], or a [confirm] of what is expected: at the barrier, asking, or answered *)
Inductive AskPc : Type := Barrier (until : Z) | Asking | Answered (r : result string string).

Record Ask := { on : nat; expected : option string; pc : AskPc }.

(** The registry, its subscriptions with the calls on them, and what the session knows *)
Record World := {
  token : Z;
  alive : bool;
  active : bool;
  next : option Z;
  slots : list (option Slot);
  progress : Z;
  cells : list Cell;
  subs : list (option Subscription);
  asks : list Ask;
  invalidated : bool;
  subscribed_bit : bool;
  cursor : Z;
  now : Z;
  log : list Event
}.

Definition new (token cursor now : Z) (subscribed : bool) : World :=
  {| token := token; alive := true; active := true; next := Some 1; slots := repeat None SLOTS; progress := 0;
     cells := []; subs := []; asks := []; invalidated := false; subscribed_bit := subscribed; cursor := cursor;
     now := now; log := [] |}.

Definition view (handle_token : Z) (w : World) : result string unit :=
  if negb (handle_token =? token w) || invalidated w || negb (subscribed_bit w)
  then Err "Replay saved-event observation is unavailable"%string else Ok tt.

Definition contains_nul (s : string) : bool := existsb (Z.eqb 0) (bytes_of s).

(** The path an event reports, when it is one *)
Definition saved_path (e : Event) : option string :=
  opt_filter (fun p => negb (str_is_empty p) && (str_len p <=? MAX_PATH) && negb (contains_nul p))
    (ev_data e >>? get "savedReplayPath" >>? as_str).

Definition in_time (after at_ limit : Z) (e : Event) : bool :=
  negb ((ev_sequence e <=? after) || (ev_received e <? at_) || (limit <? ev_received e)).

(** What a saved event does to the cell of one slot *)
Definition publish_cell (e : Event) (limit : Z) (c : Cell) : Cell :=
  match armed c with
  | None => c
  | Some (after, at_) =>
      if negb (in_time after at_ limit e) then c
      else
        let c := c <| seen ::= fun n => Z.min (Z.min (n + 1) 255) 2 |> in
        if 1 <? seen c then
          c <| path := None |> <| issue := Some "Multiple replay-save events make this observation ambiguous"%string |>
        else
          match saved_path e with
          | Some p => c <| path := Some p |>
          | None => c <| issue := Some "Replay saved event has an invalid or oversized path"%string |>
          end
  end.

Definition occupied (slots : list (option Slot)) : list Slot := omap (fun s => s) slots.

Definition on_cells (f : Slot -> Cell -> Cell) (slots : list (option Slot)) (cells : list Cell) : list Cell :=
  fold_left (fun cells s => alter (f s) (sl_cell s) cells) (occupied slots) cells.

Definition publish (e : Event) (w : World) : World :=
  if negb (active w) || negb (ev_connection e =? token w) then w
  else
    let w := w <| log ::= fun l => l ++ [e] |> in
    let w := if str_eqb (ev_type e) "ReplayBufferSaved"
             then w <| cells ::= on_cells (fun s => publish_cell e (sl_deadline s)) (slots w) |> else w in
    w <| progress := ev_sequence e |>.

Definition revoke (w : World) : World :=
  w <| active := false |>
    <| cells ::= on_cells (fun _ c => c <| issue := Some "Replay observation connection ended"%string |>) (slots w) |>.

Definition fresh_cell : Cell := {| armed := None; seen := 0; path := None; issue := None |}.

Definition not_live (limit : Z) (w : World) : bool := negb (active w) || invalidated w || (limit <=? now w).

(** [position] of the first free slot *)
Fixpoint free_slot (slots : list (option Slot)) : option nat :=
  match slots with
  | [] => None
  | None :: _ => Some O
  | Some _ :: rest => S <$> free_slot rest
  end.

Definition checked_add_u64 (n : Z) : option Z := if n + 1 <? 2 ^ 64 then Some (n + 1) else None.

Definition subscribe (limit : Z) (w : World) : result string nat * World :=
  if negb (alive w) then (Err "Replay observer ended"%string, w)
  else if not_live limit w then (Err "Replay observer is not live"%string, w)
  else
    match free_slot (slots w) with
    | None => (Err "Replay observation capacity exhausted"%string, w)
    | Some i =>
        match next w with
        | None => (Err "Replay observation identity exhausted"%string, w)
        | Some n =>
            let k := length (cells w) in
            (Ok (length (subs w)),
             w <| next := checked_add_u64 n |> <| cells ::= fun c => c ++ [fresh_cell] |>
               <| slots ::= <[i := Some {| sl_id := n; sl_deadline := limit; sl_cell := k |}]> |>
               <| subs ::= fun s => s ++ [Some {| index := i; id := n; cell := k; deadline := limit |}] |>)
        end
    end.

Definition live_sub (k : nat) (w : World) : option Subscription :=
  match subs w !! k with Some (Some s) => Some s | _ => None end.

Definition cell_of (s : Subscription) (w : World) : Cell := match cells w !! cell s with Some c => c | None => fresh_cell end.

Definition arm (s : Subscription) (w : World) : result string unit * World :=
  if negb (alive w) then (Err "Replay observer ended"%string, w)
  else if not_live (deadline s) w then (Err "Replay observer is not live"%string, w)
  else
    match armed (cell_of s w) with
    | Some _ => (Err "Replay observation was already armed; save cannot be replayed"%string, w)
    | None => (Ok tt, w <| cells ::= alter (fun c => c <| armed := Some (cursor w, now w) |>) (cell s) |>)
    end.

Definition observed (s : Subscription) (w : World) : bool := 0 <? seen (cell_of s w).

(** The loop of [candidate] up to its await: [None] waits. *)
Definition candidate (s : Subscription) (w : World) : option (result string string) :=
  if invalidated w || (deadline s <=? now w) then
    Some (Err "Replay saved-event confirmation did not complete before the original deadline"%string)
  else
    match issue (cell_of s w), path (cell_of s w) with
    | Some why, _ => Some (Err why)
    | None, Some p => Some (Ok p)
    | None, None => None
    end.

(** The comparison of [confirm] *)
Definition compared (expected : option string) (r : result string string) : result string string :=
  match expected, r with
  | Some e, Ok p => if str_eqb p e then Ok p else Err "Replay saved-file observation changed"%string
  | _, _ => r
  end.

Definition ask (s : Subscription) (expected : option string) (w : World) : AskPc :=
  match candidate s w with Some r => Answered (compared expected r) | None => Asking end.

(** [while *progress < cursor] *)
Definition barrier (until : Z) (s : Subscription) (expected : option string) (w : World) : AskPc :=
  if progress w <? until then Barrier until else ask s expected w.

Definition begin_ask (k : nat) (s : Subscription) (expected : option string) (w : World) : Ask :=
  {| on := k; expected := expected;
     pc := if negb (alive w) then Answered (Err "Replay observer ended"%string)
           else match expected with Some _ => barrier (cursor w) s expected w | None => ask s expected w end |}.

(** A call wakes by a change of the progress, by its deadline, or by the end of the registry. *)
Inductive Wake : Type := Changed | Deadline | SenderGone.

Definition resume (wake : Wake) (s : Subscription) (a : Ask) (w : World) : Ask :=
  let to p := {| on := on a; expected := expected a; pc := p |} in
  match pc a with
  | Answered _ => a
  | Barrier until =>
      match wake with
      | Changed => to (barrier until s (expected a) w)
      | Deadline => if deadline s <=? now w then to (Answered (Err "Replay observer barrier timed out"%string)) else a
      | SenderGone => to (Answered (Err "Replay observer ended"%string))
      end
  | Asking =>
      match wake with
      | Changed => to (ask s (expected a) w)
      | Deadline => if deadline s <=? now w then to (Answered (Err "Replay saved-event confirmation timed out"%string)) else a
      | SenderGone => to (Answered (Err "Replay observer ended"%string))
      end
  end.

Definition drop_sub (s : Subscription) (w : World) : World :=
  match slots w !! index s with
  | Some (Some sl) => if alive w && (sl_id sl =? id s) then w <| slots ::= <[index s := None]> |> else w
  | _ => w
  end.

Inductive Input : Type :=
| Subscribe (limit : Z)
| Arm (k : nat)
| Publish (e : Event)
| Revoke
| AskFor (k : nat) (expected : option string)
| WakeAsk (j : nat) (wake : Wake)
| DropSub (k : nat)
| RegistryEnds
| Invalidate
| Received (sequence : Z)
| Tick (elapsed : Z).

Definition step (a : Input) (w : World) : World :=
  match a with
  | Subscribe limit => snd (subscribe limit w)
  | Arm k => match live_sub k w with Some s => snd (arm s w) | None => w end
  | Publish e => publish e w
  | Revoke => revoke w
  | AskFor k expected =>
      match live_sub k w with Some s => w <| asks ::= fun l => l ++ [begin_ask k s expected w] |> | None => w end
  | WakeAsk j wake =>
      match asks w !! j with
      | Some a => match live_sub (on a) w with
                  | Some s => w <| asks ::= <[j := resume wake s a w]> |>
                  | None => w
                  end
      | None => w
      end
  | DropSub k =>
      match live_sub k w with
      | Some s => (drop_sub s w) <| subs ::= <[k := None]> |>
      | None => w
      end
  | RegistryEnds => w <| alive := false |>
  | Invalidate => w <| invalidated := true |>
  | Received sequence => if cursor w <=? sequence then w <| cursor := sequence |> else w
  | Tick elapsed => if 0 <=? elapsed then w <| now ::= Z.add elapsed |> else w
  end.

(** The socket's owner publishes what it has received. *)
Definition allowed (a : Input) (w : World) : Prop :=
  match a with Publish e => ev_sequence e <= cursor w | _ => True end.

Inductive reached : World -> Prop :=
| reached_new t c n b : reached (new t c n b)
| reached_step a w : reached w -> allowed a w -> reached (step a w).

(** ** Cells and slots *)

Definition distinct (slots : list (option Slot)) : Prop :=
  forall i j s s', slots !! i = Some (Some s) -> slots !! j = Some (Some s') -> sl_cell s = sl_cell s' -> i = j.

Lemma distinct_tail o slots : distinct (o :: slots) -> distinct slots.
Proof. intros H i j s s' Hi Hj E. by injection (H (S i) (S j) s s' Hi Hj E). Qed.

Lemma on_cells_length f slots : forall cells, length (on_cells f slots cells) = length cells.
Proof.
  unfold on_cells. induction slots as [|[s|] slots IH]; intros cells; [done| |apply IH].
  simpl. etransitivity; [apply IH|apply length_alter].
Qed.

Lemma on_cells_other f slots k : forall cells,
  (forall i s, slots !! i = Some (Some s) -> sl_cell s <> k) -> on_cells f slots cells !! k = cells !! k.
Proof.
  unfold on_cells. induction slots as [|[s|] slots IH]; intros cells H; [done| |].
  - simpl. rewrite IH; [|intros i s'; apply (H (S i))]. apply list_lookup_alter_ne. by apply (H O).
  - simpl. apply IH. intros i s. apply (H (S i)).
Qed.

Lemma on_cells_here f slots i s : forall cells,
  distinct slots -> slots !! i = Some (Some s) -> on_cells f slots cells !! sl_cell s = f s <$> cells !! sl_cell s.
Proof.
  revert i. induction slots as [|o slots IH]; intros i cells Hd Hi; [done|]. destruct i as [|i].
  - injection Hi as ->. change (on_cells f (Some s :: slots) cells) with (on_cells f slots (alter (f s) (sl_cell s) cells)).
    rewrite on_cells_other; [apply list_lookup_alter_eq|]. intros j s' Hj E.
    by specialize (Hd (S j) O s' s Hj eq_refl E).
  - destruct o as [s'|]; [|exact (IH i cells (distinct_tail _ _ Hd) Hi)].
    change (on_cells f (Some s' :: slots) cells) with (on_cells f slots (alter (f s') (sl_cell s') cells)).
    rewrite (IH i _ (distinct_tail _ _ Hd) Hi). f_equal. apply list_lookup_alter_ne. intros E.
    by specialize (Hd (S i) O s s' Hi eq_refl (eq_sym E)).
Qed.

Lemma free_slot_free slots i : free_slot slots = Some i -> slots !! i = Some None.
Proof.
  revert i. induction slots as [|[s|] slots IH]; intros i E; [done| |by injection E as <-].
  simpl in E. destruct (free_slot slots) as [j|]; [|done]. injection E as <-. by apply IH.
Qed.

(** ** What a cell holds *)

(** The saved events a subscription that was armed waits for *)
Definition matching (after at_ limit : Z) (e : Event) : bool :=
  str_eqb (ev_type e) "ReplayBufferSaved" && in_time after at_ limit e.

Definition matches (s : Subscription) (c : Cell) (l : list Event) : list Event :=
  match armed c with
  | Some (after, at_) => List.filter (matching after at_ (deadline s)) l
  | None => []
  end.

Definition cell_ok (s : Subscription) (c : Cell) (l : list Event) : Prop :=
  seen c = Z.min 2 (Z.of_nat (length (matches s c l)))
  /\ (issue c = None ->
      match matches s c l with
      | [] => path c = None
      | [e] => path c = saved_path e /\ saved_path e <> None
      | _ => False
      end).

Record world_ok (w : World) : Prop := {
  ro_length : length (slots w) = SLOTS;
  ro_cells i s : slots w !! i = Some (Some s) -> (sl_cell s < length (cells w))%nat;
  ro_distinct : distinct (slots w);
  ro_subs k s : live_sub k w = Some s ->
    slots w !! index s = Some (Some {| sl_id := id s; sl_deadline := deadline s; sl_cell := cell s |});
  ro_one k1 k2 s1 s2 : live_sub k1 w = Some s1 -> live_sub k2 w = Some s2 -> index s1 = index s2 -> k1 = k2;
  ro_log e : In e (log w) -> ev_sequence e <= cursor w;
  ro_cell k s : live_sub k w = Some s -> cell_ok s (cell_of s w) (log w)
}.

Lemma matches_other s c l e :
  (forall after at_, armed c = Some (after, at_) -> matching after at_ (deadline s) e = false) -> matches s c (l ++ [e]) = matches s c l.
Proof.
  intros H. unfold matches. destruct (armed c) as [[after at_]|]; [|done].
  rewrite List.filter_app. simpl. rewrite (H after at_) by done. apply app_nil_r.
Qed.

(** A saved event is counted, and the only one gives the path. *)
Lemma publish_cell_ok s c l e :
  str_eqb (ev_type e) "ReplayBufferSaved" = true -> cell_ok s c l -> cell_ok s (publish_cell e (deadline s) c) (l ++ [e]).
Proof.
  intros He [Hs Hp]. unfold publish_cell. destruct (armed c) as [[after at_]|] eqn:Ea.
  2: { rewrite <- (matches_other s c l e) in Hs, Hp by (intros; congruence). by split. }
  destruct (in_time after at_ (deadline s) e) eqn:Et; simpl negb; cbv iota.
  2: { assert (matches s c (l ++ [e]) = matches s c l) as E.
       { apply matches_other. intros a b Eb. rewrite Ea in Eb. injection Eb as <- <-. unfold matching. by rewrite He, Et. }
       unfold cell_ok. rewrite E. by split. }
  assert (matches s c (l ++ [e]) = matches s c l ++ [e]) as E.
  { unfold matches. rewrite Ea, List.filter_app. simpl. unfold matching at 2. by rewrite He, Et. }
  set (c1 := c <| seen ::= _ |>). assert (forall c', armed c' = armed c -> matches s c' (l ++ [e]) = matches s c l ++ [e]) as Em.
  { intros c' E'. rewrite <- E. unfold matches. by rewrite E'. }
  assert (seen c1 = Z.min 2 (Z.of_nat (length (matches s c l ++ [e])))) as Es.
  { simpl. rewrite Hs, List.length_app. simpl. lia. }
  cbv zeta. destruct (1 <? seen c1) eqn:El.
  { split; [by rewrite Em|done]. }
  assert (matches s c l = []) as E0.
  { apply Z.ltb_ge in El. rewrite Es, List.length_app in El. destruct (matches s c l) as [|e0 l0]; [done|]. cbn [length] in El. lia. }
  rewrite E0 in *. destruct (saved_path e) as [p|] eqn:Ep; (split; [by rewrite Em|]); intros Hi; rewrite Em by done; simpl.
  - by rewrite Ep.
  - done.
Qed.

(** ** The invariant of the registry *)

Lemma same_ok w w' :
  world_ok w -> slots w' = slots w -> cells w' = cells w -> subs w' = subs w -> log w' = log w -> cursor w <= cursor w' -> world_ok w'.
Proof.
  intros [H1 H2 H3 H4 H5 H6 H7] E1 E2 E3 E4 Hc. unfold live_sub, cell_of in *.
  split; unfold live_sub, cell_of; rewrite ?E1, ?E2, ?E3, ?E4; try done. intros e He. specialize (H6 e He). lia.
Qed.

Lemma new_registry_ok t c n b : world_ok (new t c n b).
Proof.
  assert (forall i s, slots (new t c n b) !! i <> Some (Some s)) as Hn.
  { intros i s H. apply list_elem_of_lookup_2, list_elem_of_In, repeat_spec in H. done. }
  split; try done; try (intros i; intros; exfalso; by eapply Hn).
Qed.

(** A change of the cells that the slots name *)
Lemma cells_ok w f l' c' :
  world_ok w -> cursor w <= c' -> (forall e, In e l' -> ev_sequence e <= c') ->
  (forall k s, live_sub k w = Some s ->
     cell_ok s (f {| sl_id := id s; sl_deadline := deadline s; sl_cell := cell s |} (cell_of s w)) l') ->
  world_ok (w <| cells ::= on_cells f (slots w) |> <| log := l' |> <| cursor := c' |>).
Proof.
  intros [H1 H2 H3 H4 H5 H6 H7] Hc Hl Hf. split; try done.
  - intros i s E. change (sl_cell s < length (on_cells f (slots w) (cells w)))%nat. rewrite on_cells_length. by eapply H2.
  - intros k s E. specialize (Hf k s E). specialize (H4 k s E). unfold cell_of in *.
    change (cells (w <| cells ::= on_cells f (slots w) |> <| log := l' |> <| cursor := c' |>)) with (on_cells f (slots w) (cells w)).
    pose proof (on_cells_here f (slots w) (index s) _ (cells w) H3 H4) as E'. simpl in E'. rewrite E'.
    destruct (lookup_lt_is_Some_2 _ _ (H2 _ _ H4)) as [c Ec]. simpl in Ec. rewrite Ec in *. exact Hf.
Qed.

Lemma publish_ok e w : world_ok w -> ev_sequence e <= cursor w -> world_ok (publish e w).
Proof.
  intros Hw He. unfold publish. destruct (_ || _); [done|]. cbv zeta.
  assert (forall x, In x (log w ++ [e]) -> ev_sequence x <= cursor w) as Hl.
  { intros x Hx. apply in_app_iff in Hx as [Hx|[<-|[]]]; [by apply (ro_log w Hw)|done]. }
  destruct (str_eqb (ev_type e) "ReplayBufferSaved") eqn:Et.
  - pose proof (cells_ok w (fun s => publish_cell e (sl_deadline s)) (log w ++ [e]) (cursor w) Hw (Z.le_refl _) Hl) as H.
    eapply same_ok; [apply H| | | | |]; try done. intros k s E. apply publish_cell_ok; [done|]. by apply (ro_cell w Hw k).
  - destruct Hw as [H1 H2 H3 H4 H5 H6 H7]. split; try done. intros k s E. specialize (H7 k s E).
    change (cell_ok s (cell_of s w) (log w ++ [e])). unfold cell_ok in *. rewrite matches_other; [done|].
    intros. unfold matching. by rewrite Et.
Qed.

Lemma revoke_ok w : world_ok w -> world_ok (revoke w).
Proof.
  intros Hw. unfold revoke. set (f := fun (_ : Slot) (c : Cell) => c <| issue := Some "Replay observation connection ended"%string |>).
  pose proof (cells_ok w f (log w) (cursor w) Hw (Z.le_refl _) (ro_log w Hw)) as H.
  eapply same_ok; [apply H| | | | |]; try done. intros k s E. destruct (ro_cell w Hw k s E) as [Hs _]. by split.
Qed.

Lemma live_sub_app w w' s k x :
  subs w' = subs w ++ [Some s] -> live_sub k w' = Some x -> live_sub k w = Some x \/ k = length (subs w) /\ x = s.
Proof.
  unfold live_sub. intros -> H. destruct (decide (k < length (subs w))%nat) as [Hk|Hk].
  - rewrite lookup_app_l in H by done. by left.
  - destruct ((subs w ++ [Some s]) !! k) as [o|] eqn:E; [|done]. apply lookup_app_Some in E as [E|[Hl E]].
    + apply lookup_lt_Some in E. lia.
    + apply list_lookup_singleton_Some in E as [Hz <-]. injection H as <-. right. split; [lia|done].
Qed.

Lemma subscribe_ok limit w : world_ok w -> world_ok (snd (subscribe limit w)).
Proof.
  intros Hw. unfold subscribe. destruct (negb (alive w)); [done|]. destruct (not_live limit w); [done|].
  destruct (free_slot (slots w)) as [i|] eqn:Ei; [|done]. destruct (next w) as [n|]; [|done]. cbv zeta. simpl snd.
  apply free_slot_free in Ei. destruct Hw as [H1 H2 H3 H4 H5 H6 H7]. set (w1 := _ <| subs ::= _ |>).
  set (s := {| index := i; id := n; cell := length (cells w); deadline := limit |}).
  set (sl := {| sl_id := n; sl_deadline := limit; sl_cell := length (cells w) |}).
  assert (slots w1 = <[i := Some sl]> (slots w)) as Es by done. assert (cells w1 = cells w ++ [fresh_cell]) as Ec by done.
  assert (forall k x, live_sub k w1 = Some x -> live_sub k w = Some x \/ k = length (subs w) /\ x = s) as Hk.
  { intros k x. by apply live_sub_app. }
  assert (forall j x, slots w1 !! j = Some (Some x) -> j <> i /\ slots w !! j = Some (Some x) \/ j = i /\ x = sl) as Hs.
  { intros j x. rewrite Es. destruct (decide (j = i)) as [->|Hne].
    - rewrite list_lookup_insert_eq by by eapply lookup_lt_Some. intros [= <-]. by right.
    - rewrite list_lookup_insert_ne by done. by left. }
  assert (forall k x, live_sub k w = Some x -> index x <> i) as Hne.
  { intros k x E <-. specialize (H4 k x E). congruence. }
  split.
  - rewrite Es. by rewrite length_insert.
  - intros j x E. rewrite Ec, List.length_app. simpl. destruct (Hs j x E) as [[_ E']|[-> ->]]; [specialize (H2 j x E'); lia|simpl; lia].
  - intros j1 j2 x1 x2 E1 E2 E. destruct (Hs j1 x1 E1) as [[_ E1']|[-> ->]], (Hs j2 x2 E2) as [[_ E2']|[-> ->]]; try done.
    + by eapply H3.
    + specialize (H2 j1 x1 E1'). simpl in E. lia.
    + specialize (H2 j2 x2 E2'). simpl in E. lia.
  - intros k x E. rewrite Es. destruct (Hk k x E) as [E'|[-> ->]].
    + rewrite list_lookup_insert_ne by (intros E2; by apply (Hne k x E')). by apply (H4 k).
    + apply list_lookup_insert_eq. by eapply lookup_lt_Some.
  - intros k1 k2 x1 x2 E1 E2 E. destruct (Hk k1 x1 E1) as [E1'|[-> ->]], (Hk k2 x2 E2) as [E2'|[-> ->]]; try done.
    + by eapply H5.
    + by destruct (Hne k1 x1 E1').
    + by destruct (Hne k2 x2 E2').
  - exact H6.
  - intros k x E. change (log w1) with (log w). unfold cell_of. rewrite Ec. destruct (Hk k x E) as [E'|[-> ->]].
    + specialize (H7 k x E'). unfold cell_of in H7. rewrite lookup_app_l; [done|]. exact (H2 _ _ (H4 k x E')).
    + rewrite (list_lookup_middle (cells w) [] fresh_cell) by done. by split.
Qed.

Lemma filter_none {A} (p : A -> bool) l : (forall x, In x l -> p x = false) -> List.filter p l = [].
Proof. intros H. induction l as [|x l IH]; [done|]. simpl. rewrite H by by left. apply IH. intros y Hy. apply H. by right. Qed.

Lemma arm_ok k s w : world_ok w -> live_sub k w = Some s -> world_ok (snd (arm s w)).
Proof.
  intros Hw Hk. unfold arm. destruct (negb (alive w)); [done|]. destruct (not_live _ w); [done|].
  destruct (armed (cell_of s w)) eqn:Ea; [done|]. simpl snd. destruct Hw as [H1 H2 H3 H4 H5 H6 H7].
  set (f := fun c : Cell => _). assert (forall k' s', live_sub k' w = Some s' -> cell s' = cell s -> k' = k) as Hone.
  { intros k' s' Hk' E. apply (H5 k' k s' s Hk' Hk). exact (H3 _ _ _ _ (H4 k' s' Hk') (H4 k s Hk) E). }
  split; try done.
  - intros i x E. simpl. rewrite length_alter. by apply (H2 i).
  - intros k' s' Hk'. change (live_sub k' w = Some s') in Hk'. unfold cell_of.
    change (cells (w <| cells ::= alter f (cell s) |>)) with (alter f (cell s) (cells w)).
    change (log (w <| cells ::= alter f (cell s) |>)) with (log w).
    destruct (decide (cell s' = cell s)) as [E|E].
    + rewrite (Hone k' s' Hk' E) in Hk'. rewrite Hk in Hk'. injection Hk' as <-. rewrite list_lookup_alter_eq.
      pose proof (H7 k s Hk) as [Hs Hp]. unfold cell_of in *. destruct (lookup_lt_is_Some_2 _ _ (H2 _ _ (H4 k s Hk))) as [c Ec].
      simpl in Ec. rewrite Ec in *. simpl fmap.
      assert (matches s (f c) (log w) = []) as Em.
      { apply filter_none. intros e He. specialize (H6 e He). unfold matching, in_time.
        replace (ev_sequence e <=? cursor w) with true by (symmetry; by apply Z.leb_le). by rewrite andb_false_r. }
      assert (matches s c (log w) = []) as E0 by (unfold matches; by rewrite Ea). rewrite E0 in Hs, Hp.
      split; [by rewrite Em|]. rewrite Em. exact Hp.
    + rewrite list_lookup_alter_ne by congruence. by apply (H7 k').
Qed.

Lemma live_sub_drop k k' w s : live_sub k' (w <| subs ::= <[k := None]> |>) = Some s -> k' <> k /\ live_sub k' w = Some s.
Proof.
  unfold live_sub. simpl. destruct (decide (k' = k)) as [->|Hne].
  - destruct (decide (k < length (subs w))%nat) as [Hk|Hk].
    + by rewrite list_lookup_insert_eq.
    + rewrite list_insert_ge by lia. intros H. exfalso. destruct (subs w !! k) eqn:E; [|done]. apply lookup_lt_Some in E. lia.
  - rewrite list_lookup_insert_ne by done. by intros H.
Qed.

Lemma drop_ok k s w : world_ok w -> live_sub k w = Some s -> world_ok ((drop_sub s w) <| subs ::= <[k := None]> |>).
Proof.
  intros Hw Hk. set (w1 := drop_sub s w).
  assert (subs w1 = subs w /\ cells w1 = cells w /\ log w1 = log w /\ cursor w1 = cursor w) as (E1 & E2 & E3 & E4).
  { unfold w1, drop_sub. destruct (slots w !! index s) as [[sl|]|]; try done. by destruct (_ && _). }
  assert (slots w1 = slots w \/ slots w1 = <[index s := None]> (slots w)) as Es.
  { unfold w1, drop_sub. destruct (slots w !! index s) as [[sl|]|]; auto. destruct (_ && _); auto. }
  assert (forall i x, slots w1 !! i = Some (Some x) -> slots w !! i = Some (Some x)) as Hs.
  { intros i x. destruct Es as [->| ->]; [done|]. destruct (decide (i = index s)) as [->|Hne].
    - pose proof (ro_subs w Hw k s Hk) as E. rewrite list_lookup_insert_eq by by eapply lookup_lt_Some. done.
    - by rewrite list_lookup_insert_ne. }
  assert (forall k' x, live_sub k' (w1 <| subs ::= <[k := None]> |>) = Some x -> k' <> k /\ live_sub k' w = Some x) as Hl.
  { intros k' x H. apply live_sub_drop in H as [Hne H]. split; [done|]. unfold live_sub in *. by rewrite E1 in H. }
  destruct Hw as [H1 H2 H3 H4 H5 H6 H7]. clearbody w1. split.
  - change (length (slots w1) = SLOTS). destruct Es as [->| ->]; [done|]. by rewrite length_insert.
  - intros i x E. change (sl_cell x < length (cells w1))%nat. rewrite E2. by eapply H2, Hs.
  - intros i j x y Ei Ej. apply (H3 i j x y); by apply Hs.
  - intros k' x E. destruct (Hl k' x E) as [Hne E']. specialize (H4 k' x E').
    change (slots w1 !! index x = Some (Some {| sl_id := id x; sl_deadline := deadline x; sl_cell := cell x |})).
    destruct Es as [->| ->]; [done|]. rewrite list_lookup_insert_ne; [done|]. intros Ei. apply Hne, (H5 k' k x s E' Hk). done.
  - intros k1 k2 x y Ex Ey. destruct (Hl k1 x Ex) as [_ Ex'], (Hl k2 y Ey) as [_ Ey']. by apply H5.
  - intros e He. change (In e (log w1)) in He. change (ev_sequence e <= cursor w1). rewrite E3 in He. rewrite E4. by apply H6.
  - intros k' x E. destruct (Hl k' x E) as [_ E']. specialize (H7 k' x E'). unfold cell_of in *.
    change (cell_ok x (match cells w1 !! cell x with Some c => c | None => fresh_cell end) (log w1)). by rewrite E2, E3.
Qed.

Lemma registry_step_ok a w : world_ok w -> allowed a w -> world_ok (step a w).
Proof.
  intros Hw Ha. destruct a; simpl.
  - by apply subscribe_ok.
  - destruct (live_sub k w) as [s|] eqn:E; [by apply (arm_ok k)|done].
  - by apply publish_ok.
  - by apply revoke_ok.
  - destruct (live_sub k w); [|done]. by eapply same_ok.
  - destruct (asks w !! j) as [a|]; [|done]. destruct (live_sub (on a) w); [|done]. by eapply same_ok.
  - destruct (live_sub k w) as [s|] eqn:E; [by apply drop_ok|done].
  - by eapply same_ok.
  - by eapply same_ok.
  - destruct (cursor w <=? sequence) eqn:E; [|done]. apply Z.leb_le in E. by eapply same_ok.
  - destruct (0 <=? elapsed); [|done]. by eapply same_ok.
Qed.

Lemma registry_reached_ok w : reached w -> world_ok w.
Proof. induction 1; [apply new_registry_ok|by apply registry_step_ok]. Qed.

(** ** The theorems *)

(** One saved event, and no other, that came after the subscription was armed and in time *)
Definition only_save (s : Subscription) (p : string) (w : World) : Prop :=
  exists after at_ e,
    armed (cell_of s w) = Some (after, at_) /\ List.filter (matching after at_ (deadline s)) (log w) = [e]
    /\ saved_path e = Some p /\ now w < deadline s /\ invalidated w = false.

Lemma candidate_only k s w p :
  world_ok w -> live_sub k w = Some s -> candidate s w = Some (Ok p) -> only_save s p w.
Proof.
  intros Hw Hk. unfold candidate. destruct (invalidated w) eqn:Ei; [done|]. simpl orb.
  destruct (deadline s <=? now w) eqn:Ed; [done|]. destruct (issue (cell_of s w)) eqn:Es; [done|].
  destruct (path (cell_of s w)) as [p'|] eqn:Ep; [|done]. intros [= ->]. destruct (ro_cell w Hw k s Hk) as [_ H].
  specialize (H Es). unfold matches in H. rewrite Ep in H. destruct (armed (cell_of s w)) as [[after at_]|] eqn:Ea; [|done].
  destruct (List.filter _ (log w)) as [|e [|]] eqn:Ef; [done| |done]. destruct H as [H _].
  exists after, at_, e. split_and!; try done. by apply Z.leb_gt.
Qed.

Lemma saved_path_valid e p : saved_path e = Some p -> p <> EmptyString /\ str_len p <= MAX_PATH /\ contains_nul p = false.
Proof.
  unfold saved_path, opt_filter. destruct (_ >>? as_str) as [x|]; [|done]. destruct (_ && _) eqn:E; [|done]. intros [= ->].
  rewrite !andb_true_iff, !negb_true_iff in E. destruct E as [[E1 E2] E3]. split_and!; [by intros ->|by apply Z.leb_le|done].
Qed.

(** What a call that has its answer was told *)
Definition told (s : Subscription) (expected : option string) (p : string) (w : World) : Prop :=
  only_save s p w /\ (forall x, expected = Some x -> p = x).

Lemma ask_told k s expected w p : world_ok w -> live_sub k w = Some s -> ask s expected w = Answered (Ok p) -> told s expected p w.
Proof.
  intros Hw Hk. unfold ask. destruct (candidate s w) as [[q|e]|] eqn:Ec; [|by destruct expected|done].
  destruct expected as [x|]; simpl.
  - destruct (str_eqb q x) eqn:Eq; intros [= ->]. apply str_eqb_eq in Eq as <-. split; [by eapply candidate_only|congruence].
  - intros [= ->]. split; [by eapply candidate_only|done].
Qed.

Lemma barrier_told k until s expected w p :
  world_ok w -> live_sub k w = Some s -> barrier until s expected w = Answered (Ok p) -> told s expected p w /\ until <= progress w.
Proof.
  intros Hw Hk. unfold barrier. destruct (progress w <? until) eqn:E; [done|]. intros H. apply Z.ltb_ge in E.
  split; [by eapply ask_told|done].
Qed.

Lemma begun_told k s expected w p :
  world_ok w -> live_sub k w = Some s -> pc (begin_ask k s expected w) = Answered (Ok p) -> told s expected p w.
Proof.
  intros Hw Hk Hp. unfold begin_ask in Hp. simpl in Hp. destruct (negb (alive w)); [done|]. destruct expected as [x|].
  - by apply (barrier_told k) in Hp as [H _].
  - by apply (ask_told k) in Hp.
Qed.

Lemma resume_same wake s q w : on (resume wake s q w) = on q /\ expected (resume wake s q w) = expected q.
Proof. unfold resume. destruct (pc q), wake; try done; by destruct (deadline s <=? now w). Qed.

Lemma resumed_told wake s q w p :
  world_ok w -> live_sub (on q) w = Some s -> pc (resume wake s q w) = Answered (Ok p) ->
  resume wake s q w = q \/ told s (expected q) p w /\ (forall until, pc q = Barrier until -> until <= progress w).
Proof.
  intros Hw Hk. unfold resume. destruct (pc q) as [until| |r] eqn:Eq; [| |by left].
  - destruct wake; simpl; [|by destruct (deadline s <=? now w); [done|left]|done]. intros H.
    apply (barrier_told (on q)) in H as [H Hb]; [|done|done]. right. split; [done|]. by intros u [= <-].
  - destruct wake; simpl; [|by destruct (deadline s <=? now w); [done|left]|done]. intros H.
    apply (ask_told (on q)) in H; [|done|done]. by right.
Qed.

(** Calls are answered only where they begin or wake. *)
Lemma asks_unchanged a w : match a with AskFor _ _ | WakeAsk _ _ => False | _ => True end -> asks (step a w) = asks w.
Proof.
  intros Ha. destruct a; try done; simpl.
  - unfold subscribe. destruct (negb (alive w)); [done|]. destruct (not_live limit w); [done|].
    destruct (free_slot (slots w)); [|done]. by destruct (next w).
  - destruct (live_sub k w) as [s|]; [|done]. unfold arm. destruct (negb (alive w)); [done|].
    destruct (not_live _ w); [done|]. by destruct (armed _).
  - unfold publish. destruct (_ || _); [done|]. by destruct (str_eqb _ _).
  - destruct (live_sub k w) as [s|]; [|done]. unfold drop_sub. destruct (slots w !! index s) as [[sl|]|]; try done. by destruct (_ && _).
  - by destruct (cursor w <=? sequence).
  - by destruct (0 <=? elapsed).
Qed.

(** C19: A saved file is confirmed by exactly one event.  When a call on a subscription is answered with
    a path, the registry has taken in exactly one saved event of its connection that the session
    received after the subscription was armed and before its deadline, that event names the path,
    the path is not empty, not too long and has no zero byte, and the connection and the deadline
    still stood; a confirmation was answered with the path it expects, after the registry had
    caught up with everything the session had received when the confirmation began. *)
Theorem saved_replay_is_unambiguous a w j q p :
  reached w -> asks (step a w) !! j = Some q -> pc q = Answered (Ok p) -> asks w !! j <> Some q ->
  exists s, live_sub (on q) w = Some s /\ only_save s p w /\ (forall x, expected q = Some x -> p = x)
    /\ p <> EmptyString /\ str_len p <= MAX_PATH /\ contains_nul p = false
    /\ (forall q0 until, asks w !! j = Some q0 -> pc q0 = Barrier until -> until <= progress w).
Proof.
  intros Hr Hq Hp Hne. pose proof (registry_reached_ok w Hr) as Hw.
  assert (forall s, live_sub (on q) w = Some s -> told s (expected q) p w ->
    (forall q0 until, asks w !! j = Some q0 -> pc q0 = Barrier until -> until <= progress w) ->
    exists s, live_sub (on q) w = Some s /\ only_save s p w /\ (forall x, expected q = Some x -> p = x)
      /\ p <> EmptyString /\ str_len p <= MAX_PATH /\ contains_nul p = false
      /\ (forall q0 until, asks w !! j = Some q0 -> pc q0 = Barrier until -> until <= progress w)) as Hend.
  { intros s Hk [Ho He] Hb. exists s. destruct Ho as (after & at_ & e & A & F & P & R) eqn:Eo.
    pose proof (saved_path_valid e p P) as (V1 & V2 & V3). split_and!; try done. }
  destruct a as [| | | |k expected0|j0 wake| | | | |]; try (destruct Hne; by rewrite <- Hq, asks_unchanged); simpl in Hq.
  - destruct (live_sub k w) as [s|] eqn:Hk; [|done]. simpl in Hq. apply lookup_app_Some in Hq as [Hq|[Hl Hq]]; [done|].
    apply list_lookup_singleton_Some in Hq as [Hz <-]. apply (Hend s Hk); [by apply (begun_told k)|].
    intros q0 until E. apply lookup_lt_Some in E. lia.
  - destruct (asks w !! j0) as [q0|] eqn:E0; [|done]. destruct (live_sub (on q0) w) as [s|] eqn:Hk; [|done]. simpl in Hq.
    destruct (decide (j = j0)) as [->|Hj]; [|by rewrite list_lookup_insert_ne in Hq].
    rewrite list_lookup_insert_eq in Hq by by eapply lookup_lt_Some. injection Hq as <-.
    destruct (resume_same wake s q0 w) as [O1 O2]. rewrite O1 in *. rewrite O2 in *.
    destruct (resumed_told wake s q0 w p Hw Hk Hp) as [Hd|[Ht Hb]]; [by destruct Hne; rewrite Hd|].
    apply (Hend s Hk Ht). intros q1 u E1. rewrite E0 in E1. injection E1 as <-. apply Hb.
Qed.

(** ** Runs *)

Fixpoint fair (l : list Input) (w : World) : bool :=
  match l with
  | [] => true
  | a :: l => match a with Publish e => ev_sequence e <=? cursor w | _ => true end && fair l (step a w)
  end.

Definition run (l : list Input) (w : World) : World := fold_left (fun w a => step a w) l w.

Lemma run_reached_fair l : forall w, reached w -> fair l w = true -> reached (run l w).
Proof.
  induction l as [|a l IH]; intros w Hr Hf; [done|]. simpl in Hf. apply andb_true_iff in Hf as [Ha Hf].
  apply IH; [|done]. apply reached_step; [done|]. destruct a; try done. by apply Z.leb_le.
Qed.

(** ** A save that is confirmed *)

Module ReplaySample.
Definition saved (sequence : Z) : Event :=
  {| ev_connection := 7; ev_sequence := sequence; ev_received := 20; ev_type := "ReplayBufferSaved";
     ev_data := Some (object_of [("savedReplayPath", str "/replays/a.mkv")]) |}.

Definition play (l : list Input) : World := run l (new 7 3 10 true).

(** An event from before the request, and the one of the request *)
Definition before : list Input :=
  [Subscribe 100; Received 4; Arm 0; Publish (saved 4); Tick 10; Received 5; AskFor 0 (Some "/replays/a.mkv"%string);
   Publish (saved 5)].

Lemma before_reached : reached (play before).
Proof. apply run_reached_fair; [apply reached_new|by vm_compute]. Qed.
End ReplaySample.

Lemma saved_replay_is_unambiguous_witness :
  exists s, live_sub 0 (ReplaySample.play ReplaySample.before) = Some s
            /\ only_save s "/replays/a.mkv" (ReplaySample.play ReplaySample.before).
Proof.
  destruct (asks (step (WakeAsk 0 Changed) (ReplaySample.play ReplaySample.before)) !! 0%nat) as [q|] eqn:Hq;
    [|vm_compute in Hq; discriminate].
  assert (q = {| on := 0; expected := Some "/replays/a.mkv"%string; pc := Answered (Ok "/replays/a.mkv"%string) |}) as ->.
  { vm_compute in Hq. injection Hq as <-. reflexivity. }
  destruct (saved_replay_is_unambiguous (WakeAsk 0 Changed) (ReplaySample.play ReplaySample.before) 0 _ "/replays/a.mkv"
    ReplaySample.before_reached Hq eq_refl) as (s & Hs & Ho & _); [vm_compute; discriminate|].
  exists s. exact (conj Hs Ho).
Defined.

(** A second save makes the observation ambiguous. *)
Example second_save_is_ambiguous :
  let w := ReplaySample.play (ReplaySample.before ++ [Received 6; Publish (ReplaySample.saved 6); WakeAsk 0 Changed]) in
  pc <$> asks w !! 0%nat = Some (Answered (Err "Multiple replay-save events make this observation ambiguous"%string)).
Proof. vm_compute. reflexivity. Qed.
