(* ===== verification/OutputStart.v ===== *)
(** * Starting an output and confirming it ([src/output_start_v2.rs])

    [execute]: subscribe to the output's events, send the request that starts it, tell the owner
    of the receipt that it was accepted, wait for the first terminal event, and ask for the status
    when there was none.  It awaits the answer of the start, each turn of [receive] and the answer
    of the status; what lies between two of them is one step of [Task], and between the steps
    anybody else may use the registry of output events ([OutputEvents]).  What the requests answer
    is an input.  [effects] is the order of what the call did. *)
From S2P Require Import Prelude Json Control Number Observed OutputEvents.

Inductive RpcFate := RpcNotDispatched | RpcRejected (code : Z) | RpcUnknown.
Inductive TransportFate := NotDispatched | Rejected (code : Z) | Unknown | Accepted.

Definition transport_fate (fate : RpcFate) : TransportFate :=
  match fate with
  | RpcNotDispatched => NotDispatched
  | RpcRejected code => Rejected code
  | RpcUnknown => Unknown
  end.

Record RpcFailure := { rf_fate : RpcFate; rf_message : string }.

Record Definition_ := { label : string; request_type : string; timeout : Z }.

Definition seconds (n : Z) : Z := n * 1000000000.

Definition definition (kind : OutputKind) : Definition_ :=
  match kind with
  | Record_ => {| label := "Recording"; request_type := "StartRecord"; timeout := seconds 5 |}
  | Stream => {| label := "Streaming"; request_type := "StartStream"; timeout := seconds 15 |}
  | VirtualCam => {| label := "Virtual camera"; request_type := "StartVirtualCam"; timeout := seconds 5 |}
  | ReplayBuffer => {| label := "Replay buffer"; request_type := "StartReplayBuffer"; timeout := seconds 5 |}
  end.

Record Timing := { operation_deadline : Z; confirmation_timeout : Z; rpc_timeout : Z }.

Definition source (kind : OutputKind) (operation_deadline : Z) : Timing :=
  {| operation_deadline := operation_deadline; confirmation_timeout := timeout (definition kind);
     rpc_timeout := seconds 10 |}.

Inductive Unconfirmed := UStopped | UConfirmationExpired.

Inductive Detail :=
| InvalidTiming
| OperationDeadline
| Registration (error : OutputEventError)
| RequestFailed (fate : RpcFate)
| AckHookFailed
| ObservationUnavailable (error : OutputEventError)
| StartedEvent
| ActiveStatus
| NotConfirmed (reason : Unconfirmed) (status_failure : option RpcFate).

Record Execution := { fate : TransportFate; detail : Detail; body_ : Value }.

Definition body (text : string) (is_error : bool) : Value :=
  object_of ([("content", Array [object_of [("type", str "text"); ("text", Str text)]])]
             ++ if is_error then [("isError", Bool true)] else []).

Definition is_error (e : Execution) : bool := negb (is_none (get "isError" (body_ e))).

Definition execution (f : TransportFate) (d : Detail) (text : string) (error : bool) : Execution :=
  {| fate := f; detail := d; body_ := body text error |}.

(** [Display] of [OutputEventError] *)
Definition error_text (e : OutputEventError) : string :=
  "Output observation " +:+
  match e with
  | Capacity => "Capacity"
  | ByteCapacity => "ByteCapacity"
  | PathTooLarge => "PathTooLarge"
  | IdentityExhausted => "IdentityExhausted"
  | IncompleteEvents => "IncompleteEvents"
  | Unavailable => "Unavailable"
  | Revoked => "Revoked"
  | ConfirmationExpired => "ConfirmationExpired"
  | SettlementUnavailable => "SettlementUnavailable"
  end.

Definition rpc_deadline (timing : Timing) (now : Z) : option Z :=
  if operation_deadline timing <=? now then None
  else Some (match instant_checked_add now (rpc_timeout timing) with
             | Some deadline => Z.min deadline (operation_deadline timing)
             | None => operation_deadline timing
             end).

(** What the call did, in order *)
Inductive Effect :=
| Subscribed (registered deadline : Z)
| Dispatched (deadline : Z)
| Acknowledged
| Refused (fate : RpcFate)
| Hooked (ok : bool)
| Asked (deadline : Z)
| Answered (status : result RpcFailure Value).

Inductive Task :=
| Entering
| Starting (sub : OutputSubscription)
| Receiving (sub : OutputSubscription) (cutoff : option Z)
| Asking (reason : Unconfirmed)
| Done (e : Execution).

Record World := {
  registry : Registry;
  published : list ObsEvent;
  task : Task;
  effects : list Effect
}.

(** [confirmation_timeout.as_secs_f64()] *)
Definition timeout_seconds (timing : Timing) : f64 :=
  f64_add (f64_of_Z (confirmation_timeout timing / 1000000000))
    (f64_div (f64_of_Z (confirmation_timeout timing mod 1000000000)) (f64_of_Z 1000000000)).

Section Execute.
Context {Lib : F64Library} (kind : OutputKind) (timing : Timing).

Definition def : Definition_ := definition kind.

Definition unavailable (error : OutputEventError) : Execution :=
  execution Accepted (ObservationUnavailable error)
    (join "" ["OBS accepted "; request_type def; ", but native output confirmation is unavailable (";
              error_text error; "). Inspect current output state before any further production change; do not automatically retry the start."])
    true.

Definition failed (why : string) : string := label def +:+ " failed to start: " +:+ why.

Definition expired_before : Execution :=
  execution NotDispatched OperationDeadline (failed "Operation deadline expired before dispatch") true.

(** From the call to the dispatch of the start, with the readings of the clock on entry, in
    [subscribe] and before the dispatch *)
Definition enter (now registered dispatched : Z) (alive : bool) (h : Handle) (r : Registry)
  : Task * Registry * list Effect :=
  if operation_deadline timing <=? now then (Done expired_before, r, [])
  else
    match opt_filter (fun _ => negb (confirmation_timeout timing =? 0) && negb (rpc_timeout timing =? 0))
            (instant_checked_add now (confirmation_timeout timing)) with
    | None => (Done (execution NotDispatched InvalidTiming (failed "Invalid native output timing") true), r, [])
    | Some confirmation_deadline =>
        match subscribe alive h kind confirmation_deadline registered r with
        | (Err error, r) =>
            (Done (execution NotDispatched (Registration error)
                     (failed (join "" ["Native output observation registration unavailable ("; error_text error; ")"]))
                     true), r, [])
        | (Ok sub, r) =>
            match rpc_deadline timing dispatched with
            | None => (Done expired_before, drop_subscription sub r, [Subscribed registered confirmation_deadline])
            | Some deadline => (Starting sub, r, [Subscribed registered confirmation_deadline; Dispatched deadline])
            end
        end
    end.

(** The start answered; [hook] is what the owner of the receipt says to an acceptance. *)
Definition answered (sub : OutputSubscription) (answer : result RpcFailure unit) (hook : result string unit)
    (r : Registry) : Task * Registry * list Effect :=
  match answer with
  | Err error =>
      (Done (execution (transport_fate (rf_fate error)) (RequestFailed (rf_fate error))
               (failed (rf_message error)) true), drop_subscription sub r, [Refused (rf_fate error)])
  | Ok _ =>
      match hook with
      | Err message =>
          (Done (execution Accepted AckHookFailed (failed message) true), drop_subscription sub r,
           [Acknowledged; Hooked false])
      | Ok _ => (Receiving sub None, r, [Acknowledged; Hooked true])
      end
  end.

Definition started_text (event : OutputEvent) : string :=
  match opt_filter (fun p => negb (str_is_empty p)) (path event) with
  | None => label def +:+ " started"
  | Some p => join "" [label def; " started, writing to: "; p]
  end.

(** The fallback on the status *)
Definition ask (reason : Unconfirmed) (now : Z) (r : Registry) : Task * Registry * list Effect :=
  match rpc_deadline timing now with
  | None =>
      (Done (execution Accepted OperationDeadline
               (join "" ["OBS accepted "; request_type def;
                         ", but the native operation deadline ended before fallback status could be inspected. Inspect current output state; do not automatically retry the start."])
               true), r, [])
  | Some deadline => (Asking reason, r, [Asked deadline])
  end.

(** What [receive] returned; its event lives until the result is built. *)
Definition received (v : result OutputEventError OutputEvent) (now : Z) (r : Registry)
  : Task * Registry * list Effect :=
  match v with
  | Ok event =>
      match terminal event with
      | Started => (Done (execution Accepted StartedEvent (started_text event) false), drop_event 0 r, [])
      | Stopped => ask UStopped now (drop_event 0 r)
      end
  | Err ConfirmationExpired => ask UConfirmationExpired now r
  | Err error => (Done (unavailable error), r, [])
  end.

Definition turn (sub : OutputSubscription) (cutoff : option Z) (alive : bool) (h : Handle) (now after : Z)
    (r : Registry) : Task * Registry * list Effect :=
  match receive_turn sub (operation_deadline timing) cutoff alive h now r with
  | (Return v, r) => received v after r
  | (Wait cutoff _, r) => (Receiving sub cutoff, r, [])
  end.

Definition closed (sub : OutputSubscription) (after : Z) (r : Registry) : Task * Registry * list Effect :=
  match receive_closed sub r with
  | (Return v, r) => received v after r
  | (Wait cutoff _, r) => (Receiving sub cutoff, r, [])
  end.

Definition is_active (status : result RpcFailure Value) : bool :=
  match status with
  | Ok status => is_object status && is_some_and (get "outputActive" status) (fun v => value_eqb v (Bool true))
  | Err _ => false
  end.

Definition why (reason : Unconfirmed) : string :=
  match reason with
  | UStopped => "OBS stopped the output immediately after starting it"
  | UConfirmationExpired =>
      join "" ["the output did not become active within "; Observed.js_string (Some (Num (Float (timeout_seconds timing)))); "s"]
  end.

Definition concluded (reason : Unconfirmed) (status : result RpcFailure Value) (r : Registry)
  : Task * Registry * list Effect :=
  if is_active status then
    (Done (execution Accepted ActiveStatus (label def +:+ " started") false), r, [Answered status])
  else
    (Done (execution Accepted
             (NotConfirmed reason (match status with Err error => Some (rf_fate error) | Ok _ => None end))
             (join "" ["OBS accepted "; request_type def; ", but "; why reason;
                       ". OBS may be showing an error dialog that blocks further output requests until it is dismissed. If output settings were changed with obs-set-profile-parameter, restart OBS so it rebuilds its outputs."])
             true), r, [Answered status]).

(** ** Every interleaving *)

(** The subscription the call holds *)
Definition own (t : Task) : option Z :=
  match t with
  | Starting sub | Receiving sub _ => Some (id sub)
  | _ => None
  end.

(** What others do to the registry beside publishing: nobody else has the subscription. *)
Inductive elsewhere (mine : option Z) : Registry -> Registry -> Prop :=
| else_revoke r : elsewhere mine r (revoke r)
| else_subscribe alive h k deadline now r : elsewhere mine r (snd (subscribe alive h k deadline now r))
| else_receive i slot settlement cutoff alive h now r :
    slots r !! i = Some (Some slot) -> mine <> Some (slot_id slot) ->
    elsewhere mine r (snd (receive_turn (subscription_at i slot) settlement cutoff alive h now r))
| else_closed i slot r :
    slots r !! i = Some (Some slot) -> mine <> Some (slot_id slot) ->
    elsewhere mine r (snd (receive_closed (subscription_at i slot) r))
| else_drop i slot r :
    slots r !! i = Some (Some slot) -> mine <> Some (slot_id slot) ->
    elsewhere mine r (drop_subscription (subscription_at i slot) r)
| else_drop_event i r : elsewhere mine r (drop_event i r).

Definition advance (w : World) (x : Task * Registry * list Effect) : World :=
  let '(t, r, l) := x in
  {| registry := r; published := published w; task := t; effects := effects w ++ l |}.

Definition with_registry (w : World) (r : Registry) : World :=
  {| registry := r; published := published w; task := task w; effects := effects w |}.

(** The answers of the requests and of the hook and the readings of the clock are free. *)
Inductive move : World -> World -> Prop :=
| move_elsewhere w r : elsewhere (own (task w)) (registry w) r -> move w (with_registry w r)
| move_publish w e :
    move w {| registry := publish e (registry w); published := e :: published w; task := task w;
              effects := effects w |}
| move_enter w now registered dispatched alive h :
    task w = Entering -> now <= registered <= dispatched ->
    move w (advance w (enter now registered dispatched alive h (registry w)))
| move_started w sub answer hook :
    task w = Starting sub -> move w (advance w (answered sub answer hook (registry w)))
| move_turn w sub cutoff alive h now after :
    task w = Receiving sub cutoff ->
    move w (advance w (turn sub cutoff alive h now after (registry w)))
| move_closed w sub cutoff after :
    task w = Receiving sub cutoff -> move w (advance w (closed sub after (registry w)))
| move_status w reason status :
    task w = Asking reason -> move w (advance w (concluded reason status (registry w))).

Definition called (r : Registry) : World :=
  {| registry := r; published := []; task := Entering; effects := [] |}.

Definition runs (w : World) : Prop := exists r, OutputEvents.reachable r /\ rtc move (called r) w.

(** ** The invariant *)

(** The event in a cell is one that was published during the call, of this output and of the
    registry's connection, received between the registration and the confirmation deadline. *)
Definition observed (token : Z) (slot : Slot) (l : list ObsEvent) (event : OutputEvent) : Prop :=
  exists e, In e l /\ from_event (event_type e) = Some kind /\ terminal_of e = Some (terminal event)
            /\ e_connection e = token /\ eligible e kind slot = true
            /\ event = projected e (terminal event) (path_of e (terminal event)).

(** The subscription is registered and its cell holds nothing else. *)
Definition subscribed (sub : OutputSubscription) (at_ : Z) (r : Registry) (l : list ObsEvent) : Prop :=
  exists slot, slots r !! index sub = Some (Some slot) /\ slot_id slot = id sub
    /\ confirmation_deadline slot = sub_deadline sub /\ registered_at slot = at_ /\ OutputEvents.kind slot = kind
    /\ forall event, cells r !! id sub = Some (Ready (Ok event)) -> observed (token r) slot l event.

Definition in_time (deadline : Z) : Prop := deadline <= operation_deadline timing.

(** The window in which an event confirms the start *)
Definition window (registered deadline : Z) : Prop := deadline <= registered + confirmation_timeout timing.

Definition says_active (status : result RpcFailure Value) : Prop :=
  exists fields, status = Ok (Object fields) /\ field "outputActive" fields = Some (Bool true).

(** A result and the effects before it *)
Definition truthful (tok : Z) (l : list ObsEvent) (done : list Effect) (e : Execution) : Prop :=
  match done with
  | [] | [Subscribed _ _] => fate e = NotDispatched /\ is_error e = true
  | Subscribed a c :: Dispatched d :: done =>
      window a c /\ in_time d /\
      match done with
      | [Refused f] => fate e = transport_fate f /\ is_error e = true
      | [Acknowledged; Hooked false] => fate e = Accepted /\ is_error e = true
      | [Acknowledged; Hooked true] =>
          fate e = Accepted
          /\ (is_error e = false ->
                detail e = StartedEvent
                /\ exists slot event, registered_at slot = a /\ confirmation_deadline slot = c
                                      /\ terminal event = Started /\ observed tok slot l event)
      | [Acknowledged; Hooked true; Asked d'; Answered status] =>
          in_time d' /\ fate e = Accepted
          /\ (is_error e = false <-> says_active status)
          /\ (is_error e = false -> detail e = ActiveStatus)
      | _ => False
      end
  | _ => False
  end.

Definition sound (w : World) : Prop :=
  OutputEvents.reachable (registry w) /\
  match task w with
  | Entering => effects w = []
  | Starting sub =>
      exists a d, subscribed sub a (registry w) (published w) /\ window a (sub_deadline sub)
        /\ effects w = [Subscribed a (sub_deadline sub); Dispatched d] /\ in_time d
  | Receiving sub _ =>
      exists a d, subscribed sub a (registry w) (published w) /\ window a (sub_deadline sub)
        /\ effects w = [Subscribed a (sub_deadline sub); Dispatched d; Acknowledged; Hooked true] /\ in_time d
  | Asking _ =>
      exists a c d d', window a c /\ in_time d /\ in_time d'
        /\ effects w = [Subscribed a c; Dispatched d; Acknowledged; Hooked true; Asked d']
  | Done e => truthful (token (registry w)) (published w) (effects w) e
  end.

Lemma error_flag f d text b : is_error (execution f d text b) = b.
Proof. by destruct b. Qed.

(** ** The registry under a step *)

Lemma reachable_step r r' : OutputEvents.reachable r -> step r r' -> OutputEvents.reachable r'.
Proof. intros (t & H) S. exists t. by eapply rtc_r. Qed.

Lemma elsewhere_step mine r r' : elsewhere mine r r' -> step r r'.
Proof. destruct 1; by constructor. Qed.

Lemma drop_token sub r : token (drop_subscription sub r) = token r.
Proof.
  unfold drop_subscription, unregister. repeat case_match; done.
Qed.

Lemma take_token n r v r' : take_cell n r = (v, r') -> token r' = token r.
Proof. unfold take_cell. intros H. repeat case_match; by simplify_eq. Qed.

Lemma return_token sub v r : token (snd (return_with sub v r)) = token r.
Proof. apply drop_token. Qed.

Lemma turn_token sub st cutoff alive h now r : token (snd (receive_turn sub st cutoff alive h now r)) = token r.
Proof.
  unfold receive_turn. destruct (take_cell (id sub) r) as [[v|] r1] eqn:E1; apply take_token in E1 as T.
  - by rewrite return_token.
  - apply take_none in E1 as ->. destruct (_ || _); [apply return_token|]. cbv zeta. destruct (_ && _).
    + destruct (take_cell (id sub) r) as [[v|] r2] eqn:E2; rewrite return_token; by apply take_token in E2.
    + by destruct (_ <=? now); [apply return_token|].
Qed.

Lemma closed_token sub r : token (snd (receive_closed sub r)) = token r.
Proof.
  unfold receive_closed. destruct (take_cell (id sub) r) as [[v|] r1] eqn:E1; rewrite return_token;
    by apply take_token in E1.
Qed.

Lemma subscribe_token alive h k d now r : token (snd (subscribe alive h k d now r)) = token r.
Proof. unfold subscribe. by repeat case_match. Qed.

Lemma publish_token e r : token (publish e r) = token r.
Proof.
  unfold publish. destruct (_ || _); [done|].
  destruct (from_event (event_type e)), (terminal_of e); try done. by destruct (fold_left _ _ _).
Qed.

Lemma drop_event_token i r : token (drop_event i r) = token r.
Proof. unfold drop_event. by destruct (taken r !! i). Qed.

Lemma elsewhere_token mine r r' : elsewhere mine r r' -> token r' = token r.
Proof.
  destruct 1; [done|apply subscribe_token|apply turn_token|apply closed_token|apply drop_token|apply drop_event_token].
Qed.

(** ** The slot and the cell of the call *)

(** A slot and its cell are as they were, or the cell was revoked. *)
Definition spared (n : Z) (i : nat) (r r' : Registry) : Prop :=
  slots r' !! i = slots r !! i
  /\ (cells r' !! n = cells r !! n \/ cells r' !! n = Some (Ready (Err Revoked))).

Lemma revoke_spared n i r : spared n i r (revoke r).
Proof.
  split; [done|]. simpl. generalize (cells r). induction (registered r) as [|s l IH]; intros cs; cbn [fold_left]; [auto|].
  assert (revoke_cell cs s !! n = cs !! n \/ revoke_cell cs s !! n = Some (Ready (Err Revoked))) as H.
  { unfold revoke_cell. destruct (cs !! slot_id s) as [[]|] eqn:E; auto.
    destruct (decide (n = slot_id s)) as [->|]; [rewrite lookup_insert_eq|rewrite lookup_insert_ne by done]; auto. }
  destruct (IH (revoke_cell cs s)) as [->| ->]; [|auto]. destruct H as [->| ->]; auto.
Qed.

Lemma subscribe_spared alive h k d now r i s :
  wf r -> slots r !! i = Some (Some s) -> spared (slot_id s) i r (snd (subscribe alive h k d now r)).
Proof.
  intros W Hi. split; unfold subscribe; destruct (negb alive); auto; destruct (_ || _); auto;
    destruct (position is_none (slots r)) as [j|] eqn:Ep; auto;
    destruct (identity (next_id r)) as [[n next]|] eqn:En; auto; simpl.
  - apply list_lookup_insert_ne. intros ->. apply position_none_slot in Ep. congruence.
  - left. apply lookup_insert_ne. apply identity_Ok in En as (_ & _ & _ & _ & L); [|apply W].
    specialize (L (slot_id s) (proj2 (wf_ids r W i s Hi))). lia.
Qed.

Lemma drop_other j t r n i s :
  slots r !! j = Some (Some t) -> slots r !! i = Some (Some s) -> slot_id s = n -> slot_id t <> n ->
  spared n i r (drop_subscription (subscription_at j t) r).
Proof.
  intros Hj Hi Es Ht. unfold drop_subscription, unregister. simpl. rewrite Hj, Z.eqb_refl. simpl.
  assert (i <> j) by congruence.
  destruct (cells r !! slot_id t) eqn:E; (split; simpl; [by apply list_lookup_insert_ne|left]); [|done].
  by apply lookup_delete_ne.
Qed.

Lemma take_other m r v r1 n : take_cell m r = (v, r1) -> m <> n -> slots r1 = slots r /\ cells r1 !! n = cells r !! n.
Proof.
  unfold take_cell. intros H Hm. destruct (cells r !! m) as [[]|]; simplify_eq/=; try done.
  split; [done|]. by apply lookup_insert_ne.
Qed.

Lemma return_other m v r r1 j t n i s w :
  take_cell m r = (v, r1) -> m = slot_id t ->
  slots r !! j = Some (Some t) -> slots r !! i = Some (Some s) -> slot_id s = n -> slot_id t <> n ->
  spared n i r (snd (return_with (subscription_at j t) w r1)).
Proof.
  intros E -> Hj Hi Es Ht. destruct (take_other _ _ _ _ n E Ht) as (Sl & Ce). simpl.
  destruct (drop_other j t r1 n i s) as (A & B); [by rewrite Sl..|done|done|].
  split; [by rewrite A, Sl|]. by rewrite <- Ce.
Qed.

Lemma elsewhere_spared r r' i s :
  wf r -> slots r !! i = Some (Some s) -> elsewhere (Some (slot_id s)) r r' -> spared (slot_id s) i r r'.
Proof.
  intros W Hi H. inversion H as [|alive h k d now r0 E1 E2|j t st c alive h now r0 Hj M|j t r0 Hj M|j t r0 Hj M|j r0];
    subst; clear H; try (assert (slot_id t <> slot_id s) as N by congruence).
  - apply revoke_spared.
  - by apply subscribe_spared.
  - unfold receive_turn. destruct (take_cell _ r) as [[v|] r1] eqn:E1; [by eapply return_other|].
    pose proof (take_none _ _ _ E1) as ->. destruct (_ || _); [by eapply return_other|]. cbv zeta.
    destruct (_ && _).
    + destruct (take_cell _ r) as [[v|] r2] eqn:E2; by eapply return_other.
    + destruct (_ <=? now); [by eapply return_other|]. by split; [|left].
  - unfold receive_closed. destruct (take_cell _ r) as [[v|] r1] eqn:E1; by eapply return_other.
  - by eapply drop_other.
  - unfold drop_event. destruct (taken r !! j); by split; [|left].
Qed.

Lemma observed_more tok slot l l' event :
  incl l l' -> observed tok slot l event -> observed tok slot l' event.
Proof. intros I (e & H & R). exists e. auto. Qed.

Lemma elsewhere_subscribed sub a r r' l :
  wf r -> elsewhere (Some (id sub)) r r' -> subscribed sub a r l -> subscribed sub a r' l.
Proof.
  intros W E (slot & Hi & Es & Hd & Ha & Hk & C). rewrite <- Es in E.
  destruct (elsewhere_spared _ _ _ _ W Hi E) as (Sl & Ce). rewrite Es in Ce.
  exists slot. rewrite Sl, (elsewhere_token _ _ _ E). repeat split; auto.
  intros event He. apply C. destruct Ce; congruence.
Qed.

Lemma publish_subscribed sub a r l e :
  OutputEvents.reachable r -> subscribed sub a r l -> subscribed sub a (publish e r) (e :: l).
Proof.
  intros R (slot & Hi & Es & Hd & Ha & Hk & C). pose proof (reachable_wf r R) as W.
  destruct (wf_cell r W _ _ Hi) as (o & Ho & _).
  pose proof (publish_settles_eligible e r _ slot o R Hi Ho) as P. cbv zeta in P. rewrite Es in Ho, P.
  exists slot. rewrite publish_token. destruct (publish_next e r) as (_ & _ & ->). repeat split; auto.
  intros event He.
  assert (cells (publish e r) !! id sub = Some o -> observed (token r) slot (e :: l) event) as Same.
  { intros E. apply (observed_more _ _ l); [apply incl_tl, incl_refl|]. apply C. congruence. }
  destruct o as [|v|]; [|apply Same; by destruct (from_event (event_type e)), (terminal_of e)..].
  destruct (from_event (event_type e)) as [k|] eqn:Ek; [|by apply Same].
  destruct (terminal_of e) as [t|] eqn:Et; [|by apply Same].
  destruct (active r && (e_connection e =? token r) && eligible e k slot) eqn:G; [|by apply Same].
  rewrite !andb_true_iff, Z.eqb_eq in G. destruct G as ((_ & Tok) & El).
  assert (k = kind) as ->.
  { unfold eligible in El. rewrite !andb_true_iff, bool_decide_eq_true in El. destruct El as (((<- & _) & _) & _). done. }
  destruct P as (v & Ev & Hv). rewrite He in Ev. injection Ev as <-.
  destruct Hv as [[= ->]|[|]]; [|done|done]. exists e. simpl. repeat split; auto.
Qed.

(** ** The steps of the call *)

Lemma subscribed_at sub a r l :
  subscribed sub a r l -> exists slot, slots r !! index sub = Some (Some slot) /\ subscription_at (index sub) slot = sub.
Proof. intros (slot & Hi & Es & Hd & _). exists slot. split; [done|]. unfold subscription_at. rewrite Es, Hd. by destruct sub. Qed.

Lemma drop_reachable sub a r l :
  subscribed sub a r l -> OutputEvents.reachable r -> OutputEvents.reachable (drop_subscription sub r).
Proof.
  intros (slot & Hi & <-)%subscribed_at R. eapply reachable_step; [exact R|]. by eapply step_drop.
Qed.

(** What a turn returns was in the cell, or is an error. *)
Lemma turn_value sub st cutoff alive h now r v r' :
  receive_turn sub st cutoff alive h now r = (Return v, r') ->
  cells r !! id sub = Some (Ready v) \/ exists e, v = Err e.
Proof.
  unfold receive_turn, return_with, take_cell. intros E.
  destruct (cells r !! id sub) as [[|w|]|] eqn:Ec; simplify_eq; [|auto| |];
    rewrite ?Ec in E; repeat case_match; simplify_eq; eauto.
Qed.

Lemma closed_value sub r v r' :
  receive_closed sub r = (Return v, r') -> cells r !! id sub = Some (Ready v) \/ exists e, v = Err e.
Proof.
  unfold receive_closed, return_with, take_cell. intros E.
  destruct (cells r !! id sub) as [[|w|]|] eqn:Ec; simplify_eq; eauto.
Qed.

Lemma rpc_in_time now d : rpc_deadline timing now = Some d -> in_time d.
Proof.
  unfold rpc_deadline, in_time. destruct (_ <=? now); [done|]. intros [= <-].
  destruct (instant_checked_add _ _); lia.
Qed.

Lemma truthful_more tok l l' done e : incl l l' -> truthful tok l done e -> truthful tok l' done e.
Proof.
  intros I. unfold truthful. repeat (case_match; try done).
  intros (W & T & F & S). do 3 (split; [done|]). intros Hok.
  destruct (S Hok) as (D & slot & event & A & C & Ht & O). split; [done|]. exists slot, event.
  do 3 (split; [done|]). by eapply observed_more.
Qed.

Lemma ask_sound reason now r l a c d :
  OutputEvents.reachable r -> window a c -> in_time d ->
  sound {| registry := snd (fst (ask reason now r)); published := l; task := fst (fst (ask reason now r));
           effects := [Subscribed a c; Dispatched d; Acknowledged; Hooked true] ++ snd (ask reason now r) |}.
Proof.
  intros R W T. unfold ask. destruct (rpc_deadline timing now) as [d'|] eqn:E; split; try exact R.
  - exists a, c, d, d'. by apply rpc_in_time in E.
  - cbn [task effects fst snd app registry published truthful]. rewrite error_flag. done.
Qed.

(** What a received event or error leads to *)
Lemma received_sound slot v now r l d :
  OutputEvents.reachable r -> window (registered_at slot) (confirmation_deadline slot) -> in_time d ->
  (forall event, v = Ok event -> observed (token r) slot l event) ->
  sound {| registry := snd (fst (received v now r)); published := l; task := fst (fst (received v now r));
           effects := [Subscribed (registered_at slot) (confirmation_deadline slot); Dispatched d; Acknowledged;
                       Hooked true] ++ snd (received v now r) |}.
Proof.
  intros R W T O. unfold received. destruct v as [event|error].
  - assert (OutputEvents.reachable (drop_event 0 r)) as R' by (eapply reachable_step; [exact R|constructor]).
    destruct (terminal event) eqn:Et; [|by apply ask_sound]. split; [exact R'|].
    cbn [task effects fst snd app registry published truthful]. split; [done|]. split; [done|]. split; [done|].
    intros _. split; [done|]. exists slot, event. rewrite drop_event_token. auto.
  - destruct error; try (by apply ask_sound); (split; [exact R|]);
      cbn [task effects fst snd app registry published truthful]; by rewrite ?error_flag.
Qed.

Lemma returned_sound sub a v after r l w d :
  OutputEvents.reachable r -> token r = token (registry w) -> published w = l ->
  subscribed sub a (registry w) l -> window a (sub_deadline sub) -> in_time d ->
  effects w = [Subscribed a (sub_deadline sub); Dispatched d; Acknowledged; Hooked true] ->
  cells (registry w) !! id sub = Some (Ready v) \/ (exists e, v = Err e) ->
  sound (advance w (received v after r)).
Proof.
  intros R Tok <- (slot & Hi & Es & Hd & Ha & Hk & C) W T Ef V. rewrite <- Ha, <- Hd in *.
  assert (forall event, v = Ok event -> observed (token r) slot (published w) event) as O.
  { intros event ->. rewrite Tok. destruct V as [V|(? & ?)]; [by apply C|done]. }
  pose proof (received_sound slot v after r (published w) d R W T O) as G.
  unfold advance. rewrite Ef. by destruct (received v after r) as [[t r''] l].
Qed.

Lemma turn_sound sub cutoff alive h now after w :
  sound w -> task w = Receiving sub cutoff -> sound (advance w (turn sub cutoff alive h now after (registry w))).
Proof.
  intros (R & S) E. rewrite E in S. destruct S as (a & d & S & W & Ef & T).
  pose proof (subscribed_at _ _ _ _ S) as (slot' & Hi' & At).
  assert (OutputEvents.reachable (snd (receive_turn sub (operation_deadline timing) cutoff alive h now (registry w)))) as R'.
  { eapply reachable_step; [exact R|]. rewrite <- At. by apply step_receive. }
  pose proof (turn_token sub (operation_deadline timing) cutoff alive h now (registry w)) as Tok.
  unfold turn. destruct (receive_turn _ _ _ _ _ _ _) as [[v|c u] r] eqn:Er; simpl in R', Tok.
  - eapply returned_sound; eauto. by eapply turn_value.
  - assert (r = registry w) as ->.
    { unfold receive_turn, return_with in Er. repeat case_match; simplify_eq; try done;
        match goal with H : take_cell _ _ = (None, _) |- _ => by apply take_none in H end. }
    split; [exact R|]. simpl. exists a, d. by rewrite Ef.
Qed.

Lemma closed_sound sub cutoff after w :
  sound w -> task w = Receiving sub cutoff -> sound (advance w (closed sub after (registry w))).
Proof.
  intros (R & S) E. rewrite E in S. destruct S as (a & d & S & W & Ef & T).
  pose proof (subscribed_at _ _ _ _ S) as (slot' & Hi' & At).
  assert (OutputEvents.reachable (snd (receive_closed sub (registry w)))) as R'.
  { eapply reachable_step; [exact R|]. rewrite <- At. by apply step_closed. }
  pose proof (closed_token sub (registry w)) as Tok.
  unfold closed. destruct (receive_closed sub (registry w)) as [[v|c u] r] eqn:Er; simpl in R', Tok.
  - eapply returned_sound; eauto. by eapply closed_value.
  - exfalso. unfold receive_closed, return_with in Er. by repeat case_match.
Qed.

Lemma subscribe_subscribed alive h deadline now r sub r' l :
  subscribe alive h kind deadline now r = (Ok sub, r') -> subscribed sub now r' l /\ sub_deadline sub = deadline.
Proof.
  unfold subscribe. intros E. destruct (negb alive); [done|]. destruct (_ || _); [done|].
  destruct (position is_none (slots r)) as [i|] eqn:Ep; [|done].
  destruct (identity (next_id r)) as [[n next]|]; [|done]. injection E as <- <-. split; [|done].
  apply position_none_slot in Ep. eexists. simpl. rewrite list_lookup_insert_eq by (by eapply lookup_lt_Some).
  repeat split; [..|intros event; by rewrite lookup_insert_eq].
Qed.

Lemma enter_sound now registered dispatched alive h w :
  sound w -> task w = Entering -> now <= registered ->
  sound (advance w (enter now registered dispatched alive h (registry w))).
Proof.
  intros (R & S) E L. rewrite E in S.
  assert (forall r d text l, OutputEvents.reachable r -> l = [] \/ (exists a c, l = [Subscribed a c]) ->
            sound (advance w (Done (execution NotDispatched d text true), r, l))) as Stop.
  { intros r d text l R' Hl. split; [done|]. cbn [advance task effects published registry].
    rewrite S. by destruct Hl as [->|(a & c & ->)]; cbn [app truthful]; rewrite error_flag. }
  unfold enter. destruct (_ <=? now); [apply Stop; auto|].
  destruct (opt_filter _ _) as [deadline|] eqn:Eo; [|apply Stop; auto].
  assert (deadline = now + confirmation_timeout timing) as Hc.
  { unfold opt_filter, instant_checked_add in Eo. repeat case_match; by simplify_eq. }
  assert (OutputEvents.reachable (snd (subscribe alive h kind deadline registered (registry w)))) as R'
    by (eapply reachable_step; [exact R|constructor]).
  destruct (subscribe _ _ _ _ _ _) as [[sub|error] r] eqn:Es; simpl in R'; [|apply Stop; auto].
  apply (subscribe_subscribed _ _ _ _ _ _ _ (published w)) in Es as (Es & Ed').
  destruct (rpc_deadline timing dispatched) as [d|] eqn:Ed.
  - split; [done|]. simpl. exists registered, d. rewrite S, Ed'. apply rpc_in_time in Ed.
    split; [done|]. split; [|done]. unfold window. lia.
  - apply Stop; [by eapply drop_reachable|eauto].
Qed.

Lemma answered_sound sub answer hook w :
  sound w -> task w = Starting sub -> sound (advance w (answered sub answer hook (registry w))).
Proof.
  intros (R & S) E. rewrite E in S. destruct S as (a & d & S & W & Ef & T).
  pose proof (drop_reachable _ _ _ _ S R) as R'.
  unfold answered. destruct answer as [[]|error]; [destruct hook as [[]|message]|].
  - split; [done|]. simpl. exists a, d. by rewrite Ef.
  - split; [done|]. cbn [advance task effects published registry]. rewrite Ef. cbn [app truthful]. by rewrite error_flag.
  - split; [done|]. cbn [advance task effects published registry]. rewrite Ef. cbn [app truthful]. by rewrite error_flag.
Qed.

Lemma is_active_spec status : is_active status = true <-> says_active status.
Proof.
  unfold is_active, says_active. destruct status as [[| | | | |fields]|]; simpl; try (split; [done|naive_solver]).
  split.
  - intros (v & E & V)%is_some_and_true. destruct v as [|[]| | | |]; try done. eauto.
  - intros (f & [= <-] & ->). done.
Qed.

Lemma concluded_sound reason status w :
  sound w -> task w = Asking reason -> sound (advance w (concluded reason status (registry w))).
Proof.
  intros (R & S) E. rewrite E in S. destruct S as (a & c & d & d' & W & T & T' & Ef).
  pose proof (is_active_spec status) as A.
  unfold concluded. destruct (is_active status); (split; [done|]);
    cbn [advance task effects published registry]; rewrite Ef; cbn [app truthful]; rewrite error_flag; naive_solver.
Qed.

Lemma move_sound w w' : move w w' -> sound w -> sound w'.
Proof.
  intros M Snd. destruct M as [w r E|w e|w now reg dis alive h E L|w sub answer hook E|w sub c alive h now after E
                             |w sub c after E|w reason status E].
  - destruct Snd as (R & S). pose proof (elsewhere_token _ _ _ E) as Tok. split.
    + eapply reachable_step; [exact R|by eapply elsewhere_step].
    + pose proof (reachable_wf _ R) as W. cbn [with_registry task registry published effects].
      destruct (task w) as [|sub|sub cutoff|reason|e] eqn:Et; simpl in E; try done.
      * destruct S as (a & d & S & D). exists a, d. split; [|done]. by eapply elsewhere_subscribed.
      * destruct S as (a & d & S & D). exists a, d. split; [|done]. by eapply elsewhere_subscribed.
      * by rewrite Tok.
  - destruct Snd as (R & S). split; [eapply reachable_step; [exact R|constructor]|].
    cbn [task registry published effects].
    destruct (task w) as [|sub|sub cutoff|reason|x]; try done.
    + destruct S as (a & d & S & D). exists a, d. split; [|done]. by apply publish_subscribed.
    + destruct S as (a & d & S & D). exists a, d. split; [|done]. by apply publish_subscribed.
    + rewrite publish_token. eapply truthful_more, S. apply incl_tl, incl_refl.
  - apply enter_sound; [done|done|lia].
  - by apply answered_sound.
  - by apply (turn_sound _ c).
  - by apply (closed_sound _ c).
  - by apply concluded_sound.
Qed.

Lemma runs_sound w : runs w -> sound w.
Proof.
  intros (r & R & H). assert (sound (called r)) as S by done. revert S.
  induction H; auto. intros S. apply IHrtc. by eapply move_sound.
Qed.

(** C18: A start is reported as it went: whatever is published and whoever else uses the registry,
    however the requests are answered and however late the clocks are, a finished call claims
    success only when an event that says the output started was published during the call, for
    this output and connection, received after the registration and within the confirmation
    time, or when the status said that the output is active; it says that nothing was dispatched
    only when nothing was, or when the transport said so; it tells the owner of the receipt of an
    acceptance exactly once, right after it, and of nothing else; and no request is given more
    time than the operation has. *)
Theorem output_start_is_truthful w e :
  runs w -> task w = Done e -> truthful (token (registry w)) (published w) (effects w) e.
Proof. intros (R & S)%runs_sound E. by rewrite E in S. Qed.

(** A Started event in the cell, be it there before the start was answered, is what the next turn
    reports, however late that is. *)
Lemma started_event_is_reported w sub cutoff event alive h now after :
  task w = Receiving sub cutoff -> cells (registry w) !! id sub = Some (Ready (Ok event)) ->
  terminal event = Started ->
  exists e, task (advance w (turn sub cutoff alive h now after (registry w))) = Done e
            /\ detail e = StartedEvent /\ is_error e = false.
Proof.
  intros E C T. unfold turn, receive_turn, take_cell. rewrite C. simpl. unfold received. rewrite T. simpl.
  eexists. split; [done|]. by split.
Qed.
End Execute.

(** ** A run *)

Definition sample_timing : Timing := {| operation_deadline := 90; confirmation_timeout := 20; rpc_timeout := 40 |}.

Module OutputSample.
(** Rendering and parsing do not matter here. *)
#[local] Instance plain_floats : F64Library := {
  f64_format := {| f64_display _ := "20"%string; f64_lower_exp _ := "2e1"%string |};
  f64_parse _ := None;
  f64_log10 f := f;
  f64_scientific _ _ := ("1"%string, 0)
}.

(** The event comes before the answer of the start; the turn that reads it is late. *)
Definition w1 : World :=
  advance (called (registry_new 3)) (enter Stream sample_timing 10 10 11 true sample_handle (registry_new 3)).
Definition w2 : World :=
  {| registry := publish sample_event (registry w1); published := [sample_event]; task := task w1;
     effects := effects w1 |}.
Definition sub : OutputSubscription := {| index := 0; id := 1; sub_deadline := 30 |}.
Definition w3 : World := advance w2 (answered Stream sub (Ok tt) (Ok tt) (registry w2)).
Definition w4 : World := advance w3 (turn Stream sample_timing sub None true sample_handle 80 81 (registry w3)).

Lemma sample_runs : runs Stream sample_timing w4.
Proof.
  exists (registry_new 3). split; [apply registry_reachable|].
  eapply rtc_l; [by apply (move_enter Stream sample_timing (called (registry_new 3)) 10 10 11 true sample_handle)|].
  eapply rtc_l; [by apply (move_publish Stream sample_timing w1 sample_event)|].
  eapply rtc_l; [by apply (move_started Stream sample_timing w2 sub (Ok tt) (Ok tt))|].
  eapply rtc_l; [by apply (move_turn Stream sample_timing w3 sub None true sample_handle 80 81)|].
  apply rtc_refl.
Qed.

Definition reported : Execution :=
  execution Accepted StartedEvent "Streaming started, writing to: clip.mkv" false.

Lemma sample_done : task w4 = Done reported.
Proof. by vm_compute. Qed.

Lemma output_start_is_truthful_witness :
  task w4 = Done reported
  /\ truthful Stream sample_timing (token (registry w4)) [sample_event]
       [Subscribed 10 30; Dispatched 51; Acknowledged; Hooked true] reported.
Proof.
  split; [exact sample_done|].
  exact (output_start_is_truthful Stream sample_timing w4 reported sample_runs sample_done).
Defined.
End OutputSample.
