(* ===== verification/ToolSchema.v ===== *)
(** * Schemas of the tools ([src/tool_validation.rs])

    The ordered JSON trees the catalogue of tools is read into ([Ordered]), the shapes of schema
    the projector of input errors understands, [qualify], which admits only those, and the
    catalogue itself: the exported descriptors, the three controllers of the dynamic tool groups
    and the schemas extended by a confirmation.  The JSON parser is not modelled: the trees it
    makes of the exported file and of a frame are arguments. *)
From S2P Require Import Prelude Json Text.

Inductive ProjectionUnavailable :=
| UnknownTool | SchemaMismatch | UnsupportedSchema | InputLimit | OutputLimit | NoIssues.

Definition MAX_DEPTH : Z := 32.
Definition MAX_NODES : Z := 4096.
Definition MAX_INPUT_BYTES : Z := 1024 * 1024.
Definition MAX_ISSUES : Z := 64.
Definition MAX_OUTPUT : Z := 32 * 1024.
Definition SAFE : f64 := f64_of_Z 9007199254740991.

(** The calls a traversal may nest: depths 0 to [MAX_DEPTH] *)
Definition levels : nat := Z.to_nat (MAX_DEPTH + 1).

(** ** Trees in the order of the text *)

Module Ordered.
Inductive t :=
| Scalar (v : Value)
| Array (a : list t)
| Object (o : list (string * t)).

(** The last entry of that name *)
Fixpoint last_entry (key : string) (o : list (string * t)) : option t :=
  match o with
  | [] => None
  | (k, v) :: o =>
      match last_entry key o with
      | Some w => Some w
      | None => if str_eqb k key then Some v else None
      end
  end.

Definition get (key : string) (self : t) : option t :=
  match self with Object o => last_entry key o | _ => None end.

Definition array (self : t) : option (list t) := match self with Array a => Some a | _ => None end.

Definition object (self : t) : option (list (string * t)) :=
  match self with Object o => Some o | _ => None end.

Fixpoint value (self : t) : Value :=
  match self with
  | Scalar v => v
  | Array a => Json.Array (map value a)
  | Object o => Json.Object (object_fields (map (fun '(k, v) => (k, value v)) o))
  end.

Definition number (self : t) : option f64 := match self with Scalar v => as_f64 v | _ => None end.

Definition text (self : t) : option string :=
  match self with Scalar (Str s) => Some s | _ => None end.
End Ordered.

(** [node.and_then(Ordered::string) == Some(s)] *)
Definition reads_as (s : string) (node : option Ordered.t) : bool :=
  is_some_and (node >>? Ordered.text) (str_eqb s).

Fixpoint find_map {A B} (f : A -> option B) (l : list A) : option B :=
  match l with
  | [] => None
  | x :: l => match f x with Some y => Some y | None => find_map f l end
  end.

(** ** The shapes of a schema *)

Definition nullable_base (schema : Ordered.t) : option Ordered.t :=
  variants ← Ordered.get "anyOf" schema >>? Ordered.array;
  if negb (Nat.eqb (length variants) 2) then None
  else
    nonnull ← List.find (fun variant => negb (reads_as "null" (Ordered.get "type" variant))) variants;
    if existsb (fun variant => reads_as "null" (Ordered.get "type" variant)) variants then Some nonnull
    else None.

Definition literal_variant (variant : Ordered.t) : option Ordered.t :=
  fields ← Ordered.object variant;
  value ← Ordered.get "const" variant;
  if Nat.eqb (length fields) 2 && reads_as "number" (Ordered.get "type" variant)
     && negb (is_none (Ordered.number value))
  then Some value else None.

Definition literal_union (schema : Ordered.t) : option (list Ordered.t) :=
  variants ← Ordered.get "anyOf" schema >>? Ordered.array;
  if Nat.eqb (length variants) 0 || Nat.ltb 64 (length variants) then None
  else mapM literal_variant variants.

Definition schema_type (schema : Ordered.t) : option string :=
  value ← Ordered.get "type" schema;
  or_else (Ordered.text value)
    (types ← Ordered.array value;
     if negb (Nat.eqb (length types) 2) || negb (existsb (fun v => reads_as "null" (Some v)) types) then None
     else find_map (fun v => opt_filter (fun s => negb (str_eqb s "null")) (Ordered.text v)) types).

Definition nullable (schema : Ordered.t) : bool :=
  is_some_and (Ordered.get "type" schema >>? Ordered.array)
    (existsb (fun v => reads_as "null" (Some v))).

Definition unknown_json (schema : Ordered.t) : bool :=
  is_some_and (Ordered.object schema)
    (forallb (fun '(key, _) => one_of key ["description"; "title"; "$schema"])).

Definition typed_as (name : string) (schema : Ordered.t) : bool :=
  is_some_and (schema_type schema) (str_eqb name).

Definition opaque_record (schema : Ordered.t) : bool :=
  typed_as "object" schema
  && is_some_and (Ordered.get "propertyNames" schema)
       (fun keys => value_eqb (Ordered.value keys) (Object [("type", Str "string")]))
  && is_some_and (Ordered.get "additionalProperties" schema) unknown_json
  && is_none (Ordered.get "properties" schema)
  && is_none (Ordered.get "required" schema).

Definition TRACK_KEYS : list string := ["1"; "2"; "3"; "4"; "5"; "6"].

(** Are the entries the names of the six tracks? *)
Definition names_tracks (entries : list Ordered.t) : bool :=
  Nat.eqb (length entries) 6
  && forallb (fun '(key, expected) => reads_as expected (Some key)) (zip entries TRACK_KEYS).

Definition track_record (schema : Ordered.t) : option Ordered.t :=
  keys ← Ordered.get "propertyNames" schema;
  if negb (typed_as "object" schema) then None
  else
    type ← Ordered.get "type" keys;
    if negb (reads_as "string" (Some type)) then None
    else
      enumeration ← Ordered.get "enum" keys >>? Ordered.array;
      required ← Ordered.get "required" schema >>? Ordered.array;
      if negb (names_tracks enumeration && names_tracks required) then None
      else
        boolean ← Ordered.get "additionalProperties" schema;
        if value_eqb (Ordered.value boolean) (Object [("type", Str "boolean")]) then Some boolean else None.

(** ** The schemas the projector admits *)

Definition supported : list string :=
  ["$schema"; "type"; "properties"; "required"; "default"; "description"; "title"; "minimum"; "maximum";
   "exclusiveMinimum"; "exclusiveMaximum"; "minLength"; "maxLength"; "enum"; "const"; "items";
   "minItems"; "maxItems"; "format"; "pattern"; "anyOf"; "additionalProperties"; "propertyNames"].

Definition UUID_PATTERN : string :=
  "^([0-9a-fA-F]{8}-[0-9a-fA-F]{4}-[1-8][0-9a-fA-F]{3}-[89abAB][0-9a-fA-F]{3}-[0-9a-fA-F]{12}|00000000-0000-0000-0000-000000000000|ffffffff-ffff-ffff-ffff-ffffffffffff)$".

Fixpoint each {A E} (f : A -> result E unit) (l : list A) : result E unit :=
  match l with
  | [] => Ok tt
  | x :: l => let? _ := f x in each f l
  end.

Definition is_scalar (node : Ordered.t) : bool := match node with Ordered.Scalar _ => true | _ => false end.

(** Literals of an [enum] or a [const]: up to 64 scalars, of up to 512 bytes *)
Definition qualify_values (values : list Ordered.t) : result ProjectionUnavailable unit :=
  if Nat.eqb (length values) 0 || Nat.ltb 64 (length values)
     || existsb (fun v => negb (is_scalar v) || is_some_and (Ordered.text v) (fun s => 512 <? str_len s)) values
  then Err UnsupportedSchema else Ok tt.

Definition qualify_literals (schema : Ordered.t) (key : string) : result ProjectionUnavailable unit :=
  match Ordered.get key schema with
  | None => Ok tt
  | Some value =>
      let? values := if str_eqb key "enum" then ok_or (Ordered.array value) UnsupportedSchema else Ok [value] in
      qualify_values values
  end.

Definition refuse_if (refused : bool) : result ProjectionUnavailable unit :=
  if refused then Err UnsupportedSchema else Ok tt.

Definition TYPES : list string := ["object"; "array"; "string"; "number"; "integer"; "boolean"; "null"].

(** The levels left stand for [MAX_DEPTH + 1 - depth]. *)
Fixpoint qualify (room : nat) (schema : Ordered.t) : result ProjectionUnavailable unit :=
  match room with
  | O => Err UnsupportedSchema
  | S room =>
      let? object := ok_or (Ordered.object schema) UnsupportedSchema in
      if existsb (fun '(k, _) => negb (one_of k supported)) object then Err UnsupportedSchema
      else if unknown_json schema then Ok tt
      else if negb (is_none (Ordered.get "propertyNames" schema)) then
        if negb (is_none (track_record schema)) || opaque_record schema then Ok tt else Err UnsupportedSchema
      else if negb (is_none (Ordered.get "anyOf" schema)) then
        if negb (is_none (literal_union schema)) then Ok tt
        else
          let? base := ok_or (nullable_base schema) UnsupportedSchema in
          qualify room base
      else
        let? _ := refuse_if (is_some_and (Ordered.get "additionalProperties" schema)
          (fun value => negb (value_eqb (Ordered.value value) (Bool false))
                        && is_none_or (Ordered.object value) (fun fields => negb (Nat.eqb (length fields) 0)))) in
        let? ty := ok_or (schema_type schema) UnsupportedSchema in
        let? _ := refuse_if (negb (one_of ty TYPES)) in
        let? _ := refuse_if ((negb (is_none (Ordered.get "format" schema)) || negb (is_none (Ordered.get "pattern" schema)))
          && (negb (reads_as "uuid" (Ordered.get "format" schema))
              || negb (reads_as UUID_PATTERN (Ordered.get "pattern" schema)))) in
        let? _ :=
          match Ordered.get "properties" schema with
          | None => Ok tt
          | Some properties =>
              let? fields := ok_or (Ordered.object properties) UnsupportedSchema in
              each (fun '(name, property) =>
                let? _ := refuse_if (256 <? str_len name) in qualify room property) fields
          end in
        let? _ := match Ordered.get "items" schema with Some item => qualify room item | None => Ok tt end in
        each (qualify_literals schema) ["enum"; "const"]
  end.

(** ** The catalogue *)

Definition DYNAMIC_CONTROLLERS : list string :=
  ["obs-list-toolsets"; "obs-enable-toolset"; "obs-disable-toolset"].

Definition annotations_expected : list (string * bool) :=
  [("readOnlyHint", true); ("destructiveHint", false); ("idempotentHint", true); ("openWorldHint", false)].

(** One descriptor of a controller, checked and added to those before it *)
Definition dynamic_schema (tool : Ordered.t) (schemas : gmap string Ordered.t)
  : option (gmap string Ordered.t) :=
  fields ← Ordered.object tool;
  if negb (nodup_keys (map fst fields)) then None
  else
    name ← Ordered.get "name" tool >>? Ordered.text;
    if negb (one_of name DYNAMIC_CONTROLLERS) then None
    else if existsb (fun key => is_none_or (Ordered.get key tool >>? Ordered.text)
                                  (fun value => str_is_empty (str_trim value))) ["title"; "description"] then None
    else
      annotations ← Ordered.get "annotations" tool;
      if negb (forallb (fun '(key, expected) =>
                 is_some_and (Ordered.get key annotations)
                   (fun node => value_eqb (Ordered.value node) (Bool expected))) annotations_expected) then None
      else
        schema ← Ordered.get "inputSchema" tool;
        type ← Ordered.get "type" schema >>? Ordered.text;
        if negb (str_eqb type "object") || is_err (qualify levels schema) || negb (is_none (schemas !! name))
        then None
        else Some (<[name := schema]> schemas).

Fixpoint dynamic_loop (tools : list Ordered.t) (schemas : gmap string Ordered.t)
  : option (gmap string Ordered.t) :=
  match tools with
  | [] => Some schemas
  | tool :: tools => schemas ← dynamic_schema tool schemas; dynamic_loop tools schemas
  end.

Definition dynamic_schemas (root : Ordered.t) : option (gmap string Ordered.t) :=
  tools ← Ordered.get "toolsets" root >>? Ordered.get "dynamic" >>? Ordered.get "tools" >>? Ordered.array;
  if negb (Nat.eqb (length tools) (length DYNAMIC_CONTROLLERS)) then None
  else dynamic_loop tools ∅.

(** The first entry of a key *)
Definition first_entry (key : string) (o : list (string * Ordered.t)) : option Ordered.t :=
  find_map (fun '(k, v) => if str_eqb k key then Some v else None) o.

Definition descriptor (field : string) (tool : Ordered.t) : option (string * Ordered.t) :=
  fields ← Ordered.object tool;
  name ← find_map (fun '(k, v) => if str_eqb k "name" then Ordered.text v else None) fields;
  schema ← first_entry field fields;
  Some (name, schema).

(** [catalog_field] of the parsed file; [None] when it panics *)
Definition catalog_field (root : Ordered.t) (field : string) : option (gmap string Ordered.t) :=
  let dynamic := if str_eqb field "inputSchema" then dynamic_schemas root else None in
  fields ← Ordered.object root;
  tools ← first_entry "tools" fields >>? Ordered.array;
  let schemas := fold_left (fun schemas '(name, schema) => <[name := schema]> schemas)
                   (omap (descriptor field) tools) (∅ : gmap string Ordered.t) in
  if str_eqb field "inputSchema" then
    let collision := existsb (fun name => negb (is_none (schemas !! name))) DYNAMIC_CONTROLLERS in
    let schemas := fold_left (fun schemas name => delete name schemas) DYNAMIC_CONTROLLERS schemas in
    Some (match (if collision then None else dynamic) with
          | Some dynamic => dynamic ∪ schemas
          | None => schemas
          end)
  else Some schemas.

Definition catalog (root : Ordered.t) : option (gmap string Ordered.t) := catalog_field root "inputSchema".

(** ** Schemas with a confirmation *)

Definition CONFIRMED : list string :=
  ["obs-take-scene"; "obs-start-stream"; "obs-stop-stream"; "obs-toggle-stream"; "obs-stop-record";
   "obs-toggle-record"; "obs-take-stop"; "obs-call-request"; "obs-batch"; "obs-start-output";
   "obs-stop-output"; "obs-toggle-output"].

Definition has_key (key : string) (o : list (string * Ordered.t)) : bool :=
  existsb (fun '(k, _) => str_eqb k key) o.

(** The first entry of a key, changed in place *)
Fixpoint change_first (key : string) (node : Ordered.t) (o : list (string * Ordered.t))
  : list (string * Ordered.t) :=
  match o with
  | [] => []
  | (k, v) :: o => if str_eqb k key then (k, node) :: o else (k, v) :: change_first key node o
  end.

(** What the parser makes of the source text of the property *)
Definition confirm_property : Ordered.t :=
  Ordered.Object
    [("type", Ordered.Scalar (Str "boolean"));
     ("description", Ordered.Scalar (Str "For clients that cannot show the user a question: pass true only after the user has agreed. Ignored when the server can ask the user itself"))].

Definition confirmation_node (catalog : gmap string Ordered.t) (name : string)
  : result ProjectionUnavailable Ordered.t :=
  if negb (one_of name CONFIRMED) then Err UnknownTool
  else
    let? schema := ok_or (catalog !! name) UnknownTool in
    let? fields := ok_or (Ordered.object schema) UnsupportedSchema in
    let fields :=
      if has_key "$schema" fields then fields
      else ("$schema", Ordered.Scalar (Str "https://json-schema.org/draft/2020-12/schema")) :: fields in
    let? node := ok_or (first_entry "properties" fields) UnsupportedSchema in
    let? properties := ok_or (Ordered.object node) UnsupportedSchema in
    if has_key "confirm" properties then Err SchemaMismatch
    else Ok (Ordered.Object (change_first "properties"
               (Ordered.Object (properties ++ [("confirm", confirm_property)])) fields)).

Definition confirmation_schema (catalog : gmap string Ordered.t) (name : string)
  : result ProjectionUnavailable Value :=
  let? node := confirmation_node catalog name in Ok (Ordered.value node).
