(* ===== verification/JsonSchema.v ===== *)
(** * JSON Schema, for the keywords of the exported tools

    What a schema of the exported file ([native/assets/tools.json]) says of a value, keyword by
    keyword, as the JSON Schema specification does, and what a [pattern] says of a text.  Nothing
    here follows [src/tool_validation.rs]: it is the contract its projector is compared with
    ([ToolMeaning]).  The annotations ([title], [description], [$schema], [default] and [format])
    say nothing of a value; numbers are those of JavaScript, [f64]. *)
From Stdlib Require Import SpecFloat Ascii.
From S2P Require Import Prelude Json Text ToolSchema.

(** ** Regular expressions *)

Module Regex.
Inductive t :=
| Empty
| Class (ranges : list (Z * Z))
| Seq (r s : t)
| Alt (r s : t)
| Repeat (r : t) (n : nat).

Definition in_class (ranges : list (Z * Z)) (b : Z) : Prop :=
  exists lo hi, In (lo, hi) ranges /\ lo <= b <= hi.

(** [n] words of a language, one after the other *)
Fixpoint times (n : nat) (L : list Z -> Prop) (w : list Z) : Prop :=
  match n with
  | O => w = []
  | S n => exists a b, w = a ++ b /\ L a /\ times n L b
  end.

(** The words of an expression.  They are sequences of bytes: a class of the subset below has no
    byte above 127, so that a byte of it is a character. *)
Fixpoint language (r : t) (w : list Z) : Prop :=
  match r with
  | Empty => w = []
  | Class ranges => exists b, w = [b] /\ in_class ranges b
  | Seq r s => exists a b, w = a ++ b /\ language r a /\ language s b
  | Alt r s => language r w \/ language s w
  | Repeat r n => times n (language r) w
  end.

(** *** Parser of the subset: literals, classes of ranges, groups, alternatives, [{n}] *)

Fixpoint ranges (s : string) : option (list (Z * Z) * string) :=
  match s with
  | String "]"%char s => Some ([], s)
  | String a s =>
      if one_of (String a EmptyString) ["^"; "\"; "-"]%string then None
      else match s with
      | String "-"%char (String b s) =>
          if one_of (String b EmptyString) ["]"; "\"]%string then None
          else '(rs, s) ← ranges s; Some ((byte_of a, byte_of b) :: rs, s)
      | _ => '(rs, s) ← ranges s; Some ((byte_of a, byte_of a) :: rs, s)
      end
  | EmptyString => None
  end.

(** The digits of [{n}], after the brace *)
Fixpoint count (acc : nat) (s : string) : option (nat * string) :=
  match s with
  | String "}"%char s => Some (acc, s)
  | String c s =>
      let d := byte_of c in
      if (48 <=? d) && (d <=? 57) then count (10 * acc + Z.to_nat (d - 48)) s else None
  | EmptyString => None
  end.

Definition repeated (r : t) (s : string) : option (t * string) :=
  match s with
  | String "{"%char s => '(n, s) ← count 0 s; Some (Repeat r n, s)
  | _ => Some (r, s)
  end.

Definition special : list string := ["^"; "$"; "\"; "."; "*"; "+"; "?"; "]"; "{"; "}"]%string.

(** A sequence, up to the end, a [)], a [|] or a [$]; and alternatives *)
Fixpoint sequence (fuel : nat) (s : string) : option (t * string) :=
  match fuel with
  | O => None
  | S fuel =>
      let next atom s := '(a, s) ← repeated atom s; '(r, s) ← sequence fuel s; Some (Seq a r, s) in
      match s with
      | EmptyString => Some (Empty, s)
      | String ")"%char _ | String "|"%char _ | String "$"%char _ => Some (Empty, s)
      | String "["%char s => '(rs, s) ← ranges s; next (Class rs) s
      | String "("%char s =>
          '(r, s) ← alternatives fuel s;
          match s with String ")"%char s => next r s | _ => None end
      | String c s =>
          if one_of (String c EmptyString) special then None else next (Class [(byte_of c, byte_of c)]) s
      end
  end
with alternatives (fuel : nat) (s : string) : option (t * string) :=
  match fuel with
  | O => None
  | S fuel =>
      '(r, s) ← sequence fuel s;
      match s with
      | String "|"%char s => '(r', s) ← alternatives fuel s; Some (Alt r r', s)
      | _ => Some (r, s)
      end
  end.

(** An anchored pattern *)
Definition parse (pattern : string) : option t :=
  match pattern with
  | String "^"%char s =>
      '(r, s) ← sequence (String.length s) s;
      if str_eqb s "$" then Some r else None
  | _ => None
  end.

Definition matches (pattern text : string) : Prop :=
  exists r, parse pattern = Some r /\ language r (bytes_of text).

(** *** Expressions all of whose words have one length *)

Fixpoint places (r : t) : option (list (list (Z * Z))) :=
  match r with
  | Empty => Some []
  | Class ranges => Some [ranges]
  | Seq r s => p ← places r; q ← places s; Some (p ++ q)
  | Alt _ _ => None
  | Repeat r n => p ← places r; Some (concat (repeat p n))
  end.

Lemma Forall2_app_iff {A B} (P : A -> B -> Prop) p q w :
  Forall2 P (p ++ q) w <-> exists a b, w = a ++ b /\ Forall2 P p a /\ Forall2 P q b.
Proof.
  split.
  - intros (a & b & ? & ? & ->)%Forall2_app_inv_l. eauto.
  - intros (a & b & -> & ? & ?). by apply Forall2_app.
Qed.

Lemma places_language r : forall p, places r = Some p -> forall w, language r w <-> Forall2 in_class p w.
Proof.
  induction r as [|ranges|r IHr s IHs|r _ s _|r IH n]; intros p E w; simpl in *.
  - injection E as <-. split; [by intros ->|by inversion 1].
  - injection E as <-. split; [intros (b & -> & ?); by repeat constructor|].
    intros (b & w' & C & F & ->)%Forall2_cons_inv_l. apply Forall2_nil_inv_l in F as ->. eauto.
  - apply bind_Some in E as (p1 & E1 & E). apply bind_Some in E as (p2 & E2 & [= <-]).
    rewrite Forall2_app_iff. by setoid_rewrite (IHr _ E1); setoid_rewrite (IHs _ E2).
  - done.
  - apply bind_Some in E as (p1 & E1 & [= <-]). revert w.
    induction n as [|n IHn]; intros w; simpl; [split; [by intros ->|by inversion 1]|].
    rewrite Forall2_app_iff. by setoid_rewrite (IH _ E1); setoid_rewrite IHn.
Qed.
End Regex.

(** ** Types and comparisons *)

(** The value is a whole number: the exponent is not negative, or its power of two divides the mantissa. *)
Definition whole (n : f64) : Prop :=
  match n with
  | S754_zero _ => True
  | S754_finite _ m e => 0 <= e \/ (2 ^ (- e) | Z.pos m)
  | _ => False
  end.

Definition finite (n : f64) : Prop :=
  match n with S754_zero _ | S754_finite _ _ _ => True | _ => False end.

Definition at_most (n m : f64) : Prop := SFcompare n m <> Some Gt.
Definition below (n m : f64) : Prop := at_most n m /\ SFcompare n m <> Some Eq.

Definition of_type (ty : string) (v : Value) : Prop :=
  match v with
  | Null => ty = "null"%string
  | Bool _ => ty = "boolean"%string
  | Num _ => exists n, as_f64 v = Some n /\ finite n /\ (ty = "number"%string \/ ty = "integer"%string /\ whole n)
  | Str _ => ty = "string"%string
  | Array _ => ty = "array"%string
  | Object _ => ty = "object"%string
  end.

(** [type] names one type or lists several. *)
Definition of_types (types : Ordered.t) (v : Value) : Prop :=
  (exists ty, Ordered.text types = Some ty /\ of_type ty v)
  \/ exists l t ty, Ordered.array types = Some l /\ In t l /\ Ordered.text t = Some ty /\ of_type ty v.

(** The same JSON value: numbers by their value, anything else as it is written *)
Definition same_value (v w : Value) : Prop :=
  match v, w with
  | Num _, Num _ => exists n m, as_f64 v = Some n /\ as_f64 w = Some m /\ SFcompare n m = Some Eq
  | _, _ => value_eqb v w = true
  end.

(** ** Keywords *)

(** A keyword with a number for a bound: where the schema has it, the bound holds. *)
Definition bound (key : string) (schema : Ordered.t) (holds : f64 -> Prop) : Prop :=
  forall node, Ordered.get key schema = Some node -> exists b, Ordered.number node = Some b /\ holds b.

Definition number_bounds (schema : Ordered.t) (n : f64) : Prop :=
  bound "minimum" schema (fun b => at_most b n)
  /\ bound "maximum" schema (fun b => at_most n b)
  /\ bound "exclusiveMinimum" schema (fun b => below b n)
  /\ bound "exclusiveMaximum" schema (fun b => below n b).

Definition size_bounds (min max : string) (schema : Ordered.t) (size : Z) : Prop :=
  bound min schema (fun b => at_most b (f64_of_Z size))
  /\ bound max schema (fun b => at_most (f64_of_Z size) b).

(** The length of a text is that in characters, and its [pattern] matches. *)
Definition text_rules (accepts : string -> string -> Prop) (schema : Ordered.t) (s : string) : Prop :=
  size_bounds "minLength" "maxLength" schema (char_count s)
  /\ forall node, Ordered.get "pattern" schema = Some node ->
       exists pattern, Ordered.text node = Some pattern /\ accepts pattern s.

Definition entries (key : string) (schema : Ordered.t) : option (list (string * Ordered.t)) :=
  Ordered.get key schema >>? Ordered.object.
Definition listed (key : string) (schema : Ordered.t) : option (list Ordered.t) :=
  Ordered.get key schema >>? Ordered.array.

(** The schema of a member, where [properties] has one *)
Definition property_of (schema : Ordered.t) (key : string) : option Ordered.t :=
  entries "properties" schema >>? Ordered.last_entry key.

(** The value is valid: every keyword of the schema holds of it.  [accepts] says which texts a
    pattern accepts, [Regex.matches] in the specification. *)
Inductive valid (accepts : string -> string -> Prop) (schema : Ordered.t) (v : Value) : Prop :=
| valid_intro
    (some : schema <> Ordered.Scalar (Bool false))
    (type : forall types, Ordered.get "type" schema = Some types -> of_types types v)
    (enum : forall l, Ordered.get "enum" schema = Some l ->
       exists ws w, Ordered.array l = Some ws /\ In w ws /\ same_value v (Ordered.value w))
    (const : forall w, Ordered.get "const" schema = Some w -> same_value v (Ordered.value w))
    (any_of : forall l, Ordered.get "anyOf" schema = Some l ->
       exists variants variant, Ordered.array l = Some variants /\ In variant variants /\ valid accepts variant v)
    (number : forall n, as_f64 v = Some n -> number_bounds schema n)
    (text : forall s, v = Str s -> text_rules accepts schema s)
    (size : forall vs, v = Array vs -> size_bounds "minItems" "maxItems" schema (Z.of_nat (length vs)))
    (items : forall vs item x, v = Array vs -> Ordered.get "items" schema = Some item -> In x vs ->
       valid accepts item x)
    (required : forall fields names name, v = Object fields -> listed "required" schema = Some names ->
       In name names -> exists key, Ordered.text name = Some key /\ field key fields <> None)
    (properties : forall fields key p x, v = Object fields -> property_of schema key = Some p ->
       field key fields = Some x -> valid accepts p x)
    (additional : forall fields a key x, v = Object fields ->
       Ordered.get "additionalProperties" schema = Some a -> property_of schema key = None ->
       field key fields = Some x -> valid accepts a x)
    (names : forall fields p key, v = Object fields -> Ordered.get "propertyNames" schema = Some p ->
       field key fields <> None -> valid accepts p (Str key)).

(** What a weaker reading of the patterns admits is no less. *)
Lemma valid_weaken (strict loose : string -> string -> Prop) :
  (forall p s, strict p s -> loose p s) -> forall schema v, valid strict schema v -> valid loose schema v.
Proof.
  intros W. fix IH 3. intros schema v [S T E C A N X Z I R P D M]. constructor; try assumption.
  - intros l El. destruct (A l El) as (vs & x & Ev & Hx & Hv). exists vs, x.
    split; [exact Ev|split; [exact Hx|exact (IH x v Hv)]].
  - intros s Es. destruct (X s Es) as (L & Pa). split; [exact L|].
    intros node En. destruct (Pa node En) as (p & Ep & Hp). exists p. split; [exact Ep|exact (W p s Hp)].
  - intros vs item x E1 E2 Hx. exact (IH item x (I vs item x E1 E2 Hx)).
  - intros fields key p x E1 E2 E3. exact (IH p x (P fields key p x E1 E2 E3)).
  - intros fields a key x E1 E2 E3 E4. exact (IH a x (D fields a key x E1 E2 E3 E4)).
  - intros fields p key E1 E2 E3. exact (IH p (Str key) (M fields p key E1 E2 E3)).
Qed.

(** ** Texts of a value *)

Inductive occurs (s : string) : Value -> Prop :=
| occurs_here : occurs s (Str s)
| occurs_element vs v : In v vs -> occurs s v -> occurs s (Array vs)
| occurs_member fields key v : field key fields = Some v -> occurs s v -> occurs s (Object fields).

(** ** The schemas of the exported file *)

Definition annotations : list string := ["$schema"; "title"; "description"; "default"].

Definition bound_keywords : list string := ["minimum"; "maximum"; "exclusiveMinimum"; "exclusiveMaximum"].

Definition only (allowed : list string) (o : list (string * Ordered.t)) : bool :=
  forallb (fun '(k, _) => one_of k (allowed ++ annotations)) o.

Definition without (keywords : list string) (o : list (string * Ordered.t)) : bool :=
  forallb (fun '(k, _) => negb (one_of k keywords)) o.

Definition finite_number (node : Ordered.t) : bool :=
  is_some_and (Ordered.number node)
    (fun n => match n with S754_zero _ | S754_finite _ _ _ => true | _ => false end).

(** A literal of the type the schema names *)
Definition literal_of_type (ty : string) (node : Ordered.t) : bool :=
  match node with
  | Ordered.Scalar (Bool _) => str_eqb ty "boolean"
  | Ordered.Scalar (Str _) => str_eqb ty "string"
  | Ordered.Scalar (Num _) => str_eqb ty "number" && finite_number node
  | _ => false
  end.

Definition regular_literals (schema : Ordered.t) (o : list (string * Ordered.t)) : bool :=
  is_some_and (Ordered.get "type" schema >>? Ordered.text) (fun ty =>
    if has_key "enum" o
    then only ["type"; "enum"] o && is_some_and (listed "enum" schema) (forallb (literal_of_type ty))
    else only ["type"; "const"] o && is_some_and (Ordered.get "const" schema) (literal_of_type ty)).

Definition regular_record (schema : Ordered.t) (o : list (string * Ordered.t)) : bool :=
  only ["type"; "propertyNames"; "additionalProperties"; "required"] o
  && is_some_and (entries "propertyNames" schema) (only ["type"; "enum"])
  && negb (is_none (entries "additionalProperties" schema)).

(** Of the bounds of an integer, only the outermost [minimum] and [maximum] are at the edge of the
    safe integers, and there is one on either side. *)
Definition regular_integer (schema : Ordered.t) : bool :=
  let number key := Ordered.get key schema >>? Ordered.number in
  existsb (fun key => is_some_and (number key) (fun b => f64_leb b SAFE)) ["maximum"; "exclusiveMaximum"]
  && existsb (fun key => is_some_and (number key) (fun b => f64_leb (SFopp SAFE) b)) ["minimum"; "exclusiveMinimum"]
  && forallb (fun key =>
       is_none_or (number key) (fun b =>
         negb (f64_eqb (SFabs b) SAFE)
         || str_eqb key "maximum" && f64_eqb b SAFE || str_eqb key "minimum" && f64_eqb b (SFopp SAFE)))
       bound_keywords.

(** An object lists its members, and a member it requires is one of them, without a default. *)
Definition regular_object (schema : Ordered.t) (o : list (string * Ordered.t)) : bool :=
  match entries "properties" schema with
  | None => only ["type"] o
  | Some properties =>
      only ["type"; "properties"; "required"; "additionalProperties"] o
      && nodup_keys (map fst properties)
      && (is_none (Ordered.get "required" schema)
          || is_some_and (listed "required" schema)
               (forallb (fun name => is_some_and (Ordered.text name) (fun key =>
                  is_some_and (Ordered.last_entry key properties)
                    (fun p => is_none (Ordered.get "default" p))))))
  end.

(** Where every keyword of a schema means what the projector takes it to mean: the keywords of a
    schema are those of its shape, and each is there once.  Every schema of the exported file is
    such a schema. *)
Fixpoint regular (schema : Ordered.t) : bool :=
  match schema with
  | Ordered.Object o =>
      nodup_keys (map fst o)
      && (if has_key "anyOf" o then
            only ["anyOf"] o
            && forallb (fun variant => is_none (Ordered.get "default" variant)
                 && (negb (reads_as "null" (Ordered.get "type" variant))
                     || is_some_and (Ordered.object variant) (only ["type"])))
                 match listed "anyOf" schema with Some l => l | None => [] end
          else if has_key "enum" o || has_key "const" o then regular_literals schema o
          else if has_key "propertyNames" o then regular_record schema o
          else is_none (schema_type schema)
               || is_some_and (schema_type schema) (fun ty =>
                    if str_eqb ty "object" then regular_object schema o
                    else if str_eqb ty "integer" then regular_integer schema else true))
      && forallb (fun '(key, w) =>
           if str_eqb key "properties" then
             match w with Ordered.Object ps => forallb (fun '(_, p) => regular p) ps | _ => true end
           else if str_eqb key "anyOf" then
             match w with Ordered.Array vs => forallb regular vs | _ => true end
           else if str_eqb key "items" then regular w
           else true) o
  | _ => false
  end.
