(* ===== verification/ToolValidation.v ===== *)
(** * Input errors of the tools ([src/tool_validation.rs])

    The projector that turns an input the validator refused into the error text of the original
    server: it walks the input along the exported schema and collects issues.  It can refuse to
    project; it must not call an input wrong that the schema admits.  [walk] is the traversal and
    [tool_error], [tool_error_from_frame], [confirmation_error] and [tool_output_error] the entry
    points.  [None] is a panic.  The display of numbers and the JSON text of a key are
    parameters ([F64Library], [SerdeJson]), and so are the parsers of a frame. *)
From Stdlib Require Import SpecFloat.
From S2P Require Import Prelude Json Text Serde ReceiptFields Control Number Observed ToolSchema.

Definition outcome (A : Type) : Type := option (result ProjectionUnavailable A).

Definition attempt {A B} (c : outcome A) (k : A -> outcome B) : outcome B :=
  match c with
  | Some (Ok a) => k a
  | Some (Err e) => Some (Err e)
  | None => None
  end.

Notation "'let+' x ':=' c 'in' k" := (attempt c (fun x => k))
  (at level 10, x pattern, c at level 100, k at level 200) : result_scope.

(** ** Bounds of the input *)

Fixpoint bound_input (value : Value) (depth nodes bytes : Z) : result ProjectionUnavailable (Z * Z) :=
  let nodes := nodes + 1 in
  if (MAX_DEPTH <? depth) || (MAX_NODES <? nodes) then Err InputLimit
  else
    let? (nodes, bytes) :=
      match value with
      | Str s => Ok (nodes, saturating_add bytes (str_len s))
      | Array a =>
          (fix elements (a : list Value) (nodes bytes : Z) : result ProjectionUnavailable (Z * Z) :=
             match a with
             | [] => Ok (nodes, bytes)
             | v :: a => let? (nodes, bytes) := bound_input v (depth + 1) nodes bytes in elements a nodes bytes
             end) a nodes bytes
      | Object o =>
          (fix entries (o : list (string * Value)) (nodes bytes : Z) : result ProjectionUnavailable (Z * Z) :=
             match o with
             | [] => Ok (nodes, bytes)
             | (k, v) :: o =>
                 let? (nodes, bytes) := bound_input v (depth + 1) nodes (saturating_add bytes (str_len k)) in
                 entries o nodes bytes
             end) o nodes bytes
      | _ => Ok (nodes, bytes)
      end in
    if MAX_INPUT_BYTES <? bytes then Err InputLimit else Ok (nodes, bytes).

(** ** The keys of a record, in the order of JavaScript *)

Definition U32_MAX : Z := 4294967295.

(** A canonical array index *)
Definition array_index (key : string) : option Z :=
  opt_filter (fun i => negb (i =? U32_MAX) && str_eqb (decimal_text i) key) (parse_unsigned U32_MAX key).

Definition key_order (a b : string) : comparison :=
  match array_index a, array_index b with
  | Some i, Some j => i ?= j
  | Some _, None => Lt
  | None, Some _ => Gt
  | None, None => Eq
  end.

(** Each key at its first place *)
Fixpoint distinct (seen : list string) (l : list string) : list string :=
  match l with
  | [] => []
  | k :: l => if one_of k seen then distinct seen l else k :: distinct (k :: seen) l
  end.

Definition record_keys (input : Value) (order : option Ordered.t) : list string :=
  sort_by key_order
    match order >>? Ordered.object with
    | Some fields => distinct [] (map fst fields)
    | None => match as_object input with Some fields => keys fields | None => [] end
    end.

(** ** Issues *)

Record Issues := mkIssues { values : list string; bytes : Z }.

Definition no_issues : Issues := mkIssues [] 0.

Definition push (path : list string) (message : string) (issues : Issues) : result ProjectionUnavailable Issues :=
  if MAX_ISSUES <=? Z.of_nat (length (values issues)) then Err OutputLimit
  else
    let issue := if Nat.eqb (length path) 0 then message else join "." path +:+ ": " +:+ message in
    let bytes := saturating_add (bytes issues) (str_len issue + 2) in
    if MAX_OUTPUT <? bytes then Err OutputLimit else Ok (mkIssues (values issues ++ [issue]) bytes).

(** ** Leaves *)

Definition double_quote : string := str_of_bytes [34].

Definition received (input : option Value) : string :=
  match input with
  | None => "undefined"
  | Some Null => "null"
  | Some (Bool _) => "boolean"
  | Some (Num _) => "number"
  | Some (Str _) => "string"
  | Some (Array _) => "array"
  | Some (Object _) => "object"
  end.

(** [==] of [f64] where both are numbers *)
Definition equivalent (a b : Value) : bool :=
  match as_f64 a, as_f64 b with
  | Some a, Some b => f64_eqb a b
  | _, _ => value_eqb a b
  end.

Definition is_finite (f : f64) : bool :=
  match f with S754_zero _ | S754_finite _ _ _ => true | _ => false end.

Definition dash : Z := 45.

Definition uuid_byte (i : nat) (b : Z) : bool :=
  if existsb (Nat.eqb i) [8; 13; 18; 23]%nat then b =? dash else is_ascii_hexdigit b.

Definition uuid (s : string) : bool :=
  let b := bytes_of s in
  Nat.eqb (length b) 36
  && forallb (fun '(i, b) => uuid_byte i b) (imap pair b)
  && (str_eqb s "00000000-0000-0000-0000-000000000000"
      || eq_ignore_ascii_case s "ffffffff-ffff-ffff-ffff-ffffffffffff"
      || is_some_and (b !! 14%nat) (fun c => (49 <=? c) && (c <=? 56))
         && is_some_and (b !! 19%nat) (fun c => existsb (Z.eqb (lower_byte c)) [56; 57; 97; 98])).

(** Is the input of the JSON type a schema names? *)
Definition has_type (ty : string) (input : option Value) : bool :=
  if str_eqb ty "object" then is_some_and input is_object
  else if str_eqb ty "array" then is_some_and input is_array
  else if str_eqb ty "string" then is_some_and input is_string
  else if str_eqb ty "number" || str_eqb ty "integer" then is_some_and (input >>? as_f64) is_finite
  else if str_eqb ty "boolean" then is_some_and input (fun v => negb (is_none (as_bool v)))
  else if str_eqb ty "null" then is_some_and input is_null
  else false.

Section Walk.
Context {Codec : SerdeJson} {Lib : F64Library}.

Definition js_number (n : f64) : string :=
  Observed.js_string (Some (if is_finite n then Num (Float n) else Null)).

Definition primitive (v : Value) : string :=
  match v with
  | Str s => double_quote +:+ s +:+ double_quote
  | _ => match as_f64 v with Some n => js_number n | None => str_of_bytes (to_vec v) end
  end.

(** ** Bounds of numbers, texts and arrays *)

(** The direction of a keyword and whether it includes its bound *)
Definition limit_kind (key origin : string) (sized : bool) : option (bool * bool) :=
  if one_of key ["minimum"; "exclusiveMinimum"] && negb sized then Some (false, str_eqb key "minimum")
  else if one_of key ["maximum"; "exclusiveMaximum"] && negb sized then Some (true, str_eqb key "maximum")
  else if str_eqb key "minLength" && str_eqb origin "string" then Some (false, true)
  else if str_eqb key "maxLength" && str_eqb origin "string" then Some (true, true)
  else if str_eqb key "minItems" && str_eqb origin "array" then Some (false, true)
  else if str_eqb key "maxItems" && str_eqb origin "array" then Some (true, true)
  else None.

(** The bounds an integer schema repeats of the safe integers *)
Definition safe_bound (schema : Ordered.t) (origin : string) (bound : f64) : bool :=
  str_eqb origin "number" && reads_as "integer" (Ordered.get "type" schema) && f64_eqb (SFabs bound) SAFE.

Definition limit_failed (big inclusive : bool) (n bound : f64) : bool :=
  if big then if inclusive then f64_ltb bound n else f64_leb bound n
  else if inclusive then f64_ltb n bound else f64_leb n bound.

Definition limit_message (origin : string) (sized big inclusive : bool) (bound : f64) : string :=
  join "" ["Too "; if big then "big" else "small"; ": expected "; origin; " to ";
           if sized then "have" else "be"; " "; if big then "<" else ">"; if inclusive then "=" else "";
           js_number bound;
           if str_eqb origin "string" then " characters" else if str_eqb origin "array" then " items" else ""].

Fixpoint limit_each (schema : Ordered.t) (n : f64) (origin : string) (sized : bool) (path : list string)
    (fields : list (string * Ordered.t)) (issues : Issues) : result ProjectionUnavailable Issues :=
  match fields with
  | [] => Ok issues
  | (key, value) :: fields =>
      let? issues :=
        match limit_kind key origin sized with
        | None => Ok issues
        | Some (big, inclusive) =>
            let? bound := ok_or (Ordered.number value) UnsupportedSchema in
            if safe_bound schema origin bound then Ok issues
            else if limit_failed big inclusive n bound then
              push path (limit_message origin sized big inclusive bound) issues
            else Ok issues
        end in
      limit_each schema n origin sized path fields issues
  end.

Definition limits (schema : Ordered.t) (n : f64) (origin : string) (sized : bool) (path : list string)
    (issues : Issues) : outcome Issues :=
  let! fields := Ordered.object schema in
  Some (limit_each schema n origin sized path fields issues).

(** ** The traversal *)

Definition expectation (schema : Ordered.t) (ty : string) : string :=
  if negb (is_none (track_record schema)) || opaque_record schema then "record"
  else if str_eqb ty "integer" then "number" else ty.

Definition type_message (schema : Ordered.t) (ty : string) (input : option Value) : string :=
  join "" ["Invalid input: expected "; expectation schema ty; ", received "; received input].

(** The literals of the first of [enum] and [const]; the inner [None] is the panic of an [enum]
    that is no array. *)
Definition literals (schema : Ordered.t) : option (option (list Ordered.t)) :=
  match Ordered.get "enum" schema with
  | Some values => Some (Ordered.array values)
  | None => match Ordered.get "const" schema with Some value => Some (Some [value]) | None => None end
  end.

Definition admits_literal (values : list Ordered.t) (input : option Value) : bool :=
  existsb (fun v => is_some_and input (fun i => equivalent i (Ordered.value v))) values.

Definition literal_message (values : list Ordered.t) : string :=
  match values with
  | [v] => "Invalid input: expected " +:+ primitive (Ordered.value v)
  | _ => "Invalid option: expected one of " +:+ join "|" (map (fun v => primitive (Ordered.value v)) values)
  end.

Definition plural (keys : list string) : string := match keys with [_] => "" | _ => "s" end.

Definition unrecognized (show : string -> string) (keys : list string) : string :=
  join "" ["Unrecognized key"; plural keys; ": "; join ", " (map show keys)].

Definition quoted (key : string) : string := double_quote +:+ key +:+ double_quote.
Definition json_text (key : string) : string := str_of_bytes (to_vec (Str key)).

Definition is_required (schema : Ordered.t) (name : string) : bool :=
  is_some_and (Ordered.get "required" schema >>? Ordered.array) (existsb (fun v => reads_as name (Some v))).

Definition is_closed (schema : Ordered.t) : bool :=
  is_some_and (Ordered.get "additionalProperties" schema) (fun v => value_eqb (Ordered.value v) (Bool false)).

(** The members of an object one after another, each with its value and its part of the order *)
Fixpoint members (visit : string -> Ordered.t -> option Value -> option Ordered.t -> Issues -> outcome Issues)
    (skip : string -> option Value -> bool) (input : Value) (order : option Ordered.t)
    (l : list (string * Ordered.t)) (issues : Issues) : outcome Issues :=
  match l with
  | [] => Some (Ok issues)
  | (name, property) :: l =>
      let value := get name input in
      let+ issues :=
        if skip name value then Some (Ok issues)
        else visit name property value (order >>? Ordered.get name) issues in
      members visit skip input order l issues
  end.

Fixpoint elements (visit : nat -> Value -> option Ordered.t -> Issues -> outcome Issues)
    (order : option Ordered.t) (i : nat) (vs : list Value) (issues : Issues) : outcome Issues :=
  match vs with
  | [] => Some (Ok issues)
  | v :: vs =>
      let+ issues := visit i v ((order >>? Ordered.array) >>? (fun a => a !! i)) issues in
      elements visit order (S i) vs issues
  end.

Definition unknown_keys (known : list string) (input : Value) (order : option Ordered.t) : list string :=
  List.filter (fun key => negb (one_of key known)) (record_keys input order).

Definition walk_text (schema : Ordered.t) (input : Value) (path : list string) (issues : Issues) : outcome Issues :=
  let! text := as_str input in
  let+ issues := limits schema (f64_of_Z (char_count text)) "string" true path issues in
  if negb (is_none (Ordered.get "format" schema)) && negb (uuid text) then
    Some (push path "Invalid UUID" issues)
  else Some (Ok issues).

Definition walk_number (schema : Ordered.t) (ty : string) (input : Value) (path : list string) (issues : Issues)
  : outcome Issues :=
  let! number := as_f64 input in
  if str_eqb ty "integer" then
    if negb (is_integral number) then Some (push path "Invalid input: expected int, received number" issues)
    else
      let+ issues :=
        if f64_ltb SAFE number then
          Some (push path ("Too big: expected int to be <=" +:+ js_number SAFE) issues)
        else if f64_ltb number (SFopp SAFE) then
          Some (push path ("Too small: expected int to be >=" +:+ js_number (SFopp SAFE)) issues)
        else Some (Ok issues) in
      limits schema number "number" false path issues
  else limits schema number "number" false path issues.

(** The containers, over the traversal of what is in them *)
Section Containers.
Context (recur : Ordered.t -> option Value -> option Ordered.t -> list string -> Issues -> outcome Issues).

Definition walk_tracks (boolean : Ordered.t) (input : Value) (order : option Ordered.t) (path : list string)
    (issues : Issues) : outcome Issues :=
  let+ issues := members (fun key boolean value order => recur boolean value order (path ++ [key]))
                   (fun _ _ => false) input order (map (fun key => (key, boolean)) TRACK_KEYS) issues in
  match unknown_keys TRACK_KEYS input order with
  | [] => Some (Ok issues)
  | unknown => Some (push path (unrecognized quoted unknown) issues)
  end.

Definition walk_properties (schema : Ordered.t) (properties : list (string * Ordered.t)) (input : Value)
    (order : option Ordered.t) (path : list string) (issues : Issues) : outcome Issues :=
  let+ issues := members (fun name property value order => recur property value order (path ++ [name]))
                   (fun name value => is_none value && negb (is_required schema name))
                   input order properties issues in
  if negb (is_closed schema) then Some (Ok issues)
  else match unknown_keys (map fst properties) input order with
  | [] => Some (Ok issues)
  | unknown =>
      if Nat.ltb 1 (length unknown) && is_none order then Some (Err UnsupportedSchema)
      else Some (push path (unrecognized json_text unknown) issues)
  end.

Definition walk_object (schema : Ordered.t) (input : Value) (order : option Ordered.t) (path : list string)
    (issues : Issues) : outcome Issues :=
  if opaque_record schema then Some (Ok issues)
  else match track_record schema with
  | Some boolean => walk_tracks boolean input order path issues
  | None =>
      match Ordered.get "properties" schema >>? Ordered.object with
      | None => Some (Ok issues)
      | Some properties => walk_properties schema properties input order path issues
      end
  end.

Definition walk_array (schema : Ordered.t) (input : Value) (order : option Ordered.t) (path : list string)
    (issues : Issues) : outcome Issues :=
  let! vs := as_array input in
  let n := f64_of_Z (Z.of_nat (length vs)) in
  if is_some_and (Ordered.get "maxItems" schema >>? Ordered.number) (fun max => f64_ltb max n) then
    limits schema n "array" true path issues
  else
    let+ issues :=
      match Ordered.get "items" schema with
      | None => Some (Ok issues)
      | Some item =>
          elements (fun i v order => recur item (Some v) order (path ++ [decimal_text (Z.of_nat i)]))
            order 0 vs issues
      end in
    limits schema n "array" true path issues.

Definition walk_typed (schema : Ordered.t) (ty : string) (input : option Value) (order : option Ordered.t)
    (path : list string) (issues : Issues) : outcome Issues :=
  if negb (has_type ty input) then Some (push path (type_message schema ty input) issues)
  else
    let! input := input in
    if str_eqb ty "object" then walk_object schema input order path issues
    else if str_eqb ty "array" then walk_array schema input order path issues
    else if str_eqb ty "string" then walk_text schema input path issues
    else if str_eqb ty "number" || str_eqb ty "integer" then walk_number schema ty input path issues
    else Some (Ok issues).
End Containers.

Fixpoint walk (room : nat) (schema : Ordered.t) (input : option Value) (order : option Ordered.t)
    (path : list string) (issues : Issues) : outcome Issues :=
  match room with
  | O => Some (Err InputLimit)
  | S room =>
      if unknown_json schema then
        if is_none input then
          Some (push path "Invalid input: expected nonoptional, received undefined" issues)
        else Some (Ok issues)
      else match nullable_base schema with
      | Some base =>
          if is_some_and input is_null then Some (Ok issues) else walk room base input order path issues
      | None =>
      match literal_union schema with
      | Some values =>
          if admits_literal values input then Some (Ok issues) else Some (push path "Invalid input" issues)
      | None =>
      if nullable schema && is_some_and input is_null then Some (Ok issues)
      else if is_none input && negb (is_none (Ordered.get "default" schema)) then Some (Ok issues)
      else match literals schema with
      | Some values =>
          let! values := values in
          if admits_literal values input then Some (Ok issues)
          else Some (push path (literal_message values) issues)
      | None =>
      match schema_type schema with
      | None => Some (Err UnsupportedSchema)
      | Some ty => walk_typed (walk room) schema ty input order path issues
      end
      end
      end
      end
  end.

(** ** The answers *)

Definition error_value (text : string) : Value :=
  object_of [("content", Array [object_of [("type", Str "text"); ("text", Str text)]]); ("isError", Bool true)].

(** The text of the collected issues, or the refusal *)
Definition project (prefix name : string) (issues : Issues) : result ProjectionUnavailable Value :=
  if Nat.eqb (length (values issues)) 0 then Err NoIssues
  else
    let text := join "" [prefix; name; ": "; join ", " (values issues)] in
    if MAX_OUTPUT <? str_len text then Err OutputLimit else Ok (error_value text).

Definition project_input_error (name : string) (schema : Ordered.t) (args : Value) (order : option Ordered.t)
  : outcome Value :=
  let+ _ := Some (bound_input args 0 0 0) in
  let+ _ := Some (qualify levels schema) in
  if negb (is_object args) then Some (Err UnsupportedSchema)
  else
    let+ issues := walk levels schema (Some args) order [] no_issues in
    Some (project "Input validation error: Invalid arguments for tool " name issues).

Definition input_error (catalog : gmap string Ordered.t) (name : string) (schema args : Value)
    (order : option Ordered.t) : outcome Value :=
  if 256 <? str_len name then Some (Err UnknownTool)
  else
    let+ node := Some (ok_or (catalog !! name) UnknownTool) in
    if negb (value_eqb (Ordered.value node) schema) then Some (Err SchemaMismatch)
    else project_input_error name node args order.

Definition tool_error (catalog : gmap string Ordered.t) (name : string) (schema args : Value) : outcome Value :=
  input_error catalog name schema args None.

Definition frame_arguments (frame : Ordered.t) : option Ordered.t :=
  Ordered.get "params" frame >>? Ordered.get "arguments".

(** [frame] is the parsed frame, or [None] when it does not parse, and [size] its length. *)
Definition tool_error_from_frame (catalog : gmap string Ordered.t) (name : string) (schema args : Value)
    (frame : option Ordered.t) (size : Z) : outcome Value :=
  if negb (str_eqb name "obs-set-input-audio-tracks") then Some (Err UnknownTool)
  else if 8 * 1024 * 1024 <? size then Some (Err InputLimit)
  else
    let+ _ := Some (bound_input args 0 0 0) in
    let+ ordered := Some (ok_or frame UnsupportedSchema) in
    let arguments := match frame_arguments ordered with Some a => a | None => Ordered.Object [] end in
    if negb (value_eqb (Ordered.value arguments) args) then Some (Err UnsupportedSchema)
    else input_error catalog name schema args (Some arguments).

Definition confirmation_error (catalog : gmap string Ordered.t) (name : string) (args : Value) : outcome Value :=
  let+ schema := Some (confirmation_node catalog name) in
  project_input_error name schema args None.

(** [outputs] is the catalogue of the field [outputSchema]. *)
Definition tool_output_error (outputs : gmap string Ordered.t) (name : string) (schema output : Value)
  : outcome Value :=
  if negb (str_eqb name "obs-duplicate-scene-item") then Some (Err UnknownTool)
  else
    let+ node := Some (ok_or (outputs !! name) UnknownTool) in
    if negb (value_eqb (Ordered.value node) schema) then Some (Err SchemaMismatch)
    else
      let+ _ := Some (qualify levels node) in
      let+ issues := walk levels node (Some output) None [] no_issues in
      Some (project "Output validation error: Invalid structured content for tool " name issues).
End Walk.

(** ** The order of the settings of scene sources *)

(** The keys of one source: [None] without settings, a refusal when they are no object *)
Definition setting_keys (source : Ordered.t) : result ProjectionUnavailable (option (list string)) :=
  match Ordered.get "settings" source with
  | None => Ok None
  | Some settings =>
      if is_none (Ordered.object settings) then Err UnsupportedSchema
      else Ok (Some (record_keys (Ordered.value settings) (Some settings)))
  end.

Fixpoint all_setting_keys (sources : list Ordered.t)
  : result ProjectionUnavailable (list (option (list string))) :=
  match sources with
  | [] => Ok []
  | source :: sources =>
      let? keys := setting_keys source in
      let? rest := all_setting_keys sources in
      Ok (keys :: rest)
  end.

(** [ApplySceneSettingsOrder::from_frame] *)
Definition settings_order (original : Value) (frame : option Ordered.t) (size : Z)
  : result ProjectionUnavailable (list (option (list string))) :=
  if 8 * 1024 * 1024 <? size then Err InputLimit
  else
    let? ordered := ok_or frame UnsupportedSchema in
    let? arguments := ok_or (frame_arguments ordered) UnsupportedSchema in
    if negb (value_eqb (Ordered.value arguments) original) then Err UnsupportedSchema
    else
      let? sources := ok_or (opt_filter (fun s => Nat.leb 1 (length s) && Nat.leb (length s) 50)
                               (Ordered.get "sources" arguments >>? Ordered.array)) UnsupportedSchema in
      all_setting_keys sources.
