(* ===== verification/ToolTyping.v ===== *)
(** * What the traversal of an input decides ([src/tool_validation.rs])

    [conforms] is what the projector takes a schema to mean: a relation on the schema and the
    input alone, without order, depth, issues or texts, in the projector's own terms ([uuid],
    [safe_bound]; no [pattern]).  It is a lemma between the traversal and the contract, not the
    contract: [ToolMeaning] compares it with JSON Schema.  Here the traversal of [ToolValidation]
    is shown to decide it ([answers_decided]): an input it calls wrong does not conform, one
    it finds nothing in does; on the catalogue's schemas it does not panic; the controllers of
    the dynamic groups enter the catalogue from their own checked descriptors or not at all. *)
From Stdlib Require Import SpecFloat.
From S2P Require Import Prelude Json Text Serde ReceiptFields Control Number ToolSchema ToolValidation.

(** ** What the projector takes a schema to mean *)

(** The keyword that decides a schema, in the order of precedence *)
Inductive view :=
| Unknown
| Nullable (base : Ordered.t)
| Union (values : list Ordered.t)
| Literals (values : list Ordered.t)
| Typed (ty : string).

Definition view_of (schema : Ordered.t) : option view :=
  if unknown_json schema then Some Unknown
  else match nullable_base schema, literal_union schema with
  | Some base, _ => Some (Nullable base)
  | None, Some values => Some (Union values)
  | None, None =>
      match literals schema with
      | Some (Some values) => Some (Literals values)
      | Some None => None
      | None => Typed <$> schema_type schema
      end
  end.

(** A schema of literals or of a type: one that [null] in a list of types and a default extend *)
Definition leaf (schema : Ordered.t) : Prop :=
  unknown_json schema = false /\ nullable_base schema = None /\ literal_union schema = None.

(** The number is on the right side of a bound. *)
Definition in_bound (big inclusive : bool) (n bound : f64) : Prop :=
  match SFcompare n bound with
  | Some Lt => big = true
  | Some Gt => big = false
  | Some Eq => inclusive = true
  | None => True
  end.

(** Every bound of the schema that applies holds of the number. *)
Definition respects (schema : Ordered.t) (n : f64) (origin : string) (sized : bool) : Prop :=
  forall fields key node big inclusive,
    Ordered.object schema = Some fields -> In (key, node) fields ->
    limit_kind key origin sized = Some (big, inclusive) ->
    exists bound, Ordered.number node = Some bound
                  /\ (safe_bound schema origin bound = true \/ in_bound big inclusive n bound).

Definition literal_of (values : list Ordered.t) (v : Value) : Prop :=
  exists w, In w values /\ equivalent v (Ordered.value w) = true.

Definition text_conforms (schema : Ordered.t) (s : string) : Prop :=
  respects schema (f64_of_Z (char_count s)) "string" true
  /\ (Ordered.get "format" schema <> None -> uuid s = true).

Definition integer_conforms (schema : Ordered.t) (n : f64) : Prop :=
  is_integral n = true /\ in_bound true true n SAFE /\ in_bound false true n (SFopp SAFE)
  /\ respects schema n "number" false.

Inductive conforms (schema : Ordered.t) : option Value -> Prop :=
| conforms_unknown v :
    view_of schema = Some Unknown -> conforms schema (Some v)
| conforms_null base :
    view_of schema = Some (Nullable base) -> conforms schema (Some Null)
| conforms_base base i :
    view_of schema = Some (Nullable base) -> conforms base i -> conforms schema i
| conforms_union values v :
    view_of schema = Some (Union values) -> literal_of values v -> conforms schema (Some v)
| conforms_nullable :
    leaf schema -> nullable schema = true -> conforms schema (Some Null)
| conforms_default :
    leaf schema -> Ordered.get "default" schema <> None -> conforms schema None
| conforms_literal values v :
    view_of schema = Some (Literals values) -> literal_of values v -> conforms schema (Some v)
| conforms_boolean b :
    view_of schema = Some (Typed "boolean") -> conforms schema (Some (Bool b))
| conforms_null_type :
    view_of schema = Some (Typed "null") -> conforms schema (Some Null)
| conforms_string s :
    view_of schema = Some (Typed "string") -> text_conforms schema s -> conforms schema (Some (Str s))
| conforms_number x n :
    view_of schema = Some (Typed "number") -> as_f64 (Num x) = Some n -> is_finite n = true ->
    respects schema n "number" false -> conforms schema (Some (Num x))
| conforms_integer x n :
    view_of schema = Some (Typed "integer") -> as_f64 (Num x) = Some n -> is_finite n = true ->
    integer_conforms schema n -> conforms schema (Some (Num x))
| conforms_array vs :
    view_of schema = Some (Typed "array") ->
    respects schema (f64_of_Z (Z.of_nat (length vs))) "array" true ->
    (forall item v, Ordered.get "items" schema = Some item -> In v vs -> conforms item (Some v)) ->
    conforms schema (Some (Array vs))
| conforms_record fields :
    view_of schema = Some (Typed "object") -> opaque_record schema = true ->
    conforms schema (Some (Object fields))
| conforms_tracks boolean fields :
    view_of schema = Some (Typed "object") -> opaque_record schema = false ->
    track_record schema = Some boolean ->
    (forall key, In key TRACK_KEYS -> conforms boolean (field key fields)) ->
    incl (keys fields) TRACK_KEYS ->
    conforms schema (Some (Object fields))
| conforms_free fields :
    view_of schema = Some (Typed "object") -> opaque_record schema = false -> track_record schema = None ->
    Ordered.get "properties" schema >>? Ordered.object = None ->
    conforms schema (Some (Object fields))
| conforms_object properties fields :
    view_of schema = Some (Typed "object") -> opaque_record schema = false -> track_record schema = None ->
    Ordered.get "properties" schema >>? Ordered.object = Some properties ->
    (forall name property, In (name, property) properties ->
       field name fields <> None \/ is_required schema name = true -> conforms property (field name fields)) ->
    (is_closed schema = true -> incl (keys fields) (map fst properties)) ->
    conforms schema (Some (Object fields)).

(** ** Comparison of numbers *)

Lemma compare_flip a b : SFcompare b a = CompOpp <$> SFcompare a b.
Proof.
  destruct a as [sa|sa| |sa ma ea], b as [sb|sb| |sb mb eb]; try done; try (by destruct sa); try (by destruct sb);
    try (by destruct sa, sb).
  simpl. change (Pos.compare_cont Eq) with Pos.compare.
  rewrite (Z.compare_antisym ea eb), (Pos.compare_antisym ma mb).
  by destruct sa, sb, (ea ?= eb)%Z, (ma ?= mb)%positive.
Qed.

Lemma not_failed big inclusive n bound :
  limit_failed big inclusive n bound = false <-> in_bound big inclusive n bound.
Proof.
  unfold limit_failed, in_bound, f64_ltb, f64_leb, SFltb, SFleb.
  destruct big, inclusive; rewrite ?(compare_flip n bound); by destruct (SFcompare n bound) as [[]|].
Qed.

(** ** Growth of the issues *)

(** A part of the traversal added issues, and none exactly when [P] holds of its input. *)
Definition grows (P : Prop) (issues issues' : Issues) : Prop :=
  exists new, values issues' = values issues ++ new /\ (new = [] <-> P).

Lemma grows_iff P Q a b : (P <-> Q) -> grows P a b -> grows Q a b.
Proof. intros H (new & E & N). exists new. by rewrite <- H. Qed.

#[export] Instance grows_proper : Proper (iff ==> eq ==> eq ==> iff) grows.
Proof. intros P Q H a _ <- b _ <-. by split; apply grows_iff. Qed.

Lemma grows_none (P : Prop) a : P -> grows P a a.
Proof. intros H. exists []. by rewrite app_nil_r. Qed.

Lemma grows_push (P : Prop) path message a b : ~ P -> push path message a = Ok b -> grows P a b.
Proof.
  unfold push. intros H E. repeat step_in E. eexists. split; [done|]. by split.
Qed.

Lemma grows_then P Q a b c : grows P a b -> grows Q b c -> grows (P /\ Q) a c.
Proof.
  intros (n & E & N) (m & F & M). exists (n ++ m). rewrite F, E, app_assoc. split; [done|].
  rewrite <- N, <- M. split; [apply app_eq_nil|]. by intros (-> & ->).
Qed.

Lemma grows_after P Q a b c : grows P a b -> ~ P -> grows Q b c -> grows False a c.
Proof.
  intros G H G'. eapply grows_iff, (grows_then _ _ _ _ _ G G'). tauto.
Qed.

Lemma attempt_Ok {A B} (c : outcome A) (k : A -> outcome B) b :
  attempt c k = Some (Ok b) <-> exists a, c = Some (Ok a) /\ k a = Some (Ok b).
Proof. destruct c as [[a|e]|]; simpl; naive_solver. Qed.

(** ** The order of the text and the parsed value *)

Lemma value_eqb_arrays xs ys :
  value_eqb (Array xs) (Array ys) = true <-> Forall2 (fun x y => value_eqb x y = true) xs ys.
Proof.
  revert ys. induction xs as [|x xs IH]; intros [|y ys]; simpl in *.
  - by split.
  - split; [done|inversion 1].
  - split; [done|inversion 1].
  - rewrite andb_true_iff, (IH ys). split; [intros (? & ?); by constructor|by inversion 1].
Qed.

Definition same_entry (x y : string * Value) : Prop := fst x = fst y /\ value_eqb (snd x) (snd y) = true.

Lemma value_eqb_objects xs ys :
  value_eqb (Object xs) (Object ys) = true <-> Forall2 same_entry xs ys.
Proof.
  revert ys. induction xs as [|(j, x) xs IH]; intros [|(k, y) ys]; simpl in *.
  - by split.
  - split; [done|inversion 1].
  - split; [done|inversion 1].
  - rewrite !andb_true_iff, str_eqb_eq, (IH ys). split.
    + intros ((-> & ?) & ?). by constructor.
    + inversion 1 as [|? ? ? ? (? & ?)]; simplify_eq/=. done.
Qed.

#[local] Arguments value_eqb : simpl never.

Lemma same_entries_keys xs ys : Forall2 same_entry xs ys -> keys xs = keys ys.
Proof. induction 1 as [|x y xs ys (E & _) _ IH]; simpl; congruence. Qed.

Lemma same_entries_field k xs ys : Forall2 same_entry xs ys ->
  option_Forall2 (fun x y => value_eqb x y = true) (field k xs) (field k ys).
Proof.
  induction 1 as [|(j, x) (j', y) xs ys (E & V) _ IH]; simpl in *; [constructor|]. subst j'.
  destruct (str_eqb k j); [by constructor|done].
Qed.

(** The last of several entries of a key is the one a map keeps. *)
Lemma field_of_entries k (l : list (string * Ordered.t)) : forall acc,
  field k (fold_left (fun acc '(k, v) => field_insert k v acc)
             (map (fun '(k, v) => (k, Ordered.value v)) l) acc)
  = match Ordered.last_entry k l with Some v => Some (Ordered.value v) | None => field k acc end.
Proof.
  induction l as [|(j, v) l IH]; intros acc; simpl; [done|].
  rewrite IH. destruct (Ordered.last_entry k l); [done|].
  destruct (str_eqb j k) eqn:E.
  - apply str_eqb_eq in E as <-. apply field_insert_eq.
  - apply str_eqb_neq in E. by rewrite field_insert_ne by congruence.
Qed.

Lemma field_value k l :
  field k (object_fields (map (fun '(k, v) => (k, Ordered.value v)) l)) = Ordered.value <$> Ordered.last_entry k l.
Proof. unfold object_fields. rewrite field_of_entries. by destruct (Ordered.last_entry k l). Qed.

Lemma last_entry_key k l : Ordered.last_entry k l <> None <-> In k (map fst l).
Proof.
  induction l as [|(j, v) l IH]; simpl; [tauto|].
  destruct (Ordered.last_entry k l); [naive_solver|].
  destruct (str_eqb j k) eqn:E; [apply str_eqb_eq in E|apply str_eqb_neq in E]; naive_solver.
Qed.

(** The ordered tree, where there is one, is of the input. *)
Definition agrees (order : option Ordered.t) (input : option Value) : Prop :=
  match order, input with
  | Some o, Some v => value_eqb (Ordered.value o) v = true
  | _, _ => True
  end.

Lemma agrees_member order fields name :
  agrees order (Some (Object fields)) -> agrees (order >>? Ordered.get name) (field name fields).
Proof.
  destruct order as [[v|a|o]|]; simpl; try done.
  rewrite value_eqb_objects. intros H%(same_entries_field name). rewrite field_value in H.
  destruct (Ordered.last_entry name o); simpl; [|done]. inversion H; by subst.
Qed.

Lemma agrees_element order vs i v :
  agrees order (Some (Array vs)) -> vs !! i = Some v ->
  agrees ((order >>? Ordered.array) >>? (fun a => a !! i)) (Some v).
Proof.
  destruct order as [[w|a|o]|]; simpl; try done.
  rewrite value_eqb_arrays. intros H E. destruct (a !! i) as [o|] eqn:Eo; simpl; [|done].
  eapply (Forall2_lookup_lr _ _ _ i) in H; [exact H| |done]. by rewrite list_lookup_fmap, Eo.
Qed.

Lemma distinct_In l : forall seen k, In k (distinct seen l) <-> In k l /\ ~ In k seen.
Proof.
  induction l as [|j l IH]; intros seen k; simpl; [tauto|].
  destruct (one_of j seen) eqn:E; simpl; rewrite IH; simpl.
  - apply one_of_In in E. naive_solver.
  - assert (~ In j seen) by (rewrite <- one_of_In; congruence).
    destruct (decide (j = k)); naive_solver.
Qed.

(** The enumerated keys are those of the input. *)
Lemma record_keys_In order fields k :
  agrees order (Some (Object fields)) -> In k (record_keys (Object fields) order) <-> In k (keys fields).
Proof.
  unfold record_keys. intros A. rewrite sort_by_perm.
  destruct order as [[v|a|o]|]; simpl in *; try done.
  rewrite distinct_In. apply value_eqb_objects in A.
  rewrite <- (same_entries_keys _ _ A), <- field_key, field_value, <- last_entry_key.
  destruct (Ordered.last_entry k o); naive_solver.
Qed.

Lemma unknown_keys_nil known order fields :
  agrees order (Some (Object fields)) ->
  unknown_keys known (Object fields) order = [] <-> incl (keys fields) known.
Proof.
  intros A. unfold unknown_keys, incl. split.
  - intros E k Hk. destruct (one_of k known) eqn:O; [by apply one_of_In|].
    assert (In k []) as []. rewrite <- E. apply filter_In. by rewrite record_keys_In, O.
  - intros H. destruct (List.filter _ _) as [|k l] eqn:E; [done|].
    assert (In k (k :: l)) as Hk by (by left). rewrite <- E in Hk. apply filter_In in Hk as (Hk & O).
    rewrite record_keys_In in Hk by done. apply H, one_of_In in Hk. by rewrite Hk in O.
Qed.

(** ** The views of a schema, inverted *)

Lemma leaf_view schema : leaf schema ->
  view_of schema = match literals schema with
                   | Some (Some values) => Some (Literals values)
                   | Some None => None
                   | None => Typed <$> schema_type schema
                   end.
Proof. intros (H1 & H2 & H3). unfold view_of. by rewrite H1, H2, H3. Qed.

Lemma leaf_not_unknown schema : leaf schema -> view_of schema <> Some Unknown.
Proof. intros H. rewrite leaf_view by done. by destruct (literals schema) as [[]|], (schema_type schema). Qed.

Lemma leaf_not_nullable schema base : leaf schema -> view_of schema <> Some (Nullable base).
Proof. intros H. rewrite leaf_view by done. by destruct (literals schema) as [[]|], (schema_type schema). Qed.

Lemma leaf_not_union schema vs : leaf schema -> view_of schema <> Some (Union vs).
Proof. intros H. rewrite leaf_view by done. by destruct (literals schema) as [[]|], (schema_type schema). Qed.

(** Invert [conforms] at a schema whose view is known. *)
Ltac by_view :=
  let H := fresh in
  intros H; inversion H; subst;
  try match goal with
    | H1 : view_of ?s = Some ?v, H2 : view_of ?s = Some ?w |- _ => rewrite H1 in H2; simplify_eq
    end;
  try match goal with
    | H1 : view_of ?s = Some _, H2 : leaf ?s |- _ =>
        exfalso; first [by apply (leaf_not_unknown s H2) | by apply (leaf_not_nullable s _ H2 H1)
                       | by apply (leaf_not_union s _ H2 H1)]
    end.

Section Walk.
Context {Codec : SerdeJson} {Lib : F64Library}.

(** ** Bounds *)

Lemma limit_each_grows schema n origin sized path fields : forall a b,
  limit_each schema n origin sized path fields a = Ok b ->
  grows (forall key node big inclusive, In (key, node) fields ->
           limit_kind key origin sized = Some (big, inclusive) ->
           exists bound, Ordered.number node = Some bound
                         /\ (safe_bound schema origin bound = true \/ in_bound big inclusive n bound)) a b.
Proof.
  induction fields as [|(key, node) fields IH]; intros a b E; simpl in E.
  - simplify_eq. by apply grows_none.
  - apply bind_result_Ok in E as (c & Ec & E).
    assert (grows (forall big inclusive, limit_kind key origin sized = Some (big, inclusive) ->
              exists bound, Ordered.number node = Some bound
                /\ (safe_bound schema origin bound = true \/ in_bound big inclusive n bound)) a c) as G.
    { destruct (limit_kind key origin sized) as [[big inclusive]|]; [|simplify_eq; by apply grows_none].
      apply bind_result_Ok in Ec as (bound & Eb%ok_or_Ok & Ec).
      destruct (safe_bound schema origin bound) eqn:Es; [simplify_eq; apply grows_none; naive_solver|].
      destruct (limit_failed big inclusive n bound) eqn:Ef.
      - eapply grows_push; [|done]. intros H. destruct (H _ _ eq_refl) as (b' & Eb' & [Hb|Hb%not_failed]); congruence.
      - simplify_eq. apply grows_none. intros ? ? [= <- <-]. exists bound. rewrite <- not_failed. auto. }
    eapply grows_iff, (grows_then _ _ _ _ _ G (IH _ _ E)). split.
    + intros (H1 & H2) k x bg inc [[= <- <-]|Hin]; eauto.
    + intros H. split; [intros; by eapply H; [left|]|]. intros k x bg inc Hin. apply H. by right.
Qed.

Lemma limits_grows schema n origin sized path a b :
  limits schema n origin sized path a = Some (Ok b) -> grows (respects schema n origin sized) a b.
Proof.
  unfold limits. destruct (Ordered.object schema) as [fields|] eqn:Eo; simpl; [|done].
  intros [= E]. eapply grows_iff, limit_each_grows, E. unfold respects. rewrite Eo. naive_solver.
Qed.

Lemma walk_text_grows schema t path a b :
  walk_text schema (Str t) path a = Some (Ok b) -> grows (text_conforms schema t) a b.
Proof.
  unfold walk_text. simpl. intros (c & G%limits_grows & E)%attempt_Ok.
  unfold text_conforms. eapply grows_then; [exact G|].
  destruct (Ordered.get "format" schema); simpl in *; [destruct (uuid t); simpl in *|];
    simplify_eq; try by apply grows_none.
  eapply grows_push; [|done]. intros H. by specialize (H ltac:(done)).
Qed.

Lemma walk_number_grows schema x n path a b :
  as_f64 (Num x) = Some n ->
  walk_number schema "number" (Num x) path a = Some (Ok b) -> grows (respects schema n "number" false) a b.
Proof. unfold walk_number. intros ->. simpl. apply limits_grows. Qed.

Lemma beyond_safe path n a b :
  (if f64_ltb SAFE n then Some (push path ("Too big: expected int to be <=" +:+ js_number SAFE) a)
   else if f64_ltb n (SFopp SAFE) then
     Some (push path ("Too small: expected int to be >=" +:+ js_number (SFopp SAFE)) a)
   else Some (Ok a)) = Some (Ok b) ->
  grows (in_bound true true n SAFE /\ in_bound false true n (SFopp SAFE)) a b.
Proof.
  intros E. apply (grows_iff (f64_ltb SAFE n = false /\ f64_ltb n (SFopp SAFE) = false)).
  { pose proof (not_failed true true n SAFE); pose proof (not_failed false true n (SFopp SAFE)); cbn in *; tauto. }
  destruct (f64_ltb SAFE n); [|destruct (f64_ltb n (SFopp SAFE))]; apply Some_inj in E.
  - eapply grows_push, E. naive_solver.
  - eapply grows_push, E. naive_solver.
  - injection E as <-. by apply grows_none.
Qed.

Lemma walk_integer_grows schema x n path a b :
  as_f64 (Num x) = Some n ->
  walk_number schema "integer" (Num x) path a = Some (Ok b) -> grows (integer_conforms schema n) a b.
Proof.
  unfold walk_number, integer_conforms. intros ->. cbn -[SAFE]. destruct (is_integral n); cbn -[SAFE].
  - intros (c & Ec%beyond_safe & E%limits_grows)%attempt_Ok.
    eapply grows_iff, (grows_then _ _ _ _ _ Ec E). tauto.
  - intros [= E]. eapply grows_push, E. naive_solver.
Qed.

(** ** Members and elements *)

Lemma members_grows visit skip input order (P : string -> Ordered.t -> Prop) l :
  (forall name property a b, In (name, property) l -> skip name (get name input) = false ->
     visit name property (get name input) (order >>? Ordered.get name) a = Some (Ok b) ->
     grows (P name property) a b) ->
  forall a b, members visit skip input order l a = Some (Ok b) ->
  grows (forall name property, In (name, property) l -> skip name (get name input) = false -> P name property) a b.
Proof.
  induction l as [|(name, property) l IH]; intros V a b E; simpl in E.
  - simplify_eq. by apply grows_none.
  - apply attempt_Ok in E as (c & Ec & E).
    assert (grows (skip name (get name input) = false -> P name property) a c) as G.
    { destruct (skip name (get name input)) eqn:Es; [simplify_eq; by apply grows_none|].
      apply V in Ec; [|by left|done]. eapply grows_iff, Ec. naive_solver. }
    apply IH in E; [|intros x p; intros; apply V; [by right|done|done]].
    eapply grows_iff, (grows_then _ _ _ _ _ G E).
    split.
    + intros (H1 & H2) x p [[= <- <-]|Hin]; auto.
    + intros H. split; [apply H; by left|]. intros x p Hin. apply H. by right.
Qed.

Lemma elements_grows visit order (all : list Value) (P : Value -> Prop) :
  (forall i v a b, all !! i = Some v ->
     visit i v ((order >>? Ordered.array) >>? (fun a => a !! i)) a = Some (Ok b) -> grows (P v) a b) ->
  forall vs i a b, (forall j v, vs !! j = Some v -> all !! (i + j)%nat = Some v) ->
  elements visit order i vs a = Some (Ok b) -> grows (forall v, In v vs -> P v) a b.
Proof.
  intros V. induction vs as [|v vs IH]; intros i a b At E; simpl in E.
  - simplify_eq. by apply grows_none.
  - apply attempt_Ok in E as (c & Ec & E).
    apply V in Ec; [|rewrite <- (At 0%nat v eq_refl); f_equal; lia].
    apply IH in E; [|intros j w Hw; rewrite <- (At (S j) w Hw); f_equal; lia].
    eapply grows_iff, (grows_then _ _ _ _ _ Ec E). split.
    + intros (H1 & H2) w [<-|Hw]; auto.
    + intros H. split; [apply H; by left|]. intros w Hw. apply H. by right.
Qed.

Lemma conforms_unknown_iff schema i : view_of schema = Some Unknown -> conforms schema i <-> i <> None.
Proof.
  intros V. split; [by by_view|]. destruct i; [intros _; by constructor|done].
Qed.

Lemma conforms_base_iff schema base i :
  view_of schema = Some (Nullable base) -> conforms schema i <-> i = Some Null \/ conforms base i.
Proof.
  intros V. split; [by_view; eauto|]. intros [->|H]; [by eapply conforms_null|by eapply conforms_base].
Qed.

Lemma admits_literal_iff vs i : admits_literal vs i = true <-> exists v, i = Some v /\ literal_of vs v.
Proof.
  unfold admits_literal, literal_of. rewrite existsb_exists.
  destruct i; simpl; naive_solver.
Qed.

Lemma conforms_union_iff schema vs i :
  view_of schema = Some (Union vs) -> conforms schema i <-> admits_literal vs i = true.
Proof.
  intros V. rewrite admits_literal_iff. split; [by_view; eauto|].
  intros (v & -> & L). by eapply conforms_union.
Qed.

(** The inputs a schema of literals or of a type admits whatever its literals and its type *)
Definition excused (schema : Ordered.t) (i : option Value) : Prop :=
  nullable schema = true /\ i = Some Null \/ Ordered.get "default" schema <> None /\ i = None.

Lemma excused_conforms schema i : leaf schema -> excused schema i -> conforms schema i.
Proof. intros L [(N & ->)|(D & ->)]; [by apply conforms_nullable|by apply conforms_default]. Qed.

Lemma conforms_literals_iff schema vs i :
  leaf schema -> view_of schema = Some (Literals vs) -> ~ excused schema i ->
  conforms schema i <-> admits_literal vs i = true.
Proof.
  intros L V X. rewrite admits_literal_iff. split.
  - unfold excused in X. by_view; naive_solver.
  - intros (v & -> & M). by eapply conforms_literal.
Qed.

Lemma typed_has_type schema ty i :
  view_of schema = Some (Typed ty) -> ~ excused schema i -> conforms schema i -> has_type ty i = true.
Proof.
  intros V X. unfold excused in X. by_view; try done; try (destruct X; by auto); unfold has_type; cbn -[as_f64];
    match goal with H : as_f64 _ = Some _ |- _ => by rewrite H end.
Qed.

Lemma conforms_text_iff schema s :
  view_of schema = Some (Typed "string") -> conforms schema (Some (Str s)) <-> text_conforms schema s.
Proof. intros V. split; [by by_view|by apply conforms_string]. Qed.

Lemma conforms_number_iff schema x n :
  view_of schema = Some (Typed "number") -> as_f64 (Num x) = Some n -> is_finite n = true ->
  conforms schema (Some (Num x)) <-> respects schema n "number" false.
Proof. intros V E F. split; [by_view; by simplify_eq|by eapply conforms_number]. Qed.

Lemma conforms_integer_iff schema x n :
  view_of schema = Some (Typed "integer") -> as_f64 (Num x) = Some n -> is_finite n = true ->
  conforms schema (Some (Num x)) <-> integer_conforms schema n.
Proof. intros V E F. split; [by_view; by simplify_eq|by eapply conforms_integer]. Qed.

Lemma conforms_array_iff schema vs :
  view_of schema = Some (Typed "array") ->
  conforms schema (Some (Array vs)) <->
  respects schema (f64_of_Z (Z.of_nat (length vs))) "array" true
  /\ (forall item v, Ordered.get "items" schema = Some item -> In v vs -> conforms item (Some v)).
Proof. intros V. split; [by by_view|]. intros (R & I). by apply conforms_array. Qed.

Lemma conforms_tracks_iff schema boolean fields :
  view_of schema = Some (Typed "object") -> opaque_record schema = false ->
  track_record schema = Some boolean ->
  conforms schema (Some (Object fields)) <->
  (forall key, In key TRACK_KEYS -> conforms boolean (field key fields)) /\ incl (keys fields) TRACK_KEYS.
Proof.
  intros V O T. split; [|by intros (H1 & H2); eapply conforms_tracks]. by_view; congruence || (simplify_eq; auto).
Qed.

Lemma conforms_object_iff schema properties fields :
  view_of schema = Some (Typed "object") -> opaque_record schema = false -> track_record schema = None ->
  Ordered.get "properties" schema >>? Ordered.object = Some properties ->
  conforms schema (Some (Object fields)) <->
  (forall name property, In (name, property) properties ->
     field name fields <> None \/ is_required schema name = true -> conforms property (field name fields))
  /\ (is_closed schema = true -> incl (keys fields) (map fst properties)).
Proof.
  intros V O T P. split; [|by intros (H1 & H2); eapply conforms_object]. by_view; congruence || (simplify_eq; auto).
Qed.

(** ** The traversal decides it *)

Lemma has_object i : has_type "object" i = true -> exists fields, i = Some (Object fields).
Proof. destruct i as [[]|]; try done. eauto. Qed.
Lemma has_array i : has_type "array" i = true -> exists vs, i = Some (Array vs).
Proof. destruct i as [[]|]; try done. eauto. Qed.
Lemma has_string i : has_type "string" i = true -> exists s, i = Some (Str s).
Proof. destruct i as [[]|]; try done. eauto. Qed.

Lemma has_number ty i : ty = "number"%string \/ ty = "integer"%string -> has_type ty i = true ->
  exists x n, i = Some (Num x) /\ as_f64 (Num x) = Some n /\ is_finite n = true.
Proof.
  intros T H. assert (is_some_and (i >>? as_f64) is_finite = true) as E by (by destruct T; subst ty).
  destruct i as [[| |x| | |]|]; try done. apply is_some_and_true in E as (n & En & F). eauto.
Qed.

(** An array longer than its maximum fails the traversal of its bounds. *)
Lemma over_maximum schema n :
  is_some_and (Ordered.get "maxItems" schema >>? Ordered.number) (fun max => f64_ltb max n) = true ->
  ~ respects schema n "array" true.
Proof.
  intros (max & E & L)%is_some_and_true R.
  destruct schema as [v|a|o]; simpl in E; try done.
  destruct (Ordered.last_entry "maxItems" o) as [node|] eqn:El; simpl in E; [|done].
  assert (In ("maxItems"%string, node) o) as Hin.
  { clear -El. induction o as [|(k, v) o IH]; simpl in *; [done|].
    destruct (Ordered.last_entry "maxItems" o); [right; apply IH; congruence|].
    destruct (str_eqb k "maxItems") eqn:Ek; [apply str_eqb_eq in Ek|]; simplify_eq. by left. }
  destruct (R o _ _ true true eq_refl Hin eq_refl) as (b & Eb & [S|I%not_failed]); [done|].
  simpl in I. congruence.
Qed.

Section Typed.
Context (recur : Ordered.t -> option Value -> option Ordered.t -> list string -> Issues -> outcome Issues).
Context (recur_grows : forall schema input order path a b,
  agrees order input -> recur schema input order path a = Some (Ok b) -> grows (conforms schema input) a b).

Lemma walk_tracks_grows schema boolean fields order path a b :
  view_of schema = Some (Typed "object") -> opaque_record schema = false ->
  track_record schema = Some boolean -> agrees order (Some (Object fields)) ->
  walk_tracks recur boolean (Object fields) order path a = Some (Ok b) ->
  grows (conforms schema (Some (Object fields))) a b.
Proof.
  intros V O T A (c & Ec & E)%attempt_Ok.
  apply members_grows with (P := fun name property => conforms property (field name fields)) in Ec.
  2:{ intros name property a' b' _ _. apply recur_grows. by apply agrees_member. }
  eapply grows_iff, (grows_then _ (incl (keys fields) TRACK_KEYS) _ _ _ Ec).
  - rewrite (conforms_tracks_iff _ _ _ V O T). split; intros (H1 & H2); (split; [|done]).
    + intros key Hk. apply H1; [|done]. apply in_map_iff. eauto.
    + intros name property (key & [= <- <-] & Hk)%in_map_iff _. auto.
  - rewrite <- (unknown_keys_nil _ _ _ A). destruct (unknown_keys _ _ _); simplify_eq.
    + by apply grows_none.
    + by eapply grows_push.
Qed.

Lemma walk_properties_grows schema properties fields order path a b :
  view_of schema = Some (Typed "object") -> opaque_record schema = false ->
  track_record schema = None -> agrees order (Some (Object fields)) ->
  Ordered.get "properties" schema >>? Ordered.object = Some properties ->
  walk_properties recur schema properties (Object fields) order path a = Some (Ok b) ->
  grows (conforms schema (Some (Object fields))) a b.
Proof.
  intros V O T A P (c & Ec & E)%attempt_Ok.
  apply members_grows with (P := fun name property => conforms property (field name fields)) in Ec.
  2:{ intros name property a' b' _ _. apply recur_grows. by apply agrees_member. }
  eapply grows_iff, (grows_then _ (is_closed schema = true -> incl (keys fields) (map fst properties)) _ _ _ Ec).
  - rewrite (conforms_object_iff _ _ _ V O T P). simpl.
    assert (forall name, is_none (field name fields) && negb (is_required schema name) = false
                         <-> field name fields <> None \/ is_required schema name = true) as Skip.
    { intros name. destruct (field name fields), (is_required schema name); simpl; naive_solver. }
    setoid_rewrite Skip. done.
  - rewrite <- (unknown_keys_nil _ _ _ A). destruct (is_closed schema); simpl in E.
    + destruct (unknown_keys _ _ _) as [|k u]; [simplify_eq; by apply grows_none|].
      destruct (Nat.ltb _ _ && _); simplify_eq. eapply grows_push; [|done]. naive_solver.
    + simplify_eq. by apply grows_none.
Qed.

Lemma walk_array_grows schema vs order path a b :
  view_of schema = Some (Typed "array") -> agrees order (Some (Array vs)) ->
  walk_array recur schema (Array vs) order path a = Some (Ok b) ->
  grows (conforms schema (Some (Array vs))) a b.
Proof.
  intros V A E. unfold walk_array in E. simpl in E.
  destruct (is_some_and _ _) eqn:Em.
  - apply over_maximum in Em. apply limits_grows in E. eapply grows_iff, E.
    rewrite (conforms_array_iff _ _ V). tauto.
  - apply attempt_Ok in E as (c & Ec & E%limits_grows).
    assert (grows (forall item v, Ordered.get "items" schema = Some item -> In v vs ->
                     conforms item (Some v)) a c) as G.
    { destruct (Ordered.get "items" schema) as [item|]; [|simplify_eq; by apply grows_none].
      apply (elements_grows _ order vs (fun v => conforms item (Some v))) in Ec; [|clear Ec|done].
      - eapply grows_iff, Ec. naive_solver.
      - intros i v a' b' Hv. apply recur_grows. by eapply agrees_element. }
    eapply grows_iff, (grows_then _ _ _ _ _ G E). rewrite (conforms_array_iff _ _ V). tauto.
Qed.

Lemma walk_object_grows schema fields order path a b :
  view_of schema = Some (Typed "object") -> agrees order (Some (Object fields)) ->
  walk_object recur schema (Object fields) order path a = Some (Ok b) ->
  grows (conforms schema (Some (Object fields))) a b.
Proof.
  unfold walk_object. intros V A E. destruct (opaque_record schema) eqn:O.
  { simplify_eq. by apply grows_none, conforms_record. }
  destruct (track_record schema) as [boolean|] eqn:T; [by eapply walk_tracks_grows|].
  destruct (Ordered.get "properties" schema >>? Ordered.object) as [properties|] eqn:P;
    [by eapply walk_properties_grows|].
  simplify_eq. by apply grows_none, conforms_free.
Qed.

Lemma walk_typed_grows schema ty input order path a b :
  view_of schema = Some (Typed ty) -> ~ excused schema input -> agrees order input ->
  walk_typed recur schema ty input order path a = Some (Ok b) -> grows (conforms schema input) a b.
Proof.
  unfold walk_typed. intros V X A E. destruct (has_type ty input) eqn:H; simpl in E.
  2:{ eapply grows_push; [|by injection E]. intros C. apply (typed_has_type _ _ _ V X) in C. congruence. }
  destruct (str_eqb ty "object") eqn:T1; [apply str_eqb_eq in T1 as ->|].
  { apply has_object in H as (fields & ->). by eapply walk_object_grows. }
  destruct (str_eqb ty "array") eqn:T2; [apply str_eqb_eq in T2 as ->|].
  { apply has_array in H as (vs & ->). by eapply walk_array_grows. }
  destruct (str_eqb ty "string") eqn:T3; [apply str_eqb_eq in T3 as ->|].
  { apply has_string in H as (s & ->). rewrite (conforms_text_iff _ _ V). by eapply walk_text_grows. }
  destruct (str_eqb ty "number") eqn:T4; [apply str_eqb_eq in T4 as ->|].
  { apply has_number in H as (x & n & -> & En & F); [|by left].
    rewrite (conforms_number_iff _ _ _ V En F). eapply walk_number_grows; [done|exact E]. }
  destruct (str_eqb ty "integer") eqn:T5; [apply str_eqb_eq in T5 as ->|].
  { apply has_number in H as (x & n & -> & En & F); [|by right].
    rewrite (conforms_integer_iff _ _ _ V En F). eapply walk_integer_grows; [done|exact E]. }
  destruct input as [v|]; simpl in E; [|done]. simplify_eq. apply grows_none.
  unfold has_type in H. rewrite T1, T2, T3, T4, T5 in H. simpl in H.
  destruct (str_eqb ty "boolean") eqn:T6; [apply str_eqb_eq in T6 as ->|].
  { destruct v; try done. by apply conforms_boolean. }
  destruct (str_eqb ty "null") eqn:T7; [apply str_eqb_eq in T7 as ->|done].
  destruct v; try done. by apply conforms_null_type.
Qed.
End Typed.

(** Whatever the traversal completes on, it adds issues exactly when the input does not conform. *)
Lemma walk_grows room : forall schema input order path a b,
  agrees order input -> walk room schema input order path a = Some (Ok b) ->
  grows (conforms schema input) a b.
Proof.
  induction room as [|room IH]; intros schema input order path a b A E; simpl in E; [done|].
  destruct (unknown_json schema) eqn:Eu.
  { assert (view_of schema = Some Unknown) as V by (unfold view_of; by rewrite Eu).
    rewrite (conforms_unknown_iff _ _ V). destruct input; simplify_eq/=.
    - by apply grows_none.
    - eapply grows_push; [|done]. naive_solver. }
  destruct (nullable_base schema) as [base|] eqn:Eb.
  { assert (view_of schema = Some (Nullable base)) as V by (unfold view_of; by rewrite Eu, Eb).
    rewrite (conforms_base_iff _ _ _ V). destruct (is_some_and input is_null) eqn:En.
    - simplify_eq. apply grows_none. left. by destruct input as [[]|].
    - eapply grows_iff, IH, E; [|done]. assert (input <> Some Null) by (by intros ->). tauto. }
  destruct (literal_union schema) as [vs|] eqn:El.
  { assert (view_of schema = Some (Union vs)) as V by (unfold view_of; by rewrite Eu, Eb, El).
    rewrite (conforms_union_iff _ _ _ V). destruct (admits_literal vs input); simplify_eq.
    - by apply grows_none.
    - by eapply grows_push. }
  assert (leaf schema) as L by done.
  destruct (nullable schema && is_some_and input is_null) eqn:En.
  { simplify_eq. apply grows_none, excused_conforms; [done|]. left.
    apply andb_true_iff in En as (N & M). split; [done|]. by destruct input as [[]|]. }
  destruct (is_none input && negb (is_none (Ordered.get "default" schema))) eqn:Ed.
  { simplify_eq. apply grows_none, excused_conforms; [done|]. right.
    apply andb_true_iff in Ed as (N & M). destruct input; [done|]. split; [|done].
    by destruct (Ordered.get "default" schema). }
  assert (~ excused schema input) as X.
  { intros [(N & ->)|(D & ->)]; simpl in *; [by rewrite N in En|by destruct (Ordered.get "default" schema)]. }
  clear En Ed. pose proof (leaf_view schema L) as V.
  destruct (literals schema) as [[vs|]|]; simpl in E; [| done|].
  { rewrite (conforms_literals_iff _ _ _ L V X). destruct (admits_literal vs input); simplify_eq.
    - by apply grows_none.
    - by eapply grows_push. }
  destruct (schema_type schema) as [ty|]; simpl in V; [|done].
  by eapply walk_typed_grows.
Qed.
End Walk.

(** ** Panics *)

Lemma and_then_Some {A B} (o : option A) (f : A -> option B) b :
  o >>? f = Some b <-> exists a, o = Some a /\ f a = Some b.
Proof. destruct o; simpl; naive_solver. Qed.

Lemma attempt_total {A B} (c : outcome A) (k : A -> outcome B) :
  c <> None -> (forall a, c = Some (Ok a) -> k a <> None) -> attempt c k <> None.
Proof. destruct c as [[a|e]|]; simpl; naive_solver. Qed.

(** A record has no [enum] and no [anyOf] beside its [propertyNames], anywhere in the tree.
    [qualify] does not look at the other keywords of a record. *)
Fixpoint plain_records (node : Ordered.t) : bool :=
  match node with
  | Ordered.Scalar _ => true
  | Ordered.Array a => forallb plain_records a
  | Ordered.Object o =>
      negb (has_key "propertyNames" o && (has_key "enum" o || has_key "anyOf" o))
      && forallb (fun '(_, v) => plain_records v) o
  end.

Lemma last_entry_In key o v : Ordered.last_entry key o = Some v -> In (key, v) o.
Proof.
  induction o as [|(k, w) o IH]; simpl; [done|].
  destruct (Ordered.last_entry key o); [intros [= ->]; right; by apply IH|].
  destruct (str_eqb k key) eqn:E; [apply str_eqb_eq in E as ->|done]. intros [= ->]. by left.
Qed.

Lemma last_entry_has key o : Ordered.last_entry key o <> None <-> has_key key o = true.
Proof.
  rewrite last_entry_key. unfold has_key. rewrite existsb_exists, in_map_iff. split.
  - intros ((k, v) & <- & H). exists (k, v). split; [done|]. apply str_eqb_refl.
  - intros ((k, v) & H & E%str_eqb_eq). by exists (k, v).
Qed.

Lemma plain_get node key v : plain_records node = true -> Ordered.get key node = Some v -> plain_records v = true.
Proof.
  destruct node as [w|a|o]; simpl; try done. intros (_ & F)%andb_true_iff E%last_entry_In.
  rewrite forallb_forall in F. exact (F _ E).
Qed.

Lemma plain_member node fields name v :
  plain_records node = true -> Ordered.object node = Some fields -> In (name, v) fields -> plain_records v = true.
Proof.
  destruct node as [w|a|o]; simpl; try done. intros (_ & F)%andb_true_iff [= <-] E.
  rewrite forallb_forall in F. exact (F _ E).
Qed.

Lemma plain_element node a v :
  plain_records node = true -> Ordered.array node = Some a -> In v a -> plain_records v = true.
Proof.
  destruct node as [w|b|o]; simpl; try done. intros F [= <-] E. rewrite forallb_forall in F. exact (F _ E).
Qed.

Lemma plain_record schema key :
  plain_records schema = true -> Ordered.get "propertyNames" schema <> None ->
  In key ["enum"; "anyOf"]%string -> Ordered.get key schema = None.
Proof.
  destruct schema as [w|b|o]; simpl; try done. intros (P & _)%andb_true_iff N%last_entry_has K.
  rewrite N in P. simpl in P. apply negb_true_iff, orb_false_iff in P as (P1 & P2).
  destruct (Ordered.last_entry key o) eqn:E; [|done].
  assert (has_key key o = true) as H by (apply last_entry_has; congruence).
  destruct K as [<-|[<-|[]]]; congruence.
Qed.

Lemma each_Ok {A E} (f : A -> result E unit) l : each f l = Ok tt -> forall x, In x l -> f x = Ok tt.
Proof.
  induction l as [|y l IH]; simpl; [done|]. intros ([] & E1 & E2)%bind_result_Ok x [<-|H]; auto.
Qed.

(** What [qualify] found out about a schema; [room] levels are left for what is in it. *)
Inductive qualified (room : nat) (schema : Ordered.t) : Prop :=
| qualified_unknown : unknown_json schema = true -> qualified room schema
| qualified_record :
    unknown_json schema = false -> Ordered.get "propertyNames" schema <> None ->
    typed_as "object" schema = true -> track_record schema <> None \/ opaque_record schema = true ->
    qualified room schema
| qualified_union vs : literal_union schema = Some vs -> qualified room schema
| qualified_nullable base :
    nullable_base schema = Some base -> qualify room base = Ok tt -> qualified room schema
| qualified_plain :
    Ordered.get "anyOf" schema = None ->
    (forall properties fields name v, Ordered.get "properties" schema = Some properties ->
       Ordered.object properties = Some fields -> In (name, v) fields -> qualify room v = Ok tt) ->
    (forall v, Ordered.get "items" schema = Some v -> qualify room v = Ok tt) ->
    (forall v, Ordered.get "enum" schema = Some v -> Ordered.array v <> None) ->
    (exists ty, schema_type schema = Some ty /\ In ty TYPES) ->
    (Ordered.get "format" schema <> None \/ Ordered.get "pattern" schema <> None ->
       Ordered.get "format" schema <> None /\ reads_as UUID_PATTERN (Ordered.get "pattern" schema) = true) ->
    (forall v, Ordered.get "additionalProperties" schema = Some v ->
       value_eqb (Ordered.value v) (Bool false) = true \/ Ordered.object v = Some []) ->
    Ordered.get "propertyNames" schema = None ->
    qualified room schema.

Lemma track_typed schema : track_record schema <> None -> typed_as "object" schema = true.
Proof.
  unfold track_record. destruct (Ordered.get "propertyNames" schema); [|done]. simpl.
  by destruct (typed_as "object" schema).
Qed.

Lemma opaque_typed schema : opaque_record schema = true -> typed_as "object" schema = true.
Proof. unfold opaque_record. rewrite !andb_true_iff. tauto. Qed.

Lemma not_none {A} (o : option A) : negb (is_none o) = true <-> o <> None.
Proof. by destruct o. Qed.

Lemma literals_listed schema v u :
  qualify_literals schema "enum" = Ok u -> Ordered.get "enum" schema = Some v -> Ordered.array v <> None.
Proof.
  intros H E. unfold qualify_literals in H. rewrite E in H. simpl in H. by destruct (Ordered.array v).
Qed.

Lemma refuse_if_Ok b u : refuse_if b = Ok u -> b = false.
Proof. by destruct b. Qed.

Lemma qualify_step room schema : qualify (S room) schema = Ok tt ->
  Ordered.object schema <> None /\ qualified room schema.
Proof.
  simpl. intros (object & Eo%ok_or_Ok & E)%bind_result_Ok. split; [congruence|].
  destruct (existsb _ object); [done|].
  destruct (unknown_json schema) eqn:Eu; [by apply qualified_unknown|].
  destruct (negb (is_none (Ordered.get "propertyNames" schema))) eqn:Ep.
  { apply not_none in Ep. destruct (negb (is_none (track_record schema))) eqn:Et.
    - apply not_none in Et. apply qualified_record; auto using track_typed.
    - destruct (opaque_record schema) eqn:O; [|done]. apply qualified_record; auto using opaque_typed. }
  destruct (negb (is_none (Ordered.get "anyOf" schema))) eqn:Ea.
  { destruct (literal_union schema) as [vs|] eqn:El; [by eapply qualified_union|]. simpl in E.
    apply bind_result_Ok in E as (base & Eb%ok_or_Ok & E). by eapply qualified_nullable. }
  apply bind_result_Ok in E as (u1 & Ha%refuse_if_Ok & E). apply bind_result_Ok in E as (ty & Et%ok_or_Ok & E).
  apply bind_result_Ok in E as (u2 & Hty%refuse_if_Ok & E). apply bind_result_Ok in E as (u3 & Hf%refuse_if_Ok & E).
  apply bind_result_Ok in E as (u4 & Hp & E). apply bind_result_Ok in E as (u5 & Hi & E).
  apply bind_result_Ok in E as (u6 & He & _).
  assert (Ordered.get "anyOf" schema = None) as A by (by destruct (Ordered.get "anyOf" schema)).
  apply qualified_plain; [done| | | | | | |by destruct (Ordered.get "propertyNames" schema)].
  - intros properties fields name v E1 E2 Hin. rewrite E1 in Hp. simpl in Hp. rewrite E2 in Hp. simpl in Hp.
    destruct u4. apply (each_Ok _ _ Hp) in Hin. simpl in Hin. by apply bind_result_Ok in Hin as ([] & _ & Q).
  - intros v Ev. rewrite Ev in Hi. by destruct u5.
  - intros v. by eapply literals_listed.
  - exists ty. split; [done|]. apply negb_false_iff in Hty. by apply one_of_In.
  - intros F. apply andb_false_iff in Hf as [Hf|Hf].
    + destruct (Ordered.get "format" schema), (Ordered.get "pattern" schema); naive_solver.
    + apply orb_false_iff in Hf as (F1%negb_false_iff & F2%negb_false_iff). split; [|done].
      by destruct (Ordered.get "format" schema).
  - intros v Ev. rewrite Ev in Ha. simpl in Ha. apply andb_false_iff in Ha as [Ha%negb_false_iff|Ha]; [by left|right].
    by destruct (Ordered.object v) as [[|]|].
Qed.

Lemma qualify_inv room schema : qualify room schema = Ok tt ->
  Ordered.object schema <> None /\ exists room', qualified room' schema.
Proof. destruct room as [|room]; [done|]. intros (O & Q)%qualify_step. split; eauto. Qed.

Lemma union_not_nullable schema vs : literal_union schema = Some vs -> nullable_base schema = None.
Proof.
  unfold literal_union, nullable_base. destruct (Ordered.get "anyOf" schema >>? Ordered.array) as [l|]; [|done].
  simpl. destruct (Nat.eqb (length l) 0 || _); [done|]. intros M.
  destruct (negb _); [done|]. destruct (List.find _ l); [|done]. simpl.
  destruct (existsb _ l) eqn:X; [|done]. exfalso.
  apply existsb_exists in X as (x & Hx & N). apply list_elem_of_In, list_elem_of_lookup in Hx as (i & Hx).
  apply mapM_Some_1 in M. eapply Forall2_lookup_l in M as (w & _ & Lw); [|exact Hx].
  unfold literal_variant in Lw. destruct (Ordered.object x) as [fields|]; [|done]. simpl in Lw.
  destruct (Ordered.get "const" x); [|done]. simpl in Lw.
  destruct (Nat.eqb (length fields) 2); [|done]. simpl in Lw.
  destruct (reads_as "number" (Ordered.get "type" x)) eqn:R; [|done].
  apply is_some_and_true in N as (n & En & <-%str_eqb_eq), R as (r & Er & <-%str_eqb_eq). congruence.
Qed.

Lemma no_union schema : Ordered.get "anyOf" schema = None -> literal_union schema = None /\ nullable_base schema = None.
Proof. unfold literal_union, nullable_base. by intros ->. Qed.

(** ["type"] alone, and it reads one type *)
Lemma type_entries ty o :
  value_eqb (Ordered.value (Ordered.Object o)) (Object [("type"%string, Str ty)]) = true ->
  (forall key, Ordered.last_entry key o <> None -> key = "type"%string)
  /\ Ordered.last_entry "type" o = Some (Ordered.Scalar (Str ty)).
Proof.
  intros H%value_eqb_objects.
  change (Forall2 same_entry (object_fields (map (fun '(k, v) => (k, Ordered.value v)) o))
            [("type"%string, Str ty)]) in H.
  split.
  - intros key K. assert (In key (keys (object_fields (map (fun '(k, v) => (k, Ordered.value v)) o)))) as Hin.
    { rewrite <- field_key, field_value. by destruct (Ordered.last_entry key o). }
    rewrite (same_entries_keys _ _ H) in Hin. by destruct Hin as [<-|[]].
  - apply (same_entries_field "type") in H. rewrite field_value in H. simpl in H.
    destruct (Ordered.last_entry "type" o) as [[[]|a|l]|]; inversion H as [? ? E|]; subst; try done.
    unfold value_eqb in E. by apply str_eqb_eq in E as ->.
Qed.

Lemma boolean_qualifies o :
  value_eqb (Ordered.value (Ordered.Object o)) (Object [("type"%string, Str "boolean")]) = true ->
  qualify 1 (Ordered.Object o) = Ok tt.
Proof.
  intros (K & T)%type_entries. cbn [qualify Ordered.object Ordered.get ok_or bind_result].
  assert (forall key, str_eqb key "type" = false -> Ordered.last_entry key o = None) as N.
  { intros key E. destruct (Ordered.last_entry key o) eqn:L; [|done].
    rewrite (K key) in E by congruence. done. }
  assert (existsb (fun '(k, _) => negb (one_of k supported)) o = false) as ->.
  { apply existsb_none. intros (k, v) Hin. assert (k = "type"%string) as ->; [|done].
    apply K, last_entry_key, in_map_iff. by exists (k, v). }
  assert (unknown_json (Ordered.Object o) = false) as ->.
  { unfold unknown_json. simpl. apply last_entry_In in T.
    destruct (forallb _ o) eqn:F; [|done]. rewrite forallb_forall in F. by specialize (F _ T). }
  rewrite !N by done. simpl. unfold schema_type. simpl. rewrite T. simpl.
  unfold qualify_literals. simpl. by rewrite !N.
Qed.

Section Panics.
Context {Codec : SerdeJson} {Lib : F64Library}.

Lemma push_total path m a : Some (push path m a) <> None.
Proof. done. Qed.

Lemma limits_total schema n origin sized path a :
  Ordered.object schema <> None -> limits schema n origin sized path a <> None.
Proof. unfold limits. by destruct (Ordered.object schema). Qed.

Lemma members_total visit skip input order l :
  (forall name property value order a, In (name, property) l -> visit name property value order a <> None) ->
  forall a, members visit skip input order l a <> None.
Proof.
  induction l as [|(name, property) l IH]; intros V a; simpl; [done|].
  apply attempt_total.
  - destruct (skip _ _); [done|]. apply V. by left.
  - intros b _. apply IH. intros. apply V. by right.
Qed.

Lemma elements_total visit order vs :
  (forall i v order a, visit i v order a <> None) -> forall i a, elements visit order i vs a <> None.
Proof.
  intros V. induction vs as [|v vs IH]; intros i a; simpl; [done|]. by apply attempt_total.
Qed.

Lemma walk_text_total schema s path a :
  Ordered.object schema <> None -> walk_text schema (Str s) path a <> None.
Proof.
  intros O. unfold walk_text. simpl. apply attempt_total; [by apply limits_total|].
  intros b _. by destruct (_ && _).
Qed.

Lemma walk_number_total schema ty x n path a :
  Ordered.object schema <> None -> as_f64 (Num x) = Some n -> walk_number schema ty (Num x) path a <> None.
Proof.
  intros O E. unfold walk_number. rewrite E. cbn -[SAFE].
  destruct (str_eqb ty "integer"); [|by apply limits_total]. destruct (is_integral n); cbn -[SAFE]; [|done].
  apply attempt_total; [by repeat destruct (f64_ltb _ _)|]. intros b _. by apply limits_total.
Qed.

(** A schema that is no object has no keyword: the traversal refuses. *)
Lemma walk_leaf_total room schema input order path a :
  Ordered.object schema = None -> walk room schema input order path a <> None.
Proof.
  intros O. destruct room as [|room]; simpl; [done|].
  destruct schema as [v|l|o]; simpl in *; [| |done]; by destruct input.
Qed.

(** The facts the traversal of a leaf relies on *)
Record sound_leaf (P : Ordered.t -> Prop) (schema : Ordered.t) : Prop := {
  leaf_object : Ordered.object schema <> None;
  leaf_enum v : Ordered.get "enum" schema = Some v -> Ordered.array v <> None;
  leaf_parts : typed_as "object" schema = true /\ (track_record schema <> None \/ opaque_record schema = true)
    \/ (forall fields name v, Ordered.get "properties" schema >>? Ordered.object = Some fields ->
           In (name, v) fields -> P v)
       /\ (forall v, Ordered.get "items" schema = Some v -> P v)
}.

Definition admitted (schema : Ordered.t) : Prop :=
  plain_records schema = true /\ exists room, qualify room schema = Ok tt.

Lemma admitted_base schema base :
  admitted schema -> unknown_json schema = false -> nullable_base schema = Some base -> admitted base.
Proof.
  intros (P & room & Q) U B. apply qualify_inv in Q as (_ & r & Q). split.
  - unfold nullable_base in B.
    destruct (Ordered.get "anyOf" schema) as [l|] eqn:El; [|done]. simpl in B.
    destruct (Ordered.array l) as [vs|] eqn:Ev; [|done]. simpl in B.
    destruct (negb _); [done|]. destruct (List.find _ vs) as [b|] eqn:F; [|done]. simpl in B.
    destruct (existsb _ vs); [|done]. simplify_eq.
    eapply plain_element; [by eapply plain_get|done|]. by apply find_some in F as (? & _).
  - destruct Q as [|? N ? ?|? L%union_not_nullable|? E Q|(_ & N)%no_union]; try congruence.
    + apply (plain_record _ "anyOf") in N as (_ & N)%no_union; [congruence|done|by right; left].
    + simplify_eq. by exists r.
Qed.

Lemma admitted_leaf schema :
  admitted schema -> unknown_json schema = false -> nullable_base schema = None -> literal_union schema = None ->
  sound_leaf admitted schema.
Proof.
  intros (P & room & Q) U B L. apply qualify_inv in Q as (O & r & Q).
  destruct Q as [|? N T R|? L'|? E Q|A Hp Hi He]; try congruence.
  - split; [done| |by left]. intros v E.
    apply (plain_record _ "enum") in N; [congruence|done|by left].
  - split; [done|done|right; split].
    + intros fields name v E Hin. apply and_then_Some in E as (properties & E1 & E2). split; [|eauto].
      eapply plain_member; [|done|done]. by eapply plain_get.
    + intros v E. split; [by eapply plain_get|eauto].
Qed.

Lemma track_boolean schema boolean :
  track_record schema = Some boolean ->
  Ordered.get "additionalProperties" schema = Some boolean
  /\ value_eqb (Ordered.value boolean) (Object [("type"%string, Str "boolean")]) = true.
Proof.
  unfold track_record. intros T.
  by repeat first [apply bind_Some in T as (? & ? & T) | step_in T].
Qed.

Section Parts.
Context (recur : Ordered.t -> option Value -> option Ordered.t -> list string -> Issues -> outcome Issues).
Context (recur_total : forall schema input order path a, admitted schema -> recur schema input order path a <> None).
Context (recur_leaf : forall schema input order path a,
  Ordered.object schema = None -> recur schema input order path a <> None).

Lemma walk_tracks_total schema boolean input order path a :
  admitted schema -> track_record schema = Some boolean -> walk_tracks recur boolean input order path a <> None.
Proof.
  intros (P & _) (G & V)%track_boolean. unfold walk_tracks.
  apply attempt_total; [|intros b _; by destruct (unknown_keys _ _ _)].
  apply members_total. intros name property value o i (key & [= <- <-] & _)%in_map_iff.
  apply plain_get in G; [|done].
  destruct boolean as [v|l|o']; [by apply recur_leaf|by apply recur_leaf|].
  apply recur_total. split; [done|exists 1%nat; by apply boolean_qualifies].
Qed.

Lemma walk_object_total schema input order path a :
  admitted schema -> sound_leaf admitted schema -> walk_object recur schema input order path a <> None.
Proof.
  intros A [_ _ L]. unfold walk_object. destruct (opaque_record schema) eqn:O; [done|].
  destruct (track_record schema) as [boolean|] eqn:T; [by eapply walk_tracks_total|].
  destruct L as [(_ & [|])|(L & _)]; [done|done|].
  destruct (Ordered.get "properties" schema >>? Ordered.object) as [properties|] eqn:E; [|done].
  unfold walk_properties. apply attempt_total.
  - apply members_total. intros name property value o i Hin. apply recur_total. by eapply L.
  - intros b _. destruct (negb _); [done|]. destruct (unknown_keys _ _ _); [done|]. by destruct (_ && _).
Qed.

Lemma walk_array_total schema vs order path a :
  schema_type schema = Some "array"%string -> sound_leaf admitted schema ->
  walk_array recur schema (Array vs) order path a <> None.
Proof.
  intros T [O _ L]. unfold walk_array. simpl.
  destruct (is_some_and _ _); [by apply limits_total|]. apply attempt_total; [|intros b _; by apply limits_total].
  destruct (Ordered.get "items" schema) as [item|]; [|done].
  apply elements_total. intros i v o b. apply recur_total.
  destruct L as [(N & _)|(_ & L)]; [|by apply L]. unfold typed_as in N. by rewrite T in N.
Qed.

Lemma walk_typed_total schema ty input order path a :
  schema_type schema = Some ty -> admitted schema -> sound_leaf admitted schema ->
  walk_typed recur schema ty input order path a <> None.
Proof.
  intros T A L. unfold walk_typed. destruct (has_type ty input) eqn:H; simpl; [|done].
  destruct (str_eqb ty "object") eqn:T1; [apply str_eqb_eq in T1 as ->|].
  { apply has_object in H as (fields & ->). by apply walk_object_total. }
  destruct (str_eqb ty "array") eqn:T2; [apply str_eqb_eq in T2 as ->|].
  { apply has_array in H as (vs & ->). by apply walk_array_total. }
  pose proof (leaf_object _ _ L) as O.
  destruct (str_eqb ty "string") eqn:T3; [apply str_eqb_eq in T3 as ->|].
  { apply has_string in H as (s & ->). by apply walk_text_total. }
  destruct (str_eqb ty "number" || str_eqb ty "integer") eqn:T4.
  { apply has_number in H as (x & n & -> & En & F); [by eapply walk_number_total|].
    by rewrite orb_true_iff, !str_eqb_eq in T4. }
  destruct input as [v|]; [done|]. unfold has_type in H. rewrite T1, T2, T3, T4 in H. simpl in H.
  by repeat destruct (str_eqb ty _).
Qed.
End Parts.

Lemma walk_total room : forall schema input order path a,
  admitted schema -> walk room schema input order path a <> None.
Proof.
  induction room as [|room IH]; intros schema input order path a A; simpl; [done|].
  destruct (unknown_json schema) eqn:U; [by destruct (is_none input)|].
  destruct (nullable_base schema) as [base|] eqn:B.
  { destruct (is_some_and input is_null); [done|]. apply IH. by eapply admitted_base. }
  destruct (literal_union schema) as [vs|] eqn:L; [by destruct (admits_literal vs input)|].
  destruct (_ && _); [done|]. destruct (_ && _); [done|].
  pose proof (admitted_leaf _ A U B L) as S.
  destruct (literals schema) as [[vs|]|] eqn:E.
  - simpl. by destruct (admits_literal vs input).
  - unfold literals in E. destruct (Ordered.get "enum" schema) as [v|] eqn:Ev.
    + injection E as E. by apply (leaf_enum _ _ S) in Ev.
    + by destruct (Ordered.get "const" schema).
  - destruct (schema_type schema) as [ty|] eqn:T; [|done].
    apply walk_typed_total; auto. intros. by apply walk_leaf_total.
Qed.
End Panics.

(** ** Where [NoIssues] comes from *)

(** The part does not refuse for want of issues. *)
Definition not_empty {A} (c : outcome A) : Prop := c <> Some (Err NoIssues).

Lemma attempt_not_empty {A B} (c : outcome A) (k : A -> outcome B) :
  not_empty c -> (forall a, not_empty (k a)) -> not_empty (attempt c k).
Proof. unfold not_empty. destruct c as [[a|e]|]; simpl; [auto| |done]. congruence. Qed.

Lemma push_not_empty path m a : not_empty (Some (push path m a)).
Proof. unfold not_empty, push. destruct (_ <=? _); [done|]. by destruct (_ <? _). Qed.

Lemma bound_input_limit : forall v d n b e, bound_input v d n b = Err e -> e = InputLimit.
Proof.
  fix IH 1. intros v d n b e. destruct v as [| | |s|vs|fields]; simpl;
    (destruct (_ || _); [by intros [= <-]|]).
  1-4: by destruct (_ <? _); intros [= <-].
  - set (loop := fix elements (a : list Value) (nodes bytes : Z) := _).
    assert (forall vs n b e, loop vs n b = Err e -> e = InputLimit) as L.
    { clear -IH. induction vs as [|v vs IHvs]; intros n b e; simpl; [done|].
      destruct (bound_input v (d + 1) n b) as [[]|] eqn:E; simpl; [apply IHvs|intros [= <-]; by eapply IH]. }
    destruct (loop _ _ _) as [[]|] eqn:E; simpl; [by destruct (_ <? _); intros [= <-]|].
    intros [= <-]. by eapply L.
  - set (loop := fix entries (o : list (string * Value)) (nodes bytes : Z) := _).
    assert (forall fields n b e, loop fields n b = Err e -> e = InputLimit) as L.
    { clear -IH. induction fields as [|(k, v) fields IHf]; intros n b e; simpl; [done|].
      destruct (bound_input v (d + 1) n _) as [[]|] eqn:E; simpl; [apply IHf|intros [= <-]; by eapply IH]. }
    destruct (loop _ _ _) as [[]|] eqn:E; simpl; [by destruct (_ <? _); intros [= <-]|].
    intros [= <-]. by eapply L.
Qed.

(** [qualify] has one refusal. *)
Definition unsupported {A} (c : result ProjectionUnavailable A) : Prop :=
  match c with Err e => e = UnsupportedSchema | Ok _ => True end.

Lemma bind_unsupported {A B} (c : result ProjectionUnavailable A) (k : A -> result ProjectionUnavailable B) :
  unsupported c -> (forall a, unsupported (k a)) -> unsupported (bind_result c k).
Proof. destruct c; simpl; auto. Qed.

Lemma ok_or_unsupported {A} (o : option A) : unsupported (ok_or o UnsupportedSchema).
Proof. by destruct o. Qed.

Lemma refuse_if_unsupported b : unsupported (refuse_if b).
Proof. by destruct b. Qed.

Lemma each_unsupported {A} (f : A -> result ProjectionUnavailable unit) l :
  (forall x, unsupported (f x)) -> unsupported (each f l).
Proof. intros H. induction l; simpl; [done|]. by apply bind_unsupported. Qed.

Lemma qualify_literals_unsupported schema key : unsupported (qualify_literals schema key).
Proof.
  unfold qualify_literals. destruct (Ordered.get key schema); [|done]. apply bind_unsupported.
  - destruct (str_eqb key "enum"); [apply ok_or_unsupported|done].
  - intros vs. unfold qualify_values. by destruct (_ || _).
Qed.

#[local] Hint Resolve ok_or_unsupported refuse_if_unsupported qualify_literals_unsupported : tools.

Lemma qualify_unsupported room : forall schema, unsupported (qualify room schema).
Proof.
  induction room as [|room IH]; intros schema; simpl; [done|].
  apply bind_unsupported; [auto with tools|]. intros object.
  destruct (existsb _ object); [done|]. destruct (unknown_json schema); [done|].
  destruct (negb _); [by destruct (_ || _)|].
  destruct (negb _); [destruct (negb _); [done|]; apply bind_unsupported; auto with tools|].
  repeat (apply bind_unsupported; [auto with tools|intros _ || intros ?]); auto with tools.
  - destruct (Ordered.get "properties" schema); [|done]. apply bind_unsupported; [auto with tools|].
    intros fields. apply each_unsupported. intros (name, property). apply bind_unsupported; auto with tools.
  - by destruct (Ordered.get "items" schema).
  - done.
Qed.

Section Refusals.
Context {Codec : SerdeJson} {Lib : F64Library}.

Lemma limits_not_empty schema n origin sized path a : not_empty (limits schema n origin sized path a).
Proof.
  unfold not_empty, limits. destruct (Ordered.object schema) as [fields|]; [|done]. simpl. intros [= E].
  revert a E. induction fields as [|(key, v) fields IH]; intros a; simpl; [done|].
  destruct (match limit_kind key origin sized with Some _ => _ | None => _ end) as [b|e] eqn:E; simpl; [apply IH|].
  intros [= ->]. destruct (limit_kind key origin sized) as [(big, inclusive)|]; [|done].
  destruct (Ordered.number v) as [bound|]; simpl in E; [|done]. destruct (safe_bound _ _ _); [done|].
  destruct (limit_failed _ _ _ _); [|done]. eapply push_not_empty. by rewrite E.
Qed.

#[local] Hint Resolve push_not_empty limits_not_empty : tools.

Lemma members_not_empty visit skip input order l :
  (forall name property value order a, not_empty (visit name property value order a)) ->
  forall a, not_empty (members visit skip input order l a).
Proof.
  intros V. induction l as [|(name, property) l IH]; intros a; simpl; [done|].
  apply attempt_not_empty; [|done]. by destruct (skip _ _).
Qed.

Lemma elements_not_empty visit order vs :
  (forall i v order a, not_empty (visit i v order a)) -> forall i a, not_empty (elements visit order i vs a).
Proof. intros V. induction vs as [|v vs IH]; intros i a; simpl; [done|]. by apply attempt_not_empty. Qed.

Lemma walk_text_not_empty schema v path a : not_empty (walk_text schema v path a).
Proof.
  unfold walk_text. destruct (as_str v); [|done]. apply attempt_not_empty; [auto with tools|].
  intros b. destruct (_ && _); [auto with tools|done].
Qed.

Lemma walk_number_not_empty schema ty v path a : not_empty (walk_number schema ty v path a).
Proof.
  unfold walk_number. destruct (as_f64 v) as [n|]; [|done]. cbn -[SAFE].
  destruct (str_eqb ty "integer"); [|auto with tools]. destruct (is_integral n); cbn -[SAFE]; [|auto with tools].
  apply attempt_not_empty; [|auto with tools]. repeat destruct (f64_ltb _ _); auto with tools. done.
Qed.

#[local] Hint Resolve walk_text_not_empty walk_number_not_empty : tools.

Lemma walk_not_empty room : forall schema input order path a, not_empty (walk room schema input order path a).
Proof.
  induction room as [|room IH]; intros schema input order path a; simpl; [done|].
  destruct (unknown_json schema); [destruct (is_none input); [auto with tools|done]|].
  destruct (nullable_base schema) as [base|]; [by destruct (is_some_and input is_null)|].
  destruct (literal_union schema) as [vs|]; [destruct (admits_literal vs input); [done|auto with tools]|].
  destruct (_ && _); [done|]. destruct (_ && _); [done|].
  destruct (literals schema) as [[vs|]|]; simpl; [destruct (admits_literal vs input); [done|auto with tools]|done|].
  destruct (schema_type schema) as [ty|]; [|done]. unfold walk_typed.
  destruct (negb _); [auto with tools|]. destruct input as [input|]; simpl; [|done].
  destruct (str_eqb ty "object").
  { unfold walk_object. destruct (opaque_record schema); [done|]. destruct (track_record schema).
    - unfold walk_tracks. apply attempt_not_empty; [by apply members_not_empty|].
      intros b. destruct (unknown_keys _ _ _); [done|auto with tools].
    - destruct (Ordered.get "properties" schema >>? Ordered.object); [|done].
      unfold walk_properties. apply attempt_not_empty; [by apply members_not_empty|].
      intros b. destruct (negb _); [done|]. destruct (unknown_keys _ _ _); [done|].
      destruct (_ && _); [done|auto with tools]. }
  destruct (str_eqb ty "array").
  { unfold walk_array. destruct (as_array input); [|done]. simpl.
    destruct (is_some_and _ _); [auto with tools|]. apply attempt_not_empty; [|auto with tools].
    destruct (Ordered.get "items" schema); [by apply elements_not_empty|done]. }
  destruct (str_eqb ty "string"); [auto with tools|]. destruct (_ || _); [auto with tools|done].
Qed.

(** ** The answers *)

#[local] Opaque levels.

(** What a projection says of an input, without an order or with the order of the text the input
    was parsed from *)
Definition decided (node : Ordered.t) (input : Value) (r : outcome Value) : Prop :=
  (forall e, r = Some (Ok e) ->
     qualify levels node = Ok tt /\ ~ conforms node (Some input)
     /\ exists text, str_len text <= MAX_OUTPUT /\ e = error_value text)
  /\ (r = Some (Err NoIssues) -> qualify levels node = Ok tt /\ conforms node (Some input)).

Lemma decided_refusal node input e : e <> NoIssues -> decided node input (Some (Err e)).
Proof. intros H. split; congruence. Qed.

Lemma qualified_walk_decided prefix name node input order :
  agrees order (Some input) ->
  decided node input (let+ _ := Some (qualify levels node) in
                      let+ issues := walk levels node (Some input) order [] no_issues in
                      Some (project prefix name issues)).
Proof.
  intros A. pose proof (qualify_unsupported levels node) as U.
  destruct (qualify levels node) as [[]|e] eqn:Q; cbn [attempt].
  2:{ simpl in U. subst e. by apply decided_refusal. }
  split.
  - intros e (b & G%walk_grows & E)%attempt_Ok; [|done]. destruct G as (new & En & N). simpl in En. subst new.
    unfold project in E. destruct (values b) as [|x l] eqn:Ev; [done|].
    destruct (MAX_OUTPUT <? str_len _) eqn:L; [done|]. apply Z.ltb_ge in L.
    split; [done|]. split; [rewrite <- N; discriminate|]. injection E as <-. eauto.
  - destruct (walk levels node (Some input) order [] no_issues) as [[b|e]|] eqn:E; simpl; [|intros [= ->]|done].
    2:{ by apply walk_not_empty in E. }
    apply walk_grows in E as (new & En & N); [|done]. simpl in En. subst new. unfold project.
    destruct (values b); simpl; [by intros _; split; [|apply N]|]. by destruct (MAX_OUTPUT <? _).
Qed.

Lemma project_decided name node args order :
  agrees order (Some args) -> decided node args (project_input_error name node args order).
Proof.
  intros A. unfold project_input_error.
  destruct (bound_input args 0 0 0) as [[]|e] eqn:B; simpl.
  2:{ apply bound_input_limit in B as ->. by apply decided_refusal. }
  destruct (is_object args); cbn [negb]; [by apply qualified_walk_decided|].
  pose proof (qualify_unsupported levels node) as U. destruct (qualify levels node) as [[]|e]; simpl.
  - by apply decided_refusal.
  - simpl in U. subst e. by apply decided_refusal.
Qed.

Lemma input_error_decided (catalog : gmap string Ordered.t) name schema args order node :
  agrees order (Some args) -> catalog !! name = Some node ->
  decided node args (input_error catalog name schema args order).
Proof.
  intros A E. unfold input_error. destruct (256 <? str_len name); [by apply decided_refusal|].
  rewrite E. cbn [attempt ok_or]. destruct (negb _); [by apply decided_refusal|]. by apply project_decided.
Qed.

(** The entry points: which schema each consults for its answer *)
Inductive answers (catalog outputs : gmap string Ordered.t) : Ordered.t -> Value -> outcome Value -> Prop :=
| answers_tool name schema args node :
    catalog !! name = Some node -> answers catalog outputs node args (tool_error catalog name schema args)
| answers_frame name schema args frame size node :
    catalog !! name = Some node ->
    answers catalog outputs node args (tool_error_from_frame catalog name schema args frame size)
| answers_confirmation name args node :
    confirmation_node catalog name = Ok node ->
    answers catalog outputs node args (confirmation_error catalog name args)
| answers_output name schema output node :
    outputs !! name = Some node ->
    answers catalog outputs node output (tool_output_error outputs name schema output).

Lemma answers_decided catalog outputs node input r :
  answers catalog outputs node input r -> decided node input r.
Proof.
  intros [name schema args n E|name schema args frame size n E|name args n E|name schema output n E].
  - by apply input_error_decided.
  - unfold tool_error_from_frame.
    destruct (negb (str_eqb _ _)); [by apply decided_refusal|]. destruct (_ <? size); [by apply decided_refusal|].
    destruct (bound_input args 0 0 0) as [[]|e] eqn:B; simpl.
    2:{ apply bound_input_limit in B as ->. by apply decided_refusal. }
    destruct frame as [frame|]; simpl; [|by apply decided_refusal].
    set (o := match frame_arguments frame with Some a => a | None => _ end).
    destruct (value_eqb (Ordered.value o) args) eqn:V; simpl; [|by apply decided_refusal].
    by apply input_error_decided.
  - unfold confirmation_error. rewrite E. by apply project_decided.
  - unfold tool_output_error. destruct (negb (str_eqb _ _)); [by apply decided_refusal|].
    rewrite E. cbn [attempt ok_or]. destruct (negb _); [by apply decided_refusal|]. by apply qualified_walk_decided.
Qed.

Lemma project_total name node args order :
  plain_records node = true -> project_input_error name node args order <> None.
Proof.
  intros P. unfold project_input_error. destruct (bound_input args 0 0 0) as [[]|]; simpl; [|done].
  destruct (qualify levels node) as [[]|] eqn:Q; simpl; [|done]. destruct (negb _); [done|].
  apply attempt_total; [|done]. apply walk_total. split; eauto.
Qed.

Lemma input_error_total (catalog : gmap string Ordered.t) name schema args order node :
  catalog !! name = Some node -> plain_records node = true -> input_error catalog name schema args order <> None.
Proof.
  intros E P. unfold input_error. rewrite E. destruct (_ <? _); [done|]. cbn [attempt ok_or].
  destruct (negb _); [done|]. by apply project_total.
Qed.

(** C35: The projector does not panic: whatever the input and its order, every entry point returns an
    answer, as long as no record of the schema has an [enum] or an [anyOf] of its own, keywords
    [qualify] does not look at in a record. *)
Theorem projections_never_panic catalog outputs node input r :
  answers catalog outputs node input r -> plain_records node = true -> r <> None.
Proof.
  intros [name schema args n E|name schema args frame size n E|name args n E|name schema output n E] P.
  - by eapply input_error_total.
  - unfold tool_error_from_frame. destruct (negb (str_eqb _ _)); [done|]. destruct (_ <? size); [done|].
    destruct (bound_input args 0 0 0) as [[]|]; simpl; [|done]. destruct frame; simpl; [|done].
    destruct (negb (value_eqb _ _)); [done|]. by eapply input_error_total.
  - unfold confirmation_error. rewrite E. by apply project_total.
  - unfold tool_output_error. destruct (negb (str_eqb _ _)); [done|]. rewrite E. cbn [attempt ok_or].
    destruct (negb _); [done|]. destruct (qualify levels n) as [[]|] eqn:Q; simpl; [|done].
    apply attempt_total; [|done]. apply walk_total. split; eauto.
Qed.
End Refusals.

(** ** The catalogue *)

(** A schema of the exported list of tools *)
Definition ordinary (root : Ordered.t) (name : string) (node : Ordered.t) : Prop :=
  exists fields tools tool,
    Ordered.object root = Some fields /\ first_entry "tools" fields >>? Ordered.array = Some tools
    /\ In tool tools /\ descriptor "inputSchema" tool = Some (name, node).

(** A schema of a controller's own descriptor, which says that it changes nothing in the studio *)
Definition described (tools : list Ordered.t) (name : string) (node : Ordered.t) : Prop :=
  exists tool annotations,
    In tool tools
    /\ Ordered.get "name" tool >>? Ordered.text = Some name
    /\ Ordered.get "inputSchema" tool = Some node
    /\ Ordered.get "annotations" tool = Some annotations
    /\ (forall key expected, In (key, expected) annotations_expected ->
          exists v, Ordered.get key annotations = Some v /\ value_eqb (Ordered.value v) (Bool expected) = true)
    /\ qualify levels node = Ok tt.

Definition controller (root : Ordered.t) (name : string) (node : Ordered.t) : Prop :=
  exists tools,
    Ordered.get "toolsets" root >>? Ordered.get "dynamic" >>? Ordered.get "tools" >>? Ordered.array = Some tools
    /\ described tools name node.

Lemma fold_insert_lookup (l : list (string * Ordered.t)) : forall (m : gmap string Ordered.t) name node,
  fold_left (fun schemas '(name, schema) => <[name := schema]> schemas) l m !! name = Some node ->
  In (name, node) l \/ m !! name = Some node.
Proof.
  induction l as [|(k, v) l IH]; intros m name node; simpl; [auto|].
  intros [H|H]%IH; [auto|]. apply lookup_insert_Some in H as [(-> & ->)|(_ & H)]; auto.
Qed.

Lemma fold_insert_found (l : list (string * Ordered.t)) name : forall m : gmap string Ordered.t,
  (exists node, In (name, node) l) \/ m !! name <> None ->
  fold_left (fun schemas '(name, schema) => <[name := schema]> schemas) l m !! name <> None.
Proof.
  induction l as [|(k, v) l IH]; intros m H; simpl; [by destruct H as [(? & [])|]|].
  apply IH. destruct H as [(node & [[= -> ->]|H])|H]; [right|left; eauto|right].
  - by rewrite lookup_insert_eq.
  - destruct (decide (k = name)) as [->|]; [by rewrite lookup_insert_eq|by rewrite lookup_insert_ne].
Qed.

Lemma fold_delete_lookup names : forall (m : gmap string Ordered.t) name node,
  fold_left (fun schemas name => delete name schemas) names m !! name = Some node ->
  m !! name = Some node /\ ~ In name names.
Proof.
  induction names as [|n names IH]; intros m name node; simpl; [tauto|].
  intros (H & N)%IH. apply lookup_delete_Some in H as (D & H). split; [done|]. intros [->|]; auto.
Qed.

Lemma dynamic_schema_inv tools tool m m' : In tool tools -> dynamic_schema tool m = Some m' ->
  exists name node, m' = <[name := node]> m /\ In name DYNAMIC_CONTROLLERS /\ described tools name node.
Proof.
  unfold dynamic_schema. intros Hin (fields & _ & E)%bind_Some.
  destruct (negb (nodup_keys _)); [done|]. apply bind_Some in E as (name & En & E).
  destruct (one_of name DYNAMIC_CONTROLLERS) eqn:O; [|done]. cbn [negb] in E. apply one_of_In in O.
  destruct (existsb _ _); [done|]. apply bind_Some in E as (annotations & Ea & E).
  destruct (forallb _ annotations_expected) eqn:F; [|done]. cbn [negb] in E.
  apply bind_Some in E as (node & Es & E). apply bind_Some in E as (type & _ & E).
  destruct (negb (str_eqb type "object")); [done|]. cbn [orb] in E.
  destruct (qualify levels node) as [[]|] eqn:Q; [|done]. cbn [is_err is_ok negb orb] in E.
  destruct (negb _); [done|]. injection E as <-.
  exists name, node. split; [done|]. split; [done|]. exists tool, annotations. repeat split; auto.
  intros key expected Hk. rewrite forallb_forall in F. specialize (F _ Hk). by apply is_some_and_true in F.
Qed.

Definition all_described (tools : list Ordered.t) (m : gmap string Ordered.t) : Prop :=
  forall name node, m !! name = Some node -> In name DYNAMIC_CONTROLLERS /\ described tools name node.

Lemma dynamic_loop_described all tools : forall m m',
  incl tools all -> all_described all m -> dynamic_loop tools m = Some m' -> all_described all m'.
Proof.
  induction tools as [|tool tools IH]; intros m m' I A; simpl; [by intros [= <-]|].
  intros (m1 & E1 & E2)%bind_Some. apply incl_cons_inv in I as (Hin & I).
  eapply IH; [done| |exact E2]. apply (dynamic_schema_inv all) in E1 as (n & v & -> & C & D); [|done].
  intros name node [(<- & <-)|(_ & H)]%lookup_insert_Some; [done|by apply A].
Qed.

Lemma dynamic_schemas_controller root m name node :
  dynamic_schemas root = Some m -> m !! name = Some node ->
  In name DYNAMIC_CONTROLLERS /\ controller root name node.
Proof.
  unfold dynamic_schemas. intros (tools & Et & E)%bind_Some Hn. destruct (negb _); [done|].
  apply (dynamic_loop_described tools) in E; [|by intros ? ?|by intros ? ? ?%lookup_empty_Some].
  destruct (E _ _ Hn) as (C & D). split; [done|]. by exists tools.
Qed.

(** C34: Where a schema of the catalogue comes from: an ordinary tool's from the exported list, and a
    controller's from its own descriptor, whose annotations say that it changes nothing and whose
    schema qualifies; and once the exported list holds a controller's name, no controller has a
    schema at all. *)
Theorem catalogue_keeps_controllers_apart root schemas name node :
  catalog root = Some schemas -> schemas !! name = Some node ->
  (In name DYNAMIC_CONTROLLERS ->
     controller root name node
     /\ forall other node', In other DYNAMIC_CONTROLLERS -> ~ ordinary root other node')
  /\ (~ In name DYNAMIC_CONTROLLERS -> ordinary root name node).
Proof.
  unfold catalog, catalog_field. rewrite str_eqb_refl.
  intros (fields & Ef & E)%bind_Some Hn. apply bind_Some in E as (tools & Et & E).
  set (all := omap (descriptor "inputSchema") tools) in *.
  set (listed := fold_left _ all (∅ : gmap string Ordered.t)) in *.
  set (rest := fold_left _ DYNAMIC_CONTROLLERS listed) in *.
  assert (forall node, rest !! name = Some node -> ~ In name DYNAMIC_CONTROLLERS /\ ordinary root name node) as R.
  { intros v (H & N)%fold_delete_lookup. split; [done|].
    apply fold_insert_lookup in H as [H|H]; [|done].
    apply list_elem_of_In, list_elem_of_omap in H as (tool & Hin & D).
    exists fields, tools, tool. by rewrite <- list_elem_of_In. }
  destruct (existsb _ DYNAMIC_CONTROLLERS) eqn:X.
  { injection E as <-. apply R in Hn as (N & O). by split. }
  assert (forall other node', In other DYNAMIC_CONTROLLERS -> ~ ordinary root other node') as Apart.
  { intros other v C (fields' & tools' & tool & Ef' & Et' & Hin & D). simplify_eq.
    assert (existsb (fun name => negb (is_none (listed !! name))) DYNAMIC_CONTROLLERS = true) as Y; [|congruence].
    apply existsb_exists. exists other. split; [done|]. apply not_none, fold_insert_found. left. exists v.
    apply list_elem_of_In, list_elem_of_omap. exists tool. by rewrite list_elem_of_In. }
  destruct (dynamic_schemas root) as [m|] eqn:Ed; injection E as <-.
  - apply lookup_union_Some_raw in Hn as [Hn|(_ & Hn)].
    + apply (dynamic_schemas_controller _ _ _ _ Ed) in Hn as (C & K). split; [done|tauto].
    + apply R in Hn as (N & O). by split.
  - apply R in Hn as (N & O). by split.
Qed.
