(* ===== verification/ToolMeaning.v ===== *)
(** * An input error is an error of the schema ([src/tool_validation.rs] against JSON Schema)

    [ToolTyping] says when the traversal of the projector finds issues, in the projector's own
    terms ([conforms]).  Here [conforms] is compared with what JSON Schema says of the input
    ([JsonSchema.valid]): they agree on every regular schema that [qualify] admits, but for one text, the
    greatest identifier in upper case, which [uuid] takes and the pattern does not. *)
From Stdlib Require Import SpecFloat.
From S2P Require Import Prelude Json Text Serde ReceiptFields Control Number ToolSchema JsonSchema ToolValidation ToolTyping.

(** ** Numbers *)

Lemma compare_Eq a b : SFcompare a b = Some Eq ->
  a = b \/ (exists s, a = S754_zero s) /\ exists s, b = S754_zero s.
Proof.
  destruct a as [|[]| |[] m e], b as [|[]| |[] m' e']; simpl; try done; eauto.
  all: change (Pos.compare_cont Eq) with Pos.compare;
    destruct (Z.compare_spec e e') as [->| |]; try done;
    destruct (Pos.compare_spec m m') as [->| |]; simpl; try done; by left.
Qed.

Lemma leb_at_most b c n : f64_leb b c = true -> at_most n b -> at_most n c.
Proof.
  unfold f64_leb, SFleb, at_most.
  destruct b as [[]|[]| |[] m e], c as [[]|[]| |[] m' e'], n as [[]|[]| |[] k f]; simpl; try done.
  all: change (Pos.compare_cont Eq) with Pos.compare;
    destruct (Z.compare_spec e e'); try done;
    destruct (Pos.compare_spec m m'); simpl; try done; intros _;
    destruct (Z.compare_spec f e); try done; destruct (Pos.compare_spec k m); simpl; try done; intros _;
    destruct (Z.compare_spec f e'); try done; try lia; destruct (Pos.compare_spec k m'); simpl; (done || lia).
Qed.

Lemma at_most_leb b c n : f64_leb c b = true -> at_most b n -> at_most c n.
Proof.
  unfold f64_leb, SFleb, at_most.
  destruct b as [[]|[]| |[] m e], c as [[]|[]| |[] m' e'], n as [[]|[]| |[] k f]; simpl; try done.
  all: change (Pos.compare_cont Eq) with Pos.compare;
    destruct (Z.compare_spec e' e); try done;
    destruct (Pos.compare_spec m' m); simpl; try done; intros _;
    destruct (Z.compare_spec e f); try done; destruct (Pos.compare_spec m k); simpl; try done; intros _;
    destruct (Z.compare_spec e' f); try done; try lia; destruct (Pos.compare_spec m' k); simpl; (done || lia).
Qed.

Lemma in_bound_max n b : in_bound true true n b <-> at_most n b.
Proof. unfold in_bound, at_most. destruct (SFcompare n b) as [[]|]; naive_solver. Qed.

Lemma in_bound_below_max n b : in_bound true false n b <-> below n b.
Proof. unfold in_bound, below, at_most. destruct (SFcompare n b) as [[]|]; naive_solver. Qed.

Lemma in_bound_min n b : in_bound false true n b <-> at_most b n.
Proof. unfold in_bound, at_most. rewrite (compare_flip n b). destruct (SFcompare n b) as [[]|]; naive_solver. Qed.

Lemma in_bound_below_min n b : in_bound false false n b <-> below b n.
Proof.
  unfold in_bound, below, at_most. rewrite (compare_flip n b). destruct (SFcompare n b) as [[]|]; naive_solver.
Qed.

Lemma is_integral_whole n : is_integral n = true <-> whole n.
Proof.
  destruct n as [| | |s m [|k|k]]; simpl; try done; try (split; [left; lia|done]).
  rewrite Z.eqb_eq, Z.mod_divide by (apply Z.pow_nonzero; lia). split; [by right|].
  intros [|]; [lia|done].
Qed.

Lemma is_finite_finite n : is_finite n = true <-> finite n.
Proof. by destruct n. Qed.

Lemma compare_whole n m : SFcompare n m = Some Eq -> whole n <-> whole m.
Proof. by intros [->|((s & ->) & s' & ->)]%compare_Eq. Qed.

Lemma compare_finite n m : SFcompare n m = Some Eq -> finite n <-> finite m.
Proof. by intros [->|((s & ->) & s' & ->)]%compare_Eq. Qed.

Lemma f64_eqb_compare a b : f64_eqb a b = true <-> SFcompare a b = Some Eq.
Proof. unfold f64_eqb, SFeqb. by destruct (SFcompare a b) as [[]|]. Qed.

(** ** Literals *)

Lemma number_value x : exists n, as_f64 (Num x) = Some n.
Proof. destruct x; simpl; eauto. Qed.

Lemma equivalent_same v w : equivalent v w = true <-> same_value v w.
Proof.
  unfold equivalent. destruct v as [| |x| | |], w as [| |y| | |]; try done;
    try (by destruct (number_value x) as (n & ->)); try (by destruct (number_value y) as (n & ->)).
  unfold same_value. destruct (number_value x) as (n & ->), (number_value y) as (m & ->).
  rewrite f64_eqb_compare. naive_solver.
Qed.

Lemma literal_typed ty w v :
  literal_of_type ty w = true -> same_value v (Ordered.value w) -> of_type ty v.
Proof.
  destruct w as [[|b|y|t| |]|a|o]; simpl; try done.
  - intros ->%str_eqb_eq. by destruct v.
  - intros (->%str_eqb_eq & F)%andb_true_iff.
    assert (exists m, as_f64 (Num y) = Some m /\ finite m) as (m & Em & Fm).
    { unfold finite_number, Ordered.number in F. apply is_some_and_true in F as (m & Em & F).
      exists m. split; [done|]. by destruct m. }
    destruct v as [| |x| | |]; try done. intros (n & m' & En & Em' & C). exists n. simplify_eq.
    split; [done|]. split; [by rewrite (compare_finite _ _ C)|by left].
  - intros ->%str_eqb_eq. by destruct v.
Qed.

(** ** The keywords a schema has *)

Lemma only_get allowed schema o key :
  Ordered.object schema = Some o -> only allowed o = true -> one_of key (allowed ++ annotations) = false ->
  Ordered.get key schema = None.
Proof.
  destruct schema as [| |o']; simpl; try done. intros [= ->] F N.
  destruct (Ordered.last_entry key o) eqn:E; [|done]. apply last_entry_In in E.
  unfold only in F. rewrite forallb_forall in F. specialize (F _ E). simpl in F. congruence.
Qed.

Lemma has_key_get key schema o :
  Ordered.object schema = Some o -> has_key key o = true <-> Ordered.get key schema <> None.
Proof. destruct schema as [| |o']; simpl; try done. intros [= ->]. by rewrite last_entry_has. Qed.

Lemma unique_entry key o v : NoDup (map fst o) -> In (key, v) o <-> Ordered.last_entry key o = Some v.
Proof.
  intros ND. split; [|apply last_entry_In]. induction o as [|(k, w) o IH]; simpl; [done|].
  apply NoDup_cons in ND as (N & ND). intros [[= -> ->]|H].
  - assert (Ordered.last_entry key o = None) as ->.
    { destruct (Ordered.last_entry key o) eqn:E; [|done]. exfalso. apply N.
      apply list_elem_of_In, (last_entry_key key o). by rewrite E. }
    by rewrite str_eqb_refl.
  - by rewrite (IH ND H).
Qed.

Lemma regular_object_of schema : regular schema = true ->
  exists o, Ordered.object schema = Some o /\ NoDup (map fst o).
Proof.
  destruct schema as [| |o]; simpl; try done. intros ((N & _)%andb_true_iff & _)%andb_true_iff.
  exists o. split; [done|by apply nodup_keys_spec].
Qed.

(** What is in a regular schema is regular. *)
Lemma regular_sub schema key w :
  regular schema = true -> Ordered.get key schema = Some w ->
  (key = "properties"%string -> forall ps name p, Ordered.object w = Some ps -> In (name, p) ps -> regular p = true)
  /\ (key = "anyOf"%string -> forall vs x, Ordered.array w = Some vs -> In x vs -> regular x = true)
  /\ (key = "items"%string -> regular w = true).
Proof.
  destruct schema as [| |o]; cbn [regular]; try done. intros (_ & F)%andb_true_iff E%last_entry_In.
  rewrite forallb_forall in F. specialize (F _ E). cbv beta iota in F. split; [|split]; intros ->; simpl in F.
  - intros ps name p Ep Hin. destruct w; simplify_eq/=. rewrite forallb_forall in F. exact (F _ Hin).
  - intros vs x Ev Hin. destruct w; simplify_eq/=. rewrite forallb_forall in F. exact (F _ Hin).
  - done.
Qed.

(** Refute a keyword the schema has not: [K] says which it has not. *)
Ltac absent K :=
  match goal with
  | H : Ordered.get ?key ?s = Some _ |- _ => rewrite (K key eq_refl) in H; discriminate
  | H : listed ?key ?s = Some _ |- _ => unfold listed in H; rewrite (K key eq_refl) in H; discriminate
  | H : property_of ?s _ = Some _ |- _ =>
      unfold property_of, entries in H; rewrite (K "properties"%string eq_refl) in H; discriminate
  | |- number_bounds _ _ => repeat split; intros ? ?; absent K
  | |- size_bounds _ _ _ _ => split; intros ? ?; absent K
  | |- text_rules _ _ _ => split; [split; intros ? ?; absent K | intros ? ?; absent K]
  end.

Lemma object_not_false schema o : Ordered.object schema = Some o -> schema <> Ordered.Scalar (Bool false).
Proof. by intros H ->. Qed.

(** ** Bounds *)

Lemma respects_get schema o n origin sized :
  Ordered.object schema = Some o -> NoDup (map fst o) ->
  respects schema n origin sized <->
  forall key node big inclusive, Ordered.get key schema = Some node ->
    limit_kind key origin sized = Some (big, inclusive) ->
    exists b, Ordered.number node = Some b /\ (safe_bound schema origin b = true \/ in_bound big inclusive n b).
Proof.
  destruct schema as [| |o']; simpl; try done. intros [= ->] ND. unfold respects. simpl.
  setoid_rewrite <- (unique_entry _ _ _ ND). naive_solver.
Qed.

Lemma one_of_iff s l : one_of s l = true <-> In s l.
Proof. apply one_of_In. Qed.

(** The keywords of the sizes of texts and arrays, and of numbers *)
Lemma limit_kind_string key big inclusive :
  limit_kind key "string" true = Some (big, inclusive) <->
  inclusive = true /\ (key = "minLength"%string /\ big = false \/ key = "maxLength"%string /\ big = true).
Proof.
  unfold limit_kind. cbn [negb]. rewrite !andb_false_r. change (str_eqb "string" "string") with true.
  change (str_eqb "string" "array") with false. rewrite ?andb_false_r, ?andb_true_r.
  destruct (str_eqb key "minLength") eqn:E1; [apply str_eqb_eq in E1 as ->|apply str_eqb_neq in E1];
    [naive_solver|].
  destruct (str_eqb key "maxLength") eqn:E2; [apply str_eqb_eq in E2 as ->|apply str_eqb_neq in E2]; naive_solver.
Qed.

Lemma limit_kind_array key big inclusive :
  limit_kind key "array" true = Some (big, inclusive) <->
  inclusive = true /\ (key = "minItems"%string /\ big = false \/ key = "maxItems"%string /\ big = true).
Proof.
  unfold limit_kind. cbn [negb]. rewrite !andb_false_r. change (str_eqb "array" "string") with false.
  change (str_eqb "array" "array") with true. rewrite ?andb_false_r, ?andb_true_r.
  destruct (str_eqb key "minItems") eqn:E1; [apply str_eqb_eq in E1 as ->|apply str_eqb_neq in E1];
    [naive_solver|].
  destruct (str_eqb key "maxItems") eqn:E2; [apply str_eqb_eq in E2 as ->|apply str_eqb_neq in E2]; naive_solver.
Qed.

Lemma limit_kind_number key big inclusive :
  limit_kind key "number" false = Some (big, inclusive) <->
  key = "minimum"%string /\ big = false /\ inclusive = true
  \/ key = "exclusiveMinimum"%string /\ big = false /\ inclusive = false
  \/ key = "maximum"%string /\ big = true /\ inclusive = true
  \/ key = "exclusiveMaximum"%string /\ big = true /\ inclusive = false.
Proof.
  unfold limit_kind, one_of. cbn [existsb negb]. rewrite ?orb_false_r, ?andb_true_r, ?andb_false_r.
  destruct (str_eqb key "minimum") eqn:E1; [apply str_eqb_eq in E1 as ->; naive_solver|apply str_eqb_neq in E1].
  destruct (str_eqb key "exclusiveMinimum") eqn:E2; [apply str_eqb_eq in E2 as ->; naive_solver|apply str_eqb_neq in E2].
  destruct (str_eqb key "maximum") eqn:E3; [apply str_eqb_eq in E3 as ->; naive_solver|apply str_eqb_neq in E3].
  destruct (str_eqb key "exclusiveMaximum") eqn:E4; [apply str_eqb_eq in E4 as ->; naive_solver|apply str_eqb_neq in E4].
  naive_solver.
Qed.

Section Bounds.
Context (schema : Ordered.t) (o : list (string * Ordered.t)) (Eo : Ordered.object schema = Some o)
  (ND : NoDup (map fst o)).

Lemma respects_sizes min max origin size :
  str_eqb origin "number" = false ->
  (forall key big inclusive, limit_kind key origin true = Some (big, inclusive) <->
     inclusive = true /\ (key = min /\ big = false \/ key = max /\ big = true)) ->
  respects schema (f64_of_Z size) origin true <-> size_bounds min max schema size.
Proof.
  intros N K. rewrite (respects_get _ _ _ _ _ Eo ND). unfold safe_bound. rewrite N. cbn [andb]. split.
  - intros H. split; intros node En.
    + destruct (H min node false true En) as (b & Eb & [|I]); [by rewrite K; auto|done|].
      exists b. by rewrite <- in_bound_min.
    + destruct (H max node true true En) as (b & Eb & [|I]); [by rewrite K; auto|done|].
      exists b. by rewrite <- in_bound_max.
  - intros (Hmin & Hmax) key node big inclusive En (-> & [(-> & ->)|(-> & ->)])%K.
    + destruct (Hmin _ En) as (b & Eb & H). exists b. rewrite in_bound_min. auto.
    + destruct (Hmax _ En) as (b & Eb & H). exists b. rewrite in_bound_max. auto.
Qed.

Lemma respects_bounds n :
  (forall key b, Ordered.get key schema >>? Ordered.number = Some b -> In key bound_keywords ->
     safe_bound schema "number" b = true ->
     key = "maximum"%string /\ at_most n b \/ key = "minimum"%string /\ at_most b n) ->
  respects schema n "number" false <-> number_bounds schema n.
Proof.
  intros Edge. rewrite (respects_get _ _ _ _ _ Eo ND).
  assert (forall key node big inclusive (P : f64 -> Prop), In key bound_keywords ->
    (forall b, in_bound big inclusive n b <-> P b) ->
    (forall b, key = "maximum"%string /\ at_most n b \/ key = "minimum"%string /\ at_most b n -> P b) ->
    Ordered.get key schema = Some node ->
    (exists b, Ordered.number node = Some b /\ (safe_bound schema "number" b = true \/ in_bound big inclusive n b))
    <-> exists b, Ordered.number node = Some b /\ P b) as Each.
  { intros key node big inclusive P Hk I HP En. split; intros (b & Eb & H); exists b; (split; [done|]).
    - destruct H as [S|H]; [|by apply I]. apply HP, Edge; [by rewrite En|done|done].
    - right. by apply I. }
  unfold number_bounds, bound. setoid_rewrite limit_kind_number. split.
  - intros H. repeat split; intros node En.
    + apply (Each "minimum"%string node false true (fun b => at_most b n)); [by left|intros; apply in_bound_min|naive_solver|done|].
      apply (H "minimum"%string node); [done|tauto].
    + apply (Each "maximum"%string node true true (fun b => at_most n b)); [by right; left|intros; apply in_bound_max|naive_solver|done|].
      apply (H "maximum"%string node); [done|tauto].
    + apply (Each "exclusiveMinimum"%string node false false (fun b => below b n)); [by do 2 right; left|intros; apply in_bound_below_min|naive_solver|done|].
      apply (H "exclusiveMinimum"%string node); [done|tauto].
    + apply (Each "exclusiveMaximum"%string node true false (fun b => below n b)); [by do 3 right; left|intros; apply in_bound_below_max|naive_solver|done|].
      apply (H "exclusiveMaximum"%string node); [done|tauto].
  - intros (H1 & H2 & H3 & H4) key node big inclusive En
      [(-> & -> & ->)|[(-> & -> & ->)|[(-> & -> & ->)|(-> & -> & ->)]]].
    + apply (Each "minimum"%string node false true (fun b => at_most b n)); [by left|intros; apply in_bound_min|naive_solver|done|auto].
    + apply (Each "exclusiveMinimum"%string node false false (fun b => below b n)); [by do 2 right; left|intros; apply in_bound_below_min|naive_solver|done|auto].
    + apply (Each "maximum"%string node true true (fun b => at_most n b)); [by right; left|intros; apply in_bound_max|naive_solver|done|auto].
    + apply (Each "exclusiveMaximum"%string node true false (fun b => below n b)); [by do 3 right; left|intros; apply in_bound_below_max|naive_solver|done|auto].
Qed.

(** The bounds of a regular integer schema include the safe integers' own. *)
Lemma regular_integer_bounds n :
  schema_type schema = Some "integer"%string -> regular_integer schema = true ->
  (in_bound true true n SAFE /\ in_bound false true n (SFopp SAFE) /\ respects schema n "number" false)
  <-> number_bounds schema n.
Proof.
  intros T R. apply andb_true_iff in R as (R & Ed). apply andb_true_iff in R as (Up & Down).
  rewrite in_bound_max, in_bound_min. rewrite forallb_forall in Ed.
  assert (at_most n SAFE -> at_most (SFopp SAFE) n ->
    respects schema n "number" false <-> number_bounds schema n) as Same.
  { intros Hup Hdown. apply respects_bounds. intros key b Eb Hk S. specialize (Ed _ Hk).
    unfold safe_bound in S. apply andb_true_iff in S as (_ & S). rewrite Eb in Ed. simpl in Ed.
    rewrite S in Ed. cbn [negb orb] in Ed. apply orb_true_iff in Ed as [Ed|Ed];
      apply andb_true_iff in Ed as (->%str_eqb_eq & Q%f64_eqb_compare); [left|right]; (split; [done|]).
    - by destruct (compare_Eq _ _ Q) as [->|(_ & s & ?)].
    - by destruct (compare_Eq _ _ Q) as [->|(_ & s & ?)]. }
  split; [intros (H1 & H2 & H3); by apply Same|]. intros B. pose proof B as (Bmin & Bmax & Bemin & Bemax).
  assert (at_most n SAFE) as Hup.
  { apply existsb_exists in Up as (key & Hk & (b & Eb & L)%is_some_and_true).
    apply and_then_Some in Eb as (node & En & Eb).
    apply (leb_at_most _ _ _ L). destruct Hk as [<-|[<-|[]]];
      [destruct (Bmax _ En) as (b' & ? & H)|destruct (Bemax _ En) as (b' & ? & H & _)]; congruence. }
  assert (at_most (SFopp SAFE) n) as Hdown.
  { apply existsb_exists in Down as (key & Hk & (b & Eb & L)%is_some_and_true).
    apply and_then_Some in Eb as (node & En & Eb).
    apply (at_most_leb _ _ _ L). destruct Hk as [<-|[<-|[]]];
      [destruct (Bmin _ En) as (b' & ? & H)|destruct (Bemin _ En) as (b' & ? & H & _)]; congruence. }
  split; [done|]. split; [done|]. by apply Same.
Qed.
End Bounds.

(** ** Identifiers *)

(** The first alternative of [UUID_PATTERN], place by place *)
Definition pattern_byte (i : nat) (b : Z) : Prop :=
  if existsb (Nat.eqb i) [8; 13; 18; 23]%nat then b = 45
  else if Nat.eqb i 14 then 49 <= b <= 56
  else if Nat.eqb i 19 then In b [56; 57; 97; 98; 65; 66]
  else is_ascii_hexdigit b = true.

Lemma forallb_imap_pair (p : nat * Z -> bool) l :
  forallb p (imap pair l) = true <-> forall i b, l !! i = Some b -> p (i, b) = true.
Proof.
  rewrite forallb_forall. split.
  - intros H i b E. apply H, list_elem_of_In, list_elem_of_lookup. exists i. by rewrite list_lookup_imap, E.
  - intros H (i, b) (j & E)%list_elem_of_In%list_elem_of_lookup. rewrite list_lookup_imap in E.
    destruct (l !! j) eqn:L; [|done]. injection E as <- <-. by apply H.
Qed.

Lemma hex_small b : 49 <= b <= 57 -> is_ascii_hexdigit b = true.
Proof. unfold is_ascii_hexdigit, is_ascii_digit. intros H. to_prop. lia. Qed.

Lemma lower_variant c : existsb (Z.eqb (lower_byte c)) [56; 57; 97; 98] = true <-> In c [56; 57; 97; 98; 65; 66].
Proof.
  unfold lower_byte. cbn [existsb In]. rewrite !orb_true_iff, !Z.eqb_eq.
  destruct ((65 <=? c) && (c <=? 90)) eqn:E; to_prop;
    (split; intros H; repeat destruct H as [H|H]; (done || lia)).
Qed.

Lemma variant_hex c : In c [56; 57; 97; 98; 65; 66] -> is_ascii_hexdigit c = true.
Proof. intros H. cbn [In] in H. repeat destruct H as [<-|H]; done. Qed.

Definition nil_uuid : string := "00000000-0000-0000-0000-000000000000".
Definition max_uuid : string := "ffffffff-ffff-ffff-ffff-ffffffffffff".

Lemma lower_max_byte i b c :
  bytes_of max_uuid !! i = Some c -> lower_byte b = c -> uuid_byte i b = true.
Proof.
  intros M L.
  assert (c = if existsb (Nat.eqb i) [8; 13; 18; 23]%nat then 45 else 102) as ->.
  { clear L. do 36 (destruct i as [|i]; [by vm_compute in M; injection M as <-|]). done. }
  unfold uuid_byte, lower_byte in *. destruct (existsb _ _).
  - destruct ((65 <=? b) && (b <=? 90)) eqn:E; to_prop; unfold dash; lia.
  - destruct ((65 <=? b) && (b <=? 90)) eqn:E; to_prop.
    + assert (b = 70) as -> by lia. done.
    + by subst.
Qed.

Definition place (i : nat) : list (Z * Z) :=
  if existsb (Nat.eqb i) [8; 13; 18; 23]%nat then [(45, 45)]
  else if Nat.eqb i 14 then [(49, 56)]
  else if Nat.eqb i 19 then map (fun b => (b, b)) [56; 57; 97; 98; 65; 66]
  else [(48, 57); (97, 102); (65, 70)].

Lemma in_class_cons lo hi l b : Regex.in_class ((lo, hi) :: l) b <-> lo <= b <= hi \/ Regex.in_class l b.
Proof.
  unfold Regex.in_class. split.
  - intros (x & y & [[= -> ->]|H] & B); eauto 6.
  - intros [B|(x & y & H & B)]; [exists lo, hi|exists x, y]; simpl; auto.
Qed.

Lemma in_class_nil b : Regex.in_class [] b <-> False.
Proof. split; [by intros (? & ? & [] & _)|done]. Qed.

Lemma place_byte i b : Regex.in_class (place i) b <-> pattern_byte i b.
Proof.
  unfold place, pattern_byte, is_ascii_hexdigit, is_ascii_digit.
  destruct (existsb _ _); [|destruct (Nat.eqb i 14); [|destruct (Nat.eqb i 19)]];
    cbn [map]; rewrite ?in_class_cons, in_class_nil; cbn [In]; [lia|lia|lia|].
  rewrite !orb_true_iff, !andb_true_iff, !Z.leb_le. lia.
Qed.

Lemma places_pattern w :
  Forall2 Regex.in_class (map place (seq 0 36)) w
  <-> length w = 36%nat /\ forall i b, w !! i = Some b -> pattern_byte i b.
Proof.
  rewrite Forall2_same_length_lookup, length_map, length_seq. split; intros (L & H); (split; [done|]).
  - intros i b E. rewrite <- place_byte. apply (H i); [|done]. rewrite list_lookup_fmap, lookup_seq_lt; [done|].
    apply lookup_lt_Some in E. lia.
  - intros i c b Ec E. rewrite list_lookup_fmap in Ec. apply fmap_Some in Ec as (k & (-> & _)%lookup_seq & ->).
    by rewrite place_byte; apply H.
Qed.

Lemma places_literal bs w : Forall2 Regex.in_class (map (fun b => [(b, b)]) bs) w <-> w = bs.
Proof.
  revert w. induction bs as [|b bs IH]; intros w; simpl.
  - split; [by inversion 1|by intros ->].
  - split.
    + inversion 1 as [|? c ? w' C F]; subst. apply IH in F as ->.
      rewrite in_class_cons, in_class_nil in C. f_equal; lia.
    + intros ->. constructor; [rewrite in_class_cons; left; lia|by apply IH].
Qed.

(** The parsed [UUID_PATTERN] *)
Lemma uuid_pattern_parsed : exists a b c,
  Regex.parse UUID_PATTERN = Some (Regex.Seq (Regex.Alt a (Regex.Alt b c)) Regex.Empty)
  /\ Regex.places a = Some (map place (seq 0 36))
  /\ Regex.places b = Some (map (fun b => [(b, b)]) (bytes_of nil_uuid))
  /\ Regex.places c = Some (map (fun b => [(b, b)]) (bytes_of max_uuid)).
Proof. do 3 eexists. split; [by vm_compute|]. split; [by vm_compute|]. by split; vm_compute. Qed.

(** What [UUID_PATTERN] matches *)
Lemma matches_uuid s :
  Regex.matches UUID_PATTERN s <->
  (length (bytes_of s) = 36%nat /\ forall i b, bytes_of s !! i = Some b -> pattern_byte i b)
  \/ s = nil_uuid \/ s = max_uuid.
Proof.
  destruct uuid_pattern_parsed as (a & b & c & P & Pa & Pb & Pc).
  assert (Regex.matches UUID_PATTERN s <-> Regex.language (Regex.Alt a (Regex.Alt b c)) (bytes_of s)) as ->.
  { unfold Regex.matches. rewrite P. split.
    - intros (r & [= <-] & w & e & E & H & He). simpl in He. subst e. by rewrite app_nil_r in E; subst w.
    - intros H. eexists. split; [done|]. exists (bytes_of s), []. by rewrite app_nil_r. }
  cbn [Regex.language]. rewrite (Regex.places_language _ _ Pa), (Regex.places_language _ _ Pb),
    (Regex.places_language _ _ Pc), places_pattern, !places_literal.
  assert (forall t, bytes_of s = bytes_of t <-> s = t) as I by (intros t; split; [apply bytes_of_inj|by intros ->]).
  by rewrite !I.
Qed.

(** [uuid] accepts what [UUID_PATTERN] matches, and besides it the greatest identifier in upper or
    mixed case, which the pattern, whose last alternative is in lower case, does not match. *)
Lemma uuid_exact s :
  uuid s = true <->
  (length (bytes_of s) = 36%nat /\ forall i b, bytes_of s !! i = Some b -> pattern_byte i b)
  \/ s = nil_uuid \/ Text.to_ascii_lowercase s = max_uuid.
Proof.
  unfold uuid. rewrite !andb_true_iff, Nat.eqb_eq, forallb_imap_pair, !orb_true_iff, str_eqb_eq.
  unfold eq_ignore_ascii_case. rewrite str_eqb_eq.
  change (Text.to_ascii_lowercase "ffffffff-ffff-ffff-ffff-ffffffffffff") with max_uuid. split.
  - intros ((L & H) & [[->|Hm]|(V & W)%andb_true_iff]); [by right; left|by right; right|left].
    split; [done|]. intros i b E. specialize (H i b E). unfold uuid_byte in H. unfold pattern_byte.
    destruct (existsb _ _); [unfold dash in H; by apply Z.eqb_eq in H|].
    destruct (Nat.eqb i 14) eqn:E14; [apply Nat.eqb_eq in E14 as ->|].
    { rewrite E in V. cbn [is_some_and] in V. to_prop. lia. }
    destruct (Nat.eqb i 19) eqn:E19; [apply Nat.eqb_eq in E19 as ->|done].
    rewrite E in W. by apply lower_variant.
  - intros [(L & H)|[->|Hm]].
    + split; [split; [done|]|right].
      * intros i b E. specialize (H i b E). unfold uuid_byte, pattern_byte in *.
        destruct (existsb _ _); [unfold dash; by subst|].
        destruct (Nat.eqb i 14); [apply hex_small; lia|]. destruct (Nat.eqb i 19); [by apply variant_hex|done].
      * apply andb_true_iff. split; apply is_some_and_true.
        -- destruct (bytes_of s !! 14%nat) as [b|] eqn:E; [|apply lookup_ge_None in E; lia].
           exists b. specialize (H _ _ E). unfold pattern_byte in H. cbn in H. split; [done|]. to_prop. lia.
        -- destruct (bytes_of s !! 19%nat) as [b|] eqn:E; [|apply lookup_ge_None in E; lia].
           exists b. specialize (H _ _ E). unfold pattern_byte in H. cbn [Nat.eqb existsb orb] in H.
           split; [done|]. by apply lower_variant.
    + split; [|by left; left]. split; [done|].
      apply (proj1 (forallb_imap_pair (fun '(i, b) => uuid_byte i b) _)). by vm_compute.
    + assert (map lower_byte (bytes_of s) = bytes_of max_uuid) as B.
      { rewrite <- Hm. unfold Text.to_ascii_lowercase. rewrite bytes_of_str; [done|].
        apply Forall_map. eapply Forall_impl; [apply bytes_of_bytes|].
        intros b Hb. unfold is_byte, lower_byte in *. simpl. destruct (_ && _) eqn:E; to_prop; lia. }
      split; [split|by left; right].
      * rewrite <- (length_map lower_byte), B. done.
      * intros i b E. apply (lower_max_byte i b (lower_byte b)); [|done].
        by rewrite <- B, list_lookup_fmap, E.
Qed.

(** The patterns read as the projector reads them: it takes the greatest identifier in any case. *)
Definition lenient (pattern s : string) : Prop :=
  Regex.matches pattern s \/ Text.to_ascii_lowercase s = max_uuid.

Lemma uuid_lenient s : uuid s = true <-> lenient UUID_PATTERN s.
Proof.
  unfold lenient. rewrite uuid_exact, matches_uuid.
  assert (s = max_uuid -> Text.to_ascii_lowercase s = max_uuid) by (by intros ->; vm_compute). tauto.
Qed.

Lemma upper_case_maximum :
  uuid "FFFFFFFF-FFFF-FFFF-FFFF-FFFFFFFFFFFF" = true
  /\ ~ Regex.matches UUID_PATTERN "FFFFFFFF-FFFF-FFFF-FFFF-FFFFFFFFFFFF".
Proof.
  split; [by vm_compute|]. rewrite matches_uuid. intros [(_ & H)|[|]]; try done.
  specialize (H 14%nat _ eq_refl). vm_compute in H. by destruct H as (_ & H).
Qed.

(** ** Shapes *)

(** The shape of a regular schema, by the keyword that decides it *)
Definition shape (schema : Ordered.t) : Prop :=
  exists o, Ordered.object schema = Some o
  /\ (if is_none (Ordered.get "anyOf" schema) then
        if is_none (Ordered.get "enum" schema) && is_none (Ordered.get "const" schema) then
          if is_none (Ordered.get "propertyNames" schema) then
            forall ty, schema_type schema = Some ty ->
              (ty = "object"%string -> regular_object schema o = true)
              /\ (ty = "integer"%string -> regular_integer schema = true)
          else regular_record schema o = true
        else regular_literals schema o = true
      else only ["anyOf"] o = true).

Lemma is_none_has_key key schema o :
  Ordered.object schema = Some o -> is_none (Ordered.get key schema) = negb (has_key key o).
Proof.
  intros Eo. apply Bool.eq_iff_eq_true. rewrite negb_true_iff, <- not_true_iff_false, (has_key_get _ _ _ Eo).
  destruct (Ordered.get key schema); simpl; naive_solver.
Qed.

Lemma regular_shape schema : regular schema = true -> shape schema.
Proof.
  destruct schema as [| |o]; cbn [regular]; try done. intros ((_ & F)%andb_true_iff & _)%andb_true_iff.
  exists o. split; [done|]. rewrite !(is_none_has_key _ (Ordered.Object o) o eq_refl).
  destruct (has_key "anyOf" o); cbn [negb]; [by apply andb_true_iff in F as (F & _)|].
  rewrite <- negb_orb. destruct (has_key "enum" o || has_key "const" o); cbn [negb]; [done|].
  destruct (has_key "propertyNames" o); cbn [negb]; [done|].
  intros ty T. rewrite T in F. simpl in F. split; intros ->; done.
Qed.

(** A variant has no default, and one of type [null] no other keyword. *)
Lemma regular_variant schema l x :
  regular schema = true -> Ordered.get "anyOf" schema >>? Ordered.array = Some l -> In x l ->
  regular x = true /\ Ordered.get "default" x = None
  /\ (reads_as "null" (Ordered.get "type" x) = true -> exists o, Ordered.object x = Some o /\ only ["type"] o = true).
Proof.
  intros R E Hx. pose proof E as (v & Ev & Ea)%and_then_Some.
  destruct (regular_sub _ _ _ R Ev) as (_ & Sub & _). split; [by eapply Sub|].
  destruct schema as [| |o]; cbn [regular] in R; try done.
  apply andb_true_iff in R as ((_ & R)%andb_true_iff & _).
  assert (has_key "anyOf" o = true) as K by (by apply last_entry_has; simpl in Ev; rewrite Ev).
  rewrite K in R. apply andb_true_iff in R as (_ & R). unfold listed in R. rewrite E in R.
  rewrite forallb_forall in R. specialize (R _ Hx). apply andb_true_iff in R as (D & N).
  split; [by destruct (Ordered.get "default" x)|]. intros T. rewrite T in N. simpl in N.
  by apply is_some_and_true in N.
Qed.

(** The types a schema of one type, or of one and [null], names *)
Lemma of_types_one schema types ty v :
  Ordered.get "type" schema = Some types -> schema_type schema = Some ty ->
  of_types types v <-> of_type ty v \/ nullable schema = true /\ v = Null.
Proof.
  intros E T. unfold schema_type in T. rewrite E in T. simpl in T. unfold of_types, nullable. rewrite E. simpl.
  destruct (Ordered.text types) as [s|] eqn:Es; simpl in T.
  { injection T as ->. assert (Ordered.array types = None) as -> by (by destruct types). simpl. naive_solver. }
  apply bind_Some in T as (l & El & T). rewrite El. simpl.
  destruct (Nat.eqb (length l) 2) eqn:L; [|done]. apply Nat.eqb_eq in L.
  destruct l as [|a [|b [|]]]; try done. clear L. cbn [negb orb] in T.
  destruct (existsb _ [a; b]) eqn:X; [|done]. cbn [negb find_map opt_filter] in T.
  assert (forall t, reads_as "null" (Some t) = true <-> Ordered.text t = Some "null"%string) as N.
  { intros t. unfold reads_as. cbn [and_then]. rewrite is_some_and_true.
    split; [intros (? & -> & <-%str_eqb_eq); done|intros ->; by eexists]. }
  assert (forall t, of_type "null" t <-> t = Null) as Nt.
  { intros []; simpl; try (split; congruence). split; [|done]. by intros (? & _ & _ & [|(? & _)]). }
  assert (Ordered.text a = Some ty /\ Ordered.text b = Some "null"%string
          \/ Ordered.text a = Some "null"%string /\ Ordered.text b = Some ty) as Two.
  { cbn [existsb] in X. rewrite orb_false_r, orb_true_iff, !N in X.
    destruct (Ordered.text a) as [sa|] eqn:Ea; cbn [opt_filter] in T.
    - destruct (str_eqb sa "null") eqn:Na; cbn [negb] in T; [|injection T as ->; apply str_eqb_neq in Na; naive_solver].
      apply str_eqb_eq in Na as ->. right. split; [done|].
      destruct (Ordered.text b) as [sb|]; cbn [opt_filter] in T; [|done]. by destruct (negb (str_eqb sb "null")).
    - left. destruct X as [|Eb]; [done|]. rewrite Eb in T. by vm_compute in T. }
  clear T. split.
  - intros [(? & ? & _)|(? & t & s & [= <-] & Ht & Et & H)]; [congruence|].
    assert (s = ty \/ s = "null"%string) as [->| ->] by (destruct Ht as [<-|[<-|[]]]; naive_solver); [by left|right].
    split; [done|by apply Nt].
  - intros [H|(_ & ->)]; right; exists [a; b].
    + destruct Two as [(E1 & E2)|(E1 & E2)]; [exists a|exists b]; exists ty; simpl; auto.
    + destruct Two as [(E1 & E2)|(E1 & E2)]; [exists b|exists a]; exists "null"%string; simpl; auto.
Qed.

Section Decides.
Context (accepts : string -> string -> Prop).

(** A schema all of whose keywords are annotations *)
Lemma annotated_valid schema o v : Ordered.object schema = Some o -> only [] o = true -> valid accepts schema v.
Proof.
  intros Eo A. assert (forall key, one_of key annotations = false -> Ordered.get key schema = None) as K.
  { intros key. by apply (only_get [] schema o). }
  constructor; intros; try absent K. by eapply object_not_false.
Qed.

Lemma unknown_only schema : unknown_json schema = true ->
  exists o, Ordered.object schema = Some o /\ only [] o = true.
Proof.
  intros (o & Eo & F)%is_some_and_true. exists o. split; [done|]. unfold only. rewrite forallb_forall in *.
  intros (k, w) H. specialize (F _ H). cbv beta iota in *. apply one_of_In in F. apply one_of_In. simpl in *. tauto.
Qed.

Lemma unknown_valid schema v : unknown_json schema = true -> valid accepts schema v.
Proof. intros (o & Eo & A)%unknown_only. by eapply annotated_valid. Qed.

(** A schema that names one type, in a keyword that is all it has *)
Lemma type_only_valid schema o ty v :
  Ordered.object schema = Some o -> only ["type"] o = true -> Ordered.get "type" schema >>? Ordered.text = Some ty ->
  valid accepts schema v <-> of_type ty v.
Proof.
  intros Eo A (t & Et & Tt)%and_then_Some.
  assert (forall key, one_of key ("type"%string :: annotations) = false -> Ordered.get key schema = None) as K.
  { intros key. by apply (only_get ["type"%string] schema o). }
  split.
  - intros [_ T]. destruct (T _ Et) as [(s & Es & H)|(l & ? & ? & El & _)]; [by simplify_eq|by destruct t].
  - intros H. constructor; intros; try absent K; [by eapply object_not_false|]. left. exists ty. by simplify_eq.
Qed.

(** A schema of literals *)
Lemma literals_valid schema o ws v :
  Ordered.object schema = Some o -> regular_literals schema o = true -> literals schema = Some (Some ws) ->
  valid accepts schema v <-> exists w, In w ws /\ same_value v (Ordered.value w).
Proof.
  intros Eo (ty & T & R)%is_some_and_true L. pose proof T as (t & Et & Tt)%and_then_Some.
  assert (forall types, Ordered.get "type" schema = Some types ->
    forall w, literal_of_type ty w = true -> same_value v (Ordered.value w) -> of_types types v) as Typed.
  { intros types E w Hw S. simplify_eq. left. exists ty. split; [done|by eapply literal_typed]. }
  unfold literals in L. pose proof (is_none_has_key "enum" _ _ Eo) as He. destruct (has_key "enum" o).
  - apply andb_true_iff in R as (A & F). destruct (Ordered.get "enum" schema) as [l|] eqn:El; [|done].
    injection L as L. unfold listed in F. rewrite El in F. simpl in F. rewrite L in F. simpl in F.
    rewrite forallb_forall in F.
    assert (forall key, one_of key (["type"; "enum"]%string ++ annotations) = false -> Ordered.get key schema = None) as K.
    { intros key. by apply (only_get _ schema o). }
    split; [intros [_ _ E]; destruct (E _ El) as (ws' & w & Ew & H); exists w; by simplify_eq|].
    intros (w & Hw & S). constructor; intros; try absent K; [by eapply object_not_false|eauto|].
    simplify_eq. eauto.
  - apply andb_true_iff in R as (A & F). apply is_some_and_true in F as (w & Ew & F).
    assert (Ordered.get "enum" schema = None) as En by (by destruct (Ordered.get "enum" schema)).
    rewrite En, Ew in L. injection L as <-.
    assert (forall key, one_of key (["type"; "const"]%string ++ annotations) = false -> Ordered.get key schema = None) as K.
    { intros key. by apply (only_get _ schema o). }
    split; [intros [_ _ _ C]; exists w; split; [by left|eauto]|].
    intros (w' & [<-|[]] & S). constructor; intros; try absent K; [by eapply object_not_false|eauto|by simplify_eq].
Qed.

(** A variant of a union of numbers *)
Lemma variant_valid x w v :
  regular x = true -> literal_variant x = Some w -> valid accepts x v <-> same_value v (Ordered.value w).
Proof.
  intros (o & Eo & R)%regular_shape L. unfold literal_variant in L. rewrite Eo in L. cbn [mbind option_bind] in L.
  destruct (Ordered.get "const" x) as [c|] eqn:Ec; [|done]. cbn [mbind option_bind] in L.
  destruct (_ && _ && _) eqn:G; [|done]. injection L as ->. apply andb_true_iff in G as ((_ & T)%andb_true_iff & _).
  destruct (is_none (Ordered.get "anyOf" x)) eqn:Ea.
  - rewrite andb_comm in R. cbn [is_none andb] in R. pose proof R as (ty & _ & R')%is_some_and_true.
    assert (Ordered.get "enum" x = None) as En.
    { pose proof (is_none_has_key "enum" _ _ Eo) as He. destruct (has_key "enum" o).
      - apply andb_true_iff in R' as (A & _). assert (Ordered.get "const" x = None); [|congruence].
        by eapply only_get.
      - by destruct (Ordered.get "enum" x). }
    rewrite (literals_valid x o [w] v Eo R) by (unfold literals; by rewrite En, Ec).
    split; [by intros (? & [<-|[]] & ?)|]. intros H. exists w. split; [by left|done].
  - assert (Ordered.get "const" x = None); [|congruence]. by eapply only_get.
Qed.

(** What the keywords beside [type] say of a value of a type *)
Definition contents (schema : Ordered.t) (v : Value) : Prop :=
  match v with
  | Num _ => forall n, as_f64 v = Some n -> number_bounds schema n
  | Str s => text_rules accepts schema s
  | Array vs =>
      size_bounds "minItems" "maxItems" schema (Z.of_nat (length vs))
      /\ forall item x, Ordered.get "items" schema = Some item -> In x vs -> valid accepts item x
  | Object fields =>
      (forall names name, listed "required" schema = Some names -> In name names ->
         exists key, Ordered.text name = Some key /\ field key fields <> None)
      /\ (forall key p x, property_of schema key = Some p -> field key fields = Some x -> valid accepts p x)
      /\ (forall a key x, Ordered.get "additionalProperties" schema = Some a -> property_of schema key = None ->
            field key fields = Some x -> valid accepts a x)
      /\ (forall p key, Ordered.get "propertyNames" schema = Some p -> field key fields <> None ->
            valid accepts p (Str key))
  | _ => True
  end.

Lemma valid_contents schema o types v :
  Ordered.object schema = Some o -> Ordered.get "type" schema = Some types ->
  Ordered.get "enum" schema = None -> Ordered.get "const" schema = None -> Ordered.get "anyOf" schema = None ->
  valid accepts schema v <-> of_types types v /\ contents schema v.
Proof.
  intros Eo Et En Ec Ea. split.
  - intros [S T E C A N X Sz It R P D M]. split; [auto|]. destruct v as [| |x|s|vs|fields]; [done|done| | | |].
    + exact N.
    + exact (X s eq_refl).
    + split; [exact (Sz vs eq_refl)|intros item x; exact (It vs item x eq_refl)].
    + split; [intros names name; exact (R fields names name eq_refl)|].
      split; [intros key p x; exact (P fields key p x eq_refl)|].
      split; [intros a key x; exact (D fields a key x eq_refl)|intros p key; exact (M fields p key eq_refl)].
  - intros (T & H). constructor; intros; try (exfalso; congruence); try (subst v; simpl in H).
    + by eapply object_not_false.
    + congruence.
    + destruct v; try discriminate. by apply H.
    + exact H.
    + exact (proj1 H).
    + by eapply (proj2 H).
    + by eapply (proj1 H).
    + by eapply (proj1 (proj2 H)).
    + by eapply (proj1 (proj2 (proj2 H))).
    + by eapply (proj2 (proj2 (proj2 H))).
Qed.

(** *** Schemas of one type and nothing else *)

Lemma type_alone ty p :
  Ordered.object p <> None ->
  value_eqb (Ordered.value p) (Json.Object [("type"%string, Str ty)]) = true ->
  exists o, p = Ordered.Object o /\ Ordered.get "type" p = Some (Ordered.Scalar (Str ty))
            /\ only ["type"] o = true /\ forall key, key <> "type"%string -> Ordered.get key p = None.
Proof.
  destruct p as [|a|o]; try done. intros _ (K & T)%type_entries. exists o. split; [done|]. split; [done|].
  assert (forall key, key <> "type"%string -> Ordered.last_entry key o = None) as N.
  { intros key Hk. destruct (Ordered.last_entry key o) eqn:E; [|done]. destruct Hk. apply K. congruence. }
  split; [|done]. unfold only. apply forallb_forall. intros (k, w) H.
  apply one_of_In. left. symmetry. apply K. apply last_entry_key, in_map_iff. by exists (k, w).
Qed.

(** A schema of booleans and nothing else *)
Lemma boolean_conforms p i :
  Ordered.object p <> None ->
  value_eqb (Ordered.value p) (Json.Object [("type"%string, Str "boolean")]) = true ->
  conforms p i <-> exists b, i = Some (Bool b).
Proof.
  intros Op V. destruct (type_alone _ _ Op V) as (o & -> & T & A & N).
  assert (schema_type (Ordered.Object o) = Some "boolean"%string) as St.
  { unfold schema_type. by rewrite T. }
  assert (unknown_json (Ordered.Object o) = false) as U.
  { unfold unknown_json. simpl. destruct (forallb _ o) eqn:F; [|done]. rewrite forallb_forall in F.
    apply last_entry_In in T. by specialize (F _ T). }
  assert (leaf (Ordered.Object o)) as L.
  { split; [done|]. destruct (no_union (Ordered.Object o)); [by apply N|by split]. }
  assert (view_of (Ordered.Object o) = Some (Typed "boolean")) as Vw.
  { rewrite leaf_view by done. unfold literals. by rewrite !N, St by done. }
  split; [|intros (b & ->); by apply conforms_boolean].
  by_view; eauto.
  - match goal with H : nullable _ = true |- _ => unfold nullable in H; by rewrite T in H end.
  - match goal with H : Ordered.get "default" _ <> None |- _ => by rewrite N in H end.
Qed.

Lemma boolean_valid p v :
  Ordered.object p <> None ->
  value_eqb (Ordered.value p) (Json.Object [("type"%string, Str "boolean")]) = true ->
  valid accepts p v <-> exists b, v = Bool b.
Proof.
  intros Op V. destruct (type_alone _ _ Op V) as (o & -> & T & A & _).
  rewrite (type_only_valid (Ordered.Object o) o "boolean" v eq_refl A) by (by rewrite T).
  destruct v; simpl; try (split; [done|by intros (? & ?)]); [naive_solver|].
  split; [by intros (? & _ & _ & [|(? & _)])|by intros (? & ?)].
Qed.

(** *** Records *)

Lemma names_tracks_texts l : names_tracks l = true ->
  Forall2 (fun w key => Ordered.text w = Some key) l TRACK_KEYS.
Proof.
  intros (L & F)%andb_true_iff. apply Nat.eqb_eq in L. apply Forall2_same_length_lookup. split; [done|].
  intros i w key Hw Hk. rewrite forallb_forall in F.
  assert (In (w, key) (zip l TRACK_KEYS)) as Hin.
  { apply list_elem_of_In, list_elem_of_lookup. exists i. by rewrite lookup_zip_with, Hw; simpl; rewrite Hk. }
  apply F in Hin. cbv beta iota in Hin. unfold reads_as in Hin. cbn [and_then] in Hin.
  by apply is_some_and_true in Hin as (s & -> & ->%str_eqb_eq).
Qed.

(** The names of a record of tracks *)
Lemma track_names_valid p pn key l :
  Ordered.object p = Some pn -> only ["type"; "enum"] pn = true ->
  reads_as "string" (Ordered.get "type" p) = true ->
  Ordered.get "enum" p >>? Ordered.array = Some l -> names_tracks l = true ->
  valid accepts p (Str key) <-> In key TRACK_KEYS.
Proof.
  intros Eo A T (e & Ee & El)%and_then_Some F%names_tracks_texts.
  rewrite (literals_valid p pn l).
  - split.
    + intros (w & Hw & S). destruct (Forall2_In_l _ _ _ _ F Hw) as (k & Hk & Tw).
      destruct w as [[]| |]; simplify_eq/=. by apply str_eqb_eq in S as ->.
    + intros Hk. destruct (Forall2_In_r _ _ _ _ F Hk) as (w & Hw & Tw). exists w. split; [done|].
      destruct w as [[]| |]; simplify_eq/=. apply str_eqb_refl.
  - done.
  - unfold regular_literals. unfold reads_as in T. apply is_some_and_true in T as (s & Es & <-%str_eqb_eq).
    rewrite Es. cbn [is_some_and].
    assert (has_key "enum" pn = true) as -> by (apply (has_key_get _ p pn Eo); congruence).
    rewrite A. unfold listed. rewrite Ee. simpl. rewrite El. simpl. apply forallb_forall. intros w Hw.
    destruct (Forall2_In_l _ _ _ _ F Hw) as (k & _ & Tw). destruct w as [[]| |]; by simplify_eq/=.
  - unfold literals. by rewrite Ee, El.
Qed.

Lemma of_type_object v : of_type "object" v <-> exists fields, v = Object fields.
Proof.
  destruct v; simpl; try (split; [done|by intros (? & ?)]); [|naive_solver].
  split; [by intros (? & _ & _ & [|(? & _)])|by intros (? & ?)].
Qed.

Lemma leaf_of schema :
  unknown_json schema = false -> Ordered.get "anyOf" schema = None -> leaf schema.
Proof. intros U (L & N)%no_union. by split. Qed.

Lemma typed_get schema ty : schema_type schema = Some ty -> exists types, Ordered.get "type" schema = Some types.
Proof. unfold schema_type. destruct (Ordered.get "type" schema); [eauto|done]. Qed.

Lemma field_conforms_boolean boolean fields :
  (forall i, conforms boolean i <-> exists b, i = Some (Bool b)) ->
  (forall v, valid accepts boolean v <-> exists b, v = Bool b) ->
  forall key, conforms boolean (field key fields) <->
    field key fields <> None /\ forall x, field key fields = Some x -> valid accepts boolean x.
Proof. intros C V key. rewrite C. setoid_rewrite V. destruct (field key fields); naive_solver. Qed.

(** A schema of a type: both admit what is of another type only where it is excused. *)
Section Leaf.
Context (schema : Ordered.t) (o : list (string * Ordered.t)) (ty : string).
Context (Eo : Ordered.object schema = Some o) (U : unknown_json schema = false)
  (Ea : Ordered.get "anyOf" schema = None) (En : Ordered.get "enum" schema = None)
  (Ec : Ordered.get "const" schema = None) (St : schema_type schema = Some ty).

Lemma typed_view : view_of schema = Some (Typed ty).
Proof. rewrite leaf_view by (by apply leaf_of). unfold literals. by rewrite En, Ec, St. Qed.

Lemma typed_of_type v : ~ excused schema (Some v) -> conforms schema (Some v) -> of_type ty v.
Proof.
  intros X. pose proof typed_view as Vw. pose proof (leaf_of _ U Ea) as L. unfold excused in X.
  by_view; try done; try (destruct X; by auto); eexists; rewrite <- is_finite_finite, <- is_integral_whole;
    repeat split; eauto. right. split; [done|].
  match goal with H : integer_conforms _ _ |- _ => apply H end.
Qed.

Lemma typed_decides v :
  (of_type ty v -> conforms schema (Some v) <-> contents schema v) ->
  conforms schema (Some v) <-> valid accepts schema v.
Proof.
  intros H. destruct (typed_get _ _ St) as (types & Et).
  rewrite (valid_contents schema o types v Eo Et En Ec Ea), (of_types_one _ _ _ _ Et St).
  destruct (nullable schema && is_null v) eqn:N.
  - apply andb_true_iff in N as (N & Nv). destruct v; try done.
    split; [intros _; by split; [right|]|intros _]. apply conforms_nullable; [by apply leaf_of|done].
  - assert (~ (nullable schema = true /\ v = Null)) as X by (intros (N' & ->); by rewrite N' in N).
    split.
    + intros C. assert (of_type ty v) as T.
      { apply typed_of_type; [|done]. intros [(N' & [= ->])|(_ & ?)]; [by apply X|done]. }
      split; [by left|]. by apply H.
    + intros ([T|] & C); [by apply H|done].
Qed.
End Leaf.

(** *** Records *)

Section Record.
Context (schema : Ordered.t) (o : list (string * Ordered.t)) (p a : Ordered.t).
Context (Eo : Ordered.object schema = Some o) (R : regular_record schema o = true)
  (Ep : Ordered.get "propertyNames" schema = Some p) (Eadd : Ordered.get "additionalProperties" schema = Some a).

Lemma record_names : exists pn, Ordered.object p = Some pn /\ only ["type"; "enum"] pn = true.
Proof.
  unfold regular_record in R. apply andb_true_iff in R as ((_ & Pn)%andb_true_iff & _).
  unfold entries in Pn. rewrite Ep in Pn. by apply is_some_and_true in Pn.
Qed.

Lemma record_unlisted key : property_of schema key = None.
Proof.
  unfold regular_record in R. apply andb_true_iff in R as ((A & _)%andb_true_iff & _).
  unfold property_of, entries. by rewrite (only_get _ _ _ "properties"%string Eo A).
Qed.

Lemma record_additional : Ordered.object a <> None.
Proof.
  unfold regular_record in R. apply andb_true_iff in R as (_ & Ad). unfold entries in Ad. rewrite Eadd in Ad.
  simpl in Ad. by destruct (Ordered.object a).
Qed.

Lemma opaque_contents fields : opaque_record schema = true -> contents schema (Object fields).
Proof.
  unfold opaque_record. rewrite !andb_true_iff, Ep, Eadd. cbn [is_some_and].
  intros ((((_ & On) & Oa) & _) & Or). destruct record_names as (pn & Epo & _).
  destruct (type_alone "string" p) as (o' & -> & Tp & Ap & _); [by rewrite Epo|done|]. cbn [contents].
  split; [|split; [intros key q x E; by rewrite record_unlisted in E|split]].
  - intros names name E. unfold listed in E. by destruct (Ordered.get "required" schema).
  - intros a' key x E _ _. rewrite Eadd in E. injection E as <-. by apply unknown_valid.
  - intros p' key E _. rewrite Ep in E. injection E as <-.
    by apply (type_only_valid (Ordered.Object o') o' "string" (Str key)); [| |rewrite Tp|].
Qed.

Lemma track_contents fields :
  track_record schema = Some a ->
  contents schema (Object fields) <->
  (forall key, In key TRACK_KEYS -> conforms a (field key fields)) /\ incl (keys fields) TRACK_KEYS.
Proof.
  intros Tr. pose proof (track_boolean _ _ Tr) as (_ & Vb). pose proof record_additional as Ob.
  pose proof (field_conforms_boolean a fields (fun i => boolean_conforms _ i Ob Vb)
                (fun v => boolean_valid _ v Ob Vb)) as Fb.
  destruct record_names as (pn & Epo & Pn). unfold track_record in Tr. rewrite Ep in Tr. cbn [mbind option_bind] in Tr.
  destruct (negb (typed_as "object" schema)); [done|]. apply bind_Some in Tr as (t & Ety & Tr).
  destruct (reads_as "string" (Some t)) eqn:Rt; [|done]. cbn [negb] in Tr.
  apply bind_Some in Tr as (en & Een & Tr). apply bind_Some in Tr as (req & Ereq & Tr).
  destruct (names_tracks en && names_tracks req) eqn:Nt; [|done]. apply andb_true_iff in Nt as (Ne & Nr).
  clear Tr. apply names_tracks_texts in Nr.
  assert (forall key, valid accepts p (Str key) <-> In key TRACK_KEYS) as Vn.
  { intros key. apply (track_names_valid p pn key en); try done. by rewrite Ety. }
  cbn [contents]. unfold listed. rewrite Ereq, Ep, Eadd. setoid_rewrite Fb. unfold incl. setoid_rewrite <- field_key. split.
  - intros (H1 & _ & H2 & H3). split.
    + intros key Hk. destruct (Forall2_In_r _ _ _ _ Nr Hk) as (name & Hn & Tn).
      destruct (H1 _ _ eq_refl Hn) as (k & Tk & Fk). simplify_eq. split; [done|].
      intros x Ex. by eapply H2; [|apply record_unlisted|].
    + intros key Ek. apply Vn. by eapply H3.
  - intros (H & I). split; [|split; [intros key q x E; by rewrite record_unlisted in E|split]].
    + intros names name [= <-] Hn. destruct (Forall2_In_l _ _ _ _ Nr Hn) as (k & Hk & Tk).
      exists k. split; [done|]. by apply H.
    + intros a' key x [= <-] _ Ex. assert (In key TRACK_KEYS) as Hk by (apply I; congruence). by apply (H key Hk).
    + intros p' key [= <-] Ek. apply Vn. by apply I.
Qed.
End Record.

Lemma record_decides schema v :
  shape schema -> unknown_json schema = false ->
  Ordered.get "anyOf" schema = None -> Ordered.get "enum" schema = None -> Ordered.get "const" schema = None ->
  Ordered.get "propertyNames" schema <> None ->
  typed_as "object" schema = true -> track_record schema <> None \/ opaque_record schema = true ->
  conforms schema (Some v) <-> valid accepts schema v.
Proof.
  intros (o & Eo & R) U Ea En Ec Ep T Rec. rewrite Ea, En, Ec in R. simpl in R.
  destruct (Ordered.get "propertyNames" schema) as [p|] eqn:Epn; [|done]. simpl in R.
  apply is_some_and_true in T as (ty & St & <-%str_eqb_eq).
  assert (exists a, Ordered.get "additionalProperties" schema = Some a) as (a & Eadd).
  { destruct (Ordered.get "additionalProperties" schema) eqn:E; [eauto|].
    unfold regular_record, entries in R. by rewrite E, andb_false_r in R. }
  pose proof (typed_view schema "object" U Ea En Ec St) as Vw.
  apply (typed_decides schema o "object"); try done. intros (fields & ->)%of_type_object.
  destruct (opaque_record schema) eqn:Op.
  - split; intros _; [by eapply opaque_contents|by apply conforms_record].
  - destruct Rec as [Tr|]; [|done]. destruct (track_record schema) as [b|] eqn:Eb; [|done].
    pose proof (track_boolean _ _ Eb) as (Ea' & _). rewrite Eadd in Ea'. injection Ea' as ->.
    by rewrite (conforms_tracks_iff _ _ _ Vw Op Eb), (track_contents schema o p b).
Qed.

(** *** Unions and literals *)

Lemma any_of_valid schema l v :
  shape schema -> Ordered.get "anyOf" schema >>? Ordered.array = Some l ->
  valid accepts schema v <-> exists x, In x l /\ valid accepts x v.
Proof.
  intros (o & Eo & A) (node & En & El)%and_then_Some. rewrite En in A. simpl in A.
  assert (forall key, one_of key (["anyOf"]%string ++ annotations) = false -> Ordered.get key schema = None) as K.
  { intros key. by apply (only_get _ schema o). }
  split.
  - intros [_ _ _ _ H]. destruct (H _ En) as (l' & x & El' & Hx). exists x. by simplify_eq.
  - intros (x & Hx & V). constructor; intros; try absent K; [by eapply object_not_false|].
    exists l, x. by simplify_eq.
Qed.

Lemma union_decides schema vs v :
  regular schema = true -> unknown_json schema = false -> nullable_base schema = None ->
  literal_union schema = Some vs -> conforms schema (Some v) <-> valid accepts schema v.
Proof.
  intros R U B L.
  assert (view_of schema = Some (Union vs)) as Vw by (unfold view_of; by rewrite U, B, L).
  rewrite (conforms_union_iff _ _ _ Vw), admits_literal_iff.
  pose proof L as L'. unfold literal_union in L'. apply bind_Some in L' as (l & El & L').
  rewrite (any_of_valid _ l _ (regular_shape _ R) El).
  destruct (_ || _) in L'; [done|]. apply mapM_Some_1 in L'.
  unfold literal_of. setoid_rewrite equivalent_same. split.
  - intros (v' & [= <-] & w & Hw & S). apply list_elem_of_In, list_elem_of_lookup in Hw as (i & Hw).
    destruct (Forall2_lookup_r _ _ _ _ _ L' Hw) as (x & Hx & Lx).
    assert (In x l) as Hin by (apply list_elem_of_In, list_elem_of_lookup; eauto).
    exists x. split; [done|]. destruct (regular_variant _ _ _ R El Hin) as (Rx & _). by apply (variant_valid x w v Rx Lx).
  - intros (x & Hin & V). exists v. split; [done|].
    pose proof Hin as Hx. apply list_elem_of_In, list_elem_of_lookup in Hx as (i & Hx).
    destruct (Forall2_lookup_l _ _ _ _ _ L' Hx) as (w & Hw & Lx). exists w.
    split; [by apply list_elem_of_In, list_elem_of_lookup; eauto|].
    destruct (regular_variant _ _ _ R El Hin) as (Rx & _). exact (proj1 (variant_valid x w v Rx Lx) V).
Qed.

(** The two variants of a nullable schema: its base and [null] *)
Lemma nullable_variants schema base :
  nullable_base schema = Some base -> exists l null,
    Ordered.get "anyOf" schema >>? Ordered.array = Some l
    /\ (forall x, In x l <-> x = base \/ x = null)
    /\ reads_as "null" (Ordered.get "type" null) = true.
Proof.
  unfold nullable_base. intros (l & El & E)%bind_Some. exists l.
  destruct (Nat.eqb (length l) 2) eqn:L; [|done]. apply Nat.eqb_eq in L. cbn [negb] in E.
  destruct l as [|a [|b [|]]]; try done. apply bind_Some in E as (n & Ef & E).
  destruct (existsb _ [a; b]) eqn:X; [|done]. injection E as ->. cbn [List.find] in Ef.
  cbn [existsb] in X. rewrite orb_false_r in X.
  destruct (reads_as "null" (Ordered.get "type" a)) eqn:Na; cbn [negb orb] in *.
  - destruct (reads_as "null" (Ordered.get "type" b)) eqn:Nb; [done|]. injection Ef as <-.
    exists a. split; [done|]. split; [|done]. simpl. naive_solver.
  - injection Ef as <-. exists b. split; [done|]. split; [|done]. simpl. naive_solver.
Qed.

Lemma null_variant_valid x o v :
  Ordered.object x = Some o -> only ["type"] o = true -> reads_as "null" (Ordered.get "type" x) = true ->
  valid accepts x v <-> v = Null.
Proof.
  intros Eo A (s & T & <-%str_eqb_eq)%is_some_and_true.
  rewrite (type_only_valid x o "null" v Eo A T). destruct v; simpl; try (split; congruence).
  split; [by intros (? & _ & _ & [|(? & _)])|done].
Qed.

Lemma nullable_decides schema base v :
  regular schema = true -> unknown_json schema = false -> nullable_base schema = Some base ->
  (regular base = true -> conforms base (Some v) <-> valid accepts base v) ->
  conforms schema (Some v) <-> valid accepts schema v.
Proof.
  intros R U B H. assert (view_of schema = Some (Nullable base)) as Vw by (unfold view_of; by rewrite U, B).
  destruct (nullable_variants _ _ B) as (l & null & El & Hl & Tn).
  rewrite (conforms_base_iff _ _ _ Vw), (any_of_valid _ l _ (regular_shape _ R) El).
  destruct (regular_variant _ _ base R El) as (Rb & _); [by apply Hl; left|].
  destruct (regular_variant _ _ null R El) as (_ & _ & N); [by apply Hl; right|].
  destruct (N Tn) as (o & Eo & A). rewrite (H Rb). setoid_rewrite Hl. split.
  - intros [[= ->]|V]; [exists null|exists base]; (split; [tauto|]); [by apply (null_variant_valid null o)|done].
  - intros (x & [->| ->] & V); [by right|left]. apply (null_variant_valid null o) in V; [by rewrite V|done..].
Qed.

Lemma literals_decides schema ws v :
  shape schema -> unknown_json schema = false -> Ordered.get "anyOf" schema = None ->
  literals schema = Some (Some ws) -> conforms schema (Some v) <-> valid accepts schema v.
Proof.
  intros (o & Eo & R) U Ea L. rewrite Ea in R. cbn [is_none] in R.
  assert (regular_literals schema o = true) as RL.
  { unfold literals in L. destruct (Ordered.get "enum" schema), (Ordered.get "const" schema); done. }
  rewrite (literals_valid schema o ws v Eo RL L). pose proof (leaf_of _ U Ea) as Lf.
  assert (view_of schema = Some (Literals ws)) as Vw by (rewrite leaf_view by done; by rewrite L).
  assert (~ excused schema (Some v)) as X.
  { apply is_some_and_true in RL as (ty & T & _). apply and_then_Some in T as (t & Et & Tt).
    intros [(N & _)|(_ & ?)]; [|done]. unfold nullable in N. rewrite Et in N. by destruct t. }
  rewrite (conforms_literals_iff _ _ _ Lf Vw X), admits_literal_iff. unfold literal_of.
  setoid_rewrite equivalent_same. naive_solver.
Qed.

(** *** Schemas of a type *)

Lemma type_is schema ty s : schema_type schema = Some ty -> ty <> s -> reads_as s (Ordered.get "type" schema) = false.
Proof.
  unfold schema_type, reads_as. destruct (Ordered.get "type" schema) as [t|]; [|done]. cbn [mbind option_bind and_then].
  destruct (Ordered.text t) as [u|]; [|done]. intros [= ->] N. apply str_eqb_neq. congruence.
Qed.

(** The pattern of identifiers is read as [uuid] reads it in every text of the value. *)
Definition agreeing (v : Value) : Prop :=
  forall s, occurs s v -> accepts UUID_PATTERN s <-> uuid s = true.

Lemma absent_refused i p : conforms p i -> i = None -> regular p = true -> Ordered.get "default" p = None -> False.
Proof.
  induction 1 as [| |p base i V C IH| | | | | | | | | | | | | |]; try done.
  intros -> R _. assert (nullable_base p = Some base) as B.
  { unfold view_of in V. destruct (unknown_json p); [done|]. destruct (nullable_base p); [by simplify_eq|].
    destruct (literal_union p); [done|]. destruct (literals p) as [[]|]; try done. by destruct (schema_type p). }
  destruct (nullable_variants _ _ B) as (l & null & El & Hl & _).
  destruct (regular_variant _ _ base R El) as (Rb & Db & _); [by apply Hl; left|]. by apply IH.
Qed.

Section Typed.
Context (schema : Ordered.t) (o : list (string * Ordered.t)) (ty : string).
Context (R : regular schema = true) (Eo : Ordered.object schema = Some o) (U : unknown_json schema = false)
  (Ea : Ordered.get "anyOf" schema = None) (En : Ordered.get "enum" schema = None)
  (Ec : Ordered.get "const" schema = None) (St : schema_type schema = Some ty)
  (Ep : Ordered.get "propertyNames" schema = None).

Let Vw : view_of schema = Some (Typed ty) := typed_view schema ty U Ea En Ec St.

Lemma typed_shape :
  (ty = "object"%string -> regular_object schema o = true)
  /\ (ty = "integer"%string -> regular_integer schema = true).
Proof.
  destruct (regular_shape _ R) as (o' & Eo' & S). rewrite Eo in Eo'. injection Eo' as <-.
  rewrite Ea, En, Ec, Ep in S. by apply S.
Qed.

Lemma typed_unique : NoDup (map fst o).
Proof. destruct (regular_object_of _ R) as (o' & Eo' & ND). rewrite Eo in Eo'. by injection Eo' as <-. Qed.

Lemma text_decides s :
  ty = "string"%string -> agreeing (Str s) ->
  (Ordered.get "format" schema <> None \/ Ordered.get "pattern" schema <> None ->
     Ordered.get "format" schema <> None /\ reads_as UUID_PATTERN (Ordered.get "pattern" schema) = true) ->
  conforms schema (Some (Str s)) <-> text_rules accepts schema s.
Proof.
  intros -> A F. rewrite (conforms_text_iff _ _ Vw). unfold text_conforms, text_rules.
  rewrite (respects_sizes schema o Eo typed_unique "minLength" "maxLength" "string" _ eq_refl limit_kind_string).
  apply and_iff_compat_l. specialize (A s (occurs_here s)). split.
  - intros H node E. destruct F as (Ff & P); [right; congruence|]. rewrite E in P.
    apply is_some_and_true in P as (t & Et & <-%str_eqb_eq). exists UUID_PATTERN. split; [done|]. apply A. auto.
  - intros H Ff. destruct F as (_ & P); [by left|]. apply is_some_and_true in P as (t & Et & <-%str_eqb_eq).
    apply and_then_Some in Et as (node & E & Et). destruct (H _ E) as (p & Tp & Hp). simplify_eq. by apply A.
Qed.

Lemma number_decides x :
  ty = "number"%string -> of_type ty (Num x) ->
  conforms schema (Some (Num x)) <-> contents schema (Num x).
Proof.
  intros -> (n & E & F & _). rewrite (conforms_number_iff _ _ _ Vw E) by (by apply is_finite_finite).
  rewrite (respects_bounds schema o Eo typed_unique).
  - unfold contents. rewrite E. naive_solver.
  - intros key b _ _ S. unfold safe_bound in S. rewrite (type_is schema "number" "integer" St) in S by done.
    by rewrite andb_false_r in S.
Qed.

Lemma integer_decides x :
  ty = "integer"%string -> of_type ty (Num x) ->
  conforms schema (Some (Num x)) <-> contents schema (Num x).
Proof.
  intros Ty Tv. pose proof (proj2 typed_shape Ty) as RI. pose proof Vw as V. pose proof St as S.
  rewrite Ty in V, S, Tv. destruct Tv as (n & E & F & W). assert (whole n) as W' by (by destruct W as [|(_ & ?)]).
  rewrite (conforms_integer_iff _ _ _ V E) by (by apply is_finite_finite).
  unfold integer_conforms. rewrite is_integral_whole.
  rewrite (regular_integer_bounds schema o Eo typed_unique n S RI).
  unfold contents. rewrite E. naive_solver.
Qed.

Section Parts.
Context (room : nat).
Context (IH : forall schema v, qualify room schema = Ok tt -> regular schema = true -> agreeing v ->
  conforms schema (Some v) <-> valid accepts schema v).

Lemma array_decides vs :
  ty = "array"%string -> agreeing (Array vs) ->
  (forall item, Ordered.get "items" schema = Some item -> qualify room item = Ok tt) ->
  conforms schema (Some (Array vs)) <-> contents schema (Array vs).
Proof.
  intros -> A Q. rewrite (conforms_array_iff _ _ Vw).
  rewrite (respects_sizes schema o Eo typed_unique "minItems" "maxItems" "array" _ eq_refl limit_kind_array).
  cbn [contents]. apply and_iff_compat_l.
  assert (forall item v, Ordered.get "items" schema = Some item -> In v vs ->
    conforms item (Some v) <-> valid accepts item v) as Each.
  { intros item v E Hv. destruct (regular_sub _ _ _ R E) as (_ & _ & Ri). apply IH; auto.
    intros s Hs. apply A. by eapply occurs_element. }
  split; intros H item v E Hv; by apply Each, H.
Qed.

Lemma listed_members fields properties :
  entries "properties" schema = Some properties -> regular_object schema o = true ->
  NoDup (map fst properties)
  /\ (forall name names, listed "required" schema = Some names -> In name names ->
        exists key p, Ordered.text name = Some key /\ In (key, p) properties /\ Ordered.get "default" p = None)
  /\ ((forall key p, In (key, p) properties -> is_required schema key = true -> field key fields <> None)
      <-> (forall names name, listed "required" schema = Some names -> In name names ->
             exists key, Ordered.text name = Some key /\ field key fields <> None)).
Proof.
  intros Es RO. unfold regular_object in RO. rewrite Es in RO.
  apply andb_true_iff in RO as ((_ & ND%nodup_keys_spec)%andb_true_iff & Rq).
  assert (forall name names, listed "required" schema = Some names -> In name names ->
        exists key p, Ordered.text name = Some key /\ In (key, p) properties /\ Ordered.get "default" p = None) as Req.
  { intros name names E Hn. rewrite E in Rq. unfold listed in E.
    destruct (Ordered.get "required" schema); [|done]. cbn [is_none orb is_some_and] in Rq.
    rewrite forallb_forall in Rq. apply Rq in Hn as (key & Tk & (p & Ek & D)%is_some_and_true)%is_some_and_true.
    exists key, p. split; [done|]. split; [by apply last_entry_In|]. by destruct (Ordered.get "default" p). }
  split; [done|]. split; [done|]. split.
  - intros H names name E Hn. destruct (Req _ _ E Hn) as (key & p & Tk & Hk & _). exists key. split; [done|].
    apply (H key p Hk). unfold is_required. unfold listed in E. rewrite E. simpl. apply existsb_exists.
    exists name. split; [done|]. unfold reads_as. cbn [and_then]. rewrite Tk. apply str_eqb_refl.
  - intros H key p Hk (names & E & Hn)%is_some_and_true. apply existsb_exists in Hn as (name & Hn & Rn).
    unfold reads_as in Rn. cbn [and_then] in Rn. apply is_some_and_true in Rn as (k & Tk & <-%str_eqb_eq).
    destruct (H _ _ E Hn) as (k' & Tk' & F). by simplify_eq.
Qed.

(** What [additionalProperties] says of the members [properties] does not list *)
Lemma additional_members fields properties :
  entries "properties" schema = Some properties ->
  (forall v, Ordered.get "additionalProperties" schema = Some v ->
     value_eqb (Ordered.value v) (Bool false) = true \/ Ordered.object v = Some []) ->
  (is_closed schema = true -> incl (keys fields) (map fst properties))
  <-> (forall a key x, Ordered.get "additionalProperties" schema = Some a -> property_of schema key = None ->
         field key fields = Some x -> valid accepts a x).
Proof.
  intros Es Ad. unfold is_closed, incl, property_of. rewrite Es. cbn [and_then]. setoid_rewrite <- field_key.
  setoid_rewrite <- last_entry_key. destruct (Ordered.get "additionalProperties" schema) as [a|]; [|naive_solver].
  cbn [is_some_and]. split.
  - intros H a' key x [= <-] N F. destruct (Ad _ eq_refl) as [C|O]; [by destruct (H C key); [congruence|]|].
    by apply (annotated_valid a []).
  - intros H C key F N. destruct (field key fields) as [x|] eqn:Ex; [|done].
    specialize (H a key x eq_refl N Ex) as [S _ _ _ _ _ _ _ _ _ _ _ _]. apply S.
    by destruct a as [[]| |]; try done; destruct b.
Qed.

Lemma object_decides fields :
  ty = "object"%string -> agreeing (Object fields) ->
  (forall properties l name v, Ordered.get "properties" schema = Some properties ->
       Ordered.object properties = Some l -> In (name, v) l -> qualify room v = Ok tt) ->
  (forall v, Ordered.get "additionalProperties" schema = Some v ->
     value_eqb (Ordered.value v) (Bool false) = true \/ Ordered.object v = Some []) ->
  conforms schema (Some (Object fields)) <-> contents schema (Object fields).
Proof.
  intros Ty A Q Ad. pose proof (proj1 typed_shape Ty) as RO. pose proof Vw as V. rewrite Ty in V.
  assert (opaque_record schema = false) as Op by (unfold opaque_record; by rewrite Ep, andb_false_r).
  assert (track_record schema = None) as Tr by (unfold track_record; by rewrite Ep).
  destruct (entries "properties" schema) as [properties|] eqn:Es.
  2:{ split; [intros _|intros _; by apply conforms_free]. unfold regular_object in RO. rewrite Es in RO.
      assert (forall key, one_of key (["type"]%string ++ annotations) = false -> Ordered.get key schema = None) as K.
      { intros key. by apply (only_get _ schema o). }
      split; [|split; [|split]]; intros; absent K. }
  destruct (listed_members fields _ Es RO) as (ND & Req & Hreq). pose proof Es as (w & Ew & El)%and_then_Some.
  assert (forall key p x, In (key, p) properties -> field key fields = Some x ->
    conforms p (Some x) <-> valid accepts p x) as Each.
  { intros key p x Hk Ex. destruct (regular_sub _ _ _ R Ew) as (Rp & _). apply IH; [by eapply Q|by eapply Rp|].
    intros s Hs. apply A. by eapply occurs_member. }
  rewrite (conforms_object_iff _ _ _ V Op Tr Es). rewrite (additional_members fields _ Es Ad). cbn [contents].
  rewrite <- Hreq. unfold property_of. rewrite Es. cbn [and_then].
  assert (forall key p, Ordered.last_entry key properties = Some p <-> In (key, p) properties) as Entry.
  { intros key p. by rewrite unique_entry. }
  split.
  - intros (H & Hadd). split; [|split; [|split; [done|by rewrite Ep]]].
    + intros key p Hk Hr Fn. specialize (H key p Hk (or_intror Hr)). rewrite Fn in H.
      destruct (regular_sub _ _ _ R Ew) as (Rp & _). eapply absent_refused; [exact H|done|by eapply Rp|].
      apply is_some_and_true in Hr as (names & En' & Hr). apply existsb_exists in Hr as (name & Hn & Rn).
      destruct (Req _ _ En' Hn) as (k & p' & Tk & Hk' & D). unfold reads_as in Rn. cbn [and_then] in Rn.
      apply is_some_and_true in Rn as (k' & Tk' & <-%str_eqb_eq). simplify_eq.
      assert (p' = p) as ->; [|done]. apply Entry in Hk', Hk. congruence.
    + intros key p x Hk%Entry Ex. apply (Each key p x Hk Ex). rewrite <- Ex. apply H; [done|left; congruence].
  - intros (Hr & H & Hadd & _). split; [|done]. intros key p Hk F.
    destruct (field key fields) as [x|] eqn:Ex.
    + apply (Each key p x Hk Ex). eapply H; [by apply Entry|done].
    + destruct F as [F|F]; [done|]. by destruct (Hr key p Hk F).
Qed.
End Parts.
End Typed.

(** The two agree on every regular schema [qualify] admits. *)
Lemma decides room : forall schema v,
  qualify room schema = Ok tt -> regular schema = true -> agreeing v ->
  conforms schema (Some v) <-> valid accepts schema v.
Proof.
  induction room as [|room IH]; intros schema v Q R A; [done|]. apply qualify_step in Q as (O & Q).
  destruct (unknown_json schema) eqn:U.
  { split; intros _; [by apply unknown_valid|]. apply conforms_unknown. unfold view_of. by rewrite U. }
  destruct (nullable_base schema) as [base|] eqn:B.
  { eapply nullable_decides; [done|done|done|]. intros Rb.
    destruct Q as [|? N ? ?|? L%union_not_nullable|? E Qb|(_ & N)%no_union]; try congruence.
    - exfalso. destruct (regular_shape _ R) as (o & Eo & S). unfold nullable_base in B.
      destruct (Ordered.get "anyOf" schema); [|done]. simpl in S.
      assert (Ordered.get "propertyNames" schema = None) by (by eapply only_get). done.
    - simplify_eq. by apply IH. }
  destruct (literal_union schema) as [vs|] eqn:L; [by eapply union_decides|].
  assert (Ordered.get "anyOf" schema = None) as Ea.
  { destruct Q as [| | | |]; try congruence. destruct (regular_shape _ R) as (o & Eo & S).
    destruct (Ordered.get "anyOf" schema); [|done]. simpl in S.
    assert (Ordered.get "propertyNames" schema = None) by (by eapply only_get). done. }
  destruct (literals schema) as [[ws|]|] eqn:Lt.
  { eapply literals_decides; eauto using regular_shape. }
  { exfalso. destruct (regular_shape _ R) as (o & Eo & S). rewrite Ea in S. cbn [is_none] in S.
    unfold literals in Lt. destruct (Ordered.get "enum" schema) as [e|] eqn:Ee; [|by destruct (Ordered.get "const" schema)].
    simpl in S. apply is_some_and_true in S as (ty & _ & S).
    assert (has_key "enum" o = true) as K by (apply (has_key_get _ schema o Eo); congruence).
    rewrite K in S. apply andb_true_iff in S as (_ & S). unfold listed in S. rewrite Ee in S. simpl in S.
    injection Lt as Lt. by rewrite Lt in S. }
  assert (Ordered.get "enum" schema = None /\ Ordered.get "const" schema = None) as (En & Ec).
  { unfold literals in Lt. by destruct (Ordered.get "enum" schema), (Ordered.get "const" schema). }
  destruct Q as [|? N T Rec|? L'|? E Q|_ Hp Hi _ (ty & St & Ht) Hf Had Ep]; try congruence.
  { by apply record_decides; [apply regular_shape| | | | | | |]. }
  destruct (Ordered.object schema) as [o|] eqn:Eo; [|done].
  apply (typed_decides schema o ty); try done. intros Tv.
  destruct v as [|b|x|s|vs|fields].
  - simpl in Tv. subst ty. split; [done|]. intros _. apply conforms_null_type. by apply typed_view.
  - simpl in Tv. subst ty. split; [done|]. intros _. apply conforms_boolean. by apply typed_view.
  - pose proof Tv as (n & _ & _ & [->|(-> & _)]); [by eapply number_decides|by eapply integer_decides].
  - simpl in Tv. by eapply text_decides.
  - simpl in Tv. by eapply array_decides.
  - simpl in Tv. by eapply object_decides.
Qed.
End Decides.

(** ** The answers *)

(** No text of the value is the greatest identifier in upper or mixed case. *)
Definition clean (v : Value) : Prop :=
  forall s, occurs s v -> Text.to_ascii_lowercase s = max_uuid -> s = max_uuid.

Lemma lenient_agreeing v : agreeing lenient v.
Proof. intros s _. symmetry. apply uuid_lenient. Qed.

Lemma clean_agreeing v : clean v -> agreeing Regex.matches v.
Proof.
  intros C s Hs. rewrite uuid_lenient. split; [by left|]. intros [M|L%(C s Hs)]; [done|].
  apply matches_uuid. by right; right.
Qed.

(** An answer about an input against its schema: an error only of an input that is not valid; no
    issue only in one that is, its identifiers read leniently where one is the greatest in
    upper or mixed case. *)
Definition truthful (node : Ordered.t) (input : Value) (r : outcome Value) : Prop :=
  (forall e, r = Some (Ok e) ->
     ~ valid Regex.matches node input /\ exists text, str_len text <= MAX_OUTPUT /\ e = error_value text)
  /\ (r = Some (Err NoIssues) ->
     valid lenient node input /\ (clean input -> valid Regex.matches node input)).

Section Answers.
Context {Codec : SerdeJson} {Lib : F64Library}.

(** C20: An input error is an error of the schema, read as JSON Schema reads it: whichever entry
    point is asked, and whatever regular schema (every exported one is) the tool has, it makes
    an error only of an input the schema does not admit, of at most 32 KiB of text, and says that
    there is no issue only of an input the schema admits.  The one identifier [uuid] takes
    against the schema's pattern, the greatest in upper or mixed case, is the one exception. *)
Theorem input_errors_are_type_errors catalog outputs node input r :
  answers catalog outputs node input r -> regular node = true -> truthful node input r.
Proof.
  intros (Bad & None)%answers_decided R. split.
  - intros e (Q & N & B)%Bad. split; [|done]. intros V. apply N.
    apply (decides lenient levels node input Q R (lenient_agreeing input)).
    eapply valid_weaken, V. by left.
  - intros (Q & C)%None. split.
    + by apply (decides lenient levels node input Q R (lenient_agreeing input)).
    + intros Cl. by apply (decides Regex.matches levels node input Q R (clean_agreeing _ Cl)).
Qed.
End Answers.
