(* ===== verification/StdioOutput.v ===== *)
(** * The retained writer of standard output

    [native/src/stdio_output.rs]: every message to the client is admitted whole before anything
    else becomes visible, put into one bounded queue, and written by one worker.  Permits are
    numbers; dropping a value returns what it holds.  The worker is a step between two of its
    awaits ([Received], [Written], [Flushed]); reservations, commits and drops come in between in
    any order.  The writer is given by its answers. *)
From coqutil Require Import Datatypes.RecordSettersUsingExistingGetters.
From S2P Require Import Prelude Json Serde.

Definition ITEMS : Z := 128.
Definition BYTES : Z := 32 * 1024 * 1024.
Definition TEMPLATE_ENTRIES : Z := 4096.
Definition HEADER_BYTES : Z := 256 * 1024.
Definition FRAMES : Z := 256 * 1024.
Definition AMPLIFIED_BYTES : Z := 256 * 1024 * 1024.

(** [size_of] of [Segment] and [Vec<u8>] on the supported 64-bit targets *)
Definition SEGMENT_SIZE : Z := 32.
Definition VEC_SIZE : Z := 24.

Definition U32_MAX : Z := 4294967295.

(** [usize::checked_mul] *)
Definition checked_mul (a b : Z) : option Z := if a * b <=? USIZE_MAX then Some (a * b) else None.

Record Cycle := { values : list Value; repetitions : Z }.

Record Limits := {
  l_items : Z;
  l_bytes : Z;
  l_template_entries : Z;
  l_header_bytes : Z;
  l_frames : Z;
  l_amplified_bytes : Z
}.

Definition ordinary (items bytes : Z) : Limits :=
  {| l_items := items; l_bytes := bytes; l_template_entries := TEMPLATE_ENTRIES; l_header_bytes := HEADER_BYTES;
     l_frames := FRAMES; l_amplified_bytes := AMPLIFIED_BYTES |}.

Record Segment := { lines : list (list Z); reps : Z }.

Inductive Payload : Type :=
| Single (line : list Z)
| Repeated (segments : list Segment).

Record Cursor := {
  payload : Payload;
  segment : nat;
  repetition : Z;
  line : nat;
  frames : Z
}.

(** The outer [None] is an index out of range. *)
Definition current (c : Cursor) : option (option (list Z)) :=
  match payload c with
  | Single l => Some (if (segment c =? 0)%nat then Some l else None)
  | Repeated segments =>
      match segments !! segment c with
      | None => Some None
      | Some s => match lines s !! line c with Some l => Some (Some l) | None => None end
      end
  end.

Definition move_to (c : Cursor) (s : nat) (r : Z) (l : nat) : Cursor :=
  {| payload := payload c; segment := s; repetition := r; line := l; frames := frames c |}.

Definition advance (c : Cursor) : option Cursor :=
  match payload c with
  | Single _ => Some (move_to c 1 (repetition c) (line c))
  | Repeated segments =>
      match segments !! segment c with
      | None => None
      | Some s =>
          Some (if (S (line c) =? length (lines s))%nat then
                  if repetition c + 1 =? reps s then move_to c (S (segment c)) 0 0
                  else move_to c (segment c) (repetition c + 1) 0
                else move_to c (segment c) (repetition c) (S (line c)))
      end
  end.

(** Why a publication failed: [io::ErrorKind], by where it comes from *)
Inductive Failure : Type := BrokenPipe | WriteZero | InvalidInput | OfWriter (kind : Z).

Inductive Stage : Type := Queued | Writing | Flushing | Complete | Failed (f : Failure).

Record Progress := { stage : Stage; frame : Z; byte : Z }.

Definition settled (s : Stage) : bool := match s with Complete | Failed _ => true | _ => false end.

(** Permits, available or held *)
Record Permits := { p_items : Z; p_bytes : Z; p_entries : Z; p_headers : Z }.

Definition no_permits : Permits := {| p_items := 0; p_bytes := 0; p_entries := 0; p_headers := 0 |}.

Definition add_permits (a b : Permits) : Permits :=
  {| p_items := p_items a + p_items b; p_bytes := p_bytes a + p_bytes b;
     p_entries := p_entries a + p_entries b; p_headers := p_headers a + p_headers b |}.

Record Entry := {
  cursor : Cursor;
  progress : Progress;
  signal : nat;
  max_line : Z;
  held : Permits
}.

Inductive OutError : Type := Capacity | Invalid.

Inductive Await : Type := AtWrite | AtFlush.

(** How the worker's task ended *)
Inductive End : Type := Finished | FailedWith (f : Failure) | Aborted.

(** The pools, the channel with its reserved slots, the worker, the signals of the tickets, and
    what the writer has taken.  [committed] remembers the frames of every publication put into
    the queue. *)
Record World := {
  limits : Limits;
  pools : Permits;
  handle : bool;
  closed : bool;
  reservations : list (option Entry);
  queue : list Entry;
  active : option (Entry * Await);
  ended : option End;
  signals : list Progress;
  pipe : list Z;
  flushes : Z;
  committed : list (nat * list (list Z))
}.

Section Output.
Context {Codec : SerdeJson}.

(** ** Admission *)

Definition acquire (available count : Z) : result OutError Z :=
  if U32_MAX <? count then Err Capacity
  else if available <? count then Err Capacity else Ok (available - count).

Definition encoded_length (value : Value) (limit : Z) : result OutError Z :=
  let n := Z.of_nat (length (to_vec value)) in
  if Z.max 0 (limit - 1) <? n then Err Capacity
  else match checked_add n 1 with
       | Some m => if m <=? limit then Ok m else Err Capacity
       | None => Err Capacity
       end.

Definition encode (value : Value) (len : Z) : result OutError (list Z) :=
  let text := to_vec value in
  let n := Z.of_nat (length text) in
  if len - 1 <? n then Err Capacity
  else if negb (n + 1 =? len) then Err Invalid
  else Ok (text ++ [10]).

(** What the counting loop adds up *)
Record Count := {
  k_frames : Z;
  k_amplification : Z;
  k_templates : Z;
  k_headers : Z;
  k_maximum : Z;
  k_encoded : Z
}.

Definition within (limit : Z) (o : option Z) : result OutError Z :=
  match o with Some n => if n <=? limit then Ok n else Err Capacity | None => Err Capacity end.

Fixpoint count_values (lim : Limits) (single : bool) (reps : Z) (vs : list Value) (k : Count) : result OutError Count :=
  match vs with
  | [] => Ok k
  | v :: vs =>
      let? len := encoded_length v (l_bytes lim) in
      let? encoded := within (l_bytes lim) (checked_add (k_encoded k) len) in
      let? more := ok_or (checked_mul len reps) Capacity in
      let? amplification := within (if single then USIZE_MAX else l_amplified_bytes lim)
                              (checked_add (k_amplification k) more) in
      count_values lim single reps vs
        {| k_frames := k_frames k; k_amplification := amplification; k_templates := k_templates k;
           k_headers := k_headers k; k_maximum := Z.max (k_maximum k) len; k_encoded := encoded |}
  end.

Definition count_cycle (lim : Limits) (single : bool) (cycles : Z) (c : Cycle) (k : Count) : result OutError Count :=
  let n := Z.of_nat (length (values c)) in
  if (n =? 0) || (repetitions c =? 0) then Err Invalid
  else
    let? templates := ok_or (checked_add (k_templates k) n) Capacity in
    let? _ := if single then Ok 0 else within (l_template_entries lim) (checked_add templates cycles) in
    let? more := ok_or (checked_mul n (repetitions c)) Capacity in
    let? frames := within (if single then USIZE_MAX else l_frames lim) (checked_add (k_frames k) more) in
    let? vecs := ok_or (checked_mul n VEC_SIZE) Capacity in
    let? headers := ok_or (checked_add (k_headers k) vecs) Capacity in
    count_values lim single (repetitions c) (values c)
      {| k_frames := frames; k_amplification := k_amplification k; k_templates := templates; k_headers := headers;
         k_maximum := k_maximum k; k_encoded := k_encoded k |}.

Fixpoint count_cycles (lim : Limits) (single : bool) (n : Z) (cs : list Cycle) (k : Count) : result OutError Count :=
  match cs with
  | [] => Ok k
  | c :: cs => let? k := count_cycle lim single n c k in count_cycles lim single n cs k
  end.

Definition is_single (cycles : list Cycle) : bool :=
  match cycles with
  | [c] => (length (values c) =? 1)%nat && (repetitions c =? 1)
  | _ => false
  end.

Definition count (lim : Limits) (cycles : list Cycle) : result OutError Count :=
  let single := is_single cycles in
  let n := Z.of_nat (length cycles) in
  if (n =? 0) || (negb single && (l_template_entries lim <? n)) then Err Invalid
  else
    let? headers := ok_or (checked_mul n SEGMENT_SIZE) Capacity in
    count_cycles lim single n cycles
      {| k_frames := 0; k_amplification := 0; k_templates := 0; k_headers := headers; k_maximum := 0; k_encoded := 0 |}.

Fixpoint encode_lines (lim : Limits) (vs : list Value) : result OutError (list (list Z)) :=
  match vs with
  | [] => Ok []
  | v :: vs =>
      let? len := encoded_length v (l_bytes lim) in
      let? l := encode v len in
      let? ls := encode_lines lim vs in
      Ok (l :: ls)
  end.

Fixpoint encode_segments (lim : Limits) (cs : list Cycle) : result OutError (list Segment) :=
  match cs with
  | [] => Ok []
  | c :: cs =>
      let? ls := encode_lines lim (values c) in
      let? ss := encode_segments lim cs in
      Ok ({| lines := ls; reps := repetitions c |} :: ss)
  end.

(** The payload, once its frames are counted *)
Definition payload_of (lim : Limits) (k : Count) (cycles : list Cycle) : result OutError Payload :=
  if k_frames k =? 1 then
    match cycles with
    | c :: _ =>
        match values c with
        | v :: _ => let? l := encode v (k_maximum k) in Ok (Single l)
        | [] => Err Invalid
        end
    | [] => Err Invalid
    end
  else let? ss := encode_segments lim cycles in Ok (Repeated ss).

(** What the publication holds: an item, its encoded bytes, and the credits of its templates *)
Definition charge_of (lim : Limits) (av : Permits) (k : Count) (cycles : Z) : result OutError Permits :=
  let? entries :=
    if k_frames k =? 1 then Ok (0, 0)
    else if l_header_bytes lim <? k_headers k then Err Capacity
    else
      let? _ := acquire (p_entries av) (k_templates k + cycles) in
      let? _ := acquire (p_headers av) (k_headers k) in
      Ok (k_templates k + cycles, k_headers k) in
  let? _ := acquire (p_bytes av) (k_encoded k) in
  Ok {| p_items := 1; p_bytes := k_encoded k; p_entries := fst entries; p_headers := snd entries |}.

(** Slots of the channel taken by outstanding permits *)
Definition reserved (w : World) : Z := Z.of_nat (length (List.filter (fun r => negb (is_none r)) (reservations w))).

Definition can_reserve (w : World) : bool :=
  negb (closed w) && (Z.of_nat (length (queue w)) + reserved w <? l_items (limits w)).

Definition reserve_publication (cycles : list Cycle) (w : World) : result OutError nat * World :=
  let answer :=
    let? _ := acquire (p_items (pools w)) 1 in
    let? _ := if can_reserve w then Ok 0 else Err Capacity in
    let? k := count (limits w) cycles in
    let? charge := charge_of (limits w) (pools w) k (Z.of_nat (length cycles)) in
    let? data := payload_of (limits w) k cycles in
    Ok {| cursor := {| payload := data; segment := 0; repetition := 0; line := 0; frames := k_frames k |};
          progress := {| stage := Queued; frame := 0; byte := 0 |};
          signal := length (signals w); max_line := k_maximum k; held := charge |} in
  match answer with
  | Err e => (Err e, w)
  | Ok entry =>
      (Ok (length (reservations w)),
       w <| pools ::= fun p => {| p_items := p_items p - p_items (held entry); p_bytes := p_bytes p - p_bytes (held entry);
                                  p_entries := p_entries p - p_entries (held entry);
                                  p_headers := p_headers p - p_headers (held entry) |} |>
         <| signals ::= fun s => s ++ [progress entry] |>
         <| reservations ::= fun r => r ++ [Some entry] |>)
  end.

(** ** Ownership *)

Definition report (e : Entry) (w : World) : World := w <| signals ::= <[signal e := progress e]> |>.

Definition fail (f : Failure) (e : Entry) (w : World) : Entry * World :=
  let e := e <| progress ::= fun p => p <| stage := Failed f |> |> in (e, report e w).

(** [Drop for Entry], and of the permits it holds *)
Definition drop_entry (e : Entry) (w : World) : World :=
  let w := if settled (stage (progress e)) then w else snd (fail BrokenPipe e w) in
  w <| pools ::= add_permits (held e) |>.

Definition drop_all (es : list Entry) (w : World) : World := fold_left (fun w e => drop_entry e w) es w.

Definition take_reservation (k : nat) (w : World) : option Entry * World :=
  match reservations w !! k with
  | Some (Some e) => (Some e, w <| reservations ::= <[k := None]> |>)
  | _ => (None, w)
  end.

(** The bytes of every frame of a payload, in order *)
Definition frames_of_segment (s : Segment) : list (list Z) := concat (repeat (lines s) (Z.to_nat (reps s))).

Definition frames_of (p : Payload) : list (list Z) :=
  match p with
  | Single l => [l]
  | Repeated segments => concat (map frames_of_segment segments)
  end.

(** [Reservation::commit]: the signal of the ticket *)
Definition commit (k : nat) (w : World) : option nat * World :=
  match take_reservation k w with
  | (None, w) => (None, w)
  | (Some e, w) =>
      (Some (signal e),
       if closed w then drop_entry e w
       else w <| queue ::= fun q => q ++ [e] |>
              <| committed ::= fun l => l ++ [(signal e, frames_of (payload (cursor e)))] |>)
  end.

Definition drop_reservation (k : nat) (w : World) : World :=
  match take_reservation k w with
  | (None, w) => w
  | (Some e, w) => drop_entry e w
  end.

Definition try_send (value : Value) (w : World) : result OutError unit * World :=
  match reserve_publication [{| values := [value]; repetitions := 1 |}] w with
  | (Err e, w) => (Err e, w)
  | (Ok k, w) =>
      let '(ticket, w) := commit k w in
      match ticket >>? (fun s => signals w !! s) with
      | Some p => (match stage p with Failed _ => Err Capacity | _ => Ok tt end, w)
      | None => (Ok tt, w)
      end
  end.

(** ** The worker *)

(** The worker ends: its receiver is dropped, and with it what is queued. *)
Definition end_worker (result : End) (w : World) : World :=
  (drop_all (queue w) (w <| closed := true |> <| queue := [] |>)) <| active := None |> <| ended := Some result |>.

Definition worker_fails (f : Failure) (e : Entry) (w : World) : World :=
  let '(e, w) := fail f e w in end_worker (FailedWith f) (drop_entry e w).

Definition set_stage (s : Stage) (e : Entry) : Entry := e <| progress ::= fun p => p <| stage := s |> |>.

Definition wait_at (a : Await) (e : Entry) (w : World) : World :=
  let e := set_stage (match a with AtWrite => Writing | AtFlush => Flushing end) e in
  (report e w) <| active := Some (e, a) |>.

(** One turn of the loop of [write_entry] *)
Definition turn (e : Entry) (w : World) : option World :=
  match current (cursor e) with
  | None => None
  | Some None =>
      if negb (frame (progress e) =? frames (cursor e)) then Some (worker_fails InvalidInput e w)
      else
        let e := set_stage Complete e in
        Some ((drop_entry e (report e w)) <| active := None |>)
  | Some (Some l) =>
      let len := Z.of_nat (length l) in
      if (max_line e <? len) || (frames (cursor e) <=? frame (progress e)) then Some (worker_fails InvalidInput e w)
      else
        let e := set_stage Writing e in
        let w := report e w in
        Some (wait_at (if byte (progress e) <? len then AtWrite else AtFlush) e w)
  end.

(** The worker receives: the next entry, or the end when every sender is gone. *)
Definition receive (w : World) : option World :=
  match ended w, active w with
  | None, None =>
      match queue w with
      | e :: rest => turn e (w <| queue := rest |>)
      | [] => if negb (handle w) && (reserved w =? 0) then Some (end_worker Finished w) else Some w
      end
  | _, _ => Some w
  end.

(** The answer of [AsyncWrite::write], which takes bytes from the front of what it is offered *)
Definition written (answer : result Failure nat) (w : World) : option World :=
  match active w with
  | Some (e, AtWrite) =>
      match current (cursor e) with
      | Some (Some l) =>
          let offered := drop (Z.to_nat (byte (progress e))) l in
          let len := Z.of_nat (length l) in
          match answer with
          | Err f => Some (worker_fails f e w)
          | Ok n =>
              let w := w <| pipe ::= fun p => p ++ take n offered |> in
              if (n =? 0)%nat then Some (worker_fails WriteZero e w)
              else
                match checked_add (byte (progress e)) (Z.of_nat n) with
                | Some b =>
                    if b <=? len then
                      let e := e <| progress ::= fun p => p <| byte := b |> |> in
                      let w := report e w in
                      Some (wait_at (if b <? len then AtWrite else AtFlush) e w)
                    else Some (worker_fails InvalidInput e w)
                | None => Some (worker_fails InvalidInput e w)
                end
          end
      | _ => None
      end
  | _ => Some w
  end.

Definition flushed (answer : result Failure unit) (w : World) : option World :=
  match active w with
  | Some (e, AtFlush) =>
      match answer with
      | Err f => Some (worker_fails f e w)
      | Ok _ =>
          match advance (cursor e) with
          | None => None
          | Some c =>
              turn (e <| cursor := c |> <| progress ::= fun p => p <| frame ::= Z.add 1 |> <| byte := 0 |> |>)
                (w <| flushes ::= Z.add 1 |>)
          end
      end
  | _ => Some w
  end.

(** The worker's task is aborted at an await. *)
Definition abort (w : World) : World :=
  match ended w with
  | Some _ => w
  | None =>
      let w := match active w with Some (e, _) => drop_entry e w | None => w end in
      end_worker Aborted w
  end.

(** ** Runs *)

Inductive Input : Type :=
| Reserve (cycles : list Cycle)
| Commit (k : nat)
| DropReservation (k : nat)
| TrySend (value : Value)
| DropOutput
| Received
| Written (answer : result Failure nat)
| Flushed (answer : result Failure unit)
| Abort.

Definition step (a : Input) (w : World) : option World :=
  match a with
  | Reserve cycles => Some (if handle w then snd (reserve_publication cycles w) else w)
  | Commit k => Some (snd (commit k w))
  | DropReservation k => Some (drop_reservation k w)
  | TrySend v => Some (if handle w then snd (try_send v w) else w)
  | DropOutput => Some (w <| handle := false |>)
  | Received => receive w
  | Written answer => written answer w
  | Flushed answer => flushed answer w
  | Abort => Some (abort w)
  end.

Fixpoint run (inputs : list Input) (w : World) : option World :=
  match inputs with
  | [] => Some w
  | a :: inputs => match step a w with Some w => run inputs w | None => None end
  end.

Definition with_budgets (l : Limits) : World :=
  {| limits := l;
     pools := {| p_items := l_items l; p_bytes := l_bytes l; p_entries := l_template_entries l;
                 p_headers := l_header_bytes l |};
     handle := true; closed := false; reservations := []; queue := []; active := None; ended := None; signals := [];
     pipe := []; flushes := 0; committed := [] |}.
End Output.
