(* ===== verification/StdioPublication.v ===== *)
(** * What reaches the client, and what a ticket says of it

    Theorems on [StdioOutput]: publications reach the pipe whole, in the order they were
    committed and never twice; a ticket tells exactly how much of its publication was written;
    every permit is accounted for; and the consistency checks of the writer never fail. *)
From coqutil Require Import Datatypes.RecordSettersUsingExistingGetters.
From S2P Require Import Prelude Json Serde StdioOutput.

Ltac simpl_set := simpl; unfold RecordSettersUsingExistingGetters.const.

(** ** Cursors *)

Definition seg_ok (s : Segment) : Prop := lines s <> [] /\ 0 < reps s.

Definition cursor_ok (c : Cursor) : Prop :=
  match payload c with
  | Single _ => (segment c <= 1)%nat
  | Repeated segments =>
      Forall seg_ok segments /\
      forall s, segments !! segment c = Some s -> (line c < length (lines s))%nat /\ 0 <= repetition c < reps s
  end.

(** The frames still to be written *)
Definition rest_of (c : Cursor) : list (list Z) :=
  match payload c with
  | Single l => if (segment c =? 0)%nat then [l] else []
  | Repeated segments =>
      match drop (segment c) segments with
      | [] => []
      | s :: ss =>
          drop (line c) (lines s) ++ concat (repeat (lines s) (Z.to_nat (reps s - repetition c - 1)))
          ++ concat (map frames_of_segment ss)
      end
  end.

Definition at_start (c : Cursor) : Prop := segment c = 0%nat /\ repetition c = 0 /\ line c = 0%nat.

Lemma start_rest c : cursor_ok c -> at_start c -> rest_of c = frames_of (payload c).
Proof.
  unfold cursor_ok, rest_of, frames_of. intros H (E1 & E2 & E3). rewrite E1, E2, E3 in *.
  destruct (payload c) as [l|segments]; [done|]. destruct segments as [|s ss]; [done|]. simpl.
  destruct H as [Hs _]. apply Forall_cons in Hs as [[_ Hr] _]. unfold frames_of_segment at 2.
  replace (Z.to_nat (reps s)) with (Datatypes.S (Z.to_nat (reps s - 0 - 1))) by lia. simpl. by rewrite app_assoc.
Qed.

Lemma drop_lookup {A} n (l : list A) : drop n l !! 0%nat = l !! n.
Proof. by rewrite lookup_drop, Nat.add_0_r. Qed.

Lemma current_rest c : cursor_ok c -> current c = Some (head (rest_of c)).
Proof.
  unfold cursor_ok, current, rest_of. destruct (payload c) as [l|segments].
  - destruct (segment c) as [|[|]]; by intros.
  - intros [_ H]. destruct (segments !! segment c) as [s|] eqn:E.
    + destruct (H s eq_refl) as [Hl _]. destruct (drop_S segments s (segment c) E) as [].
      rewrite (drop_S segments s _ E). destruct (lookup_lt_is_Some_2 _ _ Hl) as [l El]. rewrite El.
      by rewrite (drop_S (lines s) l _ El).
    + apply lookup_ge_None in E. by rewrite drop_ge.
Qed.

Lemma advance_rest c l :
  cursor_ok c -> current c = Some (Some l) ->
  exists c', advance c = Some c' /\ cursor_ok c' /\ rest_of c = l :: rest_of c'
    /\ payload c' = payload c /\ frames c' = frames c.
Proof.
  intros H Hc. unfold cursor_ok, current, advance, rest_of in *. destruct (payload c) as [b|segments] eqn:Ep.
  - destruct (segment c =? 0)%nat eqn:E; [|done]. injection Hc as ->. eexists. split; [done|]. simpl.
    rewrite Ep. by repeat split.
  - destruct H as [Hs H]. destruct (segments !! segment c) as [s|] eqn:E; [|done]. destruct (H s eq_refl) as [Hl Hrep].
    destruct (lines s !! line c) as [l'|] eqn:El; [|done]. injection Hc as ->. rewrite (drop_S segments s _ E).
    rewrite (drop_S (lines s) l _ El). eexists. split; [done|].
    destruct (Nat.eqb_spec (S (line c)) (length (lines s))) as [El2|El2];
      [destruct (Z.eqb_spec (repetition c + 1) (reps s)) as [Er|Er]|]; simpl; rewrite Ep.
    + split; [split; [done|]|].
      { intros s' E'. destruct (Forall_lookup_1 _ _ _ _ Hs E') as [Hne' Hr']. split; [|lia].
        destruct (lines s'); [done|simpl; lia]. }
      split; [|done]. rewrite (drop_ge (lines s)) by lia. replace (reps s - repetition c - 1) with 0 by lia. simpl. f_equal.
      destruct (drop (S (segment c)) segments) as [|s2 ss] eqn:Ed; [done|]. simpl.
      assert (segments !! S (segment c) = Some s2) as E2 by (by rewrite <- drop_lookup, Ed).
      destruct (Forall_lookup_1 _ _ _ _ Hs E2) as [_ Hr2]. unfold frames_of_segment at 1.
      replace (Z.to_nat (reps s2)) with (S (Z.to_nat (reps s2 - 0 - 1))) by lia. simpl. by rewrite app_assoc.
    + split; [split; [done|]|].
      { intros s' E'. rewrite E in E'. injection E' as <-. lia. }
      split; [|done]. rewrite (drop_S segments s _ E), (drop_ge (lines s)) by lia. simpl. f_equal.
      replace (Z.to_nat (reps s - repetition c - 1)) with (S (Z.to_nat (reps s - (repetition c + 1) - 1))) by lia. simpl.
      by rewrite app_assoc.
    + split; [split; [done|]|].
      { intros s' E'. rewrite E in E'. injection E' as <-. lia. }
      split; [|done]. by rewrite (drop_S segments s _ E).
Qed.

(** ** Admission *)

Section Publication.
Context {Codec : SerdeJson}.

Definition line_of (v : Value) : list Z := to_vec v ++ [10].
Definition segment_of (c : Cycle) : Segment := {| lines := map line_of (values c); reps := repetitions c |}.

Definition is_line (l : list Z) : Prop := exists v, l = line_of v.

(** The frames a publication asks for *)
Definition publication (cycles : list Cycle) : list (list Z) := concat (map (fun c => frames_of_segment (segment_of c)) cycles).

Definition size (fs : list (list Z)) : Z := Z.of_nat (length (concat fs)).

(** [usize] *)
Definition cycle_wf (c : Cycle) : Prop := 0 <= repetitions c.

Lemma size_app a b : size (a ++ b) = size a + size b.
Proof. unfold size. rewrite concat_app, length_app. lia. Qed.

Lemma size_cons a b : size (a :: b) = Z.of_nat (length a) + size b.
Proof. unfold size. simpl. rewrite length_app. lia. Qed.

Lemma size_repeat ls n : size (concat (repeat ls n)) = Z.of_nat n * size ls.
Proof. induction n; [done|]. simpl. rewrite size_app, IHn. lia. Qed.

Lemma size_nonneg fs : 0 <= size fs.
Proof. unfold size. lia. Qed.

Lemma size_lookup fs : Forall (fun l => Z.of_nat (length l) <= size fs) fs.
Proof.
  induction fs as [|l fs IH]; [constructor|]. rewrite size_cons. pose proof (size_nonneg fs). constructor; [lia|].
  eapply Forall_impl; [exact IH|]. simpl. lia.
Qed.

Lemma length_repeat_concat {A} (ls : list A) n : length (concat (repeat ls n)) = (n * length ls)%nat.
Proof. induction n; [done|]. simpl. rewrite length_app, IHn. lia. Qed.

Lemma line_length v : Z.of_nat (length (line_of v)) = Z.of_nat (length (to_vec v)) + 1.
Proof. unfold line_of. rewrite length_app. simpl. lia. Qed.

Lemma encoded_length_Ok v limit n : encoded_length v limit = Ok n -> n = Z.of_nat (length (line_of v)) /\ n <= limit.
Proof.
  unfold encoded_length. destruct (_ <? _) eqn:E; [done|]. unfold checked_add.
  destruct (_ <=? U64_MAX); [|done]. destruct (Z.leb_spec (Z.of_nat (length (to_vec v)) + 1) limit); [|done].
  intros [= <-]. rewrite line_length. lia.
Qed.

Lemma encode_Ok v n l : encode v n = Ok l -> l = line_of v /\ n = Z.of_nat (length l).
Proof.
  unfold encode. destruct (_ <? _); [done|]. destruct (Z.eqb_spec (Z.of_nat (length (to_vec v)) + 1) n) as [E|]; [|done].
  simpl. intros [= <-]. split; [done|]. fold (line_of v). by rewrite line_length.
Qed.

Lemma within_Ok limit o n : within limit o = Ok n -> o = Some n /\ n <= limit.
Proof. destruct o as [m|]; [|done]. simpl. destruct (Z.leb_spec m limit); [|done]. by intros [= <-]. Qed.

Lemma checked_mul_Some a b c : checked_mul a b = Some c -> c = a * b.
Proof. unfold checked_mul. destruct (_ <=? _); [|done]. by intros [= <-]. Qed.

Lemma result_bind_Ok {E A B} (c : result E A) (k : A -> result E B) b :
  bind_result c k = Ok b -> exists a, c = Ok a /\ k a = Ok b.
Proof. destruct c as [a|e]; [eauto|done]. Qed.

(** One [?] of a computation that succeeded *)
Ltac ok_step H x E := apply result_bind_Ok in H as (x & E & H).

(** What counting leaves out of or within its limits *)
Record counted (lim : Limits) (single : bool) (k : Count) : Prop := {
  ct_encoded : k_encoded k <= l_bytes lim;
  ct_amplification : single = false -> k_amplification k <= l_amplified_bytes lim;
  ct_frames : single = false -> k_frames k <= l_frames lim
}.

Lemma count_values_Ok lim single reps vs : forall k k',
  count_values lim single reps vs k = Ok k' -> counted lim single k ->
  counted lim single k' /\ k_frames k' = k_frames k /\ k_templates k' = k_templates k /\ k_headers k' = k_headers k
  /\ k_encoded k' = k_encoded k + size (map line_of vs)
  /\ k_amplification k' = k_amplification k + size (map line_of vs) * reps
  /\ k_maximum k <= k_maximum k' /\ Forall (fun l => Z.of_nat (length l) <= k_maximum k') (map line_of vs)
  /\ (forall m, k_maximum k <= m -> Forall (fun l => Z.of_nat (length l) <= m) (map line_of vs) -> k_maximum k' <= m).
Proof.
  induction vs as [|v vs IH]; intros k k' H C; simpl in H.
  { injection H as <-. change (size (map line_of [])) with 0. do 4 (split; [done|]). split; [lia|]. split; [lia|].
    split; [lia|]. split; [constructor|auto]. }
  ok_step H len E1. ok_step H encoded E2. ok_step H more E3. ok_step H amp E4.
  apply encoded_length_Ok in E1 as [-> Hl]. apply within_Ok in E2 as [[-> _]%checked_add_Some He].
  apply ok_or_Ok, checked_mul_Some in E3 as ->. apply within_Ok in E4 as [[-> _]%checked_add_Some Ha].
  apply IH in H as (C' & F & T & Hd & En & Am & Mx & Fa & Le).
  2: { destruct C as [C1 C2 C3]. split; simpl; [done| |done]. intros ->. done. }
  simpl in *. rewrite size_cons. split; [done|]. split; [done|]. split; [done|]. split; [done|].
  split; [lia|]. split; [rewrite Am; lia|]. split; [lia|]. split; [constructor; [lia|done]|].
  intros m Hm [Hv Hvs]%Forall_cons. apply Le; [lia|done].
Qed.

Lemma segment_size c : cycle_wf c -> size (frames_of_segment (segment_of c)) = size (map line_of (values c)) * repetitions c.
Proof. intros H. unfold cycle_wf in H. unfold frames_of_segment, segment_of. simpl. rewrite size_repeat, Z2Nat.id by done. lia. Qed.

Lemma segment_frames c : cycle_wf c ->
  Z.of_nat (length (frames_of_segment (segment_of c))) = Z.of_nat (length (values c)) * repetitions c.
Proof.
  intros H. unfold cycle_wf in H. unfold frames_of_segment, segment_of. simpl.
  rewrite length_repeat_concat, length_map, Nat2Z.inj_mul, Z2Nat.id by done. lia.
Qed.

Lemma count_cycle_Ok lim single n c k k' :
  cycle_wf c -> count_cycle lim single n c k = Ok k' -> counted lim single k ->
  counted lim single k' /\ values c <> [] /\ 0 < repetitions c
  /\ k_frames k' = k_frames k + Z.of_nat (length (frames_of_segment (segment_of c)))
  /\ k_encoded k' = k_encoded k + size (map line_of (values c))
  /\ k_amplification k' = k_amplification k + size (frames_of_segment (segment_of c))
  /\ k_templates k' = k_templates k + Z.of_nat (length (values c))
  /\ k_headers k' = k_headers k + Z.of_nat (length (values c)) * VEC_SIZE
  /\ k_maximum k <= k_maximum k' /\ Forall (fun l => Z.of_nat (length l) <= k_maximum k') (map line_of (values c))
  /\ (forall m, k_maximum k <= m -> Forall (fun l => Z.of_nat (length l) <= m) (map line_of (values c)) -> k_maximum k' <= m).
Proof.
  intros Hc H C. unfold count_cycle in H. destruct (Z.eqb_spec (Z.of_nat (length (values c))) 0) as [|N1]; [done|].
  destruct (Z.eqb_spec (repetitions c) 0) as [|N2]; [done|]. simpl in H.
  ok_step H templates E1. apply ok_or_Ok, checked_add_Some in E1 as [-> _]. ok_step H u E2. ok_step H more E3.
  apply ok_or_Ok, checked_mul_Some in E3 as ->. ok_step H fr E4. apply within_Ok in E4 as [[-> _]%checked_add_Some Hf].
  ok_step H vecs E5. apply ok_or_Ok, checked_mul_Some in E5 as ->. ok_step H headers E6.
  apply ok_or_Ok, checked_add_Some in E6 as [-> _].
  apply count_values_Ok in H as (C' & F & T & Hd & En & Am & Mx & Fa & Le).
  2: { destruct C as [C1 C2 C3]. split; simpl; [done|done|]. intros ->. done. }
  simpl in *. unfold cycle_wf in Hc. rewrite segment_frames, segment_size by done.
  split; [done|]. split; [by intros E; rewrite E in N1|]. split; [lia|]. split; [lia|]. split; [done|]. split; [done|].
  split; [done|]. split; [done|]. split; [done|]. by split.
Qed.

Definition templates_of (cycles : list Cycle) : list (list Z) := concat (map (fun c => map line_of (values c)) cycles).

Lemma count_cycles_Ok lim single n cs : forall k k',
  Forall cycle_wf cs -> count_cycles lim single n cs k = Ok k' -> counted lim single k ->
  counted lim single k' /\ Forall seg_ok (map segment_of cs)
  /\ k_frames k' = k_frames k + Z.of_nat (length (publication cs))
  /\ k_encoded k' = k_encoded k + size (templates_of cs)
  /\ k_amplification k' = k_amplification k + size (publication cs)
  /\ (k_templates k' = k_templates k + Z.of_nat (length (templates_of cs))
      /\ k_headers k' = k_headers k + Z.of_nat (length (templates_of cs)) * VEC_SIZE)
  /\ k_maximum k <= k_maximum k' /\ Forall (fun l => Z.of_nat (length l) <= k_maximum k') (templates_of cs)
  /\ (forall m, k_maximum k <= m -> Forall (fun l => Z.of_nat (length l) <= m) (templates_of cs) -> k_maximum k' <= m).
Proof.
  induction cs as [|c cs IH]; intros k k' Hw H C; simpl in H.
  { injection H as <-. unfold publication, templates_of, size. simpl. split; [done|]. split; [constructor|].
    do 5 (split; [lia|]). split; [constructor|auto]. }
  apply Forall_cons in Hw as [Hc Hw]. ok_step H k1 E1.
  apply count_cycle_Ok in E1 as (C1 & V & R & F1 & En1 & Am1 & T1 & Hd1 & Mx1 & Fa1 & Le1); [|done|done].
  apply IH in H as (C2 & Sg & F2 & En2 & Am2 & Th2 & Mx2 & Fa2 & Le2); [|done|done].
  unfold publication, templates_of in *. simpl. rewrite !length_app, length_map, !size_app.
  split; [done|]. split; [constructor; [split; [by intros E%map_eq_nil|done]|done]|].
  split; [lia|]. split; [lia|]. split; [lia|]. split; [unfold VEC_SIZE in *; lia|]. split; [lia|]. split.
  - apply Forall_app. split; [|done]. eapply Forall_impl; [exact Fa1|]. intros l Hl. simpl in *. lia.
  - intros m Hm [H1 H2]%Forall_app. apply Le2; [by apply Le1|done].
Qed.

Lemma encode_lines_Ok lim vs : forall ls, encode_lines lim vs = Ok ls -> ls = map line_of vs.
Proof.
  induction vs as [|v vs IH]; intros ls H; simpl in H; [by injection H as <-|].
  ok_step H len E1. ok_step H l E2. ok_step H ls' E3. injection H as <-.
  apply encode_Ok in E2 as [-> _]. by rewrite (IH _ E3).
Qed.

Lemma encode_segments_Ok lim cs : forall ss, encode_segments lim cs = Ok ss -> ss = map segment_of cs.
Proof.
  induction cs as [|c cs IH]; intros ss H; simpl in H; [by injection H as <-|].
  ok_step H ls E1. ok_step H ss' E2. injection H as <-. apply encode_lines_Ok in E1 as ->. by rewrite (IH _ E2).
Qed.

Lemma templates_publication (P : list Z -> Prop) cs : Forall P (templates_of cs) -> Forall P (publication cs).
Proof.
  unfold templates_of, publication. induction cs as [|c cs IH]; [done|]. simpl. rewrite !Forall_app. intros [H1 H2].
  split; [|by apply IH]. unfold frames_of_segment. simpl. induction (Z.to_nat (repetitions c)); [constructor|].
  simpl. by apply Forall_app.
Qed.

Lemma templates_lines cs : Forall is_line (templates_of cs).
Proof.
  unfold templates_of. induction cs as [|c cs IH]; [constructor|]. simpl. apply Forall_app. split; [|done].
  apply Forall_forall. intros l H. apply list_elem_of_In, in_map_iff in H as (v & <- & _). by exists v.
Qed.

Lemma line_nonempty l : is_line l -> l <> [].
Proof. intros [v ->]. unfold line_of. by destruct (to_vec v). Qed.

(** One frame in all is one value once. *)
Lemma one_frame cs :
  Forall cycle_wf cs -> Forall seg_ok (map segment_of cs) -> length (publication cs) = 1%nat ->
  exists c v, cs = [c] /\ values c = [v] /\ publication cs = [line_of v].
Proof.
  intros Hw Hs H. destruct cs as [|c cs]; [done|]. apply Forall_cons in Hw as [Hc Hw]. simpl in Hs.
  apply Forall_cons in Hs as [[V R] Hs]. simpl in V, R. unfold publication in H. simpl in H. rewrite length_app in H.
  assert (length (frames_of_segment (segment_of c)) = (Z.to_nat (repetitions c) * length (values c))%nat) as E.
  { unfold frames_of_segment. simpl. by rewrite length_repeat_concat, length_map. }
  destruct (values c) as [|v vs] eqn:Ev; [done|]. simpl in E.
  assert (vs = [] /\ repetitions c = 1) as [-> Er].
  { destruct (Z.to_nat (repetitions c)) as [|[|n]] eqn:En; [lia| |lia]. split; [|lia]. destruct vs; [done|simpl in E; lia]. }
  destruct cs as [|c2 cs].
  - exists c, v. split; [done|]. split; [done|]. unfold publication. simpl. unfold frames_of_segment. simpl.
    by rewrite Ev, Er.
  - simpl in Hs. apply Forall_cons in Hs as [[V2 R2] _]. simpl in V2, R2, H. rewrite length_app in H.
    assert (length (frames_of_segment (segment_of c2)) = (Z.to_nat (repetitions c2) * length (values c2))%nat) as E2.
    { unfold frames_of_segment. simpl. by rewrite length_repeat_concat, length_map. }
    destruct (values c2); [done|]. simpl in E2. rewrite Er in E. change (Z.to_nat 1) with 1%nat in E. nia.
Qed.

Definition limits_wf (lim : Limits) : Prop :=
  0 <= l_items lim /\ 0 <= l_bytes lim <= U64_MAX /\ 0 <= l_template_entries lim /\ 0 <= l_header_bytes lim
  /\ 0 <= l_frames lim /\ 0 <= l_amplified_bytes lim.

Lemma count_Ok lim k cs :
  limits_wf lim -> Forall cycle_wf cs -> count lim cs = Ok k ->
  counted lim (is_single cs) k /\ Forall seg_ok (map segment_of cs)
  /\ k_frames k = Z.of_nat (length (publication cs)) /\ k_encoded k = size (templates_of cs)
  /\ k_amplification k = size (publication cs) /\ k_templates k = Z.of_nat (length (templates_of cs))
  /\ k_headers k = Z.of_nat (length cs) * SEGMENT_SIZE + Z.of_nat (length (templates_of cs)) * VEC_SIZE
  /\ Forall (fun l => is_line l /\ Z.of_nat (length l) <= k_maximum k /\ Z.of_nat (length l) <= U64_MAX) (publication cs).
Proof.
  intros Hl Hw H. unfold count in H. destruct (_ || _) eqn:E0; [done|]. ok_step H headers E1.
  apply ok_or_Ok, checked_mul_Some in E1 as ->. apply count_cycles_Ok in H as (C & Sg & F & En & Am & Th & _ & Mx & _);
    [|done|split; simpl; unfold limits_wf in Hl; lia].
  split; [done|]. split; [done|]. simpl in *. unfold SEGMENT_SIZE in *. repeat (split; [lia|]).
  apply Forall_and. split; [|apply Forall_and; split]; apply templates_publication; [apply templates_lines|done|].
  eapply Forall_impl; [apply size_lookup|]. destruct C as [C _ _]. unfold limits_wf in Hl. simpl. lia.
Qed.

(** What a payload costs while it is in memory: an item, the bytes of its lines, and, where it
    repeats, an entry for every line and segment and the bytes of their headers *)
Definition stored (p : Payload) : list (list Z) :=
  match p with Single l => [l] | Repeated ss => concat (map lines ss) end.

Definition cost (p : Payload) : Permits :=
  match p with
  | Single _ => {| p_items := 1; p_bytes := size (stored p); p_entries := 0; p_headers := 0 |}
  | Repeated ss =>
      {| p_items := 1; p_bytes := size (stored p);
         p_entries := Z.of_nat (length (stored p)) + Z.of_nat (length ss);
         p_headers := Z.of_nat (length ss) * SEGMENT_SIZE + Z.of_nat (length (stored p)) * VEC_SIZE |}
  end.

(** The same, from what was counted *)
Definition cost_of (k : Count) (segments : nat) : Permits :=
  if k_frames k =? 1 then {| p_items := 1; p_bytes := k_encoded k; p_entries := 0; p_headers := 0 |}
  else {| p_items := 1; p_bytes := k_encoded k; p_entries := k_templates k + Z.of_nat segments;
          p_headers := k_headers k |}.

Lemma payload_Ok lim k cs data :
  limits_wf lim -> Forall cycle_wf cs -> count lim cs = Ok k -> payload_of lim k cs = Ok data ->
  frames_of data = publication cs /\ cost data = cost_of k (length cs)
  /\ cursor_ok {| payload := data; segment := 0; repetition := 0; line := 0; frames := k_frames k |}.
Proof.
  intros Hl Hw H Hp. apply count_Ok in H as (_ & Sg & F & En & _ & T & Hd & _); [|done|done]. unfold payload_of in Hp.
  unfold cost, cost_of. rewrite T, Hd, En. destruct (Z.eqb_spec (k_frames k) 1) as [E|E].
  - destruct (one_frame cs Hw Sg) as (c & v & -> & Ev & Ep); [lia|]. rewrite Ev in Hp. ok_step Hp l El.
    injection Hp as <-. apply encode_Ok in El as [-> _]. split; [by rewrite Ep|].
    split; [unfold templates_of; simpl; by rewrite Ev|]. unfold cursor_ok. simpl. lia.
  - ok_step Hp ss Es. injection Hp as <-. apply encode_segments_Ok in Es as ->. split; [|split].
    + simpl. unfold publication. by rewrite map_map.
    + simpl. rewrite map_map. change (concat (map (fun c => map line_of (values c)) cs)) with (templates_of cs).
      by rewrite length_map.
    + unfold cursor_ok. simpl. split; [done|]. intros s Hs. pose proof (Forall_lookup_1 _ _ _ _ Sg Hs) as [V R].
      split; [destruct (lines s); [done|simpl; lia]|lia].
Qed.

Lemma acquire_Ok available n m : acquire available n = Ok m -> n <= available.
Proof.
  unfold acquire. destruct (U32_MAX <? n); [done|]. destruct (Z.ltb_spec available n); [done|]. lia.
Qed.

Definition nonneg (p : Permits) : Prop := 0 <= p_items p /\ 0 <= p_bytes p /\ 0 <= p_entries p /\ 0 <= p_headers p.

Definition covers (av c : Permits) : Prop :=
  p_items c <= p_items av /\ p_bytes c <= p_bytes av /\ p_entries c <= p_entries av /\ p_headers c <= p_headers av.

Lemma charge_Ok lim av k n c :
  nonneg av -> 1 <= p_items av -> charge_of lim av k (Z.of_nat n) = Ok c -> covers av c /\ c = cost_of k n.
Proof.
  intros (_ & Hb & He & Hh) Hi H. unfold charge_of in H. ok_step H entries E1. ok_step H u E2.
  apply acquire_Ok in E2. injection H as <-. unfold covers, cost_of. simpl.
  destruct (k_frames k =? 1); [injection E1 as <-; simpl; by split; [lia|]|]. destruct (_ <? _); [done|].
  ok_step E1 u2 E3. ok_step E1 u3 E4. apply acquire_Ok in E3. apply acquire_Ok in E4. injection E1 as <-. simpl.
  by split; [lia|].
Qed.

Lemma cost_nonneg p : nonneg (cost p).
Proof.
  pose proof (size_nonneg (stored p)) as H. unfold nonneg, cost, SEGMENT_SIZE, VEC_SIZE.
  destruct p; cbn [p_items p_bytes p_entries p_headers]; lia.
Qed.

Lemma cost_item p : p_items (cost p) = 1.
Proof. by destruct p. Qed.

(** ** The invariant *)

Definition ticket_of (e : Entry) : nat * list (list Z) := (signal e, frames_of (payload (cursor e))).

(** Of an entry, whatever its signal says; what it holds is what its payload costs. *)
Record fits (e : Entry) : Prop := {
  ft_cursor : cursor_ok (cursor e);
  ft_rest : rest_of (cursor e) = drop (Z.to_nat (frame (progress e))) (frames_of (payload (cursor e)));
  ft_frames : frames (cursor e) = Z.of_nat (length (frames_of (payload (cursor e))));
  ft_lines : Forall (fun l => is_line l /\ Z.of_nat (length l) <= max_line e /\ Z.of_nat (length l) <= U64_MAX)
               (frames_of (payload (cursor e)));
  ft_frame : 0 <= frame (progress e) <= frames (cursor e);
  ft_held : held e = cost (payload (cursor e))
}.

Record entry_ok (sg : list Progress) (e : Entry) : Prop := {
  eo_fits : fits e;
  eo_signal : sg !! signal e = Some (progress e);
  eo_open : settled (stage (progress e)) = false
}.

Definition is_new (e : Entry) : Prop :=
  progress e = {| stage := Queued; frame := 0; byte := 0 |}.

Fixpoint held_by (es : list Entry) : Permits :=
  match es with [] => no_permits | e :: es => add_permits (held e) (held_by es) end.

Definition budget (l : Limits) : Permits :=
  {| p_items := l_items l; p_bytes := l_bytes l; p_entries := l_template_entries l; p_headers := l_header_bytes l |}.

(** The entries [L] are all that is alive. *)
Record core (L : list Entry) (w : World) : Prop := {
  co_budget : add_permits (pools w) (held_by L) = budget (limits w);
  co_pools : nonneg (pools w);
  co_entries : Forall (entry_ok (signals w)) L;
  co_nodup : NoDup (map signal L);
  co_settled i p : signals w !! i = Some p -> settled (stage p) = true \/ i ∈ map signal L
}.

(** Signals only settle, and where they do, they keep their place. *)
Definition same_places (sg sg' : list Progress) : Prop :=
  length sg' = length sg /\
  forall i p, sg !! i = Some p ->
    exists p', sg' !! i = Some p' /\ frame p' = frame p /\ byte p' = byte p
      /\ (p' = p \/ settled (stage p) = false /\ exists f, stage p' = Failed f).

Definition complete (sg : list Progress) (c : nat * list (list Z)) : Prop :=
  exists p, sg !! fst c = Some p /\ stage p = Complete.
Definition incomplete (sg : list Progress) (c : nat * list (list Z)) : Prop :=
  exists p, sg !! fst c = Some p /\ stage p <> Complete.
Definition failed (sg : list Progress) (c : nat * list (list Z)) : Prop :=
  exists p f, sg !! fst c = Some p /\ stage p = Failed f.

(** What of a publication its progress says is written *)
Definition written_of (p : Progress) (fs : list (list Z)) : list Z :=
  concat (take (Z.to_nat (frame p)) fs) ++ take (Z.to_nat (byte p)) (default [] (fs !! Z.to_nat (frame p))).

Definition partial (sg : list Progress) (rest : list (nat * list (list Z))) : list Z :=
  match rest with
  | [] => []
  | (i, fs) :: _ => match sg !! i with Some p => written_of p fs | None => [] end
  end.

(** Complete publications, then what is under way or lost *)
Record logged (done rest : list (nat * list (list Z))) (w : World) : Prop := {
  lg_committed : committed w = done ++ rest;
  lg_nodup : NoDup (map fst (committed w));
  lg_lines : Forall (fun c => Forall is_line (snd c)) (committed w);
  lg_done : Forall (complete (signals w)) done;
  lg_rest : Forall (incomplete (signals w)) rest;
  lg_later : Forall (fun c => exists p, signals w !! fst c = Some p /\ frame p = 0 /\ byte p = 0) (tail rest);
  lg_pipe : pipe w = concat (concat (map snd done)) ++ partial (signals w) rest
}.

Definition held_entries (w : World) : list Entry := omap (fun r => r) (reservations w).
Definition active_entries (w : World) : list Entry := match active w with Some (e, _) => [e] | None => [] end.

(** Where the worker waits *)
Definition waits (e : Entry) (a : Await) : Prop :=
  exists l, current (cursor e) = Some (Some l) /\ 0 <= byte (progress e) /\
  match a with
  | AtWrite => stage (progress e) = Writing /\ byte (progress e) < Z.of_nat (length l)
  | AtFlush => stage (progress e) = Flushing /\ byte (progress e) = Z.of_nat (length l)
  end.

(** Work goes on, with [E] out of the queue. *)
Record front (E : list Entry) (w : World) : Prop := {
  fr_limits : limits_wf (limits w);
  fr_core : core (E ++ queue w ++ held_entries w) w;
  fr_new : Forall is_new (queue w ++ held_entries w);
  fr_held e : e ∈ held_entries w -> signal e ∉ map fst (committed w);
  fr_log : exists done, logged done (map ticket_of (E ++ queue w)) w
}.

(** The worker ended. *)
Record over (w : World) : Prop := {
  ov_limits : limits_wf (limits w);
  ov_core : core (held_entries w) w;
  ov_new : Forall is_new (held_entries w);
  ov_held e : e ∈ held_entries w -> signal e ∉ map fst (committed w);
  ov_log : exists done rest, logged done rest w /\ Forall (failed (signals w)) rest;
  ov_queue : queue w = [];
  ov_active : active w = None
}.

Definition inv (w : World) : Prop :=
  (closed w = false /\ ended w = None /\ front (active_entries w) w /\ (forall e a, active w = Some (e, a) -> waits e a))
  \/ (closed w = true /\ ended w <> None /\ over w).

(** *** Small steps of the invariant *)

Lemma permits_eq a b :
  a = b <-> p_items a = p_items b /\ p_bytes a = p_bytes b /\ p_entries a = p_entries b /\ p_headers a = p_headers b.
Proof. destruct a, b. simpl. split; [intros [=]; auto|intros (? & ? & ? & ?); congruence]. Qed.

Lemma held_perm L L' : Permutation L L' -> held_by L = held_by L'.
Proof.
  induction 1 as [|e L L' _ IH|e1 e2 L|]; [done|simpl; by rewrite IH| |congruence].
  simpl. apply permits_eq. simpl. lia.
Qed.

Lemma core_perm L L' w : Permutation L L' -> core L w -> core L' w.
Proof.
  intros P [B N E D St]. split; [by rewrite <- (held_perm _ _ P)|done|by rewrite <- P|by rewrite <- P|].
  intros i p H. destruct (St i p H) as [|Hi]; [by left|right]. by rewrite <- P.
Qed.

Lemma held_nonneg sg L : Forall (entry_ok sg) L -> nonneg (held_by L).
Proof.
  induction 1 as [|e L He _ IH]; [done|]. pose proof (cost_nonneg (payload (cursor e))) as H.
  rewrite <- (ft_held _ (eo_fits _ _ He)) in H. unfold nonneg in *. simpl. lia.
Qed.

Lemma entry_ok_other sg i p e : i <> signal e -> entry_ok sg e -> entry_ok (<[i := p]> sg) e.
Proof. intros H []. split; try done. by rewrite list_lookup_insert_ne. Qed.

(** What [L] says of its signals does not depend on the signal of another entry. *)
Lemma entries_other sg i p L : i ∉ map signal L -> Forall (entry_ok sg) L -> Forall (entry_ok (<[i := p]> sg)) L.
Proof.
  intros Hn H. apply Forall_forall. intros x Hx. rewrite Forall_forall in H. apply entry_ok_other; [|by apply H].
  intros ->. apply Hn. by apply list_elem_of_fmap_2.
Qed.

(** An entry moves on, and reports it. *)
Lemma core_report e e' L w :
  core (e :: L) w -> signal e' = signal e -> held e' = held e -> fits e' -> settled (stage (progress e')) = false ->
  core (e' :: L) (report e' w).
Proof.
  intros [B N E D St] Es Eh Hf Ho. apply Forall_cons in E as [He E]. simpl in D. apply NoDup_cons in D as [Dn D].
  pose proof (lookup_lt_Some _ _ _ (eo_signal _ _ He)) as Hlt. unfold report. split; simpl_set; rewrite ?Es, ?Eh.
  - done.
  - done.
  - constructor; [|by apply entries_other]. split; [done| |done]. rewrite Es. by apply list_lookup_insert_eq.
  - by constructor.
  - intros i p H. destruct (decide (i = signal e)) as [->|Hne]; [right; left|].
    rewrite list_lookup_insert_ne in H by done. destruct (St i p H) as [|Hi]; [by left|right].
    apply elem_of_cons in Hi as [?|?]; [done|by right].
Qed.

(** An entry settles, and what it held comes back. *)
Lemma settle_core e e' L w :
  core (e :: L) w -> signal e' = signal e -> held e' = held e -> settled (stage (progress e')) = true ->
  core L ((report e' w) <| pools ::= add_permits (held e') |>).
Proof.
  intros [B N E D St] Es Eh Ho. apply Forall_cons in E as [He E]. simpl in D. apply NoDup_cons in D as [Dn D].
  pose proof (lookup_lt_Some _ _ _ (eo_signal _ _ He)) as Hlt. assert (nonneg (held e)) as Hh by (rewrite (ft_held _ (eo_fits _ _ He)); apply cost_nonneg).
  unfold report. split; simpl_set; rewrite ?Es, ?Eh.
  - rewrite <- B. apply permits_eq. simpl. lia.
  - unfold nonneg in *. simpl. lia.
  - by apply entries_other.
  - done.
  - intros i p H. destruct (decide (i = signal e)) as [->|Hne].
    + rewrite list_lookup_insert_eq in H by done. injection H as <-. by left.
    + rewrite list_lookup_insert_ne in H by done. destruct (St i p H) as [|Hi]; [by left|right].
      by apply elem_of_cons in Hi as [?|?].
Qed.

(** Only pools and signals differ, and the tickets of [es] failed where they were. *)
Record settles (es : list Entry) (w w' : World) : Prop := {
  st_same : exists p s, w' = w <| pools := p |> <| signals := s |>;
  st_places : same_places (signals w) (signals w');
  st_failed : Forall (failed (signals w')) (map ticket_of es);
  st_other i : i ∉ map signal es -> signals w' !! i = signals w !! i
}.

Lemma same_places_refl sg : same_places sg sg.
Proof. split; [done|]. intros i p H. exists p. by repeat split; auto. Qed.

Lemma same_places_trans a b c : same_places a b -> same_places b c -> same_places a c.
Proof.
  intros [L1 H1] [L2 H2]. split; [congruence|]. intros i p H. destruct (H1 i p H) as (p1 & E1 & F1 & B1 & S1).
  destruct (H2 i p1 E1) as (p2 & E2 & F2 & B2 & S2). exists p2. split; [done|]. split; [congruence|]. split; [congruence|].
  destruct S1 as [->|(S1 & f & S1f)]; [done|]. right. split; [done|]. destruct S2 as [->|(S2 & _)]; [by exists f|].
  by rewrite S1f in S2.
Qed.

Lemma failed_places a b c : same_places a b -> failed a c -> failed b c.
Proof.
  intros [_ H] (p & f & E & S). destruct (H _ _ E) as (p' & E' & _ & _ & [->|(S' & _)]); [by exists p, f|]. by rewrite S in S'.
Qed.

Lemma fails_places e f sg :
  sg !! signal e = Some (progress e) -> settled (stage (progress e)) = false ->
  same_places sg (<[signal e := (progress e) <| stage := Failed f |>]> sg).
Proof.
  intros H Ho. split; [apply length_insert|]. intros i p Hp. destruct (decide (i = signal e)) as [->|Hne].
  - rewrite H in Hp. injection Hp as <-. eexists. split; [apply list_lookup_insert_eq; by eapply lookup_lt_Some|].
    simpl_set. split; [done|]. split; [done|]. right. eauto.
  - exists p. rewrite list_lookup_insert_ne by done. auto.
Qed.

Lemma drop_settles e L w : core (e :: L) w -> core L (drop_entry e w) /\ settles [e] w (drop_entry e w).
Proof.
  intros H. pose proof (co_entries _ _ H) as [He _]%Forall_cons. pose proof (eo_open _ _ He) as Ho.
  unfold drop_entry. rewrite Ho. split; [apply (settle_core e (set_stage (Failed BrokenPipe) e) _ _ H); done|].
  pose proof (fails_places e BrokenPipe _ (eo_signal _ _ He) Ho) as Hp. split; simpl_set.
  - unfold report. simpl_set. eauto.
  - done.
  - constructor; [|constructor]. unfold failed. simpl. unfold report. simpl_set.
    rewrite list_lookup_insert_eq by (eapply lookup_lt_Some, (eo_signal _ _ He)). eexists _, _. by split.
  - intros i Hi. rewrite list_lookup_insert_ne; [done|]. intros <-. apply Hi. by left.
Qed.

Lemma settles_trans a b w1 w2 w3 : settles a w1 w2 -> settles b w2 w3 -> settles (a ++ b) w1 w3.
Proof.
  intros [(p1 & s1 & ->) P1 F1 O1] [(p2 & s2 & ->) P2 F2 O2]. simpl_set. split; simpl_set.
  - eauto.
  - by eapply same_places_trans.
  - rewrite map_app. apply Forall_app. split; [|done]. eapply Forall_impl; [exact F1|]. intros c. by apply failed_places.
  - intros i Hi. rewrite map_app, elem_of_app in Hi. simpl in O1, O2. rewrite O2, O1; tauto.
Qed.

Lemma drop_all_settles es : forall L w, core (es ++ L) w -> core L (drop_all es w) /\ settles es w (drop_all es w).
Proof.
  induction es as [|e es IH]; intros L w H; simpl.
  - split; [done|]. split; [exists (pools w), (signals w); by destruct w|apply same_places_refl|constructor|done].
  - apply drop_settles in H as [H S1]. apply IH in H as [H S2]. split; [done|]. by apply (settles_trans [e] es _ _ _ S1).
Qed.

(** *** The log *)

Lemma complete_lookup sg sg' c : sg' !! fst c = sg !! fst c -> complete sg c -> complete sg' c.
Proof. unfold complete. by intros ->. Qed.

Lemma logged_frame done rest w w' :
  logged done rest w -> committed w' = committed w -> pipe w' = pipe w ->
  (forall i, i ∈ map fst (committed w) -> signals w' !! i = signals w !! i) -> logged done rest w'.
Proof.
  intros [C N Ln D R T P] Ec Ep Hs. rewrite C, map_app in Hs.
  assert (forall c, c ∈ done ++ rest -> signals w' !! fst c = signals w !! fst c) as Hc.
  { intros c Hc. apply Hs. rewrite <- map_app. by apply list_elem_of_fmap_2. }
  split; rewrite ?Ec, ?Ep; try done.
  - apply Forall_forall. intros c H. rewrite Forall_forall in D. unfold complete.
    rewrite Hc by (apply elem_of_app; by left). by apply D.
  - apply Forall_forall. intros c H. rewrite Forall_forall in R. unfold incomplete.
    rewrite Hc by (apply elem_of_app; by right). by apply R.
  - apply Forall_forall. intros c H. rewrite Forall_forall in T.
    rewrite Hc by (apply elem_of_app; right; destruct rest; [done|by right]). by apply T.
  - rewrite P. f_equal. destruct rest as [|[i fs] rest]; [done|]. pose proof (Hc (i, fs)) as E. simpl in E |- *. rewrite E; [done|].
    apply elem_of_app. right. by left.
Qed.

Lemma logged_places done rest w w' :
  logged done rest w -> committed w' = committed w -> pipe w' = pipe w ->
  same_places (signals w) (signals w') -> logged done rest w'.
Proof.
  intros [C N Ln D R T P] Ec Ep [_ Hs]. split; rewrite ?Ec, ?Ep; try done.
  - eapply Forall_impl; [exact D|]. intros c (p & E & S). destruct (Hs _ _ E) as (p' & E' & _ & _ & [->|[S' _]]).
    + by exists p.
    + by rewrite S in S'.
  - eapply Forall_impl; [exact R|]. intros c (p & E & S). destruct (Hs _ _ E) as (p' & E' & _ & _ & [->|(_ & f & S')]);
      (eexists; split; [exact E'|congruence]).
  - eapply Forall_impl; [exact T|]. intros c (p & E & F & B). destruct (Hs _ _ E) as (p' & E' & F' & B' & _).
    exists p'. split; [done|]. split; congruence.
  - rewrite P. f_equal. destruct rest as [|[i fs] rest]; [done|]. simpl. apply Forall_cons in R as [(p & E & _) _].
    destruct (Hs _ _ E) as (p' & E' & F' & B' & _). simpl in E, E'. rewrite E, E'. unfold written_of. by rewrite F', B'.
Qed.

Lemma tail_app {A} (l : list A) x : l <> [] -> tail (l ++ [x]) = tail l ++ [x].
Proof. by destruct l. Qed.

Lemma logged_commit done rest w w' e :
  logged done rest w -> is_new e -> Forall is_line (frames_of (payload (cursor e))) ->
  signal e ∉ map fst (committed w) -> signals w !! signal e = Some (progress e) ->
  committed w' = committed w ++ [ticket_of e] -> pipe w' = pipe w -> signals w' = signals w ->
  logged done (rest ++ [ticket_of e]) w'.
Proof.
  intros [C N Ln D R T P] Hn Hln Hi Hs Ec Ep Es. unfold is_new in Hn. rewrite Hn in Hs. split; rewrite ?Ec, ?Ep, ?Es.
  - by rewrite C, app_assoc.
  - rewrite map_app. apply NoDup_app. split; [done|]. split; [|apply NoDup_singleton].
    intros x Hx Hx2. apply list_elem_of_singleton in Hx2 as ->. done.
  - apply Forall_app. split; [done|]. by constructor.
  - done.
  - apply Forall_app. split; [done|]. constructor; [|constructor]. eexists. split; [exact Hs|done].
  - destruct rest as [|c rest]; [constructor|]. simpl. apply Forall_app. split; [done|]. constructor; [|constructor].
    eexists. by split; [exact Hs|].
  - rewrite P. f_equal. destruct rest as [|c rest]; [|done]. simpl. rewrite Hs. unfold written_of. simpl.
    by rewrite !take_0.
Qed.

(** The publication at work moves on by [extra] bytes. *)
Lemma logged_progress done rest w w' i fs p p' extra :
  logged done ((i, fs) :: rest) w -> signals w !! i = Some p -> signals w' = <[i := p']> (signals w) ->
  committed w' = committed w -> pipe w' = pipe w ++ extra -> written_of p' fs = written_of p fs ++ extra ->
  (stage p' <> Complete -> logged done ((i, fs) :: rest) w')
  /\ (stage p' = Complete -> written_of p' fs = concat fs -> logged (done ++ [(i, fs)]) rest w').
Proof.
  intros [C N Ln D R T P] Hp Es Ec Ep Hw. pose proof (lookup_lt_Some _ _ _ Hp) as Hlt.
  rewrite C, map_app in N. apply NoDup_app in N as (N1 & N2 & N3). simpl in N3. apply NoDup_cons in N3 as [N4 N5].
  apply Forall_cons in R as [_ R].
  assert (signals w' !! i = Some p') as Hi by (rewrite Es; by apply list_lookup_insert_eq).
  assert (forall c, c ∈ done ++ rest -> signals w' !! fst c = signals w !! fst c) as Ho.
  { intros c H. rewrite Es. apply list_lookup_insert_ne. intros ->. apply elem_of_app in H as [H|H].
    - apply (N2 (fst c)); [by apply list_elem_of_fmap_2|by left].
    - apply N4. by apply list_elem_of_fmap_2. }
  assert (Forall (complete (signals w')) done) as D'.
  { apply Forall_forall. intros c H. rewrite Forall_forall in D. unfold complete. rewrite Ho; [by apply D|].
    apply elem_of_app. by left. }
  assert (Forall (incomplete (signals w')) rest) as R'.
  { apply Forall_forall. intros c H. rewrite Forall_forall in R. unfold incomplete. rewrite Ho; [by apply R|].
    apply elem_of_app. by right. }
  assert (Forall (fun c => exists p, signals w' !! fst c = Some p /\ frame p = 0 /\ byte p = 0) rest) as T'.
  { apply Forall_forall. intros c H. simpl in T. rewrite Forall_forall in T. rewrite Ho; [by apply T|].
    apply elem_of_app. by right. }
  assert (NoDup (map fst (committed w'))) as N'.
  { rewrite Ec, C, map_app. apply NoDup_app. split; [done|]. split; [done|]. simpl. by apply NoDup_cons. }
  assert (pipe w' = concat (concat (map snd done)) ++ written_of p' fs) as P'.
  { rewrite Ep, P. simpl. by rewrite Hp, Hw, app_assoc. }
  split; intros Hs.
  - split; try done; [by rewrite Ec|by rewrite Ec| |].
    + constructor; [by exists p'|done].
    + simpl. by rewrite Hi.
  - intros Hf. split; try done.
    + rewrite Ec, C. by rewrite <- app_assoc.
    + by rewrite Ec.
    + apply Forall_app. split; [done|]. constructor; [by exists p'|constructor].
    + destruct rest; [constructor|]. simpl. by apply Forall_cons in T' as [_ T'].
    + rewrite P', map_app, concat_app. simpl. rewrite app_nil_r, concat_app, Hf. destruct rest as [|[j gs] rest]; simpl.
      * by rewrite app_nil_r.
      * apply Forall_cons in T' as [(q & Hq & F & B) _]. simpl in Hq. rewrite Hq. unfold written_of. rewrite F, B. simpl.
        rewrite !take_0. simpl. by rewrite app_nil_r.
Qed.

(** *** Reservations *)

Definition subtract (p c : Permits) : Permits :=
  {| p_items := p_items p - p_items c; p_bytes := p_bytes p - p_bytes c;
     p_entries := p_entries p - p_entries c; p_headers := p_headers p - p_headers c |}.

Lemma reserve_Ok cycles w k w' :
  limits_wf (limits w) -> nonneg (pools w) -> Forall cycle_wf cycles -> reserve_publication cycles w = (Ok k, w') ->
  exists e c, k = length (reservations w)
  /\ w' = w <| pools := subtract (pools w) (held e) |> <| signals := signals w ++ [progress e] |>
           <| reservations := reservations w ++ [Some e] |>
  /\ signal e = length (signals w) /\ is_new e /\ fits e /\ covers (pools w) (held e)
  /\ frames_of (payload (cursor e)) = publication cycles
  /\ count (limits w) cycles = Ok c /\ p_items (held e) = 1 /\ p_bytes (held e) = size (templates_of cycles)
  /\ can_reserve w = true.
Proof.
  intros Hl Hp Hw H. unfold reserve_publication in H. destruct (bind_result _ _) as [e|] eqn:Ea; [|by injection H].
  injection H as <- <-. ok_step Ea u1 E1. apply acquire_Ok in E1. ok_step Ea u2 E2. destruct (can_reserve w); [|done].
  ok_step Ea c Ec. ok_step Ea charge Eh. ok_step Ea data Ed. injection Ea as <-.
  pose proof (count_Ok _ _ _ Hl Hw Ec) as (_ & _ & F & En & _ & T & Hd & Ln).
  apply charge_Ok in Eh as (H2 & Hc); [|done|done].
  apply (payload_Ok _ _ _ _ Hl Hw Ec) in Ed as (Ef & Ek & Eok). rewrite <- Ek in Hc.
  eexists _, c. split; [done|]. split; [reflexivity|]. split; [done|]. split; [done|]. split.
  - split; cbn -[frames_of]; rewrite ?Ef; try done; [|lia]. rewrite start_rest; [by rewrite <- Ef|done|by repeat split].
  - split; [done|]. split; [done|]. split; [done|]. split; [simpl; by rewrite Hc, cost_item|].
    split; [|done]. simpl. rewrite Hc, Ek, <- En. unfold cost_of. by destruct (_ =? _).
Qed.

Lemma reserve_Err cycles w f w' : reserve_publication cycles w = (Err f, w') -> w' = w.
Proof. unfold reserve_publication. destruct (bind_result _ _); [done|]. by intros [= _ <-]. Qed.

Lemma core_new e L w :
  core L w -> fits e -> settled (stage (progress e)) = false -> signal e = length (signals w) ->
  covers (pools w) (held e) ->
  core (L ++ [e]) (w <| pools := subtract (pools w) (held e) |> <| signals := signals w ++ [progress e] |>
                     <| reservations := reservations w ++ [Some e] |>).
Proof.
  intros [B N E D St] Hf Ho Hs Hc. split; simpl_set.
  - rewrite (held_perm _ (e :: L)) by (symmetry; apply Permutation_cons_append). rewrite <- B. apply permits_eq. simpl. lia.
  - unfold covers, nonneg in *. simpl. lia.
  - apply Forall_app. split.
    + eapply Forall_impl; [exact E|]. intros x [F S O]. split; [done| |done]. by apply lookup_app_l_Some.
    + constructor; [|constructor]. split; [done| |done]. by rewrite Hs, lookup_app_r, Nat.sub_diag by lia.
  - rewrite map_app. apply NoDup_app. split; [done|]. split; [|apply NoDup_singleton].
    intros i Hi Hi2. apply list_elem_of_singleton in Hi2 as ->. apply list_elem_of_fmap in Hi as (x & Ex & Hx).
    rewrite Forall_forall in E. pose proof (lookup_lt_Some _ _ _ (eo_signal _ _ (E x Hx))). lia.
  - intros i p H. rewrite map_app. apply lookup_app_Some in H as [H|[Hle H]].
    + destruct (St i p H) as [|Hi]; [by left|right]. apply elem_of_app. by left.
    + right. apply elem_of_app. right. apply list_lookup_singleton_Some in H as [Hi _]. simpl. rewrite Hs.
      replace i with (length (signals w)) by lia. by left.
Qed.

Lemma held_app r e w : held_entries (w <| reservations := r ++ [Some e] |>) = held_entries (w <| reservations := r |>) ++ [e].
Proof.
  unfold held_entries. simpl_set. induction r as [|[x|] r IH]; simpl; [done| |exact IH]. f_equal. exact IH.
Qed.

Lemma held_take k e w :
  reservations w !! k = Some (Some e) ->
  Permutation (held_entries w) (e :: held_entries (w <| reservations ::= <[k := None]> |>)).
Proof.
  unfold held_entries. simpl_set. generalize (reservations w). intros r. revert k.
  induction r as [|x r IH]; intros [|k] H; [done|done| |].
  - simpl in *. injection H as ->. done.
  - simpl in *. destruct x as [x|]; [|by apply IH]. rewrite (IH k H). apply perm_swap.
Qed.

Lemma reserve_keeps cycles w :
  Forall cycle_wf cycles -> inv w -> inv (snd (reserve_publication cycles w)).
Proof.
  intros Hw H. destruct (reserve_publication cycles w) as [[k|f] w'] eqn:E; [|by apply reserve_Err in E as ->]. simpl.
  assert (limits_wf (limits w)) as Hl by (destruct H as [(_ & _ & [] & _)|(_ & _ & [])]; done).
  assert (nonneg (pools w)) as Hp by (destruct H as [(_ & _ & [_ [] _ _ _] & _)|(_ & _ & [_ [] _ _ _ _ _])]; done).
  apply reserve_Ok in E as (e & c & _ & -> & Es & Hn & Hf & Hc & _); [|done|done|done].
  assert (settled (stage (progress e)) = false) as Ho by by rewrite Hn.
  assert (forall L, core L w -> signal e ∉ map signal L) as Hfresh.
  { intros L [_ _ E _ _] Hi. apply list_elem_of_fmap in Hi as (x & Ex & Hx). rewrite Forall_forall in E.
    pose proof (lookup_lt_Some _ _ _ (eo_signal _ _ (E x Hx))). lia. }
  assert (forall d r, logged d r w -> signal e ∉ map fst (committed w)) as Hlog.
  { intros d r [C _ _ D R _ _] Hi. rewrite C in Hi. apply list_elem_of_fmap in Hi as (x & Ex & Hx). apply elem_of_app in Hx as [Hx|Hx].
    - rewrite Forall_forall in D. destruct (D x Hx) as (p & Hp' & _). apply lookup_lt_Some in Hp'. lia.
    - rewrite Forall_forall in R. destruct (R x Hx) as (p & Hp' & _). apply lookup_lt_Some in Hp'. lia. }
  set (w' := w <| pools := _ |> <| signals := _ |> <| reservations := _ |>).
  assert (held_entries w' = held_entries w ++ [e]) as Eh by apply held_app.
  assert (forall d r, logged d r w -> logged d r w') as Hl'.
  { intros d r Hd. apply (logged_frame _ _ _ _ Hd); [done|done|]. intros i Hi. unfold w'. simpl_set.
    apply list_elem_of_fmap in Hi as (x & -> & Hx). destruct Hd as [C _ _ D R _ _]. rewrite C in Hx.
    apply lookup_app_l. apply elem_of_app in Hx as [Hx|Hx].
    - rewrite Forall_forall in D. destruct (D x Hx) as (p & Hp' & _). by apply lookup_lt_Some in Hp'.
    - rewrite Forall_forall in R. destruct (R x Hx) as (p & Hp' & _). by apply lookup_lt_Some in Hp'. }
  destruct H as [(Hc1 & He & [F1 F2 F3 F4 [d F5]] & Hwait)|(Hc1 & He & [O1 O2 O3 O4 (d & r & O5 & O6) O7 O8])].
  - left. split; [done|]. split; [done|]. split; [|done]. split.
    + done.
    + rewrite Eh. rewrite !app_assoc. apply core_new; [by rewrite <- app_assoc|done..].
    + rewrite Eh, app_assoc. apply Forall_app. by repeat constructor.
    + intros x. rewrite Eh, elem_of_app, list_elem_of_singleton. intros [Hx| ->]; [by apply F4|by eapply Hlog].
    + exists d. by apply Hl'.
  - right. split; [done|]. split; [done|]. split; try done.
    + rewrite Eh. by apply core_new.
    + rewrite Eh. apply Forall_app. by repeat constructor.
    + intros x. rewrite Eh, elem_of_app, list_elem_of_singleton. intros [Hx| ->]; [by apply O4|by eapply Hlog].
    + exists d, r. split; [by apply Hl'|]. eapply Forall_impl; [exact O6|]. intros c' (p & f & E & S). exists p, f.
      split; [|done]. unfold w'. simpl_set. by apply lookup_app_l_Some.
Qed.

Lemma core_frame L w w' :
  core L w -> limits w' = limits w -> pools w' = pools w -> signals w' = signals w -> core L w'.
Proof. intros [B N E D St] El Ep Es. split; rewrite ?El, ?Ep, ?Es; done. Qed.

Lemma take_reservation_Some k w e w1 :
  take_reservation k w = (Some e, w1) ->
  w1 = w <| reservations ::= <[k := None]> |> /\ Permutation (held_entries w) (e :: held_entries w1).
Proof.
  unfold take_reservation. destruct (reservations w !! k) as [[x|]|] eqn:E; [|done|done]. intros [= -> <-].
  split; [done|]. by apply held_take.
Qed.

Lemma take_reservation_None k w w1 : take_reservation k w = (None, w1) -> w1 = w.
Proof. unfold take_reservation. destruct (reservations w !! k) as [[x|]|]; congruence. Qed.

(** A publication that was never committed is dropped. *)
Lemma dropped_inv e w w1 r1 :
  inv w -> w1 = w <| reservations := r1 |> -> Permutation (held_entries w) (e :: held_entries w1) ->
  inv (drop_entry e w1).
Proof.
  intros H Ew Hp.
  assert (forall x, x ∈ held_entries w1 -> x ∈ held_entries w) as Hsub by (intros x Hx; rewrite Hp; by right).
  destruct H as [(Hc & He & [F1 F2 F3 F4 [d F5]] & Hwait)|(Hc & He & [O1 O2 O3 O4 (d & r & O5 & O6) O7 O8])].
  - assert (core (e :: active_entries w1 ++ queue w1 ++ held_entries w1) w1) as Hcore.
    { apply (core_perm (active_entries w ++ queue w ++ held_entries w)); [|by apply (core_frame _ _ _ F2); rewrite Ew].
      rewrite Hp, Ew. change (active_entries _) with (active_entries w) at 2. simpl_set. rewrite !app_assoc. symmetry.
      apply Permutation_middle. }
    apply drop_settles in Hcore as [Hcore [(p & s & Es) _ _ So]]. rewrite Es in *. rewrite Ew in *. simpl in *.
    left. split; [done|]. split; [done|]. split; [|done]. split; [done|done| | |].
    + simpl. rewrite Hp in F3. apply Forall_app in F3 as [Fq [_ Fh]%Forall_cons]. by apply Forall_app.
    + intros x Hx. by apply F4, Hsub.
    + exists d. apply (logged_frame _ _ _ _ F5); [done|done|]. intros i Hi. apply So. simpl.
      intros ->%list_elem_of_singleton. apply (F4 e); [rewrite Hp; by left|done].
  - assert (core (e :: held_entries w1) w1) as Hcore.
    { apply (core_perm (held_entries w)); [done|]. by apply (core_frame _ _ _ O2); rewrite Ew. }
    apply drop_settles in Hcore as [Hcore [(p & s & Es) _ _ So]]. rewrite Es in *. rewrite Ew in *. simpl in *.
    right. split; [done|]. split; [done|]. split; try done.
    + by rewrite Hp in O3; apply Forall_cons in O3 as [_ ?].
    + intros x Hx. by apply O4, Hsub.
    + assert (forall i, i ∈ map fst (committed w) -> s !! i = signals w !! i) as Hi.
      { intros i Hi. apply So. intros ->%list_elem_of_singleton. apply (O4 e); [rewrite Hp; by left|done]. }
      exists d, r. split; [by apply (logged_frame _ _ _ _ O5)|]. apply Forall_forall. intros c Hc'.
      rewrite Forall_forall in O6. unfold failed. simpl. rewrite Hi; [by apply O6|]. rewrite (lg_committed _ _ _ O5).
      apply list_elem_of_fmap_2, elem_of_app. by right.
Qed.

Lemma drop_reservation_inv k w : inv w -> inv (drop_reservation k w).
Proof.
  intros H. unfold drop_reservation. destruct (take_reservation k w) as [[e|] w1] eqn:E.
  - apply take_reservation_Some in E as [Ew Hp]. apply (dropped_inv e w w1 _ H Ew Hp).
  - by apply take_reservation_None in E as ->.
Qed.

Lemma commit_inv k w : inv w -> inv (snd (commit k w)).
Proof.
  intros H. unfold commit. destruct (take_reservation k w) as [[e|] w1] eqn:E.
  2: by apply take_reservation_None in E as ->.
  apply take_reservation_Some in E as [Ew Hp]. simpl. destruct (closed w1) eqn:Ec.
  { apply (dropped_inv e w w1 _ H Ew Hp). }
  destruct H as [(Hc & He & [F1 F2 F3 F4 [d F5]] & Hwait)|(Hc & _)]; [|rewrite Ew in Ec; simpl in Ec; congruence].
  assert (e ∈ held_entries w) as Hin by (rewrite Hp; by left).
  assert (Permutation (active_entries w ++ queue w ++ held_entries w) (active_entries w ++ (queue w ++ [e]) ++ held_entries w1)) as P.
  { rewrite Hp, <- !app_assoc. done. }
  assert (NoDup (map signal (e :: held_entries w1))) as Hnd.
  { pose proof (co_nodup _ _ F2) as N. rewrite !map_app in N. apply NoDup_app in N as (_ & _ & N).
    apply NoDup_app in N as (_ & _ & N). by rewrite Hp in N. }
  simpl in Hnd. apply NoDup_cons in Hnd as [Hnd _].
  assert (entry_ok (signals w) e) as Hok.
  { pose proof (co_entries _ _ F2) as Fe. rewrite Forall_forall in Fe. apply Fe. rewrite !elem_of_app. by right; right. }
  left. rewrite Ew in *. split; [done|]. split; [done|]. split; [|done]. split; simpl_set.
  - done.
  - apply (core_perm _ _ _ P). by apply (core_frame _ _ _ F2).
  - rewrite Hp in F3. by rewrite <- app_assoc.
  - intros x Hx. rewrite map_app. simpl. rewrite elem_of_app, list_elem_of_singleton. intros [Hx2|Hx2].
    + apply (F4 x); [rewrite Hp; by right|done].
    + apply Hnd. rewrite <- Hx2. by apply list_elem_of_fmap_2.
  - exists d. change (active_entries _) with (active_entries w). rewrite app_assoc, map_app.
    apply (logged_commit _ _ w _ e F5); simpl_set; try done.
    + rewrite Forall_forall in F3. apply F3, elem_of_app. by right.
    + eapply Forall_impl; [exact (ft_lines _ (eo_fits _ _ Hok))|]. by intros ? [? _].
    + by apply F4.
    + apply (eo_signal _ _ Hok).
Qed.

Lemma try_send_inv v w : inv w -> inv (snd (try_send v w)).
Proof.
  intros H. unfold try_send. pose proof (reserve_keeps [{| values := [v]; repetitions := 1 |}] w) as Hr.
  destruct (reserve_publication _ w) as [[k|f] w1]; simpl in *; [|apply Hr; [|done]; by repeat constructor].
  assert (inv w1) as H1 by (apply Hr; [|done]; by repeat constructor).
  pose proof (commit_inv k w1 H1) as H2. destruct (commit k w1) as [t w2]. simpl in *.
  destruct (t >>? _) as [p|]; [|done]. by destruct (stage p).
Qed.

(** *** The worker *)

Lemma fits_line e l :
  fits e -> current (cursor e) = Some (Some l) ->
  frames_of (payload (cursor e)) !! Z.to_nat (frame (progress e)) = Some l
  /\ frame (progress e) < frames (cursor e) /\ l <> [] /\ Z.of_nat (length l) <= max_line e /\ Z.of_nat (length l) <= U64_MAX.
Proof.
  intros [C R F L Fr _] H. rewrite (current_rest _ C), R in H. injection H as H.
  assert (frames_of (payload (cursor e)) !! Z.to_nat (frame (progress e)) = Some l) as E.
  { rewrite <- drop_lookup. by destruct (drop _ _). }
  split; [done|]. pose proof (lookup_lt_Some _ _ _ E). split; [lia|].
  destruct (Forall_lookup_1 _ _ _ _ L E) as [Hl Hm]. by apply line_nonempty in Hl.
Qed.

Lemma fits_over e : fits e -> current (cursor e) = Some None -> frame (progress e) = frames (cursor e).
Proof.
  intros [C R F _ Fr _] H. rewrite (current_rest _ C), R in H. injection H as H.
  destruct (drop _ _) eqn:E; [|done]. apply (f_equal length) in E. rewrite length_drop in E. simpl in E. lia.
Qed.

Lemma fits_current e : fits e -> exists o, current (cursor e) = Some o.
Proof. intros H. rewrite (current_rest _ (ft_cursor _ H)). eauto. Qed.

Definition advanced (c : Cursor) (e : Entry) : Entry :=
  e <| cursor := c |> <| progress ::= fun p => p <| frame ::= Z.add 1 |> <| byte := 0 |> |>.

Lemma fits_advance e l :
  fits e -> current (cursor e) = Some (Some l) ->
  exists c, advance (cursor e) = Some c /\ payload c = payload (cursor e) /\ fits (advanced c e).
Proof.
  intros H Hc. pose proof (fits_line _ _ H Hc) as (El & Hlt & _). destruct H as [C R F L Fr Hh].
  destruct (advance_rest _ _ C Hc) as (c & Ea & Cc & Rc & Pc & Fc). exists c. split; [done|]. split; [done|].
  split; simpl_set; rewrite ?Pc, ?Fc; try done; [|lia].
  replace (Z.to_nat (1 + frame (progress e))) with (S (Z.to_nat (frame (progress e)))) by lia.
  rewrite R, (drop_S _ _ _ El) in Rc. by injection Rc as <-.
Qed.

Lemma fits_stage s e : fits e -> fits (set_stage s e).
Proof. intros []. by split. Qed.

Lemma written_more p fs l n :
  fs !! Z.to_nat (frame p) = Some l -> 0 <= byte p ->
  written_of (p <| byte := byte p + Z.of_nat n |>) fs = written_of p fs ++ take n (drop (Z.to_nat (byte p)) l).
Proof.
  intros E Hb. unfold written_of. simpl_set. rewrite E. simpl. rewrite Z2Nat.inj_add, Nat2Z.id by lia.
  by rewrite <- app_assoc, take_take_drop.
Qed.

Lemma written_next p fs l :
  fs !! Z.to_nat (frame p) = Some l -> 0 <= frame p -> byte p = Z.of_nat (length l) ->
  written_of (p <| frame ::= Z.add 1 |> <| byte := 0 |>) fs = written_of p fs.
Proof.
  intros E Hf Hb. unfold written_of. simpl_set. rewrite E, Hb, Nat2Z.id. simpl. rewrite take_0, app_nil_r, firstn_all.
  replace (Z.to_nat (1 + frame p)) with (S (Z.to_nat (frame p))) by lia. rewrite (take_S_r _ _ _ E), concat_app. simpl.
  by rewrite app_nil_r.
Qed.

(** The entry at work moves on. *)
Lemma front_moves e0 e w w' extra :
  front [e0] w -> signal e = signal e0 -> held e = held e0 -> payload (cursor e) = payload (cursor e0) ->
  fits e -> settled (stage (progress e)) = false ->
  limits w' = limits w -> pools w' = pools w -> signals w' = <[signal e := progress e]> (signals w) ->
  committed w' = committed w -> queue w' = queue w -> reservations w' = reservations w -> pipe w' = pipe w ++ extra ->
  written_of (progress e) (frames_of (payload (cursor e))) = written_of (progress e0) (frames_of (payload (cursor e))) ++ extra ->
  front [e] w'.
Proof.
  intros [F1 F2 F3 F4 [d F5]] Es Eh Ep Hf Ho Hl Hp Hs Hc Hq Hr Hpipe Hw.
  assert (held_entries w' = held_entries w) as Ehe by (unfold held_entries; by rewrite Hr).
  pose proof (co_entries _ _ F2) as [He _]%Forall_cons. split; rewrite ?Hl, ?Hq, ?Ehe, ?Hc; try done.
  - apply (core_frame _ (report e w)); [by apply (core_report e0)|done..].
  - exists d. simpl in *. destruct (logged_progress _ _ w w' _ _ _ (progress e) extra F5 (eo_signal _ _ He)) as [H _].
    + by rewrite Hs, Es.
    + done.
    + done.
    + by rewrite <- Ep.
    + unfold ticket_of. rewrite Es, Ep. apply H. intros E. by rewrite E in Ho.
Qed.

Lemma front_idle E w w' :
  front E w -> limits w' = limits w -> pools w' = pools w -> signals w' = signals w -> committed w' = committed w ->
  queue w' = queue w -> reservations w' = reservations w -> pipe w' = pipe w -> front E w'.
Proof.
  intros [F1 F2 F3 F4 [d F5]] Hl Hp Hs Hc Hq Hr Hpipe.
  assert (held_entries w' = held_entries w) as Ehe by (unfold held_entries; by rewrite Hr).
  split; rewrite ?Hl, ?Hq, ?Ehe, ?Hc; try done; [by apply (core_frame _ _ _ F2)|].
  exists d. apply (logged_frame _ _ _ _ F5); [done|done|]. by rewrite Hs.
Qed.

(** The worker ends; of [X] it failed already. *)
Lemma end_inv r X w :
  limits_wf (limits w) -> core (queue w ++ held_entries w) w -> Forall is_new (queue w ++ held_entries w) ->
  (forall e, e ∈ held_entries w -> signal e ∉ map fst (committed w)) ->
  (exists done, logged done (X ++ map ticket_of (queue w)) w) -> Forall (failed (signals w)) X ->
  inv (end_worker r w).
Proof.
  intros Hl Hc Hn Hh [d Hd] Hx. unfold end_worker. set (w1 := w <| closed := true |> <| queue := [] |>).
  assert (core (queue w ++ held_entries w) w1) as Hc1 by (by apply (core_frame _ w)).
  apply drop_all_settles in Hc1 as [Hc1 [(p & s & Es) Sp Sf So]]. rewrite Es in *. unfold w1 in *. simpl in *.
  right. split; [done|]. split; [done|]. split; try done.
  - by apply (core_frame _ _ _ Hc1).
  - by apply Forall_app in Hn as [_ Hn].
  - exists d, (X ++ map ticket_of (queue w)). split; [by apply (logged_places _ _ _ _ Hd)|].
    apply Forall_app. split; [|done]. eapply Forall_impl; [exact Hx|]. intros c. simpl. by apply failed_places.
Qed.

Lemma worker_fails_inv f e w : front [e] w -> inv (worker_fails f e w).
Proof.
  intros [F1 F2 F3 F4 [d F5]]. pose proof (co_entries _ _ F2) as [He _]%Forall_cons. simpl in F2.
  pose proof (settle_core e (set_stage (Failed f) e) _ _ F2 eq_refl eq_refl eq_refl) as Hc.
  pose proof (fails_places e f _ (eo_signal _ _ He) (eo_open _ _ He)) as Hp.
  unfold worker_fails, fail, drop_entry. apply (end_inv _ [ticket_of e]).
  - done.
  - exact Hc.
  - done.
  - exact F4.
  - exists d. apply (logged_places _ _ _ _ F5); done.
  - constructor; [|constructor]. unfold failed. simpl. unfold report. simpl_set.
    rewrite list_lookup_insert_eq by (eapply lookup_lt_Some, (eo_signal _ _ He)). eexists _, _. by split.
Qed.

Lemma set_stage_twice s e : set_stage s (set_stage s e) = set_stage s e.
Proof. by destruct e as [? [] ? ? ?]. Qed.

Lemma report_twice e w : report e (report e w) = report e w.
Proof.
  transitivity (w <| signals := <[signal e := progress e]> (<[signal e := progress e]> (signals w)) |>); [done|].
  by rewrite list_insert_insert_eq.
Qed.

(** What is left to do for an entry: its bytes, its flushes and its completion *)
Definition entry_cost (e : Entry) : nat :=
  sum_list_with (fun l => length l + 2)%nat (rest_of (cursor e)) + 1 - Z.to_nat (byte (progress e)).

Definition active_cost (w : World) : nat := match active w with Some (e, _) => entry_cost e | None => 0%nat end.

Lemma turn_inv e0 e w :
  front [e0] w -> closed w = false -> ended w = None -> signal e = signal e0 -> held e = held e0 ->
  payload (cursor e) = payload (cursor e0) -> fits e -> byte (progress e) = 0 ->
  written_of (progress e) (frames_of (payload (cursor e))) = written_of (progress e0) (frames_of (payload (cursor e))) ->
  exists w', turn e w = Some w' /\ inv w'
    /\ ended w' = None /\ queue w' = queue w /\ committed w' = committed w /\ (active_cost w' <= entry_cost e)%nat.
Proof.
  intros F Hc He Es Eh Ep Hf Hb Hw. unfold turn. destruct (fits_current _ Hf) as [[l|] Ec]; rewrite Ec.
  - destruct (fits_line _ _ Hf Ec) as (El & Hlt & Hne & Hm & Hu).
    destruct (Z.ltb_spec (max_line e) (Z.of_nat (length l))); [lia|].
    destruct (Z.leb_spec (frames (cursor e)) (frame (progress e))); [lia|]. simpl.
    change (byte (progress (set_stage Writing e))) with (byte (progress e)). rewrite Hb.
    assert (0 <? Z.of_nat (length l) = true) as -> by (apply Z.ltb_lt; destruct l; [done|simpl; lia]).
    unfold wait_at. rewrite set_stage_twice, report_twice. eexists. split; [reflexivity|].
    split; [|by repeat split]. left. split; [done|]. split; [done|]. split.
    + apply (front_moves e0 _ w _ [] F); try done; [by apply fits_stage|simpl; by rewrite app_nil_r|].
      simpl. rewrite app_nil_r. exact Hw.
    + intros x a [= <- <-]. exists l. simpl. rewrite Hb. split; [done|]. split; [done|]. split; [done|].
      destruct l; [done|simpl; lia].
  - rewrite (fits_over _ Hf Ec), Z.eqb_refl. simpl. eexists. split; [reflexivity|].
    split; [|repeat split; [done..|unfold active_cost; simpl; lia]]. left. split; [done|]. split; [done|].
    destruct F as [F1 F2 F3 F4 [d F5]]. simpl in F2, F5. pose proof (co_entries _ _ F2) as [He0 _]%Forall_cons.
    split; [|done]. split.
    + done.
    + by apply (core_frame _ _ _ (settle_core e0 (set_stage Complete e) _ _ F2 Es Eh eq_refl)).
    + done.
    + done.
    + exists (d ++ [ticket_of e0]). set (w' := _ <| active := None |>).
      destruct (logged_progress _ _ w w' _ _ _ (progress (set_stage Complete e)) [] F5 (eo_signal _ _ He0)) as [_ H].
      * unfold w'. unfold drop_entry, report. simpl_set. by rewrite Es.
      * done.
      * simpl. by rewrite app_nil_r.
      * rewrite app_nil_r, <- Ep. exact Hw.
      * apply H; [done|]. rewrite <- Ep. unfold written_of. simpl. rewrite Hb, take_0, app_nil_r, firstn_all2; [done|].
        rewrite (fits_over _ Hf Ec), (ft_frames _ Hf). lia.
Qed.

(** The worker's own checks do not fail: an end it reports is [Finished], or was there. *)
Definition calm (w w' : World) : Prop := ended w' = ended w \/ ended w' = Some Finished.

Lemma receive_inv w : inv w -> exists w', receive w = Some w' /\ inv w' /\ calm w w'.
Proof.
  intros H. unfold receive. destruct H as [(Hc & He & F & Hw)|(Hc & He & F)].
  2: { destruct (ended w) eqn:E; [|done]. exists w. split; [done|]. split; [|by left]. right. split; [done|]. by rewrite E. }
  rewrite He. destruct (active w) as [[e a]|] eqn:Ea.
  { exists w. split; [done|]. split; [|by left]. left. by rewrite Ea. }
  destruct F as [F1 F2 F3 F4 [d F5]]. unfold active_entries in F2, F5. rewrite Ea in F2, F5. simpl in F2, F5.
  destruct (queue w) as [|e rest] eqn:Eq.
  - destruct (negb (handle w) && _); eexists; (split; [reflexivity|]).
    + split; [|by right]. apply (end_inv _ []); rewrite ?Eq; try done. by exists d.
    + split; [|by left]. left. split; [done|]. split; [done|]. split; [|by rewrite Ea]. unfold active_entries. rewrite Ea.
      split; rewrite ?Eq; try done. by exists d.
  - pose proof (co_entries _ _ F2) as [Hok _]%Forall_cons. apply Forall_cons in F3 as [Hnew F3].
    destruct (turn_inv e e (w <| queue := rest |>)) as (w' & E & Hi & En & _); try done;
      [|by apply eo_fits in Hok|by rewrite Hnew|exists w'; unfold calm; rewrite En, He; by auto].
    split; try done; [by apply (core_frame _ _ _ F2)|]. exists d. by apply (logged_frame _ _ _ _ F5).
Qed.

Lemma inv_active w e a :
  inv w -> active w = Some (e, a) ->
  closed w = false /\ ended w = None /\ front [e] w /\ waits e a /\ fits e /\ settled (stage (progress e)) = false.
Proof.
  intros [(Hc & He & F & Hw)|(_ & _ & [])] Ea; [|congruence]. unfold active_entries in F. rewrite Ea in F.
  pose proof (co_entries _ _ (fr_core _ _ F)) as [[Hf _ Ho] _]%Forall_cons. auto 10.
Qed.

(** What [AsyncWrite] promises: it takes no more than it is offered. *)
Definition contract (a : Input) (w : World) : Prop :=
  match a with
  | Reserve cycles => Forall cycle_wf cycles
  | Written (Ok n) =>
      forall e l, active w = Some (e, AtWrite) -> current (cursor e) = Some (Some l) ->
      Z.of_nat n <= Z.of_nat (length l) - byte (progress e)
  | _ => True
  end.

Lemma written_inv answer w :
  contract (Written answer) w -> inv w ->
  exists w', written answer w = Some w' /\ inv w'
    /\ (calm w w' \/ ended w' = Some (FailedWith (match answer with Ok _ => WriteZero | Err f => f end))).
Proof.
  intros C H. unfold written.
  destruct (active w) as [[e []]|] eqn:Ea; try (exists w; split; [done|]; split; [done|left; by left]).
  pose proof (inv_active _ _ _ H Ea) as (Hc & He & F & (l & El & Hb & Hs & Hlt) & Hf & Ho). rewrite El.
  destruct answer as [n|f]; [|eexists; split; [reflexivity|]; split; [by apply worker_fails_inv|by right]].
  specialize (C _ _ Ea El). destruct (fits_line _ _ Hf El) as (Ef & _ & _ & _ & Hu).
  destruct (Nat.eqb_spec n 0) as [->|Hn].
  { eexists. split; [reflexivity|]. split; [|by right]. apply worker_fails_inv, (front_idle _ _ _ F); try done.
    simpl. by rewrite take_0, app_nil_r. }
  unfold checked_add. destruct (Z.leb_spec (byte (progress e) + Z.of_nat n) U64_MAX); [|lia].
  destruct (Z.leb_spec (byte (progress e) + Z.of_nat n) (Z.of_nat (length l))); [|lia].
  set (e' := e <| progress ::= _ |>). set (w1 := w <| pipe ::= _ |>). eexists. split; [reflexivity|]. split; [|left; by left].
  assert (fits e') as Hf' by (destruct Hf; by split).
  assert (front [e'] (report e' w1)) as F'.
  { eapply (front_moves e e' w); try done. simpl. by apply written_more. }
  left. split; [done|]. split; [done|]. destruct (Z.ltb_spec (byte (progress e) + Z.of_nat n) (Z.of_nat (length l))) as [Hl|Hl].
  - split.
    + apply (front_moves e' (set_stage Writing e') _ _ [] F'); try done; [by apply fits_stage|simpl; by rewrite app_nil_r|].
      by rewrite app_nil_r.
    + intros x a [= <- <-]. exists l. split; [done|]. unfold e'. simpl_set. split; [lia|]. by split.
  - split.
    + apply (front_moves e' (set_stage Flushing e') _ _ [] F'); try done; [by apply fits_stage|simpl; by rewrite app_nil_r|].
      by rewrite app_nil_r.
    + intros x a [= <- <-]. exists l. split; [done|]. unfold e'. simpl_set. split; [lia|]. split; [done|lia].
Qed.

Lemma flushed_inv answer w :
  inv w ->
  exists w', flushed answer w = Some w' /\ inv w'
    /\ (calm w w' \/ exists f, answer = Err f /\ ended w' = Some (FailedWith f)).
Proof.
  intros H. unfold flushed.
  destruct (active w) as [[e []]|] eqn:Ea; try (exists w; split; [done|]; split; [done|left; by left]).
  pose proof (inv_active _ _ _ H Ea) as (Hc & He & F & (l & El & Hb & Hs & Hlen) & Hf & Ho).
  destruct answer as [u|f]; [|eexists; split; [reflexivity|]; split; [by apply worker_fails_inv|right; by exists f]].
  destruct (fits_advance _ _ Hf El) as (c & Ec & Pc & Hf'). rewrite Ec. destruct (fits_line _ _ Hf El) as (Ef & _).
  destruct (turn_inv e (advanced c e) (w <| flushes ::= Z.add 1 |>)) as (w' & E & Hi & En & _); try done; simpl_set;
    [| |exists w'; split; [done|]; split; [done|]; left; left; by rewrite En, He].
  - by apply (front_idle _ _ _ F).
  - rewrite Pc. apply (written_next _ _ l); [done|apply (ft_frame _ Hf)|done].
Qed.

Lemma abort_inv w : inv w -> inv (abort w).
Proof.
  intros H. unfold abort. destruct (ended w) eqn:He; [done|].
  destruct H as [(Hc & _ & [F1 F2 F3 F4 [d F5]] & Hw)|(_ & He' & _)]; [|done].
  destruct (active w) as [[e a]|] eqn:Ea; unfold active_entries in F2, F5; rewrite Ea in F2, F5; simpl in F2, F5.
  - apply drop_settles in F2 as [F2 [(p & s & Es) Sp Sf So]]. rewrite Es in *. apply (end_inv _ [ticket_of e]); try done.
    exists d. by apply (logged_places _ _ _ _ F5).
  - apply (end_inv _ []); try done. by exists d.
Qed.

Lemma step_keeps a w : contract a w -> inv w -> exists w', step a w = Some w' /\ inv w'.
Proof.
  intros C H. destruct a; simpl.
  - eexists. split; [done|]. destruct (handle w); [by apply reserve_keeps|done].
  - eexists. split; [done|]. by apply commit_inv.
  - eexists. split; [done|]. by apply drop_reservation_inv.
  - eexists. split; [done|]. destruct (handle w); [by apply try_send_inv|done].
  - eexists. split; [done|].
    destruct H as [(Hc & He & [F1 F2 F3 F4 [d F5]] & Hw)|(Hc & He & [O1 O2 O3 O4 (d & r & O5 & O6) O7 O8])].
    + left. split; [done|]. split; [done|]. split; [|done]. split; try done; [by apply (core_frame _ _ _ F2)|].
      exists d. by apply (logged_frame _ _ _ _ F5).
    + right. split; [done|]. split; [done|]. split; try done; [by apply (core_frame _ _ _ O2)|].
      exists d, r. split; [by apply (logged_frame _ _ _ _ O5)|done].
  - destruct (receive_inv _ H) as (w' & E & H' & _). eauto.
  - destruct (written_inv _ _ C H) as (w' & E & H' & _). eauto.
  - destruct (flushed_inv answer _ H) as (w' & E & H' & _). eauto.
  - eexists. split; [done|]. by apply abort_inv.
Qed.

Inductive reached (l : Limits) : World -> Prop :=
| reached_start : reached l (with_budgets l)
| reached_step a w w' : reached l w -> contract a w -> step a w = Some w' -> reached l w'.

Lemma start_keeps l : limits_wf l -> inv (with_budgets l).
Proof.
  intros Hl. left. split; [done|]. split; [done|]. split; [|done]. split; try done.
  - split; try done; [apply permits_eq; simpl; lia| |by constructor].
    unfold limits_wf in Hl. unfold nonneg. simpl. lia.
  - intros e He. inversion He.
  - exists []. split; try done; constructor.
Qed.

Lemma reached_inv l w : limits_wf l -> reached l w -> inv w.
Proof.
  intros Hl. induction 1 as [|a w w' _ IH C E]; [by apply start_keeps|]. destruct (step_keeps _ _ C IH) as (w2 & E2 & H).
  rewrite E in E2. by injection E2 as <-.
Qed.

(** *** What no step changes *)

Lemma drop_entry_limits e w : limits (drop_entry e w) = limits w.
Proof. unfold drop_entry. by destruct (settled _). Qed.

Lemma drop_all_limits es : forall w, limits (drop_all es w) = limits w.
Proof. induction es as [|e es IH]; [done|]. intros w. simpl. by rewrite IH, drop_entry_limits. Qed.

Lemma end_worker_limits r w : limits (end_worker r w) = limits w.
Proof. unfold end_worker. simpl. by rewrite drop_all_limits. Qed.

Lemma worker_fails_limits f e w : limits (worker_fails f e w) = limits w.
Proof. unfold worker_fails. cbn -[end_worker drop_entry]. by rewrite end_worker_limits, drop_entry_limits. Qed.

Lemma turn_limits e w w' : turn e w = Some w' -> limits w' = limits w.
Proof.
  unfold turn. destruct (current _) as [[l|]|]; [| |done].
  - destruct (_ || _); intros [= <-]; [apply worker_fails_limits|done].
  - destruct (negb _); intros [= <-]; [apply worker_fails_limits|]. apply (drop_entry_limits (set_stage Complete e) (report (set_stage Complete e) w)).
Qed.

Lemma reserve_limits cycles w : limits (snd (reserve_publication cycles w)) = limits w.
Proof. unfold reserve_publication. by destruct (bind_result _ _). Qed.

Lemma take_reservation_limits k w : limits (snd (take_reservation k w)) = limits w.
Proof. unfold take_reservation. by destruct (reservations w !! k) as [[|]|]. Qed.

Lemma commit_limits k w : limits (snd (commit k w)) = limits w.
Proof.
  unfold commit. pose proof (take_reservation_limits k w) as H. destruct (take_reservation k w) as [[e|] w1]; [|done].
  simpl in *. destruct (closed w1); [by rewrite drop_entry_limits|done].
Qed.

Lemma step_limits a w w' : step a w = Some w' -> limits w' = limits w.
Proof.
  destruct a; simpl.
  - intros [= <-]. destruct (handle w); [apply reserve_limits|done].
  - intros [= <-]. apply commit_limits.
  - intros [= <-]. unfold drop_reservation. pose proof (take_reservation_limits k w) as H.
    destruct (take_reservation k w) as [[e|] w1]; [by rewrite drop_entry_limits|done].
  - intros [= <-]. destruct (handle w); [|done]. unfold try_send. pose proof (reserve_limits [{| values := [value]; repetitions := 1 |}] w) as H.
    destruct (reserve_publication _ w) as [[k|f] w1]; [|done]. pose proof (commit_limits k w1) as H2.
    destruct (commit k w1) as [t w2]. simpl in *. destruct (t >>? _) as [p|]; [destruct (stage p)|]; simpl; congruence.
  - by intros [= <-].
  - unfold receive. destruct (ended w); [by intros [= <-]|]. destruct (active w); [by intros [= <-]|].
    destruct (queue w).
    + destruct (_ && _); intros [= <-]; [apply end_worker_limits|done].
    + intros H. by apply turn_limits in H.
  - unfold written. destruct (active w) as [[e []]|]; [|by intros [= <-]..].
    destruct (current _) as [[l|]|]; [|done|done]. destruct answer as [n|f]; [|intros [= <-]; apply worker_fails_limits].
    destruct (n =? 0)%nat; [intros [= <-]; by rewrite worker_fails_limits|].
    destruct (checked_add _ _) as [b|]; [destruct (_ <=? _)|]; intros [= <-]; rewrite ?worker_fails_limits; done.
  - unfold flushed. destruct (active w) as [[e []]|]; [by intros [= <-]| |by intros [= <-]].
    destruct answer as [u|f]; [|intros [= <-]; apply worker_fails_limits].
    destruct (advance _); [|done]. intros H. by apply turn_limits in H.
  - intros [= <-]. unfold abort. destruct (ended w); [done|]. rewrite end_worker_limits.
    destruct (active w) as [[e a]|]; [apply drop_entry_limits|done].
Qed.

Lemma reached_limits l w : reached l w -> limits w = l.
Proof. induction 1 as [|a w w' _ IH _ E]; [done|]. by rewrite (step_limits _ _ _ E). Qed.

(** ** What the client reads *)

(** C11: Every committed publication is lines of JSON, and what the pipe carries is the committed publications, whole, once each and in the order of
    their commits: every publication whose ticket says complete, then of the first one that is
    not exactly the frames and bytes its ticket's progress counts, and nothing of the others.
    Once the worker ended, the ticket of everything else says failed. *)
Theorem publications_reach_the_pipe_in_order l w :
  limits_wf l -> reached l w ->
  exists done rest,
    committed w = done ++ rest /\ NoDup (map fst (committed w)) /\ Forall (fun c => Forall is_line (snd c)) (committed w)
    /\ Forall (complete (signals w)) done /\ Forall (incomplete (signals w)) rest
    /\ pipe w = concat (concat (map snd done)) ++ partial (signals w) rest
    /\ Forall (fun c => exists p, signals w !! fst c = Some p /\ frame p = 0 /\ byte p = 0) (tail rest)
    /\ (ended w <> None -> Forall (failed (signals w)) rest).
Proof.
  intros Hl H. apply reached_inv in H; [|done].
  destruct H as [(_ & He & [_ _ _ _ [d []]] & _)|(_ & _ & [_ _ _ _ (d & r & [] & Hf) _ _])]; eexists d, _; by split_and!.
Qed.

Definition alive (w : World) : list Entry := active_entries w ++ queue w ++ held_entries w.

Lemma held_items sg es : Forall (entry_ok sg) es -> p_items (held_by es) = Z.of_nat (length es).
Proof.
  induction 1 as [|e es E _ IH]; [done|]. cbn [held_by add_permits p_items length].
  rewrite IH, (ft_held _ (eo_fits _ _ E)), cost_item. lia.
Qed.

(** C23: Permits are neither lost nor made: what the pools have and what the entry at work, the
    queue and the outstanding reservations hold is at every moment the configured budget, and no
    pool is overdrawn.  Every entry alive holds exactly what its payload costs (one item, the
    bytes of its lines, its template entries and headers), so that the items alive are as many
    as the item permits out. *)
Theorem permits_conserved l w :
  limits_wf l -> reached l w ->
  add_permits (pools w) (held_by (alive w)) = budget l /\ nonneg (pools w)
  /\ (forall e, e ∈ alive w -> held e = cost (payload (cursor e)))
  /\ p_items (pools w) + Z.of_nat (length (alive w)) = l_items l.
Proof.
  intros Hl H. rewrite <- (reached_limits _ _ H). apply reached_inv in H; [|done].
  assert (core (alive w) w) as [B N E _ _].
  { destruct H as [(_ & _ & [_ ? _ _ _] & _)|(_ & _ & [_ H _ _ _ Hq Ha])]; [done|].
    unfold alive, active_entries. by rewrite Hq, Ha. }
  split; [done|]. split; [done|]. split.
  - intros e He. rewrite Forall_forall in E. apply (ft_held e), (eo_fits (signals w)), E, He.
  - rewrite <- (held_items _ _ E). exact (f_equal p_items B).
Qed.

(** A publication that is admitted is exactly the frames asked for, reserved and not yet
    visible, within every bound the limits declare; what a refused one changes is nothing. *)
Theorem admission_is_bounded l w cycles :
  limits_wf l -> reached l w -> Forall cycle_wf cycles ->
  match reserve_publication cycles w with
  | (Err _, w') => w' = w
  | (Ok k, w') =>
      exists e, reservations w' = reservations w ++ [Some e] /\ k = length (reservations w)
      /\ frames_of (payload (cursor e)) = publication cycles
      /\ size (templates_of cycles) <= l_bytes l /\ p_bytes (held e) = size (templates_of cycles)
      /\ (is_single cycles = false ->
             Z.of_nat (length (publication cycles)) <= l_frames l /\ size (publication cycles) <= l_amplified_bytes l)
      /\ pipe w' = pipe w /\ queue w' = queue w /\ committed w' = committed w
      /\ Z.of_nat (length (queue w)) + reserved w < l_items l
  end.
Proof.
  intros Hl H Hw. pose proof (reached_limits _ _ H) as <-. apply reached_inv in H; [|done].
  destruct (reserve_publication cycles w) as [[k|f] w'] eqn:E; [|by apply reserve_Err in E].
  assert (nonneg (pools w)) as Hp by (destruct H as [(_ & _ & [_ [] _ _ _] & _)|(_ & _ & [_ [] _ _ _ _ _])]; done).
  apply reserve_Ok in E as (e & c & -> & -> & _ & _ & _ & _ & Ef & Ec & _ & Eb & Er); [|done|done|done].
  apply count_Ok in Ec as ([C1 C2 C3] & _ & F & En & Am & _); [|done|done].
  exists e. split; [done|]. split; [done|]. split; [done|]. split; [lia|]. split; [done|]. split.
  { intros Hs. specialize (C2 Hs). specialize (C3 Hs). lia. }
  do 3 (split; [done|]). unfold can_reserve in Er. apply andb_prop in Er as [_ Er]. by apply Z.ltb_lt in Er.
Qed.

(** As long as the writer takes no more than it is offered, no index of the worker is out of
    range, and its own consistency checks never end it: it ends because its senders are gone, it
    was aborted, or the writer failed or took nothing. *)
Theorem writer_checks_never_fail l w a :
  limits_wf l -> reached l w -> contract a w ->
  exists w', step a w = Some w'
    /\ (forall f, ended w' = Some (FailedWith f) ->
           ended w = Some (FailedWith f) \/ a = Written (Err f) \/ a = Flushed (Err f)
           \/ f = WriteZero /\ exists n, a = Written (Ok n)).
Proof.
  intros Hl H C. apply reached_inv in H; [|done]. destruct a; simpl.
  - eexists. split; [done|]. intros f Hf. left. destruct (handle w); [|done]. revert Hf.
    unfold reserve_publication. by destruct (bind_result _ _).
  - eexists. split; [done|]. intros f Hf. left. revert Hf. unfold commit, take_reservation.
    destruct (reservations w !! k) as [[e|]|]; simpl; [|done|done]. destruct (closed w); [|done].
    unfold drop_entry. by destruct (settled _).
  - eexists. split; [done|]. intros f Hf. left. revert Hf. unfold drop_reservation, take_reservation.
    destruct (reservations w !! k) as [[e|]|]; [|done|done]. unfold drop_entry. by destruct (settled _).
  - eexists. split; [done|]. intros f Hf. left. revert Hf. destruct (handle w); [|done]. unfold try_send.
    unfold reserve_publication. destruct (bind_result _ _); [|done]. unfold commit, take_reservation. simpl_set.
    destruct ((reservations w ++ _) !! _) as [[e|]|]; simpl; try done.
    destruct (closed w); simpl; unfold drop_entry;
      repeat match goal with |- context [match ?x with _ => _ end] => destruct x; simpl end; done.
  - eexists. split; [done|]. by left.
  - destruct (receive_inv _ H) as (w' & E & _ & [Hc|Hc]); exists w'; (split; [done|]); rewrite Hc; [by left|done].
  - destruct (written_inv _ _ C H) as (w' & E & _ & [[Hc|Hc]|Hc]); exists w'; (split; [done|]); rewrite Hc; [by left|done|].
    intros f [= <-]. destruct answer as [n|g]; eauto 10.
  - destruct (flushed_inv answer _ H) as (w' & E & _ & [[Hc|Hc]|(f & -> & Hc)]); exists w'; (split; [done|]); rewrite Hc; [by left|done|].
    intros g [= <-]. auto.
  - eexists. split; [done|]. unfold abort. destruct (ended w) as [r|] eqn:E; [intros f Hf; left; congruence|done].
Qed.

(** ** The writer finishes *)

(** What a pipe that accepts something answers next: [S n] bytes of what it is offered, or all *)
Definition pulse (n : nat) (w : World) : Input :=
  match active w with
  | None => Received
  | Some (e, AtWrite) =>
      match current (cursor e) with
      | Some (Some l) => Written (Ok (min (S n) (length l - Z.to_nat (byte (progress e)))))
      | _ => Received
      end
  | Some (_, AtFlush) => Flushed (Ok tt)
  end.

Fixpoint drain (chunks : list nat) (w : World) : option World :=
  match chunks with
  | [] => Some w
  | n :: chunks => match step (pulse n w) w with Some w => drain chunks w | None => None end
  end.

(** What is left to do: for each entry its bytes, a write and a flush a frame, and its completion *)
Definition total (w : World) : nat := active_cost w + sum_list_with (fun e => S (entry_cost e)) (queue w).

Definition drained (w : World) : Prop :=
  inv w /\ active w = None /\ queue w = [] /\ logged (committed w) [] w.

Lemma rest_head e l :
  fits e -> current (cursor e) = Some (Some l) -> exists rest, rest_of (cursor e) = l :: rest.
Proof. intros H E. rewrite (current_rest _ (ft_cursor _ H)) in E. destruct (rest_of _); [done|]. injection E as ->. eauto. Qed.

Lemma pulse_write n w e l :
  inv w -> active w = Some (e, AtWrite) -> current (cursor e) = Some (Some l) ->
  contract (pulse n w) w /\
  exists w', step (pulse n w) w = Some w' /\ ended w' = None /\ committed w' = committed w /\ (total w' < total w)%nat.
Proof.
  intros H Ea El. unfold pulse. rewrite Ea, El.
  pose proof (inv_active _ _ _ H Ea) as (Hc & He & F & (l' & El' & Hb & Hs & Hlt) & Hf & Ho).
  rewrite El in El'. injection El' as <-. set (k := min _ _). assert (1 <= k)%nat as Hk by (unfold k; lia).
  assert (Z.of_nat k <= Z.of_nat (length l) - byte (progress e)) as Hk2 by (unfold k; lia).
  destruct (fits_line _ _ Hf El) as (Ef & _ & _ & _ & Hu). split.
  { simpl. intros e' l' Ea' El'. rewrite Ea in Ea'. injection Ea' as <-. rewrite El in El'. by injection El' as <-. }
  simpl. unfold written. rewrite Ea, El. destruct (Nat.eqb_spec k 0); [lia|]. unfold checked_add.
  destruct (Z.leb_spec (byte (progress e) + Z.of_nat k) U64_MAX); [|lia].
  destruct (Z.leb_spec (byte (progress e) + Z.of_nat k) (Z.of_nat (length l))); [|lia].
  eexists. split; [reflexivity|]. split; [done|]. split; [done|]. unfold total, active_cost. simpl. rewrite Ea.
  destruct (rest_head _ _ Hf El) as [rest Er]. unfold entry_cost. simpl_set. rewrite Er. simpl. lia.
Qed.

Lemma pulse_flush n w e :
  inv w -> active w = Some (e, AtFlush) ->
  exists w', step (pulse n w) w = Some w' /\ ended w' = None /\ committed w' = committed w /\ (total w' < total w)%nat.
Proof.
  intros H Ea. unfold pulse. rewrite Ea.
  pose proof (inv_active _ _ _ H Ea) as (Hc & He & F & (l & El & Hb & Hs & Hlen) & Hf & Ho).
  simpl. unfold flushed. rewrite Ea. destruct (fits_advance _ _ Hf El) as (c & Ec & Pc & Hf'). rewrite Ec.
  destruct (fits_line _ _ Hf El) as (Ef & _).
  destruct (turn_inv e (advanced c e) (w <| flushes ::= Z.add 1 |>)) as (w' & E & _ & En & Eq & Em & Hcost); try done.
  { by apply (front_idle _ _ _ F). }
  { unfold advanced. simpl_set. rewrite Pc. apply (written_next _ _ l); [done|apply (ft_frame _ Hf)|done]. }
  exists w'. split; [done|]. split; [done|]. split; [done|].
  destruct (advance_rest _ _ (ft_cursor _ Hf) El) as (c2 & Ec2 & _ & Er & _). rewrite Ec in Ec2. injection Ec2 as <-.
  unfold total. rewrite Eq. unfold active_cost at 2. rewrite Ea. 
  change (entry_cost (advanced c e)) with (sum_list_with (fun l => length l + 2)%nat (rest_of c) + 1 - 0)%nat in Hcost.
  unfold entry_cost at 2. rewrite Er. simpl. lia.
Qed.

Lemma pulse_receive n w e rest :
  inv w -> ended w = None -> active w = None -> queue w = e :: rest ->
  exists w', step (pulse n w) w = Some w' /\ ended w' = None /\ committed w' = committed w /\ (total w' < total w)%nat.
Proof.
  intros H He Ea Eq. unfold pulse. rewrite Ea. simpl. unfold receive. rewrite He, Ea, Eq.
  destruct H as [(Hc & _ & [F1 F2 F3 F4 [d F5]] & _)|(_ & ? & _)]; [|done]. unfold active_entries in F2, F5.
  rewrite Ea, Eq in *. simpl in F2, F5. pose proof (co_entries _ _ F2) as [Hok _]%Forall_cons.
  apply Forall_cons in F3 as [Hnew F3].
  destruct (turn_inv e e (w <| queue := rest |>)) as (w' & E & _ & En & Eq' & Em & Hcost); try done.
  { split; try done; [by apply (core_frame _ _ _ F2)|]. exists d. by apply (logged_frame _ _ _ _ F5). }
  { by apply eo_fits in Hok. }
  { by rewrite Hnew. }
  exists w'. split; [done|]. split; [done|]. split; [done|]. unfold total. rewrite Eq'. simpl_set. rewrite Eq. simpl.
  unfold active_cost at 2. rewrite Ea. lia.
Qed.

(** Where something is left to do, a pulse does some of it. *)
Lemma pulse_works n w :
  inv w -> ended w = None -> (0 < total w)%nat ->
  contract (pulse n w) w /\
  exists w', step (pulse n w) w = Some w' /\ ended w' = None /\ committed w' = committed w /\ (total w' < total w)%nat.
Proof.
  intros H He Ht. destruct (active w) as [[e []]|] eqn:Ea.
  - pose proof (inv_active _ _ _ H Ea) as (_ & _ & _ & (l & El & _) & _). by apply (pulse_write n w e l).
  - split; [unfold pulse; by rewrite Ea|]. by apply (pulse_flush n w e).
  - split; [unfold pulse; by rewrite Ea|]. destruct (queue w) as [|e rest] eqn:Eq; [|by apply (pulse_receive n w e rest)].
    unfold total, active_cost in Ht. rewrite Ea, Eq in Ht. simpl in Ht. lia.
Qed.

Lemma pulse_drained n w :
  drained w -> exists w', step (pulse n w) w = Some w' /\ drained w' /\ committed w' = committed w.
Proof.
  intros (H & Ea & Eq & Hl). unfold pulse. rewrite Ea. destruct (receive_inv _ H) as (w' & E & Hi & _).
  exists w'. split; [done|]. unfold receive in E. rewrite Ea, Eq in E. destruct (ended w) eqn:He.
  { injection E as <-. split; [|done]. unfold drained. auto. }
  destruct (negb (handle w) && (reserved w =? 0)); injection E as <-.
  - split; [|unfold end_worker; by rewrite Eq]. split; [done|]. split; [done|].
    split; [unfold end_worker; by rewrite Eq|]. unfold end_worker. rewrite Eq. by apply (logged_frame _ _ _ _ Hl).
  - split; [|done]. unfold drained. auto.
Qed.

Lemma idle_drained w : inv w -> ended w = None -> total w = 0%nat -> drained w.
Proof.
  intros H He Ht.
  assert (active w = None) as Ea.
  { destruct (active w) as [[e a]|] eqn:Ea; [|done]. pose proof (inv_active _ _ _ H Ea) as (_ & _ & _ & (l & El & Hb & Ha) & Hf & _).
    destruct (rest_head _ _ Hf El) as [rest Er]. unfold total, active_cost in Ht. rewrite Ea in Ht. unfold entry_cost in Ht.
    rewrite Er in Ht. simpl in Ht. destruct a; lia. }
  assert (queue w = []) as Eq.
  { destruct (queue w) eqn:Eq; [done|]. unfold total in Ht. rewrite Eq in Ht. simpl in Ht. lia. }
  split; [done|]. split; [done|]. split; [done|].
  destruct H as [(_ & _ & [_ _ _ _ [d F5]] & _)|(_ & ? & _)]; [|done]. unfold active_entries in F5. rewrite Ea, Eq in F5.
  simpl in F5. pose proof (lg_committed _ _ _ F5) as Ec. rewrite app_nil_r in Ec. by rewrite Ec.
Qed.

Lemma drain_drains m : forall w chunks,
  inv w -> (ended w = None \/ drained w) -> (total w <= m)%nat -> (m <= length chunks)%nat ->
  exists w', drain chunks w = Some w' /\ drained w' /\ committed w' = committed w.
Proof.
  induction m as [|m IH]; intros w chunks H Hd Ht Hlen.
  - assert (drained w) as Hdr by (destruct Hd as [He|?]; [apply idle_drained; [done..|lia]|done]). clear Ht Hlen H Hd.
    revert w Hdr. induction chunks as [|n chunks IH]; intros w Hdr; simpl; [eauto|].
    destruct (pulse_drained n w Hdr) as (w' & E & Hdr' & Ec). rewrite E. destruct (IH _ Hdr') as (w2 & E2 & D2 & C2).
    exists w2. split; [done|]. split; [done|]. congruence.
  - destruct chunks as [|n chunks]; simpl in *; [lia|].
    assert (drained w \/ ended w = None /\ (0 < total w)%nat) as [Hdr|[He Hpos]].
    { destruct Hd as [He|?]; [|by left]. destruct (decide (total w = 0%nat)); [left; by apply idle_drained|right; split; [done|lia]]. }
    + destruct (pulse_drained n w Hdr) as (w' & E & Hdr' & Ec). rewrite E.
      destruct (IH w' chunks) as (w2 & E2 & D2 & C2); [by destruct Hdr'|by right| |lia|].
      * destruct Hdr' as (_ & Ea & Eq & _). unfold total, active_cost. rewrite Ea, Eq. simpl. lia.
      * exists w2. split; [done|]. split; [done|]. congruence.
    + destruct (pulse_works n w H He Hpos) as (C & w' & E & En & Ec & Hlt). destruct (step_keeps _ _ C H) as (w1 & E1 & H1).
      rewrite E in E1 |- *. injection E1 as <-. destruct (IH w' chunks) as (w2 & E2 & D2 & C2); [done|by left|lia|lia|].
      exists w2. split; [done|]. split; [done|]. congruence.
Qed.

(** C21: As long as the pipe accepts at least a byte a write and flushes, the writer finishes
    what was committed within [total] answers, in chunks of whatever sizes: every ticket says
    complete, the pipe holds every publication, nothing more, and only the outstanding
    reservations still hold permits. *)
Theorem committed_publications_complete l w chunks :
  limits_wf l -> reached l w -> ended w = None -> (total w <= length chunks)%nat ->
  exists w', drain chunks w = Some w' /\ committed w' = committed w
    /\ Forall (complete (signals w')) (committed w') /\ pipe w' = concat (concat (map snd (committed w')))
    /\ add_permits (pools w') (held_by (held_entries w')) = budget (limits w').
Proof.
  intros Hl H He Ht. apply reached_inv in H; [|done].
  destruct (drain_drains _ w chunks H (or_introl He) (Nat.le_refl _) Ht) as (w' & E & (Hi & Ea & Eq & [_ _ _ D _ _ P]) & Ec).
  exists w'. split; [done|]. split; [done|]. split; [done|]. split; [simpl in P; by rewrite app_nil_r in P|].
  destruct Hi as [(_ & _ & [_ [B _ _ _ _] _ _ _] & _)|(_ & _ & [_ [B _ _ _ _] _ _ _ _ _])]; [|done].
  unfold active_entries in B. by rewrite Ea, Eq in B.
Qed.

(** ** Concrete runs *)

(** What a writer answered is within what it was offered. *)
Definition within_offer (n : nat) (w : World) : bool :=
  match active w with
  | Some (e, AtWrite) =>
      match current (cursor e) with
      | Some (Some l) => Z.of_nat n <=? Z.of_nat (length l) - byte (progress e)
      | _ => true
      end
  | _ => true
  end.

Lemma within_offer_contract n w : within_offer n w = true -> contract (Written (Ok n)) w.
Proof. unfold within_offer. simpl. intros H e l Ea El. rewrite Ea, El in H. by apply Z.leb_le. Qed.

Definition contracted (a : Input) (w : World) : bool :=
  match a with
  | Reserve cycles => forallb (fun c => 0 <=? repetitions c) cycles
  | Written (Ok n) => within_offer n w
  | _ => true
  end.

Lemma contracted_contract a w : contracted a w = true -> contract a w.
Proof.
  destruct a as [cycles| | | | | |[n|f]|answer|]; try done.
  - simpl. rewrite forallb_forall. intros H. apply Forall_forall. intros c Hc. apply Z.leb_le, H. by apply list_elem_of_In.
  - apply within_offer_contract.
Qed.

Fixpoint run_contracted (inputs : list Input) (w : World) : option World :=
  match inputs with
  | [] => Some w
  | a :: inputs =>
      if contracted a w then match step a w with Some w => run_contracted inputs w | None => None end else None
  end.

Lemma run_reaches l inputs : forall w w', reached l w -> run_contracted inputs w = Some w' -> reached l w'.
Proof.
  induction inputs as [|a inputs IH]; intros w w' H E; simpl in *; [by injection E as <-|].
  destruct (contracted a w) eqn:C; [|done]. apply contracted_contract in C.
  destruct (step a w) as [w1|] eqn:E1; [|done]. apply (IH w1); [|done].
  by apply (reached_step _ a w).
Qed.
End Publication.
