(* ===== verification/StdioInput.v ===== *)
(** * Framing of standard input

    [native/src/stdio_input.rs]: a frame is a line with its newline, read from whatever pieces the
    reader has, kept in the owner when the call that was reading it is cancelled.  The reader is
    given by what it answers; frames do not depend on how the bytes were cut, and reading back what
    [StdioOutput] writes gives its frames. *)
From S2P Require Import Prelude Json Serde StdioOutput StdioPublication.

Definition MAX_FRAME_BYTES : Z := 8 * 1024 * 1024.

(** What [fill_buf] finds: bytes not consumed yet, an error, or a wait in which the call is dropped *)
Inductive Fill : Type := Available (bytes : list Z) | Broken | Cancelled.

Record Frames := { reader : list Fill; pending : list Z }.

Inductive Next : Type := Frame (bytes : list Z) | Ended | TooLarge | ReaderFailed | Dropped.

Definition is_newline (b : Z) : bool := b =? 10.

(** [AsyncBufRead::consume] *)
Definition consume (count : nat) (available : list Z) (rest : list Fill) : list Fill :=
  match drop count available with [] => rest | rem => Available rem :: rest end.

Fixpoint next_from (reader : list Fill) (pending : list Z) : Next * Frames :=
  let ended :=
    match pending with
    | [] => (Ended, {| reader := reader; pending := [] |})
    | _ => (Frame pending, {| reader := reader; pending := [] |})
    end in
  match reader with
  | [] | Available [] :: _ => ended
  | Broken :: rest => (ReaderFailed, {| reader := rest; pending := pending |})
  | Cancelled :: rest => (Dropped, {| reader := rest; pending := pending |})
  | Available available :: rest =>
      let newline := position is_newline available in
      let count := match newline with Some offset => S offset | None => length available end in
      if MAX_FRAME_BYTES <? Z.of_nat (length pending + count) then
        (TooLarge, {| reader := reader; pending := pending |})
      else
        match newline with
        | Some _ => (Frame (pending ++ take count available), {| reader := consume count available rest; pending := [] |})
        | None => next_from rest (pending ++ available)
        end
  end.

Definition new (reader : list Fill) : Frames := {| reader := reader; pending := [] |}.

Definition next (f : Frames) : Next * Frames := next_from (reader f) (pending f).

(** A caller that reads to the end, and calls again when a call was dropped *)
Fixpoint read_all (calls : nat) (f : Frames) : list (list Z) * Next :=
  match calls with
  | O => ([], Dropped)
  | S calls =>
      match next f with
      | (Frame bytes, f) => let '(frames, e) := read_all calls f in (bytes :: frames, e)
      | (Dropped, f) => read_all calls f
      | (e, _) => ([], e)
      end
  end.

(** ** One byte at a time *)

Fixpoint frames_in (acc bytes : list Z) : list (list Z) * Next :=
  match bytes with
  | [] => (match acc with [] => [] | _ => [acc] end, Ended)
  | b :: bytes =>
      let acc := acc ++ [b] in
      if MAX_FRAME_BYTES <? Z.of_nat (length acc) then ([], TooLarge)
      else if b =? 10 then let '(frames, e) := frames_in [] bytes in (acc :: frames, e)
      else frames_in acc bytes
  end.

Definition bytes_of (f : Fill) : list Z := match f with Available bytes => bytes | _ => [] end.

(** A reader that does not fail; nothing but the end of the input has no bytes. *)
Definition healthy (f : Fill) : Prop := match f with Available bytes => bytes <> [] | Broken => False | Cancelled => True end.

Definition content (reader : list Fill) : list Z := concat (map bytes_of reader).

Lemma no_newline l : forallb (fun b => negb (is_newline b)) l = true -> 10 ∉ l.
Proof. rewrite forallb_forall. intros H Hi. apply list_elem_of_In in Hi. by specialize (H 10 Hi). Qed.

Lemma newline_None bytes : position is_newline bytes = None -> 10 ∉ bytes.
Proof. intros H. by apply no_newline, position_None. Qed.

Lemma newline_Some bytes n :
  position is_newline bytes = Some n -> 10 ∉ take n bytes /\ exists rest, drop n bytes = 10 :: rest.
Proof.
  intros (pre & b & rest & -> & <- & Hp & Hb)%position_Some. apply Z.eqb_eq in Hb as ->.
  rewrite take_app_length, drop_app_length. split; [by apply no_newline|eauto].
Qed.

(** Bytes without a newline only accumulate, up to the bound. *)
Lemma frames_in_app acc a bytes :
  10 ∉ a ->
  frames_in acc (a ++ bytes) =
    if (MAX_FRAME_BYTES <? Z.of_nat (length acc + length a)) && negb (length a =? 0)%nat then ([], TooLarge)
    else frames_in (acc ++ a) bytes.
Proof.
  revert acc. induction a as [|b a IH]; intros acc H; [by rewrite app_nil_r, andb_false_r|]. simpl.
  rewrite not_elem_of_cons in H. destruct H as [Hb Ha]. destruct (Z.eqb_spec b 10); [done|]. rewrite IH by done.
  rewrite length_app, <- app_assoc. simpl. rewrite andb_true_r.
  replace (length acc + 1 + length a)%nat with (length acc + S (length a))%nat by lia.
  destruct (Z.ltb_spec MAX_FRAME_BYTES (Z.of_nat (length acc + 1))) as [H1|H1];
    destruct (Z.ltb_spec MAX_FRAME_BYTES (Z.of_nat (length acc + S (length a)))) as [H2|H2]; try done; [lia|].
  destruct a; [simpl in H2; lia|done].
Qed.

Lemma consume_content count available rest : content (consume count available rest) = drop count available ++ content rest.
Proof. unfold consume. by destruct (drop count available). Qed.

Lemma consume_healthy count available rest : Forall healthy rest -> Forall healthy (consume count available rest).
Proof. intros H. unfold consume. destruct (drop count available); [done|]. by constructor. Qed.

Definition owed (reader : list Fill) : nat := length (content reader) + length reader.

(** What a call does, in the terms of the bytes it has *)
Lemma next_exact reader : forall pending,
  Forall healthy reader -> Z.of_nat (length pending) <= MAX_FRAME_BYTES ->
  match next_from reader pending with
  | (Frame f, s) =>
      Forall healthy (StdioInput.reader s) /\ StdioInput.pending s = []
      /\ (owed (StdioInput.reader s) < owed reader + length pending)%nat
      /\ frames_in pending (content reader)
         = (let '(frames, e) := frames_in [] (content (StdioInput.reader s)) in (f :: frames, e))
  | (Dropped, s) =>
      Forall healthy (StdioInput.reader s) /\ Z.of_nat (length (StdioInput.pending s)) <= MAX_FRAME_BYTES
      /\ (owed (StdioInput.reader s) + length (StdioInput.pending s) < owed reader + length pending)%nat
      /\ frames_in pending (content reader) = frames_in (StdioInput.pending s) (content (StdioInput.reader s))
  | (e, _) => frames_in pending (content reader) = ([], e)
  end.
Proof.
  induction reader as [|[available| |] rest IH]; intros pending H Hp.
  - simpl. destruct pending; [done|]. simpl. repeat split; try done. unfold owed. simpl. lia.
  - apply Forall_cons in H as [Hne Hr]. simpl in Hne. destruct available as [|b available]; [done|].
    set (av := b :: available) in *. cbn [next_from]. fold av. change (match av with [] => _ | _ => ?x end) with x. clearbody av.
    change (content (Available av :: rest)) with (av ++ content rest). destruct (position is_newline av) as [n|] eqn:E.
    + apply newline_Some in E as [Hn [tl Htl]].
      assert (av = take n av ++ 10 :: tl) as Eav by (by rewrite <- Htl, take_drop).
      assert (length (take n av) = n) as Hlen.
      { apply length_take_le. pose proof (f_equal length Htl) as L. rewrite length_drop in L. simpl in L. lia. }
      assert (take (S n) av = take n av ++ [10]) as Et.
      { apply take_S_r. rewrite <- (Nat.add_0_r n) at 1. rewrite <- lookup_drop, Htl. done. }
      assert (drop (S n) av = tl) as Ed by (rewrite <- (Nat.add_1_r n), <- drop_drop, Htl; done).
      assert (frames_in pending (av ++ content rest) =
        if MAX_FRAME_BYTES <? Z.of_nat (length pending + S n) then ([], TooLarge)
        else let '(frames, e) := frames_in [] (tl ++ content rest) in ((pending ++ take (S n) av) :: frames, e)) as Ef.
      { rewrite Eav at 1. rewrite <- app_assoc, frames_in_app, Hlen, Et by done. simpl. rewrite !length_app, Hlen. simpl.
        replace (length pending + n + 1)%nat with (length pending + S n)%nat by lia. rewrite <- app_assoc.
        destruct (Z.ltb_spec MAX_FRAME_BYTES (Z.of_nat (length pending + n)));
          destruct (Z.ltb_spec MAX_FRAME_BYTES (Z.of_nat (length pending + S n))); try lia; simpl; try done.
        by destruct (n =? 0)%nat. }
      destruct (Z.ltb_spec MAX_FRAME_BYTES (Z.of_nat (length pending + S n))); [done|].
      cbn [StdioInput.reader StdioInput.pending]. rewrite consume_content, Ed. split; [by apply consume_healthy|]. split; [done|]. split; [|done].
      unfold owed. rewrite consume_content, Ed. change (content (Available av :: rest)) with (av ++ content rest).
      rewrite Eav, !length_app in *. unfold consume. rewrite Ed. destruct tl; simpl; lia.
    + apply newline_None in E. rewrite frames_in_app by done.
      assert (length av =? 0 = false)%nat as -> by (by destruct av). rewrite andb_true_r.
      destruct (Z.ltb_spec MAX_FRAME_BYTES (Z.of_nat (length pending + length av))); simpl; [done|].
      specialize (IH (pending ++ av) Hr). rewrite length_app in IH. specialize (IH ltac:(lia)).
      assert (owed (Available av :: rest) = owed rest + length av + 1)%nat as Eo.
      { unfold owed, content. simpl. rewrite length_app. lia. }
      rewrite Eo. destruct (next_from rest (pending ++ av)) as [[f| | | |] s]; try done.
      * destruct IH as (I1 & I2 & I3 & I4). repeat split; try done. lia.
      * destruct IH as (I1 & I2 & I3 & I4). repeat split; try done. lia.
  - by apply Forall_cons in H as [[] _].
  - apply Forall_cons in H as [_ Hr]. simpl. repeat split; try done. unfold owed, content. simpl. lia.
Qed.

Lemma read_all_exact calls : forall f,
  Forall healthy (reader f) -> Z.of_nat (length (pending f)) <= MAX_FRAME_BYTES ->
  (owed (reader f) + length (pending f) < calls)%nat ->
  read_all calls f = frames_in (pending f) (content (reader f)).
Proof.
  induction calls as [|calls IH]; intros f H Hp Hc; [lia|]. simpl. unfold next.
  pose proof (next_exact (reader f) (pending f) H Hp) as E.
  destruct (next_from (reader f) (pending f)) as [[bytes| | | |] s]; try done.
  - destruct E as (E1 & E2 & E3 & ->). rewrite IH; [by rewrite E2|done|rewrite E2; simpl; lia|rewrite E2; simpl; lia].
  - destruct E as (E1 & E2 & E3 & ->). apply IH; [done|done|lia].
Qed.

(** What the caller gets does not depend on how the input was cut into pieces nor on which
    calls were dropped: it is the frames of the bytes, taken one at a time, the last one without
    its newline where the input ends so, and the refusal of the first frame over the limit. *)
Theorem framing_ignores_the_cuts r calls :
  Forall healthy r -> (owed r < calls)%nat -> read_all calls (new r) = frames_in [] (content r).
Proof. intros H Hc. apply read_all_exact; simpl; [done|done|lia]. Qed.

(** ** Round trip *)

Lemma frames_in_frame t bytes :
  10 ∉ t -> Z.of_nat (length t) + 1 <= MAX_FRAME_BYTES ->
  frames_in [] ((t ++ [10]) ++ bytes) = (let '(frames, e) := frames_in [] bytes in ((t ++ [10]) :: frames, e)).
Proof.
  intros H Hl. rewrite <- app_assoc, frames_in_app by done. simpl length. destruct (Z.ltb_spec MAX_FRAME_BYTES (Z.of_nat (0 + length t))); [lia|].
  simpl. rewrite length_app. simpl. destruct (Z.ltb_spec MAX_FRAME_BYTES (Z.of_nat (length t + 1))); [lia|done].
Qed.

Section RoundTrip.
Context {Codec : SerdeJson}.

(** JSON text has no raw control characters. *)
Hypothesis text_is_one_line : forall v, 10 ∉ to_vec v.

Lemma frames_in_lines fs :
  Forall is_line fs -> Forall (fun f => Z.of_nat (length f) <= MAX_FRAME_BYTES) fs -> frames_in [] (concat fs) = (fs, Ended).
Proof.
  induction fs as [|f fs IH]; [done|]. intros [[v ->] Hs]%Forall_cons [Hl Hm]%Forall_cons. simpl. unfold line_of in *.
  rewrite length_app in Hl. simpl in Hl. rewrite frames_in_frame; [by rewrite IH|apply text_is_one_line|lia].
Qed.

(** C22: A reader of the pipe with this framing gets, once the writer is done, exactly the
    committed publications, frame by frame and in order, however the bytes arrive. *)
Theorem reader_gets_the_publications l w chunks w' r calls :
  limits_wf l -> reached l w -> ended w = None -> (total w <= length chunks)%nat -> drain chunks w = Some w' ->
  Forall (fun c => Forall (fun f => Z.of_nat (length f) <= MAX_FRAME_BYTES) (snd c)) (committed w) ->
  Forall healthy r -> content r = pipe w' -> (owed r < calls)%nat ->
  read_all calls (new r) = (concat (map snd (committed w)), Ended).
Proof.
  intros Hl Hw He Ht Hd Hm Hr Hc Ho. apply reached_inv in Hw; [|done].
  destruct (drain_drains _ w chunks Hw (or_introl He) (Nat.le_refl _) Ht) as (w2 & E & (_ & _ & _ & [_ _ Ln _ _ _ P]) & Ec).
  rewrite Hd in E. injection E as <-. simpl in P. rewrite app_nil_r, Ec in P. rewrite Ec in Ln.
  rewrite read_all_exact; simpl; [|done|done|lia]. rewrite Hc, P.
  apply frames_in_lines; apply Forall_concat, Forall_map; [exact Ln|exact Hm].
Qed.
End RoundTrip.
