(* ===== verification/Sample.v ===== *)
(** * A concrete world

    Instances of the parameters of the model, for the concrete runs of the other files: a
    self-delimiting byte codec with the law [SerdeJson] asks for, a constant digest, a
    file system on which nothing fails, and stores on it. *)
From S2P Require Import Prelude Json Serde ReceiptFields PhaseMachine Filesystem Store Publication StoredReceipt OperationView Reading Backend Refinement Healthy.

(** ** A codec *)

Fixpoint enc_string (s : string) : list Z :=
  match s with
  | EmptyString => [0]
  | String a s => 1 :: byte_of a :: enc_string s
  end.

Fixpoint dec_string (l : list Z) : option (string * list Z) :=
  match l with
  | 0 :: r => Some (EmptyString, r)
  | 1 :: b :: r =>
      match dec_string r with
      | Some (s, r) => Some (String (Ascii.ascii_of_N (Z.to_N b)) s, r)
      | None => None
      end
  | _ => None
  end.

Fixpoint enc_pos (p : positive) : list Z :=
  match p with
  | xH => [0]
  | xO p => 1 :: enc_pos p
  | xI p => 2 :: enc_pos p
  end.

Fixpoint dec_pos (l : list Z) : option (positive * list Z) :=
  match l with
  | 0 :: r => Some (xH, r)
  | 1 :: r => match dec_pos r with Some (p, r) => Some (xO p, r) | None => None end
  | 2 :: r => match dec_pos r with Some (p, r) => Some (xI p, r) | None => None end
  | _ => None
  end.

Definition enc_Z (z : Z) : list Z :=
  match z with
  | Z0 => [0]
  | Zpos p => 1 :: enc_pos p
  | Zneg p => 2 :: enc_pos p
  end.

Definition dec_Z (l : list Z) : option (Z * list Z) :=
  match l with
  | 0 :: r => Some (Z0, r)
  | 1 :: r => match dec_pos r with Some (p, r) => Some (Zpos p, r) | None => None end
  | 2 :: r => match dec_pos r with Some (p, r) => Some (Zneg p, r) | None => None end
  | _ => None
  end.

Fixpoint enc (v : Value) : list Z :=
  match v with
  | Null => [10]
  | Bool false => [11]
  | Bool true => [12]
  | Num (PosInt n) => 13 :: enc_Z n
  | Num (NegInt n) => 14 :: enc_Z n
  | Num (Float _) => [15]
  | Str s => 16 :: enc_string s
  | Array vs => 17 :: flat_map enc vs ++ [19]
  | Object fields => 18 :: flat_map (fun '(k, v) => enc_string k ++ enc v) fields ++ [19]
  end.

Fixpoint dec (n : nat) (l : list Z) : option (Value * list Z) :=
  match n with
  | O => None
  | S n =>
      match l with
      | 10 :: r => Some (Null, r)
      | 11 :: r => Some (Bool false, r)
      | 12 :: r => Some (Bool true, r)
      | 13 :: r => match dec_Z r with Some (z, r) => Some (Num (PosInt z), r) | None => None end
      | 14 :: r => match dec_Z r with Some (z, r) => Some (Num (NegInt z), r) | None => None end
      | 16 :: r => match dec_string r with Some (s, r) => Some (Str s, r) | None => None end
      | 17 :: r => match dec_items n r with Some (vs, r) => Some (Array vs, r) | None => None end
      | 18 :: r => match dec_fields n r with Some (fs, r) => Some (Object fs, r) | None => None end
      | _ => None
      end
  end
with dec_items (n : nat) (l : list Z) : option (list Value * list Z) :=
  match n with
  | O => None
  | S n =>
      match l with
      | 19 :: r => Some ([], r)
      | _ =>
          match dec n l with
          | Some (v, r) =>
              match dec_items n r with Some (vs, r) => Some (v :: vs, r) | None => None end
          | None => None
          end
      end
  end
with dec_fields (n : nat) (l : list Z) : option (list (string * Value) * list Z) :=
  match n with
  | O => None
  | S n =>
      match l with
      | 19 :: r => Some ([], r)
      | _ =>
          match dec_string l with
          | Some (k, r) =>
              match dec n r with
              | Some (v, r) =>
                  match dec_fields n r with Some (fs, r) => Some ((k, v) :: fs, r) | None => None end
              | None => None
              end
          | None => None
          end
      end
  end.

Lemma dec_enc_string s r : dec_string (enc_string s ++ r) = Some (s, r).
Proof.
  induction s as [|a s IH]; simpl; [done|]. rewrite IH. repeat f_equal.
  unfold byte_of. by rewrite N2Z.id, Ascii.ascii_N_embedding.
Qed.

Lemma dec_enc_pos p r : dec_pos (enc_pos p ++ r) = Some (p, r).
Proof. induction p as [p IH|p IH|]; simpl; rewrite ?IH; done. Qed.

Lemma dec_enc_Z z r : dec_Z (enc_Z z ++ r) = Some (z, r).
Proof. destruct z; simpl; rewrite ?dec_enc_pos; done. Qed.

(** Induction on values, through the lists of arrays and objects *)
Lemma value_ind (P : Value -> Prop) :
  P Null -> (forall b, P (Bool b)) -> (forall n, P (Num n)) -> (forall s, P (Str s)) ->
  (forall vs, Forall P vs -> P (Array vs)) ->
  (forall fs, Forall (fun kv => P (snd kv)) fs -> P (Object fs)) -> forall v, P v.
Proof.
  intros H1 H2 H3 H4 H5 H6. fix IH 1. intros [|b|n|s|vs|fs].
  - exact H1.
  - apply H2.
  - apply H3.
  - apply H4.
  - apply H5. revert vs. fix IHvs 1. intros [|v vs]; constructor; [apply IH|apply IHvs].
  - apply H6. revert fs. fix IHfs 1. intros [|[k v] fs]; constructor; [apply IH|apply IHfs].
Qed.

Lemma enc_head v : exists t r, enc v = t :: r /\ 10 <= t <= 18.
Proof. destruct v as [|[]|[]| | |]; simpl; eexists _, _; (split; [reflexivity|lia]). Qed.

Lemma enc_nonempty v : (1 <= length (enc v))%nat.
Proof. destruct (enc_head v) as (t & r & -> & _). simpl. lia. Qed.

Definition decodes (v : Value) : Prop :=
  canonical v = true -> forall n r, (length (enc v) <= n)%nat -> dec n (enc v ++ r) = Some (v, r).

Lemma dec_items_step n l :
  (forall r, l <> 19 :: r) ->
  dec_items (S n) l =
  match dec n l with
  | Some (v, r) => match dec_items n r with Some (vs, r) => Some (v :: vs, r) | None => None end
  | None => None
  end.
Proof. intros Hl. destruct l as [|z l]; [done|]. simpl. repeat case_match; try done; subst; by destruct (Hl l). Qed.

Lemma dec_fields_step n l :
  (forall r, l <> 19 :: r) ->
  dec_fields (S n) l =
  match dec_string l with
  | Some (k, r) =>
      match dec n r with
      | Some (v, r) => match dec_fields n r with Some (fs, r) => Some ((k, v) :: fs, r) | None => None end
      | None => None
      end
  | None => None
  end.
Proof. intros Hl. destruct l as [|z l]; [done|]. simpl. repeat case_match; try done; subst; by destruct (Hl l). Qed.

Lemma dec_items_enc vs :
  Forall decodes vs -> forallb canonical vs = true -> forall n r,
  (length (flat_map enc vs) < n)%nat -> dec_items n (flat_map enc vs ++ 19 :: r) = Some (vs, r).
Proof.
  induction 1 as [|v vs Hv Hvs IH]; intros Hc n r Hn.
  { destruct n; [simpl in Hn; lia|done]. }
  apply andb_true_iff in Hc as [Hc1 Hc2]. destruct n as [|n]; [lia|]. cbn [flat_map] in *.
  rewrite length_app in Hn. destruct (enc_head v) as (t & x & Ht & Hr).
  rewrite dec_items_step.
  2: { intros q. rewrite Ht. simpl. intros [= -> _]. lia. }
  assert (1 <= length (enc v))%nat by (rewrite Ht; simpl; lia).
  rewrite <- app_assoc, Hv by (done || lia). by rewrite IH by (done || lia).
Qed.

Lemma dec_fields_enc fs :
  Forall (fun kv => decodes (snd kv)) fs -> forallb (fun '(_, v) => canonical v) fs = true ->
  forall n r, (length (flat_map (fun '(k, v) => enc_string k ++ enc v) fs) < n)%nat ->
  dec_fields n (flat_map (fun '(k, v) => enc_string k ++ enc v) fs ++ 19 :: r) = Some (fs, r).
Proof.
  induction 1 as [|[k v] fs Hv Hvs IH]; intros Hc n r Hn.
  { destruct n; [simpl in Hn; lia|done]. }
  apply andb_true_iff in Hc as [Hc1 Hc2]. destruct n as [|n]; [lia|]. cbn [flat_map] in *.
  rewrite !length_app in Hn. rewrite dec_fields_step.
  2: { intros q. destruct k; simpl; by intros [=]. }
  assert (1 <= length (enc_string k))%nat by (destruct k; simpl; lia).
  rewrite <- !app_assoc, dec_enc_string, Hv by (done || (simpl; lia)).
  by rewrite IH by (done || lia).
Qed.

Lemma dec_enc v : decodes v.
Proof.
  induction v as [|b|m|s|vs IH|fs IH] using value_ind; intros Hc n r Hn;
    (destruct n as [|n]; [exfalso; eapply Nat.nle_succ_0; etrans; [apply enc_nonempty|exact Hn]|]).
  - done.
  - by destruct b.
  - destruct m; simpl in *; [by rewrite dec_enc_Z..|done].
  - simpl. by rewrite dec_enc_string.
  - cbn [enc]. simpl in Hn |- *. rewrite <- app_assoc. rewrite length_app in Hn. simpl in Hn. cbn [app].
    by rewrite dec_items_enc by (done || lia).
  - cbn [enc]. simpl in Hn |- *. rewrite <- app_assoc. rewrite length_app in Hn. simpl in Hn. cbn [app].
    apply andb_true_iff in Hc as [_ Hc]. by rewrite dec_fields_enc by (done || lia).
Qed.

#[export] Instance sample_codec : SerdeJson.
Proof.
  refine {| to_vec := enc;
            from_slice := fun l => match dec (length l) l with Some (v, []) => Some v | _ => None end |}.
  intros v Hv. pose proof (dec_enc v Hv (length (enc v)) [] (le_n _)) as Hd.
  rewrite app_nil_r in Hd. by rewrite Hd.
Defined.

(** ** A digest and a file system *)

#[export] Instance sample_sha : Sha256.
Proof.
  refine {| hash := fun _ =>
    "00000000000000000000000000000000000000000000000000000000000000ff"%string |}.
  reflexivity.
Defined.

(** No call fails, nothing else runs, directories are listed in the order of their names. *)
#[export] Instance sample_environment : Environment.
Proof.
  refine {| interfere := fun _ fs => fs; fault := fun _ => None; listing := fun _ l => l;
            process_id := 7 |}.
  reflexivity.
Defined.

#[export] Instance sample_healthy : Healthy.
Proof. by split. Qed.

Lemma sample_owned d : owned d.
Proof. by intros t fs. Qed.

Definition sample_private d : private d := owned_private d (sample_owned d).

Definition a_directory : Inode :=
  {| i_kind := Directory; i_mode := 448; i_nlink := 2; i_data := []; i_modified := 0 |}.

Definition sample_fs : Fs :=
  {| names := {[ [] := (1, 1); ["state"] := (1, 2); ["state"; "operation-receipts"] := (1, 3) ]};
     inodes := {[ (1, 1) := a_directory; (1, 2) := a_directory; (1, 3) := a_directory ]};
     now := 0 |}.

Definition sample_root : Path := {| absolute := true; parts := ["state"] |}.

Definition sample_dir : list string := ["state"; "operation-receipts"].

Definition sample_state : State :=
  {| world := {| tick := 0; disk := sample_fs |};
     backend := unopened sample_root "ws://127.0.0.1:4455" |}.

Definition sample_id : string := "00000000-0000-4000-8000-000000000001".
Definition sample_utc : string := "2024-01-01T00:00:00.000Z".

(** A state after a run of the store *)
Definition then_run (op : Op) (s : State) : State := snd (run_op op s).
