(* ===== verification/HttpSample.v ===== *)
(** * HTTP requests and notifications in which the theorems' hypotheses hold *)
From S2P Require Import Prelude Json Text Serde HttpProtocol HttpHead Sample.
From S2P Require ResourceEvents.

#[export] Instance sample_http : HttpLibs := {
  json_parse bytes := match from_slice bytes with Some v => Ok v | None => Err OtherFailure end;
  json_span _ := Some 1%nat;
  base64_decode _ := None;
  base64_encode _ := EmptyString
}.

#[export] Instance sample_head : HeadLibs := {
  httparse bytes := HpComplete (length bytes) (Some "POST") (Some "/mcp?client=deck")
    [("Host", bytes_of "localhost"); ("Content-Length", bytes_of "2");
     ("Accept", bytes_of "application/json"); ("accept", bytes_of " text/event-stream")];
  parse_authority s := Some {| au_host := s; au_port := None; au_port_u16 := None |};
  parse_uri _ := None
}.

Module HttpSample.
Definition envelope : Value :=
  object_of [(VERSION, str MODERN); (CAPABILITIES, object_of [])].

Definition call (name : string) : Value :=
  object_of [("jsonrpc", str "2.0"); ("id", num 1); ("method", str "tools/call");
             ("params", object_of [("name", str name); ("_meta", envelope)])].

Definition request (mcp_name : string) : RequestHead :=
  {| method := "POST"; target := "/mcp";
     headers := [("Host", "localhost:3000"); ("Origin", "http://127.0.0.1"); ("Authorization", "Bearer secret");
                 ("Content-Type", "application/json; charset=utf-8");
                 ("MCP-Protocol-Version", MODERN); ("Mcp-Method", "tools/call"); ("Mcp-Name", mcp_name)] |}.

Definition body : list Z := to_vec (call "obs-get-status").

Definition exchange : Exchange :=
  {| original_body := body; message := call "obs-get-status"; era := Modern; mode := ModeJson;
     declared := None |}.

Definition batch : Exchange :=
  {| original_body := bytes_of " [1 , 2]"; message := Array [num 1; num 2]; era := Legacy;
     mode := ModeSse; declared := Some "deck"%string |}.
End HttpSample.

Lemma sample_admitted :
  admit_request (HttpSample.request "obs-get-status") HttpSample.body (policy_new (Some "secret"%string))
  = Some (Exchanged HttpSample.exchange).
Proof. vm_compute. reflexivity. Qed.

(** A request that any permitted client can send: the slice of its [Mcp-Name] header starts after
    it ends. *)
Example empty_sentinel_panics :
  admit_request (HttpSample.request empty_sentinel) HttpSample.body (policy_new (Some "secret"%string)) = None.
Proof. vm_compute. reflexivity. Qed.

Lemma exchange_is_authorized_witness :
  head_admitted (HttpSample.request "obs-get-status") (Some "secret"%string)
  /\ Z.of_nat (length HttpSample.body) <= MAX_BODY_BYTES
  /\ original_body HttpSample.exchange = HttpSample.body
  /\ json_parse HttpSample.body = Ok (message HttpSample.exchange).
Proof.
  apply (exchange_is_authorized (HttpSample.request "obs-get-status") HttpSample.body
    (Some "secret"%string) HttpSample.exchange). exact sample_admitted.
Defined.

Lemma request_texts name : valid_utf8 name = true -> texts (HttpSample.request name).
Proof. intros H. unfold texts. repeat (constructor; [done || by vm_compute|]). constructor. Qed.

Lemma admit_panics_only_on_empty_sentinel_witness :
  header (HttpSample.request empty_sentinel) "mcp-name" = Some empty_sentinel.
Proof.
  apply (admit_panics_only_on_empty_sentinel (HttpSample.request empty_sentinel) HttpSample.body
    (policy_new (Some "secret"%string))); [exact (request_texts empty_sentinel eq_refl)|exact empty_sentinel_panics].
Defined.

Lemma modern_request_agrees_witness :
  header (HttpSample.request "obs-get-status") "mcp-protocol-version" = Some MODERN
  /\ agrees (header (HttpSample.request "obs-get-status") "mcp-method")
       (get "method" (message HttpSample.exchange) >>? as_str).
Proof.
  pose proof (modern_request_agrees (HttpSample.request "obs-get-status") HttpSample.body
    (policy_new (Some "secret"%string)) HttpSample.exchange sample_admitted eq_refl) as H.
  destruct H as (_ & H1 & H2 & _); [discriminate|]. split; [exact H1|exact H2].
Defined.

Lemma batch_split_exact_witness :
  exists ys, into_items HttpSample.batch = Ok ys
  /\ Forall2 (item_of Legacy (Some "deck"%string)) ys [num 1; num 2].
Proof.
  destruct (into_items HttpSample.batch) as [ys|] eqn:E; [|vm_compute in E; discriminate].
  exists ys. split; [reflexivity|].
  exact (proj1 (batch_split_exact HttpSample.batch [num 1; num 2] ys E eq_refl)).
Defined.

Lemma declared_client_is_plain_witness :
  "deck"%string <> EmptyString /\ str_len "deck" <= 64 /\ forallb client_byte (bytes_of "deck") = true.
Proof. apply (declared_client_is_plain "/mcp?client=%64eck"). reflexivity. Defined.

Lemma complete_head_is_unambiguous_witness :
  exists h, parse (bytes_of "POST") = Complete h /\ framed (bytes_of "POST") h.
Proof.
  destruct (parse (bytes_of "POST")) as [|h|] eqn:E; [vm_compute in E; discriminate| |vm_compute in E; discriminate].
  exists h. split; [reflexivity|]. exact (complete_head_is_unambiguous _ h E).
Defined.

(** ** Notifications: a client that listens to the scenes and to the items of one of them *)

Module Notified.
Import ResourceEvents.
Definition filter : Value :=
  object_of [("resourceSubscriptions", Array [str "obs://scenes"; str "obs://scene/Main%201/items"])].

Definition plan : ListenPlan :=
  match plan_listen (num 7) filter true (owner (start false)) with
  | Ok p => p
  | Err _ => {| lp_revision := 0; lp_listener := {| l_id := Null; l_tools := false; l_list := false;
                l_uris := []; l_id_bytes := 0; l_uri_bytes := 0 |}; lp_prior := None; lp_honored := Null |}
  end.

Definition listening : World :=
  steps [PlanListen (num 7) filter true; CommitListen 0] (start false).

Definition removed : Origin := Obs "SceneRemoved" (object_of [("sceneName", str "Main 1")]).

Definition renamed : Origin :=
  Obs "SceneNameChanged" (object_of [("oldSceneName", str "Main 1"); ("sceneName", str "Main 2")]).

Definition sink_lost : World := steps [DropSink; Publish renamed] (
  steps [Bind; PlanListen (num 7) filter true; CommitListen 0] (start false)).
End Notified.

Example renamed_is_sent :
  map ResourceEvents.b_deliveries (ResourceEvents.queue (ResourceEvents.publish Notified.renamed
    (ResourceEvents.owner Notified.listening)))
  = [[{| ResourceEvents.d_change := ResourceEvents.Updated "obs://scenes";
         ResourceEvents.d_audiences := [Some (num 7)] |};
      {| ResourceEvents.d_change := ResourceEvents.Updated "obs://scene/Main%201/items";
         ResourceEvents.d_audiences := [Some (num 7)] |}]].
Proof. vm_compute. reflexivity. Qed.

Lemma commit_is_as_planned_witness :
  fst (ResourceEvents.commit_listen Notified.plan (ResourceEvents.owner
    (ResourceEvents.steps [ResourceEvents.SetLegacy true] (ResourceEvents.start false)))) <> Ok tt
  /\ snd (ResourceEvents.commit_listen Notified.plan (ResourceEvents.owner
       (ResourceEvents.steps [ResourceEvents.SetLegacy true] (ResourceEvents.start false))))
     = ResourceEvents.owner (ResourceEvents.steps [ResourceEvents.SetLegacy true] (ResourceEvents.start false)).
Proof.
  split; [vm_compute; discriminate|].
  apply (ResourceEvents.commit_is_as_planned (num 7) Notified.filter true Notified.plan
    [ResourceEvents.SetLegacy true] (ResourceEvents.start false)); vm_compute; [reflexivity|discriminate].
Defined.

Lemma publish_exact_witness :
  ResourceEvents.sends (ResourceEvents.owner Notified.listening)
    (ResourceEvents.publish Notified.renamed (ResourceEvents.owner Notified.listening))
    [{| ResourceEvents.d_change := ResourceEvents.Updated "obs://scenes";
        ResourceEvents.d_audiences := [Some (num 7)] |};
     {| ResourceEvents.d_change := ResourceEvents.Updated "obs://scene/Main%201/items";
        ResourceEvents.d_audiences := [Some (num 7)] |}].
Proof.
  apply (ResourceEvents.publish_exact Notified.renamed
    [ResourceEvents.Updated "obs://status"; ResourceEvents.Updated "obs://scenes"; ResourceEvents.ListChanged;
     ResourceEvents.Updated "obs://scene/Main%201/items"]
    (ResourceEvents.owner Notified.listening)); vm_compute; reflexivity.
Defined.

Lemma failure_is_final_witness :
  ResourceEvents.failure (ResourceEvents.owner (ResourceEvents.steps
    [ResourceEvents.Publish Notified.removed; ResourceEvents.Close] Notified.sink_lost))
  = Some ResourceEvents.Unavailable.
Proof.
  apply (ResourceEvents.failure_is_final ResourceEvents.Unavailable). vm_compute. reflexivity.
Defined.
