(* ===== verification/TakeSample.v ===== *)
(** * A take in which the theorems' hypotheses hold *)
From S2P Require Import Prelude Json Control Number ReceiptFields.
From S2P Require OperationReceipt RecordImpact Stills Monitor.
From S2P Require Import TakeStop TakeStopSafety.

(** Rendering and parsing do not matter here. *)
#[export] Instance sample_floats : F64Library := {
  f64_format := {| f64_display _ := "1"%string; f64_lower_exp _ := "1e0"%string |};
  f64_parse _ := None;
  f64_log10 f := f;
  f64_scientific _ _ := ("1"%string, 0)
}.

(** ** Six pictures, one of them a flash *)

Module StillSample.
Import Stills.
Definition base : list Z := [10; 20; 30].
Definition picture (at_ : Z) (l : list Z) : Frame := {| fr_at := f64_of_Z at_; luma := l |}.
Definition frames : list Frame :=
  [picture 0 base; picture 1 [12; 18; 30]; picture 2 [255; 255; 255]; picture 3 base; picture 4 [10; 21; 33];
   picture 5 base].
End StillSample.

Lemma calm_sample : Stills.calm StillSample.base StillSample.frames.
Proof.
  assert (forall x y z, Stills.near [10; 20; 30] [x; y; z] <-> Z.abs (10 - x) <= 6 /\ Z.abs (20 - y) <= 6 /\ Z.abs (30 - z) <= 6) as Hn.
  { intros x y z. unfold Stills.near. rewrite !Forall2_cons. intuition constructor. }
  intros [|[|[|[|i]]]] f g h Hf Hg Hh; [..|by destruct i as [|[|i]]]; simpl in *; simplify_eq.
  all: unfold Stills.two_of, StillSample.picture, StillSample.base; cbn [Stills.luma]; rewrite !Hn; lia.
Qed.

Lemma still_picture_found_witness :
  Stills.still_since (Stills.pushes StillSample.frames (Stills.tracker_new (f64_of_Z 3))) = Some (f64_of_Z 0).
Proof.
  etransitivity.
  - apply (Stills.still_picture_found (f64_of_Z 3) StillSample.base StillSample.frames
      (StillSample.picture 0 StillSample.base) (StillSample.picture 5 StillSample.base));
      [discriminate|repeat constructor|exact calm_sample|simpl; lia|reflexivity|reflexivity].
  - vm_compute. reflexivity.
Defined.

(** ** A take that is switched to another scene and then stopped *)

Module MonitorSample.
Import Monitor.
Definition ops : list op :=
  [LoadProgramScene (object_of [("sceneName", str "Main")]); CompleteSetup 0 true; BeginSample Picture].
Definition switch : Value := object_of [("sceneName", str "Other")].
Definition fresh : World := start 0 0 "2026-01-01T00:00:00.000Z" default_options.
Definition ticket : SampleTicket := {| t_owner := 0; t_history := 0; t_active := 0; t_kind := Picture |}.
Definition stop : list op := [DropTicket 0; BeginStop 5000; FinishCleanup].
End MonitorSample.

Lemma retired_picture_is_ignored_witness :
  fst (Monitor.finish_sample MonitorSample.ticket 1000 (Monitor.ObsPicture [0; 0])
    (Monitor.core (Monitor.step (Monitor.OnEvent 900 "CurrentProgramSceneChanged" MonitorSample.switch)
                     (Monitor.play MonitorSample.ops MonitorSample.fresh)))) = false.
Proof.
  assert (Monitor.tickets (Monitor.play MonitorSample.ops MonitorSample.fresh) !! 0%nat = Some MonitorSample.ticket)
    as H1 by (vm_compute; reflexivity).
  assert (Monitor.listening (Monitor.core (Monitor.play MonitorSample.ops MonitorSample.fresh)) = true)
    as H2 by (vm_compute; reflexivity).
  exact (f_equal fst (Monitor.retired_picture_is_ignored 0 0 "2026-01-01T00:00:00.000Z" Monitor.default_options
    MonitorSample.ops 0 MonitorSample.ticket 900 "CurrentProgramSceneChanged" MonitorSample.switch []
    H1 eq_refl H2 (or_introl eq_refl) 1000 (Monitor.ObsPicture [0; 0]))).
Defined.

Lemma stopped_monitor_is_final_witness :
  Monitor.now (Monitor.core (Monitor.play [Monitor.Mark 9000 "late"]
    (Monitor.play (MonitorSample.ops ++ MonitorSample.stop) MonitorSample.fresh))) 99999
  = Monitor.now (Monitor.core (Monitor.play (MonitorSample.ops ++ MonitorSample.stop) MonitorSample.fresh)) 9000.
Proof.
  apply (Monitor.stopped_monitor_is_final 0 0 "2026-01-01T00:00:00.000Z" Monitor.default_options
    (MonitorSample.ops ++ MonitorSample.stop) [Monitor.Mark 9000 "late"]).
  vm_compute. discriminate.
Defined.

Example stopped_at_five_seconds :
  Monitor.now (Monitor.core (Monitor.play (MonitorSample.ops ++ MonitorSample.stop) MonitorSample.fresh)) 99999
  = f64_of_Z 5.
Proof. vm_compute. reflexivity. Qed.

(** ** A stop that is rejected once, and then confirmed *)

(** A store that keeps every record it is given *)
#[export] Instance sample_writer : Writer (list OperationReceipt.OperationReceipt) := {
  w_prepare id kind generation utc take s :=
    let r := {| OperationReceipt.version := 1; OperationReceipt.operation_id := id; OperationReceipt.kind := kind;
                OperationReceipt.endpoint_hash := "e"; OperationReceipt.collection_hash := None;
                OperationReceipt.scene_uuid := None; OperationReceipt.stage_id := None; OperationReceipt.take_id := take;
                OperationReceipt.generation := generation; OperationReceipt.created_at := utc;
                OperationReceipt.updated_at := utc; OperationReceipt.phase := OperationReceipt.Prepared;
                OperationReceipt.request_dispatched := Some false; OperationReceipt.request_accepted := None;
                OperationReceipt.postcondition_observed := false;
                OperationReceipt.rendered_composition := "unverified" |} in
    (Ok r, s ++ [r]);
  w_update r u utc s := let r' := OperationReceipt.updated_record r u utc in (Ok r', s ++ [r'])
}.

#[export] Instance sample_writer_laws : WriterLaws (list OperationReceipt.OperationReceipt).
Proof.
  split.
  - intros id kind generation utc take s r s' [= <- _]. done.
  - by intros r u utc s r' s' [= <- _].
Qed.

Module StopSample.
Definition Store : Type := list OperationReceipt.OperationReceipt.

Definition somebody : Policy :=
  {| p_caller := "somebody"; p_confirmation_enabled := false; p_can_elicit := false; p_input_responses := None |}.

(** What [RecordImpactOwner::bind] makes for connection 7 *)
Definition bound : RecordImpact.Inner :=
  {| RecordImpact.token := 7;
     RecordImpact.state := {| RecordImpact.alive := true; RecordImpact.terminal := None; RecordImpact.last_id := 0;
                              RecordImpact.pending := None; RecordImpact.revoked_through := 0;
                              RecordImpact.reason := RecordImpact.ExternalEffect; RecordImpact.revision := 0 |};
     RecordImpact.session_closed := false; RecordImpact.poisoned := false; RecordImpact.owned := true;
     RecordImpact.changed := 0 |}.

Definition empty : World Store :=
  {| registry := bound; borrowed := false; store := []; control := Control.default_domain; takes := [];
     current := None; starting := None; completed := None; closing := false; closed := false; instant := 0;
     epoch_ms := 1000; utc := "2026-01-01T00:00:00.000Z"; next_identity := 0; tasks := []; log := [] |}.

Definition recording : Take :=
  {| impact := 0; blocked_impact := None; id := "take"; expect_silent := false; lock := true; policy := somebody;
     local := false; monitor := Monitor.start 0 1000 "2026-01-01T00:00:00.000Z" Monitor.default_options;
     continuity := {| c_started := true; c_stopped := false; c_lost := None; c_path := None |};
     start_operation := None; stop_operation := None; receipt_unavailable := false; stop_uncertain := false;
     stop_running := false; stop_result := None; last_stop := None; chapter_notes := []; lease_holder := None;
     deadline := None; deadline_fired := false; setup_pending := true; monitor_stop_running := false;
     monitor_summary := None; next_stats := None; next_picture := None; program := None |}.

(** A stop up to its guard, by task [k] *)
Definition asked (k : nat) : list (Input (S := Store)) :=
  [Spawn 0 somebody; Poll k false; StatusAnswer k (Some true)].

Definition stopped : Value :=
  object_of [("outputPath", str "/takes/a.mkv"); ("outputState", str "OBS_WEBSOCKET_OUTPUT_STOPPED")].

Definition rejected : list (Input (S := Store)) :=
  [Start recording; SetupDone 0 None] ++ asked 0 ++ [GuardRuns 0; DispatchReturns 0 (WasRejectedBy "not now")].

Definition confirmed : list (Input (S := Store)) :=
  rejected ++ asked 1
  ++ [GuardRuns 1; DispatchReturns 1 OkAccepted; Observe true "RecordStateChanged" stopped; Poll 1 false;
      StatusAnswer 1 (Some false); StatsAnswer 1 None; Poll 1 false; ObserversJoined 1 (Ok tt)].

Definition identity (n : nat) : string := "00000000-0000-4000-8000-000000000000".
Definition play (inputs : list (Input (S := Store))) : World Store := run 7 identity 5000000000 0 0 inputs empty.

Lemma played inputs : Forall allowed inputs -> reached 7 identity 5000000000 0 0 (play inputs).
Proof. intros H. apply run_reached; [by constructor|done]. Qed.

Lemma fresh_recording : allowed (S := Store) (Start recording).
Proof. repeat split. by eexists _, _, _, _. Qed.
End StopSample.

Lemma stop_never_replayed_witness : In (WasRejected 0) [WasRejected 0].
Proof.
  assert (Forall (allowed (S := StopSample.Store)) StopSample.confirmed) as H
    by (repeat constructor; apply StopSample.fresh_recording).
  assert (log (StopSample.play StopSample.confirmed) = [] ++ [Sent 0] ++ [WasRejected 0] ++ [Sent 0] ++ [])
    as E by (vm_compute; reflexivity).
  exact (stop_never_replayed 7 StopSample.identity 5000000000 0 0 _ 0 [] [WasRejected 0] [] (StopSample.played _ H) E).
Defined.

Lemma stop_sent_under_authority_witness :
  exists t, tasks (StopSample.play (StopSample.rejected ++ StopSample.asked 1)) !! 1%nat = Some t
            /\ authority 0 (by_policy t) (StopSample.play (StopSample.rejected ++ StopSample.asked 1)).
Proof.
  assert (Forall (allowed (S := StopSample.Store)) (StopSample.rejected ++ StopSample.asked 1)) as H
    by (repeat constructor; apply StopSample.fresh_recording).
  assert (log (step 7 StopSample.identity 5000000000 0 0 (GuardRuns 1)
                 (StopSample.play (StopSample.rejected ++ StopSample.asked 1)))
          = log (StopSample.play (StopSample.rejected ++ StopSample.asked 1)) ++ [Sent 0]) as E by (vm_compute; reflexivity).
  destruct (stop_sent_under_authority 7 StopSample.identity 5000000000 0 0 _ (GuardRuns 1) 0 (StopSample.played _ H) E)
    as (k & t & tk & r & Hk & _ & Hp & A & _).
  exists t. split; [|exact A]. destruct k as [|[|k]]; [|exact Hk|].
  - assert (option_map pc (tasks (StopSample.play (StopSample.rejected ++ StopSample.asked 1)) !! 0%nat)
            = Some (Sending false)) as C by (rewrite Hk; simpl; by rewrite Hp). vm_compute in C. discriminate.
  - assert (option_map pc (tasks (StopSample.play (StopSample.rejected ++ StopSample.asked 1)) !! (Datatypes.S (Datatypes.S k)))
            = Some (Sending false)) as C by (rewrite Hk; simpl; by rewrite Hp). vm_compute in C. discriminate.
Defined.

Lemma confirmed_stop_is_true_witness : "/takes/a.mkv"%string <> EmptyString.
Proof.
  assert (Forall (allowed (S := StopSample.Store)) StopSample.confirmed) as H
    by (repeat constructor; apply StopSample.fresh_recording).
  destruct (tasks (StopSample.play StopSample.confirmed) !! 1%nat) as [t|] eqn:Ht; [|vm_compute in Ht; discriminate].
  assert (option_map pc (tasks (StopSample.play StopSample.confirmed) !! 1%nat)
          = Some (Done (Confirmed "/takes/a.mkv" true (Some (StopSample.identity 0))))) as E by (vm_compute; reflexivity).
  rewrite Ht in E. injection E as E.
  destruct (confirmed_stop_is_true 7 StopSample.identity 5000000000 0 0 _ 1 t _ _ _ (StopSample.played _ H) Ht E)
    as (tk & _ & _ & _ & P & _). exact P.
Defined.

Lemma stop_never_panics_witness :
  exists t, tasks (StopSample.play StopSample.confirmed) !! 1%nat = Some t /\ pc t <> Panicked.
Proof.
  assert (Forall (allowed (S := StopSample.Store)) StopSample.confirmed) as H
    by (repeat constructor; apply StopSample.fresh_recording).
  destruct (tasks (StopSample.play StopSample.confirmed) !! 1%nat) as [t|] eqn:Ht; [|vm_compute in Ht; discriminate].
  exists t. split; [reflexivity|].
  exact (proj1 (stop_never_panics 7 StopSample.identity 5000000000 0 0 _ 1 t (StopSample.played _ H) Ht)).
Defined.

(** A stop that OBS rejected leaves a receipt that says it was sent and not accepted; the next
    attempt dispatches the same receipt.  If that attempt is refused before it is sent, the
    receipt cannot be retired, and from then on no stop of the take sends a request any more,
    although none is outstanding. *)
Lemma rejection_then_refusal_locks_the_take :
  let w := StopSample.play (StopSample.rejected ++ StopSample.asked 1
             ++ [DispatchReturns 1 (BeforeDispatch "Control is held")] ++ StopSample.asked 2) in
  outstanding 0 (log w) = Some false /\ stop_uncertain <$> (takes w !! 0%nat) = Some true
  /\ (pc <$> (tasks w !! 2%nat))
     = Some (Done (Uncertain Continuous
         "A prior stop dispatch is unresolved; only observation can reconcile it, and no stop request was replayed"
         (Some (StopSample.identity 0)) false)).
Proof. vm_compute. done. Qed.

(** The caller of a start with a chapter claims control after the chapter was marked.  A stop
    that was confirmed meanwhile has nothing to release, and the lease outlives the take. *)
Lemma lease_outlives_the_take :
  let w := StopSample.play (StopSample.confirmed ++ [Report 0; Spawn 0 StopSample.somebody; Poll 2 false]) in
  current w = None /\ (Control.holder <$> Control.lease (control w)) = Some "somebody"%string
  /\ (pc <$> (tasks w !! 2%nat))
     = Some (Done (Confirmed "/takes/a.mkv" true (Some (StopSample.identity 0)))).
Proof. vm_compute. done. Qed.
