(* ===== verification/StartSample.v ===== *)
(** * A take that is started, and a clip that is refused

    A run of the supervisor in which the hypotheses of the theorems on starts hold, with the
    store that keeps every record of [TakeSample]. *)
From S2P Require Import Prelude Json Control Number ReceiptFields.
From S2P Require OperationReceipt RecordImpact Monitor RecordClip.
From S2P Require Import TakeStop TakeStopSafety TakeStart TakeStartSafety TakeSample.

(** Nothing in the store blocks. *)
#[export] Instance sample_admits : Admits StopSample.Store := { admission_blocks _ := Ok false }.

Module StartSample.
Import StopSample.

Definition empty : StartWorld Store :=
  {| base := StopSample.empty; starts := []; marks := []; clip_shutdown := false; sends := [] |}.

Definition options : StartOptions :=
  {| o_expect_silent := false; o_min_free_disk := f64_of_Z 1024; o_lock := true; o_chapter := Some "opening";
     o_max_duration := Some 60; o_require_verified := true |}.

Definition fine : PreflightReport :=
  {| ready := true; checks := map (fun id => {| ck_id := id; ck_status := Pass; ck_message := "fine" |}) DEMO_REQUIRED_CHECKS |}.

Definition started : Value := object_of [("outputState", str "OBS_WEBSOCKET_OUTPUT_STARTED")].

Definition before : list (StartInput (S := Store)) :=
  [CommandStart options somebody None; CommandClip RecordClip.sample_request somebody false None;
   PollStart 0 false; PreflightAnswer 0 (Some fine)].

(** A start to its take, with a chapter *)
Definition whole : list (StartInput (S := Store)) :=
  before ++
  [StartGuard 0; StartDispatched 0 OkAccepted; Rest (Observe true "RecordStateChanged" started); PollStart 0 false;
   SetupAnswer 0 (Ok {| record_tracks := [1]; input_tracks := ∅; tracks_error := None;
                        program_scene := object_of [("sceneName", str "Main")]; setup_stats := None; supports_ppm := true |});
   MarkGuard 0; MarkDispatched 0 OkAccepted; PollStart 0 false].

Definition play (inputs : list (StartInput (S := Store))) : StartWorld Store :=
  start_run 7 identity 5000000000 0 0 30000000000 10000000000 0 inputs empty.

Lemma start_played inputs : start_reached 7 identity 5000000000 0 0 30000000000 10000000000 0 (play inputs).
Proof. apply start_run_reached. constructor. by split_and!. Qed.
End StartSample.

Lemma starts_refine_supervisor_witness :
  TakeStopSafety.reached 7 StopSample.identity 5000000000 0 0 (base (StartSample.play StartSample.whole))
  /\ current (base (StartSample.play StartSample.whole)) = Some 0%nat.
Proof.
  split; [|vm_compute; reflexivity].
  apply (starts_refine_supervisor 7 StopSample.identity 5000000000 0 0 30000000000 10000000000 0), StartSample.start_played.
Defined.

Lemma start_sent_under_authority_witness :
  exists t, starts (StartSample.play StartSample.before) !! 0%nat = Some t
            /\ start_authority t (StartSample.play StartSample.before).
Proof.
  assert (sends (start_step 7 StopSample.identity 5000000000 0 0 30000000000 10000000000 0 (StartGuard 0)
                   (StartSample.play StartSample.before)) = [0%nat]) as E by (vm_compute; reflexivity).
  assert (sends (StartSample.play StartSample.before) = []) as E0 by (vm_compute; reflexivity).
  destruct (start_sent_under_authority 7 StopSample.identity 5000000000 0 0 30000000000 10000000000 0 _ (StartGuard 0)
    (StartSample.start_played StartSample.before)) as (k & t & s & r & Es & _ & Hk & _ & A & _).
  { rewrite E, E0. discriminate. }
  rewrite E, E0 in Es. simpl in Es. injection Es as <-. exists t. split; [exact Hk|exact A].
Defined.

Lemma observed_start_is_true_witness :
  exists t, takes (base (StartSample.play StartSample.whole)) !! 0%nat = Some t /\ c_started (continuity t) = true.
Proof.
  destruct (takes (base (StartSample.play StartSample.whole)) !! 0%nat) as [t|] eqn:Ht; [|vm_compute in Ht; discriminate].
  assert ((fun r => OperationReceipt.phase r) <$> (takes (base (StartSample.play StartSample.whole)) !! 0%nat >>? start_operation)
          = Some OperationReceipt.Observed) as E by (vm_compute; reflexivity).
  rewrite Ht in E. simpl in E. destruct (start_operation t) as [r|] eqn:Er; [|discriminate]. injection E as E.
  exists t. split; [reflexivity|].
  exact (observed_start_is_true 7 StopSample.identity 5000000000 0 0 30000000000 10000000000 0 _ 0 t r
    (StartSample.start_played StartSample.whole) Ht Er E).
Defined.

Lemma reservation_is_held_witness :
  exists k t, starts (StartSample.play StartSample.before) !! k = Some t /\ active (s_pc t) = true.
Proof.
  apply (proj1 (reservation_is_held 7 StopSample.identity 5000000000 0 0 30000000000 10000000000 0 _
    (StartSample.start_played StartSample.before))).
  vm_compute. discriminate.
Defined.

(** A start that its final guard refuses was certainly not sent.  Its receipt says unknown, though,
    and not that nothing was dispatched, and an unknown receipt blocks the next start. *)
Lemma refused_start_is_unknown :
  let w := StartSample.play (StartSample.before ++ [StartDispatched 0 (BeforeDispatch "Control is held")]) in
  sends w = [] /\ map OperationReceipt.phase (store (base w))
    = [OperationReceipt.Prepared; OperationReceipt.Dispatching; OperationReceipt.Unknown].
Proof. vm_compute. done. Qed.

Lemma accepted_clip_is_in_bounds_witness : RecordClip.refusal RecordClip.sample_request = None.
Proof.
  apply (RecordClip.accepted_clip_is_in_bounds RecordClip.sample_arguments RecordClip.sample_request RecordClip.sample_parses).
  repeat constructor.
Defined.
