(* ===== verification/StdioSample.v ===== *)
(** * A run of the standard output *)
From S2P Require Import Prelude Json Serde StdioOutput StdioPublication StdioInput.
From S2P Require Sample.

(** The codec of [Sample], moved out of the control characters *)
Lemma enc_string_nonneg s : Forall (Z.le 0) (Sample.enc_string s).
Proof. induction s; simpl; repeat constructor; [lia|lia|unfold byte_of; lia|done]. Qed.

Lemma enc_Z_nonneg z : Forall (Z.le 0) (Sample.enc_Z z).
Proof.
  assert (forall p, Forall (Z.le 0) (Sample.enc_pos p)) as H by (induction p; simpl; repeat constructor; (lia || done)).
  destruct z; simpl; repeat constructor; (lia || done).
Qed.

Lemma enc_nonneg v : Forall (Z.le 0) (Sample.enc v).
Proof.
  induction v as [|b|m|s|vs IH|fs IH] using Sample.value_ind; cbn [Sample.enc].
  - repeat constructor. lia.
  - destruct b; repeat constructor; lia.
  - destruct m; repeat constructor; try lia; apply enc_Z_nonneg.
  - constructor; [lia|apply enc_string_nonneg].
  - constructor; [lia|]. apply Forall_app. split; [|repeat constructor; lia]. induction IH; [constructor|]. simpl.
    by apply Forall_app.
  - constructor; [lia|]. apply Forall_app. split; [|repeat constructor; lia]. induction IH as [|[k v] fs Hv _ IHf]; [constructor|].
    simpl. rewrite !Forall_app. split; [split; [apply enc_string_nonneg|done]|done].
Qed.

#[export] Instance line_codec : SerdeJson.
Proof.
  refine {| to_vec v := map (Z.add 32) (Sample.enc v);
            from_slice l := @from_slice Sample.sample_codec (map (Z.add (-32)) l) |}.
  intros v Hv. rewrite map_map, (map_ext _ (fun b => b)), map_id by (intros; lia).
  exact (@from_slice_to_vec Sample.sample_codec v Hv).
Defined.

Lemma one_line v : 10 ∉ to_vec v.
Proof.
  simpl. intros H. apply list_elem_of_In, in_map_iff in H as (b & E & H). pose proof (enc_nonneg v) as Hn.
  rewrite Forall_forall in Hn. specialize (Hn b ltac:(by apply list_elem_of_In)). lia.
Qed.

Definition sample_limits : Limits := ordinary 4 1000.

Lemma sample_limits_wf : limits_wf sample_limits.
Proof. unfold limits_wf, sample_limits, ordinary, TEMPLATE_ENTRIES, HEADER_BYTES, FRAMES, AMPLIFIED_BYTES, U64_MAX. simpl. lia. Qed.

(** Two values twice, reserved first; a null overtakes them; a third reservation stays out. *)
Definition cycles : list Cycle := [{| values := [Bool true; Str "a"]; repetitions := 2 |}].
Definition sample_inputs : list Input :=
  [Reserve cycles; TrySend Null; Commit 0; Reserve cycles; Received; Written (Ok 1%nat)].
Definition sample_world : World := default (with_budgets sample_limits) (run_contracted sample_inputs (with_budgets sample_limits)).

Lemma sample_cycles_wf : Forall cycle_wf cycles.
Proof. repeat constructor. unfold cycle_wf. simpl. lia. Qed.

Lemma sample_reached : reached sample_limits sample_world.
Proof.
  apply (run_reaches _ sample_inputs (with_budgets sample_limits)); [constructor|]. vm_compute. reflexivity.
Qed.

Lemma publications_reach_the_pipe_in_order_witness :
  pipe sample_world = [42] /\ exists done rest, committed sample_world = done ++ rest /\ pipe sample_world = concat (concat (map snd done)) ++ partial (signals sample_world) rest.
Proof.
  split; [by vm_compute|].
  destruct (publications_reach_the_pipe_in_order sample_limits sample_world sample_limits_wf sample_reached) as (d & r & E & _ & _ & _ & _ & P & _).
  exists d, r. exact (conj E P).
Defined.

Lemma permits_conserved_witness :
  add_permits (pools sample_world) (held_by (alive sample_world)) = budget sample_limits
  /\ p_items (pools sample_world) + Z.of_nat (length (alive sample_world)) = l_items sample_limits
  /\ p_items (pools sample_world) = 1.
Proof.
  destruct (permits_conserved sample_limits sample_world sample_limits_wf sample_reached) as (B & _ & _ & I).
  split; [exact B|]. split; [exact I|]. by vm_compute.
Defined.

Lemma admission_is_bounded_witness :
  match reserve_publication cycles sample_world with (Ok k, _) => k = 3%nat | _ => False end
  /\ match reserve_publication cycles sample_world with
     | (Ok _, w') => committed w' = committed sample_world
     | (Err _, w') => w' = sample_world
     end.
Proof.
  split; [by vm_compute|].
  pose proof (admission_is_bounded sample_limits sample_world cycles sample_limits_wf sample_reached sample_cycles_wf) as H.
  destruct (reserve_publication cycles sample_world) as [[k|f] w']; [|done].
  destruct H as (e & _ & _ & _ & _ & _ & _ & _ & _ & H & _). exact H.
Defined.

Lemma writer_checks_never_fail_witness :
  exists w', step (Written (Err BrokenPipe)) sample_world = Some w' /\ ended w' = Some (FailedWith BrokenPipe).
Proof.
  destruct (writer_checks_never_fail sample_limits sample_world (Written (Err BrokenPipe)) sample_limits_wf sample_reached I)
    as (w' & E & _).
  exists w'. split; [exact E|]. vm_compute in E. injection E as <-. reflexivity.
Defined.

Definition sample_chunks : list nat := repeat 2%nat 60.
Definition drained_world : World := default sample_world (drain sample_chunks sample_world).

Lemma committed_publications_complete_witness :
  exists w', drain sample_chunks sample_world = Some w' /\ pipe w' = concat (concat (map snd (committed w'))).
Proof.
  destruct (committed_publications_complete sample_limits sample_world sample_chunks sample_limits_wf sample_reached)
    as (w' & E & _ & _ & P & _); [by vm_compute|vm_compute; lia|exact (ex_intro _ w' (conj E P))].
Defined.

(** The pipe, read seven bytes at a time, with a call dropped in between *)
Definition sample_reader : list Fill :=
  [Available (take 7 (pipe drained_world)); Cancelled; Available (drop 7 (pipe drained_world))].

Lemma framing_ignores_the_cuts_witness :
  read_all 100 (new sample_reader) = frames_in [] (content sample_reader) /\ (length (fst (read_all 100 (new sample_reader))) = 5)%nat.
Proof.
  split; [|by vm_compute]. apply framing_ignores_the_cuts; [repeat constructor; vm_compute; discriminate|vm_compute; lia].
Defined.

Lemma reader_gets_the_publications_witness :
  read_all 100 (new sample_reader) = (concat (map snd (committed sample_world)), Ended).
Proof.
  apply (reader_gets_the_publications one_line sample_limits sample_world sample_chunks drained_world);
    [exact sample_limits_wf|exact sample_reached|by vm_compute|vm_compute; lia|by vm_compute| | |by vm_compute|vm_compute; lia].
  - apply (bool_decide_unpack _). vm_compute. exact I.
  - repeat constructor; vm_compute; discriminate.
Defined.
