(* ===== verification/ToolSample.v ===== *)
(** * A small catalogue, and inputs its schemas refuse

    One ordinary tool, the three controllers of the dynamic groups, and the theorems of
    [ToolTyping] applied to them. *)
From S2P Require Import Prelude Json Text Serde Control Number ToolSchema JsonSchema ToolValidation ToolTyping ToolMeaning.
From S2P Require Import Sample TakeSample.

Module ToolSample.
Definition text (s : string) : Ordered.t := Ordered.Scalar (Str s).
Definition flag (b : bool) : Ordered.t := Ordered.Scalar (Bool b).
Definition number (n : Z) : Ordered.t := Ordered.Scalar (num n).
Definition obj (l : list (string * Ordered.t)) : Ordered.t := Ordered.Object l.

(** A count that is not negative, a name of up to five characters, an optional list of flags *)
Definition schema : Ordered.t :=
  obj [("type", text "object");
       ("properties",
        obj [("count", obj [("type", text "integer"); ("minimum", number 0);
                       ("maximum", number 9007199254740991)]);
             ("name", obj [("type", text "string"); ("maxLength", number 5)]);
             ("flags", obj [("type", text "array"); ("items", obj [("type", text "boolean")]); ("maxItems", number 2)])]);
       ("required", Ordered.Array [text "count"; text "name"]);
       ("additionalProperties", flag false)].

(** The exported schema of [obs-take-scene] *)
Definition take_scene : Ordered.t :=
  obj [("type", text "object");
       ("properties",
        obj [("stageId", obj [("type", text "string"); ("format", text "uuid"); ("pattern", text UUID_PATTERN)])]);
       ("required", Ordered.Array [text "stageId"]);
       ("$schema", text "https://json-schema.org/draft/2020-12/schema")].

Definition stage (id : string) : Value := object_of [("stageId", Str id)].

Definition controller_tool (name : string) : Ordered.t :=
  obj [("name", text name); ("title", text "t"); ("description", text "d");
       ("annotations", obj (map (fun '(k, b) => (k, flag b)) annotations_expected));
       ("inputSchema", obj [("type", text "object")])].

Definition root : Ordered.t :=
  obj [("tools", Ordered.Array [obj [("name", text "obs-set-count"); ("inputSchema", schema)];
                                obj [("name", text "obs-take-scene"); ("inputSchema", take_scene)]]);
       ("toolsets", obj [("dynamic", obj [("tools", Ordered.Array (map controller_tool DYNAMIC_CONTROLLERS))])])].

Definition schemas : gmap string Ordered.t :=
  match catalog root with Some m => m | None => ∅ end.

(** The count is wrong, the name is missing, a key is unknown. *)
Definition wrong : Value := object_of [("count", Num (NegInt (-3))); ("level", num 1)].
Definition right : Value := object_of [("count", num 3); ("name", str "mic")].

Definition issues : list string :=
  ["count: Too small: expected number to be >=0"; "name: Invalid input: expected string, received undefined";
   "Unrecognized key: " +:+ json_text "level"].

Definition answer : Value :=
  error_value ("Input validation error: Invalid arguments for tool obs-set-count: " +:+ join ", " issues).
End ToolSample.
Import ToolSample.

Lemma found : schemas !! "obs-set-count"%string = Some schema.
Proof. by vm_compute. Qed.

Lemma wrong_answer : tool_error schemas "obs-set-count" (Ordered.value schema) wrong = Some (Ok answer).
Proof. by vm_compute. Qed.

Lemma right_answer : tool_error schemas "obs-set-count" (Ordered.value schema) right = Some (Err NoIssues).
Proof. by vm_compute. Qed.

(** The bound of the text is 5 characters and not 5 bytes. *)
Lemma umlauts_fit :
  let name := str_of_bytes [195; 164; 195; 182; 195; 188; 195; 159; 46] in
  tool_error schemas "obs-set-count" (Ordered.value schema)
    (object_of [("count", num 3); ("name", Str name)]) = Some (Err NoIssues).
Proof. by vm_compute. Qed.

Lemma samples_regular : regular schema = true /\ regular take_scene = true.
Proof. by vm_compute. Qed.

Lemma take_scene_found : schemas !! "obs-take-scene"%string = Some take_scene.
Proof. by vm_compute. Qed.

Lemma right_clean : clean right.
Proof.
  intros s H L. inversion H as [|? ? Hv _|fields key v E Hs]; subst.
  simpl in E. destruct (str_eqb key "count"); [injection E as <-; inversion Hs|].
  destruct (str_eqb key "name"); [|done]. injection E as <-. inversion Hs; subst. by vm_compute in L.
Qed.

Lemma stage_wrong : exists e,
  tool_error schemas "obs-take-scene" (Ordered.value take_scene) (stage "mic") = Some (Ok e).
Proof. eexists. by vm_compute. Qed.

(** The wrong inputs are not of their schemas, the right one is. *)
Lemma input_errors_are_type_errors_witness :
  ~ valid Regex.matches schema wrong /\ valid Regex.matches schema right
  /\ ~ valid Regex.matches take_scene (stage "mic").
Proof.
  split; [|split].
  - destruct (input_errors_are_type_errors schemas ∅ schema wrong
                (tool_error schemas "obs-set-count" (Ordered.value schema) wrong)
                (answers_tool _ _ _ _ _ _ found) (proj1 samples_regular)) as (E & _).
    by apply (E answer wrong_answer).
  - destruct (input_errors_are_type_errors schemas ∅ schema right
                (tool_error schemas "obs-set-count" (Ordered.value schema) right)
                (answers_tool _ _ _ _ _ _ found) (proj1 samples_regular)) as (_ & N).
    exact (proj2 (N right_answer) right_clean).
  - destruct (input_errors_are_type_errors schemas ∅ take_scene (stage "mic")
                (tool_error schemas "obs-take-scene" (Ordered.value take_scene) (stage "mic"))
                (answers_tool _ _ _ _ _ _ take_scene_found) (proj2 samples_regular)) as (E & _).
    destruct stage_wrong as (e & W). by apply (E e W).
Defined.

(** The exception: the projector finds nothing in an identifier the exported schema refuses. *)
Lemma upper_case_passes :
  tool_error schemas "obs-take-scene" (Ordered.value take_scene) (stage "FFFFFFFF-FFFF-FFFF-FFFF-FFFFFFFFFFFF")
  = Some (Err NoIssues)
  /\ ~ valid Regex.matches take_scene (stage "FFFFFFFF-FFFF-FFFF-FFFF-FFFFFFFFFFFF").
Proof.
  split; [by vm_compute|]. intros [_ _ _ _ _ _ _ _ _ _ P _ _].
  specialize (P _ "stageId"%string _ _ eq_refl eq_refl eq_refl) as [_ _ _ _ _ _ T _ _ _ _ _ _].
  destruct (T _ eq_refl) as (_ & H). destruct (H _ eq_refl) as (p & [= <-] & M). by apply upper_case_maximum.
Qed.

Lemma projections_never_panic_witness :
  tool_error schemas "obs-set-count" (Ordered.value schema) wrong <> None.
Proof.
  exact (projections_never_panic schemas ∅ schema wrong _ (answers_tool _ _ _ _ _ _ found) eq_refl).
Defined.

(** What the condition on records excludes: a record that qualifies, with an [enum] that is no array *)
Definition enum_record : Ordered.t :=
  obj [("type", text "object"); ("propertyNames", obj [("type", text "string")]); ("additionalProperties", obj []);
       ("enum", text "panic")].

Lemma enum_of_record_panics :
  qualify levels enum_record = Ok tt /\ project_input_error "obs-set-count" enum_record (Object []) None = None.
Proof. by vm_compute. Qed.

Lemma catalog_some : is_none (catalog root) = false.
Proof. by vm_compute. Qed.

Lemma some_catalog {A} (o : option A) d : is_none o = false -> o = Some (match o with Some m => m | None => d end).
Proof. by destruct o. Qed.

Lemma catalog_here : catalog root = Some schemas.
Proof. exact (some_catalog _ ∅ catalog_some). Qed.

Lemma catalogue_keeps_controllers_apart_witness :
  (controller root "obs-enable-toolset" (obj [("type", text "object")])
   /\ forall other node', In other DYNAMIC_CONTROLLERS -> ~ ordinary root other node')
  /\ ordinary root "obs-set-count" schema.
Proof.
  split.
  - apply (catalogue_keeps_controllers_apart root schemas "obs-enable-toolset" (obj [("type", text "object")])
             catalog_here); [by vm_compute|right; by left].
  - apply (catalogue_keeps_controllers_apart root schemas "obs-set-count" schema catalog_here found).
    by vm_compute; intros [|[|[|]]].
Defined.
