(* ===== verification/Witnesses.v ===== *)
(** * Concrete runs

    For each theorem with hypotheses, a closed instance in the world of [Sample] in which
    the hypotheses are checked by evaluation. *)
From S2P Require Import Prelude Json Serde ReceiptFields PhaseMachine Filesystem Store Publication StoredReceipt OperationView Reading Inventory Backend Refinement Capacity Healthy Broker BrokerSafety BrokerFence OperationStore Sample.
From S2P Require OperationReceipt GenericReceipt RestoreReceipt ApplyReceipt CaptureReceipt Control Dispatch Custody.

(** Only the result of a run is evaluated; the state it leaves is named by the run. *)
Lemma run_eq {A B} (p : A * B) a : fst p = a -> p = (a, snd p).
Proof. intros <-. apply surjective_pairing. Qed.

Lemma run_eq3 {A B C} (p : A * B * C) a : fst (fst p) = a -> p = (a, snd (fst p), snd p).
Proof. intros <-. by destruct p as [[? ?] ?]. Qed.

Ltac by_vm := vm_compute; reflexivity.

(** ** Receipts *)

(** The receipt a list of updates leads to *)
Fixpoint replay {R U} `{!PhaseMachine R U} (r : R) (us : list (U * string)) : result StoreError R :=
  match us with
  | [] => Ok r
  | (u, at_) :: us => let? r := pm_updated r u at_ in replay r us
  end.

Lemma replay_history {R U} `{!PhaseMachine R U} (us : list (U * string)) : forall r r',
  replay r us = Ok r' -> history r us r'.
Proof.
  induction us as [|[u at_] us IH]; intros r r'; simpl.
  - intros [= <-]. constructor.
  - intros (r1 & Hu & Hr)%bind_result_Ok. econstructor; [done|]. by apply IH.
Qed.

Definition or_else {E A} (a : A) (r : result E A) : A := match r with Ok x => x | Err _ => a end.

Definition at_utc {U} (us : list U) : list (U * string) := map (fun u => (u, sample_utc)) us.

Definition generic_sample : GenericReceipt.GenericReceipt :=
  GenericReceipt.prepared_record sample_id GenericReceipt.StreamStop (hash "") 5 sample_utc.
Definition generic_updates : list (GenericReceipt.GenericPhase * string) :=
  at_utc [GenericReceipt.Dispatching; GenericReceipt.Accepted].

Lemma generic_dispatched_at_most_once_witness :
  (dispatches generic_updates <= 1)%nat /\ (length generic_updates <= 2)%nat.
Proof.
  destruct (GenericReceipt.generic_dispatched_at_most_once generic_sample generic_updates
    (or_else generic_sample (replay generic_sample generic_updates))) as (H1 & H2 & _);
    [|exact (conj H1 H2)].
  apply replay_history. by_vm.
Defined.

Definition restore_sample : RestoreReceipt.RestoreReceipt :=
  or_else (RestoreReceipt.prepared_record sample_id (hash "") 5 3 sample_utc)
    (replay (RestoreReceipt.prepared_record sample_id (hash "") 5 3 sample_utc)
       (at_utc [(RestoreReceipt.Dispatching, None)])).

Lemma restore_counts_account_witness :
  exists r', RestoreReceipt.updated restore_sample
    (RestoreReceipt.Acknowledged,
     Some {| RestoreReceipt.successful := 2; RestoreReceipt.failed := 1 |}) sample_utc = Ok r'.
Proof.
  apply (RestoreReceipt.restore_counts_account restore_sample RestoreReceipt.Acknowledged
    (Some {| RestoreReceipt.successful := 2; RestoreReceipt.failed := 1 |}) sample_utc);
    try (by_vm).
  eexists. split; reflexivity.
Defined.

Definition apply_prepared : ApplyReceipt.ApplyReceipt :=
  ApplyReceipt.prepared_record sample_id (hash "") 5 2 sample_utc.
Definition apply_updates : list (ApplyReceipt.ApplyUpdate * string) :=
  at_utc [ApplyReceipt.DispatchCreations;
          ApplyReceipt.CreationsAcknowledged
            {| ApplyReceipt.successful := 2; ApplyReceipt.failed := 0; ApplyReceipt.skipped := 0 |};
          ApplyReceipt.DispatchChanges 4].
Definition apply_sample : ApplyReceipt.ApplyReceipt :=
  or_else apply_prepared (replay apply_prepared apply_updates).

Lemma changes_only_after_clean_creations_witness :
  ApplyReceipt.request_count (ApplyReceipt.creations apply_sample) = 0 \/
  exists c, ApplyReceipt.counts (ApplyReceipt.creations apply_sample) = Some c /\
    ApplyReceipt.failed c = 0 /\ ApplyReceipt.skipped c = 0 /\
    ApplyReceipt.successful c = ApplyReceipt.request_count (ApplyReceipt.creations apply_sample).
Proof.
  apply (ApplyReceipt.changes_only_after_clean_creations apply_sample
    (default (ApplyReceipt.creations apply_sample) (ApplyReceipt.changes apply_sample)));
    by_vm.
Defined.

Lemma apply_bounded_history_witness :
  (dispatches apply_updates <= 2)%nat /\ (length apply_updates <= 4)%nat.
Proof.
  destruct (ApplyReceipt.apply_bounded_history apply_prepared apply_updates apply_sample)
    as (H1 & H2 & _); [|exact (conj H1 H2)].
  apply replay_history. by_vm.
Defined.

Definition capture_prepared : CaptureReceipt.CaptureReceipt :=
  CaptureReceipt.prepared_record sample_id (hash "") 5
    {| CaptureReceipt.initial := CaptureReceipt.ICreate; CaptureReceipt.audio := false;
       CaptureReceipt.fit := true |} sample_utc.
Definition capture_updates : list (CaptureReceipt.CaptureUpdate * string) :=
  at_utc [CaptureReceipt.Dispatch CaptureReceipt.Initial].
Definition capture_sample : CaptureReceipt.CaptureReceipt :=
  or_else capture_prepared (replay capture_prepared capture_updates).
Definition capture_close : CaptureReceipt.CaptureReceipt :=
  or_else capture_sample (CaptureReceipt.next capture_sample CaptureReceipt.UUnknown sample_utc).

Lemma capture_update_total_witness :
  CaptureReceipt.updated capture_sample CaptureReceipt.UUnknown sample_utc = Ok capture_close /\
  CaptureReceipt.record_valid capture_close = true.
Proof.
  apply (CaptureReceipt.capture_update_total capture_sample CaptureReceipt.UUnknown sample_utc
    capture_close); first [by_vm | exact I].
Defined.

Lemma capture_bounded_history_witness : (dispatches capture_updates <= 3)%nat.
Proof.
  destruct (CaptureReceipt.capture_bounded_history capture_prepared capture_updates capture_sample)
    as ([H1 H2] & _); [by_vm| |exact (Nat.le_trans _ _ _ H1 H2)].
  apply replay_history. by_vm.
Defined.

Lemma capture_steps_in_order_witness :
  exists pre x suf,
    CaptureReceipt.needed (CaptureReceipt.steps capture_sample) = pre ++ x :: suf /\
    CaptureReceipt.step x = CaptureReceipt.Initial.
Proof.
  destruct (CaptureReceipt.capture_steps_in_order capture_sample CaptureReceipt.Initial)
    as (pre & x & suf & H1 & H2 & _); [by_vm..|].
  exists pre, x, suf. exact (conj H1 H2).
Defined.

Lemma stored_receipt_roundtrip_witness :
  decode (to_vec (to_value (Generic generic_sample))) = Ok (Generic generic_sample).
Proof.
  apply (stored_receipt_roundtrip (Generic generic_sample)); [by_vm|exact I].
Defined.

(** ** The store *)

Definition after_run {A} (m : M A) (s : State) : State := snd (m s).

Definition sample_publish : M unit := persist_value sample_id (Str "x") false.

Lemma sample_publish_run : sample_publish sample_state = (Ok tt, after_run sample_publish sample_state).
Proof. unfold after_run. apply run_eq. by_vm. Qed.

Lemma publication_atomic_witness :
  contents sample_dir (disk (world (after_run sample_publish sample_state)))
    (receipt_name sample_id) = Some (to_vec (Str "x")).
Proof.
  exact (proj1 (publication_atomic sample_dir (sample_private sample_dir) sample_id (Str "x") false
    sample_state (Ok tt) (after_run sample_publish sample_state) eq_refl sample_publish_run)).
Defined.

Definition sample_op : Op := PrepareGeneric sample_id GenericReceipt.StreamStop 5 sample_utc.
Definition published : State := then_run sample_op sample_state.

Lemma published_run : run_op sample_op sample_state = (Ok (Generic generic_sample), published).
Proof. unfold published, then_run. apply run_eq. by_vm. Qed.

Lemma store_refines_receipt_map_witness :
  lookup_receipt sample_dir (disk (world sample_state)) sample_id = None /\
  lookup_receipt sample_dir (disk (world published)) sample_id = Some (Ok (Generic generic_sample)).
Proof.
  destruct (store_refines_receipt_map sample_dir (sample_private sample_dir) sample_op sample_state
    (Ok (Generic generic_sample)) published eq_refl I published_run) as (_ & H1 & H2 & _).
  exact (conj H1 H2).
Defined.

Definition sample_op2 : Op := UpdateGeneric generic_sample GenericReceipt.Dispatching sample_utc.
Definition dispatched : State := then_run sample_op2 published.

Lemma receipts_only_advance_witness :
  exists r', lookup_receipt sample_dir (disk (world dispatched)) sample_id = Some (Ok r') /\
    advances (Generic generic_sample) r'.
Proof.
  apply (receipts_only_advance sample_dir (sample_private sample_dir) published dispatched sample_id
    (Generic generic_sample)); [|by_vm|by_vm].
  apply (run_cons _ sample_op2 (fst (run_op sample_op2 published)) dispatched);
    [exact I|apply surjective_pairing|apply run_nil].
Defined.

Lemma sample_consistent s :
  lookup_path (disk (world s)) sample_dir <> None -> consistent sample_dir (disk (world s)).
Proof. intros Hn H. contradiction. Qed.

Definition the_inventory : list StoredReceipt :=
  match fst (inventory dispatched) with Ok l => l | Err _ => [] end.

Definition dispatched_receipt : StoredReceipt :=
  Generic (or_else generic_sample
    (GenericReceipt.updated generic_sample GenericReceipt.Dispatching sample_utc)).

Lemma dispatched_here : here sample_dir dispatched.
Proof. red. by_vm. Qed.

Lemma dispatched_consistent : consistent sample_dir (disk (world dispatched)).
Proof. apply sample_consistent. vm_compute. discriminate. Qed.

Definition inventoried : State := after_run inventory dispatched.

Lemma inventory_run : inventory dispatched = (Ok the_inventory, inventoried).
Proof. unfold inventoried, after_run. apply run_eq. by_vm. Qed.

Lemma inventory_again :
  inventory inventoried = (Ok the_inventory, after_run inventory inventoried).
Proof. unfold after_run. apply run_eq. by_vm. Qed.

Lemma dispatched_reads :
  reads_as sample_dir (disk (world dispatched)) (receipt_name sample_id) dispatched_receipt.
Proof. split; [by_vm|]. split; by_vm. Qed.

Lemma inventory_exact_witness : In dispatched_receipt the_inventory /\ NoDup the_inventory.
Proof.
  destruct (inventory_exact sample_dir (sample_owned sample_dir) dispatched the_inventory inventoried
    dispatched_here dispatched_consistent inventory_run) as (_ & Hin & Hnd & _).
  refine (conj (proj2 (Hin dispatched_receipt) (conj _ dispatched_reads)) Hnd). by_vm.
Defined.

Lemma inventoried_frame : framed_by sample_dir (steady sample_dir) inventory.
Proof. apply inventory_framed; [apply _|apply sample_owned]. Qed.

Lemma inventory_deterministic_witness : the_inventory = the_inventory.
Proof.
  refine (inventory_deterministic sample_dir (sample_owned sample_dir) dispatched the_inventory
    inventoried inventoried the_inventory (after_run inventory inventoried)
    dispatched_here _ dispatched_consistent
    (frame_children _ _ _ (inventoried_frame dispatched dispatched_here)) _ inventory_run inventory_again).
  - red. by_vm.
  - by_vm.
Defined.

Definition the_admission : Admission := admission_of (Some sample_id) the_inventory.

Lemma admission_run :
  admission_except (Some sample_id) dispatched =
  (Ok the_admission, after_run (admission_except (Some sample_id)) dispatched).
Proof. unfold after_run. apply run_eq. by_vm. Qed.

Lemma admission_unblocked_witness :
  adm_blocking the_admission = false /\
  (forall rec, endpoint rec = endpoint_hash (backend dispatched) ->
    reads_as sample_dir (disk (world dispatched)) (receipt_name (receipt_id rec)) rec ->
    Some (receipt_id rec) = Some sample_id \/ blocking rec = false).
Proof.
  assert (H : adm_blocking the_admission = false) by by_vm.
  exact (conj H (proj1 (admission_unblocked sample_dir (sample_owned sample_dir) (Some sample_id)
    dispatched the_admission (after_run (admission_except (Some sample_id)) dispatched)
    dispatched_here dispatched_consistent admission_run) H)).
Defined.

Lemma sample_sound : sound sample_state.
Proof.
  split; try (by_vm); try discriminate.
  - repeat constructor.
  - intros q r Hq. exists (match length q with O => (1, 1) | 1%nat => (1, 2) | _ => (1, 3) end).
    exists a_directory.
    destruct q as [|a [|b [|c q]]]; simpl in Hq; simplify_eq; vm_compute; (split; [|split]); reflexivity.
Qed.

Lemma published_receipt_reads_back_witness :
  exists s1 s2,
    persist_value sample_id (to_value (Generic generic_sample)) false sample_state = (Ok tt, s1) /\
    read_stored (path_join (directory (backend s1)) (receipt_name sample_id)) s1
      = (Ok (Generic generic_sample), s2).
Proof.
  apply (published_receipt_reads_back sample_state (Generic generic_sample) sample_sound);
    first [by_vm | exact I | vm_compute; first [reflexivity | discriminate]].
Defined.

(** ** The broker *)

#[local] Instance sample_capacity : CapacityStore :=
  owned_capacity_store sample_dir (sample_owned sample_dir).

Lemma sample_fresh : fresh_store sample_state.
Proof.
  split; [|reflexivity]. split; [reflexivity|]. apply sample_consistent. vm_compute. discriminate.
Qed.

Definition take_calls : list Call := [CScope Take; CScope (GenericScope GenericReceipt.StreamStop)].
Definition take_broker : Broker := run_calls take_calls (broker_new sample_state).

Lemma broker_invariant_witness :
  Z.of_nat (size (scopes take_broker)) <= MAX_SCOPES /\ is_Some (scopes take_broker !! 2).
Proof.
  split; [|vm_compute; eexists; reflexivity].
  exact (proj1 (broker_invariant sample_state take_calls sample_fresh)).
Defined.

Lemma reserved_stop_never_crowded_out_witness :
  fst (port_prepare 1 sample_id OperationReceipt.RecordStop 5 sample_utc no_details take_broker)
    <> Err InventoryLimit.
Proof.
  apply (reserved_stop_never_crowded_out sample_state take_calls 1
    {| kind := Take; ids := ∅; stop_reserved := true |} sample_id 5 sample_utc no_details sample_fresh);
    by_vm.
Defined.

Lemma lost_proof_is_final_witness :
  scope Stage (snd (poison take_broker)) = (Err DurabilityUncertain, snd (poison take_broker)) /\
  permits 1 sample_id (snd (poison take_broker)) =
    (Err DurabilityUncertain, snd (poison take_broker)).
Proof.
  pose proof (lost_proof_is_final [] (snd (poison take_broker)) eq_refl) as H.
  exact (conj (proj1 (proj2 H) Stage) (proj1 (proj2 (proj2 (proj2 H))) 1 sample_id)).
Defined.

Definition lent_calls : list Call :=
  take_calls ++ [CPrepareGeneric 2 sample_id GenericReceipt.StreamStop 5 sample_utc;
                 CUpdateGeneric 2 generic_sample GenericReceipt.Dispatching sample_utc].
Definition lent_broker : Broker := run_calls lent_calls (broker_new sample_state).

Lemma lent_ok : dir_ok sample_dir (store lent_broker).
Proof. split; [red; by_vm|]. apply sample_consistent. vm_compute. discriminate. Qed.

Lemma permits_run :
  permits 2 sample_id lent_broker = (Ok true, snd (permits 2 sample_id lent_broker)).
Proof. apply run_eq. by_vm. Qed.

Lemma permits_sound_witness :
  broker_poisoned lent_broker = false /\
  exists sc, scopes lent_broker !! 2 = Some sc /\ sample_id ∈ ids sc.
Proof.
  destruct (permits_sound sample_dir (sample_owned sample_dir) 2 sample_id lent_broker
    (snd (permits 2 sample_id lent_broker)) lent_ok permits_run) as (H1 & sc & H2 & H3 & _).
  split; [exact H1|]. exists sc. exact (conj H2 H3).
Defined.

(** ** Dispatch *)

(** A schedule in which the socket owner takes the command, prepares it point by point,
    sends it, replies, and the caller receives the reply *)
Inductive Move := MTake | MPrepare | MSend | MReply | MReceive | MTimeOut.

Section Schedules.
Context {G R : Type} (guard : G -> result string unit * G) (value : R).

Definition move (m : Move) (c : @Dispatch.Config G R) : option (@Dispatch.Config G R) :=
  match m, Dispatch.place c with
  | MTake, Dispatch.Queued => Some (Dispatch.at_place (Dispatch.Preparing Dispatch.AtExpected) c)
  | MPrepare, Dispatch.Preparing p => Some (Dispatch.prepare_step guard false p false None c)
  | MSend, Dispatch.Active => Some (Dispatch.send c)
  | MReply, Dispatch.Sending => Some (Dispatch.finish (Ok value) c)
  | MReceive, _ =>
      match Dispatch.caller c, Dispatch.reply c with
      | Dispatch.Waiting, Some r => Some (Dispatch.set_caller (Dispatch.Returned r) c)
      | _, _ => None
      end
  | MTimeOut, _ =>
      match Dispatch.caller c with
      | Dispatch.Waiting => Some (Dispatch.time_out c)
      | _ => None
      end
  | _, _ => None
  end.

Fixpoint play (ms : list Move) (c : @Dispatch.Config G R) : option (@Dispatch.Config G R) :=
  match ms with
  | [] => Some c
  | m :: ms => move m c >>? play ms
  end.

Lemma move_step m c c' : move m c = Some c' -> Dispatch.step guard false c c'.
Proof.
  unfold move. intros Hm. destruct m.
  - destruct (Dispatch.place c) eqn:Ep; try discriminate. injection Hm as <-. by constructor.
  - destruct (Dispatch.place c) eqn:Ep; try discriminate. injection Hm as <-. by constructor.
  - destruct (Dispatch.place c) eqn:Ep; try discriminate. injection Hm as <-. by constructor.
  - destruct (Dispatch.place c) eqn:Ep; try discriminate. injection Hm as <-. by constructor.
  - assert (Hm' : match Dispatch.caller c, Dispatch.reply c with
      | Dispatch.Waiting, Some r => Some (Dispatch.set_caller (Dispatch.Returned r) c)
      | _, _ => None end = Some c') by (by destruct (Dispatch.place c)).
    destruct (Dispatch.caller c) eqn:Ec; try discriminate.
    destruct (Dispatch.reply c) eqn:Er; try discriminate. injection Hm' as <-. by constructor.
  - assert (Hm' : match Dispatch.caller c with
      | Dispatch.Waiting => Some (Dispatch.time_out c) | _ => None end = Some c')
      by (by destruct (Dispatch.place c)).
    destruct (Dispatch.caller c) eqn:Ec; try discriminate. injection Hm' as <-. by constructor.
Qed.

Lemma play_steps ms : forall c c', play ms c = Some c' -> rtc (Dispatch.step guard false) c c'.
Proof.
  induction ms as [|m ms IH]; intros c c'; simpl; [by intros [= <-]|].
  destruct (move m c) as [c1|] eqn:E; simpl; [|done]. intros Hp. eapply rtc_l; [|by apply IH].
  by eapply move_step.
Qed.

Lemma play_reachable ms g c' :
  play ms (Dispatch.enqueued g) = Some c' -> Dispatch.reachable guard false c'.
Proof. intros Hp. exists g. by eapply play_steps. Qed.

End Schedules.

Definition full_schedule : list Move :=
  [MTake; MPrepare; MPrepare; MPrepare; MPrepare; MPrepare; MPrepare; MPrepare; MPrepare;
   MSend; MReply; MReceive].

Definition agree : unit -> result string unit * unit := fun g => (Ok tt, g).
Definition delivered : @Dispatch.Config unit Z :=
  default (Dispatch.enqueued tt) (play agree 42 full_schedule (Dispatch.enqueued tt)).
Definition timed_out : @Dispatch.Config unit Z :=
  default (Dispatch.enqueued tt) (play agree 42 [MTake; MPrepare; MTimeOut] (Dispatch.enqueued tt)).

Lemma delivered_reachable : Dispatch.reachable agree false delivered.
Proof. apply (play_reachable agree 42 full_schedule tt). by_vm. Qed.

Lemma timed_out_reachable : Dispatch.reachable agree false timed_out.
Proof. apply (play_reachable agree 42 [MTake; MPrepare; MTimeOut] tt). by_vm. Qed.

Lemma reported_dispatch_is_true_witness :
  Dispatch.sent delivered = true /\ Dispatch.sent timed_out = false.
Proof.
  split.
  - refine (proj2 (Dispatch.reported_dispatch_is_true agree false delivered delivered (Ok 42)
      delivered_reachable _ (rtc_refl _ _)) eq_refl eq_refl). by_vm.
  - refine (proj1 (Dispatch.reported_dispatch_is_true agree false timed_out timed_out
      (Err (Dispatch.NotSent Dispatch.Deadline)) timed_out_reachable _ (rtc_refl _ _)) eq_refl).
    by_vm.
Defined.

Lemma sent_only_when_guarded_witness :
  Dispatch.cell delivered = Dispatch.DISPATCHING /\
  exists g, Dispatch.guarded_at delivered = Some g /\ fst (agree g) = Ok tt.
Proof.
  refine (Dispatch.sent_only_when_guarded agree false delivered delivered_reachable _).
  by_vm.
Defined.

(** ** Custody *)

#[local] Existing Instance Control.zero_format.

Definition sample_policy : Custody.PolicyCall :=
  {| Custody.tool_name := "obs-take-start"; Custody.arguments := Object [];
     Custody.read_only_hint := false; Custody.caller := "camera";
     Custody.confirmation := {| Control.enabled := false; Control.can_elicit := false;
                                Control.input_responses := None |} |}.

Definition sample_request : Custody.TrackedRequest :=
  {| Custody.tr_operation_id := sample_id; Custody.tr_kind := OperationReceipt.RecordStart;
     Custody.expected := 5; Custody.policy := sample_policy; Custody.details := no_details;
     Custody.request_type := "StartRecord"; Custody.request_data := Null;
     Custody.timeout := 1000 |}.

Definition sample_snapshot : Custody.ClockSnapshot :=
  {| Custody.epoch_ms := 1704067200000; Custody.utc := sample_utc |}.

Definition sample_shared : Custody.Shared :=
  {| Custody.control := Control.default_domain; Custody.control_poisoned := false;
     Custody.broker := broker_new sample_state |}.

Definition sample_coordinator : Custody.CustodyCoordinator :=
  {| Custody.co_store := Direct sample_state; Custody.session_token := 5;
     Custody.session_endpoint := hash ""; Custody.pending := None |}.

Definition begun := Custody.begin sample_coordinator sample_request 10 sample_snapshot sample_shared.
Definition begun_coordinator : Custody.CustodyCoordinator := snd (fst begun).
Definition begun_shared : Custody.Shared := snd begun.

Lemma begun_run :
  Custody.begin sample_coordinator sample_request 10 sample_snapshot sample_shared =
  (Ok tt, begun_coordinator, begun_shared).
Proof. unfold begun_coordinator, begun_shared, begun. apply run_eq3. by_vm. Qed.

Lemma begin_publishes_intent_witness :
  exists p, Custody.pending begun_coordinator = Some p /\
    lookup_receipt sample_dir
      (disk (world (backing (Custody.co_store begun_coordinator) (Custody.broker begun_shared))))
      sample_id = Some (Ok (V1 (Custody.p_receipt p))) /\
    OperationReceipt.phase (Custody.p_receipt p) = OperationReceipt.Dispatching.
Proof.
  destruct (Custody.begin_publishes_intent sample_dir (sample_private sample_dir) sample_coordinator
    sample_request 10 sample_snapshot sample_shared begun_coordinator begun_shared eq_refl begun_run)
    as (_ & _ & _ & _ & p & H1 & H2 & _ & _ & _ & H3 & _).
  exists p. exact (conj H1 (conj H2 H3)).
Defined.

Definition stale_request : Custody.TrackedRequest :=
  {| Custody.tr_operation_id := sample_id; Custody.tr_kind := OperationReceipt.RecordStart;
     Custody.expected := 4; Custody.policy := sample_policy; Custody.details := no_details;
     Custody.request_type := "StartRecord"; Custody.request_data := Null;
     Custody.timeout := 1000 |}.

Definition refused := Custody.begin sample_coordinator stale_request 10 sample_snapshot sample_shared.

Lemma refused_run :
  Custody.begin sample_coordinator stale_request 10 sample_snapshot sample_shared =
  (Err Custody.BeginStaleConnection, snd (fst refused), snd refused).
Proof. unfold refused. apply run_eq3. by_vm. Qed.

Lemma refusal_creates_no_receipt_witness : snd (fst refused) = sample_coordinator.
Proof.
  destruct (Custody.refusal_creates_no_receipt sample_coordinator stale_request 10 sample_snapshot
    sample_shared Custody.BeginStaleConnection (snd (fst refused)) (snd refused) refused_run)
    as (_ & H & _).
  exact H.
Defined.

Definition the_pending : Custody.Pending :=
  match Custody.pending begun_coordinator with
  | Some p => p
  | None => {| Custody.p_receipt := v1_record sample_id OperationReceipt.RecordStart "" 5 sample_utc
                 no_details;
               Custody.p_deadline := 0; Custody.p_request := sample_request;
               Custody.p_fence := None |}
  end.

(** The moment the guard runs, and the protocol's run from there *)
Definition the_moment : Custody.Moment :=
  {| Custody.m_shared := begun_shared; Custody.m_now := 20; Custody.m_snapshot := sample_snapshot;
     Custody.m_refusal := None |}.

Definition observed : @Dispatch.Config Custody.Moment Value :=
  default (Dispatch.enqueued the_moment)
    (play (Custody.final_guard the_pending) (Object []) full_schedule (Dispatch.enqueued the_moment)).

Definition finished := Custody.finish begun_coordinator (Ok (Object [])) None sample_snapshot begun_shared.
Definition the_outcome : Custody.Outcome :=
  match fst (fst finished) with
  | Ok o => o
  | Err _ => Custody.Accepted (Custody.p_receipt the_pending) Null
  end.

Lemma the_pending_eq : Custody.pending begun_coordinator = Some the_pending.
Proof. by_vm. Qed.

Lemma begun_here : here sample_dir (backing (Custody.co_store begun_coordinator) (Custody.broker begun_shared)).
Proof. red. by_vm. Qed.

Lemma finished_run :
  Custody.finish begun_coordinator (Ok (Object [])) None sample_snapshot begun_shared =
  (Ok the_outcome, snd (fst finished), snd finished).
Proof. unfold finished. apply run_eq3. by_vm. Qed.

Lemma finish_records_response_witness :
  OperationReceipt.phase (Custody.outcome_receipt the_outcome) = OperationReceipt.Accepted /\
  Custody.pending (snd (fst finished)) = None.
Proof.
  destruct (Custody.finish_records_response sample_dir (sample_private sample_dir) begun_coordinator
    the_pending (Ok (Object [])) None sample_snapshot begun_shared (Ok the_outcome)
    (snd (fst finished)) (snd finished) begun_here the_pending_eq finished_run) as (H1 & _ & H2 & _).
  exact (conj (f_equal (fun x => fst (fst x)) H2) H1).
Defined.

Lemma finished_accepted :
  Custody.finish begun_coordinator (Ok (Object [])) None sample_snapshot begun_shared =
  (Ok (Custody.Accepted (Custody.outcome_receipt the_outcome) (Object [])), snd (fst finished),
   snd finished).
Proof. unfold finished. apply run_eq3. by_vm. Qed.

Lemma some_default {A} (a : A) o : is_none o = false -> o = Some (default a o).
Proof. by destruct o. Qed.

Lemma observed_reachable : Dispatch.reachable (Custody.final_guard the_pending) false observed.
Proof.
  apply (play_reachable (Custody.final_guard the_pending) (Object []) full_schedule the_moment).
  unfold observed. apply some_default. by_vm.
Qed.

Lemma observed_returned : Dispatch.caller observed = Dispatch.Returned (Ok (Object [])).
Proof. by_vm. Qed.

Lemma custody_end_to_end_witness :
  Dispatch.sent observed = true /\
  exists m, Dispatch.guarded_at observed = Some m /\ Custody.m_now m < Custody.p_deadline the_pending.
Proof.
  destruct (Custody.custody_end_to_end begun_coordinator the_pending (Ok (Object []))
    (Dispatch.sent observed) (Dispatch.guarded_at observed) None sample_snapshot begun_shared
    (Custody.Accepted (Custody.outcome_receipt the_outcome) (Object []))
    (snd (fst finished)) (snd finished) the_pending_eq
    (Custody.observe_returned the_pending false observed _ observed_reachable observed_returned)
    finished_accepted) as [H1 H2].
  split; [exact H1|]. destruct (H2 H1) as (m & Hm & Hd & _). exists m. exact (conj Hm Hd).
Defined.
